(* ===== verification/_CoqProject ===== *)
-Q . S2P
Prelude.v
BuildCoordinator.v
HashTable.v
DeclarationCache.v
Reachability.v
Coverage.v
Candidates.v
Resolver.v
CallModel.v
CallRows.v
Relations.v
Callables.v
Counterparts.v
CallCompact.v
Grouping.v
CallCatalog.v
Searching.v
Includes.v
IncludeEdges.v
PathProbe.v
IncludePaths.v
IncludeTable.v
GoImports.v
IndexSchedule.v
IndexedFiles.v
Globs.v
Arrays.v
NameMatch.v
NameSegments.v
NamePostings.v
NameTables.v
NameSearch.v
NamePrefix.v
NameRecall.v
TypeCandidates.v
AliasSpelling.v
AliasResolution.v
CompletionHistory.v
CompletionPipeline.v
ProjectContext.v
FallbackTable.v
ReadModels.v
Publication.v
IndexBuilds.v
