(* ===== verification/Prelude.v ===== *)
(** * FossilSense: a verification library for the navigation engine

    FossilSense is a language server for C, C++ and Go that answers navigation,
    completion and call-hierarchy questions from a stored index of declarations, without
    a compiler. This library models the parts of crates/fossilsense/src that decide what
    such an answer contains and what the server may spend on it, and proves that they do
    what they promise.

    ** How the parts interact

    The INDEX SCHEDULER merges requests to index and runs them, and asks the BUILD
    COORDINATOR for the one permit an index build needs; the build
    writes declarations, call facts and include edges to the store. A request opens a
    snapshot, PUBLISHED after an index run with the READ MODELS of its generation rebuilt or
    updated: the INCLUDE GRAPH of the generation, overlaid with the open documents, gives
    the REACH SCOPE of the current file; the RESOLVER turns a scope into the tier of every
    other file and ranks candidates by it. The INDEXER'S EDGE PASS and the overlay of open
    documents resolve includes by the same tiers, the first over the rows of the store, the
    second over the PATH INDEX of the generation and the PROBE CACHE of external paths.
    Declarations are hydrated through the
    DECLARATION CACHE. CALLABLE QUERIES filter recalled anchors, pair declarations with
    definitions and report how exact the answer is; the CALL INDEX groups the anchors of a
    request, resolves every call site against the groups and pages the relations.
    References and configuration read the FILE CATALOGUE and the GLOB MATCHER. Workspace
    symbols and completion search the NAME TABLE, which the index writer updates by deltas
    and compacts in the background; the tiers of the resolver rank what it finds. Hover and
    member access follow typedefs through the ALIAS RESOLVER, over recalled record and
    typedef candidates. What the completion providers recall is merged and ordered by the
    COMPLETION PIPELINE, which also reads the HISTORY of accepted completions.

    ** Files, in order

    - Prelude.v: saturating and wrapping machine arithmetic, lawful comparators and their
      combinators (the class [LawfulCmp]), stable sorting and deduplication, the [result]
      type and its monad, bytes of strings, tactics and hint databases.
    - BuildCoordinator.v (build_coordinator.rs): the shared state is one Record behind the
      mutex; every public operation is a definition; [acquire], which awaits, is cut at its
      mutex sections ([acquire_entry], [acquire_backoff], [acquire_enqueue], [acquire_poll],
      [acquire_timeout]), a reservation at its look at the flag and its sections, and an
      Inductive step relation interleaves all clients. Theorems: one active build, bounded
      overtaking in the queue, the reservation ledger within its budget, exact admission,
      termination of the negotiation loops, finality of shutdown, no lost compaction epoch.
    - HashTable.v, DeclarationCache.v (declaration_index.rs, declaration_index/cache.rs,
      store/views/declarations.rs by_ids): the arena with its two linked lists and the hash
      table. [cache_refines_lru] relates it to a plain least-recently-used list;
      [payload_reads_transparent] says that reading through it equals reading the database;
      [cache_within_budget] bounds its accounted memory.
    - Reachability.v (reachability.rs, includes.rs, the edge rows of store/views): the
      include graph, its refresh and the request overlay, and the breadth-first traversals
      with their node and depth caps. Soundness of every scope, exactness of closed ones,
      termination, refresh equals rebuild, overlay equals refresh.
    - Coverage.v (semantic_model/coverage.rs), Candidates.v (model.rs): coverage masks, the
      candidate vocabulary and the disposition of a candidate set.
    - Resolver.v (resolver.rs): tiers, the packed score, sorting and deduplication.
    - CallModel.v (call_model.rs, call_catalog/rows.rs), CallRows.v (store/writes.rs,
      store/schema.rs, store/views/call_facts.rs): call facts and their stored rows.
    - Relations.v (semantic_model/entity.rs), Callables.v and Counterparts.v
      (query/callables): build conditions, the arity policy, the candidate query and the
      strict pairing of declarations with definitions.
    - CallCompact.v, Grouping.v, CallCatalog.v (call_catalog.rs and call_catalog/): interned
      storage, grouping within work budgets, resolution of call sites, paged relations.
    - Searching.v: binary search on sorted lists and maps read in key order, shared by the
      tables below.
    - Includes.v (includes.rs), IncludeEdges.v (indexer/include_edges.rs): the tiers of an
      include's resolution, with the state of the lookups threaded through, against the
      first hit of an ordered list of candidates ([index_resolution_exact]); the edge rows
      and counts an index pass writes ([include_edges_exact]).
    - PathProbe.v (candidate_service/include_paths/path_probe.rs): the cache of external
      paths, its callers and its worker as a step system whose steps are the locked
      sections, the channel operations and the passing of time. No probe is lost and the
      cache is bounded ([probe_states_ok]); an observation still current is still true of
      the cache ([observation_sound]); a full cache can stop answering ([cache_can_stall]).
    - IncludePaths.v (candidate_service/include_paths.rs, refresh_reach_graph of
      candidate_service.rs): the published path index under bounded updates answers as the
      map of its rows ([index_history]); the view of a request, proved against the class
      [ProbeCache] that the step system implements; the live edges of open documents are
      those the indexer would write ([live_edges_agree]).
    - IncludeTable.v (server/include_completion.rs, include_completion/model.rs and
      delta.rs): the table of include candidates by directory, its bounded updates with
      signed contributions, the evidence of the open document and the loop that merges base
      and delta. [include_table_history]: after any updates a request is answered as by a
      table built afresh.
    - GoImports.v (server/go_import_completion.rs): the importable Go packages by import
      path, updated by directories. [go_imports_exact]: after any updates a completion
      lists the first hundred paths the current rows give.
    - ProjectContext.v (project_context.rs, server/project_context_commands.rs): the projects
      of build markers; [nearest_is_deepest]: a file belongs to the deepest marked directory
      above it; [status_is_effective]: the stored selection is corrected to one that can
      take effect.
    - FallbackTable.v (completion/ordinary_service/fallback_table.rs, its read in store/views.rs
      and its caller in server/indexing/cache/declaration_models.rs): the names of files
      without analysis, with an index of word beginnings and byte triples, updated by paths.
      [fallback_lists_scan]: after any updates a prefix lists what a scan of the rows lists.
    - ReadModels.v (store/views.rs, store/views/go_package_graph.rs, server/indexing/cache.rs
      and its declaration_models.rs): the rows of one generation, the views over them,
      programs that read ([Read], a tree of queries) and the class [ReadModel]: a rebuilt
      model serves the facts it read, an updated one those after the change. Instances for
      the reach graph, the fallback, include and Go tables, the file catalogue and the path
      index.
    - Publication.v (server/indexing/cache.rs, server/workspace.rs): full and dirty
      publications, compaction, project context, the empty snapshot of a configuration and
      the removal of a root, as steps of a server whose store other processes commit to.
      [published_snapshot_serves]: a snapshot serves the facts of the commit it names;
      [snapshot_never_older]; [undisturbed_run_publishes]. What an index run leaves as it
      was ([ReadModels.changes]) and that the run reports its changes under the names of
      the rows are premises; [deleted_source_stays] shows what the refresh of the graph
      leaves behind.
    - IndexBuilds.v (store/generations.rs, the staging of store/writes.rs, the keys of
      store/schema.rs): builds of several connections as steps of one store, a transaction or
      a statement each. [commit_publishes_own_build]: a commit that succeeds advances the
      generation by one and activates what its own run has staged, which is what
      Publication.v takes a commit to be; [manifest_rows_exist].
    - IndexSchedule.v (server/indexing.rs, the workspace folders of server/language_server.rs):
      the merged requests to index and the one runner, cut at its locks and awaits, as a step
      system with the requests and the handlers of folder changes. [no_request_lost]: a
      request stays owed until a later run is published or the root is marked for a rescan;
      [pass_terminates].
    - IndexedFiles.v (indexed_files.rs), Globs.v (config/matching.rs): the file catalogue
      with its overlay and merging iterator; the backtracking matcher against the
      declarative language of its patterns.
    - Arrays.v (query/name_index_builder.rs): the two-pass counting layout the name index is
      built with, its [u32] offsets checked; a filled layout holds each bucket in order.
    - NameMatch.v (query.rs, query/text.rs): the scores of an exact, prefix, substring and
      fuzzy match, the three-byte tokens of a name and the prefix bounds. A match found by
      score is found by its tokens.
    - NameSegments.v, NamePostings.v (query/name_index_builder.rs): the builder of a segment,
      sorted names with their tokens, path, library and flag postings.
      [segment_postings_exact]: a posting lists the entries that have its token, in order.
    - NameTables.v (query.rs, query/name_updates.rs): the layered table, a base segment with
      deltas and tombstones. [table_history]: after any updates and compactions the active
      rows are those of the newest version of each path; [compaction_sound]: compacting the
      table while newer deltas arrive loses and revives nothing; [update_well_formed].
    - NameSearch.v, NamePrefix.v, NameRecall.v (query/name_search.rs): search over tokens
      against a scan of every active name ([search_exact]), narrowing a query from the pool
      of its prefix ([narrowing_exact]), the prefix fast path and when it differs from the
      full scan ([fast_path_exact]), and the recall channels with their quotas and dedup
      ([recall_serves_quotas]).
    - TypeCandidates.v, AliasSpelling.v, AliasResolution.v (query/type_resolution.rs,
      query/type_resolution/presentation.rs): the bounded exact-name candidates, the
      breadth-first walk along typedefs with its verdict ([alias_verdict_exact],
      [alias_limits_exact]), and the C spelling composed from a chain, read back
      ([aka_spelling_faithful]).
    - CompletionHistory.v (completion_history.rs, the accept handler of server.rs): accepts
      under their cap and the counts read from them ([history_counts_newest]), hashes as
      text ([candidate_hash_roundtrip]), and the prepared writes of concurrent requests
      against a file system whose calls may fail, a write halfway too
      ([history_disk_explained]).
    - CompletionPipeline.v (completion/pipeline.rs and its metrics, prefix_ranking.rs): the
      in-place merge by name, scores and final order ([pipeline_exact]), what merged
      evidence sums up ([merged_evidence_exact]), the cap on low trust
      ([guard_below_reachable]).

    ** Conventions

    [usize], [u32] and [u64] values are [N] (or [nat] where they index a list) with the
    saturation, wrap-around or checked conversion of the code written out. A panic (an
    [expect], an index out of range, a failed checked conversion) is [None]; an [Err] is
    [Err] of [result]. Hash maps and sets are stdpp's [gmap] and [gset] when the code never
    lets their order out, association lists otherwise. Strings are [string], or lists of
    bytes where the code works on bytes. A mutex section is one function of the shared
    state; what happens between two sections is a step of another client.

    ** Bounds and fuel

    The traversals stop at MAX_REACH_DEPTH and MAX_REACH_NODES, and their fuel is the
    number of nodes that can still be queued; cached reads go in chunks of 400 ids;
    an insertion evicts at most MAX_EVICTIONS (32) rows and the arena grows by
    ARENA_GROWTH (8); grouping stops at 1024 anchors of a name and 16384 comparisons; a
    guard is read up to 4096 bytes, 32 terms and 16 layers of parentheses; compact
    identifiers are [u32] and the index fails beyond them; an overlay of files is refused
    beyond 256 paths or 4 MiB; a name carries at most 120 tokens (names beyond 66 bytes are
    sampled), so a segment fits [u32] postings while 120 times its entries does; a table
    asks for compaction at 64 deltas or a quarter of its base; a typedef chain is followed
    16 deep over at most 128 visits; the probe cache holds 1024 paths and its channel 64, a
    view sends 16 of them and keeps 64 observations; the path index takes 256 changed paths
    or 4 MiB and a suffix lookup inspects 4096 paths for 256 candidates; the include table
    takes 256 paths, 256 sources and 8192 edges at a time, paths of 32 components with 1024
    contributions, and a delta of 256 partitions or 4 MiB, and a request inspects 16384 of its
    candidates; the Go table takes 256 directories with 4096 packages of its base, keeps 256
    updates or 4 MiB and lists 100 paths; the fallback table shadows 256 paths and keeps
    8192 names or 4 MiB over its base; a dirty publication takes 256 paths and sources, and
    its deltas together 256 partitions or 32 MiB; the history keeps 4096 accepts, and completion scores
    are [i32] that wrap. Where a loop needs fuel, a theorem says that the fuel given
    is enough: [reach_terminates], [scoped_negotiation_total], [catalog_builds],
    [wildcard_match_exact], [iteration_exact].

    ** Parameters

    Code outside src/ is a parameter: the blake3 digest, the rows a SQLite query returns,
    the capacity of a hash table ([TableLaws]), the capacities of strings and vectors
    ([PathAllocation], [TableAllocation], [GoAllocation]), whether a file exists on disk, the
    memory sampler and the clock. Each theorem with a hypothesis on one of them has a
    witness with a concrete instance. Paths are absolute when they start with a slash (Unix).

    ** Not modelled

    Of the completion tables: the listing of include directories on disk and the scan of a
    document for the Go import under the cursor. Of the name table: cancellation checkpoints,
    memory accounting, the budgeted posting channels and the project-context projection. Of a
    published snapshot: its name index and project context, the lease of the payload cache and
    the invalidation of overlays around the swap; a database file replaced while a publication
    reads. Of completion: the providers, the guess of
    the intent from the text before the cursor and the performance summary. The parsers walk trees of generated tree-sitter grammars; the store is SQL executed by
    SQLite; the server is, but for the scheduler, the tables and their publication, protocol
    glue over tokio; formatting, diagnostics, process measurements and the VS Code client are input and output. PROJECT.json lists them with
    their sources. *)

From stdpp Require Export base gmap sets list strings.
From Stdlib Require Export NArith ZArith Sorted.

#[global] Set Default Goal Selector "!".
#[global] Set Warnings "-clear-no-such-hyp,-register-all".

Declare Scope fossil_scope.
Delimit Scope fossil_scope with fossil.
Open Scope fossil_scope.

(** ** Machine-width arithmetic

    [usize] and [u64] values are natural numbers below [2^64] (the supported
    targets are 64-bit); the saturating and wrapping operations the code uses
    are written out. *)

Definition usize_max : N := 18446744073709551615.
Definition u64_max : N := 18446744073709551615.

(** [usize::saturating_add], [u64::saturating_add] *)
Definition saturating_add (a b : N) : N := N.min (a + b) usize_max.
(** [saturating_sub]: subtraction on [N] already stops at zero. *)
Definition saturating_sub (a b : N) : N := (a - b)%N.
(** [usize::saturating_mul] *)
Definition saturating_mul (a b : N) : N := N.min (a * b) usize_max.
(** [u64::wrapping_add] *)
Definition wrapping_add (a b : N) : N := ((a + b) mod 18446744073709551616)%N.

Notation "a +s b" := (saturating_add a b) (at level 50, left associativity) : fossil_scope.
Notation "a -s b" := (saturating_sub a b) (at level 50, left associativity) : fossil_scope.

Ltac unfold_machine :=
  unfold saturating_add, saturating_sub, saturating_mul, usize_max, u64_max in *.
(** Linear arithmetic over the machine operations. *)
Ltac mlia := unfold_machine; lia.

Lemma saturating_add_le a b : (a +s b <= usize_max)%N.
Proof. mlia. Qed.
Lemma saturating_add_small a b : (a + b <= usize_max)%N -> a +s b = (a + b)%N.
Proof. mlia. Qed.
(** Saturation cannot hide an excess over a limit below the maximum. *)
Lemma saturating_add_le_iff a b limit :
  (limit < usize_max)%N -> (a +s b <= limit)%N <-> (a + b <= limit)%N.
Proof. mlia. Qed.
Lemma wrapping_add_small a b : (a + b <= u64_max)%N -> wrapping_add a b = (a + b)%N.
Proof. intros H. unfold wrapping_add. apply N.mod_small. mlia. Qed.

(** ** Orderings

    A Rust comparator is a function to [comparison]; [Ordering::then_with],
    [cmp::Reverse] and [sort_by_key] are combinators. A comparator is lawful
    when it is antisymmetric and transitive, and the combinators preserve that,
    so the comparators of the program are lawful by instance search. *)

Definition cmp_then (a b : comparison) : comparison :=
  match a with Eq => b | _ => a end.

Class LawfulCmp {A} (cmp : A -> A -> comparison) : Prop := {
  cmp_antisym x y : cmp y x = CompOpp (cmp x y);
  cmp_trans x y z : cmp x y <> Gt -> cmp y z <> Gt -> cmp x z <> Gt;
}.

Arguments cmp_antisym {A} cmp {_}.
Arguments cmp_trans {A} cmp {_}.

Section lawful.
Context {A : Type} (cmp : A -> A -> comparison) `{!LawfulCmp cmp}.

Lemma cmp_refl x : cmp x x = Eq.
Proof. pose proof (cmp_antisym cmp x x) as H. destruct (cmp x x); simpl in H; congruence. Qed.
Lemma cmp_total x y : cmp x y <> Gt \/ cmp y x <> Gt.
Proof. rewrite (cmp_antisym cmp x y). destruct (cmp x y); simpl; auto. Qed.
Lemma cmp_eq_sym x y : cmp x y = Eq -> cmp y x = Eq.
Proof. rewrite (cmp_antisym cmp x y). by intros ->. Qed.
Lemma cmp_eq_l x y z : cmp x y = Eq -> cmp x z = cmp y z.
Proof.
  intros H. pose proof (cmp_eq_sym _ _ H) as H'.
  pose proof (cmp_trans cmp x y z) as H1. pose proof (cmp_trans cmp y x z) as H2.
  pose proof (cmp_trans cmp z y x) as H3. pose proof (cmp_trans cmp z x y) as H4.
  rewrite (cmp_antisym cmp x z), (cmp_antisym cmp y z) in H3, H4.
  rewrite H, H' in *.
  destruct (cmp x z), (cmp y z); simpl in *; try done;
    exfalso; first [by apply H1 | by apply H2 | by apply H3 | by apply H4].
Qed.
Lemma cmp_eq_r x y z : cmp x y = Eq -> cmp z x = cmp z y.
Proof. intros H. by rewrite (cmp_antisym cmp x z), (cmp_antisym cmp y z), (cmp_eq_l _ _ z H). Qed.
Lemma cmp_gt_trans x y z : cmp x y = Gt -> cmp y z = Gt -> cmp x z = Gt.
Proof.
  intros H1 H2. pose proof (cmp_trans cmp z y x) as T.
  rewrite (cmp_antisym cmp x y), (cmp_antisym cmp y z), (cmp_antisym cmp x z), H1, H2 in T.
  destruct (cmp x z) eqn:E; [|by destruct T|done].
  by rewrite (cmp_eq_l x z y E), (cmp_antisym cmp y z), H2 in H1.
Qed.
Lemma cmp_lt_le x y z : cmp x y = Lt -> cmp y z <> Gt -> cmp x z = Lt.
Proof.
  intros H1 H2. assert (cmp y x = Gt) as H by by rewrite (cmp_antisym cmp x y), H1. destruct (cmp x z) eqn:E; [|done|].
  - by rewrite <- (cmp_eq_r x z y E), H in H2.
  - by rewrite (cmp_gt_trans y x z H E) in H2.
Qed.
End lawful.

(** [sort_by_key(f)] with the key's own order. *)
Definition cmp_on {A B} (f : A -> B) (cmp : B -> B -> comparison) (x y : A) : comparison :=
  cmp (f x) (f y).
(** The comparator with its arguments exchanged. *)
Definition cmp_rev {A} (cmp : A -> A -> comparison) (x y : A) : comparison := cmp y x.
(** [c1(x, y).then_with(|| c2(x, y))] *)
Definition cmp_lex {A} (c1 c2 : A -> A -> comparison) (x y : A) : comparison :=
  cmp_then (c1 x y) (c2 x y).
(** The derived order of [Option]: [None] first. *)
Definition option_cmp {A} (cmp : A -> A -> comparison) (x y : option A) : comparison :=
  match x, y with
  | None, None => Eq
  | None, Some _ => Lt
  | Some _, None => Gt
  | Some a, Some b => cmp a b
  end.
#[global] Typeclasses Opaque cmp_on cmp_rev cmp_lex option_cmp.
(** [false < true] *)
Definition bool_cmp (a b : bool) : comparison :=
  match a, b with false, true => Lt | true, false => Gt | _, _ => Eq end.

#[export] Instance N_compare_lawful : LawfulCmp N.compare.
Proof.
  split; [intros; apply N.compare_antisym|].
  intros x y z. rewrite !N.compare_ngt_iff. lia.
Qed.
#[export] Instance nat_compare_lawful : LawfulCmp Nat.compare.
Proof.
  split; [intros; apply Nat.compare_antisym|].
  intros x y z. rewrite !Nat.compare_ngt_iff. lia.
Qed.
#[export] Instance Z_compare_lawful : LawfulCmp Z.compare.
Proof.
  split; [intros; apply Z.compare_antisym|].
  intros x y z. rewrite !Z.compare_ngt_iff. lia.
Qed.
#[export] Instance bool_cmp_lawful : LawfulCmp bool_cmp.
Proof. split; [by intros [] []|by intros [] [] []]. Qed.

Lemma ascii_compare_antisym a b : Ascii.compare b a = CompOpp (Ascii.compare a b).
Proof. apply N.compare_antisym. Qed.
Lemma string_compare_refl s : String.compare s s = Eq.
Proof. induction s as [|c s IH]; simpl; [done|]. unfold Ascii.compare. by rewrite N.compare_refl. Qed.
Lemma ascii_compare_eq a b : Ascii.compare a b = Eq <-> a = b.
Proof.
  unfold Ascii.compare. rewrite N.compare_eq_iff. split; [|by intros ->].
  intros H. by rewrite <- (Ascii.ascii_N_embedding a), H, Ascii.ascii_N_embedding.
Qed.
#[export] Instance string_compare_lawful : LawfulCmp String.compare.
Proof.
  split; [intros; apply String.compare_antisym|].
  induction x as [|a x IH]; intros [|b y] [|c z]; simpl; try done.
  pose proof (N.compare_spec (Ascii.N_of_ascii a) (Ascii.N_of_ascii b)) as Hab.
  pose proof (N.compare_spec (Ascii.N_of_ascii b) (Ascii.N_of_ascii c)) as Hbc.
  pose proof (N.compare_spec (Ascii.N_of_ascii a) (Ascii.N_of_ascii c)) as Hac.
  unfold Ascii.compare in *.
  destruct Hab, Hbc, Hac; try done; try lia; apply IH.
Qed.
Lemma string_compare_eq s t : String.compare s t = Eq <-> s = t.
Proof. split; [apply String.compare_eq_iff|intros ->; apply string_compare_refl]. Qed.

#[export] Instance cmp_on_lawful {A B} (f : A -> B) cmp `{!LawfulCmp cmp} :
  LawfulCmp (cmp_on f cmp).
Proof.
  split; unfold cmp_on; [intros; apply (cmp_antisym cmp)|intros x y z; apply (cmp_trans cmp)].
Qed.
#[export] Instance option_cmp_lawful {A} (cmp : A -> A -> comparison) `{!LawfulCmp cmp} :
  LawfulCmp (option_cmp cmp).
Proof.
  split; unfold option_cmp.
  - intros [x|] [y|]; try done. apply (cmp_antisym cmp).
  - intros [x|] [y|] [z|]; try done. apply (cmp_trans cmp).
Qed.
#[export] Instance cmp_rev_lawful {A} (cmp : A -> A -> comparison) `{!LawfulCmp cmp} :
  LawfulCmp (cmp_rev cmp).
Proof.
  split; unfold cmp_rev; [intros; apply (cmp_antisym cmp)|].
  intros x y z H1 H2. by apply (cmp_trans cmp z y x).
Qed.
#[export] Instance cmp_lex_lawful {A} (c1 c2 : A -> A -> comparison)
  `{!LawfulCmp c1, !LawfulCmp c2} : LawfulCmp (cmp_lex c1 c2).
Proof.
  split; unfold cmp_lex.
  - intros x y. rewrite (cmp_antisym c1 x y), (cmp_antisym c2 x y). by destruct (c1 x y).
  - intros x y z.
    pose proof (cmp_trans c1 x y z) as T. pose proof (cmp_trans c2 x y z) as T2.
    destruct (c1 x y) eqn:E1; simpl; [| |by intros []].
    + rewrite (cmp_eq_l c1 _ _ z E1). destruct (c1 y z); simpl; auto.
    + destruct (c1 y z) eqn:E2; simpl; [| |by intros _ []].
      * rewrite <- (cmp_eq_r c1 _ _ x E2), E1. done.
      * destruct (c1 x z) eqn:E3; simpl; [|done|intros _ _; by apply T].
        pose proof (cmp_eq_l c1 _ _ y E3) as H.
        rewrite E1, (cmp_antisym c1 y z), E2 in H. done.
Qed.

Lemma cmp_lex_eq {A} (c1 c2 : A -> A -> comparison) x y : cmp_lex c1 c2 x y = Eq <-> c1 x y = Eq /\ c2 x y = Eq.
Proof. unfold cmp_lex, cmp_then. destruct (c1 x y); naive_solver. Qed.

(** ** Stable sorting

    [slice::sort_by] is a stable sort. For a lawful comparator every stable sort
    returns the same list, so insertion sort stands for it. *)

Fixpoint sort_insert {A} (cmp : A -> A -> comparison) (x : A) (l : list A) : list A :=
  match l with
  | [] => [x]
  | y :: l' => match cmp x y with Gt => y :: sort_insert cmp x l' | _ => x :: l end
  end.
Definition sort_by {A} (cmp : A -> A -> comparison) (l : list A) : list A :=
  foldr (sort_insert cmp) [] l.

Definition cmp_le {A} (cmp : A -> A -> comparison) (x y : A) : Prop := cmp x y <> Gt.

Section sort.
Context {A : Type} (cmp : A -> A -> comparison).

Lemma sort_insert_perm x l : sort_insert cmp x l ≡ₚ x :: l.
Proof.
  induction l as [|y l IH]; simpl; [done|]. destruct (cmp x y); try done.
  rewrite IH. apply Permutation_swap.
Qed.
Lemma sort_by_perm l : sort_by cmp l ≡ₚ l.
Proof. induction l as [|x l IH]; simpl; [done|]. by rewrite sort_insert_perm, IH. Qed.
Lemma sort_by_length l : length (sort_by cmp l) = length l.
Proof. apply Permutation_length, sort_by_perm. Qed.
Lemma elem_of_sort_by x l : x ∈ sort_by cmp l <-> x ∈ l.
Proof. by rewrite sort_by_perm. Qed.

Context `{!LawfulCmp cmp}.

Lemma sort_insert_sorted x l :
  StronglySorted (cmp_le cmp) l -> StronglySorted (cmp_le cmp) (sort_insert cmp x l).
Proof.
  induction 1 as [|y l Hl IH Hy]; simpl; [by repeat constructor|].
  pose proof (cmp_antisym cmp x y) as Hxy.
  destruct (cmp x y) eqn:E; simpl in Hxy.
  1,2: constructor; [by constructor|]; constructor; [unfold cmp_le; congruence|];
    eapply Forall_impl; [exact Hy|]; intros z Hz;
    apply (cmp_trans cmp _ y); [congruence|exact Hz].
  constructor; [done|]. rewrite sort_insert_perm. constructor; [|done].
  unfold cmp_le. congruence.
Qed.
Lemma sort_by_sorted l : StronglySorted (cmp_le cmp) (sort_by cmp l).
Proof. induction l; simpl; [constructor|]. by apply sort_insert_sorted. Qed.

(** A sorted list stays as it is. *)
Lemma sort_by_id l : StronglySorted (cmp_le cmp) l -> sort_by cmp l = l.
Proof.
  induction 1 as [|x l _ IH Hx]; [done|]. simpl. rewrite IH. destruct Hx as [|y l Hy _]; [done|]. simpl.
  unfold cmp_le in Hy. by destruct (cmp x y).
Qed.
(** Stability: among the elements a given one compares equal with, the input
    order is kept. *)
Definition cmp_equal (x y : A) : bool := match cmp x y with Eq => true | _ => false end.
Lemma sort_insert_stable k x l :
  List.filter (cmp_equal k) (sort_insert cmp x l) =
  List.filter (cmp_equal k) (x :: l).
Proof.
  induction l as [|y l IH]; simpl; [done|].
  destruct (cmp x y) eqn:E; [done|done|].
  unfold cmp_equal in *; simpl. rewrite IH; simpl.
  destruct (cmp k x) eqn:E1; [|done|done]. destruct (cmp k y) eqn:E2; [|done|done].
  rewrite <- (cmp_eq_l cmp k x y E1), E2 in E. done.
Qed.
Lemma sort_by_stable k l :
  List.filter (cmp_equal k) (sort_by cmp l) = List.filter (cmp_equal k) l.
Proof.
  induction l as [|x l IH]; simpl; [done|].
  rewrite sort_insert_stable; simpl. by rewrite IH.
Qed.

(** When among the elements only equal ones compare equal, the result depends on the
    collection sorted and not on the order it was delivered in. *)
Lemma sorted_perm_unique_on l1 l2 :
  (forall x y, x ∈ l1 -> y ∈ l1 -> cmp x y = Eq -> x = y) ->
  StronglySorted (cmp_le cmp) l1 -> StronglySorted (cmp_le cmp) l2 -> l1 ≡ₚ l2 -> l1 = l2.
Proof.
  intros Heq H1. revert l2 Heq. induction H1 as [|x l1 H1 IH Hx]; intros l2 Heq H2 Hp.
  { by apply Permutation_nil_l in Hp. }
  destruct H2 as [|y l2 H2 Hy]; [by apply Permutation_nil_r in Hp|].
  assert (x = y) as <-.
  { assert (x ∈ y :: l2) as Hin by (rewrite <- Hp; left).
    assert (y ∈ x :: l1) as Hin' by (rewrite Hp; left).
    apply Heq; [left|done|].
    apply elem_of_cons in Hin as [->|Hin]; [exact (cmp_refl cmp _)|].
    apply elem_of_cons in Hin' as [->|Hin']; [exact (cmp_refl cmp _)|].
    rewrite Forall_forall in Hx, Hy.
    pose proof (Hx _ Hin') as Hxy. pose proof (Hy _ Hin) as Hyx. unfold cmp_le in *.
    pose proof (cmp_antisym cmp x y) as E.
    destruct (cmp x y); simpl in *; congruence. }
  f_equal. apply IH; [intros a b Ha Hb; apply Heq; by right|done|]. by apply Permutation_cons_inv in Hp.
Qed.
Lemma sorted_perm_unique l1 l2 :
  (forall x y, cmp x y = Eq -> x = y) ->
  StronglySorted (cmp_le cmp) l1 -> StronglySorted (cmp_le cmp) l2 -> l1 ≡ₚ l2 -> l1 = l2.
Proof. intros Heq. apply sorted_perm_unique_on. intros x y _ _. apply Heq. Qed.
Lemma sort_by_canonical_on l1 l2 :
  (forall x y, x ∈ l1 -> y ∈ l1 -> cmp x y = Eq -> x = y) -> l1 ≡ₚ l2 -> sort_by cmp l1 = sort_by cmp l2.
Proof.
  intros Heq Hp. apply sorted_perm_unique_on; [|apply sort_by_sorted..|by rewrite !sort_by_perm].
  intros x y Hx Hy. apply Heq; [by apply (elem_of_sort_by x l1)|by apply (elem_of_sort_by y l1)].
Qed.
Lemma sort_by_canonical l1 l2 :
  (forall x y, cmp x y = Eq -> x = y) -> l1 ≡ₚ l2 -> sort_by cmp l1 = sort_by cmp l2.
Proof. intros Heq. apply sort_by_canonical_on. intros x y _ _. apply Heq. Qed.
End sort.

(** ** Results and list operations of the Rust standard library *)

Inductive result (E A : Type) : Type :=
  | Ok (a : A)
  | Err (e : E).
Arguments Ok {E A} a.
Arguments Err {E A} e.

Definition is_ok {E A} (r : result E A) : bool := match r with Ok _ => true | Err _ => false end.

(** [Iterator::position] *)
Fixpoint position {A} (f : A -> bool) (l : list A) : option nat :=
  match l with
  | [] => None
  | x :: l' => if f x then Some 0 else S <$> position f l'
  end.

(** [Iterator::min_by_key]: the first minimum. *)
Definition min_by_key {A} (f : A -> N) (l : list A) : option A :=
  foldl (fun best x => match best with
                       | None => Some x
                       | Some b => if (f x <? f b)%N then Some x else best
                       end) None l.
(** [abs_diff] *)
Definition abs_diff (a b : N) : N := if (a <? b)%N then (b - a)%N else (a - b)%N.
(** [map.entry(key).or_default().push(value)] *)
Definition push_map `{Countable K} {A} (m : gmap K (list A)) (key : K) (value : A) : gmap K (list A) :=
  <[key := default [] (m !! key) ++ [value]]> m.
Lemma push_map_lookup `{Countable K} {A} (m : gmap K (list A)) key v k :
  default [] (push_map m key v !! k) = if decide (k = key) then default [] (m !! key) ++ [v] else default [] (m !! k).
Proof.
  unfold push_map. case_decide as Hk; [by subst; rewrite lookup_insert_eq|].
  by rewrite lookup_insert_ne.
Qed.

(** [VecDeque::remove(index)]: the element and the remaining queue. *)
Definition remove_at {A} (i : nat) (l : list A) : option (A * list A) :=
  x ← l !! i; Some (x, take i l ++ drop (S i) l).

(** [Vec::dedup]: drop an element equal to the last one kept. *)
Fixpoint dedup_after {A} (same : A -> A -> bool) (kept : A) (l : list A) : list A :=
  match l with
  | [] => []
  | x :: l' => if same x kept then dedup_after same kept l' else x :: dedup_after same x l'
  end.
(** [retain(|x| seen.insert(key(x)))]: the first element of each key. *)
Fixpoint retain_new {A} `{Countable K} (key : A -> K) (seen : gset K) (l : list A) : list A :=
  match l with
  | [] => []
  | x :: rest =>
      if decide (key x ∈ seen) then retain_new key seen rest
      else x :: retain_new key ({[key x]} ∪ seen) rest
  end.
Definition dedup {A} (same : A -> A -> bool) (l : list A) : list A :=
  match l with [] => [] | x :: l' => x :: dedup_after same x l' end.

Section lists.
Context {A : Type}.
Implicit Types (l : list A) (f : A -> bool).

Lemma position_Some f l i :
  position f l = Some i <->
  exists x, l !! i = Some x /\ f x = true /\
    forall j y, (j < i)%nat -> l !! j = Some y -> f y = false.
Proof.
  revert i. induction l as [|a l IH]; intros i; simpl.
  { split; [done|]. intros (x & H & _). by destruct i. }
  destruct (f a) eqn:E.
  - split.
    + intros [= <-]. exists a. repeat split; [done|]. intros; lia.
    + intros (x & H1 & H2 & H3). destruct i as [|i]; [done|].
      specialize (H3 0 a ltac:(lia) eq_refl). congruence.
  - rewrite fmap_Some. split.
    + intros (j & (x & H1 & H2 & H3)%IH & ->). exists x. repeat split; [done..|].
      intros [|k] y Hk; simpl; [congruence|]. apply H3. lia.
    + intros (x & H1 & H2 & H3). destruct i as [|i]; simpl in H1; [congruence|].
      exists i. split; [|done]. apply IH. exists x. repeat split; [done..|].
      intros j y Hj. apply (H3 (S j) y). lia.
Qed.
Lemma position_None f l : position f l = None <-> Forall (fun x => f x = false) l.
Proof.
  induction l as [|a l IH]; simpl; [by split|].
  destruct (f a) eqn:E; [split; [done|by inversion 1; congruence]|].
  rewrite fmap_None, IH, Forall_cons. by rewrite E; intuition.
Qed.

Lemma remove_at_Some i l x l' :
  remove_at i l = Some (x, l') <-> l !! i = Some x /\ l' = take i l ++ drop (S i) l.
Proof.
  unfold remove_at. destruct (l !! i) as [y|]; simpl; [|by intuition].
  split; [by intros [= -> ->]|]. by intros [[= ->] ->].
Qed.
Lemma remove_at_perm i l x l' : remove_at i l = Some (x, l') -> l ≡ₚ x :: l'.
Proof.
  intros [H ->]%remove_at_Some. rewrite <- (take_drop_middle l i x H) at 1.
  by rewrite Permutation_middle.
Qed.
Lemma remove_at_length i l x l' : remove_at i l = Some (x, l') -> length l = S (length l').
Proof. by intros ->%remove_at_perm%Permutation_length. Qed.

Lemma dedup_after_length (same : A -> A -> bool) kept l : (length (dedup_after same kept l) <= length l)%nat.
Proof. revert kept. induction l as [|x l IH]; intros kept; simpl; [lia|]. case_match; simpl; [specialize (IH kept)|specialize (IH x)]; lia. Qed.
Lemma dedup_length (same : A -> A -> bool) l : (length (dedup same l) <= length l)%nat.
Proof. destruct l as [|x l]; simpl; [lia|]. pose proof (dedup_after_length same x l). lia. Qed.
Lemma dedup_after_sublist (same : A -> A -> bool) kept l : dedup_after same kept l `sublist_of` l.
Proof. revert kept. induction l as [|a l IH]; intros kept; simpl; [done|]. destruct (same a kept); constructor; apply IH. Qed.
Lemma dedup_sublist (same : A -> A -> bool) l : dedup same l `sublist_of` l.
Proof. destruct l; simpl; [done|]. constructor. apply dedup_after_sublist. Qed.
Lemma retain_new_sublist {K} `{Countable K} (key : A -> K) seen l : retain_new key seen l `sublist_of` l.
Proof. revert seen. induction l as [|x l IH]; intros seen; simpl; [done|]. case_decide; by constructor. Qed.
Lemma retain_new_unseen {K} `{Countable K} (key : A -> K) seen l x :
  x ∈ retain_new key seen l -> x ∈ l /\ key x ∉ seen.
Proof.
  revert seen. induction l as [|y l IH]; intros seen; simpl; [by intros ?%elem_of_nil|].
  case_decide as Hy.
  - intros [? ?]%IH. by split; [right|].
  - rewrite elem_of_cons. intros [->|[? Hx]%IH]; [by split; [left|]|]. split; [by right|]. set_solver.
Qed.
Lemma retain_new_nodup {K} `{Countable K} (key : A -> K) seen l : NoDup (key <$> retain_new key seen l).
Proof.
  revert seen. induction l as [|x l IH]; intros seen; [constructor|]. cbn [retain_new].
  case_decide; [apply IH|]. rewrite fmap_cons. constructor; [|apply IH].
  intros (y & Hk & [_ Hy]%retain_new_unseen)%list_elem_of_fmap. set_solver.
Qed.
(** Every key survives. *)
Lemma retain_new_covers {K} `{Countable K} (key : A -> K) seen l x :
  x ∈ l -> key x ∈ seen \/ exists y, y ∈ retain_new key seen l /\ key y = key x.
Proof.
  revert seen. induction l as [|z l IH]; intros seen; [by intros ?%elem_of_nil|]. cbn [retain_new].
  rewrite elem_of_cons. intros [->|Hx].
  - case_decide; [by left|]. right. exists z. by split; [left|].
  - case_decide as Hz; [by apply IH|].
    destruct (IH ({[key z]} ∪ seen) Hx) as [[Hk%elem_of_singleton|?]%elem_of_union|(y & ? & ?)]; [|by left|].
    + right. exists z. by split; [left|].
    + right. exists y. by split; [right|].
Qed.
(** In a sorted list the survivor of a key is its least element. *)
Lemma retain_new_least {K} `{Countable K} (key : A -> K) (cmp : A -> A -> comparison) `{!LawfulCmp cmp} seen l x :
  StronglySorted (cmp_le cmp) l -> x ∈ l ->
  key x ∈ seen \/ exists y, y ∈ retain_new key seen l /\ key y = key x /\ cmp_le cmp y x.
Proof.
  intros Hs. revert seen. induction Hs as [|z l Hl IH Hz]; intros seen; [by intros ?%elem_of_nil|]. cbn [retain_new].
  rewrite elem_of_cons. intros Hx. destruct (decide (key z ∈ seen)) as [Hk|Hk].
  { destruct Hx as [->|Hx]; [by left|by apply IH]. }
  assert (cmp_le cmp z x) as Hzx.
  { destruct Hx as [->|Hx]; [unfold cmp_le; by rewrite cmp_refl|]. by apply (proj1 (Forall_forall _ _) Hz). }
  destruct (decide (key x = key z)) as [E|E].
  { right. exists z. by split; [left|]. }
  destruct Hx as [->|Hx]; [done|].
  destruct (IH ({[key z]} ∪ seen) Hx) as [[Hk'%elem_of_singleton|?]%elem_of_union|(y & ? & ? & ?)]; [done|by left|].
  right. exists y. by split; [right|].
Qed.
Lemma sublist_StronglySorted {B} (R : B -> B -> Prop) (l k : list B) :
  l `sublist_of` k -> StronglySorted R k -> StronglySorted R l.
Proof.
  induction 1 as [|x l k Hs IH|x l k Hs IH]; intros H; [done|..].
  - inversion H; subst. constructor; [by apply IH|]. apply Forall_forall. intros y Hy.
    match goal with H : Forall (R x) k |- _ => rewrite Forall_forall in H; apply H end. by eapply elem_of_sublist.
  - inversion H; subst. by apply IH.
Qed.
Lemma elem_of_dedup_after (same : A -> A -> bool) kept l x :
  (forall a b, same a b = true -> a = b) ->
  x ∈ kept :: dedup_after same kept l <-> x ∈ kept :: l.
Proof.
  intros Hs. revert kept. induction l as [|a l IH]; intros kept; simpl; [done|].
  destruct (same a kept) eqn:E.
  - rewrite (IH kept), (Hs _ _ E), !elem_of_cons. intuition.
  - rewrite elem_of_cons, IH. rewrite !elem_of_cons. intuition.
Qed.
Lemma elem_of_dedup (same : A -> A -> bool) l x :
  (forall a b, same a b = true -> a = b) -> x ∈ dedup same l <-> x ∈ l.
Proof. intros Hs. destruct l; simpl; [done|]. by apply elem_of_dedup_after. Qed.

Lemma dedup_after_sorted_nodup (cmp : A -> A -> comparison) `{!LawfulCmp cmp}
    (same : A -> A -> bool) kept l :
  (forall a b, same a b = true <-> a = b) -> (forall a b, cmp a b = Eq -> a = b) ->
  StronglySorted (cmp_le cmp) (kept :: l) -> NoDup (kept :: dedup_after same kept l).
Proof.
  intros Hs Hc. revert kept. induction l as [|a l IH]; intros kept H; simpl.
  { apply NoDup_singleton. }
  inversion H as [|? ? Hl Hk]; subst. inversion Hl as [|? ? Hl' Ha]; subst.
  inversion Hk as [|? ? Hka Hk']; subst.
  destruct (same a kept) eqn:E.
  { apply IH. by constructor. }
  constructor; [|by apply IH].
  rewrite elem_of_dedup_after by (intros; by apply Hs).
  rewrite elem_of_cons. intros [->|Hin].
  - rewrite (proj2 (Hs a a) eq_refl) in E. done.
  - rewrite Forall_forall in Ha. specialize (Ha _ Hin). unfold cmp_le in *.
    pose proof (cmp_antisym cmp a kept) as Hak.
    assert (cmp a kept = Eq) as Hq by (destruct (cmp a kept); simpl in *; congruence).
    rewrite (Hc _ _ Hq), (proj2 (Hs kept kept) eq_refl) in E. done.
Qed.
(** Sorting and then removing equal neighbours leaves no duplicate at all. *)
Lemma sort_dedup_nodup (cmp : A -> A -> comparison) `{!LawfulCmp cmp} (same : A -> A -> bool) l :
  (forall a b, same a b = true <-> a = b) -> (forall a b, cmp a b = Eq -> a = b) ->
  NoDup (dedup same (sort_by cmp l)).
Proof.
  intros Hs Hc. pose proof (sort_by_sorted cmp l) as H.
  destruct (sort_by cmp l); simpl; [constructor|]. by apply (dedup_after_sorted_nodup cmp).
Qed.
End lists.

Lemma StronglySorted_lookup {A} (R : A -> A -> Prop) (l : list A) i j x y :
  StronglySorted R l -> l !! i = Some x -> l !! j = Some y -> (i < j)%nat -> R x y.
Proof.
  intros H. revert i j. induction H as [|a l Hl IH Ha]; intros i j Hi Hj Hij; [done|].
  destruct j as [|j]; [lia|]. destruct i as [|i]; simpl in *.
  - injection Hi as <-. rewrite Forall_forall in Ha. apply Ha. by eapply list_elem_of_lookup_2.
  - eapply IH; eauto. lia.
Qed.

Lemma StronglySorted_across {A} (R : A -> A -> Prop) (l k : list A) x y :
  StronglySorted R (l ++ k) -> x ∈ l -> y ∈ k -> R x y.
Proof.
  induction l as [|z l IH]; [by intros _ ?%elem_of_nil|]. intros [Hs Hz]%StronglySorted_inv.
  rewrite elem_of_cons. intros [->|Hx] Hy; [|by apply IH].
  apply (proj1 (Forall_forall _ _) Hz), elem_of_app. by right.
Qed.
Lemma StronglySorted_weaken_in {A} (R R' : A -> A -> Prop) l :
  (forall x y, x ∈ l -> y ∈ l -> R x y -> R' x y) -> StronglySorted R l -> StronglySorted R' l.
Proof.
  intros H Hs. induction Hs as [|x l Hs IH Hx]; constructor.
  - apply IH. intros y z Hy Hz. apply H; by right.
  - rewrite Forall_forall in *. intros y Hy. apply H; [left|by right|by apply Hx].
Qed.
Lemma StronglySorted_weaken {A} (R R' : A -> A -> Prop) l :
  (forall x y, R x y -> R' x y) -> StronglySorted R l -> StronglySorted R' l.
Proof. intros H. apply StronglySorted_weaken_in. auto. Qed.
Lemma StronglySorted_app_intro {A} (R : A -> A -> Prop) (l k : list A) :
  StronglySorted R l -> StronglySorted R k -> (forall x y, x ∈ l -> y ∈ k -> R x y) -> StronglySorted R (l ++ k).
Proof.
  intros Hl Hk H. induction Hl as [|x l Hl IH Hx]; [done|]. cbn. constructor.
  - apply IH. intros y z Hy. apply H. by right.
  - apply Forall_app. split; [done|]. apply Forall_forall. intros y Hy. apply H; [left|done].
Qed.
Lemma StronglySorted_snoc {A} (R : A -> A -> Prop) (l : list A) x :
  StronglySorted R l -> Forall (fun y => R y x) l -> StronglySorted R (l ++ [x]).
Proof.
  induction 1 as [|y l Hl IH Hy]; intros Hx; simpl; [repeat constructor|]. apply Forall_cons in Hx as [Hyx Hx]. constructor; [by apply IH|].
  apply Forall_app. split; [done|]. by constructor.
Qed.
Lemma NoDup_of_submseteq {A} (l k : list A) : l ⊆+ k -> NoDup k -> NoDup l.
Proof. intros [k' Hp]%submseteq_Permutation. rewrite Hp, NoDup_app. by intros []. Qed.
Lemma list_filter_bool_sublist {A} (f : A -> bool) l : List.filter f l `sublist_of` l.
Proof. induction l as [|x l IH]; simpl; [done|]. destruct (f x); by constructor. Qed.
Lemma elem_of_filter_bool {A} (f : A -> bool) l x : x ∈ List.filter f l <-> x ∈ l /\ f x = true.
Proof. rewrite !list_elem_of_In. apply filter_In. Qed.

Lemma filter_filter {A} (f g : A -> bool) l : List.filter f (List.filter g l) = List.filter (fun x => g x && f x) l.
Proof. induction l as [|x l IH]; [done|]. cbn [List.filter]. destruct (g x); cbn [List.filter andb]; [|done]. by rewrite IH. Qed.
Lemma List_filter_nil {A} (f : A -> bool) l : (forall x, x ∈ l -> f x = false) -> List.filter f l = [].
Proof.
  induction l as [|x l IH]; intros H; simpl; [done|]. rewrite (H x) by left. apply IH. intros; apply H; by right.
Qed.
Lemma List_filter_all {A} (f : A -> bool) (l : list A) : (forall x, x ∈ l -> f x = true) -> List.filter f l = l.
Proof. induction l as [|x l IH]; intros H; [done|]. cbn [List.filter]. rewrite H by left. f_equal. apply IH. intros; apply H; by right. Qed.
Lemma omap_perm {A B} (f : A -> option B) (l k : list A) : l ≡ₚ k -> omap f l ≡ₚ omap f k.
Proof. intros H. by rewrite H. Qed.
Lemma omap_length_all {A B} (f : A -> option B) (l : list A) : (forall x, x ∈ l -> is_Some (f x)) -> length (omap f l) = length l.
Proof.
  induction l as [|x l IH]; intros H; [done|]. cbn [omap list_omap]. destruct (H x) as [y ->]; [left|]. cbn. f_equal. apply IH.
  intros; apply H; by right.
Qed.
Lemma omap_ext_in {A B} (f g : A -> option B) (l : list A) : (forall x, x ∈ l -> f x = g x) -> omap f l = omap g l.
Proof.
  induction l as [|x l IH]; intros H; [done|]. cbn [omap list_omap]. rewrite (H x) by left. rewrite IH; [done|]. intros; apply H; by right.
Qed.
Lemma omap_filter {A B} (f : A -> option B) (g : A -> bool) l : (forall x, g x = false -> f x = None) -> omap f (List.filter g l) = omap f l.
Proof. intros H. induction l as [|x l IH]; [done|]. cbn [List.filter omap list_omap]. destruct (g x) eqn:E; cbn [omap list_omap]; rewrite IH; [done|]. by rewrite (H x E). Qed.

(** [enumerate().filter(..)]: the elements whose index and value satisfy a test, in
    input order. *)
Definition keep_indexed {A} (p : nat -> A -> bool) (l : list A) : list A :=
  omap id (imap (fun i x => if p i x then Some x else None) l).

Section keep_indexed.
Context {A : Type}.
Implicit Types (p : nat -> A -> bool) (l : list A).
Lemma keep_indexed_cons p x l :
  keep_indexed p (x :: l) =
  if p 0 x then x :: keep_indexed (fun i => p (S i)) l else keep_indexed (fun i => p (S i)) l.
Proof. unfold keep_indexed. rewrite imap_cons. simpl. by destruct (p 0 x). Qed.
Lemma elem_of_keep_indexed p l x :
  x ∈ keep_indexed p l <-> exists i, l !! i = Some x /\ p i x = true.
Proof.
  revert p. induction l as [|y l IH]; intros p.
  { split; [by intros ?%not_elem_of_nil|]. by intros (i & Hi & _). }
  rewrite keep_indexed_cons. trans ((x = y /\ p 0 y = true) \/ x ∈ keep_indexed (fun i => p (S i)) l).
  { destruct (p 0 y); rewrite ?elem_of_cons; intuition congruence. }
  rewrite IH. split.
  - intros [[-> H]|(i & Hi & H)]; [by exists 0|by exists (S i)].
  - intros ([|i] & Hi & H); simpl in Hi; [left; split; congruence|right; by exists i].
Qed.
Lemma keep_indexed_sublist p l : keep_indexed p l `sublist_of` l.
Proof.
  revert p. induction l as [|y l IH]; intros p; [done|].
  rewrite keep_indexed_cons. destruct (p 0 y); by constructor.
Qed.
Lemma keep_indexed_nodup {B} (f : A -> B) p l :
  (forall i j x y, l !! i = Some x -> l !! j = Some y -> p i x = true -> p j y = true ->
     f x = f y -> i = j) ->
  NoDup (f <$> keep_indexed p l).
Proof.
  revert p. induction l as [|y l IH]; intros p H; [constructor|].
  rewrite keep_indexed_cons.
  assert (NoDup (f <$> keep_indexed (fun i => p (S i)) l)) as Hl.
  { apply IH. intros i j a b ????? . by apply Nat.succ_inj, (H (S i) (S j) a b). }
  destruct (p 0 y) eqn:E; [|done]. rewrite fmap_cons. constructor; [|done].
  intros (z & Hz & (i & Hi & Hp)%elem_of_keep_indexed)%list_elem_of_fmap.
  by pose proof (H 0 (S i) y z eq_refl Hi E Hp Hz).
Qed.
End keep_indexed.

(** ** Text

    A [String] is its UTF-8 bytes. [to_ascii_lowercase] touches only [A]..[Z]. *)

Definition lower_ascii (c : Ascii.ascii) : Ascii.ascii :=
  let n := Ascii.N_of_ascii c in
  if ((65 <=? n) && (n <=? 90))%N then Ascii.ascii_of_N (n + 32) else c.
Fixpoint lower (s : string) : string :=
  match s with EmptyString => EmptyString | String.String c rest => String.String (lower_ascii c) (lower rest) end.

Fixpoint bytes_of (s : string) : list N :=
  match s with EmptyString => [] | String.String c rest => Ascii.N_of_ascii c :: bytes_of rest end.
Arguments bytes_of : simpl nomatch.
Fixpoint of_bytes (l : list N) : string :=
  match l with [] => "" | b :: l => String.String (Ascii.ascii_of_N b) (of_bytes l) end.
Lemma of_bytes_of s : of_bytes (bytes_of s) = s.
Proof. induction s as [|c s IH]; [done|]. cbn [bytes_of of_bytes]. by rewrite IH, Ascii.ascii_N_embedding. Qed.
Lemma string_app_assoc (a b c : string) : a +:+ (b +:+ c) = (a +:+ b) +:+ c.
Proof. induction a as [|x a IH]; [done|]. exact (f_equal (String.String x) IH). Qed.
Lemma string_app_nil (a : string) : a +:+ "" = a.
Proof. induction a as [|x a IH]; [done|]. exact (f_equal (String.String x) IH). Qed.
Lemma app_prefixes (a b r q : string) : a +:+ r = b +:+ q -> (exists t, b = a +:+ t /\ r = t +:+ q) \/ (exists t, a = b +:+ t /\ q = t +:+ r).
Proof.
  revert b. induction a as [|c a IH]; intros b E; [left; by exists b|]. destruct b as [|d b]; [right; by exists (String.String c a)|].
  cbn in E. injection E as -> E. destruct (IH b E) as [(t & -> & ->)|(t & -> & ->)]; [left|right]; by exists t.
Qed.

(** Split every [match]/[if] of the goal and close what is trivial. *)
Ltac case_all := repeat (case_match; simplify_eq/=; try done).
(** Split a conjunction into its members, leaving [<->] whole. *)
Ltac split_conj := lazymatch goal with |- _ /\ _ => split; [split_conj|split_conj] | |- _ => idtac end.
