(* ===== verification/BuildCoordinator.v ===== *)
(** * The build coordinator (build_coordinator.rs)

    The process-wide admission control of index builds: a ticketed FIFO with
    root fairness and a single active build, the reservation ledger of the active
    build, deferral with a back-off, shutdown, and the compaction epochs.

    Shared objects are explicit. A [BuildCancellation] is an [Arc] around a flag,
    so a token is an identity and the set of cancelled identities is part of the
    shared state. The mutex sections of the asynchronous [acquire] are one
    definition each, and so are those of the reservations (the look at the flag, the
    parent's bytes, the ledger); the system below interleaves them with every other
    operation. *)

From S2P Require Import Prelude.

Abbreviation PathBuf := string (only parsing).

(** ** Data *)

Inductive BuildKind : Type :=
  | FullIndex | DirtyIndex | ReadModel | NameCompaction
  | ProjectContext | WorkspaceSemantics | CliIndex | CliMemory.
#[export] Instance BuildKind_eq_dec : EqDecision BuildKind.
Proof. solve_decision. Defined.

Definition BuildKind_as_str (k : BuildKind) : string :=
  match k with
  | FullIndex => "full-index"
  | DirtyIndex => "dirty-index"
  | ReadModel => "read-model"
  | NameCompaction => "name-compaction"
  | ProjectContext => "project-context"
  | WorkspaceSemantics => "workspace-semantics"
  | CliIndex => "cli-index"
  | CliMemory => "cli-memory"
  end.

Record BuildPolicy : Type := mkPolicy {
  max_active_builds : N;
  temporary_reservation_bytes : N;
  process_pressure_target_bytes : N;
  unattributed_headroom_bytes : N;
  wait_timeout : N;
}.

(** Durations and instants are in milliseconds. *)
Definition DEFAULT_MAX_ACTIVE_BUILDS : N := 1.
Definition DEFAULT_TEMPORARY_RESERVATION_BYTES : N := 256 * 1024 * 1024.
Definition DEFAULT_PROCESS_PRESSURE_TARGET_BYTES : N := 1024 * 1024 * 1024.
Definition DEFAULT_UNATTRIBUTED_HEADROOM_BYTES : N := 32 * 1024 * 1024.
Definition DEFAULT_WAIT_TIMEOUT : N := 30000.
Definition DEFERRED_RETRY_BACKOFF : N := 2000.

Definition default_policy : BuildPolicy :=
  mkPolicy DEFAULT_MAX_ACTIVE_BUILDS DEFAULT_TEMPORARY_RESERVATION_BYTES
    DEFAULT_PROCESS_PRESSURE_TARGET_BYTES DEFAULT_UNATTRIBUTED_HEADROOM_BYTES
    DEFAULT_WAIT_TIMEOUT.

Definition for_resource_profile (profile : string) : BuildPolicy :=
  mkPolicy DEFAULT_MAX_ACTIVE_BUILDS DEFAULT_TEMPORARY_RESERVATION_BYTES
    (if String.eqb profile "conservative" then 512 * 1024 * 1024
     else if String.eqb profile "large" then 2048 * 1024 * 1024
     else DEFAULT_PROCESS_PRESSURE_TARGET_BYTES)%N
    DEFAULT_UNATTRIBUTED_HEADROOM_BYTES DEFAULT_WAIT_TIMEOUT.

(** The identity of a cancellation token's shared flag. *)
Abbreviation CancelId := N (only parsing).

Record ActiveBuild : Type := mkActive {
  ab_ticket : N;
  ab_root : PathBuf;
  ab_kind : BuildKind;
  reserved_bytes : N;
  retained_bytes : N;
  ab_cancellation : CancelId;
}.

Record QueuedBuild : Type := mkQueued {
  qb_ticket : N;
  qb_root : PathBuf;
  qb_kind : BuildKind;
  qb_cancellation : CancelId;
}.

Record DeferredBuild : Type := mkDeferred {
  db_kind : BuildKind;
  requested_bytes : N;
  retry_after : N;
}.

Record CompactionState : Type := mkCompaction {
  worker_running : bool;
  current_epoch : option N;
  latest_epoch : N;
  current_cancellation : option CancelId;
}.
Definition default_compaction : CompactionState := mkCompaction false None 0 None.

Record CoordinatorState : Type := mkState {
  next_ticket : N;
  active : option ActiveBuild;
  waiters : list QueuedBuild;
  last_granted_root : option PathBuf;
  deferred : gmap PathBuf DeferredBuild;
  compactions : gmap PathBuf CompactionState;
  shutting_down : bool;
  peak_active_builds : N;
  peak_reserved_bytes : N;
  peak_retained_bytes : N;
  sampling_unavailable_count : N;
  budget_denial_count : N;
  cancellation_count : N;
  last_index_elapsed_ms : N;
  last_index_write_ms : N;
}.
Definition set_next_ticket (v : N) (s : CoordinatorState) : CoordinatorState :=
  mkState v s.(active) s.(waiters) s.(last_granted_root) s.(deferred) s.(compactions)
    s.(shutting_down) s.(peak_active_builds) s.(peak_reserved_bytes)
    s.(peak_retained_bytes) s.(sampling_unavailable_count) s.(budget_denial_count)
    s.(cancellation_count) s.(last_index_elapsed_ms) s.(last_index_write_ms).
Definition set_active (v : option ActiveBuild) (s : CoordinatorState) : CoordinatorState
    :=
  mkState s.(next_ticket) v s.(waiters) s.(last_granted_root) s.(deferred)
    s.(compactions) s.(shutting_down) s.(peak_active_builds) s.(peak_reserved_bytes)
    s.(peak_retained_bytes) s.(sampling_unavailable_count) s.(budget_denial_count)
    s.(cancellation_count) s.(last_index_elapsed_ms) s.(last_index_write_ms).
Definition set_waiters (v : list QueuedBuild) (s : CoordinatorState) : CoordinatorState
    :=
  mkState s.(next_ticket) s.(active) v s.(last_granted_root) s.(deferred)
    s.(compactions) s.(shutting_down) s.(peak_active_builds) s.(peak_reserved_bytes)
    s.(peak_retained_bytes) s.(sampling_unavailable_count) s.(budget_denial_count)
    s.(cancellation_count) s.(last_index_elapsed_ms) s.(last_index_write_ms).
Definition set_last_granted_root (v : option PathBuf) (s : CoordinatorState) :
    CoordinatorState :=
  mkState s.(next_ticket) s.(active) s.(waiters) v s.(deferred) s.(compactions)
    s.(shutting_down) s.(peak_active_builds) s.(peak_reserved_bytes)
    s.(peak_retained_bytes) s.(sampling_unavailable_count) s.(budget_denial_count)
    s.(cancellation_count) s.(last_index_elapsed_ms) s.(last_index_write_ms).
Definition set_deferred (v : gmap PathBuf DeferredBuild) (s : CoordinatorState) :
    CoordinatorState :=
  mkState s.(next_ticket) s.(active) s.(waiters) s.(last_granted_root) v s.(compactions)
    s.(shutting_down) s.(peak_active_builds) s.(peak_reserved_bytes)
    s.(peak_retained_bytes) s.(sampling_unavailable_count) s.(budget_denial_count)
    s.(cancellation_count) s.(last_index_elapsed_ms) s.(last_index_write_ms).
Definition set_compactions (v : gmap PathBuf CompactionState) (s : CoordinatorState) :
    CoordinatorState :=
  mkState s.(next_ticket) s.(active) s.(waiters) s.(last_granted_root) s.(deferred) v
    s.(shutting_down) s.(peak_active_builds) s.(peak_reserved_bytes)
    s.(peak_retained_bytes) s.(sampling_unavailable_count) s.(budget_denial_count)
    s.(cancellation_count) s.(last_index_elapsed_ms) s.(last_index_write_ms).
Definition set_shutting_down (v : bool) (s : CoordinatorState) : CoordinatorState :=
  mkState s.(next_ticket) s.(active) s.(waiters) s.(last_granted_root) s.(deferred)
    s.(compactions) v s.(peak_active_builds) s.(peak_reserved_bytes)
    s.(peak_retained_bytes) s.(sampling_unavailable_count) s.(budget_denial_count)
    s.(cancellation_count) s.(last_index_elapsed_ms) s.(last_index_write_ms).
Definition set_peak_active_builds (v : N) (s : CoordinatorState) : CoordinatorState :=
  mkState s.(next_ticket) s.(active) s.(waiters) s.(last_granted_root) s.(deferred)
    s.(compactions) s.(shutting_down) v s.(peak_reserved_bytes) s.(peak_retained_bytes)
    s.(sampling_unavailable_count) s.(budget_denial_count) s.(cancellation_count)
    s.(last_index_elapsed_ms) s.(last_index_write_ms).
Definition set_peak_reserved_bytes (v : N) (s : CoordinatorState) : CoordinatorState :=
  mkState s.(next_ticket) s.(active) s.(waiters) s.(last_granted_root) s.(deferred)
    s.(compactions) s.(shutting_down) s.(peak_active_builds) v s.(peak_retained_bytes)
    s.(sampling_unavailable_count) s.(budget_denial_count) s.(cancellation_count)
    s.(last_index_elapsed_ms) s.(last_index_write_ms).
Definition set_peak_retained_bytes (v : N) (s : CoordinatorState) : CoordinatorState :=
  mkState s.(next_ticket) s.(active) s.(waiters) s.(last_granted_root) s.(deferred)
    s.(compactions) s.(shutting_down) s.(peak_active_builds) s.(peak_reserved_bytes) v
    s.(sampling_unavailable_count) s.(budget_denial_count) s.(cancellation_count)
    s.(last_index_elapsed_ms) s.(last_index_write_ms).
Definition set_sampling_unavailable_count (v : N) (s : CoordinatorState) :
    CoordinatorState :=
  mkState s.(next_ticket) s.(active) s.(waiters) s.(last_granted_root) s.(deferred)
    s.(compactions) s.(shutting_down) s.(peak_active_builds) s.(peak_reserved_bytes)
    s.(peak_retained_bytes) v s.(budget_denial_count) s.(cancellation_count)
    s.(last_index_elapsed_ms) s.(last_index_write_ms).
Definition set_budget_denial_count (v : N) (s : CoordinatorState) : CoordinatorState :=
  mkState s.(next_ticket) s.(active) s.(waiters) s.(last_granted_root) s.(deferred)
    s.(compactions) s.(shutting_down) s.(peak_active_builds) s.(peak_reserved_bytes)
    s.(peak_retained_bytes) s.(sampling_unavailable_count) v s.(cancellation_count)
    s.(last_index_elapsed_ms) s.(last_index_write_ms).
Definition set_cancellation_count (v : N) (s : CoordinatorState) : CoordinatorState :=
  mkState s.(next_ticket) s.(active) s.(waiters) s.(last_granted_root) s.(deferred)
    s.(compactions) s.(shutting_down) s.(peak_active_builds) s.(peak_reserved_bytes)
    s.(peak_retained_bytes) s.(sampling_unavailable_count) s.(budget_denial_count) v
    s.(last_index_elapsed_ms) s.(last_index_write_ms).
Definition set_last_index_elapsed_ms (v : N) (s : CoordinatorState) : CoordinatorState
    :=
  mkState s.(next_ticket) s.(active) s.(waiters) s.(last_granted_root) s.(deferred)
    s.(compactions) s.(shutting_down) s.(peak_active_builds) s.(peak_reserved_bytes)
    s.(peak_retained_bytes) s.(sampling_unavailable_count) s.(budget_denial_count)
    s.(cancellation_count) v s.(last_index_write_ms).
Definition set_last_index_write_ms (v : N) (s : CoordinatorState) : CoordinatorState :=
  mkState s.(next_ticket) s.(active) s.(waiters) s.(last_granted_root) s.(deferred)
    s.(compactions) s.(shutting_down) s.(peak_active_builds) s.(peak_reserved_bytes)
    s.(peak_retained_bytes) s.(sampling_unavailable_count) s.(budget_denial_count)
    s.(cancellation_count) s.(last_index_elapsed_ms) v.

Definition default_state : CoordinatorState :=
  mkState 0 None [] None ∅ ∅ false 0 0 0 0 0 0 0 0.

(** The coordinator's state with the cancellation flags it shares with callers. *)
Record Shared : Type := mkShared {
  state : CoordinatorState;
  cancelled : gset CancelId;
  next_cancel : CancelId;
}.
Definition upd (f : CoordinatorState -> CoordinatorState) (s : Shared) : Shared :=
  mkShared (f s.(state)) s.(cancelled) s.(next_cancel).

Inductive AcquireError : Type := AcqCancelled | AcqDeferred | AcqShuttingDown.
Inductive ReservationError : Type :=
  | ResCancelled | TemporaryBudgetExceeded | ProcessPressure | StalePermit.
#[export] Instance AcquireError_eq_dec : EqDecision AcquireError.
Proof. solve_decision. Defined.
#[export] Instance ReservationError_eq_dec : EqDecision ReservationError.
Proof. solve_decision. Defined.

(** [BuildPermit] with the [PermitLease] it shares. *)
Record BuildPermit : Type := mkPermit {
  lease_ticket : N;
  lease_root : PathBuf;
  lease_cancellation : CancelId;
  stage : BuildKind;
}.
Record BuildReservationLease : Type := mkLease {
  permit : BuildPermit;
  parent_reserved : N;
  parent_retained : N;
}.

Inductive CompactionRequest : Type := StartWorker | UpdatedPending | IgnoredStale.

(** ** Cancellation tokens *)

Definition is_cancelled (c : CancelId) (s : Shared) : bool := bool_decide (c ∈ s.(cancelled)).
Definition cancel (c : CancelId) (s : Shared) : Shared :=
  mkShared s.(state) ({[c]} ∪ s.(cancelled)) s.(next_cancel).
Definition cancel_opt (c : option CancelId) (s : Shared) : Shared :=
  match c with Some c => cancel c s | None => s end.
(** [BuildCancellation::new]: a token nobody has cancelled. *)
Definition new_cancellation (s : Shared) : CancelId * Shared :=
  (s.(next_cancel), mkShared s.(state) s.(cancelled) (s.(next_cancel) + 1)).

Definition count_cancellation : Shared -> Shared :=
  upd (fun st => set_cancellation_count (st.(cancellation_count) +s 1) st).

(** ** The queue *)

Definition next_ticket_of (st : CoordinatorState) : N * CoordinatorState :=
  let t := N.max (wrapping_add st.(next_ticket) 1) 1 in (t, set_next_ticket t st).

Definition next_waiter_index (st : CoordinatorState) : option nat :=
  match position (fun w => negb (bool_decide (Some w.(qb_root) = st.(last_granted_root))))
          st.(waiters) with
  | Some i => Some i
  | None => match st.(waiters) with [] => None | _ => Some 0 end
  end.

Definition remove_waiter (ticket : N) (st : CoordinatorState) :
    option (QueuedBuild * CoordinatorState) :=
  i ← position (fun w => N.eqb w.(qb_ticket) ticket) st.(waiters);
  '(q, rest) ← remove_at i st.(waiters);
  Some (q, set_waiters rest st).
(** [Self::remove_waiter(&mut state, ticket)] for its effect. *)
Definition drop_waiter (ticket : N) (st : CoordinatorState) : CoordinatorState :=
  match remove_waiter ticket st with Some (_, st') => st' | None => st end.

Definition grant (ticket : N) (root : PathBuf) (kind : BuildKind) (c : CancelId)
    (s : Shared) : BuildPermit * Shared :=
  (mkPermit ticket root c kind,
   upd (fun st =>
          set_peak_active_builds (N.max st.(peak_active_builds) 1)
            (set_active (Some (mkActive ticket root kind 0 0 c))
               (set_last_granted_root (Some root) st))) s).

Definition release (ticket : N) : Shared -> Shared :=
  upd (fun st =>
         match st.(active) with
         | Some a => if N.eqb a.(ab_ticket) ticket then set_active None st else st
         | None => st
         end).

(** ** [acquire], one definition per mutex section *)

(** A foreground request cancels an active compaction that is not cancelled yet. *)
Definition cancel_stale_compaction (s : Shared) : Shared :=
  match s.(state).(active) with
  | Some a =>
      if bool_decide (a.(ab_kind) = NameCompaction) && negb (is_cancelled a.(ab_cancellation) s)
      then count_cancellation (cancel a.(ab_cancellation) s) else s
  | None => s
  end.

Definition acquire_entry (kind : BuildKind) (s : Shared) : result AcquireError Shared :=
  if bool_decide (kind = NameCompaction) then Ok s
  else if s.(state).(shutting_down) then Err AcqShuttingDown
  else Ok (cancel_stale_compaction s).

(** The back-off loop's section: [Some t] says "sleep until [t]" and repeat. *)
Definition acquire_backoff (root : PathBuf) (kind : BuildKind) (now : N) (s : Shared) :
    result AcquireError (option N) :=
  if s.(state).(shutting_down) then Err AcqShuttingDown
  else Ok (match s.(state).(deferred) !! root with
           | Some d =>
               if bool_decide (d.(db_kind) = kind) && N.ltb now d.(retry_after)
               then Some d.(retry_after) else None
           | None => None
           end).

Definition acquire_enqueue (root : PathBuf) (kind : BuildKind) (c : CancelId) (s : Shared) :
    result AcquireError (N * Shared) :=
  if s.(state).(shutting_down) then Err AcqShuttingDown
  else
    let s1 := if bool_decide (kind = NameCompaction) then s else cancel_stale_compaction s in
    let '(ticket, st) := next_ticket_of s1.(state) in
    Ok (ticket, upd (fun _ => set_waiters (st.(waiters) ++ [mkQueued ticket root kind c]) st) s1).

(** The waiting loop's section: [Ok None] keeps waiting. *)
Definition acquire_poll (ticket : N) (c : CancelId) (s : Shared) :
    result AcquireError (option BuildPermit) * Shared :=
  if s.(state).(shutting_down) then (Err AcqShuttingDown, upd (drop_waiter ticket) s)
  else if is_cancelled c s then
    (Err AcqCancelled, count_cancellation (upd (drop_waiter ticket) s))
  else
    match s.(state).(active) with
    | Some _ => (Ok None, s)
    | None =>
        match next_waiter_index s.(state) with
        | None => (Ok None, s)
        | Some i =>
            match remove_at i s.(state).(waiters) with
            | Some (q, rest) =>
                if N.eqb q.(qb_ticket) ticket then
                  let '(p, s') := grant ticket q.(qb_root) q.(qb_kind) q.(qb_cancellation)
                                    (upd (set_waiters rest) s) in
                  (Ok (Some p), s')
                else (Ok None, s)
            | None => (Ok None, s)
            end
        end
    end.

(** The deadline branch: leave the queue and record the deferral. *)
Definition acquire_timeout (ticket now : N) (s : Shared) : AcquireError * Shared :=
  (AcqDeferred,
   match remove_waiter ticket s.(state) with
   | Some (q, st) =>
       upd (fun _ => set_deferred (<[q.(qb_root) :=
              mkDeferred q.(qb_kind) 0 (now + DEFERRED_RETRY_BACKOFF)]> st.(deferred)) st) s
   | None => s
   end).

(** ** Shutdown, root removal and statistics *)

Definition shutdown (s : Shared) : Shared :=
  let s1 := upd (set_shutting_down true) s in
  let s2 := cancel_opt (ab_cancellation <$> s1.(state).(active)) s1 in
  let s3 := foldl (fun s w => cancel w.(qb_cancellation) s) s2 s2.(state).(waiters) in
  map_fold (fun _ cs s => cancel_opt cs.(current_cancellation) s) s3 s3.(state).(compactions).

Definition remove_root (root : PathBuf) (s : Shared) : Shared :=
  let s1 := match s.(state).(active) with
            | Some a => if String.eqb a.(ab_root) root then cancel a.(ab_cancellation) s else s
            | None => s
            end in
  let s2 := upd (fun st =>
                   set_deferred (delete root st.(deferred))
                     (set_waiters (filter (fun w => w.(qb_root) <> root) st.(waiters)) st)) s1 in
  match s2.(state).(compactions) !! root with
  | Some cs =>
      cancel_opt cs.(current_cancellation)
        (upd (fun st => set_compactions (delete root st.(compactions)) st) s2)
  | None => s2
  end.

Definition record_index_stats (elapsed_ms write_ms : N) : Shared -> Shared :=
  upd (fun st => set_last_index_write_ms write_ms (set_last_index_elapsed_ms elapsed_ms st)).

(** ** Compaction epochs *)

Definition put_compaction (root : PathBuf) (cs : CompactionState) : Shared -> Shared :=
  upd (fun st => set_compactions (<[root := cs]> st.(compactions)) st).

Definition request_compaction (root : PathBuf) (epoch : N) (s : Shared) :
    CompactionRequest * Shared :=
  if s.(state).(shutting_down) then (IgnoredStale, s)
  else
    let cs := default default_compaction (s.(state).(compactions) !! root) in
    if (epoch <=? cs.(latest_epoch))%N then (IgnoredStale, put_compaction root cs s)
    else if cs.(worker_running) then
      (UpdatedPending,
       cancel_opt cs.(current_cancellation)
         (put_compaction root
            (mkCompaction true cs.(current_epoch) epoch cs.(current_cancellation)) s))
    else
      (StartWorker,
       put_compaction root
         (mkCompaction true cs.(current_epoch) epoch cs.(current_cancellation)) s).

Definition begin_next_compaction (root : PathBuf) (s : Shared) :
    option (N * CancelId) * Shared :=
  match s.(state).(compactions) !! root with
  | None => (None, s)
  | Some cs =>
      if bool_decide (cs.(current_epoch) = Some cs.(latest_epoch)) then (None, s)
      else
        let '(c, s1) := new_cancellation s in
        (Some (cs.(latest_epoch), c),
         put_compaction root
           (mkCompaction cs.(worker_running) (Some cs.(latest_epoch)) cs.(latest_epoch)
              (Some c)) s1)
  end.

(** The common prefix of [finish_compaction] and [retry_compaction]. *)
Definition clear_current (epoch : N) (cs : CompactionState) : CompactionState :=
  if bool_decide (cs.(current_epoch) = Some epoch)
  then mkCompaction cs.(worker_running) None cs.(latest_epoch) None else cs.

Definition finish_compaction (root : PathBuf) (epoch : N) (s : Shared) : bool * Shared :=
  match s.(state).(compactions) !! root with
  | None => (false, s)
  | Some cs =>
      if (epoch <? cs.(latest_epoch))%N then (true, put_compaction root (clear_current epoch cs) s)
      else (false, upd (fun st => set_compactions (delete root st.(compactions)) st) s)
  end.

Definition retry_compaction (root : PathBuf) (epoch : N) (s : Shared) : bool * Shared :=
  if s.(state).(shutting_down) then (false, s)
  else match s.(state).(compactions) !! root with
       | None => (false, s)
       | Some cs => (true, put_compaction root (clear_current epoch cs) s)
       end.

(** ** The reservation ledger of a permit *)

Section permits.
  Context (policy : BuildPolicy).

(** [usize::try_from(u64).unwrap_or(usize::MAX)] *)
Definition usize_of_u64 (x : N) : N := if (x <=? usize_max)%N then x else usize_max.

Definition check_cancelled (p : BuildPermit) (s : Shared) : result ReservationError unit :=
  if is_cancelled p.(lease_cancellation) s then Err ResCancelled else Ok tt.

(** The active build if it still is the permit's own. *)
Definition active_for (p : BuildPermit) (s : Shared) : option ActiveBuild :=
  match s.(state).(active) with
  | Some a => if N.eqb a.(ab_ticket) p.(lease_ticket) then Some a else None
  | None => None
  end.

Definition deny (p : BuildPermit) (a : ActiveBuild) (reserved now : N) : Shared -> Shared :=
  upd (fun st =>
         set_deferred (<[p.(lease_root) :=
             mkDeferred a.(ab_kind) reserved (now + DEFERRED_RETRY_BACKOFF)]> st.(deferred))
           (set_budget_denial_count (st.(budget_denial_count) +s 1) st)).

(** The bytes a reservation is charged for: live memory, the new reservation and
    the head-room. *)
Definition pressure_of (sampled reserved retained : N) : N :=
  N.max sampled retained +s reserved +s policy.(unattributed_headroom_bytes).

Definition set_ledger (reserved retained : N) (a : ActiveBuild) : ActiveBuild :=
  mkActive a.(ab_ticket) a.(ab_root) a.(ab_kind) reserved retained a.(ab_cancellation).

Definition admit_reservation (p : BuildPermit) (a : ActiveBuild) (reserved retained : N) :
    Shared -> Shared :=
  upd (fun st =>
         set_deferred (delete p.(lease_root) st.(deferred))
           (set_peak_retained_bytes (N.max st.(peak_retained_bytes) retained)
              (set_peak_reserved_bytes (N.max st.(peak_reserved_bytes) reserved)
                 (set_active (Some (set_ledger reserved retained a)) st)))).

(** [BuildPermit::reserve] from the moment it holds the mutex; [sample] is what the
    memory sampler returned just before and [now] the clock. *)
Definition reserve_locked (p : BuildPermit) (reserved retained sample now : N) (s : Shared) :
    result ReservationError unit * Shared :=
  let sampled := usize_of_u64 sample in
  match active_for p s with
  | None => (Err StalePermit, s)
  | Some a =>
      if (policy.(temporary_reservation_bytes) <? reserved)%N then
        (Err TemporaryBudgetExceeded, deny p a reserved now s)
      else
        let s1 := if N.eqb sampled 0
                  then upd (fun st => set_sampling_unavailable_count
                                        (st.(sampling_unavailable_count) +s 1) st) s
                  else s in
        if (policy.(process_pressure_target_bytes) <? pressure_of sampled reserved retained)%N
        then (Err ProcessPressure, deny p a reserved now s1)
        else (Ok tt, admit_reservation p a reserved retained s1)
  end.

(** [BuildPermit::reserve] when nobody runs between its look at the cancellation flag,
    which takes no mutex, and its mutex section. [step] keeps the two apart. *)
Definition reserve (p : BuildPermit) (reserved retained sample now : N) (s : Shared) :
    result ReservationError unit * Shared :=
  match check_cancelled p s with
  | Err e => (Err e, s)
  | Ok _ => reserve_locked p reserved retained sample now s
  end.

(** The first mutex section of the scoped reservations: what the parent has reserved
    and retained. *)
Definition read_parent (p : BuildPermit) (s : Shared) : result ReservationError (N * N) :=
  match active_for p s with
  | None => Err StalePermit
  | Some a => Ok (a.(reserved_bytes), a.(retained_bytes))
  end.

(** The scoped reservations take the mutex twice, to read the parent and in [reserve];
    [between] is what other threads do while it is free. The lease restores what the
    first section read. *)
Definition reserve_phase (between : Shared -> Shared) (p : BuildPermit)
    (bytes sample now : N) (s : Shared) :
    result ReservationError BuildReservationLease * Shared :=
  match read_parent p s with
  | Err e => (Err e, s)
  | Ok (pr, pt) =>
      match reserve p bytes pt sample now (between s) with
      | (Ok _, s') => (Ok (mkLease p pr pt), s')
      | (Err e, s') => (Err e, s')
      end
  end.

Definition reserve_scoped (between : Shared -> Shared) (p : BuildPermit)
    (bytes sample now : N) (s : Shared) :
    result ReservationError BuildReservationLease * Shared :=
  match read_parent p s with
  | Err e => (Err e, s)
  | Ok (pr, pt) =>
      match reserve p (pr +s bytes) pt sample now (between s) with
      | (Ok _, s') => (Ok (mkLease p pr pt), s')
      | (Err e, s') => (Err e, s')
      end
  end.

Definition SCOPED_RETRY_STEP : N := 4 * 1024 * 1024.

(** The retry loop of [reserve_scoped_up_to]. Attempt [k] sees sample [samples k]
    and clock [nows k]; [env k] is what other threads do before it and [mid k] what
    they do between its two mutex sections. *)
Fixpoint scoped_up_to_loop (fuel : nat) (samples nows : nat -> N) (env mid : nat -> Shared -> Shared)
    (p : BuildPermit) (bytes minimum : N) (k : nat) (s : Shared) :
    option (result ReservationError (BuildReservationLease * N) * Shared) :=
  match fuel with
  | 0 => None
  | S fuel =>
      match reserve_scoped (mid k) p bytes (samples k) (nows k) (env k s) with
      | (Ok lease, s') => Some (Ok (lease, bytes), s')
      | (Err ProcessPressure, s') =>
          if (minimum <? bytes)%N then
            scoped_up_to_loop fuel samples nows env mid p
              (N.max (bytes -s SCOPED_RETRY_STEP) minimum) minimum (S k) s'
          else Some (Err ProcessPressure, s')
      | (Err e, s') => Some (Err e, s')
      end
  end.

Definition scoped_up_to_fuel (bytes : N) : nat := S (S (N.to_nat (bytes / SCOPED_RETRY_STEP))).

Definition reserve_scoped_up_to (samples nows : nat -> N) (env mid : nat -> Shared -> Shared)
    (p : BuildPermit) (preferred minimum : N) (s : Shared) :
    option (result ReservationError (BuildReservationLease * N) * Shared) :=
  match active_for p s with
  | None => Some (Err StalePermit, s)
  | Some a =>
      let bytes := N.min preferred
                     (policy.(temporary_reservation_bytes) -s a.(reserved_bytes)) in
      if (bytes <? minimum)%N then Some (Err TemporaryBudgetExceeded, s)
      else scoped_up_to_loop (scoped_up_to_fuel bytes) samples nows env mid p bytes minimum 0 s
  end.

(** [BuildReservationLease::retain] *)
Definition retain (l : BuildReservationLease) (bytes sample now : N) (s : Shared) :
    result ReservationError unit * Shared :=
  if (policy.(temporary_reservation_bytes) <? bytes +s l.(parent_reserved))%N
  then (Err TemporaryBudgetExceeded, s)
  else reserve l.(permit) l.(parent_reserved) (l.(parent_retained) +s bytes) sample now s.

(** [Drop for BuildReservationLease] *)
Definition drop_lease (l : BuildReservationLease) : Shared -> Shared :=
  upd (fun st =>
         match st.(active) with
         | Some a =>
             if N.eqb a.(ab_ticket) l.(permit).(lease_ticket)
             then set_active (Some (set_ledger l.(parent_reserved) l.(parent_retained) a)) st
             else st
         | None => st
         end).

Definition inherit (p : BuildPermit) (kind : BuildKind) : BuildPermit :=
  mkPermit p.(lease_ticket) p.(lease_root) p.(lease_cancellation) kind.

(** What ended one wait of [reserve_with_wait]: a notification or the 100 ms
    timer, or the permit's cancellation. *)
Inductive WaitEvent : Type := Woken | CancelledWhileWaiting.

Fixpoint reserve_with_wait_loop (fuel : nat) (samples nows : nat -> N) (clock : nat -> N)
    (events : nat -> WaitEvent) (env : nat -> Shared -> Shared)
    (p : BuildPermit) (reserved retained deadline : N) (k : nat) (s : Shared) :
    option (result ReservationError unit * Shared) :=
  match fuel with
  | 0 => None
  | S fuel =>
      match reserve p reserved retained (samples k) (nows k) (env k s) with
      | (Ok _, s') => Some (Ok tt, s')
      | (Err ProcessPressure, s') =>
          if (clock k <? deadline)%N then
            match events k with
            | Woken => reserve_with_wait_loop fuel samples nows clock events env p
                         reserved retained deadline (S k) s'
            | CancelledWhileWaiting => Some (Err ResCancelled, s')
            end
          else Some (Err ProcessPressure, s')
      | (Err e, s') => Some (Err e, s')
      end
  end.

Definition reserve_with_wait (fuel : nat) (samples nows clock : nat -> N)
    (events : nat -> WaitEvent) (env : nat -> Shared -> Shared)
    (p : BuildPermit) (reserved retained start : N) (s : Shared) :=
  reserve_with_wait_loop fuel samples nows clock events env p reserved retained
    (start + policy.(wait_timeout)) 0 s.

(** ** The snapshot *)

Record BuildCoordinatorSnapshot : Type := mkSnapshot {
  snap_active_builds : N;
  snap_active_kind : option BuildKind;
  snap_peak_active_builds : N;
  snap_waiting_builds : N;
  snap_deferred_roots : N;
  snap_deferred_requested_bytes : N;
  snap_active_reserved_bytes : N;
  snap_active_retained_bytes : N;
  snap_peak_reserved_bytes : N;
  snap_peak_retained_bytes : N;
  snap_compaction_roots : N;
  snap_sampling_unavailable_count : N;
  snap_budget_denial_count : N;
  snap_cancellation_count : N;
  snap_sampling_available : bool;
  snap_process_memory_bytes : N;
  snap_shutting_down : bool;
  snap_last_index_elapsed_ms : N;
  snap_last_index_write_ms : N;
}.

Definition snapshot (sampled : N) (st : CoordinatorState) : BuildCoordinatorSnapshot := {|
  snap_active_builds := match st.(active) with Some _ => 1 | None => 0 end;
  snap_active_kind := ab_kind <$> st.(active);
  snap_peak_active_builds := st.(peak_active_builds);
  snap_waiting_builds := N.of_nat (length st.(waiters));
  snap_deferred_roots := N.of_nat (size st.(deferred));
  snap_deferred_requested_bytes :=
    map_fold (fun _ d bytes => bytes +s d.(requested_bytes)) 0%N st.(deferred);
  snap_active_reserved_bytes := match st.(active) with Some a => a.(reserved_bytes) | None => 0 end;
  snap_active_retained_bytes := match st.(active) with Some a => a.(retained_bytes) | None => 0 end;
  snap_peak_reserved_bytes := st.(peak_reserved_bytes);
  snap_peak_retained_bytes := st.(peak_retained_bytes);
  snap_compaction_roots := N.of_nat (size st.(compactions));
  snap_sampling_unavailable_count := st.(sampling_unavailable_count);
  snap_budget_denial_count := st.(budget_denial_count);
  snap_cancellation_count := st.(cancellation_count);
  snap_sampling_available := negb (N.eqb sampled 0);
  snap_process_memory_bytes := usize_of_u64 sampled;
  snap_shutting_down := st.(shutting_down);
  snap_last_index_elapsed_ms := st.(last_index_elapsed_ms);
  snap_last_index_write_ms := st.(last_index_write_ms);
|}.

(** ** The system: every client, interleaved *)

(** Where a call of [acquire] is between two mutex sections. *)
Inductive AcquirePhase : Type :=
  | AtBackoff (root : PathBuf) (kind : BuildKind) (c : CancelId)
  | AtEnqueue (root : PathBuf) (kind : BuildKind) (c : CancelId)
  | Waiting (ticket : N) (c : CancelId)
  | Finished (outcome : result AcquireError BuildPermit).

(** A call that has reached [reserve]: what it asks for, the parent's bytes a scoped
    reservation read before ([None] in [reserve] itself and in [retain]), and whether
    it has looked at the cancellation flag yet. *)
Record ReserveCall : Type := mkCall {
  call_permit : BuildPermit;
  call_reserved : N;
  call_retained : N;
  call_parent : option (N * N);
  call_checked : bool;
}.
Definition checked (c : ReserveCall) : ReserveCall :=
  mkCall c.(call_permit) c.(call_reserved) c.(call_retained) c.(call_parent) true.
(** The lease a scoped call returns when its [reserve] succeeds. *)
Definition call_lease (c : ReserveCall) : option BuildReservationLease :=
  (fun pp => mkLease c.(call_permit) pp.1 pp.2) <$> c.(call_parent).

(** [permits] are the live [PermitLease]s; each [BuildReservationLease] holds a
    clone of its permit and each call in progress borrows one, so neither outlives it. *)
Record System : Type := mkSystem {
  shared : Shared;
  requests : gmap N AcquirePhase;
  permits : list BuildPermit;
  leases : list BuildReservationLease;
  calls : list ReserveCall;
}.
Definition initial_system : System := mkSystem (mkShared default_state ∅ 0) ∅ [] [] [].

Definition on_shared (f : Shared -> Shared) (y : System) : System :=
  mkSystem (f y.(shared)) y.(requests) y.(permits) y.(leases) y.(calls).
Definition to_phase (r : N) (ph : AcquirePhase) (s : Shared) (y : System) : System :=
  mkSystem s (<[r := ph]> y.(requests)) y.(permits) y.(leases) y.(calls).
Definition begin_call (c : ReserveCall) (y : System) : System :=
  mkSystem y.(shared) y.(requests) y.(permits) y.(leases) (c :: y.(calls)).
(** The call [c] is over with the outcome [res]; the other calls are [rest]. *)
Definition end_call (c : ReserveCall) (rest : list ReserveCall)
    (res : result ReservationError unit * Shared) (y : System) : System :=
  mkSystem res.2 y.(requests) y.(permits)
    (match res.1, call_lease c with Ok _, Some l => l :: y.(leases) | _, _ => y.(leases) end)
    rest.

Inductive step (y : System) : System -> Prop :=
  | step_entry r root kind c s' :
      y.(requests) !! r = None -> acquire_entry kind y.(shared) = Ok s' ->
      step y (to_phase r (AtBackoff root kind c) s' y)
  | step_entry_shutdown r kind e :
      y.(requests) !! r = None -> acquire_entry kind y.(shared) = Err e ->
      step y (to_phase r (Finished (Err e)) y.(shared) y)
  | step_backoff_clear r root kind c now :
      y.(requests) !! r = Some (AtBackoff root kind c) ->
      acquire_backoff root kind now y.(shared) = Ok None ->
      step y (to_phase r (AtEnqueue root kind c) y.(shared) y)
  | step_backoff_cancelled r root kind c now t :
      y.(requests) !! r = Some (AtBackoff root kind c) ->
      acquire_backoff root kind now y.(shared) = Ok (Some t) -> is_cancelled c y.(shared) = true ->
      step y (to_phase r (Finished (Err AcqCancelled)) y.(shared) y)
  | step_backoff_shutdown r root kind c now e :
      y.(requests) !! r = Some (AtBackoff root kind c) ->
      acquire_backoff root kind now y.(shared) = Err e ->
      step y (to_phase r (Finished (Err e)) y.(shared) y)
  | step_enqueue r root kind c ticket s' :
      y.(requests) !! r = Some (AtEnqueue root kind c) ->
      acquire_enqueue root kind c y.(shared) = Ok (ticket, s') ->
      step y (to_phase r (Waiting ticket c) s' y)
  | step_enqueue_shutdown r root kind c e :
      y.(requests) !! r = Some (AtEnqueue root kind c) ->
      acquire_enqueue root kind c y.(shared) = Err e ->
      step y (to_phase r (Finished (Err e)) y.(shared) y)
  | step_poll_granted r ticket c p s' :
      y.(requests) !! r = Some (Waiting ticket c) ->
      acquire_poll ticket c y.(shared) = (Ok (Some p), s') ->
      step y (mkSystem s' (<[r := Finished (Ok p)]> y.(requests)) (p :: y.(permits)) y.(leases) y.(calls))
  | step_poll_error r ticket c e s' :
      y.(requests) !! r = Some (Waiting ticket c) ->
      acquire_poll ticket c y.(shared) = (Err e, s') ->
      step y (to_phase r (Finished (Err e)) s' y)
  | step_timeout r ticket c now :
      y.(requests) !! r = Some (Waiting ticket c) ->
      step y (to_phase r (Finished (Err AcqDeferred)) (acquire_timeout ticket now y.(shared)).2 y)
  | step_release p rest :
      y.(permits) ≡ₚ p :: rest ->
      Forall (fun l => l.(permit).(lease_ticket) <> p.(lease_ticket)) y.(leases) ->
      Forall (fun c => c.(call_permit).(lease_ticket) <> p.(lease_ticket)) y.(calls) ->
      step y (mkSystem (release p.(lease_ticket) y.(shared)) y.(requests) rest y.(leases) y.(calls))
  | step_begin_reserve p reserved retained :
      p ∈ y.(permits) -> step y (begin_call (mkCall p reserved retained None false) y)
  | step_begin_phase p bytes pr pt :
      p ∈ y.(permits) -> read_parent p y.(shared) = Ok (pr, pt) ->
      step y (begin_call (mkCall p bytes pt (Some (pr, pt)) false) y)
  | step_begin_scoped p bytes pr pt :
      p ∈ y.(permits) -> read_parent p y.(shared) = Ok (pr, pt) ->
      step y (begin_call (mkCall p (pr +s bytes) pt (Some (pr, pt)) false) y)
  | step_begin_retain l bytes :
      l ∈ y.(leases) ->
      (bytes +s l.(parent_reserved) <= policy.(temporary_reservation_bytes))%N ->
      step y (begin_call (mkCall l.(permit) l.(parent_reserved) (l.(parent_retained) +s bytes)
                            None false) y)
  | step_call_cancelled c rest e :
      y.(calls) ≡ₚ c :: rest -> c.(call_checked) = false ->
      check_cancelled c.(call_permit) y.(shared) = Err e ->
      step y (end_call c rest (Err e, y.(shared)) y)
  | step_call_checked c rest :
      y.(calls) ≡ₚ c :: rest -> c.(call_checked) = false ->
      check_cancelled c.(call_permit) y.(shared) = Ok tt ->
      step y (mkSystem y.(shared) y.(requests) y.(permits) y.(leases) (checked c :: rest))
  | step_call_locked c rest sample now :
      y.(calls) ≡ₚ c :: rest -> c.(call_checked) = true ->
      step y (end_call c rest (reserve_locked c.(call_permit) c.(call_reserved)
                                 c.(call_retained) sample now y.(shared)) y)
  | step_drop_lease l rest :
      y.(leases) ≡ₚ l :: rest ->
      step y (mkSystem (drop_lease l y.(shared)) y.(requests) y.(permits) rest y.(calls))
  | step_cancel c : step y (on_shared (cancel c) y)
  | step_new_cancellation : step y (on_shared (fun s => (new_cancellation s).2) y)
  | step_shutdown : step y (on_shared shutdown y)
  | step_remove_root root : step y (on_shared (remove_root root) y)
  | step_record_stats e w : step y (on_shared (record_index_stats e w) y)
  | step_request_compaction root epoch :
      step y (on_shared (fun s => (request_compaction root epoch s).2) y)
  | step_begin_compaction root : step y (on_shared (fun s => (begin_next_compaction root s).2) y)
  | step_finish_compaction root epoch :
      step y (on_shared (fun s => (finish_compaction root epoch s).2) y)
  | step_retry_compaction root epoch :
      step y (on_shared (fun s => (retry_compaction root epoch s).2) y).

Definition reachable_system (y : System) : Prop := rtc step initial_system y.

End permits.

(** ** What each operation leaves alone *)

(** The part of the state the reservation invariant speaks of. *)
Definition ledger (s : Shared) : option ActiveBuild * N * N :=
  (s.(state).(active), s.(state).(peak_reserved_bytes), s.(state).(peak_retained_bytes)).

Section ledger.
Implicit Types (s : Shared).

Lemma ledger_cancel c s : ledger (cancel c s) = ledger s.
Proof. done. Qed.
Lemma ledger_cancel_opt c s : ledger (cancel_opt c s) = ledger s.
Proof. by destruct c. Qed.
Lemma ledger_count_cancellation s : ledger (count_cancellation s) = ledger s.
Proof. done. Qed.
Lemma ledger_new_cancellation s : ledger (new_cancellation s).2 = ledger s.
Proof. done. Qed.
Lemma ledger_cancel_stale s : ledger (cancel_stale_compaction s) = ledger s.
Proof. unfold cancel_stale_compaction. by repeat case_match. Qed.
Lemma ledger_drop_waiter t s : ledger (upd (drop_waiter t) s) = ledger s.
Proof.
  unfold ledger, drop_waiter, remove_waiter; simpl.
  destruct (position _ _) as [i|]; simpl; [|done].
  destruct (remove_at _ _) as [[q rest]|]; done.
Qed.
Lemma ledger_cancel_list l s :
  ledger (foldl (fun s w => cancel w.(qb_cancellation) s) s l) = ledger s.
Proof. revert s. induction l as [|w l IH]; intros s; simpl; [done|]. by rewrite IH. Qed.
Lemma ledger_shutdown s : ledger (shutdown s) = ledger s.
Proof.
  unfold shutdown. apply (map_fold_weak_ind (fun s' _ => ledger s' = ledger s)).
  - by rewrite ledger_cancel_list, ledger_cancel_opt.
  - intros i cs m s' _ IH. by rewrite ledger_cancel_opt.
Qed.
Lemma ledger_remove_root r s : ledger (remove_root r s) = ledger s.
Proof.
  unfold remove_root. destruct (active (state s)) as [a|] eqn:Ha;
    [destruct (String.eqb _ _)|]; simpl;
    destruct (compactions (state s) !! r); simpl; rewrite ?ledger_cancel_opt; done.
Qed.
Lemma ledger_request_compaction r e s : ledger (request_compaction r e s).2 = ledger s.
Proof. unfold request_compaction. repeat case_match; simpl; by rewrite ?ledger_cancel_opt. Qed.
Lemma ledger_begin_compaction r s : ledger (begin_next_compaction r s).2 = ledger s.
Proof.
  unfold begin_next_compaction. destruct (_ !! r); [|done]. by destruct (bool_decide _).
Qed.
Lemma ledger_finish_compaction r e s : ledger (finish_compaction r e s).2 = ledger s.
Proof. unfold finish_compaction. destruct (_ !! r); [|done]. by destruct (N.ltb _ _). Qed.
Lemma ledger_retry_compaction r e s : ledger (retry_compaction r e s).2 = ledger s.
Proof. unfold retry_compaction. destruct (shutting_down _); [done|]. by destruct (_ !! r). Qed.
Lemma ledger_acquire_timeout t now s : ledger (acquire_timeout t now s).2 = ledger s.
Proof.
  unfold acquire_timeout, remove_waiter; simpl.
  destruct (position _ _) as [i|]; simpl; [|done].
  by destruct (remove_at _ _) as [[q rest]|].
Qed.
Lemma ledger_acquire_entry k s s' : acquire_entry k s = Ok s' -> ledger s' = ledger s.
Proof.
  unfold acquire_entry. repeat case_match; intros [= <-]; [done|apply ledger_cancel_stale].
Qed.
Lemma ledger_acquire_enqueue r k c s t s' :
  acquire_enqueue r k c s = Ok (t, s') -> ledger s' = ledger s.
Proof.
  unfold acquire_enqueue, next_ticket_of. repeat (case_match; simpl); intros [= <- <-]; [done|].
  by rewrite <- (ledger_cancel_stale s).
Qed.
Lemma ledger_acquire_poll_err t c s e s' :
  acquire_poll t c s = (Err e, s') -> ledger s' = ledger s.
Proof.
  unfold acquire_poll.
  repeat (case_match; simpl); intros [= <- <-];
    rewrite ?ledger_count_cancellation, ?ledger_drop_waiter; done.
Qed.
Lemma ledger_deny p a r now s : ledger (deny p a r now s) = ledger s.
Proof. done. Qed.
End ledger.

Create Rewrite HintDb ledger.
#[export] Hint Rewrite ledger_cancel ledger_cancel_opt ledger_count_cancellation
  ledger_new_cancellation ledger_cancel_stale ledger_drop_waiter ledger_shutdown
  ledger_remove_root ledger_request_compaction ledger_begin_compaction
  ledger_finish_compaction ledger_retry_compaction ledger_acquire_timeout
  ledger_deny : ledger.

(** A granted poll found no active build and installs the one of its permit. *)
Lemma acquire_poll_granted t c s p s' :
  acquire_poll t c s = (Ok (Some p), s') ->
  s.(state).(shutting_down) = false /\ is_cancelled c s = false /\
  s.(state).(active) = None /\ p.(lease_ticket) = t /\
  exists i q rest,
    next_waiter_index s.(state) = Some i /\ remove_at i s.(state).(waiters) = Some (q, rest) /\
    q.(qb_ticket) = t /\
    p = mkPermit t q.(qb_root) q.(qb_cancellation) q.(qb_kind) /\
    s'.(state).(waiters) = rest /\
    s'.(state).(last_granted_root) = Some q.(qb_root) /\
    ledger s' = (Some (mkActive t q.(qb_root) q.(qb_kind) 0 0 q.(qb_cancellation)),
                 s.(state).(peak_reserved_bytes), s.(state).(peak_retained_bytes)).
Proof.
  unfold acquire_poll, grant.
  destruct (shutting_down _) eqn:Hd; [done|]. destruct (is_cancelled c s) eqn:Hc; [done|].
  destruct (active _) eqn:Ha; [done|]. destruct (next_waiter_index _) as [i|] eqn:Hi; [|done].
  destruct (remove_at _ _) as [[q rest]|] eqn:Hr; [|done].
  destruct (N.eqb_spec (qb_ticket q) t); [|done]. intros [= <- <-]. simpl.
  split_and!; [done..|]. by exists i, q, rest.
Qed.

(** A reservation either fails, leaving the ledger as it was, or succeeds within
    the budget and the pressure target and records exactly what was asked. *)
Definition reserved_exactly policy p reserved retained sample s
    (r : result ReservationError unit * Shared) : Prop :=
  (exists e, r.1 = Err e /\ ledger r.2 = ledger s) \/
  (exists a, r.1 = Ok tt /\ active_for p s = Some a /\
     (reserved <= policy.(temporary_reservation_bytes))%N /\
     (pressure_of policy (usize_of_u64 sample) reserved retained
        <= policy.(process_pressure_target_bytes))%N /\
     ledger r.2 = (Some (set_ledger reserved retained a),
        N.max s.(state).(peak_reserved_bytes) reserved,
        N.max s.(state).(peak_retained_bytes) retained)).
Lemma reserve_locked_cases policy p reserved retained sample now s :
  reserved_exactly policy p reserved retained sample s
    (reserve_locked policy p reserved retained sample now s).
Proof.
  unfold reserved_exactly, reserve_locked.
  destruct (active_for p s) as [a|] eqn:Ha; [|left; by eexists].
  destruct (N.ltb_spec (temporary_reservation_bytes policy) reserved); [left; by eexists|].
  destruct (N.eqb _ 0); simpl; (destruct (N.ltb_spec (process_pressure_target_bytes policy)
    (pressure_of policy (usize_of_u64 sample) reserved retained)); simpl; [left; by eexists|]);
    right; exists a; split_and!; try done; lia.
Qed.
Lemma reserve_cases policy p reserved retained sample now s :
  reserved_exactly policy p reserved retained sample s
    (reserve policy p reserved retained sample now s).
Proof.
  unfold reserve, check_cancelled.
  destruct (is_cancelled _ s); [left; by eexists|]. apply reserve_locked_cases.
Qed.

Lemma usize_of_u64_small x : (x <= usize_max)%N -> usize_of_u64 x = x.
Proof. intros H. unfold usize_of_u64. by rewrite (proj2 (N.leb_le _ _) H). Qed.

Lemma pressure_of_exact policy sampled reserved retained limit :
  (limit < usize_max)%N ->
  (pressure_of policy sampled reserved retained <= limit)%N <->
  (N.max sampled retained + reserved + policy.(unattributed_headroom_bytes) <= limit)%N.
Proof. intros H. unfold pressure_of. mlia. Qed.

(** ** The system invariant *)

Definition owns (p : BuildPermit) (a : ActiveBuild) : Prop :=
  p.(lease_ticket) = a.(ab_ticket) /\ p.(lease_root) = a.(ab_root) /\
  p.(lease_cancellation) = a.(ab_cancellation).

Section invariant.
Context (policy : BuildPolicy).

(** Ledger values are within the budget and below the recorded peaks. *)
Definition within (lg : option ActiveBuild * N * N) (reserved retained : N) : Prop :=
  (reserved <= policy.(temporary_reservation_bytes))%N /\
  (reserved <= lg.1.2)%N /\ (retained <= lg.2)%N.

(** A live permit is the permit of the active build; there is none without an
    active build; and every reservation lease and every call in progress belongs to it. *)
Definition ledger_inv (lg : option ActiveBuild * N * N) (ps : list BuildPermit)
    (ls : list BuildReservationLease) : Prop :=
  match lg.1.1 with
  | None => ps = [] /\ ls = []
  | Some a =>
      exists p, ps = [p] /\ owns p a /\ within lg a.(reserved_bytes) a.(retained_bytes) /\
        Forall (fun l => l.(permit) = p /\ within lg l.(parent_reserved) l.(parent_retained)) ls
  end.
(** What a call in progress holds on to, as the lease it may become. *)
Definition claim (c : ReserveCall) : BuildReservationLease :=
  mkLease c.(call_permit) (default (0%N, 0%N) c.(call_parent)).1 (default (0%N, 0%N) c.(call_parent)).2.
Definition system_inv (y : System) : Prop :=
  ledger_inv (ledger y.(shared)) y.(permits) ((claim <$> y.(calls)) ++ y.(leases)).

Lemma ledger_inv_held lg ps ls p :
  ledger_inv lg ps ls -> p ∈ ps ->
  exists a, lg.1.1 = Some a /\ ps = [p] /\ owns p a /\
    within lg a.(reserved_bytes) a.(retained_bytes) /\
    Forall (fun l => l.(permit) = p /\ within lg l.(parent_reserved) l.(parent_retained)) ls.
Proof.
  unfold ledger_inv. destruct lg.1.1 as [a|]; [|by intros [-> _] []%elem_of_nil].
  intros (q & -> & H) ->%list_elem_of_singleton. by exists a.
Qed.

Lemma ledger_inv_release lg ps ls p rest t :
  ledger_inv lg ps ls -> ps ≡ₚ p :: rest -> t = p.(lease_ticket) ->
  Forall (fun l => l.(permit).(lease_ticket) <> t) ls ->
  exists a, lg.1.1 = Some a /\ a.(ab_ticket) = t /\ rest = [] /\ ls = [].
Proof.
  intros H Hp -> Hls. destruct (ledger_inv_held _ _ _ p H) as (a & Ha & Hps & Ho & _ & Hl).
  { rewrite Hp. by left. }
  exists a. split_and!; [done|by destruct Ho| |].
  - rewrite Hps in Hp. apply Permutation_length in Hp. by destruct rest.
  - destruct ls as [|l ls]; [done|].
    apply Forall_cons_1 in Hls as [Hne _], Hl as [[Heq _] _]. by rewrite Heq in Hne.
Qed.

(** A successful reservation by the held permit keeps the invariant, also with
    the lease that remembers the previous values. *)
Lemma within_mono a x y x' y' r t :
  within (a, x, y) r t -> (x <= x')%N -> (y <= y')%N -> forall b, within (b, x', y') r t.
Proof. unfold within; simpl. lia. Qed.

Lemma reserve_locked_preserves p reserved retained sample now s ps ls :
  ledger_inv (ledger s) ps ls -> p ∈ ps ->
  ledger_inv (ledger (reserve_locked policy p reserved retained sample now s).2) ps ls.
Proof.
  intros H Hp. destruct (reserve_locked_cases policy p reserved retained sample now s)
    as [(e & _ & ->)|(a & _ & Ha & Hb & _ & ->)]; [done|].
  destruct (ledger_inv_held _ _ _ p H Hp) as (a' & Ha' & -> & Ho & Hw & Hl).
  unfold active_for in Ha. simpl in Ha'. rewrite Ha' in Ha.
  destruct (N.eqb_spec (ab_ticket a') (lease_ticket p)); [|done]. simplify_eq.
  exists p. simpl. split_and!; [done|by destruct Ho|unfold within; simpl; lia|].
  eapply Forall_impl; [exact Hl|]. intros l [? Hl']. split; [done|].
  eapply within_mono; [exact Hl'|lia..].
Qed.

Lemma ledger_inv_lease lg ps ls l : ledger_inv lg ps ls -> l ∈ ls -> l.(permit) ∈ ps.
Proof.
  unfold ledger_inv. destruct lg.1.1; [|by intros [_ ->] []%elem_of_nil].
  intros (p & -> & _ & _ & Hl) Hin. rewrite Forall_forall in Hl.
  destruct (Hl _ Hin) as [-> _]. by left.
Qed.

#[local] Instance ledger_inv_proper lg ps : Proper ((≡ₚ) ==> iff) (ledger_inv lg ps).
Proof.
  intros ls ls' Hp. unfold ledger_inv. destruct lg.1.1 as [a|].
  - by setoid_rewrite Hp.
  - split; intros [-> ->]; (split; [done|]); [by apply Permutation_nil|by apply Permutation_nil_r in Hp].
Qed.
Lemma ledger_inv_drop lg ps ls l : ledger_inv lg ps (l :: ls) -> ledger_inv lg ps ls.
Proof.
  unfold ledger_inv. destruct lg.1.1 as [a|]; [|by intros [_ ?]].
  intros (p & ? & ? & ? & Hl). exists p. by apply Forall_cons_1 in Hl as [_ Hl].
Qed.
Lemma ledger_inv_add lg ps ls p r t :
  ledger_inv lg ps ls -> p ∈ ps -> within lg r t -> ledger_inv lg ps (mkLease p r t :: ls).
Proof.
  intros H Hp Hw. destruct (ledger_inv_held _ _ _ p H Hp) as (a & Ha & Hps & Ho & Hwa & Hl).
  unfold ledger_inv. rewrite Ha. exists p. split_and!; [done..|by constructor].
Qed.
Lemma read_parent_within s ps ls p r t :
  ledger_inv (ledger s) ps ls -> p ∈ ps -> read_parent p s = Ok (r, t) -> within (ledger s) r t.
Proof.
  intros H Hp. destruct (ledger_inv_held _ _ _ p H Hp) as (a & Ha & _ & [Ht _] & Hw & _).
  unfold ledger in Ha; simpl in Ha. unfold read_parent, active_for. rewrite Ha, Ht, N.eqb_refl.
  by intros [= <- <-].
Qed.

(** The end of a call: its claim turns into the lease or is gone. *)
Lemma end_call_preserves y c rest res :
  system_inv y -> y.(calls) ≡ₚ c :: rest ->
  ledger_inv (ledger res.2) y.(permits) ((claim <$> y.(calls)) ++ y.(leases)) ->
  system_inv (end_call c rest res y).
Proof.
  intros _ Hc H. rewrite Hc in H. simpl in H. unfold system_inv, end_call; simpl.
  assert (ledger_inv (ledger res.2) (permits y) ((claim <$> rest) ++ leases y)) as Hdrop
    by (by eapply ledger_inv_drop).
  destruct res.1 as [|e]; [|done]. unfold call_lease.
  destruct (call_parent c) as [pp|] eqn:E; simpl; [|done].
  rewrite <- Permutation_middle. by unfold claim at 1 in H; rewrite E in H.
Qed.

Lemma drop_lease_preserves l rest s ps ls :
  ledger_inv (ledger s) ps ls -> ls ≡ₚ l :: rest ->
  ledger_inv (ledger (drop_lease l s)) ps rest.
Proof.
  unfold ledger_inv, drop_lease, ledger; simpl. destruct (active _) as [a|] eqn:Ha.
  - intros (p & -> & (Ht & Ho) & Hw & Hl) Hp. rewrite Hp in Hl.
    inversion Hl as [|? ? [Hlp Hlw] Hl']; subst.
    rewrite Ht, N.eqb_refl; simpl. exists (permit l). done.
  - intros [-> ->] Hp. by apply Permutation_length in Hp.
Qed.

Lemma step_preserves y y' : step policy y y' -> system_inv y -> system_inv y'.
Proof.
  unfold system_inv. intros Hs Hi.
  destruct Hs as [r root kind c s' Hr He | r kind e Hr He | r root kind c now Hr He
    | r root kind c now t Hr He Hc | r root kind c now e Hr He | r root kind c ticket s' Hr He
    | r root kind c e Hr He | r ticket c p s' Hr He | r ticket c e s' Hr He | r ticket c now Hr
    | p rest Hp Hl Hcl | p reserved retained Hp | p bytes pr pt Hp Hrd | p bytes pr pt Hp Hrd
    | l bytes Hl Hb | c rest e Hc Hch Hca | c rest Hc Hch Hca | c rest sample now Hc Hch
    | l rest Hl | c | | | root | e w | root epoch | root | root epoch | root epoch];
    cbn [shared permits leases calls on_shared to_phase begin_call fmap list_fmap];
    autorewrite with ledger; try done.
  - by erewrite ledger_acquire_entry.
  - by erewrite ledger_acquire_enqueue.
  - apply acquire_poll_granted in He as (_ & _ & Hn & _ & i & q & rest & _ & _ & _ & -> & _ & _ & ->).
    unfold ledger_inv, ledger in *; simpl in *. rewrite Hn in Hi. destruct Hi as [-> ->].
    eexists. split_and!; [done|done|unfold within; simpl; lia|done].
  - by erewrite ledger_acquire_poll_err.
  - destruct (ledger_inv_release _ _ _ p rest _ Hi Hp eq_refl) as (a & Ha & Ht & -> & Hls).
    { apply Forall_app. split; [|done]. by apply Forall_fmap. }
    rewrite Hls in *. unfold ledger_inv, release, ledger in *; simpl in *.
    rewrite Ha, Ht, N.eqb_refl. done.
  - apply ledger_inv_add; [done..|]. unfold within; simpl; lia.
  - apply ledger_inv_add; [done..|by eapply read_parent_within].
  - apply ledger_inv_add; [done..|by eapply read_parent_within].
  - apply ledger_inv_add; [done| |unfold within; simpl; lia].
    eapply ledger_inv_lease; [exact Hi|]. apply elem_of_app. by right.
  - by apply end_call_preserves.
  - by rewrite Hc in Hi.
  - apply end_call_preserves; [done..|]. apply reserve_locked_preserves; [done|].
    eapply (ledger_inv_lease _ _ _ (claim c) Hi). rewrite Hc. by left.
  - eapply drop_lease_preserves; [done|]. rewrite Hl. by rewrite <- Permutation_middle.
Qed.

Lemma reachable_inv y : reachable_system policy y -> system_inv y.
Proof.
  unfold reachable_system. intros H. cut (system_inv initial_system).
  { induction H; [done|]. intros ?. by apply IHrtc; eapply step_preserves. }
  by split.
Qed.
End invariant.

(** ** Theorems: admission and the ledger *)

(** C1 At most one build permit is alive at any time, in every interleaving of all
    clients: a live permit is the only one, and the coordinator's active build is
    that permit's build (same ticket, root and cancellation token). *)
Theorem single_active_build policy y p :
  reachable_system policy y -> p ∈ y.(permits) ->
  y.(permits) = [p] /\
  exists a, y.(shared).(state).(active) = Some a /\ owns p a.
Proof.
  intros Hr Hp. destruct (ledger_inv_held policy _ _ _ p (reachable_inv policy y Hr) Hp)
    as (a & Ha & Hps & Ho & _). split; [done|]. by exists a.
Qed.

(** C3 In every reachable state the active build's reservation is within the
    temporary budget, and the recorded peaks bound the ledger. *)
Theorem reservations_within_budget policy y a :
  reachable_system policy y -> y.(shared).(state).(active) = Some a ->
  (a.(reserved_bytes) <= policy.(temporary_reservation_bytes))%N /\
  (a.(reserved_bytes) <= y.(shared).(state).(peak_reserved_bytes))%N /\
  (a.(retained_bytes) <= y.(shared).(state).(peak_retained_bytes))%N.
Proof.
  intros Hr Ha. pose proof (reachable_inv policy y Hr) as Hi.
  unfold system_inv, ledger_inv, ledger in Hi; simpl in Hi. rewrite Ha in Hi.
  by destruct Hi as (p & _ & _ & Hw & _).
Qed.

(** A permit that is still held is never reported stale by [reserve]. *)
Theorem held_permit_never_stale policy y p reserved retained sample now :
  reachable_system policy y -> p ∈ y.(permits) ->
  (reserve policy p reserved retained sample now y.(shared)).1 <> Err StalePermit.
Proof.
  intros Hr Hp.
  destruct (ledger_inv_held policy _ _ _ p (reachable_inv policy y Hr) Hp) as (a & Ha & _ & (Ht & _) & _).
  unfold ledger in Ha; simpl in Ha.
  unfold reserve, reserve_locked, check_cancelled, active_for. rewrite Ha, Ht, N.eqb_refl.
  repeat case_match; simpl; congruence.
Qed.

(** The steps of a call with nobody in between are [reserve]. *)
Lemma call_runs_reserve policy y c rest sample now :
  y.(calls) ≡ₚ c :: rest -> c.(call_checked) = false ->
  rtc (step policy) y (end_call c rest
    (reserve policy c.(call_permit) c.(call_reserved) c.(call_retained) sample now y.(shared)) y).
Proof.
  intros Hc Hch. unfold reserve. destruct (check_cancelled (call_permit c) (shared y)) as [[]|e] eqn:E.
  - eapply rtc_l; [by apply (step_call_checked _ _ c rest)|]. apply rtc_once.
    by apply (step_call_locked policy (mkSystem (shared y) (requests y) (permits y) (leases y) (checked c :: rest))
                (checked c) rest sample now).
  - apply rtc_once. by apply step_call_cancelled.
Qed.

(** A scoped reservation is its first step, whatever the others do, and then [reserve]. *)
Lemma phase_runs policy y y1 p bytes pr pt rest sample now :
  p ∈ y.(permits) -> read_parent p y.(shared) = Ok (pr, pt) ->
  let c := mkCall p bytes pt (Some (pr, pt)) false in
  rtc (step policy) (begin_call c y) y1 -> y1.(calls) ≡ₚ c :: rest ->
  let r := reserve_phase policy (fun _ => y1.(shared)) p bytes sample now y.(shared) in
  rtc (step policy) y (mkSystem r.2 y1.(requests) y1.(permits)
    (match r.1 with Ok l => l :: y1.(leases) | Err _ => y1.(leases) end) rest).
Proof.
  intros Hp Hrd c Hrun Hc r. eapply rtc_l; [by eapply step_begin_phase|]. etrans; [exact Hrun|].
  pose proof (call_runs_reserve policy y1 c rest sample now Hc eq_refl) as H.
  subst r. unfold reserve_phase. rewrite Hrd. unfold end_call in H; simpl in H.
  by destruct (reserve _ _ _ _ _ _ _) as [[]].
Qed.
Lemma scoped_runs policy y y1 p bytes pr pt rest sample now :
  p ∈ y.(permits) -> read_parent p y.(shared) = Ok (pr, pt) ->
  let c := mkCall p (pr +s bytes) pt (Some (pr, pt)) false in
  rtc (step policy) (begin_call c y) y1 -> y1.(calls) ≡ₚ c :: rest ->
  let r := reserve_scoped policy (fun _ => y1.(shared)) p bytes sample now y.(shared) in
  rtc (step policy) y (mkSystem r.2 y1.(requests) y1.(permits)
    (match r.1 with Ok l => l :: y1.(leases) | Err _ => y1.(leases) end) rest).
Proof.
  intros Hp Hrd c Hrun Hc r. eapply rtc_l; [by eapply step_begin_scoped|]. etrans; [exact Hrun|].
  pose proof (call_runs_reserve policy y1 c rest sample now Hc eq_refl) as H.
  subst r. unfold reserve_scoped. rewrite Hrd. unfold end_call in H; simpl in H.
  by destruct (reserve _ _ _ _ _ _ _) as [[]].
Qed.

(** The permit is the one of the active build [a]. *)
Definition live (p : BuildPermit) (a : ActiveBuild) (s : Shared) : Prop :=
  s.(state).(active) = Some a /\ a.(ab_ticket) = p.(lease_ticket).
Lemma active_for_live p a s : active_for p s = Some a <-> live p a s.
Proof.
  unfold active_for, live. destruct (active (state s)) as [b|]; [|by split; [|intros []]].
  destruct (N.eqb_spec (ab_ticket b) (lease_ticket p)); split; [by intros [= <-]|by intros [[= <-] _]|done|].
  by intros [[= <-] ?].
Qed.
Lemma active_for_None p s : active_for p s = None <-> ~ exists a, live p a s.
Proof.
  destruct (active_for p s) as [a|] eqn:E; split; try done.
  - apply active_for_live in E. intros H. destruct H. by exists a.
  - intros _ [a Ha%active_for_live]. congruence.
Qed.

(** C12 [reserve] decides by four questions, asked in this order: is the permit cancelled,
    is it the active build's, does the request fit the temporary budget, and do live
    memory, the request and the head-room fit the pressure target, in exact arithmetic
    (saturation never lets an oversized request through). It succeeds whenever all are
    answered well, and only then, and the error names the first that is not. Success
    records exactly the request and forgets the root's deferral; a failure leaves the
    active build and the peaks alone, and the two budget failures defer the root. *)
Theorem reserve_admits_exactly policy p reserved retained sample now s :
  (policy.(process_pressure_target_bytes) < usize_max)%N -> (sample <= usize_max)%N ->
  let r := reserve policy p reserved retained sample now s in
  let uncancelled := is_cancelled p.(lease_cancellation) s = false in
  let fits := (reserved <= policy.(temporary_reservation_bytes))%N in
  let calm := (N.max sample retained + reserved + policy.(unattributed_headroom_bytes)
                 <= policy.(process_pressure_target_bytes))%N in
  (r.1 = Ok tt <-> uncancelled /\ (exists a, live p a s) /\ fits /\ calm) /\
  (r.1 = Err ResCancelled <-> ~ uncancelled) /\
  (r.1 = Err StalePermit <-> uncancelled /\ ~ exists a, live p a s) /\
  (r.1 = Err TemporaryBudgetExceeded <-> uncancelled /\ (exists a, live p a s) /\ ~ fits) /\
  (r.1 = Err ProcessPressure <-> uncancelled /\ (exists a, live p a s) /\ fits /\ ~ calm) /\
  (r.1 = Ok tt -> forall a, live p a s ->
     ledger r.2 = (Some (set_ledger reserved retained a),
                   N.max s.(state).(peak_reserved_bytes) reserved,
                   N.max s.(state).(peak_retained_bytes) retained) /\
     r.2.(state).(deferred) = delete p.(lease_root) s.(state).(deferred)) /\
  (forall e, r.1 = Err e -> ledger r.2 = ledger s /\
     (e = ResCancelled \/ e = StalePermit -> r.2 = s) /\
     (e = TemporaryBudgetExceeded \/ e = ProcessPressure -> forall a, live p a s ->
        r.2.(state).(deferred) = <[p.(lease_root) :=
          mkDeferred a.(ab_kind) reserved (now + DEFERRED_RETRY_BACKOFF)]> s.(state).(deferred))).
Proof.
  intros Ht Hs r uncancelled fits calm.
  assert (forall a, live p a s -> active_for p s = Some a) as Hlive by (intros a; apply active_for_live).
  assert (calm <-> pressure_of policy (usize_of_u64 sample) reserved retained
                     <= process_pressure_target_bytes policy)%N as Hcalm
    by (rewrite usize_of_u64_small, pressure_of_exact; done).
  revert r. unfold reserve, check_cancelled. subst uncancelled.
  destruct (is_cancelled _ s) eqn:Hc; [naive_solver|]. unfold reserve_locked.
  destruct (active_for p s) as [a|] eqn:Ha.
  2: { apply active_for_None in Ha. naive_solver. }
  pose proof (proj1 (active_for_live p a s) Ha) as Hl.
  assert (exists a, live p a s) as Hex by (by exists a).
  destruct (N.ltb_spec (temporary_reservation_bytes policy) reserved) as [Hb|Hb].
  { assert (~ fits) by (unfold fits; lia). naive_solver. }
  destruct (N.ltb_spec (process_pressure_target_bytes policy)
    (pressure_of policy (usize_of_u64 sample) reserved retained)) as [Hp|Hp].
  - assert (~ calm) by (rewrite Hcalm; lia). destruct (N.eqb _ 0); naive_solver.
  - assert calm by (by apply Hcalm). destruct (N.eqb _ 0); naive_solver.
Qed.

Lemma scoped_up_to_loop_total policy samples nows env mid p minimum fuel : forall bytes k s,
  (minimum <= bytes)%N -> (bytes - minimum <= SCOPED_RETRY_STEP * N.of_nat fuel)%N ->
  exists r s', scoped_up_to_loop policy (S fuel) samples nows env mid p bytes minimum k s = Some (r, s') /\
    forall lease n, r = Ok (lease, n) ->
      (minimum <= n <= bytes)%N /\
      (lease.(parent_reserved) +s n <= policy.(temporary_reservation_bytes))%N.
Proof.
  unfold SCOPED_RETRY_STEP.
  induction fuel as [|fuel IH]; intros bytes k s Hm Hb; cbn [scoped_up_to_loop];
    unfold reserve_scoped at 1;
    (destruct (read_parent p (env k s)) as [[pr pt]|e] eqn:Ha;
      [|unfold read_parent in Ha; case_match; simplify_eq; by eexists _, _]);
    (destruct (reserve_cases policy p (pr +s bytes) pt
                 (samples k) (nows k) (mid k (env k s))) as [(e & He & _)|(b & Hok & _ & Hle & _)];
     destruct (reserve _ _ _ _ _ _ _) as [r s']; simpl in *; subst r;
     [|by eexists _, _; split; [done|]; intros lease n [= <- <-]; simpl; split; [lia|]]);
    (destruct e; try by eexists _, _);
    (destruct (N.ltb_spec minimum bytes); [|by eexists _, _]).
  - lia.
  - destruct (IH (N.max (bytes -s SCOPED_RETRY_STEP) minimum) (S k) s') as (r & s'' & E & Hr).
    { lia. }
    { unfold SCOPED_RETRY_STEP, saturating_sub. lia. }
    cbn [scoped_up_to_loop] in E. rewrite E. eexists _, _. split; [done|]. intros lease n Hn.
    destruct (Hr lease n Hn). split; [|done]. unfold saturating_sub in *. lia.
Qed.

(** [reserve_scoped_up_to] returns whatever the sampler answers and whatever other
    threads do between and during its attempts, and a size it grants lies between the minimum
    and the preferred size and fits the temporary budget together with the parent's
    reservation. *)
Theorem scoped_negotiation_total policy samples nows env mid p preferred minimum s :
  exists r s', reserve_scoped_up_to policy samples nows env mid p preferred minimum s = Some (r, s') /\
    forall lease n, r = Ok (lease, n) ->
      (minimum <= n <= preferred)%N /\
      (lease.(parent_reserved) +s n <= policy.(temporary_reservation_bytes))%N.
Proof.
  unfold reserve_scoped_up_to. destruct (active_for p s) as [a|]; [|by eexists _, _].
  set (bytes := N.min _ _). destruct (N.ltb_spec bytes minimum); [by eexists _, _|].
  destruct (scoped_up_to_loop_total policy samples nows env mid p minimum
              (S (N.to_nat (bytes / SCOPED_RETRY_STEP))) bytes 0 s) as (r & s' & E & Hr).
  { done. }
  { unfold SCOPED_RETRY_STEP. rewrite Nat2N.inj_succ, N2Nat.id.
    pose proof (N.div_mod bytes (4 * 1024 * 1024) ltac:(lia)).
    pose proof (N.mod_lt bytes (4 * 1024 * 1024) ltac:(lia)). lia. }
  exists r, s'. split; [exact E|]. intros lease n Hn. destruct (Hr lease n Hn). split; [lia|done].
Qed.

(** [reserve_with_wait] returns once the clock reaches the deadline, and it reports
    process pressure only when the deadline has passed. *)
Theorem reserve_with_wait_returns policy samples nows clock events env p reserved retained start s n :
  (start + policy.(wait_timeout) <= clock n)%N ->
  exists r s', reserve_with_wait policy (S n) samples nows clock events env p
                 reserved retained start s = Some (r, s') /\
    (r = Err ProcessPressure -> exists k, (k <= n)%nat /\ (start + policy.(wait_timeout) <= clock k)%N).
Proof.
  unfold reserve_with_wait. set (deadline := (start + _)%N). intros Hd.
  cut (forall fuel k s, (k + fuel = n)%nat -> exists r s',
    reserve_with_wait_loop policy (S fuel) samples nows clock events env p
      reserved retained deadline k s = Some (r, s') /\
    (r = Err ProcessPressure -> exists k, (k <= n)%nat /\ (deadline <= clock k)%N)).
  { intros H. by apply (H n 0 s). }
  clear s. induction fuel as [|fuel IH]; intros k s Hk; cbn [reserve_with_wait_loop];
    (destruct (reserve _ _ _ _ _ _ _) as [[[]|e] s']; [by eexists _, _|]);
    (destruct e; try by eexists _, _);
    (destruct (N.ltb_spec (clock k) deadline) as [Hc|Hc];
      [|by eexists _, _; split; [done|]; intros _; exists k; split; [lia|]]).
  - replace k with n in Hc by lia. lia.
  - destruct (events k); [|by eexists _, _]. apply IH. lia.
Qed.

(** ** Theorems: shutdown *)

(** The flags and the shutdown bit only grow. *)
Definition extends (s s' : Shared) : Prop :=
  s.(cancelled) ⊆ s'.(cancelled) /\
  (s.(state).(shutting_down) = true -> s'.(state).(shutting_down) = true).

Lemma cancelled_cancel_opt c s : s.(cancelled) ⊆ (cancel_opt c s).(cancelled).
Proof. destruct c; simpl; set_solver. Qed.
Lemma cancelled_list l s :
  (foldl (fun s w => cancel w.(qb_cancellation) s) s l).(cancelled)
    = list_to_set (qb_cancellation <$> l) ∪ s.(cancelled).
Proof.
  revert s. induction l as [|w l IH]; intros s; simpl; [set_solver+|]. rewrite IH; simpl. set_solver+.
Qed.
Lemma state_cancel_list l s :
  (foldl (fun s w => cancel w.(qb_cancellation) s) s l).(state) = s.(state).
Proof. revert s. induction l as [|w l IH]; intros s; simpl; [done|]. by rewrite IH. Qed.
Lemma state_cancel_opt c s : (cancel_opt c s).(state) = s.(state).
Proof. by destruct c. Qed.

Lemma shutdown_state s : (shutdown s).(state) = set_shutting_down true s.(state).
Proof.
  unfold shutdown. apply (map_fold_weak_ind (fun s' _ => s'.(state) = _)).
  - by rewrite state_cancel_list, state_cancel_opt.
  - intros i cs m s' _ IH. by rewrite state_cancel_opt.
Qed.

Lemma map_fold_cancels (m : gmap PathBuf CompactionState) s r cs c :
  m !! r = Some cs -> cs.(current_cancellation) = Some c ->
  c ∈ (map_fold (fun _ cs s => cancel_opt cs.(current_cancellation) s) s m).(cancelled).
Proof.
  revert r cs. apply (map_fold_weak_ind (fun s' m => forall r cs, m !! r = Some cs ->
    cs.(current_cancellation) = Some c -> c ∈ s'.(cancelled))).
  - intros r cs. by rewrite lookup_empty.
  - intros i cs' m' s' _ IH r cs Hr Hc. destruct (decide (i = r)) as [->|Hne].
    + rewrite lookup_insert_eq in Hr. simplify_eq. rewrite Hc. simpl. set_solver.
    + rewrite lookup_insert_ne in Hr by done. apply (cancelled_cancel_opt _ s'), (IH r cs Hr Hc).
Qed.
Lemma map_fold_cancel_mono (m : gmap PathBuf CompactionState) s :
  s.(cancelled) ⊆ (map_fold (fun _ cs s => cancel_opt cs.(current_cancellation) s) s m).(cancelled).
Proof.
  apply (map_fold_weak_ind (fun s' _ => s.(cancelled) ⊆ s'.(cancelled))); [done|].
  intros i cs m' s' _ IH. etrans; [exact IH|apply cancelled_cancel_opt].
Qed.

(** [shutdown] cancels the active build, every queued request and every
    compaction in progress, and turns every later poll into [ShuttingDown]. *)
Theorem shutdown_cancels_everything s :
  (forall a, s.(state).(active) = Some a -> is_cancelled a.(ab_cancellation) (shutdown s) = true) /\
  (forall w, w ∈ s.(state).(waiters) -> is_cancelled w.(qb_cancellation) (shutdown s) = true) /\
  (forall r cs c, s.(state).(compactions) !! r = Some cs -> cs.(current_cancellation) = Some c ->
     is_cancelled c (shutdown s) = true) /\
  (forall t c, (acquire_poll t c (shutdown s)).1 = Err AcqShuttingDown).
Proof.
  assert (forall c, c ∈ (shutdown s).(cancelled) -> is_cancelled c (shutdown s) = true) as Hin
    by (intros; by apply bool_decide_eq_true).
  split_and!.
  - intros a Ha. apply Hin, map_fold_cancel_mono. rewrite cancelled_list. simpl. rewrite Ha.
    simpl. set_solver.
  - intros w Hw. apply Hin, map_fold_cancel_mono. rewrite cancelled_list, state_cancel_opt.
    apply elem_of_union_l, elem_of_list_to_set, list_elem_of_fmap. by exists w.
  - intros r cs c Hr Hc. apply Hin. eapply map_fold_cancels; [|exact Hc].
    by rewrite state_cancel_list, state_cancel_opt.
  - intros t c. unfold acquire_poll. by rewrite shutdown_state.
Qed.

Lemma shutting_down_remove_root r s :
  (remove_root r s).(state).(shutting_down) = s.(state).(shutting_down).
Proof.
  unfold remove_root. destruct (active (state s)) as [a|]; [destruct (String.eqb _ _)|]; simpl;
    destruct (compactions (state s) !! r); simpl; rewrite ?state_cancel_opt; done.
Qed.
Lemma shutting_down_reserve policy p x y sample now s :
  (reserve_locked policy p x y sample now s).2.(state).(shutting_down) = s.(state).(shutting_down).
Proof.
  unfold reserve_locked. destruct (active_for p s); [|done].
  destruct (N.ltb _ x); [done|]. by destruct (N.eqb _ 0), (N.ltb _ _).
Qed.

(** After shutdown no step creates a permit. *)
Lemma step_after_shutdown policy y y' :
  step policy y y' -> y.(shared).(state).(shutting_down) = true ->
  y'.(shared).(state).(shutting_down) = true /\ y'.(permits) ⊆+ y.(permits).
Proof.
  intros Hs Hd.
  destruct Hs as [r root kind c s' Hr He | r kind e Hr He | r root kind c now Hr He
      | r root kind c now t Hr He Hc | r root kind c now e Hr He | r root kind c ticket s' Hr He
      | r root kind c e Hr He | r ticket c p s' Hr He | r ticket c e s' Hr He | r ticket c now Hr
      | p rest Hp Hl Hcl | p reserved retained Hp | p bytes pr pt Hp Hrd | p bytes pr pt Hp Hrd
      | l bytes Hl Hb | c rest e Hc Hch Hca | c rest Hc Hch Hca | c rest sample now Hc Hch
      | l rest Hl | c | | | root | e w | root epoch | root | root epoch | root epoch];
    cbn [shared permits leases on_shared to_phase begin_call end_call snd]; try (by split).
  - unfold acquire_entry in He. rewrite Hd in He. destruct (bool_decide _); by simplify_eq.
  - unfold acquire_enqueue in He. by rewrite Hd in He.
  - unfold acquire_poll in He. by rewrite Hd in He.
  - unfold acquire_poll in He. rewrite Hd in He. injection He as <- <-. split; [|done].
    unfold drop_waiter, remove_waiter; simpl.
    destruct (position _ _); simpl; [|done]. by destruct (remove_at _ _) as [[]|].
  - split; [|done]. unfold acquire_timeout, remove_waiter; simpl.
    destruct (position _ _); simpl; [|done]. by destruct (remove_at _ _) as [[]|].
  - split; [|rewrite Hp; by apply submseteq_cons]. unfold release; simpl.
    destruct (active _); [|done]. by destruct (N.eqb _ _).
  - by rewrite shutting_down_reserve.
  - split; [|done]. unfold drop_lease; simpl. destruct (active _); [|done].
    by destruct (N.eqb _ _).
  - by rewrite shutdown_state.
  - by rewrite shutting_down_remove_root.
  - unfold request_compaction. by rewrite Hd.
  - split; [|done]. unfold begin_next_compaction. destruct (_ !! root); [|done].
    by destruct (bool_decide _).
  - split; [|done]. unfold finish_compaction. destruct (_ !! root); [|done]. by destruct (N.ltb _ _).
  - unfold retry_compaction. by rewrite Hd.
Qed.

(** Shutdown is final: in every continuation of a state that is shutting down no
    permit is ever created, so the permits alive are among those alive before. *)
Theorem shutdown_is_final policy y y' :
  y.(shared).(state).(shutting_down) = true -> rtc (step policy) y y' ->
  y'.(shared).(state).(shutting_down) = true /\ y'.(permits) ⊆+ y.(permits).
Proof.
  intros Hd H. induction H as [y|y y1 y2 H1 _ IH]; [done|].
  destruct (step_after_shutdown policy y y1 H1 Hd) as [Hd1 Hp1].
  destruct (IH Hd1) as [Hd2 Hp2]. split; [done|by etrans].
Qed.

(** ** Theorems: the queue *)

(** What can happen to the queue between two grants: arrivals at the back, other
    requests leaving (cancelled or timed out), and grants. *)
Inductive QueueEvent : Type :=
  | Arrive (q : QueuedBuild)
  | Leave (ticket : N)
  | Grant.

(** A grant as [acquire_poll] performs it once the active build is gone. *)
Definition grant_next (st : CoordinatorState) : option (QueuedBuild * CoordinatorState) :=
  i ← next_waiter_index st;
  '(q, rest) ← remove_at i st.(waiters);
  Some (q, set_last_granted_root (Some q.(qb_root)) (set_waiters rest st)).

Definition queue_step (e : QueueEvent) (st : CoordinatorState) :
    option QueuedBuild * CoordinatorState :=
  match e with
  | Arrive q => (None, set_waiters (st.(waiters) ++ [q]) st)
  | Leave t => (None, drop_waiter t st)
  | Grant => match grant_next st with Some (q, st') => (Some q, st') | None => (None, st) end
  end.
(** The requests granted along a run of events. *)
Fixpoint granted (es : list QueueEvent) (st : CoordinatorState) : list QueuedBuild :=
  match es with
  | [] => []
  | e :: es' =>
      let '(q, st') := queue_step e st in
      match q with Some q => q :: granted es' st' | None => granted es' st' end
  end.

Definition is_grant (e : QueueEvent) : bool := match e with Grant => true | _ => false end.
Definition grants (es : list QueueEvent) : nat := length (List.filter is_grant es).

(** A granting poll is a [Grant] event for the queue. *)
Lemma acquire_poll_grant_next t c s p s' :
  acquire_poll t c s = (Ok (Some p), s') ->
  exists q st', grant_next s.(state) = Some (q, st') /\ q.(qb_ticket) = t /\
    s'.(state).(waiters) = st'.(waiters) /\
    s'.(state).(last_granted_root) = st'.(last_granted_root).
Proof.
  intros (_ & _ & _ & _ & i & q & rest & Hi & Hr & Hq & _ & Hw & Hl & _)%acquire_poll_granted.
  exists q, (set_last_granted_root (Some q.(qb_root)) (set_waiters rest s.(state))).
  unfold grant_next. rewrite Hi; simpl. rewrite Hr; simpl. done.
Qed.

Lemma next_waiter_index_spec st i :
  next_waiter_index st = Some i ->
  (exists q, st.(waiters) !! i = Some q) /\
  (forall j w, (j < i)%nat -> st.(waiters) !! j = Some w -> Some w.(qb_root) = st.(last_granted_root)) /\
  (forall w, st.(waiters) !! i = Some w -> i <> 0 -> Some w.(qb_root) <> st.(last_granted_root)).
Proof.
  unfold next_waiter_index. destruct (position _ _) as [k|] eqn:Hp.
  - intros [= <-]. apply position_Some in Hp as (q & Hq & Hf & Hj).
    apply negb_true_iff, bool_decide_eq_false in Hf. split_and!; [by eexists| |].
    + intros j w Hlt Hw. specialize (Hj j w Hlt Hw).
      by apply negb_false_iff, bool_decide_eq_true in Hj.
    + intros w Hw _. by simplify_eq.
  - destruct (waiters st) as [|w ws]; [done|]. intros [= <-].
    split_and!; [by eexists|intros; lia|done].
Qed.

(** How far a waiter is from its grant: two grants per waiter ahead, and one more
    when the head of the queue has just been served. *)
Definition head_served (st : CoordinatorState) : bool :=
  match st.(waiters) with
  | w :: _ => bool_decide (Some w.(qb_root) = st.(last_granted_root))
  | [] => false
  end.
Definition distance (st : CoordinatorState) (i : nat) : nat :=
  2 * i + (if head_served st then 1 else 0).

Lemma head_served_0 st w :
  st.(waiters) !! 0 = Some w -> head_served st = bool_decide (Some w.(qb_root) = st.(last_granted_root)).
Proof. unfold head_served. destruct (waiters st); simpl; [done|]. by intros [= ->]. Qed.

Lemma distance_le st i : (distance st i <= 2 * i + 1)%nat.
Proof. unfold distance. destruct (head_served st); lia. Qed.

Lemma lookup_remove_at {A} k i (l l' : list A) x w :
  remove_at k l = Some (x, l') -> l !! i = Some w -> i <> k ->
  l' !! (if decide (i < k)%nat then i else pred i) = Some w.
Proof.
  intros [Hk ->]%remove_at_Some Hi Hne. pose proof (lookup_lt_Some _ _ _ Hk).
  destruct (decide (i < k)%nat).
  - rewrite lookup_app_l; [|rewrite length_take; lia]. by rewrite lookup_take_lt.
  - rewrite lookup_app_r; rewrite length_take; [|lia].
    rewrite Nat.min_l, lookup_drop by lia. rewrite <- Hi. f_equal. lia.
Qed.

Lemma grant_next_progress st i w :
  st.(waiters) !! i = Some w ->
  exists q st', grant_next st = Some (q, st') /\
    (q = w \/ exists i', st'.(waiters) !! i' = Some w /\ (distance st' i' < distance st i)%nat).
Proof.
  intros Hi. destruct (next_waiter_index st) as [k|] eqn:Hk.
  2: { unfold next_waiter_index in Hk. destruct (position _ _); [done|].
       by destruct (waiters st). }
  destruct (next_waiter_index_spec st k Hk) as ((q & Hq) & Hbefore & Hself).
  destruct (remove_at k (waiters st)) as [[q' rest]|] eqn:Hr.
  2: { unfold remove_at in Hr. by rewrite Hq in Hr. }
  unfold grant_next. rewrite Hk; simpl. rewrite Hr; simpl.
  pose proof Hr as [Hq' Hrest]%remove_at_Some. simplify_eq.
  eexists _, _. split; [done|].
  destruct (decide (i = k)) as [->|Hne]; [left; by simplify_eq|right].
  set (i' := if decide (i < k)%nat then i else pred i).
  exists i'. pose proof (lookup_remove_at _ _ _ _ _ w Hr Hi Hne) as Hl.
  split; [exact Hl|]. unfold i' in *. destruct (decide (i < k)%nat) as [Hlt|Hge].
  - (* everything up to [i] was of the root served last; the head now is not *)
    destruct (waiters st) as [|h ws] eqn:Hw; [done|].
    assert (Some h.(qb_root) = last_granted_root st) as Hh by (apply (Hbefore 0); [lia|done]).
    unfold distance, head_served. simpl. rewrite Hw.
    destruct k as [|k]; [lia|]. simpl.
    rewrite (bool_decide_eq_true_2 _ Hh).
    rewrite bool_decide_eq_false_2; [lia|]. intros [= Heq].
    apply (Hself q); [done|lia|]. by rewrite <- Heq.
  - pose proof (distance_le (set_last_granted_root (Some (qb_root q))
      (set_waiters (take k (waiters st) ++ drop (S k) (waiters st)) st)) (pred i)).
    unfold distance at 2. destruct (head_served st); lia.
Qed.

Lemma queue_step_other st e i w :
  st.(waiters) !! i = Some w -> is_grant e = false -> e <> Leave w.(qb_ticket) ->
  exists i', (queue_step e st).2.(waiters) !! i' = Some w /\
    (distance (queue_step e st).2 i' <= distance st i)%nat /\ (queue_step e st).1 = None.
Proof.
  intros Hi Hg Hne. destruct e as [q|t|]; [| |done]; simpl.
  - exists i. split_and!; [by apply lookup_app_l_Some| |done].
    unfold distance, head_served. simpl. by destruct (waiters st).
  - unfold drop_waiter, remove_waiter.
    destruct (position _ _) as [k|] eqn:Hp; simpl; [|by exists i].
    destruct (remove_at k (waiters st)) as [[q rest]|] eqn:Hr; simpl; [|by exists i].
    apply position_Some in Hp as (x & Hx & Ht%N.eqb_eq & _).
    pose proof Hr as [Hq Hrest]%remove_at_Some. simplify_eq.
    assert (i <> k) as Hik by (intros ->; rewrite Hx in Hi; congruence).
    exists (if decide (i < k)%nat then i else pred i).
    split_and!; [by eapply lookup_remove_at| |done].
    destruct (decide (i < k)%nat) as [Hlt|Hge].
    + unfold distance, head_served. simpl. destruct (waiters st); [done|].
      by destruct k as [|k]; [lia|].
    + pose proof (distance_le (set_waiters (take k (waiters st) ++ drop (S k) (waiters st)) st)
                    (pred i)). unfold distance at 2. destruct (head_served st); lia.
Qed.

Lemma granted_within es : forall st i w,
  st.(waiters) !! i = Some w -> Leave w.(qb_ticket) ∉ es ->
  (distance st i < grants es)%nat -> w ∈ granted es st.
Proof.
  induction es as [|e es IH]; intros st i w Hi Hl Hd; simpl in Hd; [unfold grants in Hd; simpl in Hd; lia|].
  apply not_elem_of_cons in Hl as [Hl1 Hl2]. cbn [granted].
  destruct (is_grant e) eqn:He.
  - destruct e; try done. destruct (grant_next_progress st i w Hi) as (q & st' & Hg & Hq).
    cbn [queue_step]. rewrite Hg. destruct Hq as [->|(i' & Hi' & Hd')]; [by left|right].
    apply (IH st' i'); [done..|]. unfold grants in *; simpl in Hd. lia.
  - destruct (queue_step_other st e i w Hi He) as (i' & Hi' & Hd' & Hn); [congruence|].
    destruct (queue_step e st) as [o st'] eqn:E; simpl in *. subst o.
    apply (IH st' i'); [done..|]. unfold grants in *; simpl in Hd. rewrite He in Hd. lia.
Qed.

(** C2 Bounded overtaking: a request at position [i] of the queue that does not leave
    is granted by the time [2 * i + 2] grants have been made, however many requests
    arrive meanwhile and whatever roots they are for; the preference for another root
    than the last one served can delay it but never starve it. *)
Theorem bounded_overtaking st i w es :
  st.(waiters) !! i = Some w -> Leave w.(qb_ticket) ∉ es -> (2 * i + 2 <= grants es)%nat ->
  w ∈ granted es st.
Proof.
  intros Hi Hl Hg. apply (granted_within es st i w); [done..|].
  pose proof (distance_le st i). lia.
Qed.

(** A granting poll serves the root served last only when every queued request is
    for that root, and otherwise serves the first request for another root. *)
Theorem granted_root_alternates t c s p s' :
  acquire_poll t c s = (Ok (Some p), s') ->
  (Some p.(lease_root) = s.(state).(last_granted_root) ->
     forall w, w ∈ s.(state).(waiters) -> Some w.(qb_root) = s.(state).(last_granted_root)) /\
  exists i w, s.(state).(waiters) !! i = Some w /\ w.(qb_ticket) = p.(lease_ticket) /\
    w.(qb_root) = p.(lease_root) /\
    forall j v, (j < i)%nat -> s.(state).(waiters) !! j = Some v ->
      Some v.(qb_root) = s.(state).(last_granted_root).
Proof.
  intros (_ & _ & _ & Ht & i & q & rest & Hi & Hr & Hq & -> & _)%acquire_poll_granted. simpl in *.
  apply remove_at_Some in Hr as [Hr _].
  destruct (next_waiter_index_spec _ i Hi) as (_ & Hb & _). split.
  - intros Hroot w Hw. unfold next_waiter_index in Hi.
    destruct (position _ _) as [k|] eqn:Hp.
    + apply position_Some in Hp as (x & Hx & Hf & _). simplify_eq.
      apply negb_true_iff, bool_decide_eq_false in Hf. congruence.
    + apply position_None in Hp. rewrite Forall_forall in Hp. specialize (Hp w Hw).
      by apply negb_false_iff, bool_decide_eq_true in Hp.
  - by exists i, q.
Qed.

(** ** Theorems: compaction epochs *)

(** What the worker of a root and its clients do to the root's compaction entry. *)
Inductive CompactionOp : Type :=
  | OpRequest (epoch : N)
  | OpBegin
  | OpFinish (epoch : N)
  | OpRetry (epoch : N).

(** The next state, and whether the worker was told to go on ([None]: not a
    question the operation answers). *)
Definition compaction_step (root : PathBuf) (op : CompactionOp) (s : Shared) : option bool * Shared :=
  match op with
  | OpRequest e => (None, (request_compaction root e s).2)
  | OpBegin => (None, (begin_next_compaction root s).2)
  | OpFinish e => let '(b, s') := finish_compaction root e s in (Some b, s')
  | OpRetry e => let '(b, s') := retry_compaction root e s in (Some b, s')
  end.
Fixpoint compaction_run (root : PathBuf) (ops : list CompactionOp) (s : Shared) :
    list (option bool) * Shared :=
  match ops with
  | [] => ([], s)
  | op :: ops' =>
      let '(b, s1) := compaction_step root op s in
      let '(bs, s2) := compaction_run root ops' s1 in (b :: bs, s2)
  end.

(** A worker runs for the root and has been asked for an epoch of at least [e]. *)
Definition pending (root : PathBuf) (e : N) (s : Shared) : Prop :=
  exists cs, s.(state).(compactions) !! root = Some cs /\
    cs.(worker_running) = true /\ (e <= cs.(latest_epoch))%N.

Lemma lookup_put_compaction root cs s : (put_compaction root cs s).(state).(compactions) !! root = Some cs.
Proof. apply lookup_insert_eq. Qed.
Lemma clear_current_keeps e cs :
  (clear_current e cs).(worker_running) = cs.(worker_running) /\
  (clear_current e cs).(latest_epoch) = cs.(latest_epoch).
Proof. unfold clear_current. by destruct (bool_decide _). Qed.

Lemma request_accepted_pending root e s :
  (request_compaction root e s).1 <> IgnoredStale -> pending root e (request_compaction root e s).2.
Proof.
  unfold request_compaction, pending. destruct (shutting_down _); [done|].
  set (cs := default _ _). destruct (N.leb_spec e (latest_epoch cs)); [done|].
  intros _. destruct (worker_running cs); simpl; rewrite ?state_cancel_opt; simpl;
    rewrite lookup_insert_eq; eexists; (split; [done|]); simpl; (split; [done|lia]).
Qed.

Lemma pending_request root e e' s :
  pending root e s -> pending root e (request_compaction root e' s).2 /\
    (request_compaction root e' s).1 <> StartWorker.
Proof.
  intros (cs & Hcs & Hw & He). unfold request_compaction, pending. rewrite Hcs; simpl.
  destruct (shutting_down _); [simpl; split; [by exists cs|done]|].
  destruct (N.leb_spec e' (latest_epoch cs)); simpl.
  - split; [|done]. exists cs. by rewrite lookup_insert_eq.
  - rewrite Hw. simpl. split; [|done]. rewrite state_cancel_opt, lookup_put_compaction.
    eexists. split; [done|]. simpl. split; [done|lia].
Qed.

Lemma shutting_down_request root e s :
  (request_compaction root e s).2.(state).(shutting_down) = s.(state).(shutting_down).
Proof.
  unfold request_compaction. destruct (shutting_down (state s)) eqn:E; [done|].
  destruct (N.leb _ _); [done|]. destruct (worker_running _); simpl; rewrite ?state_cancel_opt; done.
Qed.

Lemma pending_step root e op s b s' :
  pending root e s -> (forall e', op = OpFinish e' -> (e' < e)%N) ->
  s.(state).(shutting_down) = false ->
  compaction_step root op s = (b, s') ->
  pending root e s' /\ b <> Some false /\ s'.(state).(shutting_down) = false.
Proof.
  intros Hp Hop Hd. destruct op as [e'| |e'|e']; simpl.
  - intros [= <- <-]. split_and!; [by apply pending_request|done|].
    by rewrite shutting_down_request.
  - destruct Hp as (cs & Hcs & Hw & He). intros [= <- <-]. unfold begin_next_compaction.
    rewrite Hcs. destruct (bool_decide _); simpl; split_and!; try done; [by exists cs|].
    exists (mkCompaction (worker_running cs) (Some (latest_epoch cs)) (latest_epoch cs)
              (Some (next_cancel s))). by rewrite lookup_put_compaction.
  - destruct Hp as (cs & Hcs & Hw & He). unfold finish_compaction. rewrite Hcs.
    specialize (Hop e' eq_refl). rewrite (proj2 (N.ltb_lt e' _)) by lia. intros [= <- <-].
    split_and!; try done. exists (clear_current e' cs). rewrite lookup_put_compaction.
    destruct (clear_current_keeps e' cs) as [-> ->]. done.
  - destruct Hp as (cs & Hcs & Hw & He). unfold retry_compaction. rewrite Hcs, Hd. intros [= <- <-].
    split_and!; try done. exists (clear_current e' cs). rewrite lookup_put_compaction.
    destruct (clear_current_keeps e' cs) as [-> ->]. done.
Qed.

(** No compaction request is lost: once a request for epoch [e] is accepted, the
    root's worker is told to continue by every [finish] of an older epoch and every
    [retry], no second worker is started, and the entry stays pending for [e], until a
    [finish] of epoch [e] or later (or shutdown, or the removal of the root). *)
Theorem accepted_epoch_not_lost root e s ops :
  (request_compaction root e s).1 <> IgnoredStale ->
  (forall e', OpFinish e' ∈ ops -> (e' < e)%N) ->
  let '(bs, s') := compaction_run root ops (request_compaction root e s).2 in
  (Some false ∉ bs) /\ pending root e s' /\
  forall e', (request_compaction root e' s').1 <> StartWorker.
Proof.
  intros Hacc Hops. pose proof (request_accepted_pending root e s Hacc) as Hp.
  assert ((request_compaction root e s).2.(state).(shutting_down) = false) as Hd.
  { rewrite shutting_down_request. revert Hacc. unfold request_compaction.
    by destruct (shutting_down _). }
  revert Hp Hd Hops. generalize (request_compaction root e s).2. clear Hacc s.
  induction ops as [|op ops IH]; intros s Hp Hd Hops; simpl.
  { split_and!; [by apply not_elem_of_nil|done|]. intros e'. apply (pending_request root e e' s Hp). }
  destruct (compaction_step root op s) as [b s1] eqn:E1.
  destruct (pending_step root e op s b s1 Hp) as (Hp1 & Hb & Hd1); [|done..|].
  { intros e' ->. apply Hops. by left. }
  specialize (IH s1 Hp1 Hd1). destruct (compaction_run root ops s1) as [bs s2].
  destruct IH as (H1 & H2 & H3); [intros e' He'; apply Hops; by right|].
  split_and!; [|done..]. apply not_elem_of_cons. split; [congruence|done].
Qed.

(** [begin_next_compaction] hands out the latest requested epoch with a token that
    is fresh, hence not cancelled when every issued token is known, and does not hand
    the same epoch out again until it is finished or retried. *)
Theorem begin_compaction_latest_once root s :
  (forall c, c ∈ s.(cancelled) -> (c < s.(next_cancel))%N) ->
  match begin_next_compaction root s with
  | (Some (e, c), s') =>
      (exists cs, s.(state).(compactions) !! root = Some cs /\ e = cs.(latest_epoch) /\
         cs.(current_epoch) <> Some e) /\
      is_cancelled c s' = false /\ (begin_next_compaction root s').1 = None
  | (None, s') =>
      s' = s /\ (s.(state).(compactions) !! root = None \/
        exists cs, s.(state).(compactions) !! root = Some cs /\
          cs.(current_epoch) = Some cs.(latest_epoch))
  end.
Proof.
  intros Hc. unfold begin_next_compaction at 1.
  destruct (compactions (state s) !! root) as [cs|] eqn:Hcs; [|by split; [|left]].
  destruct (bool_decide_reflect (current_epoch cs = Some (latest_epoch cs))) as [He|He]; simpl.
  - split; [done|]. right. by exists cs.
  - split_and!; [by exists cs| |].
    + apply bool_decide_eq_false. simpl. intros Hin%Hc. lia.
    + unfold begin_next_compaction. rewrite lookup_put_compaction. simpl.
      by rewrite bool_decide_eq_true_2.
Qed.

(** ** Witnesses: concrete runs *)

Definition demo_permit : BuildPermit := mkPermit 1 "/w" 7 FullIndex.
Definition demo_queue : list QueuedBuild :=
  [mkQueued 2 "/w" DirtyIndex 8; mkQueued 3 "/w" DirtyIndex 9; mkQueued 4 "/v" FullIndex 10].
(** One client has been granted the build of [/w]. *)
Definition demo_shared : Shared :=
  (acquire_poll 1 7
     (match acquire_enqueue "/w" FullIndex 7 (mkShared default_state ∅ 0) with
      | Ok (_, s) => s | Err _ => mkShared default_state ∅ 0 end)).2.
Definition demo_system : System :=
  mkSystem demo_shared
    (<[0%N := Finished (Ok demo_permit)]> (<[0%N := Waiting 1 7]>
       (<[0%N := AtEnqueue "/w" FullIndex 7]> (<[0%N := AtBackoff "/w" FullIndex 7]> ∅))))
    [demo_permit] [] [].

Lemma demo_reachable : reachable_system default_policy demo_system.
Proof.
  eapply rtc_l; [eapply (step_entry _ _ 0 "/w" FullIndex 7); reflexivity|].
  eapply rtc_l; [eapply (step_backoff_clear _ _ 0 "/w" FullIndex 7 0); reflexivity|].
  eapply rtc_l; [eapply (step_enqueue _ _ 0 "/w" FullIndex 7 1); reflexivity|].
  eapply rtc_l; [eapply (step_poll_granted _ _ 0 1 7 demo_permit); reflexivity|].
  apply rtc_refl.
Qed.
Lemma demo_held : demo_permit ∈ demo_system.(permits).
Proof. by left. Qed.

Lemma single_active_build_witness :
  demo_system.(permits) = [demo_permit] /\
  exists a, demo_system.(shared).(state).(active) = Some a /\ owns demo_permit a.
Proof. exact (single_active_build default_policy demo_system demo_permit demo_reachable demo_held). Defined.

Lemma reservations_within_budget_witness :
  (0 <= default_policy.(temporary_reservation_bytes))%N /\
  (0 <= demo_system.(shared).(state).(peak_reserved_bytes))%N /\
  (0 <= demo_system.(shared).(state).(peak_retained_bytes))%N.
Proof.
  exact (reservations_within_budget default_policy demo_system (mkActive 1 "/w" FullIndex 0 0 7)
           demo_reachable eq_refl).
Defined.

Lemma held_permit_never_stale_witness :
  (reserve default_policy demo_permit 4096 0 0 5 demo_system.(shared)).1 <> Err StalePermit.
Proof.
  exact (held_permit_never_stale default_policy demo_system demo_permit 4096 0 0 5
           demo_reachable demo_held).
Defined.

Lemma reserve_admits_exactly_witness :
  (reserve default_policy demo_permit 4096 0 1000 5 demo_shared).1 = Ok tt.
Proof.
  apply (reserve_admits_exactly default_policy demo_permit 4096 0 1000 5 demo_shared);
    [vm_compute; reflexivity|vm_compute; discriminate|].
  split_and!; [reflexivity| |vm_compute; discriminate|vm_compute; discriminate].
  eexists. split; reflexivity.
Defined.

Lemma reserve_with_wait_returns_witness :
  exists r s', reserve_with_wait default_policy 4 (fun _ => 4294967296%N) (fun _ => 0%N)
      (fun k => N.of_nat k * 10000)%N (fun _ => Woken) (fun _ s => s) demo_permit 1 0 0 demo_shared
    = Some (r, s') /\
  (r = Err ProcessPressure -> exists k, (k <= 3)%nat /\ (0 + 30000 <= N.of_nat k * 10000)%N).
Proof.
  apply (reserve_with_wait_returns default_policy (fun _ => 4294967296%N) (fun _ => 0%N)
           (fun k => N.of_nat k * 10000)%N (fun _ => Woken) (fun _ s => s) demo_permit 1 0 0
           demo_shared 3).
  vm_compute. discriminate.
Defined.

Lemma shutdown_is_final_witness :
  let y := on_shared shutdown demo_system in
  let y' := on_shared shutdown y in
  y'.(shared).(state).(shutting_down) = true /\ y'.(permits) ⊆+ y.(permits).
Proof.
  apply (shutdown_is_final default_policy); [reflexivity|].
  eapply rtc_l; [apply step_shutdown|apply rtc_refl].
Defined.

Lemma bounded_overtaking_witness :
  let st := set_waiters demo_queue demo_shared.(state) in
  let es := [Grant; Arrive (mkQueued 5 "/u" FullIndex 11); Grant; Grant; Leave 5; Grant] in
  mkQueued 3 "/w" DirtyIndex 9 ∈ granted es st.
Proof.
  apply (bounded_overtaking _ 1); [reflexivity| |vm_compute; lia].
  simpl. rewrite !not_elem_of_cons. split_and!; try discriminate. by apply not_elem_of_nil.
Defined.

Definition demo_idle : Shared :=
  mkShared (mkState 4 None demo_queue (Some "/w") ∅ ∅ false 1 0 0 0 0 0 0 0) ∅ 0.
Lemma granted_root_alternates_witness :
  (Some "/v" = Some "/w" -> forall w, w ∈ demo_queue -> Some w.(qb_root) = Some "/w") /\
  exists i w, demo_queue !! i = Some w /\ w.(qb_ticket) = 4%N /\ w.(qb_root) = "/v" /\
    forall j v, (j < i)%nat -> demo_queue !! j = Some v -> Some v.(qb_root) = Some "/w".
Proof.
  pose proof (granted_root_alternates 4 10 demo_idle (mkPermit 4 "/v" 10 FullIndex)
                (acquire_poll 4 10 demo_idle).2) as H.
  assert (acquire_poll 4 10 demo_idle
          = (Ok (Some (mkPermit 4 "/v" 10 FullIndex)), (acquire_poll 4 10 demo_idle).2))
    as E by (vm_compute; reflexivity).
  exact (H E).
Defined.

Lemma accepted_epoch_not_lost_witness :
  let s := mkShared default_state ∅ 0 in
  let ops := [OpBegin; OpFinish 3; OpRequest 9; OpRetry 4; OpBegin] in
  let '(bs, s') := compaction_run "/w" ops (request_compaction "/w" 5 s).2 in
  (Some false ∉ bs) /\ pending "/w" 5 s' /\
  forall e', (request_compaction "/w" e' s').1 <> StartWorker.
Proof.
  apply (accepted_epoch_not_lost "/w" 5); [vm_compute; discriminate|].
  intros e'. rewrite !elem_of_cons. intros [?|[[= ->]|[?|[?|[?|[]%elem_of_nil]]]]]; try discriminate.
  lia.
Defined.

Lemma begin_compaction_latest_once_witness :
  let s := (request_compaction "/w" 5 (mkShared default_state ∅ 0)).2 in
  (begin_next_compaction "/w" (begin_next_compaction "/w" s).2).1 = None.
Proof.
  pose proof (begin_compaction_latest_once "/w"
    (request_compaction "/w" 5 (mkShared default_state ∅ 0)).2) as H.
  refine (proj2 (proj2 (H _))). intros c Hc. by apply elem_of_empty in Hc.
Defined.
