(* ===== verification/HashTable.v ===== *)
(** * The hash table of the declaration cache (interface)

    [std::collections::HashMap<i64, usize>] as the cache uses it: a finite map whose
    capacity also depends on deleted buckets. The class [Table] has its operations,
    [TableLaws] what the cache relies on; [DemoTable] is an instance without deleted
    buckets. The cache's estimate of the table's memory is proved to follow its growth. *)

From S2P Require Import Prelude.

(** ** Operations and laws *)

Class Table (T : Type) := {
  contents : T -> gmap Z nat;
  capacity : T -> N;
  (** allocated buckets *)
  buckets : T -> N;
  table_default : T;
  table_insert : Z -> nat -> T -> T;
  table_remove : Z -> T -> T;
  (** [reserve(1)] *)
  table_reserve : T -> T;
}.
Definition table_len `{Table T} (t : T) : N := N.of_nat (size (contents t)).

(** [usize::checked_next_power_of_two] *)
Definition checked_next_power_of_two (n : N) : option N :=
  let p := (2 ^ N.log2_up n)%N in if (p <=? usize_max)%N then Some p else None.
(** The size of an [(i64, usize)] bucket and its control byte. *)
Definition map_bytes (capacity : N) : N :=
  if (capacity =? 0)%N then 0%N
  else
    let buckets := default usize_max (checked_next_power_of_two (capacity +s 1)) in
    saturating_mul buckets (16 + 1) +s 16.

(** What the cache relies on: a finite map, room for an element after [reserve(1)],
    and a growth that at most doubles the buckets (four at first), after which the
    capacity tells the buckets. [table_ok] is the table's own invariant; inserting
    is only asked of a table with room. *)
Class TableLaws (T : Type) `{Table T} := {
  table_ok : T -> Prop;
  ok_default : table_ok table_default;
  ok_insert t k v : table_ok t -> (table_len t < capacity t)%N -> table_ok (table_insert k v t);
  ok_remove t k : table_ok t -> table_ok (table_remove k t);
  ok_reserve t : table_ok t -> table_ok (table_reserve t);
  contents_default : contents table_default = ∅;
  contents_insert t k v : contents (table_insert k v t) = <[k := v]> (contents t);
  contents_remove t k : contents (table_remove k t) = delete k (contents t);
  contents_reserve t : contents (table_reserve t) = contents t;
  capacity_len t : table_ok t -> (table_len t <= capacity t)%N;
  capacity_reserve t : table_ok t -> (table_len t < capacity (table_reserve t))%N;
  buckets_default : buckets table_default = 0%N;
  buckets_insert t k v :
    table_ok t -> (table_len t < capacity t)%N -> buckets (table_insert k v t) = buckets t;
  buckets_remove t k : table_ok t -> buckets (table_remove k t) = buckets t;
  capacity_buckets t : table_ok t -> (capacity t <= buckets t)%N /\
    (capacity t <> 0%N -> (capacity t < buckets t)%N) /\
    (buckets t = 0%N \/ exists e, buckets t = (2 ^ e)%N);
  buckets_reserve t : table_ok t ->
    buckets (table_reserve t) = buckets t \/
    (buckets (table_reserve t) <= N.max 4 (2 * buckets t))%N /\
    (buckets (table_reserve t) < 2 * (capacity (table_reserve t) + 1))%N;
}.

(** ** The accounted size of the table *)

Lemma next_power_le n e : (0 < n)%N -> (n <= 2 ^ e)%N -> (2 ^ N.log2_up n <= 2 ^ e)%N.
Proof. intros Hn He. apply N.pow_le_mono_r; [lia|]. by apply N.log2_up_le_pow2. Qed.
Lemma next_power_ge n e : (0 < n)%N -> (2 ^ e < 2 * n)%N -> (2 ^ e <= 2 ^ N.log2_up n)%N.
Proof.
  intros Hn He. apply N.pow_le_mono_r; [lia|]. destruct (N.lt_ge_cases (N.log2_up n) e) as [Hlt|]; [|done].
  exfalso. assert (n <= 2 ^ N.pred e)%N as Hp by (apply N.log2_up_le_pow2; lia).
  replace e with (N.succ (N.pred e)) in He by lia. rewrite N.pow_succ_r' in He. lia.
Qed.
Lemma map_bytes_eq c :
  (0 < c)%N -> map_bytes c = N.min (17 * 2 ^ N.log2_up (c +s 1) + 16) usize_max.
Proof.
  intros Hc. unfold map_bytes. rewrite (proj2 (N.eqb_neq c 0)) by lia.
  unfold checked_next_power_of_two. generalize (2 ^ N.log2_up (c +s 1))%N as p. intros p.
  destruct (N.leb_spec p usize_max); simpl; mlia.
Qed.
Lemma map_bytes_max c : (map_bytes c <= usize_max)%N.
Proof. unfold map_bytes. case_match; mlia. Qed.
Lemma map_bytes_le c e : (c < 2 ^ e)%N -> (map_bytes c <= N.min (17 * 2 ^ e + 16) usize_max)%N.
Proof.
  intros He. destruct (N.eq_0_gt_0_cases c) as [->|Hc].
  { replace (map_bytes 0) with 0%N by reflexivity. apply N.le_0_l. }
  assert (c +s 1 <= 2 ^ e)%N as Hle.
  { revert He. generalize (2 ^ e)%N. mlia. }
  apply next_power_le in Hle; [|revert Hc; clear; mlia]. rewrite map_bytes_eq by done.
  revert Hle. generalize (2 ^ N.log2_up (c +s 1))%N, (2 ^ e)%N. lia.
Qed.
Lemma map_bytes_ge c e :
  (0 < c)%N -> (2 ^ e < 2 * (c + 1))%N -> (N.min (17 * 2 ^ e + 16) usize_max <= map_bytes c)%N.
Proof.
  intros Hc He. rewrite map_bytes_eq by done. destruct (N.le_gt_cases (c + 1) usize_max) as [Hs|Hs].
  - rewrite saturating_add_small by done. apply next_power_ge in He; [|lia].
    revert He. generalize (2 ^ N.log2_up (c + 1))%N, (2 ^ e)%N. lia.
  - replace (c +s 1) with usize_max by mlia.
    assert (N.min (17 * 2 ^ N.log2_up usize_max + 16) usize_max = usize_max) as -> by reflexivity. lia.
Qed.
(** The ledger of the table covers its buckets. *)
Definition table_charged `{Table T} (t : T) (allocated : N) : Prop :=
  buckets t = 0%N \/ (N.min (17 * buckets t + 16) usize_max <= allocated)%N.
(** Growing a full table stays within twice the ledger, or the size of a first table. *)
Lemma table_growth `{TableLaws T} (t : T) a :
  table_ok t -> table_charged t a -> (a <= usize_max)%N ->
  let t' := table_reserve t in
  let a' := N.max a (map_bytes (capacity t')) in
  (a' <= N.max (saturating_mul a 2) (map_bytes 3))%N /\ table_charged t' a' /\ (a' <= usize_max)%N.
Proof.
  intros Hok Hch Ha t' a'. pose proof (ok_reserve t Hok) as Hok'. fold t' in Hok'.
  pose proof (capacity_reserve t Hok) as Hcap. fold t' in Hcap.
  destruct (capacity_buckets t' Hok') as (_ & Hlt & He). specialize (Hlt ltac:(lia)).
  destruct He as [He|[e He]]; [lia|].
  pose proof (map_bytes_le (capacity t') e) as Hle. rewrite <- He in Hle. specialize (Hle Hlt).
  pose proof (map_bytes_max (capacity t')) as Hmax.
  replace (map_bytes 3) with 84%N by reflexivity. unfold table_charged, a' in *.
  destruct (buckets_reserve t Hok) as [Hb|[Hb Hfresh]]; fold t' in Hb.
  - rewrite Hb in *. split_and!; [mlia| |mlia]. destruct Hch; [lia|right; lia].
  - fold t' in Hfresh. rewrite He in Hfresh. apply map_bytes_ge in Hfresh; [|lia]. rewrite <- He in Hfresh.
    split_and!; [mlia|right; lia|mlia].
Qed.

(** ** A table without deleted buckets *)

Record DemoTable : Type := mkDemo { demo_map : gmap Z nat; demo_buckets : N }.
#[export] Instance demo_table : Table DemoTable := {
  contents := demo_map;
  capacity t := N.pred t.(demo_buckets);
  buckets := demo_buckets;
  table_default := mkDemo ∅ 0;
  table_insert k v t := mkDemo (<[k := v]> t.(demo_map)) t.(demo_buckets);
  table_remove k t := mkDemo (delete k t.(demo_map)) t.(demo_buckets);
  table_reserve t :=
    if (N.of_nat (size t.(demo_map)) <? N.pred t.(demo_buckets))%N then t
    else mkDemo t.(demo_map) (N.max 4 (2 * t.(demo_buckets)));
}.
Definition demo_ok (t : DemoTable) : Prop :=
  (t.(demo_buckets) = 0%N \/ exists e, t.(demo_buckets) = (2 ^ (e + 2))%N) /\
  (N.of_nat (size t.(demo_map)) <= N.pred t.(demo_buckets))%N.
Lemma demo_positive e : (4 <= 2 ^ (e + 2))%N.
Proof. change 4%N with (2 ^ 2)%N. apply N.pow_le_mono_r; lia. Qed.
Lemma size_insert_le (m : gmap Z nat) k v : (size (<[k := v]> m) <= S (size m))%nat.
Proof. rewrite map_size_insert. case_match; simpl; lia. Qed.
Lemma size_delete_le (m : gmap Z nat) k : (size (delete k m) <= size m)%nat.
Proof. rewrite map_size_delete. case_match; simpl; lia. Qed.
#[export] Instance demo_laws : TableLaws DemoTable.
Proof.
  refine {| table_ok := demo_ok |}; try done; unfold demo_ok, table_len; simpl.
  - split; [by left|]. by rewrite map_size_empty.
  - intros t k v [He _] Hlt. split; [done|]. pose proof (size_insert_le t.(demo_map) k v). lia.
  - intros t k [He Hle]. split; [done|]. pose proof (size_delete_le t.(demo_map) k). lia.
  - intros t [He Hle]. destruct (N.ltb_spec (N.of_nat (size t.(demo_map))) (N.pred t.(demo_buckets))); [done|].
    simpl. split; [right|].
    + destruct He as [->|[e ->]]; [by exists 0%N|]. exists (e + 1)%N.
      pose proof (demo_positive e). rewrite N.max_r by lia. rewrite <- N.pow_succ_r'. f_equal. lia.
    + lia.
  - intros t. by destruct (_ <? _)%N.
  - intros t [_ Hle]. done.
  - intros t [He Hle]. destruct (N.ltb_spec (N.of_nat (size t.(demo_map))) (N.pred t.(demo_buckets))); simpl; lia.
  - intros t [He Hle]. split_and!; [lia|lia|]. destruct He as [->|[e ->]]; [by left|right; by eexists].
  - intros t [He Hle]. destruct (N.ltb_spec (N.of_nat (size t.(demo_map))) (N.pred t.(demo_buckets))); [by left|].
    right. simpl. lia.
Qed.
