(* ===== verification/DeclarationCache.v ===== *)
(** * The declaration payload cache (declaration_index.rs, declaration_index/cache.rs)

    A least-recently-used cache of hydrated declaration rows: the order of use is a
    doubly linked list through the slots of an arena, freed slots form a list of their
    own, and a hash table maps declaration ids to slots. An index out of range or an
    empty slot where the code writes [expect] is [None].

    A row is used through its id and its accounted size only. The hash table of the
    standard library is the interface of HashTable.v. The mutex makes every operation atomic. *)

From S2P Require Import Prelude HashTable.

(** ** Data *)

Record CachedPayload {Row : Type} : Type := mkPayload {
  cp_id : Z;
  cp_row : Row;
  cp_bytes : N;
  previous : option nat;
  next : option nat;
}.
Arguments CachedPayload : clear implicits.
Arguments mkPayload {Row}.
Record Slot {Row : Type} : Type := mkSlot {
  value : option (CachedPayload Row);
  next_free : option nat;
}.
Arguments Slot : clear implicits.
Arguments mkSlot {Row}.
Record Storage {T Row : Type} : Type := mkStorage {
  entries : T;
  allocated_map_bytes : N;
  slots : list (Slot Row);
  slots_capacity : N;
  free : option nat;
  head : option nat;
  tail : option nat;
}.
Arguments Storage : clear implicits.
Arguments mkStorage {T Row}.

(** [DeclarationPayloadCacheStats]: the counters, and what [stats] fills in. *)
Record DeclarationPayloadCacheStats : Type := mkStats {
  hits : N;
  misses : N;
  sql_reads : N;
  evictions : N;
  stats_bytes : N;
  payload_bytes : N;
  stats_metadata_bytes : N;
  admission_skips : N;
  eviction_limit_skips : N;
  victim_steps : N;
  lock_wait_ns : N;
  stats_entries : N;
  stats_configured_budget_bytes : N;
  stats_effective_budget_bytes : N;
  publication_shrink_entries : N;
  publication_shrink_bytes : N;
}.
Definition default_stats : DeclarationPayloadCacheStats :=
  mkStats 0 0 0 0 0 0 0 0 0 0 0 0 0 0 0 0.
Record CacheState {T Row : Type} : Type := mkState {
  storage : Storage T Row;
  bytes : N;
  effective_budget_bytes : N;
  stats_of : DeclarationPayloadCacheStats;
}.
Arguments CacheState : clear implicits.
Arguments mkState {T Row}.
Record DeclarationPayloadCache {T Row : Type} : Type := mkCache {
  configured_budget_bytes : N;
  state : CacheState T Row;
}.
Arguments DeclarationPayloadCache : clear implicits.
Arguments mkCache {T Row}.
Record DeclarationPayloadCacheShrink : Type := mkShrink {
  sh_configured_budget_bytes : N;
  effective_budget_before_bytes : N;
  removed_entries : N;
  removed_bytes : N;
}.

Definition MAX_EVICTIONS : nat := 32.
Definition ARENA_GROWTH : N := 8.

Section Cache.
Context {T : Type} {Tb : Table T} {Tl : TableLaws T} {Row : Type}.
Variable row_id : Row -> Z.
(** The accounted size of a row, from the capacities of its strings. *)
Variable declaration_payload_bytes : Row -> N.
(** [size_of::<Slot>()] *)
Variable slot_size : N.
#[local] Abbreviation Payload := (CachedPayload Row).
#[local] Abbreviation Storage := (Storage T Row).
#[local] Abbreviation CacheState := (CacheState T Row).
#[local] Abbreviation Cache := (DeclarationPayloadCache T Row).

(** ** Field updates *)

Definition set_previous (p : option nat) (e : Payload) : Payload :=
  mkPayload e.(cp_id) e.(cp_row) e.(cp_bytes) p e.(next).
Definition set_next (n : option nat) (e : Payload) : Payload :=
  mkPayload e.(cp_id) e.(cp_row) e.(cp_bytes) e.(previous) n.
Definition set_slots (l : list (Slot Row)) (s : Storage) : Storage :=
  mkStorage s.(entries) s.(allocated_map_bytes) l s.(slots_capacity) s.(free) s.(head) s.(tail).
Definition set_entries (t : T) (s : Storage) : Storage :=
  mkStorage t s.(allocated_map_bytes) s.(slots) s.(slots_capacity) s.(free) s.(head) s.(tail).
Definition set_head (h : option nat) (s : Storage) : Storage :=
  mkStorage s.(entries) s.(allocated_map_bytes) s.(slots) s.(slots_capacity) s.(free) h s.(tail).
Definition set_tail (t : option nat) (s : Storage) : Storage :=
  mkStorage s.(entries) s.(allocated_map_bytes) s.(slots) s.(slots_capacity) s.(free) s.(head) t.
Definition set_free (f : option nat) (s : Storage) : Storage :=
  mkStorage s.(entries) s.(allocated_map_bytes) s.(slots) s.(slots_capacity) f s.(head) s.(tail).

(** ** Storage *)

Definition default_storage : Storage := mkStorage table_default 0 [] 0 None None None.

Definition metadata_bytes (s : Storage) : N :=
  s.(allocated_map_bytes) +s saturating_mul s.(slots_capacity) slot_size.
Definition projected_metadata_bytes (s : Storage) : N :=
  let projected_map_bytes :=
    if (table_len s.(entries) <? capacity s.(entries))%N then s.(allocated_map_bytes)
    else N.max (saturating_mul s.(allocated_map_bytes) 2) (map_bytes 3) in
  let len := N.of_nat (length s.(slots)) in
  let arena_capacity :=
    if bool_decide (is_Some s.(free)) || (len <? s.(slots_capacity))%N then s.(slots_capacity)
    else len +s ARENA_GROWTH in
  projected_map_bytes +s saturating_mul arena_capacity slot_size.

(** [self.slots[slot].value.as_ref().expect(..)] *)
Definition occupied (slot : nat) (s : Storage) : option Payload :=
  sl ← s.(slots) !! slot; sl.(value).
(** [self.slots[slot].value.as_mut().expect(..)] and an assignment to the entry *)
Definition update_payload (slot : nat) (f : Payload -> Payload) (s : Storage) : option Storage :=
  sl ← s.(slots) !! slot;
  e ← sl.(value);
  Some (set_slots (<[slot := mkSlot (Some (f e)) sl.(next_free)]> s.(slots)) s).

Definition detach (slot : nat) (s : Storage) : option Storage :=
  entry ← occupied slot s;
  s ← match entry.(previous) with
      | Some p => update_payload p (set_next entry.(next)) s
      | None => Some (set_head entry.(next) s)
      end;
  match entry.(next) with
  | Some n => update_payload n (set_previous entry.(previous)) s
  | None => Some (set_tail entry.(previous) s)
  end.

Definition attach_head (slot : nat) (s : Storage) : option Storage :=
  let h := s.(head) in
  s ← update_payload slot (fun e => set_next h (set_previous None e)) s;
  s ← match h with
      | Some h => update_payload h (set_previous (Some slot)) s
      | None => Some (set_tail (Some slot) s)
      end;
  Some (set_head (Some slot) s).

Definition touch (slot : nat) (s : Storage) : option (Row * Storage) :=
  s ← (if bool_decide (s.(head) = Some slot) then Some s
       else s ← detach slot s; attach_head slot s);
  e ← occupied slot s;
  Some (e.(cp_row), s).

(** The outer [None] is a failed [expect], the inner one an empty cache. *)
Definition remove_tail (s : Storage) : option (option Payload * Storage) :=
  match s.(tail) with
  | None => Some (None, s)
  | Some slot =>
      s ← detach slot s;
      sl ← s.(slots) !! slot;
      removed ← sl.(value);
      Some (Some removed,
            set_free (Some slot)
              (set_slots (<[slot := mkSlot None s.(free)]> s.(slots))
                 (set_entries (table_remove removed.(cp_id) s.(entries)) s)))
  end.

(** The slot of a new entry: the first free one, or a new one at the end. *)
Definition allocate (s : Storage) : option (nat * Storage) :=
  match s.(free) with
  | Some slot =>
      sl ← s.(slots) !! slot;
      Some (slot, set_free sl.(next_free) (set_slots (<[slot := mkSlot sl.(value) None]> s.(slots)) s))
  | None =>
      let len := N.of_nat (length s.(slots)) in
      let cap := if (len =? s.(slots_capacity))%N then (len + ARENA_GROWTH)%N else s.(slots_capacity) in
      Some (length s.(slots),
            mkStorage s.(entries) s.(allocated_map_bytes) (s.(slots) ++ [mkSlot None None]) cap
              s.(free) s.(head) s.(tail))
  end.
(** [entries.reserve(1)] on a full table, and its account. *)
Definition reserved (s : Storage) : Storage :=
  if (table_len s.(entries) =? capacity s.(entries))%N then
    let t := table_reserve s.(entries) in
    mkStorage t (N.max s.(allocated_map_bytes) (map_bytes (capacity t))) s.(slots)
      s.(slots_capacity) s.(free) s.(head) s.(tail)
  else s.
Definition storage_insert (row : Row) (size : N) (s : Storage) : option Storage :=
  '(slot, s) ← allocate (reserved s);
  sl ← s.(slots) !! slot;
  let s := set_slots (<[slot := mkSlot (Some (mkPayload (row_id row) row size None None))
                                  sl.(next_free)]> s.(slots)) s in
  attach_head slot (set_entries (table_insert (row_id row) slot s.(entries)) s).

(** ** The cache *)

Definition upd_stats (f : DeclarationPayloadCacheStats -> DeclarationPayloadCacheStats)
    (st : CacheState) : CacheState :=
  mkState st.(storage) st.(bytes) st.(effective_budget_bytes) (f st.(stats_of)).
Definition set_storage (s : Storage) (st : CacheState) : CacheState :=
  mkState s st.(bytes) st.(effective_budget_bytes) st.(stats_of).
Definition set_bytes (b : N) (st : CacheState) : CacheState :=
  mkState st.(storage) b st.(effective_budget_bytes) st.(stats_of).
Definition set_budget (b : N) (st : CacheState) : CacheState :=
  mkState st.(storage) st.(bytes) b st.(stats_of).
(** The counters [hits], [misses], [sql_reads], [evictions] (with [victim_steps]),
    [admission_skips], [eviction_limit_skips] and [lock_wait_ns], by amounts. *)
Definition add_stats (h m q e a l w : N) (t : DeclarationPayloadCacheStats) :
    DeclarationPayloadCacheStats :=
  mkStats (t.(hits) +s h) (t.(misses) +s m) (t.(sql_reads) +s q) (t.(evictions) +s e)
    t.(stats_bytes) t.(payload_bytes) t.(stats_metadata_bytes) (t.(admission_skips) +s a)
    (t.(eviction_limit_skips) +s l) (t.(victim_steps) +s e) (t.(lock_wait_ns) +s w)
    t.(stats_entries) t.(stats_configured_budget_bytes) t.(stats_effective_budget_bytes)
    t.(publication_shrink_entries) t.(publication_shrink_bytes).

Definition new (budget_bytes : N) : Cache :=
  mkCache budget_bytes (mkState default_storage 0 budget_bytes default_stats).
(** [lock], after waiting [wait] nanoseconds *)
Definition lock (wait : N) (c : Cache) : CacheState :=
  upd_stats (add_stats 0 0 0 0 0 0 (N.min wait u64_max)) c.(state).
Definition unlock (c : Cache) (st : CacheState) : Cache := mkCache c.(configured_budget_bytes) st.

Definition get (wait : N) (id : Z) (c : Cache) : option (option Row * Cache) :=
  let st := lock wait c in
  match contents st.(storage).(entries) !! id with
  | Some slot =>
      let st := upd_stats (add_stats 1 0 0 0 0 0 0) st in
      '(row, s) ← touch slot st.(storage);
      Some (Some row, unlock c (set_storage s st))
  | None => Some (None, unlock c (upd_stats (add_stats 0 1 0 0 0 0 0) st))
  end.
Definition record_sql_read (wait : N) (c : Cache) : Cache :=
  unlock c (upd_stats (add_stats 0 0 1 0 0 0 0) (lock wait c)).

(** [state.bytes + bytes + projected_metadata_bytes() <= budget], saturating *)
Definition fits (size : N) (st : CacheState) : bool :=
  (st.(bytes) +s size +s projected_metadata_bytes st.(storage) <=? st.(effective_budget_bytes))%N.
(** The eviction loop; [fuel] counts down from [MAX_EVICTIONS], the guard of the code. *)
Fixpoint evict (fuel : nat) (size : N) (st : CacheState) (removed : list Payload) :
    option (CacheState * list Payload) :=
  if fits size st then Some (st, removed)
  else match fuel with
       | 0 => Some (st, removed)
       | S fuel =>
           '(victim, s) ← remove_tail st.(storage);
           match victim with
           | None => Some (set_storage s st, removed)
           | Some v =>
               evict fuel size
                 (upd_stats (add_stats 0 0 0 1 0 0 0)
                    (set_bytes (st.(bytes) -s v.(cp_bytes)) (set_storage s st)))
                 (removed ++ [v])
           end
       end.
Definition insert (wait : N) (row : Row) (c : Cache) : option (Row * Cache) :=
  let size := declaration_payload_bytes row in
  let st := lock wait c in
  match contents st.(storage).(entries) !! row_id row with
  | Some slot =>
      '(existing, s) ← touch slot st.(storage);
      Some (existing, unlock c (set_storage s st))
  | None =>
      let budget := st.(effective_budget_bytes) in
      if (budget =? 0)%N || (budget <? size +s metadata_bytes st.(storage))%N then
        Some (row, unlock c (upd_stats (add_stats 0 0 0 0 1 0 0) st))
      else
        '(st, removed) ← evict MAX_EVICTIONS size st [];
        if fits size st then
          s ← storage_insert row size st.(storage);
          Some (row, unlock c (set_bytes (st.(bytes) +s size) (set_storage s st)))
        else
          let limit := if Nat.eqb (length removed) MAX_EVICTIONS then 1%N else 0%N in
          Some (row, unlock c (upd_stats (add_stats 0 0 0 0 1 limit 0) st))
  end.

Definition suspend_for_full_publication (wait : N) (c : Cache) :
    DeclarationPayloadCacheShrink * Cache :=
  let st := lock wait c in
  let removed := st.(storage) in
  let n := table_len removed.(entries) in
  let b := st.(bytes) +s metadata_bytes removed in
  let t := st.(stats_of) in
  (mkShrink c.(configured_budget_bytes) st.(effective_budget_bytes) n b,
   unlock c (mkState default_storage 0 0
     (mkStats t.(hits) t.(misses) t.(sql_reads) t.(evictions) t.(stats_bytes) t.(payload_bytes)
        t.(stats_metadata_bytes) t.(admission_skips) t.(eviction_limit_skips) t.(victim_steps)
        t.(lock_wait_ns) t.(stats_entries) t.(stats_configured_budget_bytes)
        t.(stats_effective_budget_bytes) (t.(publication_shrink_entries) +s n)
        (t.(publication_shrink_bytes) +s b)))).
Definition restore_configured_budget (wait : N) (c : Cache) : Cache :=
  unlock c (set_budget c.(configured_budget_bytes) (lock wait c)).
Definition stats (wait : N) (c : Cache) : DeclarationPayloadCacheStats * Cache :=
  let st := lock wait c in
  let m := metadata_bytes st.(storage) in
  let t := st.(stats_of) in
  (mkStats t.(hits) t.(misses) t.(sql_reads) t.(evictions) (st.(bytes) +s m) st.(bytes) m
     t.(admission_skips) t.(eviction_limit_skips) t.(victim_steps) t.(lock_wait_ns)
     (table_len st.(storage).(entries)) c.(configured_budget_bytes) st.(effective_budget_bytes)
     t.(publication_shrink_entries) t.(publication_shrink_bytes),
   unlock c st).
(** ** The declaration index over the cache *)

Inductive DeclarationReadFailureReason : Type :=
  | IdentityMismatch | SnapshotUnavailable | ExecutionFailed | Cancelled.
Inductive DeclarationReadIdentity : Type :=
  | Persistent (database_path database_incarnation : string) (generation : N)
  | Diagnostic (diagnostic_path : string) (snapshot_id generation : N).
#[local] Instance DeclarationReadIdentity_eq_dec : EqDecision DeclarationReadIdentity.
Proof. solve_decision. Defined.

(** The name table of the index is represented by its accounted size. *)
Record SemanticDeclarationIndex : Type := mkIndex {
  accounted_core_bytes : N;
  total_budget_bytes : N;
  payloads : Cache;
  read_identity : option DeclarationReadIdentity;
}.
Definition build (core_bytes total_bytes : N) : SemanticDeclarationIndex :=
  mkIndex core_bytes total_bytes (new (total_bytes -s core_bytes)) None.
Definition bind_identity (identity : DeclarationReadIdentity) (index : SemanticDeclarationIndex) :
    result DeclarationReadFailureReason SemanticDeclarationIndex :=
  match index.(read_identity) with
  | Some current =>
      if bool_decide (current = identity) then
        Ok (mkIndex index.(accounted_core_bytes) index.(total_budget_bytes) index.(payloads) (Some identity))
      else Err IdentityMismatch
  | None =>
      Ok (mkIndex index.(accounted_core_bytes) index.(total_budget_bytes) index.(payloads) (Some identity))
  end.

(** [suspend_payload_cache_for_full_publication] and the [Drop] of its lease. *)
Definition drop_publication_lease (wait : N) (committed : bool) (c : Cache) : Cache :=
  if committed then c else restore_configured_budget wait c.

Section Reads.
(** The statement [SELECT .. WHERE d.id IN (..)] on the captured database. *)
Variable query : list Z -> result DeclarationReadFailureReason (list Row).
(** What other clients do before the k-th access to the cache, and how long it waits. *)
Variable env : nat -> Cache -> Cache.
Variable waits : nat -> N.

(** [ids.chunks(400)]; each chunk takes an id, so the length is enough fuel. *)
Fixpoint chunks (fuel : nat) (ids : list Z) : list (list Z) :=
  match fuel, ids with
  | S fuel, _ :: _ => take 400 ids :: chunks fuel (drop 400 ids)
  | _, _ => []
  end.
Fixpoint read_chunks (cs : list (list Z)) (by_id : gmap Z Row) :
    result DeclarationReadFailureReason (gmap Z Row) :=
  match cs with
  | [] => Ok by_id
  | chunk :: cs =>
      match query chunk with
      | Err e => Err e
      | Ok rows => read_chunks cs (foldl (fun m row => <[row_id row := row]> m) by_id rows)
      end
  end.
Definition by_ids (ids : list Z) : result DeclarationReadFailureReason (list Row) :=
  match read_chunks (chunks (length ids) ids) ∅ with
  | Err e => Err e
  | Ok by_id => Ok (omap (fun id => by_id !! id) ids)
  end.

(** The loop over the ids: rows found, ids missing. *)
Fixpoint read_cached (ids : list Z) (k : nat) (output : gmap Z Row) (missing : list Z) (c : Cache) :
    option (gmap Z Row * list Z * nat * Cache) :=
  match ids with
  | [] => Some (output, missing, k, c)
  | id :: ids =>
      '(hit, c) ← get (waits k) id (env k c);
      match hit with
      | Some row => read_cached ids (S k) (<[id := row]> output) missing c
      | None => read_cached ids (S k) output (missing ++ [id]) c
      end
  end.
(** The loop over the rows read. *)
Fixpoint insert_rows (rows : list Row) (k : nat) (output : gmap Z Row) (c : Cache) :
    option (gmap Z Row * Cache) :=
  match rows with
  | [] => Some (output, c)
  | row :: rows =>
      '(r, c) ← insert (waits k) row (env k c);
      insert_rows rows (S k) (<[row_id row := r]> output) c
  end.
Definition payloads_by_ids_bound (index : SemanticDeclarationIndex)
    (handle_identity : DeclarationReadIdentity) (ids : list Z) :
    option (result DeclarationReadFailureReason (list Row) * Cache) :=
  let c := index.(payloads) in
  if negb (bool_decide (index.(read_identity) = Some handle_identity))
  then Some (Err IdentityMismatch, c)
  else
    '(output, missing, k, c) ← read_cached ids 0 ∅ [] c;
    match missing with
    | [] => Some (Ok (omap (fun id => output !! id) ids), c)
    | _ =>
        let c := record_sql_read (waits k) (env k c) in
        match by_ids missing with
        | Err e => Some (Err e, c)
        | Ok rows =>
            '(output, c) ← insert_rows rows (S k) output c;
            Some (Ok (omap (fun id => output !! id) ids), c)
        end
    end.
End Reads.

(** ** The shape of the arena

    A list of nodes (slot, row and size), most recently used first, is laid out in the
    slots as a doubly linked segment between two outer neighbours. *)

#[local] Abbreviation Node := (nat * (Row * N))%type.

Definition payload_of (p n : option nat) (x : Row * N) : Payload :=
  mkPayload (row_id x.1) x.1 x.2 p n.
Definition holds (sl : list (Slot Row)) (i : nat) (e : Payload) : Prop :=
  exists nf, sl !! i = Some (mkSlot (Some e) nf).
Definition first_slot (d : option nat) (l : list Node) : option nat :=
  match l with [] => d | (i, _) :: _ => Some i end.
Fixpoint last_slot (d : option nat) (l : list Node) : option nat :=
  match l with [] => d | (i, _) :: l => last_slot (Some i) l end.
Fixpoint segment (sl : list (Slot Row)) (p : option nat) (l : list Node) (n : option nat) : Prop :=
  match l with
  | [] => True
  | (i, x) :: l => holds sl i (payload_of p (first_slot n l) x) /\ segment sl (Some i) l n
  end.
(** The free list through [next_free]. *)
Fixpoint free_chain (sl : list (Slot Row)) (f : option nat) (l : list nat) : Prop :=
  match l with
  | [] => f = None
  | i :: l => f = Some i /\ exists nf, sl !! i = Some (mkSlot None nf) /\ free_chain sl nf l
  end.
Definition linked (s : Storage) (l : list Node) : Prop :=
  segment s.(slots) None l None /\ s.(head) = first_slot None l /\ s.(tail) = last_slot None l /\
  NoDup l.*1.
(** All but the listed slots and the ends of the list is the same. *)
Definition same_but (js : list nat) (s s' : Storage) : Prop :=
  s'.(entries) = s.(entries) /\ s'.(allocated_map_bytes) = s.(allocated_map_bytes) /\
  s'.(slots_capacity) = s.(slots_capacity) /\ s'.(free) = s.(free) /\
  length s'.(slots) = length s.(slots) /\
  (forall j, j ∉ js -> s'.(slots) !! j = s.(slots) !! j).

(** [s] stores the nodes [l], most recently used first, and its other slots are free. *)
Record stores (s : Storage) (l : list Node) (fl : list nat) : Prop := mkStores {
  stores_linked : linked s l;
  stores_free : free_chain s.(slots) s.(free) fl;
  stores_slots : l.*1 ++ fl ≡ₚ seq 0 (length s.(slots));
  stores_ids : NoDup ((fun n : Node => row_id n.2.1) <$> l);
  stores_entries : forall id i,
    contents s.(entries) !! id = Some i <-> exists x, (i, x) ∈ l /\ row_id x.1 = id;
  stores_table : table_ok s.(entries);
}.

Lemma first_slot_app d l1 l2 : first_slot d (l1 ++ l2) = first_slot (first_slot d l2) l1.
Proof. by destruct l1 as [|[]]. Qed.
Lemma last_slot_app d l1 l2 : last_slot d (l1 ++ l2) = last_slot (last_slot d l1) l2.
Proof. revert d. induction l1 as [|[i x] l1 IH]; intros d; simpl; [done|apply IH]. Qed.
Lemma segment_app sl p l1 l2 n :
  segment sl p (l1 ++ l2) n <->
  segment sl p l1 (first_slot n l2) /\ segment sl (last_slot p l1) l2 n.
Proof.
  revert p. induction l1 as [|[i x] l1 IH]; intros p; simpl; [naive_solver|].
  rewrite first_slot_app, IH. tauto.
Qed.
Lemma segment_frame sl sl' p l n :
  (forall j, j ∈ l.*1 -> sl' !! j = sl !! j) -> segment sl p l n -> segment sl' p l n.
Proof.
  revert p. induction l as [|[i x] l IH]; intros p Hs; simpl; [done|].
  intros [[nf Hi] Hl]. split.
  - exists nf. rewrite Hs; [done|]. csimpl. set_solver.
  - apply IH; [|done]. intros j Hj. apply Hs. csimpl. set_solver.
Qed.
Lemma free_chain_frame sl sl' f l :
  (forall j, j ∈ l -> sl' !! j = sl !! j) -> free_chain sl f l -> free_chain sl' f l.
Proof.
  revert f. induction l as [|i l IH]; intros f Hs; simpl; [done|].
  intros [-> (nf & Hi & Hl)]. split; [done|]. exists nf. split.
  - rewrite Hs; [done|]. set_solver.
  - apply IH; [|done]. intros j Hj. apply Hs. set_solver.
Qed.

Lemma same_but_trans js s1 s2 s3 : same_but js s1 s2 -> same_but js s2 s3 -> same_but js s1 s3.
Proof.
  intros (?&?&?&?&?&Hs1) (?&?&?&?&?&Hs2). unfold same_but. split_and!; try congruence.
  intros j Hj. by rewrite Hs2, Hs1.
Qed.
Lemma same_but_weaken js js' s s' : js ⊆ js' -> same_but js s s' -> same_but js' s s'.
Proof.
  intros Hi (?&?&?&?&?&Hs1). unfold same_but. split_and!; [done..|].
  intros j Hj. apply Hs1. set_solver.
Qed.
Lemma same_but_refl js s : same_but js s s.
Proof. by unfold same_but. Qed.
Lemma same_but_ends js h t s : same_but js s (set_head h s) /\ same_but js s (set_tail t s).
Proof. by unfold same_but. Qed.

(** An assignment to the entry of an occupied slot. *)
Lemma update_payload_ok s i e f :
  holds s.(slots) i e ->
  exists s', update_payload i f s = Some s' /\ holds s'.(slots) i (f e) /\
    same_but [i] s s' /\ s'.(head) = s.(head) /\ s'.(tail) = s.(tail).
Proof.
  intros [nf Hi]. unfold update_payload. rewrite Hi. simpl. eexists. split; [done|].
  unfold same_but; simpl. split_and!; try done.
  - exists nf. apply list_lookup_insert_eq. by eapply lookup_lt_Some.
  - apply length_insert.
  - intros j Hj. apply list_lookup_insert_ne. set_solver.
Qed.
Lemma same_but_holds js s s' i e : same_but js s s' -> i ∉ js -> holds s.(slots) i e -> holds s'.(slots) i e.
Proof. intros (_&_&_&_&_&H1) Hi [nf He]. exists nf. by rewrite H1. Qed.
Lemma same_but_segment js s s' p l n :
  same_but js s s' -> (forall j, j ∈ l.*1 -> j ∉ js) -> segment s.(slots) p l n -> segment s'.(slots) p l n.
Proof. intros (_&_&_&_&_&H1) Hi. apply segment_frame. intros j Hj. apply H1, Hi, Hj. Qed.
Lemma holds_inj sl i e e' : holds sl i e -> holds sl i e' -> e = e'.
Proof. intros [nf H1] [nf' H2]. rewrite H1 in H2. by injection H2. Qed.
Lemma occupied_ok s i e : holds s.(slots) i e -> occupied i s = Some e.
Proof. intros [nf Hi]. unfold occupied. by rewrite Hi. Qed.

(** Redirecting the last node of a prefix, or the head when it is empty. *)
Lemma relink_next s l n n' h :
  segment s.(slots) None l n -> NoDup l.*1 -> s.(head) = first_slot h l ->
  exists s', match last_slot None l with
             | Some j => update_payload j (set_next n') s
             | None => Some (set_head n' s)
             end = Some s' /\
    segment s'.(slots) None l n' /\ s'.(head) = first_slot n' l /\ same_but l.*1 s s' /\
    s'.(tail) = s.(tail).
Proof.
  destruct l as [|[j y] l _] using rev_ind; intros Hseg Hnd Hh.
  { simpl. exists (set_head n' s). by unfold same_but. }
  rewrite last_slot_app. simpl last_slot. rewrite segment_app in Hseg. destruct Hseg as [Hl [Hj _]].
  rewrite fmap_app in Hnd. apply NoDup_app in Hnd as (Hnd & Hd & _).
  destruct (update_payload_ok s j _ (set_next n') Hj) as (s' & E & Hj' & Hsame & Hh' & Ht').
  rewrite E. exists s'. split; [done|]. split_and!.
  - rewrite segment_app. split; [|by split].
    apply (same_but_segment [j] s); [done| |done]. intros k Hk. specialize (Hd k Hk). csimpl in Hd. set_solver.
  - rewrite Hh', Hh, !first_slot_app. by destruct l as [|[]].
  - eapply same_but_weaken; [|done]. rewrite fmap_app. csimpl. set_solver.
  - done.
Qed.
(** Redirecting the first node of a suffix, or the tail when it is empty. *)
Lemma relink_previous s l p p' t :
  segment s.(slots) p l None -> NoDup l.*1 -> s.(tail) = last_slot t l ->
  exists s', match first_slot None l with
             | Some j => update_payload j (set_previous p') s
             | None => Some (set_tail p' s)
             end = Some s' /\
    segment s'.(slots) p' l None /\ s'.(tail) = last_slot p' l /\ same_but l.*1 s s' /\
    s'.(head) = s.(head).
Proof.
  destruct l as [|[j y] l]; intros Hseg Hnd Ht.
  { simpl. exists (set_tail p' s). by unfold same_but. }
  destruct Hseg as [Hj Hl]. csimpl in Hnd. apply NoDup_cons in Hnd as [Hnj Hnd].
  destruct (update_payload_ok s j _ (set_previous p') Hj) as (s' & E & Hj' & Hsame & Hh' & Ht').
  cbn [first_slot]. rewrite E. exists s'. split; [done|]. split_and!.
  - split; [done|]. apply (same_but_segment [j] s); [done| |done]. set_solver.
  - by rewrite Ht', Ht.
  - eapply same_but_weaken; [|done]. csimpl. set_solver.
  - done.
Qed.

Lemma linked_split s l1 i x l2 :
  linked s (l1 ++ (i, x) :: l2) ->
  holds s.(slots) i (payload_of (last_slot None l1) (first_slot None l2) x) /\
  segment s.(slots) None l1 (Some i) /\ segment s.(slots) (Some i) l2 None /\
  NoDup l1.*1 /\ NoDup l2.*1 /\ (i ∉ l1.*1) /\ (i ∉ l2.*1) /\ (forall j, j ∈ l1.*1 -> j ∉ l2.*1) /\
  s.(head) = first_slot (Some i) l1 /\ s.(tail) = last_slot (Some i) l2 /\ NoDup (l1 ++ l2).*1.
Proof.
  intros (Hseg & Hh & Ht & Hnd). rewrite segment_app in Hseg. destruct Hseg as [H1 [Hi H2]].
  rewrite first_slot_app in Hh. rewrite last_slot_app in Ht.
  rewrite fmap_app in Hnd. csimpl in Hnd. apply NoDup_app in Hnd as (Hn1 & Hd & Hn2).
  apply NoDup_cons in Hn2 as [Hi2 Hn2].
  split_and!; try done; [set_solver..|]. rewrite fmap_app. apply NoDup_app. set_solver.
Qed.

Lemma detach_ok s l1 i x l2 :
  linked s (l1 ++ (i, x) :: l2) ->
  exists s', detach i s = Some s' /\ linked s' (l1 ++ l2) /\
    (exists p n, holds s'.(slots) i (payload_of p n x)) /\ same_but (l1 ++ l2).*1 s s'.
Proof.
  intros Hl. apply linked_split in Hl as (Hi & H1 & H2 & Hn1 & Hn2 & Hi1 & Hi2 & Hd & Hh & Ht & Hnd).
  unfold detach. rewrite (occupied_ok _ _ _ Hi). simpl.
  destruct (relink_next s l1 (Some i) (first_slot None l2) (Some i) H1 Hn1 Hh)
    as (s1 & -> & H1' & Hh1 & Hs1 & Ht1).
  simpl. destruct (relink_previous s1 l2 (Some i) (last_slot None l1) (Some i))
    as (s2 & -> & H2' & Ht2 & Hs2 & Hh2).
  { apply (same_but_segment l1.*1 s); [done| |done]. set_solver. }
  { done. }
  { by rewrite Ht1. }
  exists s2. split; [done|]. split_and!.
  - unfold linked. rewrite segment_app, first_slot_app, last_slot_app. split_and!; try done.
    + apply (same_but_segment l2.*1 s1); [done| |done]. set_solver.
    + by rewrite Hh2.
  - eexists _, _. apply (same_but_holds l2.*1 s1); [done..|]. by apply (same_but_holds l1.*1 s).
  - rewrite fmap_app. apply same_but_trans with s1; (eapply same_but_weaken; [|done]); set_solver.
Qed.

Lemma attach_ok s l i p n x :
  linked s l -> i ∉ l.*1 -> holds s.(slots) i (payload_of p n x) ->
  exists s', attach_head i s = Some s' /\ linked s' ((i, x) :: l) /\ same_but ((i, x) :: l).*1 s s'.
Proof.
  intros (Hseg & Hh & Ht & Hnd) Hi Hp. unfold attach_head.
  destruct (update_payload_ok s i _ (fun e => set_next s.(head) (set_previous None e)) Hp)
    as (s1 & -> & Hp1 & Hs1 & Hh1 & Ht1). simpl.
  rewrite Hh. destruct (relink_previous s1 l None (Some i) None) as (s2 & -> & H2 & Ht2 & Hs2 & Hh2).
  { apply (same_but_segment [i] s); [done| |done]. set_solver. }
  { done. }
  { by rewrite Ht1. }
  simpl. eexists. split; [done|]. split.
  - split_and!; simpl.
    + split; [|done]. rewrite <- Hh. by apply (same_but_holds l.*1 s1).
    + done.
    + by rewrite Ht2.
    + csimpl. by constructor.
  - destruct (same_but_ends [] (Some i) None s2) as [Hs3 _].
    apply same_but_trans with s2; [apply same_but_trans with s1|];
      (eapply same_but_weaken; [|done]); csimpl; set_solver.
Qed.

(** ** The storage keeps its shape *)

Lemma first_slot_self l i : i ∉ l.*1 -> first_slot (Some i) l = Some i -> l = [].
Proof. destruct l as [|[j y] l]; [done|]. csimpl. intros Hi [= ->]. set_solver. Qed.

Lemma touch_ok s l1 i x l2 :
  linked s (l1 ++ (i, x) :: l2) ->
  exists s', touch i s = Some (x.1, s') /\ linked s' ((i, x) :: l1 ++ l2) /\
    same_but (l1 ++ (i, x) :: l2).*1 s s'.
Proof.
  intros Hl. pose proof (linked_split _ _ _ _ _ Hl) as (Hi & _ & _ & _ & _ & Hi1 & Hi2 & _ & Hh & _ & _).
  unfold touch. case_bool_decide as Hc.
  - rewrite Hh in Hc. apply first_slot_self in Hc as ->; [|done]. simpl.
    rewrite (occupied_ok _ _ _ Hi). simpl. exists s. by unfold same_but.
  - destruct (detach_ok _ _ _ _ _ Hl) as (s1 & -> & Hl1 & (p & n & Hp) & Hs1). simpl.
    destruct (attach_ok s1 (l1 ++ l2) i p n x Hl1) as (s2 & -> & Hl2 & Hs2); [|done|].
    { rewrite fmap_app. set_solver. }
    simpl. destruct Hl2 as [[Hi' Hseg] Hr]. rewrite (occupied_ok _ _ _ Hi'). simpl.
    exists s2. split; [done|]. split; [by split|].
    apply same_but_trans with s1; (eapply same_but_weaken; [|done]);
      rewrite ?fmap_cons, !fmap_app, ?fmap_cons; set_solver.
Qed.

Lemma stores_reorder s s' l l' fl :
  stores s l fl -> l' ≡ₚ l -> linked s' l' -> same_but l.*1 s s' -> stores s' l' fl.
Proof.
  intros [Hl Hf Hsl Hids He Ht] Hp Hl' (E1 & E2 & E3 & E4 & E5 & E6). split.
  - done.
  - rewrite E4. apply (free_chain_frame s.(slots)); [|done]. intros j Hj. apply E6. intros Hj'.
    assert (NoDup (l.*1 ++ fl)) as Hnd by (rewrite Hsl; apply NoDup_seq).
    apply NoDup_app in Hnd as (_ & Hd & _). by apply (Hd j).
  - by rewrite E5, Hp.
  - by rewrite Hp.
  - intros id i. rewrite E1, He. by setoid_rewrite Hp.
  - by rewrite E1.
Qed.

Lemma stores_touch s l1 i x l2 fl :
  stores s (l1 ++ (i, x) :: l2) fl ->
  exists s', touch i s = Some (x.1, s') /\ stores s' ((i, x) :: l1 ++ l2) fl /\
    s'.(allocated_map_bytes) = s.(allocated_map_bytes) /\ s'.(slots_capacity) = s.(slots_capacity) /\
    length s'.(slots) = length s.(slots) /\ s'.(entries) = s.(entries).
Proof.
  intros Hs. destruct (touch_ok s l1 i x l2) as (s' & E & Hl & Hsame); [by destruct Hs|].
  exists s'. split; [done|]. split.
  - eapply stores_reorder; [done| |done..]. by rewrite Permutation_middle.
  - by destruct Hsame as (?&?&?&_&?&_).
Qed.

Lemma last_slot_snoc d l i x : last_slot d (l ++ [(i, x)]) = Some i.
Proof. by rewrite last_slot_app. Qed.

Lemma remove_tail_empty s fl : stores s [] fl -> remove_tail s = Some (None, s).
Proof. intros [(_ & _ & Ht & _) _ _ _ _ _]. unfold remove_tail. by rewrite Ht. Qed.

Lemma remove_tail_ok s l i x fl :
  stores s (l ++ [(i, x)]) fl ->
  exists e s', remove_tail s = Some (Some e, s') /\ e.(cp_row) = x.1 /\ e.(cp_bytes) = x.2 /\
    stores s' l (i :: fl) /\ s'.(allocated_map_bytes) = s.(allocated_map_bytes) /\
    s'.(slots_capacity) = s.(slots_capacity) /\ length s'.(slots) = length s.(slots) /\
    s'.(entries) = table_remove (row_id x.1) s.(entries).
Proof.
  intros Hst. pose proof Hst as [Hl Hf Hsl Hids He Ht].
  destruct (detach_ok s l i x [] Hl) as (s1 & E & Hl1 & (p & n & Hp) & Hs1).
  rewrite app_nil_r in Hl1, Hs1. destruct Hl as (_ & _ & Htail & _). rewrite last_slot_snoc in Htail.
  destruct Hp as [nf Hp]. destruct Hs1 as (E1 & E2 & E3 & E4 & E5 & E6).
  unfold remove_tail. rewrite Htail, E. simpl. rewrite Hp. simpl.
  eexists _, _. split; [done|]. simpl. rewrite E1, E4, length_insert.
  rewrite fmap_app in Hsl. csimpl in Hsl.
  assert (NoDup (l.*1 ++ [i] ++ fl)) as Hnd by (rewrite (assoc_L (++)), Hsl; apply NoDup_seq).
  apply NoDup_app in Hnd as (_ & Hd & Hnd). simpl in Hnd. apply NoDup_cons in Hnd as [Hifl Hnd].
  rewrite fmap_app in Hids. csimpl in Hids. apply NoDup_app in Hids as (Hids & Hdx & _).
  split_and!; try done. split; simpl.
  - destruct Hl1 as (Hseg & Hh & Htl & Hn). split_and!; try done.
    eapply segment_frame; [|done]. intros j Hj. apply list_lookup_insert_ne. intros ->. specialize (Hd j Hj). set_solver.
  - split; [done|]. exists s.(free). split.
    + apply list_lookup_insert_eq. by eapply lookup_lt_Some.
    + apply (free_chain_frame s.(slots)); [|done]. intros j Hj.
      rewrite list_lookup_insert_ne by (intros ->; done). apply E6. intros Hj'. specialize (Hd j Hj'). set_solver.
  - rewrite length_insert, E5, <- Hsl. by rewrite <- (assoc_L (++)).
  - done.
  - intros id k. rewrite contents_remove, lookup_delete_Some, He. split.
    + intros [Hne (y & Hy & Hid)]. exists y. split; [|done].
      apply elem_of_app in Hy as [Hy|[= -> ->]%list_elem_of_singleton]; [done|]. by rewrite Hid in Hne.
    + intros (y & Hy & Hid). split.
      * intros <-. apply (Hdx (row_id y.1)); [|rewrite Hid; set_solver].
        apply list_elem_of_fmap. by exists (k, y).
      * exists y. set_solver.
  - by apply ok_remove.
Qed.

(** The accounts of the storage cover what it has allocated. *)
Definition charged (s : Storage) : Prop :=
  table_charged s.(entries) s.(allocated_map_bytes) /\ (s.(allocated_map_bytes) <= usize_max)%N /\
  (N.of_nat (length s.(slots)) <= s.(slots_capacity))%N.
(** A slot was taken: the arena has room for its slots again, and grew only if it had to. *)
Definition arena_grown (s s' : Storage) : Prop :=
  (N.of_nat (length s.(slots)) <= s.(slots_capacity))%N ->
  (N.of_nat (length s'.(slots)) <= s'.(slots_capacity))%N /\
  (s'.(slots_capacity) = s.(slots_capacity) \/
   s.(free) = None /\ s.(slots_capacity) = N.of_nat (length s.(slots)) /\
   s'.(slots_capacity) = (N.of_nat (length s.(slots)) + ARENA_GROWTH)%N).

(** A new slot: empty, outside of the list, the other slots as before. *)
Lemma allocate_ok s l fl :
  stores s l fl ->
  exists i s' fl', allocate s = Some (i, s') /\ s'.(slots) !! i = Some (mkSlot None None) /\
    (i ∉ l.*1) /\ (i ∉ fl') /\ linked s' l /\ free_chain s'.(slots) s'.(free) fl' /\
    l.*1 ++ i :: fl' ≡ₚ seq 0 (length s'.(slots)) /\ s'.(entries) = s.(entries) /\
    s'.(allocated_map_bytes) = s.(allocated_map_bytes) /\ arena_grown s s'.
Proof.
  intros [Hl Hf Hsl Hids He Ht].
  assert (NoDup (l.*1 ++ fl)) as Hnd by (rewrite Hsl; apply NoDup_seq).
  apply NoDup_app in Hnd as (_ & Hd & Hnd). destruct Hl as (Hseg & Hh & Htl & Hn).
  unfold allocate. destruct fl as [|i fl].
  - simpl in Hf. rewrite Hf. eexists _, _, []. split; [done|]. simpl.
    assert (forall j, j ∈ l.*1 -> (j < length s.(slots))%nat) as Hlt.
    { intros j Hj. assert (j ∈ seq 0 (length s.(slots))) as Hin%elem_of_seq by (rewrite <- Hsl; set_solver). lia. }
    rewrite lookup_app_r, Nat.sub_diag by done. split_and!; try done.
    + intros Hi%Hlt. lia.
    + apply not_elem_of_nil.
    + split_and!; [|done..]. eapply segment_frame; [|done]. intros j Hj%Hlt. by apply lookup_app_l.
    + rewrite length_app, seq_app. simpl. rewrite <- Hsl. by rewrite app_nil_r.
    + unfold arena_grown, ARENA_GROWTH; simpl. rewrite length_app; simpl. rewrite Hf. intros Hle.
      case_match eqn:Hc; [apply N.eqb_eq in Hc|apply N.eqb_neq in Hc]; (split; [lia|]); [right|left]; done.
  - destruct Hf as [Hfree (nf & Hi & Hf)]. rewrite Hfree, Hi. simpl.
    apply NoDup_cons in Hnd as [Hifl Hnd].
    eexists i, _, fl. split; [done|]. simpl.
    assert (i ∉ l.*1) as Hil by (intros Hj; specialize (Hd i Hj); set_solver).
    split_and!; try done.
    + apply list_lookup_insert_eq. by eapply lookup_lt_Some.
    + split_and!; [|done..]. eapply segment_frame; [|done]. intros j Hj. apply list_lookup_insert_ne. by intros ->.
    + eapply free_chain_frame; [|done]. intros j Hj. apply list_lookup_insert_ne. by intros ->.
    + by rewrite length_insert.
    + unfold arena_grown; simpl. rewrite length_insert. intros Hle. split; [done|by left].
Qed.

Lemma saturating_mul_mono a b c : (a <= b)%N -> (saturating_mul a c <= saturating_mul b c)%N.
Proof. intros Hab. unfold saturating_mul. apply N.min_le_compat_r. by apply N.mul_le_mono_r. Qed.
Lemma saturating_mul_add a b c : saturating_mul (a +s b) c = saturating_mul (a + b) c.
Proof.
  destruct (N.le_gt_cases (a + b) usize_max); [by rewrite saturating_add_small|].
  replace (a +s b) with usize_max by mlia. unfold saturating_mul.
  destruct (N.eq_0_gt_0_cases c) as [->|Hc]; [by rewrite !N.mul_0_r|].
  rewrite !N.min_r; nia.
Qed.
(** The projection made before inserting covers the storage after. *)
Lemma projection_covers s s1 s' :
  table_ok s.(entries) -> charged s ->
  s1.(slots) = s.(slots) -> s1.(free) = s.(free) -> s1.(slots_capacity) = s.(slots_capacity) ->
  arena_grown s1 s' ->
  s'.(allocated_map_bytes) =
    (if (table_len s.(entries) =? capacity s.(entries))%N
     then N.max s.(allocated_map_bytes) (map_bytes (capacity (table_reserve s.(entries))))
     else s.(allocated_map_bytes)) ->
  (metadata_bytes s' <= projected_metadata_bytes s)%N /\ (s'.(allocated_map_bytes) <= usize_max)%N /\
  (N.of_nat (length s'.(slots)) <= s'.(slots_capacity))%N.
Proof.
  intros Hok (Hch & Hmax & Hlen) Es Ef Ec Hg Ea. unfold arena_grown in Hg. rewrite Es, Ef, Ec in Hg.
  destruct (Hg Hlen) as [Hlen' Hcap]. clear Hg.
  destruct (table_growth s.(entries) s.(allocated_map_bytes) Hok Hch Hmax) as (Hgrow & _ & Hmax').
  pose proof (capacity_len s.(entries) Hok) as Hcl.
  unfold metadata_bytes, projected_metadata_bytes. rewrite Ea.
  assert (saturating_mul s'.(slots_capacity) slot_size <= saturating_mul
    (if bool_decide (is_Some s.(free)) || (N.of_nat (length s.(slots)) <? s.(slots_capacity))%N
     then s.(slots_capacity) else N.of_nat (length s.(slots)) +s ARENA_GROWTH) slot_size)%N as Harena.
  { destruct Hcap as [->|(Hf & Hc & ->)].
    - destruct (bool_decide (is_Some s.(free)) || _) eqn:Hb; [done|].
      apply orb_false_iff in Hb as [_ Hb%N.ltb_ge].
      rewrite saturating_mul_add. apply saturating_mul_mono. lia.
    - rewrite Hf, Hc, N.ltb_irrefl. simpl. by rewrite saturating_mul_add. }
  destruct (N.eqb_spec (table_len s.(entries)) (capacity s.(entries))) as [He|He].
  - rewrite (proj2 (N.ltb_ge (table_len s.(entries)) (capacity s.(entries)))) by lia.
    split_and!; [|exact Hmax'|done]. revert Hgrow Harena. clear. cbv zeta. mlia.
  - rewrite (proj2 (N.ltb_lt (table_len s.(entries)) (capacity s.(entries)))) by lia.
    split_and!; [|exact Hmax|done]. revert Harena. clear. mlia.
Qed.

Lemma reserved_stores s l fl :
  stores s l fl ->
  stores (reserved s) l fl /\ (table_len (reserved s).(entries) < capacity (reserved s).(entries))%N /\
  (charged s -> table_charged (reserved s).(entries) (reserved s).(allocated_map_bytes)).
Proof.
  intros [Hl Hf Hsl Hids He Ht]. unfold reserved. case_match eqn:Hc.
  - split_and!; [split; simpl; try done| |].
    + intros id i. by rewrite contents_reserve.
    + by apply ok_reserve.
    + unfold table_len; simpl. rewrite contents_reserve. by apply capacity_reserve.
    + intros (Hch & Hmax & _). by apply table_growth.
  - split_and!; [by split| |by intros [? _]]. apply N.eqb_neq in Hc. pose proof (capacity_len _ Ht). lia.
Qed.

Lemma storage_insert_ok s l fl row size :
  stores s l fl -> row_id row ∉ ((fun n : Node => row_id n.2.1) <$> l) ->
  exists s' i fl', storage_insert row size s = Some s' /\ stores s' ((i, (row, size)) :: l) fl' /\
    (charged s -> charged s' /\ (metadata_bytes s' <= projected_metadata_bytes s)%N).
Proof.
  intros Hs Hnew. unfold storage_insert.
  destruct (reserved_stores s l fl Hs) as (Hs0 & Hroom & Hch).
  destruct (allocate_ok _ l fl Hs0) as (i & s1 & fl' & -> & Hi & Hil & Hifl & Hl & Hf & Hp & He & Ha & Hg).
  simpl. rewrite Hi. simpl. destruct Hs0 as [_ _ _ Hids Hent Ht].
  set (s2 := set_entries _ _).
  destruct (attach_ok s2 l i None None (row, size)) as (s3 & E & Hl3 & Hs3).
  - destruct Hl as (Hseg & Hr). split; [|exact Hr]. unfold s2; simpl.
    eapply segment_frame; [|done]. intros j Hj. apply list_lookup_insert_ne. by intros ->.
  - done.
  - exists None. unfold s2; simpl. apply list_lookup_insert_eq. by eapply lookup_lt_Some.
  - exists s3, i, fl'. split; [done|]. destruct Hs3 as (E1 & E2 & E3 & E4 & E5 & E6).
    unfold s2 in *; simpl in E1, E2, E3, E4, E5, E6. rewrite He in E1. split; [split|].
    + done.
    + rewrite E4. eapply free_chain_frame; [|done]. intros j Hj.
      rewrite E6, list_lookup_insert_ne; [done| |].
      * by intros ->.
      * csimpl. intros [->|Hjl]%elem_of_cons; [done|].
        assert (NoDup (l.*1 ++ i :: fl')) as Hnd by (rewrite Hp; apply NoDup_seq).
        apply NoDup_app in Hnd as (_ & Hd & _). specialize (Hd j Hjl). set_solver.
    + rewrite E5, length_insert, <- Hp. csimpl. by rewrite Permutation_middle.
    + csimpl. by constructor.
    + intros id k. rewrite E1, contents_insert, lookup_insert_Some, Hent. split.
      * intros [[<- <-]|[Hne (x & Hx & Hid)]]; [exists (row, size); set_solver|exists x; set_solver].
      * intros (x & [[= -> ->]|Hx]%elem_of_cons & Hid); [by left|]. right. split; [|by exists x].
        intros <-. apply Hnew. apply list_elem_of_fmap. by exists (k, x).
    + rewrite E1. by apply ok_insert.
    + intros Hc. specialize (Hch Hc).
      destruct (projection_covers s (reserved s) s3) as (Hm & Hmax & Hlen); try done.
      * by destruct Hs.
      * by unfold reserved; case_match.
      * by unfold reserved; case_match.
      * by unfold reserved; case_match.
      * intros Hle. destruct (Hg Hle) as [H1 H2]. rewrite E5, E3, length_insert. by split.
      * rewrite E2, Ha. by unfold reserved; case_match.
      * split; [|done]. split_and!; [|done..]. unfold table_charged in *.
        by rewrite E1, E2, Ha, buckets_insert.
Qed.

(** ** The cache as a list of rows *)

(** The resident rows, most recently used first: the list followed from its head. *)
Fixpoint walk (fuel : nat) (sl : list (Slot Row)) (i : option nat) : list Row :=
  match fuel, i with
  | S fuel, Some i =>
      match s ← sl !! i; s.(value) with
      | Some e => e.(cp_row) :: walk fuel sl e.(next)
      | None => []
      end
  | _, _ => []
  end.
Definition resident (c : Cache) : list Row :=
  let s := c.(state).(storage) in walk (length s.(slots)) s.(slots) s.(head).
Definition rows (l : list Node) : list Row := (fun n : Node => n.2.1) <$> l.
Definition total (l : list Row) : N := foldr (fun r sum => declaration_payload_bytes r + sum)%N 0%N l.

(** The least-recently-used list the cache implements: a lookup moves the row it finds
    to the front. *)
Definition lru_find (id : Z) (l : list Row) : option (nat * Row) := list_find (fun r => row_id r = id) l.
Definition lru_get (id : Z) (l : list Row) : option Row * list Row :=
  match lru_find id l with
  | Some (k, r) => (Some r, r :: delete k l)
  | None => (None, l)
  end.

(** One operation of one client; the mutex makes them atomic. Clients insert rows of
    [admissible] only. *)
Inductive step (admissible : Row -> Prop) : Cache -> Cache -> Prop :=
  | step_get wait id r c c' : get wait id c = Some (r, c') -> step admissible c c'
  | step_sql_read wait c : step admissible c (record_sql_read wait c)
  | step_insert wait row r c c' :
      admissible row -> insert wait row c = Some (r, c') -> step admissible c c'
  | step_suspend wait c : step admissible c (suspend_for_full_publication wait c).2
  | step_restore wait c : step admissible c (restore_configured_budget wait c)
  | step_stats wait c : step admissible c (stats wait c).2.
Definition reachable (admissible : Row -> Prop) (budget : N) (c : Cache) : Prop :=
  rtc (step admissible) (new budget) c.

Definition ledger (st : CacheState) (l : list Node) : Prop :=
  st.(bytes) = total (rows l) /\
  (st.(bytes) + metadata_bytes st.(storage) <= st.(effective_budget_bytes))%N.
Definition good (limited : Prop) (st : CacheState) (l : list Node) (fl : list nat) : Prop :=
  stores st.(storage) l fl /\ Forall (fun n : Node => n.2.2 = declaration_payload_bytes n.2.1) l /\
  charged st.(storage) /\ (limited -> ledger st l).
Definition cache_inv (c : Cache) : Prop :=
  (c.(state).(effective_budget_bytes) <= c.(configured_budget_bytes))%N /\
  exists l fl, good (c.(configured_budget_bytes) < usize_max)%N c.(state) l fl.

Lemma total_bytes_app l1 l2 : total (l1 ++ l2) = (total l1 + total l2)%N.
Proof. induction l1 as [|r l1 IH]; simpl; [done|]. rewrite IH. lia. Qed.
Lemma total_bytes_perm l1 l2 : l1 ≡ₚ l2 -> total l1 = total l2.
Proof. induction 1; simpl; lia. Qed.

Lemma walk_segment sl p l fuel :
  segment sl p l None -> (length l <= fuel)%nat -> walk fuel sl (first_slot None l) = rows l.
Proof.
  revert p fuel. induction l as [|[i x] l IH]; intros p fuel Hs Hf; [by destruct fuel|].
  destruct fuel as [|fuel]; simpl in Hf; [lia|]. destruct Hs as [[nf Hi] Hs]. simpl. rewrite Hi. simpl.
  f_equal. apply (IH (Some i)); [done|lia].
Qed.
Lemma resident_eq c l fl : stores c.(state).(storage) l fl -> resident c = rows l.
Proof.
  intros [(Hseg & Hh & _) _ Hsl _ _ _]. unfold resident. rewrite Hh. apply (walk_segment _ None); [done|].
  apply Permutation_length in Hsl. rewrite length_app, length_fmap, length_seq in Hsl. lia.
Qed.

Lemma lookup_split s l fl id i :
  stores s l fl -> contents s.(entries) !! id = Some i ->
  exists l1 x l2, l = l1 ++ (i, x) :: l2 /\ lru_find id (rows l) = Some (length l1, x.1) /\
    delete (length l1) (rows l) = rows (l1 ++ l2).
Proof.
  intros [_ _ _ Hids He _] (x & Hx & Hid)%He. apply list_elem_of_split in Hx as (l1 & l2 & ->).
  exists l1, x, l2. split; [done|]. unfold rows. rewrite !fmap_app. csimpl. split.
  - apply list_find_Some. split_and!.
    + rewrite lookup_app_r; rewrite length_fmap; [|done]. by rewrite Nat.sub_diag.
    + done.
    + intros j y Hj Hlt. rewrite lookup_app_l in Hj by by rewrite length_fmap.
      intros Hy. rewrite fmap_app in Hids. csimpl in Hids. apply NoDup_app in Hids as (_ & Hd & _).
      apply (Hd (row_id y)); [|rewrite Hy, Hid; set_solver].
      apply list_elem_of_lookup_2 in Hj. apply list_elem_of_fmap in Hj as (n & -> & Hn).
      apply list_elem_of_fmap. by exists n.
  - rewrite <- (length_fmap (fun n : Node => n.2.1) l1). by rewrite delete_middle.
Qed.
Lemma lookup_absent s l fl id :
  stores s l fl -> contents s.(entries) !! id = None ->
  lru_find id (rows l) = None /\ id ∉ ((fun n : Node => row_id n.2.1) <$> l).
Proof.
  intros [_ _ _ _ He _] Hn.
  assert (id ∉ ((fun n : Node => row_id n.2.1) <$> l)) as Hid.
  { intros ([i x] & -> & Hx)%list_elem_of_fmap.
    assert (contents s.(entries) !! row_id x.1 = Some i) as Hs by (apply He; eauto).
    simpl in Hn. congruence. }
  split; [|done]. apply list_find_None, Forall_forall.
  intros r (n & -> & Hn')%list_elem_of_fmap Hr. apply Hid. apply list_elem_of_fmap. by exists n.
Qed.

(** ** The operations on the list *)

Lemma good_touch P st l1 i x l2 fl :
  good P st (l1 ++ (i, x) :: l2) fl ->
  exists s', touch i st.(storage) = Some (x.1, s') /\
    good P (set_storage s' st) ((i, x) :: l1 ++ l2) fl.
Proof.
  intros (Hs & Hz & (Hch & Ha & Hlen) & Hl).
  destruct (stores_touch _ _ _ _ _ _ Hs) as (s' & E & Hs' & E1 & E2 & E3 & E4).
  exists s'. split; [done|]. unfold good, charged, ledger, metadata_bytes in *; simpl.
  rewrite E1, E2, E3, E4.
  assert ((i, x) :: l1 ++ l2 ≡ₚ l1 ++ (i, x) :: l2) as Hp by apply Permutation_middle.
  split_and!; try done; [by rewrite Hp|]. intros HP. destruct (Hl HP) as [Ht Hb]. split; [|done].
  rewrite Ht. change (total (rows (l1 ++ (i, x) :: l2)) = total (rows ((i, x) :: l1 ++ l2))).
  apply total_bytes_perm. unfold rows. by rewrite Hp.
Qed.

Lemma good_pop P st l i x fl :
  good P st (l ++ [(i, x)]) fl ->
  exists e s', remove_tail st.(storage) = Some (Some e, s') /\
    good P (set_bytes (st.(bytes) -s e.(cp_bytes)) (set_storage s' st)) l (i :: fl).
Proof.
  intros (Hs & Hz & (Hch & Ha & Hlen) & Hl).
  destruct (remove_tail_ok _ _ _ _ _ Hs) as (e & s' & E & _ & Hb & Hs' & E1 & E2 & E3 & E4).
  exists e, s'. split; [done|]. apply Forall_app in Hz as [Hz Hx]. apply Forall_cons in Hx as [Hx _]. simpl in Hx.
  unfold good, charged, table_charged, ledger, metadata_bytes in *; simpl.
  rewrite E1, E2, E3, E4, buckets_remove by by destruct Hs. split_and!; try done. intros HP.
  destruct (Hl HP) as [Ht Hle]. unfold rows in Ht. rewrite fmap_app, total_bytes_app in Ht. csimpl in Ht.
  rewrite Hb, Hx. unfold saturating_sub. fold (rows l) in Ht. split; lia.
Qed.

Lemma take_snoc_all {A} (l : list A) x k : (k <= length l)%nat -> take k (l ++ [x]) = take k l.
Proof. intros Hk. by rewrite take_app_le. Qed.

Lemma evict_ok P fuel size : forall st removed l fl,
  good P st l fl ->
  exists k st' rem fl', evict fuel size st removed = Some (st', removed ++ rem) /\ length rem = k /\
    (k <= fuel)%nat /\ (k <= length l)%nat /\ good P st' (take (length l - k) l) fl' /\
    st'.(effective_budget_bytes) = st.(effective_budget_bytes) /\
    (fits size st' = true \/ k = fuel \/ k = length l) /\ (fits size st = true -> k = 0).
Proof.
  induction fuel as [|fuel IH]; intros st removed l fl Hg; simpl; destruct (fits size st) eqn:Hf.
  1,2,3: exists 0, st, [], fl; rewrite app_nil_r, Nat.sub_0_r, firstn_all; split_and!; try done; try lia; by auto.
  destruct l as [|[i x] l _] using rev_ind.
  { rewrite (remove_tail_empty _ fl) by apply Hg. simpl. exists 0, (set_storage st.(storage) st), [], fl.
    rewrite app_nil_r. split_and!; try done; try lia; by auto. }
  destruct (good_pop _ _ _ _ _ _ Hg) as (e & s' & -> & Hg'). simpl.
  destruct (IH (upd_stats (add_stats 0 0 0 1 0 0 0)
      (set_bytes (st.(bytes) -s e.(cp_bytes)) (set_storage s' st))) (removed ++ [e]) l (i :: fl) Hg')
    as (k & st' & rem & fl' & -> & Hk & Hk1 & Hk2 & Hg2 & He & Hor & _).
  exists (S k), st', (e :: rem), fl'. rewrite length_app, Nat.add_comm. simpl.
  split_and!; try done; try lia.
  - by rewrite <- (assoc_L (++)).
  - by rewrite take_snoc_all by lia.
  - destruct Hor as [?|[->| ->]]; auto.
Qed.

(** A row that fits is stored within the budget. *)
Lemma good_push P st l fl row :
  (P -> (st.(effective_budget_bytes) < usize_max)%N) ->
  good P st l fl -> row_id row ∉ ((fun n : Node => row_id n.2.1) <$> l) ->
  fits (declaration_payload_bytes row) st = true ->
  exists s' i fl', storage_insert row (declaration_payload_bytes row) st.(storage) = Some s' /\
    good P (set_bytes (st.(bytes) +s declaration_payload_bytes row) (set_storage s' st))
      ((i, (row, declaration_payload_bytes row)) :: l) fl'.
Proof.
  intros HP (Hs & Hz & Hc & Hl) Hn Hf.
  destruct (storage_insert_ok _ _ _ _ (declaration_payload_bytes row) Hs Hn) as (s' & i & fl' & E & Hs' & Hm).
  destruct (Hm Hc) as [Hc' Hm']. exists s', i, fl'. split; [done|]. split_and!; try done.
  - by constructor.
  - intros HPp. destruct (Hl HPp) as [Hb _]. specialize (HP HPp).
    unfold fits in Hf. apply N.leb_le in Hf. unfold ledger; simpl. fold (rows l). rewrite <- Hb.
    revert Hf HP Hm'. clear. generalize (projected_metadata_bytes st.(storage)), (metadata_bytes s').
    mlia.
Qed.

(** What [insert] does to the list of rows: a resident row is returned and moved to the
    front; otherwise the given row is returned, at most [MAX_EVICTIONS] of the least
    recently used rows are dropped, none if the row fits as things are, and the row is
    put at the front unless the budget refuses it. *)
Definition refused (size : N) (k : nat) (c c' : Cache) : Prop :=
  k = 0 /\ (c.(state).(effective_budget_bytes) = 0%N \/
           (c.(state).(effective_budget_bytes) < size +s metadata_bytes c.(state).(storage))%N) \/
  (k = MAX_EVICTIONS \/ k = length (resident c)) /\ fits size c'.(state) = false.
Definition lru_inserted (row r : Row) (c c' : Cache) : Prop :=
  match lru_find (row_id row) (resident c) with
  | Some (k, old) => r = old /\ resident c' = old :: delete k (resident c)
  | None =>
      let size := declaration_payload_bytes row in
      r = row /\ exists k, (k <= MAX_EVICTIONS)%nat /\ (k <= length (resident c))%nat /\
        (fits size c.(state) = true -> k = 0) /\
        let kept := take (length (resident c) - k) (resident c) in
        resident c' = row :: kept \/ resident c' = kept /\ refused size k c c'
  end.

Lemma good_intro (c : Cache) st l fl :
  (st.(effective_budget_bytes) <= c.(configured_budget_bytes))%N ->
  good (c.(configured_budget_bytes) < usize_max)%N st l fl -> cache_inv (unlock c st).
Proof. intros Hb Hg. split; [done|]. by exists l, fl. Qed.

Lemma cache_get_ok wait id c :
  cache_inv c ->
  exists c', get wait id c = Some ((lru_get id (resident c)).1, c') /\
    resident c' = (lru_get id (resident c)).2 /\ cache_inv c'.
Proof.
  intros (Hb & l & fl & Hg). pose proof (proj1 Hg) as Hs. rewrite (resident_eq _ _ _ Hs).
  unfold get, lru_get. simpl storage. destruct (contents _ !! id) as [i|] eqn:Hi.
  - destruct (lookup_split _ _ _ _ _ Hs Hi) as (l1 & x & l2 & -> & -> & ->).
    destruct (good_touch _ _ _ _ _ _ _ Hg) as (s' & E & Hg').
    simpl. rewrite E. simpl. eexists. split; [done|]. split.
    + apply (resident_eq (unlock c _) _ _ (proj1 Hg')).
    + by eapply good_intro.
  - destruct (lookup_absent _ _ _ _ Hs Hi) as [-> _]. simpl. eexists. split; [done|]. split.
    + apply (resident_eq (unlock c _) _ _ Hs).
    + by eapply good_intro.
Qed.

Lemma rows_take l k : rows (take (length l - k) l) = take (length (rows l) - k) (rows l).
Proof. unfold rows. by rewrite fmap_take, length_fmap. Qed.

Lemma insert_ok wait row c :
  cache_inv c ->
  exists r c', insert wait row c = Some (r, c') /\ lru_inserted row r c c' /\ cache_inv c'.
Proof.
  intros (Hb & l & fl & Hg). pose proof (proj1 Hg) as Hs. pose proof (resident_eq _ _ _ Hs) as Hr.
  unfold insert, lru_inserted. rewrite Hr. simpl storage. destruct (contents _ !! row_id row) as [i|] eqn:Hi.
  { destruct (lookup_split _ _ _ _ _ Hs Hi) as (l1 & x & l2 & -> & -> & ->).
    destruct (good_touch _ _ _ _ _ _ _ Hg) as (s' & E & Hg'). simpl. rewrite E. simpl.
    eexists _, _. split; [done|]. split; [split; [done|apply (resident_eq (unlock c _) _ _ (proj1 Hg'))]|by eapply good_intro]. }
  destruct (lookup_absent _ _ _ _ Hs Hi) as [-> Hid]. cbv zeta.
  set (size := declaration_payload_bytes row).
  destruct (_ || _) eqn:Hskip; simpl in Hskip.
  { eexists _, _. split; [done|]. split; [|by eapply good_intro]. split; [done|]. exists 0.
    split_and!; [lia..|done|]. right. rewrite Nat.sub_0_r, firstn_all. split; [apply (resident_eq (unlock c _) _ _ Hs)|].
    left. split; [done|]. apply orb_true_iff in Hskip as [H|H]; [left; by apply N.eqb_eq|right; by apply N.ltb_lt]. }
  destruct (evict_ok _ MAX_EVICTIONS size (lock wait c) [] l fl Hg)
    as (k & st & rem & fl' & E & Hk & Hk1 & Hk2 & Hg2 & He & Hor & H0).
  rewrite E. cbn [mbind option_bind app]. simpl in He. clear E.
  assert (length (rows l) = length l) as Hlen by apply length_fmap.
  destruct (fits size st) eqn:Hf.
  - destruct (good_push (c.(configured_budget_bytes) < usize_max)%N st (take (length l - k) l) fl' row) as (s' & i & fl2 & E & Hg3); [lia|done| |done|].
    { intros Hin. apply Hid. rewrite <- (take_drop (length l - k) l), fmap_app. set_solver. }
    fold size in E. rewrite E. simpl. eexists _, _. split; [done|]. split; [|by eapply good_intro; [simpl; lia|]].
    split; [done|]. exists k. rewrite Hlen. split_and!; [done..|]. left.
    etrans; [apply (resident_eq (unlock c _) _ _ (proj1 Hg3))|]. cbn [rows fmap list_fmap fst snd]. fold rows. f_equal.
    by rewrite <- Hlen, <- rows_take, Hlen.
  - eexists _, _. split; [done|]. split; [|by eapply good_intro; [simpl; lia|]].
    split; [done|]. exists k. rewrite Hlen. split_and!; [done..|]. right. split.
    + etrans; [apply (resident_eq (unlock c _) _ _ (proj1 Hg2))|]. by rewrite rows_take, Hlen.
    + right. split; [|done]. rewrite Hr, Hlen. by destruct Hor as [?|?].
Qed.

(** ** Every reachable cache *)

Lemma stores_default : stores default_storage [] [].
Proof.
  split; simpl; [split_and!; simpl; by try constructor|done|done|constructor| |apply ok_default].
  intros id i. rewrite contents_default, lookup_empty. split; [done|]. intros (x & Hx & _). by apply elem_of_nil in Hx.
Qed.
Lemma metadata_default : metadata_bytes default_storage = 0%N.
Proof. by unfold metadata_bytes. Qed.
Lemma good_default P b t : good P (mkState default_storage 0 b t) [] [].
Proof.
  split_and!; [apply stores_default|done| |]; simpl.
  - split_and!; simpl; [|mlia|lia]. left. apply buckets_default.
  - intros _. split; [done|]. simpl. rewrite metadata_default. lia.
Qed.
Lemma cache_inv_new budget : cache_inv (new budget).
Proof. split; [done|]. exists [], []. apply good_default. Qed.
Lemma cache_inv_restore wait c : cache_inv c -> cache_inv (restore_configured_budget wait c).
Proof.
  intros (Hb & l & fl & Hs & Hz & Hc & Hl). split; [done|]. exists l, fl. split_and!; try done.
  intros HP. destruct (Hl HP) as [Hbytes Hle]. split; [done|]. simpl in *. lia.
Qed.

Lemma lru_find_Some id l k r : lru_find id l = Some (k, r) -> l !! k = Some r /\ row_id r = id.
Proof. intros (Hk & Hr & _)%list_find_Some. done. Qed.
Lemma elem_of_lru_get id l r : r ∈ (lru_get id l).2 -> r ∈ l.
Proof.
  unfold lru_get. destruct (lru_find id l) as [[k x]|] eqn:E; simpl; [|done].
  apply lru_find_Some in E as [Hk _]. intros [->|Hr]%elem_of_cons.
  - by eapply list_elem_of_lookup_2.
  - eapply elem_of_submseteq; [done|]. apply sublist_submseteq, sublist_delete.
Qed.
Lemma elem_of_inserted row r c c' x :
  lru_inserted row r c c' -> x ∈ r :: resident c' -> x = row \/ x ∈ resident c.
Proof.
  unfold lru_inserted. destruct (lru_find (row_id row) (resident c)) as [[k old]|] eqn:E.
  - intros [-> ->]. apply lru_find_Some in E as [Hk _]. intros Hx. right.
    assert (old ∈ resident c) by by eapply list_elem_of_lookup_2.
    apply elem_of_cons in Hx as [->|[->|Hx]%elem_of_cons]; [done..|].
    eapply elem_of_submseteq; [done|]. apply sublist_submseteq, sublist_delete.
  - intros [-> (k & _ & _ & _ & Hor)]. set_unfold. intros Hx.
    assert (forall y n, y ∈ take n (resident c) -> y ∈ resident c) as Htake by (intros y n (i & Hi & _)%elem_of_take; by eapply list_elem_of_lookup_2).
    destruct Hx as [->|Hx]; [by left|]. destruct Hor as [Hr|[Hr _]]; rewrite Hr in Hx.
    + apply elem_of_cons in Hx as [->|Hx]; [by left|right; by eapply Htake].
    + right. by eapply Htake.
Qed.

(** The invariant of every client: the storage is good and holds admissible rows only. *)
Definition client_inv (admissible : Row -> Prop) (c : Cache) : Prop :=
  cache_inv c /\ Forall admissible (resident c).
Lemma step_inv admissible c c' :
  step admissible c c' -> client_inv admissible c ->
  client_inv admissible c' /\ c'.(configured_budget_bytes) = c.(configured_budget_bytes).
Proof.
  intros Hstep [Hi Ha]. rewrite Forall_forall in Ha. unfold client_inv. rewrite Forall_forall.
  destruct Hstep as [wait id r c c' E|wait c|wait row r c c' Hrow E|wait c|wait c|wait c].
  - destruct (cache_get_ok wait id c Hi) as (c2 & E2 & Hr & Hi2). rewrite E in E2. injection E2 as _ <-.
    split_and!; [done| |].
    + intros x Hx. apply Ha. rewrite Hr in Hx. by eapply elem_of_lru_get.
    + revert E. unfold get. case_match; [|by intros [= _ <-]].
      intros ([x s] & _ & [= _ <-])%bind_Some. done.
  - split_and!; [exact Hi|exact Ha|done].
  - destruct (insert_ok wait row c Hi) as (r2 & c2 & E2 & Hr & Hi2). rewrite E in E2. injection E2 as <- <-.
    split_and!; [done| |].
    + intros x Hx. destruct (elem_of_inserted _ _ _ _ x Hr) as [->|?]; [by right|done|by apply Ha].
    + revert E. unfold insert. case_match.
      { intros ([x s] & _ & [= _ <-])%bind_Some. done. }
      cbv zeta. case_match; [by intros [= _ <-]|]. intros ([st rem] & _ & E)%bind_Some. revert E.
      case_match; [|by intros [= _ <-]]. intros (s & _ & [= _ <-])%bind_Some. done.
  - split_and!; [|intros x Hx; by apply elem_of_nil in Hx|done].
    split; [simpl; lia|]. exists [], []. apply good_default.
  - split_and!; [by apply cache_inv_restore|exact Ha|done].
  - split_and!; [exact Hi|exact Ha|done].
Qed.
Lemma steps_inv admissible c c' :
  rtc (step admissible) c c' -> client_inv admissible c ->
  client_inv admissible c' /\ c'.(configured_budget_bytes) = c.(configured_budget_bytes).
Proof.
  induction 1 as [|c c1 c2 Hs _ IH]; intros Hc; [done|].
  destruct (step_inv _ _ _ Hs Hc) as [Hc1 <-]. by apply IH.
Qed.
Lemma cache_reachable_inv admissible budget c :
  reachable admissible budget c -> client_inv admissible c /\ c.(configured_budget_bytes) = budget.
Proof. intros Hr. apply (steps_inv _ _ _ Hr). split; [apply cache_inv_new|constructor]. Qed.

Lemma reachable_steps admissible budget c c' :
  reachable admissible budget c -> rtc (step admissible) c c' -> reachable admissible budget c'.
Proof. unfold reachable. intros. by etrans. Qed.

(** ** Reading through the cache *)

Lemma concat_chunks fuel ids : (length ids <= fuel)%nat -> concat (chunks fuel ids) = ids.
Proof.
  revert ids. induction fuel as [|fuel IH]; intros [|id ids] Hf; simpl in *; try done; [lia|].
  rewrite IH; [by rewrite take_drop|]. rewrite length_drop. lia.
Qed.

Section ReadLemmas.
Variable query : list Z -> result DeclarationReadFailureReason (list Row).
Variable env : nat -> Cache -> Cache.
Variable waits : nat -> N.
(** The declarations of the captured generation, and the rows a client may cache. *)
Variable store : Z -> option Row.
Definition stored_row (r : Row) : Prop := store (row_id r) = Some r.
(** A statement returns the stored rows it asks for. *)
Hypothesis query_reads : forall ids rows, query ids = Ok rows ->
  forall r, r ∈ rows <-> row_id r ∈ ids /\ stored_row r.
(** Every stored row is stored under its own id. *)
Hypothesis store_ids : forall id r, store id = Some r -> row_id r = id.
(** Other clients only perform operations, and cache rows of the same generation. *)
Hypothesis env_steps : forall k c, rtc (step stored_row) c (env k c).

Definition sound (m : gmap Z Row) : Prop := forall id r, m !! id = Some r -> store id = Some r.
Definition agrees (m : gmap Z Row) (id : Z) : Prop := m !! id = store id.
Lemma sound_empty : sound ∅.
Proof. intros id r. by rewrite lookup_empty. Qed.
Lemma sound_insert m r : sound m -> stored_row r -> sound (<[row_id r := r]> m).
Proof. intros Hm Hr id x [[<- <-]|[_ Hx]]%lookup_insert_Some; [done|by apply Hm]. Qed.
Lemma agrees_insert m r id : stored_row r -> agrees m id -> agrees (<[row_id r := r]> m) id.
Proof.
  intros Hr Ha. unfold agrees. destruct (decide (row_id r = id)) as [<-|Hne].
  - by rewrite lookup_insert_eq.
  - by rewrite lookup_insert_ne.
Qed.
Lemma agrees_insert_eq m r : stored_row r -> agrees (<[row_id r := r]> m) (row_id r).
Proof. intros Hr. unfold agrees. by rewrite lookup_insert_eq. Qed.
Lemma agrees_missing m id : sound m -> store id = None -> agrees m id.
Proof.
  intros Hm Hn. unfold agrees. rewrite Hn. destruct (m !! id) as [r|] eqn:E; [|done].
  apply Hm in E. congruence.
Qed.
Lemma fold_insert_sound rows m :
  Forall stored_row rows -> sound m ->
  let m' := foldl (fun m row => <[row_id row := row]> m) m rows in
  sound m' /\ (forall id, agrees m id -> agrees m' id) /\ (forall r, r ∈ rows -> agrees m' (row_id r)).
Proof.
  revert m. induction rows as [|r rows IH]; intros m Hr Hm; simpl.
  { split_and!; [done..|]. by intros r ?%not_elem_of_nil. }
  apply Forall_cons in Hr as [Hr Hrows]. destruct (IH _ Hrows (sound_insert m r Hm Hr)) as (H1 & H2 & H3).
  split_and!; [done| |].
  - intros id Ha. by apply H2, agrees_insert.
  - intros x [->|Hx]%elem_of_cons; [by apply H2, agrees_insert_eq|by apply H3].
Qed.

Lemma read_chunks_ok cs : forall m m', sound m -> read_chunks query cs m = Ok m' ->
  sound m' /\ (forall id, agrees m id -> agrees m' id) /\ (forall id, id ∈ concat cs -> agrees m' id).
Proof.
  induction cs as [|chunk cs IH]; intros m m' Hm; simpl.
  { intros [= <-]. split; [exact Hm|]. split; [auto|]. intros id Hid. by apply elem_of_nil in Hid. }
  destruct (query chunk) as [rows|e] eqn:Eq; [|done]. intros E.
  assert (Forall stored_row rows) as Hr by (apply Forall_forall; intros r Hr; by apply (query_reads _ _ Eq)).
  destruct (fold_insert_sound rows m Hr Hm) as (H1 & H2 & H3).
  destruct (IH _ _ H1 E) as (H4 & H5 & H6). split_and!; [done|by eauto|].
  intros id [Hid|Hid]%elem_of_app; [|by apply H6]. apply H5.
  destruct (store id) as [r|] eqn:Hs; [|by apply agrees_missing].
  pose proof (store_ids _ _ Hs) as <-. apply H3. by apply (query_reads _ _ Eq).
Qed.
Lemma read_chunks_err cs : forall m e, read_chunks query cs m = Err e -> exists chunk, query chunk = Err e.
Proof.
  induction cs as [|chunk cs IH]; intros m e; simpl; [done|].
  destruct (query chunk) as [rows|e'] eqn:Eq; [apply IH|intros [= ->]; by exists chunk].
Qed.
Lemma by_ids_ok ids rows : by_ids query ids = Ok rows -> rows = omap store ids.
Proof.
  unfold by_ids. destruct (read_chunks _ _ _) as [m|e] eqn:E; [|done]. intros [= <-].
  destruct (read_chunks_ok _ _ _ sound_empty E) as (_ & _ & H). rewrite concat_chunks in H by lia.
  apply list_omap_ext, Forall_Forall2_diag, Forall_forall. intros id Hid. by apply H.
Qed.

(** Cached rows are stored under their ids, so a hit agrees with the database. *)
Lemma get_stored wait id c r c' :
  client_inv stored_row c -> get wait id c = Some (Some r, c') -> row_id r = id /\ stored_row r.
Proof.
  intros [Hi Ha] E. destruct (cache_get_ok wait id c Hi) as (c2 & E2 & _). rewrite E in E2.
  injection E2 as Hr _. unfold lru_get in Hr. destruct (lru_find id (resident c)) as [[k x]|] eqn:Ef; [|done].
  injection Hr as <-. apply lru_find_Some in Ef as [Hk Hid]. split; [done|].
  rewrite Forall_forall in Ha. by apply Ha, (list_elem_of_lookup_2 _ k).
Qed.
Lemma insert_stored wait row c :
  client_inv stored_row c -> stored_row row ->
  exists r c', insert wait row c = Some (r, c') /\ row_id r = row_id row /\ stored_row r /\
    step stored_row c c'.
Proof.
  intros [Hi Ha] Hrow. destruct (insert_ok wait row c Hi) as (r & c' & E & Hr & _).
  exists r, c'. split; [done|]. rewrite Forall_forall in Ha.
  assert (row_id r = row_id row /\ stored_row r) as [H1 H2].
  { unfold lru_inserted in Hr. destruct (lru_find (row_id row) (resident c)) as [[k old]|] eqn:Ef.
    - destruct Hr as [-> _]. apply lru_find_Some in Ef as [Hk Hid]. split; [done|].
      by apply Ha, (list_elem_of_lookup_2 _ k).
    - by destruct Hr as [-> _]. }
  split_and!; [exact H1|exact H2|]. exact (step_insert _ wait row r c c' Hrow E).
Qed.
Lemma env_inv k c : client_inv stored_row c -> client_inv stored_row (env k c).
Proof. intros Hc. by apply (steps_inv _ _ _ (env_steps k c)). Qed.

Lemma read_cached_ok ids : forall k output missing c,
  client_inv stored_row c -> sound output ->
  exists output' missing' k' c', read_cached env waits ids k output missing c = Some (output', missing', k', c') /\
    rtc (step stored_row) c c' /\ sound output' /\ (forall id, agrees output id -> agrees output' id) /\
    missing ⊆ missing' /\ (forall id, id ∈ ids -> agrees output' id \/ id ∈ missing').
Proof.
  induction ids as [|id ids IH]; intros k output missing c Hc Ho; simpl.
  { eexists _, _, _, _. split; [done|]. split_and!; try done. by intros id ?%not_elem_of_nil. }
  pose proof (env_inv k c Hc) as Hc1.
  destruct (cache_get_ok (waits k) id (env k c)) as (c2 & E & _ & _); [by apply Hc1|]. rewrite E. simpl.
  assert (step stored_row (env k c) c2) as Hst by exact (step_get _ _ _ _ _ _ E).
  pose proof (proj1 (step_inv _ _ _ Hst Hc1)) as Hc2.
  assert (rtc (step stored_row) c c2) as Hsteps by (eapply rtc_r; [apply env_steps|done]).
  destruct (lru_get id (resident (env k c))).1 as [r|].
  - destruct (get_stored _ _ _ _ _ Hc1 E) as [<- Hr].
    destruct (IH (S k) (<[row_id r := r]> output) missing c2 Hc2 (sound_insert _ _ Ho Hr))
      as (o' & m' & k' & c' & -> & H1 & H2 & H3 & H4 & H5).
    eexists _, _, _, _. split; [done|]. split_and!; try done; [by etrans| |].
    + intros x Hx. by apply H3, agrees_insert.
    + intros x [->|Hx]%elem_of_cons; [left; by apply H3, agrees_insert_eq|by apply H5].
  - destruct (IH (S k) output (missing ++ [id]) c2 Hc2 Ho) as (o' & m' & k' & c' & -> & H1 & H2 & H3 & H4 & H5).
    eexists _, _, _, _. split; [done|]. split_and!; try done; [by etrans|set_solver|].
    intros x [->|Hx]%elem_of_cons; [right; set_solver|by apply H5].
Qed.

Lemma insert_rows_ok rows : forall k output c,
  client_inv stored_row c -> sound output -> Forall stored_row rows ->
  exists output' c', insert_rows env waits rows k output c = Some (output', c') /\
    rtc (step stored_row) c c' /\ sound output' /\ (forall id, agrees output id -> agrees output' id) /\
    (forall r, r ∈ rows -> agrees output' (row_id r)).
Proof.
  induction rows as [|row rows IH]; intros k output c Hc Ho Hr; simpl.
  { eexists _, _. split; [done|]. split_and!; try done. by intros r ?%not_elem_of_nil. }
  apply Forall_cons in Hr as [Hrow Hr]. pose proof (env_inv k c Hc) as Hc1.
  destruct (insert_stored (waits k) row (env k c) Hc1 Hrow) as (r & c2 & -> & Hid & Hsr & Hst). simpl.
  pose proof (proj1 (step_inv _ _ _ Hst Hc1)) as Hc2. rewrite <- Hid.
  destruct (IH (S k) (<[row_id r := r]> output) c2 Hc2 (sound_insert _ _ Ho Hsr) Hr)
    as (o' & c' & -> & H1 & H2 & H3 & H4).
  eexists _, _. split; [done|]. split_and!; try done.
  - etrans; [|done]. eapply rtc_r; [apply env_steps|done].
  - intros x Hx. by apply H3, agrees_insert.
  - intros x [->|Hx]%elem_of_cons; [by rewrite <- Hid; apply H3, agrees_insert_eq|by apply H4].
Qed.

(** C8 The cache is transparent: reading declarations by id through it answers exactly
    what the captured database holds, in the order asked, whatever is resident and
    whatever the other clients do meanwhile; an error is an error of the database, a
    handle on another generation is refused, no link of the cache is ever broken, and
    the cache stays one that clients of this generation can reach. *)
Theorem payload_reads_transparent budget index handle ids :
  reachable stored_row budget index.(payloads) ->
  exists res c', payloads_by_ids_bound query env waits index handle ids = Some (res, c') /\
    reachable stored_row budget c' /\
    (index.(read_identity) = Some handle ->
       res = Ok (omap store ids) \/ exists chunk e, query chunk = Err e /\ res = Err e) /\
    (index.(read_identity) <> Some handle -> res = Err IdentityMismatch /\ c' = index.(payloads)).
Proof.
  intros Hr. unfold payloads_by_ids_bound. case_bool_decide as Hid; simpl.
  2:{ eexists _, _. by split_and!. }
  pose proof (proj1 (cache_reachable_inv _ _ _ Hr)) as Hc.
  destruct (read_cached_ok ids 0 ∅ [] index.(payloads) Hc sound_empty)
    as (output & missing & k & c1 & -> & H1 & H2 & _ & _ & H5). simpl.
  assert (forall m : gmap Z Row, (forall id, id ∈ ids -> agrees m id) ->
    omap (fun id => m !! id) ids = omap store ids) as Hall.
  { intros m Hm. apply list_omap_ext, Forall_Forall2_diag, Forall_forall. intros id Hi. by apply Hm. }
  pose proof (reachable_steps _ _ _ _ Hr H1) as Hr1.
  destruct missing as [|i missing].
  { eexists _, _. split; [done|]. split_and!; [done| |by intros]. intros _. left. f_equal. apply Hall.
    intros id Hi. destruct (H5 id Hi) as [?|Hm]; [done|by apply elem_of_nil in Hm]. }
  set (c2 := record_sql_read _ _). assert (reachable stored_row budget c2) as Hr2.
  { eapply reachable_steps; [exact Hr1|]. eapply rtc_r; [apply env_steps|]. apply step_sql_read. }
  pose proof (proj1 (cache_reachable_inv _ _ _ Hr2)) as Hc2.
  destruct (by_ids query (i :: missing)) as [rows|e] eqn:Eb.
  - apply by_ids_ok in Eb. subst rows.
    assert (Forall stored_row (omap store (i :: missing))) as Hrows.
    { apply Forall_forall. intros r (id & _ & Hs)%list_elem_of_omap. unfold stored_row.
      by rewrite (store_ids _ _ Hs). }
    destruct (insert_rows_ok _ (S k) output c2 Hc2 H2 Hrows) as (output' & c3 & -> & H6 & H7 & H8 & H9).
    simpl. eexists _, _. split; [done|]. split_and!; [by eapply reachable_steps| |by intros]. intros _. left. f_equal.
    apply Hall. intros id Hi. destruct (H5 id Hi) as [?|Hm]; [by apply H8|].
    destruct (store id) as [r|] eqn:Hs; [|by apply agrees_missing].
    rewrite <- (store_ids _ _ Hs). apply H9, list_elem_of_omap. by exists id.
  - eexists _, _. split; [done|]. split_and!; [done| |by intros]. intros _. right.
    unfold by_ids in Eb. destruct (read_chunks _ _ _) as [m|e'] eqn:E; [done|]. injection Eb as ->.
    apply read_chunks_err in E as [chunk Hq]. by exists chunk, e.
Qed.
End ReadLemmas.

(** C5 The cache refines a least-recently-used list: the doubly linked arena, its free
    list and its hash table never run into an [expect]; a lookup answers with the list
    and moves what it finds to the front; an insertion returns the resident row or
    stores the given one at the front, after dropping at most 32 rows from the back and
    none that the budget does not ask for; no declaration is resident twice. *)
Theorem cache_refines_lru admissible budget c :
  reachable admissible budget c ->
  (forall wait id, exists c', get wait id c = Some ((lru_get id (resident c)).1, c') /\
     resident c' = (lru_get id (resident c)).2) /\
  (forall wait row, exists r c', insert wait row c = Some (r, c') /\ lru_inserted row r c c') /\
  NoDup (row_id <$> resident c).
Proof.
  intros Hr. destruct (proj1 (cache_reachable_inv _ _ _ Hr)) as [Hi _]. split_and!.
  - intros wait id. destruct (cache_get_ok wait id c Hi) as (c' & H1 & H2 & _). by exists c'.
  - intros wait row. destruct (insert_ok wait row c Hi) as (r & c' & H1 & H2 & _). by exists r, c'.
  - destruct Hi as (_ & l & fl & [Hs _]). rewrite (resident_eq _ _ _ Hs). destruct Hs as [_ _ _ Hids _ _].
    unfold rows. by rewrite <- list_fmap_compose.
Qed.

(** C21 The ledger is exact and within budget: the counted bytes are those of the resident
    rows, and together with the table and the arena they never exceed the effective
    budget, which never exceeds the configured one. *)
Theorem cache_within_budget admissible budget c :
  (budget < usize_max)%N -> reachable admissible budget c ->
  c.(state).(bytes) = total (resident c) /\
  (c.(state).(bytes) + metadata_bytes c.(state).(storage) <= c.(state).(effective_budget_bytes))%N /\
  (c.(state).(effective_budget_bytes) <= budget)%N.
Proof.
  intros Hb Hr. destruct (cache_reachable_inv _ _ _ Hr) as [[(He & l & fl & Hs & _ & _ & Hl) _] Hc].
  rewrite Hc in *. destruct (Hl Hb) as [-> Hle]. rewrite (resident_eq _ _ _ Hs). by split_and!.
Qed.
End Cache.

(** ** A small cache *)

(** Rows of an id and a size, slots of 72 bytes, a budget of 2000 bytes: the second row
    evicts the first. *)
Definition demo_row : Type := (Z * N)%type.
Definition demo_store (id : Z) : option demo_row :=
  if (id =? 7)%Z then Some (7%Z, 700%N) else if (id =? 8)%Z then Some (8%Z, 700%N) else None.
Definition demo_query (ids : list Z) : result DeclarationReadFailureReason (list demo_row) :=
  Ok (omap demo_store ids).
Definition demo_insert (row : demo_row) (c : DeclarationPayloadCache DemoTable demo_row) :
    DeclarationPayloadCache DemoTable demo_row :=
  match insert fst snd 72 0 row c with Some (_, c) => c | None => c end.
Definition demo_cache : DeclarationPayloadCache DemoTable demo_row :=
  demo_insert (8%Z, 700%N) (demo_insert (7%Z, 700%N) (new 2000)).
Example demo_resident : resident demo_cache = [(8%Z, 700%N)].
Proof. vm_compute. reflexivity. Qed.
Example demo_evicted : demo_cache.(state).(stats_of).(evictions) = 1%N.
Proof. vm_compute. reflexivity. Qed.

Lemma demo_store_ids id r : demo_store id = Some r -> fst r = id.
Proof. unfold demo_store. repeat (case_match; [intros [= <-]; simpl; lia|]). done. Qed.
Lemma demo_query_reads ids rows :
  demo_query ids = Ok rows -> forall r, r ∈ rows <-> fst r ∈ ids /\ stored_row fst demo_store r.
Proof.
  intros [= <-] r. rewrite list_elem_of_omap. unfold stored_row. split.
  - intros (id & Hid & Hs). pose proof (demo_store_ids _ _ Hs) as Hr. by rewrite Hr.
  - intros [Hid Hs]. by exists (fst r).
Qed.
Lemma demo_insert_step row c :
  stored_row fst demo_store row -> is_Some (insert fst snd 72 0 row c) ->
  step fst snd 72 (stored_row fst demo_store) c (demo_insert row c).
Proof.
  intros Hr [[r c'] E]. unfold demo_insert. rewrite E. exact (step_insert _ _ _ _ 0%N _ _ _ _ Hr E).
Qed.
Lemma demo_cache_reachable : reachable fst snd 72 (stored_row fst demo_store) 2000 demo_cache.
Proof.
  unfold reachable, demo_cache. apply rtc_l with (demo_insert (7%Z, 700%N) (new 2000)); [|apply rtc_once].
  - apply demo_insert_step; [reflexivity|]. vm_compute. by eexists.
  - apply demo_insert_step; [reflexivity|]. vm_compute. by eexists.
Qed.

Lemma payload_reads_transparent_witness :
  exists res c',
    payloads_by_ids_bound fst snd 72 demo_query (fun _ c => c) (fun _ => 0%N)
      (mkIndex 0 2000 demo_cache (Some (Persistent "db" "x" 1))) (Persistent "db" "x" 1) [7; 8; 9; 7]%Z
      = Some (res, c') /\ res = Ok [(7%Z, 700%N); (8%Z, 700%N); (7%Z, 700%N)].
Proof.
  destruct (payload_reads_transparent fst snd 72 demo_query (fun _ c => c) (fun _ => 0%N) demo_store
    demo_query_reads demo_store_ids (fun _ c => rtc_refl _ c) 2000
    (mkIndex 0 2000 demo_cache (Some (Persistent "db" "x" 1))) (Persistent "db" "x" 1) [7; 8; 9; 7]%Z
    demo_cache_reachable) as (res & c' & H1 & _ & H2 & _).
  exists res, c'. split; [exact H1|]. destruct (H2 eq_refl) as [->|(chunk & e & H & _)]; [reflexivity|discriminate H].
Defined.
Lemma cache_refines_lru_witness :
  reachable fst snd 72 (stored_row fst demo_store) 2000 demo_cache /\
  exists c', get 5 8 demo_cache = Some (Some (8%Z, 700%N), c') /\ resident c' = [(8%Z, 700%N)].
Proof.
  split; [exact demo_cache_reachable|].
  exact (proj1 (cache_refines_lru fst snd 72 (stored_row fst demo_store) 2000 demo_cache demo_cache_reachable) 5%N 8%Z).
Defined.
Lemma cache_within_budget_witness :
  (2000 < usize_max)%N /\ demo_cache.(state).(bytes) = 700%N /\
  (demo_cache.(state).(bytes) + metadata_bytes 72 demo_cache.(state).(storage) <= 2000)%N.
Proof.
  split; [reflexivity|]. destruct (cache_within_budget fst snd 72 (stored_row fst demo_store) 2000 demo_cache)
    as (H1 & H2 & H3); [reflexivity|exact demo_cache_reachable|].
  split; [refine (eq_trans H1 _); vm_compute; reflexivity|]. exact (N.le_trans _ _ _ H2 H3).
Defined.
