(* ===== verification/Reachability.v ===== *)
(** * Bounded include reachability (reachability.rs, includes.rs, store/views rows)

    The resolved include graph of one generation, its incremental refresh, the sparse
    request overlay over a shared base, and the two bounded breadth-first traversals
    (file graph and Go package graph) that compute a [ReachScope]. Paths are strings;
    hash maps are finite maps. The memo table is passed explicitly. *)

From S2P Require Import Prelude.

(** ** Data *)

Definition MAX_REACH_DEPTH : N := 32.
Definition MAX_REACH_NODES : N := 4096.
Definition MAX_REACH_PACKAGES : N := 4096.
Definition MAX_REACH_PACKAGE_EDGES : N := 16384.

#[global] Arguments MAX_REACH_DEPTH : simpl never.
#[global] Arguments MAX_REACH_NODES : simpl never.
#[global] Arguments MAX_REACH_PACKAGES : simpl never.
#[global] Arguments MAX_REACH_PACKAGE_EDGES : simpl never.

Inductive ResolutionKind : Type := RelativeExact | WorkspaceExact | ExternalExact | SuffixMatch.
#[export] Instance ResolutionKind_eq_dec : EqDecision ResolutionKind.
Proof. solve_decision. Defined.

Definition ResolutionKind_as_str (k : ResolutionKind) : string :=
  match k with
  | RelativeExact => "relative_exact"
  | WorkspaceExact => "workspace_exact"
  | ExternalExact => "external_exact"
  | SuffixMatch => "suffix_match"
  end.
Definition ResolutionKind_from_str (s : string) : ResolutionKind :=
  if String.eqb s "relative_exact" then RelativeExact
  else if String.eqb s "workspace_exact" then WorkspaceExact
  else if String.eqb s "external_exact" then ExternalExact
  else if String.eqb s "suffix_match" then SuffixMatch
  else SuffixMatch.

Inductive OpenReason : Type :=
  | UnresolvedInclude | AmbiguousInclude | UnsupportedLanguageBoundary
  | BuildConstraintUnknown | DepthLimit | NodeLimit.
#[export] Instance OpenReason_eq_dec : EqDecision OpenReason.
Proof. solve_decision. Defined.

Record ReachScope : Type := mkScope {
  scope_files : gset string;
  heuristic_files : gset string;
  scope_open : bool;
  scope_reason : option OpenReason;
}.

Record ReachEdge : Type := mkEdge { target : string; resolution : ResolutionKind }.
#[export] Instance ReachEdge_eq_dec : EqDecision ReachEdge.
Proof. solve_decision. Defined.
Record PackageReachEdge : Type := mkPackageEdge { pkg_target : string; heuristic : bool }.
#[export] Instance PackageReachEdge_eq_dec : EqDecision PackageReachEdge.
Proof. solve_decision. Defined.

(** Rows delivered by the store views. *)
Record IncludeEdgeRow : Type := mkIncludeEdgeRow {
  ie_source_path : string; ie_target_path : string; ie_resolution : ResolutionKind }.
Record OpenIncludeRow : Type := mkOpenIncludeRow { oi_source_path : string; oi_reason : OpenReason }.
Inductive GoPackageResolution : Type := GoExact | GoHeuristic.
Record GoPackageFileRow : Type := mkGoFileRow { gf_package_key : string; gf_path : string }.
Record GoPackageEdgeRow : Type := mkGoEdgeRow {
  ge_source_package_key : string; ge_target_package_key : string; ge_resolution : GoPackageResolution }.
Record GoOpenPackageRow : Type := mkGoOpenRow { go_package_key : string; go_reason : OpenReason }.

Record ReachGraphOverlay : Type := mkOverlay {
  ov_sources : gset string;
  ov_edges : gmap string (list ReachEdge);
  ov_open : gmap string OpenReason;
  ov_package_by_file : gmap string (option string);
  affected_packages : gset string;
  ov_open_packages : gmap string OpenReason;
  ov_direct_external_source_counts : gmap string N;
}.

(** The tables a graph owns, apart from its base and overlay. *)
Record GraphTables : Type := mkTables {
  edges : gmap string (list ReachEdge);
  open : gmap string OpenReason;
  package_by_file : gmap string string;
  files_by_package : gmap string (list string);
  package_edges : gmap string (list PackageReachEdge);
  open_packages : gmap string OpenReason;
  direct_counts : gmap string N;
}.
Definition empty_tables : GraphTables := mkTables ∅ ∅ ∅ ∅ ∅ ∅ ∅.

(** [ReachGraph]: the [Arc]-shared base makes the type recursive. *)
Inductive ReachGraph : Type :=
  Graph (tables : GraphTables) (base : option ReachGraph) (overlay : option ReachGraphOverlay).
Definition tables_of (g : ReachGraph) : GraphTables := let '(Graph t _ _) := g in t.
Definition published (t : GraphTables) : ReachGraph := Graph t None None.

(** ** Edges *)

(** [Path::is_absolute] on Unix. *)
Definition is_absolute (path : string) : bool :=
  match path with
  | String.String c _ => N.eqb (Ascii.N_of_ascii c) 47 (* the slash *)
  | EmptyString => false
  end.

Definition is_strong_resolution (r : ResolutionKind) : bool :=
  match r with RelativeExact | WorkspaceExact | ExternalExact => true | SuffixMatch => false end.

Definition is_direct_external_edge (e : ReachEdge) : bool :=
  bool_decide (e.(resolution) = ExternalExact) && is_absolute e.(target).

Definition edge_cmp : ReachEdge -> ReachEdge -> comparison :=
  cmp_lex (cmp_on (fun e => negb (is_direct_external_edge e)) bool_cmp)
    (cmp_lex (cmp_on target String.compare)
       (cmp_on (fun e => ResolutionKind_as_str e.(resolution)) String.compare)).
Definition normalize_reach_edges (es : list ReachEdge) : list ReachEdge :=
  dedup (fun a b => bool_decide (a = b)) (sort_by edge_cmp es).

Definition bump (t : string) (counts : gmap string N) : gmap string N :=
  <[t := (default 0%N (counts !! t) + 1)%N]> counts.
Definition direct_targets (es : list ReachEdge) : list string :=
  target <$> List.filter is_direct_external_edge es.
(** Count a source's direct external targets, unless it is external itself. *)
Definition count_source (source : string) (es : list ReachEdge) (counts : gmap string N) :
    gmap string N :=
  if is_absolute source then counts else foldl (fun c t => bump t c) counts (direct_targets es).
Definition direct_external_source_counts (es : gmap string (list ReachEdge)) : gmap string N :=
  map_fold count_source ∅ es.

Definition insert_open_reason (path : string) (reason : OpenReason)
    (m : gmap string OpenReason) : gmap string OpenReason :=
  match reason with
  | UnresolvedInclude => <[path := UnresolvedInclude]> m
  | AmbiguousInclude => <[path := default AmbiguousInclude (m !! path)]> m
  | _ => <[path := default reason (m !! path)]> m
  end.
Definition insert_open_reasons (rows : list (string * OpenReason)) (m : gmap string OpenReason) :=
  foldl (fun m '(p, r) => insert_open_reason p r m) m rows.

(** [map.entry(key).or_default().push(value)] *)
Definition push_entry {A} (key : string) (v : A) (m : gmap string (list A)) : gmap string (list A) :=
  <[key := default [] (m !! key) ++ [v]]> m.
Definition push_edges (rows : list (string * string * ResolutionKind))
    (m : gmap string (list ReachEdge)) : gmap string (list ReachEdge) :=
  foldl (fun m '(src, dst, k) => push_entry src (mkEdge dst k) m) m rows.

(** ** Construction *)

Definition new_with_kinds (rows : list (string * string * ResolutionKind))
    (unresolved ambiguous : list string) : ReachGraph :=
  let es := normalize_reach_edges <$> push_edges rows ∅ in
  let op := foldl (fun m p => <[p := AmbiguousInclude]> m) ∅ ambiguous in
  let op := foldl (fun m p => <[p := UnresolvedInclude]> m) op unresolved in
  published (mkTables es op ∅ ∅ ∅ ∅ (direct_external_source_counts es)).

Definition from_rows (edge_rows : list IncludeEdgeRow) (unresolved ambiguous : list OpenIncludeRow) :
    ReachGraph :=
  new_with_kinds
    ((fun r => (r.(ie_source_path), r.(ie_target_path), r.(ie_resolution))) <$> edge_rows)
    (oi_source_path <$> unresolved) (oi_source_path <$> ambiguous).

Definition package_edge_cmp : PackageReachEdge -> PackageReachEdge -> comparison :=
  cmp_lex (cmp_on pkg_target String.compare) (cmp_on heuristic bool_cmp).

Definition from_rows_with_packages (edge_rows : list IncludeEdgeRow)
    (unresolved ambiguous : list OpenIncludeRow) (package_files : list GoPackageFileRow)
    (pkg_edges : list GoPackageEdgeRow) (open_pkgs : list GoOpenPackageRow) : ReachGraph :=
  let t := tables_of (from_rows edge_rows unresolved ambiguous) in
  let by_file := foldl (fun m r => <[r.(gf_path) := r.(gf_package_key)]> m) ∅ package_files in
  let by_package := foldl (fun m r => push_entry r.(gf_package_key) r.(gf_path) m) ∅ package_files in
  let by_package := (fun fs => dedup String.eqb (sort_by String.compare fs)) <$> by_package in
  let pe := foldl (fun m r =>
      push_entry r.(ge_source_package_key)
        (mkPackageEdge r.(ge_target_package_key)
           (match r.(ge_resolution) with GoHeuristic => true | GoExact => false end)) m)
      ∅ pkg_edges in
  let pe := (fun es => dedup (fun a b => bool_decide (a = b)) (sort_by package_edge_cmp es)) <$> pe in
  let op := foldl (fun m r => <[r.(go_package_key) := r.(go_reason)]> m) ∅ open_pkgs in
  published (mkTables t.(edges) t.(open) by_file by_package pe op t.(direct_counts)).

(** ** Incremental refresh of a published graph *)

Definition uncount (counts : gmap string N) (t : string) : gmap string N :=
  match counts !! t with
  | Some c =>
      let c := (c -s 1)%N in if N.eqb c 0 then delete t counts else <[t := c]> counts
  | None => counts
  end.
Definition uncount_source (es : gmap string (list ReachEdge)) (counts : gmap string N)
    (source : string) : gmap string N :=
  if is_absolute source then counts
  else foldl uncount counts (direct_targets (default [] (es !! source))).
Definition recount_source (es : gmap string (list ReachEdge)) (counts : gmap string N)
    (source : string) : gmap string N :=
  count_source source (default [] (es !! source)) counts.

Definition remove_sources {A} (sources : list string) (m : gmap string A) : gmap string A :=
  foldl (fun m s => delete s m) m sources.
Definition normalize_sources (sources : list string) (m : gmap string (list ReachEdge)) :=
  foldl (fun m s => alter normalize_reach_edges s m) m sources.

Definition refresh_tables (sources : list string) (new_edges : list (string * string * ResolutionKind))
    (new_open : list (string * OpenReason)) (t : GraphTables) : GraphTables :=
  let counts := foldl (uncount_source t.(edges)) t.(direct_counts) sources in
  let es := remove_sources sources t.(edges) in
  let op := remove_sources sources t.(open) in
  let es := push_edges new_edges es in
  let es := normalize_sources sources es in
  let counts := foldl (recount_source es) counts sources in
  let op := insert_open_reasons new_open op in
  mkTables es op t.(package_by_file) t.(files_by_package) t.(package_edges) t.(open_packages) counts.

(** [refresh_sources_with_kinds] on a graph without base and overlay. *)
Definition refresh_sources_with_kinds (sources : list string)
    (new_edges : list (string * string * ResolutionKind)) (new_open : list (string * OpenReason))
    (g : ReachGraph) : ReachGraph :=
  let '(Graph t b o) := g in Graph (refresh_tables sources new_edges new_open t) b o.

Definition with_refreshed_sources_from_rows (sources : list string) (rows : list IncludeEdgeRow)
    (open_rows : list OpenIncludeRow) (g : ReachGraph) : ReachGraph :=
  refresh_sources_with_kinds sources
    ((fun r => (r.(ie_source_path), r.(ie_target_path), r.(ie_resolution))) <$> rows)
    ((fun r => (r.(oi_source_path), r.(oi_reason))) <$> open_rows)
    (published (tables_of g)).

(** ** Lookups through the overlay *)

Fixpoint edges_for (g : ReachGraph) (source : string) : option (list ReachEdge) :=
  let '(Graph t base overlay) := g in
  match overlay with
  | Some o =>
      if decide (source ∈ o.(ov_sources)) then Some (default [] (o.(ov_edges) !! source))
      else match base with Some b => edges_for b source | None => None end
  | None => t.(edges) !! source
  end.

Fixpoint open_reason (g : ReachGraph) (path : string) : option OpenReason :=
  let '(Graph t base overlay) := g in
  match overlay with
  | Some o =>
      if decide (path ∈ o.(ov_sources)) then o.(ov_open) !! path
      else match base with Some b => open_reason b path | None => None end
  | None => t.(open) !! path
  end.

Fixpoint package_for_file (g : ReachGraph) (path : string) : option string :=
  let '(Graph t base overlay) := g in
  match overlay with
  | Some o =>
      match o.(ov_package_by_file) !! path with
      | Some package => package
      | None => match base with Some b => package_for_file b path | None => None end
      end
  | None => t.(package_by_file) !! path
  end.

Fixpoint package_edges_for (g : ReachGraph) (package : string) : option (list PackageReachEdge) :=
  let '(Graph t base overlay) := g in
  match overlay with
  | Some o =>
      if decide (package ∈ o.(affected_packages)) then Some []
      else match base with Some b => package_edges_for b package | None => None end
  | None => t.(package_edges) !! package
  end.

Fixpoint open_package_reason (g : ReachGraph) (package : string) : option OpenReason :=
  let '(Graph t base overlay) := g in
  match overlay with
  | Some o =>
      if decide (package ∈ o.(affected_packages)) then o.(ov_open_packages) !! package
      else match base with Some b => open_package_reason b package | None => None end
  | None => t.(open_packages) !! package
  end.

Fixpoint direct_external_source_count (g : ReachGraph) (t : string) : N :=
  let '(Graph tb base overlay) := g in
  match overlay with
  | Some o =>
      match o.(ov_direct_external_source_counts) !! t with
      | Some c => c
      | None => match base with Some b => direct_external_source_count b t | None => 0%N end
      end
  | None => default 0%N (tb.(direct_counts) !! t)
  end.

Definition lenN {A} (l : list A) : N := N.of_nat (length l).
Definition takeN {A} (n : N) (l : list A) : list A := take (N.to_nat (N.min n (lenN l))) l.

(** The part of [files_for_package_bounded]'s loop over the base's files. *)
Fixpoint push_base_files (g : ReachGraph) (package : string) (overlay_files : gset string) (limit : N)
    (base_files : list string) (files : list string) : list string * bool :=
  match base_files with
  | [] => (files, false)
  | path :: rest =>
      if negb (bool_decide (package_for_file g path = Some package)) || bool_decide (path ∈ overlay_files)
      then push_base_files g package overlay_files limit rest files
      else if (limit <=? lenN files)%N then (files, true)
      else push_base_files g package overlay_files limit rest (files ++ [path])
  end.

Fixpoint files_for_package_bounded (g : ReachGraph) (package : string) (limit : N) :
    list string * bool :=
  let '(Graph t base overlay) := g in
  match overlay with
  | None =>
      match base with
      | Some b => files_for_package_bounded b package limit
      | None =>
          let files := default [] (t.(files_by_package) !! package) in
          (takeN limit files, (N.min (lenN files) limit <? lenN files)%N)
      end
  | Some o =>
      if decide (package ∉ o.(affected_packages)) then
        match base with
        | Some b => files_for_package_bounded b package limit
        | None => ([], false)
        end
      else
        let files := dedup String.eqb (sort_by String.compare
          (fst <$> filter (fun e => e.2 = Some package) (map_to_list o.(ov_package_by_file)))) in
        let overlay_files : gset string := list_to_set files in
        let truncated := (limit <? lenN files)%N in
        let files := takeN limit files in
        match base with
        | Some b =>
            let scan_limit := limit +s N.of_nat (size o.(ov_package_by_file)) in
            let '(base_files, base_truncated) := files_for_package_bounded b package scan_limit in
            let '(files, full) := push_base_files g package overlay_files limit base_files files in
            (sort_by String.compare files, truncated || base_truncated || full)
        | None => (sort_by String.compare files, truncated)
        end
  end.

(** ** The request overlay *)

Definition shift_delta (d : Z) (deltas : gmap string Z) (t : string) : gmap string Z :=
  <[t := (default 0 (deltas !! t) + d)%Z]> deltas.
(** One source's contribution to [direct_deltas]. *)
Definition source_deltas (base : ReachGraph) (overrides : gmap string (list ReachEdge))
    (source : string) (deltas : gmap string Z) : gmap string Z :=
  if is_absolute source then deltas
  else
    let deltas := foldl (shift_delta (-1)) deltas
                    (direct_targets (default [] (edges_for base source))) in
    foldl (shift_delta 1) deltas (direct_targets (default [] (overrides !! source))).

Definition effective_count (base : ReachGraph) (t : string) (d : Z) : N :=
  Z.to_N (Z.max (Z.of_N (direct_external_source_count base t) + d) 0).

(** One Go overlay row: membership, and the packages whose edges become unknown. *)
Definition apply_go_overlay (base : ReachGraph)
    (acc : ReachGraphOverlay * gset string) (row : string * option (string * OpenReason)) :
    ReachGraphOverlay * gset string :=
  let '(o, affected) := acc in
  let '(path, package) := row in
  let affected := match package_for_file base path with
                  | Some old => {[old]} ∪ affected | None => affected end in
  let op := delete path o.(ov_open) in
  match package with
  | Some (key, reason) =>
      (mkOverlay o.(ov_sources) o.(ov_edges) op
         (<[path := Some key]> o.(ov_package_by_file)) o.(affected_packages)
         (<[key := reason]> o.(ov_open_packages)) o.(ov_direct_external_source_counts),
       {[key]} ∪ affected)
  | None =>
      (mkOverlay o.(ov_sources) o.(ov_edges) (<[path := UnresolvedInclude]> op)
         (<[path := None]> o.(ov_package_by_file)) o.(affected_packages)
         o.(ov_open_packages) o.(ov_direct_external_source_counts),
       affected)
  end.

Definition mark_affected (package : string) (o : ReachGraphOverlay) : ReachGraphOverlay :=
  mkOverlay o.(ov_sources) o.(ov_edges) o.(ov_open) o.(ov_package_by_file)
    ({[package]} ∪ o.(affected_packages))
    (<[package := default UnresolvedInclude (o.(ov_open_packages) !! package)]> o.(ov_open_packages))
    o.(ov_direct_external_source_counts).

Definition with_request_overrides (base : ReachGraph) (sources : list string)
    (new_edges : list (string * string * ResolutionKind)) (new_open : list (string * OpenReason))
    (go_overlays : list (string * option (string * OpenReason))) : ReachGraph :=
  let source_set : gset string := list_to_set sources in
  let overrides := normalize_sources sources (push_edges new_edges ∅) in
  let op := insert_open_reasons new_open ∅ in
  let deltas := set_fold (source_deltas base overrides) (∅ : gmap string Z) source_set in
  let counts := map_imap (fun t d => Some (effective_count base t d)) deltas in
  let o := mkOverlay source_set overrides op ∅ ∅ ∅ counts in
  let '(o, affected) := foldl (apply_go_overlay base) (o, ∅ : gset string) go_overlays in
  Graph empty_tables (Some base) (Some (set_fold mark_affected o affected)).

(** ** Direct external evidence *)

Definition any_workspace_directly_includes_external (g : ReachGraph) (t : string) : bool :=
  is_absolute t && (0 <? direct_external_source_count g t)%N.
Definition directly_includes_external (g : ReachGraph) (source t : string) : bool :=
  is_absolute t &&
  match edges_for g source with
  | Some es => existsb (fun e => String.eqb e.(target) t && bool_decide (e.(resolution) = ExternalExact)) es
  | None => false
  end.
Definition directly_included_external_paths_from (g : ReachGraph) (source : string) : gset string :=
  list_to_set (direct_targets (takeN MAX_REACH_NODES (default [] (edges_for g source)))).

(** ** The traversal of the file graph *)

Record Bfs : Type := mkBfs {
  files : gset string;
  heur : gset string;
  is_open : bool;
  reason : option OpenReason;
  queue : list (string * N * bool);
}.

Definition mark_open (cause : OpenReason) (b : Bfs) : Bfs :=
  mkBfs b.(files) b.(heur) true
    (match b.(reason) with None => Some cause | Some r => Some r end) b.(queue).
Definition mark_open_opt (cause : option OpenReason) (b : Bfs) : Bfs :=
  match cause with Some c => mark_open c b | None => b end.
Definition set_queue (q : list (string * N * bool)) (b : Bfs) : Bfs :=
  mkBfs b.(files) b.(heur) b.(is_open) b.(reason) q.
Definition nodes (b : Bfs) : N := N.of_nat (size b.(files) + size b.(heur)).

(** The insertion of one target: whether it is newly known at this strength. *)
Definition insert_target (t : string) (next_is_heuristic : bool) (b : Bfs) : bool * Bfs :=
  if next_is_heuristic then
    if decide (t ∈ b.(files)) then (false, b)
    else (negb (bool_decide (t ∈ b.(heur))),
          mkBfs b.(files) ({[t]} ∪ b.(heur)) b.(is_open) b.(reason) b.(queue))
  else if decide (t ∈ b.(files)) then (false, b)
  else (true, mkBfs ({[t]} ∪ b.(files)) (b.(heur) ∖ {[t]}) b.(is_open) b.(reason) b.(queue)).

(** What happens to one target that fits the node cap. *)
Definition visit_target (g : ReachGraph) (depth : N) (next_is_heuristic : bool) (t : string)
    (b : Bfs) : Bfs :=
  let '(inserted, b1) := insert_target t next_is_heuristic b in
  if (inserted : bool) then
    let b2 := mark_open_opt (open_reason g t) b1 in
    set_queue (b2.(queue) ++ [(t, (depth + 1)%N, next_is_heuristic)]) b2
  else b1.

(** The loop over a node's edges; reaching the node cap leaves the loop. *)
Fixpoint scan_edges (g : ReachGraph) (depth : N) (path_is_heuristic : bool)
    (dsts : list ReachEdge) (b : Bfs) : Bfs :=
  match dsts with
  | [] => b
  | e :: rest =>
      let t := e.(target) in
      let next_is_heuristic := path_is_heuristic || negb (is_strong_resolution e.(resolution)) in
      let is_new := bool_decide (t ∉ b.(files)) && bool_decide (t ∉ b.(heur)) in
      if is_new && (MAX_REACH_NODES <=? nodes b)%N then mark_open NodeLimit b
      else scan_edges g depth path_is_heuristic rest (visit_target g depth next_is_heuristic t b)
  end.

(** The traversal loop. *)
Fixpoint bfs (fuel : nat) (g : ReachGraph) (b : Bfs) : option Bfs :=
  match b.(queue) with
  | [] => Some b
  | (node, depth, path_is_heuristic) :: rest =>
      match fuel with
      | 0 => None
      | S fuel =>
          let b := set_queue rest b in
          if (MAX_REACH_DEPTH <=? depth)%N then bfs fuel g (mark_open DepthLimit b)
          else match edges_for g node with
               | None => bfs fuel g b
               | Some dsts => bfs fuel g (scan_edges g depth path_is_heuristic dsts b)
               end
      end
  end.

Definition bfs_start (g : ReachGraph) (start : string) : Bfs :=
  mark_open_opt (open_reason g start) (mkBfs {[start]} ∅ false None [(start, 0%N, false)]).
Definition bfs_scope (b : Bfs) : ReachScope := mkScope b.(files) b.(heur) b.(is_open) b.(reason).
(** Every node is enqueued at most twice, once per strength. *)
Definition bfs_fuel : nat := N.to_nat (2 * MAX_REACH_NODES).

(** ** The traversal of the Go package graph *)

Record PackageBfs : Type := mkPackageBfs {
  pb : Bfs;
  seen_packages : gset string;
  package_queue : list (string * N * bool);
  scanned_package_edges : N;
}.
Definition on_bfs (f : Bfs -> Bfs) (p : PackageBfs) : PackageBfs :=
  mkPackageBfs (f p.(pb)) p.(seen_packages) p.(package_queue) p.(scanned_package_edges).

Definition insert_package_file (path_is_heuristic : bool) (path : string) (b : Bfs) : Bfs :=
  if path_is_heuristic then
    if decide (path ∈ b.(files)) then b
    else mkBfs b.(files) ({[path]} ∪ b.(heur)) b.(is_open) b.(reason) b.(queue)
  else mkBfs ({[path]} ∪ b.(files)) (b.(heur) ∖ {[path]}) b.(is_open) b.(reason) b.(queue).

Fixpoint scan_package_files (path_is_heuristic : bool) (paths : list string) (b : Bfs) : Bfs :=
  match paths with
  | [] => b
  | path :: rest =>
      if (MAX_REACH_NODES <=? nodes b)%N then mark_open NodeLimit b
      else scan_package_files path_is_heuristic rest (insert_package_file path_is_heuristic path b)
  end.

(** The loop over a package's edges; [true] leaves the whole traversal. *)
Fixpoint scan_package_edges (depth : N) (path_is_heuristic : bool) (es : list PackageReachEdge)
    (p : PackageBfs) : bool * PackageBfs :=
  match es with
  | [] => (false, p)
  | e :: rest =>
      if (MAX_REACH_PACKAGE_EDGES <=? p.(scanned_package_edges))%N then
        (true, on_bfs (mark_open NodeLimit) p)
      else
        let scanned := (p.(scanned_package_edges) + 1)%N in
        let next_is_heuristic := path_is_heuristic || e.(heuristic) in
        if bool_decide (e.(pkg_target) ∉ p.(seen_packages))
           && (MAX_REACH_PACKAGES <=? N.of_nat (size p.(seen_packages)))%N then
          (true, mkPackageBfs (mark_open NodeLimit p.(pb)) p.(seen_packages) p.(package_queue) scanned)
        else if decide (e.(pkg_target) ∈ p.(seen_packages)) then
          scan_package_edges depth path_is_heuristic rest
            (mkPackageBfs p.(pb) p.(seen_packages) p.(package_queue) scanned)
        else
          scan_package_edges depth path_is_heuristic rest
            (mkPackageBfs p.(pb) ({[e.(pkg_target)]} ∪ p.(seen_packages))
               (p.(package_queue) ++ [(e.(pkg_target), (depth + 1)%N, next_is_heuristic)]) scanned)
  end.

Fixpoint package_bfs (fuel : nat) (g : ReachGraph) (p : PackageBfs) : option Bfs :=
  match p.(package_queue) with
  | [] => Some p.(pb)
  | (package, depth, path_is_heuristic) :: rest =>
      match fuel with
      | 0 => None
      | S fuel =>
          let b := mark_open_opt (open_package_reason g package) p.(pb) in
          let '(package_files, truncated) :=
            files_for_package_bounded g package (MAX_REACH_NODES -s nodes b) in
          let b := scan_package_files path_is_heuristic package_files b in
          let p := mkPackageBfs b p.(seen_packages) rest p.(scanned_package_edges) in
          if (truncated : bool) then Some (mark_open NodeLimit b)
          else if (MAX_REACH_DEPTH <=? depth)%N then
            package_bfs fuel g (on_bfs (mark_open DepthLimit) p)
          else
            let outgoing := package_edges_for g package in
            if (MAX_REACH_NODES <=? nodes b)%N
               && match outgoing with Some (_ :: _) => true | _ => false end
            then Some (mark_open NodeLimit b)
            else
              let '(stop, p) :=
                scan_package_edges depth path_is_heuristic (default [] outgoing) p in
              if (stop : bool) then Some p.(pb) else package_bfs fuel g p
      end
  end.

Definition package_bfs_fuel : nat := N.to_nat MAX_REACH_PACKAGES.

Definition compute_package (g : ReachGraph) (start start_package : string) : option ReachScope :=
  let r := open_package_reason g start_package in
  let b := mkBfs ∅ ∅ (match r with Some _ => true | None => false end) r [] in
  b ← package_bfs package_bfs_fuel g
        (mkPackageBfs b {[start_package]} [(start_package, 0%N, false)] 0);
  let fs := if decide ((start ∉ b.(files)) /\ (start ∉ b.(heur))) then {[start]} ∪ b.(files)
            else b.(files) in
  Some (mkScope fs b.(heur) b.(is_open) b.(reason)).

Definition compute (g : ReachGraph) (start : string) : option ReachScope :=
  match package_for_file g start with
  | Some key => compute_package g start key
  | None => bfs_scope <$> bfs bfs_fuel g (bfs_start g start)
  end.

(** [reachable]: the memo table of one graph generation. *)
Definition reachable (g : ReachGraph) (start : string) (cache : gmap string ReachScope) :
    option ReachScope * gmap string ReachScope :=
  match cache !! start with
  | Some hit => (Some hit, cache)
  | None =>
      match compute g start with
      | Some scope => (Some scope, <[start := scope]> cache)
      | None => (None, cache)
      end
  end.

(** ** The traversal's invariant *)

Definition out_edges (g : ReachGraph) (source : string) : list ReachEdge :=
  default [] (edges_for g source).

Section traversal.
Context (g : ReachGraph) (start : string).

(** [walk strong n x]: [x] is [n] include edges away from the start; with [strong]
    all of them are exact resolutions. *)
Inductive walk (strong : bool) : N -> string -> Prop :=
  | walk_start : walk strong 0 start
  | walk_edge n x e :
      walk strong n x -> e ∈ out_edges g x ->
      (strong = true -> is_strong_resolution e.(resolution) = true) ->
      walk strong (n + 1) e.(target).

Lemma walk_weaken strong n x : walk strong n x -> walk false n x.
Proof. induction 1; [constructor|]. by econstructor. Qed.

(** Every target of [x] is recorded, at the strength of the path through [x]. *)
Definition expanded (b : Bfs) (x : string) (heuristic_path : bool) : Prop :=
  forall e, e ∈ out_edges g x ->
    if heuristic_path || negb (is_strong_resolution e.(resolution))
    then e.(target) ∈ b.(files) ∪ b.(heur) else e.(target) ∈ b.(files).

Record bfs_inv (b : Bfs) (current : option (string * bool)) : Prop := {
  inv_start : start ∈ b.(files);
  inv_disjoint : b.(files) ## b.(heur);
  inv_nodes : (nodes b <= MAX_REACH_NODES)%N;
  inv_files x : x ∈ b.(files) -> exists n, (n <= MAX_REACH_DEPTH)%N /\ walk true n x;
  inv_heur x : x ∈ b.(heur) -> exists n, (n <= MAX_REACH_DEPTH)%N /\ walk false n x;
  inv_queue x d h : (x, d, h) ∈ b.(queue) -> (d <= MAX_REACH_DEPTH)%N /\ walk (negb h) d x;
  inv_reason : b.(is_open) = true <-> is_Some b.(reason);
  inv_closed x : b.(is_open) = false -> x ∈ b.(files) ∪ b.(heur) -> open_reason g x = None;
  inv_done_files x : b.(is_open) = false -> x ∈ b.(files) ->
    (exists d, (x, d, false) ∈ b.(queue)) \/ current = Some (x, false) \/ expanded b x false;
  inv_done_heur x : b.(is_open) = false -> x ∈ b.(heur) ->
    (exists d, (x, d, true) ∈ b.(queue)) \/ current = Some (x, true) \/ expanded b x true;
}.

(** [b'] knows at least what [b] knows. *)
Definition grows (b b' : Bfs) : Prop :=
  b.(files) ⊆ b'.(files) /\ b.(files) ∪ b.(heur) ⊆ b'.(files) ∪ b'.(heur).
#[local] Instance grows_preorder : PreOrder grows.
Proof. split; [by split|]. intros b1 b2 b3 [] []. split; by etrans. Qed.

Lemma expanded_grows b b' x h : grows b b' -> expanded b x h -> expanded b' x h.
Proof.
  intros [H1 H2] He e Hin. specialize (He e Hin). destruct (h || _); [by apply H2|by apply H1].
Qed.

Lemma mark_open_inv c b cur : bfs_inv b cur -> bfs_inv (mark_open c b) cur.
Proof.
  intros []. split; simpl; try done. split; [|done]. intros _. by destruct (reason b).
Qed.
Lemma mark_open_any_inv c b cur cur' : bfs_inv b cur -> bfs_inv (mark_open c b) cur'.
Proof.
  intros []. split; simpl; try done. split; [|done]. intros _. by destruct (reason b).
Qed.

Lemma nodes_le_new (A B A' B' : gset string) t :
  A ## B -> t ∉ A -> t ∉ B -> (N.of_nat (size A + size B) < MAX_REACH_NODES)%N ->
  (A' = {[t]} ∪ A /\ B' = B ∖ {[t]} \/ A' = A /\ B' = {[t]} ∪ B) ->
  (N.of_nat (size A' + size B') <= MAX_REACH_NODES)%N.
Proof.
  intros Hd HA HB Hn [[-> ->]|[-> ->]].
  - rewrite size_union by set_solver. rewrite size_singleton.
    assert (B ∖ {[t]} = B) as -> by set_solver. lia.
  - rewrite (size_union {[t]} B) by set_solver. rewrite size_singleton. lia.
Qed.

Lemma nodes_promote (A B : gset string) t :
  A ## B -> t ∈ B -> (size ({[t]} ∪ A) + size (B ∖ {[t]}) = size A + size B)%nat.
Proof.
  intros Hd Ht. rewrite size_union by set_solver. rewrite size_singleton.
  assert (size B = size (B ∖ {[t]}) + 1)%nat; [|lia].
  rewrite <- (size_singleton (C := gset string) t), <- size_union by set_solver. f_equal.
  apply set_eq. intros y. destruct (decide (y = t)); set_solver.
Qed.

(** The two sets after a visit. *)
Lemma visit_target_sets depth h t b :
  (visit_target g depth h t b).(files) = (if h then b.(files) else {[t]} ∪ b.(files)) /\
  ((visit_target g depth h t b).(heur) =
    if h then (if decide (t ∈ b.(files)) then b.(heur) else {[t]} ∪ b.(heur))
    else (if decide (t ∈ b.(files)) then b.(heur) else b.(heur) ∖ {[t]})).
Proof.
  unfold visit_target, insert_target. destruct h.
  - destruct (decide (t ∈ files b)); [done|]. case_bool_decide; simpl; [done|].
    unfold mark_open_opt. by destruct (open_reason g t).
  - destruct (decide (t ∈ files b)); simpl; [split; [set_solver|done]|].
    unfold mark_open_opt. by destruct (open_reason g t).
Qed.

Lemma visit_target_grows depth h t b :
  grows b (visit_target g depth h t b) /\
  if h then t ∈ (visit_target g depth h t b).(files) ∪ (visit_target g depth h t b).(heur)
  else t ∈ (visit_target g depth h t b).(files).
Proof.
  unfold grows. destruct (visit_target_sets depth h t b) as [-> ->].
  destruct h; (destruct (decide (t ∈ files b)); [set_solver|]).
  - set_solver.
  - split; [|set_solver]. split; [set_solver|]. intros y Hy. destruct (decide (y = t)); set_solver.
Qed.

(** A visit either changes nothing or inserts the target and enqueues it. *)
Lemma visit_target_cases depth h t b :
  (visit_target g depth h t b = b /\ (if h then t ∈ b.(files) ∪ b.(heur) else t ∈ b.(files))) \/
  ((t ∉ b.(files)) /\ (h = true -> t ∉ b.(heur)) /\
   visit_target g depth h t b =
     set_queue (b.(queue) ++ [(t, (depth + 1)%N, h)])
       (mark_open_opt (open_reason g t)
          (mkBfs (visit_target g depth h t b).(files) (visit_target g depth h t b).(heur)
             b.(is_open) b.(reason) b.(queue)))).
Proof.
  unfold visit_target, insert_target. destruct h.
  - destruct (decide (t ∈ files b)); [left; split; [done|set_solver]|].
    case_bool_decide; simpl.
    + left. split; [|set_solver]. destruct b as [fs hs o r q]; simpl in *. f_equal. set_solver.
    + right. split_and!; [done|done|]. unfold mark_open_opt. by destruct (open_reason g t).
  - destruct (decide (t ∈ files b)); [by left|]. right. split_and!; [done|done|].
    unfold mark_open_opt. by destruct (open_reason g t).
Qed.

Lemma visit_target_inv depth h t b cur :
  bfs_inv b cur -> walk (negb h) (depth + 1) t -> (depth + 1 <= MAX_REACH_DEPTH)%N ->
  ((t ∉ b.(files)) -> (t ∉ b.(heur)) -> (nodes b < MAX_REACH_NODES)%N) ->
  bfs_inv (visit_target g depth h t b) cur.
Proof.
  intros Hi Hw Hd Hn. destruct (visit_target_grows depth h t b) as [Hg _].
  destruct (visit_target_cases depth h t b) as [[-> _]|(Hf & Hh & E)]; [done|].
  destruct (visit_target_sets depth h t b) as [Ef Eh]. rewrite !decide_False in Eh by done.
  set (b' := visit_target g depth h t b) in *.
  assert (b'.(queue) = b.(queue) ++ [(t, (depth + 1)%N, h)]) as Eq by (rewrite E; done).
  assert (b'.(is_open) = false -> b.(is_open) = false /\ open_reason g t = None) as Eo
    by (rewrite E; simpl; unfold mark_open_opt; by destruct (open_reason g t)).
  destruct Hi as [Hstart Hdis Hnodes Hfs Hhs Hq Hr Hc Hdf Hdh]. split.
  - rewrite Ef. destruct h; set_solver +Hstart.
  - rewrite Ef, Eh. clear -Hdis Hf; destruct h; set_solver.
  - unfold nodes. rewrite Ef, Eh. destruct (decide (t ∈ heur b)) as [Ht|Ht].
    + destruct h; [by destruct Hh|]. rewrite nodes_promote by done. done.
    + apply (nodes_le_new (files b) (heur b) _ _ t); [done..|by apply Hn|]. destruct h; auto.
  - intros x Hx. rewrite Ef in Hx. destruct h; [by apply Hfs|].
    apply elem_of_union in Hx as [->%elem_of_singleton|Hx]; [by exists (depth + 1)%N|by apply Hfs].
  - intros x Hx. rewrite Eh in Hx. destruct h; [|apply Hhs; set_solver +Hx].
    apply elem_of_union in Hx as [->%elem_of_singleton|Hx]; [by exists (depth + 1)%N|by apply Hhs].
  - intros x d k Hx. rewrite Eq in Hx. apply elem_of_app in Hx as [Hx|Hx]; [by apply Hq|].
    apply list_elem_of_singleton in Hx. by simplify_eq.
  - rewrite E. simpl. unfold mark_open_opt. destruct (open_reason g t); [|done]. simpl.
    split; [|done]. intros _. by destruct (reason b).
  - intros x [Ho Ht]%Eo Hx. destruct (decide (x = t)) as [->|Hne]; [done|].
    apply Hc; [done|]. rewrite Ef, Eh in Hx. destruct h; set_solver +Hx Hne.
  - intros x [Ho Ht]%Eo Hx. rewrite Eq, Ef in *. setoid_rewrite elem_of_app.
    destruct (decide (x ∈ files b)) as [Hxf|Hxf].
    + destruct (Hdf x Ho Hxf) as [[d ?]|[?|He]]; [left; exists d; by left|by right; left|].
      right; right. by eapply expanded_grows.
    + destruct h; [done|]. assert (x = t) as -> by set_solver +Hx Hxf.
      left. exists (depth + 1)%N. right. by left.
  - intros x [Ho Ht]%Eo Hx. rewrite Eq, Eh in *. setoid_rewrite elem_of_app.
    destruct (decide (x ∈ heur b)) as [Hxf|Hxf].
    + destruct (Hdh x Ho Hxf) as [[d ?]|[?|He]]; [left; exists d; by left|by right; left|].
      right; right. by eapply expanded_grows.
    + destruct h; [|set_solver +Hx Hxf]. assert (x = t) as -> by set_solver +Hx Hxf.
      left. exists (depth + 1)%N. right. by left.
Qed.

(** The work left: every insertion is paid for by the sets. *)
Lemma visit_target_measure depth h t b :
  b.(files) ## b.(heur) ->
  (length (visit_target g depth h t b).(queue) + 2 * size b.(files) + size b.(heur) <=
   length b.(queue) + 2 * size (visit_target g depth h t b).(files)
     + size (visit_target g depth h t b).(heur))%nat.
Proof.
  intros Hd. destruct (visit_target_cases depth h t b) as [[-> _]|(Hf & Hh & E)]; [lia|].
  destruct (visit_target_sets depth h t b) as [-> ->]. rewrite !decide_False by done.
  rewrite E. simpl. rewrite length_app. simpl. destruct h.
  - rewrite (size_union {[t]} (heur b)) by (specialize (Hh eq_refl); set_solver).
    rewrite size_singleton. lia.
  - destruct (decide (t ∈ heur b)) as [Ht|Ht].
    + pose proof (nodes_promote _ _ _ Hd Ht) as Hs. revert Hs.
      rewrite (size_union {[t]} (files b)) by set_solver. rewrite size_singleton. lia.
    + assert (heur b ∖ {[t]} = heur b) as -> by set_solver.
      rewrite (size_union {[t]} (files b)) by set_solver. rewrite size_singleton. lia.
Qed.

Lemma scan_edges_inv depth h x dsts : forall b cur,
  bfs_inv b cur -> walk (negb h) depth x -> (depth + 1 <= MAX_REACH_DEPTH)%N ->
  (forall e, e ∈ dsts -> e ∈ out_edges g x) ->
  bfs_inv (scan_edges g depth h dsts b) cur /\
  grows b (scan_edges g depth h dsts b) /\
  (length (scan_edges g depth h dsts b).(queue) + 2 * size b.(files) + size b.(heur) <=
   length b.(queue) + 2 * size (scan_edges g depth h dsts b).(files)
     + size (scan_edges g depth h dsts b).(heur))%nat /\
  ((scan_edges g depth h dsts b).(is_open) = false -> forall e, e ∈ dsts ->
     if h || negb (is_strong_resolution e.(resolution))
     then e.(target) ∈ (scan_edges g depth h dsts b).(files) ∪ (scan_edges g depth h dsts b).(heur)
     else e.(target) ∈ (scan_edges g depth h dsts b).(files)).
Proof.
  induction dsts as [|e dsts IH]; intros b cur Hi Hw Hd Hsub; cbn [scan_edges].
  { split_and!; [done|done|lia|]. intros _ e []%elem_of_nil. }
  destruct (bool_decide _ && bool_decide _ && _) eqn:Hcap.
  { split_and!; [by apply mark_open_inv|done|simpl; lia|done]. }
  set (nh := h || negb (is_strong_resolution (resolution e))) in *.
  assert (walk (negb nh) (depth + 1) (target e)) as Hwt.
  { assert (walk (negb nh) depth x) as Hwx.
    { unfold nh. destruct h; simpl in *; [done|].
      destruct (is_strong_resolution _); simpl; [done|by eapply walk_weaken]. }
    econstructor; [exact Hwx|apply Hsub; by left|]. unfold nh.
    by destruct h, (is_strong_resolution (resolution e)). }
  assert (bfs_inv (visit_target g depth nh (target e) b) cur) as Hv.
  { apply visit_target_inv; [done..|]. intros H1 H2. apply N.nle_gt. intros Hle%N.leb_le.
    rewrite Hle, !bool_decide_eq_true_2 in Hcap; done. }
  destruct (visit_target_grows depth nh (target e) b) as [Hg Ht].
  pose proof (visit_target_measure depth nh (target e) b (inv_disjoint _ _ Hi)) as Hm.
  destruct (IH _ cur Hv Hw Hd) as (H1 & H2 & H3 & H4); [intros; apply Hsub; by right|].
  split_and!; [done|by etrans|lia|].
  intros Ho e' [->|Hin]%elem_of_cons; [|by apply H4]. fold nh.
  destruct H2 as [G1 G2]. destruct nh; [by apply G2|by apply G1].
Qed.

(** Taking a node off the queue makes it the current one. *)
Lemma pop_inv b x d h rest :
  bfs_inv b None -> b.(queue) = (x, d, h) :: rest -> bfs_inv (set_queue rest b) (Some (x, h)).
Proof.
  intros [] Hq. split; simpl; try done.
  - intros y k h' Hin. apply inv_queue0. rewrite Hq. by right.
  - intros y Ho Hy. destruct (inv_done_files0 y Ho Hy) as [[k Hk]|[?|?]]; [|done|by right; right].
    rewrite Hq in Hk. apply elem_of_cons in Hk as [?|?]; [simplify_eq; by right; left|by left; exists k].
  - intros y Ho Hy. destruct (inv_done_heur0 y Ho Hy) as [[k Hk]|[?|?]]; [|done|by right; right].
    rewrite Hq in Hk. apply elem_of_cons in Hk as [?|?]; [simplify_eq; by right; left|by left; exists k].
Qed.
(** A node whose edges are all recorded is done. *)
Lemma close_inv b x h :
  bfs_inv b (Some (x, h)) -> (b.(is_open) = false -> expanded b x h) -> bfs_inv b None.
Proof.
  intros [] He. split; try done.
  - intros y Ho Hy. destruct (inv_done_files0 y Ho Hy) as [?|[?|?]]; [by left|simplify_eq|by right; right].
    right; right. by apply He.
  - intros y Ho Hy. destruct (inv_done_heur0 y Ho Hy) as [?|[?|?]]; [by left|simplify_eq|by right; right].
    right; right. by apply He.
Qed.

Lemma bfs_total fuel : forall b,
  bfs_inv b None ->
  (length b.(queue) + 2 * N.to_nat MAX_REACH_NODES <=
     fuel + 2 * size b.(files) + size b.(heur))%nat ->
  exists b', bfs fuel g b = Some b' /\ bfs_inv b' None /\ b'.(queue) = [].
Proof.
  assert (forall b, bfs_inv b None -> (2 * size b.(files) + size b.(heur)
            <= 2 * N.to_nat MAX_REACH_NODES)%nat) as Hcap.
  { intros b Hi. pose proof (inv_nodes _ _ Hi) as Hn. unfold nodes in Hn. lia. }
  induction fuel as [|fuel IH]; intros b Hi Hm;
    (destruct (queue b) as [|[[x d] h] rest] eqn:Hq;
      [exists b; split_and!; [by cbn; rewrite Hq|done|done]|]).
  { pose proof (Hcap b Hi). cbn [length] in Hm. lia. }
  cbn [bfs]. rewrite Hq. cbn [length] in Hm.
  pose proof (pop_inv b x d h rest Hi Hq) as Hp.
  destruct (inv_queue _ _ Hi x d h) as [Hd Hw]; [rewrite Hq; by left|].
  destruct (N.leb_spec MAX_REACH_DEPTH d) as [Hle|Hlt].
  { apply IH; [by eapply mark_open_any_inv|cbn [mark_open set_queue queue files heur]; lia]. }
  destruct (edges_for g x) as [dsts|] eqn:Hdsts.
  - assert (out_edges g x = dsts) as Ho by (unfold out_edges; by rewrite Hdsts).
    destruct (scan_edges_inv d h x dsts (set_queue rest b) (Some (x, h)) Hp Hw)
      as (H1 & _ & H3 & H4); [lia|by intros; rewrite Ho|].
    apply IH; [|cbn [set_queue queue files heur] in H3; lia]. eapply close_inv; [exact H1|].
    intros Hopen e He. rewrite Ho in He. by apply (H4 Hopen e).
  - apply IH; [|cbn [set_queue queue files heur]; lia]. eapply close_inv; [exact Hp|].
    intros _ e. unfold out_edges. rewrite Hdsts. by intros []%elem_of_nil.
Qed.

Lemma bfs_start_inv : bfs_inv (bfs_start g start) None.
Proof.
  set (b := bfs_start g start).
  assert (b.(files) = {[start]} /\ b.(heur) = ∅ /\ b.(queue) = [(start, 0%N, false)] /\
          (b.(is_open) = true <-> is_Some b.(reason)) /\
          (b.(is_open) = false -> open_reason g start = None)) as (Ef & Eh & Eq & Er & Ec).
  { unfold b, bfs_start, mark_open_opt. destruct (open_reason g start) as [c|]; simpl.
    - split_and!; [done..| |done]. by split.
    - split_and!; [done..| |done]. split; [done|by intros []]. }
  assert (0 <= MAX_REACH_DEPTH)%N as H0 by (vm_compute; discriminate).
  assert (walk true 0 start) as Hw by constructor.
  split; rewrite ?Ef, ?Eh, ?Eq; try done.
  - by apply elem_of_singleton_2.
  - unfold nodes. rewrite Ef, Eh, size_singleton, size_empty. vm_compute. discriminate.
  - intros x ->%elem_of_singleton. by exists 0%N.
  - intros x d h Hx%list_elem_of_singleton. by simplify_eq.
  - intros x Ho Hx. assert (x = start) as -> by set_solver +Hx. by apply Ec.
  - intros x _ ->%elem_of_singleton. left. exists 0%N. by left.
Qed.

(** The file traversal always finishes, in a state that satisfies the invariant. *)
Lemma bfs_result :
  exists b, bfs bfs_fuel g (bfs_start g start) = Some b /\ bfs_inv b None /\ b.(queue) = [].
Proof.
  apply bfs_total; [apply bfs_start_inv|].
  unfold bfs_start, mark_open_opt, bfs_fuel.
  destruct (open_reason g start); cbn [queue files heur mark_open length];
    rewrite size_singleton, size_empty; lia.
Qed.

(** With nothing left in the queue, a closed state contains every walk. *)
Lemma closed_complete b n x strong :
  bfs_inv b None -> b.(queue) = [] -> b.(is_open) = false -> walk strong n x ->
  if strong then x ∈ b.(files) else x ∈ b.(files) ∪ b.(heur).
Proof.
  intros Hi Hq Ho Hw. pose proof (inv_start _ _ Hi).
  assert (forall y, y ∈ b.(files) -> expanded b y false) as Hf.
  { intros y Hy. destruct (inv_done_files _ _ Hi y Ho Hy) as [[d Hd]|[?|?]]; [|done|done].
    rewrite Hq in Hd. by apply elem_of_nil in Hd. }
  assert (forall y, y ∈ b.(heur) -> expanded b y true) as Hh.
  { intros y Hy. destruct (inv_done_heur _ _ Hi y Ho Hy) as [[d Hd]|[?|?]]; [|done|done].
    rewrite Hq in Hd. by apply elem_of_nil in Hd. }
  induction Hw as [|n y e Hw IH Hin Hs]; [destruct strong; set_solver|].
  destruct strong.
  - specialize (Hf y IH e Hin). rewrite (Hs eq_refl) in Hf. done.
  - apply elem_of_union in IH as [Hy|Hy]; [|by apply (Hh y Hy e Hin)].
    specialize (Hf y Hy e Hin). destruct (is_strong_resolution _); simpl in Hf; [set_solver|done].
Qed.

End traversal.

(** ** The package traversal *)

(** Bounded and disjoint, the part of the invariant both traversals share. *)
Record scope_bounded (b : Bfs) : Prop := {
  sb_nodes : (nodes b <= MAX_REACH_NODES)%N;
  sb_disjoint : b.(files) ## b.(heur);
}.

Lemma mark_open_bounded c b : scope_bounded b -> scope_bounded (mark_open c b).
Proof. by intros []. Qed.
Lemma mark_open_opt_bounded c b : scope_bounded b -> scope_bounded (mark_open_opt c b).
Proof. by destruct c; [apply mark_open_bounded|]. Qed.

Lemma insert_package_file_bounded h path b :
  scope_bounded b -> (nodes b < MAX_REACH_NODES)%N -> scope_bounded (insert_package_file h path b).
Proof.
  intros [Hn Hd] Hlt. unfold insert_package_file, nodes in *.
  destruct (decide (path ∈ files b)) as [Hf|Hf].
  - destruct h; [done|].
    split; [unfold nodes; simpl|simpl; set_solver +Hd].
    assert ({[path]} ∪ files b = files b) as -> by set_solver +Hf.
    assert (heur b ∖ {[path]} = heur b) as -> by set_solver +Hf Hd. lia.
  - destruct (decide (path ∈ heur b)) as [Hh|Hh].
    + destruct h; split; unfold nodes; simpl; try set_solver +Hd Hf.
      * assert ({[path]} ∪ heur b = heur b) as -> by set_solver +Hh. lia.
      * rewrite nodes_promote by done. lia.
    + destruct h; (split; [unfold nodes; simpl; eapply (nodes_le_new (files b) (heur b)); eauto
                          |simpl; set_solver +Hd Hf Hh]).
Qed.

Lemma scan_package_files_bounded h paths : forall b,
  scope_bounded b -> scope_bounded (scan_package_files h paths b).
Proof.
  induction paths as [|path paths IH]; intros b Hb; cbn [scan_package_files]; [done|].
  destruct (N.leb_spec MAX_REACH_NODES (nodes b)); [by apply mark_open_bounded|].
  by apply IH, insert_package_file_bounded.
Qed.

Record package_inv (p : PackageBfs) : Prop := {
  pi_bounded : scope_bounded p.(pb);
  pi_seen : (N.of_nat (size p.(seen_packages)) <= MAX_REACH_PACKAGES)%N;
}.

Lemma scan_package_edges_inv depth h es : forall p,
  package_inv p ->
  package_inv (scan_package_edges depth h es p).2 /\
  (length (scan_package_edges depth h es p).2.(package_queue) + size p.(seen_packages)
   <= length p.(package_queue) + size (scan_package_edges depth h es p).2.(seen_packages))%nat.
Proof.
  induction es as [|e es IH]; intros p [Hb Hs]; cbn [scan_package_edges]; [by split|].
  destruct (N.leb_spec MAX_REACH_PACKAGE_EDGES (scanned_package_edges p)).
  { split; [|simpl; lia]. split; [by apply mark_open_bounded|done]. }
  destruct (bool_decide_reflect (pkg_target e ∉ seen_packages p)) as [Hn|Hn]; simpl.
  - destruct (N.leb_spec MAX_REACH_PACKAGES (N.of_nat (size (seen_packages p)))) as [Hle|Hlt].
    { split; [|simpl; lia]. split; [by apply mark_open_bounded|done]. }
    rewrite decide_False by done.
    assert (size ({[pkg_target e]} ∪ seen_packages p) = S (size (seen_packages p))) as E
      by (rewrite size_union by set_solver +Hn; by rewrite size_singleton).
    destruct (IH (mkPackageBfs (pb p) ({[pkg_target e]} ∪ seen_packages p)
      (package_queue p ++ [(pkg_target e, (depth + 1)%N, h || heuristic e)])
      (scanned_package_edges p + 1))) as [H1 H2].
    { split; [done|]. simpl. rewrite E. lia. }
    split; [exact H1|]. revert H2. cbn [seen_packages package_queue]. rewrite E, length_app.
    simpl. lia.
  - rewrite decide_True by (by apply dec_stable).
    by apply (IH (mkPackageBfs (pb p) (seen_packages p) (package_queue p) (scanned_package_edges p + 1))).
Qed.

Lemma package_bfs_total g fuel : forall p,
  package_inv p ->
  (length p.(package_queue) + N.to_nat MAX_REACH_PACKAGES <= fuel + size p.(seen_packages))%nat ->
  exists b, package_bfs fuel g p = Some b /\ scope_bounded b.
Proof.
  induction fuel as [|fuel IH]; intros p Hp Hm;
    (destruct (package_queue p) as [|[[x d] h] rest] eqn:Hq;
      [eexists; split; [by cbn; rewrite Hq|apply Hp]|]).
  { pose proof (pi_seen _ Hp). cbn [length] in Hm. lia. }
  cbn [package_bfs]. rewrite Hq. cbn [length] in Hm.
  destruct (files_for_package_bounded g x _) as [fs truncated].
  set (b := scan_package_files h fs _).
  assert (scope_bounded b) as Hb
    by (apply scan_package_files_bounded, mark_open_opt_bounded, Hp).
  destruct truncated; [eexists; split; [done|by apply mark_open_bounded]|].
  destruct (N.leb_spec MAX_REACH_DEPTH d).
  { apply IH; [|cbn [on_bfs package_queue seen_packages]; lia].
    split; [by apply mark_open_bounded|apply Hp]. }
  destruct (_ && _); [eexists; split; [done|by apply mark_open_bounded]|].
  destruct (scan_package_edges_inv d h (default [] (package_edges_for g x))
    (mkPackageBfs b (seen_packages p) rest (scanned_package_edges p))) as [H1 H2].
  { split; [done|apply Hp]. }
  destruct (scan_package_edges _ _ _ _) as [stop p']. cbn [snd package_queue seen_packages] in *.
  destruct stop; [eexists; split; [done|apply H1]|]. apply IH; [done|lia].
Qed.

Lemma compute_package_total g start key :
  exists s, compute_package g start key = Some s /\
    (N.of_nat (size s.(scope_files) + size s.(heuristic_files)) <= MAX_REACH_NODES + 1)%N /\
    s.(scope_files) ## s.(heuristic_files) /\
    start ∈ s.(scope_files) ∪ s.(heuristic_files).
Proof.
  unfold compute_package.
  destruct (package_bfs_total g package_bfs_fuel
    (mkPackageBfs (mkBfs ∅ ∅ (match open_package_reason g key with Some _ => true | None => false end)
       (open_package_reason g key) []) {[key]} [(key, 0%N, false)] 0)) as (b & E & Hn & Hd).
  - split; [split; [vm_compute; discriminate|apply disjoint_empty_r]|].
    cbn [seen_packages]. rewrite size_singleton. vm_compute. discriminate.
  - cbn [package_queue seen_packages length]. rewrite size_singleton. unfold package_bfs_fuel. lia.
  - rewrite E; simpl. eexists. split; [done|]. simpl. unfold nodes in Hn.
    destruct (decide ((start ∉ files b) /\ (start ∉ heur b))) as [[Hf Hh]|Hin].
    + rewrite size_union by set_solver +Hf. rewrite size_singleton.
      split_and!; [lia|set_solver +Hd Hh|set_solver +].
    + split_and!; [lia|done|]. destruct (decide (start ∈ files b)); [by apply elem_of_union_l|].
      destruct (decide (start ∈ heur b)); [by apply elem_of_union_r|]. by destruct Hin.
Qed.

Lemma compute_total g start : is_Some (compute g start).
Proof.
  unfold compute. destruct (package_for_file g start) as [key|].
  - destruct (compute_package_total g start key) as (s & -> & _). by eexists.
  - destruct (bfs_result g start) as (b & -> & _). by eexists.
Qed.

(** ** Theorems about reachability *)

(** C20 [compute] returns a scope for every graph, overlay and start file: the fuel of
    neither traversal runs out, cycles included. *)
Theorem reach_terminates g start : is_Some (compute g start).
Proof. apply compute_total. Qed.

(** A scope never claims too much: every file listed as reachable is connected to
    the start by a chain of at most [MAX_REACH_DEPTH] exact include edges, every
    heuristic file by a chain of include edges, no file is in both sets, the start is
    reachable, the node cap is kept, and a reason is given exactly for an open scope. *)
Theorem reach_sound g start s :
  package_for_file g start = None -> compute g start = Some s ->
  (forall x, x ∈ s.(scope_files) -> exists n, (n <= MAX_REACH_DEPTH)%N /\ walk g start true n x) /\
  (forall x, x ∈ s.(heuristic_files) -> exists n, (n <= MAX_REACH_DEPTH)%N /\ walk g start false n x) /\
  s.(scope_files) ## s.(heuristic_files) /\ start ∈ s.(scope_files) /\
  (N.of_nat (size s.(scope_files) + size s.(heuristic_files)) <= MAX_REACH_NODES)%N /\
  (s.(scope_open) = true <-> is_Some s.(scope_reason)).
Proof.
  intros Hp. unfold compute. rewrite Hp. destruct (bfs_result g start) as (b & -> & Hi & _).
  intros [= <-]. destruct Hi. by split_and!.
Qed.

(** A closed scope is exact: its two sets are the files connected by exact edges and the
    further connected ones. *)
Lemma closed_scope_exact g start s :
  package_for_file g start = None -> compute g start = Some s -> s.(scope_open) = false ->
  (forall x, x ∈ s.(scope_files) <-> exists n, walk g start true n x) /\
  (forall x, x ∈ s.(scope_files) ∪ s.(heuristic_files) <-> exists n, walk g start false n x) /\
  (forall x, x ∈ s.(scope_files) ∪ s.(heuristic_files) -> open_reason g x = None) /\
  s.(scope_files) ## s.(heuristic_files).
Proof.
  intros Hp. unfold compute. rewrite Hp. destruct (bfs_result g start) as (b & -> & Hi & Hq).
  intros [= <-] Ho. simpl in *. split_and!.
  - intros x. split; [|intros [n Hw]; exact (closed_complete g start b n x true Hi Hq Ho Hw)].
    intros (n & _ & Hw)%(inv_files _ _ _ _ Hi). by exists n.
  - intros x. split; [|intros [n Hw]; exact (closed_complete g start b n x false Hi Hq Ho Hw)].
    intros [(n & _ & Hw)%(inv_files _ _ _ _ Hi)|(n & _ & Hw)%(inv_heur _ _ _ _ Hi)]%elem_of_union.
    + exists n. by eapply walk_weaken.
    + by exists n.
  - intros x. by apply (inv_closed _ _ _ _ Hi).
  - by destruct Hi.
Qed.

(** C7 A closed scope is exact: it lists precisely the files connected to the start by
    exact include edges (of any length) as reachable, together with the heuristic files
    precisely the files connected by include edges at all, and none of them has an
    unresolved or ambiguous include. *)
Theorem reach_exact_when_closed g start s :
  package_for_file g start = None -> compute g start = Some s -> s.(scope_open) = false ->
  (forall x, x ∈ s.(scope_files) <-> exists n, walk g start true n x) /\
  (forall x, x ∈ s.(scope_files) ∪ s.(heuristic_files) <-> exists n, walk g start false n x) /\
  (forall x, x ∈ s.(scope_files) ∪ s.(heuristic_files) -> open_reason g x = None).
Proof.
  intros Hp Hc Ho. by destruct (closed_scope_exact g start s Hp Hc Ho) as (? & ? & ? & _).
Qed.

(** The Go package scope keeps its bounds: at most one file more than the node cap
    (the start itself), disjoint sets, and the start always listed. *)
Theorem package_scope_bounded g start s :
  is_Some (package_for_file g start) -> compute g start = Some s ->
  (N.of_nat (size s.(scope_files) + size s.(heuristic_files)) <= MAX_REACH_NODES + 1)%N /\
  s.(scope_files) ## s.(heuristic_files) /\ start ∈ s.(scope_files) ∪ s.(heuristic_files).
Proof.
  intros [key Hk]. unfold compute. rewrite Hk.
  destruct (compute_package_total g start key) as (s' & -> & H). by intros [= <-].
Qed.

(** ** The request overlay against a materialised refresh *)

(** Everything the traversals ask a graph. *)
Record same_answers (g1 g2 : ReachGraph) : Prop := {
  sa_edges s : out_edges g1 s = out_edges g2 s;
  sa_open s : open_reason g1 s = open_reason g2 s;
  sa_package s : package_for_file g1 s = package_for_file g2 s;
  sa_files p n : files_for_package_bounded g1 p n = files_for_package_bounded g2 p n;
  sa_package_edges p : package_edges_for g1 p = package_edges_for g2 p;
  sa_open_package p : open_package_reason g1 p = open_package_reason g2 p;
}.

Lemma scan_edges_same g1 g2 (H : same_answers g1 g2) depth h dsts : forall b,
  scan_edges g1 depth h dsts b = scan_edges g2 depth h dsts b.
Proof.
  induction dsts as [|e dsts IH]; intros b; cbn [scan_edges]; [done|].
  unfold visit_target. rewrite (sa_open _ _ H). by destruct (_ && _ && _).
Qed.
Lemma bfs_unfold_edges fuel g node depth h b :
  match edges_for g node with
  | None => bfs fuel g b
  | Some dsts => bfs fuel g (scan_edges g depth h dsts b)
  end = bfs fuel g (scan_edges g depth h (out_edges g node) b).
Proof. unfold out_edges. by destruct (edges_for g node). Qed.
Lemma bfs_same g1 g2 (H : same_answers g1 g2) fuel : forall b, bfs fuel g1 b = bfs fuel g2 b.
Proof.
  induction fuel as [|fuel IH]; intros b; cbn [bfs]; [done|].
  destruct (queue b) as [|[[x d] h] rest]; [done|]. destruct (N.leb _ d); [apply IH|].
  rewrite !bfs_unfold_edges, (sa_edges _ _ H), (scan_edges_same g1 g2 H). apply IH.
Qed.
Lemma package_bfs_same g1 g2 (H : same_answers g1 g2) fuel : forall p,
  package_bfs fuel g1 p = package_bfs fuel g2 p.
Proof.
  induction fuel as [|fuel IH]; intros p; cbn [package_bfs]; [done|].
  destruct (package_queue p) as [|[[x d] h] rest]; [done|].
  rewrite (sa_open_package _ _ H), (sa_files _ _ H), (sa_package_edges _ _ H).
  destruct (files_for_package_bounded g2 x _) as [fs []]; [done|].
  destruct (N.leb _ d); [apply IH|]. destruct (_ && _); [done|].
  destruct (scan_package_edges _ _ _ _) as [[] ?]; [done|]. apply IH.
Qed.
Lemma compute_same g1 g2 start : same_answers g1 g2 -> compute g1 start = compute g2 start.
Proof.
  intros H. unfold compute, compute_package, bfs_start. rewrite (sa_package _ _ H), (sa_open _ _ H).
  destruct (package_for_file g2 start) as [key|].
  - by rewrite (sa_open_package _ _ H), (package_bfs_same g1 g2 H).
  - by rewrite (bfs_same g1 g2 H).
Qed.

(** Pointwise behaviour of the table updates. *)
Lemma remove_sources_lookup {A} (S : list string) (m : gmap string A) s :
  remove_sources S m !! s = if decide (s ∈ S) then None else m !! s.
Proof.
  revert m. induction S as [|a S IH]; intros m; simpl; [done|]. rewrite IH.
  destruct (decide (s ∈ S)) as [Hin|Hin]; [by rewrite decide_True by (by right)|].
  destruct (decide (s = a)) as [->|Hne].
  - rewrite decide_True by (by left). by rewrite lookup_delete_eq.
  - rewrite lookup_delete_ne by done. by rewrite decide_False by (by rewrite elem_of_cons; intros []).
Qed.

Lemma push_edges_ext E (m1 m2 : gmap string (list ReachEdge)) s :
  m1 !! s = m2 !! s -> push_edges E m1 !! s = push_edges E m2 !! s.
Proof.
  revert m1 m2. induction E as [|[[src dst] k] E IH]; intros m1 m2 H; simpl; [done|].
  apply IH. unfold push_entry. destruct (decide (src = s)) as [->|Hne].
  - by rewrite !lookup_insert_eq, H.
  - by rewrite !lookup_insert_ne.
Qed.
Lemma push_edges_other E (m : gmap string (list ReachEdge)) s :
  (forall src dst k, (src, dst, k) ∈ E -> src <> s) -> push_edges E m !! s = m !! s.
Proof.
  revert m. induction E as [|[[src dst] k] E IH]; intros m H; simpl; [done|].
  rewrite IH by (intros ??? Hin; eapply H; by right).
  unfold push_entry. rewrite lookup_insert_ne; [done|]. eapply H. by left.
Qed.
Lemma normalize_sources_ext S (m1 m2 : gmap string (list ReachEdge)) s :
  m1 !! s = m2 !! s -> normalize_sources S m1 !! s = normalize_sources S m2 !! s.
Proof.
  revert m1 m2. induction S as [|a S IH]; intros m1 m2 H; simpl; [done|].
  apply IH. rewrite !lookup_alter. case_decide; subst; by rewrite H.
Qed.
Lemma normalize_sources_other S (m : gmap string (list ReachEdge)) s :
  (s ∉ S) -> normalize_sources S m !! s = m !! s.
Proof.
  revert m. induction S as [|a S IH]; intros m H; simpl; [done|].
  apply not_elem_of_cons in H as [H1 H2]. rewrite IH by done. by rewrite lookup_alter_ne.
Qed.
Lemma insert_open_reason_ext p r (m1 m2 : gmap string OpenReason) s :
  m1 !! s = m2 !! s -> insert_open_reason p r m1 !! s = insert_open_reason p r m2 !! s.
Proof.
  intros H. destruct (decide (p = s)) as [->|Hne].
  - by destruct r; simpl; rewrite !lookup_insert_eq, ?H.
  - by destruct r; simpl; rewrite !lookup_insert_ne.
Qed.
Lemma insert_open_reasons_ext rows (m1 m2 : gmap string OpenReason) s :
  m1 !! s = m2 !! s -> insert_open_reasons rows m1 !! s = insert_open_reasons rows m2 !! s.
Proof.
  revert m1 m2. induction rows as [|[p r] rows IH]; intros m1 m2 H; simpl; [done|].
  by apply IH, insert_open_reason_ext.
Qed.
Lemma insert_open_reasons_other rows (m : gmap string OpenReason) s :
  (forall p r, (p, r) ∈ rows -> p <> s) -> insert_open_reasons rows m !! s = m !! s.
Proof.
  revert m. induction rows as [|[p r] rows IH]; intros m H; simpl; [done|].
  rewrite IH by (intros ?? Hin; eapply H; by right).
  assert (p <> s) by (eapply H; by left). by destruct r; simpl; rewrite lookup_insert_ne.
Qed.

Section overlay.
Context (t : GraphTables) (sources : list string)
  (new_edges : list (string * string * ResolutionKind)) (new_open : list (string * OpenReason)).
Hypothesis edges_of_sources : forall src dst k, (src, dst, k) ∈ new_edges -> src ∈ sources.
Hypothesis open_of_sources : forall p r, (p, r) ∈ new_open -> p ∈ sources.

Let overlaid := with_request_overrides (published t) sources new_edges new_open [].
Let refreshed := refresh_sources_with_kinds sources new_edges new_open (published t).

Lemma overlay_same_answers : same_answers overlaid refreshed.
Proof.
  unfold overlaid, refreshed, with_request_overrides, refresh_sources_with_kinds, published. simpl.
  rewrite set_fold_empty. split; try (intros; reflexivity); intros s; unfold out_edges; simpl.
  - destruct (decide (s ∈ list_to_set sources)) as [Hin%elem_of_list_to_set|Hin]; simpl.
    + f_equal. apply normalize_sources_ext, push_edges_ext.
      by rewrite remove_sources_lookup, decide_True.
    + rewrite elem_of_list_to_set in Hin. rewrite normalize_sources_other by done.
      rewrite push_edges_other by (intros ??? ?%edges_of_sources; by intros ->).
      by rewrite remove_sources_lookup, decide_False.
  - destruct (decide (s ∈ list_to_set sources)) as [Hin%elem_of_list_to_set|Hin]; simpl.
    + apply insert_open_reasons_ext. by rewrite remove_sources_lookup, decide_True.
    + rewrite elem_of_list_to_set in Hin.
      rewrite insert_open_reasons_other by (intros ?? ?%open_of_sources; by intros ->).
      by rewrite remove_sources_lookup, decide_False.
Qed.
End overlay.

(** C9 The sparse request overlay refines the materialised refresh: for dirty C sources
    whose rows all originate at those sources, every start file has the same scope over
    the shared base with its overlay as over a graph in which the sources were
    replaced. *)
Theorem overlay_matches_refresh t sources new_edges new_open start :
  (forall src dst k, (src, dst, k) ∈ new_edges -> src ∈ sources) ->
  (forall p r, (p, r) ∈ new_open -> p ∈ sources) ->
  compute (with_request_overrides (published t) sources new_edges new_open []) start =
  compute (refresh_sources_with_kinds sources new_edges new_open (published t)) start.
Proof. intros H1 H2. by apply compute_same, overlay_same_answers. Qed.

(** The memo table is transparent: with a table that holds only computed scopes,
    [reachable] answers exactly [compute] and leaves such a table. *)
Theorem reachable_memo_transparent g start cache :
  (forall s sc, cache !! s = Some sc -> compute g s = Some sc) ->
  (reachable g start cache).1 = compute g start /\
  forall s sc, (reachable g start cache).2 !! s = Some sc -> compute g s = Some sc.
Proof.
  intros Hc. unfold reachable. destruct (cache !! start) as [hit|] eqn:Hs.
  - split; [|done]. symmetry. by apply Hc.
  - destruct (compute g start) as [sc|] eqn:E; [|by split]. split; [done|].
    intros s sc'. simpl. destruct (decide (start = s)) as [->|Hne].
    + rewrite lookup_insert_eq. by intros [= <-].
    + rewrite lookup_insert_ne by done. apply Hc.
Qed.

(** ** Refresh against a full rebuild *)

Definition rows_of (E : list (string * string * ResolutionKind)) (s : string) : list ReachEdge :=
  (fun '(_, dst, k) => mkEdge dst k) <$> filter (fun r => r.1.1 = s) E.

Lemma push_edges_default E (m : gmap string (list ReachEdge)) s :
  default [] (push_edges E m !! s) = default [] (m !! s) ++ rows_of E s.
Proof.
  revert m. induction E as [|[[src dst] k] E IH]; intros m; simpl; [by rewrite app_nil_r|].
  rewrite IH. unfold push_entry, rows_of. rewrite filter_cons; simpl.
  destruct (decide (src = s)) as [->|Hne].
  - rewrite lookup_insert_eq; simpl. by rewrite <- app_assoc.
  - by rewrite lookup_insert_ne.
Qed.
Lemma normalize_default (m : gmap string (list ReachEdge)) s :
  default [] ((normalize_reach_edges <$> m) !! s) = normalize_reach_edges (default [] (m !! s)).
Proof. rewrite lookup_fmap. by destruct (m !! s). Qed.
Lemma normalize_sources_default S (m : gmap string (list ReachEdge)) s :
  NoDup S -> s ∈ S ->
  default [] (normalize_sources S m !! s) = normalize_reach_edges (default [] (m !! s)).
Proof.
  revert m. induction S as [|a S IH]; intros m Hnd Hin; [by apply elem_of_nil in Hin|].
  apply NoDup_cons in Hnd as [Ha Hnd]. cbn [normalize_sources foldl].
  destruct (decide (s = a)) as [->|Hne].
  - change (default [] (normalize_sources S (alter normalize_reach_edges a m) !! a)
            = normalize_reach_edges (default [] (m !! a))).
    rewrite normalize_sources_other by done. rewrite lookup_alter_eq. by destruct (m !! a).
  - apply elem_of_cons in Hin as [|Hin]; [done|]. etrans; [apply (IH _ Hnd Hin)|].
    by rewrite lookup_alter_ne.
Qed.
Lemma rows_of_app E1 E2 s : rows_of (E1 ++ E2) s = rows_of E1 s ++ rows_of E2 s.
Proof. unfold rows_of. by rewrite filter_app, fmap_app. Qed.
Lemma rows_of_kept E (S : list string) s :
  rows_of (filter (fun r => r.1.1 ∉ S) E) s = if decide (s ∈ S) then [] else rows_of E s.
Proof.
  unfold rows_of. induction E as [|[[src dst] k] E IH]; simpl; [by destruct (decide _)|].
  rewrite !filter_cons; simpl. destruct (decide (src ∉ S)) as [Hn|Hn].
  - rewrite filter_cons; simpl. destruct (decide (src = s)) as [->|]; [|done].
    rewrite fmap_cons, IH, !decide_False by done. by rewrite fmap_cons.
  - rewrite IH. destruct (decide (s ∈ S)) as [|Hs]; [done|].
    rewrite (decide_False (P := src = s)); [done|]. intros ->. by apply Hn.
Qed.

Lemma rows_of_none E s : (forall src dst k, (src, dst, k) ∈ E -> src <> s) -> rows_of E s = [].
Proof.
  unfold rows_of. induction E as [|[[src dst] k] E IH]; intros H; [done|].
  rewrite filter_cons_False by (apply (H src dst k); by left).
  apply IH. intros ??? Hin. eapply H. by right.
Qed.

Lemma set_all_lookup (r : OpenReason) l (m : gmap string OpenReason) s :
  foldl (fun m p => <[p := r]> m) m l !! s = if decide (s ∈ l) then Some r else m !! s.
Proof.
  revert m. induction l as [|a l IH]; intros m; simpl; [done|]. rewrite IH.
  destruct (decide (s ∈ l)) as [H|H]; [by rewrite decide_True by (by right)|].
  destruct (decide (s = a)) as [->|Hne].
  - rewrite lookup_insert_eq, decide_True by (by left). done.
  - rewrite lookup_insert_ne by done. by rewrite decide_False by (by rewrite elem_of_cons; intros []).
Qed.

Definition paths_with (r : OpenReason) (rows : list (string * OpenReason)) : list string :=
  fst <$> filter (fun p => p.2 = r) rows.

Lemma insert_open_reasons_lookup rows (m : gmap string OpenReason) s :
  (forall p r, (p, r) ∈ rows -> r = UnresolvedInclude \/ r = AmbiguousInclude) ->
  insert_open_reasons rows m !! s =
    if decide (s ∈ paths_with UnresolvedInclude rows) then Some UnresolvedInclude
    else match m !! s with
         | Some r => Some r
         | None => if decide (s ∈ paths_with AmbiguousInclude rows) then Some AmbiguousInclude else None
         end.
Proof.
  unfold paths_with. revert m. induction rows as [|[p r] rows IH]; intros m H; simpl.
  { by destruct (m !! s). }
  rewrite IH by (intros ?? Hin; eapply H; by right). rewrite !filter_cons. simpl.
  destruct (H p r) as [-> | ->]; [by left|..]; simpl; rewrite ?fmap_cons; simpl.
  - destruct (decide (s ∈ fst <$> filter _ rows)) as [Hu|Hu].
    { by rewrite decide_True by (by right). }
    destruct (decide (p = s)) as [->|Hne].
    + rewrite lookup_insert_eq, decide_True by (by left). done.
    + rewrite lookup_insert_ne by done.
      by rewrite (decide_False (P := s ∈ p :: _)) by (rewrite elem_of_cons; intros [?|?]; [congruence|done]).
  - destruct (decide (s ∈ fst <$> filter _ rows)) as [Hu|Hu]; [done|].
    destruct (decide (p = s)) as [->|Hne].
    + rewrite lookup_insert_eq. destruct (m !! s) as [r|]; simpl; [done|].
      by rewrite decide_True by (by left).
    + rewrite lookup_insert_ne by done. destruct (m !! s); [done|].
      destruct (decide (s ∈ fst <$> filter _ rows)) as [Ha|Ha];
        [by rewrite decide_True by (by right)|].
      by rewrite (decide_False (P := s ∈ p :: _)) by (rewrite elem_of_cons; intros [?|?]; [congruence|done]).
Qed.

(** C22 An incremental refresh is a rebuild: after refreshing [sources], every start file
    has the same scope as in a graph built from scratch from the store's rows in which
    the rows of [sources] were replaced. *)
Theorem refresh_equals_rebuild rows unresolved ambiguous sources new_edges new_open start :
  NoDup sources ->
  (forall src dst k, (src, dst, k) ∈ new_edges -> src ∈ sources) ->
  (forall p r, (p, r) ∈ new_open -> p ∈ sources /\ (r = UnresolvedInclude \/ r = AmbiguousInclude)) ->
  compute (refresh_sources_with_kinds sources new_edges new_open
             (new_with_kinds rows unresolved ambiguous)) start =
  compute (new_with_kinds (filter (fun r => r.1.1 ∉ sources) rows ++ new_edges)
             (filter (fun p => p ∉ sources) unresolved ++ paths_with UnresolvedInclude new_open)
             (filter (fun p => p ∉ sources) ambiguous ++ paths_with AmbiguousInclude new_open)) start.
Proof.
  intros Hnd He Ho. apply compute_same. unfold new_with_kinds, refresh_sources_with_kinds, published.
  split; try (intros; reflexivity); intros s; unfold out_edges; simpl.
  - rewrite normalize_default, push_edges_default, lookup_empty; simpl. rewrite rows_of_app, rows_of_kept.
    destruct (decide (s ∈ sources)) as [Hs|Hs].
    + rewrite normalize_sources_default by done.
      rewrite push_edges_default, remove_sources_lookup, decide_True by done. done.
    + rewrite normalize_sources_other by done.
      rewrite push_edges_other by (intros ??? ?%He; by intros ->).
      rewrite remove_sources_lookup, decide_False by done.
      rewrite normalize_default, push_edges_default, lookup_empty; simpl.
      by rewrite (rows_of_none new_edges), app_nil_r by (intros ??? ?%He; by intros ->).
  - rewrite insert_open_reasons_lookup by (intros p r Hin; apply (Ho p r Hin)).
    rewrite remove_sources_lookup, !set_all_lookup, lookup_empty.
    assert (forall r, s ∈ paths_with r new_open -> s ∈ sources) as Hp.
    { intros r ([p r'] & -> & Hin)%list_elem_of_fmap. apply list_elem_of_filter in Hin as [_ Hin].
      apply (Ho p r' Hin). }
    pose proof (Hp UnresolvedInclude). pose proof (Hp AmbiguousInclude).
    repeat (case_decide; rewrite ?elem_of_app, ?list_elem_of_filter in * ); naive_solver.
Qed.

(** ** Witnesses *)

Definition demo_rows : list (string * string * ResolutionKind) :=
  [("a.c", "b.h", RelativeExact); ("b.h", "c.h", SuffixMatch); ("b.h", "a.c", WorkspaceExact)].
Definition demo_graph : ReachGraph := new_with_kinds demo_rows [] [].
Definition demo_scope : ReachScope :=
  mkScope ({["b.h"]} ∪ {["a.c"]}) {["c.h"]} false None.

Lemma demo_compute : compute demo_graph "a.c" = Some demo_scope.
Proof. vm_compute. reflexivity. Qed.

Lemma reach_sound_witness :
  (forall x, x ∈ demo_scope.(scope_files) ->
     exists n, (n <= MAX_REACH_DEPTH)%N /\ walk demo_graph "a.c" true n x) /\
  (forall x, x ∈ demo_scope.(heuristic_files) ->
     exists n, (n <= MAX_REACH_DEPTH)%N /\ walk demo_graph "a.c" false n x) /\
  demo_scope.(scope_files) ## demo_scope.(heuristic_files) /\ ("a.c" ∈ demo_scope.(scope_files)) /\
  (N.of_nat (size demo_scope.(scope_files) + size demo_scope.(heuristic_files)) <= MAX_REACH_NODES)%N /\
  (demo_scope.(scope_open) = true <-> is_Some demo_scope.(scope_reason)).
Proof. exact (reach_sound demo_graph "a.c" demo_scope eq_refl demo_compute). Defined.

Lemma reach_exact_when_closed_witness :
  (forall x, x ∈ demo_scope.(scope_files) <-> exists n, walk demo_graph "a.c" true n x) /\
  (forall x, x ∈ demo_scope.(scope_files) ∪ demo_scope.(heuristic_files) <->
     exists n, walk demo_graph "a.c" false n x) /\
  (forall x, x ∈ demo_scope.(scope_files) ∪ demo_scope.(heuristic_files) ->
     open_reason demo_graph x = None).
Proof. exact (reach_exact_when_closed demo_graph "a.c" demo_scope eq_refl demo_compute eq_refl). Defined.

Definition demo_packages : ReachGraph :=
  from_rows_with_packages [] [] []
    [mkGoFileRow "m/p" "p/x.go"; mkGoFileRow "m/p" "p/y.go"; mkGoFileRow "m/q" "q/z.go"]
    [mkGoEdgeRow "m/p" "m/q" GoHeuristic] [mkGoOpenRow "m/q" BuildConstraintUnknown].
Definition demo_package_scope : ReachScope :=
  mkScope ({["p/y.go"]} ∪ {["p/x.go"]}) {["q/z.go"]} true (Some BuildConstraintUnknown).
Lemma package_scope_bounded_witness :
  (N.of_nat (size demo_package_scope.(scope_files) + size demo_package_scope.(heuristic_files))
     <= MAX_REACH_NODES + 1)%N /\
  demo_package_scope.(scope_files) ## demo_package_scope.(heuristic_files) /\
  ("p/x.go" ∈ demo_package_scope.(scope_files) ∪ demo_package_scope.(heuristic_files)).
Proof.
  apply (package_scope_bounded demo_packages "p/x.go"); [by eexists|].
  vm_compute. reflexivity.
Defined.

Lemma overlay_matches_refresh_witness :
  let t := tables_of demo_graph in
  compute (with_request_overrides (published t) ["b.h"] [("b.h", "/usr/d.h", ExternalExact)] [] []) "a.c"
  = compute (refresh_sources_with_kinds ["b.h"] [("b.h", "/usr/d.h", ExternalExact)] []
      (published t)) "a.c".
Proof.
  apply (overlay_matches_refresh (tables_of demo_graph)).
  - intros src dst k H%list_elem_of_singleton. simplify_eq. by left.
  - by intros p r []%elem_of_nil.
Defined.

Lemma reachable_memo_transparent_witness :
  (reachable demo_graph "a.c" {["a.c" := demo_scope]}).1 = compute demo_graph "a.c" /\
  forall s sc, (reachable demo_graph "a.c" {["a.c" := demo_scope]}).2 !! s = Some sc ->
    compute demo_graph s = Some sc.
Proof.
  apply (reachable_memo_transparent demo_graph "a.c").
  intros s sc [<- <-]%lookup_singleton_Some. exact demo_compute.
Defined.

Lemma refresh_equals_rebuild_witness :
  compute (refresh_sources_with_kinds ["b.h"] [("b.h", "d.h", SuffixMatch)]
             [("b.h", AmbiguousInclude)] (new_with_kinds demo_rows [] [])) "a.c" =
  compute (new_with_kinds (filter (fun r => r.1.1 ∉ ["b.h"]) demo_rows ++ [("b.h", "d.h", SuffixMatch)])
             (filter (fun p => p ∉ ["b.h"]) [] ++ paths_with UnresolvedInclude [("b.h", AmbiguousInclude)])
             (filter (fun p => p ∉ ["b.h"]) [] ++ paths_with AmbiguousInclude [("b.h", AmbiguousInclude)]))
    "a.c".
Proof.
  apply (refresh_equals_rebuild demo_rows [] [] ["b.h"]).
  - apply NoDup_singleton.
  - intros src dst k H%list_elem_of_singleton. simplify_eq. by left.
  - intros p r H%list_elem_of_singleton. simplify_eq. split; [by left|by right].
Defined.
