(* ===== verification/Coverage.v ===== *)
(** * Declaration coverage masks (semantic_model/coverage.rs)

    Fact groups and coverage reasons are bits of [u16] and [u8] masks, kept as [N]
    with [N.land], [N.lor] and [N.shiftl]. *)

From S2P Require Import Prelude.

Inductive FactGroup : Type :=
  | Declarations | FallbackCompletions | Includes | Occurrences | Records | Fields
  | Members | Aliases | LocalDeclarations | LocalBindings | CallableAnchors | CallSites.
#[export] Instance FactGroup_eq_dec : EqDecision FactGroup.
Proof. solve_decision. Defined.

Definition FactGroup_ALL : list FactGroup :=
  [Declarations; FallbackCompletions; Includes; Occurrences; Records; Fields;
   Members; Aliases; LocalDeclarations; LocalBindings; CallableAnchors; CallSites].

(** [self as u8] *)
Definition FactGroup_index (g : FactGroup) : N :=
  match g with
  | Declarations => 0 | FallbackCompletions => 1 | Includes => 2 | Occurrences => 3
  | Records => 4 | Fields => 5 | Members => 6 | Aliases => 7 | LocalDeclarations => 8
  | LocalBindings => 9 | CallableAnchors => 10 | CallSites => 11
  end.
Definition FactGroup_bit (g : FactGroup) : N := N.shiftl 1 (FactGroup_index g).

Inductive FactCoverage : Type := Complete | Partial | Unknown.
#[export] Instance FactCoverage_eq_dec : EqDecision FactCoverage.
Proof. solve_decision. Defined.

Inductive CoverageReason : Type :=
  | SyntaxRecoveryFailed | UnknownMacro | LanguageAmbiguity | UnsupportedDeclarator | BudgetExhausted.
#[export] Instance CoverageReason_eq_dec : EqDecision CoverageReason.
Proof. solve_decision. Defined.
Definition CoverageReason_ALL : list CoverageReason :=
  [SyntaxRecoveryFailed; UnknownMacro; LanguageAmbiguity; UnsupportedDeclarator; BudgetExhausted].
Definition CoverageReason_index (r : CoverageReason) : nat :=
  match r with
  | SyntaxRecoveryFailed => 0 | UnknownMacro => 1 | LanguageAmbiguity => 2
  | UnsupportedDeclarator => 3 | BudgetExhausted => 4
  end.
Definition CoverageReason_as_str (r : CoverageReason) : string :=
  match r with
  | SyntaxRecoveryFailed => "syntax_recovery_failed"
  | UnknownMacro => "unknown_macro"
  | LanguageAmbiguity => "language_ambiguity"
  | UnsupportedDeclarator => "unsupported_declarator"
  | BudgetExhausted => "budget_exhausted"
  end.

Definition u32_max : N := 4294967295.

(** [reason_groups : [u16; 5]] is a list of five masks. *)
Record DeclarationCoverageSummary : Type := mkSummary {
  requested_groups : N;
  checked_groups : N;
  partial_groups : N;
  reason_groups : list N;
  candidate_regions : N;
  explained_regions : N;
  non_declaration_regions : N;
  uncovered_regions : N;
  candidate_bytes : N;
  uncovered_bytes : N;
  node_visits : N;
  recovered_regions : N;
  cov_truncated : bool;
}.
Definition default_summary : DeclarationCoverageSummary :=
  mkSummary 0 0 0 [0; 0; 0; 0; 0]%N 0 0 0 0 0 0 0 0 false.

Definition fact_coverage (s : DeclarationCoverageSummary) (g : FactGroup) : FactCoverage :=
  if N.eqb (N.land (N.land s.(requested_groups) s.(checked_groups)) (FactGroup_bit g)) 0 then Unknown
  else if negb (N.eqb (N.land s.(partial_groups) (FactGroup_bit g)) 0) then Partial
  else Complete.

Definition reason_mask (s : DeclarationCoverageSummary) (groups : N) : N :=
  foldl (fun mask '(index, affected) =>
           N.lor mask (if negb (N.eqb (N.land affected groups) 0)
                       then N.shiftl 1 (N.of_nat index) else 0))
    0%N (imap (fun i a => (i, a)) s.(reason_groups)).

(** [self.reason_groups[reason as usize] |= groups] and the two other updates. *)
Definition note_gap (groups : N) (reason : CoverageReason) (s : DeclarationCoverageSummary) :
    DeclarationCoverageSummary :=
  mkSummary s.(requested_groups) s.(checked_groups) (N.lor s.(partial_groups) groups)
    (alter (fun m => N.lor m groups) (CoverageReason_index reason) s.(reason_groups))
    s.(candidate_regions) s.(explained_regions) s.(non_declaration_regions)
    (N.min (s.(uncovered_regions) + 1) u32_max)
    s.(candidate_bytes) s.(uncovered_bytes) s.(node_visits) s.(recovered_regions) s.(cov_truncated).

(** ** Bits *)

Lemma land_shiftl_eqb m i : N.eqb (N.land m (N.shiftl 1 i)) 0 = negb (N.testbit m i).
Proof.
  rewrite N.shiftl_1_l. destruct (N.testbit m i) eqn:E; simpl.
  - apply N.eqb_neq. intros H. apply (f_equal (fun x => N.testbit x i)) in H.
    by rewrite N.land_spec, E, N.pow2_bits_true, N.bits_0 in H.
  - apply N.eqb_eq, N.bits_inj. intros j. rewrite N.land_spec, N.bits_0.
    destruct (N.eq_dec i j) as [->|Hne]; [by rewrite E|].
    by rewrite (N.pow2_bits_false i j Hne), andb_false_r.
Qed.

Lemma land_eqb_lor a b c :
  N.eqb (N.land (N.lor a b) c) 0 = N.eqb (N.land a c) 0 && N.eqb (N.land b c) 0.
Proof.
  rewrite N.land_lor_distr_l. apply eq_true_iff_eq. rewrite andb_true_iff, !N.eqb_eq.
  apply N.lor_eq_0_iff.
Qed.

(** [fact_coverage] read bit by bit. *)
Lemma fact_coverage_bits s g :
  fact_coverage s g =
    if N.testbit s.(requested_groups) (FactGroup_index g)
       && N.testbit s.(checked_groups) (FactGroup_index g)
    then (if N.testbit s.(partial_groups) (FactGroup_index g) then Partial else Complete)
    else Unknown.
Proof.
  unfold fact_coverage, FactGroup_bit. rewrite !land_shiftl_eqb, N.land_spec.
  by destruct (_ && _), (N.testbit (partial_groups s) (FactGroup_index g)).
Qed.

(** The bits of a mask built from a list of flags. *)
Lemma mask_fold_testbit (f : N -> bool) l : forall k mask i,
  N.testbit (foldl (fun mask '(index, affected) =>
      N.lor mask (if f affected then N.shiftl 1 (N.of_nat index) else 0)) mask
      (imap (fun j a => ((k + j)%nat, a)) l)) i =
  N.testbit mask i ||
    (if (N.of_nat k <=? i)%N
     then match l !! (N.to_nat i - k)%nat with Some a => f a | None => false end else false).
Proof.
  induction l as [|a l IH]; intros k mask i; simpl.
  { destruct (N.leb _ _); by rewrite orb_false_r. }
  rewrite Nat.add_0_r.
  assert (imap ((fun j a => ((k + j)%nat, a)) ∘ S) l = imap (fun j a => ((S k + j)%nat, a)) l) as ->
    by (apply imap_ext; intros; simpl; f_equal; lia).
  rewrite IH, N.lor_spec.
  assert (N.testbit (if f a then N.shiftl 1 (N.of_nat k) else 0) i = f a && N.eqb (N.of_nat k) i) as ->.
  { destruct (f a); [|apply N.bits_0]. rewrite N.shiftl_1_l, andb_true_l.
    destruct (N.eqb_spec (N.of_nat k) i) as [<-|Hne]; [apply N.pow2_bits_true|by apply N.pow2_bits_false]. }
  destruct (N.eqb_spec (N.of_nat k) i) as [<-|Hne].
  - rewrite N.leb_refl, Nat2N.id, Nat.sub_diag. simpl.
    rewrite (proj2 (N.leb_gt (N.of_nat (S k)) (N.of_nat k))) by lia.
    destruct (N.testbit mask _), (f a); done.
  - rewrite andb_false_r, orb_false_r. f_equal.
    destruct (N.leb_spec (N.of_nat (S k)) i), (N.leb_spec (N.of_nat k) i); try lia; try done.
    replace (N.to_nat i - k)%nat with (S (N.to_nat i - S k)) by lia. done.
Qed.

Lemma reason_mask_bits s groups i :
  N.testbit (reason_mask s groups) i =
    match s.(reason_groups) !! N.to_nat i with
    | Some a => negb (N.eqb (N.land a groups) 0)
    | None => false
    end.
Proof.
  unfold reason_mask. rewrite (mask_fold_testbit (fun a => negb (N.eqb (N.land a groups) 0)) _ 0).
  rewrite N.bits_0, Nat.sub_0_r, (proj2 (N.leb_le (N.of_nat 0) i)) by lia. done.
Qed.

(** Noting a gap degrades exactly the affected groups: an affected group is no longer
    [Complete], and the coverage of every other group is unchanged. *)
Theorem note_gap_fact_coverage s groups reason g :
  fact_coverage (note_gap groups reason s) g =
    if N.testbit groups (FactGroup_index g)
    then match fact_coverage s g with Complete => Partial | c => c end
    else fact_coverage s g.
Proof.
  rewrite !fact_coverage_bits. simpl. rewrite N.lor_spec.
  destruct (_ && _), (N.testbit (partial_groups s) (FactGroup_index g)),
    (N.testbit groups (FactGroup_index g)); done.
Qed.

(** The reason mask reports exactly the noted reasons: after a gap, a reason's bit for a
    query is set iff it was set before or the gap has this reason and affects one of the
    queried groups. *)
Theorem note_gap_reason_mask s groups reason query r :
  length s.(reason_groups) = 5 ->
  N.testbit (reason_mask (note_gap groups reason s) query) (N.of_nat (CoverageReason_index r)) =
    N.testbit (reason_mask s query) (N.of_nat (CoverageReason_index r))
    || (bool_decide (r = reason) && negb (N.eqb (N.land groups query) 0)).
Proof.
  intros Hlen. rewrite !reason_mask_bits, Nat2N.id. simpl.
  destruct (lookup_lt_is_Some_2 (reason_groups s) (CoverageReason_index r)) as [a Ha].
  { rewrite Hlen. destruct r; simpl; lia. }
  destruct (decide (r = reason)) as [->|Hne].
  - rewrite list_lookup_alter_eq, Ha; simpl. rewrite bool_decide_eq_true_2 by done.
    rewrite land_eqb_lor. by destruct (N.eqb (N.land a query) 0), (N.eqb (N.land groups query) 0).
  - rewrite list_lookup_alter_ne by (destruct r, reason; simpl; congruence).
    rewrite Ha, bool_decide_eq_false_2 by done. by rewrite orb_false_r.
Qed.

Lemma note_gap_reason_mask_witness :
  N.testbit (reason_mask (note_gap 5 UnknownMacro default_summary) 4) 1 =
    N.testbit (reason_mask default_summary 4) 1
    || (bool_decide (UnknownMacro = UnknownMacro) && negb (N.eqb (N.land 5 4) 0)).
Proof. exact (note_gap_reason_mask default_summary 5 UnknownMacro 4 UnknownMacro eq_refl). Defined.
