(* ===== verification/Candidates.v ===== *)
(** * The candidate vocabulary (model.rs)

    Confidence, reason and scope tier of a definition candidate, and the shared
    candidate set with its disposition. *)

From S2P Require Import Prelude Coverage.

Inductive ResolutionConfidence : Type := Exact | Reachable | Heuristic | Ambiguous | Fallback.
#[export] Instance ResolutionConfidence_eq_dec : EqDecision ResolutionConfidence.
Proof. solve_decision. Defined.
Definition confidence_rank (c : ResolutionConfidence) : N :=
  match c with Exact => 4 | Reachable => 3 | Heuristic => 2 | Ambiguous => 1 | Fallback => 0 end.
Definition confidence_as_str (c : ResolutionConfidence) : string :=
  match c with
  | Exact => "exact" | Reachable => "reachable" | Heuristic => "heuristic"
  | Ambiguous => "ambiguous" | Fallback => "fallback"
  end.
Definition confidence_cmp : ResolutionConfidence -> ResolutionConfidence -> comparison :=
  cmp_on confidence_rank N.compare.

Inductive ResolutionReason : Type := CurrentFile | ReachableInclude | ExternalFirstLayer | GlobalFallback.
#[export] Instance ResolutionReason_eq_dec : EqDecision ResolutionReason.
Proof. solve_decision. Defined.
Definition reason_as_str (r : ResolutionReason) : string :=
  match r with
  | CurrentFile => "current_file" | ReachableInclude => "reachable_include"
  | ExternalFirstLayer => "external_first_layer" | GlobalFallback => "global_fallback"
  end.

Inductive ScopeTier : Type := TierCurrent | TierReachable | TierExternal | TierUnknown | TierGlobal.
#[export] Instance ScopeTier_eq_dec : EqDecision ScopeTier.
Proof. solve_decision. Defined.
(** An [i32] in the code. *)
Definition tier_rank (t : ScopeTier) : Z :=
  match t with
  | TierCurrent => 4 | TierReachable => 3 | TierExternal => 2 | TierUnknown => 1 | TierGlobal => 0
  end.
Definition tier_as_str (t : ScopeTier) : string :=
  match t with
  | TierCurrent => "current" | TierReachable => "reachable" | TierExternal => "external"
  | TierUnknown => "unknown" | TierGlobal => "global"
  end.
Definition tier_cmp : ScopeTier -> ScopeTier -> comparison := cmp_on tier_rank Z.compare.

Record CandidateRange : Type := mkRange { start_line : N; start_col : N; end_line : N; end_col : N }.

Record DefinitionCandidate : Type := mkCandidate {
  cand_name : string;
  cand_kind : string;
  cand_role : string;
  cand_path : string;
  cand_range : CandidateRange;
  cand_source : string;
  tier : ScopeTier;
  base_match : Z;
  confidence : ResolutionConfidence;
  cand_reason : ResolutionReason;
}.

Lemma confidence_rank_inj a b : confidence_rank a = confidence_rank b -> a = b.
Proof. by destruct a, b. Qed.
Lemma tier_rank_inj a b : tier_rank a = tier_rank b -> a = b.
Proof. by destruct a, b. Qed.
Lemma tier_rank_bound t : (0 <= tier_rank t <= 4)%Z.
Proof. destruct t; simpl; lia. Qed.

(** ** Candidate sets *)

Inductive CandidateDisposition : Type := DispExact | DispPreferred | DispAmbiguous | DispFallback.
#[export] Instance CandidateDisposition_eq_dec : EqDecision CandidateDisposition.
Proof. solve_decision. Defined.
Definition disposition_as_str (d : CandidateDisposition) : string :=
  match d with
  | DispExact => "exact" | DispPreferred => "preferred"
  | DispAmbiguous => "ambiguous" | DispFallback => "fallback"
  end.

Record SharedCandidateCoverage : Type := mkSharedCoverage {
  scanned : N;
  truncated : bool;
  shared_scope_open : bool;
  facts_incomplete : bool;
  generation_mismatch : bool;
  declaration_state : FactCoverage;
  declaration_reasons : N;
}.
Definition coverage_complete (scanned : N) : SharedCandidateCoverage :=
  mkSharedCoverage scanned false false false false Complete 0.
Definition permits_exact (c : SharedCandidateCoverage) : bool :=
  negb c.(truncated) && negb c.(shared_scope_open) && negb c.(facts_incomplete)
  && negb c.(generation_mismatch).
Definition declaration_reason_labels (c : SharedCandidateCoverage) : list string :=
  CoverageReason_as_str <$>
    List.filter (fun r => negb (N.eqb (N.land c.(declaration_reasons)
                                          (N.shiftl 1 (N.of_nat (CoverageReason_index r)))) 0))
      CoverageReason_ALL.

Record CandidateRef : Type := mkRef { group_index : nat; candidate_index : nat }.

Inductive SemanticDeclarationKind : Type :=
  | DeclFunction | DeclMethod | DeclObject | DeclType | DeclAlias | DeclEnumConstant | DeclMacro.
Record LogicalEntityKey : Type := mkEntityKey {
  key_qualified_name : string;
  key_declaration_kind : SemanticDeclarationKind;
  key_owner : option string;
  key_canonical_signature : option string;
  key_linkage_domain : string;
  key_guard_fingerprint : option string;
}.

Record CandidateGroup (T : Type) : Type := mkGroup {
  logical_key : option LogicalEntityKey;
  declaration_kind : SemanticDeclarationKind;
  group_tier : ScopeTier;
  authoritative : bool;
  low_fidelity : bool;
  candidates : list T;
}.
Arguments mkGroup {T}.
Arguments logical_key {T}.
Arguments declaration_kind {T}.
Arguments group_tier {T}.
Arguments authoritative {T}.
Arguments low_fidelity {T}.
Arguments candidates {T}.

Record CandidateSet (T : Type) : Type := mkSet {
  all : list (CandidateGroup T);
  focused : list CandidateRef;
  coverage : SharedCandidateCoverage;
  disposition : CandidateDisposition;
  alternative_count : nat;
}.
Arguments mkSet {T}.
Arguments all {T}.
Arguments focused {T}.
Arguments coverage {T}.
Arguments disposition {T}.
Arguments alternative_count {T}.

Section candidate_set.
Context {T : Type}.
Implicit Types (groups : list (CandidateGroup T)) (refs : list CandidateRef).

(** The distinct focused group indices in first-seen order. *)
Definition focused_group_indices refs : list nat :=
  foldl (fun acc r => if decide (r.(group_index) ∈ acc) then acc else acc ++ [r.(group_index)]) [] refs.

Definition classify_candidate_disposition groups refs (cov : SharedCandidateCoverage) :
    CandidateDisposition :=
  if negb (existsb authoritative groups) then DispFallback
  else if (1 <? length (focused_group_indices refs))%nat || (1 <? length refs)%nat then DispAmbiguous
  else match refs with
       | [] => DispFallback
       | r :: _ =>
           match groups !! r.(group_index) with
           | None => DispFallback
           | Some g =>
               if negb g.(authoritative) || g.(low_fidelity) then DispFallback
               else if permits_exact cov then DispExact else DispPreferred
           end
       end.

Definition group_sizes (keep : nat -> bool) groups : nat :=
  sum_list (imap (fun i g => if keep i then length g.(candidates) else 0) groups).
Definition is_focused refs (i : nat) : bool := bool_decide (i ∈ group_index <$> refs).

Definition CandidateSet_new groups refs (cov : SharedCandidateCoverage) : CandidateSet T :=
  mkSet groups refs cov (classify_candidate_disposition groups refs cov)
    (group_sizes (fun i => negb (is_focused refs i)) groups).

Lemma existsb_lookup groups i g :
  groups !! i = Some g -> authoritative g = true -> existsb authoritative groups = true.
Proof.
  intros Hi Hg. apply existsb_exists. exists g. split; [|done].
  apply list_elem_of_In, list_elem_of_lookup. by exists i.
Qed.

(** An exact answer is a proof of uniqueness: the disposition is [Exact] precisely
    when one candidate is focused, its group is authoritative and not of low fidelity,
    and the coverage was neither truncated, open, incomplete nor of mixed
    generations. *)
Theorem disposition_exact_iff groups refs cov :
  disposition (CandidateSet_new groups refs cov) = DispExact <->
  permits_exact cov = true /\
  exists r g, refs = [r] /\ groups !! r.(group_index) = Some g /\
    authoritative g = true /\ low_fidelity g = false.
Proof.
  unfold CandidateSet_new, classify_candidate_disposition; simpl.
  destruct (existsb authoritative groups) eqn:Ha; simpl.
  2: { split; [done|]. intros (_ & r & g & _ & Hg & Hauth & _).
       by rewrite (existsb_lookup _ _ _ Hg Hauth) in Ha. }
  destruct refs as [|r [|r' refs]].
  - split; [done|]. by intros (_ & ? & ? & ? & _).
  - simpl. destruct (groups !! group_index r) as [g|] eqn:Hg.
    + split.
      * destruct (authoritative g) eqn:E1, (low_fidelity g) eqn:E2; simpl; try done.
        destruct (permits_exact cov); [|done]. intros _. split; [done|]. by exists r, g.
      * intros (-> & r' & g' & [= <-] & Hg' & E1 & E2).
        rewrite Hg in Hg'. injection Hg' as <-. by rewrite E1, E2.
    + split; [done|]. intros (_ & r' & g' & [= <-] & Hg' & _). congruence.
  - rewrite (proj2 (Nat.ltb_lt 1 (length (r :: r' :: refs)))) by (simpl; lia). rewrite orb_true_r.
    split; [done|]. by intros (_ & ? & ? & [=] & _).
Qed.

Lemma group_sizes_split keep groups :
  (group_sizes keep groups + group_sizes (fun i => negb (keep i)) groups
   = sum_list (length ∘ candidates <$> groups))%nat.
Proof.
  unfold group_sizes. revert keep. induction groups as [|g groups IH]; intros keep; [done|].
  specialize (IH (keep ∘ S)). rewrite !imap_cons, fmap_cons. simpl sum_list.
  unfold compose in *. destruct (keep 0); simpl; lia.
Qed.

(** No candidate is miscounted: the alternatives and the candidates of the focused
    groups together are all recalled candidates. *)
Theorem alternatives_partition groups refs cov :
  (alternative_count (CandidateSet_new groups refs cov)
     + group_sizes (is_focused refs) groups = sum_list (length ∘ candidates <$> groups))%nat.
Proof. rewrite <- (group_sizes_split (is_focused refs)). simpl. lia. Qed.
End candidate_set.
