(* ===== verification/Resolver.v ===== *)
(** * The shared scope and ranking resolver (resolver.rs)

    Which scope tier a candidate has, how candidates are ranked, and deduplication by
    name. The reach context is the [ReachScope] the traversal of Reachability.v
    computes. *)

From S2P Require Import Prelude Coverage Candidates Reachability.

Definition TIER_STRIDE : Z := 2048.
Definition MAX_BASE_MATCH : Z := 1500.
Definition MAX_LOCALITY : Z := 100.
Definition LOCALITY_PER_SEGMENT : Z := 10.
Definition MAX_LOCALITY_SEGMENTS : Z := MAX_LOCALITY / LOCALITY_PER_SEGMENT.
Definition i32_max : Z := 2147483647.

Record ResolveContext : Type := mkContext {
  current_path : option string;
  reach : option ReachScope;
  direct_external_files : option (gset string);
}.
Definition unscoped (current : option string) : ResolveContext := mkContext current None None.

Definition scope_tier (path : string) (external directly_included : bool)
    (ctx : option ResolveContext) : ScopeTier :=
  let directly_included :=
    match c ← ctx; c.(direct_external_files) with
    | Some paths => bool_decide (path ∈ paths)
    | None => directly_included
    end in
  if external && directly_included then TierExternal
  else match ctx with
       | None => TierGlobal
       | Some c =>
           if bool_decide (c.(current_path) = Some path) then TierCurrent
           else match c.(reach) with
                | None => TierGlobal
                | Some r =>
                    if decide (path ∈ r.(scope_files)) then TierReachable
                    else if decide (path ∈ r.(heuristic_files)) then TierUnknown
                    else if r.(scope_open) then TierUnknown
                    else TierGlobal
                end
       end.

Definition coloring_scope_allows (path : string) (external directly_included : bool)
    (ctx : option ResolveContext) : bool :=
  let t := scope_tier path external directly_included ctx in
  match t with
  | TierCurrent | TierReachable | TierExternal => true
  | TierUnknown =>
      match c ← ctx; c.(reach) with
      | Some r => bool_decide (path ∈ r.(heuristic_files))
      | None => false
      end
  | TierGlobal => false
  end.

(** [str::split('/')]: always at least one segment. *)
Fixpoint split_slash (s : string) : list string :=
  match s with
  | EmptyString => [EmptyString]
  | String.String c rest =>
      if N.eqb (Ascii.N_of_ascii c) 47 then EmptyString :: split_slash rest
      else match split_slash rest with
           | [] => [String.String c EmptyString]
           | seg :: segs => String.String c seg :: segs
           end
  end.

(** [zip(..).take_while(|(x, y)| x == y).count()] *)
Fixpoint common_prefix_length (a b : list string) : nat :=
  match a, b with
  | x :: a', y :: b' => if String.eqb x y then S (common_prefix_length a' b') else 0
  | _, _ => 0
  end.
Definition common_path_prefix_segments (a b : string) : nat :=
  common_prefix_length (split_slash a) (split_slash b).

Definition locality (path : string) (current : option string) : Z :=
  match current with
  | None => 0
  | Some current =>
      LOCALITY_PER_SEGMENT *
        Z.of_nat (Nat.min (common_path_prefix_segments path current)
                    (Z.to_nat (Z.max MAX_LOCALITY_SEGMENTS 0)))
  end.

(** [i32] arithmetic; the bounds theorem shows it cannot overflow. *)
Definition pack_score (t : ScopeTier) (base_match locality : Z) : Z :=
  tier_rank t * TIER_STRIDE + base_match + locality.

Definition candidate_score (current : option string) (c : DefinitionCandidate) : Z :=
  pack_score c.(tier) c.(base_match) (locality c.(cand_path) current).

Definition compare_candidates (current : option string) :
    DefinitionCandidate -> DefinitionCandidate -> comparison :=
  cmp_lex (cmp_rev (cmp_on (candidate_score current) Z.compare))
    (cmp_lex (cmp_on cand_path String.compare)
       (cmp_on (fun c => c.(cand_range).(start_line)) N.compare)).

Definition sort_candidates (current : option string) (cs : list DefinitionCandidate) :
    list DefinitionCandidate := sort_by (compare_candidates current) cs.

Definition confidence_reason_for (t : ScopeTier) (exact_name : bool) (open_reason : option OpenReason) :
    ResolutionConfidence * ResolutionReason :=
  match t with
  | TierCurrent => (if exact_name then Exact else Reachable, CurrentFile)
  | TierReachable => (Reachable, ReachableInclude)
  | TierExternal => (Heuristic, ExternalFirstLayer)
  | TierUnknown =>
      (if bool_decide (open_reason = Some AmbiguousInclude) then Ambiguous else Fallback, GlobalFallback)
  | TierGlobal => (Fallback, GlobalFallback)
  end.

(** ** [dedup_keep_higher] *)

(** The tuple [(tier, confidence)] with its derived order. *)
Definition key_cmp : DefinitionCandidate -> DefinitionCandidate -> comparison :=
  cmp_lex (cmp_on tier tier_cmp) (cmp_on confidence confidence_cmp).

Definition dedup_step (acc : gmap string nat * list (option DefinitionCandidate)) (i : nat) :
    gmap string nat * list (option DefinitionCandidate) :=
  let '(best, survivors) := acc in
  match survivors !! i with
  | Some (Some cand) =>
      match best !! cand.(cand_name) with
      | None => (<[cand.(cand_name) := i]> best, survivors)
      | Some prev_i =>
          match survivors !! prev_i with
          | Some (Some prev) =>
              match key_cmp cand prev with
              | Gt => (<[cand.(cand_name) := i]> best, <[prev_i := None]> survivors)
              | _ => (best, <[i := None]> survivors)
              end
          | _ => acc (* [expect("survivor present")]: never reached, see the theorem *)
          end
      end
  | _ => acc
  end.
Definition dedup_keep_higher (cs : list DefinitionCandidate) : list DefinitionCandidate :=
  omap id (foldl dedup_step (∅, Some <$> cs) (seq 0 (length cs))).2.

(** ** Ranking *)

Lemma locality_bound path current : (0 <= locality path current <= MAX_LOCALITY)%Z.
Proof.
  unfold locality, MAX_LOCALITY_SEGMENTS, MAX_LOCALITY, LOCALITY_PER_SEGMENT.
  destruct current; [|lia]. change (Z.to_nat (Z.max (100 / 10) 0)) with 10%nat. lia.
Qed.

(** C29 Packed scores are faithful and never overflow: for a base match in the documented
    range the score fits an [i32], a strictly higher tier always scores strictly
    higher, and within a tier the order is that of base match plus locality. *)
Theorem pack_score_faithful t1 t2 b1 b2 p1 p2 current :
  (0 <= b1 <= MAX_BASE_MATCH)%Z -> (0 <= b2 <= MAX_BASE_MATCH)%Z ->
  let s1 := pack_score t1 b1 (locality p1 current) in
  let s2 := pack_score t2 b2 (locality p2 current) in
  (0 <= s1 <= i32_max)%Z /\
  (tier_cmp t1 t2 = Gt -> (s2 < s1)%Z) /\
  (t1 = t2 -> (s1 ?= s2)%Z = (b1 + locality p1 current ?= b2 + locality p2 current)%Z).
Proof.
  intros H1 H2. pose proof (locality_bound p1 current) as L1. pose proof (locality_bound p2 current) as L2.
  pose proof (tier_rank_bound t1). pose proof (tier_rank_bound t2).
  unfold pack_score, TIER_STRIDE, MAX_BASE_MATCH, MAX_LOCALITY, i32_max in *. cbv zeta. split_and!.
  - lia.
  - lia.
  - unfold tier_cmp, cmp_on. rewrite Z.compare_gt_iff. nia.
  - intros ->. rewrite <- !Z.add_assoc. apply Z.add_compare_mono_l.
Qed.

#[export] Instance compare_candidates_lawful current : LawfulCmp (compare_candidates current).
Proof.
  apply cmp_lex_lawful; [apply cmp_rev_lawful|apply cmp_lex_lawful]; apply cmp_on_lawful, _.
Qed.

(** Sorting ranks by tier: in the sorted list no candidate is preceded by one of a
    lower tier, and sorting only permutes. *)
Theorem sort_candidates_by_tier current cs i j a b :
  (forall c, c ∈ cs -> (0 <= c.(base_match) <= MAX_BASE_MATCH)%Z) ->
  sort_candidates current cs ≡ₚ cs /\
  ((i < j)%nat -> sort_candidates current cs !! i = Some a -> sort_candidates current cs !! j = Some b ->
   tier_cmp a.(tier) b.(tier) <> Lt).
Proof.
  intros Hb. split; [apply sort_by_perm|]. intros Hij Ha Hb' Hlt.
  assert (a ∈ cs /\ b ∈ cs) as [Hac Hbc].
  { split; apply (elem_of_sort_by (compare_candidates current)); by eapply list_elem_of_lookup_2. }
  pose proof (sort_by_sorted (compare_candidates current) cs) as Hs.
  pose proof (StronglySorted_lookup _ _ i j a b Hs Ha Hb' Hij) as Hle.
  unfold cmp_le, compare_candidates, cmp_lex, cmp_rev, cmp_on in Hle.
  assert (candidate_score current a < candidate_score current b)%Z as Hsc.
  { pose proof (locality_bound (cand_path a) current). pose proof (locality_bound (cand_path b) current).
    pose proof (Hb _ Hac). pose proof (Hb _ Hbc).
    unfold tier_cmp, cmp_on in Hlt. rewrite Z.compare_lt_iff in Hlt.
    unfold candidate_score, pack_score, TIER_STRIDE, MAX_BASE_MATCH, MAX_LOCALITY in *. lia. }
  apply Hle. rewrite (proj2 (Z.compare_gt_iff _ _) Hsc). done.
Qed.

(** ** Deduplication *)

(** [c] at index [i] displaces or blocks [d] at index [j]: a higher key, or the same key
    and the earlier position. *)
Definition beats (i : nat) (c : DefinitionCandidate) (j : nat) (d : DefinitionCandidate) : bool :=
  bool_decide (c.(cand_name) = d.(cand_name)) &&
  match key_cmp c d with Gt => true | Eq => (i <? j)%nat | Lt => false end.
(** The reference: keep exactly the candidates no other one beats. *)
Definition is_maximal (cs : list DefinitionCandidate) (j : nat) (d : DefinitionCandidate) : bool :=
  forallb (fun '(i, c) => negb (beats i c j d)) (imap pair cs).

#[export] Instance tier_cmp_lawful : LawfulCmp tier_cmp.
Proof. unfold tier_cmp. apply _. Qed.
#[export] Instance confidence_cmp_lawful : LawfulCmp confidence_cmp.
Proof. unfold confidence_cmp. apply _. Qed.
#[export] Instance key_cmp_lawful : LawfulCmp key_cmp.
Proof. unfold key_cmp. apply _. Qed.

Lemma is_maximal_true cs j d :
  is_maximal cs j d = true <-> forall i c, cs !! i = Some c -> beats i c j d = false.
Proof.
  unfold is_maximal. rewrite forallb_forall. split.
  - intros H i c Hi. specialize (H (i, c)). rewrite negb_true_iff in H. apply H.
    apply list_elem_of_In, elem_of_lookup_imap. by exists i, c.
  - intros H [i c] (k & x & [= <- <-] & Hk)%list_elem_of_In%elem_of_lookup_imap.
    by rewrite H.
Qed.

(** Of two candidates of one name one beats the other. *)
Lemma beats_total i c j d :
  cand_name c = cand_name d -> i <> j -> beats i c j d = false -> beats j d i c = true.
Proof.
  intros Hn Hij. unfold beats. rewrite !bool_decide_eq_true_2 by congruence. simpl.
  rewrite (cmp_antisym key_cmp c d). destruct (key_cmp c d); simpl; try done.
  intros ?%Nat.ltb_ge. apply Nat.ltb_lt. lia.
Qed.
Lemma beats_trans i c j d k e :
  beats i c j d = true -> beats j d k e = true -> beats i c k e = true.
Proof.
  unfold beats. rewrite !andb_true_iff, !bool_decide_eq_true. intros [-> H1] [-> H2]. split; [done|].
  destruct (key_cmp c d) eqn:E1; [|done|].
  - rewrite (cmp_eq_l key_cmp c d e E1). destruct (key_cmp d e); [|done|done].
    apply Nat.ltb_lt in H1, H2. apply Nat.ltb_lt. lia.
  - destruct (key_cmp d e) eqn:E2; [|done|].
    + by rewrite <- (cmp_eq_r key_cmp d e c E2), E1.
    + by rewrite (cmp_gt_trans key_cmp c d e E1 E2).
Qed.

(** The state after the first [n] positions. *)
Record dedup_inv (cs : list DefinitionCandidate) (n : nat) (best : gmap string nat)
    (survivors : list (option DefinitionCandidate)) : Prop := {
  di_best nm w : best !! nm = Some w ->
    exists c, cs !! w = Some c /\ cand_name c = nm /\ (w < n)%nat /\
      forall k ck, (k < n)%nat -> cs !! k = Some ck -> beats k ck w c = false;
  di_known k ck : (k < n)%nat -> cs !! k = Some ck -> is_Some (best !! cand_name ck);
  di_survivors j : survivors !! j =
    (fun c => if decide ((j < n)%nat /\ best !! cand_name c <> Some j) then None else Some c) <$> cs !! j;
}.

Lemma beats_other_name i c j d : cand_name c <> cand_name d -> beats i c j d = false.
Proof. intros H. unfold beats. by rewrite bool_decide_eq_false_2. Qed.
Lemma beats_irrefl i c : beats i c i c = false.
Proof. unfold beats. rewrite (cmp_refl key_cmp), Nat.ltb_irrefl. apply andb_false_r. Qed.
Lemma beats_later i c j d :
  (j < i)%nat -> cand_name c = cand_name d -> beats i c j d = true <-> key_cmp c d = Gt.
Proof.
  intros Hij Hn. unfold beats. rewrite bool_decide_eq_true_2 by done. simpl.
  rewrite (proj2 (Nat.ltb_ge i j)) by lia. by destruct (key_cmp c d).
Qed.

(** The current candidate becomes the holder of its name. *)
Lemma dedup_take_inv cs n best survivors survivors' c :
  cs !! n = Some c -> dedup_inv cs n best survivors ->
  (forall k ck, (k < n)%nat -> cs !! k = Some ck -> beats k ck n c = false) ->
  (forall j, survivors' !! j =
     if decide (Some j = best !! cand_name c) then Some None else survivors !! j) ->
  dedup_inv cs (S n) (<[cand_name c := n]> best) survivors'.
Proof.
  intros Hc [Hb Hk Hs] Hmax Hs'. split.
  - intros nm w. destruct (decide (nm = cand_name c)) as [->|Hne].
    + rewrite lookup_insert_eq. intros [= <-]. exists c. split_and!; [done..|lia|].
      intros k ck Hkn Hck. destruct (decide (k = n)) as [->|]; [|apply Hmax; [lia|done]].
      assert (ck = c) as -> by congruence. apply beats_irrefl.
    + rewrite lookup_insert_ne by done. intros (d & Hd & Hnm & Hwn & Hall)%Hb.
      exists d. split_and!; [done..|lia|]. intros k ck Hkn Hck.
      destruct (decide (k = n)) as [->|]; [|apply Hall; [lia|done]].
      assert (ck = c) as -> by congruence. apply beats_other_name. congruence.
  - intros k ck Hkn Hck. destruct (decide (cand_name ck = cand_name c)) as [->|Hne].
    { by rewrite lookup_insert_eq. }
    rewrite lookup_insert_ne by done. apply (Hk k); [|done].
    destruct (decide (k = n)) as [->|]; [congruence|lia].
  - intros j. rewrite Hs', Hs. case_decide as Hj.
    + symmetry in Hj. destruct (Hb _ _ Hj) as (d & Hd & Hnm & Hjn & _). rewrite Hd. simpl.
      rewrite Hnm, lookup_insert_eq. rewrite decide_True; [done|]. split; [lia|].
      intros [= ->]. lia.
    + destruct (cs !! j) as [cj|] eqn:Hcj; simpl; [|done]. f_equal.
      destruct (decide (cand_name cj = cand_name c)) as [He|Hne].
      * rewrite He, lookup_insert_eq. destruct (decide (j = n)) as [->|Hjn].
        -- rewrite !decide_False; [done|tauto|lia].
        -- assert (Some n <> Some j) by congruence.
           destruct (decide (j < n)%nat); [rewrite !decide_True by (split; [lia|congruence]); done|].
           rewrite !decide_False; [done|lia|lia].
      * rewrite lookup_insert_ne by done. destruct (decide (j = n)) as [->|Hjn]; [congruence|].
        apply decide_ext. split; intros [? ?]; split; (done || lia).
Qed.

Lemma dedup_step_inv cs n best survivors c :
  cs !! n = Some c -> dedup_inv cs n best survivors ->
  dedup_inv cs (S n) (dedup_step (best, survivors) n).1 (dedup_step (best, survivors) n).2.
Proof.
  intros Hc Hinv. pose proof Hinv as [Hb Hk Hs]. pose proof (Hs n) as Hn. rewrite Hc in Hn. simpl in Hn.
  rewrite decide_False in Hn by lia. unfold dedup_step. rewrite Hn.
  destruct (best !! cand_name c) as [w|] eqn:Hw.
  2: { apply (dedup_take_inv cs n best survivors); [done..| |].
    - intros k ck Hkn Hck. apply beats_other_name. intros He.
      destruct (Hk k ck Hkn Hck) as [? Hx]. rewrite He in Hx. congruence.
    - intros j. by rewrite decide_False by congruence. }
  destruct (Hb _ _ Hw) as (p & Hp & Hnm & Hwn & Hmax).
  pose proof (Hs w) as Hsw. rewrite Hp in Hsw. simpl in Hsw.
  rewrite decide_False in Hsw by (rewrite Hnm; tauto). rewrite Hsw.
  pose proof (beats_later n c w p Hwn (eq_sym Hnm)) as Hkey.
  assert (key_cmp c p <> Gt -> dedup_inv cs (S n) best (<[n:=None]> survivors)) as Hdrop.
  { intros Hng. split.
    - intros nm v Hv. destruct (Hb _ _ Hv) as (d & Hd & Hdn & Hvn & Hall). exists d. split_and!; [done..|lia|].
      intros k ck Hkn Hck. destruct (decide (k = n)) as [->|]; [|apply Hall; [lia|done]].
      assert (ck = c) as -> by congruence.
      destruct (decide (cand_name c = cand_name d)) as [He|]; [|by apply beats_other_name].
      assert (v = w) as -> by congruence. assert (d = p) as -> by congruence.
      apply not_true_iff_false. by rewrite Hkey.
    - intros k ck Hkn Hck. destruct (decide (k = n)) as [->|]; [|apply (Hk k); [lia|done]].
      assert (ck = c) as -> by congruence. by rewrite Hw.
    - intros j. destruct (decide (j = n)) as [->|Hj].
      + rewrite list_lookup_insert_eq by (by eapply lookup_lt_Some). rewrite Hc. simpl.
        rewrite decide_True; [done|]. split; [lia|]. rewrite Hw. intros [= ->]. lia.
      + rewrite list_lookup_insert_ne by done. rewrite Hs. destruct (cs !! j); simpl; [|done].
        f_equal. apply decide_ext. split; intros [? ?]; split; (done || lia). }
  destruct (key_cmp c p) eqn:E; simpl; [by apply Hdrop..|].
  apply (dedup_take_inv cs n best survivors); [done..| |].
  - intros k ck Hkn Hck. apply not_true_iff_false. intros Hbt.
    pose proof (beats_trans _ _ _ _ _ _ Hbt (proj2 Hkey eq_refl)) as Hbw.
    by rewrite (Hmax k ck Hkn Hck) in Hbw.
  - intros j. rewrite Hw. destruct (decide (Some j = Some w)) as [[= ->]|Hne].
    + by rewrite list_lookup_insert_eq by (by eapply lookup_lt_Some).
    + by rewrite list_lookup_insert_ne by congruence.
Qed.

Lemma dedup_run_inv cs n :
  (n <= length cs)%nat ->
  exists best survivors,
    foldl dedup_step (∅, Some <$> cs) (seq 0 n) = (best, survivors) /\ dedup_inv cs n best survivors.
Proof.
  induction n as [|n IH]; intros Hn.
  - exists ∅, (Some <$> cs). split; [done|]. split.
    + intros nm w. by rewrite lookup_empty.
    + intros; lia.
    + intros j. rewrite list_lookup_fmap. destruct (cs !! j); simpl; [|done].
      done.
  - destruct IH as (best & survivors & Heq & Hinv); [lia|].
    destruct (lookup_lt_is_Some_2 cs n) as [c Hc]; [lia|].
    rewrite seq_S, foldl_app, Heq. cbn [foldl Nat.add].
    pose proof (dedup_step_inv cs n best survivors c Hc Hinv) as H.
    destruct (dedup_step (best, survivors) n) as [best' survivors']. by eexists _, _.
Qed.

Lemma dedup_eq_reference cs : dedup_keep_higher cs = keep_indexed (is_maximal cs) cs.
Proof.
  unfold dedup_keep_higher, keep_indexed.
  destruct (dedup_run_inv cs (length cs)) as (best & survivors & -> & [Hb Hk Hs]); [done|].
  simpl. f_equal. apply list_eq. intros j. rewrite Hs, list_lookup_imap.
  destruct (cs !! j) as [c|] eqn:Hc; simpl; [|done]. f_equal.
  pose proof (lookup_lt_Some _ _ _ Hc) as Hj. destruct (Hk j c Hj Hc) as [w Hw].
  destruct (Hb _ _ Hw) as (d & Hd & Hdn & Hwl & Hmax).
  destruct (decide (w = j)) as [->|Hne].
  - assert (d = c) as -> by congruence. rewrite decide_False by tauto.
    rewrite (proj2 (is_maximal_true cs j c)); [done|]. intros k ck Hck.
    apply (Hmax k); [by eapply lookup_lt_Some|done].
  - rewrite decide_True by (split; [done|congruence]).
    destruct (is_maximal cs j c) eqn:E; [|done]. exfalso.
    rewrite is_maximal_true in E. specialize (E w d Hd).
    apply beats_total in E; [|congruence..]. by rewrite (Hmax j c Hj Hc) in E.
Qed.

Lemma maximal_unique cs i j c d :
  cs !! i = Some c -> cs !! j = Some d -> is_maximal cs i c = true -> is_maximal cs j d = true ->
  cand_name c = cand_name d -> i = j.
Proof.
  rewrite !is_maximal_true. intros Hi Hj H1 H2 Hn. destruct (decide (i = j)) as [|Hne]; [done|].
  pose proof (beats_total i c j d Hn Hne (H2 _ _ Hi)) as Hb. by rewrite (H1 _ _ Hj) in Hb.
Qed.
Lemma maximal_exists cs i c :
  cs !! i = Some c ->
  exists j d, cs !! j = Some d /\ cand_name d = cand_name c /\ is_maximal cs j d = true /\
    key_cmp c d <> Gt.
Proof.
  intros Hi. destruct (dedup_run_inv cs (length cs)) as (best & survivors & _ & [Hb Hk _]); [done|].
  destruct (Hk i c) as [j Hj]; [by eapply lookup_lt_Some|done|].
  destruct (Hb _ _ Hj) as (d & Hd & Hn & _ & Hmax). exists j, d. split_and!; [done..| |].
  - apply is_maximal_true. intros k ck Hck. apply (Hmax k); [by eapply lookup_lt_Some|done].
  - intros Hg. pose proof (Hmax i c (lookup_lt_Some _ _ _ Hi) Hi) as Hm.
    unfold beats in Hm. by rewrite bool_decide_eq_true_2, Hg in Hm by done.
Qed.

(** Deduplication keeps, of every name, exactly the first candidate of the highest
    (tier, confidence), in input order: the in-place survivor loop equals the reference
    that keeps what no other candidate beats, no name is left twice, and every recalled
    candidate is represented by one at least as strong. *)
Theorem dedup_keeps_maxima cs :
  dedup_keep_higher cs = keep_indexed (is_maximal cs) cs /\
  dedup_keep_higher cs `sublist_of` cs /\
  NoDup (cand_name <$> dedup_keep_higher cs) /\
  forall c, c ∈ cs ->
    exists d, d ∈ dedup_keep_higher cs /\ cand_name d = cand_name c /\ key_cmp c d <> Gt.
Proof.
  rewrite dedup_eq_reference. split_and!; [done|apply keep_indexed_sublist| |].
  - apply keep_indexed_nodup. intros i j c d; apply maximal_unique.
  - intros c (i & Hi)%list_elem_of_lookup.
    destruct (maximal_exists cs i c Hi) as (j & d & Hj & Hn & Hm & Hg).
    exists d. split_and!; [|done..]. apply elem_of_keep_indexed. by exists j.
Qed.

(** ** Scope tiers of a computed scope *)

(** C4 Tiers are proofs about the include graph: with a closed scope of the current file
    (and no first-layer external evidence), another file's tier is [Reachable] exactly
    when a chain of exact includes leads to it, [Unknown] exactly when only a chain
    with a suffix match does, and [Global] exactly when none does. *)
Theorem scope_tier_exact_when_closed g start s path external directly :
  package_for_file g start = None -> compute g start = Some s -> s.(scope_open) = false ->
  path <> start -> external && directly = false ->
  let t := scope_tier path external directly (Some (mkContext (Some start) (Some s) None)) in
  (t = TierReachable <-> exists n, walk g start true n path) /\
  (t = TierUnknown <-> (exists n, walk g start false n path) /\ ~ exists n, walk g start true n path) /\
  (t = TierGlobal <-> ~ exists n, walk g start false n path).
Proof.
  intros Hp Hc Ho Hne Hed. destruct (closed_scope_exact g start s Hp Hc Ho) as (Hf & Hall & _ & Hdisj).
  unfold scope_tier. cbn [mbind option_bind direct_external_files current_path reach].
  rewrite Hed, bool_decide_eq_false_2 by congruence. cbv zeta. rewrite <- Hf, <- Hall, Ho.
  rewrite !elem_of_union.
  destruct (decide (path ∈ scope_files s)), (decide (path ∈ heuristic_files s)); intuition congruence.
Qed.

(** Coloring never rests on openness alone: whether a scope was left open changes no
    answer of [coloring_scope_allows], which admits a file only as current, directly
    included external, exactly reachable or heuristically reachable. *)
Theorem coloring_ignores_openness path external directly current s b :
  let c s := Some (mkContext current (Some s) None) in
  let flipped := mkScope s.(scope_files) s.(heuristic_files) b s.(scope_reason) in
  coloring_scope_allows path external directly (c s) =
    coloring_scope_allows path external directly (c flipped) /\
  coloring_scope_allows path external directly (c s) =
    (external && directly) || bool_decide (current = Some path)
    || bool_decide (path ∈ s.(scope_files)) || bool_decide (path ∈ s.(heuristic_files)).
Proof.
  unfold coloring_scope_allows, scope_tier. simpl.
  destruct (external && directly); simpl; [done|].
  destruct (bool_decide (current = Some path)); simpl; [done|].
  destruct (decide (path ∈ scope_files s)) as [H1|H1]; simpl.
  { by rewrite bool_decide_eq_true_2. }
  rewrite (bool_decide_eq_false_2 (path ∈ scope_files s)) by done.
  destruct (decide (path ∈ heuristic_files s)) as [H2|H2]; simpl.
  { by rewrite !bool_decide_eq_true_2. }
  rewrite !(bool_decide_eq_false_2 (path ∈ heuristic_files s)) by done.
  by destruct (scope_open s), b.
Qed.

(** ** Concrete runs *)

Definition demo_range (l : N) : CandidateRange := mkRange l 0 l 4.
Definition demo_candidate (name path : string) (t : ScopeTier) (base : Z) : DefinitionCandidate :=
  let '(conf, why) := confidence_reason_for t true None in
  mkCandidate name "function" "definition" path (demo_range 1) "workspace" t base conf why.

(** Locality is summed with the match quality, so a nearby candidate of a lower base
    match is ranked first. *)
Example locality_overtakes_base_match :
  sort_candidates (Some "src/net/tcp/a.c")
    [demo_candidate "f" "lib/x.c" TierGlobal 1000; demo_candidate "f" "src/net/tcp/b.c" TierGlobal 990]
  = [demo_candidate "f" "src/net/tcp/b.c" TierGlobal 990; demo_candidate "f" "lib/x.c" TierGlobal 1000].
Proof. vm_compute. reflexivity. Qed.

(** A directly included external current file has the external tier. *)
Example external_before_current :
  scope_tier "/usr/include/a.h" true true (Some (mkContext (Some "/usr/include/a.h") None None))
  = TierExternal.
Proof. vm_compute. reflexivity. Qed.

(** Despite its documentation the reserved confidence has a producer. *)
Example ambiguous_has_a_producer :
  confidence_reason_for TierUnknown true (Some AmbiguousInclude) = (Ambiguous, GlobalFallback).
Proof. reflexivity. Qed.

Lemma pack_score_faithful_witness :
  (pack_score TierExternal 1500 (locality "src/x/a.c" (Some "src/x/b.c"))
   < pack_score TierReachable 0 (locality "b.c" (Some "src/x/b.c")))%Z.
Proof.
  apply (pack_score_faithful TierReachable TierExternal 0 1500 "b.c" "src/x/a.c" (Some "src/x/b.c"));
    [done|done|reflexivity].
Defined.

Definition demo_list : list DefinitionCandidate :=
  [demo_candidate "f" "lib/x.c" TierGlobal 1000; demo_candidate "f" "b.c" TierReachable 0;
   demo_candidate "g" "a.c" TierCurrent 5].
Lemma sort_candidates_by_tier_witness :
  sort_candidates (Some "a.c") demo_list ≡ₚ demo_list /\
  sort_candidates (Some "a.c") demo_list !! 0 = Some (demo_candidate "g" "a.c" TierCurrent 5) /\
  tier_cmp TierCurrent TierGlobal <> Lt.
Proof.
  assert (forall c, c ∈ demo_list -> (0 <= c.(base_match) <= MAX_BASE_MATCH)%Z) as Hb.
  { intros c. unfold demo_list. rewrite !elem_of_cons, elem_of_nil.
    intros [->|[->|[->|[]]]]; vm_compute; split; discriminate. }
  pose proof (sort_candidates_by_tier (Some "a.c") demo_list 0 2
    (demo_candidate "g" "a.c" TierCurrent 5) (demo_candidate "f" "lib/x.c" TierGlobal 1000) Hb) as [H1 H2].
  split; [exact H1|]. split; [vm_compute; reflexivity|].
  apply H2; [lia|vm_compute; reflexivity..].
Defined.

Definition demo_context : option ResolveContext := Some (mkContext (Some "a.c") (Some demo_scope) None).
Lemma scope_tier_exact_when_closed_witness :
  (scope_tier "c.h" false false demo_context = TierUnknown <->
     (exists n, walk demo_graph "a.c" false n "c.h") /\ ~ exists n, walk demo_graph "a.c" true n "c.h") /\
  scope_tier "c.h" false false demo_context = TierUnknown /\
  scope_tier "b.h" false false demo_context = TierReachable /\
  scope_tier "z.c" false false demo_context = TierGlobal.
Proof.
  split_and!; [|vm_compute; reflexivity..].
  apply (scope_tier_exact_when_closed demo_graph "a.c" demo_scope "c.h" false false eq_refl demo_compute eq_refl);
    [discriminate|reflexivity].
Defined.
