(* ===== verification/CallModel.v ===== *)
(** * The call relation vocabulary (call_model.rs) and its rows (call_catalog/rows.rs)

    Positions, callable anchors and entities, call-site facts, evidence ledgers and
    relations, with the parsing of stored rows. [u32], [u64] and [usize] values are
    [N]; strings are their UTF-8 bytes. *)

From S2P Require Import Prelude.

Record SourcePosition : Type := mkPos { line : N; character : N }.
#[export] Instance SourcePosition_eq_dec : EqDecision SourcePosition.
Proof. solve_decision. Defined.
Record SourceRange : Type := mkSrcRange {
  range_start : SourcePosition;
  range_end : SourcePosition;
  start_byte : N;
  end_byte : N;
}.
#[export] Instance SourceRange_eq_dec : EqDecision SourceRange.
Proof. solve_decision. Defined.

(** The lexicographic [<=] on [(line, character)] tuples. *)
Definition pos_le (a b : SourcePosition) : bool :=
  (a.(line) <? b.(line))%N || ((a.(line) =? b.(line))%N && (a.(character) <=? b.(character))%N).
(** Both call_catalog.rs and query/callables/arity.rs define this helper. *)
Definition position_in_range (position : SourcePosition) (range : SourceRange) : bool :=
  pos_le range.(range_start) position && pos_le position range.(range_end).

Inductive CallableKind : Type :=
  | KindFunction | KindSyntheticGlobalInitializer | KindSyntheticLambda | KindFunctionLikeMacro.
#[export] Instance CallableKind_eq_dec : EqDecision CallableKind.
Proof. solve_decision. Defined.
Definition CallableKind_as_str (k : CallableKind) : string :=
  match k with
  | KindFunction => "function"
  | KindSyntheticGlobalInitializer => "synthetic_global_initializer"
  | KindSyntheticLambda => "synthetic_lambda"
  | KindFunctionLikeMacro => "function_like_macro"
  end.

Inductive AnchorRole : Type := RoleDeclaration | RoleDefinition | RoleSynthetic.
#[export] Instance AnchorRole_eq_dec : EqDecision AnchorRole.
Proof. solve_decision. Defined.
Definition AnchorRole_as_str (r : AnchorRole) : string :=
  match r with
  | RoleDeclaration => "declaration" | RoleDefinition => "definition" | RoleSynthetic => "synthetic"
  end.

Inductive OwnerKindHint : Type := OwnerNamespace | OwnerRecord | OwnerUnknown.
#[export] Instance OwnerKindHint_eq_dec : EqDecision OwnerKindHint.
Proof. solve_decision. Defined.
Definition OwnerKindHint_as_str (o : OwnerKindHint) : string :=
  match o with OwnerNamespace => "namespace" | OwnerRecord => "record" | OwnerUnknown => "unknown" end.

Inductive LinkageDomain : Type :=
  | LinkExternal
  | LinkInternal (file : string)
  | LinkPackage (package : string)
  | LinkUnknown.
#[export] Instance LinkageDomain_eq_dec : EqDecision LinkageDomain.
Proof. solve_decision. Defined.

Inductive FactProvenance : Type := ProvAst | ProvSynthetic.
#[export] Instance FactProvenance_eq_dec : EqDecision FactProvenance.
Proof. solve_decision. Defined.
Definition FactProvenance_as_str (p : FactProvenance) : string :=
  match p with ProvAst => "ast" | ProvSynthetic => "synthetic" end.

Record SignatureShape : Type := mkSig {
  normalized : string;
  min_arity : option N;
  max_arity : option N;
  variadic : bool;
}.
#[export] Instance SignatureShape_eq_dec : EqDecision SignatureShape.
Proof. solve_decision. Defined.

Inductive SignatureFidelity : Type := AstExact | Malformed.
#[export] Instance SignatureFidelity_eq_dec : EqDecision SignatureFidelity.
Proof. solve_decision. Defined.

(** [Some true]/[Some false] are proofs, [None] is no knowledge. *)
Definition accepts_arity (s : SignatureShape) (arity : N) : option bool :=
  match s.(min_arity) with
  | None => None
  | Some min =>
      if (arity <? min)%N then Some false
      else match s.(max_arity) with
           | Some max => Some (arity <=? max)%N
           | None => if s.(variadic) then Some true else None
           end
  end.

Record CallableLocator : Type := mkLocator {
  loc_workspace_id : string;
  loc_path : string;
  loc_entity_key : string;
  loc_anchor_fingerprint : string;
  loc_old_start_byte : N;
  loc_signature_digest : string;
}.

Record CallableAnchor : Type := mkAnchor {
  an_path : string;
  an_name : string;
  an_qualified_name : string;
  an_owner : option string;
  an_owner_kind : option OwnerKindHint;
  an_kind : CallableKind;
  an_role : AnchorRole;
  an_linkage : LinkageDomain;
  an_signature : SignatureShape;
  an_canonical_signature : string;
  an_presentation_signature : string;
  an_signature_fidelity : SignatureFidelity;
  an_name_range : SourceRange;
  an_declaration_range : SourceRange;
  an_body_range : option SourceRange;
  an_guard : option string;
  an_provenance : FactProvenance;
  an_syntax_error_overlap : bool;
  an_entity_key : string;
  an_fingerprint : string;
}.
#[export] Instance CallableAnchor_eq_dec : EqDecision CallableAnchor.
Proof. solve_decision. Defined.

Record CallableEntity : Type := mkEntity {
  ent_key : string;
  ent_name : string;
  ent_qualified_name : string;
  ent_owner : option string;
  ent_owner_kind : option OwnerKindHint;
  ent_kind : CallableKind;
  ent_linkage : LinkageDomain;
  ent_signature : SignatureShape;
  primary_anchor : CallableAnchor;
  ent_variants : list CallableAnchor;
}.

Inductive CallForm : Type :=
  | DirectName | QualifiedName | ParenthesizedName | MemberDot | MemberArrow | StaticMember
  | FunctionPointer | CallableObject | ExplicitConstruction | FormUnsupported.
#[export] Instance CallForm_eq_dec : EqDecision CallForm.
Proof. solve_decision. Defined.
Definition CallForm_as_str (f : CallForm) : string :=
  match f with
  | DirectName => "direct_name" | QualifiedName => "qualified_name"
  | ParenthesizedName => "parenthesized_name" | MemberDot => "member_dot"
  | MemberArrow => "member_arrow" | StaticMember => "static_member"
  | FunctionPointer => "function_pointer" | CallableObject => "callable_object"
  | ExplicitConstruction => "explicit_construction" | FormUnsupported => "unsupported"
  end.
(** [matches!(form, DirectName | QualifiedName | ParenthesizedName)] *)
Definition name_form (f : CallForm) : bool :=
  match f with DirectName | QualifiedName | ParenthesizedName => true | _ => false end.

Record CallSiteFact : Type := mkCallSite {
  cs_path : string;
  cs_caller_entity_key : string;
  cs_expression_range : SourceRange;
  cs_callee_range : SourceRange;
  cs_callee_name : option string;
  cs_qualified_name : option string;
  cs_form : CallForm;
  cs_argument_count : option N;
  cs_guard : option string;
  cs_provenance : FactProvenance;
  cs_syntax_error_overlap : bool;
  cs_site_fingerprint : string;
}.

Inductive RelationConfidence : Type :=
  | RelHigh | RelMedium | RelLow | RelAmbiguous | RelUnresolved | RelUnavailable.
#[export] Instance RelationConfidence_eq_dec : EqDecision RelationConfidence.
Proof. solve_decision. Defined.
Definition relation_confidence_rank (c : RelationConfidence) : N :=
  match c with
  | RelHigh => 5 | RelMedium => 4 | RelLow => 3 | RelAmbiguous => 2 | RelUnresolved => 1
  | RelUnavailable => 0
  end.

Inductive EvidenceCode : Type :=
  | SameFile | InternalLinkage | ExplicitQualifier | ReachableDeclaration | CompatibleArity
  | CompatibleSignature | NameOnly | OpenIncludeScope | MacroExpansionUnknown
  | PreprocessorBranchUnknown | SyntaxErrorOverlap | UnsupportedCallForm | ExternalBodyUnavailable.
#[export] Instance EvidenceCode_eq_dec : EqDecision EvidenceCode.
Proof. solve_decision. Defined.

Record EvidenceLedger : Type := mkLedger {
  supports : list EvidenceCode;
  contradictions : list EvidenceCode;
  unknowns : list EvidenceCode;
}.

Inductive RelationDirection : Type := Incoming | Outgoing.
Record CallRelation : Type := mkRelation {
  rel_caller : CallableEntity;
  rel_callee : option CallableEntity;
  rel_direction : RelationDirection;
  rel_call_sites : list CallSiteFact;
  rel_confidence : RelationConfidence;
  rel_evidence : EvidenceLedger;
  rel_ambiguity_set_id : option string;
}.

Record CoverageSummary : Type := mkCoverageSummary {
  eligible_files : N;
  analyzed_files : N;
  fallback_files : N;
  external_bodies_limited : bool;
}.

(** ** Stored rows *)

Inductive SemanticFamily : Type := CFamily | FamilyGo.
#[export] Instance SemanticFamily_eq_dec : EqDecision SemanticFamily.
Proof. solve_decision. Defined.

Record CallableAnchorRow : Type := mkAnchorRow {
  ar_id : Z;
  ar_path : string;
  ar_semantic_family : SemanticFamily;
  ar_source : string;
  ar_directly_included : bool;
  ar_entity_key : string;
  ar_anchor_fingerprint : string;
  ar_name : string;
  ar_qualified_name : string;
  ar_owner : option string;
  ar_owner_kind : option string;
  ar_kind : string;
  ar_role : string;
  ar_linkage_kind : string;
  ar_linkage_file : option string;
  ar_signature : string;
  ar_min_arity : option N;
  ar_max_arity : option N;
  ar_variadic : bool;
  ar_canonical_signature : string;
  ar_presentation_signature : string;
  ar_signature_fidelity : SignatureFidelity;
  ar_name_range : SourceRange;
  ar_declaration_range : SourceRange;
  ar_body_range : option SourceRange;
  ar_guard : option string;
  ar_provenance : string;
  ar_syntax_error_overlap : bool;
}.

Record CallSiteRow : Type := mkSiteRow {
  sr_id : Z;
  sr_path : string;
  sr_source : string;
  sr_caller_entity_key : string;
  sr_site_fingerprint : string;
  sr_expression_range : SourceRange;
  sr_callee_range : SourceRange;
  sr_callee_name : option string;
  sr_qualified_name : option string;
  sr_call_form : string;
  sr_argument_count : option N;
  sr_guard : option string;
  sr_provenance : string;
  sr_syntax_error_overlap : bool;
}.

Definition parse_callable_kind (value : string) : CallableKind :=
  if String.eqb value "synthetic_global_initializer" then KindSyntheticGlobalInitializer
  else if String.eqb value "synthetic_lambda" then KindSyntheticLambda
  else if String.eqb value "function_like_macro" then KindFunctionLikeMacro
  else KindFunction.
Definition parse_anchor_role (value : string) : AnchorRole :=
  if String.eqb value "definition" then RoleDefinition
  else if String.eqb value "synthetic" then RoleSynthetic
  else RoleDeclaration.
Definition parse_owner_kind (value : option string) : option OwnerKindHint :=
  (fun v => if String.eqb v "namespace" then OwnerNamespace
            else if String.eqb v "record" then OwnerRecord
            else OwnerUnknown) <$> value.
Definition parse_provenance (value : string) : FactProvenance :=
  if String.eqb value "synthetic" then ProvSynthetic else ProvAst.
Definition parse_call_form (value : string) : CallForm :=
  if String.eqb value "direct_name" then DirectName
  else if String.eqb value "qualified_name" then QualifiedName
  else if String.eqb value "parenthesized_name" then ParenthesizedName
  else if String.eqb value "member_dot" then MemberDot
  else if String.eqb value "member_arrow" then MemberArrow
  else if String.eqb value "static_member" then StaticMember
  else if String.eqb value "function_pointer" then FunctionPointer
  else if String.eqb value "callable_object" then CallableObject
  else if String.eqb value "explicit_construction" then ExplicitConstruction
  else FormUnsupported.

Definition anchor_from_row (row : CallableAnchorRow) : CallableAnchor :=
  let linkage :=
    if String.eqb row.(ar_linkage_kind) "external" then LinkExternal
    else if String.eqb row.(ar_linkage_kind) "internal" then LinkInternal row.(ar_path)
    else if String.eqb row.(ar_linkage_kind) "package" then LinkPackage (default "" row.(ar_linkage_file))
    else LinkUnknown in
  {| an_path := row.(ar_path);
     an_name := row.(ar_name);
     an_qualified_name := row.(ar_qualified_name);
     an_owner := row.(ar_owner);
     an_owner_kind := parse_owner_kind row.(ar_owner_kind);
     an_kind := parse_callable_kind row.(ar_kind);
     an_role := parse_anchor_role row.(ar_role);
     an_linkage := linkage;
     an_signature := mkSig row.(ar_signature) row.(ar_min_arity) row.(ar_max_arity) row.(ar_variadic);
     an_canonical_signature := row.(ar_canonical_signature);
     an_presentation_signature := row.(ar_presentation_signature);
     an_signature_fidelity := row.(ar_signature_fidelity);
     an_name_range := row.(ar_name_range);
     an_declaration_range := row.(ar_declaration_range);
     an_body_range := row.(ar_body_range);
     an_guard := row.(ar_guard);
     an_provenance := parse_provenance row.(ar_provenance);
     an_syntax_error_overlap := row.(ar_syntax_error_overlap);
     an_entity_key := row.(ar_entity_key);
     an_fingerprint := row.(ar_anchor_fingerprint) |}.

Definition call_from_row (row : CallSiteRow) : CallSiteFact :=
  {| cs_path := row.(sr_path);
     cs_caller_entity_key := row.(sr_caller_entity_key);
     cs_expression_range := row.(sr_expression_range);
     cs_callee_range := row.(sr_callee_range);
     cs_callee_name := row.(sr_callee_name);
     cs_qualified_name := row.(sr_qualified_name);
     cs_form := parse_call_form row.(sr_call_form);
     cs_argument_count := row.(sr_argument_count);
     cs_guard := row.(sr_guard);
     cs_provenance := parse_provenance row.(sr_provenance);
     cs_syntax_error_overlap := row.(sr_syntax_error_overlap);
     cs_site_fingerprint := row.(sr_site_fingerprint) |}.
