(* ===== verification/CallRows.v ===== *)
(** * Persisted call facts (store/writes.rs, store/schema.rs, store/views/call_facts.rs)

    The columns a callable anchor and a call site are written to and the rows a query
    reads back: enum codes, the [CASE] labels of the queries, packed flags, integer
    casts, hexadecimal digests and the table constraints of call sites. The interned
    text columns are modelled by their text; the join through [call_strings] is
    SQLite's. *)

From stdpp Require Import pretty.
From S2P Require Import Prelude CallModel.

(** ** Casts *)

(** [usize as i64], [i64 as usize], [i64 as u32]: two's complement. *)
Definition usize_as_i64 (v : N) : Z :=
  if (v <? 9223372036854775808)%N then Z.of_N v else (Z.of_N v - 18446744073709551616)%Z.
Definition i64_as_usize (v : Z) : N := Z.to_N (v mod 18446744073709551616).
Definition i64_as_u32 (v : Z) : N := Z.to_N (v mod 4294967296).

(** ** Digests *)

Definition hex_digit_value (c : Ascii.ascii) : option N :=
  let n := Ascii.N_of_ascii c in
  if ((48 <=? n) && (n <=? 57))%N then Some (n - 48)%N
  else if ((97 <=? n) && (n <=? 102))%N then Some (n - 87)%N
  else if ((65 <=? n) && (n <=? 70))%N then Some (n - 55)%N
  else None.
Fixpoint hex_pairs (s : string) : option (list N) :=
  match s with
  | EmptyString => Some []
  | String.String a (String.String b rest) =>
      hi ← hex_digit_value a; lo ← hex_digit_value b;
      bytes ← hex_pairs rest; Some ((16 * hi + lo)%N :: bytes)
  | String.String _ EmptyString => None
  end.
(** The error values are [None]. *)
Definition digest_bytes (value : string) : option (list N) :=
  if Nat.eqb (String.length value) 24 then hex_pairs value else None.

(** [lower(hex(blob))] of the queries. *)
Definition hex_digit (n : N) : Ascii.ascii :=
  Ascii.ascii_of_N (if (n <? 10)%N then (48 + n)%N else (87 + n)%N).
Fixpoint lower_hex (bytes : list N) : string :=
  match bytes with
  | [] => EmptyString
  | b :: rest => String.String (hex_digit (b / 16)) (String.String (hex_digit (b mod 16)) (lower_hex rest))
  end.
(** ** Codes and labels *)

Definition signature_fidelity_code (f : SignatureFidelity) : Z :=
  match f with AstExact => 0 | Malformed => 2 end.
Definition signature_fidelity (code : Z) : SignatureFidelity :=
  if Z.eqb code 2 then Malformed else AstExact.
Definition owner_kind_code (k : OwnerKindHint) : Z :=
  match k with OwnerUnknown => 0 | OwnerNamespace => 1 | OwnerRecord => 2 end.
Definition callable_kind_code (k : CallableKind) : Z :=
  match k with
  | KindFunction => 0 | KindSyntheticGlobalInitializer => 1 | KindSyntheticLambda => 2
  | KindFunctionLikeMacro => 3
  end.
Definition anchor_role_code (r : AnchorRole) : Z :=
  match r with RoleDeclaration => 0 | RoleDefinition => 1 | RoleSynthetic => 2 end.
Definition call_form_code (f : CallForm) : Z :=
  match f with
  | DirectName => 0 | QualifiedName => 1 | ParenthesizedName => 2 | MemberDot => 3
  | MemberArrow => 4 | StaticMember => 5 | FunctionPointer => 6 | CallableObject => 7
  | ExplicitConstruction => 8 | FormUnsupported => 9
  end.
Definition fact_flags (provenance : FactProvenance) (syntax_error : bool) : Z :=
  Z.lor (match provenance with ProvAst => 0 | ProvSynthetic => 2 end)
        (Z.shiftl (if syntax_error then 1 else 0) 8).
Definition linkage_columns (l : LinkageDomain) : Z * option string :=
  match l with
  | LinkExternal => (1%Z, None)
  | LinkInternal path => (2%Z, Some path)
  | LinkPackage package => (3%Z, Some package)
  | LinkUnknown => (0%Z, None)
  end.

(** The [CASE] expressions of the queries. *)
Definition owner_kind_label (code : Z) : option string :=
  if Z.eqb code 1 then Some "namespace" else if Z.eqb code 2 then Some "record"
  else if Z.eqb code 0 then Some "unknown" else None.
Definition kind_label (code : Z) : string :=
  if Z.eqb code 1 then "synthetic_global_initializer" else if Z.eqb code 2 then "synthetic_lambda"
  else if Z.eqb code 3 then "function_like_macro" else "function".
Definition role_label (code : Z) : string :=
  if Z.eqb code 1 then "definition" else if Z.eqb code 2 then "synthetic" else "declaration".
Definition linkage_label (code : Z) : string :=
  if Z.eqb code 1 then "external" else if Z.eqb code 2 then "internal"
  else if Z.eqb code 3 then "package" else "unknown".
Definition provenance_label (flags : Z) : string :=
  if Z.eqb (Z.land flags 255) 2 then "synthetic" else "ast".
Definition syntax_error_flag (flags : Z) : bool := negb (Z.eqb (Z.land flags 256) 0).
Definition call_form_label (code : Z) : string :=
  if Z.eqb code 0 then "direct_name" else if Z.eqb code 1 then "qualified_name"
  else if Z.eqb code 2 then "parenthesized_name" else if Z.eqb code 3 then "member_dot"
  else if Z.eqb code 4 then "member_arrow" else if Z.eqb code 5 then "static_member"
  else if Z.eqb code 6 then "function_pointer" else if Z.eqb code 7 then "callable_object"
  else if Z.eqb code 8 then "explicit_construction" else "unsupported".
Definition semantic_family (language : Z) : SemanticFamily :=
  if Z.eqb language 3 then FamilyGo else CFamily.

(** ** Columns *)

(** Start byte, end byte, start line and column, end line and column. *)
Record RangeColumns : Type := mkRangeColumns {
  col_start_byte : Z; col_end_byte : Z;
  col_start_line : Z; col_start_col : Z; col_end_line : Z; col_end_col : Z;
}.
Definition range_columns (r : SourceRange) : RangeColumns :=
  mkRangeColumns (usize_as_i64 r.(start_byte)) (usize_as_i64 r.(end_byte))
    (Z.of_N r.(range_start).(line)) (Z.of_N r.(range_start).(character))
    (Z.of_N r.(range_end).(line)) (Z.of_N r.(range_end).(character)).
Definition range (c : RangeColumns) : SourceRange :=
  mkSrcRange (mkPos (i64_as_u32 c.(col_start_line)) (i64_as_u32 c.(col_start_col)))
    (mkPos (i64_as_u32 c.(col_end_line)) (i64_as_u32 c.(col_end_col)))
    (i64_as_usize c.(col_start_byte)) (i64_as_usize c.(col_end_byte)).

Record AnchorColumns : Type := mkAnchorColumns {
  ac_entity_digest : list N;
  ac_anchor_digest : list N;
  ac_name : string;
  ac_qualified_name : string;
  ac_owner : option string;
  ac_owner_kind : option Z;
  ac_kind : Z;
  ac_role : Z;
  ac_linkage_kind : Z;
  ac_linkage_file : option string;
  ac_signature : string;
  ac_canonical_signature : string;
  ac_presentation_signature : string;
  ac_signature_fidelity : Z;
  ac_min_arity : option Z;
  ac_max_arity : option Z;
  ac_variadic : Z;
  ac_name_range : RangeColumns;
  ac_declaration_range : RangeColumns;
  ac_body_range : option RangeColumns;
  ac_guard : option string;
  ac_flags : Z;
}.
(** The parameters of [callable_stmt.execute]; [None] when a digest is rejected. *)
Definition write_anchor (a : CallableAnchor) : option AnchorColumns :=
  entity_digest ← digest_bytes a.(an_entity_key);
  anchor_digest ← digest_bytes a.(an_fingerprint);
  let '(linkage_kind, linkage_file) := linkage_columns a.(an_linkage) in
  Some {| ac_entity_digest := entity_digest;
          ac_anchor_digest := anchor_digest;
          ac_name := a.(an_name);
          ac_qualified_name := a.(an_qualified_name);
          ac_owner := a.(an_owner);
          ac_owner_kind := owner_kind_code <$> a.(an_owner_kind);
          ac_kind := callable_kind_code a.(an_kind);
          ac_role := anchor_role_code a.(an_role);
          ac_linkage_kind := linkage_kind;
          ac_linkage_file := linkage_file;
          ac_signature := a.(an_signature).(normalized);
          ac_canonical_signature := a.(an_canonical_signature);
          ac_presentation_signature := a.(an_presentation_signature);
          ac_signature_fidelity := signature_fidelity_code a.(an_signature_fidelity);
          ac_min_arity := Z.of_N <$> a.(an_signature).(min_arity);
          ac_max_arity := Z.of_N <$> a.(an_signature).(max_arity);
          ac_variadic := if a.(an_signature).(variadic) then 1 else 0;
          ac_name_range := range_columns a.(an_name_range);
          ac_declaration_range := range_columns a.(an_declaration_range);
          ac_body_range := range_columns <$> a.(an_body_range);
          ac_guard := a.(an_guard);
          ac_flags := fact_flags a.(an_provenance) a.(an_syntax_error_overlap) |}.

(** What the joined tables say about the file of a row. *)
Record FileColumns : Type := mkFileColumns {
  file_path : string;
  file_source : string;
  file_language : Z;
  file_directly_included : Z;
}.
(** The select list of [visit_anchors] read by [map_anchor]. *)
Definition map_anchor (id : Z) (f : FileColumns) (c : AnchorColumns) : CallableAnchorRow :=
  {| ar_id := id;
     ar_path := f.(file_path);
     ar_semantic_family := semantic_family f.(file_language);
     ar_source := f.(file_source);
     ar_directly_included := negb (Z.eqb f.(file_directly_included) 0);
     ar_entity_key := lower_hex c.(ac_entity_digest);
     ar_anchor_fingerprint := lower_hex c.(ac_anchor_digest);
     ar_name := c.(ac_name);
     ar_qualified_name := c.(ac_qualified_name);
     ar_owner := c.(ac_owner);
     ar_owner_kind := k ← c.(ac_owner_kind); owner_kind_label k;
     ar_kind := kind_label c.(ac_kind);
     ar_role := role_label c.(ac_role);
     ar_linkage_kind := linkage_label c.(ac_linkage_kind);
     ar_linkage_file := c.(ac_linkage_file);
     ar_signature := c.(ac_signature);
     ar_min_arity := i64_as_u32 <$> c.(ac_min_arity);
     ar_max_arity := i64_as_u32 <$> c.(ac_max_arity);
     ar_variadic := negb (Z.eqb c.(ac_variadic) 0);
     ar_canonical_signature := c.(ac_canonical_signature);
     ar_presentation_signature := c.(ac_presentation_signature);
     ar_signature_fidelity := signature_fidelity c.(ac_signature_fidelity);
     ar_name_range := range c.(ac_name_range);
     ar_declaration_range := range c.(ac_declaration_range);
     ar_body_range := range <$> c.(ac_body_range);
     ar_guard := c.(ac_guard);
     ar_provenance := provenance_label c.(ac_flags);
     ar_syntax_error_overlap := syntax_error_flag c.(ac_flags) |}.

Record SiteColumns : Type := mkSiteColumns {
  sc_expression_start_byte : Z;
  sc_expression_end_byte : Z;
  sc_callee_range : RangeColumns;
  sc_callee_name : option string;
  sc_qualified_name : option string;
  sc_call_form : Z;
  sc_argument_count : option Z;
  sc_guard : option string;
  sc_flags : Z;
}.
Definition write_call_site (c : CallSiteFact) : SiteColumns :=
  {| sc_expression_start_byte := usize_as_i64 c.(cs_expression_range).(start_byte);
     sc_expression_end_byte := usize_as_i64 c.(cs_expression_range).(end_byte);
     sc_callee_range := range_columns c.(cs_callee_range);
     sc_callee_name := c.(cs_callee_name);
     sc_qualified_name := c.(cs_qualified_name);
     sc_call_form := call_form_code c.(cs_form);
     sc_argument_count := Z.of_N <$> c.(cs_argument_count);
     sc_guard := c.(cs_guard);
     sc_flags := fact_flags c.(cs_provenance) c.(cs_syntax_error_overlap) |}.
(** The [CHECK] constraints of [call_site_facts]; an insert violating one fails. *)
Definition site_checks (c : SiteColumns) : bool :=
  ((0 <=? c.(sc_expression_start_byte)) && (c.(sc_expression_start_byte) <=? c.(sc_expression_end_byte))
   && (c.(sc_expression_start_byte) <=? c.(sc_callee_range).(col_start_byte))
   && (c.(sc_callee_range).(col_start_byte) <=? c.(sc_callee_range).(col_end_byte))
   && (c.(sc_callee_range).(col_end_byte) <=? c.(sc_expression_end_byte))
   && (0 <=? c.(sc_call_form)) && (c.(sc_call_form) <=? 9)
   && (Z.land c.(sc_flags) 255 =? 0) && (Z.land c.(sc_flags) (-512) =? 0))%Z.
(** The select list of [visit_call_sites] read by [map_call_site]; [caller] is the entity
    digest of the joined caller anchor. *)
Definition map_call_site (id : Z) (f : FileColumns) (caller : list N) (c : SiteColumns) : CallSiteRow :=
  let callee := c.(sc_callee_range) in
  {| sr_id := id;
     sr_path := f.(file_path);
     sr_source := f.(file_source);
     sr_caller_entity_key := lower_hex caller;
     sr_site_fingerprint := f.(file_path) +:+ "@" +:+ pretty callee.(col_start_byte);
     sr_expression_range :=
       range (mkRangeColumns c.(sc_expression_start_byte) c.(sc_expression_end_byte)
                callee.(col_start_line) callee.(col_start_col) callee.(col_end_line) callee.(col_end_col));
     sr_callee_range := range callee;
     sr_callee_name := c.(sc_callee_name);
     sr_qualified_name := c.(sc_qualified_name);
     sr_call_form := call_form_label c.(sc_call_form);
     sr_argument_count := i64_as_u32 <$> c.(sc_argument_count);
     sr_guard := c.(sc_guard);
     sr_provenance := "ast";
     sr_syntax_error_overlap := syntax_error_flag c.(sc_flags) |}.

(** ** Round trips *)

Lemma usize_i64_roundtrip v : (v <= usize_max)%N -> i64_as_usize (usize_as_i64 v) = v.
Proof.
  intros H. unfold i64_as_usize, usize_as_i64, usize_max in *.
  destruct (N.ltb_spec v 9223372036854775808).
  - rewrite Z.mod_small by lia. lia.
  - rewrite <- (Z.mod_add _ 1) by lia.
    replace (Z.of_N v - 18446744073709551616 + 1 * 18446744073709551616)%Z with (Z.of_N v) by lia.
    rewrite Z.mod_small by lia. lia.
Qed.
Lemma u32_i64_roundtrip v : (v < 4294967296)%N -> i64_as_u32 (Z.of_N v) = v.
Proof. intros H. unfold i64_as_u32. rewrite Z.mod_small by lia. lia. Qed.
Create Rewrite HintDb casts.
#[export] Hint Rewrite usize_i64_roundtrip u32_i64_roundtrip using (done || lia) : casts.

(** The width of the code's fields. *)
Definition range_fits (r : SourceRange) : Prop :=
  (r.(start_byte) <= usize_max)%N /\ (r.(end_byte) <= usize_max)%N /\
  (r.(range_start).(line) < 4294967296)%N /\ (r.(range_start).(character) < 4294967296)%N /\
  (r.(range_end).(line) < 4294967296)%N /\ (r.(range_end).(character) < 4294967296)%N.
Definition u32_fits (o : option N) : Prop := forall v, o = Some v -> (v < 4294967296)%N.

Lemma range_roundtrip r : range_fits r -> range (range_columns r) = r.
Proof.
  intros (? & ? & ? & ? & ? & ?). destruct r as [[] [] ? ?]. unfold range, range_columns. simpl in *.
  by autorewrite with casts.
Qed.
Lemma arity_roundtrip o : u32_fits o -> i64_as_u32 <$> (Z.of_N <$> o) = o.
Proof. intros H. destruct o as [v|]; simpl; [|done]. by rewrite u32_i64_roundtrip by (by apply H). Qed.
Lemma flags_roundtrip p e :
  parse_provenance (provenance_label (fact_flags p e)) = p /\ syntax_error_flag (fact_flags p e) = e.
Proof. by destruct p, e. Qed.

(** ** Digests *)

Lemma hex_digit_value_bound c v : hex_digit_value c = Some v -> (v < 16)%N.
Proof.
  unfold hex_digit_value. intros H. repeat case_match; simplify_eq; 
    rewrite ?andb_true_iff, ?N.leb_le in *; lia.
Qed.
Lemma hex_digit_lower c v : hex_digit_value c = Some v -> hex_digit v = lower_ascii c.
Proof.
  rewrite <- (Ascii.ascii_N_embedding c). generalize (Ascii.N_ascii_bounded c).
  generalize (Ascii.N_of_ascii c). intros n Hn.
  unfold hex_digit_value, hex_digit, lower_ascii. rewrite Ascii.N_ascii_embedding by done.
  intros H. repeat case_match; simplify_eq;
    rewrite ?andb_true_iff, ?andb_false_iff, ?N.leb_le, ?N.ltb_lt, ?N.ltb_ge, ?N.leb_gt in *;
    try lia; f_equal; lia.
Qed.
Lemma lower_hex_pairs s bytes : hex_pairs s = Some bytes -> lower_hex bytes = lower s.
Proof.
  revert bytes. induction s as [s IH] using (induction_ltof1 _ String.length). intros bytes.
  destruct s as [|a [|b rest]]; simpl; [by intros [= <-]|done|].
  destruct (hex_digit_value a) as [hi|] eqn:Ha; simpl; [|done].
  destruct (hex_digit_value b) as [lo|] eqn:Hb; simpl; [|done].
  destruct (hex_pairs rest) as [bs|] eqn:Hr; simpl; [|done]. intros [= <-]. simpl.
  pose proof (hex_digit_value_bound _ _ Hb).
  rewrite <- (hex_digit_lower _ _ Ha), <- (hex_digit_lower _ _ Hb), (IH rest) with (bytes := bs);
    [|unfold ltof; simpl; lia|done].
  do 2 f_equal; [f_equal|f_equal].
  - rewrite N.mul_comm, N.div_add_l by lia. rewrite N.div_small by done. lia.
  - f_equal. rewrite N.mul_comm, N.add_comm, N.Div0.mod_add. by apply N.mod_small.
Qed.
Lemma lower_hex_digest s bytes : digest_bytes s = Some bytes -> lower_hex bytes = lower s.
Proof. unfold digest_bytes. case_match; [|done]. apply lower_hex_pairs. Qed.

(** ** The stored facts *)

Record anchor_fits (a : CallableAnchor) : Prop := {
  af_name : range_fits a.(an_name_range);
  af_declaration : range_fits a.(an_declaration_range);
  af_body r : a.(an_body_range) = Some r -> range_fits r;
  af_min : u32_fits a.(an_signature).(min_arity);
  af_max : u32_fits a.(an_signature).(max_arity);
}.
(** What persistence makes of an anchor: the path is the file entry's, internal linkage is
    relative to that path and digests are in lower case. *)
Definition stored_linkage (path : string) (l : LinkageDomain) : LinkageDomain :=
  match l with LinkInternal _ => LinkInternal path | l => l end.
Definition stored_form (path : string) (a : CallableAnchor) : CallableAnchor :=
  mkAnchor path a.(an_name) a.(an_qualified_name) a.(an_owner) a.(an_owner_kind) a.(an_kind)
    a.(an_role) (stored_linkage path a.(an_linkage)) a.(an_signature) a.(an_canonical_signature)
    a.(an_presentation_signature) a.(an_signature_fidelity) a.(an_name_range)
    a.(an_declaration_range) a.(an_body_range) a.(an_guard) a.(an_provenance)
    a.(an_syntax_error_overlap) (lower a.(an_entity_key)) (lower a.(an_fingerprint)).

Lemma owner_kind_roundtrip o :
  parse_owner_kind ((owner_kind_code <$> o) ≫= owner_kind_label) = o.
Proof. by destruct o as [[]|]. Qed.
Lemma kind_roundtrip k : parse_callable_kind (kind_label (callable_kind_code k)) = k.
Proof. by destruct k. Qed.
Lemma role_roundtrip r : parse_anchor_role (role_label (anchor_role_code r)) = r.
Proof. by destruct r. Qed.
Lemma fidelity_roundtrip f : signature_fidelity (signature_fidelity_code f) = f.
Proof. by destruct f. Qed.
Lemma form_roundtrip f : parse_call_form (call_form_label (call_form_code f)) = f.
Proof. by destruct f. Qed.
Lemma body_range_roundtrip o :
  (forall r, o = Some r -> range_fits r) -> range <$> (range_columns <$> o) = o.
Proof. intros H. destruct o as [r|]; simpl; [|done]. by rewrite range_roundtrip by (by apply H). Qed.
#[export] Hint Rewrite owner_kind_roundtrip kind_roundtrip role_roundtrip fidelity_roundtrip
  form_roundtrip : casts.

(** Storing a callable anchor and reading it back through the query's labels gives the
    anchor itself up to its stored form: every enum code is decoded to its constructor,
    integers survive their casts, and only the path, the path of internal linkage and
    the case of the digests are canonicalised. *)
Theorem stored_anchor_roundtrip a cols id f :
  anchor_fits a -> write_anchor a = Some cols ->
  anchor_from_row (map_anchor id f cols) = stored_form f.(file_path) a.
Proof.
  intros [Hn Hd Hb Hmin Hmax]. unfold write_anchor.
  destruct (digest_bytes (an_entity_key a)) as [ed|] eqn:He; simpl; [|done].
  destruct (digest_bytes (an_fingerprint a)) as [ad|] eqn:Ha; simpl; [|done].
  destruct (linkage_columns (an_linkage a)) as [lk lf] eqn:Hl. intros [= <-].
  unfold anchor_from_row, map_anchor, stored_form; simpl.
  rewrite (lower_hex_digest _ _ He), (lower_hex_digest _ _ Ha).
  destruct (flags_roundtrip (an_provenance a) (an_syntax_error_overlap a)) as [-> ->].
  rewrite !range_roundtrip, body_range_roundtrip, !arity_roundtrip by done.
  autorewrite with casts. f_equal.
  - by destruct (an_linkage a); injection Hl as <- <-.
  - destruct (an_signature a) as [? ? ? []]; done.
Qed.

Definition stored_site_form (path : string) (caller : list N) (c : CallSiteFact) : CallSiteFact :=
  mkCallSite path (lower_hex caller)
    (mkSrcRange c.(cs_callee_range).(range_start) c.(cs_callee_range).(range_end)
       c.(cs_expression_range).(start_byte) c.(cs_expression_range).(end_byte))
    c.(cs_callee_range) c.(cs_callee_name) c.(cs_qualified_name) c.(cs_form) c.(cs_argument_count)
    c.(cs_guard) c.(cs_provenance) c.(cs_syntax_error_overlap)
    (path +:+ "@" +:+ pretty (usize_as_i64 c.(cs_callee_range).(start_byte))).

(** Storing a call site that the table accepts and reading it back loses nothing a
    relation uses: name, qualifier, form, argument count, guard, callee range, error
    flag and (because the table admits only syntactic facts) provenance are restored;
    the caller is the joined anchor's digest and the line and column of the expression
    are replaced by the callee's. *)
Theorem stored_call_site_roundtrip c id f caller :
  range_fits c.(cs_callee_range) -> range_fits c.(cs_expression_range) ->
  u32_fits c.(cs_argument_count) -> site_checks (write_call_site c) = true ->
  call_from_row (map_call_site id f caller (write_call_site c)) = stored_site_form f.(file_path) caller c.
Proof.
  intros Hc (H1 & H2 & _) Ha Hs. unfold call_from_row, map_call_site, stored_site_form; simpl.
  rewrite range_roundtrip, arity_roundtrip by done. autorewrite with casts.
  destruct (flags_roundtrip (cs_provenance c) (cs_syntax_error_overlap c)) as [_ ->].
  assert (cs_provenance c = ProvAst) as ->.
  { unfold site_checks, write_call_site in Hs. simpl in Hs.
    destruct (cs_provenance c), (cs_syntax_error_overlap c); try done;
      by rewrite !andb_false_r in Hs. }
  f_equal. unfold range; simpl.
  pose proof (range_roundtrip _ Hc) as Hr. unfold range in Hr.
  destruct (cs_callee_range c) as [rs re ? ?]; simpl in *. injection Hr as Hrs Hre _ _.
  rewrite Hrs, Hre. autorewrite with casts. by destruct (cs_expression_range c).
Qed.

(** ** Witnesses *)

Definition demo_pos (l c : N) : SourcePosition := mkPos l c.
Definition demo_name_range : SourceRange := mkSrcRange (mkPos 3 4) (mkPos 3 8) 40 44.
Definition demo_anchor : CallableAnchor :=
  mkAnchor "/ws/src/a.c" "open" "net::open" (Some "net") (Some OwnerNamespace) KindFunction
    RoleDefinition (LinkInternal "/ws/src/a.c") (mkSig "(int,...)" (Some 1%N) None true)
    "int(int,...)" "int open(int, ...)" AstExact demo_name_range demo_name_range
    (Some demo_name_range) (Some "#ifdef X") ProvAst true
    "0123456789abcdef01234567" "ABCDEF0123456789abcdef01".
Lemma stored_anchor_roundtrip_witness :
  match write_anchor demo_anchor with
  | Some cols => anchor_from_row (map_anchor 7 (mkFileColumns "src/a.c" "workspace" 1 0) cols)
                 = stored_form "src/a.c" demo_anchor
  | None => False
  end.
Proof.
  assert (range_fits demo_name_range) as Hr by (vm_compute; split_and!; (discriminate || reflexivity)).
  assert (anchor_fits demo_anchor) as Hf.
  { split; [done|done| | |]; simpl.
    - by intros r [= <-].
    - by intros v [= <-].
    - by intros v [=]. }
  exact (stored_anchor_roundtrip demo_anchor _ 7 (mkFileColumns "src/a.c" "workspace" 1 0) Hf eq_refl).
Defined.

Definition demo_site : CallSiteFact :=
  mkCallSite "/ws/src/a.c" "0123456789abcdef01234567"
    (mkSrcRange (mkPos 3 4) (mkPos 3 12) 40 48) demo_name_range
    (Some "open") None DirectName (Some 2%N) None ProvAst false "fp".
Lemma stored_call_site_roundtrip_witness :
  call_from_row (map_call_site 9 (mkFileColumns "src/a.c" "workspace" 1 0) [1; 35]%N (write_call_site demo_site))
  = stored_site_form "src/a.c" [1; 35]%N demo_site.
Proof.
  apply stored_call_site_roundtrip.
  - vm_compute; split_and!; (discriminate || reflexivity).
  - vm_compute; split_and!; (discriminate || reflexivity).
  - by intros v [= <-].
  - vm_compute. reflexivity.
Defined.
