(* ===== verification/Relations.v ===== *)
(** * Relation evidence between declarations (semantic_model/entity.rs)

    Build-condition guards are read as bytes: the conjunction splitter, the literal
    parser and the small condition algebra, then the strength of the relation between
    two callable anchors. *)

From S2P Require Import Prelude CallModel.

Inductive RelationStrength : Type := Proven | CompatibleCandidate | StrengthIncompatible.
#[export] Instance RelationStrength_eq_dec : EqDecision RelationStrength.
Proof. solve_decision. Defined.
Inductive ConditionRelation : Type := CondSame | CondUnconditional | CondUnknown | CondIncompatible.
#[export] Instance ConditionRelation_eq_dec : EqDecision ConditionRelation.
Proof. solve_decision. Defined.
Record RelationEvidence : Type := mkEvidence {
  strength : RelationStrength;
  condition : ConditionRelation;
  ev_reachable : bool;
  owner_proven : bool;
  complete : bool;
}.

(** ** Bytes *)

Definition in_range (lo hi b : N) : bool := ((lo <=? b) && (b <=? hi))%N.
(** One character of the Unicode White_Space property at the front, in UTF-8. *)
Definition strip_whitespace (s : list N) : option (list N) :=
  match s with
  | a :: rest =>
      if in_range 9 13 a || (a =? 32)%N then Some rest
      else match rest with
           | b :: rest2 =>
               if (a =? 194)%N && ((b =? 133)%N || (b =? 160)%N) then Some rest2
               else match rest2 with
                    | c :: rest3 =>
                        if ((a =? 225) && (b =? 154) && (c =? 128))%N
                           || ((a =? 226) && (b =? 128))%N
                              && (in_range 128 138 c || (c =? 168) || (c =? 169) || (c =? 175))%N
                           || ((a =? 226) && (b =? 129) && (c =? 159))%N
                           || ((a =? 227) && (b =? 128) && (c =? 128))%N
                        then Some rest3 else None
                    | [] => None
                    end
           | [] => None
           end
  | [] => None
  end.
(** The same at the end, on the reversed bytes. *)
Definition strip_whitespace_rev (s : list N) : option (list N) :=
  match s with
  | a :: rest =>
      if in_range 9 13 a || (a =? 32)%N then Some rest
      else match rest with
           | b :: rest2 =>
               if (b =? 194)%N && ((a =? 133)%N || (a =? 160)%N) then Some rest2
               else match rest2 with
                    | c :: rest3 =>
                        if ((c =? 225) && (b =? 154) && (a =? 128))%N
                           || ((c =? 226) && (b =? 128))%N
                              && (in_range 128 138 a || (a =? 168) || (a =? 169) || (a =? 175))%N
                           || ((c =? 226) && (b =? 129) && (a =? 159))%N
                           || ((c =? 227) && (b =? 128) && (a =? 128))%N
                        then Some rest3 else None
                    | [] => None
                    end
           | [] => None
           end
  | [] => None
  end.
(** Each step removes a byte, so the length is enough fuel. *)
Fixpoint strip_all (strip : list N -> option (list N)) (fuel : nat) (s : list N) : list N :=
  match fuel with
  | O => s
  | S fuel => match strip s with Some s' => strip_all strip fuel s' | None => s end
  end.
(** [str::trim] *)
Definition trim (s : list N) : list N :=
  let front := strip_all strip_whitespace (length s) s in
  rev (strip_all strip_whitespace_rev (length front) (rev front)).

Definition trimmed (s : string) : string := of_bytes (trim (bytes_of s)).

Fixpoint strip_prefix (prefix s : list N) : option (list N) :=
  match prefix, s with
  | [], _ => Some s
  | p :: prefix', b :: s' => if (p =? b)%N then strip_prefix prefix' s' else None
  | _ :: _, [] => None
  end.
Definition strip_suffix_byte (x : N) (s : list N) : option (list N) :=
  match rev s with b :: r => if (b =? x)%N then Some (rev r) else None | [] => None end.
Fixpoint contains_pair (x : N) (s : list N) : bool :=
  match s with
  | a :: (b :: _) as rest => ((a =? x) && (b =? x))%N || contains_pair x rest
  | _ => false
  end.
Definition is_alphanumeric (b : N) : bool := in_range 48 57 b || in_range 65 90 b || in_range 97 122 b.
Definition is_word (b : N) : bool := is_alphanumeric b || (b =? 95)%N.

(** ** Guards *)

(** The [while index < bytes.len()] loop: the terms between the [&&] outside of
    parentheses; [None] where the code returns no literal at all. *)
Fixpoint split_terms (bytes : list N) (depth : Z) (current : list N) (terms : list (list N)) :
    option (list (list N)) :=
  match bytes with
  | [] => if Z.eqb depth 0 then Some (terms ++ [rev current]) else None
  | b :: rest =>
      if (b =? 40)%N then split_terms rest (depth + 1) (b :: current) terms
      else if (b =? 41)%N then
        if (depth - 1 <? 0)%Z then None else split_terms rest (depth - 1) (b :: current) terms
      else
        match rest with
        | b' :: rest' =>
            if (b =? 38)%N && Z.eqb depth 0 && (b' =? 38)%N then
              if Nat.eqb (length terms) 32 then None
              else split_terms rest' depth [] (terms ++ [rev current])
            else split_terms rest depth (b :: current) terms
        | [] => split_terms rest depth (b :: current) terms
        end
  end.

(** The closure over [term.bytes().enumerate()]. *)
Fixpoint enclosing (depth : Z) (s : list N) : bool :=
  match s with
  | [] => true
  | b :: rest =>
      let depth := if (b =? 40)%N then (depth + 1)%Z else if (b =? 41)%N then (depth - 1)%Z else depth in
      ((0 <? depth)%Z || (match rest with [] => true | _ => false end)) && enclosing depth rest
  end.
(** The [for _ in 0..16] loop over one term. *)
Fixpoint peel (fuel : nat) (term : list N) (positive : bool) : list N * bool :=
  match fuel with
  | O => (term, positive)
  | S fuel =>
      match strip_prefix [33%N] term with
      | Some inner => peel fuel (trim inner) (negb positive)
      | None =>
          match strip_prefix [40%N] term, strip_suffix_byte 41 term with
          | Some _, Some _ =>
              if enclosing 0 term
              then peel fuel (trim (take (length term - 2) (drop 1 term))) positive
              else (term, positive)
          | _, _ => (term, positive)
          end
      end
  end.

Definition strip_condition_keyword (text : list N) (keyword : string) : option (list N) :=
  rest ← strip_prefix (bytes_of keyword) text;
  match rest with
  | b :: _ => if is_word b then None else Some (trim rest)
  | [] => Some (trim rest)
  end.

(** One iteration of the loop over the terms. *)
Definition term_literal (term : list N) : option (list N * bool) :=
  let '(term, positive) := peel 16 (trim term) true in
  let '(atom, defined, positive) :=
    match strip_condition_keyword term "#ifndef" with
    | Some atom => (atom, true, negb positive)
    | None =>
        match strip_condition_keyword term "#ifdef" with
        | Some atom => (atom, true, positive)
        | None =>
            match strip_condition_keyword term "#elif" with
            | Some atom => (atom, false, positive)
            | None =>
                match strip_condition_keyword term "#if" with
                | Some atom => (atom, false, positive)
                | None => (term, false, positive)
                end
            end
        end
    end in
  let '(atom, positive) :=
    match strip_prefix [33%N] atom with
    | Some inner => (trim inner, negb positive)
    | None => (atom, positive)
    end in
  let '(atom, defined) :=
    match strip_condition_keyword atom "defined" with
    | Some inner =>
        (trim (default inner (s ← strip_prefix [40%N] inner; strip_suffix_byte 41 s)), true)
    | None => (trim atom, defined)
    end in
  match atom with
  | [] => None
  | first :: _ =>
      if negb (forallb is_word atom) || in_range 48 57 first then None
      else Some ((if defined then bytes_of "defined:" else bytes_of "value:") ++ atom, positive)
  end.

Definition condition_literals (guard : string) : list (list N * bool) :=
  let compact := bytes_of guard in
  if (4096 <? length compact)%nat || contains_pair 124 compact then []
  else match split_terms compact 0 [] [] with
       | None => []
       | Some terms => omap term_literal (take 32 terms)
       end.

Definition is_none_or_empty (g : option string) : bool :=
  match g with None => true | Some s => String.eqb s "" end.
Definition condition_relation (left right : option string) : ConditionRelation :=
  if bool_decide (left = right) then CondSame
  else if is_none_or_empty left || is_none_or_empty right then CondUnconditional
  else
    let left_terms := condition_literals (default "" left) in
    let right_terms := condition_literals (default "" right) in
    if existsb (fun '(name, value) =>
         existsb (fun '(other, other_value) =>
           bool_decide (name = other) && negb (Bool.eqb value other_value)) right_terms) left_terms
    then CondIncompatible else CondUnknown.

(** ** Evidence *)

Definition relation_evidence (same_identity : bool) (cond : ConditionRelation)
    (reachable owner_proven complete : bool) : RelationEvidence :=
  mkEvidence
    (if negb same_identity || bool_decide (cond = CondIncompatible) then StrengthIncompatible
     else if complete && owner_proven && reachable && bool_decide (cond = CondSame) then Proven
     else CompatibleCandidate)
    cond reachable owner_proven complete.

Definition owner_is_free (a : CallableAnchor) : bool :=
  match a.(an_owner_kind) with None | Some OwnerNamespace => true | _ => false end.
Definition anchor_complete (a : CallableAnchor) : bool :=
  bool_decide (a.(an_signature_fidelity) = AstExact) && negb a.(an_syntax_error_overlap).
Definition same_callable (left right : CallableAnchor) : bool :=
  bool_decide (left.(an_kind) = KindFunction) && bool_decide (right.(an_kind) = KindFunction)
  && String.eqb left.(an_qualified_name) right.(an_qualified_name)
  && bool_decide (left.(an_owner) = right.(an_owner))
  && negb (String.eqb left.(an_canonical_signature) "")
  && String.eqb left.(an_canonical_signature) right.(an_canonical_signature)
  && bool_decide (left.(an_linkage) = right.(an_linkage))
  && bool_decide (left.(an_linkage) = LinkExternal).
Definition callable_relation (left right : CallableAnchor) (reachable : bool) : RelationEvidence :=
  relation_evidence (same_callable left right)
    (condition_relation left.(an_guard) right.(an_guard)) reachable
    (forallb owner_is_free [left; right]) (forallb anchor_complete [left; right]).

(** ** The condition algebra *)

Definition contradict (a b : list N * bool) : bool :=
  bool_decide (a.1 = b.1) && negb (Bool.eqb a.2 b.2).
Lemma contradict_sym a b : contradict a b = contradict b a.
Proof.
  unfold contradict. rewrite (bool_decide_ext (a.1 = b.1) (b.1 = a.1)) by done.
  by destruct (a.2), (b.2).
Qed.
Definition literals_clash (l r : list (list N * bool)) : bool :=
  existsb (fun a => existsb (contradict a) r) l.
Lemma literals_clash_true l r :
  literals_clash l r = true <-> exists a b, a ∈ l /\ b ∈ r /\ contradict a b = true.
Proof.
  unfold literals_clash. rewrite existsb_exists. setoid_rewrite existsb_exists.
  setoid_rewrite <- list_elem_of_In. naive_solver.
Qed.
Lemma literals_clash_sym l r : literals_clash l r = literals_clash r l.
Proof.
  apply eq_true_iff_eq. rewrite !literals_clash_true.
  split; intros (a & b & ? & ? & H); exists b, a; by rewrite contradict_sym.
Qed.
Lemma condition_relation_eq left right :
  condition_relation left right =
    if bool_decide (left = right) then CondSame
    else if is_none_or_empty left || is_none_or_empty right then CondUnconditional
    else if literals_clash (condition_literals (default "" left)) (condition_literals (default "" right))
    then CondIncompatible else CondUnknown.
Proof.
  unfold condition_relation, literals_clash. do 2 (case_match; [done|]).
  assert (forall l r, existsb (fun '(name, value) => existsb (fun '(other, other_value) =>
    bool_decide (name = other) && negb (Bool.eqb value other_value)) r) l
    = existsb (fun a => existsb (contradict a) r) l) as ->; [|done].
  intros l r. induction l as [|[n v] l IH]; simpl; [done|]. rewrite IH. f_equal. clear IH.
  induction r as [|[n' v'] r IHr]; simpl; [done|]. by rewrite IHr.
Qed.
Lemma condition_relation_sym left right : condition_relation left right = condition_relation right left.
Proof.
  rewrite !condition_relation_eq, orb_comm, literals_clash_sym.
  by rewrite (bool_decide_ext (left = right) (right = left)) by done.
Qed.

(** A macro environment gives every atom (of definedness or of value) a truth value; it
    admits a guard when all the literals read from the guard hold. *)
Definition admits (env : list N -> bool) (guard : string) : Prop :=
  Forall (fun '(name, value) => env name = value) (condition_literals guard).

(** Incompatibility is a proof: two guards are called incompatible only when both are
    present, neither is disjunctive nor over the length bound, and no macro environment
    admits both; the relation does not depend on the order of the two. *)
Theorem incompatible_guards_exclude left right :
  condition_relation left right = condition_relation right left /\
  (condition_relation left right = CondIncompatible ->
   exists l r, left = Some l /\ right = Some r /\
     contains_pair 124 (bytes_of l) = false /\ contains_pair 124 (bytes_of r) = false /\
     (length (bytes_of l) <= 4096)%nat /\ (length (bytes_of r) <= 4096)%nat /\
     forall env, ~ (admits env l /\ admits env r)).
Proof.
  split; [apply condition_relation_sym|]. rewrite condition_relation_eq.
  case_match; [done|]. destruct left as [l|]; [|done]. destruct right as [r|]; simpl; [|by rewrite orb_true_r].
  case_match; [done|]. case_match eqn:Hc; [|done]. intros _.
  apply literals_clash_true in Hc as ([n v] & [n' v'] & Hl & Hr & Hx). exists l, r.
  assert (forall g x, x ∈ condition_literals g ->
    contains_pair 124 (bytes_of g) = false /\ (length (bytes_of g) <= 4096)%nat) as Hg.
  { intros g x. unfold condition_literals. destruct ((4096 <? length (bytes_of g))%nat || contains_pair 124 (bytes_of g)) eqn:E; [by intros ?%not_elem_of_nil|].
    apply orb_false_iff in E as [E1 E2]. by apply Nat.ltb_ge in E1. }
  destruct (Hg _ _ Hl), (Hg _ _ Hr). split_and!; [done..|].
  intros env [Hal Har]. unfold admits in *. rewrite Forall_forall in Hal, Har.
  specialize (Hal _ Hl). specialize (Har _ Hr). simpl in *.
  unfold contradict in Hx. simpl in Hx. apply andb_true_iff in Hx as [->%bool_decide_eq_true Hne].
  rewrite <- Hal, <- Har, eqb_reflx in Hne. done.
Qed.

(** ** Callable pairs *)

Lemma callable_relation_proven left right reachable :
  strength (callable_relation left right reachable) = Proven <->
  same_callable left right = true /\ left.(an_guard) = right.(an_guard) /\ reachable = true /\
  forallb owner_is_free [left; right] = true /\ forallb anchor_complete [left; right] = true.
Proof.
  unfold callable_relation, relation_evidence. simpl strength.
  assert (condition_relation (an_guard left) (an_guard right) = CondSame <-> an_guard left = an_guard right) as Hc.
  { rewrite condition_relation_eq. case_bool_decide; [by split|]. by repeat case_match. }
  destruct (same_callable left right); simpl; [|by split; [|intros [? _]]].
  case_bool_decide as Hi; simpl.
  - split; [done|]. intros (_ & H & _). apply Hc in H. congruence.
  - rewrite <- Hc. destruct (owner_is_free left && _), (anchor_complete left && _), reachable; simpl;
      try case_bool_decide; intuition congruence.
Qed.

Example guards_1 : condition_relation (Some "ENABLED") (Some "!ENABLED") = CondIncompatible.
Proof. vm_compute. reflexivity. Qed.
Example guards_2 : condition_relation (Some "!(#ifdef A) && (#elif B)") (Some "#ifdef A") = CondIncompatible.
Proof. vm_compute. reflexivity. Qed.
Example guards_3 : condition_relation (Some "OTHER") (Some "!ENABLED") = CondUnknown.
Proof. vm_compute. reflexivity. Qed.
Example guards_4 : condition_literals " #if defined ( A )  && !B && (C || D)" = [].
Proof. vm_compute. reflexivity. Qed.
(** Only the spelling [||] is recognised as a disjunction: with the alternative token the
    second operand of [A || (B && C)] is read as a literal of its own. *)
Example guards_5 :
  condition_relation (Some "#if A or B && C") (Some "#if !C") = CondIncompatible.
Proof. vm_compute. reflexivity. Qed.
