(* ===== verification/Callables.v ===== *)
(** * Callable candidate resolution (query/callables/)

    The bounded candidate query over already recalled anchors: shadowing, scope and form
    filters, the arity policy (arity.rs) and the strict pairing of declarations with
    definitions (counterpart.rs). *)

From S2P Require Import Prelude Candidates Resolver Reachability CallModel Relations.

(** ** Vocabulary *)

Inductive ArgumentState : Type :=
  | ArgsComplete
  | ArgsPartial (minimum_arity active_argument : N)
  | ArgsUnknown.
Inductive ContextReliability : Type := Reliable | RelSyntaxErrorOverlap | RelUnsupportedCallForm.
#[export] Instance ContextReliability_eq_dec : EqDecision ContextReliability.
Proof. solve_decision. Defined.
Definition is_reliable (r : ContextReliability) : bool := bool_decide (r = Reliable).

Record CallSiteContext : Type := mkCallContext {
  ctx_callee_name : string;
  ctx_qualified_name : option string;
  ctx_form : CallForm;
  ctx_callee_range : SourceRange;
  ctx_argument_count : option N;
  argument_state : ArgumentState;
  reliability : ContextReliability;
}.
Definition from_complete_call (fact : CallSiteFact) (position : SourcePosition) : option CallSiteContext :=
  if negb (position_in_range position fact.(cs_callee_range)) then None
  else
    callee_name ← fact.(cs_callee_name);
    let reliability :=
      if fact.(cs_syntax_error_overlap) then RelSyntaxErrorOverlap
      else if negb (name_form fact.(cs_form)) then RelUnsupportedCallForm
      else Reliable in
    Some (mkCallContext callee_name fact.(cs_qualified_name) fact.(cs_form) fact.(cs_callee_range)
            fact.(cs_argument_count)
            (match fact.(cs_argument_count) with Some _ => ArgsComplete | None => ArgsUnknown end)
            reliability).
Definition partial (callee_name : string) (form : CallForm) (callee_range : SourceRange)
    (minimum_arity active_argument : N) (reliability : ContextReliability) : CallSiteContext :=
  mkCallContext callee_name None form callee_range None (ArgsPartial minimum_arity active_argument)
    reliability.

Inductive ArityCompatibility : Type := ArityCompatible | ArityUnknown | ArityIncompatible.
#[export] Instance ArityCompatibility_eq_dec : EqDecision ArityCompatibility.
Proof. solve_decision. Defined.
Definition arity_rank (c : ArityCompatibility) : N :=
  match c with ArityCompatible => 2 | ArityUnknown => 1 | ArityIncompatible => 0 end.
Inductive ArityFilterOutcome : Type := NotApplied | Filtered | UnknownOnly | MismatchFallback.
#[export] Instance ArityFilterOutcome_eq_dec : EqDecision ArityFilterOutcome.
Proof. solve_decision. Defined.

Inductive CandidateOrigin : Type := OriginBase | OriginOverlay.
Inductive CandidateIncompleteReason : Type :=
  | ScanLimit | CandidateBudget | TimeBudget | ReasonCancelled | FactsUnavailable | GenerationMismatch.
Record CandidateCoverage : Type := mkCandidateCoverage {
  cc_scanned : N;
  cc_truncated : bool;
  cc_scope_open : bool;
  incomplete_reason : option CandidateIncompleteReason;
}.
Definition permits_uniqueness (c : CandidateCoverage) : bool :=
  negb c.(cc_truncated) && negb c.(cc_scope_open)
  && (match c.(incomplete_reason) with None => true | Some _ => false end).

Record ResolvedCallableAnchor : Type := mkResolved {
  anchor : CallableAnchor;
  candidate : DefinitionCandidate;
  arity_compatibility : ArityCompatibility;
  origin : CandidateOrigin;
}.
Definition ResolvedCallableAnchor_new (a : CallableAnchor) (c : DefinitionCandidate) (o : CandidateOrigin) :
    ResolvedCallableAnchor := mkResolved a c ArityUnknown o.

(** ** The arity policy *)

Definition compatibility_for_signature (signature : SignatureShape) (context : option CallSiteContext) :
    ArityCompatibility :=
  match context with
  | None => ArityUnknown
  | Some context =>
      if negb (is_reliable context.(reliability)) then ArityUnknown
      else match context.(argument_state) with
           | ArgsComplete =>
               match context.(ctx_argument_count) with
               | None => ArityUnknown
               | Some arity =>
                   match accepts_arity signature arity with
                   | Some true => ArityCompatible
                   | Some false => ArityIncompatible
                   | None => ArityUnknown
                   end
               end
           | ArgsPartial minimum_arity _ =>
               match signature.(max_arity) with
               | Some max => if (max <? minimum_arity)%N then ArityIncompatible else ArityCompatible
               | None =>
                   if signature.(variadic) && bool_decide (is_Some signature.(min_arity))
                   then ArityCompatible else ArityUnknown
               end
           | ArgsUnknown => ArityUnknown
           end
  end.

Definition anchor_order : ResolvedCallableAnchor -> ResolvedCallableAnchor -> comparison :=
  cmp_lex (cmp_rev (cmp_on (fun a => tier_rank a.(candidate).(tier)) Z.compare))
  (cmp_lex (cmp_rev (cmp_on (fun a => arity_rank a.(arity_compatibility)) N.compare))
  (cmp_lex (cmp_rev (cmp_on (fun a => a.(candidate).(base_match)) Z.compare))
  (cmp_lex (cmp_on (fun a => a.(anchor).(an_path)) String.compare)
           (cmp_on (fun a => a.(anchor).(an_name_range).(start_byte)) N.compare)))).
Definition sort_anchors (anchors : list ResolvedCallableAnchor) : list ResolvedCallableAnchor :=
  sort_by anchor_order anchors.

(** [anchor.arity_compatibility = compatibility_for_signature(..)] *)
Definition classify_arity (context : option CallSiteContext) (a : ResolvedCallableAnchor) :
    ResolvedCallableAnchor :=
  mkResolved a.(anchor) a.(candidate)
    (compatibility_for_signature a.(anchor).(an_signature) context) a.(origin).
(** [anchor.candidate.confidence = ResolutionConfidence::Fallback] *)
Definition downgrade (a : ResolvedCallableAnchor) : ResolvedCallableAnchor :=
  let c := a.(candidate) in
  mkResolved a.(anchor)
    (mkCandidate c.(cand_name) c.(cand_kind) c.(cand_role) c.(cand_path) c.(cand_range) c.(cand_source)
       c.(tier) c.(base_match) Fallback c.(cand_reason))
    a.(arity_compatibility) a.(origin).
Definition has_arity (k : ArityCompatibility) (a : ResolvedCallableAnchor) : bool :=
  bool_decide (a.(arity_compatibility) = k).
Definition can_apply_arity (context : option CallSiteContext) : bool :=
  match context with
  | Some c => is_reliable c.(reliability) && (match c.(argument_state) with ArgsUnknown => false | _ => true end)
  | None => false
  end.

Definition apply_arity_policy (anchors : list ResolvedCallableAnchor) (context : option CallSiteContext) :
    list ResolvedCallableAnchor * ArityFilterOutcome :=
  let anchors := classify_arity context <$> anchors in
  if negb (can_apply_arity context) || (match anchors with [] => true | _ => false end)
  then (sort_anchors anchors, NotApplied)
  else
    let compatible := existsb (has_arity ArityCompatible) anchors in
    let unknown := existsb (has_arity ArityUnknown) anchors in
    let '(anchors, outcome) :=
      if compatible then (List.filter (fun a => negb (has_arity ArityIncompatible a)) anchors, Filtered)
      else if unknown then (List.filter (has_arity ArityUnknown) anchors, UnknownOnly)
      else (downgrade <$> anchors, MismatchFallback) in
    (sort_anchors anchors, outcome).

(** ** Paths *)

(** [path.rsplit_once('.')]: what follows the last dot. *)
Fixpoint extension (path : string) : option string :=
  match path with
  | EmptyString => None
  | String.String c rest =>
      match extension rest with
      | Some e => Some e
      | None => if (Ascii.N_of_ascii c =? 46)%N then Some rest else None
      end
  end.
Definition eq_ignore_ascii_case (a b : string) : bool := String.eqb (lower a) (lower b).
Definition is_header_path (path : string) : bool :=
  match extension path with
  | Some e => existsb (eq_ignore_ascii_case e) ["h"; "hh"; "hpp"; "hxx"; "inl"]
  | None => false
  end.
Definition is_source_path (path : string) : bool :=
  match extension path with
  | Some e => existsb (eq_ignore_ascii_case e) ["c"; "cc"; "cpp"; "cxx"]
  | None => false
  end.
Definition is_source_definition (a : ResolvedCallableAnchor) : bool :=
  bool_decide (a.(anchor).(an_role) = RoleDefinition) && is_source_path a.(anchor).(an_path).
Definition is_header_declaration (a : ResolvedCallableAnchor) : bool :=
  bool_decide (a.(anchor).(an_role) = RoleDeclaration) && is_header_path a.(anchor).(an_path).

(** ** Theorems about arity *)

#[export] Instance anchor_order_lawful : LawfulCmp anchor_order.
Proof. unfold anchor_order. apply _. Qed.

(** The arities a signature record can carry. *)
Definition signature_ordered (s : SignatureShape) : Prop :=
  exists min, s.(min_arity) = Some min /\ forall max, s.(max_arity) = Some max -> (min <= max)%N.

(** Signature help while typing agrees with the finished call: an overload rejected
    because of the arguments typed so far rejects every completion of the call, and one
    kept as compatible accepts some completion of it. *)
Theorem partial_arity_agrees s name form range typed active :
  let c := partial name form range typed active Reliable in
  (compatibility_for_signature s (Some c) = ArityIncompatible ->
   forall n, (typed <= n)%N -> accepts_arity s n <> Some true) /\
  (signature_ordered s -> compatibility_for_signature s (Some c) = ArityCompatible ->
   exists n, (typed <= n)%N /\ accepts_arity s n = Some true).
Proof.
  unfold compatibility_for_signature, partial, accepts_arity; simpl. split.
  - destruct (max_arity s) as [max|]; [|by case_match].
    case_match eqn:Hm; [|done]. intros _ n Hn. apply N.ltb_lt in Hm.
    destruct (min_arity s) as [min|]; [|done]. case_match; [done|].
    intros [= Hle%N.leb_le]. lia.
  - intros (min & Hmin & Hmax). rewrite Hmin. simpl.
    destruct (max_arity s) as [max|] eqn:E.
    + case_match eqn:Hm; [done|]. intros _. apply N.ltb_ge in Hm. exists max. split; [done|].
      specialize (Hmax _ eq_refl). rewrite (proj2 (N.ltb_ge max min)) by done. by rewrite N.leb_refl.
    + destruct (variadic s) eqn:Ev; simpl; [|done]. intros _. exists (N.max typed min).
      rewrite (proj2 (N.ltb_ge (N.max typed min) min)) by lia. split; [lia|done].
Qed.

Lemma filter_nil_iff {A} (f : A -> bool) l : List.filter f l = [] <-> existsb f l = false.
Proof.
  induction l as [|x l IH]; simpl; [done|]. destruct (f x); simpl; [done|exact IH].
Qed.
Lemma existsb_weaken {A} (f g : A -> bool) l :
  (forall x, f x = true -> g x = true) -> existsb f l = true -> existsb g l = true.
Proof. rewrite !existsb_exists. naive_solver. Qed.
Lemma sort_by_nil_iff {A} (cmp : A -> A -> comparison) l : sort_by cmp l = [] <-> l = [].
Proof. rewrite <- !length_zero_iff_nil. by rewrite sort_by_length. Qed.
Lemma all_incompatible_iff l :
  Forall (fun a => has_arity ArityIncompatible a = true) l <->
  existsb (has_arity ArityCompatible) l = false /\ existsb (has_arity ArityUnknown) l = false.
Proof.
  induction l as [|a l IH]; simpl; [by intuition|]. rewrite Forall_cons, IH, !orb_false_iff.
  unfold has_arity. destruct (arity_compatibility a); simpl; intuition congruence.
Qed.

(** The arity policy never hides a match and never empties a set: every compatible
    anchor is kept, a result is empty only for an empty input, the mismatch fallback is
    taken exactly when every anchor is provably incompatible (all are then kept, with
    their confidence downgraded), otherwise the result is part of the classified input,
    and a filtered result holds no incompatible anchor. *)
Theorem arity_policy_never_hides anchors context :
  let classified := classify_arity context <$> anchors in
  let '(out, outcome) := apply_arity_policy anchors context in
  StronglySorted (cmp_le anchor_order) out /\
  (out = [] <-> anchors = []) /\
  (forall a, a ∈ classified -> has_arity ArityCompatible a = true -> a ∈ out) /\
  (outcome = MismatchFallback <->
     anchors <> [] /\ can_apply_arity context = true /\ Forall (fun a => has_arity ArityIncompatible a = true) classified) /\
  (if decide (outcome = MismatchFallback) then out ≡ₚ downgrade <$> classified else out ⊆+ classified) /\
  (outcome = Filtered \/ outcome = UnknownOnly -> Forall (fun a => has_arity ArityIncompatible a = false) out).
Proof.
  intros classified. unfold apply_arity_policy. fold classified.
  assert (classified = [] <-> anchors = []) as Hnil by (destruct anchors; simpl; naive_solver).
  unfold sort_anchors. destruct (can_apply_arity context) eqn:Hc; simpl.
  2: { split_conj; [apply sort_by_sorted, _|by rewrite sort_by_nil_iff| | | |by intros [|]].
    - intros a ? _. by apply elem_of_sort_by.
    - by split; [|intros (_ & ? & _)].
    - by rewrite sort_by_perm. }
  destruct (decide (classified = [])) as [Hz|Hz].
  { rewrite Hz. simpl. split_conj; [constructor|by rewrite <- Hnil|done| |done|by intros [|]].
    split; [done|]. intros (Hn & _). by destruct Hn; apply Hnil. }
  assert (match classified with [] => true | _ => false end = false) as -> by (by destruct classified).
  assert (anchors <> []) as Hz' by (by rewrite <- Hnil).
  pose proof (all_incompatible_iff classified) as Hall.
  destruct (existsb (has_arity ArityCompatible) classified) eqn:E1;
    [|destruct (existsb (has_arity ArityUnknown) classified) eqn:E2].
  - split_conj; [apply sort_by_sorted, _| | | | |].
    + rewrite sort_by_nil_iff, filter_nil_iff. split; [|done]. intros Hx. exfalso.
      apply not_true_iff_false in Hx. apply Hx. eapply existsb_weaken; [|exact E1].
      unfold has_arity. intros a. by destruct (arity_compatibility a).
    + intros a Ha Hca. apply elem_of_sort_by, elem_of_filter_bool. split; [done|].
      revert Hca. unfold has_arity. by destruct (arity_compatibility a).
    + split; [done|]. intros (_ & _ & Hx). by apply Hall in Hx as [? _].
    + simpl. rewrite sort_by_perm. apply sublist_submseteq, list_filter_bool_sublist.
    + intros _. rewrite sort_by_perm. apply Forall_forall. intros a [_ Ha]%elem_of_filter_bool.
      by apply negb_true_iff in Ha.
  - split_conj; [apply sort_by_sorted, _| | | | |].
    + rewrite sort_by_nil_iff, filter_nil_iff, E2. by split.
    + intros a Ha Hca. exfalso. apply not_true_iff_false in E1. apply E1, existsb_exists.
      exists a. by rewrite <- list_elem_of_In.
    + split; [done|]. intros (_ & _ & Hx). by apply Hall in Hx as [_ ?].
    + simpl. rewrite sort_by_perm. apply sublist_submseteq, list_filter_bool_sublist.
    + intros _. rewrite sort_by_perm. apply Forall_forall. intros a [_ Ha]%elem_of_filter_bool.
      revert Ha. unfold has_arity. by destruct (arity_compatibility a).
  - split_conj; [apply sort_by_sorted, _| | | | |by intros [|]].
    + rewrite sort_by_nil_iff, <- Hnil. by destruct classified.
    + intros a Ha Hca. exfalso. apply not_true_iff_false in E1. apply E1, existsb_exists.
      exists a. by rewrite <- list_elem_of_In.
    + split; [|done]. intros _. by split_conj; [..|apply Hall].
    + simpl. apply sort_by_perm.
Qed.
