(* ===== verification/Counterparts.v ===== *)
(** * Strict declaration/definition pairing and the candidate query
    (query/callables/counterpart.rs, query/callables/mod.rs) *)

From S2P Require Import Prelude Candidates Resolver Reachability CallModel Relations Callables.

Inductive CounterpartEvidence : Type :=
  | Unpaired
  | IncompleteCoverage
  | AmbiguousEdges (candidate_edges : nat)
  | StrictOneToOne.

Record CallableVariantGroup : Type := mkVariantGroup {
  header_declaration : option ResolvedCallableAnchor;
  source_definition : option ResolvedCallableAnchor;
  other_variants : list ResolvedCallableAnchor;
  vg_tier : ScopeTier;
  counterpart_evidence : CounterpartEvidence;
}.
Definition variants (g : CallableVariantGroup) : list ResolvedCallableAnchor :=
  option_list g.(header_declaration) ++ option_list g.(source_definition) ++ g.(other_variants).
(** [max_by_key(rank).unwrap_or(Unknown)] *)
Definition strongest_arity_compatibility (g : CallableVariantGroup) : ArityCompatibility :=
  default ArityUnknown
    (foldl (fun best v => match best with
                          | None => Some v.(arity_compatibility)
                          | Some b => if (arity_rank b <=? arity_rank v.(arity_compatibility))%N
                                      then Some v.(arity_compatibility) else Some b
                          end) None (variants g)).

Definition stronger_tier (left right : ScopeTier) : ScopeTier :=
  if (tier_rank right <=? tier_rank left)%Z then left else right.
Definition pair_group (source header : ResolvedCallableAnchor) : CallableVariantGroup :=
  mkVariantGroup (Some header) (Some source) []
    (stronger_tier source.(candidate).(tier) header.(candidate).(tier)) StrictOneToOne.
Definition singleton_group (a : ResolvedCallableAnchor) (e : CounterpartEvidence) : CallableVariantGroup :=
  if is_header_declaration a then mkVariantGroup (Some a) None [] a.(candidate).(tier) e
  else if is_source_definition a then mkVariantGroup None (Some a) [] a.(candidate).(tier) e
  else mkVariantGroup None None [a] a.(candidate).(tier) e.

Definition strict_edge (source_reach : gmap string ReachScope) (source header : ResolvedCallableAnchor) : bool :=
  let reachable :=
    match source_reach !! source.(anchor).(an_path) with
    | Some scope => bool_decide (header.(anchor).(an_path) ∈ scope.(scope_files))
    | None => false
    end in
  bool_decide (strength (callable_relation source.(anchor) header.(anchor) reachable) = Proven).

Definition group_stable_key (g : CallableVariantGroup) : string * N :=
  match g.(header_declaration), g.(source_definition), head g.(other_variants) with
  | Some a, _, _ | None, Some a, _ | None, None, Some a =>
      (a.(anchor).(an_path), a.(anchor).(an_name_range).(start_byte))
  | None, None, None => ("", 0%N)
  end.
Definition group_order : CallableVariantGroup -> CallableVariantGroup -> comparison :=
  cmp_lex (cmp_rev (cmp_on (fun g => tier_rank g.(vg_tier)) Z.compare))
  (cmp_lex (cmp_on (fun g => (group_stable_key g).1) String.compare)
           (cmp_on (fun g => (group_stable_key g).2) N.compare)).

(** The indices whose anchor satisfies a test: [enumerate().filter_map(..)]. *)
Definition indices_where (f : ResolvedCallableAnchor -> bool) (anchors : list ResolvedCallableAnchor) : list nat :=
  omap id (imap (fun i a => if f a then Some i else None) anchors).

(** [map.entry(key).or_default().push(value)] *)
Definition push_edge (m : gmap nat (list nat)) (key value : nat) : gmap nat (list nat) :=
  <[key := default [] (m !! key) ++ [value]]> m.
Definition EdgeMaps : Type := gmap nat (list nat) * gmap nat (list nat).
(** The body of the inner loop over the headers. *)
Definition add_edge (anchors : list ResolvedCallableAnchor) (reach : gmap string ReachScope)
    (source : nat) (maps : EdgeMaps) (header : nat) : EdgeMaps :=
  match anchors !! source, anchors !! header with
  | Some s, Some h =>
      if strict_edge reach s h
      then (push_edge maps.1 source header, push_edge maps.2 header source)
      else maps
  | _, _ => maps
  end.
Definition edge_maps (anchors : list ResolvedCallableAnchor) (reach : gmap string ReachScope) : EdgeMaps :=
  let headers := indices_where is_header_declaration anchors in
  foldl (fun maps source => foldl (add_edge anchors reach source) maps headers)
    (∅, ∅) (indices_where is_source_definition anchors).

(** The only edge of [index], when it is also the only edge of its other end. *)
Definition unique_counterpart (from to : gmap nat (list nat)) (index : nat) : option nat :=
  match from !! index with
  | Some [other] =>
      match to !! other with
      | Some [_] => Some other
      | _ => None
      end
  | _ => None
  end.
Definition edge_degree (maps : EdgeMaps) (index : nat) : nat :=
  match maps.1 !! index, maps.2 !! index with
  | Some es, _ | None, Some es => length es
  | None, None => 0
  end.

(** One iteration of the loop over the indices; [None] is an index out of range. *)
Definition group_step (anchors : list ResolvedCallableAnchor) (maps : EdgeMaps)
    (acc : option (gset nat * list CallableVariantGroup)) (index : nat) :
    option (gset nat * list CallableVariantGroup) :=
  '(paired, groups) ← acc;
  if decide (index ∈ paired) then Some (paired, groups)
  else
    a ← anchors !! index;
    match unique_counterpart maps.1 maps.2 index with
    | Some header =>
        h ← anchors !! header;
        Some ({[header]} ∪ ({[index]} ∪ paired), groups ++ [pair_group a h])
    | None =>
        match unique_counterpart maps.2 maps.1 index with
        | Some source =>
            s ← anchors !! source;
            Some ({[source]} ∪ ({[index]} ∪ paired), groups ++ [pair_group s a])
        | None =>
            let evidence :=
              match edge_degree maps index with 0 => Unpaired | d => AmbiguousEdges d end in
            Some (paired, groups ++ [singleton_group a evidence])
        end
    end.

Definition resolve_counterparts (anchors : list ResolvedCallableAnchor)
    (source_reach : gmap string ReachScope) (coverage : CandidateCoverage) :
    option (list CallableVariantGroup) :=
  if coverage.(cc_truncated) || bool_decide (is_Some coverage.(incomplete_reason))
  then Some ((fun a => singleton_group a IncompleteCoverage) <$> anchors)
  else
    '(_, groups) ← foldl (group_step anchors (edge_maps anchors source_reach)) (Some (∅, []))
                     (seq 0 (length anchors));
    Some (sort_by group_order groups).

(** ** The candidate query *)

Record CallableCandidateSet : Type := mkCandidateSet {
  set_anchors : list ResolvedCallableAnchor;
  set_groups : list CallableVariantGroup;
  set_coverage : CandidateCoverage;
  arity_mismatch_fallback : bool;
}.
Record CallableCandidateMetrics : Type := mkMetrics {
  raw_candidates : N;
  filtered_candidates : nat;
  grouped_candidates : nat;
  arity_compatible_count : nat;
  arity_unknown_count : nat;
  arity_incompatible_count : nat;
  counterpart_strict : nat;
  counterpart_ambiguous : nat;
}.
Definition metrics (s : CallableCandidateSet) : CallableCandidateMetrics :=
  let anchors_with k := length (List.filter (has_arity k) s.(set_anchors)) in
  mkMetrics s.(set_coverage).(cc_scanned) (length s.(set_anchors)) (length s.(set_groups))
    (anchors_with ArityCompatible) (anchors_with ArityUnknown) (anchors_with ArityIncompatible)
    (length (List.filter (fun g => match g.(counterpart_evidence) with StrictOneToOne => true | _ => false end)
       s.(set_groups)))
    (length (List.filter (fun g => match g.(counterpart_evidence) with AmbiguousEdges _ => true | _ => false end)
       s.(set_groups))).

Record CallableQueryInput : Type := mkQueryInput {
  base_anchors : list ResolvedCallableAnchor;
  overlay_anchors : list ResolvedCallableAnchor;
  shadowed_paths : gset string;
  call_context : option CallSiteContext;
  query_source_reach : gmap string ReachScope;
  visible_internal_paths : gset string;
  query_coverage : CandidateCoverage;
}.

Definition owner_admitted (a : ResolvedCallableAnchor) : bool :=
  match a.(anchor).(an_owner_kind) with
  | None | Some OwnerNamespace | Some OwnerUnknown => true
  | Some OwnerRecord => false
  end.
Definition linkage_admitted (visible : gset string) (a : ResolvedCallableAnchor) : bool :=
  match a.(anchor).(an_linkage) with
  | LinkInternal _ => bool_decide (a.(anchor).(an_path) ∈ visible)
  | LinkExternal | LinkPackage _ | LinkUnknown => true
  end.
Definition context_rejects (c : CallSiteContext) : bool :=
  bool_decide (c.(reliability) = RelUnsupportedCallForm) || negb (name_form c.(ctx_form)).
Definition required_qualifier (context : option CallSiteContext) : option string :=
  c ← context; if is_reliable c.(reliability) then c.(ctx_qualified_name) else None.

(** The tuple inserted in the set of fingerprints. *)
Definition anchor_identity (a : ResolvedCallableAnchor) : string * string * N * N :=
  (a.(anchor).(an_path), a.(anchor).(an_fingerprint),
   a.(anchor).(an_name_range).(start_byte), a.(anchor).(an_name_range).(end_byte)).
(** [retain(|a| seen.insert(identity(a)))]: the first of each identity. *)
Definition retain_first (seen : gset (string * string * N * N)) (l : list ResolvedCallableAnchor) :
    list ResolvedCallableAnchor := retain_new anchor_identity seen l.

(** Everything before the arity policy. *)
Definition admitted_anchors (input : CallableQueryInput) : list ResolvedCallableAnchor :=
  let anchors :=
    List.filter (fun a => negb (bool_decide (a.(anchor).(an_path) ∈ input.(shadowed_paths))))
      input.(base_anchors) ++ input.(overlay_anchors) in
  let anchors := List.filter owner_admitted anchors in
  let anchors := List.filter (linkage_admitted input.(visible_internal_paths)) anchors in
  let anchors :=
    match input.(call_context) with
    | Some c => if context_rejects c then [] else anchors
    | None => anchors
    end in
  let anchors :=
    match required_qualifier input.(call_context) with
    | Some q => List.filter (fun a => String.eqb a.(anchor).(an_qualified_name) q) anchors
    | None => anchors
    end in
  retain_first ∅ anchors.

Definition resolve_callable_input (input : CallableQueryInput) (with_counterparts : bool) :
    option CallableCandidateSet :=
  let '(anchors, outcome) := apply_arity_policy (admitted_anchors input) input.(call_context) in
  groups ← (if with_counterparts
            then resolve_counterparts anchors input.(query_source_reach) input.(query_coverage)
            else Some []);
  Some (mkCandidateSet anchors groups input.(query_coverage) (bool_decide (outcome = MismatchFallback))).
Definition resolve_callable_candidates (input : CallableQueryInput) : option CallableCandidateSet :=
  resolve_callable_input input true.
Definition resolve_callable_subject_candidates (input : CallableQueryInput) : option CallableCandidateSet :=
  resolve_callable_input input false.

(** ** Edges as a list of pairs *)

Section edges.
Context (anchors : list ResolvedCallableAnchor) (reach : gmap string ReachScope).

Definition is_edge (source header : nat) : bool :=
  match anchors !! source, anchors !! header with
  | Some s, Some h => strict_edge reach s h
  | _, _ => false
  end.
Definition edges : list (nat * nat) :=
  indices_where is_source_definition anchors ≫=
    fun s => pair s <$> List.filter (is_edge s) (indices_where is_header_declaration anchors).

Definition push_all (m : gmap nat (list nat)) (l : list (nat * nat)) : gmap nat (list nat) :=
  foldl (fun m p => push_edge m p.1 p.2) m l.
Definition swap_pair (p : nat * nat) : nat * nat := (p.2, p.1).

Lemma add_edges_inner s hs maps :
  foldl (add_edge anchors reach s) maps hs =
  (push_all maps.1 (pair s <$> List.filter (is_edge s) hs),
   push_all maps.2 (swap_pair <$> (pair s <$> List.filter (is_edge s) hs))).
Proof.
  revert maps. induction hs as [|h hs IH]; intros maps; simpl; [by destruct maps|].
  rewrite IH. unfold add_edge, is_edge.
  destruct (anchors !! s) as [a|]; [|done]. destruct (anchors !! h) as [b|]; [|done].
  by destruct (strict_edge reach a b).
Qed.
Lemma edge_maps_eq :
  edge_maps anchors reach = (push_all ∅ edges, push_all ∅ (swap_pair <$> edges)).
Proof.
  unfold edge_maps, edges. generalize (indices_where is_header_declaration anchors) as hs.
  generalize (indices_where is_source_definition anchors) as ss. intros ss hs.
  generalize (∅ : gmap nat (list nat)) at 1 3 as m1. generalize (∅ : gmap nat (list nat)) as m2.
  induction ss as [|s ss IH]; intros m2 m1; [done|].
  cbn [foldl]. rewrite add_edges_inner, IH. simpl. unfold push_all.
  by rewrite fmap_app, !foldl_app.
Qed.

Lemma push_all_lookup m l k :
  push_all m l !! k =
  match (List.filter (fun p => Nat.eqb p.1 k) l).*2 with
  | [] => m !! k
  | vs => Some (default [] (m !! k) ++ vs)
  end.
Proof.
  revert m. induction l as [|[i v] l IH]; intros m; [done|]. cbn [push_all foldl List.filter fst].
  change (foldl _ (push_edge m i v) l) with (push_all (push_edge m i v) l). rewrite IH.
  unfold push_edge. csimpl. destruct (Nat.eqb_spec i k) as [->|Hne].
  - rewrite lookup_insert_eq. csimpl.
    destruct ((List.filter (fun p => Nat.eqb p.1 k) l).*2); csimpl; [done|].
    by rewrite <- app_assoc.
  - by rewrite lookup_insert_ne by done.
Qed.

Lemma elem_of_indices f i :
  i ∈ indices_where f anchors <-> exists a, anchors !! i = Some a /\ f a = true.
Proof.
  unfold indices_where. rewrite list_elem_of_omap. setoid_rewrite elem_of_lookup_imap. split.
  - intros (o & (j & a & -> & Ha) & Ho). exists a. simpl in Ho. destruct (f a) eqn:E; [|done].
    by injection Ho as <-.
  - intros (a & Ha & Hf). exists (Some i). split; [|done]. exists i, a. by rewrite Hf.
Qed.
Lemma indices_where_sublist f : indices_where f anchors `sublist_of` seq 0 (length anchors).
Proof.
  unfold indices_where.
  assert (forall k l, omap id (imap (fun i a => if f a then Some (k + i) else None) l)
    `sublist_of` seq k (length l)) as H; [|apply (H 0)].
  intros k l. revert k. induction l as [|a l IH]; intros k; [done|].
  rewrite imap_cons. cbn [length seq omap list_omap].
  assert (imap ((fun i a => if f a then Some (k + i) else None) ∘ S) l =
          imap (fun i a => if f a then Some (S k + i) else None) l) as ->.
  { apply imap_ext. intros i x _. simpl. by rewrite Nat.add_succ_r. }
  destruct (f a); cbv beta iota delta [id]; rewrite ?Nat.add_0_r; constructor; apply (IH (S k)).
Qed.
Lemma NoDup_indices f : NoDup (indices_where f anchors).
Proof. eapply sublist_NoDup; [apply NoDup_seq|apply indices_where_sublist]. Qed.

Lemma elem_of_edges i j :
  (i, j) ∈ edges <->
  exists s h, anchors !! i = Some s /\ anchors !! j = Some h /\ is_source_definition s = true /\
    is_header_declaration h = true /\ strict_edge reach s h = true.
Proof.
  unfold edges. rewrite list_elem_of_bind. split.
  - intros (x & (y & [= -> ->] & Hy)%list_elem_of_fmap & Hx).
    apply elem_of_indices in Hx as (s & Hs & Hsrc).
    apply elem_of_filter_bool in Hy as [(h & Hh & Hhd)%elem_of_indices He].
    unfold is_edge in He. rewrite Hs, Hh in He. by exists s, h.
  - intros (s & h & Hs & Hh & Hsrc & Hhd & He). exists i. split.
    + apply list_elem_of_fmap. exists j. split; [done|]. apply elem_of_filter_bool. split.
      * apply elem_of_indices. by exists h.
      * unfold is_edge. by rewrite Hs, Hh.
    + apply elem_of_indices. by exists s.
Qed.
Lemma NoDup_edges : NoDup edges.
Proof.
  apply NoDup_bind; [|intros s _|apply NoDup_indices].
  - intros i i' [a b] _ _ (? & [= -> ->] & _)%list_elem_of_fmap (? & [= -> _] & _)%list_elem_of_fmap. done.
  - apply NoDup_fmap_2; [by intros ?? [= ->]|].
    eapply sublist_NoDup; [apply NoDup_indices|apply list_filter_bool_sublist].
Qed.
End edges.

(** [(i, j)] is the only edge of both its ends. *)
Definition mutual (l : list (nat * nat)) (i j : nat) : Prop :=
  (i, j) ∈ l /\ (forall j', (i, j') ∈ l -> j' = j) /\ (forall i', (i', j) ∈ l -> i' = i).

Lemma singleton_values (l : list (nat * nat)) k v :
  NoDup l ->
  (List.filter (fun p => Nat.eqb p.1 k) l).*2 = [v] <-> (k, v) ∈ l /\ forall v', (k, v') ∈ l -> v' = v.
Proof.
  intros Hnd. set (F := List.filter (fun p => Nat.eqb p.1 k) l).
  assert (forall p, p ∈ F <-> p ∈ l /\ p.1 = k) as HF.
  { intros p. unfold F. rewrite elem_of_filter_bool. by rewrite Nat.eqb_eq. }
  assert (NoDup F) as HFn by (eapply sublist_NoDup; [done|apply list_filter_bool_sublist]).
  clearbody F. split.
  - intros Hv. destruct F as [|[k' v'] [|]]; simplify_eq/=.
    assert ((k', v) ∈ l /\ k' = k) as [Hin ->] by (apply (HF (k', v)); left). split; [done|].
    intros w Hw. assert ((k, w) ∈ [(k, v)]) as H by (by apply HF). by apply list_elem_of_singleton in H as [= ->].
  - intros [Hin Hu]. destruct F as [|[a b] F].
    { assert ((k, v) ∈ @nil (nat * nat)) as H by (by apply HF). by apply not_elem_of_nil in H. }
    assert ((a, b) ∈ l /\ a = k) as [Hab ->] by (apply (HF (a, b)); left). apply Hu in Hab as ->.
    destruct F as [|[a b] F]; [done|]. exfalso.
    assert ((a, b) ∈ l /\ a = k) as [Hab ->] by (apply (HF (a, b)); right; left).
    apply Hu in Hab as ->. apply NoDup_cons in HFn as [Hn _]. apply Hn. left.
Qed.

Lemma swap_swap (l : list (nat * nat)) : swap_pair <$> (swap_pair <$> l) = l.
Proof. rewrite <- list_fmap_compose. rewrite <- (list_fmap_id l) at 2. by apply list_fmap_ext; intros ? []. Qed.
Lemma elem_of_swap (l : list (nat * nat)) i j : (i, j) ∈ swap_pair <$> l <-> (j, i) ∈ l.
Proof.
  rewrite list_elem_of_fmap. split; [by intros ([] & [= -> ->] & ?)|]. intros H. by exists (j, i).
Qed.
Lemma NoDup_swap (l : list (nat * nat)) : NoDup l -> NoDup (swap_pair <$> l).
Proof. apply NoDup_fmap_2. by intros [] [] [= -> ->]. Qed.
Lemma push_all_empty (l : list (nat * nat)) k :
  push_all ∅ l !! k =
  match (List.filter (fun p => Nat.eqb p.1 k) l).*2 with [] => None | vs => Some vs end.
Proof. rewrite push_all_lookup, lookup_empty. by destruct ((List.filter _ _).*2). Qed.

Lemma unique_counterpart_iff (l : list (nat * nat)) i j :
  NoDup l -> unique_counterpart (push_all ∅ l) (push_all ∅ (swap_pair <$> l)) i = Some j <-> mutual l i j.
Proof.
  intros Hnd. pose proof (NoDup_swap _ Hnd) as Hnd'. unfold unique_counterpart, mutual.
  rewrite push_all_empty. pose proof (fun v => singleton_values l i v Hnd) as H1.
  destruct ((List.filter (fun p => Nat.eqb p.1 i) l).*2) as [|v [|]].
  - split; [done|]. intros (Hin & Hu & _). by assert ([] = [j]) by (by apply H1).
  - assert (forall w, [v] = [w] <-> v = w) as Hvw by (split; [by intros [= ->]|by intros ->]).
    setoid_rewrite Hvw in H1. rewrite push_all_empty.
    pose proof (fun w => singleton_values (swap_pair <$> l) v w Hnd') as H2.
    setoid_rewrite elem_of_swap in H2.
    destruct (proj1 (H1 v) eq_refl) as [Hv Huv].
    destruct ((List.filter (fun p => Nat.eqb p.1 v) (swap_pair <$> l)).*2) as [|w [|]].
    + split; [done|]. intros (Hin & Hu & Hu'). apply Huv in Hin as ->.
      by assert ([] = [i]) by (by apply H2).
    + destruct (proj1 (H2 w) eq_refl) as [Hw Hw']. split.
      * intros [= <-]. split_and!; [done..|]. intros i' Hi'. rewrite (Hw' _ Hi'). symmetry. by apply Hw'.
      * intros (Hin & _). f_equal. symmetry. by apply Huv.
    + split; [done|]. intros (Hin & Hu & Hu'). apply Huv in Hin as ->.
      by assert (w :: n :: l0 = [i]) by (by apply H2).
  - split; [done|]. intros (Hin & Hu & _). by assert (v :: n :: l0 = [j]) by (by apply H1).
Qed.

(** ** The pairing loop *)

Section pairing.
Context (anchors : list ResolvedCallableAnchor) (reach : gmap string ReachScope).
Local Abbreviation E := (edges anchors reach).
Local Abbreviation maps := (edge_maps anchors reach).

Definition mate (i : nat) : option nat :=
  match unique_counterpart maps.1 maps.2 i with
  | Some j => Some j
  | None => unique_counterpart maps.2 maps.1 i
  end.

Lemma edge_ends i j : (i, j) ∈ E -> i ≠ j /\ (i < length anchors)%nat /\ (j < length anchors)%nat.
Proof.
  intros (s & h & Hs & Hh & Hsrc & Hhd & _)%elem_of_edges.
  split_and!; [|by eapply lookup_lt_Some..]. intros ->. assert (s = h) as -> by congruence.
  unfold is_source_definition, is_header_declaration in *.
  apply andb_true_iff in Hsrc as [Hr%bool_decide_eq_true _].
  apply andb_true_iff in Hhd as [Hr'%bool_decide_eq_true _]. congruence.
Qed.
Lemma edge_sides i j k : (i, j) ∈ E -> (k, i) ∈ E -> False.
Proof.
  intros (s & ? & Hs & _ & Hsrc & _)%elem_of_edges (? & h & _ & Hh & _ & Hhd & _)%elem_of_edges.
  assert (s = h) as -> by congruence. unfold is_source_definition, is_header_declaration in *.
  apply andb_true_iff in Hsrc as [Hr%bool_decide_eq_true _].
  apply andb_true_iff in Hhd as [Hr'%bool_decide_eq_true _]. congruence.
Qed.

Lemma as_source i j : unique_counterpart maps.1 maps.2 i = Some j <-> mutual E i j.
Proof. rewrite edge_maps_eq. apply unique_counterpart_iff, NoDup_edges. Qed.
Lemma as_header i j : unique_counterpart maps.2 maps.1 i = Some j <-> mutual E j i.
Proof.
  rewrite edge_maps_eq. simpl. rewrite <- (swap_swap E) at 2.
  rewrite unique_counterpart_iff by apply NoDup_swap, NoDup_edges.
  unfold mutual. setoid_rewrite elem_of_swap. intuition.
Qed.
Lemma mate_iff i j : mate i = Some j <-> mutual E i j \/ mutual E j i.
Proof.
  unfold mate. destruct (unique_counterpart maps.1 maps.2 i) as [k|] eqn:H.
  - pose proof (proj1 (as_source _ _) H) as Hm. split.
    + intros [= <-]. by left.
    + intros [(Hin & _)|(Hin & _)].
      * destruct Hm as (_ & Hu & _). by rewrite (Hu _ Hin).
      * destruct Hm as (Hin' & _). by destruct (edge_sides _ _ _ Hin' Hin).
  - rewrite as_header. split; [by right|]. intros [Hm|Hm]; [|done].
    apply as_source in Hm. congruence.
Qed.
Lemma mate_sym i j : mate i = Some j -> mate j = Some i.
Proof. rewrite !mate_iff. tauto. Qed.
Lemma mate_ends i j : mate i = Some j -> i ≠ j /\ (i < length anchors)%nat /\ (j < length anchors)%nat.
Proof. intros [(?%edge_ends & _)|(?%edge_ends & _)]%mate_iff; naive_solver. Qed.

(** The group made at a position that is not paired before. *)
Definition group_made (i : nat) : option CallableVariantGroup :=
  a ← anchors !! i;
  match unique_counterpart maps.1 maps.2 i with
  | Some j => h ← anchors !! j; Some (pair_group a h)
  | None =>
      match unique_counterpart maps.2 maps.1 i with
      | Some j => s ← anchors !! j; Some (pair_group s a)
      | None => Some (singleton_group a (match edge_degree maps i with 0 => Unpaired | d => AmbiguousEdges d end))
      end
  end.
Definition comes_second (i : nat) : bool :=
  match mate i with Some j => (j <? i)%nat | None => false end.
Definition produced (i : nat) : list CallableVariantGroup :=
  if comes_second i then [] else option_list (group_made i).

Lemma group_made_total i : (i < length anchors)%nat -> is_Some (group_made i).
Proof.
  intros Hi. unfold group_made. destruct (lookup_lt_is_Some_2 anchors i Hi) as [a ->]. simpl.
  destruct (unique_counterpart maps.1 maps.2 i) as [j|] eqn:H1.
  - assert (mate i = Some j) as (_ & _ & Hj)%mate_ends by (unfold mate; by rewrite H1).
    by destruct (lookup_lt_is_Some_2 anchors j Hj) as [h ->].
  - destruct (unique_counterpart maps.2 maps.1 i) as [j|] eqn:H2; [|done].
    assert (mate i = Some j) as (_ & _ & Hj)%mate_ends by (unfold mate; by rewrite H1).
    by destruct (lookup_lt_is_Some_2 anchors j Hj) as [h ->].
Qed.

Definition paired_upto (k : nat) (paired : gset nat) : Prop :=
  forall x, x ∈ paired <-> exists i j, (i < k)%nat /\ mate i = Some j /\ (x = i \/ x = j).

Lemma paired_second k paired :
  paired_upto k paired -> k ∈ paired <-> comes_second k = true.
Proof.
  intros H. rewrite (H k). unfold comes_second. split.
  - intros (i & j & Hi & Hm & [->| ->]); [lia|]. rewrite (mate_sym _ _ Hm). by apply Nat.ltb_lt.
  - destruct (mate k) as [j|] eqn:Hm; [|done]. intros Hj%Nat.ltb_lt.
    exists j, k. split_and!; [done|by apply mate_sym|by right].
Qed.

Lemma group_step_eq paired groups k :
  (k < length anchors)%nat -> paired_upto k paired ->
  exists paired', group_step anchors maps (Some (paired, groups)) k = Some (paired', groups ++ produced k)
    /\ paired_upto (S k) paired'.
Proof.
  intros Hk Hp. pose proof (paired_second k paired Hp) as H2. unfold group_step, produced. simpl.
  destruct (decide (k ∈ paired)) as [Hin|Hnot].
  - rewrite (proj1 H2 Hin), app_nil_r. exists paired. split; [done|]. intros x. rewrite (Hp x). split.
    + intros (i & j & Hi & ?). exists i, j. split; [lia|done].
    + intros (i & j & Hi & Hm & Hx). destruct (decide (i = k)) as [->|]; [|exists i, j; split; [lia|done]].
      apply H2 in Hin. unfold comes_second in Hin. rewrite Hm in Hin. apply Nat.ltb_lt in Hin.
      exists j, k. split_and!; [done|by apply mate_sym|tauto].
  - assert (comes_second k = false) as -> by (apply not_true_iff_false; tauto).
    destruct (group_made_total k Hk) as [g Hg]. rewrite Hg. simpl. revert Hg. unfold group_made.
    destruct (anchors !! k) as [a|]; simpl; [|done].
    assert (forall j, mate k = Some j -> paired_upto (S k) ({[j]} ∪ ({[k]} ∪ paired))) as Hmate.
    { intros j Hm x. rewrite !elem_of_union, !elem_of_singleton, (Hp x). split.
      - intros [->|[->|(i & j' & Hi & ?)]]; [exists k, j; split_and!; [lia|done|tauto]..|].
        exists i, j'. split; [lia|done].
      - intros (i & j' & Hi & Hm' & Hx). destruct (decide (i = k)) as [->|].
        + assert (j' = j) as -> by congruence. tauto.
        + right. right. exists i, j'. split; [lia|done]. }
    destruct (unique_counterpart maps.1 maps.2 k) as [j|] eqn:E1;
      [|destruct (unique_counterpart maps.2 maps.1 k) as [j|] eqn:E2].
    + destruct (anchors !! j); simpl; [|done]. intros [= <-].
      eexists. split; [done|]. apply Hmate. unfold mate. by rewrite E1.
    + destruct (anchors !! j); simpl; [|done]. intros [= <-].
      eexists. split; [done|]. apply Hmate. unfold mate. by rewrite E1.
    + intros [= <-]. exists paired. split; [done|]. intros x. rewrite (Hp x). split.
      * intros (i & j & Hi & ?). exists i, j. split; [lia|done].
      * intros (i & j & Hi & Hm & Hx). destruct (decide (i = k)) as [->|].
        -- unfold mate in Hm. rewrite E1, E2 in Hm. done.
        -- exists i, j. split; [lia|done].
Qed.

Lemma group_loop_eq k :
  (k <= length anchors)%nat ->
  exists paired, foldl (group_step anchors maps) (Some (∅, [])) (seq 0 k) = Some (paired, seq 0 k ≫= produced)
    /\ paired_upto k paired.
Proof.
  induction k as [|k IH]; intros Hk.
  - exists ∅. split; [done|]. intros x. split; [set_solver|]. intros (? & ? & ? & _). lia.
  - destruct IH as (paired & Heq & Hp); [lia|].
    destruct (group_step_eq paired (seq 0 k ≫= produced) k) as (paired' & Hs & Hp'); [lia|done|].
    exists paired'. rewrite seq_S, foldl_app, Heq, bind_app. cbn [foldl Nat.add].
    rewrite Hs, bind_singleton. done.
Qed.

Definition members (i : nat) : list nat :=
  if comes_second i then [] else i :: option_list (mate i).

Lemma elem_of_members i y :
  y ∈ members i <-> (y = i \/ mate i = Some y) /\ forall j, mate i = Some j -> (i < j)%nat.
Proof.
  unfold members, comes_second. destruct (mate i) as [j|] eqn:Hm; simpl.
  - destruct (mate_ends _ _ Hm) as (Hne & _). destruct (Nat.ltb_spec j i).
    + split; [by intros ?%not_elem_of_nil|]. intros [_ H']. specialize (H' _ eq_refl). lia.
    + rewrite elem_of_cons, list_elem_of_singleton. split.
      * intros Hy. split; [naive_solver|]. intros ? [= <-]. lia.
      * intros [[->|[= ->]] _]; tauto.
  - rewrite list_elem_of_singleton. naive_solver.
Qed.

Lemma members_perm : seq 0 (length anchors) ≫= members ≡ₚ seq 0 (length anchors).
Proof.
  apply NoDup_Permutation; [apply NoDup_bind; [|intros i _|apply NoDup_seq]|apply NoDup_seq|].
  - intros i1 i2 y _ _ [H1 L1]%elem_of_members [H2 L2]%elem_of_members.
    destruct H1 as [->|H1], H2 as [<-|H2]; [done| | |].
    + pose proof (mate_sym _ _ H2) as H2'. apply L1 in H2'. apply L2 in H2. lia.
    + pose proof (mate_sym _ _ H1) as H1'. apply L2 in H1'. apply L1 in H1. lia.
    + apply mate_sym in H1, H2. congruence.
  - unfold members. destruct (comes_second i); [constructor|].
    destruct (mate i) as [j|] eqn:Hm; simpl; [|apply NoDup_singleton].
    destruct (mate_ends _ _ Hm) as (Hne & _).
    constructor; [by rewrite list_elem_of_singleton|apply NoDup_singleton].
  - intros y. rewrite list_elem_of_bind. setoid_rewrite elem_of_members.
    setoid_rewrite elem_of_seq. split.
    + intros (i & [[->|Hm] _] & Hi); [done|]. destruct (mate_ends _ _ Hm). lia.
    + intros Hy. destruct (mate y) as [j|] eqn:Hm.
      * destruct (mate_ends _ _ Hm) as (Hne & _ & Hj). destruct (decide (y < j)%nat).
        -- exists y. split; [|done]. split; [by left|]. intros ?. rewrite Hm. by intros [= <-].
        -- exists j. apply mate_sym in Hm. split; [|lia]. split; [by right|].
           intros k Hk. assert (k = y) as -> by congruence. lia.
      * exists y. split; [|done]. split; [by left|]. rewrite Hm. by intros ? ?.
Qed.

Lemma variants_singleton a e : variants (singleton_group a e) = [a].
Proof. unfold singleton_group. by repeat case_match. Qed.

Lemma produced_variants i :
  (i < length anchors)%nat ->
  produced i ≫= variants ≡ₚ omap (fun j => anchors !! j) (members i).
Proof.
  intros Hi. unfold produced, members. destruct (comes_second i); [done|].
  destruct (group_made_total i Hi) as [g Hg]. rewrite Hg. change (option_list (Some g)) with [g].
  rewrite bind_singleton. revert Hg. unfold group_made, mate.
  destruct (anchors !! i) as [a|] eqn:Ha; simpl; [|done].
  destruct (unique_counterpart maps.1 maps.2 i) as [j|];
    [|destruct (unique_counterpart maps.2 maps.1 i) as [j|]].
  - destruct (anchors !! j) as [h|] eqn:Hj; simpl; [|done]. intros [= <-]. simpl.
    rewrite Ha, Hj. apply Permutation_swap.
  - destruct (anchors !! j) as [s|] eqn:Hj; simpl; [|done]. intros [= <-]. simpl.
    rewrite Ha, Hj. done.
  - intros [= <-]. rewrite variants_singleton. simpl. by rewrite Ha.
Qed.

Lemma bind_perm_ext {A B} (f g : A -> list B) l :
  (forall x, x ∈ l -> f x ≡ₚ g x) -> l ≫= f ≡ₚ l ≫= g.
Proof.
  induction l as [|x l IH]; intros H; [done|]. rewrite !bind_cons. f_equiv.
  - apply H. left.
  - apply IH. intros y Hy. apply H. by right.
Qed.
Lemma bind_assoc_list {A B C} (f : A -> list B) (g : B -> list C) l :
  (l ≫= f) ≫= g = l ≫= fun x => f x ≫= g.
Proof. induction l as [|x l IH]; [done|]. by rewrite !bind_cons, bind_app, IH. Qed.
Lemma bind_omap {A B C} (f : A -> list B) (g : B -> option C) l :
  l ≫= (fun x => omap g (f x)) = omap g (l ≫= f).
Proof. induction l as [|x l IH]; [done|]. by rewrite !bind_cons, omap_app, IH. Qed.
Lemma omap_lookup_seq : omap (fun j => anchors !! j) (seq 0 (length anchors)) = anchors.
Proof.
  induction anchors as [|a l IH] using rev_ind; [done|].
  rewrite length_app, Nat.add_1_r, seq_S, omap_app. simpl.
  rewrite lookup_app_r, Nat.sub_diag by done. simpl. f_equal.
  rewrite <- IH at 2. apply list_omap_ext, Forall_Forall2_diag, Forall_forall.
  intros i Hi%elem_of_seq. apply lookup_app_l. lia.
Qed.

Lemma groups_partition :
  (seq 0 (length anchors) ≫= produced) ≫= variants ≡ₚ anchors.
Proof.
  rewrite bind_assoc_list.
  rewrite (bind_perm_ext _ (fun i => omap (fun j => anchors !! j) (members i))).
  - rewrite bind_omap, members_perm. by rewrite omap_lookup_seq.
  - intros i Hi%elem_of_seq. apply produced_variants. lia.
Qed.

(** The groups claimed to be strict pairs. *)
Lemma produced_strict g :
  g ∈ seq 0 (length anchors) ≫= produced -> g.(counterpart_evidence) = StrictOneToOne ->
  exists i j s h, mutual E i j /\ anchors !! i = Some s /\ anchors !! j = Some h /\ g = pair_group s h.
Proof.
  intros (i & Hi & _)%list_elem_of_bind. unfold produced in Hi.
  destruct (comes_second i); [by apply not_elem_of_nil in Hi|].
  destruct (group_made i) as [g'|] eqn:Hg; [|by apply not_elem_of_nil in Hi].
  apply list_elem_of_singleton in Hi as <-. revert Hg. unfold group_made.
  destruct (anchors !! i) as [a|] eqn:Ha; simpl; [|done].
  destruct (unique_counterpart maps.1 maps.2 i) as [j|] eqn:H1;
    [|destruct (unique_counterpart maps.2 maps.1 i) as [j|] eqn:H2].
  - destruct (anchors !! j) as [h|] eqn:Hj; simpl; [|done]. intros [= <-] _.
    exists i, j, a, h. split_and!; [by apply as_source|done..].
  - destruct (anchors !! j) as [s|] eqn:Hj; simpl; [|done]. intros [= <-] _.
    exists j, i, s, a. split_and!; [by apply as_header|done..].
  - intros [= <-]. unfold singleton_group. repeat case_match; done.
Qed.
Lemma strict_produced i j s h :
  mutual E i j -> anchors !! i = Some s -> anchors !! j = Some h ->
  pair_group s h ∈ seq 0 (length anchors) ≫= produced.
Proof.
  intros Hm Hs Hh. apply list_elem_of_bind.
  destruct (edge_ends i j (proj1 Hm)) as (Hne & Hi & Hj).
  assert (mate i = Some j) as Hmi by (apply mate_iff; by left).
  pose proof (mate_sym _ _ Hmi) as Hmj.
  pose proof (proj2 (as_source i j) Hm) as H1. pose proof (proj2 (as_header j i) Hm) as H2.
  assert (unique_counterpart maps.1 maps.2 j = None) as H3.
  { destruct (unique_counterpart maps.1 maps.2 j) as [k|] eqn:Hk; [|done].
    apply as_source in Hk as (Hk & _). by destruct (edge_sides _ _ _ Hk (proj1 Hm)). }
  unfold produced, comes_second. destruct (decide (i < j)%nat).
  - exists i. split; [|apply elem_of_seq; lia]. rewrite Hmi, (proj2 (Nat.ltb_ge j i)) by lia.
    unfold group_made. rewrite Hs. simpl. rewrite H1, Hh. left.
  - exists j. split; [|apply elem_of_seq; lia]. rewrite Hmj, (proj2 (Nat.ltb_ge i j)) by lia.
    unfold group_made. rewrite Hh. simpl. rewrite H3, H2, Hs. left.
Qed.
End pairing.

Definition coverage_incomplete (c : CandidateCoverage) : bool :=
  c.(cc_truncated) || bool_decide (is_Some c.(incomplete_reason)).

Lemma resolve_counterparts_eq anchors reach coverage :
  resolve_counterparts anchors reach coverage =
    Some (if coverage_incomplete coverage
          then (fun a => singleton_group a IncompleteCoverage) <$> anchors
          else sort_by group_order (seq 0 (length anchors) ≫= produced anchors reach)).
Proof.
  unfold resolve_counterparts, coverage_incomplete. case_match; [done|].
  by destruct (group_loop_eq anchors reach (length anchors)) as (paired & -> & _).
Qed.

Lemma resolved_groups anchors reach coverage :
  exists groups, resolve_counterparts anchors reach coverage = Some groups /\
    groups ≫= variants ≡ₚ anchors.
Proof.
  rewrite resolve_counterparts_eq. eexists. split; [done|]. case_match.
  - induction anchors as [|a l IH]; [done|]. rewrite fmap_cons, bind_cons, variants_singleton.
    simpl. by rewrite IH.
  - rewrite sort_by_perm. apply groups_partition.
Qed.

(** Pairing neither loses nor duplicates an anchor: it always returns groups (no index
    is out of range), and the variants of the groups are a permutation of the anchors. *)
Theorem counterparts_partition anchors reach coverage :
  exists groups, resolve_counterparts anchors reach coverage = Some groups /\
    groups ≫= variants ≡ₚ anchors.
Proof. apply resolved_groups. Qed.

(** What links a definition to a declaration: both name the same externally linked
    function with the same written signature, owner and build guard, the owner is no
    record, both were read exactly, and the header is in the source file's scope. *)
Definition strictly_linked (reach : gmap string ReachScope) (s h : ResolvedCallableAnchor) : Prop :=
  let a := s.(anchor) in let b := h.(anchor) in
  a.(an_kind) = KindFunction /\ b.(an_kind) = KindFunction /\
  a.(an_qualified_name) = b.(an_qualified_name) /\ a.(an_owner) = b.(an_owner) /\
  a.(an_canonical_signature) = b.(an_canonical_signature) /\ a.(an_canonical_signature) <> "" /\
  a.(an_linkage) = LinkExternal /\ b.(an_linkage) = LinkExternal /\
  a.(an_guard) = b.(an_guard) /\
  (forall c, c ∈ [a; b] -> c.(an_owner_kind) = None \/ c.(an_owner_kind) = Some OwnerNamespace) /\
  (forall c, c ∈ [a; b] -> c.(an_signature_fidelity) = AstExact /\ c.(an_syntax_error_overlap) = false) /\
  exists scope, reach !! a.(an_path) = Some scope /\ b.(an_path) ∈ scope.(scope_files).
Lemma same_callable_iff a b :
  same_callable a b = true <->
  a.(an_kind) = KindFunction /\ b.(an_kind) = KindFunction /\
  a.(an_qualified_name) = b.(an_qualified_name) /\ a.(an_owner) = b.(an_owner) /\
  a.(an_canonical_signature) = b.(an_canonical_signature) /\ a.(an_canonical_signature) <> "" /\
  a.(an_linkage) = LinkExternal /\ b.(an_linkage) = LinkExternal.
Proof.
  unfold same_callable.
  rewrite !andb_true_iff, !bool_decide_eq_true, negb_true_iff, !String.eqb_eq, String.eqb_neq.
  intuition congruence.
Qed.
Lemma owners_free_iff a b :
  forallb owner_is_free [a; b] = true <->
  forall c, c ∈ [a; b] -> c.(an_owner_kind) = None \/ c.(an_owner_kind) = Some OwnerNamespace.
Proof.
  rewrite forallb_forall. setoid_rewrite <- list_elem_of_In.
  apply forall_proper; intros c. unfold owner_is_free. destruct (an_owner_kind c) as [[]|]; naive_solver.
Qed.
Lemma anchors_complete_iff a b :
  forallb anchor_complete [a; b] = true <->
  forall c, c ∈ [a; b] -> c.(an_signature_fidelity) = AstExact /\ c.(an_syntax_error_overlap) = false.
Proof.
  rewrite forallb_forall. setoid_rewrite <- list_elem_of_In.
  apply forall_proper; intros c. unfold anchor_complete.
  by rewrite andb_true_iff, bool_decide_eq_true, negb_true_iff.
Qed.
Lemma strict_edge_iff reach s h : strict_edge reach s h = true <-> strictly_linked reach s h.
Proof.
  unfold strict_edge. rewrite bool_decide_eq_true, callable_relation_proven.
  rewrite same_callable_iff, owners_free_iff, anchors_complete_iff.
  assert (match reach !! s.(anchor).(an_path) with
    | Some scope => bool_decide (h.(anchor).(an_path) ∈ scope.(scope_files)) | None => false end = true <->
    exists scope, reach !! s.(anchor).(an_path) = Some scope /\ h.(anchor).(an_path) ∈ scope.(scope_files)) as ->.
  { case_match; [rewrite bool_decide_eq_true|]; naive_solver. }
  unfold strictly_linked. tauto.
Qed.

(** A strict edge between a source definition and a header declaration which is the only
    one of either. *)
(** A linked pair of which neither is linked to anything else. *)
Definition only_match (anchors : list ResolvedCallableAnchor) (reach : gmap string ReachScope)
    (s h : ResolvedCallableAnchor) : Prop :=
  let linked i j := exists a b, anchors !! i = Some a /\ anchors !! j = Some b /\
    is_source_definition a = true /\ is_header_declaration b = true /\ strictly_linked reach a b in
  exists i j, anchors !! i = Some s /\ anchors !! j = Some h /\ linked i j /\
    (forall j', linked i j' -> j' = j) /\ (forall i', linked i' j -> i' = i).

(** C18 Uniqueness claims are exact: with complete coverage two anchors form a strict
    one-to-one group precisely when the definition is linked to that declaration and to
    no other, and the declaration to that definition and to no other; with incomplete
    coverage no strict group is claimed at all. *)
Theorem strict_pairs_exact anchors reach coverage groups s h :
  resolve_counterparts anchors reach coverage = Some groups ->
  pair_group s h ∈ groups <->
  coverage_incomplete coverage = false /\ only_match anchors reach s h.
Proof.
  rewrite resolve_counterparts_eq. intros [= <-].
  assert (forall i j, mutual (edges anchors reach) i j <-> 
    (i, j) ∈ edges anchors reach /\ (forall j', (i, j') ∈ edges anchors reach -> j' = j) /\
      (forall i', (i', j) ∈ edges anchors reach -> i' = i)) as Hmut by done.
  setoid_rewrite elem_of_edges in Hmut. setoid_rewrite strict_edge_iff in Hmut. unfold only_match. destruct (coverage_incomplete coverage).
  - split; [|by intros [? _]]. intros (a & Ha & _)%list_elem_of_fmap. exfalso. revert Ha.
    unfold singleton_group, pair_group. repeat case_match; by intros [=].
  - rewrite elem_of_sort_by. split.
    + intros Hin. split; [done|].
      destruct (produced_strict anchors reach _ Hin eq_refl) as (i & j & s' & h' & Hm & Hs & Hh & Heq).
      injection Heq as -> ->; [|done..]. exists i, j. split_and!; [done..| | |];
        apply Hmut in Hm as (H1 & H2 & H3); [done|exact H2|exact H3].
    + intros [_ (i & j & Hs & Hh & H1 & H2 & H3)]. eapply strict_produced; [|done..].
      apply Hmut. split_and!; [done|exact H2|exact H3].
Qed.

(** ** The candidate query *)

Lemma policy_anchors anchors context :
  anchor <$> (apply_arity_policy anchors context).1 ⊆+ anchor <$> anchors.
Proof.
  assert (anchor <$> (classify_arity context <$> anchors) = anchor <$> anchors) as <-.
  { rewrite <- list_fmap_compose. by apply list_fmap_ext. }
  unfold apply_arity_policy, sort_anchors. set (cl := classify_arity context <$> anchors).
  assert (forall f, anchor <$> sort_by anchor_order (List.filter f cl) ⊆+ anchor <$> cl) as Hf.
  { intros f. rewrite sort_by_perm. apply fmap_submseteq, sublist_submseteq, list_filter_bool_sublist. }
  case_match; simpl; [by rewrite sort_by_perm|].
  destruct (existsb (has_arity ArityCompatible) cl); [apply Hf|].
  destruct (existsb (has_arity ArityUnknown) cl); [apply Hf|]. simpl.
  rewrite sort_by_perm, <- list_fmap_compose. apply Permutation_submseteq. by f_equiv.
Qed.

(** What the query demands of an anchor, whatever its arity. *)
Definition admissible (input : CallableQueryInput) (a : ResolvedCallableAnchor) : Prop :=
  ((a ∈ input.(base_anchors) /\ (a.(anchor).(an_path) ∉ input.(shadowed_paths)))
   \/ a ∈ input.(overlay_anchors)) /\
  a.(anchor).(an_owner_kind) <> Some OwnerRecord /\
  (forall f, a.(anchor).(an_linkage) = LinkInternal f -> a.(anchor).(an_path) ∈ input.(visible_internal_paths)) /\
  (forall c, input.(call_context) = Some c ->
     name_form c.(ctx_form) = true /\ c.(reliability) <> RelUnsupportedCallForm /\
     forall q, c.(reliability) = Reliable -> c.(ctx_qualified_name) = Some q ->
       a.(anchor).(an_qualified_name) = q).

Lemma admitted_admissible input a : a ∈ admitted_anchors input -> admissible input a.
Proof.
  unfold admitted_anchors. intros Ha. eapply elem_of_sublist in Ha; [|apply retain_new_sublist].
  assert (forall l, a ∈ match required_qualifier (call_context input) with
      | Some q => List.filter (fun a => String.eqb (an_qualified_name (anchor a)) q) l | None => l end ->
    a ∈ l /\ forall q, required_qualifier (call_context input) = Some q -> an_qualified_name (anchor a) = q) as Hq.
  { intros l. destruct (required_qualifier _) as [q|]; [|by split].
    intros [? ?%String.eqb_eq]%elem_of_filter_bool. split; [done|]. by intros ? [= <-]. }
  apply Hq in Ha as [Ha Hqual]. clear Hq.
  assert (forall c, call_context input = Some c -> context_rejects c = false) as Hc.
  { intros c Hc. rewrite Hc in Ha. destruct (context_rejects c); [|done]. by apply not_elem_of_nil in Ha. }
  assert (forall l, a ∈ match call_context input with Some c => if context_rejects c then [] else l
    | None => l end -> a ∈ l) as Hl.
  { intros l. destruct (call_context input) as [c|]; [|done]. by rewrite Hc. }
  apply Hl in Ha. clear Hl.
  apply elem_of_filter_bool in Ha as [[Ha Ho]%elem_of_filter_bool Hlink].
  unfold admissible. split_and!.
  - apply elem_of_app in Ha as [[Ha Hs]%elem_of_filter_bool|Ha]; [left|by right].
    split; [done|]. by apply negb_true_iff, bool_decide_eq_false in Hs.
  - unfold owner_admitted in Ho. intros Hr. by rewrite Hr in Ho.
  - intros f Hf. unfold linkage_admitted in Hlink. rewrite Hf in Hlink. by apply bool_decide_eq_true in Hlink.
  - intros c Hctx. specialize (Hc c Hctx). unfold context_rejects in Hc.
    apply orb_false_iff in Hc as [Hr%bool_decide_eq_false Hf%negb_false_iff]. split_and!; [done..|].
    intros q Hrel Hcq. apply Hqual. rewrite Hctx. simpl. unfold is_reliable.
    by rewrite bool_decide_eq_true_2.
Qed.

(** The callable query always answers, and only with anchors it may offer: each answer
    is an unshadowed base or an overlay anchor, is not a record member, is visible if its
    linkage is internal, and matches a reliable call's qualifier and form; no declaration
    site is listed twice, and the groups partition the answer. *)
Theorem callable_query_sound input :
  exists answer, resolve_callable_candidates input = Some answer /\
    (forall a, a ∈ answer.(set_anchors) ->
       exists a0, admissible input a0 /\ a0.(anchor) = a.(anchor)) /\
    NoDup (anchor_identity <$> answer.(set_anchors)) /\
    answer.(set_groups) ≫= variants ≡ₚ answer.(set_anchors).
Proof.
  unfold resolve_callable_candidates, resolve_callable_input.
  pose proof (policy_anchors (admitted_anchors input) (call_context input)) as Hp.
  destruct (apply_arity_policy _ _) as [out outcome]. simpl in Hp.
  destruct (resolved_groups out (query_source_reach input) (query_coverage input)) as (groups & -> & Hg).
  simpl. eexists. split; [done|]. simpl. split_and!; [| |done].
  - intros a Ha. apply (list_elem_of_fmap_2 anchor) in Ha.
    apply (elem_of_submseteq _ _ _ Ha) in Hp as (a0 & Ha0 & Hin)%list_elem_of_fmap.
    exists a0. split; [by apply admitted_admissible|done].
  - assert (forall l : list ResolvedCallableAnchor, anchor_identity <$> l =
      (fun b => (an_path b, an_fingerprint b, start_byte (an_name_range b), end_byte (an_name_range b)))
        <$> (anchor <$> l)) as Hid.
    { intros l. rewrite <- list_fmap_compose. by apply list_fmap_ext. }
    rewrite Hid. eapply NoDup_of_submseteq; [apply fmap_submseteq, Hp|]. rewrite <- Hid.
    apply retain_new_nodup.
Qed.

(** ** Witness *)

Definition demo_callable (path : string) (role : AnchorRole) : CallableAnchor :=
  mkAnchor path "open" "open" None None KindFunction role LinkExternal (mkSig "(int)" (Some 1%N) (Some 1%N) false)
    "int(int)" "int open(int)" AstExact (mkSrcRange (mkPos 0 4) (mkPos 0 8) 4 8)
    (mkSrcRange (mkPos 0 0) (mkPos 0 20) 0 20) None None ProvAst false path path.
Definition demo_resolved (path : string) (role : AnchorRole) : ResolvedCallableAnchor :=
  ResolvedCallableAnchor_new (demo_callable path role)
    (mkCandidate "open" "function" (AnchorRole_as_str role) path (mkRange 0 4 0 8) "workspace"
       TierReachable 1000 Reachable ReachableInclude) OriginBase.
Definition demo_source : ResolvedCallableAnchor := demo_resolved "src/a.c" RoleDefinition.
Definition demo_header : ResolvedCallableAnchor := demo_resolved "inc/a.h" RoleDeclaration.
Definition demo_reach : gmap string ReachScope :=
  {["src/a.c" := mkScope {["src/a.c"; "inc/a.h"]} ∅ false None]}.
Definition demo_coverage : CandidateCoverage := mkCandidateCoverage 2 false false None.

Lemma strict_pairs_exact_witness :
  pair_group demo_source demo_header ∈ [pair_group demo_source demo_header] <->
  coverage_incomplete demo_coverage = false /\ only_match [demo_source; demo_header] demo_reach demo_source demo_header.
Proof.
  apply (strict_pairs_exact [demo_source; demo_header] demo_reach demo_coverage).
  vm_compute. reflexivity.
Defined.
