(* ===== verification/CallCompact.v ===== *)
(** * Compact storage of the relation index (call_catalog/compact.rs)

    Evidence bit masks ([u16]) and their ledgers, the interning string pool, and call
    sites stored with interned strings. Identifiers are [u32]; [compact_id] fails beyond
    them, which is [None] here and a panic in the code. *)

From S2P Require Import Prelude CallModel.

Definition u32_limit : N := 4294967296.
(** [u32::try_from(index)] *)
Definition compact_id (index : nat) : option nat :=
  if (N.of_nat index <? u32_limit)%N then Some index else None.

(** ** Evidence *)

Record EvidenceBits : Type := mkBits { bit_supports : N; bit_contradictions : N; bit_unknowns : N }.
Definition no_evidence : EvidenceBits := mkBits 0 0 0.

Definition evidence_index (code : EvidenceCode) : N :=
  match code with
  | SameFile => 0 | InternalLinkage => 1 | ExplicitQualifier => 2 | ReachableDeclaration => 3
  | CompatibleArity => 4 | CompatibleSignature => 5 | NameOnly => 6 | OpenIncludeScope => 7
  | MacroExpansionUnknown => 8 | PreprocessorBranchUnknown => 9 | SyntaxErrorOverlap => 10
  | UnsupportedCallForm => 11 | ExternalBodyUnavailable => 12
  end.
Definition evidence_bit (code : EvidenceCode) : N := N.shiftl 1 (evidence_index code).
Definition EVIDENCE_CODES : list EvidenceCode :=
  [SameFile; InternalLinkage; ExplicitQualifier; ReachableDeclaration; CompatibleArity;
   CompatibleSignature; NameOnly; OpenIncludeScope; MacroExpansionUnknown;
   PreprocessorBranchUnknown; SyntaxErrorOverlap; UnsupportedCallForm; ExternalBodyUnavailable].

Definition support (code : EvidenceCode) (e : EvidenceBits) : EvidenceBits :=
  mkBits (N.lor e.(bit_supports) (evidence_bit code)) e.(bit_contradictions) e.(bit_unknowns).
Definition unknown (code : EvidenceCode) (e : EvidenceBits) : EvidenceBits :=
  mkBits e.(bit_supports) e.(bit_contradictions) (N.lor e.(bit_unknowns) (evidence_bit code)).
Definition merge (e other : EvidenceBits) : EvidenceBits :=
  mkBits (N.lor e.(bit_supports) other.(bit_supports))
    (N.lor e.(bit_contradictions) other.(bit_contradictions))
    (N.lor e.(bit_unknowns) other.(bit_unknowns)).
Definition has_bit (bits : N) (code : EvidenceCode) : bool :=
  negb (N.land bits (evidence_bit code) =? 0)%N.
Definition contains_support (e : EvidenceBits) (code : EvidenceCode) : bool := has_bit e.(bit_supports) code.
Definition collect (bits : N) : list EvidenceCode := List.filter (has_bit bits) EVIDENCE_CODES.
Definition into_ledger (e : EvidenceBits) : EvidenceLedger :=
  mkLedger (collect e.(bit_supports)) (collect e.(bit_contradictions)) (collect e.(bit_unknowns)).

(** ** Interned strings *)

Abbreviation StringId := nat (only parsing).
Record StringPool : Type := mkPool { values : list string; ids : gmap string StringId }.
Definition empty_pool : StringPool := mkPool [] ∅.

Definition intern (value : string) (p : StringPool) : option (StringId * StringPool) :=
  match p.(ids) !! value with
  | Some id => Some (id, p)
  | None =>
      id ← compact_id (length p.(values));
      Some (id, mkPool (p.(values) ++ [value]) (<[value := id]> p.(ids)))
  end.
Definition intern_optional (value : option string) (p : StringPool) : option (option StringId * StringPool) :=
  match value with
  | None => Some (None, p)
  | Some value => '(id, p) ← intern value p; Some (Some id, p)
  end.
(** [&self.values[id]] *)
Definition get (p : StringPool) (id : StringId) : option string := p.(values) !! id.
Definition lookup_id (p : StringPool) (value : string) : option StringId := p.(ids) !! value.

(** ** Stored call sites *)

Record StoredCallSite : Type := mkStored {
  st_path : StringId;
  st_caller_entity_key : StringId;
  st_expression_range : SourceRange;
  st_callee_range : SourceRange;
  st_callee_name : option StringId;
  st_qualified_name : option StringId;
  st_form : CallForm;
  st_argument_count : option N;
  st_guard : option StringId;
  st_provenance : FactProvenance;
  st_syntax_error_overlap : bool;
  st_site_fingerprint : string;
}.
Definition from_fact (fact : CallSiteFact) (p : StringPool) : option (StoredCallSite * StringPool) :=
  '(path, p) ← intern fact.(cs_path) p;
  '(caller, p) ← intern fact.(cs_caller_entity_key) p;
  '(callee_name, p) ← intern_optional fact.(cs_callee_name) p;
  '(qualified_name, p) ← intern_optional fact.(cs_qualified_name) p;
  '(guard, p) ← intern_optional fact.(cs_guard) p;
  Some (mkStored path caller fact.(cs_expression_range) fact.(cs_callee_range) callee_name qualified_name
          fact.(cs_form) fact.(cs_argument_count) guard fact.(cs_provenance)
          fact.(cs_syntax_error_overlap) fact.(cs_site_fingerprint), p).
Definition get_optional (p : StringPool) (id : option StringId) : option (option string) :=
  match id with None => Some None | Some id => Some <$> get p id end.
Definition materialize (s : StoredCallSite) (p : StringPool) : option CallSiteFact :=
  path ← get p s.(st_path);
  caller ← get p s.(st_caller_entity_key);
  callee_name ← get_optional p s.(st_callee_name);
  qualified_name ← get_optional p s.(st_qualified_name);
  guard ← get_optional p s.(st_guard);
  Some (mkCallSite path caller s.(st_expression_range) s.(st_callee_range) callee_name qualified_name
          s.(st_form) s.(st_argument_count) guard s.(st_provenance) s.(st_syntax_error_overlap)
          s.(st_site_fingerprint)).

(** [call_sites.into_iter().map(|call| from_fact(call, &mut strings)).collect()] *)
Fixpoint store_facts (facts : list CallSiteFact) (p : StringPool) : option (list StoredCallSite * StringPool) :=
  match facts with
  | [] => Some ([], p)
  | fact :: rest =>
      '(s, p) ← from_fact fact p;
      '(ss, p) ← store_facts rest p;
      Some (s :: ss, p)
  end.

(** ** Theorems *)

Lemma has_bit_testbit bits code : has_bit bits code = N.testbit bits (evidence_index code).
Proof.
  unfold has_bit, evidence_bit. rewrite N.shiftl_1_l.
  destruct (N.testbit bits (evidence_index code)) eqn:E.
  - apply negb_true_iff, N.eqb_neq. intros H. apply (f_equal (fun x => N.testbit x (evidence_index code))) in H.
    by rewrite N.land_spec, E, N.pow2_bits_true, N.bits_0 in H.
  - apply negb_false_iff, N.eqb_eq, N.bits_inj. intros j. rewrite N.land_spec, N.bits_0.
    destruct (N.eq_dec (evidence_index code) j) as [<-|Hne]; [by rewrite E|].
    by rewrite (N.pow2_bits_false _ j Hne), andb_false_r.
Qed.
Lemma evidence_index_inj a b : evidence_index a = evidence_index b -> a = b.
Proof. by destruct a, b. Qed.
Lemma evidence_codes_complete code : code ∈ EVIDENCE_CODES.
Proof. apply list_elem_of_In. destruct code; simpl; tauto. Qed.
Lemma collect_spec bits code : code ∈ collect bits <-> has_bit bits code = true.
Proof.
  unfold collect. rewrite elem_of_filter_bool. split; [by intros [_ ?]|].
  split; [apply evidence_codes_complete|done].
Qed.
Lemma collect_nodup bits : NoDup (collect bits).
Proof.
  eapply sublist_NoDup; [|apply list_filter_bool_sublist].
  by apply (bool_decide_unpack _).
Qed.
Lemma has_bit_lor a b code : has_bit (N.lor a b) code = has_bit a code || has_bit b code.
Proof. by rewrite !has_bit_testbit, N.lor_spec. Qed.
Lemma has_bit_evidence c code : has_bit (evidence_bit c) code = bool_decide (c = code).
Proof.
  rewrite has_bit_testbit. unfold evidence_bit. rewrite N.shiftl_1_l.
  case_bool_decide as H; [subst; apply N.pow2_bits_true|].
  apply N.pow2_bits_false. by intros ?%evidence_index_inj.
Qed.

(** A ledger lists exactly the evidence recorded in the masks, each code once: a code
    is listed as support after [support] if it was recorded then or before, after
    [merge] if either side recorded it, and recording supports or unknowns never turns
    one into the other. *)
Theorem ledger_exact e other c code :
  let listed (which : EvidenceLedger -> list EvidenceCode) bits := code ∈ which (into_ledger bits) in
  NoDup (supports (into_ledger e)) /\ NoDup (contradictions (into_ledger e)) /\ NoDup (unknowns (into_ledger e)) /\
  (listed supports (support c e) <-> c = code \/ listed supports e) /\
  (listed unknowns (support c e) <-> listed unknowns e) /\
  (listed unknowns (unknown c e) <-> c = code \/ listed unknowns e) /\
  (listed supports (unknown c e) <-> listed supports e) /\
  (listed supports (merge e other) <-> listed supports e \/ listed supports other) /\
  (listed unknowns (merge e other) <-> listed unknowns e \/ listed unknowns other) /\
  (contains_support e code = true <-> listed supports e).
Proof.
  unfold contains_support. simpl. rewrite !collect_spec, !has_bit_lor, !has_bit_evidence.
  rewrite !orb_true_iff, bool_decide_eq_true.
  split_conj; try apply collect_nodup; tauto.
Qed.

(** The pool maps each interned string to the position it is stored at. *)
Definition pool_ok (p : StringPool) : Prop :=
  forall s id, p.(ids) !! s = Some id <-> p.(values) !! id = Some s.
(** Later states of a pool. *)
Definition pool_le (p q : StringPool) : Prop := p.(values) `prefix_of` q.(values).
#[export] Instance pool_le_preorder : PreOrder pool_le.
Proof. split; unfold pool_le; [intros p|intros p q r]; [done|apply PreOrder_Transitive]. Qed.

Lemma empty_pool_ok : pool_ok empty_pool.
Proof. intros s id. simpl. by rewrite lookup_empty. Qed.
Lemma get_mono p q id s : pool_le p q -> get p id = Some s -> get q id = Some s.
Proof. intros [k Hk] H. unfold get in *. rewrite Hk. by apply lookup_app_l_Some. Qed.

Lemma intern_spec value p id q :
  pool_ok p -> intern value p = Some (id, q) -> pool_ok q /\ pool_le p q /\ get q id = Some value.
Proof.
  intros Hok. unfold intern. destruct (ids p !! value) as [i|] eqn:Hi.
  { intros [= <- <-]. split_and!; [done|done|by apply Hok]. }
  unfold compact_id. case_match; simpl; [|done]. intros [= <- <-].
  assert (value ∉ values p) as Hnew.
  { intros (j & Hj)%list_elem_of_lookup. apply Hok in Hj. congruence. }
  split_and!; [|by exists [value]|by apply list_lookup_middle].
  intros s j. simpl. destruct (decide (s = value)) as [->|Hne].
  - rewrite lookup_insert_eq. split; [intros [= <-]; by apply list_lookup_middle|].
    intros [Hj|[Hle Hj]]%lookup_app_Some; [by apply list_elem_of_lookup_2 in Hj|].
    apply list_lookup_singleton_Some in Hj as [Hj _]. f_equal. lia.
  - rewrite lookup_insert_ne by done. rewrite (Hok s j), lookup_app_Some. split; [by left|].
    intros [?|[_ Hj]]; [done|]. apply list_lookup_singleton_Some in Hj as [_ ->]. done.
Qed.

Lemma intern_optional_spec value p id q :
  pool_ok p -> intern_optional value p = Some (id, q) ->
  pool_ok q /\ pool_le p q /\ get_optional q id = Some value.
Proof.
  intros Hok. destruct value as [v|]; simpl; [|by intros [= <- <-]].
  destruct (intern v p) as [[i r]|] eqn:Hi; simpl; [|done]. intros [= <- <-].
  destruct (intern_spec _ _ _ _ Hok Hi) as (? & ? & Hg). split_and!; [done..|].
  simpl. by rewrite Hg.
Qed.
Lemma get_optional_mono p q id o : pool_le p q -> get_optional p id = Some o -> get_optional q id = Some o.
Proof.
  intros Hle. destruct id as [i|]; simpl; [|done].
  intros (s & Hs & ->)%fmap_Some. by rewrite (get_mono _ _ _ _ Hle Hs).
Qed.

Lemma materialize_mono s p q fact :
  pool_le p q -> materialize s p = Some fact -> materialize s q = Some fact.
Proof.
  intros Hle. unfold materialize. intros H.
  repeat (apply bind_Some in H as (? & ? & H)).
  repeat match goal with
    | Hx : get p _ = Some _ |- _ => apply (get_mono _ _ _ _ Hle) in Hx; rewrite Hx; clear Hx; simpl
    | Hx : get_optional p _ = Some _ |- _ =>
        apply (get_optional_mono _ _ _ _ Hle) in Hx; rewrite Hx; clear Hx; simpl
    end. done.
Qed.

Lemma from_fact_spec fact p s q :
  pool_ok p -> from_fact fact p = Some (s, q) ->
  pool_ok q /\ pool_le p q /\ materialize s q = Some fact.
Proof.
  intros Hok H. unfold from_fact in H.
  apply bind_Some in H as ([path p1] & H1 & H). apply bind_Some in H as ([caller p2] & H2 & H).
  apply bind_Some in H as ([callee p3] & H3 & H). apply bind_Some in H as ([qual p4] & H4 & H).
  apply bind_Some in H as ([guard p5] & H5 & [= <- <-]).
  apply intern_spec in H1 as (O1 & L1 & G1); [|done].
  apply intern_spec in H2 as (O2 & L2 & G2); [|done].
  apply intern_optional_spec in H3 as (O3 & L3 & G3); [|done].
  apply intern_optional_spec in H4 as (O4 & L4 & G4); [|done].
  apply intern_optional_spec in H5 as (O5 & L5 & G5); [|done].
  assert (pool_le p4 p5) as L45 by done. assert (pool_le p3 p5) as L35 by (by etrans).
  assert (pool_le p2 p5) as L25 by (by etrans). assert (pool_le p1 p5) as L15 by (by etrans).
  split_and!; [done|by etrans|]. unfold materialize; simpl.
  rewrite (get_mono _ _ _ _ L15 G1), (get_mono _ _ _ _ L25 G2). simpl.
  rewrite (get_optional_mono _ _ _ _ L35 G3), (get_optional_mono _ _ _ _ L45 G4), G5. simpl.
  by destruct fact.
Qed.

Lemma store_facts_spec facts p ss q :
  pool_ok p -> store_facts facts p = Some (ss, q) ->
  pool_ok q /\ pool_le p q /\ mapM (fun s => materialize s q) ss = Some facts.
Proof.
  revert p ss. induction facts as [|fact facts IH]; intros p ss Hok; simpl.
  { by intros [= <- <-]. }
  intros H. apply bind_Some in H as ([s p1] & H1 & H). apply bind_Some in H as ([ss' p2] & H2 & [= <- <-]).
  apply from_fact_spec in H1 as (O1 & L1 & M1); [|done].
  apply IH in H2 as (O2 & L2 & M2); [|done]. split_and!; [done|by etrans|].
  simpl. by rewrite (materialize_mono _ _ _ _ L2 M1), M2.
Qed.

(** Interning is lossless: call sites stored one after the other into a shared pool
    all materialise to the facts they came from, whatever strings later sites added, and
    the pool never holds a string twice. *)
Theorem stored_call_sites_roundtrip facts ss q :
  store_facts facts empty_pool = Some (ss, q) ->
  mapM (fun s => materialize s q) ss = Some facts /\ NoDup q.(values) /\
  forall s id, lookup_id q s = Some id <-> get q id = Some s.
Proof.
  intros H. destruct (store_facts_spec _ _ _ _ empty_pool_ok H) as (Hok & _ & Hm).
  split_and!; [done| |exact Hok]. apply NoDup_alt. intros i j s Hi Hj.
  apply Hok in Hi, Hj. congruence.
Qed.

Definition demo_call (name : string) (qual : option string) : CallSiteFact :=
  mkCallSite "a.c" "main" (mkSrcRange (mkPos 1 0) (mkPos 1 9) 10 19) (mkSrcRange (mkPos 1 0) (mkPos 1 4) 10 14)
    (Some name) qual DirectName (Some 1%N) None ProvAst false "fp".
Definition demo_store : option (list StoredCallSite * StringPool) :=
  store_facts [demo_call "open" None; demo_call "a.c" (Some "main")] empty_pool.
Lemma stored_call_sites_roundtrip_witness :
  match demo_store with
  | Some (ss, q) =>
      mapM (fun s => materialize s q) ss = Some [demo_call "open" None; demo_call "a.c" (Some "main")] /\
      NoDup q.(values) /\ (forall s id, lookup_id q s = Some id <-> get q id = Some s)
  | None => False
  end.
Proof.
  exact (stored_call_sites_roundtrip [demo_call "open" None; demo_call "a.c" (Some "main")] _ _ eq_refl).
Defined.

(** ** Totality below the identifier limit *)

Lemma compact_id_ok n : (N.of_nat n < u32_limit)%N -> compact_id n = Some n.
Proof. intros H. unfold compact_id. by rewrite (proj2 (N.ltb_lt _ _) H). Qed.
Lemma intern_total value p :
  (N.of_nat (length p.(values)) < u32_limit)%N ->
  exists id q, intern value p = Some (id, q) /\ (length q.(values) <= S (length p.(values)))%nat.
Proof.
  intros H. unfold intern. destruct (ids p !! value) as [id|]; [exists id, p; split; [done|lia]|].
  rewrite compact_id_ok by done. eexists _, _. split; [reflexivity|]. simpl. rewrite length_app. simpl. lia.
Qed.
Lemma intern_optional_total value p :
  (N.of_nat (length p.(values)) < u32_limit)%N ->
  exists id q, intern_optional value p = Some (id, q) /\ (length q.(values) <= S (length p.(values)))%nat.
Proof.
  intros H. destruct value as [v|]; simpl; [|exists None, p; split; [done|lia]].
  destruct (intern_total v p H) as (id & q & -> & Hq). simpl. by eexists _, _.
Qed.
Lemma from_fact_total fact p :
  (N.of_nat (length p.(values)) + 5 <= u32_limit)%N ->
  exists s q, from_fact fact p = Some (s, q) /\ (length q.(values) <= length p.(values) + 5)%nat.
Proof.
  intros H. unfold from_fact.
  destruct (intern_total fact.(cs_path) p) as (? & p1 & -> & H1); [lia|]. simpl.
  destruct (intern_total fact.(cs_caller_entity_key) p1) as (? & p2 & -> & H2); [lia|]. simpl.
  destruct (intern_optional_total fact.(cs_callee_name) p2) as (? & p3 & -> & H3); [lia|]. simpl.
  destruct (intern_optional_total fact.(cs_qualified_name) p3) as (? & p4 & -> & H4); [lia|]. simpl.
  destruct (intern_optional_total fact.(cs_guard) p4) as (? & p5 & -> & H5); [lia|]. simpl.
  eexists _, _. split; [reflexivity|lia].
Qed.
Lemma store_facts_total facts p :
  (N.of_nat (length p.(values)) + 5 * N.of_nat (length facts) <= u32_limit)%N ->
  exists ss q, store_facts facts p = Some (ss, q) /\ length ss = length facts.
Proof.
  revert p. induction facts as [|fact facts IH]; intros p H; simpl; [by eexists _, _|].
  simpl in H. destruct (from_fact_total fact p) as (s & q & -> & Hq); [lia|]. simpl.
  destruct (IH q) as (ss & r & -> & Hl); [lia|]. simpl. eexists _, _. split; [reflexivity|]. simpl. lia.
Qed.
