(* ===== verification/Grouping.v ===== *)
(** * Conservative callable grouping (call_catalog/grouping.rs)

    The anchors of a relation query are bucketed by exact name; within the work budgets
    each bucket is paired by the strict counterpart resolver, otherwise its anchors stay
    singletons. [blake3] is the digest of the hashing library, rendered in hexadecimal. *)

From S2P Require Import Prelude Candidates Resolver Reachability CallModel Relations Callables Counterparts.

Definition STRICT_COUNTERPART_ANCHOR_BUDGET : N := 1024.
Definition STRICT_COUNTERPART_EDGE_BUDGET : N := 16384.
Definition GROUP_KEY_SEPARATOR : string := "::fossilsense-group::".

Record SemanticAnchorGroup : Type := mkAnchorGroup {
  sg_variants : list CallableAnchor;
  sg_candidate_limited : bool;
}.

Definition anchor_position_order : CallableAnchor -> CallableAnchor -> comparison :=
  cmp_lex (cmp_on an_path String.compare)
  (cmp_lex (cmp_on (fun a => a.(an_name_range).(start_byte)) N.compare)
           (cmp_on an_fingerprint String.compare)).
Definition same_anchor (left right : CallableAnchor) : bool :=
  String.eqb left.(an_path) right.(an_path) && String.eqb left.(an_fingerprint) right.(an_fingerprint)
  && bool_decide (left.(an_name_range) = right.(an_name_range)).

(** [BTreeMap::entry(key).or_default().push(value)] on the entries in key order. *)
Fixpoint btree_push {A} (key : string) (value : A) (m : list (string * list A)) : list (string * list A) :=
  match m with
  | [] => [(key, [value])]
  | (k, vs) :: m' =>
      match String.compare key k with
      | Lt => (key, [value]) :: m
      | Eq => (k, vs ++ [value]) :: m'
      | Gt => (k, vs) :: btree_push key value m'
      end
  end.
Definition name_buckets (anchors : list CallableAnchor) : list (string * list CallableAnchor) :=
  foldl (fun m a => btree_push a.(an_name) a m) [] anchors.

Definition resolved_anchor_for_relation_grouping (a : CallableAnchor) : ResolvedCallableAnchor :=
  let '(conf, why) := confidence_reason_for TierGlobal true None in
  let r := a.(an_name_range) in
  ResolvedCallableAnchor_new a
    (mkCandidate a.(an_name) (CallableKind_as_str a.(an_kind)) (AnchorRole_as_str a.(an_role)) a.(an_path)
       (mkRange r.(range_start).(line) r.(range_start).(character) r.(range_end).(line) r.(range_end).(character))
       (if is_absolute a.(an_path) then "external" else "workspace")
       TierGlobal (if bool_decide (a.(an_role) = RoleDefinition) then 1000 else 900) conf why)
    OriginBase.

(** [source_reach.entry(path).or_insert_with(|| graph.reachable(path))] *)
Definition source_reach_step (g : ReachGraph) (acc : option (gmap string ReachScope)) (path : string) :
    option (gmap string ReachScope) :=
  m ← acc;
  match m !! path with
  | Some _ => Some m
  | None => scope ← compute g path; Some (<[path := scope]> m)
  end.
Definition reach_of_sources (graph : option ReachGraph) (paths : list string) : option (gmap string ReachScope) :=
  match graph with
  | None => Some ∅
  | Some g => foldl (source_reach_step g) (Some ∅) paths
  end.

Record GroupingState : Type := mkGroupingState {
  remaining_anchor_budget : N;
  remaining_edge_budget : N;
  grouped : list SemanticAnchorGroup;
}.

Definition bucket_step (graph : option ReachGraph) (incomplete : bool)
    (acc : option GroupingState) (bucket : list CallableAnchor) : option GroupingState :=
  st ← acc;
  let resolved := resolved_anchor_for_relation_grouping <$> bucket in
  let source_paths := (fun a => a.(anchor).(an_path)) <$> List.filter is_source_definition resolved in
  let declaration_count :=
    N.of_nat (length (List.filter (fun a => bool_decide (a.(anchor).(an_role) = RoleDeclaration)) resolved)) in
  let count := N.of_nat (length resolved) in
  let edge_cost := saturating_mul (N.of_nat (length source_paths)) declaration_count in
  let budget_limited :=
    (st.(remaining_anchor_budget) <? count)%N || (st.(remaining_edge_budget) <? edge_cost)%N in
  let open := negb incomplete && negb budget_limited in
  let remaining_anchors :=
    if open then (st.(remaining_anchor_budget) - count)%N else st.(remaining_anchor_budget) in
  let remaining_edges :=
    if open then (st.(remaining_edge_budget) - edge_cost)%N else st.(remaining_edge_budget) in
  source_reach ← (if open then reach_of_sources graph source_paths else Some ∅);
  let coverage :=
    mkCandidateCoverage count budget_limited
      (open && existsb (fun path => match source_reach !! path with
                                    | None => true | Some scope => scope.(scope_open) end) source_paths)
      (if budget_limited then Some CandidateBudget
       else if incomplete then Some ReasonCancelled else None) in
  groups ← resolve_counterparts resolved source_reach coverage;
  Some (mkGroupingState remaining_anchors remaining_edges
          (st.(grouped) ++ ((fun g => mkAnchorGroup (anchor <$> variants g) budget_limited) <$> groups))).

Definition variant_key (group : list CallableAnchor) : string * N * string :=
  match group with
  | [] => ("", 0%N, "")
  | a :: _ => (a.(an_path), a.(an_name_range).(start_byte), a.(an_fingerprint))
  end.
Definition variant_key_order : SemanticAnchorGroup -> SemanticAnchorGroup -> comparison :=
  cmp_on (fun g => variant_key g.(sg_variants))
    (cmp_lex (cmp_on (fun k => k.1.1) String.compare)
    (cmp_lex (cmp_on (fun k => k.1.2) N.compare) (cmp_on snd String.compare))).

Definition distinct_anchors (anchors : list CallableAnchor) : list CallableAnchor :=
  dedup same_anchor (sort_by anchor_position_order anchors).
Definition initial_grouping : GroupingState :=
  mkGroupingState STRICT_COUNTERPART_ANCHOR_BUDGET STRICT_COUNTERPART_EDGE_BUDGET [].
Definition semantic_anchor_groups (anchors : list CallableAnchor) (graph : option ReachGraph)
    (incomplete : bool) : option (list SemanticAnchorGroup) :=
  st ← foldl (bucket_step graph incomplete) (Some initial_grouping)
         (name_buckets (distinct_anchors anchors)).*2;
  Some (sort_by variant_key_order st.(grouped)).

(** ** Group keys *)

(** [to_le_bytes] of a [usize]. *)
Definition le_bytes (v : N) : list N :=
  (fun i => N.land (N.shiftr v (8 * N.of_nat i)) 255) <$> seq 0 8.
Definition identity_bytes (i : string * N * string) : list N :=
  bytes_of i.1.1 ++ [0%N] ++ le_bytes i.1.2 ++ [0%N] ++ bytes_of i.2 ++ [255%N].
Definition derived_group_key (blake3_hex : list N -> string) (raw_key : string)
    (group : list CallableAnchor) : string :=
  let identities :=
    sort_by (cmp_lex (cmp_on (fun k : string * N * string => k.1.1) String.compare)
            (cmp_lex (cmp_on (fun k => k.1.2) N.compare) (cmp_on snd String.compare)))
      ((fun a => (a.(an_path), a.(an_name_range).(start_byte), a.(an_fingerprint))) <$> group) in
  raw_key +:+ GROUP_KEY_SEPARATOR +:+
    String.substring 0 24 (blake3_hex (identities ≫= identity_bytes)).

(** [logical_key.split_once(SEPARATOR).map_or(logical_key, |(raw, _)| raw)] *)
Fixpoint split_once_before (sep s : string) : option string :=
  if String.prefix sep s then Some EmptyString
  else match s with
       | EmptyString => None
       | String.String c rest => String.String c <$> split_once_before sep rest
       end.
Definition raw_entity_key (logical_key : string) : string :=
  default logical_key (split_once_before GROUP_KEY_SEPARATOR logical_key).

(** ** Theorems *)

Lemma btree_push_perm {A} key (v : A) m :
  btree_push key v m ≫= snd ≡ₚ v :: (m ≫= snd).
Proof.
  induction m as [|[k vs] m IH]; simpl; [done|]. destruct (String.compare key k); simpl.
  - rewrite <- app_assoc. simpl. by rewrite Permutation_middle.
  - done.
  - rewrite IH. by rewrite Permutation_middle.
Qed.
Lemma name_buckets_perm anchors : name_buckets anchors ≫= snd ≡ₚ anchors.
Proof.
  unfold name_buckets.
  assert (forall m, foldl (fun m a => btree_push (an_name a) a m) m anchors ≫= snd ≡ₚ (m ≫= snd) ++ anchors) as H;
    [|apply H].
  induction anchors as [|a l IH]; intros m; simpl; [by rewrite app_nil_r|].
  rewrite IH, btree_push_perm. simpl. by rewrite Permutation_middle.
Qed.

(** Every bucket holds one name and is not empty. *)
Definition bucket_ok (b : string * list CallableAnchor) : Prop :=
  b.2 <> [] /\ Forall (fun a => a.(an_name) = b.1) b.2.
Lemma btree_push_ok a m : Forall bucket_ok m -> Forall bucket_ok (btree_push a.(an_name) a m).
Proof.
  induction 1 as [|[k vs] m [Hne Hb] Hm IH]; simpl.
  { repeat constructor; done. }
  simpl in *. destruct (String.compare (an_name a) k) eqn:E.
  - apply string_compare_eq in E. constructor; [|done]. split; simpl; [by destruct vs|].
    apply Forall_app. split; [done|]. by repeat constructor.
  - constructor; [|by constructor]. repeat constructor; done.
  - by constructor.
Qed.
Lemma name_buckets_ok anchors : Forall bucket_ok (name_buckets anchors).
Proof.
  unfold name_buckets. assert (Forall bucket_ok (@nil (string * list CallableAnchor))) as H by constructor.
  revert H. generalize (@nil (string * list CallableAnchor)).
  induction anchors as [|a l IH]; intros m Hm; simpl; [done|]. by apply IH, btree_push_ok.
Qed.

(** The cost of comparing the bucket's definitions with its declarations. *)
Definition bucket_edges (b : list CallableAnchor) : N :=
  let resolved := resolved_anchor_for_relation_grouping <$> b in
  saturating_mul (N.of_nat (length (List.filter is_source_definition resolved)))
    (N.of_nat (length (List.filter (fun a => bool_decide (a.(anchor).(an_role) = RoleDeclaration)) resolved))).
Definition total (l : list N) : N := foldr N.add 0%N l.
Lemma total_app l k : total (l ++ k) = (total l + total k)%N.
Proof. induction l as [|x l IH]; simpl; lia. Qed.

Lemma reach_of_sources_total graph paths : is_Some (reach_of_sources graph paths).
Proof.
  unfold reach_of_sources. destruct graph as [g|]; [|done].
  assert (forall m, is_Some (foldl (source_reach_step g) (Some m) paths)) as H; [|apply H].
  induction paths as [|p l IH]; intros m; simpl; [done|].
  destruct (m !! p); [apply IH|]. destruct (compute_total g p) as [s ->]. apply IH.
Qed.

Lemma resolved_anchor_anchor (b : list CallableAnchor) :
  anchor <$> (resolved_anchor_for_relation_grouping <$> b) = b.
Proof. rewrite <- list_fmap_compose. rewrite <- (list_fmap_id b) at 2. by apply list_fmap_ext. Qed.

(** The groups a bucket contributes. *)
Record bucket_groups (b : list CallableAnchor) (compared : bool) (new : list SemanticAnchorGroup) : Prop := {
  bg_partition : new ≫= sg_variants ≡ₚ b;
  bg_single : compared = false -> forall g, g ∈ new -> length g.(sg_variants) = 1;
  bg_size g : g ∈ new -> (1 <= length g.(sg_variants) <= 2)%nat;
}.

Lemma variants_size anchors reach coverage groups g :
  resolve_counterparts anchors reach coverage = Some groups -> g ∈ groups ->
  (1 <= length (variants g) <= 2)%nat /\ (coverage_incomplete coverage = true -> length (variants g) = 1).
Proof.
  rewrite resolve_counterparts_eq. intros [= <-]. destruct (coverage_incomplete coverage).
  { intros (a & -> & _)%list_elem_of_fmap. rewrite variants_singleton. simpl. lia. }
  rewrite elem_of_sort_by. intros (i & Hi & _)%list_elem_of_bind. split; [|done].
  unfold produced in Hi. destruct (comes_second anchors reach i); [by apply not_elem_of_nil in Hi|].
  unfold group_made in Hi. destruct (anchors !! i) as [a|]; simpl in Hi; [|by apply not_elem_of_nil in Hi].
  repeat case_match; simpl in Hi;
    repeat match goal with
    | H : context [anchors !! ?j] |- _ => destruct (anchors !! j); simpl in H
    end;
    try (by apply not_elem_of_nil in Hi); apply list_elem_of_singleton in Hi as ->;
    rewrite ?variants_singleton; simpl; lia.
Qed.

Lemma bucket_step_spec graph incomplete st b :
  exists st' new compared,
    bucket_step graph incomplete (Some st) b = Some st' /\
    st'.(grouped) = st.(grouped) ++ new /\ bucket_groups b compared new /\
    (if compared
     then st.(remaining_anchor_budget) = (st'.(remaining_anchor_budget) + N.of_nat (length b))%N /\
          st.(remaining_edge_budget) = (st'.(remaining_edge_budget) + bucket_edges b)%N
     else st'.(remaining_anchor_budget) = st.(remaining_anchor_budget) /\
          st'.(remaining_edge_budget) = st.(remaining_edge_budget)).
Proof.
  unfold bucket_step. cbn [mbind option_bind]. rewrite !length_fmap. fold (bucket_edges b).
  set (lim := (_ <? N.of_nat (length b))%N || _).
  assert (is_Some (if negb incomplete && negb lim then reach_of_sources graph
    ((fun a => an_path (anchor a)) <$> List.filter is_source_definition
       (resolved_anchor_for_relation_grouping <$> b)) else Some ∅)) as [sr ->].
  { destruct (negb incomplete && negb lim); [apply reach_of_sources_total|done]. }
  cbn [mbind option_bind].
  match goal with |- context [resolve_counterparts ?r ?s ?c] =>
    destruct (resolved_groups r s c) as (groups & Hres & Hperm); pose proof (variants_size r s c groups) as Hsz;
    rewrite Hres end.
  cbn [mbind option_bind]. eexists _, _, (negb incomplete && negb lim). split; [reflexivity|].
  split; [reflexivity|]. split; [split|].
  - assert (forall gs, ((fun g => mkAnchorGroup (anchor <$> variants g) lim) <$> gs) ≫= sg_variants
      = anchor <$> (gs ≫= variants)) as ->.
    { induction gs as [|g gs IH]; [done|]. by rewrite fmap_cons, !bind_cons, fmap_app, IH. }
    by rewrite Hperm, resolved_anchor_anchor.
  - intros Hc g (g' & -> & Hg)%list_elem_of_fmap. simpl. rewrite length_fmap.
    destruct (Hsz g' Hres Hg) as [_ H1]. apply H1. unfold coverage_incomplete. simpl.
    destruct lim; [done|]. destruct incomplete; [done|]. done.
  - intros g (g' & -> & Hg)%list_elem_of_fmap. simpl. rewrite length_fmap. by apply (Hsz g' Hres Hg).
  - destruct (negb incomplete && negb lim) eqn:Hc; [|done].
    apply andb_true_iff in Hc as [_ Hl%negb_true_iff]. unfold lim in Hl.
    apply orb_false_iff in Hl as [H1%N.ltb_ge H2%N.ltb_ge]. simpl. lia.
Qed.

(** What folding the buckets establishes. *)
Record grouping_inv (buckets compared : list (list CallableAnchor)) (st : GroupingState) : Prop := {
  gi_partition : st.(grouped) ≫= sg_variants ≡ₚ mjoin buckets;
  gi_sublist : compared `sublist_of` buckets;
  gi_anchors : (st.(remaining_anchor_budget) + total ((fun b => N.of_nat (length b)) <$> compared)
                = STRICT_COUNTERPART_ANCHOR_BUDGET)%N;
  gi_edges : (st.(remaining_edge_budget) + total (bucket_edges <$> compared)
              = STRICT_COUNTERPART_EDGE_BUDGET)%N;
  gi_group g : g ∈ st.(grouped) -> (1 <= length g.(sg_variants) <= 2)%nat /\
    exists b, b ∈ buckets /\ g.(sg_variants) ⊆ b /\ (length g.(sg_variants) = 2 -> b ∈ compared);
}.

Lemma bucket_fold_spec graph incomplete buckets :
  exists st compared,
    foldl (bucket_step graph incomplete) (Some initial_grouping) buckets = Some st /\
    grouping_inv buckets compared st.
Proof.
  induction buckets as [|b buckets IH] using rev_ind.
  { exists initial_grouping, []. split; [done|].
    split; [done|constructor|done|done|by intros g ?%not_elem_of_nil]. }
  destruct IH as (st & compared & Heq & [Hp Hs Ha He Hg]).
  destruct (bucket_step_spec graph incomplete st b) as (st' & new & cmp & Hstep & Hgr & [Bp Bs Bn] & Hb).
  exists st', (if cmp then compared ++ [b] else compared). rewrite foldl_app, Heq. split; [exact Hstep|].
  split.
  - rewrite Hgr, bind_app, Hp, Bp, join_app. simpl. by rewrite app_nil_r.
  - destruct cmp; [by apply sublist_app|by apply sublist_inserts_r].
  - destruct cmp, Hb as [Hb1 Hb2]; rewrite ?fmap_app, ?total_app; simpl; lia.
  - destruct cmp, Hb as [Hb1 Hb2]; rewrite ?fmap_app, ?total_app; simpl; lia.
  - intros g. rewrite Hgr, elem_of_app. intros [Hin|Hin].
    + destruct (Hg g Hin) as (? & b' & Hb' & Hsub & H2). split; [done|]. exists b'.
      rewrite elem_of_app. split_and!; [by left|done|]. intros H2'. apply H2 in H2'.
      destruct cmp; [by apply elem_of_app; left|done].
    + split; [by apply Bn|]. exists b. rewrite elem_of_app, list_elem_of_singleton.
      split_and!; [by right| |].
      * intros a Hga. rewrite <- Bp. apply list_elem_of_bind. by exists g.
      * destruct cmp; [intros _; apply elem_of_app; right; by apply list_elem_of_singleton|].
        intros H2. rewrite (Bs eq_refl g Hin) in H2. done.
Qed.

Lemma bucket_names anchors b :
  b ∈ (name_buckets anchors).*2 -> forall x y, x ∈ b -> y ∈ b -> x.(an_name) = y.(an_name).
Proof.
  intros ([k vs] & -> & Hb)%list_elem_of_fmap x y Hx Hy. simpl in *.
  pose proof (name_buckets_ok anchors) as Hok. rewrite Forall_forall in Hok.
  destruct (Hok _ Hb) as [_ Hn]. simpl in Hn. rewrite Forall_forall in Hn.
  by rewrite (Hn x Hx), (Hn y Hy).
Qed.
Lemma mjoin_snd {A B} (l : list (A * list B)) : mjoin l.*2 = l ≫= snd.
Proof. induction l as [|x l IH]; [done|]. rewrite fmap_cons, bind_cons. simpl. by rewrite IH. Qed.

(** What clients of the grouping rely on. *)
Lemma semantic_anchor_groups_spec anchors graph incomplete :
  exists groups compared,
    semantic_anchor_groups anchors graph incomplete = Some groups /\
    groups ≫= sg_variants ≡ₚ distinct_anchors anchors /\
    compared `sublist_of` (name_buckets (distinct_anchors anchors)).*2 /\
    (total ((fun b => N.of_nat (length b)) <$> compared) <= STRICT_COUNTERPART_ANCHOR_BUDGET)%N /\
    (total (bucket_edges <$> compared) <= STRICT_COUNTERPART_EDGE_BUDGET)%N /\
    forall g, g ∈ groups ->
      (1 <= length g.(sg_variants) <= 2)%nat /\
      (forall x y, x ∈ g.(sg_variants) -> y ∈ g.(sg_variants) -> x.(an_name) = y.(an_name)) /\
      (length g.(sg_variants) = 2 -> exists b, b ∈ compared /\ g.(sg_variants) ⊆ b).
Proof.
  unfold semantic_anchor_groups.
  destruct (bucket_fold_spec graph incomplete (name_buckets (distinct_anchors anchors)).*2)
    as (st & compared & -> & [Hp Hs Ha He Hg]).
  simpl. eexists _, compared. split; [done|]. split_and!; [|done|lia|lia|].
  - rewrite sort_by_perm, Hp, mjoin_snd. apply name_buckets_perm.
  - intros g. rewrite elem_of_sort_by. intros (Hsz & b & Hb & Hsub & H2)%Hg. split_and!; [lia|lia| |].
    + intros x y Hx Hy. eapply bucket_names; [exact Hb| |]; by apply Hsub.
    + intros Hl. exists b. split; [by apply H2|done].
Qed.

(** Grouping conserves the anchors and bounds its work: it always returns, its groups
    partition the distinct anchors of the request, a group has one or two anchors of one
    name, a pair comes from a compared bucket, and the buckets compared together hold at
    most 1024 anchors and cost at most 16384 comparisons. *)
Theorem grouping_bounded_partition anchors graph incomplete :
  exists groups compared,
    semantic_anchor_groups anchors graph incomplete = Some groups /\
    groups ≫= sg_variants ≡ₚ distinct_anchors anchors /\
    compared `sublist_of` (name_buckets (distinct_anchors anchors)).*2 /\
    (total ((fun b => N.of_nat (length b)) <$> compared) <= STRICT_COUNTERPART_ANCHOR_BUDGET)%N /\
    (total (bucket_edges <$> compared) <= STRICT_COUNTERPART_EDGE_BUDGET)%N /\
    forall g, g ∈ groups ->
      (1 <= length g.(sg_variants) <= 2)%nat /\
      (forall x y, x ∈ g.(sg_variants) -> y ∈ g.(sg_variants) -> x.(an_name) = y.(an_name)) /\
      (length g.(sg_variants) = 2 -> exists b, b ∈ compared /\ g.(sg_variants) ⊆ b).
Proof. apply semantic_anchor_groups_spec. Qed.

(** ** Keys *)

Definition has_colon (s : string) : bool := existsb (N.eqb 58) (bytes_of s).

Lemma separator_starts_with_colon c rest :
  (58 =? Ascii.N_of_ascii c)%N = false -> String.prefix GROUP_KEY_SEPARATOR (String.String c rest) = false.
Proof.
  intros H. unfold GROUP_KEY_SEPARATOR. cbn [String.prefix].
  destruct (Ascii.ascii_dec _ c) as [<-|]; [|done]. by vm_compute in H.
Qed.
Lemma prefix_app s t : String.prefix s (s +:+ t) = true.
Proof.
  induction s as [|c s IH]; simpl; [by destruct t|].
  destruct (Ascii.ascii_dec c c); [exact IH|done].
Qed.
Lemma split_once_app raw rest :
  has_colon raw = false -> split_once_before GROUP_KEY_SEPARATOR (raw +:+ GROUP_KEY_SEPARATOR +:+ rest) = Some raw.
Proof.
  induction raw as [|c raw IH]; intros H.
  - change (EmptyString +:+ GROUP_KEY_SEPARATOR +:+ rest) with (GROUP_KEY_SEPARATOR +:+ rest).
    pose proof (prefix_app GROUP_KEY_SEPARATOR rest) as Hp.
    destruct (GROUP_KEY_SEPARATOR +:+ rest) as [|c s] eqn:E; [done|].
    cbn [split_once_before]. by rewrite Hp.
  - unfold has_colon in H. cbn [bytes_of existsb] in H. apply orb_false_iff in H as [Hc H].
    change (String.String c raw +:+ GROUP_KEY_SEPARATOR +:+ rest)
      with (String.String c (raw +:+ GROUP_KEY_SEPARATOR +:+ rest)).
    cbn [split_once_before]. rewrite separator_starts_with_colon by done. by rewrite IH.
Qed.
Lemma split_once_none raw : has_colon raw = false -> split_once_before GROUP_KEY_SEPARATOR raw = None.
Proof.
  induction raw as [|c raw IH]; intros H; [done|].
  unfold has_colon in H. cbn [bytes_of existsb] in H. apply orb_false_iff in H as [Hc H].
  cbn [split_once_before]. rewrite separator_starts_with_colon by done. by rewrite IH.
Qed.

(** A logical key leads back to its raw key: for raw keys without a colon (parser keys
    are hexadecimal digests) the raw key is recovered from a derived group key, whatever
    the digest function, and a raw key is its own. *)
Theorem raw_key_recovered blake3_hex raw group :
  has_colon raw = false ->
  raw_entity_key (derived_group_key blake3_hex raw group) = raw /\ raw_entity_key raw = raw.
Proof.
  intros H. unfold raw_entity_key, derived_group_key. by rewrite split_once_app, split_once_none.
Qed.
(** A stand-in digest: the length of the input. *)
Definition demo_digest (bytes : list N) : string :=
  if (length bytes <? 40)%nat then "00112233445566778899aabbccddeeff" else "ffeeddccbbaa99887766554433221100".
Lemma raw_key_recovered_witness :
  raw_entity_key (derived_group_key demo_digest "0123abcd" [demo_callable "a.c" RoleDefinition]) = "0123abcd" /\
  raw_entity_key "0123abcd" = "0123abcd".
Proof. apply (raw_key_recovered demo_digest "0123abcd" [demo_callable "a.c" RoleDefinition]). vm_compute. reflexivity. Defined.
