(* ===== verification/CallCatalog.v ===== *)
(** * The relation query index (call_catalog.rs)

    A request-scoped index over grouped callables and call sites: entities with their
    keys, the resolution of callers and callees, relations with shared call-site storage,
    and the paged queries. Vector indices that the code takes for granted are read with a
    default; [compact_id] failing is [None] (a panic in the code). *)

From S2P Require Import Prelude Candidates Resolver Reachability CallModel CallCompact.
From S2P Require Import Relations Callables Counterparts Grouping.

Abbreviation EntityId := nat (only parsing).
Abbreviation CallSiteId := nat (only parsing).
Abbreviation RelationId := nat (only parsing).

Record CompactRelationKey : Type := mkRelKey {
  key_caller : EntityId;
  key_callee : option EntityId;
  key_confidence : RelationConfidence;
  key_ambiguity_site : option CallSiteId;
}.
#[export] Instance CompactRelationKey_eq_dec : EqDecision CompactRelationKey.
Proof. solve_decision. Defined.
Definition confidence_of_rank (n : N) : RelationConfidence :=
  match n with
  | 5 => RelHigh | 4 => RelMedium | 3 => RelLow | 2 => RelAmbiguous | 1 => RelUnresolved | _ => RelUnavailable
  end%N.
#[export] Program Instance RelationConfidence_countable : Countable RelationConfidence :=
  inj_countable' relation_confidence_rank confidence_of_rank _.
Next Obligation. by intros []. Qed.
#[export] Program Instance CompactRelationKey_countable : Countable CompactRelationKey :=
  inj_countable' (fun k => (k.(key_caller), k.(key_callee), k.(key_confidence), k.(key_ambiguity_site)))
    (fun '(a, b, c, d) => mkRelKey a b c d) _.
Next Obligation. by intros []. Qed.

Record RelationBuilder : Type := mkBuilder {
  b_key : CompactRelationKey;
  first_call_site : CallSiteId;
  additional_call_sites : list CallSiteId;
  b_evidence : EvidenceBits;
}.
Record CompactRelation : Type := mkCompactRelation {
  r_key : CompactRelationKey;
  call_site_start : nat;
  call_site_len : nat;
  r_evidence : EvidenceBits;
}.

Record RelationQueryIndex : Type := mkIndex {
  entities : list CallableEntity;
  entity_by_key : gmap string EntityId;
  entity_raw_keys : list (list string);
  entities_by_raw_key : gmap string (list EntityId);
  by_name : gmap string (list EntityId);
  by_path : gmap string (list EntityId);
  strings : StringPool;
  call_sites : list StoredCallSite;
  calls_by_path : gmap StringId (list CallSiteId);
  relations : list CompactRelation;
  relation_call_sites : list CallSiteId;
  outgoing : gmap EntityId (list RelationId);
  incoming : gmap EntityId (list RelationId);
  index_coverage : CoverageSummary;
  entity_candidate_limited : list bool;
}.

(** ** Entities *)

Definition primary_anchor_cmp : CallableAnchor -> CallableAnchor -> comparison :=
  cmp_lex (cmp_on (fun a => negb (bool_decide (a.(an_role) = RoleDefinition))) bool_cmp)
  (cmp_lex (cmp_on (fun a => negb (bool_decide (a.(an_provenance) = ProvAst))) bool_cmp)
  (cmp_lex (cmp_on an_path String.compare)
           (cmp_on (fun a => a.(an_name_range).(start_byte)) N.compare))).
Definition eligible_free_function (e : CallableEntity) : bool :=
  bool_decide (e.(ent_kind) = KindFunction)
  && negb (bool_decide (is_Some e.(ent_owner)) && bool_decide (e.(ent_owner_kind) = Some OwnerUnknown)).

(** How many groups each raw key occurs in. *)
Definition raw_group_counts (groups : list SemanticAnchorGroup) : gmap string nat :=
  foldl (fun counts g =>
           foldl (fun counts k => <[k := S (default 0 (counts !! k))]> counts) counts
             (elements (list_to_set (an_entity_key <$> g.(sg_variants)) : gset string)))
    ∅ groups.

Definition entity_of_group (blake3_hex : list N -> string) (counts : gmap string nat)
    (g : SemanticAnchorGroup) : option (CallableEntity * list string) :=
  let vs := dedup same_anchor (sort_by primary_anchor_cmp g.(sg_variants)) in
  primary ← vs !! 0;
  let raw_keys := dedup String.eqb (sort_by String.compare (an_entity_key <$> vs)) in
  let raw_key := primary.(an_entity_key) in
  let key :=
    if Nat.eqb (length raw_keys) 1 && Nat.eqb (default 0 (counts !! raw_key)) 1
    then raw_key else derived_group_key blake3_hex raw_key vs in
  Some (mkEntity key primary.(an_name) primary.(an_qualified_name) primary.(an_owner)
          primary.(an_owner_kind) primary.(an_kind) primary.(an_linkage) primary.(an_signature)
          primary vs, raw_keys).

(** The tables filled by the loop over the groups. *)
Record EntityTables : Type := mkEntityTables {
  t_entities : list CallableEntity;
  t_by_key : gmap string EntityId;
  t_raw_keys : list (list string);
  t_by_raw_key : gmap string (list EntityId);
  t_by_name : gmap string (list EntityId);
  t_by_path : gmap string (list EntityId);
  t_limited : list bool;
}.
Definition empty_tables : EntityTables := mkEntityTables [] ∅ [] ∅ ∅ ∅ [].
Definition add_group (blake3_hex : list N -> string) (counts : gmap string nat)
    (candidate_recall_limited : bool) (acc : option EntityTables) (g : SemanticAnchorGroup) :
    option EntityTables :=
  t ← acc;
  '(e, raw_keys) ← entity_of_group blake3_hex counts g;
  id ← compact_id (length t.(t_entities));
  Some (mkEntityTables (t.(t_entities) ++ [e])
          (<[e.(ent_key) := id]> t.(t_by_key))
          (t.(t_raw_keys) ++ [raw_keys])
          (foldl (fun m k => push_map m k id) t.(t_by_raw_key) raw_keys)
          (if eligible_free_function e then push_map t.(t_by_name) e.(ent_name) id else t.(t_by_name))
          (foldl (fun m a => push_map m a.(an_path) id) t.(t_by_path) e.(ent_variants))
          (t.(t_limited) ++ [g.(sg_candidate_limited) || candidate_recall_limited])).

(** [entity(&entities, id)] is only read through fields; the default is never reached. *)
Definition entity_key_of (es : list CallableEntity) (id : EntityId) : string :=
  match es !! id with Some e => e.(ent_key) | None => "" end.
Definition entity_qualified_name_of (es : list CallableEntity) (id : EntityId) : string :=
  match es !! id with Some e => e.(ent_qualified_name) | None => "" end.
(** [ids.sort_by(entity_key); ids.dedup()] *)
Definition order_ids (es : list CallableEntity) (l : list EntityId) : list EntityId :=
  dedup Nat.eqb (sort_by (cmp_on (entity_key_of es) String.compare) l).

(** ** Resolution *)

Definition text (p : StringPool) (id : StringId) : string := default "" (get p id).
Definition is_definition_in (raw_key path : string) (a : CallableAnchor) : bool :=
  String.eqb a.(an_entity_key) raw_key && String.eqb a.(an_path) path
  && bool_decide (a.(an_role) = RoleDefinition).

Definition resolve_caller (idx : RelationQueryIndex) (id : CallSiteId) : option EntityId :=
  call ← idx.(call_sites) !! id;
  let raw_key := text idx.(strings) call.(st_caller_entity_key) in
  candidates ← idx.(entities_by_raw_key) !! raw_key;
  match candidates with
  | [only] => Some only
  | _ =>
      let call_path := text idx.(strings) call.(st_path) in
      let exact :=
        List.filter (fun e => match idx.(entities) !! e with
                              | Some ent => existsb (is_definition_in raw_key call_path) ent.(ent_variants)
                              | None => false end) candidates in
      let exact :=
        sort_by (cmp_on (fun e => primary_anchor <$> idx.(entities) !! e) (option_cmp primary_anchor_cmp)) exact in
      match dedup Nat.eqb exact with [only] => Some only | _ => None end
  end.

(** The three tests of the loop over the candidates of a name; [None] is [continue]. *)
Definition qualifier_evidence (p : StringPool) (call : StoredCallSite) (e : CallableEntity)
    (ev : EvidenceBits) : option EvidenceBits :=
  match call.(st_qualified_name) with
  | Some q =>
      if negb (String.eqb (text p q) e.(ent_qualified_name)) then None
      else Some (support ExplicitQualifier ev)
  | None => Some ev
  end.
Definition linkage_evidence (call_path : string) (e : CallableEntity) (ev : EvidenceBits) : option EvidenceBits :=
  match e.(ent_linkage) with
  | LinkInternal path =>
      if negb (String.eqb path call_path) then None else Some (support InternalLinkage ev)
  | _ => Some ev
  end.
Definition arity_evidence (call : StoredCallSite) (e : CallableEntity) (ev : EvidenceBits) : option EvidenceBits :=
  match call.(st_argument_count) with
  | Some arity =>
      match accepts_arity e.(ent_signature) arity with
      | Some true => Some (support CompatibleArity ev)
      | Some false => None
      | None => Some (unknown CompatibleArity ev)
      end
  | None => Some ev
  end.
Definition candidate_evidence (p : StringPool) (call : StoredCallSite) (e : CallableEntity) :
    option EvidenceBits :=
  let call_path := text p call.(st_path) in
  if negb (bool_decide (call.(st_form) = QualifiedName))
     && bool_decide (e.(ent_owner_kind) = Some OwnerRecord)
  then None
  else
    ev ← qualifier_evidence p call e no_evidence;
    let ev := if String.eqb e.(primary_anchor).(an_path) call_path then support SameFile ev else ev in
    ev ← linkage_evidence call_path e ev;
    ev ← arity_evidence call e ev;
    let ev := if call.(st_syntax_error_overlap) then unknown SyntaxErrorOverlap ev else ev in
    let ev :=
      if is_absolute e.(primary_anchor).(an_path)
         && forallb (fun a => match a.(an_body_range) with None => true | Some _ => false end) e.(ent_variants)
      then unknown ExternalBodyUnavailable ev else ev in
    Some (if (ev.(bit_supports) =? 0)%N then support NameOnly ev else ev).

Definition resolve_call_into (idx : RelationQueryIndex) (id : CallSiteId) : list (EntityId * EvidenceBits) :=
  match idx.(call_sites) !! id with
  | None => []
  | Some call =>
      if negb (name_form call.(st_form)) then []
      else match call.(st_callee_name) with
           | None => []
           | Some name =>
               match idx.(by_name) !! text idx.(strings) name with
               | None => []
               | Some keys =>
                   omap (fun e => ent ← idx.(entities) !! e;
                                  ev ← candidate_evidence idx.(strings) call ent;
                                  Some (e, ev)) keys
               end
           end
  end.

Definition confidence (e : EvidenceBits) : RelationConfidence :=
  if contains_support e ExplicitQualifier || contains_support e InternalLinkage then RelHigh
  else if contains_support e SameFile || contains_support e CompatibleArity then RelMedium
  else RelLow.
Definition unresolved_evidence (idx : RelationQueryIndex) (id : CallSiteId) : EvidenceBits :=
  match idx.(call_sites) !! id with
  | Some call => unknown (if name_form call.(st_form) then NameOnly else UnsupportedCallForm) no_evidence
  | None => no_evidence
  end.

(** ** Relations *)

Definition Builders : Type := gmap CompactRelationKey RelationId * list RelationBuilder.
Definition record_relation (acc : option Builders) (site : CallSiteId)
    (entry : CompactRelationKey * EvidenceBits) : option Builders :=
  '(by_key, builders) ← acc;
  let '(key, evidence) := entry in
  match by_key !! key with
  | Some id =>
      Some (by_key,
            alter (fun b => mkBuilder b.(b_key) b.(first_call_site) (b.(additional_call_sites) ++ [site])
                              (merge b.(b_evidence) evidence)) id builders)
  | None =>
      id ← compact_id (length builders);
      Some (<[key := id]> by_key, builders ++ [mkBuilder key site [] evidence])
  end.

(** What the loop records for one call site. *)
Definition call_entries (idx : RelationQueryIndex) (site : CallSiteId) :
    list (CompactRelationKey * EvidenceBits) :=
  match resolve_caller idx site with
  | None => []
  | Some caller =>
      match resolve_call_into idx site with
      | [] => [(mkRelKey caller None RelUnresolved None, unresolved_evidence idx site)]
      | candidates =>
          let ambiguous := (1 <? length candidates)%nat in
          (fun '(callee, ev) =>
             (mkRelKey caller (Some callee) (if ambiguous then RelAmbiguous else confidence ev)
                (if ambiguous then Some site else None), ev)) <$> candidates
      end
  end.
Definition record_call (idx : RelationQueryIndex) (acc : option Builders) (site : CallSiteId) : option Builders :=
  foldl (fun acc entry => record_relation acc site entry) acc (call_entries idx site).

Definition sites_of (b : RelationBuilder) : list CallSiteId :=
  b.(first_call_site) :: b.(additional_call_sites).
(** The loop that moves the builders into the shared call-site storage. *)
Definition flatten_builder (acc : option (list CompactRelation * list CallSiteId)) (b : RelationBuilder) :
    option (list CompactRelation * list CallSiteId) :=
  '(rels, refs) ← acc;
  start ← compact_id (length refs);
  len ← compact_id (1 + length b.(additional_call_sites));
  Some (rels ++ [mkCompactRelation b.(b_key) start len b.(b_evidence)], refs ++ sites_of b).

Definition link_relation (acc : gmap EntityId (list RelationId) * gmap EntityId (list RelationId))
    (entry : RelationId * CompactRelation) : gmap EntityId (list RelationId) * gmap EntityId (list RelationId) :=
  let '(id, r) := entry in
  (push_map acc.1 r.(r_key).(key_caller) id,
   match r.(r_key).(key_callee) with Some callee => push_map acc.2 callee id | None => acc.2 end).

Definition relation_order (es : list CallableEntity) (rels : list CompactRelation) :
    RelationId -> RelationId -> comparison :=
  cmp_on (fun id => (fun r => r.(r_key)) <$> rels !! id)
    (cmp_lex
       (cmp_on (fun k => entity_qualified_name_of es <$> (k ≫= key_callee)) (option_cmp String.compare))
    (cmp_lex
       (cmp_on (fun k => entity_qualified_name_of es <$> (key_caller <$> k)) (option_cmp String.compare))
       (cmp_on (fun k => k ≫= key_ambiguity_site) (option_cmp Nat.compare)))).

(** ** Building the index *)

Definition with_relations (idx : RelationQueryIndex) (rels : list CompactRelation) (refs : list CallSiteId)
    (out inc : gmap EntityId (list RelationId)) : RelationQueryIndex :=
  mkIndex idx.(entities) idx.(entity_by_key) idx.(entity_raw_keys) idx.(entities_by_raw_key)
    idx.(by_name) idx.(by_path) idx.(strings) idx.(call_sites) idx.(calls_by_path) rels refs out inc
    idx.(index_coverage) idx.(entity_candidate_limited).

(** [calls_by_path] with the check that every index fits an id. *)
Definition index_call (acc : option (gmap StringId (list CallSiteId))) (entry : CallSiteId * StoredCallSite) :
    option (gmap StringId (list CallSiteId)) :=
  m ← acc; id ← compact_id entry.1; Some (push_map m entry.2.(st_path) id).

(** [from_stored_facts] after the grouping. *)
Definition index_groups (blake3_hex : list N -> string) (groups : list SemanticAnchorGroup)
    (pool : StringPool) (sites : list StoredCallSite) (coverage : CoverageSummary)
    (candidate_recall_limited : bool) : option RelationQueryIndex :=
  t ← foldl (add_group blake3_hex (raw_group_counts groups) candidate_recall_limited)
        (Some empty_tables) groups;
  let by_name := order_ids t.(t_entities) <$> t.(t_by_name) in
  let by_path := order_ids t.(t_entities) <$> t.(t_by_path) in
  calls ← foldl index_call (Some ∅) (imap pair sites);
  let idx := mkIndex t.(t_entities) t.(t_by_key) t.(t_raw_keys) t.(t_by_raw_key) by_name by_path pool
               sites calls [] [] ∅ ∅ coverage t.(t_limited) in
  '(_, builders) ← foldl (record_call idx) (Some (∅, [])) (seq 0 (length sites));
  '(rels, refs) ← foldl flatten_builder (Some ([], [])) builders;
  let '(out, inc) := foldl link_relation (∅, ∅) (imap pair rels) in
  let order := sort_by (relation_order t.(t_entities) rels) in
  Some (with_relations idx rels refs (order <$> out) (order <$> inc)).

Definition from_stored_facts (blake3_hex : list N -> string) (anchors : list CallableAnchor)
    (pool : StringPool) (sites : list StoredCallSite) (coverage : CoverageSummary)
    (graph : option ReachGraph) (incomplete candidate_recall_limited : bool) : option RelationQueryIndex :=
  groups ← semantic_anchor_groups anchors graph (incomplete || candidate_recall_limited);
  index_groups blake3_hex groups pool sites coverage candidate_recall_limited.
Definition build_from_facts_with_context (blake3_hex : list N -> string) (anchors : list CallableAnchor)
    (facts : list CallSiteFact) (coverage : CoverageSummary) (graph : option ReachGraph)
    (incomplete candidate_recall_limited : bool) : option RelationQueryIndex :=
  '(sites, pool) ← store_facts facts empty_pool;
  from_stored_facts blake3_hex anchors pool sites coverage graph incomplete candidate_recall_limited.

(** ** Queries *)

Definition entity (idx : RelationQueryIndex) (key : string) : option CallableEntity :=
  id ← idx.(entity_by_key) !! key; idx.(entities) !! id.
Definition raw_keys_for_entity (idx : RelationQueryIndex) (key : string) : option (list string) :=
  id ← idx.(entity_by_key) !! key; idx.(entity_raw_keys) !! id.
Definition entity_for_unique_raw_key (idx : RelationQueryIndex) (raw_key : string) : option CallableEntity :=
  ids ← idx.(entities_by_raw_key) !! raw_key;
  match ids with [only] => idx.(entities) !! only | _ => None end.

Definition declaration_size (e : CallableEntity) : N :=
  let r := e.(primary_anchor).(an_declaration_range) in r.(end_byte) -s r.(start_byte).
Definition anchor_covers (path : string) (position : SourcePosition) (a : CallableAnchor) : bool :=
  String.eqb a.(an_path) path
  && (position_in_range position a.(an_name_range)
      || match a.(an_body_range) with Some r => position_in_range position r | None => false end).
Definition call_candidates_at (idx : RelationQueryIndex) (path : string) (position : SourcePosition) :
    list CallableEntity :=
  let ids := default [] (path_id ← lookup_id idx.(strings) path; idx.(calls_by_path) !! path_id) in
  ids ≫= fun id =>
    match idx.(call_sites) !! id with
    | Some call =>
        if position_in_range position call.(st_callee_range)
        then omap (fun c => idx.(entities) !! c.1) (resolve_call_into idx id) else []
    | None => []
    end.
Definition entities_at (idx : RelationQueryIndex) (path : string) (position : SourcePosition) :
    list CallableEntity :=
  let call_candidates :=
    dedup (fun a b => String.eqb a.(ent_key) b.(ent_key))
      (sort_by (cmp_on ent_key String.compare) (call_candidates_at idx path position)) in
  match call_candidates with
  | _ :: _ => call_candidates
  | [] =>
      let matches :=
        List.filter (fun e => existsb (anchor_covers path position) e.(ent_variants))
          (List.filter eligible_free_function
             (omap (fun id => idx.(entities) !! id) (default [] (idx.(by_path) !! path)))) in
      option_list (min_by_key declaration_size matches)
  end.
Definition entity_at (idx : RelationQueryIndex) (path : string) (position : SourcePosition) :
    option CallableEntity := head (entities_at idx path position).

Definition signature_digest (blake3_hex : list N -> string) (s : SignatureShape) : string :=
  blake3_hex (bytes_of s.(normalized)).
Definition resolve_locator (blake3_hex : list N -> string) (idx : RelationQueryIndex) (l : CallableLocator) :
    option CallableEntity :=
  match idx.(entity_by_key) !! l.(loc_entity_key) with
  | Some id => idx.(entities) !! id
  | None =>
      ids ← idx.(by_path) !! l.(loc_path);
      min_by_key (fun e => abs_diff e.(primary_anchor).(an_name_range).(start_byte) l.(loc_old_start_byte))
        (List.filter (fun e => String.eqb (signature_digest blake3_hex e.(ent_signature)) l.(loc_signature_digest))
           (List.filter eligible_free_function (omap (fun id => idx.(entities) !! id) ids)))
  end.

(** The call sites of a relation in the shared storage. *)
Definition relation_slice (idx : RelationQueryIndex) (r : CompactRelation) : list CallSiteId :=
  take r.(call_site_len) (drop r.(call_site_start) idx.(relation_call_sites)).
Definition materialize_relation (idx : RelationQueryIndex) (direction : RelationDirection)
    (call_site_limit : nat) (id : RelationId) : option (CallRelation * bool) :=
  r ← idx.(relations) !! id;
  let taken := Nat.min r.(call_site_len) call_site_limit in
  sites ← mapM (fun site => call ← idx.(call_sites) !! site; materialize call idx.(strings))
            (take taken (relation_slice idx r));
  caller ← idx.(entities) !! r.(r_key).(key_caller);
  callee ← match r.(r_key).(key_callee) with
           | None => Some None
           | Some c => Some <$> idx.(entities) !! c
           end;
  ambiguity ← match r.(r_key).(key_ambiguity_site) with
              | None => Some None
              | Some site => (fun call => Some call.(st_site_fingerprint)) <$> idx.(call_sites) !! site
              end;
  Some (mkRelation caller callee direction sites r.(r_key).(key_confidence) (into_ledger r.(r_evidence)) ambiguity,
        (taken <? r.(call_site_len))%nat).

Record RelationPage : Type := mkPage {
  page_relations : list CallRelation;
  page_total : nat;
  site_limited : bool;
  scan_limited : bool;
  candidate_limited : bool;
}.
Definition relation_ids (idx : RelationQueryIndex) (direction : RelationDirection) (e : EntityId) : list RelationId :=
  default [] (match direction with
              | Outgoing => idx.(outgoing) !! e
              | Incoming => idx.(incoming) !! e
              end).
Definition relation_page (idx : RelationQueryIndex) (direction : RelationDirection) (entity_key : string)
    (cursor relation_limit call_site_limit : nat) : option RelationPage :=
  match idx.(entity_by_key) !! entity_key with
  | None => Some (mkPage [] 0 false false false)
  | Some e =>
      let ids := relation_ids idx direction e in
      page ← mapM (materialize_relation idx direction call_site_limit)
               (take relation_limit (drop cursor ids));
      Some (mkPage page.*1 (length ids) (existsb id page.*2) false
              (default false (idx.(entity_candidate_limited) !! e)))
  end.

Record RelationQueryStats : Type := mkStats {
  stat_entities : nat; stat_call_sites : nat; stat_relations : nat; stat_relation_call_site_refs : nat;
}.
Definition stats (idx : RelationQueryIndex) : RelationQueryStats :=
  mkStats (length idx.(entities)) (length idx.(call_sites)) (length idx.(relations))
    (length idx.(relation_call_sites)).

(** ** The entity tables *)

Lemma bind_Some_l {A B} (x : A) (f : A -> option B) : (Some x ≫= f) = f x.
Proof. done. Qed.
Lemma compact_id_Some n m : compact_id n = Some m <-> m = n /\ (N.of_nat n < u32_limit)%N.
Proof.
  unfold compact_id. destruct (N.ltb_spec (N.of_nat n) u32_limit); naive_solver lia.
Qed.
Lemma push_all_ids `{Countable K} {A} (f : A -> K) (id : nat) (l : list A) (m : gmap K (list nat)) k x :
  x ∈ default [] (foldl (fun m a => push_map m (f a) id) m l !! k) <->
  x ∈ default [] (m !! k) \/ (x = id /\ exists a, a ∈ l /\ f a = k).
Proof.
  revert m. induction l as [|a l IH]; intros m; simpl.
  - split; [by left|]. intros [?|(_ & ? & ?%not_elem_of_nil & _)]; done.
  - rewrite IH, push_map_lookup. case_decide as Hk; subst.
    + rewrite elem_of_app, list_elem_of_singleton. split.
      * intros [[?| ->]|(-> & b & ? & ?)]; [by left|right|right].
        -- split; [done|]. exists a. split; [left|done].
        -- split; [done|]. exists b. split; [by right|done].
      * intros [?|(-> & _)]; [by left; left|by left; right].
    + split.
      * intros [?|(-> & b & ? & ?)]; [by left|right]. split; [done|]. exists b. split; [by right|done].
      * intros [?|(-> & b & [->|?]%elem_of_cons & Hb)]; [by left|done|right]. split; [done|]. by exists b.
Qed.

(** The tables describe the entities collected so far. *)
Record tables_inv (t : EntityTables) : Prop := {
  ti_raw_keys : length t.(t_raw_keys) = length t.(t_entities);
  ti_limited : length t.(t_limited) = length t.(t_entities);
  ti_key k id : t.(t_by_key) !! k = Some id ->
    exists e, t.(t_entities) !! id = Some e /\ e.(ent_key) = k;
  ti_name name id : id ∈ default [] (t.(t_by_name) !! name) <->
    exists e, t.(t_entities) !! id = Some e /\ e.(ent_name) = name /\ eligible_free_function e = true;
  ti_name_sorted name : default [] (t.(t_by_name) !! name) `sublist_of` seq 0 (length t.(t_entities));
  ti_path path id : id ∈ default [] (t.(t_by_path) !! path) <->
    exists e a, t.(t_entities) !! id = Some e /\ a ∈ e.(ent_variants) /\ a.(an_path) = path;
  ti_raw k id : id ∈ default [] (t.(t_by_raw_key) !! k) <->
    exists ks, t.(t_raw_keys) !! id = Some ks /\ k ∈ ks;
}.

Lemma empty_tables_inv : tables_inv empty_tables.
Proof.
  split; simpl; [done|done|by intros k id; rewrite lookup_empty| | | |];
    intros; rewrite lookup_empty; simpl; try done; (split; [by intros ?%not_elem_of_nil|naive_solver]).
Qed.

Lemma snoc_lookup {A} (l : list A) x i (P : A -> Prop) :
  (exists y, (l ++ [x]) !! i = Some y /\ P y) <-> (exists y, l !! i = Some y /\ P y) \/ (i = length l /\ P x).
Proof.
  setoid_rewrite lookup_app_Some. setoid_rewrite list_lookup_singleton_Some. split.
  - intros (y & [Hy|(Hle & Hi & <-)] & HP); [left; by exists y|right]. split; [lia|done].
  - intros [(y & Hy & HP)|[-> HP]]; [exists y; tauto|].
    exists x. split; [right|done]. split_and!; [lia|lia|done].
Qed.

Lemma add_group_inv hash counts limited t g t' :
  tables_inv t -> add_group hash counts limited (Some t) g = Some t' ->
  tables_inv t' /\ length t'.(t_entities) = S (length t.(t_entities)).
Proof.
  intros [Hr Hl Hk Hn Hns Hp Hw]. intros H. unfold add_group in H. rewrite bind_Some_l in H.
  apply bind_Some in H as ([e ks] & _ & (id' & [-> _]%compact_id_Some & [= <-])%bind_Some).
  split; [split; simpl|simpl; rewrite length_app; simpl; lia].
  - rewrite !length_app. simpl. lia.
  - rewrite !length_app. simpl. lia.
  - intros k id. destruct (decide (k = ent_key e)) as [->|Hne].
    + rewrite lookup_insert_eq. intros [= <-]. exists e. split; [by apply list_lookup_middle|done].
    + rewrite lookup_insert_ne by done. intros (x & Hx & ?)%Hk. exists x. split; [|done].
      by apply lookup_app_l_Some.
  - intros name id. rewrite snoc_lookup, <- Hn. destruct (eligible_free_function e) eqn:He.
    + rewrite push_map_lookup. case_decide as Hd.
      * subst. rewrite elem_of_app, list_elem_of_singleton. naive_solver.
      * naive_solver.
    + naive_solver.
  - intros name. rewrite length_app, Nat.add_1_r, seq_S. destruct (eligible_free_function e).
    + rewrite push_map_lookup. case_decide as Hd.
      * subst. by apply sublist_app.
      * by apply sublist_inserts_r.
    + by apply sublist_inserts_r.
  - intros path id. rewrite push_all_ids, Hp. split.
    + intros [(x & a & Hx & ?)|(-> & a & ? & ?)].
      * exists x, a. split; [by apply lookup_app_l_Some|done].
      * exists e, a. split; [by apply list_lookup_middle|done].
    + intros (x & a & [Hx|(Hle & Hx)]%lookup_app_Some & ?).
      * left. by exists x, a.
      * apply list_lookup_singleton_Some in Hx as [Hx <-]. right. split; [lia|]. by exists a.
  - intros k id. rewrite (push_all_ids (fun k => k)), Hw, snoc_lookup. rewrite Hr. naive_solver.
Qed.

Lemma add_group_none hash counts limited groups :
  foldl (add_group hash counts limited) None groups = None.
Proof. by induction groups. Qed.
Lemma add_groups_inv hash counts limited groups t t' :
  tables_inv t -> foldl (add_group hash counts limited) (Some t) groups = Some t' ->
  tables_inv t' /\ length t'.(t_entities) = (length t.(t_entities) + length groups)%nat.
Proof.
  revert t. induction groups as [|g groups IH]; intros t Ht; cbn [foldl length].
  { intros [= <-]. split; [done|lia]. }
  destruct (add_group hash counts limited (Some t) g) as [t1|] eqn:E.
  - intros H. destruct (add_group_inv _ _ _ _ _ _ Ht E) as [H1 L1].
    destruct (IH _ H1 H). split; [done|lia].
  - by rewrite add_group_none.
Qed.

Lemma elem_of_order_ids es l id : id ∈ order_ids es l <-> id ∈ l.
Proof.
  unfold order_ids. rewrite elem_of_dedup by (by intros a b ?%Nat.eqb_eq). apply elem_of_sort_by.
Qed.

(** ** Which entities a call may bind to *)

(** Nothing known about the call rules the entity out. *)
Record possible_target (p : StringPool) (call : StoredCallSite) (e : CallableEntity) : Prop := {
  pt_record : e.(ent_owner_kind) = Some OwnerRecord -> call.(st_form) = QualifiedName;
  pt_qualifier q : call.(st_qualified_name) = Some q -> text p q = e.(ent_qualified_name);
  pt_linkage file : e.(ent_linkage) = LinkInternal file -> file = text p call.(st_path);
  pt_arity n : call.(st_argument_count) = Some n -> accepts_arity e.(ent_signature) n <> Some false;
}.

Lemma qualifier_evidence_iff p call e ev :
  is_Some (qualifier_evidence p call e ev) <->
  forall q, call.(st_qualified_name) = Some q -> text p q = e.(ent_qualified_name).
Proof.
  unfold qualifier_evidence. destruct (st_qualified_name call) as [q|]; [|naive_solver].
  destruct (String.eqb_spec (text p q) (ent_qualified_name e)); simpl; [naive_solver|].
  split; [by intros []|]. intros H. by specialize (H q eq_refl).
Qed.
Lemma linkage_evidence_iff path e ev :
  is_Some (linkage_evidence path e ev) <-> forall file, e.(ent_linkage) = LinkInternal file -> file = path.
Proof.
  unfold linkage_evidence. destruct (ent_linkage e) as [|f| |]; [naive_solver| |naive_solver..].
  destruct (String.eqb_spec f path); simpl; [naive_solver|].
  split; [by intros []|]. intros H. by specialize (H f eq_refl).
Qed.
Lemma arity_evidence_iff call e ev :
  is_Some (arity_evidence call e ev) <->
  forall n, call.(st_argument_count) = Some n -> accepts_arity e.(ent_signature) n <> Some false.
Proof.
  unfold arity_evidence. destruct (st_argument_count call) as [n|]; [|naive_solver].
  destruct (accepts_arity (ent_signature e) n) as [[]|] eqn:E; split; try (by intros []); naive_solver.
Qed.

Lemma candidate_evidence_iff p call e :
  is_Some (candidate_evidence p call e) <-> possible_target p call e.
Proof.
  transitivity ((e.(ent_owner_kind) = Some OwnerRecord -> call.(st_form) = QualifiedName) /\
    is_Some (qualifier_evidence p call e no_evidence) /\
    (forall ev, is_Some (linkage_evidence (text p call.(st_path)) e ev)) /\
    (forall ev, is_Some (arity_evidence call e ev))).
  2: { rewrite qualifier_evidence_iff. setoid_rewrite linkage_evidence_iff. setoid_rewrite arity_evidence_iff.
       split; [intros (? & ? & Hl & Ha); split; [done|done|exact (Hl no_evidence)|exact (Ha no_evidence)]|].
       by intros []. }
  unfold candidate_evidence.
  assert (negb (bool_decide (st_form call = QualifiedName)) && bool_decide (ent_owner_kind e = Some OwnerRecord)
    = false <-> (e.(ent_owner_kind) = Some OwnerRecord -> call.(st_form) = QualifiedName)) as Hrec.
  { rewrite andb_false_iff, negb_false_iff, bool_decide_eq_true, bool_decide_eq_false.
    destruct (decide (ent_owner_kind e = Some OwnerRecord)); tauto. }
  rewrite <- Hrec. destruct (_ && _); [by split; [intros []|intros [? _]]|].
  destruct (qualifier_evidence p call e no_evidence) as [ev|]; [|by split; [intros []|intros (_ & [] & _)]].
  rewrite bind_Some_l. cbv zeta.
  set (ev1 := if String.eqb _ _ then _ else ev).
  pose proof (linkage_evidence_iff (text p (st_path call)) e) as Hl.
  pose proof (arity_evidence_iff call e) as Ha.
  destruct (linkage_evidence _ e ev1) as [ev2|] eqn:E2.
  - rewrite bind_Some_l. destruct (arity_evidence call e ev2) as [ev3|] eqn:E3.
    + rewrite bind_Some_l. split; [|by eauto]. intros _. split_conj; [done|done| |].
      * intros ev'. apply Hl, (Hl ev1). by rewrite E2.
      * intros ev'. apply Ha, (Ha ev2). by rewrite E3.
    + split; [by intros []|]. intros (_ & _ & _ & H). specialize (H ev2). rewrite E3 in H. by destruct H.
  - split; [by intros []|]. intros (_ & _ & H & _). specialize (H ev1). rewrite E2 in H. by destruct H.
Qed.

Record index_parts (hash : list N -> string) (groups : list SemanticAnchorGroup) (pool : StringPool)
    (sites : list StoredCallSite) (coverage : CoverageSummary) (limited : bool)
    (idx : RelationQueryIndex) : Prop := {
  ip_tables : exists t, tables_inv t /\ length t.(t_entities) = length groups /\
    foldl (add_group hash (raw_group_counts groups) limited) (Some empty_tables) groups = Some t /\
    idx.(entities) = t.(t_entities) /\ idx.(entity_by_key) = t.(t_by_key) /\
    idx.(entity_raw_keys) = t.(t_raw_keys) /\ idx.(entities_by_raw_key) = t.(t_by_raw_key) /\
    idx.(by_name) = order_ids t.(t_entities) <$> t.(t_by_name) /\
    idx.(by_path) = order_ids t.(t_entities) <$> t.(t_by_path);
  ip_strings : idx.(strings) = pool;
  ip_sites : idx.(call_sites) = sites;
  ip_relations : exists by_key builders out inc,
    foldl (record_call idx) (Some (∅, [])) (seq 0 (length sites)) = Some (by_key, builders) /\
    foldl flatten_builder (Some ([], [])) builders = Some (idx.(relations), idx.(relation_call_sites)) /\
    foldl link_relation (∅, ∅) (imap pair idx.(relations)) = (out, inc) /\
    idx.(outgoing) = sort_by (relation_order idx.(entities) idx.(relations)) <$> out /\
    idx.(incoming) = sort_by (relation_order idx.(entities) idx.(relations)) <$> inc;
}.

Lemma index_groups_parts hash groups pool sites coverage limited idx :
  index_groups hash groups pool sites coverage limited = Some idx ->
  index_parts hash groups pool sites coverage limited idx.
Proof.
  unfold index_groups. intros H. apply bind_Some in H as (t & Ht & H).
  apply bind_Some in H as (calls & _ & H). apply bind_Some in H as ([by_key builders] & Hb & H).
  apply bind_Some in H as ([rels refs] & Hf & H).
  destruct (foldl link_relation (∅, ∅) (imap pair rels)) as [out inc] eqn:Hlink. injection H as <-.
  destruct (add_groups_inv _ _ _ _ _ _ empty_tables_inv Ht) as [Hti Hlen].
  split; [|done|done|].
  - exists t. by split_and!.
  - exists by_key, builders, out, inc. split_and!; [exact Hb|exact Hf|exact Hlink|done|done].
Qed.

(** C15 Call candidates are exactly the entities nothing rules out: an entity is a
    candidate of a call site iff the call is by (possibly qualified or parenthesised)
    name, the entity is an eligible free function of that name, its qualified name is
    the written one if any, it is no record member unless written qualified, its
    internal linkage is the call's own file, and its arity is not known to differ. *)
Theorem call_candidates_exact hash groups pool sites coverage limited idx site call e ent :
  index_groups hash groups pool sites coverage limited = Some idx ->
  idx.(call_sites) !! site = Some call -> idx.(entities) !! e = Some ent ->
  (exists ev, (e, ev) ∈ resolve_call_into idx site) <->
  name_form call.(st_form) = true /\
  (exists name, call.(st_callee_name) = Some name /\ text pool name = ent.(ent_name)) /\
  eligible_free_function ent = true /\ possible_target pool call ent.
Proof.
  intros H Hcall Hent. apply index_groups_parts in H as [(t & Ht & _ & _ & Hes & _ & _ & _ & Hbn & _) <- _ _].
  unfold resolve_call_into. rewrite Hcall, Hbn, Hes. rewrite Hes in Hent.
  destruct (name_form (st_form call)); simpl; [|split; [intros (? & ?%not_elem_of_nil); done|by intros (? & _)]].
  destruct (st_callee_name call) as [name|];
    [|split; [intros (? & ?%not_elem_of_nil); done|by intros (_ & (? & ? & _) & _)]].
  rewrite lookup_fmap. pose proof (ti_name _ Ht (text (strings idx) name) e) as Hn.
  rewrite Hent in Hn.
  transitivity (e ∈ default [] (t_by_name t !! text (strings idx) name) /\ is_Some (candidate_evidence (strings idx) call ent)).
  - destruct (t_by_name t !! text (strings idx) name) as [l|]; simpl.
    2: { split; [by intros (? & ?%not_elem_of_nil)|by intros [?%not_elem_of_nil _]]. }
    setoid_rewrite list_elem_of_omap. setoid_rewrite elem_of_order_ids. split.
    + intros (ev & e' & Hin & Hx). apply bind_Some in Hx as (ent' & He' & Hx).
      apply bind_Some in Hx as (ev' & Hev & [= -> ->]).
      assert (ent' = ent) as -> by congruence. split; [done|by eexists].
    + intros [Hin [ev Hev]]. exists ev, e. split; [done|]. by rewrite Hent, bind_Some_l, Hev.
  - rewrite Hn, candidate_evidence_iff. naive_solver.
Qed.

(** ** Recording relations *)

(** [done] lists the pairs of a call site and a relation key recorded so far. *)
Record builders_inv (done : list (nat * CompactRelationKey)) (by_key : gmap CompactRelationKey nat)
    (builders : list RelationBuilder) : Prop := {
  bi_index k id : by_key !! k = Some id <-> exists b, builders !! id = Some b /\ b.(b_key) = k;
  bi_sites k c : (exists b, b ∈ builders /\ b.(b_key) = k /\ c ∈ sites_of b) <-> (c, k) ∈ done;
}.

Lemma record_relation_inv done by_key builders c k ev by_key' builders' :
  builders_inv done by_key builders ->
  record_relation (Some (by_key, builders)) c (k, ev) = Some (by_key', builders') ->
  builders_inv (done ++ [(c, k)]) by_key' builders'.
Proof.
  intros [Hi Hs] H. unfold record_relation in H. rewrite bind_Some_l in H.
  destruct (by_key !! k) as [id|] eqn:Hk.
  - injection H as <- <-. apply Hi in Hk as Hb. destruct Hb as (b & Hb & Hbk).
    set (upd := fun b => mkBuilder b.(b_key) b.(first_call_site) (b.(additional_call_sites) ++ [c]) (merge b.(b_evidence) ev)).
    split.
    + intros k' id'. rewrite Hi, list_lookup_alter. destruct (decide (id = id')) as [->|].
      * rewrite Hb. simpl. naive_solver.
      * naive_solver.
    + intros k' c'. rewrite elem_of_app, list_elem_of_singleton, <- Hs. split.
      * intros (b' & (j & Hj)%list_elem_of_lookup & Hk' & Hc'). rewrite list_lookup_alter in Hj.
        destruct (decide (id = j)) as [->|].
        -- rewrite Hb in Hj. injection Hj as <-. simpl in Hk', Hc'. unfold sites_of in Hc'. simpl in Hc'.
           rewrite app_comm_cons, elem_of_app, list_elem_of_singleton in Hc'.
           destruct Hc' as [Hc'| ->]; [left|right; congruence].
           exists b. split_and!; [by eapply list_elem_of_lookup_2|done|done].
        -- left. exists b'. split_and!; [by eapply list_elem_of_lookup_2|done|done].
      * intros [(b' & (j & Hj)%list_elem_of_lookup & Hk' & Hc')|[= -> ->]].
        -- destruct (decide (id = j)) as [->|Hne].
           ++ assert (b' = b) as -> by congruence. exists (upd b). split_and!; [|done|].
              ** apply list_elem_of_lookup. exists j. rewrite list_lookup_alter, decide_True by done. by rewrite Hb.
              ** unfold sites_of, upd. simpl. rewrite app_comm_cons. apply elem_of_app. by left.
           ++ exists b'. split_and!; [|done|done]. apply list_elem_of_lookup. exists j.
              by rewrite list_lookup_alter, decide_False.
        -- exists (upd b). split_and!; [|done|].
           ++ apply list_elem_of_lookup. exists id. rewrite list_lookup_alter, decide_True by done. by rewrite Hb.
           ++ unfold sites_of, upd. simpl. rewrite app_comm_cons. apply elem_of_app. right. by left.
  - apply bind_Some in H as (id & [-> _]%compact_id_Some & [= <- <-]).
    assert (forall b, b ∈ builders -> b.(b_key) <> k) as Hnew.
    { intros b (j & Hj)%list_elem_of_lookup <-.
      assert (by_key !! b_key b = Some j) by (apply Hi; by exists b). congruence. }
    split.
    + intros k' id'. rewrite snoc_lookup, <- Hi. destruct (decide (k' = k)) as [->|Hne].
      * rewrite lookup_insert_eq, Hk. simpl. naive_solver.
      * rewrite lookup_insert_ne by done. simpl. naive_solver.
    + intros k' c'. rewrite elem_of_app, list_elem_of_singleton, <- Hs. split.
      * intros (b & [Hb| ->%list_elem_of_singleton]%elem_of_app & Hk' & Hc'); [left; by exists b|right].
        simpl in *. unfold sites_of in Hc'. simpl in Hc'. apply list_elem_of_singleton in Hc'. congruence.
      * intros [(b & Hb & ?)|[= -> ->]].
        -- exists b. split; [apply elem_of_app; by left|done].
        -- exists (mkBuilder k c [] ev). split_and!; [apply elem_of_app; right; left|done|left].
Qed.

Lemma record_relation_none c entries : foldl (fun acc entry => record_relation acc c entry) None entries = None.
Proof. by induction entries. Qed.
Lemma record_entries_inv done by_key builders c entries by_key' builders' :
  builders_inv done by_key builders ->
  foldl (fun acc entry => record_relation acc c entry) (Some (by_key, builders)) entries = Some (by_key', builders') ->
  builders_inv (done ++ (pair c <$> entries.*1)) by_key' builders'.
Proof.
  revert done by_key builders. induction entries as [|[k ev] entries IH]; intros done by_key builders Hi.
  { intros [= <- <-]. by rewrite app_nil_r. }
  cbn [foldl]. destruct (record_relation (Some (by_key, builders)) c (k, ev)) as [[bk bs]|] eqn:E;
    [|by rewrite record_relation_none].
  intros H. rewrite !fmap_cons, cons_middle, app_assoc. eapply IH; [|exact H].
  by eapply record_relation_inv.
Qed.

(** Everything the loop over the call sites must have recorded. *)
Definition expected (idx : RelationQueryIndex) (cs : list nat) : list (nat * CompactRelationKey) :=
  cs ≫= fun c => pair c <$> (call_entries idx c).*1.
Lemma record_call_none idx cs : foldl (record_call idx) None cs = None.
Proof. induction cs as [|c cs IH]; [done|]. cbn [foldl]. unfold record_call at 2. by rewrite record_relation_none. Qed.
Lemma record_calls_inv idx done by_key builders cs by_key' builders' :
  builders_inv done by_key builders ->
  foldl (record_call idx) (Some (by_key, builders)) cs = Some (by_key', builders') ->
  builders_inv (done ++ expected idx cs) by_key' builders'.
Proof.
  revert done by_key builders. induction cs as [|c cs IH]; intros done by_key builders Hi.
  { intros [= <- <-]. by rewrite app_nil_r. }
  cbn [foldl]. destruct (record_call idx (Some (by_key, builders)) c) as [[bk bs]|] eqn:E;
    [|by rewrite record_call_none].
  intros H. unfold expected. rewrite bind_cons, app_assoc. eapply IH; [|exact H].
  by eapply record_entries_inv.
Qed.

Lemma builders_keys_nodup done by_key builders :
  builders_inv done by_key builders -> NoDup (b_key <$> builders).
Proof.
  intros [Hi _]. apply NoDup_alt. intros i j k Hx Hy.
  rewrite list_lookup_fmap in Hx, Hy. apply fmap_Some in Hx as (b & Hb & Hk). apply fmap_Some in Hy as (b' & Hb' & Hk').
  assert (by_key !! k = Some i) by (apply Hi; by exists b).
  assert (by_key !! k = Some j) by (apply Hi; by exists b'). congruence.
Qed.

(** ** The shared call-site storage *)

Definition slice (refs : list nat) (r : CompactRelation) : list nat :=
  take r.(call_site_len) (drop r.(call_site_start) refs).

Lemma flatten_none builders : foldl flatten_builder None builders = None.
Proof. by induction builders. Qed.
(** Each relation keeps its builder's key and reads back its builder's sites. *)
Lemma flatten_spec builders rels0 refs0 rels refs :
  foldl flatten_builder (Some (rels0, refs0)) builders = Some (rels, refs) ->
  exists new rest, rels = rels0 ++ new /\ refs = refs0 ++ rest /\
    Forall2 (fun b r => r.(r_key) = b.(b_key) /\ r.(r_evidence) = b.(b_evidence) /\
                        slice refs r = sites_of b) builders new.
Proof.
  revert rels0 refs0. induction builders as [|b builders IH]; intros rels0 refs0.
  { intros [= <- <-]. exists [], []. rewrite !app_nil_r. by split_and!. }
  cbn [foldl]. destruct (flatten_builder (Some (rels0, refs0)) b) as [[rels1 refs1]|] eqn:E;
    [|by rewrite flatten_none].
  intros H. destruct (IH _ _ H) as (new & rest & -> & -> & Hall).
  unfold flatten_builder in E. rewrite bind_Some_l in E.
  apply bind_Some in E as (start & [-> _]%compact_id_Some & E).
  apply bind_Some in E as (len & [-> _]%compact_id_Some & [= <- <-]).
  eexists (_ :: new), (sites_of b ++ rest). rewrite <- !app_assoc. split_and!; [done|done|].
  constructor; [|by rewrite app_assoc]. split_and!; [done|done|]. unfold slice. simpl call_site_len; simpl call_site_start.
  rewrite drop_app_length. by apply take_app_length'.
Qed.

(** ** Links *)

Lemma link_relations_spec rels out inc :
  foldl link_relation (∅, ∅) (imap pair rels) = (out, inc) ->
  (forall e id, id ∈ default [] (out !! e) <-> exists r, rels !! id = Some r /\ r.(r_key).(key_caller) = e) /\
  (forall e id, id ∈ default [] (inc !! e) <-> exists r, rels !! id = Some r /\ r.(r_key).(key_callee) = Some e).
Proof.
  revert out inc. induction rels as [|r rels IH] using rev_ind; intros out inc.
  { intros [= <- <-]. split; intros e id; rewrite lookup_empty; simpl;
      (split; [by intros ?%not_elem_of_nil|by intros (r & ? & _)]). }
  rewrite imap_app, foldl_app. destruct (foldl link_relation (∅, ∅) (imap pair rels)) as [out0 inc0].
  destruct (IH out0 inc0 eq_refl) as [Ho Hi]. simpl. rewrite Nat.add_0_r. intros [= <- <-]. split; intros e id.
  - rewrite push_map_lookup, snoc_lookup, <- Ho. case_decide as He.
    + subst. rewrite elem_of_app, list_elem_of_singleton. naive_solver.
    + naive_solver.
  - rewrite snoc_lookup, <- Hi. destruct (key_callee (r_key r)) as [callee|]; [|naive_solver].
    rewrite push_map_lookup. case_decide as He.
    + subst. rewrite elem_of_app, list_elem_of_singleton. naive_solver.
    + naive_solver.
Qed.

Lemma sorted_ids_lookup es rels (m : gmap nat (list nat)) e id :
  id ∈ default [] ((sort_by (relation_order es rels) <$> m) !! e) <-> id ∈ default [] (m !! e).
Proof. rewrite lookup_fmap. destruct (m !! e); simpl; [apply elem_of_sort_by|done]. Qed.

(** The relation graph, for the clients of the index. *)
Lemma relation_graph hash groups pool sites coverage limited idx :
  index_groups hash groups pool sites coverage limited = Some idx ->
  (forall k c, (exists id r, idx.(relations) !! id = Some r /\ r.(r_key) = k /\ c ∈ relation_slice idx r) <->
     (c < length sites)%nat /\ k ∈ (call_entries idx c).*1) /\
  NoDup (r_key <$> idx.(relations)) /\
  (forall e id, id ∈ relation_ids idx Outgoing e <->
     exists r, idx.(relations) !! id = Some r /\ r.(r_key).(key_caller) = e) /\
  (forall e id, id ∈ relation_ids idx Incoming e <->
     exists r, idx.(relations) !! id = Some r /\ r.(r_key).(key_callee) = Some e).
Proof.
  intros [_ _ _ (by_key & builders & out & inc & Hb & Hf & Hl & Ho & Hi)]%index_groups_parts.
  assert (builders_inv [] ∅ []) as H0.
  { split; [intros k id; rewrite lookup_empty; naive_solver|].
    intros k c. split; [by intros (b & ?%not_elem_of_nil & _)|by intros ?%not_elem_of_nil]. }
  pose proof (record_calls_inv _ _ _ _ _ _ _ H0 Hb) as Hinv. simpl in Hinv.
  destruct (flatten_spec _ _ _ _ _ Hf) as (new & rest & Hnew & _ & Hall). simpl in Hnew. subst new.
  destruct (link_relations_spec _ _ _ Hl) as [Hout Hinc]. split_conj.
  - intros k c. destruct Hinv as [_ Hs]. specialize (Hs k c). unfold expected in Hs.
    rewrite list_elem_of_bind in Hs. transitivity (exists b, b ∈ builders /\ b_key b = k /\ c ∈ sites_of b).
    + split.
      * intros (id & r & Hr & Hk & Hc). destruct (Forall2_lookup_r _ _ _ _ _ Hall Hr) as (b & Hbl & Hkey & _ & Hsl).
        exists b. split_and!; [by eapply list_elem_of_lookup_2|congruence|by rewrite <- Hsl].
      * intros (b & (id & Hbl)%list_elem_of_lookup & Hk & Hc).
        destruct (Forall2_lookup_l _ _ _ _ _ Hall Hbl) as (r & Hr & Hkey & _ & Hsl).
        exists id, r. split_and!; [done|congruence|]. unfold relation_slice. fold (slice (relation_call_sites idx) r).
        by rewrite Hsl.
    + rewrite Hs. split.
      * intros (y & (k' & [= -> ->] & Hk')%list_elem_of_fmap & Hy%elem_of_seq). split; [lia|done].
      * intros [Hc Hk]. exists c. split; [by apply list_elem_of_fmap_2|apply elem_of_seq; lia].
  - pose proof (builders_keys_nodup _ _ _ Hinv) as Hn.
    assert (r_key <$> relations idx = b_key <$> builders) as ->; [|done].
    clear -Hall. induction Hall as [|b r bs rs (Hk & _) _ IH]; [done|]. rewrite !fmap_cons. congruence.
  - intros e id. unfold relation_ids. rewrite Ho, sorted_ids_lookup. apply Hout.
  - intros e id. unfold relation_ids. rewrite Hi, sorted_ids_lookup. apply Hinc.
Qed.

(** C13 The relation graph is exact: a relation with a given key lists a call site iff
    resolving that site calls for that key; there is one relation per key; and a
    relation is listed under an entity's outgoing (incoming) calls iff the entity is its
    caller (callee). No call is lost, invented or attributed to another caller. *)
Theorem call_relations_exact hash groups pool sites coverage limited idx :
  index_groups hash groups pool sites coverage limited = Some idx ->
  (forall k c, (exists id r, idx.(relations) !! id = Some r /\ r.(r_key) = k /\ c ∈ relation_slice idx r) <->
     (c < length sites)%nat /\ k ∈ (call_entries idx c).*1) /\
  NoDup (r_key <$> idx.(relations)) /\
  (forall e id, id ∈ relation_ids idx Outgoing e <->
     exists r, idx.(relations) !! id = Some r /\ r.(r_key).(key_caller) = e) /\
  (forall e id, id ∈ relation_ids idx Incoming e <->
     exists r, idx.(relations) !! id = Some r /\ r.(r_key).(key_callee) = Some e).
Proof. apply relation_graph. Qed.

(** ** Totality below the identifier limit *)

Definition weight (builders : list RelationBuilder) : nat := sum_list (length ∘ sites_of <$> builders).
Lemma weight_app a b : weight (a ++ b) = (weight a + weight b)%nat.
Proof. unfold weight. by rewrite fmap_app, sum_list_with_app. Qed.
Lemma weight_length builders : (length builders <= weight builders)%nat.
Proof.
  induction builders as [|b bs IH]; [done|].
  change (S (length bs) <= S (length (additional_call_sites b)) + weight bs)%nat. lia.
Qed.
Lemma weight_alter f id builders b :
  builders !! id = Some b -> length (sites_of (f b)) = S (length (sites_of b)) ->
  weight (alter f id builders) = S (weight builders).
Proof.
  revert id. induction builders as [|x bs IH]; [done|]; intros [|id] Hb Hf; [injection Hb as ->|simpl in Hb].
  - change (length (sites_of (f b)) + weight bs = S (length (sites_of b) + weight bs))%nat. lia.
  - change (weight (x :: alter f id bs) = S (weight (x :: bs))).
    change (length (sites_of x) + weight (alter f id bs) = S (length (sites_of x) + weight bs))%nat.
    rewrite IH by done. lia.
Qed.

Lemma record_relation_total done by_key builders c k ev :
  builders_inv done by_key builders -> (N.of_nat (weight builders) < u32_limit)%N ->
  exists by_key' builders', record_relation (Some (by_key, builders)) c (k, ev) = Some (by_key', builders') /\
    weight builders' = S (weight builders).
Proof.
  intros [Hi _] Hw. unfold record_relation. rewrite bind_Some_l. destruct (by_key !! k) as [id|] eqn:Hk.
  - apply Hi in Hk as (b & Hb & _). eexists _, _. split; [reflexivity|].
    apply (weight_alter _ _ _ b Hb). unfold sites_of. simpl. rewrite length_app. simpl. lia.
  - pose proof (weight_length builders). rewrite compact_id_ok by lia. eexists _, _.
    split; [reflexivity|]. rewrite weight_app. change (weight builders + 1 = S (weight builders))%nat. lia.
Qed.
Lemma record_entries_total done by_key builders c entries :
  builders_inv done by_key builders ->
  (N.of_nat (weight builders) + N.of_nat (length entries) <= u32_limit)%N ->
  exists by_key' builders',
    foldl (fun acc entry => record_relation acc c entry) (Some (by_key, builders)) entries = Some (by_key', builders') /\
    weight builders' = (weight builders + length entries)%nat.
Proof.
  revert done by_key builders. induction entries as [|[k ev] entries IH]; intros done by_key builders Hi Hw.
  { eexists _, _. split; [reflexivity|]. simpl. lia. }
  cbn [foldl length] in *. destruct (record_relation_total done by_key builders c k ev Hi) as (bk & bs & E & W); [lia|].
  rewrite E. destruct (IH (done ++ [(c, k)]) bk bs) as (bk' & bs' & -> & W'); [by eapply record_relation_inv|lia|].
  eexists _, _. split; [reflexivity|lia].
Qed.
Lemma record_calls_total idx done by_key builders cs m :
  builders_inv done by_key builders -> (forall c, length (call_entries idx c) <= m)%nat ->
  (N.of_nat (weight builders) + N.of_nat (length cs * m) <= u32_limit)%N ->
  exists by_key' builders',
    foldl (record_call idx) (Some (by_key, builders)) cs = Some (by_key', builders') /\
    (weight builders' <= weight builders + length cs * m)%nat.
Proof.
  intros Hi Hm. revert done by_key builders Hi. induction cs as [|c cs IH]; intros done by_key builders Hi Hw.
  { eexists _, _. split; [reflexivity|]. lia. }
  cbn [foldl length] in *. specialize (Hm c) as Hc.
  destruct (record_entries_total done by_key builders c (call_entries idx c) Hi) as (bk & bs & E & W); [lia|].
  unfold record_call at 2. rewrite E.
  destruct (IH (done ++ (pair c <$> (call_entries idx c).*1)) bk bs) as (bk' & bs' & -> & W');
    [by eapply record_entries_inv|lia|].
  eexists _, _. split; [reflexivity|lia].
Qed.

Lemma flatten_total builders rels refs :
  (N.of_nat (length refs + weight builders) < u32_limit)%N ->
  is_Some (foldl flatten_builder (Some (rels, refs)) builders).
Proof.
  revert rels refs. induction builders as [|b bs IH]; intros rels refs H; [done|]. cbn [foldl].
  assert (weight (b :: bs) = length (sites_of b) + weight bs)%nat as Hw by done. rewrite Hw in H.
  unfold sites_of in H. cbn [length] in H.
  unfold flatten_builder at 2. rewrite bind_Some_l, (compact_id_ok (length refs)), bind_Some_l by lia.
  rewrite compact_id_ok, bind_Some_l by lia. apply IH. rewrite length_app. unfold sites_of. simpl. lia.
Qed.

Lemma omap_length {A B} (f : A -> option B) l : (length (omap f l) <= length l)%nat.
Proof. induction l as [|x l IH]; csimpl; [lia|]. destruct (f x); csimpl; lia. Qed.

Lemma add_groups_total hash counts limited groups t :
  Forall (fun g => g.(sg_variants) <> []) groups ->
  (N.of_nat (length t.(t_entities) + length groups) <= u32_limit)%N ->
  is_Some (foldl (add_group hash counts limited) (Some t) groups).
Proof.
  intros Hne. revert t. induction Hne as [|g groups Hg _ IH]; intros t H; [done|]. cbn [foldl].
  unfold add_group at 2. rewrite bind_Some_l.
  assert (is_Some (entity_of_group hash counts g)) as [[e ks] ->].
  { unfold entity_of_group.
    destruct (dedup same_anchor (sort_by primary_anchor_cmp (sg_variants g))) as [|v vs] eqn:E; [|done].
    exfalso. apply Hg. rewrite <- (sort_by_nil_iff primary_anchor_cmp).
    by destruct (sort_by primary_anchor_cmp (sg_variants g)). }
  cbn [length] in H. rewrite bind_Some_l, compact_id_ok, bind_Some_l by lia.
  apply IH. simpl. rewrite length_app. simpl. lia.
Qed.

Lemma index_calls_total sites m :
  (N.of_nat (length sites) <= u32_limit)%N -> is_Some (foldl index_call (Some m) (imap pair sites)).
Proof.
  intros H. assert (forall k m, (N.of_nat (k + length sites) <= u32_limit)%N ->
    is_Some (foldl index_call (Some m) (imap (fun i s => (k + i, s)) sites))) as Hk.
  2: { apply (Hk 0). done. }
  clear m H. induction sites as [|s sites IH]; intros k m H; [done|].
  rewrite imap_cons. cbn [foldl length] in *. unfold index_call at 2. rewrite bind_Some_l. simpl fst.
  rewrite Nat.add_0_r, compact_id_ok, bind_Some_l by lia.
  rewrite (imap_ext _ (fun i s => (S k + i, s))) by (intros; simpl; by rewrite Nat.add_succ_r).
  apply IH. lia.
Qed.

Lemma call_entries_length idx t c :
  tables_inv t -> idx.(by_name) = order_ids t.(t_entities) <$> t.(t_by_name) ->
  (length (call_entries idx c) <= S (length t.(t_entities)))%nat.
Proof.
  intros Ht Hbn. unfold call_entries. destruct (resolve_caller idx c); [|simpl; lia].
  assert (length (resolve_call_into idx c) <= length (t_entities t))%nat as Hr.
  { unfold resolve_call_into. destruct (call_sites idx !! c); simpl; [|lia].
    case_match; simpl; [lia|]. destruct (st_callee_name _) as [name|]; simpl; [|lia].
    rewrite Hbn, lookup_fmap. pose proof (ti_name_sorted _ Ht (text (strings idx) name)) as Hs.
    destruct (t_by_name t !! text (strings idx) name) as [l|]; simpl in *; [|lia].
    etrans; [apply omap_length|]. etrans; [apply dedup_length|]. rewrite sort_by_length.
    apply sublist_length in Hs. by rewrite length_seq in Hs. }
  destruct (resolve_call_into idx c) as [|x l]; simpl in *; [lia|]. rewrite length_fmap. lia.
Qed.

Lemma index_groups_total hash groups pool sites coverage limited :
  Forall (fun g => g.(sg_variants) <> []) groups ->
  (N.of_nat (length groups) <= u32_limit)%N -> (N.of_nat (length sites) <= u32_limit)%N ->
  (N.of_nat (length sites * S (length groups)) < u32_limit)%N ->
  is_Some (index_groups hash groups pool sites coverage limited).
Proof.
  intros Hne Hg Hs Hb. unfold index_groups.
  destruct (add_groups_total hash (raw_group_counts groups) limited groups empty_tables Hne) as [t Ht]; [done|].
  rewrite Ht, bind_Some_l. destruct (index_calls_total sites ∅ Hs) as [calls ->]. rewrite bind_Some_l.
  destruct (add_groups_inv _ _ _ _ _ _ empty_tables_inv Ht) as [Hti Hlen]. simpl in Hlen.
  match goal with |- context [record_call ?i] => set (idx := i) end.
  destruct (record_calls_total idx [] ∅ [] (seq 0 (length sites)) (S (length groups))) as (bk & bs & -> & Hw).
  - split; [intros k id; rewrite lookup_empty; naive_solver|].
    intros k c. split; [by intros (b & ?%not_elem_of_nil & _)|by intros ?%not_elem_of_nil].
  - intros c. rewrite <- Hlen. by apply call_entries_length.
  - rewrite length_seq. unfold weight. simpl. lia.
  - rewrite bind_Some_l. rewrite length_seq in Hw. unfold weight at 2 in Hw. simpl in Hw.
    destruct (flatten_total bs [] []) as [[rels refs] ->]; [simpl; lia|]. rewrite bind_Some_l.
    by destruct (foldl link_relation (∅, ∅) (imap pair rels)).
Qed.

(** ** The index of a request *)

(** Every request within the identifier space gets an index: with at most 2^32 anchors,
    a fifth of that many call sites and fewer than 2^32 possible call-to-entity links,
    building never fails, whatever the facts say and whatever the include graph. *)
Theorem catalog_builds hash anchors facts coverage graph incomplete limited :
  (N.of_nat (length anchors) <= u32_limit)%N -> (5 * N.of_nat (length facts) <= u32_limit)%N ->
  (N.of_nat (length facts * S (length anchors)) < u32_limit)%N ->
  is_Some (build_from_facts_with_context hash anchors facts coverage graph incomplete limited).
Proof.
  intros Ha Hf Hb. unfold build_from_facts_with_context, from_stored_facts.
  destruct (store_facts_total facts empty_pool) as (ss & q & -> & Hl); [simpl; lia|]. rewrite bind_Some_l.
  destruct (semantic_anchor_groups_spec anchors graph (incomplete || limited))
    as (groups & compared & -> & Hp & _ & _ & _ & Hg). rewrite bind_Some_l.
  assert (length groups <= length anchors)%nat as Hlen.
  { transitivity (length (groups ≫= sg_variants)).
    - clear -Hg. induction groups as [|g gs IH]; [done|]. rewrite bind_cons, length_app. cbn [length].
      destruct (Hg g ltac:(left)) as [Hsz _]. specialize (IH (fun g' Hin => Hg g' ltac:(by right))). lia.
    - rewrite Hp. unfold distinct_anchors. etrans; [apply dedup_length|]. by rewrite sort_by_length. }
  apply index_groups_total; [|lia|lia|nia].
  apply Forall_forall. intros g Hin Hz. destruct (Hg g Hin) as [Hsz _]. rewrite Hz in Hsz. simpl in Hsz. lia.
Qed.

Lemma resolve_caller_valid t idx c e :
  tables_inv t -> idx.(entities) = t.(t_entities) -> idx.(entity_raw_keys) = t.(t_raw_keys) ->
  idx.(entities_by_raw_key) = t.(t_by_raw_key) -> resolve_caller idx c = Some e -> is_Some (idx.(entities) !! e).
Proof.
  intros Ht He Hr Hk H. unfold resolve_caller in H.
  apply bind_Some in H as (call & _ & H). apply bind_Some in H as (cands & Hc & H).
  assert (forall e', e' ∈ cands -> is_Some (entities idx !! e')) as Hin.
  { intros e' Hin. rewrite Hk in Hc.
    pose proof (ti_raw _ Ht (text (strings idx) (st_caller_entity_key call)) e') as Hti. rewrite Hc in Hti. simpl in Hti.
    apply Hti in Hin as (ks & Hks & _). apply lookup_lt_Some in Hks. rewrite (ti_raw_keys _ Ht) in Hks.
    rewrite He. by apply lookup_lt_is_Some. }
  assert (forall l, (match dedup Nat.eqb l with [only] => Some only | _ => None end) = Some e -> e ∈ l) as Hd.
  { intros l Hl. destruct (dedup Nat.eqb l) as [|x [|]] eqn:E; simplify_eq.
    apply (elem_of_dedup Nat.eqb); [by intros ?? ?%Nat.eqb_eq|]. rewrite E. left. }
  destruct cands as [|x [|y cands]].
  - by apply Hd in H; apply elem_of_sort_by, not_elem_of_nil in H.
  - injection H as <-. apply Hin. left.
  - apply Hd, elem_of_sort_by, elem_of_filter_bool in H as [H _]. by apply Hin.
Qed.

Lemma resolve_call_valid idx c e ev : (e, ev) ∈ resolve_call_into idx c -> is_Some (idx.(entities) !! e).
Proof.
  unfold resolve_call_into. destruct (call_sites idx !! c); [|by intros ?%not_elem_of_nil].
  case_match; [by intros ?%not_elem_of_nil|]. destruct (st_callee_name _); [|by intros ?%not_elem_of_nil].
  destruct (by_name idx !! _); [|by intros ?%not_elem_of_nil].
  intros (e' & _ & Hx)%list_elem_of_omap. apply bind_Some in Hx as (ent & Hent & Hx).
  apply bind_Some in Hx as (? & _ & [= -> _]). by eexists.
Qed.

(** Every identifier of a relation's key is valid. *)
Lemma call_entries_valid t idx c k :
  tables_inv t -> idx.(entities) = t.(t_entities) -> idx.(entity_raw_keys) = t.(t_raw_keys) ->
  idx.(entities_by_raw_key) = t.(t_by_raw_key) -> k ∈ (call_entries idx c).*1 ->
  is_Some (idx.(entities) !! k.(key_caller)) /\
  (forall e, k.(key_callee) = Some e -> is_Some (idx.(entities) !! e)) /\
  (forall s, k.(key_ambiguity_site) = Some s -> s = c).
Proof.
  intros Ht He Hr Hk. unfold call_entries. destruct (resolve_caller idx c) as [caller|] eqn:Hc;
    [|by intros ?%not_elem_of_nil].
  pose proof (resolve_caller_valid _ _ _ _ Ht He Hr Hk Hc) as Hcv.
  pose proof (resolve_call_valid idx c) as Hv.
  destruct (resolve_call_into idx c) as [|x l] eqn:E.
  - intros ->%list_elem_of_singleton. by split_conj.
  - intros ([k' ev'] & -> & ([callee ev] & Heq & Hin)%list_elem_of_fmap)%list_elem_of_fmap.
    injection Heq as -> ->. simpl. split_conj; [done| |].
    + intros e [= <-]. by eapply Hv.
    + intros s. case_match; [by intros [= <-]|done].
Qed.

Lemma mapM_window {A B} (f : A -> option B) l k n m :
  mapM f l = Some k -> mapM f (take n (drop m l)) = Some (take n (drop m k)).
Proof. rewrite !mapM_Some. intros H. by apply Forall2_take, Forall2_drop. Qed.
Lemma mapM_total {A B} (f : A -> option B) l : (forall x, x ∈ l -> is_Some (f x)) -> is_Some (mapM f l).
Proof. intros H. apply mapM_is_Some, Forall_forall. exact H. Qed.

Lemma build_parts hash anchors facts coverage graph incomplete limited idx :
  build_from_facts_with_context hash anchors facts coverage graph incomplete limited = Some idx ->
  exists groups pool sites, index_groups hash groups pool sites coverage limited = Some idx /\
    mapM (fun s => materialize s pool) sites = Some facts.
Proof.
  intros H. unfold build_from_facts_with_context in H. apply bind_Some in H as ([sites pool] & Hs & H).
  unfold from_stored_facts in H. apply bind_Some in H as (groups & _ & H). exists groups, pool, sites.
  split; [done|]. by destruct (store_facts_spec _ _ _ _ empty_pool_ok Hs) as (_ & _ & ?).
Qed.

Lemma materialize_relation_total hash groups pool sites coverage limited facts idx direction site_cap id :
  index_groups hash groups pool sites coverage limited = Some idx ->
  mapM (fun s => materialize s pool) sites = Some facts ->
  (id < length idx.(relations))%nat ->
  exists r rel cut, idx.(relations) !! id = Some r /\
    materialize_relation idx direction site_cap id = Some (rel, cut) /\
    idx.(entities) !! r.(r_key).(key_caller) = Some rel.(rel_caller) /\
    (forall e, r.(r_key).(key_callee) = Some e ->
       exists ent, idx.(entities) !! e = Some ent /\ rel.(rel_callee) = Some ent) /\
    rel.(rel_direction) = direction /\ (length rel.(rel_call_sites) <= site_cap)%nat.
Proof.
  intros Hidx Hm Hid. destruct (relation_graph _ _ _ _ _ _ _ Hidx) as (Hkeys & _).
  pose proof (index_groups_parts _ _ _ _ _ _ _ Hidx) as
    [(t & Ht & _ & _ & He & _ & Hr & Hk & _) <- Hsites (by_key & builders & out & inc & Hb & Hf & _)].
  destruct (lookup_lt_is_Some_2 _ _ Hid) as [r Hrl].
  destruct (flatten_spec _ _ _ _ _ Hf) as (new & rest & Hnew & _ & Hall). simpl in Hnew. subst new.
  destruct (Forall2_lookup_r _ _ _ _ _ Hall Hrl) as (b & _ & _ & _ & Hsl).
  assert (forall c, c ∈ relation_slice idx r -> (c < length sites)%nat /\ r.(r_key) ∈ (call_entries idx c).*1) as Hc.
  { intros c Hc. apply Hkeys. by exists id, r. }
  assert (first_call_site b ∈ relation_slice idx r) as Hfirst.
  { unfold relation_slice. fold (slice (relation_call_sites idx) r). rewrite Hsl. left. }
  destruct (Hc _ Hfirst) as [Hlt Hin].
  destruct (call_entries_valid t idx _ _ Ht He Hr Hk Hin) as ([caller Hcaller] & Hcallee & Hamb).
  assert (forall c, (c < length sites)%nat -> exists call fact, idx.(call_sites) !! c = Some call /\
    materialize call idx.(strings) = Some fact) as Hmat.
  { intros c Hcl. rewrite Hsites. destruct (lookup_lt_is_Some_2 _ _ Hcl) as [call Hcall].
    apply mapM_Some in Hm. destruct (Forall2_lookup_l _ _ _ _ _ Hm Hcall) as (fact & _ & Hfact).
    by exists call, fact. }
  unfold materialize_relation. rewrite Hrl, bind_Some_l.
  destruct (mapM_total (fun site => call ← call_sites idx !! site; materialize call (strings idx))
    (take (Nat.min (call_site_len r) site_cap) (relation_slice idx r))) as [facts' Hfacts].
  { intros c (i & Hcin%list_elem_of_lookup_2 & _)%elem_of_take. destruct (Hc c Hcin) as [Hcl _]. destruct (Hmat c Hcl) as (call & fact & -> & Hx).
    rewrite bind_Some_l. by eexists. }
  rewrite Hfacts, Hcaller, !bind_Some_l.
  assert (length facts' <= site_cap)%nat as Hcap.
  { apply mapM_Some, Forall2_length in Hfacts. rewrite length_take in Hfacts. lia. }
  destruct (key_callee (r_key r)) as [callee|] eqn:Ecallee.
  - destruct (Hcallee _ eq_refl) as [ent Hent]. rewrite Hent. cbn [fmap option_fmap option_map]. rewrite bind_Some_l.
    destruct (key_ambiguity_site (r_key r)) as [s|].
    + rewrite (Hamb s eq_refl). destruct (Hmat _ Hlt) as (call & _ & -> & _).
      cbn [fmap option_fmap option_map]. rewrite bind_Some_l. eexists _, _, _. split_conj; try done.
      rewrite Ecallee. intros e [= <-]. by eexists.
    + rewrite bind_Some_l. eexists _, _, _. split_conj; try done. rewrite Ecallee. intros e [= <-]. by eexists.
  - rewrite bind_Some_l. destruct (key_ambiguity_site (r_key r)) as [s|].
    + rewrite (Hamb s eq_refl). destruct (Hmat _ Hlt) as (call & _ & -> & _).
      cbn [fmap option_fmap option_map]. rewrite bind_Some_l. eexists _, _, _. split_conj; try done. by rewrite Ecallee.
    + rewrite bind_Some_l. eexists _, _, _. split_conj; try done. by rewrite Ecallee.
Qed.

(** Paging is consistent: for every entity and direction there is one list of
    relations such that each page is its window at the cursor, with its length as the
    total; no page fails, every listed relation has the asked entity as its caller
    (outgoing) or callee (incoming), and none carries more call sites than the limit. *)
Theorem relation_pages_consistent hash anchors facts coverage graph incomplete limited idx direction key site_cap :
  build_from_facts_with_context hash anchors facts coverage graph incomplete limited = Some idx ->
  exists all : list CallRelation,
    (forall cursor limit, exists page,
       relation_page idx direction key cursor limit site_cap = Some page /\
       page.(page_relations) = take limit (drop cursor all) /\ page.(page_total) = length all /\
       page.(scan_limited) = false) /\
    (forall rel, rel ∈ all ->
       rel.(rel_direction) = direction /\ (length rel.(rel_call_sites) <= site_cap)%nat /\
       match direction with
       | Outgoing => rel.(rel_caller).(ent_key) = key
       | Incoming => exists callee, rel.(rel_callee) = Some callee /\ callee.(ent_key) = key
       end).
Proof.
  intros (groups & pool & sites & Hidx & Hm)%build_parts. unfold relation_page.
  destruct (relation_graph _ _ _ _ _ _ _ Hidx) as (_ & _ & Hout & Hinc).
  pose proof (index_groups_parts _ _ _ _ _ _ _ Hidx) as [(t & Ht & _ & _ & He & Hkey & _) _ _ _].
  destruct (entity_by_key idx !! key) as [e|] eqn:Hke.
  2: { exists []. split; [|by intros rel ?%not_elem_of_nil]. intros cursor limit. eexists.
       split; [reflexivity|]. simpl. by rewrite drop_nil, take_nil. }
  rewrite Hkey in Hke. destruct (ti_key _ Ht _ _ Hke) as (ent & Hent & Hek). rewrite <- He in Hent.
  assert (forall id, id ∈ relation_ids idx direction e -> exists rel cut,
    materialize_relation idx direction site_cap id = Some (rel, cut) /\
    rel.(rel_direction) = direction /\ (length rel.(rel_call_sites) <= site_cap)%nat /\
    match direction with
    | Outgoing => rel.(rel_caller).(ent_key) = key
    | Incoming => exists callee, rel.(rel_callee) = Some callee /\ callee.(ent_key) = key
    end) as Hids.
  { intros id Hin.
    assert (exists r, relations idx !! id = Some r /\
      match direction with Outgoing => key_caller (r_key r) = e | Incoming => key_callee (r_key r) = Some e end)
      as (r & Hr & Hdir) by (destruct direction; [by apply Hinc|by apply Hout]).
    destruct (materialize_relation_total _ _ _ _ _ _ _ idx direction site_cap id Hidx Hm)
      as (r' & rel & cut & Hr' & Hmat & Hcaller & Hcallee & Hd & Hcap); [by eapply lookup_lt_Some|].
    assert (r' = r) as -> by congruence. exists rel, cut. split_conj; [done..|].
    destruct direction.
    - destruct (Hcallee e Hdir) as (ent' & Hent' & Hrel). exists ent'. split; [done|congruence].
    - rewrite Hdir in Hcaller. congruence. }
  destruct (mapM_total (materialize_relation idx direction site_cap) (relation_ids idx direction e)) as [out Hall].
  { intros id (rel & cut & H & _)%Hids. by rewrite H. }
  exists out.*1. split.
  - intros cursor limit. rewrite (mapM_window _ _ _ _ _ Hall), bind_Some_l. eexists. split; [reflexivity|]. simpl.
    rewrite fmap_take, fmap_drop, length_fmap. apply mapM_Some, Forall2_length in Hall. done.
  - intros rel ([rel' cut] & -> & Hin)%list_elem_of_fmap. simpl.
    apply mapM_Some in Hall. apply list_elem_of_lookup in Hin as [i Hi].
    destruct (Forall2_lookup_r _ _ _ _ _ Hall Hi) as (id & Hid & Hmat).
    destruct (Hids id) as (rel'' & cut'' & Hmat' & H); [by eapply list_elem_of_lookup_2|].
    assert (rel'' = rel') as -> by congruence. exact H.
Qed.

(** ** Witnesses *)

Definition demo_function (path name : string) (body : bool) : CallableAnchor :=
  mkAnchor path name name None None KindFunction RoleDefinition LinkExternal
    (mkSig "(int)" (Some 1%N) (Some 1%N) false) "int(int)" "int f(int)" AstExact
    (mkSrcRange (mkPos 0 4) (mkPos 0 8) 4 8) (mkSrcRange (mkPos 0 0) (mkPos 9 0) 0 90)
    (if body then Some (mkSrcRange (mkPos 0 10) (mkPos 9 0) 10 90) else None) None ProvAst false name name.
Definition demo_anchors : list CallableAnchor := [demo_function "a.c" "main" true; demo_function "b.c" "open" true].
Definition demo_facts : list CallSiteFact := [demo_call "open" None; demo_call "missing" None].
Definition demo_summary : CoverageSummary := mkCoverageSummary 2 2 0 true.
Definition demo_build : option RelationQueryIndex :=
  build_from_facts_with_context demo_digest demo_anchors demo_facts demo_summary None false false.
Definition empty_index : RelationQueryIndex :=
  mkIndex [] ∅ [] ∅ ∅ ∅ empty_pool [] ∅ [] [] ∅ ∅ demo_summary [].
Definition demo_index : RelationQueryIndex := default empty_index demo_build.
Lemma demo_built : demo_build = Some demo_index.
Proof. vm_compute. reflexivity. Qed.

Definition demo_groups : list SemanticAnchorGroup := default [] (semantic_anchor_groups demo_anchors None false).
Definition demo_stored : list StoredCallSite * StringPool := default ([], empty_pool) (store_facts demo_facts empty_pool).
Lemma demo_indexed :
  index_groups demo_digest demo_groups demo_stored.2 demo_stored.1 demo_summary false = Some demo_index.
Proof. vm_compute. reflexivity. Qed.

Lemma catalog_builds_witness : is_Some demo_build.
Proof. apply catalog_builds; vm_compute; (discriminate || reflexivity). Defined.

Definition demo_site : StoredCallSite :=
  default (mkStored 0 0 (mkSrcRange (mkPos 0 0) (mkPos 0 0) 0 0) (mkSrcRange (mkPos 0 0) (mkPos 0 0) 0 0) None None
             DirectName None None ProvAst false "") (demo_stored.1 !! 0).
Definition demo_open : CallableEntity :=
  default (mkEntity "" "" "" None None KindFunction LinkUnknown (mkSig "" None None false)
             (demo_function "" "" false) []) (demo_index.(entities) !! 1).
Lemma call_candidates_exact_witness :
  ((exists ev, (1, ev) ∈ resolve_call_into demo_index 0) <->
   name_form demo_site.(st_form) = true /\
   (exists name, demo_site.(st_callee_name) = Some name /\ text demo_stored.2 name = demo_open.(ent_name)) /\
   eligible_free_function demo_open = true /\ possible_target demo_stored.2 demo_site demo_open) /\
  demo_open.(ent_name) = "open".
Proof.
  split; [|vm_compute; reflexivity].
  apply (call_candidates_exact demo_digest demo_groups demo_stored.2 demo_stored.1 demo_summary false demo_index);
    [exact demo_indexed|vm_compute; reflexivity..].
Defined.

Lemma call_relations_exact_witness :
  (exists id r, demo_index.(relations) !! id = Some r /\ r.(r_key) = mkRelKey 0 (Some 1) RelMedium None /\
     0 ∈ relation_slice demo_index r) /\
  NoDup (r_key <$> demo_index.(relations)).
Proof.
  destruct (call_relations_exact demo_digest demo_groups demo_stored.2 demo_stored.1 demo_summary false
    demo_index demo_indexed) as (H1 & H2 & _).
  split; [|exact H2]. apply H1. split; [apply Nat.ltb_lt; vm_compute; reflexivity|].
  apply (bool_decide_unpack _). vm_compute. exact I.
Defined.

Lemma relation_pages_consistent_witness :
  exists all : list CallRelation,
    (forall cursor limit, exists page,
       relation_page demo_index Outgoing "main" cursor limit 10 = Some page /\
       page.(page_relations) = take limit (drop cursor all) /\ page.(page_total) = length all /\
       page.(scan_limited) = false) /\
    (forall rel, rel ∈ all ->
       rel.(rel_direction) = Outgoing /\ (length rel.(rel_call_sites) <= 10)%nat /\
       rel.(rel_caller).(ent_key) = "main").
Proof.
  exact (relation_pages_consistent demo_digest demo_anchors demo_facts demo_summary None false false
    demo_index Outgoing "main" 10 demo_built).
Defined.
