(* ===== verification/Searching.v ===== *)
(** * Searching sorted slices, and maps read in key order

    [slice::binary_search_by] and [slice::partition_point] on any sorted list, and the
    iteration of a [BTreeMap] with string keys. *)

From S2P Require Import Prelude.

Section search.
Context {A : Type}.

(** The halving loop of [slice::binary_search_by]; [key] compares an element with what is
    looked for. The size is enough fuel. *)
Fixpoint search_loop (key : A -> comparison) (fuel : nat) (l : list A) (start size : nat) : nat :=
  match fuel with
  | 0 => start
  | S fuel =>
      if (size <=? 1)%nat then start
      else
        let half := Nat.div size 2 in
        let mid := (start + half)%nat in
        let start :=
          match l !! mid with
          | Some e => match key e with Gt => start | _ => mid end
          | None => start
          end in
        search_loop key fuel l start (size - half)
  end.
Definition binary_search (key : A -> comparison) (l : list A) : option nat :=
  let i := search_loop key (length l) l 0 (length l) in
  e ← l !! i;
  match key e with Eq => Some i | _ => None end.
(** The first place the predicate fails; on a partitioned slice what the halving finds. *)
Fixpoint partition_point (f : A -> bool) (l : list A) : nat :=
  match l with [] => 0 | x :: l => if f x then S (partition_point f l) else 0 end.

(** Of two elements the first is below what is looked for or the second is above. *)
Definition splits (key : A -> comparison) : list A -> Prop :=
  StronglySorted (fun a b => key a = Lt \/ key b = Gt).

Lemma search_loop_finds key l t e fuel : forall start size,
  splits key l -> l !! t = Some e -> key e = Eq -> (start <= t < start + size)%nat ->
  (start + size <= length l)%nat -> (size <= fuel)%nat -> search_loop key fuel l start size = t.
Proof.
  intros start size Hs Ht He. revert start size.
  induction fuel as [|fuel IH]; intros start size Hr Hl Hf; cbn [search_loop]; [lia|].
  destruct (Nat.leb_spec size 1); [lia|]. cbv zeta.
  pose proof (Nat.div_lt size 2 ltac:(lia) ltac:(lia)). pose proof (Nat.div_str_pos size 2 ltac:(lia)).
  pose proof (Nat.div_mod_eq size 2). pose proof (Nat.mod_upper_bound size 2 ltac:(lia)).
  set (half := Nat.div size 2) in *. clearbody half.
  destruct (l !! (start + half)%nat) as [m|] eqn:Em; [|apply lookup_ge_None in Em; lia].
  assert (key m = Gt -> (t < start + half)%nat) as Hgt.
  { intros Hc. destruct (Nat.lt_total t (start + half)) as [?|[Heq|Hlt]]; [done| |].
    - rewrite <- Heq, Ht in Em. injection Em as <-. congruence.
    - pose proof (StronglySorted_lookup _ _ _ _ _ _ Hs Em Ht Hlt) as [|]; congruence. }
  assert (key m <> Gt -> (start + half <= t)%nat) as Hle.
  { intros Hc. destruct (Nat.le_gt_cases (start + half) t) as [?|Hlt]; [done|]. exfalso.
    pose proof (StronglySorted_lookup _ _ _ _ _ _ Hs Ht Em Hlt) as [|]; congruence. }
  destruct (key m) eqn:E; apply IH; try lia.
  - specialize (Hle ltac:(done)). lia.
  - specialize (Hle ltac:(done)). lia.
  - specialize (Hgt eq_refl). lia.
Qed.
Lemma binary_search_Some key l i : binary_search key l = Some i -> exists e, l !! i = Some e /\ key e = Eq.
Proof. unfold binary_search. intros (e & He & H)%bind_Some. destruct (key e) eqn:E; try done. injection H as <-. by exists e. Qed.
Lemma binary_search_finds key l t e : splits key l -> l !! t = Some e -> key e = Eq -> binary_search key l = Some t.
Proof.
  intros Hs Ht He. pose proof (lookup_lt_Some _ _ _ Ht). unfold binary_search.
  rewrite (search_loop_finds key l t e) by (done || lia). rewrite Ht. cbn [mbind option_bind]. by rewrite He.
Qed.
Lemma binary_search_None key l : splits key l -> binary_search key l = None <-> forall e, e ∈ l -> key e <> Eq.
Proof.
  intros Hs. split.
  - intros Hn e [t Ht]%list_elem_of_lookup He. by rewrite (binary_search_finds key l t e) in Hn.
  - intros H. destruct (binary_search key l) as [i|] eqn:E; [|done]. exfalso.
    apply binary_search_Some in E as (e & He & Hk). eapply H; [by eapply list_elem_of_lookup_2|done].
Qed.
(** What a search through a strictly increasing projection needs. *)
Lemma splits_on {B} (f : A -> B) (cmp : B -> B -> comparison) `{!LawfulCmp cmp} x l :
  StronglySorted (fun a b => cmp (f a) (f b) = Lt) l -> splits (fun a => cmp (f a) x) l.
Proof.
  intros Hs. eapply StronglySorted_weaken; [|done]. cbn beta. intros a b H. destruct (cmp (f a) x) eqn:E; [right|by left|right].
  - by rewrite <- (cmp_eq_r cmp _ _ (f b) E), (cmp_antisym cmp (f a) (f b)), H.
  - apply (cmp_gt_trans cmp _ (f a)); [|done]. by rewrite (cmp_antisym cmp (f a) (f b)), H.
Qed.
Lemma take_partition_point f l : Forall (fun x => f x = true) (take (partition_point f l) l).
Proof. induction l as [|x l IH]; simpl; [constructor|]. destruct (f x) eqn:E; simpl; by constructor. Qed.
(** Once the predicate fails it fails. *)
Lemma drop_partition_point f (R : A -> A -> Prop) l : StronglySorted R l -> (forall x y, f x = false -> R x y -> f y = false) ->
  Forall (fun x => f x = false) (drop (partition_point f l) l).
Proof.
  intros Hs Hf. induction Hs as [|x l Hs IH Hx]; [constructor|]. cbn [partition_point]. destruct (f x) eqn:E; cbn [drop]; [done|].
  constructor; [done|]. eapply Forall_impl; [exact Hx|]. intros y. by apply Hf.
Qed.
End search.

(** [Iterator::take_while]; a convex predicate is not cut short. *)
Fixpoint take_while {A} (f : A -> bool) (l : list A) : list A :=
  match l with x :: l => if f x then x :: take_while f l else [] | [] => [] end.
Lemma take_while_convex {A} (f : A -> bool) (R : A -> A -> Prop) l : StronglySorted R l ->
  (forall x y, R x y -> x ∈ l -> f y = true -> f x = true) -> take_while f l = List.filter f l.
Proof.
  intros Hs Hf. induction Hs as [|x l Hs IH Hx]; [done|]. cbn [take_while List.filter]. destruct (f x) eqn:E.
  - f_equal. apply IH. intros y z Hyz Hy. apply Hf; [done|by right].
  - rewrite Forall_forall in Hx. assert (forall y, y ∈ l -> f y = false) as Hl.
    { intros y Hy. destruct (f y) eqn:Ey; [|done]. rewrite (Hf x y) in E; [done|by apply Hx|left|done]. }
    clear -Hl. induction l as [|y l IH]; [done|]. cbn [List.filter]. rewrite Hl by left. apply IH. intros z Hz. apply Hl. by right.
Qed.

(** ** Strictly increasing strings *)

Definition string_lt (a b : string) : Prop := String.compare a b = Lt.
#[export] Instance string_lt_trans : Transitive string_lt.
Proof.
  unfold string_lt. intros x y z H1 H2. pose proof (cmp_trans String.compare x y z) as T.
  destruct (String.compare x z) eqn:E; [|done|].
  - apply string_compare_eq in E. rewrite E, (cmp_antisym String.compare y z), H2 in H1. done.
  - rewrite H1, H2 in T. by destruct T.
Qed.
Lemma string_lt_ne a b : string_lt a b -> a <> b.
Proof. unfold string_lt. intros H ->. by rewrite string_compare_refl in H. Qed.
Lemma string_le_lt a b : cmp_le String.compare a b -> a <> b -> string_lt a b.
Proof. unfold cmp_le, string_lt. intros H Hne. destruct (String.compare a b) eqn:E; [|done..]. by apply string_compare_eq in E. Qed.

(** What starts with a prefix is not below it, and is contiguous above it. *)
Lemma prefix_le p s : String.prefix p s = true -> String.compare p s <> Gt.
Proof.
  revert s. induction p as [|c p IH]; intros [|a s]; cbn [String.prefix String.compare]; try done.
  destruct (Ascii.ascii_dec c a) as [->|]; [|done]. rewrite (proj2 (ascii_compare_eq a a)) by done. by apply IH.
Qed.
Lemma prefix_convex p s1 s2 : String.compare p s1 <> Gt -> String.compare s1 s2 <> Gt -> String.prefix p s2 = true -> String.prefix p s1 = true.
Proof.
  revert s1 s2. induction p as [|c p IH]; intros [|a s1] [|b s2]; cbn [String.prefix String.compare]; try done.
  intros H1 H2. destruct (Ascii.ascii_dec c b) as [<-|]; [|done]. pose proof (ascii_compare_antisym c a) as Hs.
  destruct (Ascii.compare c a) eqn:E; [|by rewrite Hs in H2|done].
  apply ascii_compare_eq in E as <-. rewrite (proj2 (ascii_compare_eq c c)) in H2 by done.
  destruct (Ascii.ascii_dec c c); [|done]. by apply IH.
Qed.

Section keyed.
Context {A : Type} (f : A -> string).
Definition increasing : list A -> Prop := StronglySorted (fun a b => string_lt (f a) (f b)).
Lemma increasing_nodup l : increasing l -> NoDup (f <$> l).
Proof.
  induction 1 as [|e l Hl IH He]; csimpl; constructor; [|done].
  intros (x & Hx & Hin)%list_elem_of_fmap. rewrite Forall_forall in He. by apply (string_lt_ne (f e) (f x)), Hx; auto.
Qed.
Lemma sorted_increasing l : StronglySorted (cmp_le (cmp_on f String.compare)) l -> NoDup (f <$> l) -> increasing l.
Proof.
  induction 1 as [|x l Hl IH Hx]; csimpl; intros Hn; constructor; inversion Hn as [|? ? Hnx Hnl]; subst.
  - by apply IH.
  - rewrite Forall_forall in *. intros y Hy. apply string_le_lt; [by apply (Hx y)|].
    intros E. apply Hnx. rewrite E. by apply list_elem_of_fmap_2.
Qed.
Lemma increasing_unique l k : increasing l -> increasing k -> l ≡ₚ k -> l = k.
Proof.
  intros Hl. revert k. induction Hl as [|x l Hl IH Hx]; intros k Hk Hp; [by apply Permutation_nil_l in Hp|].
  destruct Hk as [|y k Hk Hy]; [by apply Permutation_nil_r in Hp|]. rewrite Forall_forall in Hx, Hy.
  assert (x = y) as <-; [|f_equal; by apply IH, (Permutation_cons_inv Hp)].
  assert (x ∈ y :: k) as [->|Hxk]%elem_of_cons by (rewrite <- Hp; left); [done|].
  assert (y ∈ x :: l) as [->|Hyl]%elem_of_cons by (rewrite Hp; left); [done|].
  exfalso. eapply (string_lt_ne (f x) (f x)); [|done]. etrans; [by apply Hx|by apply Hy].
Qed.
Lemma increasing_unique_iff l k : increasing l -> increasing k -> (forall x, x ∈ l <-> x ∈ k) -> l = k.
Proof.
  intros Hl Hk H. apply increasing_unique; [done..|]. apply NoDup_Permutation; [| |done]; by eapply NoDup_fmap_1, increasing_nodup.
Qed.
(** The search by name on an increasing list. *)
Lemma search_increasing l x i : increasing l ->
  binary_search (fun e => String.compare (f e) x) l = Some i <-> exists e, l !! i = Some e /\ f e = x.
Proof.
  intros Hs. split.
  - intros (e & He & E)%binary_search_Some. apply string_compare_eq in E. by exists e.
  - intros (e & He & E). eapply binary_search_finds; [by apply splits_on; [apply _|]|done|by apply string_compare_eq].
Qed.
End keyed.

(** ** Maps in key order *)

(** [BTreeMap::iter] *)
Definition btree_entries {A} (m : gmap string A) : list (string * A) :=
  sort_by (cmp_on fst String.compare) (map_to_list m).
(** [BTreeMap::values] *)
Definition btree_values {A} (m : gmap string A) : list A := snd <$> btree_entries m.
Lemma elem_of_btree_entries {A} (m : gmap string A) k v : (k, v) ∈ btree_entries m <-> m !! k = Some v.
Proof. unfold btree_entries. rewrite <- elem_of_map_to_list. apply (elem_of_sort_by (cmp_on fst String.compare)). Qed.
Lemma btree_entries_increasing {A} (m : gmap string A) : increasing fst (btree_entries m).
Proof.
  apply sorted_increasing; [apply sort_by_sorted, _|]. unfold btree_entries. rewrite sort_by_perm. apply NoDup_fst_map_to_list.
Qed.
Lemma elem_of_btree_values {A} (m : gmap string A) v : v ∈ btree_values m <-> exists p, m !! p = Some v.
Proof.
  unfold btree_values. rewrite list_elem_of_fmap. split.
  - intros ([p w] & -> & Hin%elem_of_btree_entries). by exists p.
  - intros [p Hp]. exists (p, v). by rewrite elem_of_btree_entries.
Qed.
