(* ===== verification/Includes.v ===== *)
(** * Resolving include targets (includes.rs)

    The text of a directive is normalised to a form and a path; the exact tiers of that
    form are tried in order, then the weak suffix tier. [contains] may keep a state of
    its own (a request's view probes external files), so it is threaded through. *)

From S2P Require Import Prelude Searching CallModel Relations Reachability.

Inductive IncludeForm : Type := FormQuote | FormAngle.
#[export] Instance IncludeForm_eq_dec : EqDecision IncludeForm.
Proof. solve_decision. Defined.
Inductive IncludeResolution : Type :=
  | ResolvedEdge (dst : string) (kind : ResolutionKind)
  | ResolvedAmbiguous (dsts : list string)
  | Unresolved.
Record SuffixCandidateLookup : Type := mkLookup { candidates : list string; inspected : N; truncated : bool }.

(** ** Text *)

(** [replace('\\', "/")] *)
Definition slashes (s : list N) : list N := (fun b => if (b =? 92)%N then 47%N else b) <$> s.
Definition normalize_include_target (text : string) : option (IncludeForm * string) :=
  let bytes := bytes_of text in
  open ← position (fun b => (b =? 34) || (b =? 60))%N bytes;
  open_ch ← bytes !! open;
  let '(form, close_ch) := if (open_ch =? 34)%N then (FormQuote, 34%N) else (FormAngle, 62%N) in
  let after := drop (S open) bytes in
  close ← position (fun b => (b =? close_ch)%N) after;
  let path := slashes (trim (take close after)) in
  match path with [] => None | _ => Some (form, of_bytes path) end.
(** [trim_start] *)
Definition trim_start (s : list N) : list N := strip_all strip_whitespace (length s) s.
Definition is_include_line (trimmed : list N) : bool :=
  match strip_prefix [35%N] trimmed with
  | None => false
  | Some rest => match strip_prefix (bytes_of "include") (trim_start rest) with Some _ => true | None => false end
  end.
Definition parse_include_line (line : string) : option (IncludeForm * string) :=
  if negb (is_include_line (trim_start (bytes_of line))) then None else normalize_include_target line.
(** [rsplit_once('/')] *)
Definition is_slash (c : Ascii.ascii) : bool := N.eqb (Ascii.N_of_ascii c) 47.
Fixpoint rsplit_slash (s : string) : option (string * string) :=
  match s with
  | EmptyString => None
  | String.String c rest =>
      match rsplit_slash rest with
      | Some (dir, name) => Some (String.String c dir, name)
      | None => if is_slash c then Some ("", rest) else None
      end
  end.
(** [rsplit('/').next()] *)
Definition last_segment (s : string) : string := match rsplit_slash s with Some (_, name) => name | None => s end.
Definition split_partial (partial : string) : string * string :=
  match rsplit_slash partial with Some (dir, seg) => (dir +:+ "/", seg) | None => ("", partial) end.
(** [trim_end_matches('/')] *)
Fixpoint trim_end_slashes (s : string) : string :=
  match s with
  | EmptyString => ""
  | String.String c rest =>
      match trim_end_slashes rest with
      | EmptyString => if is_slash c then "" else String.String c ""
      | rest => String.String c rest
      end
  end.
(** [str::ends_with] *)
Fixpoint ends_with (suffix s : string) : bool :=
  String.eqb s suffix || match s with EmptyString => false | String.String _ rest => ends_with suffix rest end.

(** ** Resolution *)

(** What a lookup of several candidates returns: the candidates are put in order. *)
Definition sorted_unique (l : list string) : list string := dedup String.eqb (sort_by String.compare l).
Definition suffix_outcome (lookup : SuffixCandidateLookup) : IncludeResolution :=
  let candidates := sorted_unique lookup.(candidates) in
  if lookup.(truncated) then match candidates with [] => Unresolved | _ => ResolvedAmbiguous candidates end
  else match candidates with
       | [] => Unresolved
       | [dst] => ResolvedEdge dst SuffixMatch
       | _ => ResolvedAmbiguous candidates
       end.

Section lookup.
Context {S : Type} (contains : string -> S -> bool * S).
Definition probe (candidate : string) (s : S) : option string * S :=
  let '(found, s) := contains candidate s in (if found then Some candidate else None, s).
Fixpoint external_exact (rel : string) (roots_slash : list string) (s : S) : option string * S :=
  match roots_slash with
  | [] => (None, s)
  | root :: roots =>
      let candidate := trim_end_slashes root +:+ "/" +:+ rel in
      let '(found, s) := contains candidate s in
      if found then (Some candidate, s) else external_exact rel roots s
  end.
Definition relative_exact (rel src_dir : string) (s : S) : option string * S :=
  if String.eqb src_dir "" then (None, s) else probe (src_dir +:+ "/" +:+ rel) s.
Definition workspace_exact (rel : string) (s : S) : option string * S := probe rel s.

Definition resolve_include_with_lookup (target_text src_dir : string) (roots_slash : list string)
    (suffix_candidates : string -> string * string -> SuffixCandidateLookup) (s : S) : IncludeResolution * S :=
  match normalize_include_target target_text with
  | None => (Unresolved, s)
  | Some (form, rel) =>
      let '(exact, s) :=
        match form with
        | FormQuote =>
            match relative_exact rel src_dir s with
            | (Some dst, s) => (Some (ResolvedEdge dst RelativeExact), s)
            | (None, s) =>
                match workspace_exact rel s with
                | (Some dst, s) => (Some (ResolvedEdge dst WorkspaceExact), s)
                | (None, s) =>
                    match external_exact rel roots_slash s with
                    | (Some dst, s) => (Some (ResolvedEdge dst ExternalExact), s)
                    | (None, s) => (None, s)
                    end
                end
            end
        | FormAngle =>
            match external_exact rel roots_slash s with
            | (Some dst, s) => (Some (ResolvedEdge dst ExternalExact), s)
            | (None, s) =>
                match workspace_exact rel s with
                | (Some dst, s) => (Some (ResolvedEdge dst WorkspaceExact), s)
                | (None, s) => (None, s)
                end
            end
        end in
      match exact with
      | Some edge => (edge, s)
      | None => (suffix_outcome (suffix_candidates (last_segment rel) (rel, "/" +:+ rel)), s)
      end
  end.
End lookup.

Definition matches_suffix (suffix : string * string) (candidate : string) : bool :=
  String.eqb candidate suffix.1 || ends_with suffix.2 candidate.
Definition resolve_include (target_text src_dir : string) (roots_slash : list string) (all_paths : gset string)
    (by_basename : gmap string (list string)) : IncludeResolution :=
  (resolve_include_with_lookup (fun candidate (s : unit) => (bool_decide (candidate ∈ all_paths), s)) target_text src_dir roots_slash
     (fun last suffix =>
        let posting := by_basename !! last in
        mkLookup (List.filter (matches_suffix suffix) (default [] posting))
          (N.of_nat (length (default [] posting))) false) ()).1.

(** ** Segments *)

Local Abbreviation slash := (Ascii.Ascii true true true true false true false false).

Lemma rsplit_slash_app p r :
  rsplit_slash (p +:+ String.String slash r) =
  Some (match rsplit_slash r with Some (d, n) => (p +:+ String.String slash d, n) | None => (p, r) end).
Proof.
  induction p as [|c p IH].
  - change ("" +:+ String.String slash r) with (String.String slash r). cbn [rsplit_slash]. by destruct (rsplit_slash r) as [[d n]|].
  - change (String.String c p +:+ String.String slash r) with (String.String c (p +:+ String.String slash r)). cbn [rsplit_slash].
    rewrite IH. by destruct (rsplit_slash r) as [[d n]|].
Qed.
Lemma last_segment_app p r : last_segment (p +:+ String.String slash r) = last_segment r.
Proof. unfold last_segment. rewrite rsplit_slash_app. by destruct (rsplit_slash r) as [[d n]|]. Qed.
Lemma ends_with_iff suffix s : ends_with suffix s = true <-> exists p, s = p +:+ suffix.
Proof.
  induction s as [|c s IH]; cbn [ends_with].
  - rewrite orb_false_r, String.eqb_eq. split; [by exists ""|]. intros [[|c p] H]; [done|]. discriminate H.
  - rewrite orb_true_iff, String.eqb_eq, IH. split.
    + intros [<-|[p ->]]; [by exists ""|by exists (String.String c p)].
    + intros [[|c' p] H]; [by left|]. injection H as -> ->. right. by exists p.
Qed.
(** A path that is [rel] or ends in it has its last segment. *)
Lemma matches_suffix_segment rel p : matches_suffix (rel, "/" +:+ rel) p = true -> last_segment p = last_segment rel.
Proof.
  unfold matches_suffix. cbn [fst snd]. rewrite orb_true_iff, String.eqb_eq, ends_with_iff. intros [->|[q ->]]; [done|].
  apply (last_segment_app q rel).
Qed.

Lemma elem_of_sorted_unique l x : x ∈ sorted_unique l <-> x ∈ l.
Proof.
  unfold sorted_unique. rewrite (elem_of_dedup String.eqb). 2: { intros a b. apply String.eqb_eq. }
  apply (elem_of_sort_by String.compare).
Qed.
Lemma sorted_unique_increasing l : increasing id (sorted_unique l).
Proof.
  apply sorted_increasing.
  - eapply sublist_StronglySorted; [apply dedup_sublist|]. apply (sort_by_sorted String.compare).
  - rewrite list_fmap_id. apply (sort_dedup_nodup String.compare); [intros; apply String.eqb_eq|intros; by apply string_compare_eq].
Qed.
(** A lookup's candidates are the only increasing list of their elements. *)
Lemma sorted_unique_eq l k : increasing id l -> (forall x, x ∈ l <-> x ∈ k) -> sorted_unique k = l.
Proof.
  intros Hl H. apply (increasing_unique_iff id); [apply sorted_unique_increasing|done|]. intros x. by rewrite elem_of_sorted_unique, H.
Qed.

(** ** The tiers as one list *)

Definition tier_candidates (form : IncludeForm) (rel src_dir : string) (roots_slash : list string) : list (string * ResolutionKind) :=
  let relative := if String.eqb src_dir "" then [] else [(src_dir +:+ "/" +:+ rel, RelativeExact)] in
  let workspace := [(rel, WorkspaceExact)] in
  let external := (fun root => (trim_end_slashes root +:+ "/" +:+ rel, ExternalExact)) <$> roots_slash in
  match form with FormQuote => relative ++ workspace ++ external | FormAngle => external ++ workspace end.

Section probing.
Context {S : Type} (contains : string -> S -> bool * S).
(** Candidates are looked up until one is there. *)
Fixpoint probe_first (l : list (string * ResolutionKind)) (s : S) : option (string * ResolutionKind) * S :=
  match l with
  | [] => (None, s)
  | c :: l => let '(found, s) := contains c.1 s in if found then (Some c, s) else probe_first l s
  end.
Lemma probe_first_app l k s :
  probe_first (l ++ k) s = match probe_first l s with (Some c, s) => (Some c, s) | (None, s) => probe_first k s end.
Proof. revert s. induction l as [|c l IH]; intros s; [done|]. cbn [probe_first app]. destruct (contains c.1 s) as [[] s']; [done|apply IH]. Qed.
Lemma external_probes rel roots s : external_exact contains rel roots s =
  (fst <$> (probe_first ((fun root => (trim_end_slashes root +:+ "/" +:+ rel, ExternalExact)) <$> roots) s).1,
   (probe_first ((fun root => (trim_end_slashes root +:+ "/" +:+ rel, ExternalExact)) <$> roots) s).2).
Proof.
  revert s. induction roots as [|root roots IH]; intros s; [done|]. rewrite fmap_cons. cbn [external_exact probe_first fst].
  destruct (contains _ s) as [[] s']; [done|apply IH].
Qed.
Lemma probe_first_kind kind names s c s' :
  probe_first ((fun name => (name, kind)) <$> names) s = (Some c, s') -> c.2 = kind.
Proof.
  revert s. induction names as [|n names IH]; intros s; [done|]. rewrite fmap_cons. cbn [probe_first fst].
  destruct (contains n s) as [[] s1]; [by intros [= <- _]|apply IH].
Qed.
(** The search is one pass over the candidates of the form. *)
Lemma resolve_probes target_text src_dir roots_slash suffix_candidates s :
  resolve_include_with_lookup contains target_text src_dir roots_slash suffix_candidates s =
  match normalize_include_target target_text with
  | None => (Unresolved, s)
  | Some (form, rel) =>
      let '(hit, s) := probe_first (tier_candidates form rel src_dir roots_slash) s in
      (match hit with
       | Some (dst, kind) => ResolvedEdge dst kind
       | None => suffix_outcome (suffix_candidates (last_segment rel) (rel, "/" +:+ rel))
       end, s)
  end.
Proof.
  unfold resolve_include_with_lookup. destruct (normalize_include_target target_text) as [[form rel]|]; [|done].
  set (external := (fun root => (trim_end_slashes root +:+ "/" +:+ rel, ExternalExact)) <$> roots_slash).
  assert (forall s c s', probe_first external s = (Some c, s') -> c.2 = ExternalExact) as Hk.
  { intros s1 c s2. unfold external. change (fun root => (trim_end_slashes root +:+ "/" +:+ rel, ExternalExact))
      with ((fun name => (name, ExternalExact)) ∘ (fun root => trim_end_slashes root +:+ "/" +:+ rel)).
    rewrite list_fmap_compose. apply probe_first_kind. }
  assert (forall s, external_exact contains rel roots_slash s = (fst <$> (probe_first external s).1, (probe_first external s).2)) as He
    by (intros; apply external_probes).
  unfold tier_candidates. fold external. destruct form.
  - rewrite probe_first_app. unfold relative_exact, workspace_exact, probe.
    assert (forall s, match match contains rel s with (found, s) => (if found then Some rel else None, s) end with
       | (Some dst, s) => (Some (ResolvedEdge dst WorkspaceExact), s)
       | (None, s) => match external_exact contains rel roots_slash s with
                      | (Some dst, s) => (Some (ResolvedEdge dst ExternalExact), s) | (None, s) => (None, s) end
       end = (match (probe_first ([(rel, WorkspaceExact)] ++ external) s).1 with Some (d, k) => Some (ResolvedEdge d k) | None => None end,
              (probe_first ([(rel, WorkspaceExact)] ++ external) s).2)) as Hw.
    { intros s1. cbn [app probe_first fst]. destruct (contains rel s1) as [[] s2]; [done|]. rewrite He.
      pose proof (Hk s2) as Hk2. destruct (probe_first external s2) as [[[d k]|] s3]; [|done]. cbn.
      by rewrite <- (Hk2 _ _ eq_refl). }
    destruct (String.eqb src_dir ""); cbn [probe_first fst].
    + rewrite Hw. by destruct (probe_first ([(rel, WorkspaceExact)] ++ external) s) as [[[d k]|] s1].
    + destruct (contains (src_dir +:+ "/" +:+ rel) s) as [[] s1]; [done|]. rewrite Hw.
      by destruct (probe_first ([(rel, WorkspaceExact)] ++ external) s1) as [[[d k]|] s2].
  - rewrite probe_first_app, He. pose proof (Hk s) as Hk1. destruct (probe_first external s) as [[[d k]|] s1].
    + cbn. by rewrite <- (Hk1 _ _ eq_refl).
    + cbn. unfold workspace_exact, probe. by destruct (contains rel s1) as [[] s2].
Qed.
(** A membership test that keeps no state. *)
Lemma probe_first_pure (P : string -> bool) l s : (forall c s, contains c s = (P c, s)) ->
  probe_first l s = (List.find (fun c => P c.1) l, s).
Proof. intros H. revert s. induction l as [|c l IH]; intros s; [done|]. cbn [probe_first List.find]. rewrite H. by destruct (P c.1). Qed.
End probing.

(** ** The suffix tier *)

(** A complete lookup decides by the number of matching paths. *)
Lemma suffix_outcome_exact l found n : increasing id l -> (forall x, x ∈ l <-> x ∈ found) ->
  suffix_outcome (mkLookup found n false) =
  match l with [] => Unresolved | [dst] => ResolvedEdge dst SuffixMatch | _ => ResolvedAmbiguous l end.
Proof. intros Hl H. unfold suffix_outcome. cbn [candidates truncated]. by rewrite (sorted_unique_eq l). Qed.
(** A cut lookup never proves a target. *)
Lemma suffix_outcome_cut found n dst kind : suffix_outcome (mkLookup found n true) <> ResolvedEdge dst kind.
Proof. unfold suffix_outcome. cbn [candidates truncated]. by destruct (sorted_unique found). Qed.
