(* ===== verification/IncludeEdges.v ===== *)
(** * The include edges the indexer writes (indexer/include_edges.rs)

    Every include of the sources in scope is resolved against the indexed files; edges are
    collapsed by their end points and what is left open is counted. The rows of the
    store are arguments. A map whose iteration order the store does not depend on is read
    in the order of [map_to_list]. *)

From S2P Require Import Prelude Searching CallModel Relations Reachability Includes.

(** [(id, path, source)] of an indexed file *)
Abbreviation FileRow := (Z * string * string)%type (only parsing).
Record IncludeGraphUpdate : Type := mkGraphUpdate {
  source_ids : list Z;
  update_edges : list (Z * Z * string);
  unresolved : list (Z * Z);
  ambiguous : list (Z * Z);
  clear_all : bool;
}.

Definition id_of_path (files : list FileRow) : gmap string Z := foldl (fun m f => <[f.1.2 := f.1.1]> m) ∅ files.
Definition path_of_id (files : list FileRow) : gmap Z string := foldl (fun m f => <[f.1.1 := f.1.2]> m) ∅ files.
Definition all_paths (files : list FileRow) : gset string := list_to_set ((fun f => f.1.2) <$> files).
Definition by_basename (files : list FileRow) : gmap string (list string) :=
  foldl (fun m f => if String.eqb f.2 "workspace" then push_map m (last_segment f.1.2) f.1.2 else m) ∅ files.
(** The directory of a file, [""] at the top. *)
Definition dir_of (path : string) : string := match rsplit_slash path with Some (dir, _) => dir | None => "" end.

Definition src_ids (files : list FileRow) (only : option (list string)) : option (list Z) :=
  match only with
  | Some paths => Some (omap (fun path : string => id_of_path files !! path) paths)
  | None => None
  end.
(** [by_src.entry(id).or_default()] *)
Definition seed (m : gmap Z (list string)) (id : Z) : gmap Z (list string) := <[id := default [] (m !! id)]> m.
Definition by_src (files : list FileRow) (only : option (list string)) (includes : list (Z * string)) : gmap Z (list string) :=
  foldl (fun m row => push_map m row.1 row.2)
    (foldl seed ∅ (match src_ids files only with Some ids => ids | None => (fun f => f.1.1) <$> files end)) includes.

Abbreviation EdgeMap := (gmap (Z * Z) ResolutionKind) (only parsing).
Definition retain_strongest_edge (edges : EdgeMap) (source target : Z) (candidate : ResolutionKind) : EdgeMap :=
  match edges !! (source, target) with
  | Some current =>
      if bool_decide (current = SuffixMatch) && negb (bool_decide (candidate = SuffixMatch))
      then <[(source, target) := candidate]> edges else edges
  | None => <[(source, target) := candidate]> edges
  end.

Section edges.
Context (files : list FileRow) (roots_slash : list string).

Definition record_edge (src_id : Z) (edges : EdgeMap) (dst : string) (kind : ResolutionKind) : EdgeMap :=
  match id_of_path files !! dst with
  | Some dst_id => if bool_decide (dst_id = src_id) then edges else retain_strongest_edge edges src_id dst_id kind
  | None => edges
  end.
Definition source_dir (src_id : Z) : string := default "" (dir_of <$> path_of_id files !! src_id).
Definition resolve_target (src_dir target : string) : IncludeResolution :=
  resolve_include target src_dir roots_slash (all_paths files) (by_basename files).
(** One target of a source, on its edges, unresolved and ambiguous counts. *)
Definition resolve_step (src_id : Z) (src_dir : string) (acc : EdgeMap * Z * Z) (target : string) : EdgeMap * Z * Z :=
  let '(edges, unresolved_count, ambiguous_count) := acc in
  match resolve_target src_dir target with
  | ResolvedEdge dst kind => (record_edge src_id edges dst kind, unresolved_count, ambiguous_count)
  | ResolvedAmbiguous dsts =>
      (foldl (fun edges dst => record_edge src_id edges dst SuffixMatch) edges dsts, unresolved_count, (ambiguous_count + 1)%Z)
  | Unresolved => (edges, (unresolved_count + 1)%Z, ambiguous_count)
  end.
Definition resolve_source (acc : EdgeMap * list (Z * Z) * list (Z * Z)) (entry : Z * list string) :
    EdgeMap * list (Z * Z) * list (Z * Z) :=
  let '(edges, unresolved, ambiguous) := acc in
  let '(src_id, targets) := entry in
  let '(edges, unresolved_count, ambiguous_count) := foldl (resolve_step src_id (source_dir src_id)) (edges, 0%Z, 0%Z) targets in
  (edges,
   if (0 <? unresolved_count)%Z then unresolved ++ [(src_id, unresolved_count)] else unresolved,
   if (0 <? ambiguous_count)%Z then ambiguous ++ [(src_id, ambiguous_count)] else ambiguous).
Definition edge_row_cmp : Z * Z * string -> Z * Z * string -> comparison :=
  cmp_lex (cmp_on (fun e => e.1.1) Z.compare) (cmp_lex (cmp_on (fun e => e.1.2) Z.compare) (cmp_on snd String.compare)).
Definition build_include_edges (only : option (list string)) (includes : list (Z * string)) : IncludeGraphUpdate :=
  let sources := by_src files only includes in
  let '(edges, unresolved, ambiguous) := foldl resolve_source (∅, [], []) (map_to_list sources) in
  let rows := (fun e : Z * Z * ResolutionKind => (e.1.1, e.1.2, ResolutionKind_as_str e.2)) <$> map_to_list edges in
  mkGraphUpdate (fst <$> map_to_list sources) (sort_by edge_row_cmp rows) unresolved ambiguous
    (match only with None => true | Some _ => false end).
End edges.

(** ** The tables *)

Lemma push_map_named {A} (m : gmap string (list A)) k v k' :
  default [] (push_map m k v !! k') = default [] (m !! k') ++ (if String.eqb k k' then [v] else []).
Proof.
  rewrite push_map_lookup. destruct (String.eqb_spec k k') as [->|H]; [by rewrite decide_True|].
  by rewrite decide_False, app_nil_r.
Qed.
Lemma elem_of_by_basename files name path :
  path ∈ default [] (by_basename files !! name) <-> exists id, (id, path, "workspace") ∈ files /\ last_segment path = name.
Proof.
  unfold by_basename. induction files as [|[[id p] src] files IH] using rev_ind.
  { split; [by intros ?%elem_of_nil|]. by intros (? & ?%elem_of_nil & _). }
  rewrite foldl_app. cbn [foldl fst snd]. destruct (String.eqb_spec src "workspace") as [->|Hs].
  - rewrite push_map_named, elem_of_app, IH. split.
    + intros [(i & Hin & E)|Hin]; [exists i; split; [apply elem_of_app; by left|done]|].
      destruct (String.eqb_spec (last_segment p) name) as [E|]; [|by apply elem_of_nil in Hin].
      apply list_elem_of_singleton in Hin as ->. exists id. split; [apply elem_of_app; right; by left|done].
    + intros (i & [Hin|[= -> ->]%list_elem_of_singleton]%elem_of_app & E); [left; by exists i|right].
      rewrite (proj2 (String.eqb_eq _ _) E). by left.
  - rewrite IH. split; intros (i & Hin & E); exists i; (split; [|done]).
    + apply elem_of_app. by left.
    + apply elem_of_app in Hin as [?|[= _ _ E']%list_elem_of_singleton]; [done|]. by destruct Hs.
Qed.
Lemma elem_of_all_paths files path : path ∈ all_paths files <-> exists id src, (id, path, src) ∈ files.
Proof.
  unfold all_paths. rewrite elem_of_list_to_set, list_elem_of_fmap. split.
  - intros ([[id p] src] & -> & H). by exists id, src.
  - intros (id & src & H). by exists (id, path, src).
Qed.

(** ** Resolution against the indexed files *)

(** The workspace files an include of [rel] may mean when no exact tier has it. *)
Definition suffix_files (files : list FileRow) (rel : string) : list string :=
  sorted_unique (List.filter (matches_suffix (rel, "/" +:+ rel)) ((fun f => f.1.2) <$> List.filter (fun f : FileRow => String.eqb f.2 "workspace") files)).
Lemma elem_of_suffix_files files rel path :
  path ∈ suffix_files files rel <-> matches_suffix (rel, "/" +:+ rel) path = true /\ exists id, (id, path, "workspace") ∈ files.
Proof.
  unfold suffix_files. rewrite elem_of_sorted_unique, elem_of_filter_bool, list_elem_of_fmap. split.
  - intros [([[id p] src] & -> & [Hin E%String.eqb_eq]%elem_of_filter_bool) Hm]. cbn in E. subst src. split; [done|]. by exists id.
  - intros [Hm [id Hin]]. split; [|done]. exists (id, path, "workspace"). split; [done|]. by apply elem_of_filter_bool.
Qed.
(** What the indexer decides for an include: the first of the form's exact candidates that
    is an indexed file; when none is, the only workspace file that is the path or ends in
    it, all of them if there are several, else nothing. The map from base names is an
    optimisation that loses no file. *)
Theorem index_resolution_exact files target_text src_dir roots_slash :
  resolve_include target_text src_dir roots_slash (all_paths files) (by_basename files) =
  match normalize_include_target target_text with
  | None => Unresolved
  | Some (form, rel) =>
      match List.find (fun c => bool_decide (c.1 ∈ all_paths files)) (tier_candidates form rel src_dir roots_slash) with
      | Some (dst, kind) => ResolvedEdge dst kind
      | None =>
          match suffix_files files rel with
          | [] => Unresolved
          | [dst] => ResolvedEdge dst SuffixMatch
          | _ => ResolvedAmbiguous (suffix_files files rel)
          end
      end
  end.
Proof.
  unfold resolve_include. rewrite resolve_probes. destruct (normalize_include_target target_text) as [[form rel]|]; [|done].
  rewrite (probe_first_pure _ (fun c => bool_decide (c ∈ all_paths files))) by done.
  destruct (List.find _ _) as [[dst kind]|]; [done|]. cbn [fst snd].
  apply suffix_outcome_exact; [apply sorted_unique_increasing|]. intros x.
  rewrite elem_of_suffix_files, elem_of_filter_bool, elem_of_by_basename. split.
  - intros [Hm [id Hin]]. split; [|done]. exists id. split; [done|]. by apply matches_suffix_segment.
  - intros [(id & Hin & _) Hm]. split; [done|]. by exists id.
Qed.

(** ** What the pass records *)

(** The edges one resolution stands for. *)
Definition resolved_edges (r : IncludeResolution) : list (string * ResolutionKind) :=
  match r with
  | ResolvedEdge dst kind => [(dst, kind)]
  | ResolvedAmbiguous dsts => (fun dst => (dst, SuffixMatch)) <$> dsts
  | Unresolved => []
  end.
(** Among the kinds seen for one pair of files the first strong one counts, else the weak. *)
Definition strongest (kinds : list ResolutionKind) : option ResolutionKind :=
  match List.find (fun k => negb (bool_decide (k = SuffixMatch))) kinds with Some k => Some k | None => head kinds end.
Lemma find_snoc {A} (f : A -> bool) l x :
  List.find f (l ++ [x]) = match List.find f l with Some y => Some y | None => if f x then Some x else None end.
Proof. induction l as [|y l IH]; [done|]. cbn [app List.find]. by destruct (f y). Qed.
Lemma strongest_snoc kinds k : strongest (kinds ++ [k]) =
  match strongest kinds with
  | None => Some k
  | Some c => if bool_decide (c = SuffixMatch) && negb (bool_decide (k = SuffixMatch)) then Some k else Some c
  end.
Proof.
  unfold strongest. rewrite find_snoc. destruct (List.find _ kinds) as [x|] eqn:E.
  - apply List.find_some in E as [_ E]. by destruct x.
  - destruct kinds as [|c kinds]; cbn [head app]; [by destruct k|].
    pose proof (List.find_none _ _ E c ltac:(by left)) as Hc. by destruct c, k.
Qed.

Section pass.
Context (files : list FileRow) (roots_slash : list string).

Definition found_edges (src_id : Z) (targets : list string) : list (string * ResolutionKind) :=
  concat ((fun t => resolved_edges (resolve_target files roots_slash (source_dir files src_id) t)) <$> targets).
Definition leads_to (dst_id : Z) (e : string * ResolutionKind) : bool := bool_decide (id_of_path files !! e.1 = Some dst_id).
(** The kinds of the includes of a source that lead to a file, in order. *)
Definition kinds_between (src_id dst_id : Z) (targets : list string) : list ResolutionKind :=
  snd <$> List.filter (leads_to dst_id) (found_edges src_id targets).
Definition is_unresolved (r : IncludeResolution) : bool := match r with Unresolved => true | _ => false end.
Definition is_ambiguous (r : IncludeResolution) : bool := match r with ResolvedAmbiguous _ => true | _ => false end.
Definition count_targets (f : IncludeResolution -> bool) (src_id : Z) (targets : list string) : Z :=
  Z.of_nat (length (List.filter (fun t => f (resolve_target files roots_slash (source_dir files src_id) t)) targets)).

Definition record_edges (src_id : Z) (edges : EdgeMap) (es : list (string * ResolutionKind)) : EdgeMap :=
  foldl (fun edges e => record_edge files src_id edges e.1 e.2) edges es.
Lemma fold_suffix_edges src_id edges dsts :
  foldl (fun edges dst => record_edge files src_id edges dst SuffixMatch) edges dsts =
  record_edges src_id edges ((fun dst => (dst, SuffixMatch)) <$> dsts).
Proof. revert edges. induction dsts as [|d dsts IH]; intros edges; [done|]. apply IH. Qed.
Lemma count_targets_cons f src_id t targets : count_targets f src_id (t :: targets) =
  ((if f (resolve_target files roots_slash (source_dir files src_id) t) then 1 else 0) + count_targets f src_id targets)%Z.
Proof. unfold count_targets. cbn [List.filter]. destruct (f _); cbn [length]; lia. Qed.
Lemma fold_resolve_step src_id targets edges u a :
  foldl (resolve_step files roots_slash src_id (source_dir files src_id)) (edges, u, a) targets =
  (record_edges src_id edges (found_edges src_id targets), (u + count_targets is_unresolved src_id targets)%Z,
   (a + count_targets is_ambiguous src_id targets)%Z).
Proof.
  revert edges u a. induction targets as [|t targets IH]; intros edges u a.
  { cbn. by rewrite !Z.add_0_r. }
  cbn [foldl]. rewrite !count_targets_cons. unfold found_edges. rewrite fmap_cons. cbn [concat]. unfold record_edges at 1. rewrite foldl_app.
  unfold resolve_step at 2. destruct (resolve_target files roots_slash (source_dir files src_id) t) as [dst kind|dsts|];
    rewrite ?fold_suffix_edges, IH; cbn [is_unresolved is_ambiguous resolved_edges foldl]; (apply (f_equal2 pair); [apply (f_equal2 pair); [done|lia]|lia]).
Qed.
Lemma record_edge_other src_id edges dst kind s d : s <> src_id -> record_edge files src_id edges dst kind !! (s, d) = edges !! (s, d).
Proof.
  intros Hs. unfold record_edge. destruct (id_of_path files !! dst) as [dst_id|]; [|done]. case_bool_decide; [done|].
  unfold retain_strongest_edge. destruct (edges !! (src_id, dst_id)); [case_match; [|done]|]; apply lookup_insert_ne; congruence.
Qed.
Lemma record_edge_same src_id edges dst kind d : src_id <> d -> record_edge files src_id edges dst kind !! (src_id, d) =
  if leads_to d (dst, kind) then
    match edges !! (src_id, d) with
    | None => Some kind
    | Some c => if bool_decide (c = SuffixMatch) && negb (bool_decide (kind = SuffixMatch)) then Some kind else Some c
    end
  else edges !! (src_id, d).
Proof.
  intros Hd. unfold record_edge, leads_to. cbn [fst]. destruct (id_of_path files !! dst) as [dst_id|]; [|done].
  destruct (decide (dst_id = d)) as [->|Hne].
  - rewrite (bool_decide_eq_true_2 (Some d = Some d)), bool_decide_eq_false_2 by congruence. unfold retain_strongest_edge.
    destruct (edges !! (src_id, d)) eqn:E; [case_match; [|done]|]; apply lookup_insert_eq.
  - rewrite (bool_decide_eq_false_2 (Some dst_id = Some d)) by congruence. case_bool_decide; [done|]. unfold retain_strongest_edge.
    destruct (edges !! (src_id, dst_id)); [case_match; [|done]|]; apply lookup_insert_ne; congruence.
Qed.
Lemma record_edge_self src_id edges dst kind : record_edge files src_id edges dst kind !! (src_id, src_id) = edges !! (src_id, src_id).
Proof.
  unfold record_edge. destruct (id_of_path files !! dst) as [dst_id|]; [|done]. case_bool_decide; [done|].
  unfold retain_strongest_edge. destruct (edges !! (src_id, dst_id)); [case_match; [|done]|]; apply lookup_insert_ne; congruence.
Qed.
Lemma record_edges_other src_id edges es s d : s <> src_id -> record_edges src_id edges es !! (s, d) = edges !! (s, d).
Proof. intros Hs. unfold record_edges. revert edges. induction es as [|e es IH]; intros edges; [done|]. cbn [foldl]. by rewrite IH, record_edge_other. Qed.
Lemma record_edges_same src_id edges es d : edges !! (src_id, d) = None -> record_edges src_id edges es !! (src_id, d) =
  if bool_decide (src_id = d) then None else strongest (snd <$> List.filter (leads_to d) es).
Proof.
  intros Hn. unfold record_edges. induction es as [|e es IH] using rev_ind; [by case_bool_decide|].
  rewrite foldl_app, List.filter_app, fmap_app. cbn [foldl List.filter]. case_bool_decide as Hd.
  - subst d. by rewrite record_edge_self.
  - destruct e as [dst kind]. cbn [fst snd]. rewrite record_edge_same, IH by done. destruct (leads_to d (dst, kind)); [|by rewrite app_nil_r].
    cbn [fmap list_fmap snd]. by rewrite strongest_snoc.
Qed.

Record recorded (l : list (Z * list string)) (edges : EdgeMap) (unresolved ambiguous : list (Z * Z)) : Prop := {
  rc_edges s d : edges !! (s, d) = match (list_to_map l : gmap Z (list string)) !! s with
                                   | Some targets => if bool_decide (s = d) then None else strongest (kinds_between s d targets)
                                   | None => None
                                   end;
  rc_unresolved s n : (s, n) ∈ unresolved <-> exists targets, (s, targets) ∈ l /\ n = count_targets is_unresolved s targets /\ (0 < n)%Z;
  rc_ambiguous s n : (s, n) ∈ ambiguous <-> exists targets, (s, targets) ∈ l /\ n = count_targets is_ambiguous s targets /\ (0 < n)%Z;
}.
Lemma counted_snoc f (l : list (Z * list string)) src_id targets (rows : list (Z * Z)) :
  (forall s n, (s, n) ∈ rows <-> exists ts, (s, ts) ∈ l /\ n = count_targets f s ts /\ (0 < n)%Z) ->
  forall s n, (s, n) ∈ (if (0 <? count_targets f src_id targets)%Z then rows ++ [(src_id, count_targets f src_id targets)] else rows) <->
    exists ts, (s, ts) ∈ l ++ [(src_id, targets)] /\ n = count_targets f s ts /\ (0 < n)%Z.
Proof.
  intros H s n. assert ((s, n) ∈ rows ++ (if (0 <? count_targets f src_id targets)%Z then [(src_id, count_targets f src_id targets)] else []) <->
    exists ts, (s, ts) ∈ l ++ [(src_id, targets)] /\ n = count_targets f s ts /\ (0 < n)%Z) as H'.
  { rewrite elem_of_app, H. split.
    - intros [(ts & Hin & E)|Hin]; [exists ts; split; [apply elem_of_app; by left|done]|].
      destruct (Z.ltb_spec 0 (count_targets f src_id targets)); [|by apply elem_of_nil in Hin].
      apply list_elem_of_singleton in Hin as [= -> ->]. exists targets. split; [apply elem_of_app; right; by left|done].
    - intros (ts & [Hin|[= -> ->]%list_elem_of_singleton]%elem_of_app & -> & Hpos); [left; by exists ts|right].
      rewrite (proj2 (Z.ltb_lt _ _)) by done. by left. }
  destruct (0 <? count_targets f src_id targets)%Z; [done|]. by rewrite app_nil_r in H'.
Qed.
Lemma fold_resolve_source l : NoDup l.*1 ->
  exists edges unresolved ambiguous, foldl (resolve_source files roots_slash) (∅, [], []) l = (edges, unresolved, ambiguous) /\
    recorded l edges unresolved ambiguous.
Proof.
  induction l as [|[src_id targets] l IH] using rev_ind; intros Hn.
  { exists ∅, [], []. split; [done|]. split; [done|..]; (intros s n; split; [by intros ?%elem_of_nil|by intros (? & ?%elem_of_nil & _)]). }
  rewrite fmap_app in Hn. apply NoDup_app in Hn as (Hn & Hx & _). destruct (IH Hn) as (edges & u & a & E & [He Hu Ha]).
  assert (src_id ∉ l.*1) as Hnew by (intros Hin; apply (Hx _ Hin); by left).
  rewrite foldl_app, E. cbn [foldl resolve_source]. rewrite fold_resolve_step, !Z.add_0_l.
  eexists _, _, _. split; [done|]. split; [|by apply counted_snoc..].
  intros s d. assert ((list_to_map (l ++ [(src_id, targets)]) : gmap Z (list string)) !! s =
    if decide (s = src_id) then Some targets else (list_to_map l : gmap Z (list string)) !! s) as ->.
  { rewrite list_to_map_app, lookup_union. case_decide as Hs.
    - subst s. rewrite (not_elem_of_list_to_map_1 _ _ Hnew). rewrite list_to_map_cons. cbn [fst snd]. by rewrite lookup_insert_eq.
    - rewrite list_to_map_cons, list_to_map_nil. cbn [fst snd]. rewrite lookup_insert_ne, lookup_empty by done. by rewrite (right_id None _). }
  case_decide as Hs.
  - subst s. apply record_edges_same. by rewrite He, (not_elem_of_list_to_map_1 _ _ Hnew).
  - by rewrite record_edges_other, He.
Qed.
End pass.

(** ** Properties *)

(** The targets of a source, in the order of the rows. *)
Definition targets_of (includes : list (Z * string)) (id : Z) : list string :=
  snd <$> List.filter (fun row : Z * string => bool_decide (row.1 = id)) includes.
(** The sources the pass rewrites. *)
Definition in_scope (files : list FileRow) (only : option (list string)) (includes : list (Z * string)) (id : Z) : Prop :=
  id ∈ (match src_ids files only with Some ids => ids | None => (fun f => f.1.1) <$> files end) \/ id ∈ includes.*1.
Lemma seed_lookup ids id : foldl seed ∅ ids !! id = if bool_decide (id ∈ ids) then Some [] else None.
Proof.
  assert (forall m : gmap Z (list string), (forall i, default [] (m !! i) = []) -> foldl seed m ids !! id = if bool_decide (id ∈ ids) then Some [] else m !! id) as H.
  { induction ids as [|i ids IH]; intros m Hm; [by rewrite bool_decide_eq_false_2 by (by intros ?%elem_of_nil)|]. cbn [foldl].
    assert (forall j, default [] (seed m i !! j) = []) as Hs.
    { intros j. unfold seed. destruct (decide (i = j)) as [->|]; [by rewrite lookup_insert_eq, Hm|by rewrite lookup_insert_ne]. }
    rewrite IH by done. unfold seed. destruct (decide (id = i)) as [->|Hne].
    - rewrite lookup_insert_eq, Hm, (bool_decide_eq_true_2 (i ∈ i :: ids)) by left. by case_bool_decide.
    - rewrite lookup_insert_ne by done. rewrite (bool_decide_ext (id ∈ i :: ids) (id ∈ ids)); [done|]. rewrite elem_of_cons. naive_solver. }
  rewrite H; [by rewrite lookup_empty|]. intros i. by rewrite lookup_empty.
Qed.
Lemma by_src_lookup files only includes id targets :
  by_src files only includes !! id = Some targets <-> in_scope files only includes id /\ targets = targets_of includes id.
Proof.
  unfold by_src, in_scope. set (ids := match src_ids files only with Some _ => _ | None => _ end). clearbody ids.
  revert targets. induction includes as [|[i t] includes IH] using rev_ind; intros targets.
  - cbn [foldl fmap list_fmap targets_of List.filter]. rewrite seed_lookup. case_bool_decide as H.
    + split; [intros [= <-]; by split; [left|]|by intros [_ ->]].
    + split; [done|]. by intros [[|?%elem_of_nil] _].
  - rewrite foldl_app, fmap_app, elem_of_app. unfold targets_of. rewrite List.filter_app, fmap_app. cbn [foldl fst snd List.filter].
    set (m := foldl _ (foldl seed ∅ ids) includes) in *. unfold push_map. destruct (decide (i = id)) as [->|Hne].
    + rewrite lookup_insert_eq, bool_decide_eq_true_2 by done. cbn [fmap list_fmap].
      assert (default [] (m !! id) = targets_of includes id) as E.
      { destruct (m !! id) as [ts|]; cbn [default].
        - by destruct (proj1 (IH ts) eq_refl) as [_ ->].
        - unfold targets_of. destruct (List.filter _ includes) as [|row l] eqn:Ef; [done|]. exfalso.
          assert (row ∈ List.filter (fun row : Z * string => bool_decide (row.1 = id)) includes) as Hin by (rewrite Ef; left).
          apply elem_of_filter_bool in Hin as [Hin Hr%bool_decide_eq_true]. enough (None = Some (targets_of includes id)) by done.
          apply IH. split; [right|done]. apply list_elem_of_fmap. by exists row. }
      rewrite E. split; [|by intros [_ ->]]. intros [= <-]. split; [|done]. right. right. by left.
    + rewrite lookup_insert_ne, bool_decide_eq_false_2, app_nil_r by done. rewrite IH. unfold targets_of.
      split; intros [Hin E]; (split; [|done]); [naive_solver|]. destruct Hin as [|[|?%list_elem_of_singleton]]; naive_solver.
Qed.

(** C17 The rows a pass writes are those the resolution of every include gives: a source in
    scope has one edge to each other indexed file an include of it leads to, of the first
    strong kind when one of them is strong, and its unresolved and ambiguous includes
    are counted. Nothing is written for another source, and there is no edge from a file
    to itself. *)
Theorem include_edges_exact files roots_slash only includes :
  let u := build_include_edges files roots_slash only includes in
  let scope := in_scope files only includes in
  (forall s d k, (s, d, k) ∈ u.(update_edges) <->
     s <> d /\ scope s /\ exists kind, strongest (kinds_between files roots_slash s d (targets_of includes s)) = Some kind /\ k = ResolutionKind_as_str kind) /\
  NoDup (fst <$> u.(update_edges)) /\
  (forall s n, (s, n) ∈ u.(unresolved) <-> scope s /\ n = count_targets files roots_slash is_unresolved s (targets_of includes s) /\ (0 < n)%Z) /\
  (forall s n, (s, n) ∈ u.(ambiguous) <-> scope s /\ n = count_targets files roots_slash is_ambiguous s (targets_of includes s) /\ (0 < n)%Z) /\
  (forall s, s ∈ u.(source_ids) <-> scope s).
Proof.
  intros u scope. unfold u, build_include_edges.
  destruct (fold_resolve_source files roots_slash (map_to_list (by_src files only includes)) (NoDup_fst_map_to_list _)) as (edges & un & am & E & [He Hu Ha]).
  rewrite E. cbn [update_edges unresolved ambiguous source_ids]. rewrite list_to_map_to_list in He.
  assert (forall s targets, (s, targets) ∈ map_to_list (by_src files only includes) <-> scope s /\ targets = targets_of includes s) as Hsrc
    by (intros; rewrite elem_of_map_to_list; apply by_src_lookup).
  split; [|split; [|split; [|split]]].
  - intros s d k. rewrite (elem_of_sort_by edge_row_cmp), list_elem_of_fmap. split.
    + intros ([[s' d'] kind] & [= -> -> ->] & Hin%elem_of_map_to_list). rewrite He in Hin.
      destruct (by_src files only includes !! s') as [targets|] eqn:Es; [|done]. apply by_src_lookup in Es as [Hs ->].
      case_bool_decide; [done|]. split; [done|]. split; [done|]. by exists kind.
    + intros (Hne & Hs & kind & Hk & ->). exists ((s, d), kind). split; [done|]. apply elem_of_map_to_list. rewrite He.
      rewrite (proj2 (by_src_lookup _ _ _ _ _) (conj Hs eq_refl)). by rewrite bool_decide_eq_false_2.
  - rewrite sort_by_perm, <- list_fmap_compose. rewrite (list_fmap_ext _ fst); [apply NoDup_fst_map_to_list|]. by intros ? [[]].
  - intros s n. rewrite Hu. split; [by intros (ts & [Hs ->]%Hsrc & Hn & Hpos)|]. intros (Hs & Hn & Hpos).
    exists (targets_of includes s). by split; [apply Hsrc|].
  - intros s n. rewrite Ha. split; [by intros (ts & [Hs ->]%Hsrc & Hn & Hpos)|]. intros (Hs & Hn & Hpos).
    exists (targets_of includes s). by split; [apply Hsrc|].
  - intros s. rewrite list_elem_of_fmap. split.
    + intros ([s' ts] & -> & [Hs _]%Hsrc). done.
    + intros Hs. exists (s, targets_of includes s). split; [done|]. by apply Hsrc.
Qed.

(** A name with two homes, next to its own header. *)
Definition demo_files : list FileRow :=
  [(1%Z, "src/a/main.c", "workspace"); (2%Z, "src/a/util.h", "workspace"); (3%Z, "vendor/util.h", "workspace");
   (4%Z, "src/b/io.c", "workspace"); (5%Z, "/usr/include/stdio.h", "external")].
Definition quoted (s : string) : string := String.String (Ascii.ascii_of_N 34) (s +:+ String.String (Ascii.ascii_of_N 34) "").
Example demo_edges :
  let u := build_include_edges demo_files ["/usr/include/"] None
    [(1%Z, quoted "util.h"); (1%Z, "<stdio.h>"); (4%Z, quoted "util.h"); (4%Z, "<gone.h>")] in
  (u.(update_edges), u.(unresolved), u.(ambiguous)) =
  ([(1, 2, "relative_exact"); (1, 5, "external_exact"); (4, 2, "suffix_match"); (4, 3, "suffix_match")]%Z, [(4, 1)]%Z, [(4, 1)]%Z).
Proof. vm_compute. reflexivity. Qed.
