(* ===== verification/PathProbe.v ===== *)
(** * The cache of external path probes (candidate_service/include_paths/path_probe.rs)

    Requests never touch the file system: they look a path up in a bounded cache and
    schedule a probe; one worker probes and publishes. The mutex sections, the channel and
    the worker are the steps of a system of all views. The state's hash table is read in
    the order of [map_to_list]; last uses differ until the clock wraps. *)

From stdpp Require Import pretty.
From S2P Require Import Prelude.

Definition EXTERNAL_PATH_PROBE_QUEUE_CAPACITY : nat := 64.
Definition EXTERNAL_PATH_PROBE_CACHE_CAPACITY : nat := 1024.
Definition EXTERNAL_PATH_PROBE_MAX_PATH_BYTES : nat := N.to_nat 4096.
Definition EXTERNAL_PATH_PROBE_PER_VIEW_ENQUEUE_LIMIT : N := 16.
Definition EXTERNAL_PATH_PROBE_OBSERVATION_LIMIT : nat := 64.
(** Instants are nanoseconds. *)
Definition EXTERNAL_PATH_PRESENT_TTL : N := 30000000000.
Definition EXTERNAL_PATH_MISSING_TTL : N := 2000000000.
#[global] Arguments EXTERNAL_PATH_PROBE_CACHE_CAPACITY : simpl never.
#[global] Arguments EXTERNAL_PATH_PROBE_MAX_PATH_BYTES : simpl never.

Inductive ExternalPathProbeStatus : Type :=
  | ProbePending
  | ProbeDeferred
  | ProbeReady (exists_ : bool) (valid_until version : N).
#[export] Instance ExternalPathProbeStatus_eq_dec : EqDecision ExternalPathProbeStatus.
Proof. solve_decision. Defined.
Record ExternalPathProbeEntry : Type := mkProbe { status : ExternalPathProbeStatus; last_used : N }.
Record ExternalPathProbeState : Type := mkProbeState {
  entries : gmap string ExternalPathProbeEntry;
  deferred_paths : list string;
  deferred_set : gset string;
  clock : N;
}.
Definition empty_state : ExternalPathProbeState := mkProbeState ∅ [] ∅ 0.
Inductive ExternalPathProbeLookup : Type :=
  | LookupNotApplicable
  | LookupPending
  | LookupReady (exists_ : bool) (valid_until version : N).
Record ExternalPathProbeObservation : Type := mkObservation { ob_path : string; ob_version : N; ob_valid_until : N }.

Definition is_ready (e : ExternalPathProbeEntry) : bool := match e.(status) with ProbeReady _ _ _ => true | _ => false end.
(** [clock.wrapping_add(1).max(1)] *)
Definition next_clock (c : N) : N := N.max (wrapping_add c 1) 1.
Definition with_probe (path : string) (e : ExternalPathProbeEntry) (s : ExternalPathProbeState) : ExternalPathProbeState :=
  mkProbeState (<[path := e]> s.(entries)) s.(deferred_paths) s.(deferred_set) s.(clock).
Definition without_probe (path : string) (s : ExternalPathProbeState) : ExternalPathProbeState :=
  mkProbeState (delete path s.(entries)) s.(deferred_paths) s.(deferred_set) s.(clock).
(** [if deferred_set.insert(path) { deferred_paths.push_back(path) }] *)
Definition push_deferred (path : string) (s : ExternalPathProbeState) : ExternalPathProbeState :=
  if bool_decide (path ∈ s.(deferred_set)) then s
  else mkProbeState s.(entries) (s.(deferred_paths) ++ [path]) ({[path]} ∪ s.(deferred_set)) s.(clock).
(** [Path::is_absolute] on Unix. *)
Definition path_is_absolute (path : string) : bool :=
  match path with String.String c _ => N.eqb (Ascii.N_of_ascii c) 47 | EmptyString => false end.
Definition probe_applies (candidate : string) : bool :=
  (String.length candidate <=? EXTERNAL_PATH_PROBE_MAX_PATH_BYTES)%nat && path_is_absolute candidate.
Definition evicted (s : ExternalPathProbeState) : option string :=
  fst <$> min_by_key (fun kv => kv.2.(last_used)) (List.filter (fun kv => is_ready kv.2) (map_to_list s.(entries))).

(** The rest of [lookup_or_schedule] for a path without a usable entry: make room, enter the
    path, and say whether it is then sent to the worker. *)
Definition schedule (candidate : string) (last_used attempts : N) (s : ExternalPathProbeState) :
    ExternalPathProbeLookup * ExternalPathProbeState * N * bool :=
  let s := without_probe candidate s in
  let room :=
    if (EXTERNAL_PATH_PROBE_CACHE_CAPACITY <=? size s.(entries))%nat then
      match evicted s with Some path => Some (without_probe path s) | None => None end
    else Some s in
  match room with
  | None => (LookupPending, s, attempts, false)
  | Some s =>
      if (attempts <? EXTERNAL_PATH_PROBE_PER_VIEW_ENQUEUE_LIMIT)%N
      then (LookupPending, with_probe candidate (mkProbe ProbePending last_used) s, (attempts + 1)%N, true)
      else (LookupPending, push_deferred candidate (with_probe candidate (mkProbe ProbeDeferred last_used) s), attempts, false)
  end.
(** The section of [lookup_or_schedule] under the lock: the answer, the state, the view's
    attempts, and whether the path is sent. *)
Definition lookup_locked (candidate : string) (now attempts : N) (s : ExternalPathProbeState) :
    ExternalPathProbeLookup * ExternalPathProbeState * N * bool :=
  let last_used := next_clock s.(clock) in
  let s := mkProbeState s.(entries) s.(deferred_paths) s.(deferred_set) last_used in
  match s.(entries) !! candidate with
  | Some entry =>
      let s := with_probe candidate (mkProbe entry.(status) last_used) s in
      match entry.(status) with
      | ProbePending | ProbeDeferred => (LookupPending, s, attempts, false)
      | ProbeReady exists_ valid_until version =>
          if (now <? valid_until)%N then (LookupReady exists_ valid_until version, s, attempts, false)
          else schedule candidate last_used attempts s
      end
  | None => schedule candidate last_used attempts s
  end.
(** [Full] or [Disconnected]: the section after the failed [try_send]. *)
Definition defer_unsent (path : string) (s : ExternalPathProbeState) : ExternalPathProbeState :=
  match s.(entries) !! path with
  | Some entry =>
      match entry.(status) with
      | ProbePending => push_deferred path (with_probe path (mkProbe ProbeDeferred entry.(last_used)) s)
      | _ => s
      end
  | None => s
  end.
Definition is_current (now : N) (s : ExternalPathProbeState) (observation : ExternalPathProbeObservation) : bool :=
  (now <? observation.(ob_valid_until))%N
  && match s.(entries) !! observation.(ob_path) with
     | Some (mkProbe (ProbeReady _ valid_until version) _) => (now <? valid_until)%N && (version =? observation.(ob_version))%N
     | _ => false
     end.
Definition observations_are_current (observations : list ExternalPathProbeObservation) (now : N) (s : ExternalPathProbeState) : bool :=
  forallb (is_current now s) observations.

(** The worker's section: publish a probe, then take the first deferred path. *)
Fixpoint take_deferred (paths : list string) (s : ExternalPathProbeState) : option string * ExternalPathProbeState :=
  match paths with
  | [] => (None, mkProbeState s.(entries) [] s.(deferred_set) s.(clock))
  | candidate :: paths =>
      let s := mkProbeState s.(entries) paths (s.(deferred_set) ∖ {[candidate]}) s.(clock) in
      match s.(entries) !! candidate with
      | Some (mkProbe ProbeDeferred used) => (Some candidate, with_probe candidate (mkProbe ProbePending used) s)
      | _ => take_deferred paths s
      end
  end.
Definition publish (path : string) (exists_ : bool) (valid_until : N) (s : ExternalPathProbeState) :
    option string * ExternalPathProbeState :=
  let last_used := next_clock s.(clock) in
  let s := mkProbeState s.(entries) s.(deferred_paths) s.(deferred_set) last_used in
  let s := match s.(entries) !! path with
           | Some _ => with_probe path (mkProbe (ProbeReady exists_ valid_until last_used) last_used) s
           | None => s
           end in
  take_deferred s.(deferred_paths) s.

(** ** The system *)

(** Where the worker is: its thread could not be started; blocked in [recv] or about to be;
    holding a path; having probed it. *)
Inductive Worker : Type :=
  | WorkerGone
  | WorkerWaiting
  | WorkerHas (path : string)
  | WorkerProbed (path : string) (exists_ : bool) (valid_until : N).
Record ProbeSystem : Type := mkSystem {
  cache : ExternalPathProbeState;
  channel : list string;
  unsent : list string;      (* between the lock and [try_send] *)
  worker : Worker;
  views : list N;            (* the attempts of each view *)
  now : N;
}.
Inductive ProbeEvent : Type :=
  | NewView
  | Lookup (view : nat) (candidate : string)
  | TrySend (i : nat)
  | Receive
  | ProbePath (exists_ : bool)
  | Publish
  | Tick (dt : N).
Definition next_worker (deferred : option string) : Worker := match deferred with Some path => WorkerHas path | None => WorkerWaiting end.
(** [None]: the event cannot happen. A path the view does not probe takes no lock. *)
Definition probe_step (e : ProbeEvent) (s : ProbeSystem) : option ProbeSystem :=
  match e with
  | NewView => Some (mkSystem s.(cache) s.(channel) s.(unsent) s.(worker) (s.(views) ++ [0%N]) s.(now))
  | Lookup view candidate =>
      attempts ← s.(views) !! view;
      if negb (probe_applies candidate) then Some s
      else
        let '(_, c, attempts, send) := lookup_locked candidate s.(now) attempts s.(cache) in
        Some (mkSystem c s.(channel) (if send then s.(unsent) ++ [candidate] else s.(unsent)) s.(worker)
                (<[view := attempts]> s.(views)) s.(now))
  | TrySend i =>
      '(path, unsent) ← remove_at i s.(unsent);
      match s.(worker) with
      | WorkerGone => Some (mkSystem (defer_unsent path s.(cache)) s.(channel) unsent s.(worker) s.(views) s.(now))
      | _ =>
          if (length s.(channel) <? EXTERNAL_PATH_PROBE_QUEUE_CAPACITY)%nat
          then Some (mkSystem s.(cache) (s.(channel) ++ [path]) unsent s.(worker) s.(views) s.(now))
          else Some (mkSystem (defer_unsent path s.(cache)) s.(channel) unsent s.(worker) s.(views) s.(now))
      end
  | Receive =>
      match s.(worker), s.(channel) with
      | WorkerWaiting, path :: channel => Some (mkSystem s.(cache) channel s.(unsent) (WorkerHas path) s.(views) s.(now))
      | _, _ => None
      end
  | ProbePath exists_ =>
      match s.(worker) with
      | WorkerHas path =>
          let valid_until := (s.(now) + (if exists_ then EXTERNAL_PATH_PRESENT_TTL else EXTERNAL_PATH_MISSING_TTL))%N in
          Some (mkSystem s.(cache) s.(channel) s.(unsent) (WorkerProbed path exists_ valid_until) s.(views) s.(now))
      | _ => None
      end
  | Publish =>
      match s.(worker) with
      | WorkerProbed path exists_ valid_until =>
          let '(deferred, c) := publish path exists_ valid_until s.(cache) in
          Some (mkSystem c s.(channel) s.(unsent) (next_worker deferred) s.(views) s.(now))
      | _ => None
      end
  | Tick dt => Some (mkSystem s.(cache) s.(channel) s.(unsent) s.(worker) s.(views) (s.(now) + dt))
  end.
(** The cache when it is created; the thread may have failed to start. *)
Definition new_system (started : bool) : ProbeSystem :=
  mkSystem empty_state [] [] (if started then WorkerWaiting else WorkerGone) [] 0.
Fixpoint probe_run (events : list ProbeEvent) (s : ProbeSystem) : option ProbeSystem :=
  match events with [] => Some s | e :: events => s ← probe_step e s; probe_run events s end.

(** ** What is true of every reachable state *)

Definition status_at (c : ExternalPathProbeState) (path : string) : option ExternalPathProbeStatus := status <$> c.(entries) !! path.
Definition hand (w : Worker) : list string := match w with WorkerHas path | WorkerProbed path _ _ => [path] | _ => [] end.
(** The paths on their way to a probe. *)
Definition on_the_way (s : ProbeSystem) : list string := s.(unsent) ++ s.(channel) ++ hand s.(worker).
Record cache_ok (way : list string) (c : ExternalPathProbeState) : Prop := {
  co_size : (size c.(entries) <= EXTERNAL_PATH_PROBE_CACHE_CAPACITY)%nat;
  co_queue : NoDup c.(deferred_paths);
  co_set p : p ∈ c.(deferred_set) <-> p ∈ c.(deferred_paths);
  co_deferred p : p ∈ c.(deferred_paths) <-> status_at c p = Some ProbeDeferred;
  co_way : NoDup way;
  co_pending p : p ∈ way <-> status_at c p = Some ProbePending;
}.
Record system_ok (s : ProbeSystem) : Prop := {
  so_cache : cache_ok (on_the_way s) s.(cache);
  so_channel : (length s.(channel) <= EXTERNAL_PATH_PROBE_QUEUE_CAPACITY)%nat;
}.

Lemma cache_ok_perm way way' c : way ≡ₚ way' -> cache_ok way c -> cache_ok way' c.
Proof. intros Hp []. split; [done..|by rewrite <- Hp|]. intros p. by rewrite <- Hp. Qed.
Lemma with_probe_status p e c q : status_at (with_probe p e c) q = if decide (p = q) then Some e.(status) else status_at c q.
Proof. unfold status_at, with_probe. cbn [entries]. by case_decide as E; [subst q; rewrite lookup_insert_eq|rewrite lookup_insert_ne]. Qed.
Lemma without_probe_status p c q : status_at (without_probe p c) q = if decide (p = q) then None else status_at c q.
Proof. unfold status_at, without_probe. cbn [entries]. by case_decide as E; [subst q; rewrite lookup_delete_eq|rewrite lookup_delete_ne]. Qed.
Lemma tick_ok way c n : cache_ok way c -> cache_ok way (mkProbeState c.(entries) c.(deferred_paths) c.(deferred_set) n).
Proof. intros []. by split. Qed.
(** A path already there gets a new entry of the same status. *)
Lemma touch_probe_ok way c p e n : cache_ok way c -> c.(entries) !! p = Some e -> cache_ok way (with_probe p (mkProbe e.(status) n) c).
Proof.
  intros [Hs Hq Hset Hd Hw Hp] He.
  assert (forall q, status_at (with_probe p (mkProbe e.(status) n) c) q = status_at c q) as E.
  { intros q. rewrite with_probe_status. case_decide as Hpq; [|done]. subst q. unfold status_at. by rewrite He. }
  split; cbn [with_probe entries deferred_paths deferred_set]; [by rewrite map_size_insert_Some by done|done..| |done|];
    intros q; by rewrite E.
Qed.
Lemma forget_ok way c p : cache_ok way c -> status_at c p <> Some ProbePending -> status_at c p <> Some ProbeDeferred ->
  cache_ok way (without_probe p c).
Proof.
  intros [Hs Hq Hset Hd Hw Hp] H1 H2. split; cbn [without_probe entries deferred_paths deferred_set]; [|done..| |done|].
  - rewrite map_size_delete. destruct (entries c !! p); [lia|done].
  - intros q. rewrite without_probe_status, Hd. case_decide as E; [subst q|done]. by split.
  - intros q. rewrite without_probe_status, Hp. case_decide as E; [subst q|done]. by split.
Qed.
Lemma schedule_ok way c p n : cache_ok way c -> c.(entries) !! p = None -> (size c.(entries) < EXTERNAL_PATH_PROBE_CACHE_CAPACITY)%nat ->
  cache_ok (p :: way) (with_probe p (mkProbe ProbePending n) c) /\ cache_ok way (push_deferred p (with_probe p (mkProbe ProbeDeferred n) c)).
Proof.
  intros [Hs Hq Hset Hd Hw Hp] He Hsize. assert (status_at c p = None) as Ep by (unfold status_at; by rewrite He).
  assert ((p ∉ way) /\ (p ∉ c.(deferred_paths))) as [Hnw Hnd] by (split; [rewrite Hp|rewrite Hd]; by rewrite Ep).
  assert (forall e, (size (<[p := e]> c.(entries)) <= EXTERNAL_PATH_PROBE_CACHE_CAPACITY)%nat) as Hsize'
    by (intros e; rewrite map_size_insert_None by done; lia).
  split.
  - split; cbn [with_probe entries deferred_paths deferred_set]; [apply Hsize'|done|done| |by constructor|].
    + intros q. rewrite with_probe_status, Hd. case_decide as E; [subst q|done]. rewrite Ep. by split.
    + intros q. rewrite with_probe_status, elem_of_cons, Hp. case_decide as E; [subst q; cbn; rewrite Ep; naive_solver|]. naive_solver.
  - unfold push_deferred. cbn [with_probe deferred_set]. rewrite bool_decide_eq_false_2 by (by rewrite Hset).
    split; cbn [entries deferred_paths deferred_set]; [apply Hsize'|..|done|].
    + apply NoDup_app. split; [done|]. split; [|apply NoDup_singleton]. intros q Hq' ->%list_elem_of_singleton. done.
    + intros q. rewrite elem_of_union, elem_of_app, Hset, elem_of_singleton, list_elem_of_singleton. naive_solver.
    + intros q. rewrite elem_of_app, list_elem_of_singleton, Hd.
      change (status_at _ q) with (status_at (with_probe p (mkProbe ProbeDeferred n) c) q) at 2.
      rewrite with_probe_status. case_decide as E; [subst q; naive_solver|]. naive_solver.
    + intros q. change (status_at _ q) with (status_at (with_probe p (mkProbe ProbeDeferred n) c) q).
      rewrite with_probe_status, Hp. case_decide as E; [subst q; rewrite Ep; by split|done].
Qed.
Lemma min_by_key_elem {A} (f : A -> N) l x : min_by_key f l = Some x -> x ∈ l.
Proof.
  unfold min_by_key. revert x. induction l as [|y l IH] using rev_ind; intros x; [done|]. rewrite foldl_app, elem_of_app. cbn [foldl].
  destruct (foldl _ None l) as [b|]; [case_match|]; intros [= <-]; [right; by left|left; by apply IH|right; by left].
Qed.
Lemma evicted_ready c p : evicted c = Some p -> exists e, c.(entries) !! p = Some e /\ is_ready e = true.
Proof.
  unfold evicted. intros ([q e] & Hmin & [= <-])%fmap_Some. apply min_by_key_elem, elem_of_filter_bool in Hmin as [Hin Hr].
  apply elem_of_map_to_list in Hin. by exists e.
Qed.
Lemma schedule_probe_ok way c candidate n attempts r c' attempts' send : cache_ok way c ->
  status_at c candidate <> Some ProbePending -> status_at c candidate <> Some ProbeDeferred ->
  schedule candidate n attempts c = (r, c', attempts', send) -> cache_ok (if send then candidate :: way else way) c'.
Proof.
  intros Hc H1 H2. unfold schedule. set (s := without_probe candidate c).
  assert (cache_ok way s) as Hs by by apply forget_ok.
  assert (s.(entries) !! candidate = None) as Hnone by (unfold s, without_probe; cbn; apply lookup_delete_eq).
  assert (forall s1, cache_ok way s1 -> s1.(entries) !! candidate = None -> (size s1.(entries) < EXTERNAL_PATH_PROBE_CACHE_CAPACITY)%nat ->
    (if (attempts <? EXTERNAL_PATH_PROBE_PER_VIEW_ENQUEUE_LIMIT)%N
     then (LookupPending, with_probe candidate (mkProbe ProbePending n) s1, (attempts + 1)%N, true)
     else (LookupPending, push_deferred candidate (with_probe candidate (mkProbe ProbeDeferred n) s1), attempts, false)) = (r, c', attempts', send) ->
    cache_ok (if send then candidate :: way else way) c') as Hfin.
  { intros s1 Hs1 Hn1 Hsz E. destruct (schedule_ok way s1 candidate n Hs1 Hn1 Hsz) as [Ha Hb].
    destruct (attempts <? _)%N; injection E as _ <- _ <-; done. }
  destruct (Nat.leb_spec EXTERNAL_PATH_PROBE_CACHE_CAPACITY (size (entries s))) as [Hfull|Hroom]; [|by apply Hfin].
  destruct (evicted s) as [p|] eqn:Ev; [|by intros [= _ <- _ <-]].
  apply evicted_ready in Ev as (e & He & Hr). apply Hfin.
  - apply forget_ok; [done|..]; unfold status_at; rewrite He; unfold is_ready in Hr; cbn; destruct (status e); congruence.
  - unfold without_probe at 1. cbn [entries]. by apply lookup_delete_None; right.
  - unfold without_probe at 1. cbn [entries]. rewrite map_size_delete, He. pose proof (co_size way s Hs).
    assert (size (entries s) <> 0)%nat; [|lia]. intros Hz%map_size_empty_inv. by rewrite Hz in He.
Qed.
Lemma lookup_locked_ok way c candidate now attempts r c' attempts' send : cache_ok way c ->
  lookup_locked candidate now attempts c = (r, c', attempts', send) -> cache_ok (if send then candidate :: way else way) c'.
Proof.
  intros Hc H. unfold lookup_locked in H. set (n := next_clock c.(clock)) in *.
  pose proof (tick_ok way c n Hc) as Ht. cbn [entries] in H.
  destruct (entries c !! candidate) as [e|] eqn:He.
  - assert (cache_ok way (with_probe candidate (mkProbe (status e) n) (mkProbeState (entries c) (deferred_paths c) (deferred_set c) n))) as Htouch
      by by apply touch_probe_ok.
    destruct (status e) as [| |ex v ver] eqn:Es; [by injection H as _ <- _ <-..|].
    destruct (now <? v)%N; [by injection H as _ <- _ <-|].
    eapply schedule_probe_ok, H; [done|by rewrite with_probe_status, decide_True..].
  - eapply schedule_probe_ok, H; [done|unfold status_at; cbn [entries]; by rewrite He..].
Qed.
Lemma defer_unsent_ok way c p : cache_ok (p :: way) c -> cache_ok way (defer_unsent p c).
Proof.
  intros [Hs Hq Hset Hd Hw Hp]. apply NoDup_cons in Hw as [Hnew Hw].
  assert (status_at c p = Some ProbePending) as Ep by (apply Hp; by left).
  assert (p ∉ c.(deferred_paths)) as Hnd by (rewrite Hd, Ep; done).
  unfold defer_unsent. pose proof Ep as Ep'. unfold status_at in Ep'. destruct (entries c !! p) as [e|] eqn:He; [|done]. injection Ep' as Ee. rewrite Ee.
  unfold push_deferred. cbn [with_probe deferred_set]. rewrite bool_decide_eq_false_2 by (by rewrite Hset).
  split; cbn [entries deferred_paths deferred_set with_probe].
  - by rewrite map_size_insert_Some by done.
  - apply NoDup_app. split; [done|]. split; [|apply NoDup_singleton]. intros q Hq' ->%list_elem_of_singleton. done.
  - intros q. rewrite elem_of_union, elem_of_app, Hset, elem_of_singleton, list_elem_of_singleton. naive_solver.
  - intros q. rewrite elem_of_app, list_elem_of_singleton, Hd.
    change (status_at _ q) with (status_at (with_probe p (mkProbe ProbeDeferred (last_used e)) c) q) at 2.
    rewrite with_probe_status. case_decide as E; [subst q; naive_solver|]. naive_solver.
  - done.
  - intros q. change (status_at _ q) with (status_at (with_probe p (mkProbe ProbeDeferred (last_used e)) c) q).
    rewrite with_probe_status. specialize (Hp q). rewrite elem_of_cons in Hp. case_decide as E; [subst q; by split|naive_solver].
Qed.
(** The queue holds exactly the deferred entries, so its first path is taken. *)
Lemma take_deferred_ok way c : cache_ok way c ->
  forall d c', take_deferred c.(deferred_paths) c = (d, c') -> cache_ok (hand (next_worker d) ++ way) c' /\ d = head c.(deferred_paths).
Proof.
  intros Hc d c'. pose proof Hc as [Hs Hq Hset Hd Hw Hp]. destruct (deferred_paths c) as [|p paths] eqn:E.
  - cbn [take_deferred]. intros [= <- <-]. split; [|done]. by destruct c as [? ? ? ?]; cbn in *; subst.
  - pose proof (proj1 (Hd p) ltac:(by left)) as Ep. unfold status_at in Ep. destruct (entries c !! p) as [[st used]|] eqn:He; [|done].
    injection Ep as ->. cbn [take_deferred entries]. rewrite He. intros [= <- <-]. split; [|done]. cbn [next_worker hand app head].
    apply NoDup_cons in Hq as [Hnew Hq].
    split; cbn [entries deferred_paths deferred_set with_probe].
    + by rewrite map_size_insert_Some by done.
    + done.
    + intros q. rewrite elem_of_difference, elem_of_singleton, Hset, elem_of_cons. naive_solver.
    + intros q. change (status_at _ q) with (status_at (with_probe p (mkProbe ProbePending used) c) q).
      rewrite with_probe_status. specialize (Hd q). rewrite elem_of_cons in Hd. case_decide as Epq; [subst q; by split|naive_solver].
    + constructor; [|done]. rewrite Hp. unfold status_at. by rewrite He.
    + intros q. change (status_at _ q) with (status_at (with_probe p (mkProbe ProbePending used) c) q).
      rewrite with_probe_status, elem_of_cons, Hp. case_decide as Epq; [subst q; naive_solver|naive_solver].
Qed.
Lemma publish_ok way c p ex v d c' : cache_ok (p :: way) c -> publish p ex v c = (d, c') -> cache_ok (hand (next_worker d) ++ way) c'.
Proof.
  intros [Hs Hq Hset Hd Hw Hp] H. apply NoDup_cons in Hw as [Hnew Hw].
  assert (status_at c p = Some ProbePending) as Ep by (apply Hp; by left). unfold publish in H. set (n := next_clock (clock c)) in *.
  pose proof Ep as Ep'. unfold status_at in Ep'. cbn [entries] in H. destruct (entries c !! p) as [e|] eqn:He; [|done].
  set (c1 := with_probe p _ _) in H. enough (cache_ok way c1) as Hc1 by (by destruct (take_deferred_ok way c1 Hc1 d c' H)).
  assert (forall q, status_at c1 q = if decide (p = q) then Some (ProbeReady ex v n) else status_at c q) as E by (intros q; unfold c1; by rewrite with_probe_status).
  split; cbn [c1 with_probe entries deferred_paths deferred_set]; [by rewrite map_size_insert_Some by done|done..| |done|]; intros q; rewrite E.
  - rewrite Hd. case_decide as Epq; [subst q; rewrite Ep; by split|done].
  - specialize (Hp q). rewrite elem_of_cons in Hp. case_decide as Epq; [subst q; by split|naive_solver].
Qed.
Lemma probe_step_ok e s s' : system_ok s -> probe_step e s = Some s' -> system_ok s'.
Proof.
  intros [Hc Hch] H. destruct s as [c ch us w vs t]. unfold on_the_way in Hc. cbn [cache channel unsent worker views now] in *.
  destruct e as [|view cand|i| |ex| |dt]; cbn [probe_step cache channel unsent worker views now] in H.
  - injection H as <-. by split.
  - destruct (vs !! view) as [att|]; [|done]. cbn [mbind option_bind] in H. destruct (probe_applies cand); cbn [negb] in H; [|by injection H as <-].
    destruct (lookup_locked cand t att c) as [[[r c'] att'] send] eqn:El. injection H as <-. split; [|done].
    apply (lookup_locked_ok _ _ _ _ _ _ _ _ _ Hc) in El. unfold on_the_way. cbn [cache channel unsent worker].
    destruct send; [|done]. eapply cache_ok_perm, El. rewrite <- app_assoc. apply Permutation_middle.
  - destruct (remove_at i us) as [[p us']|] eqn:Er; [|done]. cbn [mbind option_bind] in H. apply remove_at_perm in Er.
    assert (cache_ok (p :: us' ++ ch ++ hand w) c) as Hc' by (eapply cache_ok_perm, Hc; by rewrite Er).
    destruct w; [injection H as <-; split; [by apply defer_unsent_ok|done]|..];
      (destruct (length ch <? _)%nat eqn:El; injection H as <-; split; cbn [cache channel unsent worker]; [| |by apply defer_unsent_ok|done]);
      try (apply Nat.ltb_lt in El; rewrite length_app; cbn; lia);
      (eapply cache_ok_perm, Hc'; unfold on_the_way; cbn [unsent channel worker]; rewrite <- (app_assoc ch [p]), !(app_assoc us' ch); apply Permutation_middle).
  - destruct w; try done. destruct ch as [|p ch]; [done|]. injection H as <-. split; cbn [cache channel]; [|cbn in Hch; lia].
    eapply cache_ok_perm, Hc. unfold on_the_way. cbn. by rewrite app_nil_r, (Permutation_app_comm ch [p]).
  - destruct w as [| |p|]; try done. injection H as <-. by split.
  - destruct w as [| | |p ex v]; try done. destruct (publish p ex v c) as [d c'] eqn:Ep. injection H as <-. split; [|done].
    eapply cache_ok_perm; [|eapply publish_ok, Ep; eapply cache_ok_perm, Hc].
    + unfold on_the_way. cbn [unsent channel worker]. instantiate (1 := us ++ ch). by rewrite Permutation_app_comm, app_assoc.
    + cbn [hand]. by rewrite (Permutation_app_comm ch [p]), Permutation_middle.
  - injection H as <-. by split.
Qed.
Lemma new_system_ok started : system_ok (new_system started).
Proof.
  split; [|cbn; lia]. unfold on_the_way, new_system. replace (hand _) with (@nil string) by (by destruct started). cbn.
  split; cbn; [rewrite map_size_empty; lia|constructor|..|constructor|].
  - intros p. by rewrite elem_of_empty, elem_of_nil.
  - intros p. by rewrite elem_of_nil.
  - intros p. by rewrite elem_of_nil.
Qed.
Lemma probe_run_ok events s s' : system_ok s -> probe_run events s = Some s' -> system_ok s'.
Proof.
  revert s. induction events as [|e events IH]; intros s Hs; cbn [probe_run]; [by intros [= <-]|].
  intros (s1 & H1 & H)%bind_Some. eapply IH, H. by eapply probe_step_ok.
Qed.
(** C10 No scheduled probe is lost and nothing grows without bound: however the threads
    interleave, the cache holds at most 1024 paths, the paths marked pending are exactly
    those on their way (between the lock and the send, in the channel, or in the worker's
    hand), each once, and the paths marked deferred are exactly those in the queue, each
    once. *)
Theorem probe_states_ok started events s : probe_run events (new_system started) = Some s ->
  (size s.(cache).(entries) <= 1024)%nat /\ (length s.(channel) <= 64)%nat /\
  NoDup (on_the_way s) /\ (forall p, p ∈ on_the_way s <-> status_at s.(cache) p = Some ProbePending) /\
  NoDup s.(cache).(deferred_paths) /\ (forall p, p ∈ s.(cache).(deferred_paths) <-> status_at s.(cache) p = Some ProbeDeferred).
Proof. intros H. destruct (probe_run_ok events _ s (new_system_ok started) H) as [[] ?]. done. Qed.

(** ** Answers and their age *)

(** The clock never goes back, and a ready entry is old or carries the new clock. *)
Definition grows (c c' : ExternalPathProbeState) : Prop :=
  (c.(clock) <= c'.(clock) <= c.(clock) + 1)%N /\
  forall p ex v ver, status_at c' p = Some (ProbeReady ex v ver) ->
    status_at c p = Some (ProbeReady ex v ver) \/ ((c.(clock) < ver)%N /\ (ver <= c'.(clock))%N).
Lemma next_clock_succ n : (n < u64_max)%N -> next_clock n = (n + 1)%N.
Proof. intros H. unfold next_clock. rewrite wrapping_add_small by lia. lia. Qed.
(** Every ready entry was there before. *)
Definition no_new_ready (c c' : ExternalPathProbeState) : Prop :=
  forall p ex v ver, status_at c' p = Some (ProbeReady ex v ver) -> status_at c p = Some (ProbeReady ex v ver).
#[export] Instance no_new_ready_preorder : PreOrder no_new_ready.
Proof. split; [by intros c p ex v ver|]. intros c1 c2 c3 H1 H2 p ex v ver E. by apply H1, H2. Qed.
Lemma grows_sub c c' : (c.(clock) <= c'.(clock) <= c.(clock) + 1)%N -> no_new_ready c c' -> grows c c'.
Proof. intros H Hs. split; [done|]. intros p ex v ver E. left. by apply Hs. Qed.
Lemma with_probe_no_new p e c : is_ready e = false -> no_new_ready c (with_probe p e c).
Proof. intros He q ex v ver. rewrite with_probe_status. case_decide; [|done]. intros [= E]. unfold is_ready in He. by rewrite E in He. Qed.
Lemma without_probe_no_new p c : no_new_ready c (without_probe p c).
Proof. intros q ex v ver. rewrite without_probe_status. by case_decide. Qed.
Lemma push_deferred_status p c q : status_at (push_deferred p c) q = status_at c q.
Proof. unfold push_deferred. by case_match. Qed.
Lemma push_deferred_clock p c : (push_deferred p c).(clock) = c.(clock).
Proof. unfold push_deferred. by case_match. Qed.
Lemma push_deferred_no_new p c : no_new_ready c (push_deferred p c).
Proof. intros q ex v ver. by rewrite push_deferred_status. Qed.
Lemma schedule_no_new candidate n attempts c r c' attempts' send :
  schedule candidate n attempts c = (r, c', attempts', send) -> c'.(clock) = c.(clock) /\ no_new_ready c c'.
Proof.
  unfold schedule. pose proof (without_probe_no_new candidate c) as H0. set (s := without_probe candidate c) in *.
  assert (s.(clock) = c.(clock)) as E0 by done. clearbody s.
  set (room := if (EXTERNAL_PATH_PROBE_CACHE_CAPACITY <=? size (entries s))%nat then _ else Some s). assert (forall s1, room = Some s1 -> s1.(clock) = c.(clock) /\ no_new_ready c s1) as Hroom.
  { unfold room. intros s1. destruct (_ <=? _)%nat; [|by intros [= <-]]. destruct (evicted s) as [p|]; [|done]. intros [= <-].
    split; [done|]. etrans; [done|apply without_probe_no_new]. }
  destruct room as [s1|]; [|by intros [= _ <- _ _]]. destruct (Hroom s1 eq_refl) as [E1 H1].
  destruct (attempts <? _)%N; intros [= _ <- _ _]; rewrite ?push_deferred_clock; (split; [done|]).
  - etrans; [done|by apply with_probe_no_new].
  - etrans; [|apply push_deferred_no_new]. etrans; [done|by apply with_probe_no_new].
Qed.
Lemma lookup_grows candidate now attempts c r c' attempts' send : (c.(clock) < u64_max)%N ->
  lookup_locked candidate now attempts c = (r, c', attempts', send) -> grows c c'.
Proof.
  intros Hclk H. unfold lookup_locked in H. rewrite (next_clock_succ _ Hclk) in H. cbn [entries] in H.
  set (n := (clock c + 1)%N) in *. set (c0 := mkProbeState (entries c) (deferred_paths c) (deferred_set c) n) in *.
  assert (forall d, clock d = n -> no_new_ready c d -> grows c d) as Hg by (intros d Hn Hs; apply grows_sub; [rewrite Hn; lia|done]).
  destruct (entries c !! candidate) as [e|] eqn:He.
  - assert (no_new_ready c (with_probe candidate (mkProbe (status e) n) c0)) as Hs.
    { intros p ex v ver. rewrite with_probe_status. case_decide as Ep; [|done]. subst p. unfold status_at. by rewrite He. }
    destruct (status e) as [| |ex v ver] eqn:Es; [by injection H as _ <- _ _; apply Hg..|].
    destruct (now <? v)%N; [by injection H as _ <- _ _; apply Hg|].
    apply schedule_no_new in H as [Ec H]. apply Hg; [done|]. by etrans.
  - apply schedule_no_new in H as [Ec H]. by apply Hg.
Qed.
Lemma take_deferred_no_new paths c : forall d c', take_deferred paths c = (d, c') -> c'.(clock) = c.(clock) /\ no_new_ready c c'.
Proof.
  revert c. induction paths as [|p paths IH]; intros c d c'; cbn [take_deferred]; [intros [= _ <-]; split; [done|by intros ????]|]. cbn [entries].
  set (c1 := mkProbeState (entries c) paths (deferred_set c ∖ {[p]}) (clock c)).
  destruct (entries c !! p) as [[[] u]|]; [exact (IH c1 d c')| |exact (IH c1 d c')..]. intros [= _ <-]. split; [done|].
  by apply (with_probe_no_new p (mkProbe ProbePending u) c1).
Qed.
Lemma publish_grows p ex v c d c' : (c.(clock) < u64_max)%N -> publish p ex v c = (d, c') -> grows c c'.
Proof.
  intros Hclk H. unfold publish in H. rewrite (next_clock_succ _ Hclk) in H. cbn [entries] in H. set (n := (clock c + 1)%N) in *.
  apply take_deferred_no_new in H as [Ec H]. set (c1 := match entries c !! p with Some _ => _ | None => _ end) in *.
  assert (clock c1 = n) as E1 by (unfold c1; by destruct (entries c !! p)). split; [lia|].
  intros q ex' v' ver E%H. unfold c1 in E. destruct (entries c !! p); [|by left].
  rewrite with_probe_status in E. case_decide; [|by left]. injection E as <- <- <-. right. lia.
Qed.
Lemma defer_unsent_no_new p c : (defer_unsent p c).(clock) = c.(clock) /\ no_new_ready c (defer_unsent p c).
Proof.
  unfold defer_unsent. destruct (entries c !! p) as [e|]; [|done]. destruct (status e); [|done..]. rewrite push_deferred_clock. split; [done|].
  etrans; [|apply push_deferred_no_new]. by apply with_probe_no_new.
Qed.
Lemma probe_step_grows e s s' : (s.(cache).(clock) < u64_max)%N -> probe_step e s = Some s' -> grows s.(cache) s'.(cache).
Proof.
  intros Hclk H. assert (grows (cache s) (cache s)) as Hr by (apply grows_sub; [lia|done]).
  assert (forall p, grows (cache s) (defer_unsent p (cache s))) as Hdu
    by (intros p; destruct (defer_unsent_no_new p (cache s)); apply grows_sub; [lia|done]).
  destruct e as [|view cand|i| |ex| |dt]; cbn [probe_step] in H.
  - by injection H as <-.
  - destruct (views s !! view) as [att|]; [|done]. cbn [mbind option_bind] in H. destruct (negb _); [by injection H as <-|].
    destruct (lookup_locked cand (now s) att (cache s)) as [[[r c'] att'] send] eqn:El. injection H as <-. by eapply lookup_grows.
  - destruct (remove_at i (unsent s)) as [[p us']|]; [|done]. cbn [mbind option_bind] in H.
    destruct (worker s); [injection H as <-; apply Hdu|..]; (destruct (_ <? _)%nat; injection H as <-; [done|apply Hdu]).
  - destruct (worker s); try done. destruct (channel s); [done|]. by injection H as <-.
  - destruct (worker s); try done. by injection H as <-.
  - destruct (worker s) as [| | |p ex v]; try done. destruct (publish p ex v (cache s)) as [d c'] eqn:Ep. injection H as <-. by eapply publish_grows.
  - by injection H as <-.
Qed.
Lemma probe_run_grows events s s' : (s.(cache).(clock) + N.of_nat (length events) <= u64_max)%N -> probe_run events s = Some s' ->
  (s.(cache).(clock) <= s'.(cache).(clock) <= s.(cache).(clock) + N.of_nat (length events))%N /\
  forall p ex v ver, status_at s'.(cache) p = Some (ProbeReady ex v ver) ->
    status_at s.(cache) p = Some (ProbeReady ex v ver) \/ ((s.(cache).(clock) < ver)%N /\ (ver <= s'.(cache).(clock))%N).
Proof.
  revert s. induction events as [|e events IH]; intros s Hclk; cbn [probe_run length] in *.
  { intros [= <-]. split; [lia|]. intros p ex v ver E. by left. }
  intros (s1 & H1 & H)%bind_Some. destruct (probe_step_grows e s s1 ltac:(lia) H1) as [Hc Hr].
  destruct (IH s1 ltac:(lia) H) as [Hc' Hr']. split; [lia|]. intros p ex v ver [E|[? ?]]%Hr'; [|right; lia].
  apply Hr in E as [?|[? ?]]; [by left|right; lia].
Qed.
(** An observation that is still current still means what was read: when a view reads
    that a path exists or not and the same version of it is current at any later point of
    any interleaving, the cache still holds that answer, unexpired. So a resolution whose
    observations are current may be kept. (The versions are told apart by a clock that
    would have to tick [2^64] times to repeat.) *)
Theorem observation_sound started before after s s' path ex valid_until version :
  (N.of_nat (length before + length after) <= u64_max)%N ->
  probe_run before (new_system started) = Some s -> probe_run after s = Some s' ->
  status_at s.(cache) path = Some (ProbeReady ex valid_until version) ->
  is_current s'.(now) s'.(cache) (mkObservation path version valid_until) = true ->
  status_at s'.(cache) path = Some (ProbeReady ex valid_until version) /\ (s'.(now) < valid_until)%N.
Proof.
  intros Hlen H1 H2 Hs Hcur. assert (clock (cache (new_system started)) = 0%N) as E0 by done.
  destruct (probe_run_grows before (new_system started) s ltac:(rewrite E0; lia) H1) as [Hc Hr]. rewrite E0 in Hc.
  destruct (probe_run_grows after s s' ltac:(lia) H2) as [Hc' Hr'].
  assert (version <= clock (cache s))%N as Hv by (destruct (Hr _ _ _ _ Hs) as [E|[_ ?]]; [by vm_compute in E|done]).
  unfold is_current in Hcur. cbn [ob_valid_until ob_path ob_version] in Hcur. apply andb_true_iff in Hcur as [Hn%N.ltb_lt Hcur].
  split; [|done]. unfold status_at. destruct (entries (cache s') !! path) as [[[| |ex' v' ver'] u]|] eqn:E; try done.
  apply andb_true_iff in Hcur as [_ ->%N.eqb_eq]. assert (status_at (cache s') path = Some (ProbeReady ex' v' version)) as Es by (unfold status_at; by rewrite E).
  destruct (Hr' _ _ _ _ Es) as [Eq|[? ?]]; [|lia]. rewrite Hs in Eq. by injection Eq as -> ->.
Qed.

(** ** A cache that stops answering *)

(** The cache is full of deferred paths and the worker waits for a message. *)
Record stalled (s : ProbeSystem) : Prop := {
  st_full : (EXTERNAL_PATH_PROBE_CACHE_CAPACITY <= size s.(cache).(entries))%nat;
  st_deferred p e : s.(cache).(entries) !! p = Some e -> e.(status) = ProbeDeferred;
  st_quiet : s.(channel) = [] /\ s.(unsent) = [];
  st_waiting : s.(worker) = WorkerWaiting;
}.
Lemma no_ready_no_eviction c : (forall p e, c.(entries) !! p = Some e -> e.(status) = ProbeDeferred) -> evicted c = None.
Proof.
  intros H. destruct (evicted c) as [p|] eqn:E; [|done]. apply evicted_ready in E as (e & He & Hr).
  unfold is_ready in Hr. by rewrite (H _ _ He) in Hr.
Qed.
Lemma stalled_lookup candidate now attempts c :
  (EXTERNAL_PATH_PROBE_CACHE_CAPACITY <= size c.(entries))%nat ->
  (forall p e, c.(entries) !! p = Some e -> e.(status) = ProbeDeferred) ->
  exists c', lookup_locked candidate now attempts c = (LookupPending, c', attempts, false) /\
    (EXTERNAL_PATH_PROBE_CACHE_CAPACITY <= size c'.(entries))%nat /\
    (forall p e, c'.(entries) !! p = Some e -> e.(status) = ProbeDeferred).
Proof.
  intros Hfull Hd. unfold lookup_locked. cbn [entries]. destruct (entries c !! candidate) as [e|] eqn:He.
  - rewrite (Hd _ _ He). eexists. split; [done|]. cbn [with_probe entries]. split; [by rewrite map_size_insert_Some by done|].
    intros p e'. destruct (decide (candidate = p)) as [<-|Hne]; [rewrite lookup_insert_eq; by intros [= <-]|].
    rewrite lookup_insert_ne by done. apply Hd.
  - unfold schedule. assert (entries (without_probe candidate (mkProbeState (entries c) (deferred_paths c) (deferred_set c) (next_clock (clock c)))) = entries c) as E
      by (unfold without_probe; cbn [entries]; by rewrite delete_id).
    rewrite no_ready_no_eviction by (by rewrite E). rewrite E, (proj2 (Nat.leb_le _ _) Hfull). eexists. split; [done|]. by rewrite E.
Qed.
Lemma stalled_step e s s' : stalled s -> probe_step e s = Some s' -> stalled s'.
Proof.
  intros [Hf Hd [Hch Hun] Hw] H. destruct e as [|view cand|i| |ex| |dt]; cbn [probe_step] in H; rewrite ?Hw, ?Hch, ?Hun in H.
  - injection H as <-. by split.
  - destruct (views s !! view) as [att|]; [|done]. cbn [mbind option_bind] in H. destruct (negb _); [injection H as <-; by split|].
    destruct (stalled_lookup cand (now s) att (cache s) Hf Hd) as (c' & E & Hf' & Hd'). rewrite E in H. injection H as <-. by split.
  - by destruct i.
  - done.
  - done.
  - done.
  - injection H as <-. by split.
Qed.
Lemma stalled_run events s s' : stalled s -> probe_run events s = Some s' -> stalled s'.
Proof.
  revert s. induction events as [|e events IH]; intros s Hs; cbn [probe_run]; [by intros [= <-]|].
  intros (s1 & H1 & H)%bind_Some. eapply IH, H. by eapply stalled_step.
Qed.
Definition looks_stalled (s : ProbeSystem) : bool :=
  (EXTERNAL_PATH_PROBE_CACHE_CAPACITY <=? size s.(cache).(entries))%nat
  && forallb (fun kv => bool_decide (kv.2.(status) = ProbeDeferred)) (map_to_list s.(cache).(entries))
  && match s.(channel), s.(unsent), s.(worker) with [], [], WorkerWaiting => true | _, _, _ => false end.
Lemma looks_stalled_sound s : looks_stalled s = true -> stalled s.
Proof.
  unfold looks_stalled. rewrite !andb_true_iff, Nat.leb_le, forallb_forall. intros [[Hf Hd] Hq].
  destruct (channel s) eqn:E1; [|done]. destruct (unsent s) eqn:E2; [|done]. destruct (worker s) eqn:E3; try done. split; try done.
  intros p e He. specialize (Hd (p, e)). cbn in Hd. apply bool_decide_eq_true in Hd; [done|]. by apply list_elem_of_In, elem_of_map_to_list.
Qed.
(** One view whose first sixteen paths are probed as they come, and that then asks for
    1024 more. *)
Definition external_path (i : nat) : string := "/" +:+ pretty (N.of_nat i).
Definition probed_at_once (i : nat) : list ProbeEvent := [Lookup 0 (external_path i); TrySend 0; Receive; ProbePath true; Publish].
Definition stall_events : list ProbeEvent :=
  NewView :: concat (probed_at_once <$> seq 0 16) ++ ((fun i => Lookup 0 (external_path i)) <$> seq 16 1024).
Lemma stall_reached : (looks_stalled <$> probe_run stall_events (new_system true)) = Some true.
Proof. vm_compute. reflexivity. Qed.

(** C37 The cache can stop for good: only a finished probe takes a path from the queue, a view
    sends at most sixteen paths, and only answered paths are evicted. One view that asks
    for 1040 external paths while the worker keeps up leaves a cache full of deferred
    paths and a waiting worker; from then on, whatever is asked and however long one
    waits, no path is probed and every lookup answers that the probe is pending. *)
Theorem cache_can_stall : exists events s, probe_run events (new_system true) = Some s /\
  forall later s', probe_run later s = Some s' ->
    s'.(worker) = WorkerWaiting /\ s'.(channel) = [] /\ s'.(unsent) = [] /\
    forall candidate now attempts, (lookup_locked candidate now attempts s'.(cache)).1.1.1 = LookupPending.
Proof.
  destruct (probe_run stall_events (new_system true)) as [s|] eqn:E; [|by pose proof stall_reached as H; rewrite E in H].
  pose proof stall_reached as H. rewrite E in H. injection H as H. exists stall_events, s. split; [done|].
  intros later s' Hl. destruct (stalled_run later s s' (looks_stalled_sound s H) Hl) as [Hf Hd [Hc Hu] Hw].
  split_conj; [done..|]. intros candidate n att. by destruct (stalled_lookup candidate n att (cache s') Hf Hd) as (c' & -> & _).
Qed.

Definition demo_probe : list ProbeEvent := [NewView; Lookup 0 "/usr/include/stdio.h"; TrySend 0; Receive; ProbePath true; Publish].
Lemma probe_states_ok_witness : exists s, probe_run demo_probe (new_system true) = Some s /\ (length s.(channel) <= 64)%nat.
Proof. eexists. split; [vm_compute; reflexivity|]. eapply (probe_states_ok true demo_probe). vm_compute. reflexivity. Defined.
Lemma observation_sound_witness : exists s s', probe_run demo_probe (new_system true) = Some s /\ probe_run [Tick 5; Lookup 0 "/usr/include/math.h"] s = Some s' /\
  status_at s'.(cache) "/usr/include/stdio.h" = Some (ProbeReady true 30000000000 2) /\ (s'.(now) < 30000000000)%N.
Proof.
  eexists _, _. split; [vm_compute; reflexivity|]. split; [vm_compute; reflexivity|].
  eapply (observation_sound true demo_probe [Tick 5; Lookup 0 "/usr/include/math.h"]).
  - vm_compute. discriminate.
  - vm_compute. reflexivity.
  - vm_compute. reflexivity.
  - vm_compute. reflexivity.
  - vm_compute. reflexivity.
Defined.
