(* ===== verification/IncludePaths.v ===== *)
(** * The published include paths and a request's view of them
      (candidate_service/include_paths.rs)

    A generation's paths are a sorted list with a posting of positions by base name, and
    a bounded overlay of changed paths. A request adds its open documents and asks the
    probe cache for absolute paths nobody has indexed. Hash sets are finite sets; their
    elements are always sorted before they are used. *)

From S2P Require Import Prelude Searching CallModel Relations Reachability Includes IncludeEdges PathProbe.

Record IncludePathIndex : Type := mkPathIndex {
  paths : list string;
  workspace_by_basename : gmap string (list nat);
  updates : gmap string (option bool);
  base_bytes : N;
}.
Definition REQUEST_SUFFIX_SCAN_LIMIT : N := 4096.
Definition REQUEST_SUFFIX_CANDIDATE_LIMIT : N := 256.

(** What the allocator and the layout of the types decide. *)
Record PathAllocation : Type := mkPathAllocation {
  string_capacity : string -> N;
  paths_capacity : list string -> N;
  table_bytes : gmap string (list nat) -> N;
  positions_capacity : list nat -> N;
  index_size : N;
  string_size : N;
  usize_size : N;
  update_size : N;
}.

Section index.
Context (alloc : PathAllocation).

Definition sum_N (l : list N) : N := foldr N.add 0%N l.
(** [deduplicated]: rows of one path are merged. *)
Fixpoint merge_rows (last : string * bool) (rows : list (string * bool)) : list (string * bool) :=
  match rows with
  | [] => [last]
  | row :: rows =>
      if String.eqb last.1 row.1 then merge_rows (last.1, last.2 || row.2) rows else last :: merge_rows row rows
  end.
Definition deduplicated (rows : list (string * bool)) : list (string * bool) :=
  match sort_by (cmp_on fst String.compare) rows with [] => [] | row :: rows => merge_rows row rows end.
Definition postings (rows : list (string * bool)) : gmap string (list nat) :=
  foldl (fun m (p : nat * (string * bool)) => if p.2.2 then push_map m (last_segment p.2.1) p.1 else m) ∅
    (imap (fun i row => (i, row)) rows).
Definition build (rows : list (string * bool)) : IncludePathIndex :=
  let deduplicated := deduplicated rows in
  let workspace_by_basename := postings deduplicated in
  let paths := fst <$> deduplicated in
  let base_bytes :=
    (alloc.(index_size) + alloc.(paths_capacity) paths * alloc.(string_size) + sum_N (alloc.(string_capacity) <$> paths)
     + alloc.(table_bytes) workspace_by_basename
     + sum_N ((fun kv : string * list nat => alloc.(string_capacity) kv.1 + alloc.(positions_capacity) kv.2 * alloc.(usize_size))%N
              <$> map_to_list workspace_by_basename))%N in
  mkPathIndex paths workspace_by_basename ∅ base_bytes.

Definition base_membership (idx : IncludePathIndex) (path : string) : option bool :=
  position ← binary_search (fun value => String.compare value path) idx.(paths);
  Some (match idx.(workspace_by_basename) !! last_segment path with
        | Some positions => bool_decide (is_Some (binary_search (fun p => Nat.compare p position) positions))
        | None => false
        end).
Definition membership (idx : IncludePathIndex) (path : string) : option bool :=
  match idx.(updates) !! path with Some v => v | None => base_membership idx path end.
Definition index_contains (idx : IncludePathIndex) (candidate : string) : bool := bool_decide (is_Some (membership idx candidate)).

Definition update_bytes (updates : gmap string (option bool)) : N :=
  (N.of_nat (size updates) * (11 * alloc.(update_size) + 12 * alloc.(usize_size))
   + sum_N ((fun kv : string * option bool => alloc.(string_capacity) kv.1) <$> map_to_list updates))%N.
(** [rows.into_iter().collect::<HashMap<_, _>>()]: the last row of a path stays. *)
Definition fresh_rows (rows : list (string * bool)) : gmap string bool := foldl (fun m row => <[row.1 := row.2]> m) ∅ rows.
Definition update_step (idx : IncludePathIndex) (fresh : gmap string bool) (updates : gmap string (option bool)) (path : string) :
    gmap string (option bool) :=
  let value := fresh !! path in
  if bool_decide (base_membership idx path = value) then delete path updates else <[path := value]> updates.
Definition updated_paths (idx : IncludePathIndex) (changed : list string) (rows : list (string * bool)) : option IncludePathIndex :=
  if (256 <? length changed)%nat then None
  else
    let fresh := fresh_rows rows in
    if forallb (fun path => bool_decide (membership idx path = fresh !! path)) changed then Some idx
    else
      let updates := foldl (update_step idx fresh) idx.(updates) changed in
      if (256 <? size updates)%nat || (4 * 1024 * 1024 <? update_bytes updates)%N then None
      else Some (mkPathIndex idx.(paths) idx.(workspace_by_basename) updates idx.(base_bytes)).
Definition accounted_bytes (idx : IncludePathIndex) : N := (idx.(base_bytes) + update_bytes idx.(updates))%N.
Definition delta_bytes (idx : IncludePathIndex) : N := update_bytes idx.(updates).
Definition delta_count (idx : IncludePathIndex) : nat := size idx.(updates).
End index.

(** ** Suffix lookups *)

(** One loop over the paths of a base name, with its two limits. *)
Fixpoint scan_candidates (matches : string -> bool) (scan_limit candidate_limit : N) (l : list string) (lookup : SuffixCandidateLookup) :
    SuffixCandidateLookup :=
  match l with
  | [] => lookup
  | candidate :: l =>
      if (scan_limit <=? lookup.(inspected))%N then mkLookup lookup.(candidates) lookup.(inspected) true
      else
        let inspected := (lookup.(inspected) + 1)%N in
        if negb (matches candidate)
        then scan_candidates matches scan_limit candidate_limit l (mkLookup lookup.(candidates) inspected lookup.(truncated))
        else if (candidate_limit <=? N.of_nat (length lookup.(candidates)))%N then mkLookup lookup.(candidates) inspected true
        else scan_candidates matches scan_limit candidate_limit l
               (mkLookup (lookup.(candidates) ++ [candidate]) inspected lookup.(truncated))
  end.
Definition empty_lookup : SuffixCandidateLookup := mkLookup [] 0 false.
(** The changed paths of a base name, in order. *)
Definition updated_named (idx : IncludePathIndex) (basename : string) : list string :=
  fst <$> List.filter (fun kv => bool_decide (kv.2 = Some true) && String.eqb (last_segment kv.1) basename) (btree_entries idx.(updates)).
(** The positions are in range, so none is left out. *)
Definition posted (idx : IncludePathIndex) (basename : string) : list string :=
  omap (fun position => idx.(paths) !! position) (default [] (idx.(workspace_by_basename) !! basename)).
Definition suffix_candidates_bounded (idx : IncludePathIndex) (basename : string) (suffix : string * string)
    (scan_limit candidate_limit : N) : SuffixCandidateLookup :=
  let lookup := scan_candidates (matches_suffix suffix) scan_limit candidate_limit (updated_named idx basename) empty_lookup in
  let lookup := scan_candidates (fun candidate => bool_decide (idx.(updates) !! candidate = None) && matches_suffix suffix candidate)
                  scan_limit candidate_limit (posted idx basename) lookup in
  mkLookup (sorted_unique lookup.(candidates)) lookup.(inspected) lookup.(truncated).

(** ** The view of a request *)

Record IncludePathView : Type := mkView {
  base : option IncludePathIndex;
  delta_paths : gset string;
  delta_by_basename : gmap string (list string);
  probe_pending : bool;
  probe_enqueue_attempts : N;
  probe_observations : list ExternalPathProbeObservation;
  probe_observations_overflowed : bool;
}.
Definition in_base (b : option IncludePathIndex) (path : string) : bool :=
  match b with Some idx => index_contains idx path | None => false end.
Definition delta_of (b : option IncludePathIndex) (overlay_paths : list string) : gset string :=
  list_to_set (List.filter (fun path => negb (in_base b path)) overlay_paths).
Definition by_name (delta : gset string) : gmap string (list string) :=
  sorted_unique <$> foldl (fun m path => push_map m (last_segment path) path) ∅ (elements delta).
Definition new_view (b : option IncludePathIndex) (overlay_paths : list string) : IncludePathView :=
  let delta := delta_of b overlay_paths in mkView b delta (by_name delta) false 0 [] false.

(** [observations.iter_mut().find(..)] and the update of what it finds. *)
Fixpoint observe (o : ExternalPathProbeObservation) (l : list ExternalPathProbeObservation) : option (list ExternalPathProbeObservation) :=
  match l with
  | [] => None
  | x :: l => if String.eqb x.(ob_path) o.(ob_path) then Some (o :: l) else cons x <$> observe o l
  end.
Definition record_observation (o : ExternalPathProbeObservation) (v : IncludePathView) : IncludePathView :=
  match observe o v.(probe_observations) with
  | Some l => mkView v.(base) v.(delta_paths) v.(delta_by_basename) v.(probe_pending) v.(probe_enqueue_attempts) l v.(probe_observations_overflowed)
  | None =>
      if (length v.(probe_observations) <? EXTERNAL_PATH_PROBE_OBSERVATION_LIMIT)%nat
      then mkView v.(base) v.(delta_paths) v.(delta_by_basename) v.(probe_pending) v.(probe_enqueue_attempts)
             (v.(probe_observations) ++ [o]) v.(probe_observations_overflowed)
      else mkView v.(base) v.(delta_paths) v.(delta_by_basename) v.(probe_pending) v.(probe_enqueue_attempts)
             v.(probe_observations) true
  end.
Definition with_attempts (v : IncludePathView) (attempts : N) : IncludePathView :=
  mkView v.(base) v.(delta_paths) v.(delta_by_basename) v.(probe_pending) attempts v.(probe_observations) v.(probe_observations_overflowed).
Definition mark_pending (v : IncludePathView) : IncludePathView :=
  mkView v.(base) v.(delta_paths) v.(delta_by_basename) true v.(probe_enqueue_attempts) v.(probe_observations) v.(probe_observations_overflowed).
Definition known (v : IncludePathView) (candidate : string) : bool :=
  bool_decide (candidate ∈ v.(delta_paths)) || in_base v.(base) candidate.

(** What the view needs of the probe cache: [lookup_or_schedule] and the check of
    observations, on a world other threads change too. *)
Class ProbeCache (W : Type) : Type := {
  lookup_or_schedule : string -> N -> W -> ExternalPathProbeLookup * N * W;
  are_current : list ExternalPathProbeObservation -> W -> bool;
}.

Section view.
Context `{ProbeCache W}.
Definition view_contains (candidate : string) (st : IncludePathView * W) : bool * (IncludePathView * W) :=
  let '(v, w) := st in
  if known v candidate then (true, st)
  else
    let '(answer, attempts, w) := lookup_or_schedule candidate v.(probe_enqueue_attempts) w in
    let v := with_attempts v attempts in
    match answer with
    | LookupNotApplicable => (false, (v, w))
    | LookupPending => (false, (mark_pending v, w))
    | LookupReady exists_ valid_until version =>
        (exists_, (record_observation (mkObservation candidate version valid_until) v, w))
    end.
Definition cacheable (v : IncludePathView) (w : W) : bool :=
  if v.(probe_pending) || v.(probe_observations_overflowed) then false
  else match v.(probe_observations) with [] => true | observations => are_current observations w end.
Definition suffix_candidates (v : IncludePathView) (basename : string) (suffix : string * string) : SuffixCandidateLookup :=
  let lookup := scan_candidates (matches_suffix suffix) REQUEST_SUFFIX_SCAN_LIMIT REQUEST_SUFFIX_CANDIDATE_LIMIT
                  (default [] (v.(delta_by_basename) !! basename)) empty_lookup in
  let lookup :=
    match v.(base) with
    | Some idx =>
        let base_lookup := suffix_candidates_bounded idx basename suffix
          (REQUEST_SUFFIX_SCAN_LIMIT -s lookup.(inspected))
          (REQUEST_SUFFIX_CANDIDATE_LIMIT -s N.of_nat (length lookup.(candidates))) in
        mkLookup (lookup.(candidates) ++ base_lookup.(candidates)) (lookup.(inspected) +s base_lookup.(inspected))
          (lookup.(truncated) || base_lookup.(truncated))
    | None => lookup
    end in
  mkLookup (sorted_unique lookup.(candidates)) lookup.(inspected) lookup.(truncated).
Definition view_resolve_include (target_text source_dir : string) (include_roots : list string) (st : IncludePathView * W) :
    IncludeResolution * (IncludePathView * W) :=
  resolve_include_with_lookup view_contains target_text source_dir include_roots (suffix_candidates st.1) st.
End view.

(** The process-wide cache, seen by one view: a failed send is handled before the lookup
    returns. *)
#[export] Instance system_cache : ProbeCache ProbeSystem := {
  lookup_or_schedule candidate attempts s :=
    if negb (probe_applies candidate) then (LookupNotApplicable, attempts, s)
    else
      let '(answer, c, attempts, send) := lookup_locked candidate s.(now) attempts s.(cache) in
      let s := mkSystem c s.(channel) (if send then [candidate] ++ s.(unsent) else s.(unsent)) s.(worker) s.(views) s.(now) in
      (answer, attempts, if send then default s (probe_step (TrySend 0) s) else s);
  are_current observations s := observations_are_current observations s.(now) s.(cache);
}.

(** ** What an index holds *)

(** The rows say of a path whether it is there and whether one of them is the workspace's. *)
Definition flagged (rows : list (string * bool)) (path : string) (flag : bool) : Prop :=
  (exists b, (path, b) ∈ rows) /\ (flag = true <-> (path, true) ∈ rows).
Lemma flagged_perm rows rows' path flag : rows ≡ₚ rows' -> flagged rows path flag -> flagged rows' path flag.
Proof. intros Hp [[b Hb] Hf]. split; [exists b; by rewrite <- Hp|]. by rewrite <- Hp. Qed.
Lemma flagged_unique rows path f f' : flagged rows path f -> flagged rows path f' -> f = f'.
Proof. intros [_ H] [_ H']. apply eq_true_iff_eq. by rewrite H, H'. Qed.
Lemma flagged_head path b rows : (forall c, (path, c) ∉ rows) -> flagged ((path, b) :: rows) path b.
Proof.
  intros Hn. split; [exists b; by left|]. rewrite elem_of_cons. split; [intros ->; by left|]. intros [[= ->]|Hin]; [done|]. by destruct (Hn true).
Qed.
Lemma flagged_merge p a b rows path flag : flagged ((p, a) :: (p, b) :: rows) path flag <-> flagged ((p, a || b) :: rows) path flag.
Proof.
  unfold flagged. setoid_rewrite elem_of_cons. setoid_rewrite elem_of_cons.
  assert (((path, true) = (p, a) \/ (path, true) = (p, b) \/ (path, true) ∈ rows) <-> ((path, true) = (p, a || b) \/ (path, true) ∈ rows)) as ->.
  { destruct a, b; cbn; naive_solver. }
  naive_solver.
Qed.
Lemma flagged_skip q b rows path flag : path <> q -> flagged ((q, b) :: rows) path flag <-> flagged rows path flag.
Proof. intros Hne. unfold flagged. setoid_rewrite elem_of_cons. naive_solver. Qed.
Abbreviation rows_sorted := (StronglySorted (cmp_le (cmp_on (@fst string bool) String.compare))).
Lemma rows_sorted_le row rows q b : rows_sorted (row :: rows) -> (q, b) ∈ rows -> row.1 = q \/ string_lt row.1 q.
Proof.
  intros [_ H]%StronglySorted_inv Hin. rewrite Forall_forall in H. destruct (decide (row.1 = q)); [by left|right].
  apply string_le_lt; [|done]. by apply (H (q, b)).
Qed.
Lemma merge_rows_spec rows : forall last, rows_sorted (last :: rows) ->
  increasing fst (merge_rows last rows) /\ (forall p f, (p, f) ∈ merge_rows last rows <-> flagged (last :: rows) p f).
Proof.
  induction rows as [|row rows IH]; intros [p a] Hs; cbn [merge_rows].
  - split; [repeat constructor|]. intros q f. rewrite list_elem_of_singleton. split.
    + intros [= -> ->]. apply flagged_head. by intros c ?%elem_of_nil.
    + intros Hf. pose proof Hf as [[b [= -> ->]%list_elem_of_singleton] _]. f_equal. eapply flagged_unique; [done|].
      apply flagged_head. by intros c ?%elem_of_nil.
  - destruct row as [q b]. cbn [fst snd]. pose proof (StronglySorted_inv Hs) as [Hr Hall]. destruct (String.eqb_spec p q) as [<-|Hne].
    + destruct (IH (p, a || b)) as [Hi He].
      { constructor; [by apply StronglySorted_inv in Hr as [? _]|]. by apply Forall_cons in Hall as [_ ?]. }
      split; [done|]. intros x f. by rewrite He, flagged_merge.
    + destruct (IH (q, b) Hr) as [Hi He]. destruct (rows_sorted_le (p, a) ((q, b) :: rows) q b Hs ltac:(by left)) as [?|Hpq]; [done|]. cbn in Hpq.
      assert (forall c x, (x, c) ∈ (q, b) :: rows -> string_lt p x) as Hlt.
      { intros c x [[= -> ->]|Hc]%elem_of_cons; [done|].
        destruct (rows_sorted_le (q, b) rows x c Hr Hc) as [<-|Hqx]; [done|]. by etrans. }
      assert (forall c, (p, c) ∉ (q, b) :: rows) as Hp by (intros c Hc%Hlt; by apply string_lt_ne in Hc).
      split.
      * constructor; [done|]. apply Forall_forall. intros [x f] [[c Hx] _]%He. by apply (Hlt c x).
      * intros x f. rewrite elem_of_cons, He. destruct (decide (x = p)) as [->|Hx].
        -- split; [intros [[= ->]|[[c Hc] _]]; [by apply flagged_head|by destruct (Hp c)]|].
           intros Hf. left. f_equal. eapply flagged_unique; [done|]. by apply flagged_head.
        -- rewrite (flagged_skip p a) by done. naive_solver.
Qed.
Lemma deduplicated_spec rows : increasing fst (deduplicated rows) /\ forall p f, (p, f) ∈ deduplicated rows <-> flagged rows p f.
Proof.
  unfold deduplicated. pose proof (sort_by_perm (cmp_on fst String.compare) rows) as Hp.
  pose proof (sort_by_sorted (cmp_on fst String.compare) rows) as Hs. destruct (sort_by _ rows) as [|row l].
  - apply Permutation_nil_l in Hp. subst rows. split; [constructor|]. intros p f. split; [by intros ?%elem_of_nil|]. by intros [[b ?%elem_of_nil] _].
  - assert (forall x f, (x, f) ∈ merge_rows row l <-> flagged rows x f) as E; [|split; [by apply merge_rows_spec|done]].
    intros x f. rewrite (proj2 (merge_rows_spec l row Hs)). split; by apply flagged_perm.
Qed.

(** The postings of the deduplicated rows. *)
Lemma postings_spec d name : StronglySorted lt (default [] (postings d !! name)) /\
  forall i, i ∈ default [] (postings d !! name) <-> exists path, d !! i = Some (path, true) /\ last_segment path = name.
Proof.
  unfold postings. induction d as [|[path flag] d IH] using rev_ind.
  { split; [constructor|]. intros i. split; [by intros ?%elem_of_nil|]. by intros (? & ? & _). }
  rewrite imap_app, foldl_app. cbn [imap foldl fst snd compose]. destruct IH as [Hs He].
  set (m := foldl _ ∅ (imap _ d)) in *. rewrite Nat.add_0_r.
  assert (forall i, (exists p, (d ++ [(path, flag)]) !! i = Some (p, true) /\ last_segment p = name) <->
    (exists p, d !! i = Some (p, true) /\ last_segment p = name) \/ (i = length d /\ flag = true /\ last_segment path = name)) as Hi.
  { intros i. split.
    - intros (p & [Hl|(Hl & Hr)]%lookup_app_Some & Hn); [left; by exists p|right].
      apply list_lookup_singleton_Some in Hr as [? [= -> ->]]. split; [lia|done].
    - intros [(p & Hl & Hn)|(-> & -> & Hn)]; [exists p; split; [by apply lookup_app_l_Some|done]|].
      exists path. split; [|done]. by rewrite lookup_app_r, Nat.sub_diag by lia. }
  destruct flag.
  2: { split; [done|]. intros i. rewrite Hi, He. naive_solver. }
  rewrite push_map_named. destruct (String.eqb_spec (last_segment path) name) as [Hn|Hn]; [|rewrite app_nil_r].
  2: { split; [done|]. intros i. rewrite Hi, He. naive_solver. }
  split.
  - apply StronglySorted_snoc; [done|]. apply Forall_forall. intros i (p & Hl & _)%He. by apply lookup_lt_Some in Hl.
  - intros i. rewrite elem_of_app, Hi, He, list_elem_of_singleton. naive_solver.
Qed.

(** The tables of an index are those of some deduplicated rows. *)
Record represents (idx : IncludePathIndex) (d : list (string * bool)) : Prop := {
  rp_increasing : increasing fst d;
  rp_paths : idx.(paths) = d.*1;
  rp_postings : idx.(workspace_by_basename) = postings d;
}.
Lemma search_positions l pos : StronglySorted lt l -> is_Some (binary_search (fun p => Nat.compare p pos) l) <-> pos ∈ l.
Proof.
  intros Hs. split.
  - intros [i (e & He & E%Nat.compare_eq_iff)%binary_search_Some]. subst e. by eapply list_elem_of_lookup_2.
  - intros [i Hi]%list_elem_of_lookup. exists i. eapply binary_search_finds; [|done|apply Nat.compare_refl].
    apply (splits_on id Nat.compare). eapply StronglySorted_weaken; [|exact Hs]. intros a b. apply Nat.compare_lt_iff.
Qed.
Lemma base_membership_iff idx d path flag : represents idx d -> base_membership idx path = Some flag <-> (path, flag) ∈ d.
Proof.
  intros [Hi Hp Hw]. unfold base_membership. rewrite Hp, Hw.
  assert (increasing id d.*1) as Hi'.
  { clear -Hi. induction Hi as [|x d Hd IH Hx]; csimpl; constructor; [done|]. rewrite Forall_fmap. done. }
  assert (forall pos p f, d !! pos = Some (p, f) ->
    match postings d !! last_segment p with
    | Some positions => bool_decide (is_Some (binary_search (fun q => Nat.compare q pos) positions))
    | None => false end = f) as Hflag.
  { intros pos p f Hd. destruct (postings_spec d (last_segment p)) as [Hs He].
    assert (pos ∈ default [] (postings d !! last_segment p) <-> f = true) as E.
    { rewrite He, Hd. split; [by intros (? & [= <- ->] & _)|intros ->; by exists p]. }
    destruct (postings d !! last_segment p) as [l|]; cbn [default] in *.
    - apply eq_true_iff_eq. rewrite bool_decide_eq_true, search_positions by done. done.
    - destruct f; [|done]. by pose proof (proj2 E eq_refl) as ?%elem_of_nil. }
  pose proof (fun i => search_increasing id d.*1 path i Hi') as Hsearch. split.
  - intros (pos & (e & He & E)%Hsearch & [= <-])%bind_Some. cbn in E. subst e.
    apply list_lookup_fmap_Some in He as ([p f] & E & Hd). cbn in E. subst p. rewrite (Hflag pos path f Hd). by eapply list_elem_of_lookup_2.
  - intros [pos Hd]%list_elem_of_lookup. apply bind_Some. exists pos. split; [|f_equal; by apply Hflag].
    apply Hsearch. exists path. split; [|done]. by rewrite list_lookup_fmap, Hd.
Qed.
Lemma build_represents alloc rows : represents (build alloc rows) (deduplicated rows).
Proof. by split; [apply deduplicated_spec|..]. Qed.

(** The files an index stands for: every path with the workspace's flag. *)
Definition add_row (m : gmap string bool) (row : string * bool) : gmap string bool :=
  <[row.1 := default false (m !! row.1) || row.2]> m.
Definition rows_map (rows : list (string * bool)) : gmap string bool := foldl add_row ∅ rows.
Definition change_path (fresh : gmap string bool) (m : gmap string bool) (path : string) : gmap string bool :=
  match fresh !! path with Some flag => <[path := flag]> m | None => delete path m end.
Definition changed_map (m : gmap string bool) (changed : list string) (rows : list (string * bool)) : gmap string bool :=
  foldl (change_path (fresh_rows rows)) m changed.
Lemma rows_map_flagged rows path flag : rows_map rows !! path = Some flag <-> flagged rows path flag.
Proof.
  unfold rows_map. revert flag. induction rows as [|[q b] rows IH] using rev_ind; intros flag.
  { split; [done|]. by intros [[b ?%elem_of_nil] _]. }
  rewrite foldl_app. cbn [foldl]. unfold add_row at 1. cbn [fst snd].
  assert (flagged (rows ++ [(q, b)]) path flag <-> flagged ((q, b) :: rows) path flag) as ->.
  { split; apply flagged_perm; by rewrite Permutation_app_comm. }
  destruct (decide (path = q)) as [->|Hne].
  - rewrite lookup_insert_eq. destruct (foldl add_row ∅ rows !! q) as [f|] eqn:E.
    + cbn [default]. destruct (proj1 (IH f) eq_refl) as [[c Hc] Hf].
      assert (flagged ((q, b) :: rows) q (f || b)) as Hfl.
      { split; [exists b; by left|]. rewrite orb_true_iff, Hf, elem_of_cons. destruct b; naive_solver. }
      split; [intros [= <-]; done|]. intros H. f_equal. by eapply flagged_unique.
    + cbn [default orb]. assert (flagged ((q, b) :: rows) q b) as Hfl.
      { apply flagged_head. intros c Hc. destruct (decide ((q, true) ∈ rows)) as [Ht|Ht].
        - enough (None = Some true) by done. apply IH. split; [by exists c|done].
        - enough (None = Some false) by done. apply IH. split; [by exists c|]. by split. }
      split; [intros [= <-]; done|]. intros H. f_equal. by eapply flagged_unique.
  - rewrite lookup_insert_ne, IH, flagged_skip by done. done.
Qed.
Lemma changed_map_lookup m changed rows path :
  changed_map m changed rows !! path = if decide (path ∈ changed) then fresh_rows rows !! path else m !! path.
Proof.
  unfold changed_map. induction changed as [|p changed IH] using rev_ind.
  { by rewrite decide_False by (by intros ?%elem_of_nil). }
  rewrite foldl_app. cbn [foldl]. unfold change_path at 1. destruct (decide (path = p)) as [->|Hne].
  - rewrite (decide_True (P := p ∈ changed ++ [p])) by (apply elem_of_app; right; by left).
    destruct (fresh_rows rows !! p); [apply lookup_insert_eq|apply lookup_delete_eq].
  - assert ((path ∈ changed ++ [p]) <-> path ∈ changed) as E.
    { rewrite elem_of_app, list_elem_of_singleton. naive_solver. }
    rewrite (decide_ext _ (path ∈ changed) _ _ E), <- IH. destruct (fresh_rows rows !! p); [by rewrite lookup_insert_ne|by rewrite lookup_delete_ne].
Qed.

(** An index as it is published and updated, with the files it stands for. *)
Inductive published (alloc : PathAllocation) : IncludePathIndex -> gmap string bool -> Prop :=
  | published_build rows : published alloc (build alloc rows) (rows_map rows)
  | published_update idx m changed rows idx' :
      published alloc idx m -> updated_paths alloc idx changed rows = Some idx' ->
      published alloc idx' (changed_map m changed rows).
Record index_ok (idx : IncludePathIndex) (m : gmap string bool) : Prop := {
  io_represents : exists d, represents idx d;
  io_membership path : membership idx path = m !! path;
  io_minimal path v : idx.(updates) !! path = Some v -> base_membership idx path <> v;
  io_bound : (size idx.(updates) <= 256)%nat;
}.
Lemma base_membership_updates idx u b path : base_membership (mkPathIndex idx.(paths) idx.(workspace_by_basename) u b) path = base_membership idx path.
Proof. done. Qed.
Lemma update_steps_lookup idx fresh updates changed path :
  foldl (update_step idx fresh) updates changed !! path =
  if decide (path ∈ changed) then (if bool_decide (base_membership idx path = fresh !! path) then None else Some (fresh !! path)) else updates !! path.
Proof.
  induction changed as [|p changed IH] using rev_ind.
  { by rewrite decide_False by (by intros ?%elem_of_nil). }
  rewrite foldl_app. cbn [foldl]. unfold update_step at 1. destruct (decide (path = p)) as [->|Hne].
  - rewrite (decide_True (P := p ∈ changed ++ [p])) by (apply elem_of_app; right; by left).
    case_bool_decide; [apply lookup_delete_eq|apply lookup_insert_eq].
  - assert ((path ∈ changed ++ [p]) <-> path ∈ changed) as E.
    { rewrite elem_of_app, list_elem_of_singleton. naive_solver. }
    rewrite (decide_ext _ (path ∈ changed) _ _ E), <- IH.
    destruct (bool_decide (base_membership idx p = fresh !! p)); [by rewrite lookup_delete_ne|by rewrite lookup_insert_ne].
Qed.
Lemma updated_ok alloc idx m changed rows idx' : index_ok idx m -> updated_paths alloc idx changed rows = Some idx' ->
  index_ok idx' (changed_map m changed rows).
Proof.
  intros [Hr Hm Hmin Hb] H. unfold updated_paths in H. destruct (256 <? length changed)%nat; [done|].
  set (fresh := fresh_rows rows) in *. destruct (forallb _ changed) eqn:Ef.
  - injection H as <-. split; [done| |done..]. intros p. rewrite changed_map_lookup, Hm. case_decide as Hp; [|done]. fold fresh.
    rewrite forallb_forall in Ef. specialize (Ef p). rewrite bool_decide_eq_true in Ef. rewrite <- Hm. apply Ef. by apply list_elem_of_In.
  - set (updates' := foldl (update_step idx fresh) (updates idx) changed) in *.
    destruct ((256 <? size updates')%nat || _) eqn:El; [done|]. injection H as <-. apply orb_false_iff in El as [El%Nat.ltb_ge _].
    assert (forall p, updates' !! p = if decide (p ∈ changed) then (if bool_decide (base_membership idx p = fresh !! p) then None else Some (fresh !! p)) else updates idx !! p) as Hu
      by (intros p; apply update_steps_lookup).
    split; cbn [IncludePaths.updates]; [|..|done].
    + destruct Hr as [d []]. exists d. by split.
    + intros p. rewrite changed_map_lookup. fold fresh. unfold membership. cbn [IncludePaths.updates]. rewrite Hu, base_membership_updates.
      case_decide as Hp; [|apply Hm]. by case_bool_decide.
    + intros p v. rewrite Hu, base_membership_updates. case_decide; [|apply Hmin]. case_bool_decide as E; [done|]. by intros [= <-].
Qed.
Lemma published_ok alloc idx m : published alloc idx m -> index_ok idx m.
Proof.
  induction 1 as [rows|idx m changed rows idx' _ IH H]; [|by eapply updated_ok].
  pose proof (build_represents alloc rows) as Hr. split; [by eexists| |done|cbn; rewrite map_size_empty; lia].
  intros p. apply option_eq. intros f. rewrite rows_map_flagged. unfold membership. cbn [build updates]. rewrite lookup_empty.
  rewrite (base_membership_iff _ _ p f Hr). apply deduplicated_spec.
Qed.

(** ** What a suffix lookup finds *)

(** A loop ends after all its paths, or at a limit. *)
Lemma scan_spec matches scan_limit candidate_limit l : forall lookup,
  (lookup.(inspected) <= scan_limit)%N -> (N.of_nat (length lookup.(candidates)) <= candidate_limit)%N ->
  let r := scan_candidates matches scan_limit candidate_limit l lookup in
  (r.(inspected) <= scan_limit)%N /\ (N.of_nat (length r.(candidates)) <= candidate_limit)%N /\
  (forall p, p ∈ r.(candidates) -> p ∈ lookup.(candidates) \/ (p ∈ l /\ matches p = true)) /\
  (r.(truncated) = false -> lookup.(truncated) = false /\ r.(candidates) = lookup.(candidates) ++ List.filter matches l /\
     r.(inspected) = (lookup.(inspected) + N.of_nat (length l))%N) /\
  (lookup.(truncated) = false -> (lookup.(inspected) + N.of_nat (length l) <= scan_limit)%N ->
     (N.of_nat (length (lookup.(candidates) ++ List.filter matches l)) <= candidate_limit)%N -> r.(truncated) = false).
Proof.
  induction l as [|p l IH]; intros lookup Hi Hc r; unfold r; cbn [scan_candidates].
  { split_conj; try done; [by left|]. intros Ht. cbn. by rewrite app_nil_r, N.add_0_r. }
  destruct (N.leb_spec scan_limit (inspected lookup)) as [Hfull|Hroom].
  { cbn [candidates inspected truncated]. split_conj; try done; [by left|]. cbn [length]. lia. }
  cbn [List.filter length]. destruct (matches p) eqn:Em; cbn [negb].
  - destruct (N.leb_spec candidate_limit (N.of_nat (length (candidates lookup)))) as [Hcf|Hcr].
    + cbn [candidates inspected truncated]. split_conj; try done; [lia|by left|]. rewrite length_app. cbn [length]. lia.
    + edestruct (IH (mkLookup (candidates lookup ++ [p]) (inspected lookup + 1) (truncated lookup))) as (H1 & H2 & H3 & H4 & H5);
        cbn [candidates inspected truncated] in *; [lia|rewrite length_app; cbn; lia|]. split_conj; [done|done| | |].
      * intros x [Hx|[Hx Hm]]%H3; [|right; split; [by right|done]].
        apply elem_of_app in Hx as [?| ->%list_elem_of_singleton]; [by left|right; split; [by left|done]].
      * intros Ht%H4. destruct Ht as (Ht & Ec & Ein). rewrite Ec, <- app_assoc. split_conj; [done|done|lia].
      * intros Ht Hin Hcl. apply H5; [done|lia|]. by rewrite <- app_assoc.
  - edestruct (IH (mkLookup (candidates lookup) (inspected lookup + 1) (truncated lookup))) as (H1 & H2 & H3 & H4 & H5);
      cbn [candidates inspected truncated] in *; [lia|done|]. split_conj; [done|done| | |].
    * intros x [Hx|[Hx Hm]]%H3; [by left|right; split; [by right|done]].
    * intros Ht%H4. destruct Ht as (Ht & Ec & Ein). split_conj; [done|done|lia].
    * intros Ht Hin Hcl. apply H5; [done|lia|done].
Qed.
Lemma elem_of_updated_named idx basename p : p ∈ updated_named idx basename <-> idx.(updates) !! p = Some (Some true) /\ last_segment p = basename.
Proof.
  unfold updated_named. rewrite list_elem_of_fmap. split.
  - intros ([q v] & -> & [Hin [Hv%bool_decide_eq_true Hn%String.eqb_eq]%andb_true_iff]%elem_of_filter_bool).
    cbn in *. subst v. by apply elem_of_btree_entries in Hin.
  - intros [Hu Hn]. exists (p, Some true). split; [done|]. apply elem_of_filter_bool. split; [by apply elem_of_btree_entries|].
    cbn [fst snd]. by rewrite bool_decide_eq_true_2, (proj2 (String.eqb_eq _ _) Hn).
Qed.
Lemma elem_of_posted idx d basename p : represents idx d -> p ∈ posted idx basename <-> base_membership idx p = Some true /\ last_segment p = basename.
Proof.
  intros Hr. rewrite (base_membership_iff idx d p true Hr). destruct Hr as [Hi Hp Hw]. unfold posted. rewrite Hw, Hp, list_elem_of_omap.
  destruct (postings_spec d basename) as [_ He]. setoid_rewrite He. split.
  - intros (i & (q & Hd & Hn) & Hl). rewrite list_lookup_fmap, Hd in Hl. injection Hl as <-. split; [by eapply list_elem_of_lookup_2|done].
  - intros [[i Hd]%list_elem_of_lookup Hn]. exists i. split; [by exists p|]. by rewrite list_lookup_fmap, Hd.
Qed.
(** Whatever the limits: candidates are workspace files that match, and without a cut all of
    them. *)
Lemma bounded_lookup_exact idx m rel scan_limit candidate_limit : index_ok idx m ->
  let r := suffix_candidates_bounded idx (last_segment rel) (rel, "/" +:+ rel) scan_limit candidate_limit in
  increasing id r.(candidates) /\
  (forall p, p ∈ r.(candidates) -> m !! p = Some true /\ matches_suffix (rel, "/" +:+ rel) p = true) /\
  (r.(truncated) = false -> forall p, p ∈ r.(candidates) <-> m !! p = Some true /\ matches_suffix (rel, "/" +:+ rel) p = true) /\
  (r.(inspected) <= scan_limit)%N /\ (N.of_nat (length r.(candidates)) <= candidate_limit)%N.
Proof.
  intros [[d Hd] Hm _ _] r. unfold r, suffix_candidates_bounded. clear r.
  set (sfx := (rel, "/" +:+ rel)). set (base := last_segment rel).
  destruct (scan_spec (matches_suffix sfx) scan_limit candidate_limit (updated_named idx base) empty_lookup) as (H1 & H2 & H3 & H4 & _);
    [cbn; lia..|]. set (first := scan_candidates (matches_suffix sfx) _ _ _ _) in *.
  destruct (scan_spec (fun c => bool_decide (updates idx !! c = None) && matches_suffix sfx c) scan_limit candidate_limit (posted idx base) first) as (K1 & K2 & K3 & K4 & _);
    [done..|]. set (second := scan_candidates _ _ _ _ first) in *. cbn [candidates inspected truncated].
  assert (forall p, (p ∈ updated_named idx base /\ matches_suffix sfx p = true) \/
      (p ∈ posted idx base /\ bool_decide (updates idx !! p = None) && matches_suffix sfx p = true) <->
    m !! p = Some true /\ matches_suffix sfx p = true) as Hall.
  { intros p. rewrite elem_of_updated_named, (elem_of_posted idx d base p Hd), andb_true_iff, bool_decide_eq_true, <- Hm. unfold membership.
    assert (matches_suffix sfx p = true -> last_segment p = base) as Hseg by apply matches_suffix_segment.
    destruct (updates idx !! p) as [v|]; naive_solver. }
  split; [apply sorted_unique_increasing|]. split_conj.
  - intros p Hp. rewrite elem_of_sorted_unique in Hp. apply Hall. destruct (K3 p Hp) as [Hp'|?]; [|by right]. destruct (H3 p Hp') as [?%elem_of_nil|?]; [done|by left].
  - intros Ht p. destruct (K4 Ht) as (Ht1 & -> & _). destruct (H4 Ht1) as (_ & -> & _).
    rewrite elem_of_sorted_unique, elem_of_app. cbn [app empty_lookup candidates]. rewrite !elem_of_filter_bool. apply Hall.
  - done.
  - assert (length (sorted_unique (candidates second)) <= length (candidates second))%nat; [|lia].
    unfold sorted_unique. rewrite <- (sort_by_length String.compare (candidates second)). apply dedup_length.
Qed.

(** Publishing changes is as good as rebuilding: after any number of bounded updates the
    index answers for every path what the rows say now, a suffix lookup that is not cut
    returns exactly the workspace files that are the path or end in it, in order, and a
    cut one returns some of them; the limits hold, and at most 256 paths differ from the
    base. *)
Theorem index_history alloc idx m rel scan_limit candidate_limit : published alloc idx m ->
  let r := suffix_candidates_bounded idx (last_segment rel) (rel, "/" +:+ rel) scan_limit candidate_limit in
  (forall path, membership idx path = m !! path) /\ (delta_count idx <= 256)%nat /\
  increasing id r.(candidates) /\
  (forall p, p ∈ r.(candidates) -> m !! p = Some true /\ matches_suffix (rel, "/" +:+ rel) p = true) /\
  (r.(truncated) = false -> forall p, p ∈ r.(candidates) <-> m !! p = Some true /\ matches_suffix (rel, "/" +:+ rel) p = true) /\
  (r.(inspected) <= scan_limit)%N /\ (N.of_nat (length r.(candidates)) <= candidate_limit)%N.
Proof.
  intros Hp%published_ok r. split; [apply Hp|]. split; [apply Hp|]. by apply bounded_lookup_exact.
Qed.

(** ** A view *)

Lemma find_ext {A} (f g : A -> bool) l : (forall x, x ∈ l -> f x = g x) -> List.find f l = List.find g l.
Proof.
  induction l as [|x l IH]; intros H; [done|]. cbn [List.find]. rewrite <- (H x) by left. destruct (f x); [done|].
  apply IH. intros y Hy. apply H. by right.
Qed.

Lemma by_name_spec delta name : increasing id (default [] (by_name delta !! name)) /\
  forall p, p ∈ default [] (by_name delta !! name) <-> p ∈ delta /\ last_segment p = name.
Proof.
  unfold by_name. rewrite lookup_fmap.
  assert (forall l, forall p, p ∈ default [] (foldl (fun m path => push_map m (last_segment path) path) ∅ l !! name) <-> p ∈ l /\ last_segment p = name) as H.
  { induction l as [|q l IH] using rev_ind; intros p.
    { cbn [foldl]. rewrite lookup_empty. split; [by intros ?%elem_of_nil|by intros [?%elem_of_nil _]]. }
    rewrite foldl_app. cbn [foldl]. rewrite push_map_named, !elem_of_app, IH, list_elem_of_singleton.
    destruct (String.eqb_spec (last_segment q) name) as [E|E]; [rewrite list_elem_of_singleton|rewrite elem_of_nil]; naive_solver. }
  specialize (H (elements delta)). destruct (foldl _ ∅ (elements delta) !! name) as [l|]; cbn [fmap option_fmap option_map from_option id] in *.
  - split; [apply sorted_unique_increasing|]. intros p. by rewrite elem_of_sorted_unique, H, elem_of_elements.
  - split; [constructor|]. intros p. by rewrite H, elem_of_elements.
Qed.

Section answers.
Context `{ProbeCache W}.
Implicit Types (v : IncludePathView) (w : W).

(** Two views of the same base and documents. *)
Definition same_files v v' : Prop :=
  v'.(base) = v.(base) /\ v'.(delta_paths) = v.(delta_paths) /\ v'.(delta_by_basename) = v.(delta_by_basename).
#[export] Instance same_files_preorder : PreOrder same_files.
Proof. split; [by intros v|]. intros v1 v2 v3 (?&?&?) (?&?&?). unfold same_files. split_conj; congruence. Qed.
Lemma same_files_known v v' c : same_files v v' -> known v' c = known v c.
Proof. intros (Hb & Hd & _). unfold known. by rewrite Hb, Hd. Qed.
Lemma record_observation_frame o v : same_files v (record_observation o v) /\ (record_observation o v).(probe_pending) = v.(probe_pending).
Proof. unfold record_observation. destruct (observe _ _); [done|]. by case_match. Qed.

(** What is on disk; the cache tells the truth when it answers. *)
Context (applies on_disk : string -> bool).
Context (Happlies : forall c a w, (lookup_or_schedule c a w).1.1 = LookupNotApplicable <-> applies c = false).
Context (Htrue : forall c a w ex u ver, (lookup_or_schedule c a w).1.1 = LookupReady ex u ver -> ex = on_disk c).
Definition there v (c : string) : bool := known v c || (applies c && on_disk c).
Lemma view_contains_spec c v w found v' w' : view_contains c (v, w) = (found, (v', w')) ->
  same_files v v' /\ (v'.(probe_pending) = false -> v.(probe_pending) = false /\ found = there v c).
Proof.
  unfold view_contains, there. destruct (known v c) eqn:Ek; [by intros [= <- <- <-]|]. cbn [orb].
  pose proof (Happlies c v.(probe_enqueue_attempts) w) as Ha. pose proof (fun ex u ver => Htrue c v.(probe_enqueue_attempts) w ex u ver) as Ht.
  destruct (lookup_or_schedule c _ w) as [[answer attempts] w1]. cbn [fst] in *. destruct answer as [| |ex u ver]; intros [= <- <- <-].
  - split; [done|]. intros Hp. split; [done|]. by rewrite (proj1 Ha eq_refl).
  - done.
  - destruct (record_observation_frame (mkObservation c ver u) (with_attempts v attempts)) as [Hs Hp]. rewrite Hp. split; [by etrans|].
    intros Hp'. split; [done|]. rewrite <- (Ht ex u ver eq_refl). destruct (applies c) eqn:Ea; [done|]. by pose proof (proj2 Ha eq_refl).
Qed.
Lemma view_probes l : forall v w hit v' w', probe_first view_contains l (v, w) = (hit, (v', w')) ->
  same_files v v' /\ (v'.(probe_pending) = false -> v.(probe_pending) = false /\ hit = List.find (fun c => there v c.1) l).
Proof.
  induction l as [|c l IH]; intros v w hit v' w'; cbn [probe_first List.find]; [by intros [= <- <- <-]|].
  destruct (view_contains c.1 (v, w)) as [found [v1 w1]] eqn:E. apply view_contains_spec in E as [Hs Hc]. destruct found.
  - intros [= <- <- <-]. split; [done|]. intros Hp. destruct (Hc Hp) as [? <-]. done.
  - intros Hl. destruct (IH _ _ _ _ _ Hl) as [Hs' Hl']. split; [by etrans|]. intros Hp. destruct (Hl' Hp) as [Hp1 ->]. destruct (Hc Hp1) as [? <-].
    split; [done|]. apply find_ext. intros x _. unfold there. by rewrite (same_files_known v v1).
Qed.
End answers.

(** The files a view offers to the suffix tier. *)
Definition offered (m : gmap string bool) (overlay : list string) (p : string) : Prop := m !! p = Some true \/ (p ∈ overlay /\ m !! p = None).
Lemma elem_of_delta alloc idx m overlay p : published alloc idx m -> p ∈ delta_of (Some idx) overlay <-> p ∈ overlay /\ m !! p = None.
Proof.
  intros [_ Hm _ _]%published_ok. unfold delta_of. rewrite elem_of_list_to_set, elem_of_filter_bool. cbn [in_base].
  unfold index_contains. rewrite Hm, negb_true_iff, bool_decide_eq_false, eq_None_not_Some. done.
Qed.
Lemma known_new alloc idx m overlay p : published alloc idx m ->
  known (new_view (Some idx) overlay) p = true <-> is_Some (m !! p) \/ p ∈ overlay.
Proof.
  intros Hp. unfold known, new_view. cbn [delta_paths base in_base]. rewrite orb_true_iff, bool_decide_eq_true, (elem_of_delta _ _ m) by done.
  destruct (published_ok _ _ _ Hp) as [_ Hm _ _]. unfold index_contains. rewrite bool_decide_eq_true, Hm.
  destruct (m !! p) as [f|] eqn:E; [split; [by left|by right; eexists]|]. split; [intros [[? _]|[? ?]]; [by right|done]|].
  intros [[? ?]|?]; [done|by left].
Qed.
Lemma view_lookup_exact alloc idx m overlay rel v : published alloc idx m -> same_files (new_view (Some idx) overlay) v ->
  let r := suffix_candidates v (last_segment rel) (rel, "/" +:+ rel) in
  r.(truncated) = false -> forall p, p ∈ r.(candidates) <-> offered m overlay p /\ matches_suffix (rel, "/" +:+ rel) p = true.
Proof.
  intros Hpub (Hb & _ & Hn) r. unfold r, suffix_candidates. rewrite Hb, Hn. cbn [base delta_by_basename new_view]. clear r.
  set (sfx := (rel, "/" +:+ rel)). set (name := last_segment rel). set (l := default [] _).
  destruct (scan_spec (matches_suffix sfx) REQUEST_SUFFIX_SCAN_LIMIT REQUEST_SUFFIX_CANDIDATE_LIMIT l empty_lookup) as (H1 & H2 & H3 & H4 & _);
    [cbn; lia..|]. set (first := scan_candidates _ _ _ l _) in *.
  destruct (bounded_lookup_exact idx m rel (REQUEST_SUFFIX_SCAN_LIMIT -s inspected first)
    (REQUEST_SUFFIX_CANDIDATE_LIMIT -s N.of_nat (length (candidates first))) (published_ok _ _ _ Hpub)) as (_ & _ & He & _ & _).
  fold sfx name in He. set (second := suffix_candidates_bounded _ _ _ _ _) in *. cbn [truncated candidates].
  intros [Ht1 Ht2]%orb_false_iff p. destruct (H4 Ht1) as (_ & Ec & _). rewrite elem_of_sorted_unique, elem_of_app, (He Ht2), Ec.
  cbn [empty_lookup candidates app]. rewrite elem_of_filter_bool. unfold l. rewrite (proj2 (by_name_spec _ name)), (elem_of_delta _ _ m) by done.
  assert (matches_suffix sfx p = true -> last_segment p = name) as Hseg by apply matches_suffix_segment. unfold offered. naive_solver.
Qed.

Section agreement.
Context `{ProbeCache W} (alloc : PathAllocation) (idx : IncludePathIndex) (m : gmap string bool) (overlay : list string).
Context (applies on_disk : string -> bool) (files : list FileRow) (include_roots : list string).
Implicit Types (v : IncludePathView) (w : W).

(** The cache answers truthfully, and the indexer will have seen the published files, the
    open documents and the external files on disk. *)
Record indexed_later : Prop := {
  il_applies c a w : (lookup_or_schedule c a w).1.1 = LookupNotApplicable <-> applies c = false;
  il_true c a w ex u ver : (lookup_or_schedule c a w).1.1 = LookupReady ex u ver -> ex = on_disk c;
  il_published : published alloc idx m;
  il_all p : p ∈ all_paths files <-> is_Some (m !! p) \/ p ∈ overlay \/ (applies p = true /\ on_disk p = true);
  il_workspace p : (exists id, (id, p, "workspace") ∈ files) <-> offered m overlay p;
}.
Definition uncut v (target : string) : Prop :=
  forall form rel, normalize_include_target target = Some (form, rel) ->
    (suffix_candidates v (last_segment rel) (rel, "/" +:+ rel)).(truncated) = false.
Lemma resolve_frame v w target source_dir r v' w' : indexed_later ->
  view_resolve_include target source_dir include_roots (v, w) = (r, (v', w')) ->
  same_files v v' /\ (v'.(probe_pending) = false -> v.(probe_pending) = false).
Proof.
  intros [Happ Htrue _ _ _] Hr. unfold view_resolve_include in Hr. rewrite resolve_probes in Hr.
  destruct (normalize_include_target target) as [[form rel]|]; [|by injection Hr as <- <- <-].
  destruct (probe_first view_contains _ _) as [hit [v1 w1]] eqn:Ep. injection Hr as _ <- _.
  destruct (view_probes applies on_disk Happ Htrue _ _ _ _ _ _ Ep) as [Hs Hp]. split; [done|]. intros Hpend. by destruct (Hp Hpend).
Qed.
Lemma resolve_agrees v w target source_dir r v' w' : indexed_later -> same_files (new_view (Some idx) overlay) v ->
  view_resolve_include target source_dir include_roots (v, w) = (r, (v', w')) ->
  v'.(probe_pending) = false -> uncut v target ->
  r = resolve_include target source_dir include_roots (all_paths files) (by_basename files).
Proof.
  intros [Happ Htrue Hpub Hall Hws] Hv Hr Hpend Hcut. unfold view_resolve_include in Hr. cbn [fst] in Hr.
  rewrite resolve_probes in Hr. unfold resolve_include. rewrite resolve_probes.
  destruct (normalize_include_target target) as [[form rel]|] eqn:En; [|by injection Hr as <-]. specialize (Hcut form rel En).
  rewrite (probe_first_pure _ (fun c => bool_decide (c ∈ all_paths files))) by done. cbn [fst].
  set (tiers := tier_candidates form rel source_dir include_roots) in *.
  destruct (probe_first view_contains tiers _) as [hit [v1 w1]] eqn:Ep.
  destruct (view_probes applies on_disk Happ Htrue _ _ _ _ _ _ Ep) as [Hs Hp]. injection Hr as <- -> ->.
  destruct (Hp Hpend) as [_ ->].
  assert (forall c, there applies on_disk v c = bool_decide (c ∈ all_paths files)) as Eth.
  { intros c. apply eq_true_iff_eq. unfold there. rewrite (same_files_known _ v c Hv).
    rewrite bool_decide_eq_true, Hall, orb_true_iff, andb_true_iff, (known_new alloc idx m) by done. tauto. }
  rewrite (find_ext _ (fun c => bool_decide (c.1 ∈ all_paths files))) by (intros; apply Eth).
  match goal with |- match ?a with _ => _ end = match ?b with _ => _ end => change b with a; destruct a as [[dst kind]|]; [done|] end.
  pose proof (view_lookup_exact alloc idx m overlay rel v Hpub Hv Hcut) as Hl.
  unfold suffix_outcome at 1. rewrite Hcut. unfold suffix_outcome. cbn [truncated candidates].
  set (k := List.filter _ _). assert (sorted_unique (candidates (suffix_candidates v (last_segment rel) (rel, "/" +:+ rel))) = sorted_unique k) as ->; [|done].
  symmetry. apply sorted_unique_eq; [apply sorted_unique_increasing|]. intros p. rewrite elem_of_sorted_unique, Hl. unfold k.
  rewrite elem_of_filter_bool, elem_of_by_basename, <- Hws.
  assert (matches_suffix (rel, "/" +:+ rel) p = true -> last_segment p = last_segment rel) as Hseg by apply matches_suffix_segment. naive_solver.
Qed.
End agreement.

(** ** The live edges of a request (candidate_service.rs)

    The open documents' includes, resolved through one view, and the reach graph they
    override. *)

Record OverlayDocuments : Type := mkDocuments {
  shadowed_paths : list string;   (* in order *)
  unavailable_paths : gset string;
  includes_by_path : gmap string (list string);
  go_overlay_packages : list (string * option (string * OpenReason));
}.
Definition LiveEdge : Type := (string * string * ResolutionKind)%type.

Section live.
Context `{ProbeCache W} (include_roots : list string).
(** The body of the loop over the includes of a document. *)
Definition live_step (source : string) (acc : list LiveEdge * option OpenReason * (IncludePathView * W)) (target_text : string) :
    list LiveEdge * option OpenReason * (IncludePathView * W) :=
  let '(edges, reason, st) := acc in
  match view_resolve_include target_text (dir_of source) include_roots st with
  | (ResolvedEdge dst kind, st) => (edges ++ [(source, dst, kind)], reason, st)
  | (ResolvedAmbiguous dsts, st) =>
      (edges ++ ((fun dst => (source, dst, SuffixMatch)) <$> dsts),
       match reason with None => Some AmbiguousInclude | Some r => Some r end, st)
  | (Unresolved, st) => (edges, Some UnresolvedInclude, st)
  end.
Definition live_source (docs : OverlayDocuments) (acc : list LiveEdge * list (string * OpenReason) * (IncludePathView * W)) (source : string) :
    list LiveEdge * list (string * OpenReason) * (IncludePathView * W) :=
  let '(edges, open, st) := acc in
  if bool_decide (source ∈ docs.(unavailable_paths)) then (edges, open ++ [(source, UnresolvedInclude)], st)
  else
    let '(edges, reason, st) := foldl (live_step source) (edges, None, st) (default [] (docs.(includes_by_path) !! source)) in
    (edges, match reason with Some r => open ++ [(source, r)] | None => open end, st).
Definition live_edges (docs : OverlayDocuments) (st : IncludePathView * W) :
    list LiveEdge * list (string * OpenReason) * (IncludePathView * W) :=
  foldl (live_source docs) ([], [], st) docs.(shadowed_paths).
(** The effective graph and the view, when there are open documents. *)
Definition refresh_reach_graph (docs : OverlayDocuments) (graph : option ReachGraph) (indexed_paths : option IncludePathIndex) (w : W) :
    option (ReachGraph * IncludePathView * W) :=
  match docs.(shadowed_paths) with
  | [] => None
  | sources =>
      let '(edges, open, (v, w)) := live_edges docs (new_view indexed_paths sources, w) in
      let graph := default (new_with_kinds [] [] []) graph in
      Some (with_request_overrides graph sources edges open docs.(go_overlay_packages), v, w)
  end.
End live.

(** What the indexer's resolution makes of the includes of a document. *)
Section expected.
Context (files : list FileRow) (include_roots : list string) (docs : OverlayDocuments).
Definition outcomes (source : string) : list IncludeResolution :=
  resolve_target files include_roots (dir_of source) <$> default [] (docs.(includes_by_path) !! source).
Definition tagged (source : string) (rs : list IncludeResolution) : list LiveEdge :=
  (fun e => (source, e.1, e.2)) <$> concat (resolved_edges <$> rs).
Definition merge_reason (reason : option OpenReason) (rs : list IncludeResolution) : option OpenReason :=
  if existsb is_unresolved rs then Some UnresolvedInclude
  else match reason with
       | Some r => Some r
       | None => if existsb is_ambiguous rs then Some AmbiguousInclude else None
       end.
Definition is_unavailable (source : string) : bool := bool_decide (source ∈ docs.(unavailable_paths)).
Definition expected_edges (source : string) : list LiveEdge := if is_unavailable source then [] else tagged source (outcomes source).
Definition expected_open (source : string) : list (string * OpenReason) :=
  if is_unavailable source then [(source, UnresolvedInclude)]
  else match merge_reason None (outcomes source) with Some r => [(source, r)] | None => [] end.
End expected.

Section live_agreement.
Context `{ProbeCache W} (alloc : PathAllocation) (idx : IncludePathIndex) (m : gmap string bool) (docs : OverlayDocuments).
Context (applies on_disk : string -> bool) (files : list FileRow) (include_roots : list string).
Context (Hlater : indexed_later alloc idx m docs.(shadowed_paths) applies on_disk files).
Implicit Types (v : IncludePathView) (w : W).
Local Abbreviation fresh := (new_view (Some idx) docs.(shadowed_paths)).
Local Abbreviation resolve source t := (resolve_target files include_roots (dir_of source) t).

Lemma uncut_same v v' t : same_files v v' -> uncut v' t -> uncut v t.
Proof. intros (Hb & _ & Hn) Hc form rel E. specialize (Hc form rel E). unfold suffix_candidates in *. by rewrite <- Hb, <- Hn. Qed.
Lemma live_steps source targets : forall edges reason v w edges' reason' v' w', same_files fresh v ->
  foldl (live_step include_roots source) (edges, reason, (v, w)) targets = (edges', reason', (v', w')) ->
  same_files v v' /\ (v'.(probe_pending) = false -> v.(probe_pending) = false /\ ((forall t, t ∈ targets -> uncut v' t) ->
    edges' = edges ++ tagged source ((fun t => resolve source t) <$> targets) /\
    reason' = merge_reason reason ((fun t => resolve source t) <$> targets))).
Proof.
  induction targets as [|t targets IH]; intros edges reason v w edges' reason' v' w' Hv; cbn [foldl].
  { intros [= <- <- <- <-]. split; [done|]. intros Hp. split; [done|]. intros _. cbn. rewrite app_nil_r. split; [done|by destruct reason]. }
  unfold live_step at 2. destruct (view_resolve_include t (dir_of source) include_roots (v, w)) as [r [v1 w1]] eqn:Er.
  destruct (resolve_frame alloc idx m _ applies on_disk files include_roots v w t _ r v1 w1 Hlater Er) as [Hs1 Hp1].
  assert (same_files fresh v1) as Hv1 by by etrans. intros Hf.
  assert (same_files v1 v' /\ (v'.(probe_pending) = false -> v1.(probe_pending) = false /\
    ((forall t, t ∈ targets -> uncut v' t) ->
     edges' = (edges ++ ((fun e => (source, e.1, e.2)) <$> resolved_edges r)) ++ tagged source ((fun t => resolve source t) <$> targets) /\
     reason' = merge_reason (merge_reason reason [r]) ((fun t => resolve source t) <$> targets)))) as [Hs2 Hp2].
  { unfold merge_reason at 2. destruct r as [dst kind|dsts|]; cbn [existsb is_unresolved is_ambiguous orb resolved_edges].
    - replace (match reason with Some r => Some r | None => None end) with reason by (by destruct reason). exact (IH _ _ _ _ _ _ _ _ Hv1 Hf).
    - rewrite <- list_fmap_compose. exact (IH _ _ _ _ _ _ _ _ Hv1 Hf).
    - rewrite app_nil_r. exact (IH _ _ _ _ _ _ _ _ Hv1 Hf). }
  split; [by etrans|]. intros Hp. destruct (Hp2 Hp) as [Hpv1 He]. split; [by apply Hp1|]. intros Hc.
  destruct He as [-> ->]; [intros t' Ht'; apply Hc; by right|].
  assert (r = resolve source t) as ->.
  { eapply (resolve_agrees alloc idx m); [done|exact Hv|done|done|]. eapply uncut_same; [|apply Hc; left]. by etrans. }
  rewrite fmap_cons. unfold tagged. rewrite fmap_cons. cbn [concat]. rewrite fmap_app, <- app_assoc. split; [done|].
  unfold merge_reason. cbn [existsb]. set (rs := (fun t => resolve source t) <$> targets).
  destruct (is_unresolved (resolve source t)) eqn:Eu, (existsb is_unresolved rs), reason, (is_ambiguous (resolve source t)) eqn:Ea, (existsb is_ambiguous rs);
    cbn [orb]; done.
Qed.
Lemma live_sources sources : forall edges open v w edges' open' v' w', same_files fresh v ->
  foldl (live_source include_roots docs) (edges, open, (v, w)) sources = (edges', open', (v', w')) ->
  same_files v v' /\ (v'.(probe_pending) = false -> v.(probe_pending) = false /\
    ((forall source t, source ∈ sources -> t ∈ default [] (docs.(includes_by_path) !! source) -> uncut v' t) ->
     edges' = edges ++ concat (expected_edges files include_roots docs <$> sources) /\
     open' = open ++ concat (expected_open files include_roots docs <$> sources))).
Proof.
  induction sources as [|source sources IH]; intros edges open v w edges' open' v' w' Hv; cbn [foldl].
  { intros [= <- <- <- <-]. split; [done|]. intros Hp. split; [done|]. intros _. cbn. by rewrite !app_nil_r. }
  rewrite !fmap_cons. cbn [concat]. unfold live_source at 2. unfold expected_edges at 1, expected_open at 1. fold (is_unavailable docs source). destruct (is_unavailable docs source).
  - intros Hf. destruct (IH _ _ _ _ _ _ _ _ Hv Hf) as [Hs Hp]. split; [done|]. intros Hpv. destruct (Hp Hpv) as [Hpe He]. split; [done|]. intros Hc.
    destruct He as [-> ->]; [intros s t Hs' Ht; eapply Hc; [by right|done]|]. by rewrite <- app_assoc.
  - destruct (foldl (live_step include_roots source) _ _) as [[edges1 reason] [v1 w1]] eqn:E1.
    destruct (live_steps source _ _ _ _ _ _ _ _ _ Hv E1) as [Hs1 Hp1]. intros Hf.
    assert (same_files fresh v1) as Hv1 by by etrans. destruct (IH _ _ _ _ _ _ _ _ Hv1 Hf) as [Hs Hp]. split; [by etrans|].
    intros Hpv. destruct (Hp Hpv) as [Hpe He]. destruct (Hp1 Hpe) as [Hpv0 He1]. split; [done|]. intros Hc.
    destruct He as [-> ->]; [intros s t Hs' Ht; eapply Hc; [by right|done]|].
    destruct He1 as [-> ->]; [intros t Ht; eapply uncut_same; [done|]; eapply Hc; [by left|done]|].
    rewrite <- !app_assoc. split; [done|]. unfold outcomes. destruct (merge_reason None _); [by rewrite <- app_assoc|done].
Qed.
End live_agreement.

(** C14 What a request computes for its open documents is what the indexer would write: when
    the view may be kept and no suffix lookup was cut, the live edges and the open reasons
    are, document by document and include by include, those of the indexer's resolution
    over the published files, the open documents and the external files on disk, for any
    probe cache whose answers are true. *)
Theorem live_edges_agree `{ProbeCache W} alloc idx m docs (applies on_disk : string -> bool) files include_roots w edges open v' w' :
  indexed_later alloc idx m docs.(shadowed_paths) applies on_disk files ->
  live_edges include_roots docs (new_view (Some idx) docs.(shadowed_paths), w) = (edges, open, (v', w')) ->
  cacheable v' w' = true ->
  (forall source t, source ∈ docs.(shadowed_paths) -> t ∈ default [] (docs.(includes_by_path) !! source) -> uncut v' t) ->
  edges = concat (expected_edges files include_roots docs <$> docs.(shadowed_paths)) /\
  open = concat (expected_open files include_roots docs <$> docs.(shadowed_paths)).
Proof.
  intros Hlater Hl Hc Hcut. assert (v'.(probe_pending) = false) as Hpend by (unfold cacheable in Hc; by destruct (probe_pending v')).
  destruct (live_sources alloc idx m docs applies on_disk files include_roots Hlater docs.(shadowed_paths) [] [] _ _ _ _ _ _ (reflexivity _) Hl) as [_ Hp].
  destruct (Hp Hpend) as [_ He]. by apply He.
Qed.

(** ** Examples *)

Definition demo_alloc : PathAllocation := mkPathAllocation (fun s => N.of_nat (String.length s)) (fun l => N.of_nat (length l))
  (fun t => N.of_nat (size t)) (fun l => N.of_nat (length l)) 80 24 8 32.
Definition demo_rows : list (string * bool) := [("src/main.c", true); ("inc/util.h", false); ("inc/util.h", true)].
Definition demo_index : IncludePathIndex := build demo_alloc demo_rows.
Definition demo_on_disk (path : string) : bool := String.eqb path "/usr/include/stdio.h".
(** A cache in which every probe is done. *)
Definition demo_cache : ProbeCache unit := {|
  lookup_or_schedule c attempts w :=
    (if path_is_absolute c then LookupReady (demo_on_disk c) 100 1 else LookupNotApplicable, attempts, w);
  are_current _ _ := true;
|}.
Definition demo_docs : OverlayDocuments :=
  mkDocuments ["src/new.c"] ∅ {["src/new.c" := ["<stdio.h>"; quoted "util.h"; "<gone.h>"]]} [].
Definition demo_indexed : list FileRow :=
  [(1%Z, "src/main.c", "workspace"); (2%Z, "inc/util.h", "workspace"); (3%Z, "src/new.c", "workspace"); (4%Z, "/usr/include/stdio.h", "external")].
Lemma demo_contents p : rows_map demo_rows !! p = if decide (p = "src/main.c" \/ p = "inc/util.h") then Some true else None.
Proof.
  assert (rows_map demo_rows = <["src/main.c" := true]> (<["inc/util.h" := true]> (∅ : gmap string bool))) as -> by (vm_compute; reflexivity).
  case_decide as H; [by destruct H as [->| ->]|].
  rewrite (lookup_insert_ne _ "src/main.c"), (lookup_insert_ne _ "inc/util.h") by naive_solver. apply lookup_empty.
Qed.
Lemma demo_later : @indexed_later unit demo_cache demo_alloc demo_index (rows_map demo_rows) demo_docs.(shadowed_paths) path_is_absolute demo_on_disk demo_indexed.
Proof.
  split.
  - intros c a w. cbn. by destruct (path_is_absolute c).
  - intros c a w ex u ver. cbn. destruct (path_is_absolute c); [by intros [= <- _ _]|done].
  - apply published_build.
  - intros p. rewrite demo_contents. unfold all_paths, demo_on_disk. cbn [demo_docs shadowed_paths].
    rewrite elem_of_list_to_set. cbn [demo_indexed fmap list_fmap fst snd]. rewrite String.eqb_eq, !elem_of_cons, !elem_of_nil. split.
    + intros [->|[->|[->|[->|[]]]]]; [by left|by left|right; left; by left|by right; right].
    + intros [H|[H|[_ ->]]]; [case_decide as Hd; [|by destruct H]| |]; naive_solver.
  - intros p. unfold demo_indexed, offered. rewrite demo_contents. cbn [demo_docs shadowed_paths]. split.
    + intros (id & H). repeat (apply elem_of_cons in H as [H|H]); [..|by apply elem_of_nil in H]; (simplify_eq; try done).
      1,2: by left. right. split; [by apply list_elem_of_singleton|done].
    + rewrite list_elem_of_singleton. case_decide as Hd; [intros _; destruct Hd as [->| ->]; eexists; [by left|by right; left]|].
      intros [?|[-> _]]; [done|]. exists 3%Z. by right; right; left.
Qed.
Lemma live_edges_agree_witness : exists edges open,
  live_edges (H := demo_cache) ["/usr/include"] demo_docs (new_view (Some demo_index) ["src/new.c"], tt) =
    (edges, open, (mkView (Some demo_index) {["src/new.c"]} {["new.c" := ["src/new.c"]]} false 0 [mkObservation "/usr/include/stdio.h" 1 100; mkObservation "/usr/include/util.h" 1 100; mkObservation "/usr/include/gone.h" 1 100] false, tt)) /\
  edges = [("src/new.c", "/usr/include/stdio.h", ExternalExact); ("src/new.c", "inc/util.h", SuffixMatch)] /\ open = [("src/new.c", UnresolvedInclude)].
Proof.
  eexists _, _. split; [vm_compute; reflexivity|].
  refine (@live_edges_agree unit demo_cache demo_alloc demo_index (rows_map demo_rows) demo_docs path_is_absolute demo_on_disk demo_indexed ["/usr/include"] tt _ _
    (mkView (Some demo_index) {["src/new.c"]} {["new.c" := ["src/new.c"]]} false 0 [mkObservation "/usr/include/stdio.h" 1 100; mkObservation "/usr/include/util.h" 1 100; mkObservation "/usr/include/gone.h" 1 100] false) tt demo_later _ _ _).
  - vm_compute. reflexivity.
  - reflexivity.
  - intros source t Hs Ht form rel. cbn [demo_docs shadowed_paths] in Hs. apply list_elem_of_singleton in Hs as ->.
    assert (default [] (includes_by_path demo_docs !! "src/new.c") = ["<stdio.h>"; quoted "util.h"; "<gone.h>"]) as E by reflexivity. rewrite E in Ht.
    repeat (apply elem_of_cons in Ht as [->|Ht]); [..|by apply elem_of_nil in Ht]; vm_compute; intros [= <- <-]; reflexivity.
Defined.
Lemma index_history_witness : exists idx', updated_paths demo_alloc demo_index ["inc/util.h"; "lib/util.h"] [("lib/util.h", true)] = Some idx' /\
  (suffix_candidates_bounded idx' "util.h" ("util.h", "/util.h") 100 10).(truncated) = false /\
  forall p, p ∈ (suffix_candidates_bounded idx' "util.h" ("util.h", "/util.h") 100 10).(candidates) <->
    changed_map (rows_map demo_rows) ["inc/util.h"; "lib/util.h"] [("lib/util.h", true)] !! p = Some true /\ matches_suffix ("util.h", "/util.h") p = true.
Proof.
  eexists. split; [vm_compute; reflexivity|]. split; [vm_compute; reflexivity|].
  refine (proj1 (proj2 (proj2 (proj2 (proj2 (index_history demo_alloc _ _ "util.h" 100 10 _))))) _).
  - eapply published_update; [apply (published_build demo_alloc demo_rows)|]. vm_compute. reflexivity.
  - vm_compute. reflexivity.
Defined.
