(* ===== verification/IncludeTable.v ===== *)
(** * The include-completion table and its bounded changes (server/include_completion.rs,
    include_completion/model.rs, include_completion/delta.rs)

    A table lists, for every typed directory, the headers and directories an include may
    continue with. It is built from the workspace's paths and include edges; an index update
    adds a delta of signed contributions over the shared base. After any updates the table
    offers and ranks what one built from the current paths and edges would. *)

From stdpp Require Import pretty.
From S2P Require Import Prelude Searching Includes.

(** ** Text *)

(** [split_once('/')] *)
Fixpoint split_slash_once (s : string) : option (string * string) :=
  match s with
  | EmptyString => None
  | String.String c rest =>
      if is_slash c then Some ("", rest)
      else '(first, rest) ← split_slash_once rest; Some (String.String c first, rest)
  end.
(** [split('/')]; the length is enough fuel. *)
Fixpoint split_slashes (fuel : nat) (s : string) : list string :=
  match fuel with
  | 0 => [s]
  | S fuel => match split_slash_once s with Some (first, rest) => first :: split_slashes fuel rest | None => [s] end
  end.
Definition path_components (path : string) : list string := split_slashes (String.length path) path.
(** [strip_prefix], and what follows the first [find] of a pattern. *)
Fixpoint strip_text (prefix s : string) : option string :=
  match prefix, s with
  | EmptyString, _ => Some s
  | String.String a prefix, String.String b s => if Ascii.eqb a b then strip_text prefix s else None
  | String.String _ _, EmptyString => None
  end.
Fixpoint after_first (pattern s : string) : option string :=
  match strip_text pattern s with
  | Some rest => Some rest
  | None => match s with EmptyString => None | String.String _ s => after_first pattern s end
  end.
Definition is_backslash (c : Ascii.ascii) : bool := N.eqb (Ascii.N_of_ascii c) 92.
(** [replace('\\', "/")] *)
Fixpoint slashed (s : string) : string :=
  match s with EmptyString => "" | String.String c s => String.String (if is_backslash c then Ascii.ascii_of_N 47 else c) (slashed s) end.
Fixpoint trim_start_slashes (s : string) : string :=
  match s with String.String c rest => if is_slash c then trim_start_slashes rest else s | EmptyString => "" end.
(** [trim_matches('/')] *)
Definition trim_slashes (s : string) : string := trim_end_slashes (trim_start_slashes s).
Fixpoint slash_count (s : string) : nat :=
  match s with EmptyString => 0 | String.String c s => (if is_slash c then 1 else 0) + slash_count s end.
Definition is_dot (c : Ascii.ascii) : bool := N.eqb (Ascii.N_of_ascii c) 46.
(** [rsplit_once('.')], what follows. *)
Fixpoint after_last_dot (s : string) : option string :=
  match s with
  | EmptyString => None
  | String.String c rest => match after_last_dot rest with Some ext => Some ext | None => if is_dot c then Some rest else None end
  end.
Definition parent_slash (path : string) : option string :=
  '(parent, _) ← rsplit_slash path; if String.eqb parent "" then None else Some parent.

(** ** Candidates *)

Record IndexedIncludeCandidate : Type := mkCandidate {
  name : string;
  name_lower : string;
  is_dir : bool;
  rel_path : string;
  contributors : N;
}.
#[export] Instance IndexedIncludeCandidate_eq_dec : EqDecision IndexedIncludeCandidate.
Proof. solve_decision. Defined.
Definition header_extensions : list string := ["h"; "hpp"; "hh"; "hxx"; "inl"; "inc"; "ipp"; "tcc"; "def"].
Definition looks_like_header (file : string) : bool :=
  match after_last_dot file with Some ext => bool_decide (lower ext ∈ header_extensions) | None => true end.
Definition indexed_workspace_include_candidates (path dir_part seg_lower : string) : list IndexedIncludeCandidate :=
  let rel := slashed path in
  let starts file := String.prefix seg_lower (lower file) in
  if String.eqb dir_part "" then
    (match split_slash_once rel with
     | Some (first, _) =>
         if negb (String.eqb first "") && starts first then [mkCandidate first (lower first) true first 1] else []
     | None => []
     end) ++
    (let file := last_segment rel in
     if negb (String.eqb file "") && starts file && looks_like_header file then [mkCandidate file (lower file) false rel 1] else [])
  else
    match (match strip_text dir_part rel with Some rest => Some rest | None => after_first ("/" +:+ dir_part) rel end) with
    | None => []
    | Some remainder =>
        let '(file, dir) := match split_slash_once remainder with Some (first, _) => (first, true) | None => (remainder, false) end in
        if negb (String.eqb file "") && starts file && (dir || looks_like_header file)
        then
          let candidate_path := if dir then trim_end_slashes dir_part +:+ "/" +:+ trim_slashes file else rel in
          [mkCandidate file (lower file) dir candidate_path 1]
        else []
    end.
Definition candidate_order : IndexedIncludeCandidate -> IndexedIncludeCandidate -> comparison :=
  cmp_lex (cmp_on name_lower String.compare) (cmp_lex (cmp_on rel_path String.compare) (cmp_on is_dir bool_cmp)).
(** The directories a path is offered under, in the order of the two loops. *)
Definition path_dirs (path : string) : list string :=
  let components := path_components path in
  concat ((fun start => (fun n => String.concat "/" (take (S n) (drop start components)) +:+ "/") <$> seq 0 (length components - S start))
          <$> seq 0 (length components - 1)).
Definition offered_under (path dir : string) : list (string * IndexedIncludeCandidate) :=
  pair dir <$> indexed_workspace_include_candidates path dir "".

(** ** The base *)

Record IncludeTableBase : Type := mkTableBase {
  workspace_paths : list string;
  basename_counts : gmap string N;
  incoming_by_src_dir : gmap string (gmap string N);
  outgoing_by_source : gmap string (list string);
  candidates_by_dir : gmap string (list IndexedIncludeCandidate);
  bytes : N;
}.
Record CandidateChange : Type := mkChange { candidate : IndexedIncludeCandidate; change : Z }.
Record IncludeDelta : Type := mkDelta {
  paths : gmap string bool;
  path_balance : Z;
  candidates : gmap string (list CandidateChange);
  basenames : gmap string Z;
  outgoing : gmap string (list string);
  incoming : gmap string (gmap string Z);
}.
Definition no_delta : IncludeDelta := mkDelta ∅ 0 ∅ ∅ ∅ ∅.
Record IncludeCompletionTable : Type := mkTable { base : IncludeTableBase; delta : IncludeDelta }.

(** What the allocator and the layout of the types decide. *)
Record TableAllocation : Type := mkTableAllocation {
  string_capacity : string -> N;
  paths_bytes : list string -> N;             (* vec_bytes of a vector of paths *)
  targets_bytes : list string -> N;           (* capacity times the size of a target *)
  candidates_bytes : list IndexedIncludeCandidate -> N;
  changes_bytes : list CandidateChange -> N;
  basename_table_bytes : gmap string N -> N;  (* hash_table_bytes of the capacities *)
  outgoing_table_bytes : gmap string (list string) -> N;
  incoming_table_bytes : gmap string (gmap string N) -> N;
  directory_table_bytes : gmap string (list IndexedIncludeCandidate) -> N;
  fixed_base_bytes : N;
  fixed_delta_bytes : N;
  usize_bytes : N;
  entry_size_flag : N; entry_size_changes : N; entry_size_count : N; entry_size_targets : N; entry_size_incoming : N; entry_size_target_count : N;
}.
Definition total (l : list N) : N := foldr N.add 0%N l.

Section table.
Context (alloc : TableAllocation).

Definition candidate_bytes (c : IndexedIncludeCandidate) : N :=
  (alloc.(string_capacity) c.(name) + alloc.(string_capacity) c.(name_lower) + alloc.(string_capacity) c.(rel_path))%N.
Definition target_bytes (targets : list string) : N :=
  (alloc.(targets_bytes) targets + total ((fun t => N.of_nat (String.length t) + 2 * alloc.(usize_bytes))%N <$> targets))%N.
Definition base_accounted_bytes (b : IncludeTableBase) : N :=
  (alloc.(fixed_base_bytes) + alloc.(paths_bytes) b.(workspace_paths) + total (alloc.(string_capacity) <$> b.(workspace_paths))
   + alloc.(basename_table_bytes) b.(basename_counts) + total ((fun kv => alloc.(string_capacity) kv.1) <$> map_to_list b.(basename_counts))
   + alloc.(outgoing_table_bytes) b.(outgoing_by_source) + alloc.(incoming_table_bytes) b.(incoming_by_src_dir)
   + alloc.(directory_table_bytes) b.(candidates_by_dir)
   + total ((fun kv => alloc.(string_capacity) kv.1 + target_bytes kv.2)%N <$> map_to_list b.(outgoing_by_source))
   + total ((fun kv => alloc.(string_capacity) kv.1 + alloc.(basename_table_bytes) kv.2)%N <$> map_to_list b.(incoming_by_src_dir))
   + total ((fun kv => alloc.(string_capacity) kv.1 + alloc.(candidates_bytes) kv.2 + total (candidate_bytes <$> kv.2))%N
            <$> map_to_list b.(candidates_by_dir)))%N.

Definition extend_dir (m : gmap string (list IndexedIncludeCandidate)) (dir : string) (l : list IndexedIncludeCandidate) :
    gmap string (list IndexedIncludeCandidate) :=
  <[dir := default [] (m !! dir) ++ l]> m.
(** [dedup_by] after the sort: the first of equal candidates takes the contributors. *)
Fixpoint merge_contributors (kept : IndexedIncludeCandidate) (l : list IndexedIncludeCandidate) : list IndexedIncludeCandidate :=
  match l with
  | [] => [kept]
  | c :: l =>
      if cmp_equal candidate_order c kept
      then merge_contributors (mkCandidate kept.(name) kept.(name_lower) kept.(is_dir) kept.(rel_path) (kept.(contributors) + c.(contributors))) l
      else kept :: merge_contributors c l
  end.
Definition in_order (l : list IndexedIncludeCandidate) : list IndexedIncludeCandidate :=
  match sort_by candidate_order l with [] => [] | c :: l => merge_contributors c l end.
Definition index_path (m : gmap string (list IndexedIncludeCandidate)) (path : string) : gmap string (list IndexedIncludeCandidate) :=
  foldl (fun m dir => extend_dir m dir (indexed_workspace_include_candidates path dir "")) m ("" :: path_dirs path).
Definition build_candidate_index (paths : list string) : gmap string (list IndexedIncludeCandidate) :=
  in_order <$> foldl index_path ∅ paths.

Definition bump (m : gmap string N) (key : string) : gmap string N := <[key := (default 0%N (m !! key) + 1)%N]> m.
Definition source_dir (source : string) : string := default "" (parent_slash source).
Definition count_incoming (m : gmap string (gmap string N)) (entry : string * list string) : gmap string (gmap string N) :=
  <[source_dir entry.1 := foldl bump (default ∅ (m !! source_dir entry.1)) entry.2]> m.
Definition build_with_edges (all_paths : list string) (include_edges : list (string * string)) : IncludeCompletionTable :=
  let all_paths := sorted_unique all_paths in
  let basename_counts := foldl (fun m path => bump m (lower (last_segment path))) ∅ all_paths in
  let outgoing_by_source := sorted_unique <$> foldl (fun m (e : string * string) => push_map m e.1 e.2) ∅ include_edges in
  let incoming_by_src_dir := foldl count_incoming ∅ (map_to_list outgoing_by_source) in
  let candidates_by_dir := build_candidate_index all_paths in
  let unmeasured := mkTableBase all_paths basename_counts incoming_by_src_dir outgoing_by_source candidates_by_dir 0 in
  mkTable (mkTableBase all_paths basename_counts incoming_by_src_dir outgoing_by_source candidates_by_dir (base_accounted_bytes unmeasured))
    no_delta.

(** ** The delta *)

Definition node_bytes (entries entry_size : N) : N := saturating_mul entries (11 * entry_size + 12 * alloc.(usize_bytes)).
Definition entry_count {A} (m : gmap string A) : N := N.of_nat (size m).
Definition partitions (d : IncludeDelta) : N :=
  (entry_count d.(paths) + entry_count d.(candidates) + entry_count d.(basenames) + entry_count d.(outgoing) + entry_count d.(incoming))%N.
Definition delta_bytes (d : IncludeDelta) : N :=
  (alloc.(fixed_delta_bytes) + node_bytes (entry_count d.(paths)) alloc.(entry_size_flag)
   + node_bytes (entry_count d.(candidates)) alloc.(entry_size_changes) + node_bytes (entry_count d.(basenames)) alloc.(entry_size_count)
   + node_bytes (entry_count d.(outgoing)) alloc.(entry_size_targets) + node_bytes (entry_count d.(incoming)) alloc.(entry_size_incoming)
   + total ((fun kv => alloc.(string_capacity) kv.1) <$> map_to_list d.(paths))
   + total ((fun kv => alloc.(string_capacity) kv.1) <$> map_to_list d.(basenames))
   + total ((fun kv => alloc.(string_capacity) kv.1 + alloc.(changes_bytes) kv.2 + total ((fun v => candidate_bytes v.(candidate)) <$> kv.2))%N
            <$> map_to_list d.(candidates))
   + total ((fun kv => alloc.(string_capacity) kv.1 + target_bytes kv.2)%N <$> map_to_list d.(outgoing))
   + total ((fun kv => alloc.(string_capacity) kv.1 + node_bytes (entry_count kv.2) alloc.(entry_size_target_count)
              + total ((fun tv => N.of_nat (String.length tv.1) + 2 * alloc.(usize_bytes))%N <$> map_to_list kv.2))%N
            <$> map_to_list d.(incoming)))%N.
Definition find_change (values : list CandidateChange) (c : IndexedIncludeCandidate) : option nat :=
  binary_search (fun v => candidate_order v.(candidate) c) values.
(** The place [Err(index)] names: before it the changes are below the candidate. *)
Definition insert_place (values : list CandidateChange) (c : IndexedIncludeCandidate) : nat :=
  partition_point (fun v => match candidate_order v.(candidate) c with Lt => true | _ => false end) values.
Definition candidate_change (d : IncludeDelta) (dir : string) (c : IndexedIncludeCandidate) : Z :=
  default 0%Z (values ← d.(candidates) !! dir; i ← find_change values c; v ← values !! i; Some v.(change)).
Definition basename_change (d : IncludeDelta) (file : string) : Z := default 0%Z (d.(basenames) !! file).
Definition incoming_change (d : IncludeDelta) (dir target : string) : Z :=
  default 0%Z (targets ← d.(incoming) !! dir; targets !! target).
(** A counter that is dropped at zero. *)
Definition adjust (m : gmap string Z) (key : string) (by_ : Z) : gmap string Z :=
  let amount := (default 0 (m !! key) + by_)%Z in
  if bool_decide (amount = 0%Z) then delete key m else <[key := amount]> m.
Definition adjust_values (values : list CandidateChange) (c : IndexedIncludeCandidate) (by_ : Z) : list CandidateChange :=
  match find_change values c with
  | Some i =>
      match values !! i with
      | Some v =>
          let v := mkChange v.(candidate) (v.(change) + by_) in
          if bool_decide (v.(change) = 0%Z) then take i values ++ drop (S i) values else <[i := v]> values
      | None => values
      end
  | None => let i := insert_place values c in take i values ++ [mkChange c by_] ++ drop i values
  end.
Definition adjust_candidate (d : IncludeDelta) (dir : string) (c : IndexedIncludeCandidate) (by_ : Z) : IncludeDelta :=
  let values := adjust_values (default [] (d.(candidates) !! dir)) c by_ in
  let candidates := match values with [] => delete dir d.(candidates) | _ => <[dir := values]> d.(candidates) end in
  mkDelta d.(paths) d.(path_balance) candidates d.(basenames) d.(outgoing) d.(incoming).
Definition adjust_incoming (dir : string) (by_ : Z) (d : IncludeDelta) (target : string) : IncludeDelta :=
  let values := adjust (default ∅ (d.(incoming) !! dir)) target by_ in
  let incoming := if bool_decide (values = ∅) then delete dir d.(incoming) else <[dir := values]> d.(incoming) in
  mkDelta d.(paths) d.(path_balance) d.(candidates) d.(basenames) d.(outgoing) incoming.
(** The candidates a path contributes, unless it is too deep or offers too many. *)
Fixpoint extend_contributions (path : string) (dirs : list string) (output : list (string * IndexedIncludeCandidate)) :
    option (list (string * IndexedIncludeCandidate)) :=
  match dirs with
  | [] => Some output
  | dir :: dirs =>
      let output := output ++ offered_under path dir in
      if (1024 <? length output)%nat then None else extend_contributions path dirs output
  end.
Definition contributions (path : string) : option (list (string * IndexedIncludeCandidate)) :=
  if (32 <? length (path_components path))%nat then None
  else extend_contributions path (path_dirs path) (offered_under path "").

Definition over_budget (d : IncludeDelta) : bool := (256 <? partitions d)%N || (4 * 1024 * 1024 <? delta_bytes d)%N.
Definition in_base (t : IncludeCompletionTable) (path : string) : bool :=
  bool_decide (is_Some (binary_search (fun p => String.compare p path) t.(base).(workspace_paths))).
(** One changed path: [None] is the early return, the inner option the delta made so far. *)
Definition change_path (t : IncludeCompletionTable) (fresh : gset string) (d : option IncludeDelta) (path : string) : option (option IncludeDelta) :=
  let old := default (in_base t path) (t.(delta).(paths) !! path) in
  let new := bool_decide (path ∈ fresh) in
  if Bool.eqb old new then Some d
  else
    changes ← contributions path;
    let value := default t.(delta) d in
    let sign := (if new then 1 else -1)%Z in
    let paths := if Bool.eqb new (in_base t path) then delete path value.(paths) else <[path := new]> value.(paths) in
    let basenames := adjust value.(basenames) (lower (last_segment path)) sign in
    let value := mkDelta paths (value.(path_balance) + sign) value.(candidates) basenames value.(outgoing) value.(incoming) in
    let value := foldl (fun value (dc : string * IndexedIncludeCandidate) => adjust_candidate value dc.1 dc.2 sign) value changes in
    if over_budget value then None else Some (Some value).
Definition current_targets (t : IncludeCompletionTable) (source : string) : list string :=
  match t.(delta).(outgoing) !! source with
  | Some targets => targets
  | None => default [] (t.(base).(outgoing_by_source) !! source)
  end.
Definition change_source (t : IncludeCompletionTable) (by_source : gmap string (list string)) (d : option IncludeDelta) (source : string) :
    option (option IncludeDelta) :=
  let old := current_targets t source in
  let new := sorted_unique (default [] (by_source !! source)) in
  if bool_decide (old = new) then Some d
  else
    let value := default t.(delta) d in
    let dir := source_dir source in
    let value := foldl (adjust_incoming dir (-1)) value old in
    let value := foldl (adjust_incoming dir 1) value new in
    let outgoing :=
      if bool_decide (default [] (t.(base).(outgoing_by_source) !! source) = new)
      then delete source value.(outgoing) else <[source := new]> value.(outgoing) in
    let value := mkDelta value.(paths) value.(path_balance) value.(candidates) value.(basenames) outgoing value.(incoming) in
    if over_budget value then None else Some (Some value).
(** A loop that skips what it has seen and may return early. *)
Fixpoint each_new (step : option IncludeDelta -> string -> option (option IncludeDelta)) (seen : gset string) (l : list string)
    (d : option IncludeDelta) : option (option IncludeDelta) :=
  match l with
  | [] => Some d
  | x :: l => if bool_decide (x ∈ seen) then each_new step seen l d else d ← step d x; each_new step ({[x]} ∪ seen) l d
  end.
Definition updated (t : IncludeCompletionTable) (paths fresh sources : list string) (edges : list (string * string)) :
    option IncludeCompletionTable :=
  if (256 <? length paths)%nat || (256 <? length sources)%nat || (8192 <? N.of_nat (length edges))%N then None
  else
    d ← each_new (change_path t (list_to_set fresh)) ∅ paths None;
    let by_source := foldl (fun m (e : string * string) => push_map m e.1 e.2) ∅ edges in
    d ← each_new (change_source t by_source) ∅ sources d;
    Some (match d with None => t | Some d => mkTable t.(base) d end).
End table.

(** ** What a table shows *)

(** [usize::saturating_add_signed] *)
Definition saturating_add_signed (a : N) (b : Z) : N := Z.to_N (Z.min (Z.max 0 (Z.of_N a + b)) (Z.of_N usize_max)).
Definition table_len (t : IncludeCompletionTable) : N :=
  saturating_add_signed (N.of_nat (length t.(base).(workspace_paths))) t.(delta).(path_balance).
Record IncludeCompletionMetrics : Type := mkMetrics {
  inspected : N;
  truncated : bool;
  same_directory : N;
  recent : N;
  sibling : N;
  basename : N;
  depth_penalty : N;
}.
Record IncludeRankingSignals : Type := mkSignals {
  is_same_directory : bool;
  is_recent : bool;
  is_sibling : bool;
  has_basename : bool;
  has_depth_penalty : bool;
}.
Record CurrentIncludeEvidence : Type := mkEvidence {
  ev_source_dir : option string;
  recent_targets : gset string;
  recent_basenames : gset string;
}.
(** [str::lines] *)
Fixpoint text_lines (s : string) : list string :=
  match s with
  | EmptyString => []
  | String.String c rest =>
      if N.eqb (Ascii.N_of_ascii c) 10 then "" :: text_lines rest
      else if N.eqb (Ascii.N_of_ascii c) 13 && match rest with String.String d _ => N.eqb (Ascii.N_of_ascii d) 10 | _ => false end
      then text_lines rest
      else match text_lines rest with [] => [String.String c ""] | line :: lines => String.String c line :: lines end
  end.
Definition evidence_line (e : CurrentIncludeEvidence) (line : string) : CurrentIncludeEvidence :=
  match parse_include_line line with
  | None => e
  | Some (_, target) =>
      let target := slashed target in
      let recent_targets := {[lower target]} ∪ e.(recent_targets) in
      let recent_targets :=
        match e.(ev_source_dir) with
        | Some dir => if (slash_count target =? 0)%nat then {[lower (dir +:+ "/" +:+ target)]} ∪ recent_targets else recent_targets
        | None => recent_targets
        end in
      mkEvidence e.(ev_source_dir) recent_targets ({[lower (last_segment target)]} ∪ e.(recent_basenames))
  end.
Definition from_text (text : string) (current_rel_path : option string) : CurrentIncludeEvidence :=
  foldl evidence_line (mkEvidence (path ← current_rel_path; parent_slash path) ∅ ∅) (text_lines text).

Definition incoming_count (t : IncludeCompletionTable) (dir target : string) : N :=
  saturating_add_signed (default 0%N (targets ← t.(base).(incoming_by_src_dir) !! dir; targets !! target)) (incoming_change t.(delta) dir target).
Definition basename_count (t : IncludeCompletionTable) (file : string) : N :=
  saturating_add_signed (default 0%N (t.(base).(basename_counts) !! file)) (basename_change t.(delta) file).
Definition when (b : bool) (x : Z) : Z := if b then x else 0%Z.
Definition ranking_boost (t : IncludeCompletionTable) (rel_path label : string) (current_rel_dir : option string)
    (evidence : option CurrentIncludeEvidence) : Z * IncludeRankingSignals :=
  let same := match current_rel_dir with Some dir => bool_decide (parent_slash rel_path = Some dir) | None => false end in
  let recent :=
    match evidence with
    | Some e => bool_decide (lower rel_path ∈ e.(recent_targets)) || bool_decide (lower label ∈ e.(recent_basenames))
    | None => false
    end in
  let sibling :=
    match evidence with
    | Some e => match e.(ev_source_dir) with Some dir => (0 <? incoming_count t dir rel_path)%N | None => false end
    | None => false
    end in
  let frequency := Z.of_N (N.min (basename_count t (lower label)) 20) in
  let depth := Z.min (Z.of_nat (slash_count rel_path) * 3) 20 in
  (Z.min (when same 35 + when recent 30 + when sibling 25 + frequency - depth) 49,
   mkSignals same recent sibling (0 <? frequency)%Z (0 <? depth)%Z).

Inductive CompletionItemKind : Type := FOLDER | FILE.
Record CompletionItem : Type := mkItem { label : string; kind : CompletionItemKind; sort_text : string }.
(** [format!("{:06}", n)] *)
Definition padded (width : nat) (digits : string) : string := of_bytes (repeat 48%N (width - String.length digits)) +:+ digits.
Definition six_digits (n : Z) : string :=
  if (n <? 0)%Z then "-" +:+ padded 5 (pretty (Z.to_N (- n))) else padded 6 (pretty (Z.to_N n)).
Definition Scored : Type := (gset string * list (Z * string * CompletionItem))%type.
Definition push_include_candidate (file : string) (dir : bool) (base_score : Z) (seg : string) (out : Scored) : Scored :=
  let '(seen, scored) := out in
  if bool_decide (lower file ∈ seen) then out
  else
    let score := (base_score + (if String.eqb (lower file) (lower seg) then 100 else when (String.prefix (lower seg) (lower file)) 50))%Z in
    ({[lower file]} ∪ seen, scored ++ [(score, file, mkItem file (if dir then FOLDER else FILE) (six_digits (10000 - score)))]).

Definition base_under (t : IncludeCompletionTable) (dir : string) : list IndexedIncludeCandidate :=
  default [] (t.(base).(candidates_by_dir) !! dir).
Definition below_segment (seg_lower : string) (c : IndexedIncludeCandidate) : bool :=
  match String.compare c.(name_lower) seg_lower with Lt => true | _ => false end.
Definition existing_candidates (t : IncludeCompletionTable) (dir seg_lower : string) : list IndexedIncludeCandidate :=
  let l := base_under t dir in
  take_while (fun c => String.prefix seg_lower c.(name_lower)) (drop (partition_point (below_segment seg_lower) l) l).
Definition added_candidates (t : IncludeCompletionTable) (dir seg_lower : string) : list IndexedIncludeCandidate :=
  candidate <$> List.filter (fun entry =>
    (0 <? entry.(change))%Z && String.prefix seg_lower entry.(candidate).(name_lower)
    && bool_decide (binary_search (fun c => candidate_order c entry.(candidate)) (base_under t dir) = None))
    (default [] (t.(delta).(candidates) !! dir)).
(** Which list the next candidate comes from, and what is left of both. *)
Definition next_candidate (existing added : list IndexedIncludeCandidate) :
    option (bool * IndexedIncludeCandidate * list IndexedIncludeCandidate * list IndexedIncludeCandidate) :=
  match existing, added with
  | [], [] => None
  | a :: existing', b :: added' =>
      match candidate_order a b with Gt => Some (false, b, existing, added') | _ => Some (true, a, existing', added) end
  | a :: existing', [] => Some (true, a, existing', [])
  | [], b :: added' => Some (false, b, [], added')
  end.
Definition count_if (b : bool) (n : N) : N := if b then (n + 1)%N else n.

Section collect.
Context (t : IncludeCompletionTable) (dir_part seg_lower seg : string) (base_score : Z) (current_rel_dir : option string)
  (evidence : option CurrentIncludeEvidence).
Definition hidden (from_base : bool) (c : IndexedIncludeCandidate) : bool :=
  from_base && (saturating_add_signed c.(contributors) (candidate_change t.(delta) dir_part c) =? 0)%N.
Definition offer (st : IncludeCompletionMetrics * Scored) (c : IndexedIncludeCandidate) : IncludeCompletionMetrics * Scored :=
  let '(metrics, out) := st in
  let '(boost, signals) := ranking_boost t c.(rel_path) c.(name) current_rel_dir evidence in
  (mkMetrics metrics.(inspected) metrics.(truncated) (count_if signals.(is_same_directory) metrics.(same_directory))
     (count_if signals.(is_recent) metrics.(recent)) (count_if signals.(is_sibling) metrics.(sibling))
     (count_if signals.(has_basename) metrics.(basename)) (count_if signals.(has_depth_penalty) metrics.(depth_penalty)),
   push_include_candidate c.(name) c.(is_dir) (base_score + boost) seg out).
Definition one_more (m : IncludeCompletionMetrics) : IncludeCompletionMetrics :=
  mkMetrics (m.(inspected) + 1) m.(truncated) m.(same_directory) m.(recent) m.(sibling) m.(basename) m.(depth_penalty).
Definition cut (m : IncludeCompletionMetrics) : IncludeCompletionMetrics :=
  mkMetrics m.(inspected) true m.(same_directory) m.(recent) m.(sibling) m.(basename) m.(depth_penalty).
(** The loop; the length of the two lists is enough fuel. *)
Fixpoint collect_loop (fuel : nat) (existing added : list IndexedIncludeCandidate) (st : IncludeCompletionMetrics * Scored) :
    IncludeCompletionMetrics * Scored :=
  match fuel, next_candidate existing added with
  | S fuel, Some (from_base, c, existing, added) =>
      if (16384 <=? st.1.(inspected))%N then (cut st.1, st.2)
      else
        let st := (one_more st.1, st.2) in
        collect_loop fuel existing added (if hidden from_base c then st else offer st c)
  | _, _ => st
  end.
Definition collect_candidates (metrics : IncludeCompletionMetrics) (out : Scored) : IncludeCompletionMetrics * Scored :=
  let existing := existing_candidates t dir_part seg_lower in
  let added := added_candidates t dir_part seg_lower in
  collect_loop (length existing + length added) existing added (metrics, out).
End collect.

(** ** Sums over finite sets *)

Definition sum_over (P : gset string) (f : string -> Z) : Z := foldr Z.add 0%Z (f <$> elements P).
Lemma sum_list_perm (l k : list Z) : l ≡ₚ k -> foldr Z.add 0%Z l = foldr Z.add 0%Z k.
Proof. induction 1; cbn [foldr]; lia. Qed.
Lemma sum_over_add P p f : p ∉ P -> sum_over ({[p]} ∪ P) f = (f p + sum_over P f)%Z.
Proof. intros Hp. unfold sum_over. by rewrite (sum_list_perm _ _ (fmap_Permutation f _ _ (elements_union_singleton _ _ Hp))). Qed.
Lemma sum_over_remove P p f : p ∈ P -> sum_over (P ∖ {[p]}) f = (sum_over P f - f p)%Z.
Proof.
  intros Hp. assert (sum_over P f = f p + sum_over (P ∖ {[p]}) f)%Z; [|lia].
  rewrite <- sum_over_add by set_solver. f_equal. apply leibniz_equiv. intros x. rewrite elem_of_union, elem_of_difference, elem_of_singleton.
  destruct (decide (x = p)); naive_solver.
Qed.
Lemma sum_over_ext P f g : (forall p, p ∈ P -> f p = g p) -> sum_over P f = sum_over P g.
Proof.
  intros H. unfold sum_over. f_equal. apply list_fmap_ext. intros i x Hx. apply H. apply elem_of_elements. by eapply list_elem_of_lookup_2.
Qed.
Lemma sum_over_list l f : NoDup l -> foldr Z.add 0%Z (f <$> l) = sum_over (list_to_set l) f.
Proof. intros Hl. unfold sum_over. apply sum_list_perm, fmap_Permutation. symmetry. by apply elements_list_to_set. Qed.
Lemma sum_over_nonneg P f : (forall p, (0 <= f p)%Z) -> (0 <= sum_over P f)%Z.
Proof. intros H. unfold sum_over. induction (elements P) as [|x l IH]; cbn [fmap list_fmap foldr]; [lia|]. specialize (H x). lia. Qed.
Lemma sum_over_one P : sum_over P (fun _ => 1%Z) = Z.of_nat (size P).
Proof. unfold sum_over, size, set_size. cbn. induction (elements P); cbn [fmap list_fmap foldr length]; lia. Qed.
Lemma sum_over_pos P f : (forall p, (0 <= f p)%Z) -> (0 < sum_over P f)%Z <-> exists p, p ∈ P /\ (0 < f p)%Z.
Proof.
  intros H. unfold sum_over. setoid_rewrite <- (elem_of_elements P). induction (elements P) as [|x l IH]; cbn [fmap list_fmap foldr].
  { split; [lia|]. by intros (p & ?%elem_of_nil & _). }
  assert (0 <= foldr Z.add 0 (f <$> l))%Z as Hn by (clear IH; induction l as [|y l IHl]; cbn [fmap list_fmap foldr]; [lia|]; specialize (H y); lia).
  specialize (H x) as Hx. setoid_rewrite elem_of_cons. split.
  - intros Hp. destruct (decide (0 < f x)%Z); [exists x; by split; [left|]|]. destruct (proj1 IH) as (p & ? & ?); [lia|]. exists p. by split; [right|].
  - intros (p & [->|Hp] & Hpos); [lia|]. assert (0 < foldr Z.add 0 (f <$> l))%Z by (apply IH; by exists p). lia.
Qed.

(** ** Candidates in order *)

#[export] Instance candidate_order_lawful : LawfulCmp candidate_order.
Proof. unfold candidate_order. apply _. Qed.
Lemma candidate_order_eq a b : candidate_order a b = Eq <->
  a.(name_lower) = b.(name_lower) /\ a.(rel_path) = b.(rel_path) /\ a.(is_dir) = b.(is_dir).
Proof.
  unfold candidate_order. rewrite !cmp_lex_eq. unfold cmp_on. rewrite !string_compare_eq.
  split; (intros (? & ? & E); repeat split; try done); [by destruct (is_dir a), (is_dir b)|rewrite E; by destruct (is_dir b)].
Qed.
Definition ordered : list IndexedIncludeCandidate -> Prop := StronglySorted (fun a b => candidate_order a b = Lt).
Definition same_place (a b : IndexedIncludeCandidate) : bool := cmp_equal candidate_order a b.
Lemma same_place_iff a b : same_place a b = true <-> candidate_order a b = Eq.
Proof. unfold same_place, cmp_equal. by destruct (candidate_order a b). Qed.
Lemma same_place_cong a b c : candidate_order a b = Eq -> same_place a c = same_place b c.
Proof. intros E. unfold same_place, cmp_equal. by rewrite (cmp_eq_l candidate_order a b c E). Qed.
Lemma same_place_sym a b : same_place a b = same_place b a.
Proof. unfold same_place, cmp_equal. rewrite (cmp_antisym candidate_order a b). by destruct (candidate_order a b). Qed.
(** How many contributions of a list a candidate's place gets. *)
Definition weight (l : list IndexedIncludeCandidate) (c : IndexedIncludeCandidate) : Z :=
  foldr (fun x n => (if same_place x c then Z.of_N x.(contributors) else 0) + n)%Z 0%Z l.
Lemma held_app l k c : weight (l ++ k) c = (weight l c + weight k c)%Z.
Proof. induction l as [|x l IH]; cbn [weight foldr app] in *; [done|]. fold (weight (l ++ k) c). fold (weight l c). rewrite IH. lia. Qed.
Lemma weight_perm l k c : l ≡ₚ k -> weight l c = weight k c.
Proof. unfold weight. induction 1; cbn [foldr]; lia. Qed.
Lemma weight_cong l a b : candidate_order a b = Eq -> weight l a = weight l b.
Proof.
  intros E. unfold weight. induction l as [|x l IH]; cbn [foldr]; [done|].
  by rewrite IH, (same_place_sym x a), (same_place_sym x b), (same_place_cong a b x E).
Qed.
(** A candidate is what its place says, up to its contributors. *)
Definition cand_ok (c : IndexedIncludeCandidate) : Prop :=
  c.(name) = last_segment c.(rel_path) /\ c.(name_lower) = lower c.(name) /\ (0 < c.(contributors))%N.
Lemma weight_pos l c : Forall cand_ok l -> (0 < weight l c)%Z <-> exists x, x ∈ l /\ candidate_order x c = Eq.
Proof.
  intros Hl. assert (0 <= weight l c)%Z as Hn by (clear Hl; unfold weight; induction l; cbn [foldr]; [lia|]; case_match; lia).
  induction Hl as [|x l (_ & _ & Hx) Hl IH]; [split; [done|by intros (y & ?%elem_of_nil & _)]|].
  unfold weight in *. cbn [foldr] in *. setoid_rewrite elem_of_cons.
  assert (0 <= foldr (fun x n => (if same_place x c then Z.of_N x.(contributors) else 0) + n)%Z 0%Z l)%Z as Hn'.
  { clear. induction l; cbn [foldr]; [lia|]; case_match; lia. }
  specialize (IH Hn'). destruct (same_place x c) eqn:E.
  - split; [|lia]. intros _. exists x. apply same_place_iff in E. by split; [left|].
  - rewrite Z.add_0_l, IH. split; [naive_solver|]. intros (y & [->|Hy] & Hc); [|naive_solver]. apply same_place_iff in Hc. congruence.
Qed.
Lemma weight_cons x l c : weight (x :: l) c = ((if same_place x c then Z.of_N x.(contributors) else 0) + weight l c)%Z.
Proof. done. Qed.
Lemma weight_above x l : Forall (fun y => candidate_order x y = Lt) l -> forall c, candidate_order x c = Eq -> weight l c = 0%Z.
Proof.
  induction 1 as [|y l Hy Hl IH]; intros c Hc; [done|]. rewrite weight_cons, (IH c Hc). destruct (same_place y c) eqn:E; [|done].
  apply same_place_iff in E. rewrite (cmp_eq_r candidate_order y c x E) in Hy. congruence.
Qed.
Lemma weight_ordered l x : ordered l -> x ∈ l -> weight l x = Z.of_N x.(contributors).
Proof.
  induction 1 as [|y l Hl IH Hy]; [by intros ?%elem_of_nil|]. rewrite weight_cons. intros [->|Hx]%elem_of_cons.
  - rewrite (weight_above y l Hy y) by apply (cmp_refl candidate_order). assert (same_place y y = true) as -> by (apply same_place_iff; apply (cmp_refl candidate_order)). lia.
  - destruct (same_place y x) eqn:E; [|by rewrite IH]. exfalso. rewrite Forall_forall in Hy. specialize (Hy x Hx).
    apply same_place_iff in E. congruence.
Qed.
Lemma merge_contributors_spec l : forall kept, StronglySorted (cmp_le candidate_order) (kept :: l) -> Forall cand_ok (kept :: l) ->
  ordered (merge_contributors kept l) /\ Forall cand_ok (merge_contributors kept l) /\
  Forall (fun x => candidate_order kept x <> Gt) (merge_contributors kept l) /\
  forall c, weight (merge_contributors kept l) c = weight (kept :: l) c.
Proof.
  induction l as [|x l IH]; intros kept Hs Hok; cbn [merge_contributors].
  { split; [repeat constructor|]. split; [done|]. split; [|done]. constructor; [|done]. by rewrite (cmp_refl candidate_order). }
  inversion Hs as [|? ? Hs' Hk]; subst. inversion Hs' as [|? ? Hs'' Hx]; subst. inversion Hk as [|? ? Hkx Hkl]; subst.
  inversion Hok as [|? ? Hkok Hok']; subst. inversion Hok' as [|? ? Hxok Hlok]; subst.
  destruct (cmp_equal candidate_order x kept) eqn:E.
  - set (kept' := mkCandidate (name kept) (name_lower kept) (is_dir kept) (rel_path kept) (contributors kept + contributors x)).
    assert (candidate_order kept kept' = Eq) as E' by by apply candidate_order_eq.
    destruct (IH kept') as (Ho & Hc & Hle & Hw).
    + constructor; [done|]. eapply Forall_impl; [exact Hkl|]. intros y. unfold cmp_le. by rewrite (cmp_eq_l candidate_order kept kept' y E').
    + constructor; [|done]. destruct Hkok as (? & ? & ?). unfold cand_ok. cbn [kept' name rel_path name_lower contributors]. repeat split; [done..|lia].
    + split; [done|]. split; [done|]. split.
      * eapply Forall_impl; [exact Hle|]. intros y. by rewrite (cmp_eq_l candidate_order kept kept' y E').
      * intros c. rewrite Hw, !weight_cons. assert (same_place x c = same_place kept c) as ->.
        { apply same_place_cong. by apply same_place_iff. }
        rewrite <- (same_place_cong kept kept' c E'). cbn [kept' contributors]. case_match; lia.
  - destruct (IH x Hs' Hok') as (Ho & Hc & Hle & Hw). assert (candidate_order kept x = Lt) as Hlt.
    { unfold cmp_le in Hkx. unfold cmp_equal in E. rewrite (cmp_antisym candidate_order kept x) in E. by destruct (candidate_order kept x). }
    assert (Forall (fun y => candidate_order kept y = Lt) (merge_contributors x l)) as Hall.
    { eapply Forall_impl; [exact Hle|]. intros y Hy. by apply (cmp_lt_le candidate_order kept x y). }
    split; [by constructor|]. split; [by constructor|]. split; [|intros c; by rewrite weight_cons, Hw, !weight_cons].
    constructor; [by rewrite (cmp_refl candidate_order)|]. eapply Forall_impl; [exact Hall|]. by intros y ->.
Qed.
Lemma in_order_spec l : Forall cand_ok l -> ordered (in_order l) /\ Forall cand_ok (in_order l) /\ forall c, weight (in_order l) c = weight l c.
Proof.
  intros Hl. unfold in_order. pose proof (sort_by_perm candidate_order l) as Hp. pose proof (sort_by_sorted candidate_order l) as Hs.
  destruct (sort_by candidate_order l) as [|c k]; [apply Permutation_nil_l in Hp; subst; repeat split; constructor|].
  destruct (merge_contributors_spec k c Hs) as (? & ? & _ & Hw); [by rewrite Hp|]. split; [done|]. split; [done|].
  intros x. rewrite Hw. by apply weight_perm.
Qed.

(** ** Contributions *)

Lemma slash_free s : slash_count s = 0 -> rsplit_slash s = None.
Proof. induction s as [|c s IH]; [done|]. cbn [slash_count rsplit_slash]. destruct (is_slash c); [done|]. intros H. by rewrite IH. Qed.
Lemma last_segment_free s : slash_count s = 0 -> last_segment s = s.
Proof. intros H. unfold last_segment. by rewrite slash_free. Qed.
Lemma split_slash_once_spec s :
  match split_slash_once s with Some (first, _) => slash_count first = 0 | None => slash_count s = 0 end.
Proof.
  induction s as [|c s IH]; [done|]. cbn [split_slash_once slash_count]. destruct (is_slash c) eqn:E; [done|].
  destruct (split_slash_once s) as [[first rest]|]; cbn [mbind option_bind]; cbn [slash_count]; [by rewrite E|done].
Qed.
Lemma trim_slashes_free s : slash_count s = 0 -> trim_slashes s = s.
Proof.
  intros H. assert (trim_start_slashes s = s) as E.
  { destruct s as [|c s]; [done|]. cbn [slash_count trim_start_slashes] in *. by destruct (is_slash c). }
  unfold trim_slashes. rewrite E. clear E. induction s as [|c s IH]; [done|]. cbn [slash_count trim_end_slashes] in *.
  destruct (is_slash c) eqn:E; [done|]. rewrite IH by done. by destruct s.
Qed.
Lemma strip_text_spec p s rest : strip_text p s = Some rest -> s = p +:+ rest.
Proof.
  revert s. induction p as [|a p IH]; intros s; [by destruct s; intros [= <-]|]. destruct s as [|b s]; [done|]. cbn [strip_text].
  destruct (Ascii.eqb_spec a b) as [->|]; [|done]. intros ->%IH. done.
Qed.
Lemma after_first_spec p s rest : after_first p s = Some rest -> exists x, s = x +:+ p +:+ rest.
Proof.
  induction s as [|c s IH]; cbn [after_first]; (destruct (strip_text p _) as [r|] eqn:E;
    [intros [= ->]; exists ""; by apply strip_text_spec in E|]); [done|].
  intros (x & ->)%IH. by exists (String.String c x).
Qed.
Definition directory_like (dir : string) : Prop := dir = "" \/ exists d, dir = d +:+ "/".
Lemma last_segment_after d r : last_segment (d +:+ "/" +:+ r) = last_segment r.
Proof. apply last_segment_app. Qed.
Lemma indexed_ok path dir c : directory_like dir -> c ∈ indexed_workspace_include_candidates path dir "" -> cand_ok c.
Proof.
  intros Hdir. unfold indexed_workspace_include_candidates. set (rel := slashed path). clearbody rel.
  destruct (String.eqb_spec dir "") as [->|Hne].
  - rewrite elem_of_app. intros [H|H].
    + pose proof (split_slash_once_spec rel) as Hf. destruct (split_slash_once rel) as [[first rest]|]; [|by apply elem_of_nil in H].
      destruct (negb _ && _); [|by apply elem_of_nil in H]. apply list_elem_of_singleton in H as ->. unfold cand_ok. cbn. by rewrite last_segment_free.
    + destruct (negb _ && _ && _); [|by apply elem_of_nil in H]. by apply list_elem_of_singleton in H as ->.
  - destruct Hdir as [?|[d ->]]; [done|].
    set (m := match strip_text _ _ with Some rest => Some rest | None => _ end).
    assert (forall r, m = Some r -> exists x, rel = x +:+ "/" +:+ r) as Hm.
    { intros r. unfold m. destruct (strip_text (d +:+ "/") rel) as [r'|] eqn:E.
      - intros [= ->]. apply strip_text_spec in E as ->. exists d. by rewrite <- string_app_assoc.
      - intros (x & ->)%after_first_spec. exists (x +:+ "/" +:+ d). by rewrite <- !string_app_assoc. }
    destruct m as [r|]; [|by intros ?%elem_of_nil]. destruct (Hm r eq_refl) as [x ->]. clear Hm.
    pose proof (split_slash_once_spec r) as Hr. destruct (split_slash_once r) as [[first rest]|].
    + destruct (negb _ && _ && _); [|by intros ?%elem_of_nil]. intros ->%list_elem_of_singleton. unfold cand_ok. cbn [name name_lower rel_path contributors].
      by rewrite last_segment_after, trim_slashes_free, last_segment_free.
    + destruct (negb _ && _ && _); [|by intros ?%elem_of_nil]. intros ->%list_elem_of_singleton. unfold cand_ok. cbn [name name_lower rel_path contributors].
      by rewrite last_segment_after, last_segment_free.
Qed.
Lemma elem_of_concat {A} (ls : list (list A)) x : x ∈ concat ls <-> exists l, l ∈ ls /\ x ∈ l.
Proof. rewrite list_elem_of_In, in_concat. by setoid_rewrite list_elem_of_In. Qed.
Lemma path_dirs_like path dir : dir ∈ "" :: path_dirs path -> directory_like dir.
Proof.
  intros [->|H]%elem_of_cons; [by left|]. right. apply elem_of_concat in H as (l & Hl & Hd). apply list_elem_of_fmap in Hl as (start & -> & _). apply list_elem_of_fmap in Hd as (n & -> & _). by eexists.
Qed.
(** Everything a path contributes, with the directory. *)
Definition all_contributions (path : string) : list (string * IndexedIncludeCandidate) := concat (offered_under path <$> "" :: path_dirs path).
Definition in_dir (dir : string) (l : list (string * IndexedIncludeCandidate)) : list IndexedIncludeCandidate :=
  snd <$> List.filter (fun dc => String.eqb dc.1 dir) l.
Lemma in_dir_app dir l k : in_dir dir (l ++ k) = in_dir dir l ++ in_dir dir k.
Proof. unfold in_dir. by rewrite List.filter_app, fmap_app. Qed.
Lemma all_contributions_ok path dir c : (dir, c) ∈ all_contributions path -> cand_ok c.
Proof.
  intros (l & Hl & Hc)%elem_of_concat. apply list_elem_of_fmap in Hl as (d & -> & Hd).
  unfold offered_under in Hc. apply list_elem_of_fmap in Hc as (x & [= -> ->] & Hx). eapply indexed_ok; [by eapply path_dirs_like|done].
Qed.
Lemma extend_contributions_spec path dirs : forall output l, extend_contributions path dirs output = Some l ->
  l = output ++ concat (offered_under path <$> dirs).
Proof.
  induction dirs as [|dir dirs IH]; intros output l; cbn [extend_contributions fmap list_fmap concat]; [intros [= ->]; by rewrite app_nil_r|].
  destruct (1024 <? _)%nat; [done|]. intros ->%IH. by rewrite app_assoc.
Qed.
Lemma contributions_spec path l : contributions path = Some l -> l = all_contributions path.
Proof. unfold contributions. destruct (32 <? _)%nat; [done|]. apply extend_contributions_spec. Qed.

(** ** What a built table holds *)

Definition offer_weight (dir : string) (c : IndexedIncludeCandidate) (path : string) : Z := weight (in_dir dir (all_contributions path)) c.
Lemma in_dir_offered path d dir : in_dir dir (offered_under path d) = if String.eqb d dir then indexed_workspace_include_candidates path d "" else [].
Proof.
  unfold in_dir, offered_under. induction (indexed_workspace_include_candidates path d "") as [|c l IH]; [by destruct (String.eqb d dir)|].
  cbn [fmap list_fmap List.filter fst snd] in *. destruct (String.eqb d dir); cbn [fmap list_fmap snd]; by rewrite IH.
Qed.
Lemma in_dir_ok path dir : Forall cand_ok (in_dir dir (all_contributions path)).
Proof.
  apply Forall_forall. intros c (dc & -> & Hin)%list_elem_of_fmap. apply elem_of_filter_bool in Hin as [Hin _]. destruct dc as [d c].
  by eapply all_contributions_ok.
Qed.
Lemma index_path_lookup m path dir : default [] (index_path m path !! dir) = default [] (m !! dir) ++ in_dir dir (all_contributions path).
Proof.
  unfold index_path, all_contributions. generalize ("" :: path_dirs path). intros dirs. revert m.
  induction dirs as [|d dirs IH]; intros m; cbn [foldl fmap list_fmap concat]; [by rewrite app_nil_r|].
  rewrite IH, in_dir_app, in_dir_offered, app_assoc. f_equal. unfold extend_dir. destruct (String.eqb_spec d dir) as [->|Hne].
  - by rewrite lookup_insert_eq.
  - by rewrite lookup_insert_ne, app_nil_r.
Qed.
Lemma index_paths_lookup paths : forall m dir, default [] (foldl index_path m paths !! dir) =
  default [] (m !! dir) ++ concat ((fun p => in_dir dir (all_contributions p)) <$> paths).
Proof.
  induction paths as [|p paths IH]; intros m dir; cbn [foldl fmap list_fmap concat]; [by rewrite app_nil_r|].
  by rewrite IH, index_path_lookup, app_assoc.
Qed.
Lemma weight_concat (ls : list (list IndexedIncludeCandidate)) c : weight (concat ls) c = foldr Z.add 0%Z ((fun l => weight l c) <$> ls).
Proof. induction ls as [|l ls IH]; [done|]. cbn [concat fmap list_fmap foldr]. by rewrite held_app, IH. Qed.
Lemma built_candidates paths dir : NoDup paths ->
  let l := default [] (build_candidate_index paths !! dir) in
  ordered l /\ Forall cand_ok l /\ forall c, weight l c = sum_over (list_to_set paths) (offer_weight dir c).
Proof.
  intros Hnd l. set (raw := concat ((fun p => in_dir dir (all_contributions p)) <$> paths)).
  assert (l = in_order raw) as ->.
  { unfold l, build_candidate_index, raw. rewrite lookup_fmap. pose proof (index_paths_lookup paths ∅ dir) as H.
    rewrite lookup_empty in H. cbn [default app] in H. rewrite <- H. by destruct (foldl index_path ∅ paths !! dir). }
  destruct (in_order_spec raw) as (Ho & Hok & Hw).
  { apply Forall_forall. intros c (k & (p & -> & _)%list_elem_of_fmap & Hc)%elem_of_concat. by apply (proj1 (Forall_forall _ _) (in_dir_ok p dir)). }
  split; [done|]. split; [done|]. intros c. rewrite Hw. unfold raw. rewrite weight_concat, <- list_fmap_compose, <- sum_over_list by done. done.
Qed.
Definition is_named (file path : string) : Z := if String.eqb (lower (last_segment path)) file then 1 else 0.
Lemma bump_lookup m key k : default 0%N (bump m key !! k) = (default 0 (m !! k) + (if String.eqb key k then 1 else 0))%N.
Proof.
  unfold bump. destruct (String.eqb_spec key k) as [->|Hne]; [by rewrite lookup_insert_eq|]. rewrite lookup_insert_ne by done. lia.
Qed.
Lemma bumps_lookup {A} (f : A -> string) (l : list A) k : forall m,
  Z.of_N (default 0%N (foldl (fun m x => bump m (f x)) m l !! k)) =
  (Z.of_N (default 0%N (m !! k)) + foldr Z.add 0 ((fun x => if String.eqb (f x) k then 1 else 0) <$> l))%Z.
Proof.
  induction l as [|x l IH]; intros m; cbn [foldl fmap list_fmap foldr]; [lia|]. rewrite IH, bump_lookup.
  destruct (String.eqb (f x) k); lia.
Qed.
Lemma built_basenames paths file : NoDup paths ->
  Z.of_N (default 0%N (foldl (fun m path => bump m (lower (last_segment path))) ∅ paths !! file)) = sum_over (list_to_set paths) (is_named file).
Proof.
  intros Hnd. rewrite (bumps_lookup (fun path => lower (last_segment path))), lookup_empty, <- sum_over_list by done. done.
Qed.

(** The edges of a table: the targets of each source, sorted, once each. *)
Definition leads_to (O : gmap string (list string)) (dir target source : string) : Z :=
  if String.eqb (source_dir source) dir && bool_decide (target ∈ default [] (O !! source)) then 1 else 0.
Definition incoming_sum (O : gmap string (list string)) (dir target : string) : Z := sum_over (dom O) (leads_to O dir target).
Definition targets_ok (O : gmap string (list string)) : Prop := forall source, increasing id (default [] (O !! source)).
Lemma count_nodup (l : list string) t : NoDup l ->
  foldr Z.add 0%Z ((fun x => if String.eqb x t then 1 else 0) <$> l)%Z = (if bool_decide (t ∈ l) then 1 else 0)%Z.
Proof.
  induction 1 as [|x l Hx Hl IH]; [done|]. cbn [fmap list_fmap foldr]. rewrite IH. destruct (String.eqb_spec x t) as [->|Hne].
  - by rewrite (bool_decide_eq_false_2 (t ∈ l)), (bool_decide_eq_true_2 (t ∈ t :: l)) by (done || left).
  - rewrite (bool_decide_ext (t ∈ x :: l) (t ∈ l)); [lia|]. rewrite elem_of_cons. naive_solver.
Qed.
Lemma increasing_id_nodup (l : list string) : increasing id l -> NoDup l.
Proof. intros H. rewrite <- (list_fmap_id l). by apply increasing_nodup. Qed.
Lemma count_incoming_lookup entries dir target : forall m, Forall (fun e => increasing id e.2) entries ->
  Z.of_N (default 0%N (targets ← foldl count_incoming m entries !! dir; targets !! target)) =
  (Z.of_N (default 0%N (targets ← m !! dir; targets !! target)) +
   foldr Z.add 0 ((fun e => if String.eqb (source_dir e.1) dir && bool_decide (target ∈ e.2) then 1 else 0) <$> entries))%Z.
Proof.
  induction entries as [|[s ts] entries IH]; intros m H; cbn [foldl fmap list_fmap foldr]; [lia|]. inversion H as [|? ? Hts H']; subst.
  rewrite IH by done. cbn [fst snd] in *. enough (Z.of_N (default 0%N (targets ← count_incoming m (s, ts) !! dir; targets !! target)) =
    (Z.of_N (default 0%N (targets ← m !! dir; targets !! target)) + (if String.eqb (source_dir s) dir && bool_decide (target ∈ ts) then 1 else 0))%Z) by lia.
  unfold count_incoming. cbn [fst snd]. destruct (String.eqb_spec (source_dir s) dir) as [<-|Hne].
  - rewrite lookup_insert_eq. cbn [mbind option_bind andb]. rewrite (bumps_lookup (fun x => x)), (count_nodup ts target) by by apply increasing_id_nodup.
    destruct (m !! source_dir s); cbn [mbind option_bind default]; [done|]. by rewrite lookup_empty.
  - rewrite lookup_insert_ne by done. cbn [andb]. lia.
Qed.
Lemma built_incoming O dir target : targets_ok O ->
  Z.of_N (default 0%N (targets ← foldl count_incoming ∅ (map_to_list O) !! dir; targets !! target)) = incoming_sum O dir target.
Proof.
  intros HO. rewrite count_incoming_lookup.
  - rewrite lookup_empty. cbn [mbind option_bind default]. rewrite Z.add_0_l. unfold incoming_sum.
    assert (dom O = list_to_set (map_to_list O).*1) as ->. { apply leibniz_equiv. by rewrite dom_alt. }
    rewrite <- sum_over_list by apply NoDup_fst_map_to_list. rewrite <- list_fmap_compose. f_equal. apply list_fmap_ext.
    intros i [s ts] Hl. cbn [compose fst snd]. unfold leads_to.
    assert (O !! s = Some ts) as ->; [|done]. apply elem_of_map_to_list. by eapply list_elem_of_lookup_2.
  - apply Forall_forall. intros [s ts] Hs%elem_of_map_to_list. specialize (HO s). by rewrite Hs in HO.
Qed.

(** ** Changes of a delta *)

Definition change_sum (values : list CandidateChange) (c : IndexedIncludeCandidate) : Z :=
  foldr (fun v n => (if same_place v.(candidate) c then v.(change) else 0) + n)%Z 0%Z values.
Record values_ok (values : list CandidateChange) : Prop := {
  vo_ordered : ordered (candidate <$> values);
  vo_each : Forall (fun v => v.(change) <> 0%Z /\ cand_ok v.(candidate)) values;
}.
Lemma change_sum_app l k c : change_sum (l ++ k) c = (change_sum l c + change_sum k c)%Z.
Proof. unfold change_sum. induction l as [|x l IH]; cbn [foldr app]; [done|]. by rewrite IH, Z.add_assoc. Qed.
Lemma find_change_iff values c i : values_ok values ->
  find_change values c = Some i <-> exists v, values !! i = Some v /\ candidate_order v.(candidate) c = Eq.
Proof.
  intros [Ho _]. split.
  - intros (v & Hv & E)%binary_search_Some. by exists v.
  - intros (v & Hv & E). eapply binary_search_finds; [|done|done]. apply (splits_on candidate candidate_order).
    clear -Ho. unfold ordered in Ho. remember (candidate <$> values) as l eqn:El. revert values El.
    induction Ho as [|x l Hl IH Hx]; intros [|v values]; try done; [constructor|]. intros [= -> ->]. constructor; [by apply IH|].
    by rewrite Forall_fmap in Hx.
Qed.
Lemma find_change_none values c v : values_ok values -> find_change values c = None -> v ∈ values -> candidate_order v.(candidate) c <> Eq.
Proof.
  intros Hok Hn [i Hi]%list_elem_of_lookup E. assert (find_change values c = Some i) by (apply find_change_iff; [done|by exists v]). congruence.
Qed.
Lemma change_sum_absent values c : (forall v, v ∈ values -> candidate_order v.(candidate) c <> Eq) -> change_sum values c = 0%Z.
Proof.
  unfold change_sum. induction values as [|v values IH]; intros H; [done|]. cbn [foldr]. rewrite IH by (intros w Hw; apply H; by right).
  destruct (same_place (candidate v) c) eqn:E; [|done]. apply same_place_iff in E. exfalso. by eapply (H v); [left|].
Qed.
Lemma ordered_distinct l1 x l2 : ordered (l1 ++ x :: l2) ->
  (forall y, y ∈ l1 -> candidate_order y x <> Eq) /\ (forall y, y ∈ l2 -> candidate_order y x <> Eq).
Proof.
  intros H. split; intros y Hy E.
  - pose proof (StronglySorted_across _ _ _ y x H Hy ltac:(left)) as Hlt. cbn in Hlt. congruence.
  - apply list_elem_of_split in Hy as (k1 & k2 & ->).
    assert (ordered ((l1 ++ [x]) ++ (k1 ++ y :: k2))) as H' by by rewrite <- app_assoc.
    pose proof (StronglySorted_across _ _ _ x y H' ltac:(apply elem_of_app; right; by left) ltac:(apply elem_of_app; right; by left)) as Hlt.
    cbn in Hlt. rewrite (cmp_antisym candidate_order x y), Hlt in E. done.
Qed.
Lemma change_sum_found values i v c : values_ok values -> values !! i = Some v -> candidate_order v.(candidate) c = Eq ->
  change_sum values c = v.(change).
Proof.
  intros [Ho _] Hi E. rewrite <- (take_drop_middle values i v Hi) in Ho |- *. rewrite fmap_app, fmap_cons in Ho.
  destruct (ordered_distinct _ _ _ Ho) as [H1 H2].
  assert (forall k, (forall y, y ∈ candidate <$> k -> candidate_order y (candidate v) <> Eq) -> change_sum k c = 0%Z) as Hk.
  { intros k Hk. apply change_sum_absent. intros w Hw Hwc. apply (Hk (candidate w)); [by apply list_elem_of_fmap_2|].
    rewrite (cmp_eq_r candidate_order (candidate v) c (candidate w) E). done. }
  rewrite change_sum_app, (Hk (take i values)) by done. change (v :: ?k) with ([v] ++ k). rewrite change_sum_app, (Hk (drop (S i) values)) by done.
  unfold change_sum. cbn [foldr]. rewrite (proj2 (same_place_iff _ _) E). lia.
Qed.
Lemma change_at values c : values_ok values ->
  default 0%Z (i ← find_change values c; v ← values !! i; Some v.(change)) = change_sum values c.
Proof.
  intros Hok. destruct (find_change values c) as [i|] eqn:E; cbn [mbind option_bind].
  - apply find_change_iff in E as (v & Hv & Hc); [|done]. rewrite Hv. cbn [mbind option_bind default]. by rewrite (change_sum_found values i v c).
  - symmetry. apply change_sum_absent. intros v. by apply find_change_none.
Qed.
Lemma candidate_change_sum d dir c : values_ok (default [] (d.(candidates) !! dir)) ->
  candidate_change d dir c = change_sum (default [] (d.(candidates) !! dir)) c.
Proof. intros H. unfold candidate_change. destruct (candidates d !! dir) as [values|]; cbn [mbind option_bind default] in *; [by apply change_at|done]. Qed.
Lemma insert_place_splits values c : values_ok values -> find_change values c = None ->
  (forall v, v ∈ take (insert_place values c) values -> candidate_order v.(candidate) c = Lt) /\
  (forall v, v ∈ drop (insert_place values c) values -> candidate_order c v.(candidate) = Lt).
Proof.
  intros Hok Hn. assert (forall v, v ∈ values -> candidate_order v.(candidate) c <> Eq) as Hne by (intros v; by apply find_change_none).
  destruct Hok as [Ho _]. unfold insert_place. clear Hn. induction values as [|v values IH]; cbn [partition_point].
  { split; by intros v ?%elem_of_nil. }
  unfold ordered in Ho. cbn [fmap list_fmap] in Ho. inversion Ho as [|? ? Ho' Hv]; subst. rewrite Forall_fmap, Forall_forall in Hv.
  destruct (candidate_order (candidate v) c) eqn:E; cbn [take drop].
  - exfalso. by apply (Hne v); [left|].
  - destruct (IH Ho') as [H1 H2]; [intros w Hw; apply Hne; by right|]. split; [|done]. intros w [->|Hw]%elem_of_cons; [done|by apply H1].
  - assert (candidate_order c (candidate v) = Lt) as Hlt by by rewrite (cmp_antisym candidate_order (candidate v) c), E.
    split; [by intros w ?%elem_of_nil|]. intros w [->|Hw]%elem_of_cons; [done|]. apply (cmp_lt_le candidate_order c (candidate v)); [done|].
    rewrite (Hv w Hw). done.
Qed.
Lemma adjust_values_spec values c by_ : values_ok values -> cand_ok c -> by_ <> 0%Z ->
  values_ok (adjust_values values c by_) /\
  forall c', change_sum (adjust_values values c by_) c' = (change_sum values c' + (if same_place c c' then by_ else 0))%Z.
Proof.
  intros Hok Hc Hby. unfold adjust_values. destruct (find_change values c) as [i|] eqn:Ei.
  - apply find_change_iff in Ei as (v & Hv & E); [|done]. rewrite Hv. cbn [candidate change].
    assert (forall c', same_place (candidate v) c' = same_place c c') as Hs by (intros c'; by apply same_place_cong).
    destruct Hok as [Ho He]. pose proof (take_drop_middle values i v Hv) as Hsplit. case_bool_decide as Hz.
    + split.
      * assert (take i values ++ drop (S i) values `sublist_of` values) as Hsub.
        { rewrite <- Hsplit at 3. apply sublist_app; [done|]. by apply sublist_cons. }
        split; [eapply sublist_StronglySorted; [|exact Ho]; by apply fmap_sublist|].
        apply Forall_forall. intros w Hw. rewrite Forall_forall in He. apply He. by eapply elem_of_sublist.
      * intros c'. rewrite <- Hsplit at 3. rewrite !change_sum_app. change (v :: drop (S i) values) with ([v] ++ drop (S i) values).
        rewrite change_sum_app. assert (change_sum [v] c' = (if same_place c c' then change v else 0)%Z) as ->.
        { unfold change_sum. cbn [foldr]. rewrite Hs. by rewrite Z.add_0_r. }
        destruct (same_place c c'); lia.
    + set (v' := mkChange (candidate v) (change v + by_)). assert (<[i:=v']> values = take i values ++ [v'] ++ drop (S i) values) as Hins.
      { rewrite <- Hsplit at 1. rewrite insert_app_r_alt; rewrite length_take; pose proof (lookup_lt_Some _ _ _ Hv); [|lia].
        by replace (i - min i (length values)) with 0 by lia. }
      split.
      * rewrite Hins. rewrite <- Hsplit in Ho, He. rewrite fmap_app, fmap_cons in Ho. split; [by rewrite fmap_app|].
        apply Forall_app in He as [He1 He2]. inversion He2 as [|? ? [_ Hcv] He2']; subst. apply Forall_app. split; [done|]. by constructor.
      * intros c'. rewrite Hins. rewrite <- Hsplit at 3. rewrite !change_sum_app. change (v :: drop (S i) values) with ([v] ++ drop (S i) values).
        rewrite change_sum_app. assert (forall w, candidate w = candidate v -> change_sum [w] c' = (if same_place c c' then change w else 0)%Z) as Hw.
        { intros w Hw. unfold change_sum. cbn [foldr]. rewrite Hw, Hs. by rewrite Z.add_0_r. }
        rewrite !Hw by done. cbn [v' change]. destruct (same_place c c'); lia.
  - destruct (insert_place_splits values c Hok Ei) as [H1 H2]. set (i := insert_place values c) in *. clearbody i.
    destruct Hok as [Ho He]. rewrite <- (take_drop i values) in Ho, He. rewrite fmap_app in Ho. apply Forall_app in He as [He1 He2].
    split; [split|].
    + rewrite !fmap_app. cbn [fmap list_fmap candidate].
      assert (ordered (candidate <$> take i values) /\ ordered (candidate <$> drop i values)) as [Ho1 Ho2].
      { split; eapply sublist_StronglySorted; [|exact Ho| |exact Ho]; [by apply sublist_inserts_r|by apply sublist_inserts_l]. }
      apply StronglySorted_app_intro; [done| |].
      * constructor; [done|]. rewrite Forall_fmap. apply Forall_forall. exact H2.
      * intros a b (v & -> & Hv)%list_elem_of_fmap [->|Hb]%elem_of_cons; [by apply H1|].
        apply list_elem_of_fmap in Hb as (w & -> & Hw). apply (cmp_lt_le candidate_order _ c); [by apply H1|]. by rewrite (H2 w Hw).
    + apply Forall_app. split; [done|]. by constructor.
    + intros c'. rewrite <- (take_drop i values) at 3. rewrite !change_sum_app.
      assert (change_sum [mkChange c by_] c' = (if same_place c c' then by_ else 0)%Z) as ->; [|lia].
      unfold change_sum. cbn [foldr candidate change]. by rewrite Z.add_0_r.
Qed.
Lemma adjust_lookup m key by_ k : default 0%Z (adjust m key by_ !! k) = (default 0 (m !! k) + (if String.eqb key k then by_ else 0))%Z.
Proof.
  unfold adjust. case_bool_decide as Hz; destruct (String.eqb_spec key k) as [->|Hne].
  - by rewrite lookup_delete_eq.
  - rewrite lookup_delete_ne by done. lia.
  - by rewrite lookup_insert_eq.
  - rewrite lookup_insert_ne by done. lia.
Qed.

(** ** The state a table stands for *)

(** The paths [B] and targets [OB] of a base, the paths [P] and targets [O] now. *)
Record base_ok (b : IncludeTableBase) (B : gset string) (OB : gmap string (list string)) : Prop := {
  bo_paths : increasing id b.(workspace_paths) /\ B = list_to_set b.(workspace_paths);
  bo_names file : Z.of_N (default 0%N (b.(basename_counts) !! file)) = sum_over B (is_named file);
  bo_candidates dir : let l := default [] (b.(candidates_by_dir) !! dir) in
    ordered l /\ Forall cand_ok l /\ forall c, weight l c = sum_over B (offer_weight dir c);
  bo_incoming dir target : Z.of_N (default 0%N (targets ← b.(incoming_by_src_dir) !! dir; targets !! target)) = incoming_sum OB dir target;
  bo_outgoing : b.(outgoing_by_source) = OB;
  bo_targets : targets_ok OB;
}.
Record delta_ok (B : gset string) (OB : gmap string (list string)) (d : IncludeDelta) (P : gset string) (O : gmap string (list string)) : Prop := {
  do_paths p : default (bool_decide (p ∈ B)) (d.(paths) !! p) = bool_decide (p ∈ P);
  do_balance : d.(path_balance) = (Z.of_nat (size P) - Z.of_nat (size B))%Z;
  do_names file : basename_change d file = (sum_over P (is_named file) - sum_over B (is_named file))%Z;
  do_values dir : values_ok (default [] (d.(candidates) !! dir));
  do_candidates dir c : change_sum (default [] (d.(candidates) !! dir)) c = (sum_over P (offer_weight dir c) - sum_over B (offer_weight dir c))%Z;
  do_incoming dir target : incoming_change d dir target = (incoming_sum O dir target - incoming_sum OB dir target)%Z;
  do_outgoing source : default (default [] (OB !! source)) (d.(outgoing) !! source) = default [] (O !! source);
  do_targets : targets_ok O;
}.
Definition edge_targets (edges : list (string * string)) : gmap string (list string) :=
  sorted_unique <$> foldl (fun m (e : string * string) => push_map m e.1 e.2) ∅ edges.
Lemma edge_targets_ok edges : targets_ok (edge_targets edges).
Proof.
  intros s. unfold edge_targets. rewrite lookup_fmap. destruct (foldl _ ∅ edges !! s); cbn [fmap option_fmap option_map default]; [|constructor].
  apply sorted_unique_increasing.
Qed.
Lemma build_base_ok alloc all_paths edges :
  base_ok (build_with_edges alloc all_paths edges).(base) (list_to_set all_paths) (edge_targets edges).
Proof.
  assert (increasing id (sorted_unique all_paths)) as Hi by apply sorted_unique_increasing.
  assert (list_to_set all_paths = list_to_set (C := gset string) (sorted_unique all_paths)) as ->.
  { apply leibniz_equiv. intros x. by rewrite !elem_of_list_to_set, elem_of_sorted_unique. }
  pose proof (increasing_id_nodup _ Hi) as Hnd. split; cbn [build_with_edges base workspace_paths basename_counts candidates_by_dir incoming_by_src_dir outgoing_by_source].
  - done.
  - intros file. by apply built_basenames.
  - intros dir. by apply built_candidates.
  - intros dir target. apply built_incoming, edge_targets_ok.
  - done.
  - apply edge_targets_ok.
Qed.
Lemma no_delta_ok B OB : targets_ok OB -> delta_ok B OB no_delta B OB.
Proof.
  intros H. split; [done|..|done|done].
  - cbn. lia.
  - intros file. unfold basename_change. cbn [no_delta basenames]. rewrite lookup_empty. cbn [default]. lia.
  - intros dir. cbn [no_delta candidates]. rewrite lookup_empty. split; constructor.
  - intros dir c. cbn [no_delta candidates]. rewrite lookup_empty. unfold change_sum. cbn. lia.
  - intros dir target. unfold incoming_change. cbn [no_delta incoming]. rewrite lookup_empty. cbn. lia.
Qed.

(** *** One changed path *)

Lemma indexed_one path dir c : c ∈ indexed_workspace_include_candidates path dir "" -> c.(contributors) = 1%N.
Proof.
  unfold indexed_workspace_include_candidates. intros H. repeat (case_match; simplify_eq; try by apply elem_of_nil in H);
    repeat (apply elem_of_app in H as [H|H]); repeat case_match; simplify_eq;
    first [by apply elem_of_nil in H|by apply list_elem_of_singleton in H as ->].
Qed.
Lemma all_contributions_one path dir c : (dir, c) ∈ all_contributions path -> c.(contributors) = 1%N.
Proof.
  intros (l & Hl & Hc)%elem_of_concat. apply list_elem_of_fmap in Hl as (d & -> & _). apply list_elem_of_fmap in Hc as (x & [= -> ->] & Hx).
  by eapply indexed_one.
Qed.
Lemma adjust_candidate_lookup d dir c by_ dir' :
  default [] (candidates (adjust_candidate d dir c by_) !! dir') =
  if String.eqb dir dir' then adjust_values (default [] (d.(candidates) !! dir)) c by_ else default [] (d.(candidates) !! dir').
Proof.
  unfold adjust_candidate. cbn [candidates]. set (values := adjust_values _ _ _). destruct (String.eqb_spec dir dir') as [<-|Hne].
  - destruct values; [by rewrite lookup_delete_eq|by rewrite lookup_insert_eq].
  - destruct values; [by rewrite lookup_delete_ne|by rewrite lookup_insert_ne].
Qed.
Lemma adjust_candidates_spec l by_ : by_ <> 0%Z -> (forall dir c, (dir, c) ∈ l -> cand_ok c /\ c.(contributors) = 1%N) ->
  forall d, (forall dir, values_ok (default [] (d.(candidates) !! dir))) ->
  let d' := foldl (fun value (dc : string * IndexedIncludeCandidate) => adjust_candidate value dc.1 dc.2 by_) d l in
  (forall dir, values_ok (default [] (d'.(candidates) !! dir))) /\
  (forall dir c, change_sum (default [] (d'.(candidates) !! dir)) c =
     (change_sum (default [] (d.(candidates) !! dir)) c + by_ * weight (in_dir dir l) c)%Z) /\
  d' = mkDelta d.(paths) d.(path_balance) d'.(candidates) d.(basenames) d.(outgoing) d.(incoming).
Proof.
  intros Hby. induction l as [|[dir0 c0] l IH]; intros Hl d Hd; cbn [foldl].
  { split; [done|]. split; [intros dir c; unfold in_dir, weight; cbn; lia|by destruct d]. }
  destruct (Hl dir0 c0 ltac:(left)) as [Hc0 H1]. cbn [fst snd].
  destruct (adjust_values_spec (default [] (candidates d !! dir0)) c0 by_ (Hd dir0) Hc0 Hby) as [Hok Hsum].
  assert (forall dir, values_ok (default [] (candidates (adjust_candidate d dir0 c0 by_) !! dir))) as Hd'.
  { intros dir. rewrite adjust_candidate_lookup. destruct (String.eqb dir0 dir); [done|apply Hd]. }
  destruct (IH ltac:(intros dir c Hin; apply (Hl dir c); by right) _ Hd') as (H2 & H3 & H4). split; [done|]. split; [|done].
  intros dir c. rewrite H3, adjust_candidate_lookup. unfold in_dir. cbn [List.filter fst].
  destruct (String.eqb_spec dir0 dir) as [->|Hne]; [|done]. rewrite Hsum. cbn [fmap list_fmap snd]. rewrite weight_cons, H1.
  destruct (same_place c0 c); lia.
Qed.
Definition toggle (P : gset string) (p : string) (new : bool) : gset string := if new then {[p]} ∪ P else P ∖ {[p]}.
Lemma toggle_sum P p new f : bool_decide (p ∈ P) = negb new -> sum_over (toggle P p new) f = (sum_over P f + (if new then 1 else -1) * f p)%Z.
Proof.
  destruct new; cbn [toggle negb]; [intros H%bool_decide_eq_false; rewrite sum_over_add by done; lia|].
  intros H%bool_decide_eq_true. rewrite sum_over_remove by done. lia.
Qed.
Lemma adjust_name d file by_ file' : default 0%Z (adjust d file by_ !! file') = (default 0 (d !! file') + (if String.eqb file file' then by_ else 0))%Z.
Proof. apply adjust_lookup. Qed.
Lemma path_step B OB d P O p new changes : delta_ok B OB d P O -> bool_decide (p ∈ P) = negb new -> contributions p = Some changes ->
  let sign := (if new then 1 else -1)%Z in
  let flags := if Bool.eqb new (bool_decide (p ∈ B)) then delete p d.(paths) else <[p := new]> d.(paths) in
  delta_ok B OB (foldl (fun value (dc : string * IndexedIncludeCandidate) => adjust_candidate value dc.1 dc.2 sign)
    (mkDelta flags (d.(path_balance) + sign) d.(candidates) (adjust d.(basenames) (lower (last_segment p)) sign) d.(outgoing) d.(incoming)) changes)
    (toggle P p new) O.
Proof.
  intros [Hp Hb Hn Hv Hc Hi Ho Ht] Hold Hch sign flags. apply contributions_spec in Hch as ->.
  assert (forall f, sum_over (toggle P p new) f = sum_over P f + sign * f p)%Z as Hsum by (intros f; by apply toggle_sum).
  set (d0 := mkDelta flags _ _ _ _ _).
  destruct (adjust_candidates_spec (all_contributions p) sign ltac:(by destruct new)
    ltac:(intros dir c Hin; split; [by eapply all_contributions_ok|by eapply all_contributions_one]) d0 Hv) as (Hv' & Hc' & ->).
  set (cs := candidates (foldl _ d0 _)) in *. clearbody cs. split; cbn [paths path_balance candidates basenames outgoing incoming d0].
  - intros q. unfold flags. destruct (decide (q = p)) as [->|Hne].
    + assert (bool_decide (p ∈ toggle P p new) = new) as ->.
      { unfold toggle. destruct new; [apply bool_decide_eq_true_2|apply bool_decide_eq_false_2]; set_solver. }
      destruct (Bool.eqb new (bool_decide (p ∈ B))) eqn:E; [rewrite lookup_delete_eq|by rewrite lookup_insert_eq].
      cbn [default]. by apply eqb_prop in E.
    + assert (bool_decide (q ∈ toggle P p new) = bool_decide (q ∈ P)) as ->.
      { apply bool_decide_ext. unfold toggle. destruct new; set_solver. }
      rewrite <- Hp. destruct (Bool.eqb _ _); [by rewrite lookup_delete_ne|by rewrite lookup_insert_ne].
  - pose proof (Hsum (fun _ => 1%Z)) as Hs. rewrite !sum_over_one in Hs. lia.
  - intros file. unfold basename_change. cbn [basenames]. rewrite adjust_name, Hsum. fold (basename_change d file). rewrite Hn.
    unfold is_named. destruct (String.eqb (lower (last_segment p)) file); lia.
  - done.
  - intros dir c. rewrite Hc', Hsum. cbn [d0 candidates]. rewrite Hc. unfold offer_weight. lia.
  - done.
  - done.
  - done.
Qed.

(** *** One changed source *)

Lemma incoming_change_alt d dir target : incoming_change d dir target = default 0%Z (default ∅ (d.(incoming) !! dir) !! target).
Proof. unfold incoming_change. destruct (incoming d !! dir); [done|]. cbn [mbind option_bind default]. by rewrite lookup_empty. Qed.
Lemma adjust_incoming_spec dir by_ d target dir' target' :
  incoming_change (adjust_incoming dir by_ d target) dir' target' =
  (incoming_change d dir' target' + (if String.eqb dir dir' && String.eqb target target' then by_ else 0))%Z.
Proof.
  rewrite !incoming_change_alt. unfold adjust_incoming. cbn [incoming]. set (values := adjust _ _ _).
  destruct (String.eqb_spec dir dir') as [<-|Hne].
  - cbn [andb]. assert (default 0%Z (values !! target') = (default 0 (default ∅ (incoming d !! dir) !! target') + (if String.eqb target target' then by_ else 0))%Z) as <-
      by apply adjust_lookup.
    case_bool_decide as Hz; [rewrite lookup_delete_eq|by rewrite lookup_insert_eq]. by rewrite Hz.
  - cbn [andb]. case_bool_decide; [rewrite lookup_delete_ne by done|rewrite lookup_insert_ne by done]; lia.
Qed.
Lemma adjust_incomings_spec dir by_ l : NoDup l -> forall d,
  let d' := foldl (adjust_incoming dir by_) d l in
  (forall dir' target, incoming_change d' dir' target =
     (incoming_change d dir' target + (if String.eqb dir dir' && bool_decide (target ∈ l) then by_ else 0))%Z) /\
  d' = mkDelta d.(paths) d.(path_balance) d.(candidates) d.(basenames) d.(outgoing) d'.(incoming).
Proof.
  induction 1 as [|t l Ht Hl IH]; intros d; cbn [foldl].
  { split; [|by destruct d]. intros dir' target. rewrite (bool_decide_eq_false_2 (target ∈ [])) by (by intros ?%elem_of_nil). rewrite andb_false_r. lia. }
  destruct (IH (adjust_incoming dir by_ d t)) as [H1 H2]. split; [|by rewrite H2 at 1].
  intros dir' target. rewrite H1, adjust_incoming_spec. destruct (String.eqb dir dir'); cbn [andb]; [|lia].
  destruct (String.eqb_spec t target) as [->|Hne].
  - rewrite (bool_decide_eq_false_2 (target ∈ l)), (bool_decide_eq_true_2 (target ∈ target :: l)) by (done || left). lia.
  - rewrite (bool_decide_ext (target ∈ t :: l) (target ∈ l)); [lia|]. rewrite elem_of_cons. naive_solver.
Qed.
Lemma incoming_sum_insert O s new dir target :
  incoming_sum (<[s := new]> O) dir target =
  (incoming_sum O dir target - leads_to O dir target s + leads_to (<[s := new]> O) dir target s)%Z.
Proof.
  set (O' := <[s := new]> O). unfold incoming_sum.
  assert (forall M : gmap string (list string), sum_over (dom M) (leads_to M dir target) =
    leads_to M dir target s + sum_over (dom M ∖ {[s]}) (leads_to M dir target))%Z as H.
  { intros M. destruct (decide (s ∈ dom M)) as [Hs|Hs]; [rewrite sum_over_remove by done; lia|].
    assert (leads_to M dir target s = 0%Z) as ->.
    { unfold leads_to. rewrite (not_elem_of_dom_1 _ _ Hs). cbn [default]. rewrite bool_decide_eq_false_2 by (by intros ?%elem_of_nil). by rewrite andb_false_r. }
    rewrite Z.add_0_l. f_equal. set_solver. }
  rewrite (H O'), (H O). assert (sum_over (dom O' ∖ {[s]}) (leads_to O' dir target) = sum_over (dom O ∖ {[s]}) (leads_to O dir target)) as ->; [|lia].
  assert (dom O' ∖ {[s]} = dom O ∖ {[s]}) as -> by (unfold O'; set_solver). apply sum_over_ext. intros q Hq. unfold leads_to, O'.
  rewrite lookup_insert_ne by set_solver. done.
Qed.
Lemma sum_over_superset D D' f : D ⊆ D' -> (forall p, p ∉ D -> f p = 0%Z) -> sum_over D' f = sum_over D f.
Proof.
  intros Hs Hf. assert (D' = D ∪ (D' ∖ D)) as -> by (apply leibniz_equiv; intros x; rewrite elem_of_union, elem_of_difference; destruct (decide (x ∈ D)); set_solver).
  assert (forall X, X ## D -> sum_over (D ∪ X) f = sum_over D f) as H; [|apply H; set_solver].
  intros X. pattern X. apply set_ind; [by intros ? ? ->%leibniz_equiv| |]; clear X.
  - intros _. f_equal. set_solver.
  - intros x X Hx IH Hd. assert (D ∪ ({[x]} ∪ X) = {[x]} ∪ (D ∪ X)) as -> by set_solver. rewrite sum_over_add by set_solver.
    rewrite IH by set_solver. rewrite Hf by set_solver. lia.
Qed.
Lemma leads_to_absent O dir target s : default [] (O !! s) = [] -> leads_to O dir target s = 0%Z.
Proof. unfold leads_to. intros ->. rewrite bool_decide_eq_false_2 by (by intros ?%elem_of_nil). by rewrite andb_false_r. Qed.
Lemma incoming_sum_ext O O' dir target : (forall s, default [] (O !! s) = default [] (O' !! s)) -> incoming_sum O dir target = incoming_sum O' dir target.
Proof.
  intros H. unfold incoming_sum. rewrite <- (sum_over_superset (dom O) (dom O ∪ dom O')), <- (sum_over_superset (dom O') (dom O ∪ dom O')); try set_solver.
  - apply sum_over_ext. intros s _. unfold leads_to. by rewrite H.
  - intros s Hs. apply leads_to_absent. by rewrite (not_elem_of_dom_1 _ _ Hs).
  - intros s Hs. apply leads_to_absent. by rewrite (not_elem_of_dom_1 _ _ Hs).
Qed.
Lemma delta_ok_ext B OB d P O O' : (forall s, default [] (O !! s) = default [] (O' !! s)) -> delta_ok B OB d P O -> delta_ok B OB d P O'.
Proof.
  intros H [Hp Hb Hn Hv Hc Hi Ho Ht]. split; try done.
  - intros dir target. by rewrite Hi, (incoming_sum_ext O O').
  - intros s. by rewrite Ho.
  - intros s. rewrite <- H. apply Ht.
Qed.
Lemma source_step B OB d P O s new : delta_ok B OB d P O -> increasing id new ->
  let value := foldl (adjust_incoming (source_dir s) 1) (foldl (adjust_incoming (source_dir s) (-1)) d (default [] (O !! s))) new in
  let outgoing := if bool_decide (default [] (OB !! s) = new) then delete s value.(outgoing) else <[s := new]> value.(outgoing) in
  delta_ok B OB (mkDelta value.(paths) value.(path_balance) value.(candidates) value.(basenames) outgoing value.(incoming)) P (<[s := new]> O).
Proof.
  intros [Hp Hb Hn Hv Hc Hi Ho Ht] Hnew value out.
  destruct (adjust_incomings_spec (source_dir s) (-1) (default [] (O !! s)) (increasing_id_nodup _ (Ht s)) d) as [H1 E1].
  destruct (adjust_incomings_spec (source_dir s) 1 new (increasing_id_nodup _ Hnew) (foldl (adjust_incoming (source_dir s) (-1)) d (default [] (O !! s)))) as [H2 E2].
  fold value in H2, E2. rewrite E1 in E2. cbn [paths path_balance candidates basenames outgoing] in E2. subst out. rewrite E2.
  cbn [paths path_balance candidates basenames outgoing incoming]. split; cbn [paths path_balance candidates basenames outgoing incoming]; try done.
  - intros dir target. assert (incoming_change (mkDelta (paths d) (path_balance d) (candidates d) (basenames d)
      (if bool_decide (default [] (OB !! s) = new) then delete s (IncludeTable.outgoing d) else <[s:=new]> (IncludeTable.outgoing d)) (incoming value)) dir target
      = incoming_change value dir target) as -> by done.
    rewrite H2, H1, Hi, incoming_sum_insert. unfold leads_to. rewrite lookup_insert_eq. cbn [default].
    destruct (String.eqb (source_dir s) dir); cbn [andb]; [|lia].
    repeat case_bool_decide; cbn [andb]; try done; lia.
  - intros q. destruct (decide (q = s)) as [->|Hne].
    + rewrite lookup_insert_eq. cbn [default]. case_bool_decide as E; [by rewrite lookup_delete_eq|by rewrite lookup_insert_eq].
    + rewrite (lookup_insert_ne O) by done. rewrite <- Ho. case_bool_decide; [by rewrite lookup_delete_ne|by rewrite lookup_insert_ne].
  - intros q. destruct (decide (q = s)) as [->|Hne]; [by rewrite lookup_insert_eq|rewrite lookup_insert_ne by done; apply Ht].
Qed.

(** *** The two loops *)

Lemma in_base_iff t B OB p : base_ok t.(base) B OB -> in_base t p = bool_decide (p ∈ B).
Proof.
  intros Hb. destruct (bo_paths _ _ _ Hb) as [Hi ->]. unfold in_base. apply bool_decide_ext. rewrite elem_of_list_to_set, list_elem_of_lookup.
  split; intros [i H]; exists i; [apply (search_increasing id) in H as (q & Hq & <-); done|apply (search_increasing id); [done|by exists p]].
Qed.
Lemma change_path_ok alloc t B OB P cur O fresh d0 d1 p : base_ok t.(base) B OB -> delta_ok B OB t.(delta) P O ->
  delta_ok B OB (default t.(delta) d0) cur O -> (p ∈ cur <-> p ∈ P) -> change_path alloc t fresh d0 p = Some d1 ->
  exists cur', delta_ok B OB (default t.(delta) d1) cur' O /\ (p ∈ cur' <-> p ∈ fresh) /\ forall q, q <> p -> q ∈ cur' <-> q ∈ cur.
Proof.
  intros Hb Hd Hc Hp H. unfold change_path in H. rewrite (in_base_iff t B OB) in H by done.
  rewrite (do_paths _ _ _ _ _ Hd p) in H. destruct (Bool.eqb _ _) eqn:E.
  - injection H as <-. exists cur. split; [done|]. apply eqb_prop in E. split; [|done]. rewrite Hp.
    destruct (decide (p ∈ fresh)) as [Hf|Hf]; [rewrite (bool_decide_eq_true_2 (p ∈ fresh)) in E by done|rewrite (bool_decide_eq_false_2 (p ∈ fresh)) in E by done].
    + apply bool_decide_eq_true in E. done.
    + apply bool_decide_eq_false in E. done.
  - apply bind_Some in H as (changes & Hch & H). destruct (over_budget alloc _); [done|]. injection H as <-.
    assert (bool_decide (p ∈ cur) = negb (bool_decide (p ∈ fresh))) as Hold.
    { rewrite (bool_decide_ext (p ∈ cur) (p ∈ P) Hp). by destruct (bool_decide (p ∈ P)), (bool_decide (p ∈ fresh)). }
    eexists. split; [cbn [default]; by apply path_step|]. unfold toggle. split.
    + destruct (decide (p ∈ fresh)) as [Hf|Hf]; [rewrite bool_decide_eq_true_2 by done|rewrite bool_decide_eq_false_2 by done]; set_solver.
    + intros q Hq. destruct (bool_decide (p ∈ fresh)); set_solver.
Qed.
Lemma change_paths_ok alloc t B OB P O fresh l : base_ok t.(base) B OB -> delta_ok B OB t.(delta) P O ->
  forall seen cur d0 d1, delta_ok B OB (default t.(delta) d0) cur O -> (forall p, p ∉ seen -> p ∈ cur <-> p ∈ P) ->
  each_new (change_path alloc t fresh) seen l d0 = Some d1 ->
  exists cur', delta_ok B OB (default t.(delta) d1) cur' O /\
    forall p, p ∈ cur' <-> if decide (p ∈ l /\ p ∉ seen) then p ∈ fresh else p ∈ cur.
Proof.
  intros Hb Hd. induction l as [|x l IH]; intros seen cur d0 d1 Hc Hs H; cbn [each_new] in H.
  { injection H as <-. exists cur. split; [done|]. intros p. by rewrite decide_False by (by intros [?%elem_of_nil _]). }
  case_bool_decide as Hx.
  - destruct (IH seen cur d0 d1 Hc Hs H) as (cur' & Hc' & Hp). exists cur'. split; [done|]. intros p. rewrite Hp.
    repeat case_decide; set_solver.
  - apply bind_Some in H as (d & Hstep & H). destruct (change_path_ok alloc t B OB P cur O fresh d0 d x Hb Hd Hc (Hs x Hx) Hstep) as (mid & Hm & Hmx & Hmq).
    destruct (IH ({[x]} ∪ seen) mid d d1 Hm) as (cur' & Hc' & Hp); [|done|].
    { intros p Hp. rewrite Hmq by set_solver. apply Hs. set_solver. }
    exists cur'. split; [done|]. intros p. rewrite Hp. destruct (decide (p = x)) as [->|Hne].
    + rewrite decide_False by set_solver. rewrite decide_True by (split; [left|done]). done.
    + repeat case_decide; rewrite ?(Hmq p Hne); set_solver.
Qed.
Lemma change_source_ok alloc t B OB P0 P O cur by_source d0 d1 s : base_ok t.(base) B OB -> delta_ok B OB t.(delta) P0 O ->
  delta_ok B OB (default t.(delta) d0) P cur -> default [] (cur !! s) = default [] (O !! s) -> change_source alloc t by_source d0 s = Some d1 ->
  exists cur', delta_ok B OB (default t.(delta) d1) P cur' /\ default [] (cur' !! s) = sorted_unique (default [] (by_source !! s)) /\
    forall q, q <> s -> default [] (cur' !! q) = default [] (cur !! q).
Proof.
  intros Hb Hd Hc Hs H. unfold change_source in H.
  assert (current_targets t s = default [] (O !! s)) as Hcur.
  { unfold current_targets. rewrite (bo_outgoing _ _ _ Hb), <- (do_outgoing _ _ _ _ _ Hd). by destruct (outgoing (delta t) !! s). }
  rewrite Hcur, (bo_outgoing _ _ _ Hb) in H. case_bool_decide as E.
  - injection H as <-. exists cur. split; [done|]. by rewrite Hs.
  - destruct (over_budget alloc _); [done|]. injection H as <-. rewrite <- Hs.
    eexists. split; [cbn [default]; apply source_step; [done|apply sorted_unique_increasing]|].
    split; [by rewrite lookup_insert_eq|]. intros q Hq. by rewrite lookup_insert_ne.
Qed.
Lemma change_sources_ok alloc t B OB P0 P O by_source l : base_ok t.(base) B OB -> delta_ok B OB t.(delta) P0 O ->
  forall seen cur d0 d1, delta_ok B OB (default t.(delta) d0) P cur -> (forall s, s ∉ seen -> default [] (cur !! s) = default [] (O !! s)) ->
  each_new (change_source alloc t by_source) seen l d0 = Some d1 ->
  exists cur', delta_ok B OB (default t.(delta) d1) P cur' /\
    forall s, default [] (cur' !! s) = if decide (s ∈ l /\ s ∉ seen) then sorted_unique (default [] (by_source !! s)) else default [] (cur !! s).
Proof.
  intros Hb Hd. induction l as [|x l IH]; intros seen cur d0 d1 Hc Hs H; cbn [each_new] in H.
  { injection H as <-. exists cur. split; [done|]. intros p. by rewrite decide_False by (by intros [?%elem_of_nil _]). }
  case_bool_decide as Hx.
  - destruct (IH seen cur d0 d1 Hc Hs H) as (cur' & Hc' & Hp). exists cur'. split; [done|]. intros p. rewrite Hp.
    repeat case_decide; set_solver.
  - apply bind_Some in H as (d & Hstep & H).
    destruct (change_source_ok alloc t B OB P0 P O cur by_source d0 d x Hb Hd Hc (Hs x Hx) Hstep) as (mid & Hm & Hmx & Hmq).
    destruct (IH ({[x]} ∪ seen) mid d d1 Hm) as (cur' & Hc' & Hp); [|done|].
    { intros p Hp. rewrite Hmq by set_solver. apply Hs. set_solver. }
    exists cur'. split; [done|]. intros p. rewrite Hp. destruct (decide (p = x)) as [->|Hne].
    + rewrite decide_False by set_solver. rewrite decide_True by (split; [left|done]). done.
    + repeat case_decide; rewrite ?(Hmq p Hne); set_solver.
Qed.

(** ** What is offered *)

Fixpoint merged (fuel : nat) (existing added : list IndexedIncludeCandidate) : list (bool * IndexedIncludeCandidate) :=
  match fuel, next_candidate existing added with
  | S fuel, Some (from_base, c, existing, added) => (from_base, c) :: merged fuel existing added
  | _, _ => []
  end.
Definition merge_all (existing added : list IndexedIncludeCandidate) : list (bool * IndexedIncludeCandidate) :=
  merged (length existing + length added) existing added.
Lemma merged_cases fuel existing added : length existing + length added <= fuel ->
  match existing, added with
  | [], [] => merged fuel existing added = []
  | a :: existing', b :: added' =>
      (candidate_order a b <> Gt /\ merged fuel existing added = (true, a) :: merged (Nat.pred fuel) existing' added) \/
      (candidate_order a b = Gt /\ merged fuel existing added = (false, b) :: merged (Nat.pred fuel) existing added')
  | a :: existing', [] => merged fuel existing added = (true, a) :: merged (Nat.pred fuel) existing' []
  | [], b :: added' => merged fuel existing added = (false, b) :: merged (Nat.pred fuel) [] added'
  end.
Proof.
  destruct fuel as [|fuel]; destruct existing as [|a existing], added as [|b added]; cbn [length Nat.pred]; try lia; try done.
  intros _. cbn [merged next_candidate]. destruct (candidate_order a b) eqn:E; [left|left|right]; done.
Qed.
Local Ltac side := first [done | cbn [length]; lia | by constructor | by intros ? ?%elem_of_nil | by intros ? ? ?%elem_of_nil | by intros ? ? _ ?%elem_of_nil
  | lazymatch goal with |- forall _, _ <-> _ => intros ?; rewrite ?elem_of_cons, ?elem_of_nil; intuition congruence end].
Lemma merged_spec fuel : forall existing added, length existing + length added <= fuel ->
  ordered existing -> ordered added -> (forall a b, a ∈ existing -> b ∈ added -> candidate_order a b <> Eq) ->
  ordered (snd <$> merged fuel existing added) /\ length (merged fuel existing added) = length existing + length added /\
  forall src c, (src, c) ∈ merged fuel existing added <-> if src : bool then c ∈ existing else c ∈ added.
Proof.
  induction fuel as [|fuel IH]; intros existing added Hf He Ha Hd.
  { destruct existing, added; cbn in Hf; try lia. split; [constructor|]. split; [done|]. intros src c. split; [by intros ?%elem_of_nil|].
    destruct src; by intros ?%elem_of_nil. }
  assert (forall src0 c0 ex ad, length ex + length ad <= fuel -> ordered ex -> ordered ad -> (forall a b, a ∈ ex -> b ∈ ad -> candidate_order a b <> Eq) ->
    merged (S fuel) existing added = (src0, c0) :: merged fuel ex ad ->
    (forall c, c ∈ ex -> candidate_order c0 c = Lt) -> (forall c, c ∈ ad -> candidate_order c0 c = Lt) ->
    length existing + length added = S (length ex + length ad) ->
    (forall c, c ∈ existing <-> (src0 = true /\ c = c0) \/ c ∈ ex) -> (forall c, c ∈ added <-> (src0 = false /\ c = c0) \/ c ∈ ad) ->
    ordered (snd <$> merged (S fuel) existing added) /\ length (merged (S fuel) existing added) = length existing + length added /\
    forall src c, (src, c) ∈ merged (S fuel) existing added <-> if src : bool then c ∈ existing else c ∈ added) as Hstep.
  { intros src0 c0 ex ad Hl Hex Had Hdis -> Hle Hla Hlen Hine Hina. destruct (IH ex ad Hl Hex Had Hdis) as (Ho & Hn & Hin).
    cbn [fmap list_fmap snd length]. rewrite Hn, Hlen. split; [|split; [done|]].
    - constructor; [done|]. rewrite Forall_fmap. apply Forall_forall. intros [[] c] H%Hin; cbn [compose snd]; [by apply Hle|by apply Hla].
    - intros src c. rewrite elem_of_cons, Hin. destruct src; [rewrite Hine|rewrite Hina]; naive_solver. }
  pose proof (merged_cases (S fuel) existing added Hf) as Hm. cbn [Nat.pred] in Hm.
  destruct existing as [|a existing], added as [|b added]; cbn [length] in Hf.
  - rewrite Hm. split; [constructor|]. split; [done|]. intros src c. split; [by intros ?%elem_of_nil|]. destruct src; by intros ?%elem_of_nil.
  - inversion Ha as [|? ? Ha' Hb]; subst. rewrite Forall_forall in Hb.
    apply (Hstep false b [] added); side.
  - inversion He as [|? ? He' Hb]; subst. rewrite Forall_forall in Hb.
    apply (Hstep true a existing []); side.
  - inversion He as [|? ? He' Hea]; subst. inversion Ha as [|? ? Ha' Hab]; subst. rewrite Forall_forall in Hea, Hab. destruct Hm as [[Hle Hm]|[Hgt Hm]].
    + assert (candidate_order a b = Lt) as Hlt.
      { specialize (Hd a b ltac:(left) ltac:(left)). by destruct (candidate_order a b). }
      apply (Hstep true a existing (b :: added)); try side; [intros x y Hx Hy; apply Hd; [by right|done]|].
      intros c [->|Hc]%elem_of_cons; [done|]. apply (cmp_lt_le candidate_order a b c Hlt). by rewrite (Hab c Hc).
    + assert (candidate_order b a = Lt) as Hlt by by rewrite (cmp_antisym candidate_order a b), Hgt.
      apply (Hstep false b (a :: existing) added); try side; [intros x y Hx Hy; apply Hd; [done|by right]|].
      intros c [->|Hc]%elem_of_cons; [done|]. apply (cmp_lt_le candidate_order b a c Hlt). by rewrite (Hea c Hc).
Qed.

Lemma ordered_names a b : candidate_order a b = Lt -> String.compare a.(name_lower) b.(name_lower) <> Gt.
Proof. unfold candidate_order, cmp_lex, cmp_on, cmp_then. by destruct (String.compare (name_lower a) (name_lower b)). Qed.
Definition under_prefix (seg_lower : string) (c : IndexedIncludeCandidate) : bool := String.prefix seg_lower c.(name_lower).
Lemma existing_filter t dir seg_lower : ordered (base_under t dir) -> existing_candidates t dir seg_lower = List.filter (under_prefix seg_lower) (base_under t dir).
Proof.
  intros Ho. unfold existing_candidates. set (l := base_under t dir) in *. clearbody l. set (f := below_segment seg_lower).
  assert (ordered (drop (partition_point f l) l)) as Ho'.
  { eapply sublist_StronglySorted; [apply sublist_drop|exact Ho]. }
  assert (Forall (fun c => f c = false) (drop (partition_point f l) l)) as Hge.
  { eapply drop_partition_point; [exact Ho|]. intros a b Hf Hab%ordered_names. unfold f, below_segment in *.
    destruct (String.compare (name_lower b) seg_lower) eqn:E; [done| |done]. exfalso. apply Hab.
    destruct (String.compare (name_lower a) (name_lower b)) eqn:E2; try done; exfalso.
    - apply string_compare_eq in E2. by rewrite E2, E in Hf.
    - assert (String.compare (name_lower a) seg_lower = Lt) as E3 by (apply (cmp_lt_le String.compare _ (name_lower b)); [done|by rewrite E]).
      by rewrite E3 in Hf. }
  rewrite (take_while_convex _ _ _ Ho').
  - rewrite <- (take_drop (partition_point f l) l) at 3. rewrite List.filter_app. assert (List.filter (under_prefix seg_lower) (take (partition_point f l) l) = []) as ->; [|done].
    pose proof (take_partition_point f l) as Ht. induction Ht as [|c k Hc Hk IH]; [done|]. cbn [List.filter].
    destruct (under_prefix seg_lower c) eqn:E; [|done]. exfalso. apply prefix_le in E. unfold f, below_segment in Hc.
    rewrite (cmp_antisym String.compare (name_lower c)) in E. by destruct (String.compare (name_lower c) seg_lower).
  - intros a b Hab%ordered_names Ha Hb. rewrite Forall_forall in Hge. specialize (Hge a Ha). unfold f, below_segment in Hge.
    apply (prefix_convex _ _ (name_lower b)); [|done|done]. rewrite (cmp_antisym String.compare (name_lower a)).
    by destruct (String.compare (name_lower a) seg_lower).
Qed.
(** The places that have a contribution, and what is said of them. *)
Definition offered (P : gset string) (dir seg_lower : string) (c : IndexedIncludeCandidate) : Prop :=
  (0 < sum_over P (offer_weight dir c))%Z /\ under_prefix seg_lower c = true /\ c.(name) = last_segment c.(rel_path) /\ c.(name_lower) = lower c.(name).
Definition visible (t : IncludeCompletionTable) (dir seg_lower : string) : list IndexedIncludeCandidate :=
  snd <$> List.filter (fun sc => negb (hidden t dir sc.1 sc.2)) (merge_all (existing_candidates t dir seg_lower) (added_candidates t dir seg_lower)).
Lemma weight_absent l c : (forall x, x ∈ l -> candidate_order x c <> Eq) -> weight l c = 0%Z.
Proof.
  induction l as [|x l IH]; intros H; [done|]. rewrite weight_cons, IH by (intros y Hy; apply H; by right).
  destruct (same_place x c) eqn:E; [|done]. apply same_place_iff in E. exfalso. by apply (H x); [left|].
Qed.
Lemma offer_weight_nonneg dir c p : (0 <= offer_weight dir c p)%Z.
Proof. unfold offer_weight, weight. induction (in_dir _ _); cbn [foldr]; [done|]. case_match; lia. Qed.
Lemma saturating_add_signed_zero a b : (saturating_add_signed a b =? 0)%N = (Z.of_N a + b <=? 0)%Z.
Proof.
  unfold saturating_add_signed, usize_max. apply eq_true_iff_eq. rewrite N.eqb_eq, Z.leb_le. lia.
Qed.
Section offered_places.
Context (t : IncludeCompletionTable) (B : gset string) (OB : gmap string (list string)) (P : gset string) (O : gmap string (list string)).
Context (dir seg_lower : string) (Hb : base_ok t.(base) B OB) (Hd : delta_ok B OB t.(delta) P O).
Local Abbreviation values := (default [] (candidates (delta t) !! dir)).
Lemma change_here c : candidate_change (delta t) dir c = change_sum values c.
Proof. apply candidate_change_sum, (do_values _ _ _ _ _ Hd). Qed.
Lemma change_of v : v ∈ values -> change_sum values (candidate v) = change v.
Proof. intros [i Hi]%list_elem_of_lookup. eapply change_sum_found; [apply (do_values _ _ _ _ _ Hd)|exact Hi|apply (cmp_refl candidate_order)]. Qed.
Lemma weights_add_up c : (weight (base_under t dir) c + change_sum values c = sum_over P (offer_weight dir c))%Z.
Proof. destruct (bo_candidates _ _ _ Hb dir) as (_ & _ & Hw). fold (base_under t dir) in Hw. rewrite Hw, (do_candidates _ _ _ _ _ Hd). lia. Qed.
Lemma elem_of_added c : c ∈ added_candidates t dir seg_lower <->
  exists v, v ∈ values /\ c = candidate v /\ (0 < change v)%Z /\ under_prefix seg_lower c = true /\
    forall x, x ∈ base_under t dir -> candidate_order x c <> Eq.
Proof.
  destruct (bo_candidates _ _ _ Hb dir) as (Ho & _). fold (base_under t dir) in Ho.
  assert (forall c, binary_search (fun x => candidate_order x c) (base_under t dir) = None <-> forall x, x ∈ base_under t dir -> candidate_order x c <> Eq) as Hbs.
  { intros d. apply (binary_search_None (fun x => candidate_order x d)). by apply (splits_on id candidate_order). }
  unfold added_candidates. rewrite list_elem_of_fmap. split.
  - intros (v & -> & [Hin [[Hp%Z.ltb_lt Hu]%andb_true_iff Hn%bool_decide_eq_true]%andb_true_iff]%elem_of_filter_bool). exists v. by rewrite <- Hbs.
  - intros (v & Hin & -> & Hp & Hu & Hn%Hbs). exists v. split; [done|]. apply elem_of_filter_bool. split; [done|].
    rewrite bool_decide_eq_true_2 by done. unfold under_prefix in Hu. rewrite Hu. by apply Z.ltb_lt in Hp as ->.
Qed.
Lemma merged_places : let l := merge_all (existing_candidates t dir seg_lower) (added_candidates t dir seg_lower) in
  ordered (snd <$> l) /\ forall src c, (src, c) ∈ l <->
    if src : bool then c ∈ base_under t dir /\ under_prefix seg_lower c = true else c ∈ added_candidates t dir seg_lower.
Proof.
  destruct (bo_candidates _ _ _ Hb dir) as (Ho & _). fold (base_under t dir) in Ho. pose proof (existing_filter t dir seg_lower Ho) as Hex.
  destruct (merged_spec _ (existing_candidates t dir seg_lower) (added_candidates t dir seg_lower) (reflexivity _)) as (Hmo & _ & Hin).
  { rewrite Hex. eapply sublist_StronglySorted; [apply list_filter_bool_sublist|done]. }
  { eapply sublist_StronglySorted; [|exact (vo_ordered _ (do_values _ _ _ _ _ Hd dir))]. unfold added_candidates. apply fmap_sublist, list_filter_bool_sublist. }
  { intros a b Ha (v & _ & _ & _ & _ & Hn)%elem_of_added. apply Hn. rewrite Hex in Ha. by apply elem_of_filter_bool in Ha as [? _]. }
  split; [done|]. intros [] c; rewrite (Hin _ c); [|done]. by rewrite Hex, elem_of_filter_bool.
Qed.
Lemma elem_of_visible c : c ∈ visible t dir seg_lower <->
  (c ∈ base_under t dir /\ under_prefix seg_lower c = true /\ (0 < sum_over P (offer_weight dir c))%Z) \/ c ∈ added_candidates t dir seg_lower.
Proof.
  destruct merged_places as [_ Hin]. destruct (bo_candidates _ _ _ Hb dir) as (Ho & _). fold (base_under t dir) in Ho.
  assert (forall x, x ∈ base_under t dir -> hidden t dir true x = negb (0 <? sum_over P (offer_weight dir x))%Z) as Hh.
  { intros x Hx. unfold hidden. cbn [andb]. rewrite saturating_add_signed_zero, change_here, <- weights_add_up, (weight_ordered _ x Ho Hx).
    by rewrite Z.ltb_antisym, negb_involutive. }
  unfold visible. rewrite list_elem_of_fmap. split.
  - intros ([src x] & -> & [Hx Hv]%elem_of_filter_bool). cbn [fst snd] in *. apply Hin in Hx. destruct src; [left|by right].
    destruct Hx as [Hx Hu]. rewrite (Hh x Hx), negb_involutive in Hv. by apply Z.ltb_lt in Hv.
  - intros [(Hx & Hu & Hpos)|Hx]; [exists (true, c)|exists (false, c)]; (split; [done|]); apply elem_of_filter_bool; (split; [by apply Hin|]); [|done].
    cbn [fst snd]. rewrite (Hh c Hx), negb_involutive. by apply Z.ltb_lt.
Qed.
Lemma visible_spec : ordered (visible t dir seg_lower) /\
  (forall c, c ∈ visible t dir seg_lower -> offered P dir seg_lower c) /\
  (forall c, offered P dir seg_lower c -> exists x, x ∈ visible t dir seg_lower /\ candidate_order x c = Eq).
Proof.
  destruct merged_places as [Hmo _]. destruct (bo_candidates _ _ _ Hb dir) as (_ & Hok & _). fold (base_under t dir) in Hok.
  pose proof (do_values _ _ _ _ _ Hd dir) as Hv. split; [|split].
  - unfold visible. eapply sublist_StronglySorted; [apply fmap_sublist, list_filter_bool_sublist|done].
  - intros c [(Hx & Hu & Hpos)|(v & Hx & -> & Hp & Hu & Hn)%elem_of_added]%elem_of_visible.
    + destruct (proj1 (Forall_forall _ _) Hok c Hx) as (? & ? & _). done.
    + destruct (proj1 (Forall_forall _ _) (vo_each _ Hv) v Hx) as (_ & ? & ? & _). split; [|done].
      rewrite <- weights_add_up, (weight_absent _ _ Hn), (change_of v Hx). lia.
  - intros c (Hpos & Hu & _). destruct (decide (Exists (fun x => same_place x c = true) (base_under t dir))) as [(x & Hx & E%same_place_iff)%Exists_exists|Hno'].
    + exists x. split; [|done]. apply elem_of_visible. left. split; [done|]. pose proof (proj1 (candidate_order_eq x c) E) as (El & _ & _). split.
      * unfold under_prefix in *. by rewrite El.
      * erewrite sum_over_ext; [exact Hpos|]. intros p _. unfold offer_weight. by apply weight_cong.
    + assert (forall x, x ∈ base_under t dir -> candidate_order x c <> Eq) as Hno.
      { intros x Hx E. apply Hno', Exists_exists. exists x. by rewrite same_place_iff. }
      rewrite <- weights_add_up, (weight_absent _ _ Hno) in Hpos. destruct (find_change values c) as [i|] eqn:Ei.
      * apply find_change_iff in Ei as (v & Hi & E); [|done]. exists (candidate v). split; [|done]. apply elem_of_visible. right. apply elem_of_added. exists v.
        split; [by eapply list_elem_of_lookup_2|]. split; [done|]. pose proof (proj1 (candidate_order_eq _ c) E) as (El & _ & _).
        rewrite (change_sum_found values i v c Hv Hi E) in Hpos. split; [lia|]. split; [unfold under_prefix in *; by rewrite El|].
        intros x Hx. rewrite (cmp_eq_r candidate_order (candidate v) c x E). by apply Hno.
      * rewrite change_sum_absent in Hpos; [lia|]. intros v. by apply find_change_none.
Qed.
End offered_places.

(** *** The loop and the rank *)

Definition uninspected (m : IncludeCompletionMetrics) : IncludeCompletionMetrics :=
  mkMetrics 0 m.(truncated) m.(same_directory) m.(recent) m.(sibling) m.(basename) m.(depth_penalty).
Section loop.
Context (t : IncludeCompletionTable) (dir_part seg : string) (base_score : Z) (current_rel_dir : option string) (evidence : option CurrentIncludeEvidence).
Local Abbreviation offer_one := (offer t seg base_score current_rel_dir evidence).
Lemma offer_inspected m out c :
  (offer_one (m, out) c).1.(inspected) = m.(inspected) /\ (offer_one (m, out) c).1.(truncated) = m.(truncated) /\
  (uninspected (offer_one (m, out) c).1, (offer_one (m, out) c).2) = offer_one (uninspected m, out) c.
Proof. unfold offer. destruct (ranking_boost _ _ _ _ _). done. Qed.
(** Cut or not, the loop takes the merged list in order. *)
Lemma collect_loop_spec fuel : forall existing added m out, length existing + length added <= fuel ->
  let l := merged fuel existing added in
  let r := collect_loop t dir_part seg base_score current_rel_dir evidence fuel existing added (m, out) in
  r.1.(truncated) = false ->
  m.(truncated) = false /\ (l <> [] -> m.(inspected) + N.of_nat (length l) <= 16384)%N /\
  r.1.(inspected) = (m.(inspected) + N.of_nat (length l))%N /\
  (uninspected r.1, r.2) = foldl offer_one (uninspected m, out) (snd <$> List.filter (fun sc => negb (hidden t dir_part sc.1 sc.2)) l).
Proof.
  induction fuel as [|fuel IH]; intros existing added m out Hf; cbn [merged collect_loop].
  { intros H. split; [done|]. split; [done|]. split; [|done]. cbn [length]. cbn. lia. }
  destruct (next_candidate existing added) as [[[[src c] ex] ad]|] eqn:En.
  2: { intros H. split; [done|]. split; [done|]. split; [|done]. cbn. lia. }
  assert (length ex + length ad <= fuel) as Hf'.
  { destruct existing as [|a existing], added as [|b added]; cbn [next_candidate length] in *; [done|by simplify_eq; cbn; lia..|].
    destruct (candidate_order a b); simplify_eq; cbn [length]; lia. }
  cbn [fst snd]. destruct (16384 <=? inspected m)%N eqn:El; [done|]. apply N.leb_gt in El. cbn [length List.filter fst snd].
  destruct (hidden t dir_part src c) eqn:Eh; cbn [negb fmap list_fmap snd foldl].
  - intros H. destruct (IH ex ad (one_more m) out Hf' H) as (H1 & H2 & H3 & H4). cbn [one_more truncated inspected] in *.
    split; [done|]. split; [intros _; destruct (merged fuel ex ad); [cbn; lia|specialize (H2 ltac:(done)); lia]|]. split; [rewrite H3; lia|]. by rewrite H4.
  - destruct (offer_one (one_more m, out) c) as [m' out'] eqn:Eo. intros H. destruct (IH ex ad m' out' Hf' H) as (H1 & H2 & H3 & H4).
    destruct (offer_inspected (one_more m) out c) as (O1 & O2 & O3). rewrite Eo in O1, O2, O3. cbn [fst snd one_more truncated inspected] in *.
    rewrite O2 in H1. rewrite O1 in H2, H3. split; [done|]. split; [intros _; destruct (merged fuel ex ad); [cbn; lia|specialize (H2 ltac:(done)); lia]|].
    split; [rewrite H3; lia|]. rewrite H4, O3. done.
Qed.
Lemma collect_loop_uncut fuel : forall existing added m out, m.(truncated) = false ->
  (merged fuel existing added <> [] -> m.(inspected) + N.of_nat (length (merged fuel existing added)) <= 16384)%N ->
  (collect_loop t dir_part seg base_score current_rel_dir evidence fuel existing added (m, out)).1.(truncated) = false.
Proof.
  induction fuel as [|fuel IH]; intros existing added m out Hm; cbn [merged collect_loop]; [done|].
  destruct (next_candidate existing added) as [[[[src c] ex] ad]|]; [|done]. cbn [length fst snd]. intros Hl. specialize (Hl ltac:(done)).
  destruct (16384 <=? inspected m)%N eqn:El; [apply N.leb_le in El; lia|]. destruct (hidden t dir_part src c).
  - apply IH; [done|]. intros _. cbn [one_more inspected]. lia.
  - destruct (offer_one (one_more m, out) c) as [m' out'] eqn:Eo. destruct (offer_inspected (one_more m) out c) as (O1 & O2 & _).
    rewrite Eo in O1, O2. cbn [fst one_more truncated inspected] in *. apply IH; [by rewrite O2|]. intros _. rewrite O1. lia.
Qed.
End loop.

(** ** Histories *)

(** What an update is told of the store's new content [ps', es'], given the old [ps, es]. *)
Record told (ps : list string) (es : list (string * string)) (paths fresh sources : list string) (rows : list (string * string))
    (ps' : list string) (es' : list (string * string)) : Prop := {
  td_fresh p : p ∈ paths -> p ∈ fresh <-> p ∈ ps';
  td_unchanged p : p ∉ paths -> p ∈ ps' <-> p ∈ ps;
  td_rows s target : s ∈ sources -> (s, target) ∈ rows <-> (s, target) ∈ es';
  td_same_edges s target : s ∉ sources -> (s, target) ∈ es' <-> (s, target) ∈ es;
}.
Inductive published_table (alloc : TableAllocation) : IncludeCompletionTable -> list string -> list (string * string) -> Prop :=
  | table_built ps es : published_table alloc (build_with_edges alloc ps es) ps es
  | table_updated t ps es paths fresh sources rows ps' es' t' :
      published_table alloc t ps es -> told ps es paths fresh sources rows ps' es' ->
      updated alloc t paths fresh sources rows = Some t' -> published_table alloc t' ps' es'.
Definition table_ok (t : IncludeCompletionTable) (ps : list string) (es : list (string * string)) : Prop :=
  exists B OB, base_ok t.(base) B OB /\ delta_ok B OB t.(delta) (list_to_set ps) (edge_targets es) /\ (partitions t.(delta) <= 256)%N.
Lemma pushed_targets (es : list (string * string)) s target :
  target ∈ default [] (foldl (fun m (e : string * string) => push_map m e.1 e.2) ∅ es !! s) <-> (s, target) ∈ es.
Proof.
  induction es as [|[a b] es IH] using rev_ind; [cbn [foldl]; rewrite lookup_empty; split; by intros ?%elem_of_nil|].
  rewrite foldl_app, elem_of_app, list_elem_of_singleton, <- IH. cbn [foldl fst snd]. rewrite push_map_lookup. case_decide as H.
  - subst. rewrite elem_of_app, list_elem_of_singleton. naive_solver.
  - naive_solver.
Qed.
Lemma edge_targets_lookup es s : default [] (edge_targets es !! s) = sorted_unique (default [] (foldl (fun m (e : string * string) => push_map m e.1 e.2) ∅ es !! s)).
Proof. unfold edge_targets. rewrite lookup_fmap. by destruct (foldl _ ∅ es !! s). Qed.
Lemma sorted_unique_ext (l k : list string) : (forall x, x ∈ l <-> x ∈ k) -> sorted_unique l = sorted_unique k.
Proof. intros H. symmetry. apply sorted_unique_eq; [apply sorted_unique_increasing|]. intros x. by rewrite elem_of_sorted_unique. Qed.
Lemma each_new_invariant (I : option IncludeDelta -> Prop) step l : (forall d x d', I d -> step d x = Some d' -> I d') ->
  forall seen d d', I d -> each_new step seen l d = Some d' -> I d'.
Proof.
  intros Hs. induction l as [|x l IH]; intros seen d d' Hd; cbn [each_new]; [by intros [= <-]|].
  case_bool_decide; [by apply IH|]. intros (e & He & Hn)%bind_Some. eapply IH; [|done]. by eapply Hs.
Qed.
Lemma published_table_ok alloc t ps es : published_table alloc t ps es -> table_ok t ps es.
Proof.
  induction 1 as [ps es|t ps es paths fresh sources rows ps' es' t' Ht (B & OB & Hb & Hd & Hn) Htold Hu].
  { eexists _, _. split; [apply build_base_ok|]. split; [apply no_delta_ok, edge_targets_ok|done]. }
  unfold updated in Hu. destruct (_ || _ || _); [done|]. apply bind_Some in Hu as (d1 & H1 & Hu). apply bind_Some in Hu as (d2 & H2 & [= <-]).
  destruct (change_paths_ok alloc t B OB _ _ _ paths Hb Hd ∅ _ None d1 Hd ltac:(done) H1) as (P' & Hd1 & HP).
  destruct (change_sources_ok alloc t B OB _ _ _ _ sources Hb Hd ∅ _ d1 d2 Hd1 ltac:(done) H2) as (O' & Hd2 & HO).
  assert (P' = list_to_set ps') as ->.
  { apply leibniz_equiv. intros p. rewrite HP. rewrite ?elem_of_list_to_set. case_decide as Hin.
    - rewrite ?elem_of_list_to_set. apply (td_fresh _ _ _ _ _ _ _ _ Htold), Hin.
    - rewrite ?elem_of_list_to_set. symmetry. apply (td_unchanged _ _ _ _ _ _ _ _ Htold). intros Hp. apply Hin. split; [done|set_solver]. }
  assert (delta_ok B OB (default (delta t) d2) (list_to_set ps') (edge_targets es')) as Hfin.
  { eapply delta_ok_ext; [|exact Hd2]. intros s. rewrite HO, !edge_targets_lookup. case_decide as Hin; apply sorted_unique_ext; intros x; rewrite !pushed_targets.
    - apply (td_rows _ _ _ _ _ _ _ _ Htold), Hin.
    - symmetry. apply (td_same_edges _ _ _ _ _ _ _ _ Htold). intros Hs. apply Hin. split; [done|set_solver]. }
  assert (partitions (default (delta t) d2) <= 256)%N as Hparts.
  { assert (forall v, over_budget alloc v = false -> (partitions v <= 256)%N) as Hov by (by intros v [?%N.ltb_ge _]%orb_false_iff).
    set (I := fun d => (partitions (default (delta t) d) <= 256)%N). change (I d2).
    eapply (each_new_invariant I); [| |exact H2]; [|eapply (each_new_invariant I); [| |exact H1]]; [..|exact Hn].
    - intros d x d' Hi. unfold change_source. case_bool_decide; [by intros [= <-]|]. destruct (over_budget alloc _) eqn:E; [done|]. intros [= <-]. by apply Hov.
    - intros d x d' Hi. unfold change_path. destruct (Bool.eqb _ _); [by intros [= <-]|]. intros (ch & _ & H)%bind_Some.
      destruct (over_budget alloc _) eqn:E; [done|]. injection H as <-. by apply Hov. }
  destruct d2 as [d2|]; exists B, OB; done.
Qed.
Lemma table_len_ok t ps es : table_ok t ps es -> table_len t = Z.to_N (Z.min (Z.of_nat (size (list_to_set (C := gset string) ps))) (Z.of_N usize_max)).
Proof.
  intros (B & OB & Hb & Hd & _). unfold table_len, saturating_add_signed. rewrite (do_balance _ _ _ _ _ Hd).
  destruct (bo_paths _ _ _ Hb) as [Hi ->]. rewrite (size_list_to_set (C := gset string) (workspace_paths (base t))) by by apply increasing_id_nodup.
  f_equal. lia.
Qed.
Lemma ranking_same t r ps es rel_path label cur ev : table_ok t ps es -> table_ok r ps es ->
  ranking_boost t rel_path label cur ev = ranking_boost r rel_path label cur ev.
Proof.
  intros (B & OB & Hb & Hd & _) (B' & OB' & Hb' & Hd' & _).
  assert (forall file, basename_count t file = basename_count r file) as H1.
  { intros file. unfold basename_count, saturating_add_signed. rewrite (bo_names _ _ _ Hb), (bo_names _ _ _ Hb'), (do_names _ _ _ _ _ Hd), (do_names _ _ _ _ _ Hd').
    do 2 f_equal. lia. }
  assert (forall dir target, incoming_count t dir target = incoming_count r dir target) as H2.
  { intros dir target. unfold incoming_count, saturating_add_signed.
    rewrite (bo_incoming _ _ _ Hb), (bo_incoming _ _ _ Hb'), (do_incoming _ _ _ _ _ Hd), (do_incoming _ _ _ _ _ Hd'). do 2 f_equal. lia. }
  unfold ranking_boost. rewrite H1. destruct ev as [e|]; [|done]. destruct (ev_source_dir e); [|done]. by rewrite H2.
Qed.
Definition same_candidate (a b : IndexedIncludeCandidate) : Prop := a.(name) = b.(name) /\ a.(rel_path) = b.(rel_path) /\ a.(is_dir) = b.(is_dir).
Lemma ordered_match l k : ordered l -> ordered k -> (forall x, x ∈ l -> exists y, y ∈ k /\ candidate_order y x = Eq) ->
  (forall y, y ∈ k -> exists x, x ∈ l /\ candidate_order x y = Eq) -> Forall2 (fun a b => candidate_order a b = Eq) l k.
Proof.
  intros Hl. revert k. induction Hl as [|x l Hl IH Hx]; intros k Hk H1 H2.
  { destruct k as [|y k]; [constructor|]. destruct (H2 y ltac:(left)) as (x & ?%elem_of_nil & _). done. }
  destruct Hk as [|y k Hk Hy]; [destruct (H1 x ltac:(left)) as (y & ?%elem_of_nil & _); done|]. rewrite Forall_forall in Hx, Hy.
  assert (candidate_order x y = Eq) as E.
  { destruct (H1 x ltac:(left)) as (y' & [->|Hy']%elem_of_cons & E1); [rewrite (cmp_antisym candidate_order y x), E1; done|].
    destruct (H2 y ltac:(left)) as (x' & [->|Hx']%elem_of_cons & E2); [done|]. exfalso.
    pose proof (Hx _ Hx') as L1. pose proof (Hy _ Hy') as L2. rewrite (cmp_eq_r candidate_order _ _ x E2) in L1.
    rewrite (cmp_eq_r candidate_order _ _ y E1), (cmp_antisym candidate_order x y), L1 in L2. done. }
  assert (forall z, candidate_order x z = Lt <-> candidate_order y z = Lt) as Exy by (intros z; by rewrite (cmp_eq_l candidate_order x y z E)).
  constructor; [done|]. apply IH; [done| |].
  - intros a Ha. destruct (H1 a ltac:(by right)) as (b & [->|Hb]%elem_of_cons & Eb); [|by exists b]. exfalso.
    specialize (Hx a Ha). rewrite (cmp_eq_l candidate_order x y a E) in Hx. congruence.
  - intros b Hb. destruct (H2 b ltac:(by right)) as (a & [->|Ha]%elem_of_cons & Ea); [|by exists a]. exfalso.
    specialize (Hy b Hb). rewrite <- (cmp_eq_l candidate_order x y b E) in Hy. congruence.
Qed.
Lemma visible_same t r ps es dir seg_lower : table_ok t ps es -> table_ok r ps es ->
  Forall2 same_candidate (visible t dir seg_lower) (visible r dir seg_lower).
Proof.
  intros (B & OB & Hb & Hd & _) (B' & OB' & Hb' & Hd' & _).
  destruct (visible_spec t B OB _ _ dir seg_lower Hb Hd) as (Ho & Hs & Hc). destruct (visible_spec r B' OB' _ _ dir seg_lower Hb' Hd') as (Ho' & Hs' & Hc').
  assert (Forall2 (fun a b => candidate_order a b = Eq) (visible t dir seg_lower) (visible r dir seg_lower)) as H.
  { apply ordered_match; [done..| |]; intros x Hx; [by apply Hc', Hs|by apply Hc, Hs']. }
  apply Forall2_same_length_lookup_2; [by eapply Forall2_length|]. intros i x y Hx Hy.
  pose proof (Forall2_lookup_lr _ _ _ _ _ _ H Hx Hy) as E. cbn in E. apply candidate_order_eq in E as (_ & Er & Ed).
  destruct (Hs x) as (_ & _ & N1 & _); [by eapply list_elem_of_lookup_2|]. destruct (Hs' y) as (_ & _ & N2 & _); [by eapply list_elem_of_lookup_2|].
  split; [by rewrite N1, N2, Er|done].
Qed.
Lemma offers_same t r ps es seg base_score cur ev l k st : table_ok t ps es -> table_ok r ps es -> Forall2 same_candidate l k ->
  foldl (offer t seg base_score cur ev) st l = foldl (offer r seg base_score cur ev) st k.
Proof.
  intros Ht Hr H. revert st. induction H as [|a b l k (En & Er & Ed) H IH]; intros [m out]; [done|]. cbn [foldl]. rewrite IH. f_equal.
  unfold offer. by rewrite (ranking_same t r ps es), En, Er, Ed.
Qed.
Lemma visible_fresh t ps es dir seg_lower : table_ok t ps es -> t.(delta) = no_delta ->
  length (visible t dir seg_lower) = length (merge_all (existing_candidates t dir seg_lower) (added_candidates t dir seg_lower)).
Proof.
  intros (B & OB & Hb & _) Hd. unfold visible. rewrite length_fmap.
  assert (added_candidates t dir seg_lower = []) as Ha.
  { unfold added_candidates. rewrite Hd. cbn [no_delta candidates]. by rewrite lookup_empty. }
  rewrite Ha. destruct (bo_candidates _ _ _ Hb dir) as (Ho & Hok & _). fold (base_under t dir) in Ho, Hok. pose proof (existing_filter t dir seg_lower Ho) as Hex.
  destruct (merged_spec _ (existing_candidates t dir seg_lower) [] (reflexivity _)) as (_ & _ & Hin).
  { rewrite Hex. eapply sublist_StronglySorted; [apply list_filter_bool_sublist|done]. } { constructor. } { by intros a b _ ?%elem_of_nil. }
  fold (merge_all (existing_candidates t dir seg_lower) []) in Hin. assert (forall sc, sc ∈ merge_all (existing_candidates t dir seg_lower) [] -> negb (hidden t dir sc.1 sc.2) = true) as Hall.
  { intros [src c] Hsc. apply Hin in Hsc. apply negb_true_iff. unfold hidden. cbn [fst snd]. destruct src; [|done]. cbn [andb].
    rewrite saturating_add_signed_zero. unfold candidate_change. rewrite Hd. cbn [no_delta candidates]. rewrite lookup_empty. cbn [mbind option_bind default].
    rewrite Hex in Hsc. apply elem_of_filter_bool in Hsc as [Hc _]. destruct (proj1 (Forall_forall _ _) Hok c Hc) as (_ & _ & ?). apply Z.leb_gt. lia. }
  clear -Hall; induction (merge_all _ _) as [|sc l IH]; [done|]. cbn [List.filter]. rewrite (Hall sc ltac:(left)). cbn [length]. f_equal. apply IH. intros x Hx. apply Hall. by right.
Qed.
(** C27 Updating the table is as good as rebuilding it: after any number of bounded updates that
    were told the truth, a request that is not cut short offers the same files and
    directories with the same scores in the same order, and counts the same signals, as on a
    table built from the current paths and edges, which is then not cut short either; the
    lengths agree, and the delta has at most 256 partitions. *)
Theorem include_table_history alloc t ps es : published_table alloc t ps es ->
  let r := build_with_edges alloc ps es in
  (partitions t.(delta) <= 256)%N /\ table_len t = table_len r /\
  forall dir_part seg_lower seg base_score current_rel_dir evidence metrics out,
    let offered table := collect_candidates table dir_part seg_lower seg base_score current_rel_dir evidence metrics out in
    (offered t).1.(truncated) = false ->
    (offered r).2 = (offered t).2 /\ uninspected (offered r).1 = uninspected (offered t).1 /\ ((offered r).1.(inspected) <= (offered t).1.(inspected))%N.
Proof.
  intros Hp r. pose proof (published_table_ok _ _ _ _ Hp) as Ht. assert (table_ok r ps es) as Hr by apply (published_table_ok alloc), table_built.
  split; [by destruct Ht as (? & ? & _ & _ & ?)|]. split; [by rewrite (table_len_ok t ps es), (table_len_ok r ps es)|].
  intros dir_part seg_lower seg base_score cur ev metrics out offered Hcut. unfold offered, collect_candidates in *.
  destruct (collect_loop_spec t dir_part seg base_score cur ev _ _ _ metrics out (reflexivity _) Hcut) as (Hm & Hlen & Hin & Hres).
  fold (merge_all (existing_candidates t dir_part seg_lower) (added_candidates t dir_part seg_lower)) in Hlen, Hin, Hres. fold (visible t dir_part seg_lower) in Hres.
  pose proof (visible_same t r ps es dir_part seg_lower Ht Hr) as Hv. pose proof (Forall2_length _ _ _ Hv) as Hvl.
  pose proof (visible_fresh r ps es dir_part seg_lower Hr eq_refl) as Hrl.
  assert (length (visible t dir_part seg_lower) <= length (merge_all (existing_candidates t dir_part seg_lower) (added_candidates t dir_part seg_lower))) as Hle.
  { unfold visible. rewrite length_fmap. apply sublist_length, list_filter_bool_sublist. }
  destruct (collect_loop_spec r dir_part seg base_score cur ev _ (existing_candidates r dir_part seg_lower) (added_candidates r dir_part seg_lower) metrics out (reflexivity _)) as (_ & _ & Hin' & Hres').
  { apply collect_loop_uncut; [done|]. fold (merge_all (existing_candidates r dir_part seg_lower) (added_candidates r dir_part seg_lower)).
    rewrite <- Hrl, <- Hvl. intros Hne. destruct (merge_all (existing_candidates t dir_part seg_lower) _) as [|y k]; [|specialize (Hlen ltac:(done)); lia].
    cbn [length] in Hle. rewrite Hvl, Hrl in Hle. destruct (merge_all (existing_candidates r dir_part seg_lower) _); [done|cbn [length] in Hle; lia]. }
  fold (merge_all (existing_candidates r dir_part seg_lower) (added_candidates r dir_part seg_lower)) in Hin', Hres'. fold (visible r dir_part seg_lower) in Hres'.
  rewrite (offers_same t r ps es seg base_score cur ev _ _ _ Ht Hr Hv), <- Hres' in Hres. injection Hres as E1 E2 E3 E4 E5 E6 E7.
  split; [done|]. split; [unfold uninspected; by f_equal|]. rewrite Hin, Hin'. lia.
Qed.

(** ** Examples *)

Definition demo_allocation : TableAllocation :=
  mkTableAllocation (fun s => N.of_nat (String.length s)) (fun l => N.of_nat (length l)) (fun l => N.of_nat (length l)) (fun l => N.of_nat (length l))
    (fun l => N.of_nat (length l)) (fun m => N.of_nat (size m)) (fun m => N.of_nat (size m)) (fun m => N.of_nat (size m)) (fun m => N.of_nat (size m))
    100 100 8 32 48 32 48 48 24.
Definition demo_workspace : list string := ["include/shared.h"; "include/left.h"; "src/a.c"; "src/b.c"].
Definition demo_links : list (string * string) := [("src/a.c", "include/shared.h"); ("src/b.c", "include/shared.h")].
Definition demo_moved : list string := ["include/shared.h"; "new/left.h"; "src/a.c"; "src/b.c"].
Definition no_metrics : IncludeCompletionMetrics := mkMetrics 0 false 0 0 0 0 0.
Lemma demo_told : told demo_workspace demo_links ["include/left.h"; "new/left.h"] ["new/left.h"] ["src/a.c"] [] demo_moved [("src/b.c", "include/shared.h")].
Proof.
  split; unfold demo_workspace, demo_moved, demo_links; intros *; rewrite ?elem_of_cons, ?elem_of_nil; naive_solver.
Qed.
(** A header is moved and a source loses its include, which another source keeps. *)
Lemma include_table_history_witness : exists t,
  updated demo_allocation (build_with_edges demo_allocation demo_workspace demo_links) ["include/left.h"; "new/left.h"] ["new/left.h"] ["src/a.c"] [] = Some t /\
  (collect_candidates t "" "" "" 250 (Some "src") (Some (from_text "" (Some "src/a.c"))) no_metrics (∅, [])).1.(truncated) = false /\
  (fun o => (o.1.2, o.1.1)) <$> (collect_candidates t "" "" "" 250 (Some "src") (Some (from_text "" (Some "src/a.c"))) no_metrics (∅, [])).2.2 =
    [("include", 300%Z); ("left.h", 298%Z); ("new", 300%Z); ("shared.h", 323%Z); ("src", 300%Z)] /\
  (collect_candidates (build_with_edges demo_allocation demo_moved [("src/b.c", "include/shared.h")]) "" "" "" 250 (Some "src") (Some (from_text "" (Some "src/a.c"))) no_metrics (∅, [])).2 =
  (collect_candidates t "" "" "" 250 (Some "src") (Some (from_text "" (Some "src/a.c"))) no_metrics (∅, [])).2.
Proof.
  eexists. split; [vm_compute; reflexivity|]. split; [vm_compute; reflexivity|]. split; [vm_compute; reflexivity|].
  refine (proj1 (proj2 (proj2 (include_table_history demo_allocation _ demo_moved [("src/b.c", "include/shared.h")] _)) "" "" "" 250%Z (Some "src")
    (Some (from_text "" (Some "src/a.c"))) no_metrics (∅, []) _)).
  - eapply table_updated; [apply table_built|exact demo_told|vm_compute; reflexivity].
  - vm_compute. reflexivity.
Defined.
