(* ===== verification/GoImports.v ===== *)
(** * The Go import table (server/go_import_completion.rs)

    The packages a Go import may name, by import path, each with the packages' keys
    [directory#name]. The table is built from the store's rows, updated by directories
    within bounds, and read by merging its base with the updates. After any updates a
    completion lists exactly the first hundred paths the current rows give. *)

From S2P Require Import Prelude Searching Includes.

Record GoImportablePackageRow : Type := mkRow { row_package_key : string; row_import_path : string }.
Record GoImportCompletionEntry : Type := mkGoEntry { import_path : string; package_keys : list string }.
#[export] Instance GoImportCompletionEntry_eq_dec : EqDecision GoImportCompletionEntry.
Proof. solve_decision. Defined.
Record GoImportCompletionContext : Type := mkContext {
  prefix : string;
  line : N;
  path_start_character : N;
  path_end_character : N;
  cursor_character : N;
}.
Record GoImportCompletionTable : Type := mkGoTable {
  go_entries : list GoImportCompletionEntry;
  by_directory : gmap string (list (nat * nat));
  updates : gmap string (option GoImportCompletionEntry);
  base_bytes : N;
}.
Definition GO_IMPORT_COMPLETION_LIMIT : nat := 100.
#[global] Arguments GO_IMPORT_COMPLETION_LIMIT : simpl never.

(** What the allocator and the layout of the types decide. *)
Record GoAllocation : Type := mkGoAllocation {
  string_capacity : string -> N;
  keys_bytes : list string -> N;
  entries_bytes : list GoImportCompletionEntry -> N;
  directory_table_bytes : gmap string (list (nat * nat)) -> N;
  positions_bytes : list (nat * nat) -> N;
  table_size : N; update_size : N; usize_size : N;
}.

(** [package_key_identity] and [path_comparison_key] on Unix. *)
Definition package_key_identity (package_key : string) : string := package_key.
Definition path_comparison_key (path : string) : string := path.
Definition is_hash (c : Ascii.ascii) : bool := N.eqb (Ascii.N_of_ascii c) 35.
(** [rsplit_once('#')], what comes before. *)
Fixpoint directory_of (key : string) : option string :=
  match key with
  | EmptyString => None
  | String.String c rest =>
      match directory_of rest with Some dir => Some (String.String c dir) | None => if is_hash c then Some "" else None end
  end.

Section go_table.
Context (alloc : GoAllocation).

Definition sum_bytes (l : list N) : N := foldr N.add 0%N l.
Definition entry_payload_bytes (e : GoImportCompletionEntry) : N :=
  (alloc.(string_capacity) e.(import_path) + alloc.(keys_bytes) e.(package_keys) + sum_bytes (alloc.(string_capacity) <$> e.(package_keys)))%N.
Definition update_bytes (updates : gmap string (option GoImportCompletionEntry)) : N :=
  (N.of_nat (size updates) * (11 * alloc.(update_size) + 12 * alloc.(usize_size))
   + sum_bytes ((fun kv : string * option GoImportCompletionEntry =>
       alloc.(string_capacity) kv.1 + match kv.2 with Some e => entry_payload_bytes e | None => 0 end)%N <$> map_to_list updates))%N.
Definition importable (row : GoImportablePackageRow) : bool :=
  negb (String.eqb row.(row_import_path) "") && negb (String.eqb row.(row_import_path) "C").
Definition index_entry (m : gmap string (list (nat * nat))) (ie : nat * GoImportCompletionEntry) : gmap string (list (nat * nat)) :=
  foldl (fun m (jk : nat * string) => match directory_of jk.2 with Some dir => push_map m dir (ie.1, jk.1) | None => m end) m
    (imap pair ie.2.(package_keys)).
Definition go_build (rows : list GoImportablePackageRow) : GoImportCompletionTable :=
  let by_path := foldl (fun m row => push_map m row.(row_import_path) (package_key_identity row.(row_package_key))) ∅
                   (List.filter importable rows) in
  let entries := (fun kv : string * list string => mkGoEntry kv.1 (sorted_unique kv.2)) <$> btree_entries by_path in
  let by_directory := foldl index_entry ∅ (imap pair entries) in
  let base_bytes :=
    (alloc.(table_size) + alloc.(entries_bytes) entries + sum_bytes (entry_payload_bytes <$> entries) + alloc.(directory_table_bytes) by_directory
     + sum_bytes ((fun kv => alloc.(string_capacity) kv.1 + alloc.(positions_bytes) kv.2)%N <$> map_to_list by_directory))%N in
  mkGoTable entries by_directory ∅ base_bytes.

Definition base_entry (t : GoImportCompletionTable) (path : string) : option GoImportCompletionEntry :=
  i ← binary_search (fun e => String.compare e.(import_path) path) t.(go_entries); t.(go_entries) !! i.
Definition entry (t : GoImportCompletionTable) (path : string) : option GoImportCompletionEntry :=
  match t.(updates) !! path with Some e => e | None => base_entry t path end.
Definition belongs (dirs : gset string) (key : string) : bool :=
  match directory_of key with Some dir => bool_decide (dir ∈ dirs) | None => false end.

(** The packages of the directories as the table has them: those of the base, within the
    bound, then those of the updates. An index out of range cannot occur. *)
Definition add_base_position (t : GoImportCompletionTable) (current : gmap string string) (position : nat * nat) : gmap string string :=
  match t.(go_entries) !! position.1 with
  | Some e =>
      if bool_decide (is_Some (t.(updates) !! e.(import_path))) then current
      else match e.(package_keys) !! position.2 with Some key => <[key := e.(import_path)]> current | None => current end
  | None => current
  end.
Fixpoint base_packages (t : GoImportCompletionTable) (dirs : list string) (current : gmap string string) : option (gmap string string) :=
  match dirs with
  | [] => Some current
  | dir :: dirs =>
      match t.(by_directory) !! dir with
      | Some positions =>
          if (4096 <? size current + length positions)%nat then None
          else base_packages t dirs (foldl (add_base_position t) current positions)
      | None => base_packages t dirs current
      end
  end.
Definition add_entry (dirs : gset string) (current : gmap string string) (e : GoImportCompletionEntry) : gmap string string :=
  foldl (fun current key => <[key := e.(import_path)]> current) current (List.filter (belongs dirs) e.(package_keys)).
Definition replacement (t : GoImportCompletionTable) (dirs : gset string) (fresh : gmap string string) (path : string) : option GoImportCompletionEntry :=
  let keys := match entry t path with Some e => List.filter (fun key => negb (belongs dirs key)) e.(package_keys) | None => [] end in
  let keys := keys ++ (fst <$> List.filter (fun kv => String.eqb kv.2 path) (btree_entries fresh)) in
  match sorted_unique keys with [] => None | keys => Some (mkGoEntry path keys) end.
Fixpoint update_paths (t : GoImportCompletionTable) (dirs : gset string) (fresh : gmap string string) (affected : list string)
    (updates : gmap string (option GoImportCompletionEntry)) : option (gmap string (option GoImportCompletionEntry)) :=
  match affected with
  | [] => Some updates
  | path :: affected =>
      if match entry t path with Some e => (4 * 1024 * 1024 <? entry_payload_bytes e)%N | None => false end then None
      else
        let r := replacement t dirs fresh path in
        update_paths t dirs fresh affected
          (if bool_decide (r = base_entry t path) then delete path updates else <[path := r]> updates)
  end.
Definition updated_directories (t : GoImportCompletionTable) (directories : list string) (rows : list GoImportablePackageRow) :
    option GoImportCompletionTable :=
  if (256 <? length directories)%nat then None
  else
    let dirs : gset string := list_to_set (path_comparison_key <$> directories) in
    let fresh := foldl (fun m row => <[package_key_identity row.(row_package_key) := row.(row_import_path)]> m) ∅ rows in
    current ← base_packages t (elements dirs) ∅;
    let current := foldl (add_entry dirs) current (omap id (btree_values t.(updates))) in
    if bool_decide (current = fresh) then Some t
    else
      let affected := sorted_unique (btree_values current ++ btree_values fresh) in
      if (256 <? length affected)%nat then None
      else
        updates ← update_paths t dirs fresh affected t.(updates);
        if (256 <? size updates)%nat || (4 * 1024 * 1024 <? update_bytes updates)%N then None
        else Some (mkGoTable t.(go_entries) t.(by_directory) updates t.(base_bytes)).
Definition go_accounted_bytes (t : GoImportCompletionTable) : N := (t.(base_bytes) + update_bytes t.(updates))%N.
Definition go_delta_bytes (t : GoImportCompletionTable) : N := update_bytes t.(updates).
Definition go_delta_partitions (t : GoImportCompletionTable) : nat := size t.(updates).
End go_table.

(** ** Completion *)

Definition matching_range (t : GoImportCompletionTable) (prefix : string) : list GoImportCompletionEntry :=
  let start := partition_point (fun e => match String.compare e.(import_path) prefix with Lt => true | _ => false end) t.(go_entries) in
  let rest := drop start t.(go_entries) in
  take (partition_point (fun e => String.prefix prefix e.(import_path)) rest) rest.
Definition contains_package_key (e : GoImportCompletionEntry) (package_key : string) : bool :=
  bool_decide (is_Some (binary_search (fun candidate => String.compare candidate package_key) e.(package_keys))).
Inductive GoItemKind : Type := MODULE.
(** The item of a path: its label, detail, sort text, and the text that replaces a range. *)
Record GoItem : Type := mkGoItem {
  label : string; kind : GoItemKind; detail : string; sort_text : string;
  edit_range : (N * N) * (N * N); new_text : string;
}.
Definition go_item (context : GoImportCompletionContext) (e : GoImportCompletionEntry) : GoItem :=
  mkGoItem e.(import_path) MODULE "Go package (indexed)" e.(import_path)
    ((context.(line), context.(path_start_character)), (context.(line), context.(path_end_character))) e.(import_path).
Definition next_entry (base delta : list GoImportCompletionEntry) :
    option (GoImportCompletionEntry * list GoImportCompletionEntry * list GoImportCompletionEntry) :=
  match base, delta with
  | a :: base', b :: delta' =>
      match String.compare a.(import_path) b.(import_path) with Lt => Some (a, base', delta) | _ => Some (b, base, delta') end
  | [], b :: delta' => Some (b, [], delta')
  | a :: base', [] => Some (a, base', [])
  | [], [] => None
  end.
(** The loop; the length of the two lists is enough fuel. *)
Fixpoint complete_loop (context : GoImportCompletionContext) (current : option string) (fuel : nat)
    (base delta : list GoImportCompletionEntry) (items : list GoItem) : list GoItem :=
  match fuel, next_entry base delta with
  | S fuel, Some (e, base, delta) =>
      if match current with Some key => contains_package_key e key | None => false end
      then complete_loop context current fuel base delta items
      else if (length items =? GO_IMPORT_COMPLETION_LIMIT)%nat then items
      else complete_loop context current fuel base delta (items ++ [go_item context e])
  | _, _ => items
  end.
(** The items; the list is always marked incomplete. *)
Definition complete (t : GoImportCompletionTable) (context : GoImportCompletionContext) (current_package_key : option string) : list GoItem :=
  let current := package_key_identity <$> current_package_key in
  let base := List.filter (fun e => bool_decide (t.(updates) !! e.(import_path) = None)) (matching_range t context.(prefix)) in
  let delta := List.filter (fun e => String.prefix context.(prefix) e.(import_path)) (omap id (btree_values t.(updates))) in
  complete_loop context current (length base + length delta) base delta [].

(** ** What a table stands for *)

(** The content: the import path of each package. *)
Definition keys_of (M : gmap string string) (path : string) : list string :=
  sorted_unique (fst <$> List.filter (fun kv => String.eqb kv.2 path) (map_to_list M)).
Definition entry_of (M : gmap string string) (path : string) : option GoImportCompletionEntry :=
  match keys_of M path with [] => None | keys => Some (mkGoEntry path keys) end.
Lemma elem_of_keys_of M path key : key ∈ keys_of M path <-> M !! key = Some path.
Proof.
  unfold keys_of. rewrite elem_of_sorted_unique, list_elem_of_fmap. split.
  - intros ([k p] & -> & [Hin E%String.eqb_eq]%elem_of_filter_bool). cbn in *. subst. by apply elem_of_map_to_list.
  - intros H. exists (key, path). split; [done|]. apply elem_of_filter_bool. split; [by apply elem_of_map_to_list|by apply String.eqb_eq].
Qed.
Lemma keys_of_ext M M' path : (forall key, M !! key = Some path <-> M' !! key = Some path) -> keys_of M path = keys_of M' path.
Proof.
  intros H. apply (increasing_unique_iff id); [apply sorted_unique_increasing..|]. intros x. by rewrite !elem_of_keys_of.
Qed.
Lemma entry_of_Some M path e : entry_of M path = Some e <-> e = mkGoEntry path (keys_of M path) /\ exists key, M !! key = Some path.
Proof.
  unfold entry_of. destruct (keys_of M path) as [|k keys] eqn:E.
  - split; [done|]. intros [_ [key H%elem_of_keys_of]]. rewrite E in H. by apply elem_of_nil in H.
  - split; [intros [= <-]|by intros [-> _]]. split; [done|]. exists k. apply elem_of_keys_of. rewrite E. by left.
Qed.
Lemma entry_of_keys M path keys : keys = keys_of M path -> match keys with [] => None | k :: ks => Some (mkGoEntry path (k :: ks)) end = entry_of M path.
Proof. intros ->. unfold entry_of. by destruct (keys_of M path). Qed.
Lemma belongs_iff dirs key : belongs dirs key = true <-> exists dir, directory_of key = Some dir /\ dir ∈ dirs.
Proof.
  unfold belongs. destruct (directory_of key) as [dir|]; [|split; [done|by intros (? & ? & _)]]. rewrite bool_decide_eq_true. naive_solver.
Qed.

(** The base of a table, built from the content [MB]. *)
Record go_base_ok (t : GoImportCompletionTable) (MB : gmap string string) : Prop := {
  gb_sorted : increasing import_path t.(go_entries);
  gb_entries e : e ∈ t.(go_entries) <-> entry_of MB e.(import_path) = Some e;
  gb_directories dir i j : (i, j) ∈ default [] (t.(by_directory) !! dir) <->
    exists e key, t.(go_entries) !! i = Some e /\ e.(package_keys) !! j = Some key /\ directory_of key = Some dir;
}.
Lemma base_entry_of t MB path : go_base_ok t MB -> base_entry t path = entry_of MB path.
Proof.
  intros [Hs He _]. unfold base_entry. destruct (binary_search _ _) as [i|] eqn:E; cbn [mbind option_bind].
  - apply (search_increasing import_path) in E as (e & Hi & Hp); [|done]. rewrite Hi. symmetry. rewrite <- Hp. apply He. by eapply list_elem_of_lookup_2.
  - destruct (entry_of MB path) as [e|] eqn:Ee; [|done]. exfalso. pose proof Ee as [Ep _]%entry_of_Some.
    assert (e ∈ go_entries t) as [i Hi]%list_elem_of_lookup by (apply He; rewrite Ep at 1; exact Ee).
    assert (binary_search (fun e => String.compare (import_path e) path) (go_entries t) = Some i) as E'; [|congruence].
    apply (search_increasing import_path); [done|]. exists e. split; [done|by rewrite Ep].
Qed.
Definition go_table_ok (t : GoImportCompletionTable) (M : gmap string string) : Prop :=
  (exists MB, go_base_ok t MB) /\ (forall path, entry t path = entry_of M path) /\ (size t.(updates) <= 256)%nat.

(** *** Building *)

Definition row_content (rows : list GoImportablePackageRow) : gmap string string :=
  foldl (fun m row => <[row.(row_package_key) := row.(row_import_path)]> m) ∅ rows.
Lemma row_content_functional rows key path : (forall p p', mkRow key p ∈ rows -> mkRow key p' ∈ rows -> p = p') ->
  row_content rows !! key = Some path <-> mkRow key path ∈ rows.
Proof.
  unfold row_content. induction rows as [|[k p] rows IH] using rev_ind; intros Hf; [by split; [|intros ?%elem_of_nil]|].
  rewrite foldl_app, elem_of_app, list_elem_of_singleton. cbn [foldl row_package_key row_import_path]. destruct (decide (key = k)) as [->|Hne].
  - rewrite lookup_insert_eq. split; [intros [= ->]; by right|]. intros [Hin|[= ->]]; [|done]. f_equal.
    apply Hf; apply elem_of_app; [right; by left|by left].
  - rewrite lookup_insert_ne, IH by (done || (intros p1 p2 H1 H2; apply Hf; apply elem_of_app; by left)). split; [by left|]. intros [?|[= -> ->]]; done.
Qed.
Lemma row_content_lookup rows key path : NoDup (row_package_key <$> rows) -> row_content rows !! key = Some path <-> mkRow key path ∈ rows.
Proof.
  intros Hnd. apply row_content_functional. intros p p' [i Hi]%list_elem_of_lookup [j Hj]%list_elem_of_lookup.
  assert (i = j) as ->; [|congruence]. eapply NoDup_lookup; [exact Hnd|by rewrite list_lookup_fmap, Hi|by rewrite list_lookup_fmap, Hj].
Qed.
Lemma pushed_paths rows key path :
  key ∈ default [] (foldl (fun m row => push_map m row.(row_import_path) (package_key_identity row.(row_package_key))) ∅ rows !! path) <-> mkRow key path ∈ rows.
Proof.
  induction rows as [|[k p] rows IH] using rev_ind; [cbn [foldl]; rewrite lookup_empty; split; by intros ?%elem_of_nil|].
  rewrite foldl_app, elem_of_app, list_elem_of_singleton, <- IH. cbn [foldl row_import_path row_package_key]. rewrite push_map_lookup. case_decide as H.
  - subst. rewrite elem_of_app, list_elem_of_singleton. unfold package_key_identity. naive_solver.
  - naive_solver.
Qed.
Lemma pushed_nonempty rows path : foldl (fun m row => push_map m row.(row_import_path) (package_key_identity row.(row_package_key))) ∅ rows !! path <> Some [].
Proof.
  induction rows as [|[k p] rows IH] using rev_ind; [done|]. rewrite foldl_app. cbn [foldl row_import_path]. unfold push_map at 1.
  destruct (decide (p = path)) as [->|Hne]; [|by rewrite lookup_insert_ne]. rewrite lookup_insert_eq. intros [= H]. by destruct (default [] _).
Qed.
Lemma index_entry_lookup ie : forall m dir i j, (i, j) ∈ default [] (index_entry m ie !! dir) <->
  (i, j) ∈ default [] (m !! dir) \/ (i = ie.1 /\ exists key, ie.2.(package_keys) !! j = Some key /\ directory_of key = Some dir).
Proof.
  unfold index_entry. destruct ie as [i0 e]. cbn [fst snd]. induction (package_keys e) as [|key keys IH] using rev_ind; intros m dir i j.
  { cbn. split; [by left|]. intros [?|(_ & key & Hk & _)]; [done|]. by rewrite lookup_nil in Hk. }
  rewrite imap_app, foldl_app. cbn [imap foldl fst snd]. rewrite Nat.add_0_r.
  assert (forall key', (keys ++ [key]) !! j = Some key' <-> keys !! j = Some key' \/ (j = length keys /\ key' = key)) as Hl.
  { intros key'. rewrite lookup_app_Some. rewrite list_lookup_singleton_Some. split; [intros [?|[? [? ?]]]; [by left|right; split; [lia|done]]|].
    intros [?|[-> ->]]; [by left|right]. split; [lia|]. split; [lia|done]. }
  setoid_rewrite Hl. destruct (directory_of key) as [dir'|] eqn:Ed.
  - rewrite push_map_lookup. case_decide as Hdir.
    + subst dir'. rewrite elem_of_app, list_elem_of_singleton, IH. cbn [compose Nat.add]. naive_solver.
    + rewrite IH. naive_solver.
  - rewrite IH. naive_solver.
Qed.
Lemma index_entries_lookup es dir i j : (i, j) ∈ default [] (foldl index_entry ∅ (imap pair es) !! dir) <->
  exists e key, es !! i = Some e /\ e.(package_keys) !! j = Some key /\ directory_of key = Some dir.
Proof.
  revert dir i j. induction es as [|e es IH] using rev_ind; intros dir i j.
  { cbn. split; [by intros ?%elem_of_nil|]. by intros (? & ? & ? & _). }
  rewrite imap_app, foldl_app. cbn [imap foldl]. rewrite index_entry_lookup, IH, Nat.add_0_r. cbn [fst snd]. setoid_rewrite lookup_app_Some. setoid_rewrite list_lookup_singleton_Some.
  split.
  - intros [(e' & key & H & ? & ?)|(-> & key & H & ?)]; [exists e', key; by repeat split; try done; left|exists e, key]. split; [right; repeat split; lia|done].
  - intros (e' & key & [H|(Hl & Hi & ->)] & ? & ?); [left; by exists e', key|right]. split; [lia|]. by exists key.
Qed.
Lemma go_build_ok alloc rows : NoDup (row_package_key <$> rows) -> go_base_ok (go_build alloc rows) (row_content (List.filter importable rows)).
Proof.
  intros Hnd. set (valid := List.filter importable rows). assert (NoDup (row_package_key <$> valid)) as Hv.
  { eapply NoDup_of_submseteq; [apply sublist_submseteq, fmap_sublist, list_filter_bool_sublist|exact Hnd]. }
  set (by_path := foldl (fun m row => push_map m row.(row_import_path) (package_key_identity row.(row_package_key))) ∅ valid).
  assert (go_entries (go_build alloc rows) = (fun kv : string * list string => mkGoEntry kv.1 (sorted_unique kv.2)) <$> btree_entries by_path) as He by done.
  assert (forall path, sorted_unique (default [] (by_path !! path)) = keys_of (row_content valid) path) as Hk.
  { intros path. apply sorted_unique_eq; [apply sorted_unique_increasing|]. intros x. rewrite elem_of_keys_of, row_content_lookup by done. by rewrite <- pushed_paths. }
  split.
  - rewrite He. clear He Hk. pose proof (btree_entries_increasing by_path) as Hi. induction Hi as [|x l Hl IH Hx]; [constructor|]. cbn [fmap list_fmap]. constructor; [exact IH|].
    rewrite Forall_fmap. exact Hx.
  - intros e. rewrite He, list_elem_of_fmap. split.
    + intros ([path keys] & -> & Hin%elem_of_btree_entries). cbn [import_path fst snd]. apply entry_of_Some. rewrite <- Hk, Hin. split; [done|].
      destruct keys as [|key keys]; [by destruct (pushed_nonempty valid path)|]. exists key. apply row_content_lookup; [done|]. apply pushed_paths. fold by_path. rewrite Hin. by left.
    + intros [Ee [key Hkey]]%entry_of_Some. destruct e as [path keys]. cbn [import_path] in *. rewrite row_content_lookup in Hkey by done. apply pushed_paths in Hkey. fold by_path in Hkey.
      destruct (by_path !! path) as [ks|] eqn:Ep; [|by apply elem_of_nil in Hkey]. exists (path, ks). split; [|by apply elem_of_btree_entries].
      rewrite Ee, <- Hk, Ep. done.
  - intros dir i j. apply index_entries_lookup.
Qed.

(** *** Updating *)

(** A map that holds the pairs of [S], all of them taken from [M]. *)
Definition holds (current : gmap string string) (S : string -> string -> Prop) : Prop := forall key path, current !! key = Some path <-> S key path.
Lemma holds_insert (M current : gmap string string) (S : string -> string -> Prop) key path : (forall k p, S k p -> M !! k = Some p) -> M !! key = Some path ->
  holds current S -> holds (<[key := path]> current) (fun k p => S k p \/ (k = key /\ p = path)).
Proof.
  intros HS HM H k p. destruct (decide (k = key)) as [->|Hne].
  - rewrite lookup_insert_eq. split; [intros [= <-]; by right|]. intros [Hk|[_ ->]]; [|done]. apply HS in Hk. congruence.
  - rewrite lookup_insert_ne by done. rewrite (H k p). naive_solver.
Qed.
Lemma holds_ext current (S S' : string -> string -> Prop) : (forall k p, S k p <-> S' k p) -> holds current S -> holds current S'.
Proof. intros HS H k p. by rewrite (H k p). Qed.
Section update.
Context (t : GoImportCompletionTable) (MB M : gmap string string) (Hb : go_base_ok t MB) (He : forall path, entry t path = entry_of M path).
Lemma base_key i j e key : t.(go_entries) !! i = Some e -> e.(package_keys) !! j = Some key ->
  t.(updates) !! e.(import_path) = None -> M !! key = Some e.(import_path).
Proof.
  intros Hi Hj Hu. apply elem_of_keys_of. specialize (He (import_path e)). unfold entry in He. rewrite Hu, (base_entry_of t MB _ Hb) in He.
  assert (entry_of MB (import_path e) = Some e) as Ee by (apply (gb_entries _ _ Hb); by eapply list_elem_of_lookup_2).
  rewrite Ee in He. symmetry in He. apply entry_of_Some in He as [He _]. rewrite He in Hj. cbn [package_keys] in Hj. by eapply list_elem_of_lookup_2.
Qed.
(** The package of a position, when its path is not updated. *)
Definition at_position (position : nat * nat) (key path : string) : Prop :=
  exists e, t.(go_entries) !! position.1 = Some e /\ e.(package_keys) !! position.2 = Some key /\ t.(updates) !! e.(import_path) = None /\ path = e.(import_path).
Lemma add_positions_holds positions : forall current S, (forall k p, S k p -> M !! k = Some p) -> holds current S ->
  holds (foldl (add_base_position t) current positions) (fun k p => S k p \/ exists position, position ∈ positions /\ at_position position k p).
Proof.
  induction positions as [|q positions IH]; intros current S HS H; cbn [foldl].
  { eapply holds_ext; [|done]. intros k p. split; [by left|]. intros [?|(q & ?%elem_of_nil & _)]; done. }
  assert (exists S', (forall k p, S' k p <-> S k p \/ at_position q k p) /\ holds (add_base_position t current q) S') as (S' & HS' & H').
  { unfold add_base_position, at_position. destruct (go_entries t !! q.1) as [e|] eqn:Ei; [|exists S; split; [naive_solver|done]].
    case_bool_decide as Hu; [exists S; split; [|done]; intros k p; split; [by left|]; intros [?|(e' & [= <-] & _ & Hn & _)]; [done|by rewrite Hn in Hu; destruct Hu]|].
    apply eq_None_not_Some in Hu. destruct (package_keys e !! q.2) as [key|] eqn:Ej; [|exists S; split; [naive_solver|done]].
    eexists. split; [|eapply (holds_insert M); [done|by eapply base_key|done]]. intros k p. cbn beta. naive_solver. }
  eapply holds_ext; [|apply (IH _ S')]; [|intros k p [?|(e & H1 & H2 & H3 & ->)]%HS'; [by apply HS|by eapply base_key]|done].
  intros k p. cbn beta. rewrite HS'. setoid_rewrite elem_of_cons. naive_solver.
Qed.
Lemma base_packages_holds dirs : forall current S current', (forall k p, S k p -> M !! k = Some p) -> holds current S ->
  base_packages t dirs current = Some current' ->
  holds current' (fun k p => S k p \/ exists dir position, dir ∈ dirs /\ position ∈ default [] (t.(by_directory) !! dir) /\ at_position position k p).
Proof.
  induction dirs as [|dir dirs IH]; intros current S current' HS H; cbn [base_packages].
  { intros [= <-]. eapply holds_ext; [|done]. intros k p. split; [by left|]. intros [?|(d & q & ?%elem_of_nil & _)]; done. }
  destruct (by_directory t !! dir) as [positions|] eqn:Ed.
  - destruct (4096 <? _)%nat; [done|]. intros Hb'. apply (IH _ (fun k p => S k p \/ exists position, position ∈ positions /\ at_position position k p)) in Hb'.
    + eapply holds_ext; [|exact Hb']. intros k p. cbn beta. setoid_rewrite elem_of_cons. split.
      * intros [[?|(q & Hq & Ha)]|(d & q & Hd & Hq & Ha)]; [by left|right; exists dir, q; rewrite Ed; naive_solver|right; exists d, q; naive_solver].
      * intros [?|(d & q & [->|Hd] & Hq & Ha)]; [by left; left|rewrite Ed in Hq; left; right; by exists q|right; by exists d, q].
    + intros k p [?|(q & _ & e & H1 & H2 & H3 & ->)]; [by apply HS|by eapply base_key].
    + by apply add_positions_holds.
  - intros Hb'. apply (IH _ S) in Hb'; [|done..]. eapply holds_ext; [|exact Hb']. intros k p. cbn beta. setoid_rewrite elem_of_cons. split.
    + intros [?|(d & q & Hd & Hq & Ha)]; [by left|right; exists d, q; naive_solver].
    + intros [?|(d & q & [->|Hd] & Hq & Ha)]; [by left|rewrite Ed in Hq; by apply elem_of_nil in Hq|right; by exists d, q].
Qed.
Lemma add_entries_holds dirs es : (forall e, e ∈ es -> entry_of M e.(import_path) = Some e) ->
  forall current S, (forall k p, S k p -> M !! k = Some p) -> holds current S ->
  holds (foldl (add_entry dirs) current es) (fun k p => S k p \/ exists e, e ∈ es /\ k ∈ e.(package_keys) /\ belongs dirs k = true /\ p = e.(import_path)).
Proof.
  induction es as [|e es IH]; intros Hes current S HS H; cbn [foldl].
  { eapply holds_ext; [|done]. intros k p. split; [by left|]. intros [?|(q & ?%elem_of_nil & _)]; done. }
  assert (forall keys, (forall k, k ∈ keys -> M !! k = Some (import_path e)) -> forall current S, (forall k p, S k p -> M !! k = Some p) -> holds current S ->
    holds (foldl (fun current key => <[key := import_path e]> current) current keys) (fun k p => S k p \/ (k ∈ keys /\ p = import_path e))) as Hkeys.
  { clear. induction keys as [|key keys IHk]; intros Hk current S HS H; cbn [foldl].
    { eapply holds_ext; [|done]. intros k p. split; [by left|]. intros [?|[?%elem_of_nil _]]; done. }
    eapply holds_ext; [|apply (IHk ltac:(intros k Hin; apply Hk; by right) _ (fun k p => S k p \/ (k = key /\ p = import_path e)))].
    - intros k p. cbn beta. rewrite elem_of_cons. naive_solver.
    - intros k p [?|[-> ->]]; [by apply HS|apply Hk; by left].
    - apply (holds_insert M); [done|apply Hk; by left|done]. }
  assert (forall k, k ∈ package_keys e -> M !! k = Some (import_path e)) as Hk.
  { intros k Hk. pose proof (Hes e ltac:(by left)) as [Ee _]%entry_of_Some. rewrite Ee in Hk. by apply elem_of_keys_of. }
  eapply holds_ext; [|apply (IH ltac:(intros x Hx; apply Hes; by right) _ (fun k p => S k p \/ (k ∈ List.filter (belongs dirs) (package_keys e) /\ p = import_path e)))].
  - intros k p. cbn beta. setoid_rewrite elem_of_cons. rewrite elem_of_filter_bool. naive_solver.
  - intros k p [?|[[Hin _]%elem_of_filter_bool ->]]; [by apply HS|by apply Hk].
  - unfold add_entry. apply Hkeys; [|done..]. intros k [Hin _]%elem_of_filter_bool. by apply Hk.
Qed.
(** What the table has of the directories is what the content has. *)
Lemma current_packages dirs current : base_packages t (elements dirs) ∅ = Some current ->
  holds (foldl (add_entry dirs) current (omap id (btree_values t.(updates)))) (fun k p => belongs dirs k = true /\ M !! k = Some p).
Proof.
  intros Hc. apply (base_packages_holds _ _ (fun _ _ => False)) in Hc; [|done|intros k p; by rewrite lookup_empty].
  assert (forall e, e ∈ omap id (btree_values t.(updates)) <-> exists path, t.(updates) !! path = Some (Some e)) as Hup.
  { intros e. rewrite list_elem_of_omap. split.
    - intros (v & Hv & E). cbn in E. subst v. by apply elem_of_btree_values in Hv.
    - intros [path Hp]. exists (Some e). split; [|done]. apply elem_of_btree_values. by exists path. }
  assert (forall path e, updates t !! path = Some (Some e) -> entry_of M path = Some e) as Hue.
  { intros path e Hp. rewrite <- He. unfold entry. by rewrite Hp. }
  assert (forall e, e ∈ omap id (btree_values t.(updates)) -> entry_of M e.(import_path) = Some e) as Hes.
  { intros e [path Hp]%Hup. pose proof (Hue _ _ Hp) as E. pose proof E as [Ee _]%entry_of_Some. by rewrite Ee at 1. }
  apply (add_entries_holds dirs _ Hes) in Hc; [|intros k p [[]|(dir & q & _ & _ & e & H1 & H2 & H3 & ->)]; by eapply base_key].
  eapply holds_ext; [|exact Hc]. intros k p. cbn beta. split.
  - intros [[[]|(dir & [i j] & Hdir%elem_of_elements & Hpos%(gb_directories _ _ Hb) & Hat)]|(e & [path Hp]%Hup & Hk & Hbel & ->)].
    + destruct Hpos as (e & key & Hi & Hj & Hd). destruct Hat as (e' & Hi' & Hj' & Hu & ->). cbn [fst snd] in *. simplify_eq.
      split; [|by eapply base_key]. apply belongs_iff. by exists dir.
    + split; [done|]. pose proof (Hue _ _ Hp) as [Ee _]%entry_of_Some. rewrite Ee in Hk |- *. by apply elem_of_keys_of.
  - intros [Hbel HM]. assert (entry_of M p = Some (mkGoEntry p (keys_of M p))) as Ee by (apply entry_of_Some; split; [done|by exists k]).
    assert (k ∈ keys_of M p) as Hk by by apply elem_of_keys_of. pose proof (He p) as Hep. rewrite Ee in Hep. unfold entry in Hep.
    destruct (updates t !! p) as [v|] eqn:Eu.
    + subst v. right. exists (mkGoEntry p (keys_of M p)). split; [apply Hup; by exists p|]. done.
    + left. right. rewrite (base_entry_of t MB p Hb) in Hep. assert (mkGoEntry p (keys_of M p) ∈ go_entries t) as [i Hi]%list_elem_of_lookup by by apply (gb_entries _ _ Hb).
      apply list_elem_of_lookup in Hk as [j Hj]. apply belongs_iff in Hbel as (dir & Hd & Hdir). exists dir, (i, j).
      split; [by apply elem_of_elements|]. split; [apply (gb_directories _ _ Hb); eexists _, k; by split_and!|].
      eexists. by split_and!.
Qed.
(** A new content that differs only in the directories, where it is what was read. *)
Context (M' : gmap string string) (dirs : gset string) (fresh : gmap string string).
Context (Hfresh : forall key, fresh !! key = if belongs dirs key then M' !! key else None) (Hsame : forall key, belongs dirs key = false -> M' !! key = M !! key).
Lemma replacement_of path : replacement t dirs fresh path = entry_of M' path.
Proof.
  unfold replacement. apply entry_of_keys, (increasing_unique_iff id); [apply sorted_unique_increasing..|]. intros k.
  rewrite elem_of_sorted_unique, elem_of_app, elem_of_keys_of, He.
  assert (k ∈ match entry_of M path with Some e => List.filter (fun key => negb (belongs dirs key)) (package_keys e) | None => [] end <->
    M !! k = Some path /\ belongs dirs k = false) as ->.
  { destruct (entry_of M path) as [e|] eqn:Ee.
    - apply entry_of_Some in Ee as [-> _]. rewrite elem_of_filter_bool, negb_true_iff. cbn [package_keys]. by rewrite elem_of_keys_of.
    - split; [by intros ?%elem_of_nil|]. intros [Hk _]. enough (entry_of M path = Some (mkGoEntry path (keys_of M path))) by congruence.
      apply entry_of_Some. split; [done|by exists k]. }
  assert (k ∈ fst <$> List.filter (fun kv => String.eqb kv.2 path) (btree_entries fresh) <-> fresh !! k = Some path) as ->.
  { rewrite list_elem_of_fmap. split.
    - intros ([k' p] & -> & [Hin E%String.eqb_eq]%elem_of_filter_bool). cbn in *. subst. by apply elem_of_btree_entries.
    - intros Hk. exists (k, path). split; [done|]. apply elem_of_filter_bool. split; [by apply elem_of_btree_entries|by apply String.eqb_eq]. }
  rewrite Hfresh. destruct (belongs dirs k) eqn:Eb; [naive_solver|]. rewrite (Hsame k Eb). naive_solver.
Qed.
Lemma update_paths_lookup alloc affected : forall updates updates', update_paths alloc t dirs fresh affected updates = Some updates' -> forall path,
  updates' !! path = if decide (path ∈ affected) then (if bool_decide (entry_of M' path = base_entry t path) then None else Some (entry_of M' path)) else updates !! path.
Proof.
  induction affected as [|q affected IH]; intros updates updates'; cbn [update_paths].
  { intros [= <-] path. by rewrite decide_False by (by intros ?%elem_of_nil). }
  destruct (match entry t q with Some _ => _ | None => false end); [done|]. rewrite replacement_of. intros H path. rewrite (IH _ _ H path).
  destruct (decide (path ∈ affected)) as [Hin|Hin]; [by rewrite decide_True by (by right)|]. destruct (decide (path = q)) as [->|Hne].
  - rewrite decide_True by left. case_bool_decide; [apply lookup_delete_eq|apply lookup_insert_eq].
  - rewrite decide_False by (rewrite elem_of_cons; naive_solver). case_bool_decide; [by rewrite lookup_delete_ne|by rewrite lookup_insert_ne].
Qed.
Lemma unaffected path : (forall key, belongs dirs key = true -> M !! key <> Some path /\ fresh !! key <> Some path) -> entry_of M' path = entry_of M path.
Proof.
  intros H. unfold entry_of. rewrite (keys_of_ext M' M path); [done|]. intros key. destruct (belongs dirs key) eqn:Eb; [|by rewrite Hsame].
  destruct (H key Eb) as [H1 H2]. rewrite Hfresh, Eb in H2. naive_solver.
Qed.
End update.

(** ** Histories *)

Record go_told (rows : list GoImportablePackageRow) (directories : list string) (scoped rows' : list GoImportablePackageRow) : Prop := {
  gt_keys : NoDup (row_package_key <$> rows');
  gt_scoped key path : mkRow key path ∈ scoped <-> mkRow key path ∈ rows' /\ belongs (list_to_set directories) key = true;
  gt_same key path : belongs (list_to_set directories) key = false -> mkRow key path ∈ rows' <-> mkRow key path ∈ rows;
  gt_importable row : row ∈ scoped -> importable row = true;
}.
Inductive published_imports (alloc : GoAllocation) : GoImportCompletionTable -> list GoImportablePackageRow -> Prop :=
  | imports_built rows : NoDup (row_package_key <$> rows) -> published_imports alloc (go_build alloc rows) rows
  | imports_updated t rows directories scoped rows' t' :
      published_imports alloc t rows -> go_told rows directories scoped rows' ->
      updated_directories alloc t directories scoped = Some t' -> published_imports alloc t' rows'.
Definition content (rows : list GoImportablePackageRow) : gmap string string := row_content (List.filter importable rows).
Lemma content_lookup rows key path : NoDup (row_package_key <$> rows) -> content rows !! key = Some path <-> mkRow key path ∈ rows /\ importable (mkRow key path) = true.
Proof.
  intros Hnd. unfold content. rewrite row_content_lookup, elem_of_filter_bool; [done|].
  eapply NoDup_of_submseteq; [apply sublist_submseteq, fmap_sublist, list_filter_bool_sublist|exact Hnd].
Qed.
Lemma updated_directories_ok alloc t M M' directories scoped t' : go_table_ok t M -> updated_directories alloc t directories scoped = Some t' ->
  (forall key, row_content scoped !! key = if belongs (list_to_set directories) key then M' !! key else None) ->
  (forall key, belongs (list_to_set directories) key = false -> M' !! key = M !! key) -> go_table_ok t' M'.
Proof.
  intros ([MB Hb] & He & Hsz) Hu Hfresh Hsame. unfold updated_directories in Hu. destruct (256 <? length directories)%nat; [done|].
  assert (path_comparison_key <$> directories = directories) as Hid by apply list_fmap_id. rewrite Hid in Hu. set (dirs := list_to_set directories) in *.
  apply bind_Some in Hu as (current & Hc & Hu). pose proof (current_packages t MB M Hb He dirs current Hc) as Hcur.
  set (cur := foldl (add_entry dirs) current _) in *. clearbody cur.
  change (foldl _ ∅ scoped) with (row_content scoped) in Hu. set (fresh := row_content scoped) in *.
  case_bool_decide as Eq.
  - injection Hu as <-. split; [by exists MB|]. split; [|done]. intros path. rewrite He. unfold entry_of. rewrite (keys_of_ext M M' path); [done|].
    intros key. destruct (belongs dirs key) eqn:Eb; [|by rewrite Hsame]. specialize (Hfresh key). rewrite Eb in Hfresh. rewrite <- Hfresh, <- Eq.
    rewrite (Hcur key path). naive_solver.
  - destruct (256 <? length _)%nat; [done|]. apply bind_Some in Hu as (updates' & Hup & Hu). destruct ((256 <? size updates')%nat || _) eqn:El; [done|].
    apply orb_false_iff in El as [El%Nat.ltb_ge _]. injection Hu as <-. split; [by exists MB; destruct Hb; split|]. split; [|done].
    intros path. unfold entry. cbn [updates]. rewrite (update_paths_lookup t M He M' dirs fresh Hfresh Hsame alloc _ _ _ Hup path).
    assert (forall u, base_entry (mkGoTable (go_entries t) (by_directory t) u (base_bytes t)) path = base_entry t path) as Hbase by done.
    case_decide as Hin.
    + case_bool_decide as E; [by rewrite Hbase, E|done].
    + fold (entry t path). rewrite Hbase. fold (entry t path). rewrite He. symmetry. apply (unaffected M M' dirs fresh Hfresh Hsame). intros key Hbel. split; intros Hk; apply Hin.
      * apply elem_of_sorted_unique, elem_of_app. left. apply elem_of_btree_values. exists key. by apply Hcur.
      * apply elem_of_sorted_unique, elem_of_app. right. apply elem_of_btree_values. by exists key.
Qed.
Lemma published_imports_ok alloc t rows : published_imports alloc t rows -> NoDup (row_package_key <$> rows) /\ go_table_ok t (content rows).
Proof.
  induction 1 as [rows Hnd|t rows directories scoped rows' t' Ht [Hnd Hok] [Hnd' Hscoped Hsame Himp] Hu].
  - split; [done|]. pose proof (go_build_ok alloc rows Hnd) as Hb. split; [by eexists|]. split; [|cbn; by rewrite map_size_empty; lia].
    intros path. unfold entry. cbn [go_build updates]. rewrite lookup_empty. by apply base_entry_of.
  - split; [done|]. eapply updated_directories_ok; [done..| |].
    + intros key. apply option_eq. intros path. assert (row_content scoped !! key = Some path <-> mkRow key path ∈ scoped) as ->.
      { apply row_content_functional. intros p p' [H1 _]%Hscoped [H2 _]%Hscoped.
        apply (row_content_lookup rows' key p Hnd') in H1. apply (row_content_lookup rows' key p' Hnd') in H2. congruence. }
      rewrite Hscoped. destruct (belongs _ key) eqn:Eb; [|naive_solver]. rewrite content_lookup by done. split; [|naive_solver].
      intros [Hin _]. split; [done|]. apply Himp, Hscoped. done.
    + intros key Hbel. apply option_eq. intros path. by rewrite !content_lookup, Hsame.
Qed.

(** ** What is offered *)

Fixpoint go_merged (fuel : nat) (base delta : list GoImportCompletionEntry) : list GoImportCompletionEntry :=
  match fuel, next_entry base delta with
  | S fuel, Some (e, base, delta) => e :: go_merged fuel base delta
  | _, _ => []
  end.
Lemma go_merged_spec fuel : forall base delta, length base + length delta <= fuel -> increasing import_path base -> increasing import_path delta ->
  (forall a b, a ∈ base -> b ∈ delta -> a.(import_path) <> b.(import_path)) ->
  increasing import_path (go_merged fuel base delta) /\ forall e, e ∈ go_merged fuel base delta <-> e ∈ base \/ e ∈ delta.
Proof.
  assert (forall e l, increasing import_path l -> (forall x, x ∈ l -> string_lt (import_path e) (import_path x)) -> increasing import_path (e :: l)) as Hcons.
  { intros e l Hl H. constructor; [done|]. by apply Forall_forall. }
  induction fuel as [|fuel IH]; intros base delta Hf Hb Hd Hne.
  { destruct base, delta; cbn in Hf; try lia. split; [constructor|]. set_solver. }
  cbn [go_merged]. destruct base as [|a base], delta as [|b delta]; cbn [next_entry length] in *.
  - split; [constructor|set_solver].
  - inversion Hd as [|? ? Hd' Hbd]; subst. rewrite Forall_forall in Hbd. destruct (IH [] delta ltac:(cbn; lia) Hb Hd' ltac:(by intros ? ? ?%elem_of_nil)) as [Hi Hin].
    split; [apply Hcons; [done|]; intros x [?%elem_of_nil|Hx]%Hin; [done|by apply Hbd]|]. intros e. rewrite elem_of_cons, Hin. set_solver.
  - inversion Hb as [|? ? Hb' Hab]; subst. rewrite Forall_forall in Hab. destruct (IH base [] ltac:(cbn; lia) Hb' Hd ltac:(by intros ? ? _ ?%elem_of_nil)) as [Hi Hin].
    split; [apply Hcons; [done|]; intros x [Hx|?%elem_of_nil]%Hin; [by apply Hab|done]|]. intros e. rewrite elem_of_cons, Hin. set_solver.
  - inversion Hb as [|? ? Hb' Hab]; subst. inversion Hd as [|? ? Hd' Hbd]; subst. rewrite Forall_forall in Hab, Hbd.
    assert (forall e base' delta', length base' + length delta' <= fuel -> increasing import_path base' -> increasing import_path delta' ->
      (forall x y, x ∈ base' -> y ∈ delta' -> import_path x <> import_path y) ->
      (forall x, x ∈ base' \/ x ∈ delta' -> string_lt (import_path e) (import_path x)) ->
      increasing import_path (e :: go_merged fuel base' delta') /\ forall x, x ∈ e :: go_merged fuel base' delta' <-> x = e \/ x ∈ base' \/ x ∈ delta') as Hstep.
    { intros e base' delta' Hl H1 H2 H3 H4. destruct (IH base' delta' Hl H1 H2 H3) as [Hi Hin]. split; [apply Hcons; [done|]; intros x Hx%Hin; by apply H4|].
      intros x. by rewrite elem_of_cons, Hin. }
    destruct (String.compare (import_path a) (import_path b)) eqn:E.
    + apply string_compare_eq in E. by destruct (Hne a b ltac:(by left) ltac:(by left)).
    + destruct (Hstep a base (b :: delta) ltac:(cbn [length]; lia) Hb' Hd) as [Hi Hin]; [intros x y Hx; apply Hne; by right| |split; [done|intros e; rewrite Hin, !elem_of_cons; tauto]].
      intros x [Hx|[->|Hx]%elem_of_cons]; [by apply Hab|done|]. etrans; [exact E|by apply Hbd].
    + assert (string_lt (import_path b) (import_path a)) as E' by (unfold string_lt; by rewrite (cmp_antisym String.compare (import_path a)), E).
      destruct (Hstep b (a :: base) delta ltac:(cbn [length]; lia) Hb Hd') as [Hi Hin]; [intros x y Hx Hy; apply Hne; [done|by right]| |split; [done|intros e; rewrite Hin, !elem_of_cons; tauto]].
      intros x [[->|Hx]%elem_of_cons|Hx]; [done| |by apply Hbd]. etrans; [exact E'|by apply Hab].
Qed.
Definition is_current (current : option string) (e : GoImportCompletionEntry) : bool := match current with Some key => contains_package_key e key | None => false end.
Lemma complete_loop_spec context current fuel : forall base delta items, length items <= GO_IMPORT_COMPLETION_LIMIT ->
  complete_loop context current fuel base delta items =
  items ++ (go_item context <$> take (GO_IMPORT_COMPLETION_LIMIT - length items) (List.filter (fun e => negb (is_current current e)) (go_merged fuel base delta))).
Proof.
  induction fuel as [|fuel IH]; intros base delta items Hl; cbn [complete_loop go_merged]; [by cbn [List.filter]; rewrite take_nil, app_nil_r|].
  destruct (next_entry base delta) as [[[e base'] delta']|]; [|by cbn [List.filter]; rewrite take_nil, app_nil_r]. fold (is_current current e). cbn [List.filter].
  destruct (is_current current e); cbn [negb]; [by apply IH|]. destruct (Nat.eqb_spec (length items) GO_IMPORT_COMPLETION_LIMIT) as [El|Hne].
  - by rewrite El, Nat.sub_diag, take_0, app_nil_r.
  - rewrite IH by (rewrite length_app; cbn [length]; lia). rewrite length_app. cbn [length].
    replace (GO_IMPORT_COMPLETION_LIMIT - length items) with (S (GO_IMPORT_COMPLETION_LIMIT - (length items + 1))) by lia.
    cbn [take fmap list_fmap]. by rewrite <- app_assoc.
Qed.
Lemma matching_range_filter t MB prefix : go_base_ok t MB -> matching_range t prefix = List.filter (fun e => String.prefix prefix e.(import_path)) t.(go_entries).
Proof.
  intros [Hs _ _]. unfold matching_range. set (f := fun e => match String.compare (import_path e) prefix with Lt => true | _ => false end). set (l := go_entries t) in *.
  set (rest := drop (partition_point f l) l). assert (increasing import_path rest) as Hr by (eapply sublist_StronglySorted; [apply sublist_drop|exact Hs]).
  assert (Forall (fun e => f e = false) rest) as Hge.
  { eapply drop_partition_point; [exact Hs|]. intros a b Hf Hab. unfold f in *. destruct (String.compare (import_path b) prefix) eqn:E; try done. exfalso.
    assert (string_lt (import_path a) prefix) as E2 by (etrans; [exact Hab|exact E]). unfold string_lt in E2. by rewrite E2 in Hf. }
  assert (forall g : GoImportCompletionEntry -> bool, take (partition_point g rest) rest = take_while g rest) as ->.
  { intros g. clear. induction rest as [|x r IH]; [done|]. cbn [partition_point take_while]. destruct (g x); [|done]. cbn [take]. by rewrite IH. }
  rewrite (take_while_convex _ _ _ Hr).
  - transitivity (List.filter (fun e => String.prefix prefix (import_path e)) (take (partition_point f l) l ++ rest)); [|unfold rest; by rewrite take_drop].
    rewrite List.filter_app.
    assert (List.filter (fun e => String.prefix prefix (import_path e)) (take (partition_point f l) l) = []) as ->; [|done].
    pose proof (take_partition_point f l) as Ht. induction Ht as [|e k He Hk IH]; [done|]. cbn [List.filter].
    destruct (String.prefix prefix (import_path e)) eqn:E; [|done]. exfalso. apply prefix_le in E. unfold f in He.
    rewrite (cmp_antisym String.compare (import_path e)) in E. by destruct (String.compare (import_path e) prefix).
  - intros a b Hab Ha Hb. rewrite Forall_forall in Hge. specialize (Hge a Ha). unfold f in Hge. unfold string_lt in Hab.
    apply (prefix_convex _ _ (import_path b)); [|by rewrite Hab|done]. rewrite (cmp_antisym String.compare (import_path a)).
    by destruct (String.compare (import_path a) prefix).
Qed.
(** The paths the content offers: those with the prefix, less the path of the current
    package; each with its item. *)
Definition offered_path (M : gmap string string) (context : GoImportCompletionContext) (current : option string) (path : string) : bool :=
  String.prefix context.(prefix) path && negb (match current with Some key => bool_decide (M !! key = Some path) | None => false end).
Definition paths_of (M : gmap string string) : list string := sorted_unique (snd <$> map_to_list M).
Definition path_item (context : GoImportCompletionContext) (path : string) : GoItem := go_item context (mkGoEntry path []).
Lemma elem_of_paths_of M path : path ∈ paths_of M <-> exists key, M !! key = Some path.
Proof.
  unfold paths_of. rewrite elem_of_sorted_unique, list_elem_of_fmap. split.
  - intros ([key p] & -> & H%elem_of_map_to_list). by exists key.
  - intros [key H]. exists (key, path). split; [done|by apply elem_of_map_to_list].
Qed.
Lemma increasing_filter {A} (f : A -> string) g l : increasing f l -> increasing f (List.filter g l).
Proof. intros H. eapply sublist_StronglySorted; [apply list_filter_bool_sublist|exact H]. Qed.
Lemma increasing_fmap {A} (f : A -> string) l : increasing f l <-> increasing id (f <$> l).
Proof.
  unfold increasing. split; induction l as [|x l IH]; cbn [fmap list_fmap]; intros H; inversion H as [|? ? Hs Hx]; subst; constructor; try by apply IH.
  - by rewrite Forall_fmap.
  - by rewrite Forall_fmap in Hx.
Qed.
Lemma updated_increasing (m : gmap string (option GoImportCompletionEntry)) : (forall path e, m !! path = Some (Some e) -> e.(import_path) = path) ->
  increasing import_path (omap id (btree_values m)).
Proof.
  unfold btree_values. intros H. assert (forall path e, (path, Some e) ∈ btree_entries m -> e.(import_path) = path) as H' by (intros path e Hin%elem_of_btree_entries; by apply H).
  clear H. pose proof (btree_entries_increasing m) as Hs. induction Hs as [|[path [e|]] l Hl IH Hx]; [constructor| |].
  - cbn. constructor; [apply IH; intros p x Hin; apply H'; by right|]. apply Forall_forall. intros x (v & ([p v'] & -> & Hin)%list_elem_of_fmap & Hv)%list_elem_of_omap. cbn in Hv. subst v'.
    rewrite Forall_forall in Hx. specialize (Hx _ Hin). cbn in Hx. rewrite (H' path e ltac:(by left)), (H' p x ltac:(by right)). exact Hx.
  - cbn. apply IH. intros p x Hin. apply H'. by right.
Qed.
Section complete.
Context (t : GoImportCompletionTable) (M : gmap string string) (Hok : go_table_ok t M).
Lemma entry_path path e : entry t path = Some e -> e.(import_path) = path.
Proof. destruct Hok as (_ & He & _). rewrite He. by intros [-> _]%entry_of_Some. Qed.
Lemma is_current_spec current e : entry_of M e.(import_path) = Some e ->
  is_current current e = match current with Some key => bool_decide (M !! key = Some e.(import_path)) | None => false end.
Proof.
  intros [E _]%entry_of_Some. destruct current as [key|]; [|done]. cbn [is_current]. unfold contains_package_key. apply bool_decide_ext.
  assert (increasing id (package_keys e)) as Hi by (rewrite E; apply sorted_unique_increasing). rewrite <- elem_of_keys_of.
  assert (package_keys e = keys_of M (import_path e)) as <- by (by rewrite E at 1). split.
  - intros [i (k & Hk & <-)%(search_increasing id)]; [|done]. by eapply list_elem_of_lookup_2.
  - intros [i Hk]%list_elem_of_lookup. exists i. apply (search_increasing id); [done|]. by exists key.
Qed.
(** The merged lists: the entries of the content with the prefix. *)
Lemma merged_entries context :
  let base := List.filter (fun e => bool_decide (t.(updates) !! e.(import_path) = None)) (matching_range t context.(prefix)) in
  let delta := List.filter (fun e => String.prefix context.(prefix) e.(import_path)) (omap id (btree_values t.(updates))) in
  let merged := go_merged (length base + length delta) base delta in
  increasing import_path merged /\ forall e, e ∈ merged <-> String.prefix context.(prefix) e.(import_path) = true /\ entry_of M e.(import_path) = Some e.
Proof.
  intros base delta merged. pose proof Hok as ([MB Hb] & He & _). assert (forall path e, updates t !! path = Some (Some e) -> e.(import_path) = path) as Hup.
  { intros path e Hp. apply entry_path. unfold entry. by rewrite Hp. }
  assert (forall e, e ∈ base <-> (e ∈ go_entries t /\ String.prefix (prefix context) (import_path e) = true) /\ t.(updates) !! import_path e = None) as Hbase.
  { intros e. unfold base. rewrite elem_of_filter_bool, (matching_range_filter t MB), elem_of_filter_bool, bool_decide_eq_true by done. done. }
  assert (forall e, e ∈ delta <-> t.(updates) !! import_path e = Some (Some e) /\ String.prefix (prefix context) (import_path e) = true) as Hdelta.
  { intros e. unfold delta. rewrite elem_of_filter_bool, list_elem_of_omap. split; [|intros [H ?]; split; [|done]; exists (Some e); split; [apply elem_of_btree_values; by eexists|done]].
    intros [(v & [path Hp]%elem_of_btree_values & E) Hpre]. cbn in E. subst v. split; [|done]. by rewrite (Hup _ _ Hp). }
  destruct (go_merged_spec (length base + length delta) base delta) as [Hi Hin].
  - lia.
  - apply increasing_filter. rewrite (matching_range_filter t MB) by done. apply increasing_filter. by destruct Hb.
  - apply increasing_filter. by apply updated_increasing.
  - intros a b [_ Ha]%Hbase [Hd _]%Hdelta E. rewrite E in Ha. congruence.
  - split; [done|]. intros e. unfold merged. rewrite Hin, Hbase, Hdelta, <- He. unfold entry.
    assert (e ∈ go_entries t <-> base_entry t (import_path e) = Some e) as -> by (rewrite (base_entry_of t MB) by done; apply (gb_entries _ _ Hb)).
    destruct (updates t !! import_path e); intuition congruence.
Qed.
Lemma complete_exact context current :
  complete t context current = path_item context <$> take GO_IMPORT_COMPLETION_LIMIT (List.filter (offered_path M context current) (paths_of M)).
Proof.
  unfold complete. rewrite complete_loop_spec by (cbn [length]; lia). cbn [length app]. rewrite Nat.sub_0_r.
  assert ((package_key_identity <$> current) = current) as -> by by destruct current.
  destruct (merged_entries context) as [Hi Hin]. set (merged := go_merged _ _ _) in *. clearbody merged.
  assert (import_path <$> List.filter (fun e => negb (is_current current e)) merged = List.filter (offered_path M context current) (paths_of M)) as <-.
  { apply (increasing_unique_iff id); [by apply (proj1 (increasing_fmap import_path _)), increasing_filter|apply increasing_filter, sorted_unique_increasing|]. intros path.
    rewrite list_elem_of_fmap, elem_of_filter_bool, elem_of_paths_of. unfold offered_path. rewrite andb_true_iff. split.
    - intros (e & -> & [[Hp Ee]%Hin Hc]%elem_of_filter_bool). rewrite (is_current_spec current e Ee) in Hc. split; [by apply entry_of_Some in Ee as [_ ?]|done].
    - intros [[key Hk] [Hp Hc]]. assert (entry_of M path = Some (mkGoEntry path (keys_of M path))) as Ee by (apply entry_of_Some; split; [done|by exists key]).
      exists (mkGoEntry path (keys_of M path)). split; [done|]. apply elem_of_filter_bool. rewrite is_current_spec by done. split; [apply Hin|done]. done. }
  rewrite <- fmap_take, <- list_fmap_compose. done.
Qed.
End complete.

(** ** The property *)

(** C28 However the table was published (built from the store's rows, then updated any number of times from the rows of the reported directories, the content outside them unchanged and the packages inside them importable), a completion lists exactly what the current rows give: the first hundred, in order, of the distinct importable paths that start with the prefix, less the path of the package being edited, each with its item; and the table holds at most 256 updates. *)
Theorem go_imports_exact alloc t rows context current : published_imports alloc t rows ->
  complete t context current = path_item context <$> take 100 (List.filter (offered_path (content rows) context current) (paths_of (content rows))) /\
  (size t.(updates) <= 256)%nat.
Proof. intros [_ Hok]%published_imports_ok. split; [by apply complete_exact|]. by destruct Hok as (_ & _ & ?). Qed.

Definition example_go_alloc : GoAllocation := mkGoAllocation (fun s => N.of_nat (String.length s)) (fun _ => 0%N) (fun _ => 0%N) (fun _ => 0%N) (fun _ => 0%N) 1 1 8.
Definition example_rows : list GoImportablePackageRow := [mkRow "src/a#a" "m/a"; mkRow "src/b#b" "m/b"; mkRow "src/c#c" "C"; mkRow "src/d#d" "n/d"].
Definition example_rows' : list GoImportablePackageRow := [mkRow "src/a#a" "m/a"; mkRow "src/b#e" "m/e"; mkRow "src/c#c" "C"; mkRow "src/d#d" "n/d"].
Definition example_context (prefix : string) : GoImportCompletionContext := mkContext prefix 2 8 9 9.
Definition example_imports : GoImportCompletionTable :=
  default (go_build example_go_alloc []) (updated_directories example_go_alloc (go_build example_go_alloc example_rows) ["src/b"] [mkRow "src/b#e" "m/e"]).
(** The base still lists m/b; the update hides it and adds m/e. *)
Example example_imports_listed :
  (import_path <$> go_entries example_imports) = ["m/a"; "m/b"; "n/d"] /\
  (label <$> complete example_imports (example_context "m") None) = ["m/a"; "m/e"] /\
  (label <$> complete example_imports (example_context "m") (Some "src/a#a")) = ["m/e"].
Proof. vm_compute. done. Qed.
Example go_imports_exact_witness : complete example_imports (example_context "m") (Some "src/a#a") =
  path_item (example_context "m") <$> take 100 (List.filter (offered_path (content example_rows') (example_context "m") (Some "src/a#a")) (paths_of (content example_rows'))) /\
  (size example_imports.(updates) <= 256)%nat.
Proof.
  apply (go_imports_exact example_go_alloc _ example_rows').
  refine (imports_updated example_go_alloc _ example_rows ["src/b"] [mkRow "src/b#e" "m/e"] example_rows' _ _ _ _).
  - constructor. by apply (bool_decide_unpack _).
  - split.
    + by apply (bool_decide_unpack _).
    + intros key path. unfold example_rows'. rewrite !elem_of_cons, !elem_of_nil. split.
      * intros [[= -> ->]|[]]. split; [tauto|]. by vm_compute.
      * intros [[H|[H|[H|[H|[]]]]] Hb]; injection H as -> ->; [by vm_compute in Hb|tauto|by vm_compute in Hb..].
    + intros key path Hb. unfold example_rows', example_rows. rewrite !elem_of_cons, !elem_of_nil. split.
      * intros [H|[H|[H|[H|[]]]]]; injection H as -> ->; try tauto. by vm_compute in Hb.
      * intros [H|[H|[H|[H|[]]]]]; injection H as -> ->; try tauto. by vm_compute in Hb.
    + intros row [->|[]%elem_of_nil]%elem_of_cons. reflexivity.
  - vm_compute. reflexivity.
Defined.
