(* ===== verification/IndexSchedule.v ===== *)
(** * The index scheduler (server/indexing.rs, workspace folders of server/language_server.rs)

    Requests to index, of changed files, of roots or of all roots, are merged under the
    schedule's mutex; one runner takes what is pending after a pause and indexes root after
    root, awaiting the build coordinator, the indexer and the publication. The step system
    interleaves the runner, cut at its awaits and locks, with the requests and with the
    handlers that change the workspace folders. A root stays marked for a full rescan from
    before its run until its publication, so no request is lost when a run fails. *)

From S2P Require Import Prelude BuildCoordinator.

(** ** Data *)

(** A path is the list of its components: that is how [Path] compares and hashes. *)
Abbreviation PathBuf := (list string).
Fixpoint path_cmp (p q : PathBuf) : comparison :=
  match p, q with
  | [], [] => Eq
  | [], _ :: _ => Lt
  | _ :: _, [] => Gt
  | a :: p, b :: q => cmp_then (String.compare a b) (path_cmp p q)
  end.
Definition path_eqb (p q : PathBuf) : bool := bool_decide (p = q).
(** [sort], [dedup] *)
Definition sorted_roots (l : list PathBuf) : list PathBuf := dedup path_eqb (sort_by path_cmp l).

Inductive DirtyFileKind : Type := Upsert | Delete.
Record DirtyFileChange : Type := mkDirtyFileChange { absolute_path : PathBuf; kind : DirtyFileKind }.
Record RootDirtyChange : Type := mkRootDirtyChange { root : PathBuf; rel_path : string; change : DirtyFileChange }.

Record IndexScheduleState : Type := mkSchedule {
  running : bool;
  scheduled : bool;
  pending_requested : bool;
  pending_full : bool;
  pending_all_roots : bool;
  pending_full_roots : list PathBuf;
  pending_force : bool;
  pending_changes : list RootDirtyChange;
}.
Definition empty_schedule : IndexScheduleState := mkSchedule false false false false false [] false [].
Inductive ScheduledIndex : Type :=
  | ScheduledFull (roots : option (list PathBuf)) (force : bool) (changes : list RootDirtyChange)
  | ScheduledDirty (changes : list RootDirtyChange).
Record DeferredIndexWork : Type := mkDeferred {
  full_roots : list PathBuf;
  force_full : bool;
  dirty_changes : list RootDirtyChange;
}.
Definition no_deferred : DeferredIndexWork := mkDeferred [] false [].

(** ** The schedule *)

Definition is_empty {A} (l : list A) : bool := match l with [] => true | _ => false end.
Definition other_roots (roots : list PathBuf) (changes : list RootDirtyChange) : list RootDirtyChange :=
  List.filter (fun c => negb (bool_decide (c.(root) ∈ roots))) changes.
Definition request_dirty_changes (changes : list RootDirtyChange) (s : IndexScheduleState) : IndexScheduleState :=
  if is_empty changes then s
  else mkSchedule s.(running) s.(scheduled) true s.(pending_full) s.(pending_all_roots) s.(pending_full_roots) s.(pending_force)
         (s.(pending_changes) ++ changes).
Definition request_all_roots (force : bool) (s : IndexScheduleState) : IndexScheduleState :=
  mkSchedule s.(running) s.(scheduled) true true true [] (s.(pending_force) || force) [].
Definition request_full_roots_with_force (roots : list PathBuf) (force : bool) (s : IndexScheduleState) : IndexScheduleState :=
  if is_empty roots then s
  else if s.(pending_all_roots)
  then mkSchedule s.(running) s.(scheduled) true true true s.(pending_full_roots) s.(pending_force) s.(pending_changes)
  else
    let all := sorted_roots (s.(pending_full_roots) ++ roots) in
    mkSchedule s.(running) s.(scheduled) true true false all (s.(pending_force) || force) (other_roots all s.(pending_changes)).
Definition request_full_roots (roots : list PathBuf) : IndexScheduleState -> IndexScheduleState := request_full_roots_with_force roots false.
Definition take_scheduled_index (s : IndexScheduleState) : ScheduledIndex * IndexScheduleState :=
  if negb s.(pending_full)
  then (ScheduledDirty s.(pending_changes),
        mkSchedule s.(running) s.(scheduled) false false s.(pending_all_roots) s.(pending_full_roots) s.(pending_force) [])
  else if s.(pending_all_roots)
  then (ScheduledFull None s.(pending_force) [], mkSchedule s.(running) s.(scheduled) false false false [] false [])
  else (ScheduledFull (Some s.(pending_full_roots)) s.(pending_force) (other_roots s.(pending_full_roots) s.(pending_changes)),
        mkSchedule s.(running) s.(scheduled) false false false [] false []).
Definition set_running (running scheduled : bool) (s : IndexScheduleState) : IndexScheduleState :=
  mkSchedule running scheduled s.(pending_requested) s.(pending_full) s.(pending_all_roots) s.(pending_full_roots) s.(pending_force) s.(pending_changes).

Definition should_retry_acquire (error : AcquireError) : bool := bool_decide (error = AcqDeferred).

(** The changes of a pass, the last of each file, by root. *)
Definition latest_by_file (changes : list RootDirtyChange) : gmap (PathBuf * string) RootDirtyChange :=
  foldl (fun m c => <[(c.(root), c.(rel_path)) := c]> m) ∅ changes.
Definition by_root (changes : list RootDirtyChange) : gmap PathBuf (list RootDirtyChange) :=
  foldl (fun m (kc : PathBuf * string * RootDirtyChange) => push_map m kc.2.(root) kc.2) ∅ (map_to_list (latest_by_file changes)).

(** ** The server *)

(** What an index has of each file of a root: the time its run began. A full run reads
    every file, a dirty run the files it is given. *)
Record Content : Type := mkContent { all_since : nat; file_since : gmap string nat }.
Definition since (c : Content) (file : string) : nat := default c.(all_since) (c.(file_since) !! file).
Definition reread (c : Content) (files : list string) (now : nat) : Content :=
  mkContent c.(all_since) (foldl (fun m file => <[file := now]> m) c.(file_since) files).
(** A semantic generation; 0 is [SemanticGeneration::MISSING]. *)
Definition Generation : Type := nat.
Definition MISSING : Generation := 0.

(** How far the attempt on one root has come. *)
Inductive Stage : Type :=
  | Forcing | Marking | Acquiring | Reserving | Starting | Running (began : nat)
  | Publishing | Unmarking | Checking | RemovingMarks | RemovingSnapshots.
#[export] Instance Stage_eq_dec : EqDecision Stage.
Proof. solve_decision. Defined.
Inductive Job : Type := FullJob | DirtyJob (changes : list RootDirtyChange).
(** Who called [index_roots]: the runner's loop, or [index_dirty_roots]. *)
Inductive Caller : Type :=
  | Scheduled (force : bool) (changes : list RootDirtyChange)
  | Redirected (outer : DeferredIndexWork) (rest : gmap PathBuf (list RootDirtyChange)) (inner : DeferredIndexWork).
Inductive DirtyStage : Type :=
  | Rooting | Snapshotting | Comparing (published : option (Generation * Content)) | Deciding (same_generation : bool) | At (stage : Stage).
Inductive Phase : Type :=
  | Sleeping
  | Took (work : ScheduledIndex)
  | InFull (caller : Caller) (force : bool) (todo deferred : list PathBuf) (current : option (PathBuf * bool * Stage))
  | InDirty (outer : DeferredIndexWork) (rest : gmap PathBuf (list RootDirtyChange)) (inner : DeferredIndexWork)
      (current : option (PathBuf * list RootDirtyChange * DirtyStage))
  | Finishing (deferred : DeferredIndexWork).
(** A handler of changed workspace folders: what it still has to do. *)
Inductive HandlerStage : Type := WipingMarks | WipingSnapshots | Asking.
Record Handler : Type := mkHandler { handler_stage : HandlerStage; removed : list PathBuf; asks : bool }.

Record Server : Type := mkServer {
  index_schedule : IndexScheduleState;
  workspace_roots : list PathBuf;
  roots_needing_rescan : gset PathBuf;
  engine_snapshots : gmap PathBuf (Generation * Content);
  stores : gmap PathBuf (Generation * Content);
  next_generation : Generation;
  runners : list Phase;
  handlers : list Handler;
}.
Definition empty_server (roots : list PathBuf) : Server := mkServer empty_schedule roots ∅ ∅ ∅ 1 [] [].
Definition with_schedule (sched : IndexScheduleState) (s : Server) : Server :=
  mkServer sched s.(workspace_roots) s.(roots_needing_rescan) s.(engine_snapshots) s.(stores) s.(next_generation) s.(runners) s.(handlers).
Definition with_marks (marks : gset PathBuf) (s : Server) : Server :=
  mkServer s.(index_schedule) s.(workspace_roots) marks s.(engine_snapshots) s.(stores) s.(next_generation) s.(runners) s.(handlers).
Definition with_snapshots (snapshots : gmap PathBuf (Generation * Content)) (s : Server) : Server :=
  mkServer s.(index_schedule) s.(workspace_roots) s.(roots_needing_rescan) snapshots s.(stores) s.(next_generation) s.(runners) s.(handlers).
Definition with_runners (runners : list Phase) (s : Server) : Server :=
  mkServer s.(index_schedule) s.(workspace_roots) s.(roots_needing_rescan) s.(engine_snapshots) s.(stores) s.(next_generation) runners s.(handlers).
Definition with_handlers (handlers : list Handler) (s : Server) : Server :=
  mkServer s.(index_schedule) s.(workspace_roots) s.(roots_needing_rescan) s.(engine_snapshots) s.(stores) s.(next_generation) s.(runners) handlers.
(** The indexer commits a new generation to the store of the root. *)
Definition commit (root : PathBuf) (content : Content) (s : Server) : Server :=
  mkServer s.(index_schedule) s.(workspace_roots) s.(roots_needing_rescan) s.(engine_snapshots)
    (<[root := (s.(next_generation), content)]> s.(stores)) (S s.(next_generation)) s.(runners) s.(handlers).
(** The publication shows what the store has. *)
Definition show (root : PathBuf) (s : Server) : Server :=
  match s.(stores) !! root with Some generation => with_snapshots (<[root := generation]> s.(engine_snapshots)) s | None => s end.
Definition indexed_content (job : Job) (root : PathBuf) (began : nat) (s : Server) : Content :=
  match job with
  | FullJob => mkContent began ∅
  | DirtyJob changes => reread (default (mkContent 0 ∅) (snd <$> s.(stores) !! root)) (rel_path <$> changes) began
  end.

(** ** The runner *)

(** What the coordinator, the indexer and the publication answer, and the root a hash map
    yields next. *)
Inductive Outcome : Type :=
  | Proceed
  | Acquired (r : result AcquireError unit)
  | Reserved (r : result ReservationError unit)
  | Indexed (committed ok : bool)
  | Published (shown ok : bool)
  | Picked (root : PathBuf).
Inductive Attempt : Type := Next (stage : Stage) | Done | Retry.

(** One step of the attempt on a root, from the mark on; [now] is the time of a start. *)
Definition attempt_step (now : nat) (job : Job) (root : PathBuf) (stage : Stage) (o : Outcome) (s : Server) : option (Attempt * Server) :=
  match stage, o with
  | Marking, Proceed => Some (Next Acquiring, with_marks ({[root]} ∪ s.(roots_needing_rescan)) s)
  | Acquiring, Acquired (Ok _) => Some (Next Reserving, s)
  | Acquiring, Acquired (Err error) => Some (if should_retry_acquire error then Retry else Done, s)
  | Reserving, Reserved (Ok _) => Some (Next Starting, s)
  | Reserving, Reserved (Err _) => Some (Done, s)
  | Starting, Proceed => Some (Next (Running now), s)
  | Running began, Indexed committed ok =>
      let s := if committed || ok then commit root (indexed_content job root began s) s else s in
      Some (if ok then Next Publishing else Done, s)
  | Publishing, Published shown ok => Some (if ok then Next Unmarking else Done, if shown || ok then show root s else s)
  | Unmarking, Proceed => Some (Next Checking, with_marks (s.(roots_needing_rescan) ∖ {[root]}) s)
  | Checking, Proceed => Some (if bool_decide (root ∈ s.(workspace_roots)) then Done else Next RemovingMarks, s)
  | RemovingMarks, Proceed => Some (Next RemovingSnapshots, with_marks (s.(roots_needing_rescan) ∖ {[root]}) s)
  | RemovingSnapshots, Proceed => Some (Done, with_snapshots (delete root s.(engine_snapshots)) s)
  | _, _ => None
  end.

Definition index_dirty (outer : DeferredIndexWork) (changes : list RootDirtyChange) : Phase :=
  InDirty outer (by_root changes) no_deferred None.
Definition after_full (caller : Caller) (deferred : list PathBuf) : Phase :=
  match caller with
  | Scheduled force changes =>
      let d := mkDeferred deferred (force && negb (is_empty deferred)) [] in
      if is_empty changes then Finishing d else index_dirty d changes
  | Redirected outer rest inner => InDirty outer rest (mkDeferred (inner.(full_roots) ++ deferred) inner.(force_full) inner.(dirty_changes)) None
  end.
Definition merged_deferred (outer inner : DeferredIndexWork) : DeferredIndexWork :=
  mkDeferred (outer.(full_roots) ++ inner.(full_roots)) (outer.(force_full) || inner.(force_full)) (outer.(dirty_changes) ++ inner.(dirty_changes)).
(** [may_increment] but for the mark. *)
Definition same_generation (published store : option (Generation * Content)) : bool :=
  match published, store with Some (g, _), Some (g', _) => negb (g =? MISSING)%nat && (g =? g')%nat | _, _ => false end.

Definition runner_step (now : nat) (o : Outcome) (phase : Phase) (s : Server) : option (option Phase * Server) :=
  match phase with
  | Sleeping =>
      match o with
      | Proceed =>
          let '(work, sched) := take_scheduled_index (set_running true false s.(index_schedule)) in
          Some (Some (Took work), with_schedule sched s)
      | _ => None
      end
  | Took work =>
      match o with
      | Proceed =>
          Some (Some match work with
            | ScheduledFull roots force changes =>
                let roots := match roots with
                  | None => s.(workspace_roots)
                  | Some scoped => List.filter (fun r => bool_decide (r ∈ s.(workspace_roots))) scoped
                  end in
                InFull (Scheduled force changes) force roots [] None
            | ScheduledDirty changes => if is_empty changes then Finishing no_deferred else index_dirty no_deferred changes
            end, s)
      | _ => None
      end
  | InFull caller force todo deferred None =>
      match o, todo with
      | Proceed, [] => Some (Some (after_full caller deferred), s)
      | Proceed, root :: todo => Some (Some (InFull caller force todo deferred (Some (root, force, Forcing))), s)
      | _, _ => None
      end
  | InFull caller force todo deferred (Some (root, forced, Forcing)) =>
      match o with
      | Proceed =>
          let forced := force || bool_decide (root ∈ s.(roots_needing_rescan)) in
          Some (Some (InFull caller force todo deferred (Some (root, forced, Marking))), s)
      | _ => None
      end
  | InFull caller force todo deferred (Some (root, forced, stage)) =>
      '(a, s) ← attempt_step now FullJob root stage o s;
      Some (Some match a with
        | Next stage => InFull caller force todo deferred (Some (root, forced, stage))
        | Done => InFull caller force todo deferred None
        | Retry => InFull caller force todo (deferred ++ [root]) None
        end, s)
  | InDirty outer rest inner None =>
      match o with
      | Picked root =>
          changes ← rest !! root; Some (Some (InDirty outer (delete root rest) inner (Some (root, changes, Rooting))), s)
      | Proceed => if bool_decide (rest = ∅) then Some (Some (Finishing (merged_deferred outer inner)), s) else None
      | _ => None
      end
  | InDirty outer rest inner (Some (root, changes, stage)) =>
      match stage, o with
      | Rooting, Proceed =>
          Some (Some (InDirty outer rest inner (if bool_decide (root ∈ s.(workspace_roots)) then Some (root, changes, Snapshotting) else None)), s)
      | Snapshotting, Proceed => Some (Some (InDirty outer rest inner (Some (root, changes, Comparing (s.(engine_snapshots) !! root)))), s)
      | Comparing published, Proceed =>
          Some (Some (InDirty outer rest inner (Some (root, changes, Deciding (same_generation published (s.(stores) !! root))))), s)
      | Deciding same, Proceed =>
          Some (Some (if negb (bool_decide (root ∈ s.(roots_needing_rescan))) && same
            then InDirty outer rest inner (Some (root, changes, At Marking))
            else InFull (Redirected outer rest inner) false [root] [] None), s)
      | At stage, _ =>
          '(a, s) ← attempt_step now (DirtyJob changes) root stage o s;
          Some (Some match a with
            | Next stage => InDirty outer rest inner (Some (root, changes, At stage))
            | Done => InDirty outer rest inner None
            | Retry => InDirty outer rest (mkDeferred inner.(full_roots) inner.(force_full) (inner.(dirty_changes) ++ changes)) None
            end, s)
      | _, _ => None
      end
  | Finishing d =>
      match o with
      | Proceed =>
          let sched := request_full_roots_with_force d.(full_roots) d.(force_full) s.(index_schedule) in
          let sched := request_dirty_changes d.(dirty_changes) sched in
          Some (if sched.(pending_requested)
                then (Some Sleeping, with_schedule (set_running false true sched) s)
                else (None, with_schedule (set_running false sched.(scheduled) sched) s))
      | _ => None
      end
  end.

(** ** Requests and workspace folders *)

Definition spawn_runner (sched : IndexScheduleState) (s : Server) : Server :=
  if sched.(running) || sched.(scheduled) then with_schedule sched s
  else with_schedule (set_running false true sched) (with_runners (s.(runners) ++ [Sleeping]) s).
Definition spawn_dirty_files (changes : list RootDirtyChange) (s : Server) : Server :=
  spawn_runner (request_dirty_changes changes s.(index_schedule)) s.
Definition spawn_index_roots_with_scope (roots : option (list PathBuf)) (force : bool) (s : Server) : Server :=
  let sched := match roots with
    | Some roots => request_full_roots roots s.(index_schedule)
    | None => request_all_roots force s.(index_schedule)
    end in
  if negb sched.(running) && negb sched.(scheduled) && negb sched.(pending_requested) then with_schedule sched s
  else spawn_runner sched s.
Definition change_folders (removed added : list PathBuf) (s : Server) : Server :=
  let roots := sorted_roots (List.filter (fun r => negb (bool_decide (r ∈ removed))) s.(workspace_roots) ++ added) in
  let asks := negb (is_empty added) in
  let handler := mkHandler (if is_empty removed then Asking else WipingMarks) removed asks in
  mkServer s.(index_schedule) roots s.(roots_needing_rescan) s.(engine_snapshots) s.(stores) s.(next_generation) s.(runners) (s.(handlers) ++ [handler]).
(** One locked section of a handler: [remove_workspace_roots] has two; the last stage asks
    for all roots when folders were added. *)
Definition handler_step (i : nat) (s : Server) : option Server :=
  h ← s.(handlers) !! i;
  Some match h.(handler_stage) with
  | WipingMarks =>
      with_handlers (<[i := mkHandler WipingSnapshots h.(removed) h.(asks)]> s.(handlers))
        (with_marks (s.(roots_needing_rescan) ∖ list_to_set h.(removed)) s)
  | WipingSnapshots =>
      with_handlers (<[i := mkHandler Asking h.(removed) h.(asks)]> s.(handlers))
        (with_snapshots (filter (fun kv => kv.1 ∉ h.(removed)) s.(engine_snapshots)) s)
  | Asking =>
      let s' := with_handlers (take i s.(handlers) ++ drop (S i) s.(handlers)) s in
      if h.(asks) then spawn_index_roots_with_scope None false s' else s'
  end.
(** [publish_workspace_semantics_if_absent] *)
Definition publish_empty (root : PathBuf) (s : Server) : Server :=
  match s.(engine_snapshots) !! root with
  | Some _ => s
  | None => with_snapshots (<[root := (MISSING, mkContent 0 ∅)]> s.(engine_snapshots)) s
  end.

(** ** Histories *)

(** The server with its history: the number of requests so far, the last request of each
    root and of each file, of the roots in the workspace, and the roots that a removal has
    reached after they were added again. *)
Record World : Type := mkWorld {
  server : Server;
  now : nat;
  requested_roots : gmap PathBuf nat;
  requested_files : gmap (PathBuf * string) nat;
  wiped : gset PathBuf;
}.
Definition requested (w : World) (root : PathBuf) (file : string) (t : nat) : Prop :=
  w.(requested_roots) !! root = Some t \/ w.(requested_files) !! (root, file) = Some t.
Inductive Event : Type :=
  | ChangedFiles (changes : list RootDirtyChange)
  | IndexRequest (roots : option (list PathBuf)) (force : bool)
  | Folders (removed added : list PathBuf)
  | HandlerSteps (i : nat)
  | EmptySnapshot (root : PathBuf)
  | RunnerSteps (i : nat) (o : Outcome).
Definition stamp `{Countable K} (keys : list K) (t : nat) (m : gmap K nat) : gmap K nat := foldl (fun m k => <[k := t]> m) m keys.
Definition in_workspace (s : Server) (roots : list PathBuf) : list PathBuf :=
  List.filter (fun r => bool_decide (r ∈ s.(workspace_roots))) roots.
Definition note_roots (roots : list PathBuf) (w : World) : World :=
  mkWorld w.(server) (S w.(now)) (stamp roots (S w.(now)) w.(requested_roots)) w.(requested_files) (w.(wiped) ∖ list_to_set roots).
Definition note_files (changes : list RootDirtyChange) (w : World) : World :=
  mkWorld w.(server) (S w.(now)) w.(requested_roots)
    (stamp ((fun c => (c.(root), c.(rel_path))) <$> List.filter (fun c => bool_decide (c.(root) ∈ w.(server).(workspace_roots))) changes) (S w.(now)) w.(requested_files))
    w.(wiped).
Definition with_server (s : Server) (w : World) : World := mkWorld s w.(now) w.(requested_roots) w.(requested_files) w.(wiped).
(** The roots of the workspace a handler's step removes from under it. *)
Definition wipes (i : nat) (s : Server) : list PathBuf :=
  match s.(handlers) !! i with
  | Some h => match h.(handler_stage) with Asking => [] | _ => in_workspace s h.(removed) end
  | None => []
  end.
Definition asks_now (i : nat) (s : Server) : bool :=
  match s.(handlers) !! i with Some h => match h.(handler_stage) with Asking => h.(asks) | _ => false end | None => false end.
Definition event (e : Event) (w : World) : option World :=
  let s := w.(server) in
  match e with
  | ChangedFiles changes => Some (with_server (spawn_dirty_files changes s) (note_files changes w))
  | IndexRequest roots force =>
      Some (with_server (spawn_index_roots_with_scope roots (force && bool_decide (roots = None)) s)
        (note_roots (in_workspace s (default s.(workspace_roots) roots)) w))
  | Folders removed added =>
      let s' := change_folders removed added s in
      Some (mkWorld s' w.(now) (filter (fun kv => kv.1 ∈ s'.(workspace_roots)) w.(requested_roots))
        (filter (fun kv => kv.1.1 ∈ s'.(workspace_roots)) w.(requested_files)) w.(wiped))
  | HandlerSteps i =>
      s' ← handler_step i s;
      let w := if asks_now i s then note_roots s.(workspace_roots) w else w in
      Some (mkWorld s' w.(now) w.(requested_roots) w.(requested_files) (w.(wiped) ∪ list_to_set (wipes i s)))
  | EmptySnapshot root => Some (with_server (publish_empty root s) w)
  | RunnerSteps i o =>
      phase ← s.(runners) !! i;
      '(phase', s') ← runner_step w.(now) o phase s;
      let rest := match phase' with Some phase' => <[i := phase']> s'.(runners) | None => take i s'.(runners) ++ drop (S i) s'.(runners) end in
      Some (with_server (with_runners rest s') w)
  end.
Definition start (roots : list PathBuf) : World := mkWorld (empty_server (sorted_roots roots)) 0 ∅ ∅ ∅.
Inductive reachable : World -> Prop :=
  | reachable_start roots : reachable (start roots)
  | reachable_event w e w' : reachable w -> event e w = Some w' -> reachable w'.

(** ** What is waiting *)

Definition has_change (changes : list RootDirtyChange) (r : PathBuf) (file : string) : Prop :=
  exists c, c ∈ changes /\ c.(root) = r /\ c.(rel_path) = file.
Definition pending (s : IndexScheduleState) (r : PathBuf) (file : string) : Prop :=
  s.(pending_full) = true /\ (s.(pending_all_roots) = true \/ r ∈ s.(pending_full_roots)) \/ has_change s.(pending_changes) r file.
Definition taken (work : ScheduledIndex) (r : PathBuf) (file : string) : Prop :=
  match work with
  | ScheduledFull None _ _ => True
  | ScheduledFull (Some roots) _ changes => r ∈ roots \/ has_change changes r file
  | ScheduledDirty changes => has_change changes r file
  end.
Definition kept (d : DeferredIndexWork) (r : PathBuf) (file : string) : Prop := r ∈ d.(full_roots) \/ has_change d.(dirty_changes) r file.
Definition grouped (rest : gmap PathBuf (list RootDirtyChange)) (r : PathBuf) (file : string) : Prop := has_change (default [] (rest !! r)) r file.
Definition called (k : Caller) (r : PathBuf) (file : string) : Prop :=
  match k with
  | Scheduled _ changes => has_change changes r file
  | Redirected outer rest inner => kept outer r file \/ grouped rest r file \/ kept inner r file
  end.
(** The work of a phase but for the current root, and that of the current root until it is marked. *)
Definition others (phase : Phase) (r : PathBuf) (file : string) : Prop :=
  match phase with
  | Sleeping => False
  | Took work => taken work r file
  | InFull k _ todo deferred _ => r ∈ todo \/ r ∈ deferred \/ called k r file
  | InDirty outer rest inner _ => kept outer r file \/ grouped rest r file \/ kept inner r file
  | Finishing d => kept d r file
  end.
Definition job_covers (job : Job) (file : string) : Prop :=
  match job with FullJob => True | DirtyJob changes => exists c, c ∈ changes /\ c.(rel_path) = file end.
Definition unmarked (stage : Stage) : Prop := match stage with Forcing | Marking => True | _ => False end.
Definition current_work (phase : Phase) (r : PathBuf) (file : string) : Prop :=
  match phase with
  | InFull _ _ _ _ (Some (root, _, stage)) => r = root /\ unmarked stage
  | InDirty _ _ _ (Some (root, changes, stage)) =>
      r = root /\ match stage with At stage => unmarked stage | _ => True end /\ job_covers (DirtyJob changes) file
  | _ => False
  end.
(** A file a run has yet to read: pending, or in the work of the runner. *)
Definition waiting (s : Server) (r : PathBuf) (file : string) : Prop :=
  pending s.(index_schedule) r file \/ Exists (fun phase => others phase r file \/ current_work phase r file) s.(runners).
(** The published index has the file from a run that began after the request. *)
Definition covered (s : Server) (r : PathBuf) (file : string) (t : nat) : Prop :=
  exists g c, s.(engine_snapshots) !! r = Some (g, c) /\ g <> MISSING /\ (t <= since c file)%nat.

(** ** Invariants *)

Definition store_covers (s : Server) (r : PathBuf) (file : string) (t : nat) : Prop :=
  exists g c, s.(stores) !! r = Some (g, c) /\ (t <= since c file)%nat.
(** What an attempt at its stage will have, or has, of its root. *)
Definition promise (s : Server) (job : Job) (r : PathBuf) (stage : Stage) (file : string) (t : nat) : Prop :=
  match stage with
  | Forcing | Marking | Acquiring | Reserving | Starting => job_covers job file \/ store_covers s r file t
  | Running began => (t <= began)%nat /\ (job_covers job file \/ job <> FullJob /\ store_covers s r file t)
  | Publishing => store_covers s r file t
  | Unmarking => covered s r file t
  | Checking => True
  | RemovingMarks | RemovingSnapshots => False
  end.
(** The requests that count: a wiped root waits for the request of the handler that follows. *)
Definition counts (w : World) (r : PathBuf) (file : string) (t : nat) : Prop := requested w r file t /\ r ∉ w.(wiped).
Definition attempt_ok (w : World) (W : PathBuf -> string -> Prop) (r : PathBuf) (job : Job) (stage : Stage) : Prop :=
  forall file t, counts w r file t -> W r file \/ promise w.(server) job r stage file t.
Definition dirty_stage_ok (w : World) (W : PathBuf -> string -> Prop) (r : PathBuf) (changes : list RootDirtyChange) (stage : DirtyStage) : Prop :=
  match stage with
  | Rooting | Snapshotting => True
  | Comparing published => forall g c, w.(server).(engine_snapshots) !! r = Some (g, c) -> g <> MISSING -> published = Some (g, c)
  | Deciding same => same = true -> forall g c, w.(server).(engine_snapshots) !! r = Some (g, c) -> g <> MISSING -> w.(server).(stores) !! r = Some (g, c)
  | At stage => stage <> Forcing /\ attempt_ok w W r (DirtyJob changes) stage
  end.
Definition phase_ok (w : World) (phase : Phase) : Prop :=
  let W r file := pending w.(server).(index_schedule) r file \/ others phase r file in
  match phase with
  | InFull _ _ _ _ (Some (root, _, stage)) => attempt_ok w W root FullJob stage
  | InDirty _ _ _ (Some (root, changes, stage)) => dirty_stage_ok w W root changes stage
  | _ => True
  end.
Definition safe (w : World) (W : PathBuf -> string -> Prop) : Prop :=
  forall r file t, counts w r file t -> W r file \/ r ∈ w.(server).(roots_needing_rescan) \/ covered w.(server) r file t.
Definition generations_ok (s : Server) : Prop :=
  (0 < s.(next_generation))%nat /\
  (forall r g c, s.(engine_snapshots) !! r = Some (g, c) -> (g < s.(next_generation))%nat) /\
  (forall r g c, s.(stores) !! r = Some (g, c) -> (g < s.(next_generation))%nat /\ g <> MISSING) /\
  (forall r g c c', s.(engine_snapshots) !! r = Some (g, c) -> s.(stores) !! r = Some (g, c') -> c = c').
Definition is_sleeping (phase : Phase) : bool := match phase with Sleeping => true | _ => false end.
(** At most one runner, and the flags say where it is. *)
Definition one_runner (s : Server) : Prop :=
  match s.(runners) with
  | [] => s.(index_schedule).(running) = false /\ s.(index_schedule).(scheduled) = false /\ s.(index_schedule).(pending_requested) = false
  | [phase] => s.(index_schedule).(running) = negb (is_sleeping phase) /\ s.(index_schedule).(scheduled) = is_sleeping phase
  | _ => False
  end.
Definition schedule_ok (s : IndexScheduleState) : Prop :=
  s.(pending_requested) = false -> s.(pending_full) = false /\ s.(pending_changes) = [].
Record world_ok (w : World) : Prop := {
  ok_runner : one_runner w.(server);
  ok_schedule : schedule_ok w.(server).(index_schedule);
  ok_requests r file t : requested w r file t -> r ∈ w.(server).(workspace_roots) /\ (t <= w.(now))%nat;
  ok_generations : generations_ok w.(server);
  ok_safe : safe w (waiting w.(server));
  ok_phases : Forall (phase_ok w) w.(server).(runners);
}.

(** *** The schedule *)

Lemma elem_of_other_roots roots changes c : c ∈ other_roots roots changes <-> c ∈ changes /\ c.(root) ∉ roots.
Proof. unfold other_roots. rewrite elem_of_filter_bool, negb_true_iff, bool_decide_eq_false. done. Qed.
Lemma elem_of_sorted_roots l r : r ∈ sorted_roots l <-> r ∈ l.
Proof.
  unfold sorted_roots. rewrite (elem_of_dedup path_eqb), elem_of_sort_by; [done|]. intros a b. unfold path_eqb. by rewrite bool_decide_eq_true.
Qed.
Lemma has_change_app l k r file : has_change (l ++ k) r file <-> has_change l r file \/ has_change k r file.
Proof. unfold has_change. setoid_rewrite elem_of_app. naive_solver. Qed.
Lemma has_change_nil r file : ~ has_change [] r file.
Proof. intros (c & ?%elem_of_nil & _). done. Qed.
Lemma has_change_other roots changes r file : has_change changes r file -> r ∈ roots \/ has_change (other_roots roots changes) r file.
Proof.
  intros (c & Hc & Hr & Hf). destruct (decide (r ∈ roots)) as [?|Hn]; [by left|right]. exists c. rewrite elem_of_other_roots. by rewrite Hr.
Qed.
Lemma pending_request_dirty changes s r file : pending (request_dirty_changes changes s) r file <-> pending s r file \/ has_change changes r file.
Proof.
  unfold request_dirty_changes, pending. destruct changes as [|c changes]; cbn [is_empty pending_full pending_all_roots pending_full_roots pending_changes].
  - split; [tauto|]. intros [?|?%has_change_nil]; done.
  - rewrite has_change_app. tauto.
Qed.
Lemma pending_request_all force s r file : pending (request_all_roots force s) r file.
Proof. left. split; [done|by left]. Qed.
Lemma pending_request_full roots force s r file :
  pending s r file \/ r ∈ roots -> pending (request_full_roots_with_force roots force s) r file.
Proof.
  unfold request_full_roots_with_force, pending. destruct roots as [|r0 roots]; cbn [is_empty].
  { intros [?|?%elem_of_nil]; done. }
  destruct (pending_all_roots s) eqn:Ea; cbn [pending_full pending_all_roots pending_full_roots pending_changes]; [intros _; left; split; [done|by left]|].
  intros H. assert (r ∈ sorted_roots (pending_full_roots s ++ r0 :: roots) \/ has_change (other_roots (sorted_roots (pending_full_roots s ++ r0 :: roots)) (pending_changes s)) r file) as [?|?]; [|by left; split; [done|right]|by right].
  rewrite elem_of_sorted_roots, elem_of_app. destruct H as [[[_ [?|?]]|Hc]|?]; [done|tauto| |tauto].
  apply (has_change_other (sorted_roots (pending_full_roots s ++ r0 :: roots))) in Hc. rewrite elem_of_sorted_roots, elem_of_app in Hc. tauto.
Qed.
Lemma take_takes s r file : pending s r file -> taken (take_scheduled_index s).1 r file.
Proof.
  unfold take_scheduled_index, pending. destruct (pending_full s); cbn [negb]; [|by intros [[? _]|?]].
  destruct (pending_all_roots s); cbn [fst taken]; [done|]. intros [[_ [?|?]]|Hc]; [done|by left|by apply has_change_other].
Qed.
Lemma take_schedule_ok s : schedule_ok (take_scheduled_index s).2.
Proof. unfold take_scheduled_index, schedule_ok. destruct (pending_full s), (pending_all_roots s); by cbn. Qed.
Lemma take_flags s : running (take_scheduled_index s).2 = running s /\ scheduled (take_scheduled_index s).2 = scheduled s.
Proof. unfold take_scheduled_index. destruct (pending_full s), (pending_all_roots s); by cbn. Qed.
Lemma schedule_ok_dirty changes s : schedule_ok s -> schedule_ok (request_dirty_changes changes s).
Proof. unfold schedule_ok, request_dirty_changes. destruct changes; cbn; [done|]. done. Qed.
Lemma schedule_ok_full roots force s : schedule_ok s -> schedule_ok (request_full_roots_with_force roots force s).
Proof. unfold schedule_ok, request_full_roots_with_force. destruct roots; cbn; [done|]. by destruct (pending_all_roots s). Qed.
Lemma request_flags s : (forall changes, running (request_dirty_changes changes s) = running s /\ scheduled (request_dirty_changes changes s) = scheduled s) /\
  (forall roots force, running (request_full_roots_with_force roots force s) = running s /\ scheduled (request_full_roots_with_force roots force s) = scheduled s).
Proof.
  split; [intros changes; unfold request_dirty_changes; by destruct changes|]. intros roots force. unfold request_full_roots_with_force.
  destruct roots; [done|]. cbn. by destruct (pending_all_roots s).
Qed.

(** *** Requests and handlers *)

(** What a step of another client may do to the runner. *)
Record disturbs (w w' : World) : Prop := {
  ds_pending r file : pending w.(server).(index_schedule) r file -> pending w'.(server).(index_schedule) r file;
  ds_counts r file t : counts w' r file t -> pending w'.(server).(index_schedule) r file \/
    counts w r file t /\ (r ∈ w.(server).(roots_needing_rescan) -> r ∈ w'.(server).(roots_needing_rescan)) /\
    (forall g c, w.(server).(engine_snapshots) !! r = Some (g, c) -> g <> MISSING -> w'.(server).(engine_snapshots) !! r = Some (g, c));
  ds_stores : w'.(server).(stores) = w.(server).(stores);
  ds_snapshots r g c : w'.(server).(engine_snapshots) !! r = Some (g, c) -> g <> MISSING -> w.(server).(engine_snapshots) !! r = Some (g, c);
}.
Lemma disturbed_safe w w' (W W' : PathBuf -> string -> Prop) : disturbs w w' -> (forall r file, W r file -> W' r file) ->
  (forall r file, pending w'.(server).(index_schedule) r file -> W' r file) -> safe w W -> safe w' W'.
Proof.
  intros H HW Hp Hs r file t Hc. destruct (ds_counts _ _ H _ _ _ Hc) as [?|(Hc' & Hm & Hsn)]; [left; by apply Hp|].
  destruct (Hs r file t Hc') as [?|[?|(g & c & ? & ? & ?)]]; [left; by apply HW|right; left; by apply Hm|right; right]. exists g, c. split; [by apply Hsn|done].
Qed.
Lemma disturbed_attempt w w' (W W' : PathBuf -> string -> Prop) r job stage : disturbs w w' -> (forall r file, W r file -> W' r file) ->
  (forall r file, pending w'.(server).(index_schedule) r file -> W' r file) -> attempt_ok w W r job stage -> attempt_ok w' W' r job stage.
Proof.
  intros H HW Hp Ha file t Hc. destruct (ds_counts _ _ H _ _ _ Hc) as [?|(Hc' & _ & Hsn)]; [left; by apply Hp|].
  destruct (Ha file t Hc') as [?|Hpr]; [left; by apply HW|right]. unfold promise, store_covers, covered in *. rewrite (ds_stores _ _ H).
  destruct stage; try done. destruct Hpr as (g & c & ? & ? & ?). exists g, c. split; [by apply Hsn|done].
Qed.
Lemma disturbed_phase w w' phase : disturbs w w' -> phase_ok w phase -> phase_ok w' phase.
Proof.
  intros H. assert (forall r file, pending (index_schedule (server w)) r file \/ others phase r file -> pending (index_schedule (server w')) r file \/ others phase r file) as HW.
  { intros r file [?|?]; [left; by apply (ds_pending _ _ H)|by right]. }
  destruct phase as [|work|k force todo deferred [[[r forced] stage]|]|outer rest inner [[[r changes] stage]|]|d]; try done; cbn [phase_ok].
  - apply disturbed_attempt; [done|done|by left].
  - destruct stage as [| |published|same|stage]; cbn [dirty_stage_ok]; try done.
    + intros Hd g c Hg. intros Hm. apply Hd; [|done]. by apply (ds_snapshots _ _ H).
    + intros Hd Hs g c Hg Hm. rewrite (ds_stores _ _ H). apply Hd; [done| |done]. by apply (ds_snapshots _ _ H).
    + intros [? Ha]. split; [done|]. revert Ha. apply disturbed_attempt; [done|done|by left].
Qed.
Lemma stamp_lookup `{Countable K} (keys : list K) t m k t' : stamp keys t m !! k = Some t' -> k ∈ keys /\ t' = t \/ m !! k = Some t'.
Proof.
  unfold stamp. revert m. induction keys as [|k0 keys IH]; intros m; cbn [foldl]; [by right|].
  intros [[? ?]|Hl]%IH; [left; split; [by right|done]|]. apply lookup_insert_Some in Hl as [[-> <-]|[_ ?]]; [left; split; [by left|done]|by right].
Qed.
Lemma elem_of_in_workspace s roots r : r ∈ in_workspace s roots <-> r ∈ roots /\ r ∈ s.(workspace_roots).
Proof. unfold in_workspace. by rewrite elem_of_filter_bool, bool_decide_eq_true. Qed.

(** A spawn changes the schedule by the request and starts the runner if there is none. *)
Lemma spawn_runner_fields sched s :
  let s' := spawn_runner sched s in
  s'.(workspace_roots) = s.(workspace_roots) /\ s'.(roots_needing_rescan) = s.(roots_needing_rescan) /\ s'.(engine_snapshots) = s.(engine_snapshots) /\
  s'.(stores) = s.(stores) /\ s'.(next_generation) = s.(next_generation) /\ s'.(handlers) = s.(handlers) /\
  (forall r file, pending s'.(index_schedule) r file <-> pending sched r file) /\ (schedule_ok sched -> schedule_ok s'.(index_schedule)).
Proof. unfold spawn_runner. by destruct (running sched || scheduled sched). Qed.
Lemma spawn_runner_one sched s : sched.(running) = s.(index_schedule).(running) -> sched.(scheduled) = s.(index_schedule).(scheduled) ->
  one_runner s -> one_runner (spawn_runner sched s) /\ ((spawn_runner sched s).(runners) = s.(runners) \/ s.(runners) = [] /\ (spawn_runner sched s).(runners) = [Sleeping]).
Proof.
  unfold one_runner, spawn_runner. intros Hr Hs H. rewrite Hr, Hs. destruct s as [sc ro ma sn st ng runs ha]. cbn in *.
  destruct runs as [|phase [|]]; [|destruct H as [H1 H2]|done].
  - destruct H as (-> & -> & _). cbn. split; [done|by right].
  - rewrite H1, H2. destruct phase; cbn in *; rewrite ?Hr, ?Hs, ?H1, ?H2; by (split; [|left]).
Qed.
Definition spawned (sched : IndexScheduleState) (s s' : Server) : Prop :=
  s' = spawn_runner sched s \/ s' = with_schedule sched s /\ sched.(running) = false /\ sched.(scheduled) = false /\ sched.(pending_requested) = false.
Lemma waiting_more s s' r file : s'.(runners) = s.(runners) \/ s.(runners) = [] ->
  (pending s.(index_schedule) r file -> pending s'.(index_schedule) r file) -> waiting s r file -> waiting s' r file.
Proof.
  intros Hr Hp [?|He]; [left; by apply Hp|]. destruct Hr as [E|E]; [right; by rewrite E|]. rewrite E in He. by apply Exists_nil in He.
Qed.
(** A request: what was pending stays pending, what is new is pending. *)
Lemma request_ok w w' sched : world_ok w -> spawned sched w.(server) w'.(server) ->
  sched.(running) = w.(server).(index_schedule).(running) -> sched.(scheduled) = w.(server).(index_schedule).(scheduled) ->
  schedule_ok sched -> (forall r file, pending w.(server).(index_schedule) r file -> pending sched r file) ->
  (forall r file t, counts w' r file t -> pending sched r file \/ counts w r file t) ->
  (forall r file t, requested w' r file t -> r ∈ w.(server).(workspace_roots) /\ (t <= w'.(now))%nat) -> world_ok w'.
Proof.
  intros [H1 H2 H3 H4 H5 H6] Hsp Hr Hs Hok Hmono Hnew Hreq.
  assert (one_runner w'.(server) /\ (w'.(server).(runners) = w.(server).(runners) \/ w.(server).(runners) = [] /\ w'.(server).(runners) = [Sleeping])) as [Hone Hrun].
  { destruct Hsp as [->|(-> & Hn1 & Hn2 & Hn3)]; [by apply spawn_runner_one|]. split; [|by left]. unfold one_runner in *. cbn. rewrite Hn1, Hn2 in *.
    destruct (runners (server w)) as [|phase [|]]; [done| |done]. rewrite <- Hr, <- Hs in H1. destruct H1 as [? E]. by rewrite <- E in *. }
  assert (w'.(server).(workspace_roots) = w.(server).(workspace_roots) /\ w'.(server).(roots_needing_rescan) = w.(server).(roots_needing_rescan) /\
    w'.(server).(engine_snapshots) = w.(server).(engine_snapshots) /\ w'.(server).(stores) = w.(server).(stores) /\ w'.(server).(next_generation) = w.(server).(next_generation) /\
    (forall r file, pending w'.(server).(index_schedule) r file <-> pending sched r file) /\ schedule_ok w'.(server).(index_schedule)) as (Hro & Hma & Hsn & Hst & Hng & Hpe & Hso).
  { destruct Hsp as [->|(-> & _)]; [|done]. destruct (spawn_runner_fields sched (server w)) as (? & ? & ? & ? & ? & _ & ? & ?). split_and!; try done. auto. }
  assert (disturbs w w') as Hd.
  { split.
    - intros r file Hp. apply Hpe. by apply Hmono.
    - intros r file t Hc. rewrite Hpe, Hma, Hsn. destruct (Hnew r file t Hc) as [?|?]; [by left|right]. done.
    - done.
    - intros r g c. by rewrite Hsn. }
  split; [done|done| | | |].
  - rewrite Hro. exact Hreq.
  - unfold generations_ok. rewrite Hsn, Hst, Hng. exact H4.
  - eapply (disturbed_safe w); [done| | |exact H5]; intros r file Hp; [|by left]. eapply waiting_more; [|by apply (ds_pending _ _ Hd)|exact Hp]. tauto.
  - destruct Hrun as [->|[_ ->]]; [|by constructor]. eapply Forall_impl; [exact H6|]. intros phase. by apply disturbed_phase.
Qed.
Lemma note_files_requested changes w r file t : requested (note_files changes w) r file t ->
  requested w r file t \/ t = S w.(now) /\ r ∈ w.(server).(workspace_roots) /\ has_change changes r file.
Proof.
  unfold requested. cbn. intros [?|[[(c & Hc & Hin)%list_elem_of_fmap ->]|?]%stamp_lookup]; [tauto| |tauto]. right.
  apply elem_of_filter_bool in Hin as [Hin Hr%bool_decide_eq_true]. injection Hc as -> ->. split_and!; [done..|]. by exists c.
Qed.
Lemma note_roots_requested roots w r file t : requested (note_roots roots w) r file t -> requested w r file t \/ t = S w.(now) /\ r ∈ roots.
Proof. unfold requested. cbn. intros [[[? ->]|?]%stamp_lookup|?]; tauto. Qed.
Lemma note_roots_counts roots w r file t : counts (note_roots roots w) r file t -> counts w r file t \/ r ∈ roots.
Proof.
  intros [Hr Hn]. destruct (decide (r ∈ roots)) as [?|Hnin]; [by right|left]. apply note_roots_requested in Hr as [?|[_ ?]]; [|done]. split; [done|].
  cbn in Hn. rewrite elem_of_difference, elem_of_list_to_set in Hn. tauto.
Qed.
Lemma changed_files_ok w changes : world_ok w -> world_ok (with_server (spawn_dirty_files changes w.(server)) (note_files changes w)).
Proof.
  intros H. pose proof (request_flags (index_schedule (server w))) as [Hf _]. destruct (Hf changes) as [Hf1 Hf2].
  eapply (request_ok w _ (request_dirty_changes changes w.(server).(index_schedule))); [done|by left|done|done| | | |].
  - apply schedule_ok_dirty, H.
  - intros r file Hp. apply pending_request_dirty. by left.
  - intros r file t [Hr Hn]. cbn in Hn. apply (note_files_requested changes w) in Hr as [?|(_ & _ & Hc)]; [by right|left]. apply pending_request_dirty. by right.
  - intros r file t Hr. apply (note_files_requested changes w) in Hr as [Hr|(-> & Hr & _)]; [|done]. apply (ok_requests _ H) in Hr as [? ?]. split; [done|]. cbn. lia.
Qed.
Definition requested_schedule (roots : option (list PathBuf)) (force : bool) (sched : IndexScheduleState) : IndexScheduleState :=
  match roots with Some roots => request_full_roots roots sched | None => request_all_roots force sched end.
Lemma spawn_index_spawned roots force s : spawned (requested_schedule roots force s.(index_schedule)) s (spawn_index_roots_with_scope roots force s).
Proof.
  unfold spawn_index_roots_with_scope, spawned. fold (requested_schedule roots force (index_schedule s)). destruct (negb _ && negb _ && negb _) eqn:E; [right|by left].
  apply andb_true_iff in E as [[E1%negb_true_iff E2%negb_true_iff]%andb_true_iff E3%negb_true_iff]. done.
Qed.
(** A request of roots, seen from a world [w] whose server may have lost a handler. *)
Lemma index_request_ok w s' roots scope force : world_ok w -> spawned (requested_schedule roots force w.(server).(index_schedule)) w.(server) s' ->
  (forall r, r ∈ scope -> r ∈ w.(server).(workspace_roots) /\ match roots with Some roots => r ∈ roots | None => True end) ->
  world_ok (with_server s' (note_roots scope w)).
Proof.
  intros H Hsp Hscope. set (sched := requested_schedule roots force w.(server).(index_schedule)) in *.
  assert (sched.(running) = w.(server).(index_schedule).(running) /\ sched.(scheduled) = w.(server).(index_schedule).(scheduled)) as [Hf1 Hf2].
  { unfold sched, requested_schedule. destruct roots; [apply request_flags|done]. }
  eapply (request_ok w _ sched); [done|done|done|done| | | |].
  - unfold sched, requested_schedule. destruct roots; [apply schedule_ok_full, H|]. done.
  - intros r file Hp. unfold sched, requested_schedule. destruct roots; [apply pending_request_full; by left|apply pending_request_all].
  - intros r file t Hc. apply (note_roots_counts scope w) in Hc as [?|Hin]; [by right|left]. apply Hscope in Hin as [_ Hin]. unfold sched, requested_schedule.
    destruct roots; [apply pending_request_full; by right|apply pending_request_all].
  - intros r file t Hr. apply (note_roots_requested scope w) in Hr as [Hr|(-> & Hr)]; [|apply Hscope in Hr as [? _]; done]. apply (ok_requests _ H) in Hr as [? ?]. split; [done|]. cbn. lia.
Qed.
(** What only moves the handlers, the workspace, the marks and the snapshots. *)
Lemma disturbs_ok w w' : world_ok w -> disturbs w w' -> w'.(server).(runners) = w.(server).(runners) ->
  w'.(server).(index_schedule) = w.(server).(index_schedule) -> w'.(server).(next_generation) = w.(server).(next_generation) ->
  (forall r g c, w'.(server).(engine_snapshots) !! r = Some (g, c) -> g = MISSING \/ w.(server).(engine_snapshots) !! r = Some (g, c)) ->
  (forall r file t, requested w' r file t -> r ∈ w'.(server).(workspace_roots) /\ (t <= w'.(now))%nat) -> world_ok w'.
Proof.
  intros [H1 H2 H3 (Hg1 & Hg2 & Hg3 & Hg4) H5 H6] Hd Hru Hsc Hng Hsn Hreq. pose proof (ds_stores _ _ Hd) as Hst. split.
  - unfold one_runner. by rewrite Hru, Hsc.
  - by rewrite Hsc.
  - done.
  - unfold generations_ok. rewrite Hng, Hst. split; [done|]. split; [|split; [done|]].
    + intros r g c [->|?]%Hsn; [done|by eapply Hg2].
    + intros r g c c' [->|?]%Hsn Hs; [by apply Hg3 in Hs as [_ ?]|by eapply Hg4].
  - eapply (disturbed_safe w); [done| | |exact H5]; intros r file; unfold waiting; rewrite Hru, Hsc; [done|by left].
  - rewrite Hru. eapply Forall_impl; [exact H6|]. intros phase. by apply disturbed_phase.
Qed.
Lemma folders_ok w removed added w' : world_ok w -> event (Folders removed added) w = Some w' -> world_ok w'.
Proof.
  intros H E. cbn [event] in E. injection E as <-. eapply disturbs_ok; [done|..]; try done.
  - split; try done. intros r file t [Hr Hn]. right. split; [|done]. split; [|exact Hn]. unfold requested in *. cbn in Hr.
    rewrite !map_lookup_filter_Some in Hr. tauto.
  - intros r g c ?. by right.
  - intros r file t Hr. unfold requested in Hr. cbn -[change_folders] in Hr. rewrite !map_lookup_filter_Some in Hr. cbn -[change_folders] in Hr |- *.
    assert (requested w r file t) as Hr' by (unfold requested; tauto). apply (ok_requests _ H) in Hr' as [_ ?]. split; [tauto|done].
Qed.
Lemma empty_snapshot_ok w r : world_ok w -> world_ok (with_server (publish_empty r w.(server)) w).
Proof.
  intros H. unfold publish_empty. destruct (engine_snapshots (server w) !! r) as [[g c]|] eqn:E; [by destruct w|].
  assert (forall r' g c, <[r := (MISSING, mkContent 0 ∅)]> (engine_snapshots (server w)) !! r' = Some (g, c) -> g = MISSING \/ engine_snapshots (server w) !! r' = Some (g, c)) as Hl.
  { intros r' g c [[_ [= <- _]]|[_ ?]]%lookup_insert_Some; tauto. }
  eapply disturbs_ok; [done|..]; try done; [|exact (ok_requests _ H)]. split; try done.
  - intros r' file t Hc. right. split; [done|]. split; [done|]. intros g c Hg _. cbn. rewrite lookup_insert_ne; [done|]. intros ->. congruence.
  - intros r' g c [?|?]%Hl Hg; [done|]. done.
Qed.
Lemma wiped_counts w (removed : list PathBuf) s' r file t : world_ok w ->
  counts (mkWorld s' w.(now) w.(requested_roots) w.(requested_files) (w.(wiped) ∪ list_to_set (in_workspace w.(server) removed))) r file t ->
  counts w r file t /\ r ∉ removed.
Proof.
  intros H [Hr Hn]. cbn in Hn. rewrite elem_of_union, elem_of_list_to_set, elem_of_in_workspace in Hn. pose proof (ok_requests _ H r file t Hr) as [Hw _].
  split; [split; [exact Hr|tauto]|tauto].
Qed.
Lemma handler_ok w i w' : world_ok w -> event (HandlerSteps i) w = Some w' -> world_ok w'.
Proof.
  intros H E. cbn [event] in E. unfold handler_step, wipes, asks_now in E. destruct (handlers (server w) !! i) as [[stage removed asks]|] eqn:Eh; [|done].
  cbn [mbind option_bind handler_stage IndexSchedule.removed IndexSchedule.asks] in E. destruct stage; injection E as <-.
  - eapply disturbs_ok; [done|..]; try done; [|intros r g c ?; by right|intros r file t Hr; by apply (ok_requests _ H r file t)]. split; try done.
    intros r file t [Hc Hn]%wiped_counts; [|done]. right. split; [done|]. cbn. split; [|done]. intros Hm. apply elem_of_difference. by rewrite elem_of_list_to_set.
  - assert (forall r g c, filter (fun kv : PathBuf * (Generation * Content) => kv.1 ∉ removed) (engine_snapshots (server w)) !! r = Some (g, c) <-> engine_snapshots (server w) !! r = Some (g, c) /\ r ∉ removed) as Hf.
    { intros r g c. by rewrite map_lookup_filter_Some. }
    eapply disturbs_ok; [done|..]; try done; [|intros r g c; cbn; rewrite Hf; tauto|intros r file t Hr; by apply (ok_requests _ H r file t)]. split; try done.
    + intros r file t [Hc Hn]%wiped_counts; [|done]. right. split; [done|]. cbn. split; [done|]. intros g c Hg _. by apply Hf.
    + intros r g c Hg _. cbn in Hg. apply Hf in Hg. tauto.
  - set (s0 := with_handlers (take i (handlers (server w)) ++ drop (S i) (handlers (server w))) (server w)).
    assert (world_ok (with_server s0 w)) as H0.
    { eapply disturbs_ok; [done|..]; try done; [|intros r g c ?; by right|exact (ok_requests _ H)]. split; try done. intros r file t Hc. by right. }
    cbn [list_to_set]. rewrite union_empty_r_L. destruct asks; [|exact H0].
    apply (index_request_ok (with_server s0 w) _ None (workspace_roots (server w)) false H0); [apply spawn_index_spawned|]. done.
Qed.
Lemma index_event_ok w roots force w' : world_ok w -> event (IndexRequest roots force) w = Some w' -> world_ok w'.
Proof.
  intros H E. cbn [event] in E. injection E as <-. eapply index_request_ok; [done|apply spawn_index_spawned|]. intros r [Hr ?]%elem_of_in_workspace. by destruct roots.
Qed.

(** *** The runner *)

Lemma reread_since c files n file : since (reread c files n) file = if decide (file ∈ files) then n else since c file.
Proof.
  unfold since, reread. cbn. enough (forall m : gmap string nat, foldl (fun m file => <[file := n]> m) m files !! file = if decide (file ∈ files) then Some n else m !! file) as ->.
  { by case_decide. }
  induction files as [|f files IH]; intros m; cbn [foldl]; [by rewrite decide_False by (by intros ?%elem_of_nil)|]. rewrite IH.
  destruct (decide (file ∈ files)) as [Hin|Hin]; [by rewrite decide_True by (by right)|]. destruct (decide (file = f)) as [->|Hne].
  - by rewrite decide_True, lookup_insert_eq by left.
  - rewrite decide_False by (rewrite elem_of_cons; tauto). by rewrite lookup_insert_ne.
Qed.
(** What a run commits has every file its job or its base covers. *)
Lemma commit_covers s job r began file t : promise s job r (Running began) file t -> store_covers (commit r (indexed_content job r began s) s) r file t.
Proof.
  intros [Ht Hp]. unfold store_covers. cbn. setoid_rewrite lookup_insert_eq. eexists _, _. split; [done|]. destruct job as [|changes]; cbn [indexed_content]; [exact Ht|].
  rewrite reread_since. case_decide as Hd; [done|]. destruct Hp as [(c & Hc & <-)|(_ & g & c & Hs & Hle)].
  - destruct Hd. apply list_elem_of_fmap. by exists c.
  - by rewrite Hs.
Qed.
Lemma commit_generations s r c : generations_ok s -> generations_ok (commit r c s).
Proof.
  intros (H1 & H2 & H3 & H4). unfold generations_ok, commit. cbn. split; [lia|]. split; [intros r' g c' ?%H2; lia|]. split.
  - intros r' g c' [[_ [= <- _]]|[_ [? ?]%H3]]%lookup_insert_Some; [unfold MISSING|]; split; try done; lia.
  - intros r' g c1 c2 Hs [[_ [= <- _]]|[_ ?]]%lookup_insert_Some; [apply H2 in Hs; lia|by eapply H4].
Qed.
Lemma show_generations s r : generations_ok s -> generations_ok (show r s).
Proof.
  intros (H1 & H2 & H3 & H4). unfold show. destruct (stores s !! r) as [[g c]|] eqn:E; [|done]. unfold generations_ok. cbn. split; [done|]. split; [|split; [done|]].
  - intros r' g' c' [[_ [= <- _]]|[_ ?]]%lookup_insert_Some; [by apply H3 in E as [? _]|by eapply H2].
  - intros r' g' c1 c2 [[<- [= <- <-]]|[_ ?]]%lookup_insert_Some Hs; [congruence|by eapply H4].
Qed.
(** What a step of an attempt leaves alone. *)
Definition same_plan (s s' : Server) : Prop :=
  s'.(index_schedule) = s.(index_schedule) /\ s'.(workspace_roots) = s.(workspace_roots) /\ s'.(runners) = s.(runners) /\ s'.(handlers) = s.(handlers).
Lemma attempt_step_plan n job r stage o s a s' : attempt_step n job r stage o s = Some (a, s') -> same_plan s s'.
Proof.
  unfold attempt_step, show, same_plan. intros E. destruct stage, o as [|[]|[]|[] []|[] []|]; try done; injection E as <- <-; try done; cbn; by repeat case_match.
Qed.
Lemma attempt_step_generations n job r stage o s a s' : attempt_step n job r stage o s = Some (a, s') -> generations_ok s -> generations_ok s'.
Proof.
  intros E H. pose proof (show_generations s r H). destruct stage, o as [|[]|[]|[] []|[] []|]; try done; injection E as <- <-; try done; try by apply commit_generations.
  destruct H as (H1 & H2 & H3 & H4). unfold generations_ok. cbn. split; [done|]. split; [|split; [done|]].
  - intros r' g c [_ ?]%lookup_delete_Some. by eapply H2.
  - intros r' g c c' [_ ?]%lookup_delete_Some. by apply H4.
Qed.
(** Other roots are not touched. *)
Lemma attempt_step_others n job r stage o s a s' r' : attempt_step n job r stage o s = Some (a, s') -> r' <> r ->
  (r' ∈ s'.(roots_needing_rescan) <-> r' ∈ s.(roots_needing_rescan)) /\ s'.(engine_snapshots) !! r' = s.(engine_snapshots) !! r' /\ s'.(stores) !! r' = s.(stores) !! r'.
Proof.
  intros E Hne. assert (engine_snapshots (show r s) !! r' = engine_snapshots s !! r' /\ stores (show r s) = stores s /\ roots_needing_rescan (show r s) = roots_needing_rescan s) as (H1 & H2 & H3).
  { unfold show. destruct (stores s !! r) as [[g c]|]; [|done]. cbn. by rewrite lookup_insert_ne. }
  destruct stage, o as [|[]|[]|[] []|[] []|]; try done; injection E as <- <-; cbn [orb with_marks with_snapshots roots_needing_rescan engine_snapshots stores commit];
    rewrite ?H1, ?H2, ?H3, ?elem_of_union, ?elem_of_difference, ?elem_of_singleton, ?lookup_insert_ne, ?lookup_delete_ne by done; split_and!; tauto.
Qed.
(** What is published has what the store has. *)
Lemma show_covers s r file t : generations_ok s -> store_covers s r file t -> covered (show r s) r file t.
Proof.
  intros (_ & _ & Hst & _) (g & c & E & Hle). unfold covered, show. rewrite E. cbn. exists g, c. rewrite lookup_insert_eq. by apply Hst in E as [_ ?].
Qed.
Definition with_current (W : PathBuf -> string -> Prop) (root : PathBuf) (job : Job) (stage : Stage) (r : PathBuf) (file : string) : Prop :=
  W r file \/ (r = root /\ unmarked stage /\ job_covers job file).
(** A step keeps the requests safe and the stage's promise for the root. *)
Lemma attempt_step_safe w W root job stage o a s' : world_ok w -> stage <> Forcing ->
  safe w (with_current W root job stage) -> attempt_ok w W root job stage ->
  attempt_step w.(now) job root stage o w.(server) = Some (a, s') -> safe (with_server s' w) W.
Proof.
  intros H Hne Hs Ha E r file t Hc. destruct (Hs r file t Hc) as [[?|(-> & Hu & Hj)]|Hm].
  - by left.
  - right. left. destruct stage, o; try done. injection E as <- <-. cbn. set_solver.
  - destruct (decide (r = root)) as [->|Hr].
    + specialize (Ha file t Hc). change (counts w root file t) in Hc.
      pose proof (show_covers _ root file t (ok_generations _ H)) as Hshow.
      destruct stage, o as [|[]|[]|[] []|[] []|]; try done; injection E as <- <-; cbn [orb promise] in *; try (right; exact Hm); try tauto.
      right. destruct Hm as [Hm|Hm]; [left; cbn; set_solver|by right].
    + right. destruct (attempt_step_others _ _ _ _ _ _ _ _ r E Hr) as (H1 & H2 & _). cbn. unfold covered. rewrite H1, H2. exact Hm.
Qed.
Lemma attempt_step_next w W root job stage o stage' s' : world_ok w -> attempt_ok w W root job stage ->
  attempt_step w.(now) job root stage o w.(server) = Some (Next stage', s') -> attempt_ok (with_server s' w) W root job stage' /\ ~ unmarked stage'.
Proof.
  intros H Ha E. pose proof (ok_generations _ H) as Hg. split.
  - intros file t Hc. specialize (Ha file t Hc). pose proof (ok_requests _ H root file t (proj1 Hc)) as [Hw Ht].
    destruct stage, o as [|[]|[]|[] []|[] []|]; try done; cbn in E; repeat case_match; simplify_eq; cbn [orb promise server with_server] in *; try exact Ha; try tauto.
    + destruct Ha as [?|Ha]; [by left|right]. split; [done|]. destruct Ha as [?|?]; [by left|]. destruct job; [by left|by right].
    + destruct Ha as [?|Ha]; [by left|right]. by apply commit_covers.
    + destruct Ha as [?|Ha]; [by left|right]. by apply commit_covers.
    + destruct Ha as [?|Ha]; [by left|right]. by apply show_covers.
    + destruct Ha as [?|Ha]; [by left|right]. by apply show_covers.
    + by case_bool_decide.
  - destruct stage, o as [|[]|[]|[] []|[] []|]; try done; cbn in E; repeat case_match; simplify_eq; auto.
Qed.
Lemma latest_by_file_lookup changes k c : latest_by_file changes !! k = Some c -> k = (c.(root), c.(rel_path)).
Proof.
  unfold latest_by_file. revert k c. induction changes as [|d changes IH] using rev_ind; intros k c; [cbn [foldl]; by rewrite lookup_empty|].
  rewrite foldl_app. cbn [foldl]. intros [[<- <-]|[_ ?]]%lookup_insert_Some; [done|by apply IH].
Qed.
Lemma latest_by_file_has changes r file : has_change changes r file -> is_Some (latest_by_file changes !! (r, file)).
Proof.
  unfold latest_by_file. induction changes as [|d changes IH] using rev_ind; [by intros ?%has_change_nil|]. rewrite foldl_app. cbn [foldl].
  destruct (decide ((root d, rel_path d) = (r, file))) as [->|Hne]; [rewrite lookup_insert_eq; by eexists|]. rewrite lookup_insert_ne by done.
  rewrite has_change_app. intros [?|(c & ->%list_elem_of_singleton & Hr & Hf)]; [by apply IH|]. by rewrite Hr, Hf in Hne.
Qed.
Lemma grouped_by_root changes r file : has_change changes r file -> grouped (by_root changes) r file.
Proof.
  intros [c Hc]%latest_by_file_has. pose proof (latest_by_file_lookup _ _ _ Hc) as [= Hr Hf]. exists c. split; [|done].
  apply elem_of_map_to_list in Hc. unfold by_root. revert Hc. generalize (map_to_list (latest_by_file changes)). intros l.
  induction l as [|[k d] l IH] using rev_ind; [by intros ?%elem_of_nil|]. rewrite elem_of_app, foldl_app. cbn [foldl snd]. rewrite push_map_lookup.
  intros [?|[= <- <-]%list_elem_of_singleton].
  - case_decide as E; [apply elem_of_app; left; rewrite <- E; by apply IH|by apply IH].
  - rewrite decide_True by done. apply elem_of_app. right. by left.
Qed.

(** What the runner has besides the current root, and with it. *)
Definition plan (w : World) (phase : Phase) (r : PathBuf) (file : string) : Prop := pending w.(server).(index_schedule) r file \/ others phase r file.
Lemma waiting_one s phase r file : s.(runners) = [phase] -> waiting s r file <-> pending s.(index_schedule) r file \/ others phase r file \/ current_work phase r file.
Proof. intros E. unfold waiting. rewrite E, Exists_cons, Exists_nil. tauto. Qed.
(** A step of the runner that leaves schedule and workspace alone. *)
Lemma runner_moves w phase phase' s' : world_ok w -> w.(server).(runners) = [phase] -> is_sleeping phase' = is_sleeping phase ->
  same_plan w.(server) s' -> generations_ok s' ->
  safe (with_server s' w) (fun r file => plan w phase' r file \/ current_work phase' r file) -> phase_ok (with_server s' w) phase' ->
  world_ok (with_server (with_runners [phase'] s') w).
Proof.
  intros [H1 H2 H3 H4 H5 H6] Hr Hsl (Hsc & Hro & _ & _) Hg Hs Hp. split.
  - unfold one_runner in *. rewrite Hr in H1. cbn [server with_server with_runners runners index_schedule]. by rewrite Hsc, Hsl.
  - cbn. by rewrite Hsc.
  - cbn. rewrite Hro. exact H3.
  - exact Hg.
  - intros r file t Hc. destruct (Hs r file t Hc) as [Hw|Hw]; [left|by right]. rewrite (waiting_one _ phase') by done. unfold plan in Hw. cbn. rewrite Hsc. tauto.
  - constructor; [|done]. exact Hp.
Qed.
Lemma runner_turns w phase phase' : world_ok w -> w.(server).(runners) = [phase] -> is_sleeping phase' = is_sleeping phase ->
  (forall r file, r ∈ w.(server).(workspace_roots) -> others phase r file \/ current_work phase r file -> others phase' r file \/ current_work phase' r file) ->
  phase_ok w phase' -> world_ok (with_server (with_runners [phase'] w.(server)) w).
Proof.
  intros H Hr Hsl Hw Hp. eapply runner_moves; [done|done|done|done|apply H| |by destruct w]. intros r file t Hc.
  pose proof (ok_requests _ H r file t (proj1 Hc)) as [Hin _]. destruct (ok_safe _ H r file t Hc) as [Hwait|?]; [left|by right].
  rewrite (waiting_one _ phase) in Hwait by done. unfold plan. specialize (Hw r file Hin). tauto.
Qed.
(** A step of the attempt on a root. *)
Lemma runner_attempts w phase root job stage o a s' phase' : world_ok w -> w.(server).(runners) = [phase] -> is_sleeping phase' = is_sleeping phase -> stage <> Forcing ->
  attempt_step w.(now) job root stage o w.(server) = Some (a, s') ->
  (forall r file, current_work phase r file -> r = root /\ unmarked stage /\ job_covers job file) ->
  attempt_ok w (plan w phase) root job stage -> (forall r file, others phase r file -> others phase' r file) ->
  (attempt_ok (with_server s' w) (fun r file => pending s'.(index_schedule) r file \/ others phase r file) root job (match a with Next stage => stage | _ => Checking end) -> phase_ok (with_server s' w) phase') ->
  world_ok (with_server (with_runners [phase'] s') w).
Proof.
  intros H Hr Hsl Hne E Hcw Ha Hmono Hp. eapply runner_moves; [done|done|done|by eapply attempt_step_plan|eapply attempt_step_generations; [done|apply H]| |].
  - assert (safe w (with_current (plan w phase) root job stage)) as Hs.
    { intros r file t Hc. destruct (ok_safe _ H r file t Hc) as [Hwait|?]; [left|by right]. rewrite (waiting_one _ phase) in Hwait by done. unfold with_current, plan.
      specialize (Hcw r file). tauto. }
    pose proof (attempt_step_safe w _ root job stage o a s' H Hne Hs Ha E) as Hs'. intros r file t Hc. destruct (Hs' r file t Hc) as [Hw|?]; [left; left|by right].
    unfold plan in *. specialize (Hmono r file). tauto.
  - apply Hp. destruct (attempt_step_plan _ _ _ _ _ _ _ _ E) as [-> _]. destruct a as [stage'| |]; [|intros file t _; by right..]. by eapply attempt_step_next.
Qed.
Lemma sleeping_ok w phase' s' o : world_ok w -> w.(server).(runners) = [Sleeping] ->
  runner_step w.(now) o Sleeping w.(server) = Some (Some phase', s') -> world_ok (with_server (with_runners [phase'] s') w).
Proof.
  intros H Hr E. cbn [runner_step] in E. destruct o; try done. set (sched := set_running true false (index_schedule (server w))) in E.
  pose proof (take_takes sched) as Ht. pose proof (take_schedule_ok sched) as Hok. pose proof (take_flags sched) as [Hf1 Hf2].
  destruct (take_scheduled_index sched) as [work sched']. cbn [fst snd] in *. injection E as <- <-.
  destruct H as [H1 H2 H3 H4 H5 H6]. split; try done.
  - intros r file t Hc. destruct (H5 r file t Hc) as [Hw|?]; [left|by right]. rewrite (waiting_one _ Sleeping) in Hw by done.
    rewrite (waiting_one _ (Took work)) by done. right. left. cbn [others]. apply Ht. by destruct Hw as [?|[[]|[]]].
  - by constructor.
Qed.
Lemma finishing_ok w d o phase' s' : world_ok w -> w.(server).(runners) = [Finishing d] ->
  runner_step w.(now) o (Finishing d) w.(server) = Some (phase', s') -> world_ok (with_server (with_runners (match phase' with Some p => [p] | None => [] end) s') w).
Proof.
  intros H Hr E. cbn [runner_step] in E. destruct o; try done. set (sched1 := request_full_roots_with_force _ _ _) in E. set (sched := request_dirty_changes _ sched1) in E.
  assert (forall r file, pending (index_schedule (server w)) r file \/ kept d r file -> pending sched r file) as Hp.
  { intros r file Hw. apply pending_request_dirty. destruct Hw as [?|[?|?]]; [left; apply pending_request_full; by left|left; apply pending_request_full; by right|by right]. }
  assert (schedule_ok sched) as Hok by (apply schedule_ok_dirty, schedule_ok_full, H).
  destruct (request_flags (index_schedule (server w))) as [_ Hf]. destruct (Hf d.(full_roots) d.(force_full)) as [Hf1 Hf2]. fold sched1 in Hf1, Hf2.
  destruct (request_flags sched1) as [Hd _]. destruct (Hd d.(dirty_changes)) as [Hd1 Hd2]. fold sched in Hd1, Hd2. clearbody sched. clearbody sched1. clear Hf Hd Hf1 Hd1.
  pose proof H as [H1 H2 H3 H4 H5 H6]. unfold one_runner in H1. rewrite Hr in H1. destruct H1 as [_ Hsl]. cbn in Hsl.
  assert (forall r file t, counts w r file t -> pending sched r file \/ r ∈ roots_needing_rescan (server w) \/ covered (server w) r file t) as Hs.
  { intros r file t Hc. destruct (H5 r file t Hc) as [Hw|?]; [left|by right]. rewrite (waiting_one _ (Finishing d)) in Hw by done. apply Hp. cbn in Hw. tauto. }
  destruct (pending_requested sched) eqn:Ep; injection E as <- <-; (split; try done).
  - intros r file t Hc. destruct (Hs r file t Hc) as [?|?]; [left; by left|by right].
  - by constructor.
  - cbn. rewrite Hd2, Hf2, Hsl. done.
  - intros r file t Hc. destruct (Hs r file t Hc) as [?|?]; [left; by left|by right].
Qed.
Lemma took_ok w work o phase' s' : world_ok w -> w.(server).(runners) = [Took work] ->
  runner_step w.(now) o (Took work) w.(server) = Some (Some phase', s') -> world_ok (with_server (with_runners [phase'] s') w).
Proof.
  intros H Hr E. cbn [runner_step] in E. destruct o; try done. injection E as <- <-. apply (runner_turns _ (Took work)); [done|done|..].
  - destruct work as [[roots|] force changes|changes]; try done. by destruct (is_empty changes).
  - intros r file Hin [Hw|[]]. destruct work as [roots force changes|changes]; cbn [others taken called] in *.
    + left. destruct roots as [roots|]; [|by left]. destruct Hw as [?|?]; [left|by right; right]. by rewrite elem_of_filter_bool, bool_decide_eq_true.
    + destruct changes as [|c changes]; [by apply has_change_nil in Hw|]. cbn [is_empty index_dirty others]. left. right. left. by apply grouped_by_root.
  - destruct work as [roots force changes|changes]; [done|]. by destruct (is_empty changes).
Qed.
Lemma full_turns_ok w k force todo deferred o phase' s' : world_ok w -> w.(server).(runners) = [InFull k force todo deferred None] ->
  runner_step w.(now) o (InFull k force todo deferred None) w.(server) = Some (Some phase', s') -> world_ok (with_server (with_runners [phase'] s') w).
Proof.
  intros H Hr E. cbn [runner_step] in E. destruct o, todo as [|r0 todo]; try done; injection E as <- <-; apply (runner_turns _ _ _ H Hr).
  - destruct k as [f changes|]; [|done]. cbn. by destruct (is_empty changes).
  - intros r file _ [[?%elem_of_nil|[Hd|Hk]]|[]]; [done|left..].
    + destruct k as [f changes|outer rest inner]; cbn [after_full]; [destruct (is_empty changes); [by left|left; by left]|]. right. right. left. cbn. apply elem_of_app. by right.
    + destruct k as [f changes|outer rest inner]; cbn [after_full called] in *.
      * destruct changes as [|c changes]; [by apply has_change_nil in Hk|]. cbn [is_empty index_dirty others]. right. left. by apply grouped_by_root.
      * cbn [others]. unfold kept in *. cbn. rewrite elem_of_app. tauto.
  - destruct k as [f changes|]; [|done]. cbn. by destruct (is_empty changes).
  - done.
  - intros r file _ [[Hin|?]|[]]; [|left; by right]. apply elem_of_cons in Hin as [->|?]; [right; by split|left; by left].
  - intros file t _. right. by left.
Qed.
Lemma full_attempt_ok w k force todo deferred root forced stage o phase' s' : world_ok w -> w.(server).(runners) = [InFull k force todo deferred (Some (root, forced, stage))] ->
  runner_step w.(now) o (InFull k force todo deferred (Some (root, forced, stage))) w.(server) = Some (Some phase', s') -> world_ok (with_server (with_runners [phase'] s') w).
Proof.
  intros H Hr E. pose proof (ok_phases _ H) as Hph. rewrite Hr in Hph. apply Forall_cons in Hph as [Hph _]. cbn [phase_ok] in Hph. destruct (decide (stage = Forcing)) as [->|Hne].
  { cbn [runner_step] in E. destruct o; try done. injection E as <- <-. apply (runner_turns _ _ _ H Hr); [done|by intros r file _ [?|?]; [left|right]|].
    intros file t _. right. by left. }
  assert (('(a, s1) ← attempt_step (now w) FullJob root stage o (server w);
    Some (Some match a with Next stage => InFull k force todo deferred (Some (root, forced, stage)) | Done => InFull k force todo deferred None
      | Retry => InFull k force todo (deferred ++ [root]) None end, s1)) = Some (Some phase', s')) as E' by (by destruct stage).
  clear E. apply bind_Some in E' as ([a s1] & Ea & E). injection E as <- <-. eapply (runner_attempts w _ root FullJob stage o a); [done|exact Hr|by destruct a|done|done| |exact Hph| |].
  - intros r file [-> ?]. done.
  - intros r file. destruct a as [| |]; cbn [others]; [done|done|]. rewrite elem_of_app. tauto.
  - by destruct a.
Qed.
Lemma dirty_turns_ok w outer rest inner o phase' s' : world_ok w -> w.(server).(runners) = [InDirty outer rest inner None] ->
  runner_step w.(now) o (InDirty outer rest inner None) w.(server) = Some (Some phase', s') -> world_ok (with_server (with_runners [phase'] s') w).
Proof.
  intros H Hr E. cbn [runner_step] in E. destruct o as [| | | | |root]; try done.
  - case_bool_decide as Er; [|done]. injection E as <- <-. apply (runner_turns _ _ _ H Hr); [done| |done]. intros r file _ [Hw|[]]. left. cbn [others] in *. subst rest.
    unfold kept in *. cbn. rewrite elem_of_app, has_change_app. destruct Hw as [Hw|[Hw|Hw]]; [tauto| |tauto]. unfold grouped in Hw. rewrite lookup_empty in Hw. by apply has_change_nil in Hw.
  - apply bind_Some in E as (changes & Ec & E). injection E as <- <-. apply (runner_turns _ _ _ H Hr); [done| |done]. intros r file _ [Hw|[]]. cbn [others current_work].
    destruct Hw as [?|[Hw|?]]; [left; by left| |left; right; by right]. unfold grouped in *. destruct (decide (r = root)) as [->|Hne].
    + right. rewrite Ec in Hw. destruct Hw as (c & ? & ? & ?). split_and!; [done|done|]. by exists c.
    + left. right. left. by rewrite lookup_delete_ne.
Qed.
Lemma dirty_attempt_ok w outer rest inner root changes stage o phase' s' : world_ok w -> w.(server).(runners) = [InDirty outer rest inner (Some (root, changes, At stage))] ->
  runner_step w.(now) o (InDirty outer rest inner (Some (root, changes, At stage))) w.(server) = Some (Some phase', s') -> world_ok (with_server (with_runners [phase'] s') w).
Proof.
  intros H Hr E. pose proof (ok_phases _ H) as Hph. rewrite Hr in Hph. apply Forall_cons in Hph as [Hph _]. cbn [phase_ok dirty_stage_ok] in Hph. destruct Hph as [Hnf Hph].
  cbn [runner_step] in E. apply bind_Some in E as ([a s1] & Ea & E). injection E as <- <-.
  eapply (runner_attempts w _ root (DirtyJob changes) stage o a); [done|exact Hr|by destruct a|done|done| |exact Hph| |].
  - intros r file (-> & ? & ?). done.
  - intros r file. destruct a as [| |]; cbn [others]; [done|done|]. unfold kept. cbn. rewrite has_change_app. tauto.
  - destruct a as [stage'| |]; [|done..]. intros Ha. split; [|exact Ha]. intros ->. by eapply (attempt_step_next w _ root (DirtyJob changes)) in Ea as [_ []].
Qed.
Lemma dirty_stages_ok w outer rest inner root changes stage o phase' s' : world_ok w -> w.(server).(runners) = [InDirty outer rest inner (Some (root, changes, stage))] ->
  (forall stage', stage <> At stage') -> runner_step w.(now) o (InDirty outer rest inner (Some (root, changes, stage))) w.(server) = Some (Some phase', s') ->
  world_ok (with_server (with_runners [phase'] s') w).
Proof.
  intros H Hr Hna E. pose proof (ok_phases _ H) as Hph. rewrite Hr in Hph. apply Forall_cons in Hph as [Hph _]. cbn [phase_ok dirty_stage_ok] in Hph.
  destruct stage as [| |published|same|stage]; [..|by destruct (Hna stage)]; destruct o; cbn [runner_step] in E; try done; injection E as <- <-.
  - apply (runner_turns _ _ _ H Hr); [done| |by case_bool_decide]. intros r file Hin [?|(-> & ? & ?)]; [by left|]. rewrite bool_decide_true by done. by right.
  - apply (runner_turns _ _ _ H Hr); [done| |]; [by intros r file _ [?|?]; [left|right]|]. intros g c Hg _. exact Hg.
  - apply (runner_turns _ _ _ H Hr); [done| |]; [by intros r file _ [?|?]; [left|right]|]. intros Hs g c Hg Hm. cbn [dirty_stage_ok] in Hph. rewrite (Hph g c Hg Hm) in Hs.
    unfold same_generation in Hs. destruct (stores (server w) !! root) as [[g' c']|] eqn:Est; [|done]. apply andb_true_iff in Hs as [_ ->%Nat.eqb_eq].
    destruct (ok_generations _ H) as (_ & _ & _ & Hsame). by rewrite (Hsame _ _ _ _ Hg Est).
  - destruct (negb _ && same) eqn:Em.
    + apply andb_true_iff in Em as [Em%negb_true_iff%bool_decide_eq_false ->]. apply (runner_turns _ _ _ H Hr); [done| |].
      * intros r file _ [?|(-> & _ & ?)]; [by left|right]. by split_and!.
      * split; [done|]. intros file t Hc. destruct (ok_safe _ H root file t Hc) as [Hw|[?|(g & c & Hg & Hm & Hle)]]; [|done|].
        { rewrite (waiting_one _ _ _ _ Hr) in Hw. destruct Hw as [?|[?|(_ & _ & ?)]]; [left; by left|left; by right|right; by left]. }
        right. right. exists g, c. split; [|done]. by apply Hph.
    + apply (runner_turns _ _ _ H Hr); [done| |done]. intros r file _ [?|(-> & _ & ?)]; left; cbn [others called]; [tauto|]. left. by left.
Qed.
Lemma runner_world w i phase o phase' s' : world_ok w -> w.(server).(runners) !! i = Some phase -> runner_step w.(now) o phase w.(server) = Some (phase', s') ->
  i = 0 /\ w.(server).(runners) = [phase] /\ s'.(runners) = [phase].
Proof.
  intros H Hi E. pose proof (ok_runner _ H) as Hone. unfold one_runner in Hone. destruct (runners (server w)) as [|p [|]] eqn:Er; [done| |done].
  destruct i as [|i]; [|done]. cbn in Hi. injection Hi as ->. split; [done|]. split; [done|]. rewrite <- Er. destruct phase as [|work|k force todo deferred [[[r forced] stage]|]|outer rest inner [[[r changes] stage]|]|d]; cbn [runner_step] in E.
  - destruct o; try done. destruct (take_scheduled_index _). by injection E as <- <-.
  - destruct o; try done. by injection E as <- <-.
  - assert (s' = server w \/ exists a, attempt_step (now w) FullJob r stage o (server w) = Some (a, s')) as [->|[a Ha]]; [|done|by apply attempt_step_plan in Ha as (_ & _ & ? & _)].
    destruct stage; [destruct o; try done; injection E as <- <-; by left|..]; apply bind_Some in E as ([a s1] & Ea & E); injection E as <- <-; right; by exists a.
  - destruct o, todo; try done; by injection E as <- <-.
  - destruct stage as [| |published|same|stage]; [destruct o; try done; by injection E as <- <-..|].
    apply bind_Some in E as ([a s1] & Ea & E). injection E as <- <-. by apply attempt_step_plan in Ea as (_ & _ & ? & _).
  - destruct o; try done; [case_bool_decide; [|done]; by injection E as <- <-|]. apply bind_Some in E as (changes & _ & E). by injection E as <- <-.
  - destruct o; try done. by destruct (pending_requested _); injection E as <- <-.
Qed.
Lemma runner_stops n o phase s s' : runner_step n o phase s = Some (None, s') -> exists d, phase = Finishing d.
Proof.
  intros E. destruct phase as [|work|k force todo deferred [[[r forced] stage]|]|outer rest inner [[[r changes] stage]|]|d]; [..|by exists d]; exfalso; cbn [runner_step] in E.
  - destruct o; try done. by destruct (take_scheduled_index _).
  - by destruct o.
  - destruct stage; [by destruct o|..]; by apply bind_Some in E as ([a s1] & _ & E).
  - by destruct o, todo.
  - destruct stage; [by destruct o..|]. by apply bind_Some in E as ([a s1] & _ & E).
  - destruct o; try done; [by case_bool_decide|]. by apply bind_Some in E as (changes & _ & E).
Qed.
Lemma runner_ok w i o w' : world_ok w -> event (RunnerSteps i o) w = Some w' -> world_ok w'.
Proof.
  intros H E. cbn [event] in E. apply bind_Some in E as (phase & Hi & E). apply bind_Some in E as ([phase' s'] & Es & E). injection E as <-.
  destruct (runner_world w i phase o phase' s' H Hi Es) as (-> & Hr & Hr'). rewrite Hr'.
  clear Hi. destruct phase' as [p|]; cbn [insert list_insert].
  - destruct phase as [|work|k force todo deferred [[[r forced] stage]|]|outer rest inner [[[r changes] stage]|]|d].
    + by eapply sleeping_ok.
    + by eapply took_ok.
    + by eapply full_attempt_ok.
    + by eapply full_turns_ok.
    + destruct stage as [| |published|same|stage]; [by eapply dirty_stages_ok..|by eapply dirty_attempt_ok].
    + by eapply dirty_turns_ok.
    + by eapply (finishing_ok w d o (Some p)).
  - destruct (runner_stops _ _ _ _ _ Es) as [d ->]. by eapply (finishing_ok w d o None).
Qed.
Lemma start_ok roots : world_ok (start roots).
Proof.
  split; try done.
  - intros r file t [H|H]; cbn in H; by rewrite lookup_empty in H.
  - split; [cbn; lia|]. split; [|split]; intros r g c; cbn; by rewrite lookup_empty.
  - intros r file t [[H|H] _]; cbn in H; by rewrite lookup_empty in H.
Qed.
Lemma event_ok e w w' : world_ok w -> event e w = Some w' -> world_ok w'.
Proof.
  intros H E. destruct e as [changes|roots force|removed added|i|root|i o].
  - cbn [event] in E. injection E as <-. by apply changed_files_ok.
  - by eapply index_event_ok.
  - by eapply folders_ok.
  - by eapply handler_ok.
  - cbn [event] in E. injection E as <-. by apply empty_snapshot_ok.
  - by eapply runner_ok.
Qed.
Lemma reachable_ok w : reachable w -> world_ok w.
Proof. induction 1 as [roots|w e w' _ IH E]; [apply start_ok|by eapply event_ok]. Qed.
Fixpoint run (events : list Event) (w : World) : option World :=
  match events with [] => Some w | e :: events => w ← event e w; run events w end.
Lemma run_reachable events : forall w w', reachable w -> run events w = Some w' -> reachable w'.
Proof.
  induction events as [|e events IH]; intros w w' H; cbn [run]; [by intros [= <-]|]. intros (w1 & E & Hr)%bind_Some. eapply IH; [|done]. by econstructor.
Qed.

(** *** A pass ends *)

Definition stage_left (stage : Stage) : nat :=
  match stage with
  | Forcing => 11 | Marking => 10 | Acquiring => 9 | Reserving => 8 | Starting => 7 | Running _ => 6
  | Publishing => 5 | Unmarking => 4 | Checking => 3 | RemovingMarks => 2 | RemovingSnapshots => 1
  end.
Definition dirty_stage_left (stage : DirtyStage) : nat :=
  match stage with Rooting => 20 | Snapshotting => 19 | Comparing _ => 18 | Deciding _ => 17 | At stage => stage_left stage end.
(** How many steps a pass has left at most; what a pass takes depends on the workspace only
    at its first step. *)
Definition dirty_left (rest : gmap PathBuf (list RootDirtyChange)) : nat := 22 * size rest + 2.
Definition caller_left (caller : Caller) : nat :=
  match caller with Scheduled _ changes => S (dirty_left (by_root changes)) | Redirected _ rest _ => dirty_left rest end.
Definition moving_left (phase : Phase) : nat :=
  match phase with
  | Sleeping | Took _ => 0
  | InFull caller _ todo _ current =>
      13 * length todo + S (caller_left caller) + match current with Some (_, _, stage) => stage_left stage | None => 0 end
  | InDirty _ rest _ current => dirty_left rest + match current with Some (_, _, stage) => dirty_stage_left stage | None => 0 end
  | Finishing _ => 1
  end.
Definition left (s : Server) (phase : Phase) : nat :=
  match phase with
  | Took (ScheduledFull None _ changes) => 13 * length s.(workspace_roots) + S (S (caller_left (Scheduled false changes)))
  | Took (ScheduledFull (Some roots) _ changes) => 13 * length roots + S (S (caller_left (Scheduled false changes)))
  | Took (ScheduledDirty changes) => S (caller_left (Scheduled false changes))
  | phase => moving_left phase
  end.
Lemma attempt_step_left n job r stage o s stage' s' : attempt_step n job r stage o s = Some (Next stage', s') -> (stage_left stage' < stage_left stage)%nat.
Proof. intros E. destruct stage, o as [|[]|[]|[] []|[] []|]; try done; cbn in E; repeat case_match; simplify_eq; cbn; lia. Qed.
Lemma stage_left_pos stage : (0 < stage_left stage)%nat.
Proof. destruct stage; cbn; lia. Qed.
Lemma in_workspace_length s roots : (length (List.filter (fun r => bool_decide (r ∈ s.(workspace_roots))) roots) <= length roots)%nat.
Proof. apply sublist_length, list_filter_bool_sublist. Qed.
Lemma runner_step_left n o phase phase' s s' : phase <> Sleeping -> runner_step n o phase s = Some (Some phase', s') ->
  phase' = Sleeping \/ (left s' phase' < left s phase)%nat.
Proof.
  intros Hns E. destruct phase as [|work|k force todo deferred [[[r forced] stage]|]|outer rest inner [[[r changes] stage]|]|d]; [done|cbn [runner_step] in E..].
  - right. destruct o; try done. injection E as <- <-. destruct work as [[roots|] force changes|changes]; cbn [left moving_left caller_left].
    + pose proof (in_workspace_length s roots). lia.
    + lia.
    + destruct (is_empty changes); unfold dirty_left; cbn; unfold dirty_left; lia.
  - right. pose proof (stage_left_pos stage) as Hpos. destruct (decide (stage = Forcing)) as [->|Hne]; [destruct o; try done; injection E as <- <-; cbn; lia|].
    assert ((('(a, s1) ← attempt_step n FullJob r stage o s;
      Some (Some match a with Next stage => InFull k force todo deferred (Some (r, forced, stage)) | Done => InFull k force todo deferred None
        | Retry => InFull k force todo (deferred ++ [r]) None end, s1))) = Some (Some phase', s')) as E' by (by destruct stage).
    clear E. apply bind_Some in E' as ([a s1] & Ea & E). injection E as <- <-. destruct a as [stage'| |]; cbn [left moving_left]; [apply attempt_step_left in Ea; lia|lia..].
  - right. destruct o, todo as [|r0 todo]; try done; injection E as <- <-; cbn [left moving_left length stage_left]; [|lia].
    destruct k as [f changes|outer rest inner]; cbn [after_full caller_left]; [|cbn; lia]. destruct (is_empty changes); unfold dirty_left; cbn; unfold dirty_left; lia.
  - right. destruct stage as [| |published|same|stage]; [destruct o; try done; injection E as <- <-..|].
    + case_bool_decide; cbn; lia.
    + cbn; lia.
    + cbn; lia.
    + destruct (negb _ && same); cbn; lia.
    + pose proof (stage_left_pos stage) as Hpos. apply bind_Some in E as ([a s1] & Ea & E). injection E as <- <-.
      destruct a as [stage'| |]; cbn [left moving_left dirty_stage_left]; [apply attempt_step_left in Ea; lia|lia..].
  - right. destruct o; try done; [case_bool_decide; [|done]; injection E as <- <-; subst; cbn; lia|]. apply bind_Some in E as (changes & Hc & E). injection E as <- <-.
    cbn [left moving_left dirty_stage_left]. unfold dirty_left. rewrite map_size_delete_Some by (by eexists).
    assert (size rest <> 0) by (intros H0%map_size_empty_inv; subst; by rewrite lookup_empty in Hc). lia.
  - left. destruct o; try done. destruct (pending_requested _); [by injection E as <- _|done].
Qed.
Lemma attempt_step_enabled n job r stage s : stage <> Forcing -> exists o, is_Some (attempt_step n job r stage o s).
Proof.
  intros H. destruct stage; try done; first [by exists Proceed; eexists | by exists (Acquired (Ok tt)); eexists | by exists (Reserved (Ok tt)); eexists
    | by exists (Indexed true true); eexists | by exists (Published true true); eexists].
Qed.
Lemma runner_step_enabled w phase : phase_ok w phase -> exists o, is_Some (runner_step w.(now) o phase w.(server)).
Proof.
  set (n := now w). set (s := server w).
  destruct phase as [|work|k force todo deferred [[[r forced] stage]|]|outer rest inner [[[r changes] stage]|]|d]; intros Hph.
  - exists Proceed. cbn. destruct (take_scheduled_index _). by eexists.
  - exists Proceed. by eexists.
  - destruct (decide (stage = Forcing)) as [->|Hne]; [exists Proceed; by eexists|]. destruct (attempt_step_enabled n FullJob r stage s Hne) as (o & [a s1] & E). exists o.
    cbn [runner_step]. destruct stage; try done; rewrite E; by eexists.
  - exists Proceed. destruct todo; by eexists.
  - destruct stage as [| |published|same|stage]; [exists Proceed; by eexists..|]. destruct Hph as [Hne _].
    destruct (attempt_step_enabled n (DirtyJob changes) r stage s Hne) as (o & [a s1] & E). exists o. cbn [runner_step]. rewrite E. by eexists.
  - destruct (decide (rest = ∅)) as [->|Hne]; [exists Proceed; by eexists|]. apply map_choose in Hne as (r & changes & E). exists (Picked r). cbn [runner_step]. rewrite E. by eexists.
  - exists Proceed. cbn. by destruct (pending_requested _); eexists.
Qed.
(** Other clients do not move the runner. *)
Lemma others_keep_runner e w w' phase : world_ok w -> w.(server).(runners) = [phase] -> (forall i o, e <> RunnerSteps i o) -> event e w = Some w' ->
  w'.(server).(runners) = [phase].
Proof.
  intros H Hr Hne E.
  assert (forall sched s, s.(index_schedule) = w.(server).(index_schedule) -> s.(runners) = [phase] -> sched.(running) = s.(index_schedule).(running) ->
    sched.(scheduled) = s.(index_schedule).(scheduled) -> (spawn_runner sched s).(runners) = [phase]) as Hsp.
  { intros sched s Hs Hrs H1 H2. pose proof (ok_runner _ H) as Hone. unfold one_runner in Hone. rewrite Hr in Hone. rewrite Hs in H1, H2. destruct Hone as [Ho1 Ho2].
    unfold spawn_runner. rewrite H1, H2, Ho1, Ho2. by destruct (is_sleeping phase). }
  assert (forall roots force s, s.(index_schedule) = w.(server).(index_schedule) -> s.(runners) = [phase] -> (spawn_index_roots_with_scope roots force s).(runners) = [phase]) as Hsi.
  { intros roots force s Hs Hrs. unfold spawn_index_roots_with_scope. destruct (negb _ && negb _ && negb _); [done|]. apply Hsp; [done|done|by destruct roots; [apply request_flags|]..]. }
  destruct e as [changes|roots force|removed added|i|root|i o]; cbn [event] in E; [..|by destruct (Hne i o)].
  - injection E as <-. apply Hsp; [done|done|apply request_flags..].
  - injection E as <-. by apply Hsi.
  - injection E as <-. done.
  - apply bind_Some in E as (s' & Es & E). injection E as <-. unfold handler_step in Es. destruct (handlers (server w) !! i) as [[[| |] removed asks]|]; [..|done]; injection Es as <-; try done.
    cbn [IndexSchedule.asks server]. destruct asks; [by apply Hsi|done].
  - injection E as <-. unfold publish_empty. by destruct (engine_snapshots (server w) !! root).
Qed.

(** ** Properties *)

(** C11 No request to index is lost, however the runner, the requests and the changes of workspace folders interleave and whatever the coordinator, the indexer and the publication answer: a requested file of a workspace root is still waiting for a run, or its root is marked for a full rescan, or the published index has it from a run that began after the request, or a folder removal has overtaken the root's return to the workspace; and when no runner is left nothing is waiting. *)
Theorem no_request_lost w r file t : reachable w -> requested w r file t ->
  r ∈ w.(server).(workspace_roots) /\
  (waiting w.(server) r file \/ r ∈ w.(server).(roots_needing_rescan) \/ covered w.(server) r file t \/ r ∈ w.(wiped)) /\
  (w.(server).(runners) = [] -> ~ waiting w.(server) r file).
Proof.
  intros H%reachable_ok Hr. split; [by apply (ok_requests _ H) in Hr as [? _]|]. split.
  - destruct (decide (r ∈ wiped w)) as [?|Hn]; [tauto|]. destruct (ok_safe _ H r file t (conj Hr Hn)) as [?|[?|?]]; tauto.
  - intros E Hw. pose proof (ok_runner _ H) as Hone. unfold one_runner in Hone. rewrite E in Hone. destruct Hone as (_ & _ & Hp).
    apply (ok_schedule _ H) in Hp as [Hp1 Hp2]. unfold waiting in Hw. rewrite E, Exists_nil in Hw. destruct Hw as [[[Hf _]|Hc]|[]]; [congruence|]. rewrite Hp2 in Hc. by apply has_change_nil in Hc.
Qed.
(** C32 There is at most one runner, and its passes end: in every reachable state a runner that is not pausing can take a step, every step it takes pauses or stops it or leaves it fewer steps to go, and no other client moves it. *)
Theorem pass_terminates w phase : reachable w -> phase ∈ w.(server).(runners) -> is_sleeping phase = false ->
  w.(server).(runners) = [phase] /\
  (exists o w', event (RunnerSteps 0 o) w = Some w') /\
  (forall o w', event (RunnerSteps 0 o) w = Some w' ->
    match w'.(server).(runners) with
    | [] => True
    | [phase'] => phase' = Sleeping \/ (left w'.(server) phase' < left w.(server) phase)%nat
    | _ => False
    end) /\
  (forall e w', (forall i o, e <> RunnerSteps i o) -> event e w = Some w' -> w'.(server).(runners) = [phase]).
Proof.
  intros H%reachable_ok Hin Hsl. assert (runners (server w) = [phase]) as Hr.
  { pose proof (ok_runner _ H) as Hone. unfold one_runner in Hone. destruct (runners (server w)) as [|p [|]]; [by apply elem_of_nil in Hin| |done]. by apply list_elem_of_singleton in Hin as ->. }
  pose proof (ok_phases _ H) as Hph. rewrite Hr in Hph. apply Forall_cons in Hph as [Hph _]. split_and!; [done|..].
  - destruct (runner_step_enabled w phase Hph) as (o & [[p s'] E]). exists o. cbn [event]. rewrite Hr. cbn. rewrite E. by eexists.
  - intros o w' E. cbn [event] in E. rewrite Hr in E. cbn in E. apply bind_Some in E as ([phase' s'] & Es & E). injection E as <-.
    destruct (runner_world w 0 phase o phase' s' H ltac:(by rewrite Hr) Es) as (_ & _ & Hr'). rewrite Hr'. destruct phase' as [p|]; [|done].
    apply (runner_step_left _ _ _ _ _ _) in Es; [exact Es|by intros ->].
  - intros e w' Hne E. by eapply others_keep_runner.
Qed.

(** *** Examples *)

Definition w1 : PathBuf := ["home"; "w"].
Definition edited (file : string) : RootDirtyChange := mkRootDirtyChange w1 file (mkDirtyFileChange (w1 ++ [file]) Upsert).
(** A full pass over one root that is published, and the end of the runner. *)
Definition full_pass : list Event :=
  RunnerSteps 0 <$> [Proceed; Proceed; Proceed; Proceed; Proceed; Acquired (Ok tt); Reserved (Ok tt); Proceed; Indexed true true; Published true true; Proceed; Proceed; Proceed; Proceed].
(** After a full pass a file changes; its run is deferred, and the pause that follows is
    still owed the file, whose root stays marked. *)
Definition deferred_run : list Event :=
  IndexRequest None false :: full_pass ++ ChangedFiles [edited "a.c"] ::
  (RunnerSteps 0 <$> [Proceed; Proceed; Picked w1; Proceed; Proceed; Proceed; Proceed; Proceed; Acquired (Err AcqDeferred); Proceed; Proceed]).
Definition after (events : list Event) : World := default (start [w1]) (run events (start [w1])).
Lemma after_reachable events : is_Some (run events (start [w1])) -> reachable (after events).
Proof. intros [w E]. unfold after. rewrite E. eapply run_reachable; [constructor|exact E]. Qed.
Example deferred_run_owed : requested (after deferred_run) w1 "a.c" 2 /\ bool_decide (w1 ∈ (after deferred_run).(server).(roots_needing_rescan)) = true /\
  (after deferred_run).(server).(runners) = [Sleeping] /\ (after deferred_run).(server).(index_schedule).(pending_changes) = [edited "a.c"].
Proof. split; [right; by vm_compute|]. by vm_compute. Qed.
Example no_request_lost_witness :
  requested (after deferred_run) w1 "a.c" 2 /\ w1 ∈ (after deferred_run).(server).(workspace_roots) /\
  (waiting (after deferred_run).(server) w1 "a.c" \/ w1 ∈ (after deferred_run).(server).(roots_needing_rescan) \/
   covered (after deferred_run).(server) w1 "a.c" 2 \/ w1 ∈ (after deferred_run).(wiped)) /\
  ((after deferred_run).(server).(runners) = [] -> ~ waiting (after deferred_run).(server) w1 "a.c").
Proof.
  assert (requested (after deferred_run) w1 "a.c" 2) as Hr by (right; by vm_compute). split; [exact Hr|].
  apply (no_request_lost (after deferred_run) w1 "a.c" 2); [|exact Hr]. apply after_reachable. vm_compute. by eexists.
Defined.
(** In the middle of a dirty run. *)
Definition dirty_run : list Event :=
  IndexRequest None false :: full_pass ++ ChangedFiles [edited "a.c"; edited "b.c"] ::
  (RunnerSteps 0 <$> [Proceed; Proceed; Picked w1; Proceed; Proceed; Proceed; Proceed; Proceed]).
Definition dirty_phase : Phase := default Sleeping (head (after dirty_run).(server).(runners)).
Example pass_terminates_witness : dirty_phase ∈ (after dirty_run).(server).(runners) /\
  left (after dirty_run).(server) dirty_phase = 11 /\
  (exists o w', event (RunnerSteps 0 o) (after dirty_run) = Some w').
Proof.
  assert (dirty_phase ∈ (after dirty_run).(server).(runners)) as Hin by (vm_compute; left).
  split; [exact Hin|]. split; [by vm_compute|].
  apply (pass_terminates (after dirty_run) dirty_phase); [|exact Hin|by vm_compute]. apply after_reachable. vm_compute. by eexists.
Defined.
(** A root is removed and added again before the handler of the removal has run; the root is
    indexed, then the late handler removes its snapshot. Nothing brings the index back until
    the next request. *)
Definition late_removal : list Event :=
  [Folders [w1] []; Folders [] [w1]; HandlerSteps 1] ++ full_pass ++ [HandlerSteps 0; HandlerSteps 0; HandlerSteps 0].
Example late_removal_unindexes : reachable (after late_removal) /\
  (after late_removal).(server).(workspace_roots) = [w1] /\ (after late_removal).(server).(handlers) = [] /\ (after late_removal).(server).(runners) = [] /\
  (after late_removal).(server).(engine_snapshots) !! w1 = None /\ bool_decide (w1 ∈ (after late_removal).(server).(roots_needing_rescan)) = false.
Proof. split; [apply after_reachable; vm_compute; by eexists|]. by vm_compute. Qed.
