(* ===== verification/IndexedFiles.v ===== *)
(** * The reference-file catalogue (indexed_files.rs)

    An immutable sorted list of files with a sorted overlay of changed paths: building,
    the binary search, the bounded update, and the iterator that merges both. A path of
    the file system is its text; [BTreeMap] is a finite map read in the order of its
    keys. A counter that would go below zero is [None] (a panic). *)

From S2P Require Import Prelude Searching.

Abbreviation Entry := (string * string)%type (only parsing).
Abbreviation Changes := (gmap string (option Entry)) (only parsing).
Record IndexedFileList : Type := mkFiles {
  base : list Entry;
  changes : Changes;
  count : nat;
  base_bytes : N;
}.
Definition by_path : Entry -> Entry -> comparison := cmp_on fst String.compare.
#[export] Instance by_path_lawful : LawfulCmp by_path.
Proof. unfold by_path. apply _. Qed.
(** [binary_search_by(|entry| entry.0.as_str().cmp(path))] *)
Definition find_entry (l : list Entry) (path : string) : option nat :=
  binary_search (fun e => String.compare e.1 path) l.

(** [usize::sub] with its overflow check *)
Definition checked_pred (n : nat) : option nat := match n with 0 => None | S n => Some n end.

(** What the allocator and the layout of the types decide: the capacities of strings and of
    the vector of entries, and [size_of] for an [Entry], a [(String, Option<Entry>)], a
    [usize] and the list itself. *)
Record Allocation : Type := mkAllocation {
  string_capacity : string -> N;
  vec_capacity : list Entry -> N;
  entry_size : N;
  change_size : N;
  usize_size : N;
  list_size : N;
}.

Section Files.
Variable alloc : Allocation.

Definition entry_bytes (e : Entry) : N := (alloc.(string_capacity) e.1 + alloc.(string_capacity) e.2)%N.
(** A whole B-tree node is charged per changed path. *)
Definition change_bytes (ch : Changes) : N :=
  (N.of_nat (size ch) * (11 * alloc.(change_size) + 12 * alloc.(usize_size)) +
   foldr N.add 0 ((fun kv : string * option Entry =>
     alloc.(string_capacity) kv.1 + match kv.2 with Some e => entry_bytes e | None => 0 end)
     <$> map_to_list ch))%N.

Definition from_shared (entries : list Entry) : IndexedFileList :=
  mkFiles entries ∅ (length entries)
    (alloc.(vec_capacity) entries * alloc.(entry_size) + foldr N.add 0 (entry_bytes <$> entries))%N.
Definition from_vec (entries : list Entry) : IndexedFileList :=
  from_shared (dedup (fun a b => String.eqb a.1 b.1) (sort_by by_path entries)).
Definition len (f : IndexedFileList) : nat := f.(count).
Definition is_empty (f : IndexedFileList) : bool := Nat.eqb f.(count) 0.
Definition base_entry (f : IndexedFileList) (path : string) : option Entry :=
  i ← find_entry f.(base) path; f.(base) !! i.
(** The entry a path has now: the overlay's, else the base's. *)
Definition current_entry (f : IndexedFileList) (path : string) : option Entry :=
  match f.(changes) !! path with Some v => v | None => base_entry f path end.
Definition contains_path (f : IndexedFileList) (path : string) : bool :=
  match f.(changes) !! path with
  | Some v => bool_decide (is_Some v)
  | None => bool_decide (is_Some (base_entry f path))
  end.

(** [fresh.into_iter().map(..).collect()]: the last entry of a path stays. *)
Definition collect_fresh (fresh : list Entry) : gmap string Entry :=
  foldl (fun m e => <[e.1 := e]> m) ∅ fresh.
(** One iteration of the loop over the paths. *)
Definition update_path (f : IndexedFileList) (fresh : gmap string Entry)
    (acc : option (Changes * nat * gset string)) (path : string) :
    option (Changes * nat * gset string) :=
  '(ch, n, seen) ← acc;
  if decide (path ∈ seen) then Some (ch, n, seen)
  else
    let seen := {[path]} ∪ seen in
    let new := fresh !! path in
    let was_present := contains_path f path in
    n ← (if was_present && negb (bool_decide (is_Some new)) then checked_pred n else Some n);
    let n := if negb was_present && bool_decide (is_Some new) then S n else n in
    Some (if bool_decide (base_entry f path = new) then delete path ch else <[path := new]> ch,
          n, seen).
Definition update (f : IndexedFileList) (paths : list string) (fresh : list Entry) :
    option (option IndexedFileList) :=
  if (256 <? length paths)%nat then Some None
  else
    let fresh := collect_fresh fresh in
    if forallb (fun path => bool_decide (current_entry f path = fresh !! path)) paths
    then Some (Some f)
    else
      '(ch, n, _) ← foldl (update_path f fresh) (Some (f.(changes), f.(count), ∅)) paths;
      if (256 <? size ch)%nat || (4 * 1024 * 1024 <? change_bytes ch)%N then Some None
      else Some (Some (mkFiles f.(base) ch n f.(base_bytes))).

Definition delta_paths (f : IndexedFileList) : nat := size f.(changes).
Definition delta_bytes (f : IndexedFileList) : N := change_bytes f.(changes).
Definition accounted_bytes (f : IndexedFileList) : N :=
  (alloc.(list_size) + f.(base_bytes) + change_bytes f.(changes))%N.
End Files.

(** ** The iterator *)

Record FileIter : Type := mkIter {
  it_base : list Entry;
  it_changes : list (option Entry);
  shadow : Changes;
  pending_base : option Entry;
  pending_delta : option Entry;
  remaining : nat;
}.
Definition iter (f : IndexedFileList) : FileIter :=
  mkIter f.(base) (btree_values f.(changes)) f.(changes) None None f.(count).
(** [self.base.find(|(p, _)| !self.shadow.contains_key(p))] *)
Fixpoint find_base (shadow : Changes) (l : list Entry) : option Entry * list Entry :=
  match l with
  | [] => (None, [])
  | e :: l => match shadow !! e.1 with None => (Some e, l) | Some _ => find_base shadow l end
  end.
(** [self.changes.find_map(Option::as_ref)] *)
Fixpoint find_delta (l : list (option Entry)) : option Entry * list (option Entry) :=
  match l with
  | [] => (None, [])
  | Some e :: l => (Some e, l)
  | None :: l => find_delta l
  end.
Definition fill (it : FileIter) : FileIter :=
  let '(pb, b) := match it.(pending_base) with
                  | None => find_base it.(shadow) it.(it_base)
                  | Some e => (Some e, it.(it_base))
                  end in
  let '(pd, d) := match it.(pending_delta) with
                  | None => find_delta it.(it_changes)
                  | Some e => (Some e, it.(it_changes))
                  end in
  mkIter b d it.(shadow) pb pd it.(remaining).
Definition next (it : FileIter) : option (option Entry * FileIter) :=
  let it := fill it in
  let take_base := mkIter it.(it_base) it.(it_changes) it.(shadow) None it.(pending_delta) in
  let take_delta := mkIter it.(it_base) it.(it_changes) it.(shadow) it.(pending_base) None in
  match it.(pending_base), it.(pending_delta) with
  | Some a, Some b =>
      n ← checked_pred it.(remaining);
      if String.ltb a.1 b.1 then Some (Some a, take_base n) else Some (Some b, take_delta n)
  | None, Some b => n ← checked_pred it.(remaining); Some (Some b, take_delta n)
  | Some a, None => n ← checked_pred it.(remaining); Some (Some a, take_base n)
  | None, None => Some (None, it)
  end.
Definition size_hint (it : FileIter) : nat * option nat := (it.(remaining), Some it.(remaining)).
(** A [for] loop over the files; [None] is a panic or too little fuel. *)
Fixpoint drain (fuel : nat) (it : FileIter) : option (list Entry) :=
  match fuel with
  | 0 => None
  | S fuel =>
      '(e, it) ← next it;
      match e with
      | None => Some []
      | Some e => rest ← drain fuel it; Some (e :: rest)
      end
  end.

(** ** The binary search *)

Definition path_lt (a b : Entry) : Prop := string_lt a.1 b.1.
Definition sorted_paths : list Entry -> Prop := increasing fst.
#[export] Instance path_lt_trans : Transitive path_lt.
Proof. intros x y z. apply string_lt_trans. Qed.
Lemma path_lt_irrefl a b : path_lt a b -> a.1 <> b.1.
Proof. apply string_lt_ne. Qed.
Lemma base_lookup_iff f path e :
  sorted_paths f.(base) -> base_entry f path = Some e <-> e ∈ f.(base) /\ e.1 = path.
Proof.
  intros Hs. unfold base_entry, find_entry. split.
  - intros (i & Hi & He)%bind_Some. apply (search_increasing fst) in Hi as (e' & He' & Hp); [|done].
    rewrite He in He'. injection He' as <-. split; [by eapply list_elem_of_lookup_2|done].
  - intros [[t Ht]%list_elem_of_lookup Hp]. apply bind_Some. exists t. split; [|done].
    apply (search_increasing fst); [done|]. by exists e.
Qed.

(** ** The catalogue as a map *)

(** The files by path: the overlay over the base. *)
Definition files_of (f : IndexedFileList) : gmap string Entry :=
  merge (fun (c : option (option Entry)) b => match c with Some v => v | None => b end) f.(changes)
    (list_to_map ((fun e => (e.1, e)) <$> f.(base))).
Record well_formed (f : IndexedFileList) : Prop := {
  wf_base : sorted_paths f.(base);
  wf_changes : forall path e, f.(changes) !! path = Some (Some e) -> e.1 = path;
  wf_minimal : forall path v, f.(changes) !! path = Some v -> base_entry f path <> v;
  wf_count : f.(count) = size (files_of f);
}.
Lemma sorted_nodup l : sorted_paths l -> NoDup l.*1.
Proof. apply increasing_nodup. Qed.
Lemma base_entry_map f path :
  sorted_paths f.(base) -> base_entry f path = (list_to_map ((fun e => (e.1, e)) <$> f.(base)) : gmap string Entry) !! path.
Proof.
  intros Hs. apply option_eq. intros e. rewrite base_lookup_iff by done.
  rewrite <- elem_of_list_to_map, list_elem_of_fmap.
  - split; [intros [He <-]; by exists e|intros (x & [= -> ->] & Hx); done].
  - rewrite <- list_fmap_compose. by apply sorted_nodup.
Qed.
Lemma files_of_lookup f path : sorted_paths f.(base) -> files_of f !! path = current_entry f path.
Proof.
  intros Hs. unfold files_of, current_entry. rewrite lookup_merge, base_entry_map by done.
  by destruct (f.(changes) !! path), (_ !! path).
Qed.
Lemma files_of_key f path e : well_formed f -> files_of f !! path = Some e -> e.1 = path.
Proof.
  intros [Hs Hc _ _]. rewrite files_of_lookup by done. unfold current_entry.
  destruct (f.(changes) !! path) as [v|] eqn:E; [intros ->; by eapply Hc|].
  intros H. by apply base_lookup_iff in H as [_ ?].
Qed.
Lemma contains_path_current f path : contains_path f path = bool_decide (is_Some (current_entry f path)).
Proof. unfold contains_path, current_entry. by destruct (f.(changes) !! path). Qed.

(** ** Building *)

Definition find_path (path : string) (l : list Entry) : option Entry :=
  List.find (fun e => String.eqb e.1 path) l.
Definition same_path (a b : Entry) : bool := String.eqb a.1 b.1.
Lemma find_path_filter path l :
  find_path path l = hd_error (List.filter (cmp_equal by_path (path, "")) l).
Proof.
  induction l as [|e l IH]; simpl; [done|]. unfold cmp_equal at 1, by_path at 1, cmp_on at 1; simpl.
  destruct (String.eqb_spec e.1 path) as [<-|Hne]; [by rewrite string_compare_refl|].
  destruct (String.compare path e.1) eqn:E; [|done|done]. apply string_compare_eq in E. congruence.
Qed.
Lemma find_path_sort path l : find_path path (sort_by by_path l) = find_path path l.
Proof. rewrite (find_path_filter path (sort_by _ _)), (find_path_filter path l). f_equal. apply sort_by_stable, _. Qed.
Lemma find_path_dedup_after path kept l :
  find_path path (kept :: dedup_after same_path kept l) = find_path path (kept :: l).
Proof.
  revert kept. induction l as [|e l IH]; intros kept; [done|]. simpl dedup_after.
  unfold same_path at 1. destruct (String.eqb_spec e.1 kept.1) as [He|Hne].
  - rewrite IH. unfold find_path. cbn [List.find]. rewrite He. by destruct (String.eqb kept.1 path).
  - specialize (IH e). unfold find_path in *. cbn [List.find] in *. by destruct (String.eqb kept.1 path).
Qed.
Lemma find_path_dedup path l : find_path path (dedup same_path l) = find_path path l.
Proof. destruct l; [done|]. apply find_path_dedup_after. Qed.
Lemma path_le_lt a b : cmp_le by_path a b -> a.1 <> b.1 -> path_lt a b.
Proof.
  unfold cmp_le, by_path, cmp_on, path_lt, string_lt. intros Hle Hne.
  destruct (String.compare a.1 b.1) eqn:E; try done. by apply string_compare_eq in E.
Qed.
Lemma path_lt_le a b : path_lt a b -> cmp_le by_path a b.
Proof. unfold cmp_le, by_path, cmp_on, path_lt, string_lt. by intros ->. Qed.
Lemma dedup_after_sorted kept l :
  StronglySorted (cmp_le by_path) (kept :: l) -> sorted_paths (kept :: dedup_after same_path kept l).
Proof.
  revert kept. induction l as [|e l IH]; intros kept Hs; simpl; [by repeat constructor|].
  inversion Hs as [|? ? Hl Hk]; subst. inversion Hk as [|? ? Hke Hkl]; subst.
  inversion Hl as [|? ? Hll He]; subst. unfold same_path at 1.
  destruct (String.eqb_spec e.1 kept.1) as [Heq|Hne]; [apply IH; by constructor|].
  pose proof (IH e Hl) as Hel. constructor; [done|].
  assert (path_lt kept e) as Hlt by (apply path_le_lt; [done|congruence]).
  constructor; [done|]. inversion Hel as [|? ? _ Hf]; subst. eapply Forall_impl; [exact Hf|].
  intros x Hx. by etrans.
Qed.
Lemma find_path_Some path l e : find_path path l = Some e -> e ∈ l /\ e.1 = path.
Proof. intros [Hin He]%List.find_some. apply list_elem_of_In in Hin. by apply String.eqb_eq in He. Qed.
Lemma find_path_sorted path l e : sorted_paths l -> find_path path l = Some e <-> e ∈ l /\ e.1 = path.
Proof.
  intros Hs. split; [apply find_path_Some|]. intros [Hin <-].
  destruct (find_path e.1 l) as [x|] eqn:E.
  - apply find_path_Some in E as [Hx Hp]. f_equal. apply sorted_nodup in Hs.
    apply list_elem_of_lookup in Hx as [i Hi], Hin as [j Hj].
    assert (i = j) as ->; [|congruence]. eapply NoDup_lookup; [exact Hs| |].
    + rewrite list_lookup_fmap, Hi. by simpl; rewrite Hp.
    + by rewrite list_lookup_fmap, Hj.
  - eapply List.find_none in E; [|by apply list_elem_of_In]. simpl in E. by rewrite String.eqb_refl in E.
Qed.

Section Build.
Variable alloc : Allocation.
Lemma sorted_well_formed l : sorted_paths l -> well_formed (from_shared alloc l).
Proof.
  intros Hs. split; simpl; try done.
  unfold files_of, from_shared; simpl. rewrite (map_eq (merge _ ∅ _) (list_to_map ((fun e => (e.1, e)) <$> l))).
  - rewrite map_size_list_to_map; [by rewrite length_fmap|]. rewrite <- list_fmap_compose. by apply sorted_nodup.
  - intros i. rewrite lookup_merge, lookup_empty. by destruct (_ !! i).
Qed.
Lemma from_vec_sorted l : sorted_paths (from_vec alloc l).(base).
Proof.
  unfold from_vec; simpl. pose proof (sort_by_sorted by_path l) as Hs.
  destruct (sort_by by_path l); simpl; [constructor|]. by apply dedup_after_sorted.
Qed.
Lemma from_vec_lookup l path : files_of (from_vec alloc l) !! path = find_path path l.
Proof.
  rewrite files_of_lookup by apply from_vec_sorted. unfold current_entry; simpl. rewrite lookup_empty.
  apply option_eq. intros e. rewrite base_lookup_iff by apply from_vec_sorted.
  rewrite <- (find_path_sort path l), <- (find_path_dedup path).
  by rewrite find_path_sorted by apply from_vec_sorted.
Qed.
End Build.

(** ** Updating *)


Lemma collect_fresh_lookup fresh path : collect_fresh fresh !! path = find_path path (rev fresh).
Proof.
  unfold collect_fresh. induction fresh as [|e fresh IH] using rev_ind; [apply lookup_empty|].
  rewrite foldl_app, rev_app_distr. cbn [foldl app rev]. unfold find_path. cbn [List.find].
  destruct (String.eqb_spec e.1 path) as [->|Hne]; [apply lookup_insert_eq|]. by rewrite lookup_insert_ne.
Qed.
Lemma collect_fresh_key fresh path e : collect_fresh fresh !! path = Some e -> e.1 = path.
Proof. rewrite collect_fresh_lookup. by intros [_ ?]%find_path_Some. Qed.

(** The catalogue with another overlay and count. *)
Definition overlay (f : IndexedFileList) (ch : Changes) (n : nat) : IndexedFileList :=
  mkFiles f.(base) ch n f.(base_bytes).

Lemma overlay_insert f ch n path new n' :
  well_formed (overlay f ch n) -> (forall e, new = Some e -> e.1 = path) ->
  n' = size (files_of (overlay f (if bool_decide (base_entry f path = new) then delete path ch
                                  else <[path := new]> ch) n')) ->
  well_formed (overlay f (if bool_decide (base_entry f path = new) then delete path ch
                          else <[path := new]> ch) n').
Proof.
  intros [Hb Hc Hm Hn] Hk Hs. split; simpl; [done| | |done].
  - intros p e. case_bool_decide; [intros [_ ?]%lookup_delete_Some; by apply Hc|].
    intros [[<- He]|[_ ?]]%lookup_insert_Some; [by apply Hk|by apply Hc].
  - intros p v. case_bool_decide; [intros [_ ?]%lookup_delete_Some; by apply Hm|].
    intros [[<- <-]|[_ ?]]%lookup_insert_Some; [done|by apply Hm].
Qed.
Lemma overlay_files f ch n n' path new :
  sorted_paths f.(base) ->
  files_of (overlay f (if bool_decide (base_entry f path = new) then delete path ch
                       else <[path := new]> ch) n') =
  partial_alter (fun _ => new) path (files_of (overlay f ch n)).
Proof.
  intros Hs. apply map_eq. intros p. rewrite files_of_lookup by done. unfold current_entry; simpl.
  change (base_entry (overlay _ _ _) p) with (base_entry f p).
  destruct (decide (path = p)) as [<-|Hne].
  - rewrite lookup_partial_alter_eq. case_bool_decide; [by rewrite lookup_delete_eq|by rewrite lookup_insert_eq].
  - rewrite lookup_partial_alter_ne, files_of_lookup by done. unfold current_entry; simpl.
    change (base_entry (overlay _ _ _) p) with (base_entry f p).
    case_bool_decide; [by rewrite lookup_delete_ne|by rewrite lookup_insert_ne].
Qed.
Lemma size_partial_alter_const (m : gmap string Entry) path new :
  size (partial_alter (fun _ => new) path m) =
    match m !! path, new with
    | Some _, None => pred (size m) | None, Some _ => S (size m) | _, _ => size m
    end.
Proof.
  destruct new as [e|].
  - change (partial_alter _ path m) with (<[path := e]> m). rewrite map_size_insert. by destruct (m !! path).
  - change (partial_alter _ path m) with (delete path m). rewrite map_size_delete. by destruct (m !! path).
Qed.

(** After some of the paths: those hold their fresh entry, the others what they held. *)
Definition update_inv (f : IndexedFileList) (fresh : gmap string Entry)
    (acc : Changes * nat * gset string) : Prop :=
  let '(ch, n, seen) := acc in
  well_formed (overlay f ch n) /\
  forall p, files_of (overlay f ch n) !! p = if decide (p ∈ seen) then fresh !! p else files_of f !! p.
Lemma update_path_ok f fresh acc path :
  well_formed f -> (forall p e, fresh !! p = Some e -> e.1 = p) -> update_inv f fresh acc ->
  exists acc', update_path f fresh (Some acc) path = Some acc' /\ update_inv f fresh acc' /\
    acc'.2 = {[path]} ∪ acc.2.
Proof.
  intros Hf Hk. destruct acc as [[ch n] seen]. intros [Hw Hv]. cbn [update_path mbind option_bind].
  destruct (decide (path ∈ seen)) as [Hin|Hin].
  { eexists. split; [done|]. split; [by split|]. simpl. set_solver. }
  pose proof (Hv path) as Hp. rewrite decide_False in Hp by done.
  rewrite contains_path_current, <- (files_of_lookup f) by apply Hf.
  set (ch' := if bool_decide _ then delete path ch else _).
  assert (forall n', n' = size (files_of (overlay f ch' n')) ->
    update_inv f fresh (ch', n', {[path]} ∪ seen)) as Hinv.
  { intros n' Hn'. split; [apply (overlay_insert f ch n); [done|by apply Hk|exact Hn']|].
    intros p. unfold ch'. rewrite (overlay_files f ch n) by apply Hf.
    destruct (decide (path = p)) as [<-|Hne].
    - rewrite lookup_partial_alter_eq. by rewrite decide_True by set_solver.
    - rewrite lookup_partial_alter_ne by done. rewrite Hv. repeat case_decide; set_solver. }
  assert (forall n', size (files_of (overlay f ch' n')) =
    match files_of f !! path, fresh !! path with
    | Some _, None => pred n | None, Some _ => S n | _, _ => n end) as Hsize.
  { intros n'. unfold ch'. rewrite (overlay_files f ch n) by apply Hf.
    rewrite size_partial_alter_const, Hp. destruct Hw as [_ _ _ Hn]. simpl in Hn. by rewrite Hn. }
  assert (forall e, files_of f !! path = Some e -> n <> 0) as Hpos.
  { intros e He ->. destruct Hw as [_ _ _ Hn]. simpl in Hn. symmetry in Hn. apply map_size_empty_inv in Hn.
    rewrite Hn, lookup_empty in Hp. congruence. }
  destruct (files_of f !! path) as [e|] eqn:Ef, (fresh !! path) as [e'|] eqn:Er; simpl;
    [|destruct n as [|n]; [by destruct (Hpos e)|]; simpl| |];
    (eexists; split; [done|]; split; [apply Hinv; by rewrite Hsize|done]).
Qed.

Lemma update_loop_ok f fresh paths : forall acc,
  well_formed f -> (forall p e, fresh !! p = Some e -> e.1 = p) -> update_inv f fresh acc ->
  exists acc', foldl (update_path f fresh) (Some acc) paths = Some acc' /\ update_inv f fresh acc' /\
    acc'.2 = list_to_set paths ∪ acc.2.
Proof.
  induction paths as [|path paths IH]; intros acc Hf Hk Hi; cbn [foldl].
  { exists acc. split; [done|]. split; [done|]. simpl. set_solver. }
  destruct (update_path_ok f fresh acc path Hf Hk Hi) as (acc1 & -> & Hi1 & Hs1).
  destruct (IH acc1 Hf Hk Hi1) as (acc2 & -> & Hi2 & Hs2). exists acc2. split; [done|]. split; [done|].
  rewrite Hs2, Hs1. simpl. set_solver.
Qed.

(** ** Iterating *)

(** Values that carry their own key come out sorted. *)
Lemma omap_sorted {A} (l : list (string * A)) (g : A -> option Entry) :
  increasing fst l -> (forall k v e, (k, v) ∈ l -> g v = Some e -> e.1 = k) ->
  sorted_paths (omap g l.*2).
Proof.
  induction 1 as [|[k v] l Hl IH Hx]; intros Hk; csimpl; [constructor|].
  assert (sorted_paths (omap g l.*2)) as Hs by (apply IH; intros ? ? ? ? ?; eapply Hk; [by right|done]).
  destruct (g v) as [e|] eqn:E; [|done]. constructor; [done|]. rewrite Forall_forall in Hx. apply Forall_forall.
  intros e' (v' & ([k' w] & -> & Hin)%list_elem_of_fmap & Hg)%list_elem_of_omap.
  specialize (Hx _ Hin). simpl in *.
  rewrite (Hk k v e), (Hk k' w e'); [done|by right|done|by left|done].
Qed.
Lemma omap_id_Some {A} (l : list A) : omap Some l = l.
Proof. induction l as [|x l IH]; csimpl; [done|]. by rewrite IH. Qed.

(** The files in the order of their paths. *)
Definition listing (f : IndexedFileList) : list Entry := btree_values (files_of f).
Lemma listing_sorted f : well_formed f -> sorted_paths (listing f).
Proof.
  intros Hf. unfold listing, btree_values. rewrite <- (omap_id_Some (_ <$> _)). apply omap_sorted; [apply btree_entries_increasing|].
  intros k v e Hin%elem_of_btree_entries [= ->]. by eapply files_of_key.
Qed.
Lemma listing_length f : length (listing f) = size (files_of f).
Proof. unfold listing, btree_values, btree_entries. by rewrite length_fmap, sort_by_length, length_map_to_list. Qed.

(** What is still to come, from the base and from the overlay. *)
Definition base_part (it : FileIter) : list Entry :=
  option_list it.(pending_base) ++
  List.filter (fun e => bool_decide (it.(shadow) !! e.1 = None)) it.(it_base).
Definition delta_part (it : FileIter) : list Entry :=
  option_list it.(pending_delta) ++ omap id it.(it_changes).
Record iter_ok (it : FileIter) : Prop := {
  ok_base : sorted_paths (base_part it);
  ok_delta : sorted_paths (delta_part it);
  ok_disjoint : forall a b, a ∈ base_part it -> b ∈ delta_part it -> a.1 <> b.1;
  ok_remaining : it.(remaining) = length (base_part it) + length (delta_part it);
}.
Lemma find_base_spec sh l :
  let '(e, l') := find_base sh l in
  List.filter (fun e => bool_decide (sh !! e.1 = None)) l =
  option_list e ++ (match e with None => [] | Some _ => List.filter (fun e => bool_decide (sh !! e.1 = None)) l' end) /\
  (e = None -> l' = []).
Proof.
  induction l as [|e l IH]; simpl; [done|]. destruct (sh !! e.1) eqn:E; simpl.
  - by destruct (find_base sh l).
  - done.
Qed.
Lemma find_delta_spec l :
  let '(e, l') := find_delta l in
  omap id l = option_list e ++ (match e with None => [] | Some _ => omap id l' end) /\ (e = None -> l' = []).
Proof. induction l as [|[e|] l IH]; csimpl; [done..|]. by destruct (find_delta l). Qed.
(** Filling the two look-ahead entries changes nothing; an absent one means its part is empty. *)
Lemma fill_spec it :
  base_part (fill it) = base_part it /\ delta_part (fill it) = delta_part it /\
  (fill it).(remaining) = it.(remaining) /\
  ((fill it).(pending_base) = None -> base_part it = []) /\
  ((fill it).(pending_delta) = None -> delta_part it = []).
Proof.
  unfold fill, base_part, delta_part.
  pose proof (find_base_spec it.(shadow) it.(it_base)) as Hb.
  pose proof (find_delta_spec it.(it_changes)) as Hd.
  destruct (it.(pending_base)) as [pb|], (it.(pending_delta)) as [pd|],
    (find_base _ _) as [[b|] lb], (find_delta _) as [[d|] ld]; simpl;
    destruct Hb as [Hb Hb'], Hd as [Hd Hd']; simpl in *; rewrite ?Hb, ?Hd, ?(Hb' eq_refl), ?(Hd' eq_refl); by split_and!.
Qed.

Lemma sorted_tail e l : sorted_paths (e :: l) -> sorted_paths l /\ forall x, x ∈ l -> path_lt e x.
Proof. intros H. inversion H as [|? ? Hl Hf]; subst. split; [done|]. by apply Forall_forall. Qed.
Lemma ltb_lt a b : String.ltb a b = true <-> String.compare a b = Lt.
Proof. unfold String.ltb. by destruct (String.compare a b). Qed.
Lemma not_ltb_gt (a b : Entry) : String.ltb a.1 b.1 = false -> a.1 <> b.1 -> path_lt b a.
Proof.
  intros Hl Hne. unfold path_lt, string_lt. rewrite (cmp_antisym String.compare a.1 b.1).
  unfold String.ltb in Hl. destruct (String.compare a.1 b.1) eqn:E; try done.
  by apply string_compare_eq in E.
Qed.

(** A step of the iterator yields the least file to come. *)
Lemma next_ok it :
  iter_ok it ->
  base_part it = [] /\ delta_part it = [] /\ (exists it', next it = Some (None, it')) \/
  exists e it', next it = Some (Some e, it') /\ iter_ok it' /\
    base_part it ++ delta_part it ≡ₚ e :: base_part it' ++ delta_part it' /\
    (forall x, x ∈ base_part it' ++ delta_part it' -> path_lt e x).
Proof.
  intros [Hb Hd Hx Hr]. destruct (fill_spec it) as (Eb & Ed & Er & Nb & Nd). unfold next.
  remember (fill it) as ft eqn:Eft. clear Eft. rewrite <- Eb, <- Ed in *. clear Eb Ed.
  destruct ft as [bs ch sh pb pd rem]. unfold base_part, delta_part in *. simpl in *. subst rem.
  set (A := List.filter _ bs) in *. set (D := omap id ch) in *.
  destruct pb as [a|], pd as [b|]; simpl in *.
  - rewrite Hr. cbn [checked_pred Nat.add mbind option_bind]. right. destruct (sorted_tail _ _ Hb) as [HA Ha], (sorted_tail _ _ Hd) as [HD Hbb].
    assert (a.1 <> b.1) as Hab by (apply Hx; left).
    destruct (String.ltb a.1 b.1) eqn:E.
    + eexists _, _. split; [done|]. apply ltb_lt in E. split_and!.
      * split; unfold base_part, delta_part; simpl; fold A; fold D; [done|done|intros x y ? ?; apply Hx; first [done|by right]|done].
      * done.
      * simpl. intros x [Hin|[->|Hin]%elem_of_cons]%elem_of_app; [by apply Ha|done|].
        etrans; [exact E|by apply Hbb].
    + pose proof (not_ltb_gt a b E Hab) as Hba. eexists _, _. split; [done|]. split_and!.
      * split; unfold base_part, delta_part; simpl; fold A; fold D; [done|done|intros x y ? ?; apply Hx; first [done|by right]|lia].
      * simpl. rewrite <- Permutation_middle. by rewrite (Permutation_swap b a).
      * simpl. intros x [->|[Hin|Hin]%elem_of_app]%elem_of_cons; [done| |by apply Hbb].
        etrans; [exact Hba|by apply Ha].
  - specialize (Nd eq_refl). rewrite Hr. simpl. right. destruct (sorted_tail _ _ Hb) as [HA Ha].
    eexists _, _. split; [done|]. split_and!.
    + split; unfold base_part, delta_part; simpl; fold A; fold D; [done|done|intros x y ? ?; apply Hx; first [done|by right]|done].
    + done.
    + unfold base_part, delta_part; simpl; fold A; fold D. rewrite Nd, app_nil_r. done.
  - specialize (Nb eq_refl). rewrite Hr, Nb. simpl. right. destruct (sorted_tail _ _ Hd) as [HD Hbb].
    eexists _, _. split; [done|]. split_and!.
    + split; unfold base_part, delta_part; simpl; fold A; fold D; [by rewrite Nb; constructor|done|intros x y ? ?; apply Hx; first [done|by right]|by rewrite Nb].
    + unfold base_part, delta_part; simpl; fold A; fold D. by rewrite Nb.
    + unfold base_part, delta_part; simpl; fold A; fold D. by rewrite Nb.
  - left. split_and!; [by apply Nb|by apply Nd|]. by eexists.
Qed.
Lemma drain_ok fuel : forall it,
  iter_ok it -> (length (base_part it) + length (delta_part it) < fuel)%nat ->
  exists l, drain fuel it = Some l /\ sorted_paths l /\ l ≡ₚ base_part it ++ delta_part it.
Proof.
  induction fuel as [|fuel IH]; intros it Hi Hf; [lia|].
  destruct (next_ok it Hi) as [(Hb & Hd & it' & E)|(e & it' & E & Hi' & Hp & Hlt)]; cbn [drain]; rewrite E; simpl.
  - exists []. rewrite Hb, Hd. split; [done|]. split; [constructor|done].
  - destruct (IH it' Hi') as (l & -> & Hs & Hl).
    { apply Permutation_length in Hp. simpl in Hp. rewrite !length_app in Hp. lia. }
    simpl. exists (e :: l). split; [done|]. split.
    + constructor; [done|]. apply Forall_forall. intros x Hx. apply Hlt. by rewrite <- Hl.
    + by rewrite Hp, Hl.
Qed.
Lemma sorted_paths_unique l1 l2 : sorted_paths l1 -> sorted_paths l2 -> l1 ≡ₚ l2 -> l1 = l2.
Proof. apply increasing_unique. Qed.

Lemma sorted_filter (g : Entry -> bool) l : sorted_paths l -> sorted_paths (List.filter g l).
Proof.
  induction 1 as [|e l Hl IH He]; simpl; [constructor|]. destruct (g e); [|done]. constructor; [done|].
  rewrite Forall_forall in He. apply Forall_forall. intros x [Hx _]%elem_of_filter_bool. by apply He.
Qed.
Lemma elem_of_listing f e : well_formed f -> e ∈ listing f <-> current_entry f e.1 = Some e.
Proof.
  intros Hf. unfold listing. rewrite elem_of_btree_values. setoid_rewrite files_of_lookup; [|apply Hf..].
  split; [|by exists e.1]. intros [p Hp]. assert (e.1 = p) as ->; [|done].
  rewrite <- files_of_lookup in Hp by apply Hf. by eapply files_of_key.
Qed.
Lemma iter_parts f :
  well_formed f -> iter_ok (iter f) /\ base_part (iter f) ++ delta_part (iter f) ≡ₚ listing f.
Proof.
  intros Hf. pose proof Hf as [Hs Hc _ Hn].
  assert (sorted_paths (base_part (iter f))) as Hb by by apply sorted_filter.
  assert (sorted_paths (delta_part (iter f))) as Hd.
  { apply omap_sorted; [apply btree_entries_increasing|]. intros k v e Hin%elem_of_btree_entries Hv.
    unfold id in Hv. subst v. by eapply Hc. }
  assert (forall e, e ∈ base_part (iter f) <-> e ∈ f.(base) /\ f.(changes) !! e.1 = None) as Eb.
  { intros e. unfold base_part; simpl. by rewrite elem_of_filter_bool, bool_decide_eq_true. }
  assert (forall e, e ∈ delta_part (iter f) <-> f.(changes) !! e.1 = Some (Some e)) as Ed.
  { intros e. unfold delta_part; simpl. rewrite list_elem_of_omap. setoid_rewrite elem_of_btree_values. split.
    - intros (v & [p Hp] & Hv). unfold id in Hv. subst v. by rewrite (Hc _ _ Hp).
    - intros He. exists (Some e). split; [by exists e.1|done]. }
  assert (forall a b, a ∈ base_part (iter f) -> b ∈ delta_part (iter f) -> a.1 <> b.1) as Hx.
  { intros a b [_ Ha]%Eb Hb'%Ed E. rewrite E in Ha. congruence. }
  assert (base_part (iter f) ++ delta_part (iter f) ≡ₚ listing f) as Hp.
  { apply NoDup_Permutation.
    - apply NoDup_app. split_and!.
      + eapply NoDup_fmap_1, sorted_nodup, Hb.
      + intros x Hxb Hxd. by apply (Hx x x).
      + eapply NoDup_fmap_1, sorted_nodup, Hd.
    - by eapply NoDup_fmap_1, sorted_nodup, listing_sorted.
    - intros e. rewrite elem_of_app, Eb, Ed, elem_of_listing by done. unfold current_entry.
      destruct (f.(changes) !! e.1) as [v|] eqn:E.
      + split; [intros [[_ ?]|[= ->]]; done|intros ->; by right].
      + rewrite base_lookup_iff by done. split; [intros [[? _]|?]; done|intros [? _]; by left]. }
  split; [|done]. split; [done..|]. simpl remaining.
  apply Permutation_length in Hp. rewrite length_app, listing_length in Hp. lia.
Qed.

(** ** Theorems *)

(** Building from any list of files gives a well-formed catalogue that holds of every
    path the first entry of that list. *)
Theorem from_vec_first_wins alloc entries :
  well_formed (from_vec alloc entries) /\
  forall path, files_of (from_vec alloc entries) !! path = find_path path entries.
Proof.
  split; [|apply from_vec_lookup]. apply sorted_well_formed, (from_vec_sorted alloc).
Qed.

(** An update of a well-formed catalogue never panics; the catalogue it returns is
    well formed, with the exact count and the least overlay, holds the fresh entry (the
    last one given, or none) of every named path and what it held of the others; it is
    refused only when more than 256 paths are named, or when the overlay that would be
    needed has more than 256 paths or more than 4 MiB. *)
Theorem update_replaces alloc f paths fresh :
  well_formed f ->
  exists r, update alloc f paths fresh = Some r /\
    let target path := if decide (path ∈ paths) then find_path path (rev fresh) else files_of f !! path in
    match r with
    | Some f' => well_formed f' /\ f'.(base) = f.(base) /\ forall path, files_of f' !! path = target path
    | None =>
        (256 < length paths)%nat \/
        exists ch : Changes, ((256 < size ch)%nat \/ (4 * 1024 * 1024 < change_bytes alloc ch)%N) /\
          forall path, ch !! path = if decide (base_entry f path = target path) then None
                                    else Some (target path)
    end.
Proof.
  intros Hf. unfold update. destruct (Nat.ltb_spec 256 (length paths)) as [Hlen|Hlen].
  { exists None. split; [done|]. by left. }
  assert (forall path, collect_fresh fresh !! path = find_path path (rev fresh)) as Hfr
    by apply collect_fresh_lookup.
  destruct (forallb _ paths) eqn:Hall.
  { exists (Some f). split; [done|]. split_and!; [done..|]. intros path. case_decide as Hin; [|done].
    rewrite List.forallb_forall in Hall. specialize (Hall path ltac:(by apply list_elem_of_In)).
    apply bool_decide_eq_true in Hall. by rewrite files_of_lookup, Hall, Hfr by apply Hf. }
  destruct (update_loop_ok f (collect_fresh fresh) paths (f.(changes), f.(count), ∅)) as ([[ch n] seen] & -> & [Hw Hv] & Hseen).
  { done. }
  { apply collect_fresh_key. }
  { split; [by destruct f|]. intros p. rewrite decide_False by set_solver. by destruct f. }
  simpl in Hseen.
  assert (forall path, files_of (overlay f ch n) !! path =
    if decide (path ∈ paths) then find_path path (rev fresh) else files_of f !! path) as Hview.
  { intros path. rewrite Hv, <- Hfr. repeat case_decide; set_solver. }
  cbn [mbind option_bind]. destruct (_ || _) eqn:Hlim.
  - exists None. split; [done|]. right. exists ch. split.
    { apply orb_true_iff in Hlim as [Hl%Nat.ltb_lt|Hl%N.ltb_lt]; [by left|by right]. }
    intros path. rewrite <- Hview, files_of_lookup by apply Hw. unfold current_entry; simpl.
    change (base_entry (overlay _ _ _) path) with (base_entry f path).
    destruct Hw as [_ _ Hm _]. specialize (Hm path). simpl in Hm. destruct (ch !! path) as [v|] eqn:E.
    + by rewrite decide_False by by apply Hm.
    + by rewrite decide_True.
  - eexists. split; [done|]. split_and!; [exact Hw|done|exact Hview].
Qed.

(** Iterating over a well-formed catalogue never panics and yields exactly its files,
    once each, in the order of their paths; the size announced at the start is exact. *)
Theorem iteration_exact f :
  well_formed f ->
  drain (S f.(count)) (iter f) = Some (listing f) /\ sorted_paths (listing f) /\
  (forall path e, files_of f !! path = Some e <-> e ∈ listing f /\ e.1 = path) /\
  size_hint (iter f) = (length (listing f), Some (length (listing f))).
Proof.
  intros Hf. destruct (iter_parts f Hf) as [Hi Hp]. pose proof (listing_sorted f Hf) as Hs.
  pose proof (Permutation_length Hp) as Hlen. rewrite length_app in Hlen.
  destruct (drain_ok (S f.(count)) (iter f) Hi) as (l & -> & Hl & Hpl).
  { rewrite Hlen, listing_length, (wf_count f Hf). lia. }
  split_and!.
  - f_equal. apply sorted_paths_unique; [done..|]. by rewrite Hpl.
  - done.
  - intros path e. rewrite elem_of_listing, files_of_lookup by apply Hf. split; [|by intros [? <-]].
    intros He. assert (e.1 = path) as <-; [|done].
    rewrite <- files_of_lookup in He by apply Hf. by eapply files_of_key.
  - unfold size_hint; simpl. by rewrite listing_length, (wf_count f Hf).
Qed.

(** ** Examples *)

Definition demo_alloc : Allocation :=
  mkAllocation (fun s => N.of_nat (String.length s)) (fun l => N.of_nat (length l)) 48 72 8 40.
Definition demo_files : IndexedFileList :=
  from_vec demo_alloc [("src/b.c", "/w/src/b.c"); ("src/a.c", "/w/src/a.c"); ("src/b.c", "/other/b.c")].
Definition demo_updated : IndexedFileList :=
  match update demo_alloc demo_files ["src/a.c"; "src/c.c"; "src/a.c"] [("src/c.c", "/w/src/c.c")] with
  | Some (Some f) => f
  | _ => demo_files
  end.
Example demo_files_base : demo_files.(base) = [("src/a.c", "/w/src/a.c"); ("src/b.c", "/w/src/b.c")].
Proof. vm_compute. reflexivity. Qed.
Example demo_updated_count : demo_updated.(count) = 2.
Proof. vm_compute. reflexivity. Qed.
Lemma demo_files_well_formed : well_formed demo_files.
Proof. apply sorted_well_formed, (from_vec_sorted demo_alloc). Qed.

Lemma update_replaces_witness :
  exists f', update demo_alloc demo_files ["src/a.c"; "src/c.c"; "src/a.c"] [("src/c.c", "/w/src/c.c")]
      = Some (Some f') /\
    files_of f' !! "src/a.c" = None /\ files_of f' !! "src/c.c" = Some ("src/c.c", "/w/src/c.c").
Proof.
  destruct (update_replaces demo_alloc demo_files ["src/a.c"; "src/c.c"; "src/a.c"]
    [("src/c.c", "/w/src/c.c")] demo_files_well_formed) as (r & Hr & H).
  destruct r as [f'|]; [|vm_compute in Hr; discriminate Hr]. destruct H as (_ & _ & H).
  exists f'. split; [exact Hr|]. split; [exact (H "src/a.c")|exact (H "src/c.c")].
Defined.
Lemma iteration_exact_witness :
  well_formed demo_files /\
  drain 3 (iter demo_files) = Some [("src/a.c", "/w/src/a.c"); ("src/b.c", "/w/src/b.c")].
Proof.
  split; [exact demo_files_well_formed|].
  refine (eq_trans (proj1 (iteration_exact demo_files demo_files_well_formed)) _). vm_compute. reflexivity.
Defined.
