(* ===== verification/Globs.v ===== *)
(** * Glob matching (config/matching.rs)

    The backtracking wildcard matcher over bytes with its character classes, and the
    path-segment matcher of the language overrides. A loop returns [None] when its fuel
    runs out. *)

From S2P Require Import Prelude.

Abbreviation Bytes := (list N) (only parsing).
Definition QUESTION : N := 63.
Definition STAR : N := 42.
Definition OPEN_BRACKET : N := 91.
Definition CLOSE_BRACKET : N := 93.
Definition DASH : N := 45.
Definition SLASH : N := 47.

(** ** The matcher *)

(** The loop over a class from [idx]; the result is the position of the closing bracket,
    if there is one, and whether some item matched. *)
Fixpoint class_loop (fuel : nat) (ch : N) (pattern : Bytes) (idx : nat) (matched : bool) :
    option (option nat * bool) :=
  match pattern !! idx with
  | None => Some (None, matched)
  | Some b =>
      match fuel with
      | 0 => None
      | S fuel =>
          if (b =? CLOSE_BRACKET)%N then Some (Some idx, matched)
          else
            match pattern !! (idx + 1)%nat, pattern !! (idx + 2)%nat with
            | Some dash, Some end_ch =>
                if (dash =? DASH)%N && negb (end_ch =? CLOSE_BRACKET)%N then
                  class_loop fuel ch pattern (idx + 3) (((b <=? ch) && (ch <=? end_ch))%N || matched)
                else class_loop fuel ch pattern (idx + 1) ((b =? ch)%N || matched)
            | _, _ => class_loop fuel ch pattern (idx + 1) ((b =? ch)%N || matched)
            end
      end
  end.
(** The outer [None] is missing fuel, the inner one no match. *)
Definition char_class_matches (ch : N) (pattern : Bytes) (start : nat) : option (option nat) :=
  match pattern !! (start + 1)%nat with
  | None => Some None
  | Some b =>
      let negated := ((b =? 33) || (b =? 94))%N in
      '(closing, matched) ← class_loop (length pattern) ch pattern
                              (if negated then start + 2 else start + 1) false;
      match closing with
      | Some idx => Some (if bool_decide (matched <> negated) then Some (idx + 1)%nat else None)
      | None => Some None
      end
  end.

Record MatchState : Type := mkMatch {
  path_idx : nat;
  pattern_idx : nat;
  star : option nat;
  star_path_idx : nat;
}.
(** One branch of the [match] on the pattern's byte: where to continue, if anywhere. *)
Definition advance (path pattern : Bytes) (ch : N) (s : MatchState) : option (option MatchState) :=
  match pattern !! s.(pattern_idx) with
  | None => Some None
  | Some b =>
      if (b =? QUESTION)%N then
        Some (Some (mkMatch (S s.(path_idx)) (S s.(pattern_idx)) s.(star) s.(star_path_idx)))
      else if (b =? STAR)%N then
        Some (Some (mkMatch s.(path_idx) (S s.(pattern_idx)) (Some s.(pattern_idx)) s.(path_idx)))
      else if (b =? OPEN_BRACKET)%N then
        next ← char_class_matches ch pattern s.(pattern_idx);
        Some (match next with
              | Some j => Some (mkMatch (S s.(path_idx)) j s.(star) s.(star_path_idx))
              | None => None
              end)
      else if (b =? ch)%N then
        Some (Some (mkMatch (S s.(path_idx)) (S s.(pattern_idx)) s.(star) s.(star_path_idx)))
      else Some None
  end.
(** The loop [while path_idx < path.len()], then the trailing stars. *)
Fixpoint match_loop (fuel : nat) (path pattern : Bytes) (s : MatchState) : option bool :=
  match path !! s.(path_idx) with
  | None => Some (forallb (fun b => b =? STAR)%N (drop s.(pattern_idx) pattern))
  | Some ch =>
      match fuel with
      | 0 => None
      | S fuel =>
          next ← advance path pattern ch s;
          match next, s.(star) with
          | Some s', _ => match_loop fuel path pattern s'
          | None, Some star_idx =>
              match_loop fuel path pattern
                (mkMatch (S s.(star_path_idx)) (S star_idx) s.(star) (S s.(star_path_idx)))
          | None, None => Some false
          end
      end
  end.
(** Every star restarts at most once per position, and every attempt is as long as the
    path at most. *)
Definition match_fuel (path pattern : Bytes) : nat :=
  S (length pattern) * (S (length path) * S (length path)).
Definition wildcard_match (path pattern : Bytes) : option bool :=
  match_loop (match_fuel path pattern) path pattern (mkMatch 0 0 None 0).

Definition path_matches_glob_entry (rel_slash_path entry : string) : option bool :=
  wildcard_match (bytes_of (lower rel_slash_path)) (bytes_of (lower entry)).

(** ** Segments *)

(** [str::split('/')] *)
Fixpoint split_slash (s : Bytes) : list Bytes :=
  match s with
  | [] => [[]]
  | b :: s =>
      if (b =? SLASH)%N then [] :: split_slash s
      else match split_slash s with
           | [] => [[b]]
           | seg :: segs => (b :: seg) :: segs
           end
  end.
Definition DEEP : Bytes := [STAR; STAR].
Fixpoint language_glob_segments_match (fuel : nat) (path pattern : list Bytes) : option bool :=
  match fuel with
  | 0 => None
  | S fuel =>
      match pattern with
      | [] => Some (match path with [] => true | _ => false end)
      | head :: tail =>
          if bool_decide (head = DEEP) then
            here ← language_glob_segments_match fuel path tail;
            if (here : bool) then Some true
            else match path with
                 | [] => Some false
                 | _ :: rest => language_glob_segments_match fuel rest pattern
                 end
          else match path with
               | [] => Some false
               | path_head :: path_tail =>
                   this ← wildcard_match path_head head;
                   if (this : bool) then language_glob_segments_match fuel path_tail tail else Some false
               end
      end
  end.
Definition language_override_glob_matches (path pattern : string) : option bool :=
  let path_segments := split_slash (bytes_of (lower path)) in
  let pattern_segments := split_slash (bytes_of (lower pattern)) in
  language_glob_segments_match (S (length path_segments + length pattern_segments)) path_segments pattern_segments.

(** ** What a pattern means *)

(** The items of a class, as ranges, and what follows the closing bracket. *)
Fixpoint parse_items (s : Bytes) : option (list (N * N) * Bytes) :=
  match s with
  | [] => None
  | b :: s1 =>
      if (b =? CLOSE_BRACKET)%N then Some ([], s1)
      else
        match s1 with
        | dash :: end_ch :: s2 =>
            if (dash =? DASH)%N && negb (end_ch =? CLOSE_BRACKET)%N then
              '(items, rest) ← parse_items s2; Some ((b, end_ch) :: items, rest)
            else '(items, rest) ← parse_items s1; Some ((b, b) :: items, rest)
        | _ => '(items, rest) ← parse_items s1; Some ((b, b) :: items, rest)
        end
  end.
Definition parse_class (s : Bytes) : option (bool * list (N * N) * Bytes) :=
  match s with
  | [] => None
  | b :: s1 =>
      let negated := ((b =? 33) || (b =? 94))%N in
      '(items, rest) ← parse_items (if negated then s1 else s);
      Some (negated, items, rest)
  end.
Definition in_items (items : list (N * N)) (ch : N) : bool :=
  existsb (fun '(lo, hi) => ((lo <=? ch) && (ch <=? hi))%N) items.

(** The language of a pattern: a star stands for any bytes, a question mark for one, a
    closed class for one of (or, negated, outside of) its items, everything else for
    itself. An open bracket that is never closed stands for nothing. *)
Inductive glob : Bytes -> Bytes -> Prop :=
  | glob_nil : glob [] []
  | glob_star p skipped s : glob p s -> glob (STAR :: p) (skipped ++ s)
  | glob_any p c s : glob p s -> glob (QUESTION :: p) (c :: s)
  | glob_class q negated items p c s :
      parse_class q = Some (negated, items, p) -> in_items items c <> negated ->
      glob p s -> glob (OPEN_BRACKET :: q) (c :: s)
  | glob_literal b p s :
      b <> STAR -> b <> QUESTION -> b <> OPEN_BRACKET -> glob p s -> glob (b :: p) (b :: s).

(** The language of a segment pattern: [**] stands for any number of segments. *)
Inductive segments : list Bytes -> list Bytes -> Prop :=
  | segments_nil : segments [] []
  | segments_deep tail skipped path : segments tail path -> segments (DEEP :: tail) (skipped ++ path)
  | segments_one head tail path_head path_tail :
      head <> DEEP -> glob head path_head -> segments tail path_tail ->
      segments (head :: tail) (path_head :: path_tail).

(** ** Classes *)

Lemma drop_lookup_cons {A} (l : list A) i x s : drop i l = x :: s -> l !! i = Some x /\ drop (S i) l = s.
Proof.
  intros H. split.
  - rewrite <- (Nat.add_0_r i), <- lookup_drop, H. done.
  - rewrite <- (drop_drop _ i 1 : drop 1 (drop i l) = drop (i + 1) l) || rewrite <- Nat.add_1_r, <- drop_drop.
    by rewrite H.
Qed.
Lemma drop_nil_lookup {A} (l : list A) i : drop i l = [] -> l !! i = None.
Proof. intros H. by rewrite <- (Nat.add_0_r i), <- lookup_drop, H. Qed.

Lemma single_range b ch : ((b <=? ch) && (ch <=? b))%N = (b =? ch)%N.
Proof. apply eq_true_iff_eq. rewrite andb_true_iff, !N.leb_le, N.eqb_eq. lia. Qed.

Lemma class_loop_spec ch pattern fuel : forall idx matched s,
  drop idx pattern = s -> (length s <= fuel)%nat ->
  match parse_items s with
  | None => exists m, class_loop fuel ch pattern idx matched = Some (None, m)
  | Some (items, rest) => exists i,
      class_loop fuel ch pattern idx matched = Some (Some i, in_items items ch || matched) /\
      drop (S i) pattern = rest /\ (i < length pattern)%nat
  end.
Proof.
  induction fuel as [|fuel IH]; intros idx matched s Hs Hf.
  { destruct s; [|simpl in Hf; lia]. simpl. rewrite (drop_nil_lookup _ _ Hs). by eexists. }
  destruct s as [|b s1]; simpl.
  { rewrite (drop_nil_lookup _ _ Hs). by eexists. }
  destruct (drop_lookup_cons _ _ _ _ Hs) as [Hb Hs1]. rewrite Hb. simpl in Hf.
  destruct (b =? CLOSE_BRACKET)%N.
  { exists idx. split_and!; [done|done|]. by eapply lookup_lt_Some. }
  assert (forall items, in_items ((b, b) :: items) ch = (b =? ch)%N || in_items items ch) as Hbb.
  { intros items. simpl. by rewrite single_range. }
  assert (match parse_items s1 with
    | None => exists m, class_loop fuel ch pattern (idx + 1) ((b =? ch)%N || matched) = Some (None, m)
    | Some (items, rest) => exists i,
        class_loop fuel ch pattern (idx + 1) ((b =? ch)%N || matched) =
          Some (Some i, in_items ((b, b) :: items) ch || matched) /\
        drop (S i) pattern = rest /\ (i < length pattern)%nat
    end) as Hone.
  { specialize (IH (idx + 1) ((b =? ch)%N || matched) s1). rewrite Nat.add_1_r in *.
    specialize (IH Hs1 ltac:(lia)). destruct (parse_items s1) as [[items rest]|]; [|done].
    destruct IH as (i & -> & Hi). exists i. split; [|done]. rewrite Hbb.
    by destruct (b =? ch)%N, (in_items items ch), matched. }
  destruct s1 as [|dash s2].
  { rewrite Nat.add_1_r, (drop_nil_lookup _ _ Hs1). rewrite Nat.add_1_r in Hone. simpl in Hone |- *.
    destruct (pattern !! (idx + 2)%nat); exact Hone. }
  destruct (drop_lookup_cons _ _ _ _ Hs1) as [Hd Hs2].
  replace (pattern !! (idx + 1)%nat) with (Some dash) by (rewrite <- Hd; f_equal; lia).
  destruct s2 as [|e s3].
  { replace (pattern !! (idx + 2)%nat) with (@None N); [|symmetry; rewrite <- (drop_nil_lookup _ _ Hs2); f_equal; lia].
    destruct (parse_items [dash]) as [[items rest]|]; exact Hone. }
  destruct (drop_lookup_cons _ _ _ _ Hs2) as [He Hs3].
  replace (pattern !! (idx + 2)%nat) with (Some e) by (rewrite <- He; f_equal; lia).
  destruct ((dash =? DASH)%N && negb (e =? CLOSE_BRACKET)%N) eqn:Hrange.
  - specialize (IH (idx + 3) (((b <=? ch) && (ch <=? e))%N || matched) s3).
    specialize (IH ltac:(rewrite <- Hs3; f_equal; lia) ltac:(simpl in Hf; lia)).
    destruct (parse_items s3) as [[items rest]|]; simpl; [|done].
    destruct IH as (i & -> & Hi). exists i. split; [|done]. f_equal. f_equal.
    by destruct ((b <=? ch)%N && (ch <=? e)%N), (in_items items ch), matched.
  - destruct (parse_items (dash :: e :: s3)) as [[items rest]|]; exact Hone.
Qed.

(** ** One byte of a pattern *)

(** The set of bytes the head of a pattern stands for and the rest of the pattern; none
    at a star, at the end and at a bracket that is never closed. *)
Definition one_char (p : Bytes) : option ((N -> bool) * Bytes) :=
  match p with
  | [] => None
  | b :: q =>
      if (b =? QUESTION)%N then Some (fun _ => true, q)
      else if (b =? STAR)%N then None
      else if (b =? OPEN_BRACKET)%N then
        '(negated, items, rest) ← parse_class q;
        Some (fun ch => bool_decide (in_items items ch <> negated), rest)
      else Some (fun ch => (b =? ch)%N, q)
  end.
Definition one_step (x y : Bytes * Bytes) : Prop :=
  exists f ch, one_char x.1 = Some (f, y.1) /\ x.2 = ch :: y.2 /\ f ch = true.

Lemma parse_items_length s items rest : parse_items s = Some (items, rest) -> (length rest < length s)%nat.
Proof.
  remember (length s) as n eqn:Hn. revert s items rest Hn.
  induction n as [n IH] using lt_wf_ind. intros [|b s1] items rest ->; [done|]. simpl.
  destruct (b =? CLOSE_BRACKET)%N; [intros [= _ <-]; lia|].
  assert (forall items rest, parse_items s1 = Some (items, rest) -> (length rest < length s1)%nat) as H1.
  { intros i r. apply (IH (length s1)); [simpl; lia|done]. }
  destruct s1 as [|dash [|e s3]].
  1,2: intros ([i r] & H & [= _ <-])%bind_Some; specialize (H1 _ _ H); simpl in *; lia.
  destruct ((dash =? DASH)%N && negb (e =? CLOSE_BRACKET)%N).
  - intros ([i r] & H & [= _ <-])%bind_Some. apply (IH (length s3)) in H; [simpl; lia|simpl; lia|done].
  - intros ([i r] & H & [= _ <-])%bind_Some. specialize (H1 _ _ H). simpl in *. lia.
Qed.

Lemma glob_one p ch s :
  glob p (ch :: s) <->
  (exists q, p = STAR :: q /\ exists skipped t, ch :: s = skipped ++ t /\ glob q t) \/
  (exists f q, one_char p = Some (f, q) /\ f ch = true /\ glob q s).
Proof.
  split.
  - intros H. inversion H as [|q skipped t Hg Heq1 Heq2|q c t Hg|b negated items q c t Hp Hi Hg|b q t H1 H2 H3 Hg]; subst.
    + left. exists q. split; [done|]. by exists skipped, t.
    + right. eexists _, _. split; [done|]. done.
    + right. eexists _, _. split; [simpl; by rewrite Hp|]. split; [by apply bool_decide_eq_true|done].
    + right. exists (fun c => (ch =? c)%N), q. split; [|split; [by apply N.eqb_refl|done]]. simpl.
      by rewrite (proj2 (N.eqb_neq _ _) H2), (proj2 (N.eqb_neq _ _) H1), (proj2 (N.eqb_neq _ _) H3).
  - intros [(q & -> & skipped & t & -> & Hg)|(f & q & Hone & Hf & Hg)]; [by constructor|].
    destruct p as [|b p]; [done|]. simpl in Hone.
    destruct (N.eqb_spec b QUESTION) as [->|H1]; [injection Hone as <- <-; by constructor|].
    destruct (N.eqb_spec b STAR) as [|H2]; [done|].
    destruct (N.eqb_spec b OPEN_BRACKET) as [->|H3].
    + apply bind_Some in Hone as ([[negated items] rest] & Hp & [= <- <-]). apply bool_decide_eq_true in Hf.
      by eapply glob_class.
    + injection Hone as <- <-. apply N.eqb_eq in Hf as <-. by constructor.
Qed.
Lemma glob_end p : glob p [] <-> Forall (fun b => b = STAR) p.
Proof.
  split.
  - remember [] as s eqn:Hs. induction 1 as [|q skipped t Hg IH| | |]; try done.
    apply app_eq_nil in Hs as [_ ->]. constructor; [done|by apply IH].
  - induction 1 as [|b q -> Hq IH]; [constructor|]. by apply (glob_star q []).
Qed.
Lemma one_char_not_star p f q : one_char p = Some (f, q) -> forall r, p <> STAR :: r.
Proof. by intros H r ->. Qed.

Lemma glob_step p f q ch s : one_char p = Some (f, q) -> f ch = true -> glob p (ch :: s) <-> glob q s.
Proof.
  intros Ho Hf. rewrite glob_one. split.
  - intros [(r & -> & _)|(f' & q' & Ho' & _ & Hg)]; [done|]. rewrite Ho in Ho'. by injection Ho' as _ <-.
  - intros Hg. right. by exists f, q.
Qed.
Lemma glob_consume p f q t : one_char p = Some (f, q) -> glob p t -> exists ch t', t = ch :: t' /\ f ch = true /\ glob q t'.
Proof.
  intros Ho Hg. destruct t as [|ch t].
  - apply glob_end in Hg. destruct Hg as [|b r -> _]; done.
  - exists ch, t. apply glob_one in Hg as [(r & -> & _)|(f' & q' & Ho' & Hf & Hg)]; [done|].
    rewrite Ho in Ho'. by injection Ho' as <- <-.
Qed.

(** A block of one-byte steps takes as many bytes wherever it starts. *)
Lemma block_length x y : rtc one_step x y -> (length y.2 <= length x.2)%nat.
Proof. induction 1 as [|x y z (f & ch & _ & Hs & _) _ IH]; [done|]. rewrite Hs. simpl. lia. Qed.
Lemma block_glob x y : rtc one_step x y -> glob y.1 y.2 -> glob x.1 x.2.
Proof.
  induction 1 as [|x y z (f & ch & Ho & Hs & Hf) _ IH]; [done|]. intros Hg. rewrite Hs.
  apply (glob_step _ _ _ _ _ Ho Hf). by apply IH.
Qed.
Lemma block_transfer x y :
  rtc one_step x y -> forall t, glob x.1 t ->
  (length x.2 - length y.2 <= length t)%nat /\ glob y.1 (drop (length x.2 - length y.2) t).
Proof.
  induction 1 as [x|x y z (f & ch & Ho & Hs & Hf) Hb IH]; intros t Hg.
  { rewrite Nat.sub_diag. split; [lia|by rewrite drop_0]. }
  destruct (glob_consume _ _ _ _ Ho Hg) as (c & t' & -> & _ & Hg'). destruct (IH t' Hg') as [Hl Hg2].
  pose proof (block_length _ _ Hb) as Hle. rewrite Hs. cbn [length].
  replace (S (length y.2) - length z.2)%nat with (S (length y.2 - length z.2)) by lia.
  split; [lia|]. exact Hg2.
Qed.

(** ** The loop *)

Lemma char_class_spec ch pattern start q :
  drop (S start) pattern = q ->
  exists r, char_class_matches ch pattern start = Some r /\
  match parse_class q with
  | Some (negated, items, rest) =>
      if bool_decide (in_items items ch <> negated)
      then exists j, r = Some j /\ drop j pattern = rest /\ (start < j <= length pattern)%nat
      else r = None
  | None => r = None
  end.
Proof.
  intros Hq. unfold char_class_matches. rewrite Nat.add_1_r. destruct q as [|b q].
  { rewrite (drop_nil_lookup _ _ Hq). by exists None. }
  destruct (drop_lookup_cons _ _ _ _ Hq) as [Hb Hq']. rewrite Hb. simpl parse_class. cbv zeta.
  set (negated := ((b =? 33)%N || (b =? 94)%N)).
  pose proof (class_loop_spec ch pattern (length pattern) (if negated then start + 2 else S start) false
    (if negated then q else b :: q)) as Hc.
  assert (drop (if negated then start + 2 else S start) pattern = if negated then q else b :: q) as Hd.
  { destruct negated; [rewrite <- Hq'; f_equal; lia|done]. }
  specialize (Hc Hd). rewrite <- Hd, length_drop in Hc. specialize (Hc ltac:(lia)). rewrite Hd in Hc.
  destruct (parse_items _) as [[items rest]|] eqn:Hp; cbn [mbind option_bind].
  - destruct Hc as (i & -> & Hr & Hi). cbn [mbind option_bind]. rewrite orb_false_r. eexists. split; [done|].
    case_bool_decide; [|done]. exists (i + 1)%nat. split; [done|]. rewrite Nat.add_1_r. split; [done|].
    split; [|lia]. assert (length rest = length pattern - S i)%nat as Hl by by rewrite <- Hr, length_drop.
    apply parse_items_length in Hp. rewrite <- Hd, length_drop, Hl in Hp. destruct negated; lia.
  - destruct Hc as (m & ->). by eexists.
Qed.

(** Where [advance] goes: past a star, past one admitted byte, or nowhere. *)
Lemma advance_spec path pattern ch s p :
  drop s.(pattern_idx) pattern = p ->
  exists r, advance path pattern ch s = Some r /\
  ((exists q, p = STAR :: q /\
      r = Some (mkMatch s.(path_idx) (S s.(pattern_idx)) (Some s.(pattern_idx)) s.(path_idx))) \/
   (exists f q j, one_char p = Some (f, q) /\ f ch = true /\ drop j pattern = q /\
      (s.(pattern_idx) < j <= length pattern)%nat /\
      r = Some (mkMatch (S s.(path_idx)) j s.(star) s.(star_path_idx))) \/
   (r = None /\ (forall q, p <> STAR :: q) /\ forall f q, one_char p = Some (f, q) -> f ch = false)).
Proof.
  intros Hp. unfold advance. destruct p as [|b p].
  { rewrite (drop_nil_lookup _ _ Hp). exists None. split; [done|]. right; right. by split_and!. }
  destruct (drop_lookup_cons _ _ _ _ Hp) as [Hb Hp']. rewrite Hb. simpl one_char.
  pose proof (lookup_lt_Some _ _ _ Hb) as Hlt.
  destruct (N.eqb_spec b QUESTION) as [->|H1].
  { eexists. split; [done|]. right; left. eexists _, _, _. split; [done|]. split_and!; try done; lia. }
  destruct (N.eqb_spec b STAR) as [->|H2].
  { eexists. split; [done|]. left. by eexists. }
  destruct (N.eqb_spec b OPEN_BRACKET) as [->|H3].
  - destruct (char_class_spec ch pattern s.(pattern_idx) p Hp') as (r & -> & Hr). cbn [mbind option_bind].
    eexists. split; [done|]. destruct (parse_class p) as [[[negated items] rest]|]; cbn [mbind option_bind].
    + case_bool_decide as Hi.
      * destruct Hr as (j & -> & Hj & Hlj). right; left. eexists _, _, j. split; [done|].
        split_and!; try done; try lia. by apply bool_decide_eq_true.
      * subst r. right; right. split_and!; [done|done|]. intros f q [= <- <-]. apply bool_decide_eq_false_2. tauto.
    + subst r. right; right. by split_and!.
  - destruct (N.eqb_spec b ch) as [->|H4].
    + eexists. split; [done|]. right; left. eexists _, _, _. split; [done|].
      split_and!; try done; try lia. apply N.eqb_refl.
    + eexists. split; [done|]. right; right. split_and!; [done|congruence|].
      intros f q [= <- <-]. by apply N.eqb_neq.
Qed.

(** The positions left to the loop: of the pattern for a star, of the path for the next
    attempt, of the path in this attempt. *)
Definition star_room (pattern : Bytes) (s : MatchState) : nat :=
  match s.(star) with None => length pattern | Some k => length pattern - S k end.
Definition measure (path pattern : Bytes) (s : MatchState) : nat :=
  star_room pattern s * (S (length path) * S (length path)) +
  (length path - match s.(star) with None => 0 | Some _ => s.(star_path_idx) end) * S (length path) +
  (length path - s.(path_idx)).
(** What the loop knows: without a star the rest decides; with one, the bytes since its
    last restart match the block after it, and some restart from there on decides. *)
Definition loop_inv (path pattern : Bytes) (s : MatchState) : Prop :=
  (s.(path_idx) <= length path)%nat /\
  match s.(star) with
  | None => glob pattern path <-> glob (drop s.(pattern_idx) pattern) (drop s.(path_idx) path)
  | Some k =>
      (k < s.(pattern_idx))%nat /\ (k < length pattern)%nat /\
      (s.(star_path_idx) <= s.(path_idx))%nat /\
      rtc one_step (drop (S k) pattern, drop s.(star_path_idx) path)
        (drop s.(pattern_idx) pattern, drop s.(path_idx) path) /\
      (glob pattern path <-> exists m, (s.(star_path_idx) <= m <= length path)%nat /\
         glob (drop (S k) pattern) (drop m path))
  end.

Lemma drop_drop_add {A} (l : list A) i j : drop j (drop i l) = drop (i + j) l.
Proof. by rewrite drop_drop. Qed.

Lemma star_suffix q path i :
  (i <= length path)%nat ->
  glob (STAR :: q) (drop i path) <-> exists m, (i <= m <= length path)%nat /\ glob q (drop m path).
Proof.
  intros Hi. split.
  - intros H. inversion H as [|q' skipped t Hg E1 E2| | |]; subst; [|done].
    assert (drop (length skipped) (drop i path) = t) as Ht by by rewrite <- E2, drop_app_length.
    exists (i + length skipped)%nat. rewrite <- drop_drop_add, Ht. split; [|done].
    apply (f_equal length) in E2. rewrite length_app, length_drop in E2. lia.
  - intros (m & Hm & Hg). rewrite <- (take_drop (m - i) (drop i path)), drop_drop_add.
    replace (i + (m - i))%nat with m by lia. by constructor.
Qed.

(** A new star: what the block before it would match elsewhere, it also matches here. *)
Lemma inv_star path pattern s q :
  loop_inv path pattern s -> drop s.(pattern_idx) pattern = STAR :: q ->
  loop_inv path pattern (mkMatch s.(path_idx) (S s.(pattern_idx)) (Some s.(pattern_idx)) s.(path_idx)).
Proof.
  intros [Hle Hinv] Hp. destruct (drop_lookup_cons _ _ _ _ Hp) as [Hb Hq].
  pose proof (lookup_lt_Some _ _ _ Hb) as Hlt. split; [done|]. simpl. split_and!; [lia|lia|done|done|].
  rewrite Hq. destruct s.(star) as [k|]; [|by rewrite Hinv, Hp, star_suffix].
  destruct Hinv as (Hk & Hkl & Hsp & Hblock & Hiff). rewrite Hiff. split.
  - intros (m & Hm & Hg). destruct (block_transfer _ _ Hblock _ Hg) as [Hl Hg2]. simpl in Hl, Hg2.
    rewrite 3!length_drop in Hl. rewrite 2!length_drop, drop_drop_add, Hp in Hg2.
    apply star_suffix in Hg2 as (m' & Hm' & Hg2); [|lia]. exists m'. split; [lia|done].
  - intros Hm. exists s.(star_path_idx). split; [lia|]. apply (block_glob _ _ Hblock). simpl.
    rewrite Hp. by apply star_suffix.
Qed.

(** One admitted byte extends the block. *)
Lemma inv_step path pattern s f q ch j :
  loop_inv path pattern s -> path !! s.(path_idx) = Some ch ->
  one_char (drop s.(pattern_idx) pattern) = Some (f, q) -> f ch = true -> drop j pattern = q ->
  (s.(pattern_idx) < j)%nat ->
  loop_inv path pattern (mkMatch (S s.(path_idx)) j s.(star) s.(star_path_idx)).
Proof.
  intros [Hle Hinv] Hch Ho Hf Hq Hj. pose proof (lookup_lt_Some _ _ _ Hch) as Hlt.
  pose proof (drop_S _ _ _ Hch) as Hd. split; [simpl; lia|]. simpl. destruct s.(star) as [k|].
  - destruct Hinv as (Hk & Hkl & Hsp & Hblock & Hiff). split_and!; [lia|done|lia| |done].
    eapply rtc_r; [exact Hblock|]. exists f, ch. simpl. by rewrite Hq.
  - rewrite Hinv, Hd, Hq. by apply glob_step with f.
Qed.

(** No way on: without a star the pattern does not match, with one this restart fails. *)
Lemma inv_stuck path pattern s ch :
  loop_inv path pattern s -> path !! s.(path_idx) = Some ch ->
  (forall q, drop s.(pattern_idx) pattern <> STAR :: q) ->
  (forall f q, one_char (drop s.(pattern_idx) pattern) = Some (f, q) -> f ch = false) ->
  match s.(star) with
  | None => ~ glob pattern path
  | Some k => loop_inv path pattern (mkMatch (S s.(star_path_idx)) (S k) s.(star) (S s.(star_path_idx)))
  end.
Proof.
  intros [Hle Hinv] Hch Hns Hno. pose proof (lookup_lt_Some _ _ _ Hch) as Hlt.
  assert (~ glob (drop s.(pattern_idx) pattern) (drop s.(path_idx) path)) as Hfail.
  { rewrite (drop_S _ _ _ Hch), glob_one. intros [(q & Hq & _)|(f & q & Ho & Hf & _)]; [by eapply Hns|].
    rewrite (Hno f q Ho) in Hf. done. }
  destruct s.(star) as [k|] eqn:Es; [|by rewrite Hinv].
  destruct Hinv as (Hk & Hkl & Hsp & Hblock & Hiff). split; [simpl; lia|]. simpl.
  split_and!; [lia|done|done|done|]. rewrite Hiff. split; intros (m & Hm & Hg); exists m; (split; [|done]); [|lia].
  destruct (decide (m = s.(star_path_idx))) as [->|]; [|lia]. exfalso. apply Hfail.
  destruct (block_transfer _ _ Hblock _ Hg) as [_ Hg2]. simpl in Hg2.
  rewrite !length_drop, drop_drop_add in Hg2.
  by replace (s.(star_path_idx) + (length path - s.(star_path_idx) - (length path - s.(path_idx))))%nat
    with s.(path_idx) in Hg2 by lia.
Qed.

(** The path is used up: only stars may be left. *)
Lemma inv_end path pattern s :
  loop_inv path pattern s -> path !! s.(path_idx) = None ->
  forallb (fun b => b =? STAR)%N (drop s.(pattern_idx) pattern) = true <-> glob pattern path.
Proof.
  intros [Hle Hinv] Hn. apply lookup_ge_None in Hn. assert (s.(path_idx) = length path) as Hpi by lia.
  rewrite Hpi, drop_all in Hinv.
  assert (forall p, forallb (fun b => b =? STAR)%N p = true <-> glob p []) as Hstars.
  { intros p. rewrite glob_end, forallb_forall, Forall_forall. setoid_rewrite <- list_elem_of_In.
    by setoid_rewrite N.eqb_eq. }
  rewrite Hstars. destruct s.(star) as [k|]; [|by symmetry].
  destruct Hinv as (Hk & Hkl & Hsp & Hblock & Hiff). rewrite Hiff. split.
  - intros Hg. exists s.(star_path_idx). split; [lia|]. by apply (block_glob _ _ Hblock).
  - intros (m & Hm & Hg). destruct (block_transfer _ _ Hblock _ Hg) as [Hl Hg2]. simpl in Hl, Hg2.
    rewrite 2!length_drop in Hl. rewrite length_drop, drop_drop_add in Hg2. simpl in Hl.
    rewrite (drop_ge path) in Hg2 by lia. done.
Qed.

Lemma match_loop_ok path pattern fuel : forall s,
  loop_inv path pattern s -> (measure path pattern s <= fuel)%nat ->
  exists b, match_loop fuel path pattern s = Some b /\ (b = true <-> glob pattern path).
Proof.
  induction fuel as [|fuel IH]; intros s Hi Hf; cbn [match_loop];
    (destruct (path !! s.(path_idx)) as [ch|] eqn:Hch; [|eexists; split; [done|by apply inv_end]]).
  { exfalso. apply lookup_lt_Some in Hch. unfold measure in Hf. lia. }
  pose proof (lookup_lt_Some _ _ _ Hch) as Hlt.
  destruct (advance_spec path pattern ch s _ eq_refl)
    as (r & -> & [(q & Hq & ->)|[(f & q & j & Ho & Hfc & Hj & Hlj & ->)|(-> & Hns & Hno)]]);
    cbn [mbind option_bind].
  - apply IH; [by eapply inv_star|]. revert Hf. unfold measure, star_room; simpl.
    destruct Hi as [_ Hi]. destruct (drop_lookup_cons _ _ _ _ Hq) as [Hb _]. apply lookup_lt_Some in Hb.
    destruct s.(star) as [k|]; [destruct Hi as (Hk & _)|]; nia.
  - apply IH; [apply (inv_step _ _ _ f q ch); [done..|lia]|]. revert Hf. unfold measure, star_room; simpl. lia.
  - pose proof (inv_stuck _ _ _ _ Hi Hch Hns Hno) as Hs. destruct Hi as [_ Hi].
    destruct s.(star) as [k|] eqn:Es.
    + apply IH; [exact Hs|]. revert Hf. unfold measure, star_room. rewrite Es. simpl.
      destruct Hi as (_ & _ & Hsp & _). nia.
    + exists false. by split.
Qed.
Lemma wildcard_match_iff path pattern :
  exists b, wildcard_match path pattern = Some b /\ (b = true <-> glob pattern path).
Proof.
  apply match_loop_ok.
  - split; [simpl; lia|]. simpl. by rewrite !drop_0.
  - unfold measure, star_room, match_fuel. simpl. nia.
Qed.

(** ** Theorems *)

(** C26 The backtracking wildcard matcher always terminates, with the exact language of
    the pattern: restarting only the last star loses no match, and a match never reads
    outside of path or pattern. *)
Theorem wildcard_match_exact path entry :
  exists b, path_matches_glob_entry path entry = Some b /\
    (b = true <-> glob (bytes_of (lower entry)) (bytes_of (lower path))).
Proof. apply wildcard_match_iff. Qed.

Lemma segments_match_ok fuel : forall path pattern,
  (length path + length pattern < fuel)%nat ->
  exists b, language_glob_segments_match fuel path pattern = Some b /\ (b = true <-> segments pattern path).
Proof.
  induction fuel as [|fuel IH]; intros path pattern Hf; [lia|]. cbn [language_glob_segments_match].
  destruct pattern as [|head tail]; simpl in Hf.
  { eexists. split; [done|]. split; [|intros H; by inversion H]. destruct path; [constructor|done]. }
  case_bool_decide as Hd.
  - subst head. destruct (IH path tail ltac:(lia)) as ([] & -> & Hb); cbn [mbind option_bind].
    { exists true. split; [done|]. split; [|done]. intros _. apply (segments_deep tail []), Hb. done. }
    destruct path as [|seg path].
    + exists false. split; [done|]. split; [done|]. intros H. inversion H as [|t sk p Hp E1 E2|]; subst.
      apply app_eq_nil in E2 as [_ ->]. by apply Hb.
    + simpl in Hf. destruct (IH path (DEEP :: tail)) as (b & -> & Hb'); [simpl; lia|]. exists b. split; [done|].
      rewrite Hb'. split.
      * intros H. inversion H as [|t sk p Hp E1 E2|]; subst; [|done]. by apply (segments_deep tail (seg :: sk)).
      * intros H. inversion H as [|t sk p Hp E1 E2|]; subst; [|done].
        destruct sk as [|x sk]; simpl in E2; [subst p; by apply Hb in Hp|]. injection E2 as -> <-. by constructor.
  - destruct path as [|seg path].
    + exists false. split; [done|]. split; [done|]. intros H. by inversion H.
    + simpl in Hf. destruct (wildcard_match_iff seg head) as ([] & -> & Hw); cbn [mbind option_bind].
      * destruct (IH path tail ltac:(lia)) as (b & -> & Hb). exists b. split; [done|]. rewrite Hb. split.
        -- intros H. constructor; [done|by apply Hw|done].
        -- intros H. by inversion H.
      * exists false. split; [done|]. split; [done|]. intros H. inversion H; subst; [done|]. by apply Hw.
Qed.
Lemma split_slash_join s : forall seg segs, split_slash s = seg :: segs ->
  s = foldl (fun acc x => acc ++ SLASH :: x) seg segs /\ Forall (fun x => SLASH ∉ x) (seg :: segs).
Proof.
  induction s as [|b s IH]; intros seg segs; simpl.
  { intros [= <- <-]. split; [done|]. constructor; [by apply not_elem_of_nil|done]. }
  assert (forall x y (l : list Bytes), foldl (fun acc z => acc ++ SLASH :: z) (x ++ y) l =
    x ++ foldl (fun acc z => acc ++ SLASH :: z) y l) as Happ.
  { intros x y l. revert y. induction l as [|z l IHl]; intros y; simpl; [done|].
    by rewrite <- (assoc_L (++)), IHl. }
  destruct (split_slash s) as [|seg' segs'] eqn:Es.
  { exfalso. destruct s as [|c s]; simpl in Es; [done|]. repeat case_match; done. }
  destruct (IH seg' segs' eq_refl) as [Hs Hf].
  destruct (N.eqb_spec b SLASH) as [->|Hb]; intros [= <- <-].
  - split; [|constructor; [by apply not_elem_of_nil|done]]. simpl. by rewrite (Happ [SLASH] seg'), <- Hs.
  - split.
    + rewrite (Happ [b] seg'), <- Hs. done.
    + inversion Hf as [|? ? H1 H2]; subst. constructor; [|done]. set_solver.
Qed.

(** The matcher of the language overrides always terminates, with the exact language
    of the segment pattern: [**] stands for any number of whole segments, every other
    segment for one segment it matches. *)
Theorem language_override_exact path pattern :
  exists b, language_override_glob_matches path pattern = Some b /\
    (b = true <-> segments (split_slash (bytes_of (lower pattern))) (split_slash (bytes_of (lower path)))).
Proof. apply segments_match_ok. lia. Qed.

Example glob_1 : path_matches_glob_entry "src/a1.c" "src/a?.c" = Some true.
Proof. vm_compute. reflexivity. Qed.
Example glob_2 : path_matches_glob_entry "src/c.c" "src/[ab].c" = Some false.
Proof. vm_compute. reflexivity. Qed.
Example glob_3 : path_matches_glob_entry "SRC/xaxab" "src/*a[!c]" = Some true.
Proof. vm_compute. reflexivity. Qed.
Example glob_4 : language_override_glob_matches "src/api.h" "src/**/*.h" = Some true.
Proof. vm_compute. reflexivity. Qed.
