(* ===== verification/Arrays.v ===== *)
(** * Index arrays with [u32] entries

    The vectors of [u32] the name index is built from: checked identifiers and sums,
    checked indexing ([None] is the panic of an index out of range or of an [expect]),
    and the counting layout shared by its posting lists: count the members of every
    bucket, lay the buckets out one after the other, scatter the members. *)

From S2P Require Import Prelude.

Definition u32_max : N := 4294967295.
(** [u32::try_from(n).expect(..)] *)
Definition u32_try (n : nat) : option N :=
  if (N.of_nat n <=? u32_max)%N then Some (N.of_nat n) else None.
(** [a.checked_add(b).expect(..)] *)
Definition u32_add (a b : N) : option N :=
  if (a + b <=? u32_max)%N then Some (a + b)%N else None.
Definition get {A} (l : list A) (i : N) : option A := l !! N.to_nat i.
Definition put {A} (l : list A) (i : N) (x : A) : option (list A) :=
  if (i <? N.of_nat (length l))%N then Some (<[N.to_nat i := x]> l) else None.
(** [&l[start..stop]] *)
Definition slice {A} (l : list A) (start stop : N) : option (list A) :=
  if ((start <=? stop) && (stop <=? N.of_nat (length l)))%N
  then Some (take (N.to_nat (stop - start)) (drop (N.to_nat start) l)) else None.
Fixpoint foldM {S A} (f : S -> A -> option S) (s : S) (l : list A) : option S :=
  match l with [] => Some s | x :: l => s ← f s x; foldM f s l end.

(** ** The counting layout *)

(** [counts[bucket] = counts[bucket].checked_add(1).expect(..)] *)
Definition count_one (counts : list N) (bucket : N) : option (list N) :=
  c ← get counts bucket; c ← u32_add c 1; put counts bucket c.
Definition count_all (n : nat) (buckets : list N) : option (list N) :=
  foldM count_one (replicate n 0%N) buckets.
(** One member moved to the next free place of its bucket. *)
Definition scatter_one {A} (st : list N * list A) (item : N * A) : option (list N * list A) :=
  let '(positions, out) := st in
  position ← get positions item.1;
  out ← put out position item.2;
  positions ← put positions item.1 (position + 1)%N;
  Some (positions, out).
Definition scatter {A} (positions : list N) (out : list A) (items : list (N * A)) :
    option (list A) := snd <$> foldM scatter_one (positions, out) items.

(** ** Specification *)

Section spec.
Context {A : Type}.
Implicit Types (items : list (N * A)) (out : list A) (pos : list N).

Definition bucket (b : N) items : list A := snd <$> List.filter (fun it => N.eqb it.1 b) items.
Definition count_of (b : N) items : nat := length (bucket b items).

Lemma bucket_cons b it items :
  bucket b (it :: items) = if N.eqb it.1 b then it.2 :: bucket b items else bucket b items.
Proof. unfold bucket; simpl. by destruct (N.eqb it.1 b). Qed.
Lemma count_of_cons b it items :
  count_of b (it :: items) = ((if N.eqb it.1 b then 1 else 0) + count_of b items)%nat.
Proof. unfold count_of. rewrite bucket_cons. by destruct (N.eqb it.1 b). Qed.

(** The free places the members still to come will take. *)
Record room pos out items : Prop := {
  room_bound it : it ∈ items -> (N.to_nat it.1 < length pos)%nat;
  room_fits b p : get pos b = Some p -> (N.to_nat p + count_of b items <= length out)%nat;
  room_apart b b' p p' : b <> b' -> get pos b = Some p -> get pos b' = Some p' ->
    (N.to_nat p + count_of b items <= N.to_nat p')%nat \/ (N.to_nat p' + count_of b' items <= N.to_nat p)%nat
    \/ count_of b items = 0 \/ count_of b' items = 0;
}.

Lemma get_put (l : list N) i x l' j :
  put l i x = Some l' -> get l' j = if decide (i = j) then Some x else get l j.
Proof.
  unfold put, get. case_match eqn:E; intros [= <-]. apply N.ltb_lt in E. case_decide as H.
  - subst j. apply list_lookup_insert_eq. lia.
  - apply list_lookup_insert_ne. lia.
Qed.
End spec.

Lemma put_ok {A} (l : list A) i x : (N.to_nat i < length l)%nat -> put l i x = Some (<[N.to_nat i := x]> l).
Proof. intros H. unfold put. by rewrite (proj2 (N.ltb_lt _ _)) by lia. Qed.
Lemma get_lt {A} (l : list A) i x : get l i = Some x -> (N.to_nat i < length l)%nat.
Proof. apply lookup_lt_Some. Qed.
Lemma get_ok {A} (l : list A) i : (N.to_nat i < length l)%nat -> exists x, get l i = Some x.
Proof. apply lookup_lt_is_Some_2. Qed.
Lemma u32_try_Some n i : u32_try n = Some i <-> i = N.of_nat n /\ (N.of_nat n <= u32_max)%N.
Proof. unfold u32_try. case_match eqn:E; [apply N.leb_le in E|apply N.leb_gt in E]; split; [intros [= <-]; done|by intros [-> _]|done|lia]. Qed.
Lemma u32_add_Some a b c : u32_add a b = Some c <-> c = (a + b)%N /\ (a + b <= u32_max)%N.
Proof. unfold u32_add. case_match eqn:E; [apply N.leb_le in E|apply N.leb_gt in E]; split; [intros [= <-]; done|by intros [-> _]|done|lia]. Qed.
Lemma u32_add_ok a b : (a + b <= u32_max)%N -> u32_add a b = Some (a + b)%N.
Proof. intros H. by apply u32_add_Some. Qed.
Lemma u32_try_ok n : (N.of_nat n <= u32_max)%N -> u32_try n = Some (N.of_nat n).
Proof. intros H. by apply u32_try_Some. Qed.
Lemma foldM_app {S A} (f : S -> A -> option S) s l1 l2 :
  foldM f s (l1 ++ l2) = (s ← foldM f s l1; foldM f s l2).
Proof. revert s. induction l1 as [|x l1 IH]; intros s; simpl; [done|]. destruct (f s x); simpl; [apply IH|done]. Qed.
Lemma foldM_snoc {S A} (f : S -> A -> option S) s l x :
  foldM f s (l ++ [x]) = (s ← foldM f s l; f s x).
Proof. rewrite foldM_app. destruct (foldM f s l); simpl; [|done]. by destruct (f _ x). Qed.

Section counting.
(** Occurrences of a bucket in a list of buckets. *)
Definition occurrences (b : N) (l : list N) : nat := length (List.filter (N.eqb b) l).
Lemma occurrences_cons b c l :
  occurrences b (c :: l) = ((if N.eqb b c then 1 else 0) + occurrences b l)%nat.
Proof. unfold occurrences; simpl. by destruct (N.eqb b c). Qed.
Lemma occurrences_length b l : (occurrences b l <= length l)%nat.
Proof. unfold occurrences. apply sublist_length, list_filter_bool_sublist. Qed.
Lemma count_of_occurrences {A} b (items : list (N * A)) : count_of b items = occurrences b items.*1.
Proof.
  induction items as [|it items IH]; [done|]. rewrite count_of_cons, fmap_cons, occurrences_cons, IH.
  by rewrite N.eqb_sym.
Qed.

Lemma count_loop buckets : forall counts : list N,
  (forall b, b ∈ buckets -> (N.to_nat b < length counts)%nat) ->
  (forall b c, get counts b = Some c -> (c + N.of_nat (occurrences b buckets) <= u32_max)%N) ->
  exists counts', foldM count_one counts buckets = Some counts' /\ length counts' = length counts /\
    forall b c, get counts b = Some c -> get counts' b = Some (c + N.of_nat (occurrences b buckets))%N.
Proof.
  induction buckets as [|b0 buckets IH]; intros counts Hb Hc; cbn [foldM].
  { exists counts. split_and!; [done..|]. intros b c Hg. unfold occurrences; simpl. by rewrite N.add_0_r. }
  destruct (get_ok counts b0) as [c0 Hc0]; [apply Hb; left|].
  pose proof (Hc _ _ Hc0) as Hm. rewrite occurrences_cons, N.eqb_refl in Hm.
  pose proof (get_lt _ _ _ Hc0) as Hlt.
  assert (count_one counts b0 = Some (<[N.to_nat b0:=(c0 + 1)%N]> counts)) as ->.
  { unfold count_one. rewrite Hc0; simpl. rewrite u32_add_ok by lia. by apply put_ok. }
  cbn [mbind option_bind].
  assert (forall b, get (<[N.to_nat b0:=(c0 + 1)%N]> counts) b =
    if decide (b0 = b) then Some (c0 + 1)%N else get counts b) as Hget.
  { intros b. by apply (get_put counts b0), put_ok. }
  destruct (IH (<[N.to_nat b0:=(c0 + 1)%N]> counts)) as (counts' & -> & Hl & Hr).
  - intros b Hin. rewrite length_insert. apply Hb. by right.
  - intros b c. rewrite Hget. case_decide as Hd; [intros [= <-]; subst|intros Hg; specialize (Hc _ _ Hg)].
    + lia.
    + rewrite occurrences_cons in Hc. lia.
  - exists counts'. split_and!; [done|by rewrite Hl, length_insert|]. intros b c Hg. specialize (Hr b).
    rewrite Hget in Hr. rewrite occurrences_cons. case_decide as Hd.
    + subst b. rewrite N.eqb_refl. rewrite Hg in Hc0. injection Hc0 as ->. rewrite (Hr _ eq_refl). f_equal. lia.
    + rewrite (proj2 (N.eqb_neq b b0)) by done. rewrite (Hr _ Hg). done.
Qed.
Lemma count_all_ok n buckets :
  (forall b, b ∈ buckets -> (N.to_nat b < n)%nat) -> (N.of_nat (length buckets) <= u32_max)%N ->
  exists counts, count_all n buckets = Some counts /\ length counts = n /\
    forall b, (N.to_nat b < n)%nat -> get counts b = Some (N.of_nat (occurrences b buckets)).
Proof.
  intros Hb Hl. destruct (count_loop buckets (replicate n 0%N)) as (counts & Hc & Hlen & Hr).
  - intros b Hin. rewrite length_replicate. by apply Hb.
  - intros b c Hg. unfold get in Hg. apply lookup_replicate in Hg as [-> _].
    pose proof (occurrences_length b buckets). lia.
  - exists counts. rewrite length_replicate in Hlen. split_and!; [done..|]. intros b Hlt.
    rewrite (Hr b 0%N); [done|]. unfold get. by apply lookup_replicate.
Qed.
End counting.

Section scattering.
Context {A : Type}.
Implicit Types (items : list (N * A)) (out : list A) (pos : list N).

Lemma room_step pos out b x items p :
  room pos out ((b, x) :: items) -> get pos b = Some p ->
  room (<[N.to_nat b := (p + 1)%N]> pos) (<[N.to_nat p := x]> out) items.
Proof.
  intros [Hb Hf Ha] Hp. pose proof (get_lt _ _ _ Hp) as Hlt.
  assert (forall c, get (<[N.to_nat b := (p + 1)%N]> pos) c = if decide (b = c) then Some (p + 1)%N else get pos c)
    as Hget by (intros c; by apply (get_put pos b), put_ok).
  pose proof (Hf _ _ Hp) as Hfp. rewrite count_of_cons in Hfp. simpl in Hfp. rewrite N.eqb_refl in Hfp.
  split.
  - intros it Hin. rewrite length_insert. apply Hb. by right.
  - intros c q. rewrite Hget, length_insert. case_decide as Hd; [intros [= <-]; subst; lia|].
    intros Hq%Hf. rewrite count_of_cons in Hq. simpl in Hq. rewrite (proj2 (N.eqb_neq b c)) in Hq by done. lia.
  - intros c c' q q' Hne. rewrite !Hget.
    assert (forall d s, b <> d -> get pos d = Some s ->
      (N.to_nat p + S (count_of b items) <= N.to_nat s)%nat \/ (N.to_nat s + count_of d items <= N.to_nat p)%nat
      \/ count_of d items = 0) as Hap.
    { intros d s Hd Hs. pose proof (Ha _ _ _ _ Hd Hp Hs) as H. rewrite !count_of_cons in H. simpl in H.
      rewrite N.eqb_refl, (proj2 (N.eqb_neq b d)) in H by done. lia. }
    repeat case_decide; simplify_eq/=.
    + intros [= <-] Hq'. destruct (Hap c' q'); [done..|lia|lia].
    + intros Hq [= <-]. destruct (Hap c q); [done..|lia|lia].
    + intros Hq Hq'. pose proof (Ha _ _ _ _ Hne Hq Hq') as H1. rewrite !count_of_cons in H1. simpl in H1.
      rewrite (proj2 (N.eqb_neq b c)), (proj2 (N.eqb_neq b c')) in H1 by done. lia.
Qed.

(** Every member lands at its place, nothing else is written. *)
Lemma scatter_loop items : forall pos out,
  room pos out items ->
  exists pos' out', foldM scatter_one (pos, out) items = Some (pos', out') /\ length out' = length out /\
    (forall b p k x, get pos b = Some p -> bucket b items !! k = Some x ->
       out' !! (N.to_nat p + k)%nat = Some x) /\
    (forall j, (forall b p, get pos b = Some p -> ~ (N.to_nat p <= j < N.to_nat p + count_of b items)%nat) ->
       out' !! j = out !! j).
Proof.
  induction items as [|[b x] items IH]; intros pos out Hr; cbn [foldM].
  { exists pos, out. split_and!; done. }
  destruct (get_ok pos b) as [p Hp]; [apply (room_bound _ _ _ Hr (b, x)); left|].
  pose proof (room_fits _ _ _ Hr _ _ Hp) as Hf. rewrite count_of_cons in Hf. simpl in Hf. rewrite N.eqb_refl in Hf.
  pose proof (get_lt _ _ _ Hp) as Hlt.
  assert (scatter_one (pos, out) (b, x) =
    Some (<[N.to_nat b := (p + 1)%N]> pos, <[N.to_nat p := x]> out)) as ->.
  { unfold scatter_one. simpl. rewrite Hp; simpl. by rewrite !put_ok by lia. }
  cbn [mbind option_bind].
  assert (forall c, get (<[N.to_nat b := (p + 1)%N]> pos) c = if decide (b = c) then Some (p + 1)%N else get pos c)
    as Hget by (intros c; by apply (get_put pos b), put_ok).
  destruct (IH _ _ (room_step _ _ _ _ _ _ Hr Hp)) as (pos' & out' & -> & Hlen & Hin & Hout).
  exists pos', out'. rewrite length_insert in Hlen. split_and!; [done|done| |].
  - intros c q k y Hq Hk. rewrite bucket_cons in Hk. simpl in Hk. destruct (N.eqb_spec b c) as [->|Hne].
    + rewrite Hp in Hq. injection Hq as <-. destruct k as [|k]; simpl in Hk.
      * injection Hk as ->. rewrite Nat.add_0_r, Hout; [apply list_lookup_insert_eq; lia|].
        intros c' q'. rewrite Hget. case_decide as Hd; [intros [= <-]; lia|]. intros Hq' Hj.
        pose proof (room_apart _ _ _ Hr _ _ _ _ Hd Hp Hq') as H. rewrite !count_of_cons in H. simpl in H.
        rewrite N.eqb_refl, (proj2 (N.eqb_neq c c')) in H by done. lia.
      * specialize (Hin c (p + 1)%N k y). rewrite Hget, decide_True in Hin by done.
        rewrite <- (Hin eq_refl Hk). f_equal. lia.
    + apply (Hin c q k y); [|done]. by rewrite Hget, decide_False.
  - intros j Hj. rewrite Hout.
    + apply list_lookup_insert_ne. intros <-. apply (Hj b p Hp). rewrite count_of_cons. simpl.
      rewrite N.eqb_refl. lia.
    + intros c q. rewrite Hget. case_decide as Hd.
      * intros [= <-] H. subst c. apply (Hj b p Hp). rewrite count_of_cons. simpl. rewrite N.eqb_refl. lia.
      * intros Hq H. apply (Hj c q Hq). rewrite count_of_cons. simpl. rewrite (proj2 (N.eqb_neq b c)) by done. lia.
Qed.
End scattering.

(** ** One bucket after the other *)

Section layout.
Context {A : Type}.

Lemma concat_lookup (segs : list (list A)) j k seg x :
  segs !! j = Some seg -> seg !! k = Some x ->
  concat segs !! (sum_list (length <$> take j segs) + k)%nat = Some x.
Proof.
  revert j. induction segs as [|s segs IH]; intros [|j] Hj Hk; simpl in *; [done..| |].
  - injection Hj as ->. by apply lookup_app_l_Some.
  - rewrite lookup_app_r by lia. rewrite <- (IH j Hj Hk). f_equal. unfold fmap. lia.
Qed.
Lemma concat_index (segs : list (list A)) m :
  (m < length (concat segs))%nat ->
  exists j k seg, segs !! j = Some seg /\ (k < length seg)%nat /\
    m = (sum_list (length <$> take j segs) + k)%nat.
Proof.
  revert m. induction segs as [|s segs IH]; intros m Hm; simpl in Hm; [lia|].
  destruct (decide (m < length s)%nat) as [|H].
  { by exists 0, m, s. }
  rewrite length_app in Hm. destruct (IH (m - length s)%nat) as (j & k & seg & Hj & Hk & He); [lia|].
  exists (S j), k, seg. split_and!; [done|done|]. simpl. unfold fmap in *. lia.
Qed.
Lemma sum_list_take_le (l : list nat) i j x :
  l !! i = Some x -> (i < j)%nat -> (sum_list (take i l) + x <= sum_list (take j l))%nat.
Proof.
  revert i j. induction l as [|y l IH]; intros [|i] [|j] Hi Hij; simpl in *; try done; try lia.
  - injection Hi as ->. lia.
  - specialize (IH i j Hi ltac:(lia)). lia.
Qed.
Lemma sum_list_take_all (l : list nat) i x :
  l !! i = Some x -> (sum_list (take i l) + x <= sum_list l)%nat.
Proof.
  intros H. rewrite <- (take_ge l (length l)) at 2 by done.
  apply sum_list_take_le; [done|]. by eapply lookup_lt_Some.
Qed.

Implicit Types (items : list (N * A)) (order : list N).
Definition buckets order items : list (list A) := (fun b => bucket b items) <$> order.
Lemma buckets_lengths order items : length <$> buckets order items = (fun b => count_of b items) <$> order.
Proof. unfold buckets. by rewrite <- list_fmap_compose. Qed.
(** Where the bucket at place [j] of the order starts. *)
Definition start_of order items (j : nat) : nat := sum_list ((fun b => count_of b items) <$> take j order).

Lemma sum_fmap_cons {B} (f : B -> nat) c l : sum_list (f <$> c :: l) = (f c + sum_list (f <$> l))%nat.
Proof. done. Qed.
Lemma sum_other_buckets b (x : A) order items :
  b ∉ order ->
  sum_list ((fun c => count_of c ((b, x) :: items)) <$> order) = sum_list ((fun c => count_of c items) <$> order).
Proof.
  intros Hb. induction order as [|d order IH]; [done|]. apply not_elem_of_cons in Hb as [Hd Hb].
  rewrite !sum_fmap_cons, (IH Hb), count_of_cons. simpl. by rewrite (proj2 (N.eqb_neq b d)).
Qed.
Lemma total_count order items :
  NoDup order -> (forall it, it ∈ items -> it.1 ∈ order) ->
  sum_list ((fun b => count_of b items) <$> order) = length items.
Proof.
  intros Hnd. induction items as [|[b x] items IH]; intros Hin.
  { simpl. clear. induction order as [|b order IH]; simpl; [done|]. unfold count_of at 1. simpl. done. }
  cbn [length]. rewrite <- IH by (intros; apply Hin; by right). specialize (Hin (b, x) ltac:(by left)). simpl in Hin.
  clear IH. induction Hnd as [|c order Hc Hnd IH]; [by apply not_elem_of_nil in Hin|].
  rewrite !sum_fmap_cons, count_of_cons. cbn [fst]. destruct (N.eqb_spec b c) as [->|Hne].
  - by rewrite sum_other_buckets.
  - rewrite IH by set_solver. lia.
Qed.

Lemma scatter_layout pos out order items :
  NoDup order -> (forall it, it ∈ items -> it.1 ∈ order) ->
  (forall b, b ∈ order <-> (N.to_nat b < length pos)%nat) ->
  (forall j b, order !! j = Some b -> get pos b = Some (N.of_nat (start_of order items j))) ->
  length out = length items ->
  scatter pos out items = Some (concat (buckets order items)).
Proof.
  intros Hnd Hin Hord Hpos Hlen. pose proof (total_count order items Hnd Hin) as Htot.
  assert (forall b p, get pos b = Some p -> exists j, order !! j = Some b /\ N.to_nat p = start_of order items j)
    as Hinv.
  { intros b p Hp. destruct (list_elem_of_lookup_1 order b) as [j Hj].
    { apply Hord. by eapply get_lt. } exists j. split; [done|]. rewrite (Hpos _ _ Hj) in Hp. injection Hp as <-. lia. }
  assert (forall j b, order !! j = Some b -> (start_of order items j + count_of b items <= length items)%nat) as Hfit.
  { intros j b Hj. rewrite <- Htot. unfold start_of. rewrite <- firstn_map.
    apply sum_list_take_all. by rewrite list_lookup_fmap, Hj. }
  destruct (scatter_loop items pos out) as (pos' & out' & He & Hlen' & Hplaced & _).
  { split.
    - intros it Hit. by apply Hord, Hin.
    - intros b p (j & Hj & ->)%Hinv. rewrite Hlen. by apply Hfit.
    - intros b b' p p' Hne (j & Hj & ->)%Hinv (j' & Hj' & ->)%Hinv.
      assert (forall i i' c, order !! i = Some c -> (i < i')%nat ->
        (start_of order items i + count_of c items <= start_of order items i')%nat) as Hlt.
      { intros i i' c Hi Hii. unfold start_of. rewrite <- !firstn_map. apply sum_list_take_le; [|done].
        by rewrite list_lookup_fmap, Hi. }
      destruct (Nat.lt_total j j') as [H|[->|H]]; [left; by apply Hlt| |right; left; by apply Hlt].
      rewrite Hj in Hj'. congruence. }
  unfold scatter. rewrite He. simpl. f_equal.
  assert (length (concat (buckets order items)) = length items) as Hcl.
  { rewrite length_concat. rewrite <- Htot, <- buckets_lengths. done. }
  apply list_eq. intros m. destruct (decide (m < length items)%nat) as [Hm|Hm].
  - destruct (concat_index (buckets order items) m) as (j & k & seg & Hj & Hk & ->); [lia|].
    destruct (lookup_lt_is_Some_2 seg k Hk) as [x Hx]. rewrite (concat_lookup _ _ _ _ _ Hj Hx).
    unfold buckets in Hj. rewrite list_lookup_fmap_Some in Hj. destruct Hj as (b & -> & Hj).
    unfold buckets. rewrite <- fmap_take. fold (buckets (take j order) items). rewrite buckets_lengths.
    rewrite <- (Hplaced b _ k x (Hpos _ _ Hj) Hx). unfold start_of. by rewrite Nat2N.id.
  - rewrite !lookup_ge_None_2 by lia. done.
Qed.
End layout.

(** ** Where the buckets start *)

(** [cursors[b] = next; next = next.checked_add(counts[b]).expect(..)] *)
Definition lay_out_one (counts : list N) (st : list N * N) (b : N) : option (list N * N) :=
  let '(cursors, next) := st in
  cursors ← put cursors b next;
  c ← get counts b;
  next ← u32_add next c;
  Some (cursors, next).
(** [offsets.push(offsets.last().unwrap_or_default().checked_add(count).expect(..))] *)
Definition push_offset (offsets : list N) (count : N) : option (list N) :=
  next ← u32_add (default 0%N (last offsets)) count; Some (offsets ++ [next]).
Definition offsets_of (counts : list N) : option (list N) := foldM push_offset [0%N] counts.

Section starts.
Context {A : Type}.
Implicit Types (items : list (N * A)) (order : list N).

Lemma lay_out_loop counts items order : forall cursors next,
  NoDup order -> length cursors = length counts ->
  (forall b, b ∈ order -> get counts b = Some (N.of_nat (count_of b items))) ->
  (next + N.of_nat (sum_list ((fun b => count_of b items) <$> order)) <= u32_max)%N ->
  exists cursors', foldM (lay_out_one counts) (cursors, next) order =
      Some (cursors', (next + N.of_nat (sum_list ((fun b => count_of b items) <$> order)))%N) /\
    length cursors' = length cursors /\
    (forall b, b ∉ order -> get cursors' b = get cursors b) /\
    forall j b, order !! j = Some b -> get cursors' b = Some (next + N.of_nat (start_of order items j))%N.
Proof.
  induction order as [|b order IH]; intros cursors next Hnd Hlen Hc Hmax.
  { exists cursors. cbn. rewrite N.add_0_r. by split_and!. }
  apply NoDup_cons in Hnd as [Hb Hnd]. rewrite sum_fmap_cons in *. cbn [foldM].
  pose proof (Hc b ltac:(left)) as Hcb. pose proof (get_lt _ _ _ Hcb) as Hlt.
  assert (lay_out_one counts (cursors, next) b =
    Some (<[N.to_nat b := next]> cursors, (next + N.of_nat (count_of b items))%N)) as ->.
  { unfold lay_out_one. rewrite put_ok by lia. simpl. rewrite Hcb. simpl. by rewrite u32_add_ok by lia. }
  cbn [mbind option_bind].
  destruct (IH (<[N.to_nat b := next]> cursors) (next + N.of_nat (count_of b items))%N)
    as (cursors' & He & Hl & Hout & Hin); [done|by rewrite length_insert| |lia|].
  { intros c Hcin. apply Hc. by right. }
  rewrite length_insert in Hl.
  assert (forall c, get (<[N.to_nat b := next]> cursors) c = if decide (b = c) then Some next else get cursors c)
    as Hget by (intros c; apply (get_put cursors b), put_ok; lia).
  exists cursors'. split_and!; [rewrite He; do 2 f_equal; lia|done| |].
  - intros c Hnc. apply not_elem_of_cons in Hnc as [? ?]. rewrite Hout, Hget by done. by case_decide.
  - intros [|j] c Hj; simpl in Hj.
    + injection Hj as <-. rewrite Hout, Hget, decide_True by done. unfold start_of. simpl. f_equal. lia.
    + rewrite (Hin j c Hj). unfold start_of. simpl. f_equal. unfold fmap. lia.
Qed.

Lemma offsets_loop counts : forall done_,
  (sum_list (N.to_nat <$> counts) + N.to_nat (default 0%N (last done_)) <= N.to_nat u32_max)%nat ->
  exists offs, foldM push_offset done_ counts = Some (done_ ++ offs) /\ length offs = length counts /\
    forall i, (i < length counts)%nat ->
      offs !! i = Some (default 0%N (last done_) + N.of_nat (sum_list (N.to_nat <$> take (S i) counts)))%N.
Proof.
  induction counts as [|c counts IH]; intros done_ Hm; cbn [foldM].
  { exists []. split_and!; [by rewrite app_nil_r|done|]. intros i Hi. simpl in Hi. lia. }
  rewrite sum_fmap_cons in Hm.
  assert (push_offset done_ c = Some (done_ ++ [(default 0%N (last done_) + c)%N])) as ->.
  { unfold push_offset. rewrite u32_add_ok by lia. done. }
  cbn [mbind option_bind].
  destruct (IH (done_ ++ [(default 0%N (last done_) + c)%N])) as (offs & He & Hl & Ho).
  { rewrite last_snoc. cbn [from_option id]. lia. }
  exists ((default 0%N (last done_) + c)%N :: offs). split_and!.
  - rewrite He. by rewrite <- (assoc_L (++)).
  - simpl. lia.
  - intros [|i] Hi; simpl in Hi.
    + simpl. f_equal. lia.
    + simpl lookup. rewrite Ho by lia. rewrite last_snoc. change (take (S (S i)) (c :: counts)) with (c :: take (S i) counts).
      rewrite sum_fmap_cons. cbn [from_option id]. f_equal. lia.
Qed.
Lemma offsets_of_ok counts :
  (sum_list (N.to_nat <$> counts) <= N.to_nat u32_max)%nat ->
  exists offs, offsets_of counts = Some offs /\ length offs = S (length counts) /\
    forall i, (i <= length counts)%nat -> offs !! i = Some (N.of_nat (sum_list (N.to_nat <$> take i counts))).
Proof.
  intros Hm. destruct (offsets_loop counts [0%N]) as (offs & He & Hl & Ho); [simpl; lia|].
  exists (0%N :: offs). split_and!; [done|simpl; lia|]. intros [|i] Hi; [done|]. simpl lookup. rewrite Ho by lia. done.
Qed.
End starts.

(** The bucket at place [j] is the slice between its start and the next one's. *)
Lemma slice_bucket {A} order (items : list (N * A)) j b :
  order !! j = Some b ->
  slice (concat (buckets order items)) (N.of_nat (start_of order items j)) (N.of_nat (start_of order items (S j)))
  = Some (bucket b items).
Proof.
  intros Hj. rewrite <- (take_drop_middle _ _ _ Hj) at 1. unfold buckets. rewrite fmap_app, fmap_cons, concat_app.
  cbn [concat]. assert (length (concat (buckets (take j order) items)) = start_of order items j) as Hl.
  { rewrite length_concat. by rewrite buckets_lengths. }
  assert (start_of order items (S j) = (start_of order items j + count_of b items)%nat) as HS.
  { unfold start_of. rewrite (take_S_r _ _ _ Hj), fmap_app. unfold count_of.
    generalize ((fun b => length (bucket b items)) <$> take j order). intros l. simpl.
    induction l as [|x l IH]; simpl; lia. }
  fold (buckets (take j order) items). unfold slice. rewrite !Nat2N.id, HS.
  rewrite (proj2 (N.leb_le _ _)), (proj2 (N.leb_le _ _)) by (rewrite ?length_app, ?Hl; unfold count_of; lia).
  cbn [andb]. f_equal. rewrite <- Hl, drop_app_length.
  replace (N.to_nat (N.of_nat (length (concat (buckets (take j order) items)) + count_of b items) -
    N.of_nat (length (concat (buckets (take j order) items))))) with (length (bucket b items)) by (unfold count_of; lia).
  apply take_app_length.
Qed.
