(* ===== verification/NameMatch.v ===== *)
(** * Matching and sampling names (query/name_search.rs, query.rs, query/text.rs)

    How a query matches a name (equal, prefix, substring, subsequence) with its score,
    and the trigram tokens under which names are posted and queries look them up. Names
    are their UTF-8 bytes; [lower] is the name with [A]..[Z] lowered, of equal length. *)

From S2P Require Import Prelude.

Abbreviation Bytes := (list N) (only parsing).

Definition is_ascii_lowercase (b : N) : bool := ((97 <=? b) && (b <=? 122))%N.
Definition is_ascii_uppercase (b : N) : bool := ((65 <=? b) && (b <=? 90))%N.
Definition is_ascii_alphabetic (b : N) : bool := is_ascii_lowercase b || is_ascii_uppercase b.
Definition is_ascii_digit (b : N) : bool := ((48 <=? b) && (b <=? 57))%N.
Definition UNDERSCORE : N := 95.
(** The callers' positions are inside the name. *)
Definition is_boundary (bytes : Bytes) (i : nat) : bool :=
  match i with
  | 0 => true
  | S p =>
      let prev := nth p bytes 0%N in
      let cur := nth i bytes 0%N in
      (N.eqb prev UNDERSCORE && negb (N.eqb cur UNDERSCORE))
      || (is_ascii_lowercase prev && is_ascii_uppercase cur)
      || (is_ascii_alphabetic prev && is_ascii_digit cur)
  end.

(** [str::starts_with], [str::find] *)
Fixpoint starts_with (needle hay : Bytes) : bool :=
  match needle, hay with
  | [], _ => true
  | _ :: _, [] => false
  | a :: needle, b :: hay => N.eqb a b && starts_with needle hay
  end.
Fixpoint find_bytes (needle hay : Bytes) : option nat :=
  if starts_with needle hay then Some 0
  else match hay with [] => None | _ :: hay => S <$> find_bytes needle hay end.

(** One pass of the greedy matcher: the number of bytes of the needle matched when only
    the positions [allowed] admits count. *)
Fixpoint greedy (needle : Bytes) (allowed : nat -> bool) (qi : nat) (index : nat) (lower : Bytes) : nat :=
  match lower with
  | [] => qi
  | byte :: lower =>
      let qi := if (qi <? length needle)%nat && N.eqb byte (nth qi needle 0%N) && allowed index
                then S qi else qi in
      greedy needle allowed qi (S index) lower
  end.
Definition subsequence_match (needle orig lower : Bytes) : option bool :=
  if (greedy needle (is_boundary orig) 0 0 lower =? length needle)%nat then Some true
  else if (greedy needle (fun _ => true) 0 0 lower =? length needle)%nat then Some false
  else None.

(** [score_match], with the bytes of the entry's name and lowered name *)
Definition score_match (needle name lower : Bytes) : option Z :=
  if bool_decide (lower = needle) then Some 1000%Z
  else if starts_with needle lower then Some 800%Z
  else match find_bytes needle lower with
       | Some at_ => Some (if is_boundary name at_ then 650 else 500)%Z
       | None => (fun all_boundary : bool => if all_boundary then 400 else 200)%Z
                   <$> subsequence_match needle name lower
       end.

(** ** Trigram tokens *)

Definition FUZZY_BOUNDARY_TRIGRAM_TAG : N := N.shiftl 1 24.
Definition MAX_CONTIGUOUS_TRIGRAMS_PER_NAME : nat := 64.
Definition MAX_BOUNDARY_INITIALS_FOR_TRIGRAMS : nat := 8.
Definition fuzzy_trigram_token (bytes : Bytes) (boundary : bool) : N :=
  N.lor (N.lor (N.lor (nth 0 bytes 0%N) (N.shiftl (nth 1 bytes 0%N) 8)) (N.shiftl (nth 2 bytes 0%N) 16))
    (if boundary then FUZZY_BOUNDARY_TRIGRAM_TAG else 0%N).
(** [bytes.windows(3)] *)
Definition windows3 (bytes : Bytes) : list Bytes :=
  (fun i => take 3 (drop i bytes)) <$> seq 0 (length bytes - 2).
Definition sampled_trigram_tokens (bytes : Bytes) (boundary : bool) (cap : nat) : list N :=
  let window_count := (length bytes - 2)%nat in
  if (window_count <=? cap)%nat then (fun window => fuzzy_trigram_token window boundary) <$> windows3 bytes
  else (fun ordinal =>
          let position := if (cap <=? 1)%nat then 0%nat
                          else Nat.div (ordinal * (window_count - 1)) (cap - 1) in
          fuzzy_trigram_token (take 3 (drop position bytes)) boundary) <$> seq 0 cap.
(** The nested loops over [first < second < third]. *)
Definition triples (initials : Bytes) : list Bytes :=
  first ← seq 0 (length initials);
  second ← seq (S first) (length initials - S first);
  third ← seq (S second) (length initials - S second);
  [[nth first initials 0%N; nth second initials 0%N; nth third initials 0%N]].
Definition same_token (a b : N) : bool := N.eqb a b.
(** [tokens.sort_unstable(); tokens.dedup()] *)
Definition sort_dedup (tokens : list N) : list N := dedup same_token (sort_by N.compare tokens).
Definition boundary_bytes (original lower : Bytes) : Bytes :=
  (fun index => nth index lower 0%N) <$> List.filter (is_boundary original) (seq 0 (length lower)).
Definition fuzzy_tokens_for_name (original lower : Bytes) : list N :=
  let initials := take MAX_BOUNDARY_INITIALS_FOR_TRIGRAMS (boundary_bytes original lower) in
  sort_dedup (sampled_trigram_tokens lower false MAX_CONTIGUOUS_TRIGRAMS_PER_NAME ++
              ((fun t => fuzzy_trigram_token t true) <$> triples initials)).
Definition fuzzy_query_tokens (query : Bytes) : list N * list N :=
  (sort_dedup ((fun w => fuzzy_trigram_token w false) <$> windows3 query),
   sort_dedup ((fun t => fuzzy_trigram_token t true)
     <$> triples (take MAX_BOUNDARY_INITIALS_FOR_TRIGRAMS query))).

(** ** Three-byte prefixes *)

Definition three_byte_prefix_token (value : Bytes) : option N :=
  match value with
  | [] => None
  | first :: rest =>
      Some (N.lor (N.lor (N.shiftl first 16) (N.shiftl (nth 0 rest 0%N) 8)) (nth 1 rest 0%N))
  end.
Definition three_byte_prefix_bounds (value : Bytes) : option (N * N) :=
  match value with
  | [] => None
  | first :: rest =>
      let '(low, width) :=
        match rest with
        | [] => (N.shiftl first 16, N.shiftl 1 16)
        | [second] => (N.lor (N.shiftl first 16) (N.shiftl second 8), N.shiftl 1 8)
        | second :: third :: _ =>
            (N.lor (N.lor (N.shiftl first 16) (N.shiftl second 8)) third, 1%N)
        end in
      Some (low, low + width)%N
  end.

(** ** Subsequences *)

(** The bytes at the admitted positions. *)
Fixpoint admitted (allowed : nat -> bool) (index : nat) (lower : Bytes) : Bytes :=
  match lower with
  | [] => []
  | b :: lower => if allowed index then b :: admitted allowed (S index) lower
                  else admitted allowed (S index) lower
  end.

Lemma sublist_cons_same {A} (x : A) l k : x :: l `sublist_of` x :: k <-> l `sublist_of` k.
Proof.
  split; [|by constructor]. intros H. inversion H as [| |? ? ? H']; subst; [done|].
  etrans; [|exact H']. by constructor.
Qed.
Lemma sublist_cons_other {A} (x y : A) l k : x <> y -> x :: l `sublist_of` y :: k <-> x :: l `sublist_of` k.
Proof. intros Hne. split; [|by constructor]. intros H. by inversion H. Qed.

Lemma greedy_spec needle allowed lower : forall qi index,
  (qi <= length needle)%nat ->
  (greedy needle allowed qi index lower <= length needle)%nat /\
  (greedy needle allowed qi index lower = length needle <->
   drop qi needle `sublist_of` admitted allowed index lower).
Proof.
  induction lower as [|b lower IH]; intros qi index Hq; simpl.
  { split; [done|]. split; [intros ->; by rewrite drop_all|].
    intros H%sublist_nil_r. apply (f_equal length) in H. rewrite length_drop in H. simpl in H. lia. }
  destruct (Nat.ltb_spec qi (length needle)) as [Hlt|Hge]; simpl.
  - destruct (lookup_lt_is_Some_2 needle qi Hlt) as [x Hx]. rewrite (nth_lookup_Some _ _ _ _ Hx).
    rewrite (drop_S _ _ _ Hx). destruct (allowed index) eqn:Ha; [|rewrite andb_false_r].
    + rewrite andb_true_r. destruct (N.eqb_spec b x) as [->|Hne].
      * rewrite sublist_cons_same. apply IH. lia.
      * rewrite sublist_cons_other by done. rewrite <- (drop_S _ _ _ Hx). by apply IH.
    + rewrite <- (drop_S _ _ _ Hx). by apply IH.
  - destruct (IH qi (S index) Hq) as [H1 H2]. split; [done|]. rewrite H2.
    rewrite (drop_ge needle) by lia. split; intros _; apply sublist_nil_l.
Qed.
Lemma admitted_all index lower : admitted (fun _ => true) index lower = lower.
Proof. revert index. induction lower; intros; simpl; [done|]. by f_equal. Qed.
Lemma admitted_sublist allowed index lower : admitted allowed index lower `sublist_of` lower.
Proof. revert index. induction lower; intros; simpl; [done|]. case_match; by constructor. Qed.
Lemma admitted_boundary original lower :
  admitted (is_boundary original) 0 lower = boundary_bytes original lower.
Proof.
  unfold boundary_bytes. generalize (is_boundary original) as f. intros f.
  assert (forall l i (g : nat -> bool) (h : nat -> N), (forall k, h (i + k)%nat = nth k l 0%N) ->
    admitted g i l = h <$> List.filter g (seq i (length l))) as H.
  { induction l as [|b l IH]; intros i g h Hh; simpl; [done|].
    rewrite (IH (S i) g h) by (intros k; replace (S i + k)%nat with (i + S k)%nat by lia; by rewrite Hh).
    destruct (g i); simpl; [|done]. f_equal. specialize (Hh 0). rewrite Nat.add_0_r in Hh. by rewrite Hh. }
  by apply H.
Qed.

Lemma subsequence_match_true needle original lower :
  subsequence_match needle original lower = Some true <-> needle `sublist_of` boundary_bytes original lower.
Proof.
  unfold subsequence_match. destruct (greedy_spec needle (is_boundary original) lower 0 0 ltac:(lia)) as [_ H].
  rewrite drop_0, admitted_boundary in H. rewrite <- H.
  destruct (Nat.eqb_spec (greedy needle (is_boundary original) 0 0 lower) (length needle)); [done|].
  split; [|done]. by destruct (_ =? _)%nat.
Qed.
Lemma subsequence_match_false needle original lower :
  subsequence_match needle original lower = Some false ->
  needle `sublist_of` lower /\ ~ needle `sublist_of` boundary_bytes original lower.
Proof.
  intros H. split; [|intros Hb%subsequence_match_true; congruence]. revert H. unfold subsequence_match.
  destruct (greedy_spec needle (fun _ => true) lower 0 0 ltac:(lia)) as [_ H'].
  rewrite drop_0, admitted_all in H'. case_match; [done|]. rewrite <- H'.
  by destruct (Nat.eqb_spec (greedy needle (fun _ => true) 0 0 lower) (length needle)).
Qed.
Lemma subsequence_match_None needle original lower :
  subsequence_match needle original lower = None <-> ~ needle `sublist_of` lower.
Proof.
  unfold subsequence_match. destruct (greedy_spec needle (is_boundary original) lower 0 0 ltac:(lia)) as [_ H].
  destruct (greedy_spec needle (fun _ => true) lower 0 0 ltac:(lia)) as [_ H'].
  rewrite drop_0, admitted_all in H'. rewrite drop_0 in H. rewrite <- H'.
  destruct (Nat.eqb_spec (greedy needle (is_boundary original) 0 0 lower) (length needle)) as [E|_].
  - split; [done|]. intros Hn. destruct Hn. apply H'. apply H in E. etrans; [exact E|]. apply admitted_sublist.
  - by destruct (Nat.eqb_spec (greedy needle (fun _ => true) 0 0 lower) (length needle)).
Qed.

Lemma starts_with_spec needle hay : starts_with needle hay = true <-> needle `prefix_of` hay.
Proof.
  revert hay. induction needle as [|a needle IH]; intros hay; simpl.
  { split; [intros _; apply prefix_nil|done]. }
  destruct hay as [|b hay]; [split; [done|by intros ?%prefix_nil_not]|].
  rewrite andb_true_iff, IH, N.eqb_eq. split; [intros [-> H]; by apply prefix_cons|].
  intros H. split; [by eapply prefix_cons_inv_1|by eapply prefix_cons_inv_2].
Qed.
Lemma find_bytes_Some needle hay i :
  find_bytes needle hay = Some i <->
  needle `prefix_of` drop i hay /\ (i <= length hay)%nat /\
  forall j, (j < i)%nat -> ~ needle `prefix_of` drop j hay.
Proof.
  revert i. induction hay as [|b hay IH]; intros i.
  - cbn [find_bytes]. destruct (starts_with needle []) eqn:E.
    + apply starts_with_spec in E. split; [intros [= <-]; split_and!; [done|done|lia]|].
      intros (_ & Hi & _). simpl in Hi. f_equal. lia.
    + split; [done|]. intros (H & _ & _). rewrite drop_nil in H. apply starts_with_spec in H. congruence.
  - cbn [find_bytes]. destruct (starts_with needle (b :: hay)) eqn:E.
    + apply starts_with_spec in E. split; [intros [= <-]; split_and!; [done|simpl; lia|lia]|].
      intros (_ & _ & Hm). destruct i as [|i]; [done|]. destruct (Hm 0 ltac:(lia)). done.
    + assert (~ needle `prefix_of` b :: hay) as Hn by (rewrite <- starts_with_spec; congruence).
      rewrite fmap_Some. split.
      * intros (k & (H1 & H2 & H3)%IH & ->). split_and!; [done|simpl; lia|].
        intros [|j] Hj; [done|]. apply H3. lia.
      * intros (H1 & H2 & H3). destruct i as [|i]; [done|]. exists i. split; [|done]. apply IH.
        simpl in H1, H2. split_and!; [done|lia|]. intros j Hj. apply (H3 (S j)). lia.
Qed.
Lemma find_bytes_None needle hay : find_bytes needle hay = None -> forall j, ~ needle `prefix_of` drop j hay.
Proof.
  induction hay as [|b hay IH]; cbn [find_bytes]; intros H j.
  - destruct (starts_with needle []) eqn:E; [done|]. rewrite drop_nil, <- starts_with_spec. congruence.
  - destruct (starts_with needle (b :: hay)) eqn:E; [done|]. apply fmap_None in H.
    destruct j as [|j]; [rewrite <- starts_with_spec; simpl drop; congruence|]. by apply IH.
Qed.
Lemma prefix_drop_sublist (needle hay : Bytes) i : needle `prefix_of` drop i hay -> needle `sublist_of` hay.
Proof. intros [k Hk]. etrans; [|apply (sublist_drop hay i)]. rewrite Hk. by apply sublist_inserts_r. Qed.

Lemma score_match_None needle name low : score_match needle name low = None <-> ~ needle `sublist_of` low.
Proof.
  unfold score_match. case_bool_decide as He.
  { subst. split; [done|]. intros H. by destruct H. }
  destruct (starts_with needle low) eqn:Es.
  { apply starts_with_spec in Es. split; [done|]. intros H. destruct H. by apply (prefix_drop_sublist _ _ 0). }
  destruct (find_bytes needle low) as [i|] eqn:Ef.
  { apply find_bytes_Some in Ef as (Hp & _). split; [by case_match|]. intros H. destruct H.
    by eapply prefix_drop_sublist. }
  by rewrite fmap_None, subsequence_match_None.
Qed.

(** ** Theorems on scores *)

(** The score of a name says exactly how the query matches it: 1000 equal, 800 a
    proper prefix, 650 or 500 a substring whose first occurrence is or is not at a word
    boundary, 400 a scattered subsequence that can be chosen at word boundaries only, 200
    any other subsequence; and no score when it is no subsequence at all. *)
Theorem score_match_exact needle name low :
  match score_match needle name low with
  | Some s =>
      (s = 1000%Z /\ low = needle) \/
      low <> needle /\
      ((s = 800%Z /\ needle `prefix_of` low) \/
       ~ needle `prefix_of` low /\
       ((exists i, needle `prefix_of` drop i low /\ (forall j, (j < i)%nat -> ~ needle `prefix_of` drop j low) /\
           s = if is_boundary name i then 650%Z else 500%Z) \/
        (forall i, ~ needle `prefix_of` drop i low) /\
        ((s = 400%Z /\ needle `sublist_of` boundary_bytes name low) \/
         (s = 200%Z /\ needle `sublist_of` low /\ ~ needle `sublist_of` boundary_bytes name low))))
  | None => ~ needle `sublist_of` low
  end.
Proof.
  destruct (score_match needle name low) as [s|] eqn:E; [|by eapply score_match_None]. revert E.
  unfold score_match. case_bool_decide as He; [intros [= <-]; by left|]. intros E. right. split; [congruence|].
  destruct (starts_with needle low) eqn:Es.
  { injection E as <-. left. split; [done|]. by apply starts_with_spec. }
  right. split; [by rewrite <- starts_with_spec, Es|]. destruct (find_bytes needle low) as [i|] eqn:Ef.
  { injection E as <-. apply find_bytes_Some in Ef as (H1 & _ & H2). left. by exists i. }
  right. split; [by apply find_bytes_None|]. apply fmap_Some in E as ([] & Hs & ->).
  - left. split; [done|]. by eapply subsequence_match_true.
  - right. split; [done|]. by apply subsequence_match_false.
Qed.

(** Every name that matches a query also matches all queries it extends, so the
    matches of the next keystroke are among those of the last one. *)
Theorem matches_shrink needle next name low :
  needle `prefix_of` next -> is_Some (score_match next name low) -> is_Some (score_match needle name low).
Proof.
  intros [k ->] H. apply not_eq_None_Some. rewrite score_match_None. apply not_eq_None_Some in H.
  rewrite score_match_None in H. intros Hn. apply H. intros Hs. apply Hn. etrans; [|exact Hs].
  by apply sublist_inserts_r.
Qed.

(** ** Tokens *)

Lemma elem_of_sort_dedup t l : t ∈ sort_dedup l <-> t ∈ l.
Proof.
  unfold sort_dedup. rewrite elem_of_dedup by (intros a b; apply N.eqb_eq). apply elem_of_sort_by.
Qed.
Lemma elem_of_windows3 w bytes : w ∈ windows3 bytes <-> exists i, (i + 2 < length bytes)%nat /\ w = take 3 (drop i bytes).
Proof.
  unfold windows3. rewrite list_elem_of_fmap. setoid_rewrite elem_of_seq. split.
  - intros (i & -> & Hi). exists i. split; [lia|done].
  - intros (i & Hi & ->). exists i. split; [done|lia].
Qed.
Lemma nth_drop_cons (l : Bytes) i : (i < length l)%nat -> drop i l = nth i l 0%N :: drop (S i) l.
Proof.
  intros H. destruct (lookup_lt_is_Some_2 l i H) as [x Hx]. by rewrite (nth_lookup_Some _ _ _ _ Hx), (drop_S _ _ _ Hx).
Qed.
Lemma elem_of_triples t l : t ∈ triples l <-> length t = 3 /\ t `sublist_of` l.
Proof.
  unfold triples. rewrite list_elem_of_bind. setoid_rewrite list_elem_of_bind. setoid_rewrite list_elem_of_bind.
  setoid_rewrite elem_of_seq. setoid_rewrite list_elem_of_singleton. split.
  - intros (i & (j & (k & -> & Hk) & Hj) & Hi). split; [done|].
    etrans; [|apply (sublist_drop l i)]. rewrite (nth_drop_cons l i) by lia. constructor.
    etrans; [|apply (sublist_drop _ (j - S i))]. rewrite drop_drop. replace (S i + (j - S i))%nat with j by lia.
    rewrite (nth_drop_cons l j) by lia. constructor.
    etrans; [|apply (sublist_drop _ (k - S j))]. rewrite drop_drop. replace (S j + (k - S j))%nat with k by lia.
    rewrite (nth_drop_cons l k) by lia. constructor. apply sublist_nil_l.
  - intros [Hl Hs]. destruct t as [|a [|b [|c [|]]]]; try done.
    apply sublist_cons_l in Hs as (l1 & r1 & -> & Hs). apply sublist_cons_l in Hs as (l2 & r2 & -> & Hs).
    apply sublist_cons_l in Hs as (l3 & r3 & -> & _).
    assert (forall (l r : Bytes) x, nth (length l) (l ++ x :: r) 0%N = x) as Hn by (intros; by apply nth_middle).
    exists (length l1). rewrite !length_app. simpl length. rewrite !length_app. simpl length. rewrite length_app. simpl length.
    split; [|lia]. exists (length l1 + S (length l2))%nat. split; [|lia].
    exists (length l1 + S (length l2) + S (length l3))%nat. split; [|lia].
    assert (l1 ++ a :: l2 ++ b :: l3 ++ c :: r3 = (l1 ++ a :: l2) ++ b :: l3 ++ c :: r3) as E1 by by rewrite <- (assoc_L (++)).
    assert ((l1 ++ a :: l2) ++ b :: l3 ++ c :: r3 = ((l1 ++ a :: l2) ++ b :: l3) ++ c :: r3) as E2 by by rewrite <- (assoc_L (++) (l1 ++ a :: l2)).
    rewrite Hn. f_equal. f_equal; [|f_equal].
    + rewrite E1. replace (length l1 + S (length l2))%nat with (length (l1 ++ a :: l2)) by (rewrite length_app; simpl; lia).
      by rewrite Hn.
    + rewrite E1, E2. replace (length l1 + S (length l2) + S (length l3))%nat
        with (length ((l1 ++ a :: l2) ++ b :: l3)) by (rewrite !length_app; simpl; lia). by rewrite Hn.
Qed.

(** At most 64 continuous and 56 initials tokens are posted for a name. *)
Lemma sort_dedup_length l : (length (sort_dedup l) <= length l)%nat.
Proof. unfold sort_dedup. rewrite dedup_length. by rewrite sort_by_length. Qed.
Lemma triples_length l : (length l <= 8)%nat -> (length (triples l) <= 56)%nat.
Proof.
  intros H. do 9 (destruct l as [|? l]; [vm_compute; lia|]). simpl in H. lia.
Qed.
Lemma fuzzy_tokens_bound original low : (length (fuzzy_tokens_for_name original low) <= 120)%nat.
Proof.
  unfold fuzzy_tokens_for_name. rewrite sort_dedup_length, length_app, length_fmap.
  pose proof (triples_length (take MAX_BOUNDARY_INITIALS_FOR_TRIGRAMS (boundary_bytes original low))) as Ht.
  rewrite length_take in Ht. specialize (Ht ltac:(unfold MAX_BOUNDARY_INITIALS_FOR_TRIGRAMS; lia)).
  assert (length (sampled_trigram_tokens low false MAX_CONTIGUOUS_TRIGRAMS_PER_NAME) <= 64)%nat; [|lia].
  unfold sampled_trigram_tokens, windows3, MAX_CONTIGUOUS_TRIGRAMS_PER_NAME.
  destruct (Nat.leb_spec (length low - 2) 64); rewrite ?length_fmap, ?length_seq; lia.
Qed.

(** A name of at most 66 bytes that contains a query is posted under every continuous
    token of the query, and a name whose first word initials have the head of the query
    as a subsequence is posted under every initials token of the query: looking the query
    up under any one of its tokens misses no such name. *)
Theorem fuzzy_tokens_cover query original low :
  ((length low <= 66)%nat -> forall i, query `prefix_of` drop i low ->
    forall t, t ∈ (fuzzy_query_tokens query).1 -> t ∈ fuzzy_tokens_for_name original low) /\
  (take MAX_BOUNDARY_INITIALS_FOR_TRIGRAMS query `sublist_of`
     take MAX_BOUNDARY_INITIALS_FOR_TRIGRAMS (boundary_bytes original low) ->
    forall t, t ∈ (fuzzy_query_tokens query).2 -> t ∈ fuzzy_tokens_for_name original low).
Proof.
  unfold fuzzy_query_tokens, fuzzy_tokens_for_name. cbn [fst snd]. split.
  - intros Hlen i [k Hk] t. rewrite !elem_of_sort_dedup, elem_of_app.
    intros (w & -> & (j & Hj & ->)%elem_of_windows3)%list_elem_of_fmap. left.
    unfold sampled_trigram_tokens. rewrite (proj2 (Nat.leb_le _ _)) by (unfold MAX_CONTIGUOUS_TRIGRAMS_PER_NAME; lia).
    apply list_elem_of_fmap. exists (take 3 (drop j query)). split; [done|]. apply elem_of_windows3.
    exists (i + j)%nat. pose proof (f_equal length Hk) as Hl. rewrite length_drop, length_app in Hl. split; [lia|].
    rewrite <- drop_drop, Hk, drop_app_le by lia. rewrite take_app_le; [done|]. rewrite length_drop. lia.
  - intros Hs t. rewrite !elem_of_sort_dedup, elem_of_app.
    intros (w & -> & [Hw Hq]%elem_of_triples)%list_elem_of_fmap. right. apply list_elem_of_fmap. exists w.
    split; [done|]. apply elem_of_triples. split; [done|]. by etrans.
Qed.

(** Joining bytes with shifts is positional notation. *)
Lemma lor_shift_add a b k : (b < 2 ^ k)%N -> N.lor (N.shiftl a k) b = (a * 2 ^ k + b)%N.
Proof.
  intros Hb. rewrite <- N.shiftl_mul_pow2, <- N.lxor_lor, <- N.add_nocarry_lxor; [done|..].
  all: apply N.bits_inj; intros i; rewrite N.land_spec, N.bits_0;
    destruct (N.lt_ge_cases i k) as [Hi|Hi]; [by rewrite N.shiftl_spec_low|];
    rewrite (N.testbit_eqb b), (N.div_small b) by (apply (N.lt_le_trans _ _ _ Hb), N.pow_le_mono_r; lia);
    apply andb_false_r.
Qed.
Definition bytes_ok (l : Bytes) : Prop := forall i, (nth i l 0 < 256)%N.
Definition three (a b c : N) : N := (a * 65536 + b * 256 + c)%N.
Lemma three_spec a b c : (b < 256)%N -> (c < 256)%N ->
  N.lor (N.lor (N.shiftl a 16) (N.shiftl b 8)) c = three a b c.
Proof.
  intros Hb Hc. replace (N.shiftl a 16) with (N.shiftl (N.shiftl a 8) 8) by by rewrite N.shiftl_shiftl.
  rewrite <- N.shiftl_lor, lor_shift_add, lor_shift_add by done. unfold three.
  change (2 ^ 8)%N with 256%N. lia.
Qed.
Lemma two_spec a b : (b < 256)%N -> N.lor (N.shiftl a 16) (N.shiftl b 8) = three a b 0.
Proof. intros Hb. rewrite <- (three_spec a b 0) by done. by rewrite N.lor_0_r. Qed.
Lemma one_spec a : N.shiftl a 16 = three a 0 0.
Proof. rewrite N.shiftl_mul_pow2. unfold three. change (2 ^ 16)%N with 65536%N. lia. Qed.

Lemma prefix_range_iff prefix value low high t :
  bytes_ok prefix -> bytes_ok value ->
  three_byte_prefix_bounds prefix = Some (low, high) -> three_byte_prefix_token value = Some t ->
  ((low <= t < high)%N <-> take 3 prefix `prefix_of` take 3 (value ++ [0; 0])%N) /\
  (prefix `prefix_of` value -> (low <= t < high)%N).
Proof.
  intros Hp Hv Hb Ht.
  assert ((low <= t < high)%N <-> take 3 prefix `prefix_of` take 3 (value ++ [0; 0])%N) as Hiff.
  { destruct value as [|v1 vs]; [done|]. simpl in Ht.
    pose proof (Hv 1 : (nth 0 vs 0 < 256)%N) as H2. pose proof (Hv 2 : (nth 1 vs 0 < 256)%N) as H3.
    rewrite three_spec in Ht by done. injection Ht as <-.
    assert (take 3 ((v1 :: vs) ++ [0; 0]%N) = [v1; nth 0 vs 0%N; nth 1 vs 0%N]) as -> by by destruct vs as [|? [|]].
    pose proof (Hp 0) as P1. pose proof (Hp 1) as P2. pose proof (Hp 2) as P3.
    destruct prefix as [|p1 [|p2 [|p3 ps]]]; cbn [three_byte_prefix_bounds nth] in Hb, P1, P2, P3;
      change (N.shiftl 1 16) with 65536%N in Hb; change (N.shiftl 1 8) with 256%N in Hb; [done|..].
    - rewrite one_spec in Hb. injection Hb as <- <-. unfold three. split.
      + intros H. assert (p1 = v1) as -> by lia. by eexists.
      + intros [k [= ->]]. lia.
    - rewrite two_spec in Hb by done. injection Hb as <- <-. unfold three. split.
      + intros H. assert (p1 = v1) as -> by lia. assert (p2 = nth 0 vs 0%N) as -> by lia. by eexists.
      + intros [k [= -> ->]]. lia.
    - rewrite three_spec in Hb by done. injection Hb as <- <-. unfold three. simpl take. split.
      + intros H. assert (p1 = v1) as -> by lia. assert (p2 = nth 0 vs 0%N) as -> by lia.
        assert (p3 = nth 1 vs 0%N) as -> by lia. by exists [].
      + intros [k [= -> -> ->]]. lia. }
  split; [done|]. intros [k ->]. apply Hiff. rewrite <- (assoc_L (++)).
  exists (take (3 - length (take 3 prefix)) (drop (length (take 3 prefix)) (take 3 (prefix ++ k ++ [0; 0]%N)))).
  destruct prefix as [|p1 [|p2 [|p3 ps]]]; simpl; try done; by destruct k as [|? [|]].
Qed.
Lemma bytes_of_ok s : bytes_ok (bytes_of s).
Proof.
  induction s as [|c s IH]; intros i; [by destruct i|]. destruct i as [|i]; simpl; [|apply IH].
  apply Ascii.N_ascii_bounded.
Qed.

(** The token range of a prefix holds exactly the tokens of the names whose first
    bytes, padded with zeros, start with the prefix's first three bytes; in particular
    the token of every name with that prefix. *)
Theorem prefix_range_exact prefix value low high t :
  bytes_ok prefix -> bytes_ok value ->
  three_byte_prefix_bounds prefix = Some (low, high) -> three_byte_prefix_token value = Some t ->
  ((low <= t < high)%N <-> take 3 prefix `prefix_of` take 3 (value ++ [0; 0])%N) /\
  (prefix `prefix_of` value -> (low <= t < high)%N).
Proof. apply prefix_range_iff. Qed.

(** ** Examples *)

Definition text (s : string) : Bytes := bytes_of s.
Definition matches (query name : string) : option Z := score_match (text query) (text name) (text (lower name)).
Example score_boundary : matches "dbdtn" "device_bind_driver_to_node" = Some 400%Z.
Proof. vm_compute. reflexivity. Qed.
Example score_substring : (matches "bind" "device_bind", matches "vice" "device_bind") = (Some 650%Z, Some 500%Z).
Proof. vm_compute. reflexivity. Qed.
Example score_none : (matches "xb" "device_bind", matches "eib" "DeViCeBind") = (None, Some 200%Z).
Proof. vm_compute. reflexivity. Qed.
Lemma prefix_range_exact_witness :
  exists t, three_byte_prefix_token (text "device_bind") = Some t /\ (6579456 <= t < 6579712)%N.
Proof.
  exists 6579574%N. split; [reflexivity|].
  refine (proj2 (prefix_range_exact (text "de") (text "device_bind") 6579456%N 6579712%N 6579574%N
    (bytes_of_ok "de") (bytes_of_ok "device_bind") eq_refl eq_refl) _).
  exists (text "vice_bind"). reflexivity.
Defined.
