(* ===== verification/NameSegments.v ===== *)
(** * Segments of the name index (query.rs, query/name_index_builder.rs)

    A segment is built once from a list of names and never changes: the builder interns
    names, paths and projects into arenas, and the finished segment has its entries
    sorted by name and posted by path, by project, by first byte, by three-byte prefix
    and by trigram token. Identifiers are [u32]; building is [None] where the code
    panics. Comparators, whose positions come from the segment itself, read a default
    where the code would panic. *)

From S2P Require Import Prelude Arrays NameMatch CallModel.

Inductive ParserKind : Type := KindFunction | KindMacro | KindType | KindEnumConstant | KindGlobalVariable | KindField.
Inductive SymbolRole : Type :=
  | Definition_ | Declaration | TentativeDefinition | UnknownDeclarationOrDefinition.
#[export] Instance ParserKind_eq_dec : EqDecision ParserKind.
Proof. solve_decision. Defined.
#[export] Instance SymbolRole_eq_dec : EqDecision SymbolRole.
Proof. solve_decision. Defined.
Record ProjectKey : Type := mkProject { workspace_root_id : string; project_path : string }.
#[export] Instance ProjectKey_eq_dec : EqDecision ProjectKey.
Proof. solve_decision. Defined.
#[export] Program Instance ProjectKey_countable : Countable ProjectKey :=
  inj_countable' (fun k => (k.(workspace_root_id), k.(project_path))) (fun p => mkProject p.1 p.2) _.
Next Obligation. by intros []. Qed.

(** An entry with its texts ([NameEntry], and the borrowed [NameEntryRef]). *)
Record NameEntry : Type := mkName {
  ne_id : Z;
  ne_name : string;
  ne_lower : string;
  ne_external : bool;
  ne_directly_included : bool;
  ne_path : string;
  ne_kind : ParserKind;
  ne_role : SymbolRole;
  ne_family : SemanticFamily;
  ne_project : option ProjectKey;
}.
#[export] Instance NameEntry_eq_dec : EqDecision NameEntry.
Proof. solve_decision. Defined.

Definition NO_PROJECT_ID : N := u32_max.
Definition UNSEEN_PATH_ID : N := (u32_max - 1)%N.
Definition MULTI_PATH_ID : N := u32_max.

(** ** Flags *)

Definition EXTERNAL : N := N.shiftl 1 0.
Definition DIRECTLY_INCLUDED : N := N.shiftl 1 1.
Definition GO_FAMILY : N := N.shiftl 1 2.
Definition CompactNameFlags_new (family : SemanticFamily) (external directly_included : bool) : N :=
  let bits := match family with CFamily => 0%N | FamilyGo => GO_FAMILY end in
  let bits := if external then N.lor bits EXTERNAL else bits in
  if external && directly_included then N.lor bits DIRECTLY_INCLUDED else bits.
Definition flags_family (flags : N) : SemanticFamily :=
  if N.eqb (N.land flags GO_FAMILY) 0 then CFamily else FamilyGo.
Definition flags_external (flags : N) : bool := negb (N.eqb (N.land flags EXTERNAL) 0).
Definition flags_directly_included (flags : N) : bool := negb (N.eqb (N.land flags DIRECTLY_INCLUDED) 0).

Record CompactNameEntry : Type := mkEntry {
  ce_id : Z;
  name_id : N;
  path_id : N;
  project_id : N;
  ce_kind : ParserKind;
  ce_role : SymbolRole;
  flags : N;
}.
Record NameString : Type := mkText { original : string; text_lower : string }.
#[export] Instance NameString_eq_dec : EqDecision NameString.
Proof. solve_decision. Defined.

(** [semantic_family_slot]: an array of two indexed by the family *)
Definition slot {A} (f : SemanticFamily) (p : A * A) : A := match f with CFamily => p.1 | FamilyGo => p.2 end.
Definition update_slot {A} (f : SemanticFamily) (g : A -> A) (p : A * A) : A * A :=
  match f with CFamily => (g p.1, p.2) | FamilyGo => (p.1, g p.2) end.
(** [semantic_family_slots] *)
Definition family_slots (family : option SemanticFamily) : list SemanticFamily :=
  match family with None => [CFamily; FamilyGo] | Some f => [f] end.

(** ** The builder *)

Record NameIndexBuilder : Type := mkBuilder {
  b_entries : list CompactNameEntry;
  b_names : list NameString;
  name_ids : gmap string N;
  b_paths : list string;
  b_path_ids : gmap string N;
  b_path_counts : list N;
  b_path_is_external : list bool;
  b_projects : list ProjectKey;
  project_ids : gmap ProjectKey N;
}.
Definition new : NameIndexBuilder := mkBuilder [] [] ∅ [] ∅ [] [] [] ∅.

Definition intern_name (name : string) (known_lower : option string) (b : NameIndexBuilder) :
    option (N * NameIndexBuilder) :=
  match b.(name_ids) !! name with
  | Some id => Some (id, b)
  | None =>
      id ← u32_try (length b.(b_names));
      let low := match known_lower with Some low => low | None => lower name end in
      Some (id, mkBuilder b.(b_entries) (b.(b_names) ++ [mkText name low]) (<[name := id]> b.(name_ids))
                  b.(b_paths) b.(b_path_ids) b.(b_path_counts) b.(b_path_is_external) b.(b_projects) b.(project_ids))
  end.
Definition intern_path (path : string) (external : bool) (b : NameIndexBuilder) :
    option (N * NameIndexBuilder) :=
  match b.(b_path_ids) !! path with
  | Some id => Some (id, b)
  | None =>
      id ← u32_try (length b.(b_paths));
      Some (id, mkBuilder b.(b_entries) b.(b_names) b.(name_ids) (b.(b_paths) ++ [path])
                  (<[path := id]> b.(b_path_ids)) (b.(b_path_counts) ++ [0%N])
                  (b.(b_path_is_external) ++ [external]) b.(b_projects) b.(project_ids))
  end.
Definition intern_project (project : ProjectKey) (b : NameIndexBuilder) : option (N * NameIndexBuilder) :=
  match b.(project_ids) !! project with
  | Some id => Some (id, b)
  | None =>
      id ← u32_try (length b.(b_projects));
      Some (id, mkBuilder b.(b_entries) b.(b_names) b.(name_ids) b.(b_paths) b.(b_path_ids)
                  b.(b_path_counts) b.(b_path_is_external) (b.(b_projects) ++ [project])
                  (<[project := id]> b.(project_ids)))
  end.
Definition push_compact (entry : CompactNameEntry) (b : NameIndexBuilder) : option NameIndexBuilder :=
  count ← get b.(b_path_counts) entry.(path_id);
  counts ← put b.(b_path_counts) entry.(path_id) (count + 1)%N;
  Some (mkBuilder (b.(b_entries) ++ [entry]) b.(b_names) b.(name_ids) b.(b_paths) b.(b_path_ids)
          counts b.(b_path_is_external) b.(b_projects) b.(project_ids)).
(** [push_entry] and [push_ref] *)
Definition push_entry (b : NameIndexBuilder) (entry : NameEntry) : option NameIndexBuilder :=
  '(name_id, b) ← intern_name entry.(ne_name) (Some entry.(ne_lower)) b;
  '(path_id, b) ← intern_path entry.(ne_path) entry.(ne_external) b;
  '(project_id, b) ← match entry.(ne_project) with
                     | Some project => intern_project project b
                     | None => Some (NO_PROJECT_ID, b)
                     end;
  push_compact (mkEntry entry.(ne_id) name_id path_id project_id entry.(ne_kind) entry.(ne_role)
    (CompactNameFlags_new entry.(ne_family) entry.(ne_external) entry.(ne_directly_included))) b.

(** ** Orders *)

Definition no_text : NameString := mkText "" "".
Definition text_at (names : list NameString) (id : N) : NameString := default no_text (get names id).
Definition name_order (names : list NameString) : N -> N -> comparison :=
  cmp_lex (cmp_on (fun id => (text_at names id).(text_lower)) String.compare)
          (cmp_on (fun id => (text_at names id).(original)) String.compare).
Definition role_priority (r : SymbolRole) : N :=
  match r with
  | Declaration => 4 | TentativeDefinition => 3 | Definition_ => 2 | UnknownDeclarationOrDefinition => 1
  end%N.
Definition no_entry : CompactNameEntry := mkEntry 0 0 0 0 KindFunction Definition_ 0.
Definition entry_at (entries : list CompactNameEntry) (i : N) : CompactNameEntry := default no_entry (get entries i).
Definition static_segment_entry_order (entries : list CompactNameEntry) (names : list NameString)
    (paths : list string) : N -> N -> comparison :=
  let name i := (text_at names (entry_at entries i).(name_id)).(original) in
  cmp_lex (cmp_on (fun i => String.length (name i)) Nat.compare)
  (cmp_lex (cmp_on name String.compare)
  (cmp_lex (cmp_rev (cmp_on (fun i => role_priority (entry_at entries i).(ce_role)) N.compare))
  (cmp_lex (cmp_on (fun i => default ""%string (get paths (entry_at entries i).(path_id))) String.compare)
           (cmp_on (fun i => (entry_at entries i).(ce_id)) Z.compare)))).
Definition entry_family (e : CompactNameEntry) : SemanticFamily := flags_family e.(flags).

(** ** Sorted partitions and postings

    [sort_unstable_by] is the stable sort: entries that compare equal are either equal or
    may be listed in any order. *)

Definition entry_ids (entries : list CompactNameEntry) : option (list N) :=
  mapM u32_try (seq 0 (length entries)).
(** [by_family[slot(entries[index])].push(index)] *)
Definition split_family (entries : list CompactNameEntry) (indices : list N) : option (list N * list N) :=
  foldM (fun acc index => e ← get entries index; Some (update_slot (entry_family e) (fun l => l ++ [index]) acc))
    ([], []) indices.
Definition sorted_indices_by_family (entries : list CompactNameEntry) (names : list NameString) :
    option (list N * list N) :=
  ids ← mapM u32_try (seq 0 (length names));
  let order := sort_by (name_order names) ids in
  counts ← count_all (length names) (name_id <$> entries);
  '(cursors, _) ← foldM (lay_out_one counts) (replicate (length names) 0%N, 0%N) order;
  indices ← entry_ids entries;
  sorted ← scatter cursors (replicate (length entries) 0%N) (zip (name_id <$> entries) indices);
  split_family entries sorted.

Record CompactPathPostings : Type := mkPathPostings { offsets : list N; indices : list N }.
Definition build_path_postings (entries : list CompactNameEntry) (sorted_indices : list N)
    (path_count : nat) : option CompactPathPostings :=
  paths ← mapM (fun index => path_id <$> get entries index) sorted_indices;
  counts ← count_all path_count paths;
  offsets ← offsets_of counts;
  indices ← scatter (take path_count offsets) (replicate (length sorted_indices) 0%N) (zip paths sorted_indices);
  Some (mkPathPostings offsets indices).
Definition path_posting (p : CompactPathPostings) (path : N) : option (list N) :=
  start ← get p.(offsets) path;
  stop ← get p.(offsets) (path + 1)%N;
  slice p.(indices) start stop.

Record CompactPostingRange : Type := mkRange { r_start : N; r_len : N }.
Record CompactFuzzyPostings : Type := mkFuzzy { ranges : gmap N CompactPostingRange; name_ids_posted : list N }.
Definition name_tokens (names : list NameString) (id : N) : option (list N) :=
  n ← get names id; Some (fuzzy_tokens_for_name (bytes_of n.(original)) (bytes_of n.(text_lower))).
(** [slot_by_token.entry(token).or_insert_with(..)], then the count *)
Definition fuzzy_count (st : gmap N N * list N) (token : N) : option (gmap N N * list N) :=
  let '(slots, counts) := st in
  match slots !! token with
  | Some s => counts ← count_one counts s; Some (slots, counts)
  | None =>
      s ← u32_try (length counts);
      counts ← count_one (counts ++ [0%N]) s;
      Some (<[token := s]> slots, counts)
  end.
(** [starts.push(total); total = total.checked_add(count).expect(..)] *)
Definition push_start (st : list N * N) (count : N) : option (list N * N) :=
  total ← u32_add st.2 count; Some (st.1 ++ [st.2], total).
Definition fuzzy_build (ordered_name_ids : list N) (names : list NameString) : option CompactFuzzyPostings :=
  tokens ← mapM (name_tokens names) ordered_name_ids;
  '(slots, counts) ← foldM fuzzy_count (∅, []) (concat tokens);
  '(starts, total) ← foldM push_start ([], 0%N) counts;
  items ← mapM (fun '(token, id) => s ← slots !! token; Some (s, id))
            (concat (zip_with (fun ts id => (fun t => (t, id)) <$> ts) tokens ordered_name_ids));
  name_ids ← scatter starts (replicate (N.to_nat total) 0%N) items;
  Some (mkFuzzy ((fun s => mkRange (default 0%N (get starts s)) (default 0%N (get counts s))) <$> slots) name_ids).
Definition fuzzy_posting (f : CompactFuzzyPostings) (token : N) : option (list N) :=
  match f.(ranges) !! token with
  | None => Some []
  | Some r => slice f.(name_ids_posted) r.(r_start) (r.(r_start) + r.(r_len))%N
  end.

(** [heads[slot].entry(head).or_insert_with(Vec::new).push(local)] *)
Definition post_head (entries : list CompactNameEntry) (names : list NameString)
    (heads : gmap N (list N)) (local : N) : option (gmap N (list N)) :=
  e ← get entries local;
  n ← get names e.(name_id);
  Some (match bytes_of n.(text_lower) with
        | [] => heads
        | head :: _ => push_map heads head local
        end).
Definition note_family (entries_families : list N) (e : CompactNameEntry) : option (list N) :=
  bits ← get entries_families e.(name_id);
  put entries_families e.(name_id)
    (N.lor bits (N.shiftl 1 (match entry_family e with CFamily => 0 | FamilyGo => 1 end)))%N.
Definition family_bit (f : SemanticFamily) (bits : N) : bool :=
  negb (N.eqb (N.land bits (N.shiftl 1 (match f with CFamily => 0 | FamilyGo => 1 end))) 0).
Definition fuzzy_name_order (names : list NameString) : N -> N -> comparison :=
  let name i := (text_at names i).(original) in
  cmp_lex (cmp_on (fun i => String.length (name i)) Nat.compare)
    (cmp_lex (cmp_on name String.compare) N.compare).
Definition ordered_names (families : list N) (names : list NameString) (f : SemanticFamily) : option (list N) :=
  ids ← mapM u32_try (seq 0 (length names));
  Some (sort_by (fuzzy_name_order names)
    (List.filter (fun id => family_bit f (default 0%N (get families id))) ids)).
Definition candidate_postings_by_family (entries : list CompactNameEntry) (names : list NameString)
    (paths : list string) :
    option ((gmap N (list N) * gmap N (list N)) * (CompactFuzzyPostings * CompactFuzzyPostings)) :=
  ids ← entry_ids entries;
  '(c, g) ← split_family entries ids;
  let static := sort_by (static_segment_entry_order entries names paths) in
  hc ← foldM (post_head entries names) ∅ (static c);
  hg ← foldM (post_head entries names) ∅ (static g);
  families ← foldM note_family (replicate (length names) 0%N) entries;
  nc ← ordered_names families names CFamily;
  ng ← ordered_names families names FamilyGo;
  fc ← fuzzy_build nc names;
  fg ← fuzzy_build ng names;
  Some ((hc, hg), (fc, fg)).

Record CompactPrefixPathPair : Type := mkPair { token : N; pair_path : N }.
#[export] Instance CompactPrefixPathPair_eq_dec : EqDecision CompactPrefixPathPair.
Proof. solve_decision. Defined.
Record CompactPrefixPathPostings : Type := mkPrefixPaths {
  pairs : list CompactPrefixPathPair;
  project_positions : gmap N (list N);
}.
Definition raw_pair_order : CompactPrefixPathPair * N -> CompactPrefixPathPair * N -> comparison :=
  cmp_lex (cmp_on (fun x => x.1.(token)) N.compare)
    (cmp_lex (cmp_on (fun x => x.1.(pair_path)) N.compare) (cmp_on snd N.compare)).
Definition raw_pairs (entries : list CompactNameEntry) (names : list NameString) (f : SemanticFamily) :
    option (list (CompactPrefixPathPair * N)) :=
  pairs ← mapM (fun e =>
      n ← get names e.(name_id);
      Some ((fun t => (mkPair t e.(path_id), e.(project_id))) <$> three_byte_prefix_token (bytes_of n.(text_lower))))
    (List.filter (fun e => bool_decide (entry_family e = f)) entries);
  Some (omap id pairs).
Definition push_pair (st : list CompactPrefixPathPair * gmap N (list N)) (item : CompactPrefixPathPair * N) :
    option (list CompactPrefixPathPair * gmap N (list N)) :=
  let '(pairs, positions) := st in
  let '(this, project) := item in
  '(position, pairs) ←
     (if bool_decide (last pairs = Some this)
      then position ← u32_try (length pairs - 1); Some (position, pairs)
      else position ← u32_try (length pairs); Some (position, pairs ++ [this]));
  if N.eqb project NO_PROJECT_ID then Some (pairs, positions)
  else
    let held := default [] (positions !! project) in
    Some (pairs, <[project := if bool_decide (last held = Some position) then held else held ++ [position]]> positions).
Definition build_prefix_paths (entries : list CompactNameEntry) (names : list NameString) (f : SemanticFamily) :
    option CompactPrefixPathPostings :=
  raw ← raw_pairs entries names f;
  let raw := dedup (fun a b => bool_decide (a = b)) (sort_by raw_pair_order raw) in
  '(pairs, positions) ← foldM push_pair ([], ∅) raw;
  Some (mkPrefixPaths pairs positions).
(** [partition_point] of a slice that is sorted by the test *)
Fixpoint partition_point {A} (f : A -> bool) (l : list A) : nat :=
  match l with [] => 0 | x :: l => if f x then S (partition_point f l) else 0 end.
Definition between {A} (f g : A -> bool) (l : list A) : list A :=
  let start := partition_point f l in
  let stop := partition_point g l in
  take (stop - start) (drop start l).
Definition paths_for_prefix (p : CompactPrefixPathPostings) (prefix : Bytes) : list CompactPrefixPathPair :=
  match three_byte_prefix_bounds prefix with
  | None => []
  | Some (low, high) => between (fun x => x.(token) <? low)%N (fun x => x.(token) <? high)%N p.(pairs)
  end.
Definition pair_token (p : CompactPrefixPathPostings) (position : N) : N :=
  from_option token 0%N (get p.(pairs) position).
Definition project_positions_for_prefix (p : CompactPrefixPathPostings) (project : N) (prefix : Bytes) : list N :=
  match three_byte_prefix_bounds prefix, p.(project_positions) !! project with
  | Some (low, high), Some positions =>
      between (fun x => pair_token p x <? low)%N (fun x => pair_token p x <? high)%N positions
  | _, _ => []
  end.

(** ** The segment *)

Record NameSegment : Type := mkSegment {
  entries : list CompactNameEntry;
  names : list NameString;
  paths : list string;
  path_ids : gmap string N;
  path_counts : list N;
  path_is_external : list bool;
  projects : list ProjectKey;
  sorted_by_family : list N * list N;
  short_prefix_heads_by_family : gmap N (list N) * gmap N (list N);
  fuzzy_postings_by_family : CompactFuzzyPostings * CompactFuzzyPostings;
  sole_path_by_name : list N;
  prefix_paths_by_family : CompactPrefixPathPostings * CompactPrefixPathPostings;
  path_postings_by_family : CompactPathPostings * CompactPathPostings;
  by_project : gmap ProjectKey (N * (list N * list N));
}.
Definition note_sole_path (sole : list N) (e : CompactNameEntry) : option (list N) :=
  path ← get sole e.(name_id);
  put sole e.(name_id)
    (if N.eqb path UNSEEN_PATH_ID then e.(path_id) else if N.eqb path e.(path_id) then path else MULTI_PATH_ID).
Definition post_project (entries : list CompactNameEntry) (projects : list ProjectKey) (f : SemanticFamily)
    (m : gmap ProjectKey (N * (list N * list N))) (index : N) : option (gmap ProjectKey (N * (list N * list N))) :=
  e ← get entries index;
  if N.eqb e.(project_id) NO_PROJECT_ID then Some m
  else
    key ← get projects e.(project_id);
    let '(id, posted) := default (e.(project_id), ([], [])) (m !! key) in
    Some (<[key := (id, update_slot f (fun l => l ++ [index]) posted)]> m).
Definition from_compact_parts (entries : list CompactNameEntry) (names : list NameString) (paths : list string)
    (path_ids : gmap string N) (path_counts : list N) (path_is_external : list bool)
    (projects : list ProjectKey) : option NameSegment :=
  sorted ← sorted_indices_by_family entries names;
  '(heads, fuzzy) ← candidate_postings_by_family entries names paths;
  sole ← foldM note_sole_path (replicate (length names) UNSEEN_PATH_ID) entries;
  prefix_c ← build_prefix_paths entries names CFamily;
  prefix_go ← build_prefix_paths entries names FamilyGo;
  path_c ← build_path_postings entries sorted.1 (length paths);
  path_go ← build_path_postings entries sorted.2 (length paths);
  projects_c ← foldM (post_project entries projects CFamily) ∅ sorted.1;
  by_project ← foldM (post_project entries projects FamilyGo) projects_c sorted.2;
  Some (mkSegment entries names paths path_ids path_counts path_is_external projects sorted heads fuzzy sole
          (prefix_c, prefix_go) (path_c, path_go) by_project).
Definition finish_segment (b : NameIndexBuilder) : option NameSegment :=
  from_compact_parts b.(b_entries) b.(b_names) b.(b_paths) b.(b_path_ids) b.(b_path_counts)
    b.(b_path_is_external) b.(b_projects).
Definition segment_from_entries (es : list NameEntry) : option NameSegment :=
  b ← foldM push_entry new es; finish_segment b.

Definition entry (s : NameSegment) (index : nat) : option NameEntry :=
  e ← s.(entries) !! index;
  n ← get s.(names) e.(name_id);
  path ← get s.(paths) e.(path_id);
  project ← (if N.eqb e.(project_id) NO_PROJECT_ID then Some None else Some <$> get s.(projects) e.(project_id));
  Some (mkName e.(ce_id) n.(original) n.(text_lower) (flags_external e.(flags)) (flags_directly_included e.(flags))
          path e.(ce_kind) e.(ce_role) (entry_family e) project).
Definition path_count (s : NameSegment) (path : string) : option N :=
  match s.(path_ids) !! path with None => Some 0%N | Some id => get s.(path_counts) id end.
Definition interned_path (s : NameSegment) (path : string) : option (option string) :=
  match s.(path_ids) !! path with None => Some None | Some id => Some <$> get s.(paths) id end.

(** ** Arenas *)

Section arena.
Context `{Countable K}.
Implicit Types (ids : gmap K N) (vals : list K).
(** The map and the vector of an arena are inverse to each other. *)
Definition arena_ok ids vals : Prop := forall k id, ids !! k = Some id <-> get vals id = Some k.
Lemma arena_empty : arena_ok ∅ [].
Proof. intros k id. rewrite lookup_empty. unfold get. by rewrite lookup_nil. Qed.
Lemma arena_push ids vals k :
  arena_ok ids vals -> ids !! k = None -> arena_ok (<[k := N.of_nat (length vals)]> ids) (vals ++ [k]).
Proof.
  intros Ha Hk k' id. unfold get in *. rewrite lookup_snoc_Some, lookup_insert_Some, (Ha k' id). unfold get. split.
  - intros [[<- <-]|[Hne Hg]]; [right; split; [lia|done]|left]. by eapply lookup_lt_Some in Hg as ?.
  - intros [[Hl Hg]|[Hl <-]]; [right|left; split; [done|lia]]. split; [|done].
    intros <-. apply (Ha k id) in Hg. congruence.
Qed.
Lemma arena_nodup ids vals : arena_ok ids vals -> NoDup vals.
Proof.
  intros Ha. apply NoDup_alt. intros i j k Hi Hj.
  assert (ids !! k = Some (N.of_nat i)) as H1 by (apply Ha; unfold get; by rewrite Nat2N.id).
  assert (ids !! k = Some (N.of_nat j)) as H2 by (apply Ha; unfold get; by rewrite Nat2N.id).
  rewrite H1 in H2. injection H2. lia.
Qed.
Lemma arena_lt ids vals k id : arena_ok ids vals -> ids !! k = Some id -> (N.to_nat id < length vals)%nat.
Proof. intros Ha Hk%Ha. by eapply get_lt. Qed.
Lemma arena_elem ids vals k : arena_ok ids vals -> k ∈ vals <-> is_Some (ids !! k).
Proof.
  intros Ha. split.
  - intros [i Hi]%list_elem_of_lookup. exists (N.of_nat i). apply Ha. unfold get. by rewrite Nat2N.id.
  - intros [id Hid%Ha]. by eapply list_elem_of_lookup_2.
Qed.
End arena.
Lemma get_app_l {A} (l k : list A) i x : get l i = Some x -> get (l ++ k) i = Some x.
Proof. apply lookup_app_l_Some. Qed.

(** ** Flags *)

Lemma name_flags_roundtrip f ext direct :
  let bits := CompactNameFlags_new f ext direct in
  flags_family bits = f /\ flags_external bits = ext /\ flags_directly_included bits = ext && direct.
Proof. by destruct f, ext, direct. Qed.

(** ** What a builder holds *)

Definition normalise (e : NameEntry) : NameEntry :=
  mkName e.(ne_id) e.(ne_name) e.(ne_lower) e.(ne_external) (e.(ne_external) && e.(ne_directly_included))
    e.(ne_path) e.(ne_kind) e.(ne_role) e.(ne_family) e.(ne_project).
(** Names come with their lowered form. *)
Definition lowered (e : NameEntry) : Prop := e.(ne_lower) = lower e.(ne_name).
Definition text_of (n : string) : NameString := mkText n (lower n).

Record denotes (names : list NameString) (paths : list string) (projects : list ProjectKey)
    (c : CompactNameEntry) (e : NameEntry) : Prop := {
  den_id : c.(ce_id) = e.(ne_id);
  den_name : get names c.(name_id) = Some (text_of e.(ne_name));
  den_path : get paths c.(path_id) = Some e.(ne_path);
  den_project : match e.(ne_project) with
                | None => c.(project_id) = NO_PROJECT_ID
                | Some k => get projects c.(project_id) = Some k /\ c.(project_id) <> NO_PROJECT_ID
                end;
  den_kind : c.(ce_kind) = e.(ne_kind);
  den_role : c.(ce_role) = e.(ne_role);
  den_flags : c.(flags) = CompactNameFlags_new e.(ne_family) e.(ne_external) e.(ne_directly_included);
}.
Lemma denotes_app names names' paths paths' projects projects' c e :
  denotes names paths projects c e -> denotes (names ++ names') (paths ++ paths') (projects ++ projects') c e.
Proof.
  intros [? ? ? Hp ? ? ?]. split; try done; try by apply get_app_l.
  destruct (ne_project e); [|done]. destruct Hp. split; [by apply get_app_l|done].
Qed.
Definition with_path (p : string) (es : list NameEntry) : list NameEntry :=
  List.filter (fun e => bool_decide (e.(ne_path) = p)) es.
Definition first_external (p : string) (es : list NameEntry) : bool := from_option ne_external false (head (with_path p es)).

(** The vectors beside the path arena. *)
Record tables_ok (paths : list string) (counts : list N) (external : list bool) (es : list NameEntry) : Prop := {
  to_counts_length : length counts = length paths;
  to_external_length : length external = length paths;
  to_counts id p : get paths id = Some p -> get counts id = Some (N.of_nat (length (with_path p es)));
  to_external id p : get paths id = Some p -> get external id = Some (first_external p es);
  to_occurs p : p ∈ paths <-> with_path p es <> [];
}.

Record builder_ok (b : NameIndexBuilder) (es : list NameEntry) : Prop := {
  bo_names : arena_ok b.(name_ids) (original <$> b.(b_names));
  bo_lower : Forall (fun n => n = text_of n.(original)) b.(b_names);
  bo_paths : arena_ok b.(b_path_ids) b.(b_paths);
  bo_projects : arena_ok b.(project_ids) b.(b_projects);
  bo_size : (length b.(b_names) <= length es)%nat /\ (length b.(b_paths) <= length es)%nat /\
            (length b.(b_projects) <= length es)%nat;
  bo_entries : Forall2 (denotes b.(b_names) b.(b_paths) b.(b_projects)) b.(b_entries) es;
  bo_tables : tables_ok b.(b_paths) b.(b_path_counts) b.(b_path_is_external) es;
}.

Lemma builder_new : builder_ok new [].
Proof.
  split; try done; try apply arena_empty; simpl. split; try done.
  intros p. split; [by intros ?%not_elem_of_nil|done].
Qed.

(** Interning finds or appends. *)
Lemma intern_name_ok e b :
  arena_ok b.(name_ids) (original <$> b.(b_names)) -> Forall (fun n => n = text_of n.(original)) b.(b_names) ->
  lowered e -> (N.of_nat (length b.(b_names)) <= u32_max)%N ->
  exists id extra, intern_name e.(ne_name) (Some e.(ne_lower)) b =
      Some (id, mkBuilder b.(b_entries) (b.(b_names) ++ extra) (<[e.(ne_name) := id]> b.(name_ids))
                 b.(b_paths) b.(b_path_ids) b.(b_path_counts) b.(b_path_is_external) b.(b_projects) b.(project_ids)) /\
    (length extra <= 1)%nat /\ get (b.(b_names) ++ extra) id = Some (text_of e.(ne_name)) /\
    arena_ok (<[e.(ne_name) := id]> b.(name_ids)) (original <$> b.(b_names) ++ extra) /\
    Forall (fun n => n = text_of n.(original)) (b.(b_names) ++ extra).
Proof.
  intros Ha Hl He Hmax. unfold intern_name. destruct (b.(name_ids) !! e.(ne_name)) as [id|] eqn:E.
  - exists id, []. rewrite app_nil_r, insert_id by done. split_and!; [by destruct b|simpl; lia| |done|done].
    pose proof E as Hg. apply Ha in Hg. unfold get in *. rewrite list_lookup_fmap_Some in Hg. destruct Hg as (n & -> & Hg).
    rewrite Hg. f_equal. rewrite Forall_lookup in Hl. by eapply Hl.
  - rewrite u32_try_ok by done. cbn [mbind option_bind]. unfold lowered in He. rewrite He. exists (N.of_nat (length b.(b_names))), [text_of e.(ne_name)].
    split_and!; [done|simpl; lia| | |].
    + unfold get. rewrite Nat2N.id. by apply list_lookup_middle.
    + rewrite fmap_app. simpl. rewrite <- (length_fmap original b.(b_names)). by apply arena_push.
    + apply Forall_app. split; [done|]. by repeat constructor.
Qed.
(** A key the arena does not hold yet. *)
Definition fresh {A} `{EqDecision A} (k : A) (vals : list A) : list A := if decide (k ∈ vals) then [] else [k].
Lemma arena_intern `{Countable K} (ids : gmap K N) (vals : list K) k id :
  arena_ok ids vals -> id = default (N.of_nat (length vals)) (ids !! k) ->
  arena_ok (<[k := id]> ids) (vals ++ fresh k vals) /\ get (vals ++ fresh k vals) id = Some k.
Proof.
  intros Ha ->. unfold fresh. destruct (ids !! k) as [id|] eqn:E; simpl.
  - rewrite insert_id by done. rewrite decide_True by (eapply arena_elem; eauto). rewrite app_nil_r.
    split; [done|]. by apply Ha.
  - rewrite decide_False by (rewrite (arena_elem _ _ _ Ha), E; by intros []). split; [by apply arena_push|].
    unfold get. rewrite Nat2N.id. by apply list_lookup_middle.
Qed.
Lemma intern_path_ok p ext b :
  arena_ok b.(b_path_ids) b.(b_paths) -> (N.of_nat (length b.(b_paths)) <= u32_max)%N ->
  exists id, intern_path p ext b =
      Some (id, mkBuilder b.(b_entries) b.(b_names) b.(name_ids) (b.(b_paths) ++ fresh p b.(b_paths))
                 (<[p := id]> b.(b_path_ids)) (b.(b_path_counts) ++ (const 0%N <$> fresh p b.(b_paths)))
                 (b.(b_path_is_external) ++ (const ext <$> fresh p b.(b_paths))) b.(b_projects) b.(project_ids)) /\
    get (b.(b_paths) ++ fresh p b.(b_paths)) id = Some p /\
    arena_ok (<[p := id]> b.(b_path_ids)) (b.(b_paths) ++ fresh p b.(b_paths)).
Proof.
  intros Ha Hmax. set (id := default (N.of_nat (length b.(b_paths))) (b.(b_path_ids) !! p)).
  exists id. destruct (arena_intern _ _ p id Ha eq_refl) as [H1 H2]. split_and!; [|done..].
  unfold intern_path, fresh in *. subst id. destruct (b.(b_path_ids) !! p) as [id|] eqn:E; simpl.
  - rewrite decide_True by (eapply arena_elem; eauto). simpl. rewrite !app_nil_r, insert_id by done. by destruct b.
  - rewrite u32_try_ok by done. rewrite decide_False by (rewrite (arena_elem _ _ _ Ha), E; by intros []). done.
Qed.
Lemma intern_project_ok k b :
  arena_ok b.(project_ids) b.(b_projects) -> (N.of_nat (length b.(b_projects)) < u32_max)%N ->
  exists id, intern_project k b =
      Some (id, mkBuilder b.(b_entries) b.(b_names) b.(name_ids) b.(b_paths) b.(b_path_ids) b.(b_path_counts)
                 b.(b_path_is_external) (b.(b_projects) ++ fresh k b.(b_projects)) (<[k := id]> b.(project_ids))) /\
    get (b.(b_projects) ++ fresh k b.(b_projects)) id = Some k /\ id <> NO_PROJECT_ID /\
    arena_ok (<[k := id]> b.(project_ids)) (b.(b_projects) ++ fresh k b.(b_projects)).
Proof.
  intros Ha Hmax. set (id := default (N.of_nat (length b.(b_projects))) (b.(project_ids) !! k)).
  exists id. destruct (arena_intern _ _ k id Ha eq_refl) as [H1 H2].
  assert (id <> NO_PROJECT_ID) as Hne.
  { apply get_lt in H2. rewrite length_app in H2. unfold fresh in H2. unfold NO_PROJECT_ID.
    case_decide; simpl in H2; lia. }
  split_and!; [|done..].
  unfold intern_project, fresh in *. subst id. destruct (b.(project_ids) !! k) as [id|] eqn:E; simpl.
  - rewrite decide_True by (eapply arena_elem; eauto). simpl. rewrite !app_nil_r, insert_id by done. by destruct b.
  - rewrite u32_try_ok by lia. rewrite decide_False by (rewrite (arena_elem _ _ _ Ha), E; by intros []). done.
Qed.

Lemma with_path_snoc p es e : with_path p (es ++ [e]) = with_path p es ++ (if decide (e.(ne_path) = p) then [e] else []).
Proof. unfold with_path. rewrite List.filter_app. f_equal. cbn [List.filter].
  destruct (decide (e.(ne_path) = p)) as [E|E]; [by rewrite bool_decide_eq_true_2|by rewrite bool_decide_eq_false_2].
Qed.
Lemma first_external_snoc p es e :
  first_external p (es ++ [e]) =
  if decide (with_path p es = []) then (if decide (e.(ne_path) = p) then e.(ne_external) else false) else first_external p es.
Proof. unfold first_external. rewrite with_path_snoc. destruct (decide (with_path p es = [])) as [H|H]; [rewrite H; by case_decide|].
  by destruct (with_path p es). Qed.

Lemma tables_push paths counts external es e pid :
  let p := e.(ne_path) in
  let paths' := paths ++ fresh p paths in
  let counts' := counts ++ (const 0%N <$> fresh p paths) in
  tables_ok paths counts external es -> NoDup paths' -> get paths' pid = Some p ->
  exists c counts'', get counts' pid = Some c /\ put counts' pid (c + 1)%N = Some counts'' /\
    tables_ok paths' counts'' (external ++ (const e.(ne_external) <$> fresh p paths)) (es ++ [e]).
Proof.
  intros p paths' counts' [Hcl Hel Hc Hx Ho] Hnd Hpid.
  assert (forall A (l : list A) (x : A), length l = length paths ->
    length (l ++ (const x <$> fresh p paths)) = length paths') as Hlen.
  { intros A l x Hl. unfold paths'. by rewrite !length_app, length_fmap, Hl. }
  assert (forall A (l : list A) (x : A) id q (f : string -> A), length l = length paths ->
    (forall id q, get paths id = Some q -> get l id = Some (f q)) -> f p = x \/ p ∈ paths ->
    get paths' id = Some q -> get (l ++ (const x <$> fresh p paths)) id = Some (f q)) as Hget.
  { intros A l x id q f Hl Hf Hpx Hq. unfold get, paths' in *. apply lookup_app_Some in Hq as [Hq|[Hge Hq]].
    - apply lookup_app_l_Some. by apply Hf.
    - rewrite lookup_app_r by lia. rewrite list_lookup_fmap, Hl, Hq. simpl. f_equal.
      unfold fresh in Hq. case_decide as Hin; [done|]. apply list_lookup_singleton_Some in Hq as [_ <-].
      by destruct Hpx. }
  assert (p ∉ paths -> with_path p es = []) as Hfresh.
  { intros H. destruct (decide (with_path p es = [])); [done|]. by destruct H; apply Ho. }
  assert (forall id q, get paths' id = Some q -> get counts' id = Some (N.of_nat (length (with_path q es)))) as Hcount.
  { intros id q. apply (Hget N counts 0%N id q (fun q => N.of_nat (length (with_path q es)))); [done|exact Hc|].
    destruct (decide (p ∈ paths)); [by right|left]. by rewrite Hfresh. }
  assert (length counts' = length paths') as Hcl' by by apply Hlen.
  exists (N.of_nat (length (with_path p es))). eexists.
  split; [by apply Hcount|]. split; [apply put_ok; rewrite Hcl'; by eapply get_lt|]. split.
  - by rewrite length_insert.
  - by apply Hlen.
  - intros id q Hq. assert (get (<[N.to_nat pid:=(N.of_nat (length (with_path p es)) + 1)%N]> counts') id =
      if decide (pid = id) then Some (N.of_nat (length (with_path p es)) + 1)%N else get counts' id) as ->.
    { apply (get_put counts' pid), put_ok. rewrite Hcl'. by eapply get_lt. }
    rewrite with_path_snoc, length_app. case_decide as Hd.
    + subst id. rewrite Hpid in Hq. injection Hq as <-. rewrite decide_True by done. simpl. f_equal. lia.
    + rewrite (Hcount _ _ Hq), decide_False; [simpl; f_equal; lia|]. intros Hpq. apply Hd.
      pose proof (proj1 (NoDup_alt _) Hnd (N.to_nat pid) (N.to_nat id) p Hpid ltac:(unfold get in Hq; by rewrite Hq, <- Hpq)). lia.
  - intros id q Hq. apply (Hget bool external e.(ne_external) id q (fun q => first_external q (es ++ [e]))); [done| | |done].
    + intros id' q' Hq'. rewrite (Hx _ _ Hq'), first_external_snoc. rewrite decide_False; [done|].
      apply Ho. by eapply list_elem_of_lookup_2.
    + destruct (decide (p ∈ paths)) as [Hin|Hin]; [by right|left].
      rewrite first_external_snoc, decide_True by by apply Hfresh. by rewrite decide_True.
  - intros q. rewrite with_path_snoc. unfold paths'. rewrite elem_of_app, Ho. unfold fresh. split.
    + intros [H|H] [Hn1 Hn2]%app_eq_nil; [done|]. destruct (decide (p ∈ paths)); [by apply not_elem_of_nil in H|].
      apply list_elem_of_singleton in H as ->. by rewrite decide_True in Hn2.
    + intros H. destruct (decide (with_path q es = [])) as [Hq|Hq]; [|by left]. rewrite Hq in H. simpl in H.
      destruct (decide (ne_path e = q)) as [<-|]; [|done]. right. rewrite decide_False; [by left|].
      rewrite Ho. by intros [].
Qed.

Lemma push_entry_ok b es e :
  builder_ok b es -> lowered e -> (N.of_nat (length es) < u32_max)%N ->
  exists b', push_entry b e = Some b' /\ builder_ok b' (es ++ [e]).
Proof.
  intros [Hn Hlow Hp Hj (Hs1 & Hs2 & Hs3) He Ht] Hle Hmax. unfold push_entry.
  destruct (intern_name_ok e b Hn Hlow Hle ltac:(lia)) as (nid & nx & -> & Hnx & Hnid & Hn' & Hlow').
  cbn [mbind option_bind]. set (b1 := mkBuilder _ _ _ _ _ _ _ _ _).
  destruct (intern_path_ok e.(ne_path) e.(ne_external) b1 Hp ltac:(simpl; lia)) as (pid & -> & Hpid & Hp').
  cbn [mbind option_bind]. set (b2 := mkBuilder _ _ _ _ _ _ _ _ _).
  assert (exists jid jx, match e.(ne_project) with
      | Some project => intern_project project b2 | None => Some (NO_PROJECT_ID, b2) end =
      Some (jid, mkBuilder b2.(b_entries) b2.(b_names) b2.(name_ids) b2.(b_paths) b2.(b_path_ids) b2.(b_path_counts)
                 b2.(b_path_is_external) (b2.(b_projects) ++ jx)
                 (match e.(ne_project) with Some k => <[k := jid]> b2.(project_ids) | None => b2.(project_ids) end)) /\
      (length jx <= 1)%nat /\
      match e.(ne_project) with
      | None => jid = NO_PROJECT_ID
      | Some k => get (b2.(b_projects) ++ jx) jid = Some k /\ jid <> NO_PROJECT_ID
      end /\
      arena_ok (match e.(ne_project) with Some k => <[k := jid]> b2.(project_ids) | None => b2.(project_ids) end)
        (b2.(b_projects) ++ jx)) as (jid & jx & -> & Hjx & Hjid & Hj').
  { destruct (e.(ne_project)) as [k|].
    - destruct (intern_project_ok k b2 Hj ltac:(simpl; lia)) as (jid & -> & H1 & H2 & H3).
      exists jid, (fresh k b2.(b_projects)). split_and!; try done. unfold fresh. case_decide; simpl; lia.
    - exists NO_PROJECT_ID, []. rewrite !app_nil_r. split_and!; try done. simpl; lia. }
  cbn [mbind option_bind]. unfold push_compact. subst b1 b2.
  cbn [b_path_counts b_path_is_external b_paths b_names b_entries b_projects path_id] in *.
  destruct (tables_push _ _ _ _ e pid Ht (arena_nodup _ _ Hp') Hpid) as (c & counts & -> & Hput & Ht').
  cbn [mbind option_bind]. rewrite Hput. cbn [mbind option_bind]. eexists. split; [done|]. split; cbn; try done.
  - rewrite !length_app. cbn in Hjx. unfold fresh. case_decide; simpl; split_and!; lia.
  - apply Forall2_app; [|constructor; [|constructor]].
    + eapply Forall2_impl; [exact He|]. intros ? ?. apply denotes_app.
    + split; try done.
Qed.

Lemma push_all_ok es : forall b done_,
  builder_ok b done_ -> Forall lowered es -> (N.of_nat (length done_ + length es) <= u32_max)%N ->
  exists b', foldM push_entry b es = Some b' /\ builder_ok b' (done_ ++ es).
Proof.
  induction es as [|e es IH]; intros b done_ Hb Hl Hm; cbn [foldM].
  { exists b. by rewrite app_nil_r. }
  apply Forall_cons in Hl as [He Hl]. simpl in Hm.
  destruct (push_entry_ok b done_ e Hb He ltac:(lia)) as (b1 & -> & Hb1). cbn [mbind option_bind].
  destruct (IH b1 (done_ ++ [e]) Hb1 Hl) as (b' & -> & Hb'); [rewrite length_app; simpl; lia|].
  exists b'. split; [done|]. by rewrite <- (assoc_L (++)) in Hb'.
Qed.

(** ** Identifiers and partitions *)

Definition ids_upto (n : nat) : list N := N.of_nat <$> seq 0 n.
Lemma elem_of_ids n i : i ∈ ids_upto n <-> (N.to_nat i < n)%nat.
Proof.
  unfold ids_upto. rewrite list_elem_of_fmap. setoid_rewrite elem_of_seq. split.
  - intros (k & -> & Hk). lia.
  - intros H. exists (N.to_nat i). lia.
Qed.
Lemma ids_upto_ok n : (N.of_nat n <= u32_max)%N -> mapM u32_try (seq 0 n) = Some (ids_upto n).
Proof.
  intros H. apply mapM_Some. unfold ids_upto. apply Forall2_fmap_r, Forall_Forall2_diag, Forall_forall.
  intros k Hk%elem_of_seq. apply u32_try_ok. lia.
Qed.
Lemma ids_upto_lookup n i : (i < n)%nat -> ids_upto n !! i = Some (N.of_nat i).
Proof. intros H. unfold ids_upto. rewrite list_lookup_fmap, lookup_seq_lt by done. done. Qed.
Lemma ids_upto_length n : length (ids_upto n) = n.
Proof. unfold ids_upto. by rewrite length_fmap, length_seq. Qed.
Lemma ids_upto_sorted n : StronglySorted N.lt (ids_upto n).
Proof.
  unfold ids_upto. generalize 0%nat. induction n as [|n IH]; intros k; simpl; constructor; [apply IH|].
  apply Forall_forall. intros i (j & -> & Hj%elem_of_seq)%list_elem_of_fmap. lia.
Qed.
Lemma ids_upto_nodup n : NoDup (ids_upto n).
Proof. apply NoDup_fmap_2; [intros ? ?; lia|]. apply NoDup_seq. Qed.

Lemma StronglySorted_concat {A} (R : A -> A -> Prop) (segs : list (list A)) :
  Forall (StronglySorted R) segs ->
  (forall i j s t x y, (i < j)%nat -> segs !! i = Some s -> segs !! j = Some t -> x ∈ s -> y ∈ t -> R x y) ->
  StronglySorted R (concat segs).
Proof.
  induction segs as [|s segs IH]; intros Hs Hx; simpl; [constructor|].
  apply Forall_cons in Hs as [Hs Hss].
  assert (StronglySorted R (concat segs)) as Hc.
  { apply IH; [done|]. intros i j s' t x y Hij. apply (Hx (S i) (S j)). lia. }
  assert (forall x y, x ∈ s -> y ∈ concat segs -> R x y) as Hc2.
  { intros x y Hxs Hy. apply list_elem_of_In, in_concat in Hy as (t & Ht & Hy). apply list_elem_of_In in Ht, Hy.
    apply list_elem_of_lookup in Ht as [j Hj]. by apply (Hx 0 (S j) s t); [lia|..]. }
  clear IH Hx Hss. induction Hs as [|x s Hs IH Hsx]; simpl; [done|]. constructor.
  - apply IH. intros y z Hy. apply Hc2. by right.
  - apply Forall_app. split; [done|]. apply Forall_forall. intros y Hy. apply Hc2; [left|done].
Qed.
Lemma bucket_sublist {A} b (items : list (N * A)) : bucket b items `sublist_of` items.*2.
Proof. unfold bucket. apply fmap_sublist, list_filter_bool_sublist. Qed.
Lemma elem_of_bucket {A} b (items : list (N * A)) x : x ∈ bucket b items <-> (b, x) ∈ items.
Proof.
  unfold bucket. rewrite list_elem_of_fmap. split.
  - intros ([c y] & -> & [Hin E]%elem_of_filter_bool). simpl in *. by apply N.eqb_eq in E as ->.
  - intros Hin. exists (b, x). split; [done|]. apply elem_of_filter_bool. split; [done|]. apply N.eqb_refl.
Qed.
Lemma concat_buckets_perm {A} order (items : list (N * A)) :
  NoDup order -> (forall it, it ∈ items -> it.1 ∈ order) -> concat (buckets order items) ≡ₚ items.*2.
Proof.
  intros Hnd. induction items as [|[b x] items IH]; intros Hin.
  { clear. unfold buckets. induction order as [|b order IH]; simpl; done. }
  rewrite fmap_cons. cbn [snd]. rewrite <- IH by (intros; apply Hin; by right).
  specialize (Hin (b, x) ltac:(by left)). simpl in Hin. clear IH.
  induction Hnd as [|c order Hc Hnd IH]; [by apply not_elem_of_nil in Hin|].
  unfold buckets in *. rewrite !fmap_cons. cbn [concat]. rewrite bucket_cons. cbn [fst snd].
  destruct (N.eqb_spec b c) as [->|Hne].
  - simpl. do 2 f_equiv. clear - Hc. induction order as [|d order IH]; simpl; [done|].
    apply not_elem_of_cons in Hc as [? ?]. rewrite bucket_cons. simpl. rewrite (proj2 (N.eqb_neq c d)) by done.
    f_equiv. by apply IH.
  - rewrite IH by set_solver. by rewrite Permutation_middle.
Qed.

(** ** The sorted index *)

Definition name_at (es : list NameEntry) (i : N) : string := from_option ne_name ""%string (get es i).
Definition family_at (es : list NameEntry) (i : N) : SemanticFamily := from_option ne_family CFamily (get es i).
Definition path_at (es : list NameEntry) (i : N) : string := from_option ne_path ""%string (get es i).
(** By lowered name, then name, then position. *)
Definition index_order (es : list NameEntry) : N -> N -> comparison :=
  cmp_lex (cmp_on (fun i => lower (name_at es i)) String.compare)
    (cmp_lex (cmp_on (name_at es) String.compare) N.compare).
#[export] Instance index_order_lawful es : LawfulCmp (index_order es).
Proof. unfold index_order. apply _. Qed.
Lemma index_order_eq es i j : index_order es i j = Eq -> i = j.
Proof.
  unfold index_order, cmp_lex, cmp_on. intros H. apply N.compare_eq_iff. revert H.
  destruct (String.compare (lower _) _); simpl; try done. by destruct (String.compare (name_at es i) _).
Qed.
Definition sorted_ids (es : list NameEntry) : list N := sort_by (index_order es) (ids_upto (length es)).
Definition family_ids (es : list NameEntry) (f : SemanticFamily) : list N :=
  List.filter (fun i => bool_decide (family_at es i = f)) (sorted_ids es).

#[export] Instance name_order_lawful names : LawfulCmp (name_order names).
Proof. unfold name_order. apply _. Qed.

Lemma elem_of_zip_ids {B} (l : list B) b i :
  (b, i) ∈ zip l (ids_upto (length l)) <-> get l i = Some b.
Proof.
  rewrite list_elem_of_lookup. split.
  - intros (k & (b' & i' & [= <- <-] & H1 & H2)%lookup_zip_with_Some).
    pose proof (lookup_lt_Some _ _ _ H1). rewrite ids_upto_lookup in H2 by done. injection H2 as <-.
    unfold get. by rewrite Nat2N.id.
  - intros H. exists (N.to_nat i). apply lookup_zip_with_Some. exists b, i. split; [done|]. split; [done|].
    rewrite ids_upto_lookup by by eapply lookup_lt_Some. f_equal. lia.
Qed.

Section segment.
Context (centries : list CompactNameEntry) (cnames : list NameString) (cpaths : list string)
  (cprojects : list ProjectKey) (es : list NameEntry).
Hypothesis Hden : Forall2 (denotes cnames cpaths cprojects) centries es.
Hypothesis Hlow : Forall (fun n => n = text_of n.(original)) cnames.
Hypothesis Hnd : NoDup (original <$> cnames).
Hypothesis Hsize : (N.of_nat (length es) <= u32_max)%N.
Hypothesis Hnames : (length cnames <= length es)%nat.

Lemma seg_length : length centries = length es.
Proof. by eapply Forall2_length. Qed.
Lemma seg_lookup i e : get es i = Some e -> exists c, get centries i = Some c /\ denotes cnames cpaths cprojects c e.
Proof. intros H. by eapply Forall2_lookup_r in Hden. Qed.
Lemma seg_lookup_l i c : get centries i = Some c -> exists e, get es i = Some e /\ denotes cnames cpaths cprojects c e.
Proof. intros H. by eapply Forall2_lookup_l in Hden. Qed.
Lemma seg_in_range i : (N.to_nat i < length es)%nat ->
  exists c e, get centries i = Some c /\ get es i = Some e /\ denotes cnames cpaths cprojects c e.
Proof.
  intros H. destruct (get_ok es i H) as [e He]. destruct (seg_lookup i e He) as (c & Hc & Hd). by exists c, e.
Qed.
Lemma den_family c e : denotes cnames cpaths cprojects c e -> entry_family c = e.(ne_family).
Proof. intros [_ _ _ _ _ _ H]. unfold entry_family. rewrite H. apply name_flags_roundtrip. Qed.
Lemma text_unique i j t : get cnames i = Some (text_of t) -> get cnames j = Some (text_of t) -> i = j.
Proof.
  intros Hi Hj. apply N2Nat.inj. eapply (proj1 (NoDup_alt _) Hnd _ _ t); unfold get in *; by rewrite list_lookup_fmap, ?Hi, ?Hj.
Qed.
Lemma seg_entry_ids : entry_ids centries = Some (ids_upto (length es)).
Proof. unfold entry_ids. rewrite seg_length. by apply ids_upto_ok. Qed.

Lemma split_family_loop l : forall acc,
  (forall i, i ∈ l -> (N.to_nat i < length es)%nat) ->
  foldM (fun acc index => e ← get centries index; Some (update_slot (entry_family e) (fun l => l ++ [index]) acc)) acc l =
  Some (acc.1 ++ List.filter (fun i => bool_decide (family_at es i = CFamily)) l,
        acc.2 ++ List.filter (fun i => bool_decide (family_at es i = FamilyGo)) l).
Proof.
  induction l as [|i l IH]; intros acc Hl; cbn [foldM].
  { simpl. rewrite !app_nil_r. by destruct acc. }
  destruct (seg_in_range i) as (c & e & Hc & He & Hd); [apply Hl; left|].
  rewrite Hc. cbn [mbind option_bind]. rewrite IH by (intros j Hj; apply Hl; by right).
  rewrite (den_family _ _ Hd). cbn [List.filter].
  assert (family_at es i = ne_family e) as -> by (unfold family_at; by rewrite He).
  destruct (ne_family e); cbn [update_slot fst snd]; rewrite <- ?(assoc_L (++)); done.
Qed.
Lemma split_family_ok l :
  (forall i, i ∈ l -> (N.to_nat i < length es)%nat) ->
  split_family centries l =
  Some (List.filter (fun i => bool_decide (family_at es i = CFamily)) l,
        List.filter (fun i => bool_decide (family_at es i = FamilyGo)) l).
Proof. intros H. unfold split_family. by rewrite split_family_loop. Qed.

(** The members of the buckets by name. *)
Definition name_items : list (N * N) := zip (name_id <$> centries) (ids_upto (length es)).
Lemma elem_of_name_items b i :
  (b, i) ∈ name_items <-> exists e, get es i = Some e /\ get cnames b = Some (text_of e.(ne_name)).
Proof.
  unfold name_items. rewrite <- seg_length, <- (length_fmap name_id centries), elem_of_zip_ids.
  unfold get at 1. rewrite list_lookup_fmap_Some. split.
  - intros (c & -> & Hc). destruct (seg_lookup_l i c Hc) as (e & He & Hd). exists e. split; [done|]. apply Hd.
  - intros (e & He & Hb). destruct (seg_lookup i e He) as (c & Hc & Hd). exists c. split; [|done].
    eapply text_unique; [done|]. apply Hd.
Qed.
Lemma name_items_fst : name_items.*1 = name_id <$> centries.
Proof. apply fst_zip. rewrite length_fmap, ids_upto_length, seg_length. done. Qed.
Lemma name_items_snd : name_items.*2 = ids_upto (length es).
Proof. apply snd_zip. rewrite length_fmap, ids_upto_length, seg_length. done. Qed.
Lemma name_items_length : length name_items = length es.
Proof. rewrite <- (length_fmap snd), name_items_snd. apply ids_upto_length. Qed.

Definition order_of_names : list N := sort_by (name_order cnames) (ids_upto (length cnames)).
Lemma elem_of_order b : b ∈ order_of_names <-> (N.to_nat b < length cnames)%nat.
Proof. unfold order_of_names. rewrite elem_of_sort_by. apply elem_of_ids. Qed.
Lemma order_nodup : NoDup order_of_names.
Proof. unfold order_of_names. rewrite sort_by_perm. apply ids_upto_nodup. Qed.

Lemma concat_sorted : concat (buckets order_of_names name_items) = sorted_ids es.
Proof.
  apply (sorted_perm_unique (index_order es)); [apply index_order_eq| |apply sort_by_sorted; apply _|].
  - apply StronglySorted_concat.
    + unfold buckets. apply Forall_fmap, Forall_forall. intros b _. simpl.
      assert (StronglySorted N.lt (bucket b name_items)) as Hs.
      { eapply sublist_StronglySorted; [apply bucket_sublist|]. rewrite name_items_snd. apply ids_upto_sorted. }
      assert (forall i, i ∈ bucket b name_items -> get cnames b = Some (text_of (name_at es i))) as Hb.
      { intros i (e & He & Hg)%elem_of_bucket%elem_of_name_items. unfold name_at. by rewrite He. }
      induction Hs as [|i l Hs IH Hi]; constructor; [apply IH; intros; apply Hb; by right|].
      apply Forall_forall. intros j Hj. rewrite Forall_forall in Hi. specialize (Hi j Hj).
      pose proof (Hb i ltac:(left)) as H1. pose proof (Hb j ltac:(by right)) as H2. rewrite H1 in H2.
      injection H2 as Hn _. unfold cmp_le, index_order, cmp_lex, cmp_on. rewrite Hn, !string_compare_refl. simpl.
      rewrite N.compare_ngt_iff. lia.
    + intros j k s t x y Hjk Hs Ht Hx Hy. unfold buckets in Hs, Ht.
      apply list_lookup_fmap_Some in Hs as (b & -> & Hb). apply list_lookup_fmap_Some in Ht as (c & -> & Hc).
      apply elem_of_bucket, elem_of_name_items in Hx as (e & He & Hbe).
      apply elem_of_bucket, elem_of_name_items in Hy as (e' & He' & Hce).
      assert (cmp_le (name_order cnames) b c) as Hle.
      { eapply StronglySorted_lookup; [apply sort_by_sorted; apply _|exact Hb|exact Hc|done]. }
      unfold cmp_le, name_order, index_order, cmp_lex, cmp_on, text_at, name_at in *.
      rewrite Hbe, Hce in Hle. rewrite He, He'. cbn [default from_option id text_lower original text_of] in *.
      destruct (String.compare (lower (ne_name e)) _); [|done|done]. cbn [cmp_then] in *.
      destruct (String.compare (ne_name e) (ne_name e')) eqn:E; [|done|done]. apply string_compare_eq in E.
      exfalso. assert (b = c) as -> by (eapply text_unique; [exact Hbe|by rewrite E]).
      assert (j = k) by (by eapply (proj1 (NoDup_alt _) order_nodup)). lia.
  - unfold sorted_ids. rewrite sort_by_perm, concat_buckets_perm; [by rewrite name_items_snd|apply order_nodup|].
    intros [b i] (e & He & Hb)%elem_of_name_items. apply elem_of_order. by eapply get_lt.
Qed.

Lemma name_ids_bounded b : b ∈ name_id <$> centries -> (N.to_nat b < length cnames)%nat.
Proof.
  intros (c & -> & Hc)%list_elem_of_fmap. apply list_elem_of_lookup in Hc as [i Hi].
  destruct (seg_lookup_l (N.of_nat i) c) as (e & _ & Hd); [unfold get; by rewrite Nat2N.id|].
  eapply get_lt, Hd.
Qed.
Lemma name_items_in it : it ∈ name_items -> it.1 ∈ order_of_names.
Proof.
  destruct it as [b i]. intros (e & _ & Hb)%elem_of_name_items. apply elem_of_order. by eapply get_lt.
Qed.
Lemma sorted_indices_ok :
  sorted_indices_by_family centries cnames = Some (family_ids es CFamily, family_ids es FamilyGo).
Proof.
  unfold sorted_indices_by_family. rewrite ids_upto_ok by lia. cbn [mbind option_bind]. fold order_of_names.
  destruct (count_all_ok (length cnames) (name_id <$> centries)) as (counts & -> & Hcl & Hcounts).
  { apply name_ids_bounded. }
  { rewrite length_fmap, seg_length. done. }
  cbn [mbind option_bind].
  destruct (lay_out_loop counts name_items order_of_names (replicate (length cnames) 0%N) 0%N)
    as (cursors & -> & Hl & _ & Hcur).
  { apply order_nodup. }
  { by rewrite length_replicate. }
  { intros b Hb%elem_of_order. by rewrite Hcounts, count_of_occurrences, name_items_fst. }
  { rewrite total_count, name_items_length; [lia|apply order_nodup|apply name_items_in]. }
  cbn [mbind option_bind]. rewrite seg_entry_ids. cbn [mbind option_bind]. fold name_items.
  rewrite length_replicate in Hl. rewrite (scatter_layout _ _ order_of_names).
  - cbn [mbind option_bind]. rewrite concat_sorted. apply split_family_ok.
    intros i Hi. unfold sorted_ids in Hi. rewrite elem_of_sort_by in Hi. by apply elem_of_ids.
  - apply order_nodup.
  - apply name_items_in.
  - intros b. rewrite Hl. apply elem_of_order.
  - intros j b Hj. rewrite (Hcur j b Hj). f_equal.
  - by rewrite length_replicate, name_items_length, seg_length.
Qed.

Lemma elem_of_family_ids f i : i ∈ family_ids es f <-> exists e, get es i = Some e /\ e.(ne_family) = f.
Proof.
  unfold family_ids, sorted_ids. rewrite elem_of_filter_bool, elem_of_sort_by, elem_of_ids, bool_decide_eq_true.
  unfold family_at. split.
  - intros [Hi <-]. destruct (get_ok es i Hi) as [e He]. exists e. by rewrite He.
  - intros (e & He & <-). rewrite He. split; [by eapply get_lt|done].
Qed.

(** ** Postings by path *)

Definition path_items (l : list N) : list (N * N) := omap (fun i => c ← get centries i; Some (c.(path_id), i)) l.
Lemma path_ids_of l : (forall i, i ∈ l -> (N.to_nat i < length es)%nat) ->
  exists ps, mapM (fun index => path_id <$> get centries index) l = Some ps /\ zip ps l = path_items l /\
    length ps = length l /\ ps = (path_items l).*1.
Proof.
  induction l as [|i l IH]; intros Hl; [by exists []|].
  destruct IH as (ps & Hm & Hz & Hlen & Hps); [intros; apply Hl; by right|].
  destruct (seg_in_range i) as (c & e & Hc & He & Hd); [apply Hl; left|].
  exists (c.(path_id) :: ps). cbn [mapM]. rewrite Hc. cbn [fmap option_fmap option_map mbind option_bind]. rewrite Hm.
  unfold path_items in *. cbn [mbind option_bind omap list_omap]. rewrite Hc. cbn [mbind option_bind].
  split_and!; [done|simpl; by f_equal|simpl; by f_equal|]. simpl. by f_equal.
Qed.
Lemma bucket_path_items p path l :
  get cpaths p = Some path -> NoDup cpaths -> (forall i, i ∈ l -> (N.to_nat i < length es)%nat) ->
  bucket p (path_items l) = List.filter (fun i => bool_decide (path_at es i = path)) l.
Proof.
  intros Hp Hn. induction l as [|i l IH]; intros Hl; [done|].
  destruct (seg_in_range i) as (c & e & Hc & He & Hd); [apply Hl; left|].
  unfold path_items in *. cbn [omap list_omap]. rewrite Hc. cbn [mbind option_bind]. rewrite bucket_cons. cbn [fst snd].
  rewrite IH by (intros; apply Hl; by right). cbn [List.filter].
  assert (path_at es i = ne_path e) as -> by (unfold path_at; by rewrite He).
  pose proof (den_path _ _ _ _ _ Hd) as Hcp.
  destruct (N.eqb_spec c.(path_id) p) as [Heq|Hne].
  - rewrite bool_decide_eq_true_2; [done|]. rewrite Heq, Hp in Hcp. congruence.
  - rewrite bool_decide_eq_false_2; [done|]. intros Heq. apply Hne, N2Nat.inj.
    eapply (proj1 (NoDup_alt _) Hn); [exact Hcp|]. rewrite Heq. exact Hp.
Qed.
Lemma path_postings_ok l :
  NoDup cpaths -> NoDup l -> (forall i, i ∈ l -> (N.to_nat i < length es)%nat) ->
  exists post, build_path_postings centries l (length cpaths) = Some post /\
    forall p path, get cpaths p = Some path ->
      path_posting post p = Some (List.filter (fun i => bool_decide (path_at es i = path)) l).
Proof.
  intros Hn Hln Hl. unfold build_path_postings. destruct (path_ids_of l Hl) as (ps & -> & Hz & Hlen & Hps).
  cbn [mbind option_bind].
  assert (forall b, b ∈ ps -> (N.to_nat b < length cpaths)%nat) as Hb.
  { intros b. rewrite Hps. unfold path_items. intros (it & -> & (i & Hi & Hit)%list_elem_of_omap)%list_elem_of_fmap.
    destruct (seg_in_range i (Hl i Hi)) as (c & e & Hc & He & Hd). rewrite Hc in Hit. injection Hit as <-.
    eapply get_lt, Hd. }
  assert (length l <= length es)%nat as Hle.
  { rewrite <- (ids_upto_length (length es)). apply submseteq_length, NoDup_submseteq; [done|].
    intros i Hi. by apply elem_of_ids, Hl. }
  destruct (count_all_ok (length cpaths) ps Hb) as (counts & -> & Hcl & Hcounts); [lia|].
  cbn [mbind option_bind].
  assert (forall j, (j <= length cpaths)%nat ->
    sum_list (N.to_nat <$> take j counts) = start_of (ids_upto (length cpaths)) (path_items l) j) as Hstart.
  { intros j Hj. unfold start_of. f_equal. apply list_eq. intros k. rewrite !list_lookup_fmap.
    destruct (decide (k < j)%nat).
    - rewrite !lookup_take_lt, ids_upto_lookup by lia. simpl.
      specialize (Hcounts (N.of_nat k)). unfold get in Hcounts. rewrite Nat2N.id in Hcounts. rewrite Hcounts by lia.
      simpl. by rewrite Nat2N.id, count_of_occurrences, <- Hps.
    - by rewrite !lookup_take_ge by lia. }
  assert (sum_list (N.to_nat <$> counts) = length l) as Htot.
  { rewrite <- (take_ge counts (length cpaths)) by lia. rewrite Hstart by done. unfold start_of.
    rewrite take_ge by (rewrite ids_upto_length; lia). rewrite total_count; [|apply ids_upto_nodup|].
    - by rewrite <- (length_fmap fst), <- Hps.
    - intros it Hit. apply elem_of_ids, Hb. rewrite Hps. by apply list_elem_of_fmap_2. }
  destruct (offsets_of_ok counts) as (offs & -> & Hol & Hoffs); [lia|]. cbn [mbind option_bind]. rewrite Hz.
  rewrite (scatter_layout _ _ (ids_upto (length cpaths))).
  - cbn [mbind option_bind]. eexists. split; [done|]. intros p path Hp. pose proof (get_lt _ _ _ Hp) as Hplt.
    unfold path_posting, get. cbn [offsets indices]. rewrite (Hoffs (N.to_nat p)) by lia.
    replace (N.to_nat (p + 1)) with (S (N.to_nat p)) by lia. cbn [mbind option_bind]. rewrite (Hoffs (S (N.to_nat p))) by lia.
    cbn [mbind option_bind]. rewrite !Hstart by lia. rewrite <- (bucket_path_items p path l) by done.
    apply slice_bucket. rewrite ids_upto_lookup by done. by rewrite N2Nat.id.
  - apply ids_upto_nodup.
  - intros it Hit. apply elem_of_ids, Hb. rewrite Hps. by apply list_elem_of_fmap_2.
  - intros b. rewrite elem_of_ids, length_take. lia.
  - intros j b Hj. pose proof (lookup_lt_Some _ _ _ Hj) as Hjl. rewrite ids_upto_length in Hjl.
    rewrite ids_upto_lookup in Hj by done. injection Hj as <-. unfold get. rewrite Nat2N.id, lookup_take_lt by done.
    rewrite Hoffs by lia. by rewrite Hstart by lia.
  - by rewrite length_replicate, <- Hlen, <- (length_fmap fst (path_items l)), <- Hps.
Qed.

(** ** Fuzzy postings *)

Definition tokens_of (id : N) : list N :=
  match get cnames id with
  | Some n => fuzzy_tokens_for_name (bytes_of n.(original)) (bytes_of n.(text_lower))
  | None => []
  end.
End segment.

(** The tokens seen so far, in order of first occurrence, form an arena. *)
Lemma fuzzy_count_loop l : forall slots counts ds seen,
  arena_ok slots ds -> length counts = length ds ->
  (forall t id, get ds id = Some t -> get counts id = Some (N.of_nat (occurrences t seen))) ->
  (forall t, t ∈ ds <-> t ∈ seen) ->
  (N.of_nat (length seen + length l) <= u32_max)%N -> (length ds <= length seen)%nat ->
  exists slots' counts' ds', foldM fuzzy_count (slots, counts) l = Some (slots', counts') /\
    arena_ok slots' ds' /\ length counts' = length ds' /\
    (forall t id, get ds' id = Some t -> get counts' id = Some (N.of_nat (occurrences t (seen ++ l)))) /\
    (forall t, t ∈ ds' <-> t ∈ seen ++ l).
Proof.
  assert (forall t (l : list N), occurrences t (l ++ [t]) = S (occurrences t l)) as Hsame.
  { intros t l'. unfold occurrences. rewrite List.filter_app, length_app. simpl. rewrite N.eqb_refl. simpl. lia. }
  assert (forall t u (l : list N), t <> u -> occurrences t (l ++ [u]) = occurrences t l) as Hother.
  { intros t u l' Hne. unfold occurrences. rewrite List.filter_app, length_app. simpl.
    rewrite (proj2 (N.eqb_neq t u)) by done. simpl. lia. }
  induction l as [|u l IH]; intros slots counts ds seen Ha Hl Hc Hin Hm Hs; cbn [foldM].
  { exists slots, counts, ds. by rewrite app_nil_r. }
  cbn [length] in Hm.
  assert (exists slots1 counts1 ds1, fuzzy_count (slots, counts) u = Some (slots1, counts1) /\ arena_ok slots1 ds1 /\
    length counts1 = length ds1 /\
    (forall t id, get ds1 id = Some t -> get counts1 id = Some (N.of_nat (occurrences t (seen ++ [u])))) /\
    (forall t, t ∈ ds1 <-> t ∈ seen ++ [u]) /\ (length ds1 <= S (length ds))%nat) as (slots1 & counts1 & ds1 & -> & H1 & H2 & H3 & H4 & H5).
  { unfold fuzzy_count, count_one. destruct (slots !! u) as [s|] eqn:E.
    - assert (get ds s = Some u) as Hg by by apply Ha. pose proof (get_lt _ _ _ Hg).
      rewrite (Hc _ _ Hg). cbn [mbind option_bind]. pose proof (occurrences_length u seen). rewrite u32_add_ok by lia.
      cbn [mbind option_bind]. rewrite put_ok by lia. eexists _, _, ds. split; [done|]. split_and!; try done.
      + by rewrite length_insert.
      + intros t id Ht. erewrite (get_put counts s) by (apply put_ok; lia). case_decide as Hd.
        * subst id. rewrite Hg in Ht. injection Ht as <-. rewrite Hsame. f_equal. lia.
        * rewrite Hother; [by apply Hc|]. intros ->. apply Hd, N2Nat.inj.
          by eapply (proj1 (NoDup_alt _) (arena_nodup _ _ Ha)).
      + intros t. rewrite Hin, elem_of_app, list_elem_of_singleton. split; [by left|]. intros [?| ->]; [done|].
        apply Hin. by eapply list_elem_of_lookup_2.
      + lia.
    - assert (u ∉ ds) as Hu by (rewrite (arena_elem _ _ _ Ha), E; by intros []).
      rewrite u32_try_ok by lia. cbn [mbind option_bind]. unfold get at 1. rewrite Nat2N.id, list_lookup_middle by done.
      cbn [mbind option_bind]. rewrite u32_add_ok by (vm_compute; done). cbn [mbind option_bind].
      rewrite put_ok by (rewrite length_app; simpl; lia). rewrite Hl. eexists _, _, (ds ++ [u]). split; [done|]. split_and!.
      + by apply arena_push.
      + rewrite length_insert, !length_app. simpl. lia.
      + intros t id Ht. rewrite <- Hl in *. erewrite (get_put (counts ++ [0%N])) by (apply put_ok; rewrite length_app; simpl; lia).
        unfold get in Ht. apply lookup_snoc_Some in Ht as [[Hlt Ht]|[Hid <-]].
        * rewrite decide_False by lia. rewrite Hother by (intros ->; apply Hu; by eapply list_elem_of_lookup_2).
          apply get_app_l. by apply Hc.
        * rewrite decide_True by lia. rewrite Hsame. assert (occurrences u seen = 0) as ->; [|done].
          unfold occurrences. destruct (List.filter (N.eqb u) seen) as [|x r] eqn:Ef; [done|]. exfalso.
          assert (x ∈ List.filter (N.eqb u) seen) as Hx by (rewrite Ef; left).
          apply elem_of_filter_bool in Hx as [Hx <-%N.eqb_eq]. by apply Hu, Hin.
      + intros t. by rewrite !elem_of_app, Hin.
      + rewrite length_app. simpl. lia. }
  cbn [mbind option_bind]. destruct (IH slots1 counts1 ds1 (seen ++ [u]) H1 H2 H3 H4) as (s' & c' & d' & He & G1 & G2 & G3 & G4).
  { rewrite length_app. simpl. lia. }
  { rewrite length_app. simpl. lia. }
  exists s', c', d'. rewrite <- (assoc_L (++)) in G3, G4. by split_and!.
Qed.
Lemma push_start_loop counts : forall starts total,
  (N.to_nat total + sum_list (N.to_nat <$> counts) <= N.to_nat u32_max)%nat ->
  exists more, foldM push_start (starts, total) counts =
      Some (starts ++ more, (total + N.of_nat (sum_list (N.to_nat <$> counts)))%N) /\
    length more = length counts /\
    forall i, (i < length counts)%nat -> more !! i = Some (total + N.of_nat (sum_list (N.to_nat <$> take i counts)))%N.
Proof.
  induction counts as [|c counts IH]; intros starts total Hm; cbn [foldM].
  { exists []. cbn. rewrite app_nil_r, N.add_0_r. split_and!; [done|done|]. intros i Hi. simpl in Hi. lia. }
  rewrite sum_fmap_cons in *. unfold push_start at 2. cbn [fst snd]. rewrite u32_add_ok by lia. cbn [mbind option_bind].
  destruct (IH (starts ++ [total]) (total + c)%N) as (more & -> & Hl & Hmore); [lia|].
  exists (total :: more). split_and!.
  - rewrite <- (assoc_L (++)). cbn [app]. do 2 f_equal. lia.
  - simpl. lia.
  - intros [|i] Hi; simpl in Hi; [cbn; f_equal; lia|]. cbn [lookup list_lookup]. rewrite Hmore by lia.
    change (take (S i) (c :: counts)) with (c :: take i counts). rewrite sum_fmap_cons. f_equal. lia.
Qed.

Lemma sort_dedup_tokens_nodup l : NoDup (sort_dedup l).
Proof.
  apply sort_dedup_nodup; [apply _|intros a b; apply N.eqb_eq|intros a b; apply N.compare_eq_iff].
Qed.
Lemma tokens_of_nodup names id : NoDup (tokens_of names id).
Proof. unfold tokens_of. destruct (get names id); [apply sort_dedup_tokens_nodup|constructor]. Qed.

Section fuzzy.
Context (cnames : list NameString) (ordered : list N).
Hypothesis Hordered : forall id, id ∈ ordered -> (N.to_nat id < length cnames)%nat.
Definition token_items : list (N * N) := concat ((fun id => (fun t => (t, id)) <$> tokens_of cnames id) <$> ordered).
Hypothesis Hrows : (N.of_nat (length token_items) <= u32_max)%N.

Lemma name_tokens_ok : mapM (name_tokens cnames) ordered = Some (tokens_of cnames <$> ordered).
Proof.
  apply mapM_Some. apply Forall2_fmap_r, Forall_Forall2_diag, Forall_forall. intros id Hid.
  destruct (get_ok cnames id (Hordered id Hid)) as [n Hn]. cbn. unfold name_tokens, tokens_of. by rewrite Hn.
Qed.
Lemma zip_items :
  concat (zip_with (fun ts id => (fun t => (t, id)) <$> ts) (tokens_of cnames <$> ordered) ordered) = token_items.
Proof.
  unfold token_items. clear. induction ordered as [|id l IH]; [done|]. rewrite !fmap_cons. cbn [zip_with concat].
  by rewrite IH.
Qed.
Lemma items_tokens : token_items.*1 = concat (tokens_of cnames <$> ordered).
Proof.
  unfold token_items. clear. induction ordered as [|id l IH]; [done|]. rewrite !fmap_cons. cbn [concat].
  rewrite fmap_app, IH. f_equal.
  rewrite <- list_fmap_compose. apply list_fmap_id.
Qed.
Lemma bucket_tokens t :
  bucket t token_items = List.filter (fun id => bool_decide (t ∈ tokens_of cnames id)) ordered.
Proof.
  unfold token_items. clear. induction ordered as [|id l IH]; [done|]. rewrite fmap_cons. cbn [concat].
  unfold bucket in *. rewrite List.filter_app, fmap_app, IH. cbn [List.filter].
  assert (forall ts : list N, NoDup ts ->
    snd <$> List.filter (fun it : N * N => (it.1 =? t)%N) ((fun u => (u, id)) <$> ts) =
    if decide (t ∈ ts) then [id] else []) as H.
  { induction 1 as [|u ts Hu Hts IHt]; [done|]. rewrite fmap_cons. cbn [List.filter fst].
    destruct (N.eqb_spec u t) as [->|Hne].
    - rewrite fmap_cons, IHt. destruct (decide (t ∈ ts)); [done|].
      destruct (decide (t ∈ t :: ts)) as [|Hn]; [done|]. by destruct Hn; left.
    - rewrite IHt. destruct (decide (t ∈ ts)), (decide (t ∈ u :: ts)); set_solver. }
  rewrite H by apply tokens_of_nodup. destruct (decide (t ∈ tokens_of cnames id)).
  - by rewrite bool_decide_eq_true_2.
  - by rewrite bool_decide_eq_false_2.
Qed.

Lemma slot_items slots ds (L : list (N * N)) :
  arena_ok slots ds -> (forall it, it ∈ L -> it.1 ∈ ds) ->
  exists items, mapM (fun '(t, id) => s ← slots !! t; Some (s, id)) L = Some items /\ length items = length L /\
    (forall it, it ∈ items -> (N.to_nat it.1 < length ds)%nat) /\
    forall t s, get ds s = Some t -> bucket s items = bucket t L.
Proof.
  intros Ha. induction L as [|[u id] L IH]; intros Hin.
  { exists []. split_and!; try done. intros it Hit. by apply not_elem_of_nil in Hit. }
  destruct IH as (items & Hm & Hl & Hlt & Hb); [intros; apply Hin; by right|].
  assert (u ∈ ds) as Hu by (apply (Hin (u, id)); left). apply (arena_elem _ _ _ Ha) in Hu as [s Hs].
  exists ((s, id) :: items). cbn [mapM]. rewrite Hs. cbn [mbind option_bind]. rewrite Hm. split_and!.
  - done.
  - simpl. by f_equal.
  - intros it [->|Hit]%elem_of_cons; [by eapply arena_lt|by apply Hlt].
  - intros t s' Ht. rewrite !bucket_cons. cbn [fst snd]. rewrite (Hb t s' Ht).
    destruct (N.eqb_spec s s') as [->|Hne].
    + assert (u = t) as -> by (apply Ha in Hs; congruence). by rewrite N.eqb_refl.
    + rewrite (proj2 (N.eqb_neq u t)); [done|]. intros ->. apply Hne, N2Nat.inj. apply Ha in Hs.
      by eapply (proj1 (NoDup_alt _) (arena_nodup _ _ Ha)).
Qed.

Lemma fuzzy_build_ok :
  exists f, fuzzy_build ordered cnames = Some f /\
    forall t, fuzzy_posting f t =
      Some (List.filter (fun id => bool_decide (t ∈ tokens_of cnames id)) ordered).
Proof.
  unfold fuzzy_build. rewrite name_tokens_ok. cbn [mbind option_bind]. rewrite zip_items, <- items_tokens.
  destruct (fuzzy_count_loop token_items.*1 ∅ [] [] []) as (slots & counts & ds & -> & Ha & Hcl & Hc & Hin).
  { apply arena_empty. } { done. } { done. } { done. } { rewrite length_fmap. simpl. lia. } { done. }
  cbn [mbind option_bind app] in *.
  destruct (slot_items slots ds token_items Ha) as (items & Hm & Hil & Hlt & Hb).
  { intros it Hit. apply Hin. by apply list_elem_of_fmap_2. }
  assert (forall j, (j <= length ds)%nat -> sum_list (N.to_nat <$> take j counts) = start_of (ids_upto (length ds)) items j) as Hstart.
  { intros j Hj. unfold start_of. f_equal. apply list_eq. intros k. rewrite !list_lookup_fmap.
    destruct (decide (k < j)%nat); [|by rewrite !lookup_take_ge by lia].
    rewrite !lookup_take_lt, ids_upto_lookup by lia. simpl.
    destruct (lookup_lt_is_Some_2 ds k) as [t Ht]; [lia|].
    assert (get ds (N.of_nat k) = Some t) as Hg by (unfold get; by rewrite Nat2N.id).
    specialize (Hc _ _ Hg). unfold get in Hc. rewrite Nat2N.id in Hc. rewrite Hc. simpl.
    rewrite Nat2N.id. unfold count_of at 1. rewrite (Hb _ _ Hg). by rewrite <- (count_of_occurrences t token_items). }
  assert (sum_list (N.to_nat <$> counts) = length items) as Htot.
  { rewrite <- (take_ge counts (length ds)) by lia. rewrite Hstart by done. unfold start_of.
    rewrite take_ge by (rewrite ids_upto_length; lia). apply total_count; [apply ids_upto_nodup|].
    intros it Hit. by apply elem_of_ids, Hlt. }
  destruct (push_start_loop counts [] 0%N) as (starts & -> & Hsl & Hs); [rewrite Htot; simpl; lia|].
  cbn [mbind option_bind app]. rewrite Hm. cbn [mbind option_bind].
  rewrite (scatter_layout _ _ (ids_upto (length ds))).
  - cbn [mbind option_bind]. eexists. split; [done|]. intros t. unfold fuzzy_posting. cbn [ranges name_ids_posted].
    rewrite lookup_fmap. destruct (slots !! t) as [s|] eqn:Et; cbn [fmap option_fmap option_map].
    + apply Ha in Et. pose proof (get_lt _ _ _ Et) as Hslt. cbn [r_start r_len].
      rewrite (Hc _ _ Et). unfold get at 1 2. rewrite Hs by lia. cbn [default from_option id].
      rewrite <- bucket_tokens, <- (Hb t s Et). rewrite !N.add_0_l.
      rewrite <- (slice_bucket (ids_upto (length ds)) items (N.to_nat s)) by (rewrite ids_upto_lookup by done; by rewrite N2Nat.id).
      rewrite <- !Hstart by lia. f_equal.
      assert (get counts s = Some (N.of_nat (occurrences t token_items.*1))) as Hcs by by apply Hc. unfold get in Hcs.
      rewrite (take_S_r _ _ _ Hcs), fmap_app. clear. generalize (N.to_nat <$> take (N.to_nat s) counts) (N.of_nat (occurrences t token_items.*1)). intros l.
      intros x. assert (sum_list (l ++ (N.to_nat <$> [x])) = (sum_list l + N.to_nat x)%nat) as ->; [|lia].
      change (N.to_nat <$> [x]) with [N.to_nat x]. induction l; simpl; lia.
    + f_equal. symmetry. apply List_filter_nil. intros id Hid. apply bool_decide_eq_false_2. intros Ht.
      assert (t ∈ ds) as Htd.
      { apply Hin. rewrite items_tokens. apply list_elem_of_In, in_concat. exists (tokens_of cnames id).
        split; apply list_elem_of_In; [by apply list_elem_of_fmap_2|done]. }
      apply (arena_elem _ _ _ Ha) in Htd as [s Hs']. congruence.
  - apply ids_upto_nodup.
  - intros it Hit. by apply elem_of_ids, Hlt.
  - intros b. rewrite elem_of_ids. lia.
  - intros j b Hj. pose proof (lookup_lt_Some _ _ _ Hj) as Hjl. rewrite ids_upto_length in Hjl.
    rewrite ids_upto_lookup in Hj by done. injection Hj as <-. unfold get. rewrite Nat2N.id, Hs, Hstart by lia. done.
  - rewrite length_replicate, Htot. lia.
Qed.
End fuzzy.
