(* ===== verification/NamePostings.v ===== *)
(** * The finished segment (query.rs)

    Every posting list of a segment built from a list of names holds exactly what a scan
    of that list would select, in the order the code documents; building fails only when
    the identifier space of [u32] could be exhausted. *)

From S2P Require Import Prelude Arrays NameMatch CallModel NameSegments.

(** The arenas and compact entries of a list of names. *)
Record parts_ok (centries : list CompactNameEntry) (cnames : list NameString) (cpaths : list string)
    (cprojects : list ProjectKey) (es : list NameEntry) : Prop := {
  po_entries : Forall2 (denotes cnames cpaths cprojects) centries es;
  po_texts : Forall (fun n => n = text_of n.(original)) cnames;
  po_names : NoDup (original <$> cnames);
  po_paths : NoDup cpaths;
  po_projects : NoDup cprojects;
  po_size : (N.of_nat (length es) <= u32_max)%N;
  po_names_size : (length cnames <= length es)%nat;
}.
Lemma builder_parts b es :
  builder_ok b es -> (N.of_nat (length es) <= u32_max)%N ->
  parts_ok b.(b_entries) b.(b_names) b.(b_paths) b.(b_projects) es.
Proof.
  intros [Hn Hl Hp Hj (Hs & _) He _] Hm. split; try done; by eapply arena_nodup.
Qed.

Section postings.
Context (centries : list CompactNameEntry) (cnames : list NameString) (cpaths : list string)
  (cprojects : list ProjectKey) (es : list NameEntry).
Hypothesis Hok : parts_ok centries cnames cpaths cprojects es.
Let Hden := po_entries _ _ _ _ _ Hok.

Lemma at_name i e : get es i = Some e -> name_at es i = e.(ne_name).
Proof. intros H. unfold name_at. by rewrite H. Qed.
Lemma in_range i : (N.to_nat i < length es)%nat ->
  exists c e, get centries i = Some c /\ get es i = Some e /\ denotes cnames cpaths cprojects c e.
Proof. by apply seg_in_range. Qed.

(** ** First bytes *)

Definition first_byte (s : string) : option N := head (bytes_of s).
Lemma post_head_loop l : forall heads,
  (forall i, i ∈ l -> (N.to_nat i < length es)%nat) ->
  exists heads', foldM (post_head centries cnames) heads l = Some heads' /\
    forall h, default [] (heads' !! h) = default [] (heads !! h) ++
      List.filter (fun i => bool_decide (first_byte (lower (name_at es i)) = Some h)) l.
Proof.
  induction l as [|i l IH]; intros heads Hl; cbn [foldM].
  { exists heads. split; [done|]. intros h. by rewrite app_nil_r. }
  destruct (in_range i) as (c & e & Hc & He & Hd); [apply Hl; left|].
  unfold post_head at 2. rewrite Hc. cbn [mbind option_bind]. rewrite (den_name _ _ _ _ _ Hd).
  cbn [mbind option_bind text_lower text_of].
  set (heads1 := match bytes_of (lower (ne_name e)) with [] => heads | head :: _ => push_map heads head i end).
  destruct (IH heads1) as (heads' & -> & Hh); [intros; apply Hl; by right|].
  exists heads'. split; [done|]. intros h. rewrite Hh. cbn [List.filter]. rewrite (at_name _ _ He).
  unfold first_byte, heads1. destruct (bytes_of (lower (ne_name e))) as [|b bs] eqn:Eb; cbn [head].
  - by rewrite bool_decide_eq_false_2.
  - unfold push_map. destruct (decide (b = h)) as [->|Hne].
    + rewrite lookup_insert_eq, bool_decide_eq_true_2 by done. cbn [default from_option id].
      by rewrite <- (assoc_L (++)).
    + rewrite lookup_insert_ne, bool_decide_eq_false_2 by congruence. done.
Qed.

(** ** Families of names *)

Lemma family_bit_testbit f bits :
  family_bit f bits = N.testbit bits (match f with CFamily => 0 | FamilyGo => 1 end)%N.
Proof.
  unfold family_bit. set (k := match f with CFamily => 0 | FamilyGo => 1 end%N). clearbody k.
  rewrite N.shiftl_1_l. destruct (N.testbit bits k) eqn:E.
  - destruct (N.eqb_spec (N.land bits (2 ^ k)) 0) as [H|]; [|done].
    pose proof (f_equal (fun x => N.testbit x k) H) as Hk. simpl in Hk.
    rewrite N.land_spec, E, N.pow2_bits_true in Hk. done.
  - rewrite (proj2 (N.eqb_eq _ _)); [done|]. apply N.bits_inj. intros j. rewrite N.land_spec, N.bits_0.
    destruct (decide (j = k)) as [->|Hne]; [by rewrite E|]. rewrite N.pow2_bits_false by done. apply andb_false_r.
Qed.
Lemma family_bit_lor f g bits :
  family_bit f (N.lor bits (N.shiftl 1 (match g with CFamily => 0 | FamilyGo => 1 end)))%N =
  family_bit f bits || bool_decide (f = g).
Proof. rewrite !family_bit_testbit, N.lor_spec. f_equal. by destruct f, g. Qed.

Lemma note_family_loop cs : forall fams,
  (forall c, c ∈ cs -> (N.to_nat c.(name_id) < length fams)%nat) ->
  exists fams', foldM note_family fams cs = Some fams' /\ length fams' = length fams /\
    forall id bits, get fams id = Some bits -> exists bits', get fams' id = Some bits' /\
      forall f, family_bit f bits' = true <->
        family_bit f bits = true \/ exists c, c ∈ cs /\ c.(name_id) = id /\ entry_family c = f.
Proof.
  induction cs as [|c cs IH]; intros fams Hc; cbn [foldM].
  { exists fams. split_and!; [done..|]. intros id bits Hb. exists bits. split; [done|]. intros f. split; [by left|].
    intros [?|(c & Hc' & _)]; [done|]. by apply not_elem_of_nil in Hc'. }
  destruct (get_ok fams c.(name_id)) as [b0 Hb0]; [apply Hc; left|]. pose proof (get_lt _ _ _ Hb0) as Hlt.
  unfold note_family at 2. rewrite Hb0. cbn [mbind option_bind]. rewrite put_ok by done. cbn [mbind option_bind].
  match goal with |- context [foldM note_family ?l cs] => destruct (IH l) as (fams' & -> & Hl & Hb) end.
  { intros d Hd. rewrite length_insert. apply Hc. by right. }
  rewrite length_insert in Hl. exists fams'. split_and!; [done..|]. intros id bits Hbits.
  specialize (Hb id). rewrite (get_put fams c.(name_id) _ _ id (put_ok _ _ _ Hlt)) in Hb. case_decide as Hd.
  - subst id. destruct (Hb _ eq_refl) as (bits' & Hg & Hf). exists bits'. split; [done|]. intros f.
    rewrite Hf, family_bit_lor, orb_true_iff, bool_decide_eq_true. rewrite Hb0 in Hbits. injection Hbits as ->. split.
    + intros [[H| ->]|(d & Hd & H1 & H2)]; [by left|right; exists c; split_and!; [left|done|done]|right; exists d].
      split_and!; [by right|done|done].
    + intros [H|(d & [->|Hd]%elem_of_cons & H1 & H2)]; [by left; left|by left; right|right; by exists d].
  - destruct (Hb _ Hbits) as (bits' & Hg & Hf). exists bits'. split; [done|]. intros f. rewrite Hf. split.
    + intros [H|(d & Hd' & H1 & H2)]; [by left|right; exists d]. split_and!; [by right|done|done].
    + intros [H|(d & [->|Hd']%elem_of_cons & H1 & H2)]; [by left|done|right; by exists d].
Qed.

Definition names_family (f : SemanticFamily) (id : N) : bool :=
  existsb (fun e => bool_decide (e.(ne_family) = f) && bool_decide (get cnames id = Some (text_of e.(ne_name)))) es.
Definition family_names (f : SemanticFamily) : list N :=
  sort_by (fuzzy_name_order cnames) (List.filter (names_family f) (ids_upto (length cnames))).
Definition static_ids (f : SemanticFamily) : list N :=
  sort_by (static_segment_entry_order centries cnames cpaths)
    (List.filter (fun i => bool_decide (family_at es i = f)) (ids_upto (length es))).

Lemma entry_names_bounded c : c ∈ centries -> (N.to_nat c.(name_id) < length cnames)%nat.
Proof.
  intros [i Hi]%list_elem_of_lookup. destruct (seg_lookup_l _ _ _ _ _ Hden (N.of_nat i) c) as (e & _ & Hd).
  { unfold get. by rewrite Nat2N.id. } eapply get_lt, Hd.
Qed.
Lemma ordered_names_ok :
  exists fams, foldM note_family (replicate (length cnames) 0%N) centries = Some fams /\
    forall f, ordered_names fams cnames f = Some (family_names f).
Proof.
  destruct (note_family_loop centries (replicate (length cnames) 0%N)) as (fams & He & Hl & Hb).
  { intros c Hc. rewrite length_replicate. by apply entry_names_bounded. }
  exists fams. split; [done|]. intros f. unfold ordered_names. rewrite ids_upto_ok by (pose proof (po_size _ _ _ _ _ Hok); pose proof (po_names_size _ _ _ _ _ Hok); lia).
  cbn [mbind option_bind]. unfold family_names. do 2 f_equal. apply List.filter_ext_in.
  intros id Hid. apply list_elem_of_In, elem_of_ids in Hid. destruct (Hb id 0%N) as (bits & Hg & Hf).
  { unfold get. apply lookup_replicate. done. }
  rewrite Hg. cbn [default from_option Datatypes.id]. apply eq_true_iff_eq. rewrite Hf. unfold names_family.
  rewrite existsb_exists. setoid_rewrite andb_true_iff. setoid_rewrite bool_decide_eq_true. split.
  - intros [H|(c & Hc & <- & <-)]; [by destruct f|]. apply list_elem_of_lookup in Hc as [i Hi].
    destruct (seg_lookup_l _ _ _ _ _ Hden (N.of_nat i) c) as (e & He' & Hd); [unfold get; by rewrite Nat2N.id|].
    exists e. split; [apply list_elem_of_In; by eapply list_elem_of_lookup_2|]. split; [symmetry; by eapply den_family|apply Hd].
  - intros (e & He' & <- & Hn). right. apply list_elem_of_In, list_elem_of_lookup in He' as [i Hi].
    destruct (seg_lookup _ _ _ _ _ Hden (N.of_nat i) e) as (c & Hc & Hd); [unfold get; by rewrite Nat2N.id|].
    exists c. split_and!; [by eapply list_elem_of_lookup_2| |by eapply den_family].
    eapply (text_unique cnames); [apply Hok|apply Hd|done].
Qed.
Lemma family_names_bounded f id : id ∈ family_names f -> (N.to_nat id < length cnames)%nat.
Proof. unfold family_names. rewrite elem_of_sort_by, elem_of_filter_bool. intros [H _]. by apply elem_of_ids. Qed.
Lemma family_rows_bounded f : (length (token_items cnames (family_names f)) <= 120 * length es)%nat.
Proof.
  assert (length (family_names f) <= length es)%nat as Hl.
  { etrans; [|apply (po_names_size _ _ _ _ _ Hok)]. unfold family_names. rewrite sort_by_length.
    etrans; [apply sublist_length, list_filter_bool_sublist|]. by rewrite ids_upto_length. }
  etrans; [|apply Nat.mul_le_mono_l; exact Hl]. clear. unfold token_items.
  induction (family_names f) as [|id l IH]; [simpl; lia|]. rewrite fmap_cons. cbn [concat]. rewrite length_app, length_fmap.
  assert (length (tokens_of cnames id) <= 120)%nat.
  { unfold tokens_of. destruct (get cnames id); [apply fuzzy_tokens_bound|simpl; lia]. }
  simpl length. lia.
Qed.

(** The fuzzy postings, and the heads by static quality. *)
Definition fuzzy_exact (f : SemanticFamily) (post : CompactFuzzyPostings) : Prop := forall t,
  fuzzy_posting post t = Some (List.filter (fun id => bool_decide (t ∈ tokens_of cnames id)) (family_names f)).
Definition heads_exact (f : SemanticFamily) (heads : gmap N (list N)) : Prop := forall h,
  default [] (heads !! h) =
  List.filter (fun i => bool_decide (first_byte (lower (name_at es i)) = Some h)) (static_ids f).
Lemma candidate_postings_ok :
  (120 * N.of_nat (length es) <= u32_max)%N ->
  exists heads fuzzy, candidate_postings_by_family centries cnames cpaths = Some (heads, fuzzy) /\
    forall f, heads_exact f (slot f heads) /\ fuzzy_exact f (slot f fuzzy).
Proof.
  intros Hrows. unfold candidate_postings_by_family.
  rewrite (seg_entry_ids _ _ _ _ _ Hden (po_size _ _ _ _ _ Hok)). cbn [mbind option_bind].
  rewrite (split_family_ok _ _ _ _ _ Hden) by (intros i Hi; by apply elem_of_ids). cbn [mbind option_bind].
  fold (static_ids CFamily) (static_ids FamilyGo).
  assert (forall f i, i ∈ static_ids f -> (N.to_nat i < length es)%nat) as Hst.
  { intros f i. unfold static_ids. rewrite elem_of_sort_by, elem_of_filter_bool. intros [H _]. by apply elem_of_ids. }
  destruct (post_head_loop (static_ids CFamily) ∅ (Hst CFamily)) as (hc & -> & Hc).
  destruct (post_head_loop (static_ids FamilyGo) ∅ (Hst FamilyGo)) as (hg & -> & Hg).
  cbn [mbind option_bind]. destruct ordered_names_ok as (fams & -> & Hn). cbn [mbind option_bind].
  rewrite (Hn CFamily), (Hn FamilyGo). cbn [mbind option_bind].
  pose proof (family_rows_bounded CFamily). pose proof (family_rows_bounded FamilyGo).
  destruct (fuzzy_build_ok cnames (family_names CFamily) (family_names_bounded CFamily)) as (fc & -> & Hfc); [lia|].
  destruct (fuzzy_build_ok cnames (family_names FamilyGo) (family_names_bounded FamilyGo)) as (fg & -> & Hfg); [lia|].
  cbn [mbind option_bind]. exists (hc, hg), (fc, fg). split; [done|]. intros [|]; split; intros x; cbn [slot fst snd]; auto.
Qed.

(** ** Postings by project *)

Definition project_at (i : N) : option ProjectKey := get es i ≫= ne_project.
Definition posted (f : SemanticFamily) (m : gmap ProjectKey (N * (list N * list N))) (key : ProjectKey) : list N :=
  from_option (fun p => slot f p.2) [] (m !! key).
Definition ids_right (m : gmap ProjectKey (N * (list N * list N))) : Prop :=
  forall key id l, m !! key = Some (id, l) -> get cprojects id = Some key.
Lemma post_project_loop f l : forall m,
  (forall i, i ∈ l -> (N.to_nat i < length es)%nat) -> ids_right m ->
  exists m', foldM (post_project centries cprojects f) m l = Some m' /\ ids_right m' /\
    (forall key, posted f m' key = posted f m key ++ List.filter (fun i => bool_decide (project_at i = Some key)) l) /\
    (forall g key, g <> f -> posted g m' key = posted g m key).
Proof.
  induction l as [|i l IH]; intros m Hl Hr; cbn [foldM].
  { exists m. split_and!; [done..| |done]. intros key. by rewrite app_nil_r. }
  destruct (in_range i) as (c & e & Hc & He & Hd); [apply Hl; left|].
  unfold post_project at 2. rewrite Hc. cbn [mbind option_bind]. pose proof (den_project _ _ _ _ _ Hd) as Hp.
  assert (project_at i = ne_project e) as Hat by (unfold project_at; by rewrite He).
  destruct (ne_project e) as [k|] eqn:Ek.
  - destruct Hp as [Hk Hne]. rewrite (proj2 (N.eqb_neq _ _) Hne), Hk. cbn [mbind option_bind].
    destruct (default (c.(project_id), ([], [])) (m !! k)) as [id posts] eqn:Edef. cbn [mbind option_bind].
    set (m1 := <[k := (id, update_slot f (fun l => l ++ [i]) posts)]> m).
    assert (get cprojects id = Some k) as Hid.
    { destruct (m !! k) as [[id' l']|] eqn:Em; cbn in Edef; injection Edef as <- <-; [by eapply Hr|done]. }
    destruct (IH m1) as (m' & -> & Hr' & Hf & Hg); [intros; apply Hl; by right| |].
    { intros key id' l' H. unfold m1 in H. apply lookup_insert_Some in H as [[<- [= <- _]]|[_ H]]; [done|by eapply Hr]. }
    exists m'. split_and!; [done|done| |].
    + intros key. rewrite Hf. cbn [List.filter]. rewrite Hat. unfold posted, m1.
      destruct (decide (k = key)) as [->|Hkk].
      * rewrite lookup_insert_eq, bool_decide_eq_true_2 by done. cbn [from_option snd].
        assert (slot f (update_slot f (fun l => l ++ [i]) posts) = slot f posts ++ [i]) as -> by by destruct f.
        rewrite <- (assoc_L (++)). f_equal.
        destruct (m !! key) as [[? ?]|]; cbn in Edef; injection Edef as <- <-; [done|by destruct f].
      * rewrite lookup_insert_ne, bool_decide_eq_false_2 by congruence. done.
    + intros g key Hgf. rewrite Hg by done. unfold posted, m1. destruct (decide (k = key)) as [->|Hkk].
      * rewrite lookup_insert_eq. cbn [from_option snd].
        assert (slot g (update_slot f (fun l => l ++ [i]) posts) = slot g posts) as -> by by destruct f, g.
        destruct (m !! key) as [[? ?]|]; cbn in Edef; injection Edef as <- <-; [done|by destruct g].
      * by rewrite lookup_insert_ne by congruence.
  - rewrite Hp, N.eqb_refl. cbn [mbind option_bind].
    destruct (IH m) as (m' & -> & Hr' & Hf & Hg); [intros; apply Hl; by right|done|].
    exists m'. split_and!; [done|done| |done]. intros key. rewrite Hf. cbn [List.filter]. rewrite Hat.
    by rewrite bool_decide_eq_false_2.
Qed.

(** ** The only path of a name *)

Definition sole_step (v p : N) : N :=
  if N.eqb v UNSEEN_PATH_ID then p else if N.eqb v p then v else MULTI_PATH_ID.
Definition paths_of_name (id : N) (cs : list CompactNameEntry) : list N :=
  path_id <$> List.filter (fun c => N.eqb c.(name_id) id) cs.
Lemma note_sole_loop cs : forall sole,
  (forall c, c ∈ cs -> (N.to_nat c.(name_id) < length sole)%nat) ->
  exists sole', foldM note_sole_path sole cs = Some sole' /\ length sole' = length sole /\
    forall id v, get sole id = Some v -> get sole' id = Some (foldl sole_step v (paths_of_name id cs)).
Proof.
  induction cs as [|c cs IH]; intros sole Hc; cbn [foldM]; [by exists sole|].
  destruct (get_ok sole c.(name_id)) as [v0 Hv0]; [apply Hc; left|]. pose proof (get_lt _ _ _ Hv0) as Hlt.
  unfold note_sole_path at 2. rewrite Hv0. cbn [mbind option_bind]. rewrite put_ok by done. cbn [mbind option_bind].
  match goal with |- context [foldM note_sole_path ?l cs] => destruct (IH l) as (sole' & -> & Hl & Hb) end.
  { intros d Hd. rewrite length_insert. apply Hc. by right. }
  rewrite length_insert in Hl. exists sole'. split_and!; [done..|]. intros id v Hv. specialize (Hb id).
  rewrite (get_put sole c.(name_id) _ _ id (put_ok _ _ _ Hlt)) in Hb. unfold paths_of_name in *. cbn [List.filter].
  case_decide as Hd.
  - subst id. rewrite N.eqb_refl, fmap_cons. rewrite Hv0 in Hv. injection Hv as ->. by apply Hb.
  - rewrite (proj2 (N.eqb_neq _ _)) by done. by apply Hb.
Qed.
Lemma sole_step_multi ps : (forall p, p ∈ ps -> (p < UNSEEN_PATH_ID)%N) -> foldl sole_step MULTI_PATH_ID ps = MULTI_PATH_ID.
Proof.
  induction ps as [|p ps IH]; intros H; [done|]. cbn [foldl]. unfold sole_step at 2.
  destruct (N.eqb_spec MULTI_PATH_ID UNSEEN_PATH_ID) as [E|_]; [done|].
  destruct (N.eqb_spec MULTI_PATH_ID p) as [<-|_]; apply IH; intros; apply H; by right.
Qed.
Lemma sole_step_same ps : forall v q, (forall p, p ∈ ps -> (p < UNSEEN_PATH_ID)%N) -> (v < UNSEEN_PATH_ID)%N ->
  foldl sole_step v ps = q -> (q < UNSEEN_PATH_ID)%N -> v = q /\ forall p, p ∈ ps -> p = q.
Proof.
  induction ps as [|p ps IH]; intros v q Hps Hv Hq Hqlt.
  { split; [done|]. by intros p ?%not_elem_of_nil. }
  cbn [foldl] in Hq. unfold sole_step at 2 in Hq. rewrite (proj2 (N.eqb_neq v UNSEEN_PATH_ID)) in Hq by lia.
  destruct (N.eqb_spec v p) as [<-|Hne].
  - destruct (IH v q) as [-> Hall]; [intros; apply Hps; by right|done..|]. split; [done|].
    intros p [->|Hp]%elem_of_cons; [done|by apply Hall].
  - rewrite sole_step_multi in Hq by (intros; apply Hps; by right). subst q. unfold MULTI_PATH_ID, UNSEEN_PATH_ID in Hqlt. lia.
Qed.
(** A recorded path is the path of every entry of that name. *)
Definition sole_exact (sole : list N) : Prop := forall id v e,
  get sole id = Some v -> (v < UNSEEN_PATH_ID)%N -> e ∈ es -> get cnames id = Some (text_of e.(ne_name)) ->
  get cpaths v = Some e.(ne_path).
Lemma sole_path_ok :
  (N.of_nat (length cpaths) < UNSEEN_PATH_ID)%N ->
  exists sole, foldM note_sole_path (replicate (length cnames) UNSEEN_PATH_ID) centries = Some sole /\ sole_exact sole.
Proof.
  intros Hsize. destruct (note_sole_loop centries (replicate (length cnames) UNSEEN_PATH_ID)) as (sole & -> & Hl & Hs).
  { intros c Hc. rewrite length_replicate. by apply entry_names_bounded. }
  exists sole. split; [done|]. intros id v e Hv Hlt He Hn.
  assert (forall c, c ∈ centries -> (c.(path_id) < UNSEEN_PATH_ID)%N) as Hpl.
  { intros c [i Hi]%list_elem_of_lookup. destruct (seg_lookup_l _ _ _ _ _ Hden (N.of_nat i) c) as (e' & _ & Hd).
    { unfold get. by rewrite Nat2N.id. } pose proof (get_lt _ _ _ (den_path _ _ _ _ _ Hd)). lia. }
  rewrite (Hs id UNSEEN_PATH_ID) in Hv by (unfold get; apply lookup_replicate; split; [done|by eapply get_lt]).
  injection Hv as Hv. apply list_elem_of_lookup in He as [i Hi].
  destruct (seg_lookup _ _ _ _ _ Hden (N.of_nat i) e) as (c & Hc & Hd); [unfold get; by rewrite Nat2N.id|].
  assert (c.(path_id) ∈ paths_of_name id centries) as Hin.
  { unfold paths_of_name. apply list_elem_of_fmap_2, elem_of_filter_bool. split; [by eapply list_elem_of_lookup_2|].
    apply N.eqb_eq. eapply (text_unique cnames); [apply Hok|apply Hd|done]. }
  assert (forall p, p ∈ paths_of_name id centries -> (p < UNSEEN_PATH_ID)%N) as Hall.
  { unfold paths_of_name. intros p (d & -> & [Hd' _]%elem_of_filter_bool)%list_elem_of_fmap. by apply Hpl. }
  destruct (paths_of_name id centries) as [|p ps]; [by apply not_elem_of_nil in Hin|]. cbn [foldl] in Hv.
  unfold sole_step at 2 in Hv. rewrite N.eqb_refl in Hv.
  destruct (sole_step_same ps p v) as [-> Hps]; [intros; apply Hall; by right|apply Hall; left|done|done|].
  assert (c.(path_id) = v) as <-; [|apply Hd]. apply elem_of_cons in Hin as [->|Hin]; [done|by apply Hps].
Qed.

(** ** Postings by prefix and path *)

Definition pair_lt (x y : CompactPrefixPathPair) : Prop :=
  (x.(token) < y.(token))%N \/ x.(token) = y.(token) /\ (x.(pair_path) < y.(pair_path))%N.
#[local] Instance raw_pair_order_lawful : LawfulCmp raw_pair_order.
Proof. unfold raw_pair_order. apply _. Qed.
Lemma raw_pair_order_eq x y : raw_pair_order x y = Eq -> x = y.
Proof.
  destruct x as [[t p] j], y as [[t' p'] j']. unfold raw_pair_order, cmp_lex, cmp_on. cbn.
  destruct (N.compare_spec t t'), (N.compare_spec p p'), (N.compare_spec j j'); cbn; try done. by subst.
Qed.
Lemma raw_pair_le x y : cmp_le raw_pair_order x y -> x.1 = y.1 \/ pair_lt x.1 y.1.
Proof.
  destruct x as [[t p] j], y as [[t' p'] j']. unfold cmp_le, raw_pair_order, cmp_lex, cmp_on, pair_lt. cbn.
  destruct (N.compare_spec t t'), (N.compare_spec p p'); cbn; intros Hle; try done; subst; auto.
Qed.
Lemma pair_lt_trans x y z : pair_lt x y -> pair_lt y z -> pair_lt x z.
Proof. unfold pair_lt. lia. Qed.
Lemma pair_lt_irrefl x : ~ pair_lt x x.
Proof. unfold pair_lt. lia. Qed.

(** What the pass over the sorted raw pairs has built. *)
Record pairs_inv (seen : list (CompactPrefixPathPair * N)) (prs : list CompactPrefixPathPair)
    (pos : gmap N (list N)) : Prop := {
  pi_elem x : x ∈ prs <-> x ∈ seen.*1;
  pi_sorted : StronglySorted pair_lt prs;
  pi_last : last prs = last seen.*1;
  pi_pos j p : p ∈ default [] (pos !! j) <-> exists x, get prs p = Some x /\ (x, j) ∈ seen /\ j <> NO_PROJECT_ID;
  pi_ascending j : StronglySorted N.lt (default [] (pos !! j));
  pi_size : (length prs <= length seen)%nat;
}.
Lemma elem_of_last {A} (l : list A) x : last l = Some x -> x ∈ l.
Proof. intros H. apply last_Some in H as [l' ->]. set_solver. Qed.
Lemma below_last l (x : N) : StronglySorted N.lt l -> last l = Some x -> forall y, y ∈ l -> (y <= x)%N.
Proof.
  intros Hs Hl y Hy. apply last_Some in Hl as [l' ->]. apply elem_of_app in Hy as [Hy|Hy]; [|set_solver by lia].
  apply list_elem_of_lookup in Hy as [i Hi]. pose proof (lookup_lt_Some _ _ _ Hi).
  assert (y < x)%N; [|lia]. apply (StronglySorted_lookup N.lt (l' ++ [x]) i (length l')); [done|by apply lookup_app_l_Some| |done].
  by apply list_lookup_middle.
Qed.

Lemma push_position seen prs pos x j prs' position :
  pairs_inv seen prs pos -> get prs' position = Some x -> length prs' = S (N.to_nat position) ->
  (forall p y, get prs p = Some y -> get prs' p = Some y) ->
  (forall p y, get prs' p = Some y -> (N.to_nat p < length prs)%nat -> get prs p = Some y) -> NoDup prs' ->
  (length prs <= length prs')%nat ->
  let held := default [] (pos !! j) in
  let pos' := if N.eqb j NO_PROJECT_ID then pos
    else <[j := if bool_decide (last held = Some position) then held else held ++ [position]]> pos in
  (forall j' p, p ∈ default [] (pos' !! j') <->
    exists y, get prs' p = Some y /\ (y, j') ∈ seen ++ [(x, j)] /\ j' <> NO_PROJECT_ID) /\
  (forall j', StronglySorted N.lt (default [] (pos' !! j'))).
Proof.
  intros Hi Hx Hlen Hmono Hback Hnd Hle held pos'. destruct Hi as [He _ _ Hp Ha _].
  assert (forall j' p, (exists y, get prs' p = Some y /\ (y, j') ∈ seen ++ [(x, j)] /\ j' <> NO_PROJECT_ID) <->
    p ∈ default [] (pos !! j') \/ (p = position /\ j' = j /\ j <> NO_PROJECT_ID)) as Hspec.
  { intros j' p. rewrite Hp. split.
    - intros (y & Hy & [Hin|Hin]%elem_of_app & Hj).
      + left. exists y. split_and!; [|done|done]. assert (y ∈ prs) as [k Hk]%list_elem_of_lookup by (apply He; by apply (list_elem_of_fmap_2 fst) in Hin).
        assert (get prs (N.of_nat k) = Some y) as Hg by (unfold get; by rewrite Nat2N.id). pose proof (Hmono _ _ Hg) as Hg'.
        assert (p = N.of_nat k) as -> by (apply N2Nat.inj; by eapply (proj1 (NoDup_alt _) Hnd)). done.
      + apply list_elem_of_singleton in Hin. injection Hin as -> ->. right. split_and!; [|done|done].
        apply N2Nat.inj. by eapply (proj1 (NoDup_alt _) Hnd).
    - intros [(y & Hy & Hin & Hj)|(-> & -> & Hj)].
      + exists y. split_and!; [by apply Hmono|by apply elem_of_app; left|done].
      + exists x. split_and!; [done|apply elem_of_app; right; by left|done]. }
  assert (forall p, p ∈ held -> (p <= position)%N) as Hbelow.
  { intros p (y & Hy & _)%Hp. apply get_lt in Hy. lia. }
  unfold pos'. destruct (N.eqb_spec j NO_PROJECT_ID) as [->|Hne].
  { split; [|done]. intros j' p. rewrite Hspec. split; [by left|]. intros [?|(_ & _ & ?)]; done. }
  split; intros j'; destruct (decide (j = j')) as [<-|Hjj].
  - intros p. rewrite Hspec, lookup_insert_eq. cbn [default from_option id]. case_bool_decide as Hl.
    + split; [by left|]. intros [H|(-> & _)]; [done|by apply elem_of_last].
    + rewrite elem_of_app, list_elem_of_singleton. intuition.
  - intros p. rewrite Hspec, lookup_insert_ne by done. intuition congruence.
  - rewrite lookup_insert_eq. cbn [default from_option id]. case_bool_decide as Hl; [apply Ha|].
    apply StronglySorted_snoc; [apply Ha|]. apply Forall_forall. intros p Hin.
    destruct (decide (p = position)) as [->|]; [|specialize (Hbelow p Hin); lia]. exfalso. apply Hl.
    destruct (last held) as [q|] eqn:Eq.
    + pose proof (below_last held q (Ha j) Eq position Hin). pose proof (Hbelow q (elem_of_last _ _ Eq)). f_equal. lia.
    + apply last_None in Eq. rewrite Eq in Hin. by apply not_elem_of_nil in Hin.
  - rewrite lookup_insert_ne by done. apply Ha.
Qed.
Lemma pair_sorted_nodup prs : StronglySorted pair_lt prs -> NoDup prs.
Proof.
  induction 1 as [|x l Hl IH Hx]; constructor; [|done]. intros Hin. rewrite Forall_forall in Hx. by eapply pair_lt_irrefl, Hx.
Qed.
Lemma push_pair_step seen prs pos item :
  pairs_inv seen prs pos -> Forall (fun y => cmp_le raw_pair_order y item) seen ->
  (N.of_nat (length seen) < u32_max)%N ->
  exists prs' pos', push_pair (prs, pos) item = Some (prs', pos') /\ pairs_inv (seen ++ [item]) prs' pos'.
Proof.
  intros Hi Hle Hm. pose proof Hi as [He Hs Hl Hp Ha Hsz]. destruct item as [x j]. unfold push_pair.
  case_bool_decide as Hlast.
  - rewrite u32_try_ok by lia. cbn [mbind option_bind].
    assert (prs <> []) as Hne by by intros ->. destruct prs as [|y0 r0] eqn:Epr; [done|]. rewrite <- Epr in *.
    assert (length prs = S (length prs - 1))%nat as Hlen by (rewrite Epr; simpl; lia).
    assert (get prs (N.of_nat (length prs - 1)) = Some x) as Hx.
    { unfold get. rewrite Nat2N.id. rewrite last_lookup in Hlast. rewrite Hlen in Hlast. simpl in Hlast.
      by replace (pred (S (length prs - 1))) with (length prs - 1)%nat in Hlast by lia. }
    destruct (push_position seen prs pos x j prs (N.of_nat (length prs - 1)) Hi) as [H1 H2];
      [done|by rewrite Nat2N.id|done|done|by apply pair_sorted_nodup|done|].
    exists prs, (if N.eqb j NO_PROJECT_ID then pos else
      <[j := if bool_decide (last (default [] (pos !! j)) = Some (N.of_nat (length prs - 1))) then default [] (pos !! j)
             else default [] (pos !! j) ++ [N.of_nat (length prs - 1)]]> pos).
    split; [by destruct (N.eqb j NO_PROJECT_ID)|]. split; [|done| |done|done|rewrite length_app; lia].
    + intros y. rewrite He, fmap_app, elem_of_app. split; [by left|]. intros [?|Hy]; [done|].
      apply list_elem_of_singleton in Hy as ->. apply He. by apply elem_of_last.
    + rewrite fmap_app. change ([(x, j)].*1) with [x]. by rewrite last_snoc.
  - rewrite u32_try_ok by lia. cbn [mbind option_bind].
    assert (Forall (fun y => pair_lt y x) prs) as Hlt.
    { apply Forall_forall. intros y Hy%He. apply list_elem_of_fmap in Hy as ([y' j'] & -> & Hin).
      rewrite Forall_forall in Hle. destruct (raw_pair_le _ _ (Hle _ Hin)) as [E|?]; [|done]. cbn in *. subst y'. exfalso.
      apply Hlast. destruct (last prs) as [z|] eqn:Ez.
      - f_equal. assert (x ∈ prs) as Hxp by (apply He; by apply (list_elem_of_fmap_2 fst) in Hin).
        pose proof Ez as Ez'. symmetry in Hl. apply elem_of_last, list_elem_of_fmap in Hl as ([z' jz] & -> & Hzin). cbn.
        destruct (raw_pair_le _ _ (Hle _ Hzin)) as [E|Hzx]; [done|]. exfalso. cbn in Hzx.
        apply list_elem_of_lookup in Hxp as [i Hxi].
        cbn in Ez'. apply last_Some in Ez' as [l' El]. rewrite El in Hxi, Hs.
        apply lookup_snoc_Some in Hxi as [[Hil Hxi]|[_ ->]]; [|by eapply pair_lt_irrefl].
        eapply pair_lt_irrefl, pair_lt_trans; [exact Hzx|].
        apply (StronglySorted_lookup pair_lt (l' ++ [z']) i (length l')); [done|by apply lookup_app_l_Some|by apply list_lookup_middle|done].
      - apply last_None in Ez. assert (x ∈ prs) as Hxp by (apply He; by apply (list_elem_of_fmap_2 fst) in Hin).
        rewrite Ez in Hxp. by apply not_elem_of_nil in Hxp. }
    assert (StronglySorted pair_lt (prs ++ [x])) as Hs' by by apply StronglySorted_snoc.
    destruct (push_position seen prs pos x j (prs ++ [x]) (N.of_nat (length prs)) Hi) as [H1 H2].
    { unfold get. rewrite Nat2N.id. by apply list_lookup_middle. } { rewrite length_app, Nat2N.id. simpl. lia. }
    { intros p y. apply get_app_l. } { intros p y Hg Hplt. unfold get in *. by rewrite lookup_app_l in Hg. }
    { by apply pair_sorted_nodup. } { rewrite length_app. lia. }
    exists (prs ++ [x]), (if N.eqb j NO_PROJECT_ID then pos else
      <[j := if bool_decide (last (default [] (pos !! j)) = Some (N.of_nat (length prs))) then default [] (pos !! j)
             else default [] (pos !! j) ++ [N.of_nat (length prs)]]> pos).
    split; [by destruct (N.eqb j NO_PROJECT_ID)|]. split; [|done| |done|done|rewrite !length_app; simpl; lia].
    + intros y. by rewrite elem_of_app, He, fmap_app, elem_of_app.
    + rewrite fmap_app. change ([(x, j)].*1) with [x]. by rewrite !last_snoc.
Qed.
Lemma push_pair_loop l : forall seen prs pos,
  pairs_inv seen prs pos -> StronglySorted (cmp_le raw_pair_order) (seen ++ l) ->
  (N.of_nat (length seen + length l) <= u32_max)%N ->
  exists prs' pos', foldM push_pair (prs, pos) l = Some (prs', pos') /\ pairs_inv (seen ++ l) prs' pos'.
Proof.
  induction l as [|item l IH]; intros seen prs pos Hi Hs Hm; cbn [foldM].
  { exists prs, pos. by rewrite app_nil_r. }
  cbn [length] in Hm. destruct (push_pair_step seen prs pos item Hi) as (prs1 & pos1 & -> & Hi1); [|lia|].
  { apply Forall_forall. intros y Hy. apply list_elem_of_lookup in Hy as [i Hy].
    eapply (StronglySorted_lookup _ _ i (length seen)); [exact Hs|by apply lookup_app_l_Some|by apply list_lookup_middle|by eapply lookup_lt_Some]. }
  cbn [mbind option_bind]. destruct (IH (seen ++ [item]) prs1 pos1 Hi1) as (prs' & pos' & -> & Hi').
  { by rewrite <- (assoc_L (++)). } { rewrite length_app. simpl. lia. }
  exists prs', pos'. by rewrite <- (assoc_L (++)) in Hi'.
Qed.

Definition raw_of (f : SemanticFamily) : list (CompactPrefixPathPair * N) :=
  omap (fun c => n ← get cnames c.(name_id);
                 (fun t => (mkPair t c.(path_id), c.(project_id))) <$> three_byte_prefix_token (bytes_of n.(text_lower)))
    (List.filter (fun c => bool_decide (entry_family c = f)) centries).
Lemma raw_pairs_ok f : raw_pairs centries cnames f = Some (raw_of f).
Proof.
  unfold raw_pairs, raw_of.
  assert (forall cs, (forall c, c ∈ cs -> (N.to_nat c.(name_id) < length cnames)%nat) ->
    exists ps, mapM (fun e => n ← get cnames e.(name_id);
        Some ((fun t => (mkPair t e.(path_id), e.(project_id))) <$> three_byte_prefix_token (bytes_of n.(text_lower)))) cs = Some ps /\
      omap id ps = omap (fun c => n ← get cnames c.(name_id);
        (fun t => (mkPair t c.(path_id), c.(project_id))) <$> three_byte_prefix_token (bytes_of n.(text_lower))) cs) as H.
  { induction cs as [|c cs IH]; intros Hc; [by exists []|].
    destruct (get_ok cnames c.(name_id)) as [n Hn]; [apply Hc; left|].
    destruct IH as (ps & Hm & Ho); [intros; apply Hc; by right|]. eexists. split.
    - cbn [mapM]. rewrite Hn. cbn [mbind option_bind]. by rewrite Hm.
    - cbn [omap list_omap]. rewrite Hn. cbn [mbind option_bind id].
      destruct (three_byte_prefix_token (bytes_of (text_lower n))) as [t|]; cbn [fmap option_fmap option_map id];
        [f_equal|]; exact Ho. }
  destruct (H (List.filter (fun c => bool_decide (entry_family c = f)) centries)) as (ps & -> & Ho).
  { intros c [Hc _]%elem_of_filter_bool. by apply entry_names_bounded. }
  cbn [mbind option_bind]. by rewrite Ho.
Qed.
Lemma raw_of_length f : (length (raw_of f) <= length es)%nat.
Proof.
  unfold raw_of. rewrite <- (seg_length _ _ _ _ _ Hden).
  assert (forall {A B} (g : A -> option B) l, length (omap g l) <= length l)%nat as Hom.
  { intros A B g l. induction l as [|a l IH]; simpl; [done|]. destruct (g a); simpl; unfold omap in *; lia. }
  rewrite Hom. apply sublist_length, list_filter_bool_sublist.
Qed.
(** The pair of an entry. *)
Lemma elem_of_raw f x j : (x, j) ∈ raw_of f <->
  exists c, c ∈ centries /\ entry_family c = f /\ j = c.(project_id) /\ x.(pair_path) = c.(path_id) /\
    exists n, get cnames c.(name_id) = Some n /\ three_byte_prefix_token (bytes_of n.(text_lower)) = Some x.(token).
Proof.
  unfold raw_of. rewrite list_elem_of_omap. split.
  - intros (c & [Hc Hf]%elem_of_filter_bool & H). apply bool_decide_eq_true in Hf.
    apply bind_Some in H as (n & Hn & (t & Ht & [= -> ->])%fmap_Some). exists c. split_and!; try done. exists n. by split.
  - intros (c & Hc & Hf & -> & Hp & n & Hn & Ht). exists c. split.
    + apply elem_of_filter_bool. split; [done|]. by apply bool_decide_eq_true.
    + rewrite Hn. cbn. rewrite Ht. cbn. destruct x; cbn in *. by subst.
Qed.

Definition prefix_exact (f : SemanticFamily) (p : CompactPrefixPathPostings) : Prop :=
  StronglySorted pair_lt p.(pairs) /\
  (forall x, x ∈ p.(pairs) <-> exists j, (x, j) ∈ raw_of f) /\
  forall j, StronglySorted N.lt (default [] (p.(project_positions) !! j)) /\
    forall i, i ∈ default [] (p.(project_positions) !! j) <->
      exists x, get p.(pairs) i = Some x /\ (x, j) ∈ raw_of f /\ j <> NO_PROJECT_ID.
Lemma build_prefix_paths_ok f :
  exists p, build_prefix_paths centries cnames f = Some p /\ prefix_exact f p.
Proof.
  unfold build_prefix_paths. rewrite raw_pairs_ok. cbn [mbind option_bind].
  set (same := fun a b : CompactPrefixPathPair * N => bool_decide (a = b)).
  set (raw := dedup same (sort_by raw_pair_order (raw_of f))).
  assert (forall it, it ∈ raw <-> it ∈ raw_of f) as Hraw.
  { intros it. unfold raw. rewrite elem_of_dedup by (intros a b; apply bool_decide_eq_true). apply elem_of_sort_by. }
  assert (forall kept l, length (dedup_after same kept l) <= length l)%nat as Hdl by (intros; apply dedup_after_length).
  assert (length raw <= length es)%nat as Hlen.
  { etrans; [|apply (raw_of_length f)]. unfold raw. rewrite <- (sort_by_length raw_pair_order (raw_of f)).
    destruct (sort_by raw_pair_order (raw_of f)); simpl; [done|]. apply le_n_S, Hdl. }
  destruct (push_pair_loop raw [] [] ∅) as (prs & pos & -> & [He Hs _ Hp Ha _]).
  { split; try done; [constructor| |intros; rewrite lookup_empty; constructor].
    intros j p. rewrite lookup_empty. split; [by intros ?%not_elem_of_nil|]. by intros (x & Hx & _). }
  { unfold raw. pose proof (sort_by_sorted raw_pair_order (raw_of f)) as Hso.
    assert (forall kept l, dedup_after same kept l `sublist_of` l) as Hsub.
    { intros kept l. revert kept. induction l as [|y l IH]; intros kept; simpl; [done|]. destruct (same y kept); by constructor. }
    simpl. destruct (sort_by raw_pair_order (raw_of f)) as [|y l]; simpl; [constructor|].
    eapply sublist_StronglySorted; [|exact Hso]. by constructor. }
  { simpl. pose proof (po_size _ _ _ _ _ Hok). lia. }
  cbn [mbind option_bind app] in *. eexists. split; [done|]. split; [done|]. split.
  - intros x. cbn [pairs]. rewrite He, list_elem_of_fmap. split.
    + intros ([y j] & -> & Hy). exists j. by apply Hraw.
    + intros [j Hj]. exists (x, j). split; [done|]. by apply Hraw.
  - intros j. split; [apply Ha|]. intros i. cbn [pairs project_positions]. rewrite Hp. by setoid_rewrite Hraw.
Qed.
(** A slice between two partition points selects a range. *)
Lemma between_sorted {A} (key : A -> N) low high l :
  StronglySorted (fun a b => key a <= key b)%N l -> (low <= high)%N ->
  between (fun x => key x <? low)%N (fun x => key x <? high)%N l =
  List.filter (fun x => (low <=? key x) && (key x <? high))%N l.
Proof.
  intros Hs Hlh. unfold between.
  assert (forall l, StronglySorted (fun a b => key a <= key b)%N l -> forall a, Forall (fun b => a <= key b)%N l -> (high <= a)%N ->
    List.filter (fun x => (low <=? key x) && (key x <? high))%N l = []) as Hnone.
  { intros k _ a Ha Hh. apply List_filter_nil. intros x Hx. rewrite Forall_forall in Ha. specialize (Ha x Hx).
    rewrite (proj2 (N.ltb_ge _ _)) by lia. apply andb_false_r. }
  induction Hs as [|x l Hl IH Hx]; [done|]. cbn [partition_point List.filter].
  destruct (N.ltb_spec (key x) low) as [H1|H1].
  - rewrite (proj2 (N.ltb_lt (key x) high)) by lia. rewrite (proj2 (N.leb_gt low (key x))) by lia. cbn [andb]. apply IH.
  - rewrite (proj2 (N.leb_le low (key x))) by lia. cbn [andb]. rewrite Nat.sub_0_r. cbn [drop].
    destruct (N.ltb_spec (key x) high) as [H2|H2].
    + cbn [take]. f_equal. rewrite <- IH. assert (partition_point (fun x0 => key x0 <? low)%N l = 0) as ->.
      { destruct l as [|y l]; [done|]. cbn. apply Forall_cons in Hx as [Hxy _]. by rewrite (proj2 (N.ltb_ge _ _)) by lia. }
      by rewrite Nat.sub_0_r.
    + cbn [take]. symmetry. by apply (Hnone l Hl (key x)).
Qed.
End postings.

(** ** The segment *)

Record segment_ok (s : NameSegment) (es : list NameEntry) : Prop := {
  sg_parts : parts_ok s.(entries) s.(names) s.(paths) s.(projects) es;
  sg_ids : arena_ok s.(path_ids) s.(paths);
  sg_tables : tables_ok s.(paths) s.(path_counts) s.(path_is_external) es;
  sg_sorted f : slot f s.(sorted_by_family) = family_ids es f;
  sg_paths f id path : get s.(paths) id = Some path ->
    path_posting (slot f s.(path_postings_by_family)) id =
    Some (List.filter (fun i => bool_decide (path_at es i = path)) (family_ids es f));
  sg_heads f : heads_exact s.(entries) s.(names) s.(paths) es f (slot f s.(short_prefix_heads_by_family));
  sg_fuzzy f : fuzzy_exact s.(names) es f (slot f s.(fuzzy_postings_by_family));
  sg_sole : sole_exact s.(names) s.(paths) es s.(sole_path_by_name);
  sg_prefix f : prefix_exact s.(entries) s.(names) f (slot f s.(prefix_paths_by_family));
  sg_projects : ids_right s.(projects) s.(by_project) /\ forall f key,
    posted f s.(by_project) key = List.filter (fun i => bool_decide (project_at es i = Some key)) (family_ids es f);
}.
(** Few enough names that no identifier space is exhausted. *)
Definition fits_u32 (es : list NameEntry) : Prop := (120 * N.of_nat (length es) < UNSEEN_PATH_ID)%N.

Lemma family_ids_nodup es f : NoDup (family_ids es f).
Proof.
  unfold family_ids, sorted_ids. eapply NoDup_of_submseteq; [apply sublist_submseteq, list_filter_bool_sublist|].
  rewrite sort_by_perm. apply ids_upto_nodup.
Qed.
Lemma family_ids_range es f i : i ∈ family_ids es f -> (N.to_nat i < length es)%nat.
Proof. unfold family_ids, sorted_ids. rewrite elem_of_filter_bool, elem_of_sort_by, elem_of_ids. by intros []. Qed.

Lemma finish_segment_ok b es :
  builder_ok b es -> fits_u32 es -> exists s, finish_segment b = Some s /\ segment_ok s es.
Proof.
  intros Hb Hf. unfold fits_u32, UNSEEN_PATH_ID in Hf. pose proof (builder_parts b es Hb ltac:(lia)) as Hok.
  pose proof (bo_size _ _ Hb) as (_ & Hps & _). unfold finish_segment, from_compact_parts.
  rewrite (sorted_indices_ok _ _ _ _ _ (po_entries _ _ _ _ _ Hok)) by apply Hok. cbn [mbind option_bind].
  destruct (candidate_postings_ok _ _ _ _ _ Hok) as (heads & fuzzy & -> & Hhf); [lia|]. cbn [mbind option_bind].
  destruct (sole_path_ok _ _ _ _ _ Hok) as (sole & -> & Hsole); [unfold UNSEEN_PATH_ID; lia|]. cbn [mbind option_bind].
  destruct (build_prefix_paths_ok _ _ _ _ _ Hok CFamily) as (pc & -> & Hpc). cbn [mbind option_bind].
  destruct (build_prefix_paths_ok _ _ _ _ _ Hok FamilyGo) as (pg & -> & Hpg). cbn [mbind option_bind fst snd].
  destruct (path_postings_ok _ _ _ _ _ (po_entries _ _ _ _ _ Hok) (po_size _ _ _ _ _ Hok) (po_names_size _ _ _ _ _ Hok) (family_ids es CFamily)
    (po_paths _ _ _ _ _ Hok) (family_ids_nodup es CFamily) (family_ids_range es CFamily)) as (qc & -> & Hqc).
  destruct (path_postings_ok _ _ _ _ _ (po_entries _ _ _ _ _ Hok) (po_size _ _ _ _ _ Hok) (po_names_size _ _ _ _ _ Hok) (family_ids es FamilyGo)
    (po_paths _ _ _ _ _ Hok) (family_ids_nodup es FamilyGo) (family_ids_range es FamilyGo)) as (qg & -> & Hqg).
  cbn [mbind option_bind].
  destruct (post_project_loop _ _ _ _ _ Hok CFamily (family_ids es CFamily) ∅ (family_ids_range es CFamily)) as (m1 & -> & Hr1 & Hf1 & Hg1).
  { intros key id l H. by rewrite lookup_empty in H. }
  cbn [mbind option_bind].
  destruct (post_project_loop _ _ _ _ _ Hok FamilyGo (family_ids es FamilyGo) m1 (family_ids_range es FamilyGo) Hr1) as (m2 & -> & Hr2 & Hf2 & Hg2).
  cbn [mbind option_bind]. eexists. split; [done|]. split; cbn; try done.
  - apply Hb.
  - apply Hb.
  - by intros [].
  - intros [] id path Hp; [by apply Hqc|by apply Hqg].
  - intros f. apply Hhf.
  - intros f. apply Hhf.
  - by intros [].
  - split; [done|]. intros [] key.
    + rewrite Hg2, Hf1 by done. unfold posted. by rewrite lookup_empty.
    + rewrite Hf2, Hg1 by done. unfold posted. by rewrite lookup_empty.
Qed.
Lemma segment_from_entries_ok es :
  Forall lowered es -> fits_u32 es -> exists s, segment_from_entries es = Some s /\ segment_ok s es.
Proof.
  intros Hl Hf. unfold segment_from_entries. unfold fits_u32, UNSEEN_PATH_ID in Hf.
  destruct (push_all_ok es new [] builder_new Hl) as (b & -> & Hb); [simpl; lia|]. cbn [mbind option_bind app] in *.
  by apply finish_segment_ok.
Qed.

Section reading.
Context (s : NameSegment) (es : list NameEntry).
Hypothesis Hs : segment_ok s es.
Hypothesis Hl : Forall lowered es.

Lemma segment_entry i : entry s i = normalise <$> es !! i.
Proof.
  pose proof (po_entries _ _ _ _ _ (sg_parts _ _ Hs)) as Hd. unfold entry. destruct (es !! i) as [e|] eqn:Ee; cbn [fmap option_fmap option_map].
  - destruct (Forall2_lookup_r _ _ _ _ _ Hd Ee) as (c & -> & [Hi Hn Hp Hj Hk Hr Hfl]). cbn [mbind option_bind].
    rewrite Hn, Hp. cbn [mbind option_bind]. rewrite Forall_lookup in Hl. pose proof (Hl _ _ Ee) as Hlow.
    destruct (name_flags_roundtrip (ne_family e) (ne_external e) (ne_directly_included e)) as (F1 & F2 & F3).
    unfold normalise, entry_family. rewrite Hi, Hk, Hr, Hfl, F1, F2, F3. unfold lowered in Hlow. rewrite Hlow. cbn [original text_lower text_of].
    destruct (ne_project e) as [k|].
    + destruct Hj as [Hj Hne]. rewrite (proj2 (N.eqb_neq _ _) Hne), Hj. done.
    + rewrite Hj, N.eqb_refl. done.
  - assert (s.(entries) !! i = None) as ->; [|done]. apply lookup_ge_None. apply lookup_ge_None in Ee.
    by rewrite (Forall2_length _ _ _ Hd).
Qed.
Lemma segment_path_count p : path_count s p = Some (N.of_nat (length (with_path p es))).
Proof.
  unfold path_count. destruct (s.(path_ids) !! p) as [id|] eqn:E.
  - apply (sg_ids _ _ Hs) in E. by apply (to_counts _ _ _ _ (sg_tables _ _ Hs)).
  - destruct (decide (with_path p es = [])) as [->|Hne]; [done|]. exfalso.
    apply (to_occurs _ _ _ _ (sg_tables _ _ Hs)), (arena_elem _ _ _ (sg_ids _ _ Hs)) in Hne as [id Hid]. congruence.
Qed.
Lemma segment_interned p : interned_path s p = Some (if decide (with_path p es = []) then None else Some p).
Proof.
  unfold interned_path. destruct (s.(path_ids) !! p) as [id|] eqn:E.
  - assert (p ∈ s.(paths)) as Hp by (eapply arena_elem; [apply (sg_ids _ _ Hs)|by eexists]).
    apply (sg_ids _ _ Hs) in E. rewrite E. rewrite decide_False by by apply (to_occurs _ _ _ _ (sg_tables _ _ Hs)). done.
  - destruct (decide (with_path p es = [])) as [_|Hne]; [done|]. exfalso.
    apply (to_occurs _ _ _ _ (sg_tables _ _ Hs)), (arena_elem _ _ _ (sg_ids _ _ Hs)) in Hne as [id Hid]. congruence.
Qed.
Lemma segment_prefix_paths f prefix low high :
  three_byte_prefix_bounds prefix = Some (low, high) -> (low <= high)%N ->
  paths_for_prefix (slot f s.(prefix_paths_by_family)) prefix =
  List.filter (fun x => (low <=? x.(token)) && (x.(token) <? high))%N (slot f s.(prefix_paths_by_family)).(pairs).
Proof.
  intros Hb Hlh. unfold paths_for_prefix. rewrite Hb. apply (between_sorted token); [|done].
  destruct (sg_prefix _ _ Hs f) as [H _]. induction H as [|x l H IH Hx]; constructor; [done|].
  eapply Forall_impl; [exact Hx|]. intros y. unfold pair_lt. lia.
Qed.
Lemma bounds_le prefix low high : three_byte_prefix_bounds prefix = Some (low, high) -> (low <= high)%N.
Proof. destruct prefix as [|a [|b [|c r]]]; cbn; intros [= <- <-]; lia. Qed.
(** Every name with the prefix has its path among the paths found. *)
Lemma segment_prefix_complete f prefix e :
  prefix <> [] -> bytes_ok prefix -> e ∈ es -> e.(ne_family) = f ->
  prefix `prefix_of` bytes_of (lower e.(ne_name)) ->
  exists x, x ∈ paths_for_prefix (slot f s.(prefix_paths_by_family)) prefix /\ get s.(paths) x.(pair_path) = Some e.(ne_path).
Proof.
  intros Hne Hok He Hf Hp. destruct (three_byte_prefix_bounds prefix) as [[low high]|] eqn:Hb; [|by destruct prefix as [|? [|? [|]]]].
  destruct (three_byte_prefix_token (bytes_of (lower (ne_name e)))) as [t|] eqn:Ht.
  2: { destruct (bytes_of (lower (ne_name e))); [|done]. by apply prefix_nil_inv in Hp. }
  destruct (prefix_range_iff _ _ _ _ _ Hok (bytes_of_ok _) Hb Ht) as [_ Hrange]. specialize (Hrange Hp).
  pose proof (po_entries _ _ _ _ _ (sg_parts _ _ Hs)) as Hd. apply list_elem_of_lookup in He as [i Hi].
  destruct (Forall2_lookup_r _ _ _ _ _ Hd Hi) as (c & Hc & Hden). exists (mkPair t c.(path_id)). split; [|apply Hden].
  rewrite (segment_prefix_paths f prefix low high Hb (bounds_le _ _ _ Hb)). apply elem_of_filter_bool. split.
  - destruct (sg_prefix _ _ Hs f) as [_ [Hin _]]. apply Hin. exists c.(project_id). apply elem_of_raw. exists c.
    split_and!; [by eapply list_elem_of_lookup_2|by (rewrite <- Hf; eapply den_family)|done|done|].
    eexists. split; [apply Hden|done].
  - cbn [token]. rewrite andb_true_iff, N.leb_le, N.ltb_lt. done.
Qed.
End reading.

Lemma fuzzy_names_iff s es f t : segment_ok s es -> forall n,
  (exists id, id ∈ List.filter (fun id => bool_decide (t ∈ tokens_of s.(names) id)) (family_names s.(names) es f) /\
     get s.(names) id = Some (text_of n)) <->
  t ∈ fuzzy_tokens_for_name (bytes_of n) (bytes_of (lower n)) /\ exists e, e ∈ es /\ e.(ne_family) = f /\ e.(ne_name) = n.
Proof.
  intros Hok n. pose proof (po_entries _ _ _ _ _ (sg_parts _ _ Hok)) as Hd. split.
  - intros (id & [Hid Ht]%elem_of_filter_bool & Hn). apply bool_decide_eq_true in Ht. unfold tokens_of in Ht. rewrite Hn in Ht.
    split; [done|]. unfold family_names in Hid. rewrite elem_of_sort_by, elem_of_filter_bool in Hid.
    destruct Hid as [_ (e & He & H)%existsb_exists]. apply andb_true_iff in H as [H1%bool_decide_eq_true H2%bool_decide_eq_true].
    exists e. split; [by apply list_elem_of_In|]. split; [done|].
    rewrite Hn in H2. by injection H2.
  - intros (Ht & e & He & Hf & <-). pose proof He as [i Hi]%list_elem_of_lookup.
    destruct (Forall2_lookup_r _ _ _ _ _ Hd Hi) as (c & Hc & Hden). exists c.(name_id). split; [|apply Hden].
    apply elem_of_filter_bool. split; [|apply bool_decide_eq_true; unfold tokens_of; by rewrite (den_name _ _ _ _ _ Hden)].
    unfold family_names. rewrite elem_of_sort_by, elem_of_filter_bool, elem_of_ids. split; [eapply get_lt, Hden|].
    unfold names_family. apply existsb_exists. exists e. split; [by apply list_elem_of_In|].
    rewrite andb_true_iff, !bool_decide_eq_true. split; [done|apply Hden].
Qed.

(** ** Theorems *)

(** Building a segment from names with their lowered forms succeeds whenever [u32]
    identifiers suffice, and every access to it answers what a scan of the list would:
    entries by position, the positions of a family sorted by lowered name, name and
    position, their selections by path, by project and by first byte, the names posted
    under a trigram, the number of entries of a path; and the paths found for a prefix
    include the path of every name with that prefix. *)
Theorem segment_postings_exact es :
  Forall lowered es -> fits_u32 es ->
  exists s, segment_from_entries es = Some s /\
    (forall i, entry s i = normalise <$> es !! i) /\
    (forall p, path_count s p = Some (N.of_nat (length (with_path p es)))) /\
    forall f,
      slot f s.(sorted_by_family) = family_ids es f /\
      (forall path id, s.(path_ids) !! path = Some id ->
         path_posting (slot f s.(path_postings_by_family)) id =
         Some (List.filter (fun i => bool_decide (path_at es i = path)) (family_ids es f))) /\
      (forall key, posted f s.(by_project) key =
         List.filter (fun i => bool_decide (project_at es i = Some key)) (family_ids es f)) /\
      (forall h i, i ∈ default [] (slot f s.(short_prefix_heads_by_family) !! h) <->
         exists e, get es i = Some e /\ e.(ne_family) = f /\ first_byte (lower e.(ne_name)) = Some h) /\
      (forall t, exists ids, fuzzy_posting (slot f s.(fuzzy_postings_by_family)) t = Some ids /\
         forall n, (exists id, id ∈ ids /\ get s.(names) id = Some (text_of n)) <->
           t ∈ fuzzy_tokens_for_name (bytes_of n) (bytes_of (lower n)) /\ exists e, e ∈ es /\ e.(ne_family) = f /\ e.(ne_name) = n) /\
      (forall prefix e, prefix <> ""%string -> e ∈ es -> e.(ne_family) = f ->
         bytes_of prefix `prefix_of` bytes_of (lower e.(ne_name)) ->
         exists x, x ∈ paths_for_prefix (slot f s.(prefix_paths_by_family)) (bytes_of prefix) /\
           get s.(paths) x.(pair_path) = Some e.(ne_path)).
Proof.
  intros Hl Hf. destruct (segment_from_entries_ok es Hl Hf) as (s & Hs & Hok). exists s. split; [done|].
  split; [intros; by apply segment_entry|]. split; [intros; by apply segment_path_count|]. intros f.
  split; [apply (sg_sorted _ _ Hok)|]. split; [intros path id Hid; apply (sg_paths _ _ Hok); by apply (sg_ids _ _ Hok)|].
  split; [apply (sg_projects _ _ Hok)|]. split; [|split].
  - intros h i. rewrite (sg_heads _ _ Hok f h), elem_of_filter_bool. unfold static_ids.
    rewrite elem_of_sort_by, elem_of_filter_bool, elem_of_ids, !bool_decide_eq_true. unfold family_at, name_at. split.
    + intros [[Hi Hfa] Hh]. destruct (get_ok es i Hi) as [e He]. rewrite He in *. by exists e.
    + intros (e & He & Hfa & Hh). rewrite He. split_and!; [by eapply get_lt|done|done].
  - intros t. eexists. split; [apply (sg_fuzzy _ _ Hok)|]. apply fuzzy_names_iff, Hok.
  - intros prefix e Hne He Hfa Hp. apply (segment_prefix_complete s es Hok); [by destruct prefix|apply bytes_of_ok|done..].
Qed.

Definition demo_entry (id : Z) (name path : string) (f : SemanticFamily) : NameEntry :=
  mkName id name (lower name) false false path KindFunction Definition_ f None.
Definition demo_names : list NameEntry :=
  [demo_entry 1 "openFile" "src/io.c" CFamily; demo_entry 2 "Close" "src/io.c" CFamily;
   demo_entry 3 "OpenFile" "pkg/io.go" FamilyGo; demo_entry 4 "close" "src/a.c" CFamily].
Lemma demo_names_lowered : Forall lowered demo_names.
Proof. repeat constructor. Qed.
Lemma segment_postings_exact_witness :
  exists s, segment_from_entries demo_names = Some s /\ slot CFamily s.(sorted_by_family) = [1; 3; 0]%N.
Proof.
  destruct (segment_postings_exact demo_names demo_names_lowered ltac:(vm_compute; reflexivity)) as (s & Hs & _ & _ & H).
  exists s. split; [exact Hs|]. exact (proj1 (H CFamily)).
Defined.
Example demo_fuzzy :
  (s ← segment_from_entries demo_names;
   fuzzy_posting (slot CFamily s.(fuzzy_postings_by_family)) (fuzzy_trigram_token (text "los") false)) = Some [1; 3]%N.
Proof. vm_compute. reflexivity. Qed.
