(* ===== verification/NameTables.v ===== *)
(** * The segmented name table (query.rs, query/name_updates.rs)

    An immutable base segment, the segments of later changes, and for every changed path
    the segment that speaks for it now. A table is a value; publication makes a new one.
    An index out of range or a failing [expect] is [None]. Counters and slots are
    [usize]. Cancellation checkpoints, which only abandon a compaction, are left out. *)

From S2P Require Import Prelude Arrays NameMatch CallModel Reachability NameSegments NamePostings.

Record NameTable : Type := mkTable {
  base : NameSegment;
  deltas : list NameSegment;
  path_overrides : gmap string (option nat);
  active_base_paths : list string;
  active_delta_paths : list (list string);
  active_project_family_counts : gmap ProjectKey (nat * nat);
  delta_offsets : list nat;
  active_len : nat;
  slot_len : nat;
  direct_include_overrides : gmap string bool;
  all_workspace_reach : ReachScope;
}.
Definition sort_paths : list string -> list string := sort_by String.compare.
Definition workspace_paths (s : NameSegment) : gset string :=
  list_to_set (omap (fun p : string * bool => if p.2 then None else Some p.1) (zip s.(paths) s.(path_is_external))).
Definition from_base_segment (s : NameSegment) : NameTable :=
  let active_len := length s.(entries) in
  mkTable s [] ∅ (sort_paths s.(paths)) []
    ((fun p : N * (list N * list N) => (length p.2.1, length p.2.2)) <$> s.(by_project))
    [] active_len active_len ∅ (mkScope (workspace_paths s) ∅ false None).
Definition from_entries (es : list NameEntry) : option NameTable :=
  s ← segment_from_entries es; Some (from_base_segment s).

Definition base_len (t : NameTable) : nat := length t.(base).(entries).
Definition delta_of (t : NameTable) (index : nat) : nat :=
  (partition_point (fun offset => offset <=? index)%nat t.(delta_offsets) - 1)%nat.
Definition table_entry (t : NameTable) (index : nat) : option NameEntry :=
  if (index <? base_len t)%nat then entry t.(base) index
  else
    offset ← t.(delta_offsets) !! delta_of t index;
    delta ← t.(deltas) !! delta_of t index;
    entry delta (index - offset).
Definition segment_for_index (t : NameTable) (index : nat) : option nat :=
  if (base_len t <=? index)%nat then Some (delta_of t index) else None.
Definition is_active_index (t : NameTable) (index : nat) : option bool :=
  e ← table_entry t index;
  Some match t.(path_overrides) !! e.(ne_path) with
       | None => bool_decide (segment_for_index t index = None)
       | Some (Some active_delta) => bool_decide (segment_for_index t index = Some active_delta)
       | Some None => false
       end.
(** [(0..slot_len).filter(is_active_index)], with the entries found there *)
Fixpoint active_from (t : NameTable) (indices : list nat) : option (list (nat * NameEntry)) :=
  match indices with
  | [] => Some []
  | i :: indices =>
      active ← is_active_index t i;
      e ← table_entry t i;
      rest ← active_from t indices;
      Some (if (active : bool) then (i, e) :: rest else rest)
  end.
Definition active_indices (t : NameTable) : option (list (nat * NameEntry)) := active_from t (seq 0 t.(slot_len)).

Definition segment_with_offset (t : NameTable) (segment_slot : nat) : option (NameSegment * nat) :=
  match segment_slot with
  | 0 => Some (t.(base), 0%nat)
  | S delta => s ← t.(deltas) !! delta; offset ← t.(delta_offsets) !! delta; Some (s, offset)
  end.
Definition active_segment_slot_for_path (t : NameTable) (path : string) : option nat :=
  match t.(path_overrides) !! path with
  | None => if bool_decide (is_Some (t.(base).(path_ids) !! path)) then Some 0%nat else None
  | Some (Some delta) => Some (S delta)
  | Some None => None
  end.
Definition directly_included_for (t : NameTable) (e : NameEntry) : bool :=
  if negb e.(ne_external) then false
  else default e.(ne_directly_included) (t.(direct_include_overrides) !! e.(ne_path)).

(** ** Project counts *)

Definition bump (f : SemanticFamily) (counts : nat * nat) : nat * nat := update_slot f S counts.
(** One posted entry of the path. *)
Definition count_project (s : NameSegment) (f : SemanticFamily) (m : gmap ProjectKey (nat * nat)) (local : N) :
    option (gmap ProjectKey (nat * nat)) :=
  e ← get s.(entries) local;
  if N.eqb e.(project_id) NO_PROJECT_ID then Some m
  else key ← get s.(projects) e.(project_id); Some (<[key := bump f (default (0, 0)%nat (m !! key))]> m).
Definition project_family_counts_for_path (s : NameSegment) (path : string) :
    option (gmap ProjectKey (nat * nat)) :=
  match s.(path_ids) !! path with
  | None => Some ∅
  | Some id =>
      pc ← path_posting s.(path_postings_by_family).1 id;
      m ← foldM (count_project s CFamily) ∅ pc;
      pg ← path_posting s.(path_postings_by_family).2 id;
      foldM (count_project s FamilyGo) m pg
  end.
(** [usize] addition saturates; subtraction is [checked_sub(..).expect(..)]. *)
Definition adjust_slot (add : bool) (count change : nat) : option nat :=
  if add then Some (N.to_nat (N.of_nat count +s N.of_nat change))
  else if (change <=? count)%nat then Some (count - change)%nat else None.
Definition adjust_key (add : bool) (active : gmap ProjectKey (nat * nat)) (kv : ProjectKey * (nat * nat)) :
    option (gmap ProjectKey (nat * nat)) :=
  let counts := default (0, 0)%nat (active !! kv.1) in
  c ← adjust_slot add counts.1 kv.2.1;
  g ← adjust_slot add counts.2 kv.2.2;
  Some (<[kv.1 := (c, g)]> active).
Definition adjust_project_family_counts (active : gmap ProjectKey (nat * nat)) (s : NameSegment)
    (path : string) (add : bool) : option (gmap ProjectKey (nat * nat)) :=
  changes ← project_family_counts_for_path s path;
  active ← foldM (adjust_key add) active (map_to_list changes);
  Some (filter (fun kv => kv.2 <> (0, 0)%nat) active).
Definition has_project_for_family (t : NameTable) (key : ProjectKey) (f : SemanticFamily) : bool :=
  match t.(active_project_family_counts) !! key with Some counts => (0 <? slot f counts)%nat | None => false end.

(** ** Updates *)

(** The segment that spoke for a path. *)
Definition old_segment (t : NameTable) (path : string) : option (option NameSegment) :=
  match t.(path_overrides) !! path with
  | Some (Some previous_delta) => Some <$> t.(deltas) !! previous_delta
  | Some None => Some None
  | None => Some (Some t.(base))
  end.
(** One changed path: counts, active length and override. *)
Definition update_path (t : NameTable) (fresh_segment : NameSegment) (delta_index : nat)
    (st : gmap ProjectKey (nat * nat) * nat * gmap string (option nat)) (path : string) :
    option (gmap ProjectKey (nat * nat) * nat * gmap string (option nat)) :=
  let '(counts, active_len, overrides) := st in
  old ← old_segment t path;
  counts ← match old with
           | Some s => adjust_project_family_counts counts s path false
           | None => Some counts
           end;
  counts ← adjust_project_family_counts counts fresh_segment path true;
  old_count ← match old with Some s => path_count s path | None => Some 0%N end;
  fresh_count ← path_count fresh_segment path;
  interned ← interned_path fresh_segment path;
  Some (counts, (active_len - N.to_nat old_count + N.to_nat fresh_count)%nat,
        <[default path interned := if (0 <? fresh_count)%N then Some delta_index else None]> overrides).
(** [touched_previous_deltas]: their remaining paths *)
Definition retain_paths (t : NameTable) (changed : gset string) : list (list string) :=
  imap (fun delta held =>
    if bool_decide (exists path, path ∈ changed /\ t.(path_overrides) !! path = Some (Some delta))
    then List.filter (fun path => bool_decide (path ∉ changed)) held else held) t.(active_delta_paths).
Definition fresh_paths (s : NameSegment) (changed : list string) : option (list string) :=
  kept ← mapM (fun path => count ← path_count s path; Some (path, count)) changed;
  names ← mapM (fun pc : string * N => i ← interned_path s pc.1; i) (List.filter (fun pc => 0 <? pc.2)%N kept);
  Some (sort_paths names).
Definition with_updated_entries (t : NameTable) (changed : gset string) (fresh_entries : list NameEntry) :
    option NameTable :=
  fresh ← segment_from_entries fresh_entries;
  let delta_index := length t.(deltas) in
  let fresh_slots := length fresh.(entries) in
  '(counts, active_len, overrides) ←
     foldM (update_path t fresh delta_index) (t.(active_project_family_counts), t.(active_len), t.(path_overrides))
       (elements changed);
  fresh_active ← fresh_paths fresh (elements changed);
  let reach := t.(all_workspace_reach) in
  Some (mkTable t.(base) (t.(deltas) ++ [fresh]) overrides
    (List.filter (fun path => bool_decide (path ∉ changed)) t.(active_base_paths))
    (retain_paths t changed ++ [fresh_active]) counts (t.(delta_offsets) ++ [t.(slot_len)])
    active_len (t.(slot_len) + fresh_slots)%nat t.(direct_include_overrides)
    (mkScope ((reach.(scope_files) ∖ changed) ∪ workspace_paths fresh) reach.(heuristic_files)
             reach.(scope_open) reach.(scope_reason))).
Definition with_direct_include_overrides (t : NameTable) (overrides : gmap string bool) : NameTable :=
  mkTable t.(base) t.(deltas) t.(path_overrides) t.(active_base_paths) t.(active_delta_paths)
    t.(active_project_family_counts) t.(delta_offsets) t.(active_len) t.(slot_len)
    (overrides ∪ t.(direct_include_overrides)) t.(all_workspace_reach).

(** ** Compaction *)

Definition needs_compaction (t : NameTable) : bool :=
  (64 <=? length t.(deltas))%nat || (Nat.div (base_len t) 4 <? t.(slot_len) - base_len t)%nat.
Definition shadowed_slots (t : NameTable) : option N :=
  foldM (fun count path => c ← path_count t.(base) path; Some (count +s c)) 0%N (map_to_list t.(path_overrides)).*1.
Definition can_compact_deltas_only (t : NameTable) : option bool :=
  let limit := Nat.div (base_len t) 4 in
  count ← shadowed_slots t;
  Some (negb (Nat.eqb (length t.(deltas)) 0) && (t.(slot_len) - base_len t <=? limit)%nat
        && (count <=? N.of_nat limit)%N).
Definition rebuilt (t : NameTable) : option NameTable :=
  active ← active_indices t;
  b ← foldM push_entry new active.*2;
  s ← finish_segment b;
  let fresh := from_base_segment s in
  Some (mkTable fresh.(base) fresh.(deltas) fresh.(path_overrides) fresh.(active_base_paths)
    fresh.(active_delta_paths) fresh.(active_project_family_counts) fresh.(delta_offsets) fresh.(active_len)
    fresh.(slot_len) t.(direct_include_overrides) fresh.(all_workspace_reach)).
Definition compact_deltas (t : NameTable) : option NameTable :=
  active ← active_from t (seq (base_len t) (t.(slot_len) - base_len t));
  b ← foldM push_entry new active.*2;
  s ← finish_segment b;
  let fresh_slots := length s.(entries) in
  let overrides := map_imap (fun path target =>
      if bool_decide (is_Some target) || bool_decide (is_Some (t.(base).(path_ids) !! path))
      then Some (const 0%nat <$> target) else None) t.(path_overrides) in
  Some (mkTable t.(base) [s] overrides t.(active_base_paths) [sort_paths s.(paths)]
    t.(active_project_family_counts) [base_len t] t.(active_len) (base_len t + fresh_slots)%nat
    t.(direct_include_overrides) t.(all_workspace_reach)).
Definition compacted (t : NameTable) : option NameTable :=
  deltas_only ← can_compact_deltas_only t;
  if (deltas_only : bool) then compact_deltas t else rebuilt t.

(** ** The entries a table shows *)

(** Every slot with the segment it belongs to. *)
Definition tag (d : option nat) (es : list NameEntry) : list (option nat * NameEntry) := (fun e => (d, e)) <$> es.
Definition tagged (b : list NameEntry) (ds : list (list NameEntry)) : list (option nat * NameEntry) :=
  tag None b ++ concat (imap (fun d es => tag (Some d) es) ds).
Definition share (target : option (option nat)) (d : option nat) : bool :=
  match target with
  | None => bool_decide (d = None)
  | Some (Some active_delta) => bool_decide (d = Some active_delta)
  | Some None => false
  end.
Definition speaks (overrides : gmap string (option nat)) (x : option nat * NameEntry) : bool :=
  share (overrides !! x.2.(ne_path)) x.1.
Definition view (overrides : gmap string (option nat)) (b : list NameEntry) (ds : list (list NameEntry)) : list NameEntry :=
  normalise <$> (List.filter (speaks overrides) (tagged b ds)).*2.
Definition pcount (key : ProjectKey) (f : SemanticFamily) (es : list NameEntry) : nat :=
  length (List.filter (fun e => bool_decide (e.(ne_family) = f) && bool_decide (e.(ne_project) = Some key)) es).
Definition counts_of (m : gmap ProjectKey (nat * nat)) (key : ProjectKey) (f : SemanticFamily) : nat :=
  slot f (default (0, 0)%nat (m !! key)).
Definition start_offset (b : list NameEntry) (ds : list (list NameEntry)) (d : nat) : nat :=
  (length b + sum_list (length <$> take d ds))%nat.

Record table_ok (t : NameTable) (b : list NameEntry) (ds : list (list NameEntry)) : Prop := {
  tk_base : segment_ok t.(base) b;
  tk_deltas : Forall2 segment_ok t.(deltas) ds;
  tk_lowered : Forall lowered b /\ Forall (Forall lowered) ds;
  tk_offsets : t.(delta_offsets) = start_offset b ds <$> seq 0 (length ds);
  tk_slots : t.(slot_len) = start_offset b ds (length ds);
  tk_targets p d : t.(path_overrides) !! p = Some (Some d) -> exists es, ds !! d = Some es /\ with_path p es <> [];
  tk_active_len : t.(active_len) = length (view t.(path_overrides) b ds);
  tk_counts key f : counts_of t.(active_project_family_counts) key f = pcount key f (view t.(path_overrides) b ds);
  tk_base_paths p : p ∈ t.(active_base_paths) <-> with_path p b <> [] /\ t.(path_overrides) !! p = None;
  tk_delta_paths : length t.(active_delta_paths) = length ds /\ forall d held p, t.(active_delta_paths) !! d = Some held ->
    p ∈ held <-> t.(path_overrides) !! p = Some (Some d);
}.

Lemma with_path_elem e es : e ∈ es -> with_path (ne_path e) es <> [].
Proof.
  intros He E. assert (e ∈ with_path (ne_path e) es) as Hin; [|rewrite E in Hin; by apply not_elem_of_nil in Hin].
  unfold with_path. apply elem_of_filter_bool. by rewrite bool_decide_eq_true.
Qed.
Lemma filter_true {A} (g : A -> bool) l : (forall x, x ∈ l -> g x = true) -> List.filter g l = l.
Proof.
  induction l as [|x l IH]; intros H; [done|]. cbn [List.filter]. rewrite (H x) by left. f_equal. apply IH. intros y Hy. apply H. by right.
Qed.
Lemma normalise_idem e : normalise (normalise e) = normalise e.
Proof. unfold normalise. cbn. f_equal. by destruct (ne_external e), (ne_directly_included e). Qed.
Lemma normalise_fields e : ne_path (normalise e) = ne_path e /\ ne_family (normalise e) = ne_family e /\
  ne_project (normalise e) = ne_project e /\ ne_external (normalise e) = ne_external e.
Proof. done. Qed.
Lemma tagged_snoc b ds es : tagged b (ds ++ [es]) = tagged b ds ++ tag (Some (length ds)) es.
Proof.
  unfold tagged. rewrite imap_app, concat_app. cbn. rewrite app_nil_r, Nat.add_0_r. by rewrite (assoc_L (++)).
Qed.
Lemma length_concat_sum {A} (l : list (list A)) : length (concat l) = sum_list (length <$> l).
Proof. induction l as [|x l IH]; [done|]. rewrite sum_fmap_cons, <- IH. apply length_app. Qed.
Lemma tagged_length b ds : length (tagged b ds) = start_offset b ds (length ds).
Proof.
  unfold tagged, start_offset. rewrite length_app, length_concat, take_ge by done. unfold tag. rewrite length_fmap. f_equal.
  f_equal. apply list_eq. intros i. rewrite !list_lookup_fmap, list_lookup_imap. destruct (ds !! i); cbn; [|done].
  by rewrite length_fmap.
Qed.
Lemma tagged_lookup_base b ds i e : b !! i = Some e -> tagged b ds !! i = Some (None, e).
Proof. intros H. unfold tagged, tag. apply lookup_app_l_Some. by rewrite list_lookup_fmap, H. Qed.
Lemma tagged_lookup_delta b ds d es k e :
  ds !! d = Some es -> es !! k = Some e -> tagged b ds !! (start_offset b ds d + k)%nat = Some (Some d, e).
Proof.
  intros Hd Hk. unfold tagged, start_offset. rewrite lookup_app_r by (unfold tag; rewrite length_fmap; lia).
  assert (imap (fun d es => tag (Some d) es) ds !! d = Some (tag (Some d) es)) as Hseg by by rewrite list_lookup_imap, Hd.
  assert (tag (Some d) es !! k = Some (Some d, e)) as Hx by (unfold tag; by rewrite list_lookup_fmap, Hk).
  assert (length <$> imap (fun d es => tag (Some d) es) ds = length <$> ds) as Hlens.
  { apply list_eq. intros i. rewrite !list_lookup_fmap, list_lookup_imap. destruct (ds !! i); cbn; [|done].
    unfold tag. by rewrite length_fmap. }
  pose proof (concat_lookup _ _ _ _ _ Hseg Hx) as H. rewrite fmap_take, Hlens, <- fmap_take in H.
  rewrite <- H. f_equal. unfold tag. rewrite length_fmap. lia.
Qed.
Lemma tagged_inv b ds i d e : tagged b ds !! i = Some (d, e) ->
  (d = None /\ b !! i = Some e) \/ exists d' es k, d = Some d' /\ ds !! d' = Some es /\ es !! k = Some e /\ i = (start_offset b ds d' + k)%nat.
Proof.
  intros H. pose proof (lookup_lt_Some _ _ _ H) as Hlt. rewrite tagged_length in Hlt. unfold start_offset in Hlt. rewrite take_ge in Hlt by done.
  destruct (decide (i < length b)%nat) as [Hi|Hi].
  - left. destruct (lookup_lt_is_Some_2 b i Hi) as [e' He']. rewrite (tagged_lookup_base _ ds _ _ He') in H. injection H as <- <-. done.
  - right. destruct (concat_index ds (i - length b)) as (j & k & es & Hj & Hk & Hik); [rewrite length_concat_sum; lia|].
    destruct (lookup_lt_is_Some_2 es k Hk) as [e' He'].
    assert (i = start_offset b ds j + k)%nat as -> by (unfold start_offset; lia).
    rewrite (tagged_lookup_delta _ _ _ _ _ _ Hj He') in H. injection H as <- <-. by exists j, es, k.
Qed.

Lemma partition_point_is {A} (f : A -> bool) l n :
  (n <= length l)%nat -> (forall k x, (k < n)%nat -> l !! k = Some x -> f x = true) ->
  (forall x, l !! n = Some x -> f x = false) -> partition_point f l = n.
Proof.
  revert n. induction l as [|x l IH]; intros [|n] Hn Ht Hf; cbn [partition_point length] in *; [done|lia| |].
  - by rewrite (Hf x).
  - rewrite (Ht 0 x) by (done || lia). f_equal. apply IH; [lia| |done]. intros k y Hk. apply (Ht (S k)). lia.
Qed.
Lemma start_offset_le b ds i j : (i <= j)%nat -> (start_offset b ds i <= start_offset b ds j)%nat.
Proof.
  intros H. unfold start_offset. apply Nat.add_le_mono_l. replace j with (i + (j - i))%nat by lia.
  rewrite <- (take_take_drop ds i (j - i)). rewrite fmap_app. generalize (length <$> take i ds). intros l. induction l; simpl; lia.
Qed.
Lemma start_offset_S b ds d es : ds !! d = Some es -> start_offset b ds (S d) = (start_offset b ds d + length es)%nat.
Proof.
  intros H. unfold start_offset. rewrite (take_S_r _ _ _ H), fmap_app.
  generalize (length <$> take d ds). intros l. change (length <$> [es]) with [length es]. induction l; simpl; lia.
Qed.

(** What speaks for one path is a whole segment's share of it, or nothing. *)
Definition spoken (overrides : gmap string (option nat)) (b : list NameEntry) (ds : list (list NameEntry)) (p : string) :
    list NameEntry :=
  match overrides !! p with
  | None => with_path p b
  | Some (Some d) => from_option (with_path p) [] (ds !! d)
  | Some None => []
  end.
Lemma tag_snd d (l : list NameEntry) : (tag d l).*2 = l.
Proof. unfold tag. rewrite <- list_fmap_compose. apply list_fmap_id. Qed.
Lemma filter_tag (g : option nat * NameEntry -> bool) d es :
  List.filter g (tag d es) = tag d (List.filter (fun e => g (d, e)) es).
Proof. unfold tag. induction es as [|e es IH]; [done|]. rewrite fmap_cons. cbn [List.filter]. destruct (g (d, e)); [rewrite fmap_cons|]; by rewrite IH. Qed.
Lemma view_path overrides b ds p : with_path p (view overrides b ds) = normalise <$> spoken overrides b ds p.
Proof.
  unfold view. assert (forall l, with_path p (normalise <$> l) = normalise <$> with_path p l) as Hn.
  { induction l as [|e l IH]; [done|]. unfold with_path in *. rewrite fmap_cons. cbn [List.filter]. cbn [ne_path normalise].
    case_bool_decide; [rewrite fmap_cons|]; by rewrite IH. }
  rewrite Hn. f_equal.
  assert (forall l, with_path p (List.filter (speaks overrides) l).*2 =
    (List.filter (fun x => speaks overrides x && bool_decide (ne_path x.2 = p)) l).*2) as Hw.
  { induction l as [|x l IH]; [done|]. cbn [List.filter]. unfold with_path in *. destruct (speaks _ x); cbn [andb]; [|done].
    rewrite fmap_cons. cbn [List.filter]. case_bool_decide; [rewrite fmap_cons|]; by rewrite IH. }
  rewrite Hw. clear Hn Hw. unfold tagged. rewrite List.filter_app, fmap_app, filter_tag.
  assert (forall d es, List.filter (fun e => speaks overrides (d, e) && bool_decide (ne_path e = p)) es =
    if share (overrides !! p) d then with_path p es else []) as Hone.
  { intros d es. unfold with_path. induction es as [|e es IH]; [by case_match|]. cbn [List.filter]. rewrite IH.
    unfold speaks. cbn [fst snd]. destruct (decide (ne_path e = p)) as [->|Hp].
    - rewrite (bool_decide_eq_true_2 (p = p)) by done. rewrite andb_true_r. by case_match.
    - rewrite (bool_decide_eq_false_2 (ne_path e = p)), andb_false_r by done. by case_match. }
  cbn [snd]. rewrite (Hone None b).
  rewrite tag_snd. unfold spoken.
  assert (forall n, (List.filter (fun x => speaks overrides x && bool_decide (ne_path x.2 = p))
     (concat (imap (fun d es => tag (Some (n + d)%nat) es) ds))).*2 =
    match overrides !! p with Some (Some d) => if decide (n <= d)%nat then from_option (with_path p) [] (ds !! (d - n)%nat) else [] | _ => [] end) as Hd.
  { induction ds as [|es ds' IH]; intros n.
    - cbn. destruct (overrides !! p) as [[d|]|]; [|done|done]. by case_decide.
    - rewrite imap_cons. cbn [concat]. rewrite List.filter_app, fmap_app, filter_tag, tag_snd. cbn [snd].
      rewrite (Hone (Some (n + 0)%nat) es). rewrite Nat.add_0_r.
      assert (imap ((fun d es0 => tag (Some (n + d)%nat) es0) ∘ S) ds' = imap (fun d es0 => tag (Some (S n + d)%nat) es0) ds') as ->.
      { apply imap_ext. intros i x _. cbn. do 2 f_equal. lia. }
      rewrite IH. destruct (overrides !! p) as [[d|]|]; [|done|done]. cbn [share].
      destruct (decide (n = d)) as [<-|Hne].
      + rewrite bool_decide_eq_true_2 by done. rewrite (decide_False (P := (S n <= n)%nat)) by lia. rewrite (decide_True (P := (n <= n)%nat)) by lia. by rewrite Nat.sub_diag, app_nil_r.
      + rewrite bool_decide_eq_false_2 by congruence. cbn [app].
        destruct (decide (S n <= d)%nat); [rewrite (decide_True (P := (n <= d)%nat)) by lia; by replace (d - n)%nat with (S (d - S n)) by lia|].
        rewrite decide_False; [done|]. lia. }
  specialize (Hd 0%nat). cbn [Nat.add] in Hd. rewrite Hd. destruct (overrides !! p) as [[d|]|]; cbn [share].
  - rewrite bool_decide_eq_false_2, Nat.sub_0_r by done. by rewrite decide_True by lia.
  - done.
  - by rewrite bool_decide_eq_true_2, app_nil_r.
Qed.

Section table.
Context (t : NameTable) (b : list NameEntry) (ds : list (list NameEntry)).
Hypothesis Ht : table_ok t b ds.

Lemma base_length : base_len t = length b.
Proof. unfold base_len. apply (Forall2_length _ _ _ (po_entries _ _ _ _ _ (sg_parts _ _ (tk_base _ _ _ Ht)))). Qed.
Lemma delta_lookup d es : ds !! d = Some es -> exists s, t.(deltas) !! d = Some s /\ segment_ok s es /\ Forall lowered es.
Proof.
  intros H. destruct (Forall2_lookup_r _ _ _ _ _ (tk_deltas _ _ _ Ht) H) as (s & Hs & Hok). exists s. split_and!; [done..|].
  destruct (tk_lowered _ _ _ Ht) as [_ Hl]. rewrite Forall_lookup in Hl. by eapply Hl.
Qed.
Lemma delta_of_ok d es k :
  ds !! d = Some es -> (k < length es)%nat -> delta_of t (start_offset b ds d + k) = d.
Proof.
  intros Hd Hk. unfold delta_of. rewrite (tk_offsets _ _ _ Ht).
  pose proof (lookup_lt_Some _ _ _ Hd) as Hlt.
  rewrite (partition_point_is _ _ (S d)); [lia|rewrite length_fmap, length_seq; lia| |].
  - intros j x Hj Hx. apply list_lookup_fmap_Some in Hx as (y & -> & Hy). apply lookup_seq in Hy as [-> _].
    apply Nat.leb_le. pose proof (start_offset_le b ds (0 + j) d ltac:(lia)). lia.
  - intros x Hx. apply list_lookup_fmap_Some in Hx as (y & -> & Hy). apply lookup_seq in Hy as [-> _].
    apply Nat.leb_gt. cbn. rewrite (start_offset_S _ _ _ _ Hd). lia.
Qed.
Lemma start_offset_base d : (length b <= start_offset b ds d)%nat.
Proof. unfold start_offset. lia. Qed.
Lemma slot_lookup i d e : tagged b ds !! i = Some (d, e) ->
  table_entry t i = Some (normalise e) /\ segment_for_index t i = d.
Proof.
  intros [[-> Hi]|(d' & es & k & -> & Hd & Hk & ->)]%tagged_inv.
  - pose proof (lookup_lt_Some _ _ _ Hi). unfold table_entry, segment_for_index. rewrite base_length.
    rewrite (proj2 (Nat.ltb_lt _ _)), (proj2 (Nat.leb_gt _ _)) by done. split; [|done].
    rewrite (segment_entry _ _ (tk_base _ _ _ Ht)) by apply (tk_lowered _ _ _ Ht). by rewrite Hi.
  - pose proof (lookup_lt_Some _ _ _ Hk) as Hlt. pose proof (start_offset_base d'). unfold table_entry, segment_for_index.
    rewrite base_length, (delta_of_ok d' es k Hd Hlt).
    rewrite (proj2 (Nat.ltb_ge _ _)), (proj2 (Nat.leb_le _ _)) by lia. split; [|done].
    rewrite (tk_offsets _ _ _ Ht), list_lookup_fmap, lookup_seq_lt by (by eapply lookup_lt_Some). cbn.
    destruct (delta_lookup d' es Hd) as (s & -> & Hs & Hl). cbn.
    replace (start_offset b ds d' + k - start_offset b ds d')%nat with k by lia. rewrite (segment_entry s es Hs Hl). by rewrite Hk.
Qed.
Lemma active_slot i d e : tagged b ds !! i = Some (d, e) -> is_active_index t i = Some (speaks t.(path_overrides) (d, e)).
Proof.
  intros H. destruct (slot_lookup i d e H) as [He Hd]. unfold is_active_index. rewrite He. cbn [mbind option_bind].
  by rewrite Hd.
Qed.
Lemma active_from_ok n : forall i, (i + n <= length (tagged b ds))%nat ->
  exists l, active_from t (seq i n) = Some l /\
    l.*2 = normalise <$> (List.filter (speaks t.(path_overrides)) (take n (drop i (tagged b ds)))).*2 /\
    forall j e, (j, e) ∈ l <-> (i <= j < i + n)%nat /\ exists d e', tagged b ds !! j = Some (d, e') /\ e = normalise e' /\ speaks t.(path_overrides) (d, e') = true.
Proof.
  induction n as [|n IH]; intros i Hi.
  { exists []. split_and!; [done|done|]. intros j e. split; [by intros ?%not_elem_of_nil|]. intros [? _]. lia. }
  destruct (lookup_lt_is_Some_2 (tagged b ds) i) as [[d e] He]; [lia|].
  destruct (IH (S i)) as (l & Hl & Hl2 & Hin); [lia|]. cbn [seq active_from].
  rewrite (active_slot i d e He). destruct (slot_lookup i d e He) as [-> _]. cbn [mbind option_bind]. rewrite Hl.
  cbn [mbind option_bind]. rewrite (drop_S _ _ _ He). cbn [take List.filter].
  destruct (speaks (path_overrides t) (d, e)) eqn:Es; eexists; (split; [done|]); split.
  - rewrite !fmap_cons. cbn [snd]. by rewrite Hl2.
  - intros j x. rewrite elem_of_cons, Hin. split.
    + intros [[= -> ->]|(Hj & Hx)]; [split; [lia|by exists d, e]|split; [lia|done]].
    + intros (Hj & d' & e' & Hg & -> & Hsp). destruct (decide (j = i)) as [->|]; [|right; split; [lia|by exists d', e']].
      left. congruence.
  - done.
  - intros j x. rewrite Hin. split.
    + intros (Hj & Hx). split; [lia|done].
    + intros (Hj & d' & e' & Hg & -> & Hsp). destruct (decide (j = i)) as [->|]; [congruence|split; [lia|by exists d', e']].
Qed.
Lemma active_indices_ok : exists l, active_indices t = Some l /\ l.*2 = view t.(path_overrides) b ds /\
  forall j e, (j, e) ∈ l <-> exists d e', tagged b ds !! j = Some (d, e') /\ e = normalise e' /\ speaks t.(path_overrides) (d, e') = true.
Proof.
  destruct (active_from_ok t.(slot_len) 0) as (l & Hl & H2 & Hin); [rewrite tagged_length, (tk_slots _ _ _ Ht); lia|].
  exists l. split; [done|]. split.
  - rewrite H2, drop_0, take_ge; [done|]. rewrite tagged_length, (tk_slots _ _ _ Ht). lia.
  - intros j e. rewrite Hin. split; [by intros [_ ?]|]. intros (d & e' & Hg & ?). split; [|by exists d, e'].
    apply lookup_lt_Some in Hg. rewrite tagged_length, <- (tk_slots _ _ _ Ht) in Hg. lia.
Qed.

End table.

(** ** Project counts are exact *)

Lemma filter_perm_length {A} (f : A -> bool) l k : l ≡ₚ k -> length (List.filter f l) = length (List.filter f k).
Proof. induction 1; simpl; repeat case_match; simpl; lia. Qed.
Lemma count_ids (g : NameEntry -> bool) (h : N -> bool) es :
  (forall i e, get es i = Some e -> h i = g e) ->
  length (List.filter h (ids_upto (length es))) = length (List.filter g es).
Proof.
  induction es as [|e es IH] using rev_ind; intros H; [done|].
  rewrite length_app, Nat.add_1_r. unfold ids_upto. rewrite seq_S, fmap_app, !List.filter_app, !length_app.
  unfold ids_upto in IH. rewrite IH by (intros i x Hx; apply H; by apply get_app_l). f_equal.
  cbn. rewrite (H (N.of_nat (length es)) e); [by destruct (g e)|]. unfold get. rewrite Nat2N.id. by apply list_lookup_middle.
Qed.

Section counting.
Context (s : NameSegment) (es : list NameEntry).
Hypothesis Hs : segment_ok s es.

Lemma count_project_loop f l : forall m,
  (forall i, i ∈ l -> (N.to_nat i < length es)%nat) ->
  exists m', foldM (count_project s f) m l = Some m' /\ forall key g,
    counts_of m' key g = (counts_of m key g +
      if decide (g = f) then length (List.filter (fun i => bool_decide (project_at es i = Some key)) l) else 0)%nat.
Proof.
  induction l as [|i l IH]; intros m Hl; cbn [foldM].
  { exists m. split; [done|]. intros key g. cbn [List.filter length]. destruct (decide (g = f)); lia. }
  destruct (in_range _ _ _ _ _ (sg_parts _ _ Hs) i) as (c & e & Hc & He & Hd); [apply Hl; left|].
  unfold count_project at 2. rewrite Hc. cbn [mbind option_bind]. pose proof (den_project _ _ _ _ _ Hd) as Hp.
  assert (project_at es i = ne_project e) as Hat by (unfold project_at; by rewrite He).
  destruct (ne_project e) as [k|] eqn:Ek.
  - destruct Hp as [Hk Hne]. rewrite (proj2 (N.eqb_neq _ _) Hne), Hk. cbn [mbind option_bind].
    destruct (IH (<[k := bump f (default (0, 0)%nat (m !! k))]> m)) as (m' & -> & Hm); [intros; apply Hl; by right|].
    exists m'. split; [done|]. intros key g. rewrite Hm. cbn [List.filter]. rewrite Hat. unfold counts_of.
    destruct (decide (k = key)) as [->|Hkk].
    + rewrite lookup_insert_eq, bool_decide_eq_true_2 by done. cbn [default from_option id].
      unfold bump, update_slot, slot. destruct (default (0, 0)%nat (m !! key)) as [c0 g0]. destruct f, g; cbn [fst snd]; case_decide; cbn [length]; try done; lia.
    + rewrite lookup_insert_ne, bool_decide_eq_false_2 by congruence. done.
  - rewrite Hp, N.eqb_refl. cbn [mbind option_bind]. destruct (IH m) as (m' & -> & Hm); [intros; apply Hl; by right|].
    exists m'. split; [done|]. intros key g. rewrite Hm. cbn [List.filter]. rewrite Hat. by rewrite bool_decide_eq_false_2.
Qed.
Lemma posted_count f key path :
  length (List.filter (fun i => bool_decide (project_at es i = Some key))
    (List.filter (fun i => bool_decide (path_at es i = path)) (family_ids es f))) = pcount key f (with_path path es).
Proof.
  unfold family_ids, sorted_ids, pcount, with_path. rewrite !filter_filter.
  rewrite (filter_perm_length _ _ _ (sort_by_perm _ _)).
  apply count_ids. intros i e He. unfold family_at, path_at, project_at. rewrite He. cbn [from_option mbind option_bind].
  destruct (bool_decide (ne_family e = f)), (bool_decide (ne_path e = path)); done.
Qed.
Lemma project_counts_ok path :
  exists m, project_family_counts_for_path s path = Some m /\ forall key f, counts_of m key f = pcount key f (with_path path es).
Proof.
  unfold project_family_counts_for_path. destruct (s.(path_ids) !! path) as [id|] eqn:E.
  - pose proof (proj1 (sg_ids _ _ Hs path id) E) as Hg.
    change (path_postings_by_family s).1 with (slot CFamily (path_postings_by_family s)).
    change (path_postings_by_family s).2 with (slot FamilyGo (path_postings_by_family s)).
    rewrite (sg_paths _ _ Hs CFamily id path Hg). cbn [mbind option_bind].
    assert (forall f i, i ∈ List.filter (fun i => bool_decide (path_at es i = path)) (family_ids es f) -> (N.to_nat i < length es)%nat) as Hr.
    { intros f i [Hi _]%elem_of_filter_bool. by eapply family_ids_range. }
    destruct (count_project_loop CFamily _ ∅ (Hr CFamily)) as (m1 & -> & H1). cbn [mbind option_bind].
    rewrite (sg_paths _ _ Hs FamilyGo id path Hg). cbn [mbind option_bind].
    destruct (count_project_loop FamilyGo _ m1 (Hr FamilyGo)) as (m2 & -> & H2).
    exists m2. split; [done|]. intros key f. rewrite H2, H1, !posted_count. unfold counts_of. rewrite lookup_empty.
    destruct f; cbn [slot fst snd from_option]; repeat case_decide; try done; lia.
  - exists ∅. split; [done|]. intros key f. unfold counts_of. rewrite lookup_empty.
    assert (with_path path es = []) as ->; [|by destruct f].
    destruct (decide (with_path path es = [])) as [|Hne]; [done|]. exfalso.
    apply (to_occurs _ _ _ _ (sg_tables _ _ Hs)), (arena_elem _ _ _ (sg_ids _ _ Hs)) in Hne as [id Hid]. congruence.
Qed.

Lemma adjust_keys_ok add l : forall active : gmap ProjectKey (nat * nat),
  NoDup l.*1 ->
  (forall k v f, (k, v) ∈ l -> if add : bool then (N.of_nat (counts_of active k f + slot f v) <= usize_max)%N else (slot f v <= counts_of active k f)%nat) ->
  exists active', foldM (adjust_key add) active l = Some active' /\ forall key f,
    counts_of active' key f =
      let change := slot f (default (0, 0)%nat (list_to_map (M := gmap ProjectKey (nat * nat)) l !! key)) in
      if add then (counts_of active key f + change)%nat else (counts_of active key f - change)%nat.
Proof.
  induction l as [|[k v] l IH]; intros active Hnd Hb; cbn [foldM].
  { exists active. split; [done|]. intros key f. cbn. rewrite lookup_empty. by destruct f, add; cbn; lia. }
  rewrite fmap_cons in Hnd. apply NoDup_cons in Hnd as [Hk Hnd]. cbn [fst] in Hk.
  assert (exists c g, adjust_key add active (k, v) = Some (<[k := (c, g)]> active) /\
    forall f, slot f (c, g) = if add then (counts_of active k f + slot f v)%nat else (counts_of active k f - slot f v)%nat) as (c & g & -> & Hcg).
  { unfold adjust_key, adjust_slot. cbn [fst snd]. pose proof (Hb k v CFamily ltac:(left)) as H1. pose proof (Hb k v FamilyGo ltac:(left)) as H2.
    unfold counts_of in *. destruct add; cbn [slot] in *.
    - rewrite !saturating_add_small by lia. cbn [mbind option_bind]. eexists _, _. split; [done|]. intros []; cbn; lia.
    - rewrite !(proj2 (Nat.leb_le _ _)) by done. cbn [mbind option_bind]. eexists _, _. split; [done|]. intros []; done. }
  cbn [mbind option_bind].
  assert (forall key f, key <> k -> counts_of (<[k := (c, g)]> active) key f = counts_of active key f) as Hother.
  { intros key f Hne. unfold counts_of. by rewrite lookup_insert_ne. }
  destruct (IH (<[k := (c, g)]> active) Hnd) as (active' & -> & Ha).
  { intros k' v' f Hin. rewrite Hother; [apply Hb; by right|]. intros ->. apply Hk. by apply (list_elem_of_fmap_2 fst) in Hin. }
  exists active'. split; [done|]. intros key f. rewrite Ha. cbn [list_to_map foldr uncurry]. cbn zeta.
  destruct (decide (key = k)) as [->|Hne].
  - rewrite (not_elem_of_list_to_map_1 l k Hk), lookup_insert_eq. cbn [default from_option id].
    unfold counts_of at 1 2. rewrite lookup_insert_eq. cbn [default from_option id]. rewrite Hcg. destruct add, f; cbn; lia.
  - rewrite Hother, lookup_insert_ne by done. done.
Qed.
Lemma adjust_ok active path add :
  (forall key f, if add : bool then (N.of_nat (counts_of active key f + pcount key f (with_path path es)) <= usize_max)%N
                 else (pcount key f (with_path path es) <= counts_of active key f)%nat) ->
  exists active', adjust_project_family_counts active s path add = Some active' /\ forall key f,
    counts_of active' key f = if add then (counts_of active key f + pcount key f (with_path path es))%nat
                              else (counts_of active key f - pcount key f (with_path path es))%nat.
Proof.
  intros Hb. unfold adjust_project_family_counts. destruct (project_counts_ok path) as (m & -> & Hm). cbn [mbind option_bind].
  destruct (adjust_keys_ok add (map_to_list m) active) as (active' & -> & Ha).
  { apply NoDup_fst_map_to_list. }
  { intros k v f Hin. apply elem_of_map_to_list in Hin. specialize (Hb k f). rewrite <- Hm in Hb. unfold counts_of at 2 in Hb.
    rewrite Hin in Hb. destruct add; [done|]. unfold counts_of at 1 in Hb. by rewrite Hin in Hb. }
  cbn [mbind option_bind]. eexists. split; [done|]. intros key f.
  transitivity (counts_of active' key f).
  { unfold counts_of. rewrite map_lookup_filter. destruct (active' !! key) as [[c g]|] eqn:E; cbn; [|done]. case_guard as Hz; [done|].
    cbn. injection Hz as -> ->. by destruct f. }
  rewrite Ha, list_to_map_to_list. cbn zeta. rewrite <- Hm. done.
Qed.
End counting.

(** ** An update is exactly the replacement of the changed paths *)

Lemma mapM_all {A B} (f : A -> option B) (g : A -> B) l : (forall x, x ∈ l -> f x = Some (g x)) -> mapM f l = Some (g <$> l).
Proof. intros H. apply mapM_Some, Forall2_fmap_r, Forall_Forall2_diag, Forall_forall. exact H. Qed.
Lemma List_filter_fmap {A B} (f : A -> B) (g : B -> bool) l : List.filter g (f <$> l) = f <$> List.filter (g ∘ f) l.
Proof. induction l as [|x l IH]; [done|]. rewrite fmap_cons. cbn [List.filter compose]. unfold compose in *. destruct (g (f x)); [rewrite fmap_cons|]; by rewrite IH. Qed.
Lemma filter_split_length {A} (g h : A -> bool) l :
  length (List.filter h l) = (length (List.filter h (List.filter g l)) + length (List.filter h (List.filter (negb ∘ g) l)))%nat.
Proof. induction l as [|x l IH]; [done|]. cbn [List.filter compose]. destruct (g x); cbn [negb List.filter]; destruct (h x); cbn [length]; rewrite IH; unfold compose; lia. Qed.
Lemma filter_all_length {A} (g h : A -> bool) (l : list A) : (length (List.filter g l) <= length l)%nat.
Proof. apply List.filter_length_le. Qed.
Lemma view_other overrides overrides' b ds p :
  (forall q, q <> p -> overrides' !! q = overrides !! q) ->
  List.filter (negb ∘ (fun e => bool_decide (ne_path e = p))) (view overrides' b ds) =
  List.filter (negb ∘ (fun e => bool_decide (ne_path e = p))) (view overrides b ds).
Proof.
  intros H. unfold view. rewrite !List_filter_fmap, !filter_filter. do 2 f_equal. apply List.filter_ext. intros [d e].
  unfold speaks, compose. cbn [fst snd normalise ne_path]. destruct (decide (ne_path e = p)) as [->|Hne].
  - by rewrite bool_decide_eq_true_2, !andb_false_r.
  - by rewrite H.
Qed.
(** Moving one path changes any count of the view by the path's own share. *)
Lemma view_move (h : NameEntry -> bool) overrides overrides' b ds p :
  (forall q, q <> p -> overrides' !! q = overrides !! q) -> (forall e, h (normalise e) = h e) ->
  (length (List.filter h (view overrides' b ds)) + length (List.filter h (spoken overrides b ds p)) =
   length (List.filter h (view overrides b ds)) + length (List.filter h (spoken overrides' b ds p)))%nat.
Proof.
  intros H Hh. set (g := fun e => bool_decide (ne_path e = p)).
  assert (forall es, length (List.filter h (normalise <$> es)) = length (List.filter h es)) as Hn.
  { intros es. rewrite List_filter_fmap, length_fmap. f_equal. apply List.filter_ext. apply Hh. }
  rewrite (filter_split_length g h (view overrides' b ds)), (filter_split_length g h (view overrides b ds)).
  rewrite (view_other _ _ b ds p H : List.filter (negb ∘ g) _ = _).
  rewrite (view_path overrides b ds p : List.filter g _ = _), (view_path overrides' b ds p : List.filter g _ = _), !Hn.
  change (fun e => bool_decide (ne_path e = p)) with g. lia.
Qed.
Lemma pcount_normal key f e : bool_decide (ne_family (normalise e) = f) && bool_decide (ne_project (normalise e) = Some key) =
  bool_decide (ne_family e = f) && bool_decide (ne_project e = Some key).
Proof. done. Qed.
Lemma view_length overrides b ds : (length (view overrides b ds) <= start_offset b ds (length ds))%nat.
Proof. unfold view. rewrite !length_fmap, <- tagged_length. apply List.filter_length_le. Qed.
Lemma pcount_le key f es : (pcount key f es <= length es)%nat.
Proof. apply List.filter_length_le. Qed.
Lemma length_all {A} (l : list A) : length (List.filter (fun _ => true) l) = length l.
Proof. induction l; [done|]. cbn. by f_equal. Qed.

Section update.
Context (t : NameTable) (b : list NameEntry) (ds : list (list NameEntry)) (es : list NameEntry) (fresh : NameSegment).
Hypothesis Ht : table_ok t b ds.
Hypothesis Hfresh : segment_ok fresh es.
Hypothesis Hlow : Forall lowered es.
Hypothesis Hsize : (N.of_nat (t.(slot_len) + length es) <= usize_max)%N.
Local Abbreviation over := t.(path_overrides).
Local Abbreviation after := (ds ++ [es]).

Definition moved (done_ : list string) (p : string) : option (option nat) :=
  if decide (p ∈ done_) then Some (if decide (with_path p es = []) then None else Some (length ds)) else over !! p.
Record updated (done_ : list string) (st : gmap ProjectKey (nat * nat) * nat * gmap string (option nat)) : Prop := {
  up_counts key f : counts_of st.1.1 key f = pcount key f (view st.2 b after);
  up_len : st.1.2 = length (view st.2 b after);
  up_over p : st.2 !! p = moved done_ p;
}.
Lemma total_slots : start_offset b after (length after) = (t.(slot_len) + length es)%nat.
Proof.
  rewrite (tk_slots _ _ _ Ht). unfold start_offset. rewrite !take_ge by done. rewrite fmap_app, sum_list_with_app. change (length <$> [es]) with [length es]. clear Hsize. cbn. lia.
Qed.
Lemma target_bound p d : over !! p = Some (Some d) -> (d < length ds)%nat.
Proof. intros H. destruct (tk_targets _ _ _ Ht p d H) as (e & He & _). by eapply lookup_lt_Some. Qed.
Lemma view_before overrides :
  (forall p d, overrides !! p = Some (Some d) -> (d < length ds)%nat) -> view overrides b after = view overrides b ds.
Proof.
  intros H. unfold view. rewrite tagged_snoc, List.filter_app, fmap_app, filter_tag.
  replace (List.filter (fun e => speaks overrides (Some (length ds), e)) es) with (@nil NameEntry); [by rewrite app_nil_r|].
  symmetry. apply List_filter_nil. intros e _. unfold speaks. cbn [fst snd]. destruct (overrides !! ne_path e) as [[d|]|] eqn:E; [|done|done].
  apply bool_decide_eq_false_2. specialize (H _ _ E). intros [= Heq]. lia.
Qed.
Lemma spoken_moved done_ st p : updated done_ st ->
  spoken st.2 b after p = if decide (p ∈ done_) then with_path p es else spoken over b ds p.
Proof.
  intros Hu. unfold spoken. rewrite (up_over _ _ Hu). unfold moved. case_decide as Hp.
  - destruct (decide (with_path p es = [])) as [->|Hne]; [done|]. by rewrite list_lookup_middle.
  - destruct (over !! p) as [[d|]|] eqn:E; [|done|done]. pose proof (target_bound _ _ E). by rewrite lookup_app_l.
Qed.
(** The segment that spoke for an untouched path, and its share. *)
Lemma old_segment_ok p : exists old, old_segment t p = Some old /\
  match old with Some s => exists e, segment_ok s e /\ spoken over b ds p = with_path p e | None => spoken over b ds p = [] end.
Proof.
  unfold old_segment, spoken. destruct (over !! p) as [[d|]|] eqn:E.
  - destruct (lookup_lt_is_Some_2 ds d (target_bound _ _ E)) as [e He]. destruct (delta_lookup t b ds Ht d e He) as (s & -> & Hs & _).
    exists (Some s). split; [done|]. exists e. by rewrite He.
  - by exists None.
  - exists (Some t.(base)). split; [done|]. exists b. split; [apply Ht|done].
Qed.
Lemma share_le (h : NameEntry -> bool) overrides p : (forall e, h (normalise e) = h e) ->
  (length (List.filter h (spoken overrides b after p)) <= length (List.filter h (view overrides b after)))%nat.
Proof.
  intros Hh. rewrite (filter_split_length (fun x => bool_decide (ne_path x = p)) h (view overrides b after)).
  rewrite (view_path overrides b after p : List.filter _ _ = _), List_filter_fmap, length_fmap.
  rewrite (List.filter_ext _ _ (fun e => Hh e : (h ∘ normalise) e = h e)). apply Nat.le_add_r.
Qed.
(** Taking the path's old share out of the counts. *)
Lemma remove_old done_ p st : p ∉ done_ -> updated done_ st ->
  exists old counts n, old_segment t p = Some old /\
    match old with Some s => adjust_project_family_counts st.1.1 s p false | None => Some st.1.1 end = Some counts /\
    match old with Some s => path_count s p | None => Some 0%N end = Some n /\
    N.to_nat n = length (spoken over b ds p) /\
    forall key f, counts_of counts key f = (pcount key f (view st.2 b after) - pcount key f (spoken over b ds p))%nat.
Proof.
  intros Hp Hu. pose proof (spoken_moved done_ st p Hu) as Hold. rewrite decide_False in Hold by done.
  destruct (old_segment_ok p) as (old & Ho & Hspoken). exists old. rewrite Ho. destruct old as [s|].
  - destruct Hspoken as (e & Hs & He). destruct (adjust_ok s e Hs st.1.1 p false) as (c1 & -> & H1).
    { intros key f. rewrite (up_counts _ _ Hu), <- He, <- Hold. by apply share_le. }
    exists c1, (N.of_nat (length (with_path p e))). rewrite (segment_path_count s e Hs), Nat2N.id, He. split_and!; [done..|].
    intros key f. by rewrite H1, (up_counts _ _ Hu).
  - exists st.1.1, 0%N. rewrite Hspoken. split_and!; [done..|]. intros key f. rewrite (up_counts _ _ Hu). cbn. lia.
Qed.
Lemma update_step done_ p st : p ∉ done_ -> updated done_ st ->
  exists st', update_path t fresh (length t.(deltas)) st p = Some st' /\ updated (p :: done_) st'.
Proof.
  intros Hp Hu. pose proof (spoken_moved done_ st p Hu) as Hold. rewrite decide_False in Hold by done.
  destruct (remove_old done_ p st Hp Hu) as (old & counts1 & n & Ho & Hc & Hn & Hnl & Hc1).
  destruct st as [[counts len] overrides]. cbn [fst snd] in *.
  set (overrides' := <[p := if decide (with_path p es = []) then None else Some (length ds)]> overrides).
  assert (forall q, q <> p -> overrides' !! q = overrides !! q) as Hother by (intros; by apply lookup_insert_ne).
  assert (spoken overrides' b after p = with_path p es) as Hnew.
  { unfold spoken, overrides'. rewrite lookup_insert_eq. case_decide as E; [done|]. by rewrite list_lookup_middle. }
  assert (forall key f, (pcount key f (view overrides' b after) + pcount key f (spoken over b ds p) =
    pcount key f (view overrides b after) + pcount key f (with_path p es))%nat) as Hcount.
  { intros key f. rewrite <- Hold, <- Hnew. by apply view_move. }
  assert ((length (view overrides' b after) + length (spoken over b ds p) =
    length (view overrides b after) + length (with_path p es))%nat) as Hlen.
  { rewrite <- Hold, <- Hnew, <- !(length_all (view _ _ _)), <- !(length_all (spoken _ _ _ _)). by apply view_move. }
  assert (forall key f, (pcount key f (spoken over b ds p) <= pcount key f (view overrides b after))%nat) as Hle.
  { intros key f. rewrite <- Hold. by apply share_le. }
  unfold update_path. rewrite Ho. cbn [mbind option_bind]. rewrite Hc. cbn [mbind option_bind].
  destruct (adjust_ok fresh es Hfresh counts1 p true) as (counts2 & -> & Hc2).
  { intros key f. rewrite Hc1. specialize (Hcount key f). specialize (Hle key f). pose proof (pcount_le key f (view overrides' b after)).
    pose proof (view_length overrides' b after) as H2. rewrite total_slots in H2. lia. }
  cbn [mbind option_bind]. rewrite Hn. cbn [mbind option_bind].
  rewrite (segment_path_count fresh es Hfresh), (segment_interned fresh es Hfresh). cbn [mbind option_bind]. eexists. split; [done|].
  rewrite Nat2N.id, Hnl, (Forall2_length _ _ _ (tk_deltas _ _ _ Ht)).
  assert (<[default p (if decide (with_path p es = []) then None else Some p) :=
    if (0 <? N.of_nat (length (with_path p es)))%N then Some (length ds) else None]> overrides = overrides') as ->.
  { unfold overrides'. destruct (decide (with_path p es = [])) as [->|Hne]; [done|]. cbn [default from_option]. by destruct (with_path p es). }
  split; cbn [fst snd].
  - intros key f. specialize (Hcount key f). specialize (Hle key f). rewrite Hc2, Hc1. lia.
  - pose proof (up_len _ _ Hu) as Hl0. cbn [fst snd] in Hl0. pose proof (share_le (fun _ => true) overrides p (fun _ => eq_refl)) as Hs.
    rewrite !length_all, Hold in Hs. cbn [snd]. lia.
  - intros q. unfold moved. destruct (decide (q = p)) as [->|Hq].
    + unfold overrides'. rewrite lookup_insert_eq, (decide_True (P := p ∈ p :: done_)); [done|by left].
    + rewrite Hother by done. rewrite (up_over _ _ Hu). unfold moved. cbn [snd]. repeat case_decide; set_solver.
Qed.
Lemma update_loop l : forall done_ st, updated done_ st -> NoDup l -> (forall p, p ∈ l -> p ∉ done_) ->
  exists done' st', foldM (update_path t fresh (length t.(deltas))) st l = Some st' /\ updated done' st' /\
    forall p, p ∈ done' <-> p ∈ l \/ p ∈ done_.
Proof.
  induction l as [|p l IH]; intros done_ st Hu Hnd Hl; cbn [foldM].
  { exists done_, st. split_and!; [done|done|]. intros p. split; [by right|]. by intros [?%not_elem_of_nil|]. }
  apply NoDup_cons in Hnd as [Hp Hnd]. destruct (update_step done_ p st) as (st1 & -> & Hu1); [apply Hl; left|done|].
  cbn [mbind option_bind]. destruct (IH (p :: done_) st1 Hu1 Hnd) as (done' & st' & -> & Hu' & Hin).
  { intros q Hq [->|Hd]%elem_of_cons; [done|]. by apply (Hl q); [right|]. }
  exists done', st'. split_and!; [done|done|]. intros q. rewrite Hin, !elem_of_cons. tauto.
Qed.
Lemma update_start : updated [] (t.(active_project_family_counts), t.(active_len), over).
Proof.
  split; cbn [fst snd].
  - intros key f. rewrite (view_before over target_bound). apply Ht.
  - rewrite (view_before over target_bound). apply Ht.
  - intros p. unfold moved. by rewrite decide_False by apply not_elem_of_nil.
Qed.
Lemma fresh_paths_ok l : exists held, fresh_paths fresh l = Some held /\ forall p, p ∈ held <-> p ∈ l /\ with_path p es <> [].
Proof.
  unfold fresh_paths. rewrite (mapM_all _ (fun p => (p, N.of_nat (length (with_path p es)))) l).
  2:{ intros p _. by rewrite (segment_path_count fresh es Hfresh). }
  cbn [mbind option_bind]. rewrite List_filter_fmap.
  rewrite (mapM_all _ fst).
  2:{ intros [p n] H. apply list_elem_of_fmap in H as (q & [= -> ->] & Hq). apply elem_of_filter_bool in Hq as [_ Hq]. cbn in Hq.
    cbn. rewrite (segment_interned fresh es Hfresh). cbn. destruct (decide (with_path q es = [])) as [E|]; [by rewrite E in Hq|done]. }
  cbn [mbind option_bind]. eexists. split; [done|]. intros p. unfold sort_paths. rewrite elem_of_sort_by, list_elem_of_fmap.
  split.
  - intros ([q n] & -> & H). apply list_elem_of_fmap in H as (q' & [= -> ->] & Hq). apply elem_of_filter_bool in Hq as [Hq Hn].
    split; [done|]. intros E. unfold compose in Hn. cbn [fst snd] in *. by rewrite E in Hn.
  - intros [Hp Hne]. exists (p, N.of_nat (length (with_path p es))). split; [done|]. apply list_elem_of_fmap. exists p. split; [done|].
    apply elem_of_filter_bool. split; [done|]. cbn. by destruct (with_path p es).
Qed.
Lemma retain_ok changed d held p : retain_paths t changed !! d = Some held ->
  p ∈ held <-> over !! p = Some (Some d) /\ p ∉ changed.
Proof.
  intros H. unfold retain_paths in H. rewrite list_lookup_imap in H. destruct (t.(active_delta_paths) !! d) as [h|] eqn:E; [|done].
  cbn in H. destruct (tk_delta_paths _ _ _ Ht) as [_ Hd]. specialize (Hd d h p E). case_bool_decide as Hc; injection H as <-.
  - rewrite elem_of_filter_bool, bool_decide_eq_true. by rewrite Hd.
  - rewrite Hd. split; [|by intros [? _]]. intros Ho. split; [done|]. intros Hp. apply Hc. by exists p.
Qed.
Lemma retain_length changed : length (retain_paths t changed) = length ds.
Proof. unfold retain_paths. rewrite length_imap. apply (tk_delta_paths _ _ _ Ht). Qed.
Lemma start_offset_snoc d : (d <= length ds)%nat -> start_offset b after d = start_offset b ds d.
Proof. intros H. unfold start_offset. by rewrite take_app_le. Qed.
Lemma updated_table changed : segment_from_entries es = Some fresh ->
  exists t', with_updated_entries t changed es = Some t' /\ table_ok t' b after /\
    (forall p, t'.(path_overrides) !! p = moved (elements changed) p) /\
    t'.(direct_include_overrides) = t.(direct_include_overrides).
Proof.
  intros Hes. unfold with_updated_entries. rewrite Hes. cbn [mbind option_bind].
  destruct (update_loop (elements changed) [] _ update_start (NoDup_elements changed)) as (done' & [[counts len] overrides] & -> & Hu & Hin).
  { intros p _. apply not_elem_of_nil. }
  cbn [mbind option_bind]. destruct (fresh_paths_ok (elements changed)) as (held & -> & Hheld). cbn [mbind option_bind].
  assert (forall p, overrides !! p = moved (elements changed) p) as Hover.
  { intros p. rewrite (up_over _ _ Hu p : overrides !! p = _). unfold moved. specialize (Hin p).
    destruct (decide (p ∈ done')), (decide (p ∈ elements changed)); try done; exfalso; set_solver. }
  eexists. split; [done|]. split; [|done]. destruct (tk_lowered _ _ _ Ht) as [Hl1 Hl2].
  split; cbn [base deltas path_overrides active_base_paths active_delta_paths active_project_family_counts delta_offsets active_len slot_len].
  - apply Ht.
  - apply Forall2_app; [apply Ht|by constructor].
  - split; [done|]. apply Forall_app. split; [done|by constructor].
  - rewrite (tk_offsets _ _ _ Ht), length_app, Nat.add_1_r, seq_S, fmap_app. f_equal.
    + apply list_fmap_ext. intros i x Hx. apply lookup_seq in Hx as [-> Hx]. by rewrite start_offset_snoc by lia.
    + cbn. rewrite start_offset_snoc by lia. by rewrite (tk_slots _ _ _ Ht).
  - rewrite total_slots. f_equal. apply (Forall2_length _ _ _ (po_entries _ _ _ _ _ (sg_parts _ _ Hfresh))).
  - intros p d. rewrite Hover. unfold moved. case_decide as Hp.
    + destruct (decide (with_path p es = [])) as [|Hne]; [done|]. intros [= <-]. exists es. by rewrite list_lookup_middle.
    + intros Ho. destruct (tk_targets _ _ _ Ht p d Ho) as (e & He & Hne). exists e. split; [|done]. by apply lookup_app_l_Some.
  - exact (up_len _ _ Hu).
  - exact (up_counts _ _ Hu).
  - intros p. rewrite elem_of_filter_bool, bool_decide_eq_true, (tk_base_paths _ _ _ Ht), Hover. unfold moved.
    destruct (decide (p ∈ elements changed)) as [Hp|Hp]; rewrite elem_of_elements in Hp; [|tauto]. split; [tauto|by intros []].
  - rewrite !length_app, retain_length. split; [done|]. intros d hd p Hd. rewrite Hover. unfold moved.
    apply lookup_app_Some in Hd as [Hd|[Hge Hd]].
    + pose proof (lookup_lt_Some _ _ _ Hd) as Hlt. rewrite retain_length in Hlt. rewrite (retain_ok _ _ _ _ Hd).
      destruct (decide (p ∈ elements changed)) as [Hp|Hp]; rewrite elem_of_elements in Hp; [|tauto]. split; [tauto|].
      destruct (decide (with_path p es = [])); [done|]. intros [= <-]. lia.
    + rewrite retain_length in Hge, Hd. apply list_lookup_singleton_Some in Hd as [Hz <-]. assert (d = length ds) as -> by lia.
      rewrite Hheld. destruct (decide (p ∈ elements changed)) as [Hp|Hp].
      * destruct (decide (with_path p es = [])); naive_solver.
      * split; [by intros []|]. intros Ho. pose proof (target_bound _ _ Ho). lia.
Qed.
Lemma view_moved (changed : gset string) overrides : (forall p, overrides !! p = moved (elements changed) p) ->
  view overrides b after = List.filter (fun e => bool_decide (e.(ne_path) ∉ changed)) (view over b ds)
    ++ List.filter (fun e => bool_decide (e.(ne_path) ∈ changed)) (normalise <$> es).
Proof.
  intros Hover. unfold view. rewrite tagged_snoc, List.filter_app, !fmap_app. f_equal.
  - rewrite !List_filter_fmap, filter_filter. do 2 f_equal. apply List.filter_ext_in. intros [d e] Hx%list_elem_of_In.
    apply list_elem_of_lookup in Hx as [i Hx]. unfold speaks, compose. cbn [fst snd normalise ne_path]. rewrite Hover. unfold moved.
    destruct (decide (ne_path e ∈ elements changed)) as [Hp|Hp]; rewrite elem_of_elements in Hp.
    + rewrite (bool_decide_eq_false_2 (ne_path e ∉ changed)), andb_false_r by tauto.
      destruct (decide (with_path (ne_path e) es = [])); [done|]. apply bool_decide_eq_false_2.
      apply tagged_inv in Hx as [[-> _]|(d' & x & k & -> & Hd & _)]; [done|]. apply lookup_lt_Some in Hd. intros [= ->]. lia.
    + by rewrite (bool_decide_eq_true_2 (ne_path e ∉ changed)), andb_true_r.
  - rewrite filter_tag, List_filter_fmap, tag_snd. f_equal.
    apply List.filter_ext_in. intros e He%list_elem_of_In. unfold speaks, compose. cbn [fst snd normalise ne_path]. rewrite Hover.
    unfold moved. destruct (decide (ne_path e ∈ elements changed)) as [Hp|Hp]; rewrite elem_of_elements in Hp.
    + rewrite (bool_decide_eq_true_2 (ne_path e ∈ changed)) by done. rewrite decide_False; [by apply bool_decide_eq_true_2|by apply with_path_elem].
    + rewrite (bool_decide_eq_false_2 (ne_path e ∈ changed)) by done. destruct (over !! ne_path e) as [[d|]|] eqn:E; [|done|done].
      apply bool_decide_eq_false_2. apply target_bound in E. intros [= Heq]. lia.
Qed.
End update.

(** ** A fresh table *)

Lemma view_fresh b : view ∅ b [] = normalise <$> b.
Proof.
  unfold view, tagged. cbn [imap concat]. rewrite app_nil_r, filter_tag, tag_snd. f_equal.
  apply filter_true. intros e _. unfold speaks. cbn [fst snd]. by rewrite lookup_empty.
Qed.
Lemma pcount_normalised key f es : pcount key f (normalise <$> es) = pcount key f es.
Proof. unfold pcount. by rewrite List_filter_fmap, length_fmap. Qed.
Lemma with_path_normalised p l : with_path p (normalise <$> l) = normalise <$> with_path p l.
Proof. unfold with_path. by rewrite List_filter_fmap. Qed.
Lemma project_rows f key es :
  length (List.filter (fun i => bool_decide (project_at es i = Some key)) (family_ids es f)) = pcount key f es.
Proof.
  unfold family_ids, sorted_ids, pcount. rewrite !filter_filter, (filter_perm_length _ _ _ (sort_by_perm _ _)).
  apply count_ids. intros i e He. unfold family_at, project_at. by rewrite He.
Qed.
Lemma segment_paths_elem s b p : segment_ok s b -> p ∈ s.(paths) <-> with_path p b <> [].
Proof. intros Hs. apply (to_occurs _ _ _ _ (sg_tables _ _ Hs)). Qed.
Lemma segment_entries_length s b : segment_ok s b -> length s.(entries) = length b.
Proof. intros Hs. apply (Forall2_length _ _ _ (po_entries _ _ _ _ _ (sg_parts _ _ Hs))). Qed.
Lemma fresh_table s b overrides : segment_ok s b -> Forall lowered b ->
  table_ok (with_direct_include_overrides (from_base_segment s) overrides) b [].
Proof.
  intros Hs Hl. pose proof (segment_entries_length s b Hs) as Hlen.
  split; cbn [with_direct_include_overrides from_base_segment base deltas path_overrides active_base_paths active_delta_paths active_project_family_counts delta_offsets active_len slot_len].
  - done.
  - constructor.
  - split; [done|constructor].
  - done.
  - rewrite Hlen. unfold start_offset. cbn [length take fmap list_fmap sum_list sum_list_with]. symmetry. apply Nat.add_0_r.
  - intros p d. by rewrite lookup_empty.
  - by rewrite view_fresh, length_fmap.
  - intros key f. rewrite view_fresh, pcount_normalised, <- project_rows, <- (proj2 (sg_projects _ _ Hs) f key).
    unfold counts_of, posted. rewrite lookup_fmap. destruct (s.(by_project) !! key) as [[id [pc pg]]|]; by destruct f.
  - intros p. unfold sort_paths. rewrite elem_of_sort_by, (segment_paths_elem s b p Hs), lookup_empty. tauto.
  - split; [done|]. intros d held p. by rewrite lookup_nil.
Qed.

(** ** Compaction *)

Section compaction.
Context (t : NameTable) (b : list NameEntry) (ds : list (list NameEntry)).
Hypothesis Ht : table_ok t b ds.
Hypothesis Hfits : (120 * N.of_nat t.(active_len) < UNSEEN_PATH_ID)%N.
Local Abbreviation over := t.(path_overrides).
(** What the deltas still show. *)
Definition spoken_deltas : list NameEntry := view over [] ds.

Lemma view_lowered overrides c : Forall lowered c -> Forall (Forall lowered) ds -> Forall lowered (view overrides c ds).
Proof.
  intros Hc Hd. apply Forall_forall. intros e He. unfold view in He. apply list_elem_of_fmap in He as (e' & -> & He').
  apply list_elem_of_fmap in He' as ([d x] & -> & Hx). apply elem_of_filter_bool in Hx as [Hx _].
  apply list_elem_of_lookup in Hx as [i Hx]. change (lowered x).
  apply tagged_inv in Hx as [[_ Hx]|(d' & es & k & _ & Hd' & Hk & _)].
  - rewrite Forall_lookup in Hc. by eapply Hc.
  - rewrite Forall_lookup in Hd. specialize (Hd _ _ Hd'). rewrite Forall_lookup in Hd. by eapply Hd.
Qed.
Lemma view_split overrides b0 ds0 : view overrides b0 ds0 =
  (normalise <$> List.filter (fun e => speaks overrides (None, e)) b0) ++ view overrides [] ds0.
Proof.
  unfold view, tagged. rewrite List.filter_app, !fmap_app, filter_tag, tag_snd. done.
Qed.
Lemma view_normal overrides c : normalise <$> view overrides c ds = view overrides c ds.
Proof. unfold view. rewrite <- list_fmap_compose. apply list_fmap_ext. intros i e _. apply normalise_idem. Qed.
Lemma deltas_path p : with_path p spoken_deltas = normalise <$> match over !! p with Some (Some d) => from_option (with_path p) [] (ds !! d) | _ => [] end.
Proof. unfold spoken_deltas. rewrite view_path. unfold spoken. by destruct (over !! p) as [[d|]|]. Qed.
Lemma deltas_speak p : with_path p spoken_deltas <> [] <-> exists d, over !! p = Some (Some d).
Proof.
  rewrite deltas_path. split.
  - destruct (over !! p) as [[d|]|]; [by exists d|done|done].
  - intros [d Hd]. rewrite Hd. destruct (tk_targets _ _ _ Ht p d Hd) as (es & -> & Hne). cbn. by intros ?%fmap_nil_inv.
Qed.
Lemma deltas_active : exists l, active_from t (seq (base_len t) (t.(slot_len) - base_len t)) = Some l /\ l.*2 = spoken_deltas.
Proof.
  pose proof (base_length t b ds Ht) as Hb. pose proof (start_offset_base b ds (length ds)) as Hle. rewrite <- (tk_slots _ _ _ Ht) in Hle.
  destruct (active_from_ok t b ds Ht (t.(slot_len) - base_len t) (base_len t)) as (l & Hl & H2 & _).
  { rewrite tagged_length, <- (tk_slots _ _ _ Ht). lia. }
  exists l. split; [done|]. rewrite H2, Hb. unfold spoken_deltas, view. do 3 f_equal.
  unfold tagged at 1. rewrite drop_app_length' by (unfold tag; by rewrite length_fmap). apply take_ge.
  pose proof (tagged_length b ds) as Hlen. unfold tagged in Hlen. rewrite length_app in Hlen. unfold tag at 1 in Hlen.
  rewrite length_fmap, <- (tk_slots _ _ _ Ht) in Hlen. change (length (concat (imap (fun d es => tag (Some d) es) ds)) <= t.(slot_len) - length b)%nat. lia.
Qed.
(** The overrides left once one delta holds all that the deltas showed. *)
Definition merged_overrides : gmap string (option nat) :=
  map_imap (fun path target =>
      if bool_decide (is_Some target) || bool_decide (is_Some (t.(base).(path_ids) !! path))
      then Some (const 0%nat <$> target) else None) over.
Lemma merged_lookup p : merged_overrides !! p =
  match over !! p with
  | Some (Some _) => Some (Some 0%nat)
  | Some None => if decide (with_path p b = []) then None else Some None
  | None => None
  end.
Proof.
  unfold merged_overrides. rewrite map_lookup_imap. destruct (over !! p) as [[d|]|]; [done| |done]. cbn [mbind option_bind].
  rewrite (bool_decide_eq_false_2 (is_Some None)) by (by intros [? ?]). cbn [orb].
  pose proof (arena_elem _ _ p (sg_ids _ _ (tk_base _ _ _ Ht))) as He. rewrite (segment_paths_elem _ _ _ (tk_base _ _ _ Ht)) in He.
  case_bool_decide as Hs; destruct (decide (with_path p b = [])); tauto.
Qed.
Lemma merged_view : view merged_overrides b [spoken_deltas] = view over b ds.
Proof.
  rewrite (view_split over), (view_split merged_overrides). f_equal.
  - f_equal. apply List.filter_ext_in. intros e He%list_elem_of_In. unfold speaks. cbn [fst snd]. rewrite merged_lookup.
    destruct (over !! ne_path e) as [[d|]|]; [done| |done]. rewrite decide_False; [done|]. by apply with_path_elem.
  - transitivity (normalise <$> List.filter (fun e => speaks merged_overrides (Some 0%nat, e)) spoken_deltas).
    + unfold view at 1, tagged. cbn [imap concat]. change (tag None []) with (@nil (option nat * NameEntry)). cbn [app]. by rewrite app_nil_r, (filter_tag _ (Some 0%nat)), tag_snd.
    + rewrite filter_true; [apply view_normal|]. intros e He. unfold speaks. cbn [fst snd]. rewrite merged_lookup.
      assert (with_path (ne_path e) spoken_deltas <> []) as [d ->]%deltas_speak by (by apply with_path_elem). done.
Qed.
Lemma active_fits l : length l = t.(active_len) -> fits_u32 l.
Proof. intros H. unfold fits_u32. by rewrite H. Qed.
Lemma rebuilt_ok : exists t', rebuilt t = Some t' /\ table_ok t' (view over b ds) [] /\
  view t'.(path_overrides) (view over b ds) [] = view over b ds /\ length t'.(deltas) = 0%nat.
Proof.
  destruct (active_indices_ok t b ds Ht) as (l & Hl & H2 & _). unfold rebuilt. rewrite Hl. cbn [mbind option_bind]. rewrite H2.
  destruct (tk_lowered _ _ _ Ht) as [Hl1 Hl2].
  pose proof (view_lowered over b Hl1 Hl2) as Hlow. destruct (segment_from_entries_ok (view over b ds) Hlow) as (s & Hs & Hok).
  { apply active_fits. symmetry. apply Ht. }
  unfold segment_from_entries in Hs. destruct (foldM push_entry new (view over b ds)) as [bl|]; [|done]. cbn [mbind option_bind] in *.
  rewrite Hs. cbn [mbind option_bind]. eexists. split; [done|]. split; [|split; [|done]].
  - pose proof (fresh_table s _ t.(direct_include_overrides) Hok Hlow) as Hf. unfold with_direct_include_overrides in Hf.
    cbn [direct_include_overrides from_base_segment] in Hf. rewrite map_union_empty in Hf. exact Hf.
  - cbn [path_overrides from_base_segment]. by rewrite view_fresh, view_normal.
Qed.
Lemma merged_ok : exists t', compact_deltas t = Some t' /\ table_ok t' b [spoken_deltas] /\ t'.(path_overrides) = merged_overrides /\
  length t'.(deltas) = 1%nat.
Proof.
  destruct deltas_active as (l & Hl & H2). unfold compact_deltas. rewrite Hl. cbn [mbind option_bind]. rewrite H2.
  destruct (tk_lowered _ _ _ Ht) as [Hl1 Hl2].
  assert (Forall lowered spoken_deltas) as Hlow by (by apply view_lowered).
  destruct (segment_from_entries_ok spoken_deltas Hlow) as (s & Hs & Hok).
  { unfold fits_u32. pose proof (tk_active_len _ _ _ Ht) as Hlen. rewrite (view_split over), length_app in Hlen.
    fold spoken_deltas in Hlen. lia. }
  unfold segment_from_entries in Hs. destruct (foldM push_entry new spoken_deltas) as [bl|]; [|done]. cbn [mbind option_bind] in *.
  rewrite Hs. cbn [mbind option_bind]. eexists. split; [done|]. split; [|done]. fold merged_overrides.
  split; cbn [base deltas path_overrides active_base_paths active_delta_paths active_project_family_counts delta_offsets active_len slot_len].
  - apply Ht.
  - constructor; [done|constructor].
  - split; [done|constructor; [done|constructor]].
  - rewrite (base_length t b ds Ht). cbn. unfold start_offset. cbn. by rewrite Nat.add_0_r.
  - rewrite (base_length t b ds Ht), (segment_entries_length _ _ Hok). unfold start_offset. cbn. lia.
  - intros p d. rewrite merged_lookup. destruct (over !! p) as [[d'|]|] eqn:E; [intros [= <-]| |done].
    + exists spoken_deltas. split; [done|]. apply deltas_speak. by exists d'.
    + by destruct (decide (with_path p b = [])).
  - rewrite merged_view. apply Ht.
  - intros key f. rewrite merged_view. apply Ht.
  - intros p. rewrite (tk_base_paths _ _ _ Ht), merged_lookup. destruct (over !! p) as [[d|]|]; [naive_solver| |done].
    destruct (decide (with_path p b = [])); naive_solver.
  - split; [done|]. intros d held p Hd. apply list_lookup_singleton_Some in Hd as [-> <-]. unfold sort_paths.
    rewrite elem_of_sort_by, (segment_paths_elem _ _ _ Hok), deltas_speak, merged_lookup.
    destruct (over !! p) as [[d|]|]; [naive_solver| |naive_solver]. destruct (decide (with_path p b = [])); naive_solver.
Qed.
Lemma shadowed_total : exists n, shadowed_slots t = Some n.
Proof.
  unfold shadowed_slots. generalize (map_to_list over).*1. intros l. generalize 0%N. induction l as [|p l IH]; intros n; cbn [foldM]; [by eexists|].
  rewrite (segment_path_count _ _ (tk_base _ _ _ Ht)). cbn [mbind option_bind]. apply IH.
Qed.
Lemma compacted_ok : exists t' b' ds', compacted t = Some t' /\ table_ok t' b' ds' /\
  view t'.(path_overrides) b' ds' = view over b ds /\ t'.(direct_include_overrides) = t.(direct_include_overrides) /\
  needs_compaction t' = false /\ (t'.(slot_len) <= t.(slot_len))%nat.
Proof.
  unfold compacted, can_compact_deltas_only. destruct shadowed_total as [n ->]. cbn [mbind option_bind].
  destruct (negb _ && _ && _) eqn:E.
  - destruct merged_ok as (t' & Hm & Hok & Hover & Hone). exists t', b, [spoken_deltas]. split; [done|]. split; [done|].
    rewrite Hover, merged_view. split; [done|]. split; [by (unfold compact_deltas in Hm; simplify_option_eq)|].
    unfold needs_compaction. rewrite Hone. cbn [Nat.leb orb]. rewrite Nat.ltb_ge.
    apply andb_prop in E as [[_ Hlim%Nat.leb_le]%andb_prop _]. rewrite (tk_slots _ _ _ Hok), (base_length t' b _ Hok).
    rewrite (tk_slots _ _ _ Ht), (base_length t b ds Ht) in *.
    pose proof (view_length over [] ds) as Hd. fold spoken_deltas in Hd. change (start_offset b [spoken_deltas] (length [spoken_deltas])) with (length b + (length spoken_deltas + 0))%nat.
    change (start_offset b ds (length ds)) with (length b + start_offset [] ds (length ds))%nat in *. lia.
  - destruct rebuilt_ok as (t' & Hm & Hok & Hview & Hz). exists t', (view over b ds), []. split_and!; [done..| | |].
    + unfold rebuilt in Hm. by simplify_option_eq.
    + unfold needs_compaction. rewrite Hz, (tk_slots _ _ _ Hok), (base_length t' _ _ Hok). cbn [Nat.leb orb length]. apply Nat.ltb_ge.
      unfold start_offset. cbn. lia.
    + rewrite (tk_slots _ _ _ Hok), (tk_slots _ _ _ Ht). pose proof (view_length over b ds). change (start_offset (view over b ds) [] (@length (list NameEntry) [])) with (length (view over b ds) + 0)%nat. lia.
Qed.
End compaction.

(** ** What a table answers, and its histories *)

Lemma share_shown t b ds key f : table_ok t b ds ->
  has_project_for_family t key f = true <-> exists e, e ∈ view t.(path_overrides) b ds /\ e.(ne_family) = f /\ e.(ne_project) = Some key.
Proof.
  intros Ht. pose proof (tk_counts _ _ _ Ht key f) as Hc. unfold has_project_for_family, counts_of in *.
  transitivity ((0 < pcount key f (view t.(path_overrides) b ds))%nat).
  - destruct (t.(active_project_family_counts) !! key); cbn [from_option] in Hc; rewrite <- Hc; [apply Nat.ltb_lt|]. destruct f; cbn; lia.
  - unfold pcount. split.
    + intros H. destruct (List.filter _ _) as [|e l] eqn:E; [cbn in H; lia|]. exists e.
      assert (e ∈ e :: l) as He by left. rewrite <- E in He. apply elem_of_filter_bool in He as [He Hp].
      apply andb_prop in Hp as [->%bool_decide_eq_true ->%bool_decide_eq_true]. done.
    + intros (e & He & <- & Hk). destruct (List.filter _ _) as [|x l] eqn:E; [|cbn; lia].
      assert (e ∈ ([] : list NameEntry)) as Hn; [|by apply not_elem_of_nil in Hn]. rewrite <- E. apply elem_of_filter_bool.
      by rewrite Hk, !bool_decide_eq_true_2.
Qed.
Lemma slot_shown t b ds p : table_ok t b ds ->
  is_Some (active_segment_slot_for_path t p) <-> exists e, e ∈ view t.(path_overrides) b ds /\ e.(ne_path) = p.
Proof.
  intros Ht. transitivity (with_path p (view t.(path_overrides) b ds) <> []).
  - rewrite view_path. unfold active_segment_slot_for_path, spoken. destruct (t.(path_overrides) !! p) as [[d|]|] eqn:E.
    + destruct (tk_targets _ _ _ Ht p d E) as (es & -> & Hne). cbn. split; [|by eexists]. intros _. by intros ?%fmap_nil_inv.
    + cbn. split; [by intros []|done].
    + pose proof (arena_elem _ _ p (sg_ids _ _ (tk_base _ _ _ Ht))) as He. rewrite (segment_paths_elem _ _ _ (tk_base _ _ _ Ht)) in He.
      case_bool_decide as Hs.
      * split; [|by eexists]. intros _ Hz%fmap_nil_inv. tauto.
      * split; [by intros []|]. intros H. exfalso. apply H. destruct (with_path p b); [done|]. exfalso. apply Hs, He. done.
  - split.
    + intros H. destruct (with_path p _) as [|e l] eqn:E; [done|]. exists e. assert (e ∈ e :: l) as He by left. rewrite <- E in He.
      unfold with_path in He. apply elem_of_filter_bool in He as [He Hp%bool_decide_eq_true]. done.
    + intros (e & He & <-). by apply with_path_elem.
Qed.

Inductive TableOp : Type :=
  | Update (changed : gset string) (fresh : list NameEntry)
  | Compact
  | IncludeDirectly (direct : gmap string bool).
Definition apply_op (t : NameTable) (op : TableOp) : option NameTable :=
  match op with
  | Update changed fresh => with_updated_entries t changed fresh
  | Compact => compacted t
  | IncludeDirectly direct => Some (with_direct_include_overrides t direct)
  end.
Definition op_entries (op : TableOp) : list NameEntry := match op with Update _ fresh => fresh | _ => [] end.
(** The specification: a table is the list of the entries it shows. *)
Definition spec_op (shown : list NameEntry) (op : TableOp) : list NameEntry :=
  match op with
  | Update changed fresh =>
      List.filter (fun e => bool_decide (e.(ne_path) ∉ changed)) shown
      ++ List.filter (fun e => bool_decide (e.(ne_path) ∈ changed)) (normalise <$> fresh)
  | _ => shown
  end.
Definition spec_direct (direct : gmap string bool) (op : TableOp) : gmap string bool :=
  match op with IncludeDirectly more => more ∪ direct | _ => direct end.

(** The table shows [shown], in at most [n] slots. *)
Definition shows (t : NameTable) (shown : list NameEntry) (n : nat) : Prop :=
  exists b ds, table_ok t b ds /\ view t.(path_overrides) b ds = shown /\ (t.(slot_len) <= n)%nat.
Lemma apply_op_shows t shown n op :
  shows t shown n -> Forall lowered (op_entries op) -> (120 * N.of_nat (n + length (op_entries op)) < UNSEEN_PATH_ID)%N ->
  exists t', apply_op t op = Some t' /\ shows t' (spec_op shown op) (n + length (op_entries op)) /\
    t'.(direct_include_overrides) = spec_direct t.(direct_include_overrides) op.
Proof.
  intros (b & ds & Ht & <- & Hn) Hlow Hsize. destruct op as [changed es| |direct]; cbn [apply_op op_entries spec_op spec_direct] in *.
  - destruct (segment_from_entries_ok es Hlow) as (fresh & Hf & Hok); [unfold fits_u32; lia|].
    assert ((N.of_nat (t.(slot_len) + length es) <= usize_max)%N) as Hmax.
    { unfold UNSEEN_PATH_ID, u32_max, usize_max in *. lia. }
    destruct (updated_table t b ds es fresh Ht Hok Hlow Hmax changed Hf) as (t' & Hu & Ht' & Hover & Hd).
    exists t'. split; [done|]. split; [|done].
    exists b, (ds ++ [es]). split; [done|]. split; [by apply (view_moved t b ds es Ht)|].
    rewrite (tk_slots _ _ _ Ht'), (total_slots t b ds es Ht). lia.
  - destruct (compacted_ok t b ds Ht) as (t' & b' & ds' & Hc & Ht' & Hv & Hd & _ & Hle).
    { pose proof (view_length t.(path_overrides) b ds) as H1. rewrite <- (tk_slots _ _ _ Ht), <- (tk_active_len _ _ _ Ht) in H1. lia. }
    exists t'. split; [done|]. split; [|done]. exists b', ds'. split_and!; [done..|lia].
  - eexists. split; [done|]. split; [|done]. exists b, ds. split; [|by cbn; split; [done|lia]]. destruct Ht. by split.
Qed.
Lemma history_shows ops : forall t shown n,
  shows t shown n -> Forall (fun op => Forall lowered (op_entries op)) ops ->
  (120 * N.of_nat (n + length (concat (op_entries <$> ops))) < UNSEEN_PATH_ID)%N ->
  exists t' n', foldM apply_op t ops = Some t' /\ shows t' (foldl spec_op shown ops) n' /\
    t'.(direct_include_overrides) = foldl spec_direct t.(direct_include_overrides) ops.
Proof.
  induction ops as [|op ops IH]; intros t shown n Hs Hl Hn; cbn [foldM foldl]; [by exists t, n|].
  apply Forall_cons in Hl as [Hl1 Hl]. rewrite fmap_cons in Hn. cbn [concat] in Hn. rewrite length_app in Hn.
  destruct (apply_op_shows t shown n op Hs Hl1) as (t1 & -> & Hs1 & Hd); [lia|]. cbn [mbind option_bind]. rewrite <- Hd.
  apply (IH t1 _ _ Hs1 Hl). lia.
Qed.
Lemma from_entries_shows es : Forall lowered es -> fits_u32 es ->
  exists t, from_entries es = Some t /\ shows t (normalise <$> es) (length es) /\ t.(direct_include_overrides) = ∅.
Proof.
  intros Hl Hf. destruct (segment_from_entries_ok es Hl Hf) as (s & Hs & Hok). unfold from_entries. rewrite Hs.
  eexists. split; [done|]. split; [|done]. exists es, []. split; [|split].
  - pose proof (fresh_table s es ∅ Hok Hl) as Ht. unfold with_direct_include_overrides in Ht. by rewrite map_empty_union in Ht.
  - apply view_fresh.
  - cbn. by rewrite (segment_entries_length _ _ Hok).
Qed.

(** C6 Over any history of updates, compactions and direct-include changes, a name table
    shows what its specification says: an update replaces the entries of the changed paths
    by the fresh ones, in order, and compaction changes nothing. No operation fails while
    the entries ever published fit the 32-bit rows; the active length, the per-project
    counts and the segment found for a path are those of the entries shown. *)
Theorem table_history es ops :
  Forall lowered es -> Forall (fun op => Forall lowered (op_entries op)) ops ->
  fits_u32 (es ++ concat (op_entries <$> ops)) ->
  exists t0 t l, from_entries es = Some t0 /\ foldM apply_op t0 ops = Some t /\ active_indices t = Some l /\
    l.*2 = foldl spec_op (normalise <$> es) ops /\ t.(active_len) = length l /\
    (forall key f, has_project_for_family t key f = true <-> exists e, e ∈ l.*2 /\ e.(ne_family) = f /\ e.(ne_project) = Some key) /\
    (forall p, is_Some (active_segment_slot_for_path t p) <-> exists e, e ∈ l.*2 /\ e.(ne_path) = p) /\
    t.(direct_include_overrides) = foldl spec_direct ∅ ops.
Proof.
  intros Hl Ho Hf. unfold fits_u32 in Hf. rewrite length_app in Hf.
  destruct (from_entries_shows es Hl) as (t0 & H0 & Hs0 & Hd0); [unfold fits_u32; lia|].
  destruct (history_shows ops t0 _ _ Hs0 Ho Hf) as (t & n & Ht & (b & ds & Hok & Hv & _) & Hd).
  destruct (active_indices_ok t b ds Hok) as (l & Hi & H2 & _). exists t0, t, l. rewrite Hd0 in Hd. rewrite H2, Hv.
  split_and!; try done.
  - rewrite (tk_active_len _ _ _ Hok), <- H2. apply length_fmap.
  - intros key f. rewrite <- Hv. by apply share_shown.
  - intros p. rewrite <- Hv. by apply slot_shown.
Qed.
Definition demo_ops : list TableOp :=
  [Update {["src/io.c"; "src/b.c"]} [demo_entry 5 "reopen" "src/b.c" CFamily; demo_entry 6 "stray" "src/z.c" CFamily]; Compact].
Lemma table_history_witness :
  exists t0 t l, from_entries demo_names = Some t0 /\ foldM apply_op t0 demo_ops = Some t /\ active_indices t = Some l /\
    (ne_name <$> l.*2) = ["OpenFile"; "close"; "reopen"]%string.
Proof.
  destruct (table_history demo_names demo_ops demo_names_lowered ltac:(repeat constructor) ltac:(vm_compute; reflexivity))
    as (t0 & t & l & H0 & Ht & Hl & H2 & _).
  exists t0, t, l. split_and!; [exact H0|exact Ht|exact Hl|]. rewrite H2. vm_compute. reflexivity.
Defined.
Example demo_compaction_resolves :
  (t0 ← from_entries demo_names; t ← foldM apply_op t0 demo_ops; Some (length t.(deltas), t.(slot_len), t.(active_len))) = Some (0, 3, 3)%nat.
Proof. vm_compute. reflexivity. Qed.

(** Compaction succeeds, keeps what every path shows and the answers built on it, and
    leaves a table that does not ask to be compacted again; it never grows the slots. *)
Theorem compaction_sound t b ds :
  table_ok t b ds -> (120 * N.of_nat t.(active_len) < UNSEEN_PATH_ID)%N ->
  exists t' l l', compacted t = Some t' /\ active_indices t = Some l /\ active_indices t' = Some l' /\ l'.*2 = l.*2 /\
    needs_compaction t' = false /\ (t'.(slot_len) <= t.(slot_len))%nat /\ t'.(active_len) = t.(active_len) /\
    (forall e, directly_included_for t' e = directly_included_for t e).
Proof.
  intros Ht Hf. destruct (compacted_ok t b ds Ht Hf) as (t' & b' & ds' & Hc & Ht' & Hv & Hd & Hn & Hs).
  destruct (active_indices_ok t b ds Ht) as (l & Hl & H2 & _). destruct (active_indices_ok t' b' ds' Ht') as (l' & Hl' & H2' & _).
  exists t', l, l'. split_and!; [done..|by rewrite H2', H2|done|done| |].
  - by rewrite (tk_active_len _ _ _ Ht), (tk_active_len _ _ _ Ht'), Hv.
  - intros e. unfold directly_included_for. by rewrite Hd.
Qed.
Lemma compaction_sound_witness :
  exists t0 t t', from_entries demo_names = Some t0 /\ foldM apply_op t0 [hd Compact demo_ops] = Some t /\
    compacted t = Some t' /\ needs_compaction t' = false.
Proof.
  destruct (from_entries_shows demo_names demo_names_lowered ltac:(vm_compute; reflexivity)) as (t0 & H0 & Hs & _).
  destruct (history_shows [hd Compact demo_ops] t0 _ _ Hs ltac:(repeat constructor) ltac:(vm_compute; reflexivity))
    as (t & n & Ht & (b & ds & Hok & Hv & _) & _).
  destruct (compaction_sound t b ds Hok) as (t' & l & l' & Hc & _ & _ & _ & Hn & _).
  - rewrite (tk_active_len _ _ _ Hok), Hv. vm_compute. reflexivity.
  - exists t0, t, t'. split_and!; [exact H0|exact Ht|exact Hc|exact Hn].
Defined.

(** C33 Every update of a well-formed table succeeds, however the changed paths and the
    paths of the fresh entries overlap, and gives a well-formed table over one delta more:
    segments, offsets, slots, overrides, the lists of active paths, the active length and
    the project counts agree with the entries as before. *)
Theorem update_well_formed t b ds changed es :
  table_ok t b ds -> Forall lowered es -> fits_u32 es -> (N.of_nat (t.(slot_len) + length es) <= usize_max)%N ->
  exists t', with_updated_entries t changed es = Some t' /\ table_ok t' b (ds ++ [es]).
Proof.
  intros Ht Hl Hf Hs. destruct (segment_from_entries_ok es Hl Hf) as (fresh & Hfresh & Hok).
  destruct (updated_table t b ds es fresh Ht Hok Hl Hs changed Hfresh) as (t' & Hu & Ht' & _). by exists t'.
Qed.
Lemma update_well_formed_witness :
  exists t t', from_entries demo_names = Some t /\ with_updated_entries t {["src/io.c"]} [demo_entry 5 "reopen" "src/b.c" CFamily] = Some t'.
Proof.
  destruct (from_entries_shows demo_names demo_names_lowered ltac:(vm_compute; reflexivity)) as (t & H0 & (b & ds & Hok & _ & Hn) & _).
  destruct (update_well_formed t b ds {["src/io.c"]} [demo_entry 5 "reopen" "src/b.c" CFamily] Hok) as (t' & Ht' & _).
  - repeat constructor.
  - vm_compute. reflexivity.
  - change (length demo_names) with 4%nat in Hn. unfold usize_max. cbn [length]. lia.
  - exists t, t'. split; [exact H0|exact Ht'].
Defined.
