(* ===== verification/NameSearch.v ===== *)
(** * Searching the name table (query/name_search.rs)

    Prefix lookup over the sorted indices, scoring of every active entry, the pool kept
    for the next keystroke, and the ranking of the hits. A query is its UTF-8 bytes. An
    index out of range is [None]; comparators read a default there. The library's
    unstable selection of the [limit] smallest is the stable sort cut at [limit], one of
    the results it may give: what the theorems say holds for all of them. *)

From S2P Require Import Prelude Arrays NameMatch CallModel Reachability Candidates Resolver Relations NameSegments NamePostings NameTables.

Definition SHORT_PREFIX_MIN_LEN : nat := 3.
Definition SHORT_PREFIX_MIN_SCORE : Z := 650.

Record ScoredCandidate : Type := mkScored {
  sc_score : Z;
  sc_name_len : nat;
  sc_index : nat;
  sc_tier : ScopeTier;
  sc_base_match : Z;
}.
#[export] Instance ScoredCandidate_eq_dec : EqDecision ScoredCandidate.
Proof. solve_decision. Defined.
Record RankedNameHit : Type := mkHit {
  hit_id : Z;
  hit_score : Z;
  hit_tier : ScopeTier;
  hit_base_match : Z;
  hit_name_len : nat;
  hit_name : string;
  hit_kind : ParserKind;
  hit_role : SymbolRole;
  hit_family : SemanticFamily;
  hit_project : option ProjectKey;
}.
Record CompletionScope : Type := mkCompletionScope {
  cs_current_path : option string;
  cs_reach : ReachScope;
  cs_direct_external_files : gset string;
}.
Definition resolve_context (s : CompletionScope) : ResolveContext :=
  mkContext s.(cs_current_path) (Some s.(cs_reach)) (Some s.(cs_direct_external_files)).

(** ** Prefix lookup *)

Definition no_name : NameEntry := mkName 0 "" "" false false "" KindFunction Definition_ CFamily None.
Definition segment_name (s : NameSegment) (local : N) : NameEntry := default no_name (entry s (N.to_nat local)).
Definition name_of (t : NameTable) (index : nat) : NameEntry := default no_name (table_entry t index).
Definition prefix_match (needle_lower : string) (e : NameEntry) : bool :=
  starts_with (bytes_of needle_lower) (bytes_of e.(ne_lower)).
(** The loop over the sorted slice, with its [break]. *)
Fixpoint push_matches (t : NameTable) (s : NameSegment) (offset : nat) (needle_lower : string) (locals : list N)
    : option (list nat) :=
  match locals with
  | [] => Some []
  | local :: locals =>
      e ← entry s (N.to_nat local);
      if negb (prefix_match needle_lower e) then Some []
      else
        let index := (offset + N.to_nat local)%nat in
        active ← is_active_index t index;
        rest ← push_matches t s offset needle_lower locals;
        Some (if (active : bool) then index :: rest else rest)
  end.
Definition extend_prefix_matches (t : NameTable) (s : NameSegment) (offset : nat) (needle_lower : string)
    (family : option SemanticFamily) : option (list nat) :=
  found ← mapM (fun f =>
      let sorted := slot f s.(sorted_by_family) in
      let start := partition_point (fun index =>
        match String.compare (segment_name s index).(ne_lower) needle_lower with Lt => true | _ => false end) sorted in
      push_matches t s offset needle_lower (drop start sorted)) (family_slots family);
  Some (concat found).
Definition prefix_order (t : NameTable) : nat -> nat -> comparison :=
  cmp_lex (cmp_on (fun i => (name_of t i).(ne_lower)) String.compare)
    (cmp_on (fun i => (name_of t i).(ne_name)) String.compare).
Definition prefix_candidates_filtered (t : NameTable) (needle_lower : string) (family : option SemanticFamily) :
    option (list nat) :=
  if bool_decide (needle_lower = "") then Some []
  else
    found ← mapM (fun segment_slot =>
        '(s, offset) ← segment_with_offset t segment_slot;
        extend_prefix_matches t s offset needle_lower family) (seq 0 (S (length t.(deltas))));
    Some (sort_by (prefix_order t) (concat found)).
Definition prefix_candidates (t : NameTable) (needle_lower : string) : option (list nat) :=
  prefix_candidates_filtered t needle_lower None.

(** ** Scores and ranking *)

Definition tier_of (t : NameTable) (e : NameEntry) (ctx : option ResolveContext) : ScopeTier :=
  scope_tier e.(ne_path) e.(ne_external) (directly_included_for t e) ctx.
Definition scored_candidate (t : NameTable) (ctx : option ResolveContext) (i : nat) (e : NameEntry) (base_match : Z) :
    ScoredCandidate :=
  let tier := tier_of t e ctx in
  let loc := locality e.(ne_path) (c ← ctx; c.(current_path)) in
  mkScored (pack_score tier base_match loc) (String.length e.(ne_name)) i tier base_match.
Definition score_entry (needle : string) (e : NameEntry) : option Z :=
  score_match (bytes_of needle) (bytes_of e.(ne_name)) (bytes_of e.(ne_lower)).
Definition consider (t : NameTable) (needle : string) (min_score : Z) (ctx : option ResolveContext)
    (st : list ScoredCandidate * list nat) (i : nat) : option (list ScoredCandidate * list nat) :=
  active ← is_active_index t i;
  if negb active then Some st
  else
    e ← table_entry t i;
    Some match score_entry needle e with
         | None => st
         | Some base_match =>
             (if (base_match <? min_score)%Z then st.1 else st.1 ++ [scored_candidate t ctx i e base_match], st.2 ++ [i])
         end.
Definition scored_order (t : NameTable) : ScoredCandidate -> ScoredCandidate -> comparison :=
  cmp_lex (cmp_rev (cmp_on sc_score Z.compare))
    (cmp_lex (cmp_on sc_name_len Nat.compare)
      (cmp_lex (cmp_on (fun c => (name_of t c.(sc_index)).(ne_name)) String.compare)
        (cmp_lex (cmp_rev (cmp_on (fun c => role_priority (name_of t c.(sc_index)).(ne_role)) N.compare))
          (cmp_lex (cmp_on (fun c => (name_of t c.(sc_index)).(ne_path)) String.compare)
            (cmp_on (fun c => (name_of t c.(sc_index)).(ne_id)) Z.compare))))).
Definition sort_scored (t : NameTable) (scored : list ScoredCandidate) : list ScoredCandidate :=
  sort_by (scored_order t) scored.
(** [select_nth_unstable_by(limit)] then [truncate(limit)] *)
Definition select_smallest {A} (cmp : A -> A -> comparison) (limit : nat) (l : list A) : list A := take limit (sort_by cmp l).
Definition top_scored (t : NameTable) (scored : list ScoredCandidate) (limit : nat) : list ScoredCandidate :=
  if (limit =? 0)%nat then []
  else sort_scored t (if (limit <? length scored)%nat then select_smallest (scored_order t) limit scored else scored).
Definition scored_to_hit (t : NameTable) (c : ScoredCandidate) : option RankedNameHit :=
  e ← table_entry t c.(sc_index);
  Some (mkHit e.(ne_id) c.(sc_score) c.(sc_tier) c.(sc_base_match) c.(sc_name_len) e.(ne_name) e.(ne_kind)
          e.(ne_role) e.(ne_family) e.(ne_project)).
Definition scored_to_hits (t : NameTable) (scored : list ScoredCandidate) : option (list RankedNameHit) :=
  mapM (scored_to_hit t) scored.
Definition rank_scored (t : NameTable) (scored : list ScoredCandidate) (limit : nat) : option (list RankedNameHit) :=
  scored_to_hits t (top_scored t scored limit).
Definition rank_indices (t : NameTable) (needle : string) (limit : nat) (ctx : option ResolveContext) (candidates : list nat) :
    option (list RankedNameHit) :=
  st ← foldM (consider t needle 0 ctx) ([], []) candidates;
  rank_scored t st.1 limit.

(** ** Searches *)

Definition min_score_for (needle : string) : Z :=
  if (String.length needle <? SHORT_PREFIX_MIN_LEN)%nat then SHORT_PREFIX_MIN_SCORE else 0.
Definition exact_name_hits_scoped_filtered (t : NameTable) (name : string) (limit : nat) (scope : option CompletionScope)
    (family : option SemanticFamily) : option (list RankedNameHit) :=
  if bool_decide (name = "") || (limit =? 0)%nat then Some []
  else
    let needle := lower name in
    candidates ← prefix_candidates_filtered t needle family;
    let indices := List.filter (fun i =>
        bool_decide ((name_of t i).(ne_lower) = needle)
        && match family with None => true | Some f => bool_decide ((name_of t i).(ne_family) = f) end) candidates in
    rank_indices t needle limit (resolve_context <$> scope) indices.
Definition exact_name_hits_scoped (t : NameTable) (name : string) (limit : nat) (scope : option CompletionScope) :=
  exact_name_hits_scoped_filtered t name limit scope None.
Definition exact_name_hits_scoped_for_family (t : NameTable) (name : string) (limit : nat) (scope : option CompletionScope)
    (f : SemanticFamily) := exact_name_hits_scoped_filtered t name limit scope (Some f).
Definition search_ranked_scoped_pooled (t : NameTable) (query : string) (limit : nat) (scope : option CompletionScope)
    (prior_pool : option (list nat)) : option (list RankedNameHit * list nat) :=
  let ctx := resolve_context <$> scope in
  let query := trimmed query in
  if bool_decide (query = "") then
    active ← active_indices t;
    hits ← rank_scored t ((fun p : nat * NameEntry => scored_candidate t ctx p.1 p.2 0) <$> active) limit;
    Some (hits, [])
  else
    let needle := lower query in
    scanned ← match prior_pool with Some indices => Some indices | None => active ← active_indices t; Some active.*1 end;
    st ← foldM (consider t needle (min_score_for needle) ctx) ([], []) scanned;
    hits ← rank_scored t st.1 limit;
    Some (hits, st.2).
Definition search_ranked_scoped (t : NameTable) (query : string) (limit : nat) (scope : option CompletionScope) :
    option (list RankedNameHit) := fst <$> search_ranked_scoped_pooled t query limit scope None.
Definition search_ranked (t : NameTable) (query : string) (limit : nat) : option (list RankedNameHit) :=
  let q := trimmed query in
  if negb (bool_decide (q = "")) && (0 <? limit)%nat then
    let needle := lower q in
    candidates ← prefix_candidates t needle;
    if (limit <=? length candidates)%nat then rank_indices t needle limit None candidates
    else search_ranked_scoped t query limit None
  else search_ranked_scoped t query limit None.

(** ** What a search returns *)

#[export] Instance scored_order_lawful t : LawfulCmp (scored_order t).
Proof. unfold scored_order. apply _. Qed.
#[export] Instance prefix_order_lawful t : LawfulCmp (prefix_order t).
Proof. unfold prefix_order. apply _. Qed.

(** [r] are [limit] best elements of [l], best first. *)
Definition best_of {A} (cmp : A -> A -> comparison) (limit : nat) (l r : list A) : Prop :=
  StronglySorted (cmp_le cmp) r /\ length r = Nat.min limit (length l) /\
  exists rest, r ++ rest ≡ₚ l /\ forall x y, x ∈ r -> y ∈ rest -> cmp_le cmp x y.
Lemma sorted_app_le {A} (R : A -> A -> Prop) (l k : list A) x y : StronglySorted R (l ++ k) -> x ∈ l -> y ∈ k -> R x y.
Proof.
  induction l as [|a l IH]; cbn; intros H Hx Hy; [by apply not_elem_of_nil in Hx|].
  apply StronglySorted_inv in H as [H Ha]. apply elem_of_cons in Hx as [->|Hx]; [|by apply IH].
  rewrite Forall_forall in Ha. apply Ha. apply elem_of_app. by right.
Qed.
Lemma sort_best {A} (cmp : A -> A -> comparison) `{!LawfulCmp cmp} limit l : best_of cmp limit l (take limit (sort_by cmp l)).
Proof.
  pose proof (sort_by_sorted cmp l) as Hs. split; [|split].
  - eapply sublist_StronglySorted; [apply sublist_take|exact Hs].
  - by rewrite length_take, sort_by_length.
  - exists (drop limit (sort_by cmp l)). split; [rewrite take_drop; apply sort_by_perm|].
    intros x y Hx Hy. apply (sorted_app_le (cmp_le cmp) (take limit (sort_by cmp l)) (drop limit (sort_by cmp l))); [by rewrite take_drop|done..].
Qed.
Lemma best_sorted {A} (cmp : A -> A -> comparison) `{!LawfulCmp cmp} limit l r k : best_of cmp limit l k -> r ≡ₚ k ->
  StronglySorted (cmp_le cmp) r -> best_of cmp limit l r.
Proof.
  intros (_ & Hl & rest & Hp & Hle) Hr Hs. split; [done|]. split; [by rewrite Hr|]. exists rest. split; [by rewrite Hr|].
  intros x y Hx. rewrite Hr in Hx. by apply Hle.
Qed.
Lemma top_scored_best t scored limit : best_of (scored_order t) limit scored (top_scored t scored limit).
Proof.
  unfold top_scored. destruct (Nat.eqb_spec limit 0) as [->|Hl].
  { split; [constructor|]. split; [done|]. exists scored. split; [done|]. by intros x y ?%not_elem_of_nil. }
  destruct (Nat.ltb_spec limit (length scored)) as [Hlt|Hge].
  - eapply best_sorted; [apply _|apply sort_best, _|apply sort_by_perm|apply sort_by_sorted, _].
  - pose proof (sort_best (scored_order t) limit scored) as H. rewrite take_ge in H by (rewrite sort_by_length; lia). exact H.
Qed.

Definition shown_at (t : NameTable) (i : nat) : option NameEntry :=
  active ← is_active_index t i; if (active : bool) then table_entry t i else None.
Definition matches (needle : string) (e : NameEntry) : bool := bool_decide (is_Some (score_entry needle e)).
Definition matched (t : NameTable) (needle : string) (i : nat) : bool := from_option (matches needle) false (shown_at t i).
Definition scored_entry (t : NameTable) (needle : string) (min_score : Z) (ctx : option ResolveContext) (i : nat)
    (e : NameEntry) : option ScoredCandidate :=
  base_match ← score_entry needle e;
  if (base_match <? min_score)%Z then None else Some (scored_candidate t ctx i e base_match).
Definition scored_at (t : NameTable) (needle : string) (min_score : Z) (ctx : option ResolveContext) (i : nat) :
    option ScoredCandidate := e ← shown_at t i; scored_entry t needle min_score ctx i e.

Section search.
Context (t : NameTable) (b : list NameEntry) (ds : list (list NameEntry)).
Hypothesis Ht : table_ok t b ds.

Lemma slot_total i : (i < t.(slot_len))%nat -> exists active e, is_active_index t i = Some active /\ table_entry t i = Some e.
Proof.
  intros Hi. destruct (lookup_lt_is_Some_2 (tagged b ds) i) as [[d e] He]; [by rewrite tagged_length, <- (tk_slots _ _ _ Ht)|].
  eexists _, _. split; [by apply (active_slot t b ds Ht _ d e)|apply (slot_lookup t b ds Ht i d e He)].
Qed.
Lemma active_from_omap is_ : Forall (fun i => (i < t.(slot_len))%nat) is_ ->
  active_from t is_ = Some (omap (fun i => pair i <$> shown_at t i) is_).
Proof.
  induction 1 as [|i is_ Hi _ IH]; [done|]. cbn [active_from omap list_omap]. unfold shown_at at 1.
  destruct (slot_total i Hi) as (active & e & Ha & He). rewrite Ha. cbn [mbind option_bind]. rewrite He. cbn [mbind option_bind].
  rewrite IH. cbn [mbind option_bind]. destruct active; by rewrite ?He.
Qed.
Lemma consider_all needle min_score ctx is_ : Forall (fun i => (i < t.(slot_len))%nat) is_ -> forall st,
  foldM (consider t needle min_score ctx) st is_ =
    Some (st.1 ++ omap (scored_at t needle min_score ctx) is_, st.2 ++ List.filter (matched t needle) is_).
Proof.
  induction 1 as [|i is_ Hi _ IH]; intros st; cbn [foldM]; [cbn; rewrite !app_nil_r; by destruct st|].
  destruct (slot_total i Hi) as (active & e & Ha & He).
  assert (consider t needle min_score ctx st i = Some (st.1 ++ option_list (scored_at t needle min_score ctx i),
    st.2 ++ (if matched t needle i then [i] else []))) as ->.
  { unfold consider, scored_at, matched, shown_at. rewrite Ha. cbn [mbind option_bind]. destruct active; cbn [negb].
    - rewrite He. cbn [mbind option_bind from_option]. unfold matches, scored_entry. destruct (score_entry needle e) as [base|].
      + rewrite bool_decide_eq_true_2 by (by eexists). cbn [mbind option_bind]. by destruct (base <? min_score)%Z; cbn; rewrite ?app_nil_r.
      + rewrite bool_decide_eq_false_2 by (by intros []). cbn. rewrite !app_nil_r. by destruct st.
    - cbn. rewrite !app_nil_r. by destruct st. }
  cbn [mbind option_bind]. rewrite IH. cbn [fst snd omap list_omap List.filter]. f_equal.
  destruct (scored_at t needle min_score ctx i), (matched t needle i); cbn; by rewrite <- ?(assoc_L (++)).
Qed.
Definition actives : list nat := List.filter (fun i => bool_decide (is_Some (shown_at t i))) (seq 0 t.(slot_len)).
Lemma seq_slots i n : (i + n <= t.(slot_len))%nat -> Forall (fun j => (j < t.(slot_len))%nat) (seq i n).
Proof. intros H. apply Forall_forall. intros j [? ?]%elem_of_seq. lia. Qed.
Lemma actives_bounded : Forall (fun j => (j < t.(slot_len))%nat) actives.
Proof. apply Forall_forall. intros j [Hj _]%elem_of_filter_bool. apply elem_of_seq in Hj. lia. Qed.
Lemma active_indices_shown : exists l, active_indices t = Some l /\ l.*1 = actives /\ l = omap (fun i => pair i <$> shown_at t i) actives.
Proof.
  unfold active_indices. rewrite active_from_omap by (apply seq_slots; lia). eexists. split; [done|].
  assert (forall k, (omap (fun i => pair i <$> shown_at t i) k).*1 = List.filter (fun i => bool_decide (is_Some (shown_at t i))) k /\
    omap (fun i => pair i <$> shown_at t i) (List.filter (fun i => bool_decide (is_Some (shown_at t i))) k) = omap (fun i => pair i <$> shown_at t i) k) as H.
  { induction k as [|i k [IH1 IH2]]; [done|]. cbn [omap list_omap List.filter]. destruct (shown_at t i) as [e|] eqn:E; cbn [fmap option_fmap option_map].
    - rewrite bool_decide_eq_true_2 by (eexists; done). rewrite fmap_cons, IH1. cbn [omap list_omap]. rewrite E. cbn. by rewrite <- IH2.
    - rewrite bool_decide_eq_false_2 by (intros []; done). done. }
  split; [apply H|]. symmetry. apply H.
Qed.
Lemma hits_total scored : Forall (fun c => (c.(sc_index) < t.(slot_len))%nat) scored ->
  exists hits, scored_to_hits t scored = Some hits /\ Forall2 (fun c h => scored_to_hit t c = Some h) scored hits.
Proof.
  intros H. unfold scored_to_hits. assert (exists hits, mapM (scored_to_hit t) scored = Some hits) as [hits Hh].
  { induction H as [|c scored Hc _ [hits IH]]; [by exists []|]. cbn [mapM]. destruct (slot_total _ Hc) as (_ & e & _ & He).
    destruct (scored_to_hit t c) eqn:E; [|unfold scored_to_hit in E; by rewrite He in E]. cbn [mbind option_bind]. rewrite IH. by eexists. }
  exists hits. split; [done|]. by apply mapM_Some.
Qed.
Lemma scored_bounded needle m ctx is_ : Forall (fun i => (i < t.(slot_len))%nat) is_ ->
  Forall (fun c => (c.(sc_index) < t.(slot_len))%nat) (omap (scored_at t needle m ctx) is_).
Proof.
  intros H. apply Forall_forall. intros c (i & Hi & Hc)%list_elem_of_omap. rewrite Forall_forall in H. specialize (H i Hi).
  unfold scored_at, scored_entry in Hc. destruct (shown_at t i); [|done]. cbn in Hc. destruct (score_entry needle n); [|done]. cbn in Hc.
  case_match; [done|]. by injection Hc as <-.
Qed.
Lemma best_elem {A} (cmp : A -> A -> comparison) limit l r x : best_of cmp limit l r -> x ∈ r -> x ∈ l.
Proof. intros (_ & _ & rest & Hp & _) Hx. rewrite <- Hp. apply elem_of_app. by left. Qed.
Lemma top_bounded scored limit : Forall (fun c => (c.(sc_index) < t.(slot_len))%nat) scored ->
  Forall (fun c => (c.(sc_index) < t.(slot_len))%nat) (top_scored t scored limit).
Proof. rewrite !Forall_forall. intros H c Hc. apply H. by eapply best_elem; [apply top_scored_best|]. Qed.
(** One pass over a list of slots, ranked. *)
Lemma ranked_pass needle m ctx limit is_ : Forall (fun i => (i < t.(slot_len))%nat) is_ ->
  exists hits, (st ← foldM (consider t needle m ctx) ([], []) is_; rank_scored t st.1 limit) = Some hits /\
    Forall2 (fun c h => scored_to_hit t c = Some h) (top_scored t (omap (scored_at t needle m ctx) is_) limit) hits.
Proof.
  intros H. rewrite consider_all by done. cbn [mbind option_bind fst snd app]. unfold rank_scored. apply hits_total, top_bounded, scored_bounded, H.
Qed.

(** Scanning the matches of a shorter needle finds what a full scan finds. *)
Lemma matched_shrinks needle next i : bytes_of needle `prefix_of` bytes_of next -> matched t next i = true -> matched t needle i = true.
Proof.
  intros Hp. unfold matched, matches. destruct (shown_at t i) as [e|]; [|done]. cbn [from_option]. rewrite !bool_decide_eq_true.
  unfold score_entry. rewrite <- !not_eq_None_Some, !score_match_None. intros H Hn. apply H. intros Hs. apply Hn.
  etrans; [|exact Hs]. destruct Hp as [k ->]. by apply sublist_inserts_r.
Qed.
Lemma scored_at_unmatched needle m ctx i : matched t needle i = false -> scored_at t needle m ctx i = None.
Proof.
  unfold matched, matches, scored_at, scored_entry. destruct (shown_at t i) as [e|]; [|done]. cbn. rewrite bool_decide_eq_false.
  destruct (score_entry needle e); [|done]. intros H. exfalso. apply H. by eexists.
Qed.
Lemma narrowed_pass needle next m ctx is_ : bytes_of needle `prefix_of` bytes_of next ->
  Forall (fun i => (i < t.(slot_len))%nat) is_ ->
  foldM (consider t next m ctx) ([], []) (List.filter (matched t needle) is_) = foldM (consider t next m ctx) ([], []) is_.
Proof.
  intros Hp H. rewrite !consider_all; [|done|].
  - rewrite omap_filter, filter_filter.
    + do 3 f_equal. apply List.filter_ext. intros i. destruct (matched t next i) eqn:E; [|by rewrite andb_false_r]. by rewrite (matched_shrinks _ _ _ Hp E).
    + intros i Hi. apply scored_at_unmatched. destruct (matched t next i) eqn:E; [|done]. by rewrite (matched_shrinks _ _ _ Hp E) in Hi.
  - apply Forall_forall. intros i [Hi _]%elem_of_filter_bool. rewrite Forall_forall in H. by apply H.
Qed.
End search.

Lemma omap_pairs {A} (f : nat -> NameEntry -> option A) t (is_ : list nat) :
  omap (fun i => e ← shown_at t i; f i e) is_ = omap (fun p : nat * NameEntry => f p.1 p.2) (omap (fun i => pair i <$> shown_at t i) is_).
Proof.
  induction is_ as [|i is_ IH]; [done|]. cbn [omap list_omap]. rewrite IH. destruct (shown_at t i); [|done]. done.
Qed.
Lemma filter_pairs (g : NameEntry -> bool) t (is_ : list nat) :
  List.filter (fun i => from_option g false (shown_at t i)) is_ =
  (List.filter (fun p : nat * NameEntry => g p.2) (omap (fun i => pair i <$> shown_at t i) is_)).*1.
Proof.
  induction is_ as [|i is_ IH]; [done|]. cbn [List.filter omap list_omap]. destruct (shown_at t i) as [e|]; cbn [fmap option_fmap option_map from_option]; [|done].
  cbn [List.filter snd]. destruct (g e); [|done]. rewrite fmap_cons. by rewrite <- IH.
Qed.

(** C24 A search over the whole table never fails. Its pool is exactly the active entries
    the query matches; its hits are [limit] best, best first, of those matches that pass
    the short-prefix gate: no match left out ranks before a hit. *)
Theorem search_exact t b ds query limit scope :
  table_ok t b ds -> trimmed query <> "" ->
  let needle := lower (trimmed query) in
  exists l hits best, active_indices t = Some l /\
    search_ranked_scoped_pooled t query limit scope None = Some (hits, (List.filter (fun p => matches needle p.2) l).*1) /\
    best_of (scored_order t) limit
      (omap (fun p => scored_entry t needle (min_score_for needle) (resolve_context <$> scope) p.1 p.2) l) best /\
    Forall2 (fun c h => scored_to_hit t c = Some h) best hits.
Proof.
  intros Ht Hq needle. destruct (active_indices_shown t b ds Ht) as (l & Hl & Hl1 & Hl2).
  destruct (ranked_pass t b ds Ht needle (min_score_for needle) (resolve_context <$> scope) limit (actives t) (actives_bounded t)) as (hits & Hh & H2).
  rewrite (consider_all t b ds Ht) in Hh by apply actives_bounded. cbn [mbind option_bind fst snd app] in Hh.
  exists l, hits, (top_scored t (omap (scored_at t needle (min_score_for needle) (resolve_context <$> scope)) (actives t)) limit).
  split; [done|]. split; [|split; [|done]].
  - unfold search_ranked_scoped_pooled. rewrite bool_decide_eq_false_2 by done. rewrite Hl. cbn [mbind option_bind]. rewrite Hl1.
    rewrite (consider_all t b ds Ht) by apply actives_bounded. fold needle. cbn [mbind option_bind fst snd app]. rewrite Hh. cbn [mbind option_bind].
    do 2 f_equal. rewrite Hl2. unfold matched. apply filter_pairs.
  - rewrite Hl2, <- omap_pairs. apply top_scored_best.
Qed.

(** Narrowing is transparent: when the next query extends the last one, searching only
    the pool of the last search gives the hits and the pool of a full scan, whatever the
    limits and scopes of the two searches. *)
Theorem narrowing_exact t b ds query next limit limit' scope scope' :
  table_ok t b ds -> trimmed query <> "" ->
  bytes_of (lower (trimmed query)) `prefix_of` bytes_of (lower (trimmed next)) ->
  exists hits pool, search_ranked_scoped_pooled t query limit scope None = Some (hits, pool) /\
    is_Some (search_ranked_scoped_pooled t next limit' scope' None) /\
    search_ranked_scoped_pooled t next limit' scope' (Some pool) = search_ranked_scoped_pooled t next limit' scope' None.
Proof.
  intros Ht Hq Hp. destruct (active_indices_shown t b ds Ht) as (l & Hl & Hl1 & Hl2).
  pose proof (actives_bounded t) as Hb. set (needle := lower (trimmed query)) in *. set (next_needle := lower (trimmed next)) in *.
  destruct (ranked_pass t b ds Ht needle (min_score_for needle) (resolve_context <$> scope) limit (actives t) Hb) as (hits & Hh & _).
  exists hits, (List.filter (matched t needle) (actives t)).
  unfold search_ranked_scoped_pooled at 1. rewrite bool_decide_eq_false_2 by done. rewrite Hl. cbn [mbind option_bind]. rewrite Hl1.
  fold needle. rewrite (consider_all t b ds Ht) in * by done. cbn [mbind option_bind fst snd app] in *. rewrite Hh. cbn [mbind option_bind].
  split; [done|]. unfold search_ranked_scoped_pooled. fold next_needle. rewrite Hl. cbn [mbind option_bind]. rewrite Hl1.
  destruct (bool_decide (trimmed next = "")) eqn:E.
  - split; [|done]. apply bool_decide_eq_true in E. exfalso. subst next_needle. rewrite E in Hp. cbn in Hp. apply prefix_nil_inv in Hp.
    apply Hq. subst needle. clear -Hp. by destruct (trimmed query).
  - cbn [mbind option_bind]. rewrite (narrowed_pass t b ds Ht needle next_needle) by done. split; [|done].
    destruct (ranked_pass t b ds Ht next_needle (min_score_for next_needle) (resolve_context <$> scope') limit' (actives t) Hb) as (hits' & Hh' & _).
    destruct (foldM _ _ _) as [st|]; [|done]. cbn [mbind option_bind] in *. rewrite Hh'. by eexists.
Qed.
Lemma demo_table_ok : exists t ds, from_entries demo_names = Some t /\ table_ok t demo_names ds.
Proof.
  destruct (segment_from_entries_ok demo_names demo_names_lowered ltac:(vm_compute; reflexivity)) as (s & Hs & Hok).
  exists (from_base_segment s), []. unfold from_entries. rewrite Hs. split; [done|].
  pose proof (fresh_table s demo_names ∅ Hok demo_names_lowered) as H. unfold with_direct_include_overrides in H.
  by rewrite map_empty_union in H.
Qed.
Lemma search_exact_witness :
  exists t hits, from_entries demo_names = Some t /\ search_ranked_scoped_pooled t " Los" 5 None None = Some (hits, [1; 3]%nat).
Proof.
  destruct demo_table_ok as (t & ds & Ht & Hok).
  destruct (search_exact t demo_names ds " Los" 5 None Hok ltac:(vm_compute; discriminate)) as (l & hits & best & Hl & Hs & _).
  exists t, hits. split; [exact Ht|]. rewrite Hs. do 2 f_equal.
  assert (active_indices t = (t ← from_entries demo_names; active_indices t)) as Hc by (rewrite Ht; reflexivity).
  rewrite Hl in Hc. vm_compute in Hc. injection Hc as ->. vm_compute. reflexivity.
Defined.
Lemma narrowing_exact_witness :
  exists t hits pool, from_entries demo_names = Some t /\ search_ranked_scoped_pooled t "lo" 5 None None = Some (hits, pool) /\
    search_ranked_scoped_pooled t "LOS" 1 None (Some pool) = search_ranked_scoped_pooled t "LOS" 1 None None.
Proof.
  destruct demo_table_ok as (t & ds & Ht & Hok).
  destruct (narrowing_exact t demo_names ds "lo" "LOS" 5 1 None None Hok ltac:(vm_compute; discriminate)) as (hits & pool & Hs & _ & Hn).
  - exists [115%N]. vm_compute. reflexivity.
  - exists t, hits, pool. split; [exact Ht|]. split; [exact Hs|exact Hn].
Defined.
