(* ===== verification/NamePrefix.v ===== *)
(** * Prefix lookup and the unscoped fast path (query/name_search.rs)

    The binary search over the sorted indices finds exactly the active names with the
    prefix, and the fast path of the unscoped search built on it agrees with the full
    scan as long as no directly included external header is in the table. *)

From S2P Require Import Prelude Arrays NameMatch CallModel Reachability Candidates Resolver Relations NameSegments NamePostings NameTables NameSearch.

(** ** Prefixes in string order *)

Lemma prefix_not_below n s : starts_with (bytes_of n) (bytes_of s) = true -> String.compare n s <> Gt.
Proof.
  revert s. induction n as [|c n IH]; intros [|a s]; cbn [bytes_of starts_with]; try done.
  intros [Ha H]%andb_prop. apply N.eqb_eq in Ha.
  assert (c = a) as -> by (rewrite <- (Ascii.ascii_N_embedding c), <- (Ascii.ascii_N_embedding a); by f_equal).
  cbn [String.compare]. rewrite (proj2 (ascii_compare_eq a a)) by done. by apply IH.
Qed.
Lemma prefix_between n s1 s2 : String.compare n s1 <> Gt -> String.compare s1 s2 <> Gt ->
  starts_with (bytes_of n) (bytes_of s2) = true -> starts_with (bytes_of n) (bytes_of s1) = true.
Proof.
  revert s1 s2. induction n as [|c n IH]; intros [|a s1] [|a2 s2]; cbn [bytes_of starts_with String.compare]; try done.
  intros H1 H2 [Ha H]%andb_prop. apply N.eqb_eq in Ha.
  assert (c = a2) as <- by (rewrite <- (Ascii.ascii_N_embedding c), <- (Ascii.ascii_N_embedding a2); by f_equal).
  pose proof (ascii_compare_antisym c a) as Hs. destruct (Ascii.compare c a) eqn:E; [|by rewrite Hs in H2|done].
  apply ascii_compare_eq in E as ->. rewrite (proj2 (ascii_compare_eq a a)) in H2 by done.
  rewrite N.eqb_refl. cbn [andb]. by eapply IH.
Qed.
Lemma partition_point_take {A} (g : A -> bool) l x : x ∈ take (partition_point g l) l -> g x = true.
Proof.
  induction l as [|y l IH]; cbn [partition_point]; [by intros ?%not_elem_of_nil|].
  destruct (g y) eqn:E; cbn [take]; [|by intros ?%not_elem_of_nil]. by intros [->|?]%elem_of_cons; [|apply IH].
Qed.
Lemma partition_point_drop {A} (g : A -> bool) (P : A -> Prop) (R : A -> A -> Prop) l :
  (forall x, x ∈ l -> g x = false -> P x) -> StronglySorted R l -> (forall x y, P x -> R x y -> P y) ->
  forall x, x ∈ drop (partition_point g l) l -> P x.
Proof.
  intros Hg Hs Hp. induction Hs as [|y l Hs IH Hy]; cbn [partition_point]; [by intros x ?%not_elem_of_nil|].
  destruct (g y) eqn:E; cbn [drop].
  - apply IH. intros x Hx. apply Hg. by right.
  - rewrite Forall_forall in Hy. assert (P y) as Hpy by (apply Hg; [left|done]).
    intros x [->|Hx]%elem_of_cons; [done|]. eapply Hp; [exact Hpy|by apply Hy].
Qed.
#[export] Instance filter_bool_proper {A} (f : A -> bool) : Proper ((≡ₚ) ==> (≡ₚ)) (List.filter f).
Proof. intros l k. induction 1; cbn; repeat case_match; try done; try (by constructor). by etrans. Qed.
Lemma filter_or_perm {A} (p q r : A -> bool) l : (forall x, r x = p x || q x /\ p x && q x = false) ->
  List.filter p l ++ List.filter q l ≡ₚ List.filter r l.
Proof.
  intros H. induction l as [|x l IH]; [done|]. cbn [List.filter]. destruct (H x) as [-> Hd].
  destruct (p x), (q x); cbn [orb]; try done; [by rewrite <- IH|by rewrite <- IH, Permutation_middle].
Qed.
Lemma mapM_snoc {A B} (f : A -> option B) l k x y : mapM f l = Some k -> f x = Some y -> mapM f (l ++ [x]) = Some (k ++ [y]).
Proof. rewrite !mapM_Some. intros H1 H2. apply Forall2_app; [done|]. by constructor. Qed.
Lemma entry_in_range t b ds : table_ok t b ds -> forall i e, table_entry t i = Some e -> (i < t.(slot_len))%nat.
Proof.
  intros Ht i e. unfold table_entry. rewrite (base_length t b ds Ht). rewrite (tk_slots _ _ _ Ht). destruct (Nat.ltb_spec i (length b)) as [Hlt|Hge].
  - intros _. pose proof (start_offset_base b ds (length ds)). lia.
  - destruct (t.(delta_offsets) !! delta_of t i) as [o|] eqn:Eo; [|done]. destruct (t.(deltas) !! delta_of t i) as [s|] eqn:Es; [|done].
    cbn [mbind option_bind]. destruct (Forall2_lookup_l _ _ _ _ _ (tk_deltas _ _ _ Ht) Es) as (es & Hes & Hs).
    destruct (delta_lookup t b ds Ht _ es Hes) as (s' & Hs' & Hok & Hl). rewrite Es in Hs'. injection Hs' as <-.
    rewrite (segment_entry s es Hs Hl). intros He. apply fmap_Some in He as (e' & He' & _). apply lookup_lt_Some in He'.
    rewrite (tk_offsets _ _ _ Ht), list_lookup_fmap, lookup_seq_lt in Eo by (by eapply lookup_lt_Some). cbn in Eo. injection Eo as <-.
    pose proof (start_offset_S b ds _ es Hes). pose proof (start_offset_le b ds (S (delta_of t i)) (length ds)) as Hle.
    apply lookup_lt_Some in Hes. specialize (Hle Hes). lia.
Qed.
Section prefix.
Context (t : NameTable) (b : list NameEntry) (ds : list (list NameEntry)).
Hypothesis Ht : table_ok t b ds.
Context (needle : string).

(** ** One segment *)

Section segment.
Context (s : NameSegment) (es : list NameEntry) (d : option nat) (offset : nat).
Hypothesis Hs : segment_ok s es.
Hypothesis Hl : Forall lowered es.
Hypothesis Hslots : forall k e, es !! k = Some e -> tagged b ds !! (offset + k)%nat = Some (d, e).

Lemma local_entry k e : es !! k = Some e -> entry s k = Some (normalise e) /\
  shown_at t (offset + k) = (if speaks t.(path_overrides) (d, e) then Some (normalise e) else None) /\
  is_active_index t (offset + k) = Some (speaks t.(path_overrides) (d, e)).
Proof.
  intros H. split; [by rewrite (segment_entry s es Hs Hl), H|]. unfold shown_at.
  rewrite (active_slot t b ds Ht _ d e (Hslots k e H)). cbn [mbind option_bind].
  destruct (slot_lookup t b ds Ht _ d e (Hslots k e H)) as [-> _]. done.
Qed.
Definition local_match (local : N) : bool := prefix_match needle (segment_name s local).
Lemma push_matches_ok locals :
  (forall i, i ∈ locals -> (N.to_nat i < length es)%nat) ->
  StronglySorted (fun i j => local_match j = true -> local_match i = true) locals ->
  push_matches t s offset needle locals =
    Some (List.filter (fun i => from_option (prefix_match needle) false (shown_at t i)) ((fun local => offset + N.to_nat local)%nat <$> locals)).
Proof.
  intros Hr Hs'. induction Hs' as [|i locals _ IH Hi]; [done|]. cbn [push_matches].
  destruct (lookup_lt_is_Some_2 es (N.to_nat i)) as [e He]; [apply Hr; left|].
  destruct (local_entry _ _ He) as (He' & Hsh & Ha).
  assert (local_match i = prefix_match needle (normalise e)) as Hm by (unfold local_match, segment_name; by rewrite He').
  rewrite He'. cbn [mbind option_bind]. rewrite <- Hm. rewrite fmap_cons. cbn [List.filter]. rewrite Hsh. destruct (local_match i) eqn:E; cbn [negb].
  - rewrite Ha. cbn [mbind option_bind]. rewrite IH by (intros j Hj; apply Hr; by right). cbn [mbind option_bind].
    destruct (speaks t.(path_overrides) (d, e)); cbn [from_option]; [by rewrite <- Hm, ?E|done].
  - assert (List.filter (fun i => from_option (prefix_match needle) false (shown_at t i)) ((fun local => offset + N.to_nat local)%nat <$> locals) = []) as ->.
    { apply List_filter_nil. intros x (j & -> & Hj)%list_elem_of_fmap.
      destruct (lookup_lt_is_Some_2 es (N.to_nat j)) as [ej Hej]; [apply Hr; by right|]. destruct (local_entry _ _ Hej) as (Hej' & -> & _).
      rewrite Forall_forall in Hi. specialize (Hi j Hj). destruct (speaks t.(path_overrides) (d, ej)); [|done]. cbn [from_option].
      assert (local_match j = prefix_match needle (normalise ej)) as <- by (unfold local_match, segment_name; by rewrite Hej').
      destruct (local_match j); [|done]. by specialize (Hi eq_refl). }
    destruct (speaks t.(path_overrides) (d, e)); cbn [from_option]; [by rewrite <- Hm, ?E|done].
Qed.
Lemma local_lower local e : es !! N.to_nat local = Some e -> ne_lower (segment_name s local) = lower (name_at es local) /\
  local_match local = prefix_match needle (normalise e).
Proof.
  intros He. destruct (local_entry _ _ He) as (He' & _). unfold local_match, segment_name, name_at, get. rewrite He', He. split; [|done].
  cbn. rewrite Forall_lookup in Hl. by apply (Hl _ _ He).
Qed.
Definition shown_match (i : nat) : bool := from_option (prefix_match needle) false (shown_at t i).
Lemma family_found f :
  push_matches t s offset needle
    (drop (partition_point (fun index => match String.compare (segment_name s index).(ne_lower) needle with Lt => true | _ => false end)
       (slot f s.(sorted_by_family))) (slot f s.(sorted_by_family))) =
  Some (List.filter shown_match ((fun local => offset + N.to_nat local)%nat <$> family_ids es f)).
Proof.
  rewrite (sg_sorted _ _ Hs). set (below := fun index => match String.compare (segment_name s index).(ne_lower) needle with Lt => true | _ => false end).
  set (ids := family_ids es f). assert (forall i, i ∈ ids -> (N.to_nat i < length es)%nat) as Hr by (intros i; apply family_ids_range).
  assert (StronglySorted (fun i j => String.compare (lower (name_at es i)) (lower (name_at es j)) <> Gt) ids) as Hsort.
  { eapply sublist_StronglySorted; [apply list_filter_bool_sublist|]. eapply StronglySorted_weaken; [|apply sort_by_sorted, _].
    intros i j H Hg. apply H. unfold index_order, cmp_lex, cmp_on. by rewrite Hg. }
  rewrite push_matches_ok.
  - f_equal. set (n := partition_point below ids). rewrite <- (take_drop n ids) at 2.
    rewrite fmap_app, List.filter_app, (List_filter_nil _ (_ <$> take n ids)); [done|]. subst n.
    intros x (i & -> & Hi)%list_elem_of_fmap. pose proof (partition_point_take _ _ _ Hi) as Hb.
    assert (i ∈ ids) as Hii by (eapply elem_of_sublist; [exact Hi|apply sublist_take]).
    destruct (lookup_lt_is_Some_2 es (N.to_nat i) (Hr i Hii)) as [e He]. unfold shown_match. destruct (local_entry _ _ He) as (He' & -> & _).
    destruct (speaks t.(path_overrides) (d, e)); [|done]. cbn [from_option]. destruct (prefix_match needle (normalise e)) eqn:Ep; [|done].
    apply prefix_not_below in Ep. unfold below, segment_name in Hb. rewrite He' in Hb. cbn [default from_option] in Hb.
    rewrite (cmp_antisym String.compare) in Hb. by destruct (String.compare needle _).
  - intros i Hi. apply Hr. by eapply elem_of_sublist; [|apply sublist_drop].
  - assert (forall i, i ∈ drop (partition_point below ids) ids -> String.compare needle (lower (name_at es i)) <> Gt) as Habove.
    { eapply partition_point_drop; [|exact Hsort|].
      - intros i Hi Hb. unfold below in Hb. destruct (lookup_lt_is_Some_2 es (N.to_nat i) (Hr i Hi)) as [e He].
        destruct (local_lower i e He) as [Hlo _]. rewrite Hlo, (cmp_antisym String.compare) in Hb. by destruct (String.compare needle _).
      - intros i j H1 H2. by eapply cmp_trans; [apply _| |exact H2]. }
    eapply StronglySorted_weaken_in; [|eapply sublist_StronglySorted; [apply sublist_drop|exact Hsort]].
    intros i j Hi Hj H Hm. assert (forall k, k ∈ drop (partition_point below ids) ids -> exists e, es !! N.to_nat k = Some e) as Hex.
    { intros k Hk. apply lookup_lt_is_Some_2, Hr. by eapply elem_of_sublist; [exact Hk|apply sublist_drop]. }
    destruct (Hex i Hi) as [ei Hei], (Hex j Hj) as [ej Hej]. destruct (local_lower i ei Hei) as [Hli _], (local_lower j ej Hej) as [Hlj _].
    unfold local_match, prefix_match in *. rewrite Hli. rewrite Hlj in Hm. by eapply prefix_between; [apply Habove| |].
Qed.
Definition family_ok (family : option SemanticFamily) (e : NameEntry) : bool :=
  match family with None => true | Some f => bool_decide (e.(ne_family) = f) end.
Definition shown_in (family : option SemanticFamily) (i : nat) : bool :=
  from_option (fun e => prefix_match needle e && family_ok family e) false (shown_at t i).
Lemma family_found_perm f :
  List.filter shown_match ((fun local => offset + N.to_nat local)%nat <$> family_ids es f) ≡ₚ
  List.filter (shown_in (Some f)) (seq offset (length es)).
Proof.
  unfold family_ids, sorted_ids. rewrite sort_by_perm. unfold ids_upto.
  rewrite List_filter_fmap, filter_filter, List_filter_fmap, <- list_fmap_compose.
  replace (seq offset (length es)) with (Nat.add offset <$> seq 0 (length es)) by (by rewrite fmap_add_seq, Nat.add_0_r).
  rewrite List_filter_fmap.
  assert (forall k, (compose (fun local => offset + N.to_nat local)%nat N.of_nat) k = Nat.add offset k) as Hc.
  { intros k. unfold compose. by rewrite Nat2N.id. }
  rewrite (list_fmap_ext _ (Nat.add offset) _ (fun _ k _ => Hc k)).
  erewrite List.filter_ext_in; [done|]. intros k Hk%List.in_seq.
  destruct (lookup_lt_is_Some_2 es k) as [e He]; [lia|]. unfold compose, shown_match, shown_in, family_at, get.
  rewrite Nat2N.id. destruct (local_entry k e He) as (_ & -> & _). rewrite He. cbn [from_option].
  destruct (speaks t.(path_overrides) (d, e)); cbn [from_option family_ok]; [apply andb_comm|apply andb_false_r].
Qed.
Lemma extend_ok family : exists found, extend_prefix_matches t s offset needle family = Some found /\
  found ≡ₚ List.filter (shown_in family) (seq offset (length es)).
Proof.
  unfold extend_prefix_matches. rewrite (mapM_all _ (fun f => List.filter shown_match ((fun local => offset + N.to_nat local)%nat <$> family_ids es f)))
    by (intros f _; apply family_found). cbn [mbind option_bind]. eexists. split; [done|].
  destruct family as [f|].
  - cbn [family_slots fmap list_fmap concat]. rewrite app_nil_r. destruct f; cbn; rewrite ?app_nil_r; apply family_found_perm.
  - cbn. rewrite app_nil_r, !family_found_perm. apply filter_or_perm. intros i. unfold shown_in. destruct (shown_at t i) as [e|]; [|done].
    cbn. destruct (prefix_match needle e), (ne_family e); done.
Qed.
End segment.

(** ** The whole table *)

Definition slot_end (k : nat) : nat := match k with O => 0%nat | S d => start_offset b ds d end.
Lemma segment_slot_ok k : (k <= length ds)%nat ->
  exists s es d, segment_with_offset t k = Some (s, slot_end k) /\ segment_ok s es /\ Forall lowered es /\
    (forall j e, es !! j = Some e -> tagged b ds !! (slot_end k + j)%nat = Some (d, e)) /\
    slot_end (S k) = (slot_end k + length es)%nat.
Proof.
  intros Hk. destruct k as [|d].
  - exists t.(base), b, None. split; [done|]. split; [apply Ht|]. split; [apply (tk_lowered _ _ _ Ht)|]. split.
    + intros j e He. by apply tagged_lookup_base.
    + exact (Nat.add_0_r (length b)).
  - destruct (lookup_lt_is_Some_2 ds d) as [es Hes]; [lia|]. destruct (delta_lookup t b ds Ht d es Hes) as (s & Hs & Hok & Hlow).
    exists s, es, (Some d). split; [|split; [done|split; [done|split]]].
    + cbn [segment_with_offset slot_end]. rewrite Hs, (tk_offsets _ _ _ Ht), list_lookup_fmap, lookup_seq_lt by lia. done.
    + intros j e He. by apply (tagged_lookup_delta b ds d es).
    + cbn [slot_end]. exact (start_offset_S b ds d es Hes).
Qed.
Lemma found_upto family n : (n <= length ds)%nat -> exists found,
  mapM (fun segment_slot => '(s, offset) ← segment_with_offset t segment_slot; extend_prefix_matches t s offset needle family)
    (seq 0 (S n)) = Some found /\ concat found ≡ₚ List.filter (shown_in family) (seq 0 (slot_end (S n))).
Proof.
  assert (forall k, (k <= length ds)%nat -> exists x, ('(s, offset) ← segment_with_offset t k; extend_prefix_matches t s offset needle family) = Some x /\
    exists len, slot_end (S k) = (slot_end k + len)%nat /\ x ≡ₚ List.filter (shown_in family) (seq (slot_end k) len)) as Hone.
  { intros k Hk. destruct (segment_slot_ok k Hk) as (s & es & d & -> & Hok & Hlow & Hsl & He). cbn [mbind option_bind].
    destruct (extend_ok s es d (slot_end k) Hok Hlow Hsl family) as (x & Hx & Hp). exists x. split; [done|]. by exists (length es). }
  induction n as [|n IH]; intros Hn.
  - destruct (Hone 0%nat Hn) as (x & Hx & len & He & Hp). exists [x]. split; [cbn [seq mapM]; by rewrite Hx|].
    cbn [concat]. by rewrite app_nil_r, He, Hp.
  - destruct (IH ltac:(lia)) as (found & Hf & Hp). destruct (Hone (S n) Hn) as (x & Hx & len & He & Hq).
    exists (found ++ [x]). rewrite seq_S. split; [by apply mapM_snoc|]. rewrite concat_app. cbn [concat]. rewrite app_nil_r, Hp, Hq, He.
    by rewrite <- List.filter_app, <- seq_app.
Qed.
Lemma prefix_candidates_ok family : needle <> "" -> exists out, prefix_candidates_filtered t needle family = Some out /\
  StronglySorted (cmp_le (prefix_order t)) out /\ out ≡ₚ List.filter (shown_in family) (seq 0 t.(slot_len)).
Proof.
  intros Hn. unfold prefix_candidates_filtered. rewrite bool_decide_eq_false_2 by done.
  destruct (found_upto family (length ds) (le_n _)) as (found & Hf & Hp). rewrite (Forall2_length _ _ _ (tk_deltas _ _ _ Ht)), Hf.
  cbn [mbind option_bind]. eexists. split; [done|]. split; [apply sort_by_sorted, _|].
  rewrite sort_by_perm, Hp. cbn [slot_end]. by rewrite <- (tk_slots _ _ _ Ht).
Qed.
End prefix.

(** The prefix lookup returns, for a non-empty needle, every active entry of the asked
    family whose lowered name starts with it, each once, in the order of lowered name and
    name, and nothing else; it never fails. *)
Theorem prefix_candidates_exact t b ds needle family :
  table_ok t b ds -> needle <> ""%string ->
  exists out, prefix_candidates_filtered t needle family = Some out /\
    StronglySorted (cmp_le (prefix_order t)) out /\ NoDup out /\
    forall i, i ∈ out <-> exists e, shown_at t i = Some e /\ prefix_match needle e = true /\ family_ok family e = true.
Proof.
  intros Ht Hn. destruct (prefix_candidates_ok t b ds Ht needle family Hn) as (out & Ho & Hs & Hp).
  exists out. split; [done|]. split; [done|]. split.
  - rewrite Hp. eapply sublist_NoDup; [apply NoDup_seq|apply list_filter_bool_sublist].
  - intros i. rewrite Hp, elem_of_filter_bool. unfold shown_in. split.
    + intros [_ H]. destruct (shown_at t i) as [e|]; [|done]. cbn in H. apply andb_prop in H as [H1 H2]. by exists e.
    + intros (e & He & H1 & H2). rewrite He. cbn. rewrite H1, H2. split; [|done]. apply elem_of_seq.
      split; [lia|]. cbn. unfold shown_at in He. destruct (is_active_index t i) as [a|] eqn:Ea; [|done]. cbn in He. destruct a; [|done].
      by apply (entry_in_range t b ds Ht i e).
Qed.

(** ** The unscoped fast path *)

Section unique.
Context {A : Type} (cmp : A -> A -> comparison) `{!LawfulCmp cmp}.
Lemma sorted_unique_in l1 : forall l2, (forall x y, x ∈ l1 -> y ∈ l1 -> cmp x y = Eq -> x = y) ->
  StronglySorted (cmp_le cmp) l1 -> StronglySorted (cmp_le cmp) l2 -> l1 ≡ₚ l2 -> l1 = l2.
Proof.
  induction l1 as [|x l1 IH]; intros l2 Heq H1 H2 Hp; [by apply Permutation_nil_l in Hp|].
  destruct l2 as [|y l2]; [by apply Permutation_nil_r in Hp|].
  apply StronglySorted_inv in H1 as [H1 Hx]. apply StronglySorted_inv in H2 as [H2 Hy].
  assert (x = y) as <-.
  { assert (x ∈ y :: l2) as Hin by (rewrite <- Hp; left). assert (y ∈ x :: l1) as Hin' by (rewrite Hp; left).
    apply elem_of_cons in Hin as [->|Hin]; [done|]. pose proof Hin' as Hyl. apply elem_of_cons in Hin' as [->|Hin']; [done|].
    rewrite Forall_forall in Hx, Hy. pose proof (Hx _ Hin') as Hxy. pose proof (Hy _ Hin) as Hyx. unfold cmp_le in *.
    pose proof (cmp_antisym cmp x y) as E. apply Heq; [left|done|]. destruct (cmp x y); simpl in *; congruence. }
  f_equal. apply IH; [|done|done|by apply Permutation_cons_inv in Hp]. intros; apply Heq; [by right|by right|done].
Qed.
Lemma best_unique limit l r r' : (forall x y, x ∈ l -> y ∈ l -> cmp x y = Eq -> x = y) ->
  best_of cmp limit l r -> best_of cmp limit l r' -> r = r'.
Proof.
  assert (forall r, best_of cmp limit l r -> exists k, StronglySorted (cmp_le cmp) (r ++ k) /\ r ++ k ≡ₚ l /\ length r = Nat.min limit (length l)) as Hex.
  { intros x (Hs & Hl & rest & Hp & Hle). exists (sort_by cmp rest). split; [|by rewrite sort_by_perm].
    apply StronglySorted_app_intro; [done|apply sort_by_sorted, _|]. intros a c Ha. rewrite elem_of_sort_by. by apply Hle. }
  intros Heq [k (H1 & H2 & H3)]%Hex [k' (H1' & H2' & H3')]%Hex.
  assert (r ++ k = r' ++ k') as E.
  { apply sorted_unique_in; [|done|done|by rewrite H2, H2']. intros x y. rewrite H2. apply Heq. }
  apply (f_equal (take (length r))) in E. rewrite take_app_length in E. rewrite H3, <- H3', take_app_length in E. done.
Qed.
Lemma best_app limit l worse r : (limit <= length l)%nat -> (forall x y, x ∈ l -> y ∈ worse -> cmp_le cmp x y) ->
  best_of cmp limit l r -> best_of cmp limit (l ++ worse) r.
Proof.
  intros Hlim Hw (Hs & Hl & rest & Hp & Hle). split; [done|]. split; [rewrite length_app; lia|].
  exists (rest ++ worse). split; [by rewrite (assoc_L (++)), Hp|]. intros x y Hx [Hy|Hy]%elem_of_app; [by apply Hle|].
  apply Hw; [|done]. rewrite <- Hp. apply elem_of_app. by left.
Qed.
Lemma best_perm limit l l' r : l ≡ₚ l' -> best_of cmp limit l r -> best_of cmp limit l' r.
Proof. intros Hp (Hs & Hl & rest & Hr & Hle). split; [done|]. split; [by rewrite <- Hp|]. exists rest. by rewrite <- Hp. Qed.
End unique.

Lemma scored_order_id t x y : scored_order t x y = Eq -> (name_of t x.(sc_index)).(ne_id) = (name_of t y.(sc_index)).(ne_id).
Proof.
  unfold scored_order. intros [_ [_ [_ [_ [_ H]%cmp_lex_eq]%cmp_lex_eq]%cmp_lex_eq]%cmp_lex_eq]%cmp_lex_eq.
  by apply Z.compare_eq_iff in H.
Qed.
Lemma prefix_score needle name low s : score_match needle name low = Some s ->
  if starts_with needle low then (800 <= s)%Z else (s <= 650)%Z.
Proof.
  unfold score_match. case_bool_decide as He.
  - subst low. intros [= <-]. rewrite (proj2 (starts_with_spec needle needle)) by done. lia.
  - destruct (starts_with needle low); [intros [= <-]; lia|]. destruct (find_bytes needle low); [intros [= <-]; by case_match|].
    intros (a & _ & ->)%fmap_Some. by destruct a.
Qed.
Lemma prefix_matches needle e : prefix_match needle e = true -> is_Some (score_entry needle e).
Proof.
  unfold prefix_match, score_entry, score_match. intros ->. case_bool_decide; by eexists.
Qed.

Section fast_path.
Context (t : NameTable) (b : list NameEntry) (ds : list (list NameEntry)).
Hypothesis Ht : table_ok t b ds.
Hypothesis Hexternal : forall i e, shown_at t i = Some e -> e.(ne_external) = true -> directly_included_for t e = false.
Hypothesis Hids : forall i j e e', shown_at t i = Some e -> shown_at t j = Some e' -> e.(ne_id) = e'.(ne_id) -> i = j.
Context (needle : string) (min_score : Z).
Hypothesis Hmin : (min_score <= 650)%Z.

Lemma shown_name i e : shown_at t i = Some e -> name_of t i = e.
Proof. unfold shown_at, name_of. destruct (is_active_index t i) as [[]|]; [|done|done]. cbn. by intros ->. Qed.
Lemma scored_at_inv m i c : scored_at t needle m None i = Some c -> exists e base, shown_at t i = Some e /\
  score_entry needle e = Some base /\ c = scored_candidate t None i e base /\ (m <= base)%Z.
Proof.
  unfold scored_at, scored_entry. destruct (shown_at t i) as [e|] eqn:E; [|done]. cbn. destruct (score_entry needle e) as [base|] eqn:Es; [|done].
  cbn. destruct (Z.ltb_spec base m); [done|]. intros [= <-]. by exists e, base.
Qed.
Lemma unscoped_score i e base : shown_at t i = Some e -> sc_score (scored_candidate t None i e base) = base.
Proof.
  intros He. cbn. unfold tier_of, scope_tier. cbn. destruct (ne_external e) eqn:Ee; cbn [andb].
  - rewrite (Hexternal i e He Ee). unfold pack_score, tier_rank. lia.
  - unfold pack_score, tier_rank. lia.
Qed.
Lemma no_ties m (is_ : list nat) x y : x ∈ omap (scored_at t needle m None) is_ -> y ∈ omap (scored_at t needle m None) is_ ->
  scored_order t x y = Eq -> x = y.
Proof.
  intros (i & _ & Hi)%list_elem_of_omap (j & _ & Hj)%list_elem_of_omap H%scored_order_id.
  pose proof Hi as (e & base & He & _ & -> & _)%scored_at_inv. pose proof Hj as (e' & base' & He' & _ & -> & _)%scored_at_inv.
  cbn [sc_index scored_candidate] in H. rewrite (shown_name i e He), (shown_name j e' He') in H.
  pose proof (Hids i j e e' He He' H) as <-. congruence.
Qed.
Definition shown_prefix (i : nat) : bool := shown_in t needle None i.
Lemma split_slots : seq 0 t.(slot_len) ≡ₚ List.filter shown_prefix (seq 0 t.(slot_len)) ++ List.filter (negb ∘ shown_prefix) (seq 0 t.(slot_len)).
Proof.
  rewrite (filter_or_perm _ _ (fun _ => true)); [by rewrite filter_true|]. intros i. unfold compose. by destruct (shown_prefix i).
Qed.
Lemma prefix_entry i : shown_prefix i = true -> exists e base, shown_at t i = Some e /\ score_entry needle e = Some base /\ (800 <= base)%Z.
Proof.
  unfold shown_prefix, shown_in. destruct (shown_at t i) as [e|]; [|done]. cbn. rewrite andb_true_r. intros H.
  destruct (prefix_matches needle e H) as [base Hb]. exists e, base. split_and!; [done..|].
  pose proof (prefix_score _ _ _ _ Hb) as Hs. unfold prefix_match in H. by rewrite H in Hs.
Qed.
Lemma other_entry i e base : shown_prefix i = false -> shown_at t i = Some e -> score_entry needle e = Some base -> (base <= 650)%Z.
Proof.
  unfold shown_prefix, shown_in. intros H He Hb. rewrite He in H. cbn in H. rewrite andb_true_r in H.
  pose proof (prefix_score _ _ _ _ Hb) as Hs. unfold prefix_match in H. by rewrite H in Hs.
Qed.
Lemma fast_top limit candidates : candidates ≡ₚ List.filter shown_prefix (seq 0 t.(slot_len)) -> (limit <= length candidates)%nat ->
  top_scored t (omap (scored_at t needle 0 None) candidates) limit =
  top_scored t (omap (scored_at t needle min_score None) (actives t)) limit.
Proof.
  intros Hc Hlim. apply (best_unique (scored_order t) limit (omap (scored_at t needle min_score None) (actives t))); [by apply no_ties| |apply top_scored_best].
  assert (omap (scored_at t needle min_score None) (actives t) ≡ₚ
    omap (scored_at t needle 0 None) candidates ++ omap (scored_at t needle min_score None) (List.filter (negb ∘ shown_prefix) (seq 0 t.(slot_len)))) as Hsplit.
  { unfold actives. rewrite omap_filter.
    - rewrite split_slots at 1. rewrite omap_app. apply Permutation_app; [|done]. rewrite Hc.
      rewrite (omap_ext_in (scored_at t needle min_score None) (scored_at t needle 0 None)); [done|].
      intros i [_ Hp]%elem_of_filter_bool. destruct (prefix_entry i Hp) as (e & base & He & Hb & Hge).
      unfold scored_at, scored_entry. rewrite He. cbn. rewrite Hb. cbn. by rewrite !(proj2 (Z.ltb_ge _ _)) by lia.
    - intros i Hi. apply bool_decide_eq_false in Hi. unfold scored_at. destruct (shown_at t i); [|done]. exfalso. apply Hi. by eexists. }
  eapply best_perm; [symmetry; exact Hsplit|]. apply best_app; [|intros x y Hx Hy|apply top_scored_best].
  - rewrite omap_length_all; [done|]. intros i Hi. rewrite Hc in Hi. apply elem_of_filter_bool in Hi as [_ Hp].
    destruct (prefix_entry i Hp) as (e & base & He & Hb & Hge). unfold scored_at, scored_entry. rewrite He. cbn. rewrite Hb. cbn.
    rewrite (proj2 (Z.ltb_ge _ _)) by lia. by eexists.
  - apply list_elem_of_omap in Hx as (i & Hi & Hx). rewrite Hc in Hi. apply elem_of_filter_bool in Hi as [_ Hp].
    destruct (prefix_entry i Hp) as (e & base & He & Hb & Hge). apply scored_at_inv in Hx as (e1 & base1 & He1 & Hb1 & -> & _).
    rewrite He in He1. injection He1 as <-. rewrite Hb in Hb1. injection Hb1 as <-.
    apply list_elem_of_omap in Hy as (j & Hj & Hy). apply elem_of_filter_bool in Hj as [_ Hq].
    apply scored_at_inv in Hy as (e2 & base2 & He2 & Hb2 & -> & _). pose proof (other_entry j e2 base2 (proj1 (negb_true_iff _) Hq) He2 Hb2) as Hle.
    unfold cmp_le, scored_order, cmp_lex at 1, cmp_rev at 1, cmp_on at 1. rewrite (unscoped_score i e base He), (unscoped_score j e2 base2 He2).
    by rewrite (proj2 (Z.compare_lt_iff base2 base)) by lia.
Qed.
End fast_path.

Definition demo_external : list NameEntry :=
  [demo_entry 1 "openFile" "src/io.c" CFamily;
   mkName 2 "reopen" "reopen" true true "/usr/include/stdio.h" KindFunction Declaration CFamily None].
(** C31 The unscoped fast path returns the hits of the full scan when the active
    declarations have distinct ids and none comes from a directly included external
    header. Without the second condition it does not, although its comment claims so: a
    declaration of such a header ranks by its tier, so one that matches only inside the
    name comes first in the full scan and is missing from the fast path's hits. *)
Theorem fast_path_exact :
  (forall t b ds query limit, table_ok t b ds ->
     (forall i e, shown_at t i = Some e -> e.(ne_external) = true -> directly_included_for t e = false) ->
     (forall i j e e', shown_at t i = Some e -> shown_at t j = Some e' -> e.(ne_id) = e'.(ne_id) -> i = j) ->
     search_ranked t query limit = search_ranked_scoped t query limit None /\ is_Some (search_ranked t query limit)) /\
  (exists t, from_entries demo_external = Some t /\
     fmap (M := list) hit_name <$> search_ranked t "open" 1 = Some ["openFile"%string] /\
     fmap (M := list) hit_name <$> search_ranked_scoped t "open" 1 None = Some ["reopen"%string]).
Proof.
  split; [|eexists; split; [vm_compute; reflexivity|split; vm_compute; reflexivity]].
  intros t b ds query limit Ht He Hi. destruct (active_indices_shown t b ds Ht) as (l & Hl & Hl1 & Hl2).
  pose proof (actives_bounded t) as Hb. assert (is_Some (search_ranked_scoped t query limit None)) as Hfull.
  { unfold search_ranked_scoped, search_ranked_scoped_pooled. rewrite Hl. destruct (bool_decide (trimmed query = "")); cbn [mbind option_bind].
    - unfold rank_scored. destruct (hits_total t b ds Ht (top_scored t ((fun p : nat * NameEntry => scored_candidate t None p.1 p.2 0) <$> l) limit)) as (hits & Hh & _).
      + apply top_bounded, Forall_forall. intros c (p & -> & Hp)%list_elem_of_fmap. cbn. rewrite Forall_forall in Hb. apply Hb. rewrite <- Hl1.
        apply list_elem_of_fmap. by exists p.
      + cbn [fmap option_fmap option_map]. rewrite Hh. by eexists.
    - rewrite Hl1. destruct (ranked_pass t b ds Ht (lower (trimmed query)) (min_score_for (lower (trimmed query))) None limit (actives t) Hb) as (hits & Hh & _).
      cbn [fmap option_fmap option_map]. destruct (foldM _ _ _) as [st|]; [|done]. cbn [mbind option_bind] in *. rewrite Hh. by eexists. }
  enough (search_ranked t query limit = search_ranked_scoped t query limit None) as Heq by (split; [done|by rewrite Heq]).
  unfold search_ranked. destruct (bool_decide (trimmed query = "")) eqn:Eq; cbn [negb andb]; [done|]. destruct (0 <? limit)%nat; [|done].
  apply bool_decide_eq_false in Eq. set (needle := lower (trimmed query)) in *.
  destruct (prefix_candidates_ok t b ds Ht needle None) as (out & Ho & _ & Hp).
  { intros Hn. apply Eq. subst needle. clear -Hn. by destruct (trimmed query). }
  unfold prefix_candidates. rewrite Ho. cbn [mbind option_bind]. destruct (Nat.leb_spec limit (length out)) as [Hle|]; [|done].
  assert (Forall (fun i => (i < slot_len t)%nat) out) as Hbo.
  { apply Forall_forall. intros i Hin. rewrite Hp in Hin. apply elem_of_filter_bool in Hin as [Hin%elem_of_seq _]. lia. }
  unfold rank_indices, search_ranked_scoped, search_ranked_scoped_pooled. rewrite bool_decide_eq_false_2 by done.
  rewrite Hl. cbn [mbind option_bind]. rewrite Hl1. fold needle. cbn [fmap option_fmap option_map].
  rewrite !(consider_all t b ds Ht) by done. cbn [mbind option_bind fst snd app]. unfold rank_scored.
  rewrite (fast_top t He Hi needle (min_score_for needle)) by (done || (unfold min_score_for; case_match; unfold SHORT_PREFIX_MIN_SCORE; lia)).
  by destruct (scored_to_hits _ _).
Qed.
(** The four slots of the demonstration table. *)
Lemma demo_shown t ds i e : from_entries demo_names = Some t -> table_ok t demo_names ds -> shown_at t i = Some e ->
  (i < 4)%nat /\ (t ← from_entries demo_names; shown_at t i) = Some e.
Proof.
  intros H Hok Hi. split; [|by rewrite H]. assert (t.(slot_len) = 4%nat) as <-.
  { assert (Some (slot_len t) = slot_len <$> from_entries demo_names) as Hs by (by rewrite H). vm_compute in Hs. by injection Hs. }
  unfold shown_at in Hi. destruct (is_active_index t i) as [[]|]; [|done|done]. cbn in Hi. by eapply entry_in_range.
Qed.
Lemma fast_path_exact_witness :
  exists t, from_entries demo_names = Some t /\ search_ranked t "open" 2 = search_ranked_scoped t "open" 2 None.
Proof.
  destruct demo_table_ok as (t & ds & Ht & Hok). exists t. split; [exact Ht|].
  apply (proj1 fast_path_exact t demo_names ds "open"%string 2 Hok).
  - intros i e [Hi He]%(demo_shown t ds i e Ht Hok) Hx. exfalso.
    do 4 (destruct i as [|i]; [vm_compute in He; injection He as <-; done|]). lia.
  - intros i j e e' [Hi He]%(demo_shown t ds i e Ht Hok) [Hj He']%(demo_shown t ds j e' Ht Hok) Hid.
    do 4 (destruct i as [|i]; [do 4 (destruct j as [|j]; [vm_compute in He, He'; injection He as <-; injection He' as <-; done|]); lia|]). lia.
Defined.
Lemma prefix_candidates_exact_witness :
  exists t out, from_entries demo_names = Some t /\ prefix_candidates_filtered t "open" (Some CFamily) = Some out /\ out = [0%nat].
Proof.
  destruct demo_table_ok as (t & ds & Ht & Hok).
  destruct (prefix_candidates_exact t demo_names ds "open" (Some CFamily) Hok ltac:(discriminate)) as (out & Ho & _).
  exists t, out. split; [exact Ht|]. split; [exact Ho|].
  assert (Some out = (t ← from_entries demo_names; prefix_candidates_filtered t "open" (Some CFamily))) as Hc by (by rewrite Ht).
  vm_compute in Hc. by injection Hc.
Defined.
