(* ===== verification/NameRecall.v ===== *)
(** * Completion recall under quotas (query/name_search.rs)

    The recall of [search_completion_recall_pooled_with_project]: an unlimited candidate
    budget and no cancellation, so that every candidate slot of the asked family is
    considered. The bounded heap keeps the best candidates of a channel; its worst
    element is the last of a sorted list. Of several equally bad ones the heap may drop
    any: what the theorems say holds for every choice. *)

From S2P Require Import Prelude Arrays NameMatch CallModel Reachability Candidates Resolver Relations NameSegments NamePostings NameTables NameSearch NamePrefix.

(** ** Quotas *)

Record CompletionRecallQuotas : Type := mkQuotas {
  total_indexed : N;
  q_reachable : N;
  q_external : N;
  q_unknown : N;
  q_global : N;
  same_project : N;
}.
Definition default_for_completion_limit (limit : N) : CompletionRecallQuotas :=
  mkQuotas (saturating_mul limit 3) limit (limit / 2) (limit / 2) limit 0.
Definition with_project_context (limit : N) : CompletionRecallQuotas :=
  let quotas := default_for_completion_limit limit in
  mkQuotas (quotas.(total_indexed) +s limit / 2) quotas.(q_reachable) quotas.(q_external) quotas.(q_unknown)
    quotas.(q_global) (limit / 2).
Definition reserved (q : CompletionRecallQuotas) : N :=
  q.(q_reachable) +s q.(q_external) +s q.(q_unknown) +s q.(q_global) +s q.(same_project).

(** ** The bounded best candidates *)

Definition retain (t : NameTable) (limit : nat) (retained : list ScoredCandidate) (c : ScoredCandidate) : list ScoredCandidate :=
  if (length retained <? limit)%nat then sort_insert (scored_order t) c retained
  else match last retained with
       | Some worst =>
           match scored_order t c worst with
           | Lt => sort_insert (scored_order t) c (take (length retained - 1) retained)
           | _ => retained
           end
       | None => retained
       end.
Definition top_scored_controlled (t : NameTable) (include : ScoredCandidate -> bool) (limit : nat) (scored : list ScoredCandidate) :
    list ScoredCandidate :=
  if (limit =? 0)%nat then []
  else sort_scored t (foldl (fun retained c => if include c then retain t limit retained c else retained) [] scored).

Inductive ScopeChannel : Type := ChannelReachable | ChannelExternal | ChannelUnknown | ChannelGlobal.
#[export] Instance ScopeChannel_eq_dec : EqDecision ScopeChannel.
Proof. solve_decision. Defined.
Definition channel_for_tier (tier : ScopeTier) : ScopeChannel :=
  match tier with
  | TierCurrent | TierReachable => ChannelReachable
  | TierExternal => ChannelExternal
  | TierUnknown => ChannelUnknown
  | TierGlobal => ChannelGlobal
  end.
Definition in_channel (channel : ScopeChannel) (c : ScoredCandidate) : bool := bool_decide (channel_for_tier c.(sc_tier) = channel).
Definition in_project (t : NameTable) (key : ProjectKey) (c : ScoredCandidate) : bool :=
  bool_decide ((name_of t c.(sc_index)).(ne_project) = Some key).
(** The loop of [take_channel] and [take_same_project]; [quota] counts what may still be taken. *)
Fixpoint take_some (keep : ScoredCandidate -> bool) (quota : nat) (scored : list ScoredCandidate)
    (st : gset nat * list ScoredCandidate) : gset nat * list ScoredCandidate :=
  match scored with
  | [] => st
  | c :: scored =>
      match quota with
      | O => st
      | S left_ =>
          if negb (keep c) || bool_decide (c.(sc_index) ∈ st.1) then take_some keep quota scored st
          else take_some keep left_ scored ({[c.(sc_index)]} ∪ st.1, st.2 ++ [c])
      end
  end.
Definition take_channel (scored : list ScoredCandidate) (channel : ScopeChannel) (quota : N) (st : gset nat * list ScoredCandidate) :=
  take_some (in_channel channel) (N.to_nat quota) scored st.
Definition take_same_project (t : NameTable) (scored : list ScoredCandidate) (active_project : option ProjectKey) (quota : N)
    (st : gset nat * list ScoredCandidate) :=
  match active_project with None => st | Some key => take_some (in_project t key) (N.to_nat quota) scored st end.
(** The fill from the overall best. *)
Fixpoint fill (total : nat) (scored : list ScoredCandidate) (st : gset nat * list ScoredCandidate) : gset nat * list ScoredCandidate :=
  match scored with
  | [] => st
  | c :: scored =>
      if (total <=? length st.2)%nat then st
      else fill total scored (if bool_decide (c.(sc_index) ∈ st.1) then st else ({[c.(sc_index)]} ∪ st.1, st.2 ++ [c]))
  end.
Definition channel_top (t : NameTable) (scored : list ScoredCandidate) (channel : ScopeChannel) (quota : N) : list ScoredCandidate :=
  top_scored_controlled t (in_channel channel) (N.to_nat quota) scored.
Definition project_top (t : NameTable) (scored : list ScoredCandidate) (active_project : option ProjectKey) (quota : N) :
    list ScoredCandidate :=
  match active_project with
  | Some key => top_scored_controlled t (in_project t key) (N.to_nat quota) scored
  | None => []
  end.
Definition select_recall (t : NameTable) (q : CompletionRecallQuotas) (active_project : option ProjectKey)
    (scored : list ScoredCandidate) : list ScoredCandidate :=
  let total := N.to_nat q.(total_indexed) in
  let global_top := top_scored_controlled t (fun _ => true) (N.to_nat (q.(total_indexed) +s reserved q)) scored in
  let st := take_channel (channel_top t scored ChannelReachable q.(q_reachable)) ChannelReachable q.(q_reachable) (∅, []) in
  let st := take_same_project t (project_top t scored active_project q.(same_project)) active_project q.(same_project) st in
  let st := take_channel (channel_top t scored ChannelExternal q.(q_external)) ChannelExternal q.(q_external) st in
  let st := take_channel (channel_top t scored ChannelUnknown q.(q_unknown)) ChannelUnknown q.(q_unknown) st in
  let st := take_channel (channel_top t scored ChannelGlobal q.(q_global)) ChannelGlobal q.(q_global) st in
  take total (sort_scored t (fill total global_top st).2).

(** ** The candidate slots of a family *)

Definition segments (t : NameTable) : option (list (NameSegment * nat)) :=
  mapM (segment_with_offset t) (seq 0 (S (length t.(deltas)))).
Definition candidate_slot_len (t : NameTable) (family : option SemanticFamily) : option nat :=
  match family with
  | None => Some t.(slot_len)
  | Some f => segs ← segments t; Some (sum_list ((fun p : NameSegment * nat => length (slot f p.1.(sorted_by_family))) <$> segs))
  end.
Fixpoint index_in (f : SemanticFamily) (segs : list (NameSegment * nat)) (ordinal : nat) : option nat :=
  match segs with
  | [] => None
  | (s, offset) :: segs =>
      let indices := slot f s.(sorted_by_family) in
      if (ordinal <? length indices)%nat
      then local ← indices !! ordinal; Some (offset + N.to_nat local)%nat
      else index_in f segs (ordinal - length indices)
  end.
Definition candidate_index_at (t : NameTable) (family : option SemanticFamily) (ordinal : nat) : option nat :=
  match family with
  | None => if (ordinal <? t.(slot_len))%nat then Some ordinal else None
  | Some f => segs ← segments t; index_in f segs ordinal
  end.

(** ** The recall *)

Definition scored_pool_for_query (t : NameTable) (query : string) (scope : option CompletionScope) (prior_pool : option (list nat))
    (family : option SemanticFamily) : option (list ScoredCandidate * list nat) :=
  let ctx := option_map resolve_context scope in
  let query := trimmed query in
  len ← candidate_slot_len t family;
  if bool_decide (query = "") then
    slots ← mapM (candidate_index_at t family) (seq 0 len);
    active ← active_from t slots;
    Some (fmap (M := list) (fun p : nat * NameEntry => scored_candidate t ctx p.1 p.2 0) active, [])
  else
    let needle := lower query in
    slots ← match prior_pool with Some indices => Some indices | None => mapM (candidate_index_at t family) (seq 0 len) end;
    foldM (consider t needle (min_score_for needle) ctx) ([], []) slots.
Definition of_family (t : NameTable) (family : option SemanticFamily) (index : nat) : bool := family_ok family (name_of t index).
Definition search_completion_recall (t : NameTable) (query : string) (q : CompletionRecallQuotas) (scope : option CompletionScope)
    (active_project : option ProjectKey) (prior_pool : option (list nat)) (family : option SemanticFamily) :
    option (list RankedNameHit * list nat) :=
  '(scored, pool) ← scored_pool_for_query t query scope prior_pool family;
  let scored := List.filter (fun c => of_family t family c.(sc_index)) scored in
  let pool := List.filter (of_family t family) pool in
  hits ← scored_to_hits t (select_recall t q active_project scored);
  Some (hits, pool).

(** ** The bounded heap keeps the best *)

Section retain.
Context (t : NameTable) (limit : nat).
Local Abbreviation order := (scored_order t).
Record keeps (seen retained : list ScoredCandidate) : Prop := {
  kp_sorted : StronglySorted (cmp_le order) retained;
  kp_length : length retained = Nat.min limit (length seen);
  kp_rest : exists rest, retained ++ rest ≡ₚ seen /\ forall x y, x ∈ retained -> y ∈ rest -> cmp_le order x y;
}.
Lemma sorted_last (l : list ScoredCandidate) w x : StronglySorted (cmp_le order) (l ++ [w]) -> x ∈ l -> cmp_le order x w.
Proof. intros H Hx. by eapply (sorted_app_le _ l [w]); [exact H|exact Hx|left]. Qed.
Lemma retain_keeps seen retained c : (0 < limit)%nat -> keeps seen retained -> keeps (seen ++ [c]) (retain t limit retained c).
Proof.
  intros Hpos [Hs Hl (rest & Hp & Hle)]. unfold retain. pose proof (Permutation_length Hp) as Hpl. rewrite length_app in Hpl.
  destruct (Nat.ltb_spec (length retained) limit) as [Hlt|Hge].
  - assert (rest = []) as -> by (apply length_zero_iff_nil; lia). rewrite app_nil_r in *. split.
    + by apply (sort_insert_sorted order).
    + rewrite sort_insert_perm, length_app. cbn [length] in *. lia.
    + exists []. rewrite app_nil_r, sort_insert_perm, Hp. split; [by rewrite Permutation_app_comm|]. by intros x y _ ?%not_elem_of_nil.
  - destruct retained as [|w init _] using rev_ind; [cbn in Hge; lia|]. rewrite last_snoc, length_app. cbn [length].
    replace (length init + 1 - 1)%nat with (length init) by lia. rewrite take_app_length.
    rewrite length_app in Hge, Hl. cbn [length] in *.
    destruct (order c w) eqn:E; cycle 1.
    { split.
      - apply (sort_insert_sorted order). eapply sublist_StronglySorted; [|exact Hs]. by apply sublist_inserts_r.
      - rewrite sort_insert_perm, length_app. cbn [length]. lia.
      - exists (w :: rest). split.
        + rewrite sort_insert_perm, <- Hp. rewrite <- Permutation_cons_append. cbn [app]. by rewrite <- (assoc_L (++)).
        + assert (forall x, x ∈ sort_insert order c init -> cmp_le order x w) as Hw.
          { intros x. rewrite sort_insert_perm. intros [->|Hx]%elem_of_cons; [unfold cmp_le; by rewrite E|by eapply sorted_last]. }
          intros x y Hx [->|Hy]%elem_of_cons; [by apply Hw|]. eapply (cmp_trans order _ w); [by apply Hw|].
          apply Hle; [|done]. apply elem_of_app. right. left. }
    all: split; [done|rewrite !length_app; cbn [length]; lia|]; exists (c :: rest); split;
      [rewrite <- Hp; etrans; [symmetry; apply Permutation_middle|apply Permutation_cons_append]|];
      intros x y Hx [->|Hy]%elem_of_cons; [|by apply Hle];
      assert (cmp_le order w c) as Hwc by (unfold cmp_le; rewrite (cmp_antisym order), E; done);
      apply elem_of_app in Hx as [Hx| ->%list_elem_of_singleton]; [|exact Hwc];
      (eapply (cmp_trans order _ w); [by eapply sorted_last|exact Hwc]).
Qed.
Lemma retain_all include scored : (0 < limit)%nat -> forall seen retained, keeps seen retained ->
  keeps (seen ++ List.filter include scored) (foldl (fun retained c => if include c then retain t limit retained c else retained) retained scored).
Proof.
  intros Hpos. induction scored as [|c scored IH]; intros seen retained H; cbn [foldl List.filter]; [by rewrite app_nil_r|].
  destruct (include c); [|by apply IH]. change (c :: List.filter include scored) with ([c] ++ List.filter include scored).
  rewrite (assoc_L (++)). by apply IH, retain_keeps.
Qed.
Lemma controlled_best include scored : best_of order limit (List.filter include scored) (top_scored_controlled t include limit scored).
Proof.
  unfold top_scored_controlled. destruct (Nat.eqb_spec limit 0) as [->|Hne].
  { split; [constructor|]. split; [done|]. exists (List.filter include scored). split; [done|]. by intros x y ?%not_elem_of_nil. }
  destruct (retain_all include scored ltac:(lia) [] []) as [Hs Hl Hr].
  { split; [constructor|by rewrite Nat.min_0_r|]. exists []. split; [done|]. by intros x y ?%not_elem_of_nil. }
  eapply best_sorted; [apply _|split; [exact Hs|split; [exact Hl|exact Hr]]|apply sort_by_perm|apply sort_by_sorted, _].
Qed.
End retain.

(** ** Quotas are served *)

Definition quota_of (q : CompletionRecallQuotas) (channel : ScopeChannel) : N :=
  match channel with
  | ChannelReachable => q.(q_reachable)
  | ChannelExternal => q.(q_external)
  | ChannelUnknown => q.(q_unknown)
  | ChannelGlobal => q.(q_global)
  end.
(** The quotas together do not exceed the total. *)
Definition quotas_fit (q : CompletionRecallQuotas) : Prop :=
  (q.(q_reachable) + q.(q_external) + q.(q_unknown) + q.(q_global) + q.(same_project) <= q.(total_indexed) <= usize_max)%N.

Section selection.
Context (t : NameTable) (scored : list ScoredCandidate).
Hypothesis Hnd : NoDup (sc_index <$> scored).
Local Abbreviation order := (scored_order t).

Lemma same_index c c' : c ∈ scored -> c' ∈ scored -> sc_index c = sc_index c' -> c = c'.
Proof.
  intros [i Hi]%list_elem_of_lookup [j Hj]%list_elem_of_lookup He.
  assert (i = j) as ->; [|congruence]. eapply NoDup_lookup; [exact Hnd| |]; rewrite list_lookup_fmap; [by rewrite Hi|by rewrite Hj, He].
Qed.
Record taken (st : gset nat * list ScoredCandidate) : Prop := {
  ta_in c : c ∈ st.2 -> c ∈ scored;
  ta_index i : i ∈ st.1 <-> i ∈ sc_index <$> st.2;
  ta_nodup : NoDup (sc_index <$> st.2);
}.
Lemma taken_elem st c : taken st -> c ∈ scored -> c.(sc_index) ∈ st.1 -> c ∈ st.2.
Proof.
  intros Ht Hc. rewrite (ta_index _ Ht), list_elem_of_fmap. intros (c' & He & Hc'). by rewrite (same_index c c' Hc (ta_in _ Ht c' Hc') He).
Qed.
Lemma taken_push st c : taken st -> c ∈ scored -> c.(sc_index) ∉ st.1 -> taken ({[c.(sc_index)]} ∪ st.1, st.2 ++ [c]).
Proof.
  intros Ht Hc Hn. split; cbn [fst snd].
  - intros x [Hx| ->%list_elem_of_singleton]%elem_of_app; [by apply Ht|done].
  - intros i. rewrite fmap_app, elem_of_app, elem_of_union, elem_of_singleton, (ta_index _ Ht). cbn. rewrite list_elem_of_singleton. tauto.
  - rewrite fmap_app. apply NoDup_app. split; [apply Ht|]. split; [|apply NoDup_singleton]. intros i Hi ->%list_elem_of_singleton.
    apply Hn. by apply (ta_index _ Ht).
Qed.
Lemma take_some_ok keep l : forall quota st, taken st -> (forall c, c ∈ l -> c ∈ scored) ->
  taken (take_some keep quota l st) /\ st.2 `prefix_of` (take_some keep quota l st).2 /\
  (length (take_some keep quota l st).2 <= length st.2 + quota)%nat /\
  ((length l <= quota)%nat -> forall c, c ∈ l -> keep c = true -> c ∈ (take_some keep quota l st).2).
Proof.
  induction l as [|c l IH]; intros quota st Ht Hl.
  { cbn. split; [done|]. split; [done|]. split; [lia|]. by intros _ c ?%not_elem_of_nil. }
  assert (forall x, x ∈ l -> x ∈ scored) as Hl' by (intros; apply Hl; by right). assert (c ∈ scored) as Hc by (apply Hl; left).
  destruct quota as [|quota]; cbn [take_some length].
  { split; [done|]. split; [done|]. split; [lia|]. lia. }
  destruct (negb (keep c) || bool_decide (c.(sc_index) ∈ st.1)) eqn:E.
  - destruct (IH (S quota) st Ht Hl') as (H1 & H2 & H3 & H4). split_and!; [done..|lia|].
    intros Hle x [->|Hx]%elem_of_cons Hk; [|apply H4; [lia|done|done]]. rewrite Hk in E. cbn in E. apply bool_decide_eq_true in E.
    eapply elem_of_prefix; [|exact H2]. by apply taken_elem.
  - apply orb_false_iff in E as [_ E%bool_decide_eq_false]. destruct (IH quota _ (taken_push st c Ht Hc E) Hl') as (H1 & H2 & H3 & H4).
    cbn [snd] in *. rewrite length_app in H3. cbn [length] in H3. split_and!; [done| |lia|].
    + etrans; [|exact H2]. by apply prefix_app_r.
    + intros Hle x [->|Hx]%elem_of_cons Hk; [|apply H4; [lia|done|done]]. eapply elem_of_prefix; [|exact H2]. apply elem_of_app. right. left.
Qed.
Lemma fill_ok total l : forall st, taken st -> (forall c, c ∈ l -> c ∈ scored) ->
  taken (fill total l st) /\ st.2 `prefix_of` (fill total l st).2 /\
  (length (fill total l st).2 <= Nat.max (length st.2) total)%nat /\
  ((length (fill total l st).2 < total)%nat -> forall c, c ∈ l -> c ∈ (fill total l st).2).
Proof.
  induction l as [|c l IH]; intros st Ht Hl; cbn [fill].
  { split; [done|]. split; [done|]. split; [lia|]. by intros _ c ?%not_elem_of_nil. }
  assert (forall x, x ∈ l -> x ∈ scored) as Hl' by (intros; apply Hl; by right). assert (c ∈ scored) as Hc by (apply Hl; left).
  destruct (Nat.leb_spec total (length st.2)) as [Hge|Hlt].
  { split; [done|]. split; [done|]. split; [lia|]. lia. }
  case_bool_decide as E.
  - destruct (IH st Ht Hl') as (H1 & H2 & H3 & H4). split_and!; [done..|].
    intros Hle x [->|Hx]%elem_of_cons; [|by apply H4]. eapply elem_of_prefix; [|exact H2]. by apply taken_elem.
  - destruct (IH _ (taken_push st c Ht Hc E) Hl') as (H1 & H2 & H3 & H4). cbn [snd] in *. rewrite length_app in H3. cbn [length] in H3.
    split_and!; [done| |lia|].
    + etrans; [|exact H2]. by apply prefix_app_r.
    + intros Hle x [->|Hx]%elem_of_cons; [|by apply H4]. eapply elem_of_prefix; [|exact H2]. apply elem_of_app. right. left.
Qed.
Lemma taken_length st : taken st -> (length st.2 <= length scored)%nat.
Proof.
  intros Ht. rewrite <- (length_fmap sc_index), <- (length_fmap sc_index scored). apply submseteq_length, NoDup_submseteq; [apply Ht|].
  intros i (c & -> & Hc)%list_elem_of_fmap. apply list_elem_of_fmap. exists c. split; [done|]. by apply Ht.
Qed.
Lemma controlled_in include limit c : c ∈ top_scored_controlled t include limit scored -> c ∈ scored /\ include c = true.
Proof. intros H. eapply best_elem in H; [|apply controlled_best]. by apply elem_of_filter_bool in H. Qed.
Lemma controlled_length include limit : (length (top_scored_controlled t include limit scored) <= limit)%nat.
Proof. destruct (controlled_best t limit include scored) as (_ & -> & _). lia. Qed.

(** One channel: its best candidates are all taken. *)
Lemma stage_ok include quota st : taken st ->
  taken (take_some include quota (top_scored_controlled t include quota scored) st) /\
  st.2 `prefix_of` (take_some include quota (top_scored_controlled t include quota scored) st).2 /\
  (length (take_some include quota (top_scored_controlled t include quota scored) st).2 <= length st.2 + quota)%nat /\
  forall c, c ∈ top_scored_controlled t include quota scored -> c ∈ (take_some include quota (top_scored_controlled t include quota scored) st).2.
Proof.
  intros Ht. destruct (take_some_ok include (top_scored_controlled t include quota scored) quota st Ht) as (H1 & H2 & H3 & H4).
  { intros c Hc. by apply controlled_in in Hc as [? _]. }
  split_and!; [done..|]. intros c Hc. apply H4; [apply controlled_length|done|]. by apply controlled_in in Hc as [_ ?].
Qed.
(** All channels together. *)
Definition channels (q : CompletionRecallQuotas) (active_project : option ProjectKey) : gset nat * list ScoredCandidate :=
  let st := take_channel (channel_top t scored ChannelReachable q.(q_reachable)) ChannelReachable q.(q_reachable) (∅, []) in
  let st := take_same_project t (project_top t scored active_project q.(same_project)) active_project q.(same_project) st in
  let st := take_channel (channel_top t scored ChannelExternal q.(q_external)) ChannelExternal q.(q_external) st in
  let st := take_channel (channel_top t scored ChannelUnknown q.(q_unknown)) ChannelUnknown q.(q_unknown) st in
  take_channel (channel_top t scored ChannelGlobal q.(q_global)) ChannelGlobal q.(q_global) st.
Lemma channels_ok q active_project :
  taken (channels q active_project) /\
  (length (channels q active_project).2 <= N.to_nat (q_reachable q + q_external q + q_unknown q + q_global q + same_project q))%nat /\
  (forall channel c, c ∈ channel_top t scored channel (quota_of q channel) -> c ∈ (channels q active_project).2) /\
  (forall c, c ∈ project_top t scored active_project q.(same_project) -> c ∈ (channels q active_project).2).
Proof.
  unfold channels, take_channel, channel_top.
  assert (taken (∅, [])) as H0.
  { split; cbn [fst snd]; [by intros c ?%not_elem_of_nil|set_solver|constructor]. }
  destruct (stage_ok (in_channel ChannelReachable) (N.to_nat q.(q_reachable)) (∅, []) H0) as (H1 & _ & L1 & M1). cbn [snd length] in L1.
  set (st1 := take_some _ _ _ (∅, [])) in *.
  assert (taken (take_same_project t (project_top t scored active_project q.(same_project)) active_project q.(same_project) st1) /\
    st1.2 `prefix_of` (take_same_project t (project_top t scored active_project q.(same_project)) active_project q.(same_project) st1).2 /\
    (length (take_same_project t (project_top t scored active_project q.(same_project)) active_project q.(same_project) st1).2 <= length st1.2 + N.to_nat q.(same_project))%nat /\
    forall c, c ∈ project_top t scored active_project q.(same_project) ->
      c ∈ (take_same_project t (project_top t scored active_project q.(same_project)) active_project q.(same_project) st1).2) as (H2 & P2 & L2 & M2).
  { unfold take_same_project, project_top. destruct active_project as [key|]; [by apply stage_ok|]. split_and!; [done|done|lia|].
    by intros c ?%not_elem_of_nil. }
  set (st2 := take_same_project _ _ _ _ st1) in *. clearbody st2.
  destruct (stage_ok (in_channel ChannelExternal) (N.to_nat q.(q_external)) st2 H2) as (H3 & P3 & L3 & M3). set (st3 := take_some _ _ _ st2) in *. clearbody st3.
  destruct (stage_ok (in_channel ChannelUnknown) (N.to_nat q.(q_unknown)) st3 H3) as (H4 & P4 & L4 & M4). set (st4 := take_some _ _ _ st3) in *. clearbody st4.
  destruct (stage_ok (in_channel ChannelGlobal) (N.to_nat q.(q_global)) st4 H4) as (H5 & P5 & L5 & M5). set (st5 := take_some _ _ _ st4) in *. clearbody st5 st1.
  pose proof (fun c h => elem_of_prefix _ _ c h P5) as E5. pose proof (fun c h => elem_of_prefix _ _ c h P4) as E4.
  pose proof (fun c h => elem_of_prefix _ _ c h P3) as E3. pose proof (fun c h => elem_of_prefix _ _ c h P2) as E2.
  split; [done|]. split; [lia|]. split; [|by auto 8]. intros [] c Hc; cbn [quota_of] in Hc; auto 8.
Qed.
Lemma select_ok q active_project :
  StronglySorted (cmp_le order) (select_recall t q active_project scored) /\
  NoDup (sc_index <$> select_recall t q active_project scored) /\
  (forall c, c ∈ select_recall t q active_project scored -> c ∈ scored) /\
  (length (select_recall t q active_project scored) <= N.to_nat q.(total_indexed))%nat /\
  (quotas_fit q ->
     length (select_recall t q active_project scored) = Nat.min (N.to_nat q.(total_indexed)) (length scored) /\
     (forall channel c, c ∈ channel_top t scored channel (quota_of q channel) -> c ∈ select_recall t q active_project scored) /\
     (forall c, c ∈ project_top t scored active_project q.(same_project) -> c ∈ select_recall t q active_project scored)).
Proof.
  destruct (channels_ok q active_project) as (Ht & Hlen & Hch & Hpr). unfold select_recall. fold (channels q active_project).
  set (total := N.to_nat q.(total_indexed)).
  set (top := top_scored_controlled t (fun _ => true) (N.to_nat (q.(total_indexed) +s reserved q)) scored).
  destruct (fill_ok total top (channels q active_project) Ht) as (F1 & F2 & F3 & F4).
  { intros c Hc. by apply controlled_in in Hc as [? _]. }
  set (st := fill total top (channels q active_project)) in *.
  assert (forall c, c ∈ take total (sort_scored t st.2) -> c ∈ st.2) as Hin.
  { intros c Hc. eapply elem_of_sublist in Hc; [|apply sublist_take]. unfold sort_scored in Hc. by rewrite elem_of_sort_by in Hc. }
  split; [eapply sublist_StronglySorted; [apply sublist_take|apply sort_by_sorted, _]|].
  split; [eapply sublist_NoDup; [|apply fmap_sublist, sublist_take]; unfold sort_scored; rewrite sort_by_perm; apply F1|].
  split; [intros c Hc; by apply F1, Hin|]. split; [rewrite length_take; lia|].
  intros [Hfit Hmax]. assert (length st.2 <= total)%nat as Hle by lia.
  rewrite take_ge by (unfold sort_scored; by rewrite sort_by_length). unfold sort_scored. split; [|split].
  - rewrite sort_by_length. pose proof (taken_length st F1) as Hub. destruct (decide (length st.2 < total)%nat) as [Hlt|]; [|lia].
    specialize (F4 Hlt). assert (length scored <= length st.2)%nat; [|lia].
    destruct (controlled_best t (N.to_nat (q.(total_indexed) +s reserved q)) (fun _ => true) scored) as (_ & Hl & rest & Hp & _). fold top in Hl, Hp.
    rewrite filter_true in Hl, Hp by done.
    assert (length top <= length st.2)%nat as Htop.
    { apply submseteq_length, NoDup_submseteq; [|done]. apply (NoDup_fmap_1 sc_index). eapply NoDup_of_submseteq; [|exact Hnd].
      apply fmap_submseteq. rewrite <- Hp. by apply submseteq_inserts_r. }
    assert (total <= N.to_nat (q.(total_indexed) +s reserved q))%nat; [|lia]. unfold total, saturating_add. lia.
  - intros channel c Hc. rewrite elem_of_sort_by. eapply elem_of_prefix; [|exact F2]. by eapply Hch.
  - intros c Hc. rewrite elem_of_sort_by. eapply elem_of_prefix; [|exact F2]. by apply Hpr.
Qed.
End selection.

(** ** The candidate slots enumerate the family *)

Definition segment_slots (f : SemanticFamily) (p : NameSegment * nat) : list nat :=
  (fun local => p.2 + N.to_nat local)%nat <$> slot f p.1.(sorted_by_family).
Lemma index_in_lookup f segs : forall ordinal, index_in f segs ordinal = concat (segment_slots f <$> segs) !! ordinal.
Proof.
  induction segs as [|[s offset] segs IH]; intros ordinal; [done|]. rewrite fmap_cons. cbn [concat index_in].
  unfold segment_slots at 1. cbn [fst snd]. destruct (Nat.ltb_spec ordinal (length (slot f s.(sorted_by_family)))) as [Hlt|Hge].
  - rewrite lookup_app_l by by rewrite length_fmap. rewrite list_lookup_fmap. by destruct (slot f s.(sorted_by_family) !! ordinal).
  - rewrite lookup_app_r by (by rewrite length_fmap). rewrite length_fmap. apply IH.
Qed.
Lemma mapM_lookup {A} (l : list A) : mapM (fun i => l !! i) (seq 0 (length l)) = Some l.
Proof.
  apply mapM_Some. apply Forall2_same_length_lookup_2; [by rewrite length_seq|]. intros i x y Hx Hy. apply lookup_seq in Hx as [-> _]. done.
Qed.

Section slots.
Context (t : NameTable) (b : list NameEntry) (ds : list (list NameEntry)).
Hypothesis Ht : table_ok t b ds.

Lemma name_of_tagged i d e : tagged b ds !! i = Some (d, e) -> name_of t i = normalise e.
Proof. intros H. unfold name_of. by rewrite (proj1 (slot_lookup t b ds Ht i d e H)). Qed.
Lemma segment_slots_ok f s es d offset : segment_ok s es ->
  (forall j e, es !! j = Some e -> tagged b ds !! (offset + j)%nat = Some (d, e)) ->
  segment_slots f (s, offset) ≡ₚ List.filter (of_family t (Some f)) (seq offset (length es)).
Proof.
  intros Hs Hsl. unfold segment_slots. cbn [fst snd]. rewrite (sg_sorted _ _ Hs). unfold family_ids, sorted_ids.
  rewrite sort_by_perm. unfold ids_upto. rewrite List_filter_fmap, <- list_fmap_compose.
  replace (seq offset (length es)) with (Nat.add offset <$> seq 0 (length es)) by (by rewrite fmap_add_seq, Nat.add_0_r).
  rewrite List_filter_fmap, (list_fmap_ext _ (Nat.add offset)) by (intros i k _; unfold compose; by rewrite Nat2N.id).
  erewrite List.filter_ext_in; [done|]. intros k Hk%List.in_seq. destruct (lookup_lt_is_Some_2 es k) as [e He]; [lia|].
  unfold compose, of_family, family_ok, family_at, get. rewrite Nat2N.id, He, (name_of_tagged _ d e (Hsl k e He)). done.
Qed.
Lemma segments_upto f n : (n <= length ds)%nat -> exists segs, mapM (segment_with_offset t) (seq 0 (S n)) = Some segs /\
  concat (segment_slots f <$> segs) ≡ₚ List.filter (of_family t (Some f)) (seq 0 (slot_end b ds (S n))).
Proof.
  induction n as [|n IH]; intros Hn.
  - destruct (segment_slot_ok t b ds Ht 0 Hn) as (s & es & d & Hseg & Hok & _ & Hsl & He). exists [(s, slot_end b ds 0)].
    split; [cbn [seq mapM]; by rewrite Hseg|]. rewrite He. cbn [fmap list_fmap concat]. rewrite app_nil_r. by apply (segment_slots_ok f s es d).
  - destruct (IH ltac:(lia)) as (segs & Hm & Hp). destruct (segment_slot_ok t b ds Ht (S n) Hn) as (s & es & d & Hseg & Hok & _ & Hsl & He).
    exists (segs ++ [(s, slot_end b ds (S n))]). rewrite seq_S. split; [by apply mapM_snoc|]. rewrite fmap_app, concat_app, Hp.
    cbn [fmap list_fmap concat]. rewrite app_nil_r, (segment_slots_ok f s es d _ Hok Hsl), He. by rewrite <- List.filter_app, <- seq_app.
Qed.
Lemma candidate_slots_ok family : exists len slots, candidate_slot_len t family = Some len /\
  mapM (candidate_index_at t family) (seq 0 len) = Some slots /\ slots ≡ₚ List.filter (of_family t family) (seq 0 t.(slot_len)).
Proof.
  destruct family as [f|].
  - destruct (segments_upto f (length ds) (le_n _)) as (segs & Hm & Hp). cbn [candidate_slot_len candidate_index_at].
    assert (segments t = Some segs) as Hsegs by (unfold segments; by rewrite (Forall2_length _ _ _ (tk_deltas _ _ _ Ht))).
    rewrite Hsegs.
    cbn [mbind option_bind]. eexists _, (concat (segment_slots f <$> segs)). split; [done|]. split.
    + assert (sum_list ((fun p : NameSegment * nat => length (slot f p.1.(sorted_by_family))) <$> segs) = length (concat (segment_slots f <$> segs))) as ->.
      { rewrite length_concat_sum, <- list_fmap_compose. f_equal. apply list_fmap_ext. intros i p _. unfold compose, segment_slots. by rewrite length_fmap. }
      rewrite <- mapM_lookup. apply mapM_ext. intros i. cbn [candidate_index_at]. rewrite Hsegs. apply index_in_lookup.
    + rewrite Hp. cbn [slot_end]. by rewrite <- (tk_slots _ _ _ Ht).
  - exists t.(slot_len), (seq 0 t.(slot_len)). split; [done|]. split.
    + rewrite (mapM_all _ id); [by rewrite list_fmap_id|]. intros i Hi%elem_of_seq. cbn [candidate_index_at]. by rewrite (proj2 (Nat.ltb_lt _ _)) by lia.
    + by rewrite filter_true.
Qed.
End slots.

(** ** The recall *)

Lemma scored_index t needle m ctx i c : scored_at t needle m ctx i = Some c -> sc_index c = i.
Proof.
  unfold scored_at, scored_entry. destruct (shown_at t i); [|done]. cbn. destruct (score_entry _ _); [|done]. cbn. case_match; [done|]. by intros [= <-].
Qed.
Lemma omap_index_nodup t needle m ctx (is_ : list nat) : NoDup is_ -> NoDup (sc_index <$> omap (scored_at t needle m ctx) is_).
Proof.
  induction 1 as [|i is_ Hi _ IH]; [constructor|]. cbn [omap list_omap]. destruct (scored_at t needle m ctx i) as [c|] eqn:E; [|done].
  rewrite fmap_cons. constructor; [|done]. intros (c' & He & (j & Hj & Hc')%list_elem_of_omap)%list_elem_of_fmap.
  apply scored_index in E, Hc'. congruence.
Qed.
Lemma filter_omap_index t g needle m ctx (is_ : list nat) :
  List.filter (fun c => g c.(sc_index)) (omap (scored_at t needle m ctx) is_) = omap (scored_at t needle m ctx) (List.filter g is_).
Proof.
  induction is_ as [|i is_ IH]; [done|]. cbn [omap list_omap List.filter]. destruct (scored_at t needle m ctx i) as [c|] eqn:E.
  - cbn [List.filter]. rewrite (scored_index _ _ _ _ _ _ E). destruct (g i); cbn [omap list_omap]; [rewrite E|]; by rewrite IH.
  - destruct (g i); cbn [omap list_omap]; [rewrite E|]; by rewrite IH.
Qed.

(** C23 A completion recall with an unlimited budget never fails, for any layering of
    segments. Its pool is exactly the active entries of the family that the query
    matches. When the quotas fit the total, as the default ones do, its hits are as many
    as the total admits, each declaration once, best first, and they include the best
    candidates of every scope channel and of the active project up to the channel's
    quota: no channel is crowded out by another. *)
Theorem recall_serves_quotas t b ds query q scope active_project family :
  table_ok t b ds -> trimmed query <> "" -> quotas_fit q ->
  let needle := lower (trimmed query) in
  exists hits pool scored chosen,
    search_completion_recall t query q scope active_project None family = Some (hits, pool) /\
    Forall2 (fun c h => scored_to_hit t c = Some h) chosen hits /\
    NoDup pool /\
    (forall i, i ∈ pool <-> exists e, shown_at t i = Some e /\ family_ok family e = true /\ matches needle e = true) /\
    (forall c, c ∈ scored <-> exists i e, shown_at t i = Some e /\ family_ok family e = true /\
       scored_entry t needle (min_score_for needle) (option_map resolve_context scope) i e = Some c) /\
    StronglySorted (cmp_le (scored_order t)) chosen /\ NoDup (sc_index <$> chosen) /\ (forall c, c ∈ chosen -> c ∈ scored) /\
    length chosen = Nat.min (N.to_nat q.(total_indexed)) (length scored) /\
    (forall channel, exists top, best_of (scored_order t) (N.to_nat (quota_of q channel)) (List.filter (in_channel channel) scored) top /\
       forall c, c ∈ top -> c ∈ chosen) /\
    (forall key, active_project = Some key -> exists top,
       best_of (scored_order t) (N.to_nat q.(same_project)) (List.filter (in_project t key) scored) top /\ forall c, c ∈ top -> c ∈ chosen).
Proof.
  intros Ht Hq Hfit needle. destruct (candidate_slots_ok t b ds Ht family) as (len & slots & Hlen & Hslots & Hperm).
  set (m := min_score_for needle). set (ctx := option_map resolve_context scope).
  assert (Forall (fun i => (i < slot_len t)%nat) slots) as Hb.
  { apply Forall_forall. intros i Hi. rewrite Hperm in Hi. apply elem_of_filter_bool in Hi as [Hi%elem_of_seq _]. lia. }
  assert (NoDup slots) as Hnd by (rewrite Hperm; eapply sublist_NoDup; [apply NoDup_seq|apply list_filter_bool_sublist]).
  assert (forall i, i ∈ slots -> of_family t family i = true) as Hfam by (intros i Hi; rewrite Hperm in Hi; by apply elem_of_filter_bool in Hi as [_ ?]).
  assert (forall i e, shown_at t i = Some e -> i ∈ slots <-> family_ok family e = true) as Hin.
  { intros i e He. rewrite Hperm, elem_of_filter_bool. unfold of_family. rewrite (shown_name t i e He). split; [by intros [_ ?]|]. intros Hf.
    split; [|done]. apply elem_of_seq. split; [lia|]. unfold shown_at in He. destruct (is_active_index t i) as [[]|]; [|done|done]. cbn in He.
    by eapply entry_in_range. }
  set (scored := omap (scored_at t needle m ctx) slots).
  destruct (select_ok t scored (omap_index_nodup _ _ _ _ _ Hnd) q active_project) as (Hs & Hn & Hsub & _ & Hq').
  destruct (Hq' Hfit) as (Hl & Hch & Hpr).
  destruct (hits_total t b ds Ht (select_recall t q active_project scored)) as (hits & Hh & H2).
  { apply Forall_forall. intros c Hc%Hsub. pose proof (scored_bounded t needle m ctx slots Hb) as Hsb. rewrite Forall_forall in Hsb. by apply Hsb. }
  exists hits, (List.filter (matched t needle) slots), scored, (select_recall t q active_project scored). split_conj; try done.
  - unfold search_completion_recall, scored_pool_for_query. rewrite Hlen. cbn [mbind option_bind]. rewrite bool_decide_eq_false_2 by done.
    rewrite Hslots. cbn [mbind option_bind]. fold needle m ctx. rewrite (consider_all t b ds Ht) by done. cbn [mbind option_bind fst snd app].
    rewrite filter_omap_index, (filter_true (of_family t family) slots) by exact Hfam. fold scored. rewrite Hh. cbn [mbind option_bind]. do 2 f_equal.
    apply filter_true. intros i [Hi _]%elem_of_filter_bool. by apply Hfam.
  - eapply sublist_NoDup; [exact Hnd|apply list_filter_bool_sublist].
  - intros i. rewrite elem_of_filter_bool. unfold matched. split.
    + intros [Hi Hm]. destruct (shown_at t i) as [e|] eqn:E; [|done]. exists e. split_and!; [done|by apply (Hin i e E)|done].
    + intros (e & He & Hf & Hm). rewrite He. split; [by apply (Hin i e He)|done].
  - intros c. unfold scored. rewrite list_elem_of_omap. split.
    + intros (i & Hi & Hc). unfold scored_at in Hc. destruct (shown_at t i) as [e|] eqn:E; [|done]. exists i, e. split_and!; [done|by apply (Hin i e E)|done].
    + intros (i & e & He & Hf & Hc). exists i. split; [by apply (Hin i e He)|]. unfold scored_at. by rewrite He.
  - intros channel. exists (channel_top t scored channel (quota_of q channel)). split; [apply controlled_best|apply Hch].
  - intros key ->. exists (project_top t scored (Some key) q.(same_project)). split; [apply controlled_best|apply Hpr].
Qed.
Lemma default_quotas_fit limit : (4 * limit <= usize_max)%N ->
  quotas_fit (default_for_completion_limit limit) /\ quotas_fit (with_project_context limit).
Proof.
  intros H. assert (2 * (limit / 2) <= limit)%N by (apply N.Div0.mul_div_le).
  unfold quotas_fit, with_project_context, default_for_completion_limit. cbn [total_indexed q_reachable q_external q_unknown q_global same_project].
  unfold saturating_mul, saturating_add. lia.
Qed.
Lemma recall_serves_quotas_witness :
  exists t hits pool, from_entries demo_names = Some t /\
    search_completion_recall t "o" (default_for_completion_limit 2) None None None (Some CFamily) = Some (hits, pool) /\ NoDup pool.
Proof.
  destruct demo_table_ok as (t & ds & Ht & Hok).
  destruct (recall_serves_quotas t demo_names ds "o" (default_for_completion_limit 2) None None (Some CFamily) Hok
    ltac:(vm_compute; discriminate) (proj1 (default_quotas_fit 2 ltac:(vm_compute; discriminate))))
    as (hits & pool & scored & chosen & Hr & _ & Hp & _).
  exists t, hits, pool. split; [exact Ht|]. split; [exact Hr|exact Hp].
Defined.
Example demo_recall :
  (t ← from_entries demo_names; r ← search_completion_recall t "o" (default_for_completion_limit 2) None None None None;
   Some (fmap (M := list) hit_name r.1, r.2)) = Some (["OpenFile"; "openFile"]%string, [0; 1; 2; 3]%nat).
Proof. vm_compute. reflexivity. Qed.
