(* ===== verification/TypeCandidates.v ===== *)
(** * Record and typedef candidates (query/type_resolution.rs)

    The facts a type query works on, from stored rows or from the open document, and
    the bounded candidate sets of one name: filtered, ranked by scope, deduplicated by
    identity, truncated. *)

From S2P Require Import Prelude Candidates CallModel Relations Callables.

(** ** Facts of the parser (semantic_model.rs) *)

Inductive RecordKind : Type := KindStruct | KindUnion | KindClass | KindInterface.
#[export] Instance RecordKind_eq_dec : EqDecision RecordKind.
Proof. solve_decision. Defined.
Inductive RecordConfidence : Type := NamedTag | AnonymousTypedef | RecordHeuristic.
Inductive RecordRangeFidelity : Type := RangeAstExact | RangeMalformed.
Inductive AliasTarget : Type :=
  | RecordKey (key : string)
  | TargetNamedRecord (tag : string) (kind : RecordKind)
  | UnresolvedTypeName (name : string).
Inductive DeclaratorShape : Type :=
  | Identity
  | Pointer (qualifiers : list string)
  | Array (extent_text : string)
  | Function_ (signature : string)
  | FunctionPointer (signature : string)
  | Qualified (qualifiers : list string)
  | Unsupported.
#[export] Instance DeclaratorShape_eq_dec : EqDecision DeclaratorShape.
Proof. solve_decision. Defined.
Inductive AliasTargetFidelity : Type := AstExact | TargetHeuristic | TargetMalformed.
#[export] Instance AliasTargetFidelity_eq_dec : EqDecision AliasTargetFidelity.
Proof. solve_decision. Defined.

Record RecordDef : Type := mkRecordDef {
  rd_record_key : string;
  rd_display_name : string;
  rd_tag_name : option string;
  rd_typedef_name : option string;
  rd_kind : RecordKind;
  rd_start_byte : N; rd_end_byte : N; rd_start_line : N; rd_start_col : N; rd_end_line : N; rd_end_col : N;
  rd_name_range : SourceRange;
  rd_body_range : SourceRange;
  rd_declaration_range : SourceRange;
  rd_declaration_hash : list N;
  rd_range_fidelity : RecordRangeFidelity;
  rd_confidence : RecordConfidence;
  rd_signature : string;
  rd_owner : option string;
  rd_guard : option string;
}.
Record TypeAlias : Type := mkTypeAlias {
  al_alias : string;
  al_target : AliasTarget;
  al_start_byte : N; al_end_byte : N; al_start_line : N; al_start_col : N; al_end_line : N; al_end_col : N;
  al_declaration_range : SourceRange;
  al_declaration_hash : list N;
  al_underlying_spelling : string;
  al_declarator_shape : DeclaratorShape;
  al_target_fidelity : AliasTargetFidelity;
  al_fingerprint : string;
  al_owner : option string;
  al_guard : option string;
}.

(** ** Stored rows (store/views/member.rs) *)

Record RecordReadRow : Type := mkRecordRow {
  rr_id : Z;
  rr_display_name : string;
  rr_tag_name : option string;
  rr_typedef_name : option string;
  rr_kind : RecordKind;
  rr_path : string;
  rr_external : bool;
  rr_directly_included : bool;
  rr_start_byte : N; rr_end_byte : N; rr_start_line : N; rr_start_col : N; rr_end_line : N; rr_end_col : N;
  rr_body_range : SourceRange;
  rr_declaration_range : SourceRange;
  rr_range_fidelity : RecordRangeFidelity;
  rr_confidence : RecordConfidence;
  rr_signature : string;
  rr_revision_id : Z; rr_revision_size : N; rr_revision_mtime_ns : Z; rr_revision_hash : string;
  rr_declaration_hash : list N;
  rr_owner : option string;
  rr_guard : option string;
}.
Record TypeAliasReadRow : Type := mkAliasRow {
  ar_id : Z;
  ar_alias : string;
  ar_path : string;
  ar_external : bool;
  ar_directly_included : bool;
  ar_name_range : SourceRange;
  ar_declaration_range : SourceRange;
  ar_underlying_spelling : string;
  ar_declarator_shape : DeclaratorShape;
  ar_target_fidelity : AliasTargetFidelity;
  ar_fingerprint : string;
  ar_target_record_id : option Z;
  ar_target_name : option string;
  ar_target_kind : option RecordKind;
  ar_confidence : string;
  ar_revision_id : Z; ar_revision_size : N; ar_revision_mtime_ns : Z; ar_revision_hash : string;
  ar_declaration_hash : list N;
  ar_owner : option string;
  ar_guard : option string;
}.

(** ** Candidates *)

Inductive RecordCandidateIdentity : Type :=
  | PersistentRecord (id : Z)
  | ParserKey (path record_key : string).
Inductive TypeAliasCandidateIdentity : Type :=
  | PersistentAlias (id : Z) (fingerprint : string)
  | ParserFingerprint (path fingerprint : string).
#[export] Instance RecordCandidateIdentity_eq_dec : EqDecision RecordCandidateIdentity.
Proof. solve_decision. Defined.
#[export] Instance TypeAliasCandidateIdentity_eq_dec : EqDecision TypeAliasCandidateIdentity.
Proof. solve_decision. Defined.
#[export] Program Instance RecordCandidateIdentity_countable : Countable RecordCandidateIdentity :=
  inj_countable' (fun i => match i with PersistentRecord id => inl id | ParserKey p k => inr (p, k) end)
    (fun x => match x with inl id => PersistentRecord id | inr (p, k) => ParserKey p k end) _.
Next Obligation. by intros []. Qed.
#[export] Program Instance TypeAliasCandidateIdentity_countable : Countable TypeAliasCandidateIdentity :=
  inj_countable' (fun i => match i with PersistentAlias id f => inl (id, f) | ParserFingerprint p f => inr (p, f) end)
    (fun x => match x with inl (id, f) => PersistentAlias id f | inr (p, f) => ParserFingerprint p f end) _.
Next Obligation. by intros []. Qed.

(** The derived [Ord] of an enumeration of two variants: the variant first, then its
    fields in order. *)
Definition sum_cmp {A B} (c1 : A -> A -> comparison) (c2 : B -> B -> comparison) (x y : A + B) : comparison :=
  match x, y with
  | inl a, inl a' => c1 a a'
  | inl _, inr _ => Lt
  | inr _, inl _ => Gt
  | inr b, inr b' => c2 b b'
  end.
Definition pair_cmp {A B} (c1 : A -> A -> comparison) (c2 : B -> B -> comparison) : A * B -> A * B -> comparison :=
  cmp_lex (cmp_on fst c1) (cmp_on snd c2).
Definition record_identity_cmp : RecordCandidateIdentity -> RecordCandidateIdentity -> comparison :=
  cmp_on (fun i => match i with PersistentRecord id => inl id | ParserKey p k => inr (p, k) end)
    (sum_cmp Z.compare (pair_cmp String.compare String.compare)).
Definition alias_identity_cmp : TypeAliasCandidateIdentity -> TypeAliasCandidateIdentity -> comparison :=
  cmp_on (fun i => match i with PersistentAlias id f => inl (id, f) | ParserFingerprint p f => inr (p, f) end)
    (sum_cmp (pair_cmp Z.compare String.compare) (pair_cmp String.compare String.compare)).

Record CandidateRevision : Type := mkRevision {
  cr_id : Z; cr_size : N; cr_mtime_ns : Z; cr_hash : string }.

Record RecordCandidate : Type := mkRecord {
  rc_identity : RecordCandidateIdentity;
  rc_display_name : string;
  rc_tag_name : option string;
  rc_typedef_name : option string;
  rc_kind : RecordKind;
  rc_path : string;
  rc_name_range : SourceRange;
  rc_body_range : SourceRange;
  rc_declaration_range : SourceRange;
  rc_declaration_hash : list N;
  rc_range_fidelity : RecordRangeFidelity;
  rc_confidence : RecordConfidence;
  rc_signature : string;
  rc_tier : ScopeTier;
  rc_revision : option CandidateRevision;
}.
Inductive TypeAliasTarget : Type :=
  | StableRecord (identity : RecordCandidateIdentity)
  | NamedRecord (tag : string) (kind : RecordKind)
  | TypeName (name : string).
Record TypeAliasCandidate : Type := mkAlias {
  ta_identity : TypeAliasCandidateIdentity;
  ta_alias : string;
  ta_target : TypeAliasTarget;
  ta_path : string;
  ta_name_range : SourceRange;
  ta_declaration_range : SourceRange;
  ta_declaration_hash : list N;
  ta_underlying_spelling : string;
  ta_declarator_shape : DeclaratorShape;
  ta_target_fidelity : AliasTargetFidelity;
  ta_fingerprint : string;
  ta_tier : ScopeTier;
  ta_revision : option CandidateRevision;
}.

(** [as u32] *)
Definition as_u32 (n : N) : N := (n mod 4294967296)%N.
Definition source_range_from_parts (start_byte end_byte start_line start_col end_line end_col : N) : SourceRange :=
  mkSrcRange (mkPos (as_u32 start_line) (as_u32 start_col)) (mkPos (as_u32 end_line) (as_u32 end_col))
    start_byte end_byte.

Definition record_from_read_row (row : RecordReadRow) (tier : ScopeTier) : RecordCandidate :=
  let name_range := mkSrcRange (mkPos (as_u32 row.(rr_start_line)) (as_u32 row.(rr_start_col)))
                      (mkPos (as_u32 row.(rr_end_line)) (as_u32 row.(rr_end_col)))
                      row.(rr_start_byte) row.(rr_end_byte) in
  {| rc_identity := PersistentRecord row.(rr_id);
     rc_display_name := row.(rr_display_name);
     rc_tag_name := row.(rr_tag_name);
     rc_typedef_name := row.(rr_typedef_name);
     rc_kind := row.(rr_kind);
     rc_path := row.(rr_path);
     rc_name_range := name_range;
     rc_body_range := row.(rr_body_range);
     rc_declaration_range := row.(rr_declaration_range);
     rc_declaration_hash := row.(rr_declaration_hash);
     rc_range_fidelity := row.(rr_range_fidelity);
     rc_confidence := row.(rr_confidence);
     rc_signature := row.(rr_signature);
     rc_tier := tier;
     rc_revision := Some (mkRevision row.(rr_revision_id) row.(rr_revision_size) row.(rr_revision_mtime_ns)
                            row.(rr_revision_hash)) |}.
Definition record_from_overlay (path : string) (record : RecordDef) (tier : ScopeTier) : RecordCandidate :=
  {| rc_identity := ParserKey path record.(rd_record_key);
     rc_display_name := record.(rd_display_name);
     rc_tag_name := record.(rd_tag_name);
     rc_typedef_name := record.(rd_typedef_name);
     rc_kind := record.(rd_kind);
     rc_path := path;
     rc_name_range := source_range_from_parts record.(rd_start_byte) record.(rd_end_byte)
                        record.(rd_start_line) record.(rd_start_col) record.(rd_end_line) record.(rd_end_col);
     rc_body_range := record.(rd_body_range);
     rc_declaration_range := record.(rd_declaration_range);
     rc_declaration_hash := record.(rd_declaration_hash);
     rc_range_fidelity := record.(rd_range_fidelity);
     rc_confidence := record.(rd_confidence);
     rc_signature := record.(rd_signature);
     rc_tier := tier;
     rc_revision := None |}.
Definition is_name (o : option string) (name : string) : bool := bool_decide (o = Some name).
Definition record_matches_exact_name (r : RecordCandidate) (name : string) : bool :=
  String.eqb r.(rc_display_name) name || is_name r.(rc_tag_name) name || is_name r.(rc_typedef_name) name.
Definition named_tag_matches (r : RecordCandidate) (tag : string) (kind : RecordKind) : bool :=
  is_name r.(rc_tag_name) tag && bool_decide (r.(rc_kind) = kind).

Definition alias_target_of_row (row : TypeAliasReadRow) : TypeAliasTarget :=
  match row.(ar_target_record_id), row.(ar_target_name), row.(ar_target_kind) with
  | Some record_id, _, _ => StableRecord (PersistentRecord record_id)
  | None, Some tag, Some kind => NamedRecord tag kind
  | None, Some name, None => TypeName name
  | None, None, _ => TypeName ""
  end.
Definition alias_from_read_row (row : TypeAliasReadRow) (tier : ScopeTier) : option TypeAliasCandidate :=
  let target := alias_target_of_row row in
  Some
  {| ta_identity := PersistentAlias row.(ar_id) row.(ar_fingerprint);
     ta_alias := row.(ar_alias);
     ta_target := target;
     ta_path := row.(ar_path);
     ta_name_range := row.(ar_name_range);
     ta_declaration_range := row.(ar_declaration_range);
     ta_declaration_hash := row.(ar_declaration_hash);
     ta_underlying_spelling := row.(ar_underlying_spelling);
     ta_declarator_shape := row.(ar_declarator_shape);
     ta_target_fidelity := row.(ar_target_fidelity);
     ta_fingerprint := row.(ar_fingerprint);
     ta_tier := tier;
     ta_revision := Some (mkRevision row.(ar_revision_id) row.(ar_revision_size) row.(ar_revision_mtime_ns)
                            row.(ar_revision_hash)) |}.
Definition alias_from_overlay (path : string) (alias : TypeAlias) (tier : ScopeTier) : TypeAliasCandidate :=
  let target := match alias.(al_target) with
                | RecordKey record_key => StableRecord (ParserKey path record_key)
                | TargetNamedRecord tag kind => NamedRecord tag kind
                | UnresolvedTypeName name => TypeName name
                end in
  {| ta_identity := ParserFingerprint path alias.(al_fingerprint);
     ta_alias := alias.(al_alias);
     ta_target := target;
     ta_path := path;
     ta_name_range := source_range_from_parts alias.(al_start_byte) alias.(al_end_byte)
                        alias.(al_start_line) alias.(al_start_col) alias.(al_end_line) alias.(al_end_col);
     ta_declaration_range := alias.(al_declaration_range);
     ta_declaration_hash := alias.(al_declaration_hash);
     ta_underlying_spelling := alias.(al_underlying_spelling);
     ta_declarator_shape := alias.(al_declarator_shape);
     ta_target_fidelity := alias.(al_target_fidelity);
     ta_fingerprint := alias.(al_fingerprint);
     ta_tier := tier;
     ta_revision := None |}.
Definition alias_matches_exact_name (a : TypeAliasCandidate) (name : string) : bool := String.eqb a.(ta_alias) name.

(** ** Ranking *)

Definition record_kind_rank (kind : RecordKind) : N :=
  match kind with KindStruct => 0 | KindUnion => 1 | KindClass => 2 | KindInterface => 3 end.
Definition compare_record_candidates : RecordCandidate -> RecordCandidate -> comparison :=
  cmp_lex (cmp_rev (cmp_on rc_tier tier_cmp))
    (cmp_lex (cmp_on rc_path String.compare)
       (cmp_lex (cmp_on (fun r => r.(rc_declaration_range).(start_byte)) N.compare)
          (cmp_lex (cmp_on (fun r => record_kind_rank r.(rc_kind)) N.compare)
             (cmp_on rc_identity record_identity_cmp)))).
Definition sort_record_candidates (l : list RecordCandidate) : list RecordCandidate :=
  sort_by compare_record_candidates l.
Definition alias_cmp : TypeAliasCandidate -> TypeAliasCandidate -> comparison :=
  cmp_lex (cmp_rev (cmp_on ta_tier tier_cmp))
    (cmp_lex (cmp_on ta_path String.compare)
       (cmp_lex (cmp_on (fun a => a.(ta_declaration_range).(start_byte)) N.compare)
          (cmp_on ta_identity alias_identity_cmp))).
Definition sort_alias_candidates (l : list TypeAliasCandidate) : list TypeAliasCandidate := sort_by alias_cmp l.
Definition min_tier (a b : ScopeTier) : ScopeTier := match tier_cmp a b with Gt => b | _ => a end.

(** ** Bounded candidate sets *)

Definition or_budget (reason : option CandidateIncompleteReason) : option CandidateIncompleteReason :=
  match reason with None => Some CandidateBudget | Some r => Some r end.
Definition enforce_bound (coverage : CandidateCoverage) (inspected unique_matches limit : nat) : CandidateCoverage :=
  let scanned := N.max coverage.(cc_scanned) (N.of_nat inspected) in
  if (limit <? unique_matches)%nat then
    mkCandidateCoverage scanned true coverage.(cc_scope_open) (or_budget coverage.(incomplete_reason))
  else mkCandidateCoverage scanned coverage.(cc_truncated) coverage.(cc_scope_open) coverage.(incomplete_reason).
Definition mark_resolution_truncated (coverage : CandidateCoverage) : CandidateCoverage :=
  mkCandidateCoverage coverage.(cc_scanned) true coverage.(cc_scope_open) (or_budget coverage.(incomplete_reason)).

Definition record_candidates_exact (name : string) (candidates : list RecordCandidate) (coverage : CandidateCoverage)
    (limit : nat) : list RecordCandidate * CandidateCoverage :=
  let inspected := length candidates in
  let candidates := List.filter (fun c => record_matches_exact_name c name) candidates in
  let candidates := sort_record_candidates candidates in
  let candidates := retain_new rc_identity ∅ candidates in
  let coverage := enforce_bound coverage inspected (length candidates) limit in
  (take limit candidates, coverage).
Definition type_alias_candidates_exact (name : string) (candidates : list TypeAliasCandidate)
    (coverage : CandidateCoverage) (limit : nat) : list TypeAliasCandidate * CandidateCoverage :=
  let inspected := length candidates in
  let candidates := List.filter (fun c => alias_matches_exact_name c name) candidates in
  let candidates := sort_alias_candidates candidates in
  let candidates := retain_new ta_identity ∅ candidates in
  let coverage := enforce_bound coverage inspected (length candidates) limit in
  (take limit candidates, coverage).

(** ** The orders are lawful and end with the identity *)

#[export] Instance sum_cmp_lawful {A B} (c1 : A -> A -> comparison) (c2 : B -> B -> comparison)
    `{!LawfulCmp c1, !LawfulCmp c2} : LawfulCmp (sum_cmp c1 c2).
Proof.
  split; [intros [a|b] [a'|b']|intros [a|b] [a'|b'] [a''|b'']]; try done; simpl; first [apply cmp_antisym, _|apply cmp_trans, _].
Qed.
#[export] Instance pair_cmp_lawful {A B} (c1 : A -> A -> comparison) (c2 : B -> B -> comparison)
    `{!LawfulCmp c1, !LawfulCmp c2} : LawfulCmp (pair_cmp c1 c2) := _.
#[export] Instance record_identity_cmp_lawful : LawfulCmp record_identity_cmp := _.
#[export] Instance alias_identity_cmp_lawful : LawfulCmp alias_identity_cmp := _.
#[export] Instance tier_cmp_lawful : LawfulCmp tier_cmp := _.
#[export] Instance compare_record_candidates_lawful : LawfulCmp compare_record_candidates := _.
#[export] Instance alias_cmp_lawful : LawfulCmp alias_cmp := _.

Lemma record_cmp_identity a b : compare_record_candidates a b = Eq -> a.(rc_identity) = b.(rc_identity).
Proof.
  unfold compare_record_candidates. rewrite !cmp_lex_eq. intros (_ & _ & _ & _ & H). revert H.
  unfold record_identity_cmp, cmp_on, pair_cmp, sum_cmp. destruct (rc_identity a), (rc_identity b); try done.
  - by intros ->%Z.compare_eq.
  - rewrite cmp_lex_eq. unfold cmp_on. simpl. by intros [->%string_compare_eq ->%string_compare_eq].
Qed.
Lemma tier_cmp_rank a b : tier_cmp a b = Z.compare (tier_rank a) (tier_rank b).
Proof. done. Qed.
Lemma record_cmp_tier a b : cmp_le compare_record_candidates a b -> (tier_rank b.(rc_tier) <= tier_rank a.(rc_tier))%Z.
Proof.
  unfold cmp_le, compare_record_candidates, cmp_lex at 1, cmp_rev, cmp_on, cmp_then. rewrite tier_cmp_rank.
  destruct (Z.compare_spec (tier_rank (rc_tier b)) (tier_rank (rc_tier a))); [lia|lia|done].
Qed.
Lemma alias_cmp_tier a b : cmp_le alias_cmp a b -> (tier_rank b.(ta_tier) <= tier_rank a.(ta_tier))%Z.
Proof.
  unfold cmp_le, alias_cmp, cmp_lex at 1, cmp_rev, cmp_on, cmp_then. rewrite tier_cmp_rank.
  destruct (Z.compare_spec (tier_rank (ta_tier b)) (tier_rank (ta_tier a))); [lia|lia|done].
Qed.
Lemma min_tier_rank a b : tier_rank (min_tier a b) = Z.min (tier_rank a) (tier_rank b).
Proof. by destruct a, b. Qed.

(** ** A bounded candidate set keeps the best *)

Section bounded.
Context {A K : Type} `{Countable K} (key : A -> K) (cmp : A -> A -> comparison) `{!LawfulCmp cmp}
  (f : A -> bool) (candidates : list A) (limit : nat).
Local Abbreviation unique := (retain_new key ∅ (sort_by cmp (List.filter f candidates))).
Local Abbreviation kept := (take limit unique).

(** [kept] is what a bounded set of the matching candidates should be: matches in rank
    order, one per identity; a match is represented by one no worse, or it ranks below
    everything kept and the set is full. *)
Definition best_of (out : list A) : Prop :=
  StronglySorted (cmp_le cmp) out /\ NoDup (key <$> out) /\ (length out <= limit)%nat /\
  (forall x, x ∈ out -> x ∈ candidates /\ f x = true) /\
  (forall x, x ∈ candidates -> f x = true ->
     (exists y, y ∈ out /\ key y = key x /\ cmp_le cmp y x) \/
     (length out = limit /\ ~ (key x ∈ (key <$> out)) /\ forall y, y ∈ out -> cmp_le cmp y x)).
Lemma unique_sorted : StronglySorted (cmp_le cmp) unique.
Proof. eapply sublist_StronglySorted; [apply retain_new_sublist|]. apply sort_by_sorted, _. Qed.
Lemma elem_of_unique x : x ∈ unique -> x ∈ candidates /\ f x = true.
Proof. by intros [Hx%elem_of_sort_by%elem_of_filter_bool _]%retain_new_unseen. Qed.
Lemma kept_best : best_of kept.
Proof.
  unfold best_of. split_conj.
  - eapply sublist_StronglySorted; [apply sublist_take|apply unique_sorted].
  - eapply NoDup_of_submseteq; [apply sublist_submseteq, fmap_sublist, sublist_take|apply retain_new_nodup].
  - rewrite length_take. lia.
  - intros x Hx. apply elem_of_unique. eapply elem_of_sublist; [exact Hx|apply sublist_take].
  - intros x Hx Hf. assert (x ∈ sort_by cmp (List.filter f candidates)) as Hs
      by (by apply elem_of_sort_by, elem_of_filter_bool).
    destruct (retain_new_least key cmp ∅ _ x (sort_by_sorted cmp _) Hs) as [?%elem_of_empty|(y & Hy & Hk & Hle)]; [done|].
    pose proof unique_sorted as Hu. pose proof (retain_new_nodup key ∅ (sort_by cmp (List.filter f candidates))) as Hn.
    rewrite <- (take_drop limit unique) in Hy, Hu, Hn. rewrite elem_of_app in Hy. destruct Hy as [Hy|Hy].
    { left. by exists y. }
    right. split_conj.
    + rewrite length_take. destruct (decide (limit <= length unique)%nat); [lia|]. rewrite drop_ge in Hy by lia.
      by apply elem_of_nil in Hy.
    + rewrite <- Hk. rewrite fmap_app in Hn. apply NoDup_app in Hn as (_ & Hn & _). intros Hin.
      apply (Hn _ Hin), list_elem_of_fmap. by exists y.
    + intros z Hz. apply (cmp_trans cmp _ y); [|done]. exact (StronglySorted_across _ _ _ _ _ Hu Hz Hy).
Qed.
End bounded.

Lemma enforce_bound_truncated coverage inspected n limit :
  (enforce_bound coverage inspected n limit).(cc_truncated) = coverage.(cc_truncated) || (limit <? n)%nat.
Proof. unfold enforce_bound. destruct (limit <? n)%nat; simpl; [by rewrite orb_true_r|by rewrite orb_false_r]. Qed.
Lemma enforce_bound_permits coverage inspected n limit :
  permits_uniqueness (enforce_bound coverage inspected n limit) = true <->
  permits_uniqueness coverage = true /\ (n <= limit)%nat.
Proof.
  unfold permits_uniqueness, enforce_bound.
  destruct (Nat.ltb_spec limit n); simpl; split; try done.
  - intros [_ ?]. lia.
  - by intros [? _].
Qed.

(** ** The sets of one name *)

(** The record candidates of a name are the best that fit the bound: exact matches
    only, in rank order and one per identity, and a match left out ranks below all of
    them in a full set. Uniqueness may be claimed afterwards only if it could be before
    and nothing was cut off: then every matching identity is in the set. The same holds
    of the typedef candidates. *)
Theorem candidates_exact_best name records aliases coverage limit :
  let '(rs, rcov) := record_candidates_exact name records coverage limit in
  let '(als, acov) := type_alias_candidates_exact name aliases coverage limit in
  best_of rc_identity compare_record_candidates (fun r => record_matches_exact_name r name) records limit rs /\
  best_of ta_identity alias_cmp (fun a => alias_matches_exact_name a name) aliases limit als /\
  (permits_uniqueness rcov = true ->
     permits_uniqueness coverage = true /\
     forall r, r ∈ records -> record_matches_exact_name r name = true -> exists r', r' ∈ rs /\ r'.(rc_identity) = r.(rc_identity)) /\
  (permits_uniqueness acov = true ->
     permits_uniqueness coverage = true /\
     forall a, a ∈ aliases -> alias_matches_exact_name a name = true -> exists a', a' ∈ als /\ a'.(ta_identity) = a.(ta_identity)).
Proof.
  simpl. split_conj; try apply kept_best, _.
  all: intros [Hc Hl]%enforce_bound_permits; split; [done|]; intros x Hx Hm; rewrite take_ge by done.
  all: match goal with |- context [retain_new ?k ∅ ?l] => destruct (retain_new_covers k ∅ l x) as [?%elem_of_empty|?]; [|done|done] end.
  all: by apply elem_of_sort_by, elem_of_filter_bool.
Qed.
