(* ===== verification/AliasSpelling.v ===== *)
(** * The spelling of an alias's type (query/type_resolution/presentation.rs)

    A typedef chain that ends at a record is shown as a C type. Its spelling is composed
    from the declarators of the chain, or refused where they do not determine it. *)

From S2P Require Import Prelude Candidates CallModel Relations NameMatch TypeCandidates.

(** ** Words *)

Definition flush_word (current : list N) : list (list N) := match current with [] => [] | _ => [current] end.
Fixpoint split_words (fuel : nat) (s current : list N) : list (list N) :=
  match fuel, s with
  | S fuel, b :: rest =>
      match strip_whitespace s with
      | Some s' => flush_word current ++ split_words fuel s' []
      | None => split_words fuel rest (current ++ [b])
      end
  | _, _ => flush_word current
  end.
(** Each step consumes a byte, so the length is enough fuel. *)
Definition words (s : list N) : list (list N) := split_words (length s) s [].
(** [str::split_whitespace], collected. *)
Definition split_whitespace (s : string) : list string := of_bytes <$> words (bytes_of s).
Definition compact_whitespace (value : string) : string := String.concat " " (split_whitespace value).
(** [str::trim_end] *)
Definition trim_end (s : list N) : list N := rev (strip_all strip_whitespace_rev (length s) (rev s)).
(** [str::strip_suffix] *)
Definition strip_suffix (suffix s : list N) : option (list N) :=
  let front := take (length s - length suffix) s in
  if (length suffix <=? length s)%nat && bool_decide (drop (length s - length suffix) s = suffix) then Some front else None.
(** [u8::is_ascii_whitespace] *)
Definition is_ascii_whitespace (b : N) : bool :=
  ((b =? 9) || (b =? 10) || (b =? 12) || (b =? 13) || (b =? 32))%N.

(** ** Spelling *)

Definition record_kind_keyword (kind : RecordKind) : string :=
  match kind with
  | KindStruct => "struct" | KindUnion => "union" | KindClass => "class" | KindInterface => "interface"
  end.
Definition type_spelling (r : RecordCandidate) : string :=
  let keyword := record_kind_keyword r.(rc_kind) in
  match r.(rc_tag_name) with
  | Some tag => keyword +:+ " " +:+ tag
  | None => "anonymous " +:+ keyword
  end.
Definition record_source_type_spelling (r : RecordCandidate) : string :=
  match r.(rc_tag_name) with
  | Some tag => record_kind_keyword r.(rc_kind) +:+ " " +:+ tag
  | None => record_kind_keyword r.(rc_kind)
  end.
Definition alias_target_surface (alias : TypeAliasCandidate) (record : RecordCandidate) : option string :=
  match alias.(ta_target) with
  | StableRecord identity =>
      if bool_decide (identity = record.(rc_identity)) then Some (record_source_type_spelling record) else None
  | NamedRecord tag kind =>
      if named_tag_matches record tag kind then Some (record_kind_keyword kind +:+ " " +:+ tag) else None
  | TypeName name => if bool_decide (name = "") then None else Some name
  end.

Definition is_supported_base_qualifier (value : string) : bool :=
  bool_decide (value ∈ ["const"; "volatile"; "restrict"; "_Atomic"]).
Definition exact_base_qualifiers (underlying target : string) : option (list string) :=
  let underlying := compact_whitespace underlying in
  let target := compact_whitespace target in
  if String.eqb underlying target then Some [] else
  front ← strip_suffix (bytes_of target) (bytes_of underlying);
  let prefix := trim_end front in
  if Nat.eqb (length prefix) (String.length underlying) || bool_decide (prefix = []) then None else
  boundary ← bytes_of underlying !! length prefix;
  if negb (is_ascii_whitespace boundary) then None else
  let qualifiers := split_whitespace (of_bytes prefix) in
  if forallb is_supported_base_qualifier qualifiers then Some qualifiers else None.

Inductive Form : Type := FormPlain | FormPointer | FormArray.
#[export] Instance Form_eq_dec : EqDecision Form.
Proof. solve_decision. Defined.

(** The body of the loop over the reversed trace. *)
Definition spell_alias (record : RecordCandidate) (st : string * Form) (alias : TypeAliasCandidate) :
    option (string * Form) :=
  let '(spelling, form) := st in
  target_surface ← alias_target_surface alias record;
  base_qualifiers ← exact_base_qualifiers alias.(ta_underlying_spelling) target_surface;
  let none := match base_qualifiers with [] => true | _ => false end in
  if negb none && negb (bool_decide (form = FormPlain)) then None else
  let spelling := if none then spelling else String.concat " " base_qualifiers +:+ " " +:+ spelling in
  match alias.(ta_declarator_shape) with
  | Identity => if negb none then None else Some (spelling, form)
  | Qualified qualifiers =>
      let qualifiers := trimmed <$> qualifiers in
      if (match qualifiers with [] => true | _ => false end) || negb (bool_decide (qualifiers = base_qualifiers)) then None
      else Some (spelling, form)
  | Pointer qualifiers =>
      if bool_decide (form = FormArray) then None
      else
        let spelling := spelling +:+ " *" in
        let spelling := match qualifiers with [] => spelling | _ => spelling +:+ " " +:+ String.concat " " qualifiers end in
        Some (spelling, FormPointer)
  | Array extent_text =>
      if bool_decide (form = FormArray) then None
      else Some (spelling +:+ "[" +:+ trimmed extent_text +:+ "]", FormArray)
  | Function_ _ | FunctionPointer _ | Unsupported => None
  end.
Definition compose_aka_spelling (record : RecordCandidate) (trace : list TypeAliasCandidate) : option string :=
  fst <$> foldl (fun st alias => st ← st; spell_alias record st alias)
            (Some (type_spelling record, FormPlain)) (rev trace).

(** ** The type a chain denotes *)

Inductive CType : Type :=
  | CRecord (qualifiers : list string) (record : string)
  | CPointer (qualifiers : list string) (to : CType)
  | CArray (extent : string) (element : CType).

(** A qualifier of a typedef name qualifies what it names: of an array, the element. *)
Fixpoint qualify (qs : list string) (t : CType) : CType :=
  match t with
  | CRecord qs' r => CRecord (qs ++ qs') r
  | CPointer qs' to => CPointer (qs ++ qs') to
  | CArray extent element => CArray extent (qualify qs element)
  end.
(** [typedef] with the declarator over a base type. *)
Definition declare (shape : DeclaratorShape) (base : CType) : option CType :=
  match shape with
  | Identity | Qualified _ => Some base
  | Pointer qs => Some (CPointer qs base)
  | Array extent => Some (CArray (trimmed extent) base)
  | Function_ _ | FunctionPointer _ | Unsupported => None
  end.
(** The type of the last alias of a chain, read from the record outwards. An alias's
    underlying text is its qualifiers and then its target's text. *)
Inductive denotes (record : RecordCandidate) : list TypeAliasCandidate -> CType -> Prop :=
  | denotes_record : denotes record [] (CRecord [] (type_spelling record))
  | denotes_alias chain alias base surface qs t :
      denotes record chain base ->
      alias_target_surface alias record = Some surface ->
      split_whitespace alias.(ta_underlying_spelling) = qs ++ split_whitespace surface ->
      Forall (fun q => is_supported_base_qualifier q = true) qs ->
      declare alias.(ta_declarator_shape) (qualify qs base) = Some t ->
      denotes record (chain ++ [alias]) t.

Definition with_space (qs : list string) : string := match qs with [] => "" | _ => String.concat " " qs +:+ " " end.
Definition after_space (qs : list string) : string := match qs with [] => "" | _ => " " +:+ String.concat " " qs end.
(** A C type name: the specifier and the abstract declarator around [inner]; a pointer
    binds less tightly than an array suffix, so a pointer to an array needs
    parentheses. *)
Fixpoint type_name_around (t : CType) (inner : string) : string :=
  match t with
  | CRecord qs r => with_space qs +:+ r +:+ inner
  | CPointer qs (CArray _ _ as to) => type_name_around to (" (*" +:+ after_space qs +:+ inner +:+ ")")
  | CPointer qs to => type_name_around to (" *" +:+ after_space qs +:+ inner)
  | CArray extent element => type_name_around element (inner +:+ "[" +:+ extent +:+ "]")
  end.
Definition type_name (t : CType) : string := type_name_around t "".

(** ** Words of a text *)

Lemma strip_whitespace_shorter s s' : strip_whitespace s = Some s' -> (length s' < length s)%nat.
Proof. unfold strip_whitespace. intros H. repeat case_match; simplify_eq; simpl; lia. Qed.
(** A whitespace character is seen from its own bytes. *)
Lemma strip_whitespace_app s s' x : strip_whitespace s = Some s' -> strip_whitespace (s ++ x) = Some (s' ++ x).
Proof.
  intros H. destruct s as [|a [|b [|c s]]]; cbn [strip_whitespace app] in *; [done|..].
  all: destruct (in_range 9 13 a || (a =? 32)%N); [by simplify_eq|].
  - done.
  - destruct ((a =? 194)%N && _); [by simplify_eq|done].
  - destruct ((a =? 194)%N && _); [by simplify_eq|]. by destruct (_ || _) in H |- *; simplify_eq.
Qed.
Lemma ascii_whitespace_low w : is_ascii_whitespace w = true -> in_range 9 13 w || (w =? 32)%N = true /\ (w < 128)%N.
Proof.
  unfold is_ascii_whitespace, in_range. rewrite !orb_true_iff, !andb_true_iff, !N.eqb_eq, !N.leb_le. lia.
Qed.
Lemma neqb_small w n : (w < n)%N -> (w =? n)%N = false.
Proof. intros ?. apply N.eqb_neq. lia. Qed.
(** A character does not reach over an ASCII byte that follows it. *)
Lemma strip_whitespace_before s w x : is_ascii_whitespace w = true ->
  strip_whitespace (s ++ w :: x) = match s with [] => Some x | _ => (fun s' => s' ++ w :: x) <$> strip_whitespace s end.
Proof.
  intros [Hin Hlt]%ascii_whitespace_low.
  assert (in_range 128 138 w = false) as Hr.
  { unfold in_range. apply andb_false_iff. left. apply N.leb_gt. lia. }
  destruct s as [|a [|b [|c s]]]; cbn [strip_whitespace app]; [by rewrite Hin|..].
  all: destruct (in_range 9 13 a || (a =? 32)%N); [done|].
  - rewrite !(neqb_small w) by lia. rewrite !andb_false_r. destruct x as [|y x]; [done|].
    rewrite ?andb_false_r, ?andb_false_l. done.
  - destruct ((a =? 194)%N && _); [done|]. rewrite !(neqb_small w), Hr by lia. by rewrite !andb_false_r.
  - destruct ((a =? 194)%N && _); [done|]. by case_match.
Qed.

Lemma length_ind {A} (P : list A -> Prop) :
  (forall s, (forall s', (length s' < length s)%nat -> P s') -> P s) -> forall s, P s.
Proof. intros H s. remember (length s) as n eqn:E. revert s E. induction (Nat.lt_wf_0 n) as [n _ IH]. intros s ->. apply H. naive_solver. Qed.
Lemma split_words_fuel s : forall current f, (length s <= f)%nat -> split_words f s current = split_words (length s) s current.
Proof.
  induction s as [s IH] using length_ind. intros current f Hf.
  destruct s as [|b rest]; [by destruct f|]. destruct f as [|f]; [simpl in Hf; lia|]. cbn [split_words length].
  destruct (strip_whitespace (b :: rest)) as [s'|] eqn:E.
  - apply strip_whitespace_shorter in E. simpl in E, Hf. rewrite (IH s') by (simpl; lia).
    by rewrite (IH s' ltac:(simpl; lia) [] (length rest)) by lia.
  - apply IH; simpl in *; lia.
Qed.
Definition split (s current : list N) : list (list N) := split_words (length s) s current.
Lemma split_cons b rest current :
  split (b :: rest) current =
  match strip_whitespace (b :: rest) with Some s' => flush_word current ++ words s' | None => split rest (current ++ [b]) end.
Proof.
  unfold split, words. cbn [split_words length]. destruct (strip_whitespace (b :: rest)) as [s'|] eqn:E; [|done].
  apply strip_whitespace_shorter in E. simpl in E. by rewrite split_words_fuel by lia.
Qed.
Lemma split_whitespace_byte a w x : is_ascii_whitespace w = true -> forall current,
  split (a ++ w :: x) current = split a current ++ words x.
Proof.
  intros Hw. induction a as [a IH] using length_ind. intros current.
  destruct a as [|b a]; cbn [app]; rewrite split_cons.
  - pose proof (strip_whitespace_before [] w x Hw) as E. simpl app in E. by rewrite E.
  - pose proof (strip_whitespace_before (b :: a) w x Hw) as E. simpl app in E. rewrite E, split_cons.
    destruct (strip_whitespace (b :: a)) as [s'|] eqn:Es; simpl.
    + apply strip_whitespace_shorter in Es. rewrite <- app_assoc. f_equal. apply IH. done.
    + apply IH. simpl. lia.
Qed.
Lemma words_after s s' : strip_whitespace s = Some s' -> words s = words s'.
Proof. intros E. destruct s as [|b s]; [done|]. change (words (b :: s)) with (split (b :: s) []). by rewrite split_cons, E. Qed.

(** A word holds no whitespace character. *)
Definition clean (w : list N) : Prop := w <> [] /\ forall i, (i < length w)%nat -> strip_whitespace (drop i w) = None.
Lemma clean_cut a x : strip_whitespace (a ++ x) = None -> strip_whitespace a = None.
Proof. destruct (strip_whitespace a) eqn:E; [|done]. by rewrite (strip_whitespace_app _ _ x E). Qed.
Lemma split_clean s : forall current,
  (forall i, (i < length current)%nat -> strip_whitespace (drop i current ++ s) = None) -> Forall clean (split s current).
Proof.
  assert (forall w, (forall i, (i < length w)%nat -> strip_whitespace (drop i w) = None) -> Forall clean (flush_word w)) as Hflush.
  { intros w Hw. destruct w; [constructor|]. by repeat constructor. }
  induction s as [s IH] using length_ind. intros current Hc.
  destruct s as [|b rest].
  { apply Hflush. intros i Hi. rewrite <- (app_nil_r (drop i current)). by apply Hc. }
  rewrite split_cons. destruct (strip_whitespace (b :: rest)) as [s'|] eqn:E.
  - apply Forall_app. split.
    + apply Hflush. intros i Hi. by eapply clean_cut, Hc.
    + apply (IH s'); [by apply strip_whitespace_shorter in E|]. simpl. lia.
  - apply IH; [simpl; lia|]. intros i. rewrite length_app. simpl. intros Hi.
    destruct (decide (i < length current)%nat) as [Hlt|Hge].
    + rewrite drop_app_le, <- app_assoc by lia. by apply Hc.
    + replace i with (length current) by lia. by rewrite drop_app_length.
Qed.
Lemma words_clean s : Forall clean (words s).
Proof. apply split_clean. simpl. lia. Qed.
Lemma split_of_clean w : forall current, (forall i, (i < length w)%nat -> strip_whitespace (drop i w) = None) ->
  split w current = flush_word (current ++ w).
Proof.
  induction w as [|b w IH]; intros current Hw; [by rewrite app_nil_r|].
  rewrite split_cons. pose proof (Hw 0 ltac:(simpl; lia)) as E. rewrite drop_0 in E. rewrite E, IH; [by rewrite <- app_assoc|].
  intros i Hi. apply (Hw (S i)). simpl. lia.
Qed.
Lemma words_of_clean w : clean w -> words w = [w].
Proof. intros [Hn Hw]. change (words w) with (split w []). rewrite split_of_clean by done. by destruct w. Qed.
(** Words joined with single spaces are read back. *)
Fixpoint join_words (ws : list (list N)) : list N :=
  match ws with [] => [] | [w] => w | w :: ws => w ++ 32%N :: join_words ws end.
Lemma words_join ws : Forall clean ws -> words (join_words ws) = ws.
Proof.
  induction 1 as [|w ws Hw Hws IH]; [done|]. destruct ws as [|v ws]; [by apply words_of_clean|].
  change (join_words (w :: v :: ws)) with (w ++ 32%N :: join_words (v :: ws)).
  change (words ?s) with (split s []). rewrite split_whitespace_byte by done.
  change (split w []) with (words w). by rewrite words_of_clean, IH.
Qed.

Lemma bytes_of_app s t : bytes_of (s +:+ t) = bytes_of s ++ bytes_of t.
Proof. induction s as [|c s IH]; [done|]. cbn [bytes_of app]. rewrite <- IH. done. Qed.
Lemma bytes_of_concat ss : bytes_of (String.concat " " ss) = join_words (bytes_of <$> ss).
Proof.
  induction ss as [|s ss IH]; [done|]. destruct ss as [|t ss]; [done|].
  change (String.concat " " (s :: t :: ss)) with (s +:+ " " +:+ String.concat " " (t :: ss)).
  rewrite !bytes_of_app, IH. done.
Qed.
Lemma bytes_of_of_bytes l : Forall (fun b => (b < 256)%N) l -> bytes_of (of_bytes l) = l.
Proof. induction 1 as [|b l Hb _ IH]; [done|]. cbn [of_bytes bytes_of]. by rewrite IH, Ascii.N_ascii_embedding. Qed.
Lemma bytes_of_bounded s : Forall (fun b => (b < 256)%N) (bytes_of s).
Proof. induction s as [|c s IH]; constructor; [apply Ascii.N_ascii_bounded|done]. Qed.
Lemma length_bytes_of s : length (bytes_of s) = String.length s.
Proof. induction s as [|c s IH]; [done|]. cbn [bytes_of length String.length]. by rewrite IH. Qed.
Lemma strip_whitespace_sublist s s' : strip_whitespace s = Some s' -> s' `sublist_of` s.
Proof.
  unfold strip_whitespace. intros H. repeat case_match; simplify_eq;
    repeat first [apply sublist_cons|reflexivity].
Qed.
Lemma words_bytes (P : N -> Prop) s : Forall P s -> Forall (Forall P) (words s).
Proof.
  intros Hs. change (words s) with (split s []). assert (Forall P []) as Hc by constructor. revert Hc. generalize (@nil N) as current.
  assert (forall w, Forall P w -> Forall (Forall P) (flush_word w)) as Hflush.
  { intros [|? ?] ?; [constructor|]. by constructor; [|constructor]. }
  revert Hs. induction s as [s IH] using length_ind. intros Hs current Hc. destruct s as [|b rest]; [by apply Hflush|].
  rewrite split_cons. destruct (strip_whitespace (b :: rest)) as [s'|] eqn:E.
  - apply Forall_app. split; [by apply Hflush|]. apply (IH s'); [by apply strip_whitespace_shorter in E| |done].
    apply strip_whitespace_sublist in E. rewrite Forall_forall in Hs |- *. intros x Hx. apply Hs. by eapply elem_of_sublist.
  - inversion Hs; subst. apply IH; [simpl; lia|done|]. apply Forall_app. split; [done|by constructor].
Qed.
Lemma bytes_of_words s : bytes_of <$> split_whitespace s = words (bytes_of s).
Proof.
  unfold split_whitespace. rewrite <- list_fmap_compose. pose proof (words_bytes _ _ (bytes_of_bounded s)) as H.
  induction H as [|w ws Hw _ IH]; [done|]. rewrite fmap_cons, IH. simpl. by rewrite bytes_of_of_bytes.
Qed.
Lemma compact_words s : bytes_of (compact_whitespace s) = join_words (words (bytes_of s)).
Proof. unfold compact_whitespace. by rewrite bytes_of_concat, bytes_of_words. Qed.
Lemma words_compact s : words (bytes_of (compact_whitespace s)) = words (bytes_of s).
Proof. rewrite compact_words. apply words_join, words_clean. Qed.

Lemma strip_rev_spec s s' : strip_whitespace_rev s = Some s' ->
  exists c, s = rev c ++ s' /\ forall x, strip_whitespace (c ++ x) = Some x.
Proof.
  unfold strip_whitespace_rev. intros H. destruct s as [|a s]; [done|].
  destruct (in_range 9 13 a || (a =? 32)%N) eqn:E1.
  { simplify_eq. exists [a]. split; [done|]. intros x. simpl. by rewrite E1. }
  destruct s as [|b s]; [done|].
  destruct ((b =? 194)%N && _) eqn:E2.
  { simplify_eq. exists [b; a]. split; [done|]. intros x. cbn [app strip_whitespace].
    rewrite E2. apply andb_true_iff in E2 as [->%N.eqb_eq _]. done. }
  destruct s as [|c s]; [done|].
  destruct (_ || _) eqn:E3 in H; [|done]. simplify_eq. exists [c; b; a]. split; [done|]. intros x. cbn [app strip_whitespace].
  rewrite E3. rewrite !orb_true_iff, !andb_true_iff, !N.eqb_eq in E3. by destruct E3 as [[[[[-> ?] ?]|[[-> ?] ?]]|[[-> ?] ?]]|[[-> ?] ?]].
Qed.
Lemma strip_all_rev_spec fuel s : exists cs, s = rev (concat cs) ++ strip_all strip_whitespace_rev fuel s /\
  Forall (fun c => forall x, strip_whitespace (c ++ x) = Some x) cs.
Proof.
  revert s. induction fuel as [|fuel IH]; intros s; cbn [strip_all]; [by exists []|].
  destruct (strip_whitespace_rev s) as [s'|] eqn:E; [|by exists []].
  apply strip_rev_spec in E as (c & -> & Hc). destruct (IH s') as (cs & Hs & Hcs). exists (cs ++ [c]). split.
  - rewrite Hs at 1. rewrite concat_app. simpl. by rewrite app_nil_r, rev_app_distr, app_assoc.
  - apply Forall_app. by repeat constructor.
Qed.
(** What [trim_end] drops is whitespace. *)
Lemma trim_end_spec s : exists cs, s = trim_end s ++ concat cs /\
  Forall (fun c => forall x, strip_whitespace (c ++ x) = Some x) cs.
Proof.
  unfold trim_end. destruct (strip_all_rev_spec (length s) (rev s)) as (cs & Hs & Hcs). exists cs. split; [|done].
  rewrite <- (rev_involutive s) at 1. rewrite Hs at 1. by rewrite rev_app_distr, rev_involutive.
Qed.
Lemma words_skip cs x : Forall (fun c => forall x, strip_whitespace (c ++ x) = Some x) cs -> words (concat cs ++ x) = words x.
Proof. induction 1 as [|c cs Hc _ IH]; [done|]. cbn [concat]. rewrite <- app_assoc. by rewrite (words_after _ _ (Hc _)). Qed.
Lemma join_words_head ws b x : Forall clean ws -> join_words ws = b :: x -> strip_whitespace (b :: x) = None \/ is_ascii_whitespace b = false.
Proof.
  intros Hws E. destruct ws as [|w ws]; [done|]. inversion Hws as [|? ? [Hn Hw] _]; subst. right.
  destruct w as [|b' w]; [done|]. pose proof (Hw 0 ltac:(simpl; lia)) as H0. rewrite drop_0 in H0.
  assert (b' = b) as -> by (destruct ws; cbn in E; congruence).
  destruct (is_ascii_whitespace b) eqn:Eb; [|done]. exfalso. apply ascii_whitespace_low in Eb as [Eb _]. simpl in H0. by rewrite Eb in H0.
Qed.

(** ** The spelling is the type's *)

Lemma strip_suffix_Some suffix s front : strip_suffix suffix s = Some front -> s = front ++ suffix.
Proof.
  unfold strip_suffix. destruct (_ && _) eqn:E; [|done]. intros [= <-].
  apply andb_true_iff in E as [_ E%bool_decide_eq_true].
  rewrite <- (take_drop (length s - length suffix) s) at 1. by rewrite E.
Qed.
Lemma split_compact s : split_whitespace (compact_whitespace s) = split_whitespace s.
Proof. unfold split_whitespace. by rewrite words_compact. Qed.
Lemma exact_base_qualifiers_sound underlying target qs :
  exact_base_qualifiers underlying target = Some qs ->
  split_whitespace underlying = qs ++ split_whitespace target /\
  Forall (fun q => is_supported_base_qualifier q = true) qs.
Proof.
  unfold exact_base_qualifiers. destruct (String.eqb_spec (compact_whitespace underlying) (compact_whitespace target)) as [E|_].
  { intros [= <-]. by rewrite <- (split_compact underlying), E, split_compact. }
  rewrite <- length_bytes_of.
  destruct (strip_suffix _ _) as [front|] eqn:Ef; [|done]. cbn [mbind option_bind]. apply strip_suffix_Some in Ef.
  destruct (trim_end_spec front) as (cs & Hfront & Hcs). set (prefix := trim_end front) in *.
  destruct (Nat.eqb_spec (length prefix) (length (bytes_of (compact_whitespace underlying)))) as [|Hlen]; [done|]. cbn [orb].
  destruct (bool_decide (prefix = [])); [done|].
  destruct (bytes_of (compact_whitespace underlying) !! length prefix) as [boundary|] eqn:Eb; [|done]. cbn [mbind option_bind].
  destruct (is_ascii_whitespace boundary) eqn:Hb; [|done]. cbn [negb].
  destruct (forallb _ _) eqn:Hq; [|done]. intros [= <-]. split; [|by apply Forall_forall; intros x Hx; apply (proj1 (forallb_forall _ _) Hq), list_elem_of_In].
  assert (words (bytes_of (compact_whitespace underlying)) = words prefix ++ words (bytes_of (compact_whitespace target))) as Hw.
  { rewrite Ef, Hfront, <- app_assoc in Eb |- *. rewrite lookup_app_r, Nat.sub_diag in Eb by done.
    pose proof (words_skip cs (bytes_of (compact_whitespace target)) Hcs) as Hs.
    destruct (concat cs ++ bytes_of (compact_whitespace target)) as [|b x] eqn:Ex; [done|]. injection Eb as ->.
    change (words ?s) with (split s []) at 1. rewrite split_whitespace_byte by done. unfold split. f_equal.
    apply ascii_whitespace_low in Hb as [Hb _]. rewrite <- Hs. symmetry. apply words_after. simpl. by rewrite Hb. }
  rewrite !words_compact in Hw.
  assert (Forall (fun b => (b < 256)%N) prefix) as Hp.
  { pose proof (bytes_of_bounded (compact_whitespace underlying)) as Hall. rewrite Ef, Hfront, !Forall_app in Hall. naive_solver. }
  unfold split_whitespace. rewrite Hw, fmap_app. by rewrite bytes_of_of_bytes.
Qed.

Lemma with_space_app qs qs' : qs <> [] -> with_space (qs ++ qs') = String.concat " " qs +:+ " " +:+ with_space qs'.
Proof.
  intros Hq. destruct qs as [|q qs]; [done|]. clear Hq. unfold with_space at 1. cbn [app].
  revert q. induction qs as [|r qs IH]; intros q.
  - destruct qs' as [|q' qs']; [done|]. simpl app. change (String.concat " " (q :: q' :: qs')) with (q +:+ " " +:+ String.concat " " (q' :: qs')).
    unfold with_space. simpl String.concat at 2. by rewrite !string_app_assoc.
  - change (String.concat " " (q :: (r :: qs) ++ qs')) with (q +:+ " " +:+ String.concat " " (r :: qs ++ qs')).
    change (String.concat " " (q :: r :: qs)) with (q +:+ " " +:+ String.concat " " (r :: qs)).
    rewrite <- !string_app_assoc. do 2 f_equal. rewrite IH. done.
Qed.
Lemma qualify_nil t : qualify [] t = t.
Proof. induction t as [| |? ? IH]; simpl; [done..|]. by rewrite IH. Qed.

(** A spelling in progress for the type [t]. *)
Definition spells (t : CType) (st : string * Form) : Prop :=
  match st.2 with
  | FormPlain => (exists qs r, t = CRecord qs r) /\ forall inner, type_name_around t inner = st.1 +:+ inner
  | FormPointer => (exists qs to, t = CPointer qs to) /\ forall inner, type_name_around t inner = st.1 +:+ inner
  | FormArray => type_name t = st.1
  end.
Lemma spells_name t st : spells t st -> type_name t = st.1.
Proof. destruct st as [s []]; [intros [_ H]..|done]; unfold type_name; simpl in *; by rewrite H, string_app_nil. Qed.
Lemma spells_qualified t spelling form qs : spells t (spelling, form) -> qs = [] \/ form = FormPlain ->
  spells (qualify qs t) (if (match qs with [] => true | _ => false end) then spelling else String.concat " " qs +:+ " " +:+ spelling, form).
Proof.
  intros Hs Hq. destruct qs as [|q qs]; [by rewrite qualify_nil|]. destruct Hq as [?| ->]; [done|].
  destruct Hs as [(qs' & r & ->) Hs]. cbn [fst snd] in Hs. split; [by eexists _, _|]. intros inner. cbn [qualify type_name_around fst].
  rewrite with_space_app by done. rewrite <- !string_app_assoc, <- Hs. done.
Qed.
Lemma spells_pointer t spelling form qs : spells t (spelling, form) -> form <> FormArray ->
  spells (CPointer qs t) (match qs with [] => spelling +:+ " *" | _ => spelling +:+ " *" +:+ " " +:+ String.concat " " qs end, FormPointer).
Proof.
  intros Hs Hf. assert ((forall e t', t <> CArray e t') /\ forall inner, type_name_around t inner = spelling +:+ inner) as [Ha Hi].
  { destruct form; [destruct Hs as [(? & ? & ->) Hs]..|done]; by split. }
  split; [by eexists _, _|]. intros inner. cbn [fst].
  replace (type_name_around (CPointer qs t) inner) with (type_name_around t (" *" +:+ after_space qs +:+ inner)).
  - rewrite Hi. destruct qs; cbn [after_space]; by rewrite <- ?string_app_assoc.
  - destruct t; [done..|]. by destruct (Ha extent t).
Qed.
Lemma spells_array t spelling form extent : spells t (spelling, form) -> form <> FormArray ->
  spells (CArray extent t) (spelling +:+ "[" +:+ extent +:+ "]", FormArray).
Proof. intros Hs Hf. unfold spells, type_name. cbn. destruct form; [destruct Hs as [_ Hs]; by rewrite Hs..|done]. Qed.

Lemma spell_alias_sound record st st' alias base :
  spell_alias record st alias = Some st' -> spells base st ->
  exists surface qs t, alias_target_surface alias record = Some surface /\
    split_whitespace alias.(ta_underlying_spelling) = qs ++ split_whitespace surface /\
    Forall (fun q => is_supported_base_qualifier q = true) qs /\
    declare alias.(ta_declarator_shape) (qualify qs base) = Some t /\ spells t st'.
Proof.
  unfold spell_alias. destruct st as [spelling form]. intros H Hs.
  destruct (alias_target_surface alias record) as [surface|]; [|done]. cbn [mbind option_bind] in H.
  destruct (exact_base_qualifiers _ surface) as [qs|] eqn:Eq; [|done]. cbn [mbind option_bind] in H.
  apply exact_base_qualifiers_sound in Eq as [Hw Hq].
  exists surface, qs. set (none := match qs with [] => true | _ => false end) in *.
  destruct (negb none && negb (bool_decide (form = FormPlain))) eqn:En; [done|].
  assert (qs = [] \/ form = FormPlain) as Hor.
  { destruct qs; [by left|]. right. simpl in En. by apply negb_false_iff, bool_decide_eq_true in En. }
  pose proof (spells_qualified _ _ _ _ Hs Hor) as Hs'. fold none in Hs'.
  set (spelling' := if none then spelling else _) in *. destruct (ta_declarator_shape alias) as [|pq|ext|?|?|qq|]; try done.
  - destruct none; [|done]. simplify_eq/=. by exists (qualify qs base).
  - case_bool_decide; [done|]. injection H as <-. exists (CPointer pq (qualify qs base)).
    split_conj; try done. pose proof (spells_pointer _ _ _ pq Hs' ltac:(done)) as Hp. destruct pq; [done|]. by rewrite <- string_app_assoc.
  - case_bool_decide; [done|]. injection H as <-. exists (CArray (trimmed ext) (qualify qs base)). split_conj; try done.
    by eapply spells_array.
  - destruct (_ || _); [done|]. injection H as <-. by exists (qualify qs base).
Qed.

Lemma compose_sound record chain st : 
  foldl (fun st alias => st ← st; spell_alias record st alias) (Some (type_spelling record, FormPlain)) chain = Some st ->
  exists t, denotes record chain t /\ spells t st.
Proof.
  revert st. induction chain as [|alias chain IH] using rev_ind; intros st.
  - intros [= <-]. exists (CRecord [] (type_spelling record)). split; [constructor|]. split; [by eexists _, _|]. done.
  - rewrite foldl_app. simpl. destruct (foldl _ _ chain) as [st0|] eqn:E; [|done]. cbn [mbind option_bind].
    destruct (IH st0 eq_refl) as (base & Hd & Hs). intros H.
    destruct (spell_alias_sound _ _ _ _ _ H Hs) as (surface & qs & t & ? & ? & ? & ? & ?). exists t. split; [|done].
    by eapply denotes_alias.
Qed.

(** A composed spelling is the C name of the type the chain of typedefs denotes: each
    declarator applied to its target, base qualifiers qualifying what C says they
    qualify, pointers and arrays nested in the order of the chain. Where the surface
    text does not determine that type, nothing is spelled. *)
Theorem aka_spelling_faithful record trace spelling :
  compose_aka_spelling record trace = Some spelling ->
  exists t, denotes record (rev trace) t /\ type_name t = spelling.
Proof.
  unfold compose_aka_spelling. intros (st & H & ->)%fmap_Some. apply compose_sound in H as (t & Hd & Hs).
  exists t. split; [done|]. by eapply spells_name.
Qed.

(** [typedef const struct Packet *PacketRef; typedef PacketRef PacketTable[4];] *)
Definition demo_range (byte : N) : SourceRange := mkSrcRange (mkPos byte 0) (mkPos byte 1) byte (byte + 1).
Definition demo_record (id : Z) (tag : string) (t : ScopeTier) : RecordCandidate :=
  {| rc_identity := PersistentRecord id; rc_display_name := tag; rc_tag_name := Some tag; rc_typedef_name := None;
     rc_kind := KindStruct; rc_path := "packet.h"; rc_name_range := demo_range 1; rc_body_range := demo_range 2;
     rc_declaration_range := demo_range 0; rc_declaration_hash := []; rc_range_fidelity := RangeAstExact;
     rc_confidence := NamedTag; rc_signature := ""; rc_tier := t; rc_revision := None |}.
Definition demo_alias (id : Z) (name : string) (target : TypeAliasTarget) (underlying : string) (shape : DeclaratorShape)
    (t : ScopeTier) : TypeAliasCandidate :=
  {| ta_identity := PersistentAlias id name; ta_alias := name; ta_target := target; ta_path := "alias.h";
     ta_name_range := demo_range 3; ta_declaration_range := demo_range 3; ta_declaration_hash := [];
     ta_underlying_spelling := underlying; ta_declarator_shape := shape; ta_target_fidelity := AstExact;
     ta_fingerprint := name; ta_tier := t; ta_revision := None |}.
Definition demo_ref : TypeAliasCandidate :=
  demo_alias 1 "PacketRef" (NamedRecord "Packet" KindStruct) "const  struct Packet" (Pointer []) TierReachable.
Definition demo_table : TypeAliasCandidate := demo_alias 2 "PacketTable" (TypeName "PacketRef") "PacketRef" (Array " 4 ") TierCurrent.

Lemma aka_spelling_faithful_witness :
  exists t, denotes (demo_record 7 "Packet" TierReachable) (rev [demo_table; demo_ref]) t /\
            type_name t = "const struct Packet *[4]".
Proof. apply (aka_spelling_faithful (demo_record 7 "Packet" TierReachable)). vm_compute. reflexivity. Defined.
