(* ===== verification/AliasResolution.v ===== *)
(** * Resolution of type aliases (query/type_resolution.rs)

    The bounded breadth-first walk from an alias along the strongest typedefs of each
    name to the records its chains end at, the issues met on the way, and the verdict:
    a unique record only when no equally trusted chain disagrees. *)

From S2P Require Import Prelude Candidates CallModel Relations Callables TypeCandidates AliasSpelling.

(** ** State *)

Record AliasResolutionLimits : Type := mkLimits { max_depth : nat; max_visits : nat }.
Definition ALIAS_RESOLUTION_MAX_DEPTH : nat := 16.
Definition ALIAS_RESOLUTION_MAX_VISITS : nat := 128.
Definition TYPE_CANDIDATE_LIMIT : nat := 128.
Definition default_limits : AliasResolutionLimits := mkLimits ALIAS_RESOLUTION_MAX_DEPTH ALIAS_RESOLUTION_MAX_VISITS.

Inductive AliasResolutionStatus : Type :=
  | UniqueRecord | AmbiguousRecord | StatusUnresolved | StatusCycle | UnsupportedDeclarator | StatusTruncated.
#[export] Instance AliasResolutionStatus_eq_dec : EqDecision AliasResolutionStatus.
Proof. solve_decision. Defined.
Inductive ResolutionIssueKind : Type := IssueAmbiguous | IssueUnresolved | IssueCycle | IssueTruncated.
#[export] Instance ResolutionIssueKind_eq_dec : EqDecision ResolutionIssueKind.
Proof. solve_decision. Defined.
Record ResolutionIssue : Type := mkIssue { issue_tier : ScopeTier; issue_kind : ResolutionIssueKind }.

Record Branch : Type := mkBranch {
  br_current : TypeAliasCandidate;
  br_trace : list TypeAliasCandidate;
  br_effective_tier : ScopeTier;
  br_visited : gset TypeAliasCandidateIdentity;
  br_exact_target : bool;
}.
Record Terminal : Type := mkTerminal {
  tm_record : RecordCandidate;
  tm_aka : option string;
  tm_unsupported_shape : bool;
  tm_inexact_target : bool;
}.
(** The locals the loop updates, the queue and the visit counter apart. *)
Record Walk : Type := mkWalk {
  wk_coverage : CandidateCoverage;
  wk_chain : list TypeAliasCandidate;
  wk_chain_seen : gset TypeAliasCandidateIdentity;
  wk_terminals : list Terminal;
  wk_issues : list ResolutionIssue;
}.
Definition push_issue (tier : ScopeTier) (kind : ResolutionIssueKind) (w : Walk) : Walk :=
  mkWalk w.(wk_coverage) w.(wk_chain) w.(wk_chain_seen) w.(wk_terminals) (w.(wk_issues) ++ [mkIssue tier kind]).
Definition truncate_walk (tier : ScopeTier) (w : Walk) : Walk :=
  push_issue tier IssueTruncated
    (mkWalk (mark_resolution_truncated w.(wk_coverage)) w.(wk_chain) w.(wk_chain_seen) w.(wk_terminals) w.(wk_issues)).
Definition push_terminals (ts : list Terminal) (w : Walk) : Walk :=
  mkWalk w.(wk_coverage) w.(wk_chain) w.(wk_chain_seen) (w.(wk_terminals) ++ ts) w.(wk_issues).
(** [if chain_seen.insert(identity) { chain.push(current) }] *)
Definition note_chain (a : TypeAliasCandidate) (w : Walk) : Walk :=
  if decide (a.(ta_identity) ∈ w.(wk_chain_seen)) then w
  else mkWalk w.(wk_coverage) (w.(wk_chain) ++ [a]) ({[a.(ta_identity)]} ∪ w.(wk_chain_seen)) w.(wk_terminals) w.(wk_issues).

Definition is_ast_exact (a : TypeAliasCandidate) : bool := bool_decide (a.(ta_target_fidelity) = AstExact).
Definition with_tier (r : RecordCandidate) (tier : ScopeTier) : RecordCandidate :=
  {| rc_identity := r.(rc_identity); rc_display_name := r.(rc_display_name); rc_tag_name := r.(rc_tag_name);
     rc_typedef_name := r.(rc_typedef_name); rc_kind := r.(rc_kind); rc_path := r.(rc_path);
     rc_name_range := r.(rc_name_range); rc_body_range := r.(rc_body_range);
     rc_declaration_range := r.(rc_declaration_range); rc_declaration_hash := r.(rc_declaration_hash);
     rc_range_fidelity := r.(rc_range_fidelity); rc_confidence := r.(rc_confidence);
     rc_signature := r.(rc_signature); rc_tier := tier; rc_revision := r.(rc_revision) |}.
Definition terminal_match (branch : Branch) (record : RecordCandidate) : Terminal :=
  let record := with_tier record (min_tier branch.(br_effective_tier) record.(rc_tier)) in
  let aka := if branch.(br_exact_target) then compose_aka_spelling record branch.(br_trace) else None in
  mkTerminal record aka
    ((match aka with None => true | Some _ => false end)
     && existsb (fun a => bool_decide (a.(ta_declarator_shape) = Unsupported)) branch.(br_trace))
    (negb branch.(br_exact_target)).
Definition push_terminal_matches (matches : list RecordCandidate) (branch : Branch) (w : Walk) : Walk :=
  push_terminals (terminal_match branch <$> matches) w.

Section resolve.
Context (aliases : list TypeAliasCandidate) (records : list RecordCandidate) (limits : AliasResolutionLimits).

(** ** The walk *)

(** The strongest typedefs of a name, one per identity, in rank order. *)
Definition next_aliases (name : string) : list TypeAliasCandidate :=
  let next := List.filter (fun c => String.eqb c.(ta_alias) name) aliases in
  let next := sort_alias_candidates next in
  let next := retain_new ta_identity ∅ next in
  match next with
  | [] => []
  | strongest :: _ => List.filter (fun c => bool_decide (c.(ta_tier) = strongest.(ta_tier))) next
  end.
Definition root_branch (alias : TypeAliasCandidate) : Branch :=
  mkBranch alias [alias] alias.(ta_tier) {[alias.(ta_identity)]} (is_ast_exact alias).
Definition extend_branch (branch : Branch) (candidate : TypeAliasCandidate) : Branch :=
  mkBranch candidate (branch.(br_trace) ++ [candidate]) (min_tier branch.(br_effective_tier) candidate.(ta_tier))
    ({[candidate.(ta_identity)]} ∪ branch.(br_visited)) (branch.(br_exact_target) && is_ast_exact candidate).
(** The body of [for candidate in next]. *)
Definition follow (branch : Branch) (st : list Branch * Walk) (candidate : TypeAliasCandidate) : list Branch * Walk :=
  let effective_tier := min_tier branch.(br_effective_tier) candidate.(ta_tier) in
  if decide (candidate.(ta_identity) ∈ branch.(br_visited)) then (st.1, push_issue effective_tier IssueCycle st.2)
  else (st.1 ++ [extend_branch branch candidate], st.2).
Definition end_at (matches : list RecordCandidate) (branch : Branch) (w : Walk) : Walk :=
  match matches with
  | [] => push_issue branch.(br_effective_tier) IssueUnresolved w
  | _ => push_terminal_matches matches branch w
  end.
(** The body of the loop, after the visit is counted. *)
Definition visit_branch (branch : Branch) (queue : list Branch) (w : Walk) : list Branch * Walk :=
  let w := note_chain branch.(br_current) w in
  match branch.(br_current).(ta_target) with
  | StableRecord identity =>
      (queue, end_at (List.filter (fun r => bool_decide (r.(rc_identity) = identity)) records) branch w)
  | NamedRecord tag kind =>
      (queue, end_at (List.filter (fun r => named_tag_matches r tag kind) records) branch w)
  | TypeName name =>
      if (limits.(max_depth) <=? length branch.(br_trace))%nat then (queue, truncate_walk branch.(br_effective_tier) w)
      else
        match next_aliases name with
        | [] => (queue, push_issue branch.(br_effective_tier) IssueUnresolved w)
        | (first :: rest) as next =>
            let w := match rest with
                     | [] => w
                     | _ => push_issue (min_tier branch.(br_effective_tier) first.(ta_tier)) IssueAmbiguous w
                     end in
            foldl (follow branch) (queue, w) next
        end
  end.
(** The loop; [remaining] is [max_visits - visits]. *)
Fixpoint resolve_loop (remaining : nat) (queue : list Branch) (w : Walk) : Walk :=
  match queue with
  | [] => w
  | branch :: queue =>
      match remaining with
      | O => truncate_walk branch.(br_effective_tier) w
      | S remaining => let st := visit_branch branch queue w in resolve_loop remaining st.1 st.2
      end
  end.

(** ** The verdict *)

Definition merge_terminal (existing terminal : Terminal) : Terminal :=
  match tier_cmp terminal.(tm_record).(rc_tier) existing.(tm_record).(rc_tier) with
  | Gt => terminal
  | Eq =>
      let differ := negb (bool_decide (existing.(tm_aka) = terminal.(tm_aka))) in
      mkTerminal existing.(tm_record) (if differ then None else existing.(tm_aka))
        ((existing.(tm_unsupported_shape) || differ) || terminal.(tm_unsupported_shape))
        (existing.(tm_inexact_target) || terminal.(tm_inexact_target))
  | Lt => existing
  end.
Definition add_terminal (m : gmap RecordCandidateIdentity Terminal) (terminal : Terminal) :
    gmap RecordCandidateIdentity Terminal :=
  let identity := terminal.(tm_record).(rc_identity) in
  match m !! identity with
  | None => <[identity := terminal]> m
  | Some existing => <[identity := merge_terminal existing terminal]> m
  end.
Definition deduplicate_terminals (terminals : list Terminal) : list Terminal :=
  let by_identity := foldl add_terminal ∅ terminals in
  sort_by (cmp_on tm_record compare_record_candidates) (map_to_list by_identity).*2.

(** [Iterator::max] *)
Definition max_tier (ts : list ScopeTier) : option ScopeTier :=
  foldl (fun best t => match best with
                       | None => Some t
                       | Some b => match tier_cmp b t with Gt => Some b | _ => Some t end
                       end) None ts.
Definition has_issue (kind : ResolutionIssueKind) (issues : list ResolutionIssue) : bool :=
  existsb (fun i => bool_decide (i.(issue_kind) = kind)) issues.
Definition resolution_status (coverage : CandidateCoverage) (winning : list Terminal) (issues : list ResolutionIssue) :
    AliasResolutionStatus :=
  if negb (permits_uniqueness coverage) || has_issue IssueTruncated issues then StatusTruncated
  else if has_issue IssueCycle issues then StatusCycle
  else if (1 <? length winning)%nat || has_issue IssueAmbiguous issues then AmbiguousRecord
  else match winning with
       | [] => StatusUnresolved
       | terminal :: _ =>
           if has_issue IssueUnresolved issues then StatusUnresolved
           else if terminal.(tm_unsupported_shape) || (match terminal.(tm_aka) with None => true | Some _ => false end) then
             (if terminal.(tm_inexact_target) then StatusUnresolved else UnsupportedDeclarator)
           else UniqueRecord
       end.

Record AliasResolution : Type := mkResolution {
  res_alias : TypeAliasCandidate;
  res_chain : list TypeAliasCandidate;
  terminal_records : list RecordCandidate;
  winning_tier : option ScopeTier;
  aka_spelling : option string;
  res_status : AliasResolutionStatus;
  res_coverage : CandidateCoverage;
}.
(** The walk from the root. *)
Definition walk_of (alias : TypeAliasCandidate) (coverage : CandidateCoverage) : Walk :=
  resolve_loop limits.(max_visits) [root_branch alias] (mkWalk coverage [] ∅ [] []).
(** What follows the loop. *)
Definition conclude (alias : TypeAliasCandidate) (w : Walk) : AliasResolution :=
  let terminals := deduplicate_terminals w.(wk_terminals) in
  let winning_tier := max_tier ((fun t => t.(tm_record).(rc_tier)) <$> terminals) in
  let winning := match winning_tier with
                 | None => []
                 | Some tier => List.filter (fun t => bool_decide (t.(tm_record).(rc_tier) = tier)) terminals
                 end in
  let relevant_issues :=
    List.filter (fun i => match winning_tier with
                          | None => true
                          | Some tier => match tier_cmp i.(issue_tier) tier with Lt => false | _ => true end
                          end) w.(wk_issues) in
  let status := resolution_status w.(wk_coverage) winning relevant_issues in
  let aka_spelling := if bool_decide (status = UniqueRecord)
                      then match winning with [] => None | t :: _ => t.(tm_aka) end else None in
  mkResolution alias w.(wk_chain) (tm_record <$> terminals) winning_tier aka_spelling status w.(wk_coverage).
Definition resolve_type_alias_with_limits (alias : TypeAliasCandidate) (coverage : CandidateCoverage) : AliasResolution :=
  conclude alias (walk_of alias coverage).
End resolve.
Definition resolve_type_alias (alias : TypeAliasCandidate) (aliases : list TypeAliasCandidate)
    (records : list RecordCandidate) (coverage : CandidateCoverage) : AliasResolution :=
  resolve_type_alias_with_limits aliases records default_limits alias coverage.

(** ** Chains of aliases *)

Local Abbreviation rank := tier_rank.
Lemma tier_le_cmp a b : tier_cmp a b <> Lt <-> (rank b <= rank a)%Z.
Proof. rewrite tier_cmp_rank. destruct (Z.compare_spec (rank a) (rank b)); naive_solver lia. Qed.

(** How much a chain is trusted: as much as its least trusted alias. *)
Definition chain_tier (tr : list TypeAliasCandidate) : ScopeTier :=
  match tr with [] => TierCurrent | a :: rest => foldl (fun t c => min_tier t c.(ta_tier)) a.(ta_tier) rest end.
Definition trust (tr : list TypeAliasCandidate) : Z := rank (chain_tier tr).
Definition identities (tr : list TypeAliasCandidate) : list TypeAliasCandidateIdentity := ta_identity <$> tr.
(** The alias names a record of the snapshot. *)
Definition points_to (a : TypeAliasCandidate) (r : RecordCandidate) : Prop :=
  match a.(ta_target) with
  | StableRecord identity => r.(rc_identity) = identity
  | NamedRecord tag kind => named_tag_matches r tag kind = true
  | TypeName _ => False
  end.

Lemma chain_tier_snoc tr c : tr <> [] -> chain_tier (tr ++ [c]) = min_tier (chain_tier tr) c.(ta_tier).
Proof. destruct tr as [|a tr]; [done|]. intros _. simpl. by rewrite foldl_app. Qed.
Lemma trust_snoc tr c : tr <> [] -> trust (tr ++ [c]) = Z.min (trust tr) (rank c.(ta_tier)).
Proof. intros ?. unfold trust. by rewrite chain_tier_snoc, min_tier_rank. Qed.

Section chains.
Context (aliases : list TypeAliasCandidate) (records : list RecordCandidate) (limits : AliasResolutionLimits)
  (root : TypeAliasCandidate).
Local Abbreviation next_aliases := (next_aliases aliases).

(** The chains of the resolution: from the root along the strongest typedefs of each
    name, never twice through one declarator. *)
Inductive alias_chain : list TypeAliasCandidate -> Prop :=
  | chain_root : alias_chain [root]
  | chain_step tr cur name c :
      alias_chain tr -> last tr = Some cur -> cur.(ta_target) = TypeName name ->
      c ∈ next_aliases name -> c.(ta_identity) ∉ identities tr -> alias_chain (tr ++ [c]).
Definition ends_at (tr : list TypeAliasCandidate) (r : RecordCandidate) : Prop :=
  exists cur, last tr = Some cur /\ points_to cur r /\ r ∈ records.
(** A chain and the record it ends at, trusted as much as the weaker of them. *)
Definition reaches (tr : list TypeAliasCandidate) (r : RecordCandidate) (t : ScopeTier) : Prop :=
  alias_chain tr /\ ends_at tr r /\ min_tier (chain_tier tr) r.(rc_tier) = t.
(** Among the chains trusted at least [t]: no two diverge, none stops short of a record
    or of another typedef, none comes back to itself. *)
Definition agreed (t : ScopeTier) : Prop :=
  (forall tr1 tr2, alias_chain tr1 -> alias_chain tr2 -> (rank t <= trust tr1)%Z -> (rank t <= trust tr2)%Z ->
     tr1 `prefix_of` tr2 \/ tr2 `prefix_of` tr1) /\
  (forall tr cur, alias_chain tr -> (rank t <= trust tr)%Z -> last tr = Some cur ->
     (exists r, ends_at tr r) \/ (exists name, cur.(ta_target) = TypeName name /\ next_aliases name <> [])) /\
  (forall tr cur name c, alias_chain tr -> (rank t <= trust tr)%Z -> last tr = Some cur ->
     cur.(ta_target) = TypeName name -> c ∈ next_aliases name -> (rank t <= rank c.(ta_tier))%Z ->
     c.(ta_identity) ∉ identities tr).
Definition spelled (tr : list TypeAliasCandidate) (r : RecordCandidate) : option string :=
  if forallb is_ast_exact tr then compose_aka_spelling r tr else None.
(** The record [id], trusted [t] and spelled [s], is what the alias means: it is reached,
    anything else reached is trusted less, and the chains trusted that much agree. *)
Definition means (t : ScopeTier) (id : RecordCandidateIdentity) (s : string) : Prop :=
  agreed t /\
  (exists tr r, reaches tr r t) /\
  (forall tr r t', reaches tr r t' ->
     (rank t' <= rank t)%Z /\ (t' = t -> r.(rc_identity) = id /\ spelled tr (with_tier r t) = Some s)).

(** ** One visit *)

Definition branch_of (tr : list TypeAliasCandidate) (cur : TypeAliasCandidate) : Branch :=
  mkBranch cur tr (chain_tier tr) (list_to_set (identities tr)) (forallb is_ast_exact tr).
Definition cut (b : Branch) : bool :=
  match b.(br_current).(ta_target) with TypeName _ => (limits.(max_depth) <=? length b.(br_trace))%nat | _ => false end.
Definition next_of (b : Branch) : list TypeAliasCandidate :=
  match b.(br_current).(ta_target) with TypeName name => if cut b then [] else next_aliases name | _ => [] end.
Definition seen_by (b : Branch) (c : TypeAliasCandidate) : bool := bool_decide (c.(ta_identity) ∈ b.(br_visited)).
Definition children (b : Branch) : list Branch :=
  extend_branch b <$> List.filter (fun c => negb (seen_by b c)) (next_of b).
Definition matches_of (b : Branch) : list RecordCandidate :=
  match b.(br_current).(ta_target) with
  | StableRecord identity => List.filter (fun r => bool_decide (r.(rc_identity) = identity)) records
  | NamedRecord tag kind => List.filter (fun r => named_tag_matches r tag kind) records
  | TypeName _ => []
  end.
Definition terminals_of (b : Branch) : list Terminal := terminal_match b <$> matches_of b.
Definition issues_of (b : Branch) : list ResolutionIssue :=
  match b.(br_current).(ta_target) with
  | TypeName name =>
      if cut b then [mkIssue b.(br_effective_tier) IssueTruncated]
      else match next_aliases name with
           | [] => [mkIssue b.(br_effective_tier) IssueUnresolved]
           | (first :: rest) as next =>
               (match rest with [] => [] | _ => [mkIssue (min_tier b.(br_effective_tier) first.(ta_tier)) IssueAmbiguous] end)
               ++ ((fun c => mkIssue (min_tier b.(br_effective_tier) c.(ta_tier)) IssueCycle) <$> List.filter (seen_by b) next)
           end
  | _ => match matches_of b with [] => [mkIssue b.(br_effective_tier) IssueUnresolved] | _ => [] end
  end.
Definition after_visit (b : Branch) (w : Walk) : Walk :=
  let w' := note_chain b.(br_current) w in
  mkWalk (if cut b then mark_resolution_truncated w.(wk_coverage) else w.(wk_coverage)) w'.(wk_chain) w'.(wk_chain_seen)
    (w.(wk_terminals) ++ terminals_of b) (w.(wk_issues) ++ issues_of b).

Lemma foldl_follow b next : forall queue w,
  foldl (follow b) (queue, w) next =
  (queue ++ (extend_branch b <$> List.filter (fun c => negb (seen_by b c)) next),
   mkWalk w.(wk_coverage) w.(wk_chain) w.(wk_chain_seen) w.(wk_terminals)
     (w.(wk_issues) ++ ((fun c => mkIssue (min_tier b.(br_effective_tier) c.(ta_tier)) IssueCycle) <$> List.filter (seen_by b) next))).
Proof.
  induction next as [|c next IH]; intros queue w; [simpl; rewrite !app_nil_r; by destruct w|].
  cbn [foldl List.filter]. unfold follow at 2. destruct (seen_by b c) eqn:E; unfold seen_by in E; cbn [negb fst snd].
  - apply bool_decide_eq_true in E. rewrite decide_True by done. rewrite IH. cbn. by rewrite <- app_assoc.
  - apply bool_decide_eq_false in E. rewrite decide_False by done. rewrite IH. cbn. by rewrite <- app_assoc.
Qed.
Lemma note_chain_rest a w :
  (note_chain a w).(wk_coverage) = w.(wk_coverage) /\ (note_chain a w).(wk_terminals) = w.(wk_terminals) /\
  (note_chain a w).(wk_issues) = w.(wk_issues).
Proof. unfold note_chain. by case_decide. Qed.
Lemma visit_eq b queue w :
  visit_branch aliases records limits b queue w = (queue ++ children b, after_visit b w).
Proof.
  unfold visit_branch, after_visit, children, next_of, issues_of, terminals_of, matches_of, cut.
  destruct (note_chain_rest (br_current b) w) as (<- & <- & <-). set (w' := note_chain _ w).
  destruct (ta_target (br_current b)) as [identity|tag kind|name]; cbn [fmap list_fmap].
  1,2: rewrite app_nil_r; apply (f_equal (fun x => (queue, x))); unfold end_at, push_terminal_matches, push_terminals, push_issue;
    destruct (List.filter _ records); cbn [fmap list_fmap]; by rewrite ?app_nil_r.
  destruct (limits.(max_depth) <=? length (br_trace b))%nat.
  { by rewrite !app_nil_r. }
  destruct (next_aliases name) as [|first rest]; [by rewrite !app_nil_r|].
  rewrite foldl_follow. apply (f_equal (fun x => (_, x))). destruct rest as [|c rest].
  - cbn [app]. by rewrite app_nil_r.
  - cbn [push_issue wk_coverage wk_chain wk_chain_seen wk_terminals wk_issues]. by rewrite app_nil_r, <- app_assoc.
Qed.

(** ** Branches are chains *)

Definition good (b : Branch) : Prop := exists tr cur, alias_chain tr /\ last tr = Some cur /\ b = branch_of tr cur.
Lemma alias_chain_nonempty tr : alias_chain tr -> tr <> [].
Proof. by destruct 1 as [|[|? ?]]. Qed.
Lemma alias_chain_last tr : alias_chain tr -> exists cur, last tr = Some cur.
Proof. destruct 1; [by exists root|]. eexists. apply last_snoc. Qed.
Lemma extend_branch_of tr cur c : tr <> [] -> extend_branch (branch_of tr cur) c = branch_of (tr ++ [c]) c.
Proof.
  intros Hn. unfold extend_branch, branch_of. cbn. f_equal.
  - by rewrite chain_tier_snoc.
  - unfold identities. rewrite fmap_app, list_to_set_app_L. cbn. set_solver.
  - by rewrite forallb_app; cbn; rewrite andb_true_r.
Qed.
Lemma root_branch_of : root_branch root = branch_of [root] root.
Proof. unfold root_branch, branch_of. cbn. f_equal; [set_solver|by rewrite andb_true_r]. Qed.
Lemma good_root : good (root_branch root).
Proof. exists [root], root. split_conj; [constructor|done|apply root_branch_of]. Qed.
Lemma seen_by_iff tr cur c : seen_by (branch_of tr cur) c = true <-> c.(ta_identity) ∈ identities tr.
Proof. unfold seen_by. rewrite bool_decide_eq_true. cbn. by rewrite elem_of_list_to_set. Qed.
(** The children of a branch are the chains one alias longer. *)
Lemma elem_of_children tr cur b : alias_chain tr -> last tr = Some cur ->
  b ∈ children (branch_of tr cur) <->
  exists c name, b = branch_of (tr ++ [c]) c /\ cur.(ta_target) = TypeName name /\ cut (branch_of tr cur) = false /\
    c ∈ next_aliases name /\ c.(ta_identity) ∉ identities tr.
Proof.
  intros Hc Hl. unfold children. rewrite list_elem_of_fmap. split.
  - intros (c & -> & [Hin Hs]%elem_of_filter_bool). unfold next_of in Hin. cbn [br_current branch_of] in Hin.
    destruct (ta_target cur) as [| |name] eqn:Et; try by apply elem_of_nil in Hin.
    destruct (cut (branch_of tr cur)) eqn:Ec; [by apply elem_of_nil in Hin|].
    exists c, name. split_conj; try done; [by rewrite extend_branch_of by by apply alias_chain_nonempty|].
    rewrite <- seen_by_iff with (cur := cur). by destruct (seen_by _ c).
  - intros (c & name & -> & Et & Ec & Hin & Hnew). exists c. rewrite extend_branch_of by by apply alias_chain_nonempty.
    split; [done|]. apply elem_of_filter_bool. unfold next_of. cbn [br_current branch_of]. rewrite Et, Ec. split; [done|].
    rewrite <- seen_by_iff with (cur := cur) in Hnew. by destruct (seen_by _ c).
Qed.
Lemma good_children b b' : good b -> b' ∈ children b -> good b' /\ exists c, b'.(br_trace) = b.(br_trace) ++ [c].
Proof.
  intros (tr & cur & Hc & Hl & ->) (c & name & -> & Et & _ & Hin & Hnew)%elem_of_children; [|done..].
  split; [|by exists c]. exists (tr ++ [c]), c. split_conj; [by eapply chain_step|apply last_snoc|done].
Qed.

(** ** The loop *)

Section walk.
Context (coverage : CandidateCoverage).

(** [done] are the branches visited so far. *)
Record walked (visited queue : list Branch) (w : Walk) : Prop := {
  wd_terminals : w.(wk_terminals) = concat (terminals_of <$> visited);
  wd_issues : w.(wk_issues) = concat (issues_of <$> visited);
  wd_coverage : w.(wk_coverage) = if existsb cut visited then mark_resolution_truncated coverage else coverage;
  wd_good : Forall good (visited ++ queue);
  wd_distinct : NoDup (br_trace <$> visited ++ queue);
  wd_root : root_branch root ∈ visited ++ queue;
  wd_parent : forall b, b ∈ visited ++ queue -> b = root_branch root \/ exists p, p ∈ visited /\ b ∈ children p;
  wd_closed : forall b c, b ∈ visited -> c ∈ children b -> c ∈ visited ++ queue;
}.
Lemma mark_twice c : mark_resolution_truncated (mark_resolution_truncated c) = mark_resolution_truncated c.
Proof. destruct c as [? ? ? []]; done. Qed.
Lemma next_aliases_distinct name : NoDup (ta_identity <$> next_aliases name).
Proof.
  unfold AliasResolution.next_aliases. destruct (retain_new _ _ _) as [|c l] eqn:E; [constructor|]. rewrite <- E.
  eapply NoDup_of_submseteq; [apply sublist_submseteq, fmap_sublist, list_filter_bool_sublist|]. apply retain_new_nodup.
Qed.
Lemma children_distinct b : NoDup (br_trace <$> children b).
Proof.
  unfold children. rewrite <- list_fmap_compose.
  assert (NoDup (ta_identity <$> next_of b)) as Hn.
  { unfold next_of. destruct (ta_target _); [constructor..|]. destruct (cut b); [constructor|apply next_aliases_distinct]. }
  assert (NoDup (List.filter (fun c => negb (seen_by b c)) (next_of b))) as Hf.
  { eapply NoDup_of_submseteq; [apply sublist_submseteq, list_filter_bool_sublist|]. by eapply NoDup_fmap_1. }
  apply NoDup_fmap_2; [|done]. intros x y Hxy. simpl in Hxy. by apply app_inj_2 in Hxy as [_ [= ->]].
Qed.
Lemma walked_step visited b queue w : walked visited (b :: queue) w ->
  walked (visited ++ [b]) (queue ++ children b) (after_visit b w).
Proof.
  intros [Ht Hi Hc Hg Hd Hr Hp Hcl]. rewrite (cons_middle b visited queue) in *.
  assert (good b) as Hgb by (rewrite !Forall_app in Hg; destruct Hg as (_ & Hg & _); by inversion Hg).
  split.
  - unfold after_visit. cbn [wk_terminals]. by rewrite Ht, fmap_app, concat_app, fmap_cons, concat_cons, app_nil_r.
  - unfold after_visit. cbn [wk_issues]. by rewrite Hi, fmap_app, concat_app, fmap_cons, concat_cons, app_nil_r.
  - unfold after_visit. cbn [wk_coverage]. rewrite Hc, existsb_app. cbn [existsb]. rewrite orb_false_r.
    destruct (existsb cut visited), (cut b); cbn [orb]; by rewrite ?mark_twice.
  - rewrite app_assoc in Hg |- *. apply Forall_app. split; [done|]. apply Forall_forall. intros b' Hb'. by eapply good_children.
  - rewrite app_assoc in Hd |- *. rewrite (fmap_app _ ((visited ++ [b]) ++ queue)).
    apply NoDup_app. split; [done|]. split; [|apply children_distinct].
    intros tr (b1 & -> & Hb1)%list_elem_of_fmap (b2 & E & Hb2)%list_elem_of_fmap. rewrite <- app_assoc in Hb1, Hd.
    destruct (good_children _ _ Hgb Hb2) as [_ [c Ec]]. rewrite Ec in E.
    destruct (Hp b1 Hb1) as [->|(p & Hpv & Hpc)].
    + destruct Hgb as (tr & cur & Htr%alias_chain_nonempty & _ & ->). cbn in E. destruct tr as [|? [|]]; naive_solver.
    + assert (good p) as Hgp by (rewrite !Forall_app in Hg; destruct Hg as (Hg & _); by eapply Forall_forall in Hg).
      destruct (good_children _ _ Hgp Hpc) as [_ [c' Ec']]. rewrite Ec' in E. apply app_inj_2 in E as [E _]; [|done].
      rewrite fmap_app in Hd. apply NoDup_app in Hd as (_ & Hd & _). apply (Hd (br_trace p)); [apply list_elem_of_fmap; by exists p|].
      apply list_elem_of_fmap. exists b. split; [done|]. cbn. by left.
  - set_solver.
  - intros b'. rewrite app_assoc, elem_of_app. rewrite <- app_assoc. intros [Hb'|Hb'].
    + destruct (Hp b' Hb') as [?|(p & ? & ?)]; [by left|]. right. exists p. split; [set_solver|done].
    + right. exists b. split; [set_solver|done].
  - intros b' c. rewrite elem_of_app, list_elem_of_singleton. intros [Hb'| ->] Hch; [|set_solver].
    pose proof (Hcl _ _ Hb' Hch). set_solver.
Qed.
Lemma walked_start : walked [] [root_branch root] (mkWalk coverage [] ∅ [] []).
Proof.
  split; cbn; try done.
  - repeat constructor. apply good_root.
  - apply NoDup_singleton.
  - by left.
  - intros b Hb%list_elem_of_singleton. by left.
  - by intros b c ?%elem_of_nil.
Qed.
(** The loop visits every branch, or as many as it may and says so. *)
Lemma loop_walked remaining : forall visited queue w, walked visited queue w ->
  let w' := resolve_loop aliases records limits remaining queue w in
  (exists visited', walked visited' [] w' /\ (length visited' <= length visited + remaining)%nat) \/
  (exists visited' queue', queue' <> [] /\ length visited' = (length visited + remaining)%nat /\
     (exists w'', walked visited' queue' w'') /\ permits_uniqueness w'.(wk_coverage) = false).
Proof.
  induction remaining as [|remaining IH]; intros visited queue w Hw; cbn [resolve_loop].
  - destruct queue as [|b queue]; [left; exists visited; split; [done|lia]|].
    right. exists visited, (b :: queue). split_conj; [done|lia|by exists w|done].
  - destruct queue as [|b queue]; [left; exists visited; split; [done|lia]|].
    rewrite visit_eq. cbn [fst snd]. destruct (IH _ _ _ (walked_step _ _ _ _ Hw)) as [(v & Hv & Hl)|(v & q & Hq & Hl & Hv & Hp)].
    + left. exists v. split; [done|]. rewrite length_app in Hl. simpl in Hl. lia.
    + right. exists v, q. rewrite length_app in Hl. simpl in Hl. split_conj; [done|lia|done|done].
Qed.

(** A walk that lets uniqueness be claimed has visited every chain. *)
Lemma walk_complete : let w := walk_of aliases records limits root coverage in
  permits_uniqueness w.(wk_coverage) = true ->
  exists visited, walked visited [] w /\ (length visited <= limits.(max_visits))%nat /\ permits_uniqueness coverage = true /\
    existsb cut visited = false /\
    (forall tr cur, alias_chain tr -> last tr = Some cur -> branch_of tr cur ∈ visited).
Proof.
  intros w Hp. destruct (loop_walked limits.(max_visits) _ _ _ walked_start) as [(v & Hv & Hl)|(v & q & _ & _ & _ & Hf)];
    change (resolve_loop _ _ _ _ _ _) with w in *; [|congruence].
  exists v. split; [done|]. split; [done|]. pose proof (wd_coverage _ _ _ Hv) as Hc.
  destruct (existsb cut v) eqn:Ecut; [rewrite Hc in Hp; done|]. split; [congruence|]. split; [done|].
  intros tr cur Hch. revert cur. induction Hch as [|tr cur name c Hch IH Hl' Ht Hc' Hnew]; intros x Hx.
  - injection Hx as <-. rewrite <- root_branch_of. pose proof (wd_root _ _ _ Hv) as Hr. by rewrite app_nil_r in Hr.
  - rewrite last_snoc in Hx. injection Hx as <-. pose proof (wd_closed _ _ _ Hv) as Hcl. rewrite app_nil_r in Hcl.
    apply (Hcl (branch_of tr cur)); [by apply IH|]. apply elem_of_children; [done..|]. exists c, name. split_conj; try done.
    destruct (cut (branch_of tr cur)) eqn:E; [|done]. exfalso. rewrite <- not_true_iff_false in Ecut. apply Ecut, existsb_exists.
    exists (branch_of tr cur). split; [|done]. by apply list_elem_of_In, IH.
Qed.
End walk.

Lemma elem_of_matches tr cur r : last tr = Some cur -> r ∈ matches_of (branch_of tr cur) <-> ends_at tr r.
Proof.
  intros Hl. unfold matches_of, ends_at, points_to. cbn [br_current branch_of]. rewrite Hl.
  split.
  - intros Hr. exists cur. split; [done|]. destruct (ta_target cur); [..|by apply elem_of_nil in Hr];
      apply elem_of_filter_bool in Hr as [Hr E]; [by apply bool_decide_eq_true in E|done].
  - intros (cur' & [= <-] & Hp & Hr). destruct (ta_target cur); [..|done]; apply elem_of_filter_bool; [|done].
    by rewrite bool_decide_eq_true.
Qed.
Lemma terminal_match_of tr cur r :
  let t := min_tier (chain_tier tr) r.(rc_tier) in let terminal := terminal_match (branch_of tr cur) r in
  terminal.(tm_record) = with_tier r t /\ terminal.(tm_aka) = spelled tr (with_tier r t) /\
  (terminal.(tm_aka) <> None -> terminal.(tm_unsupported_shape) = false).
Proof. split; [done|]. split; [done|]. unfold terminal_match. cbn [tm_aka tm_unsupported_shape br_exact_target branch_of br_trace].
  destruct (forallb is_ast_exact tr); [|done]. match goal with |- context [compose_aka_spelling ?a ?b] => by destruct (compose_aka_spelling a b) end. Qed.

Section complete.
Context (visited : list Branch) (Hgood : Forall good visited)
  (Hall : forall tr cur, alias_chain tr -> last tr = Some cur -> branch_of tr cur ∈ visited)
  (Hcut : existsb cut visited = false).
Local Abbreviation terminals := (concat (terminals_of <$> visited)).
Local Abbreviation issues := (concat (issues_of <$> visited)).

Lemma elem_of_concat_visited {A} (f : Branch -> list A) x : x ∈ concat (f <$> visited) <->
  exists tr cur, alias_chain tr /\ last tr = Some cur /\ x ∈ f (branch_of tr cur).
Proof.
  rewrite list_elem_of_In, in_concat. split.
  - intros (l & Hl%list_elem_of_In & Hx%list_elem_of_In). apply list_elem_of_fmap in Hl as (b & -> & Hb).
    pose proof (proj1 (Forall_forall _ _) Hgood b Hb) as (tr & cur & ? & ? & ->). by exists tr, cur.
  - intros (tr & cur & Hc & Hl & Hx). exists (f (branch_of tr cur)). rewrite <- !list_elem_of_In. split; [|done].
    apply list_elem_of_fmap. eexists. split; [done|]. by apply Hall.
Qed.
Lemma no_cut tr cur : alias_chain tr -> last tr = Some cur -> cut (branch_of tr cur) = false.
Proof.
  intros Hc Hl. destruct (cut _) eqn:E; [|done]. exfalso. rewrite <- not_true_iff_false in Hcut. apply Hcut, existsb_exists.
  eexists. split; [|exact E]. by apply list_elem_of_In, Hall.
Qed.
Lemma elem_of_terminals terminal : terminal ∈ terminals ->
  exists tr r t, reaches tr r t /\ terminal.(tm_record) = with_tier r t /\ terminal.(tm_aka) = spelled tr (with_tier r t) /\
    (terminal.(tm_aka) <> None -> terminal.(tm_unsupported_shape) = false).
Proof.
  intros (tr & cur & Hc & Hl & Hx)%elem_of_concat_visited. unfold terminals_of in Hx. apply list_elem_of_fmap in Hx as (r & -> & Hr).
  apply elem_of_matches in Hr; [|done]. exists tr, r, (min_tier (chain_tier tr) r.(rc_tier)). split; [done|]. apply terminal_match_of.
Qed.
Lemma reaches_terminal tr r t : reaches tr r t -> exists terminal, terminal ∈ terminals /\
  terminal.(tm_record) = with_tier r t /\ terminal.(tm_aka) = spelled tr (with_tier r t).
Proof.
  intros (Hc & He & <-). destruct (alias_chain_last tr Hc) as [cur Hl]. exists (terminal_match (branch_of tr cur) r). split; [|done].
  apply elem_of_concat_visited. exists tr, cur. split_conj; try done. apply list_elem_of_fmap. exists r. split; [done|]. by apply elem_of_matches.
Qed.

(** The issues of at least a given trust. *)
Definition raised (t : ScopeTier) (kind : ResolutionIssueKind) : Prop :=
  exists i, i ∈ issues /\ (rank t <= rank i.(issue_tier))%Z /\ i.(issue_kind) = kind.
Lemma raised_iff t kind : raised t kind <-> exists tr cur i, alias_chain tr /\ last tr = Some cur /\
  i ∈ issues_of (branch_of tr cur) /\ (rank t <= rank i.(issue_tier))%Z /\ i.(issue_kind) = kind.
Proof.
  unfold raised. split.
  - intros (i & (tr & cur & ? & ? & ?)%elem_of_concat_visited & ? & ?). by exists tr, cur, i.
  - intros (tr & cur & i & ? & ? & ? & ? & ?). exists i. split; [|done]. apply elem_of_concat_visited. by exists tr, cur.
Qed.
Lemma not_truncated t : ~ raised t IssueTruncated.
Proof.
  rewrite raised_iff. intros (tr & cur & i & Hc & Hl & Hi & _ & Hk). unfold issues_of in Hi. cbn [br_current branch_of br_effective_tier] in Hi.
  rewrite (no_cut tr cur) in Hi by done.
  destruct (ta_target cur) as [| |name]; [destruct (matches_of _); by apply list_elem_of_singleton in Hi as -> || by apply elem_of_nil in Hi..|].
  destruct (next_aliases name); [by apply list_elem_of_singleton in Hi as ->|].
  apply elem_of_app in Hi as [Hi|(c & -> & _)%list_elem_of_fmap]; [|done]. destruct l; [by apply elem_of_nil in Hi|by apply list_elem_of_singleton in Hi as ->].
Qed.
Lemma next_aliases_tier name c c' : c ∈ next_aliases name -> c' ∈ next_aliases name -> c.(ta_tier) = c'.(ta_tier).
Proof.
  unfold AliasResolution.next_aliases. destruct (retain_new _ _ _) as [|d l]; [by intros ?%elem_of_nil|].
  intros [_ E%bool_decide_eq_true]%elem_of_filter_bool [_ E'%bool_decide_eq_true]%elem_of_filter_bool. congruence.
Qed.
Lemma raised_cycle t : raised t IssueCycle <-> exists tr cur name c, alias_chain tr /\ last tr = Some cur /\
  cur.(ta_target) = TypeName name /\ c ∈ next_aliases name /\ c.(ta_identity) ∈ identities tr /\
  (rank t <= trust tr)%Z /\ (rank t <= rank c.(ta_tier))%Z.
Proof.
  rewrite raised_iff. split.
  - intros (tr & cur & i & Hc & Hl & Hi & Hr & Hk). unfold issues_of in Hi. cbn [br_current branch_of br_effective_tier] in Hi.
    rewrite (no_cut tr cur) in Hi by done.
    destruct (ta_target cur) as [| |name] eqn:Et;
      [destruct (matches_of _); by apply list_elem_of_singleton in Hi as -> || by apply elem_of_nil in Hi..|].
    destruct (next_aliases name) as [|first rest] eqn:En; [by apply list_elem_of_singleton in Hi as ->|].
    apply elem_of_app in Hi as [Hi|(c & -> & [Hin Hs]%elem_of_filter_bool)%list_elem_of_fmap].
    { destruct rest; [by apply elem_of_nil in Hi|by apply list_elem_of_singleton in Hi as ->]. }
    exists tr, cur, name, c. cbn [issue_tier] in Hr. rewrite min_tier_rank in Hr. apply seen_by_iff in Hs.
    split_conj; try done; [by rewrite En|unfold trust; lia|lia].
  - intros (tr & cur & name & c & Hc & Hl & Et & Hin & Hs & Hr1 & Hr2).
    exists tr, cur, (mkIssue (min_tier (chain_tier tr) c.(ta_tier)) IssueCycle). split_conj; try done.
    + unfold issues_of. cbn [br_current branch_of br_effective_tier]. rewrite Et, (no_cut tr cur) by done.
      destruct (next_aliases name) as [|first rest] eqn:En; [by apply elem_of_nil in Hin|]. apply elem_of_app. right.
      apply list_elem_of_fmap. exists c. split; [done|]. apply elem_of_filter_bool. split; [done|]. by apply seen_by_iff.
    + cbn [issue_tier]. rewrite min_tier_rank. unfold trust in Hr1. lia.
Qed.
Lemma raised_ambiguous t : raised t IssueAmbiguous <-> exists tr cur name first second rest, alias_chain tr /\ last tr = Some cur /\
  cur.(ta_target) = TypeName name /\ next_aliases name = first :: second :: rest /\
  (rank t <= trust tr)%Z /\ (rank t <= rank first.(ta_tier))%Z.
Proof.
  rewrite raised_iff. split.
  - intros (tr & cur & i & Hc & Hl & Hi & Hr & Hk). unfold issues_of in Hi. cbn [br_current branch_of br_effective_tier] in Hi.
    rewrite (no_cut tr cur) in Hi by done.
    destruct (ta_target cur) as [| |name] eqn:Et;
      [destruct (matches_of _); by apply list_elem_of_singleton in Hi as -> || by apply elem_of_nil in Hi..|].
    destruct (next_aliases name) as [|first [|second rest]] eqn:En; [by apply list_elem_of_singleton in Hi as ->|..].
    { by apply list_elem_of_fmap in Hi as (c & -> & _). }
    apply elem_of_app in Hi as [->%list_elem_of_singleton|(c & -> & _)%list_elem_of_fmap]; [|done].
    exists tr, cur, name, first, second, rest. cbn [issue_tier] in Hr. rewrite min_tier_rank in Hr.
    split_conj; try done; unfold trust; lia.
  - intros (tr & cur & name & first & second & rest & Hc & Hl & Et & En & Hr1 & Hr2).
    exists tr, cur, (mkIssue (min_tier (chain_tier tr) first.(ta_tier)) IssueAmbiguous). split_conj; try done.
    + unfold issues_of. cbn [br_current branch_of br_effective_tier]. rewrite Et, (no_cut tr cur), En by done.
      apply elem_of_app. left. by apply list_elem_of_singleton.
    + cbn [issue_tier]. rewrite min_tier_rank. unfold trust in Hr1. lia.
Qed.
Lemma raised_unresolved t : raised t IssueUnresolved <-> exists tr cur, alias_chain tr /\ last tr = Some cur /\
  (rank t <= trust tr)%Z /\ (forall r, ~ ends_at tr r) /\ (forall name, cur.(ta_target) = TypeName name -> next_aliases name = []).
Proof.
  rewrite raised_iff. split.
  - intros (tr & cur & i & Hc & Hl & Hi & Hr & Hk). exists tr, cur. split; [done|]. split; [done|].
    assert ((forall r, ~ ends_at tr r) /\ (forall name, cur.(ta_target) = TypeName name -> next_aliases name = []) /\
      i.(issue_tier) = chain_tier tr) as (? & ? & E); [|split_conj; try done; unfold trust; by rewrite <- E].
    pose proof (elem_of_matches tr cur) as Hm. unfold issues_of in Hi. cbn [br_current branch_of br_effective_tier] in Hi.
    rewrite (no_cut tr cur) in Hi by done.
    destruct (ta_target cur) as [| |name] eqn:Et.
    1,2: destruct (matches_of _); [apply list_elem_of_singleton in Hi as ->|by apply elem_of_nil in Hi];
      split; [intros r Hr'; by apply Hm, elem_of_nil in Hr'|done].
    destruct (next_aliases name) as [|first rest] eqn:En.
    + apply list_elem_of_singleton in Hi as ->. split_conj; [|intros name' [= <-]; done|done].
      intros r (c & Hlc & Hp & _). rewrite Hl in Hlc. injection Hlc as <-. unfold points_to in Hp. by rewrite Et in Hp.
    + exfalso. apply elem_of_app in Hi as [Hi|(c & -> & _)%list_elem_of_fmap]; [|done].
      destruct rest; [by apply elem_of_nil in Hi|by apply list_elem_of_singleton in Hi as ->].
  - intros (tr & cur & Hc & Hl & Hr & Hno & Hnext). exists tr, cur, (mkIssue (chain_tier tr) IssueUnresolved). split_conj; try done.
    unfold issues_of. cbn [br_current branch_of br_effective_tier]. rewrite (no_cut tr cur) by done.
    pose proof (elem_of_matches tr cur) as Hm.
    destruct (ta_target cur) as [| |name] eqn:Et.
    1,2: destruct (matches_of _) as [|r l] eqn:El; [by apply list_elem_of_singleton|];
      exfalso; apply (Hno r), Hm; [done|left].
    rewrite (Hnext name) by done. by apply list_elem_of_singleton.
Qed.
End complete.
End chains.

(** ** Terminals of one record *)

Local Abbreviation id_of t := (t.(tm_record).(rc_identity)).
Local Abbreviation tier_of t := (t.(tm_record).(rc_tier)).
(** [e] stands for the terminals of its record: the most trusted of them, spelled when
    they agree on the spelling. *)
Definition stands_for (l : list Terminal) (e : Terminal) : Prop :=
  (exists t, t ∈ l /\ t.(tm_record) = e.(tm_record)) /\
  (forall t, t ∈ l -> id_of t = id_of e -> (rank (tier_of t) <= rank (tier_of e))%Z) /\
  (forall s, e.(tm_aka) = Some s <-> forall t, t ∈ l -> id_of t = id_of e -> tier_of t = tier_of e -> t.(tm_aka) = Some s) /\
  (e.(tm_aka) <> None -> e.(tm_unsupported_shape) = false).
Definition supported (t : Terminal) : Prop := t.(tm_aka) <> None -> t.(tm_unsupported_shape) = false.

Lemma stands_for_one l t : supported t -> (forall t', t' ∈ l -> id_of t' <> id_of t) -> stands_for (l ++ [t]) t.
Proof.
  intros Hs Hl. unfold stands_for.
  assert (forall t', t' ∈ l ++ [t] -> id_of t' = id_of t -> t' = t) as H.
  { intros t' [Ht'|Ht'%list_elem_of_singleton]%elem_of_app E; [by apply Hl in Ht'|done]. }
  split_conj; [exists t; split; [apply elem_of_app; right; by apply list_elem_of_singleton|done]| |split|exact Hs].
  - intros t' Ht' E. by rewrite (H t' Ht' E).
  - intros E t' Ht' Ei _. by rewrite (H t' Ht' Ei).
  - intros Ha. apply Ha; [apply elem_of_app; right; by apply list_elem_of_singleton|done..].
Qed.
Lemma stands_for_other l e t : stands_for l e -> id_of t <> id_of e -> stands_for (l ++ [t]) e.
Proof.
  intros ((t0 & Ht0 & E0) & Hle & Ha & Hs) Hne. unfold stands_for. split_conj; [exists t0; split; [set_solver|done]| |split|done].
  - intros t' [Ht'| ->%list_elem_of_singleton]%elem_of_app E; [by apply Hle|done].
  - intros Es t' [Ht'| ->%list_elem_of_singleton]%elem_of_app Ei Et; [by apply Ha|done].
  - intros Hall. apply Ha. intros t' Ht'. apply Hall. set_solver.
Qed.
Lemma stands_for_merge l e t : stands_for l e -> supported t -> id_of t = id_of e -> stands_for (l ++ [t]) (merge_terminal e t) /\
  id_of (merge_terminal e t) = id_of e.
Proof.
  intros ((t0 & Ht0 & E0) & Hle & Ha & Hs) Ht Hid. unfold merge_terminal. rewrite tier_cmp_rank.
  assert (forall t', t' ∈ l ++ [t] <-> t' ∈ l \/ t' = t) as Hin by (intros t'; by rewrite elem_of_app, list_elem_of_singleton).
  destruct (Z.compare_spec (rank (tier_of t)) (rank (tier_of e))) as [Heq|Hlt|Hgt]; cbn [tm_record]; (split; [|done]);
    unfold stands_for; cbn [tm_record tm_aka tm_unsupported_shape].
  - apply tier_rank_inj in Heq. split_conj; [exists t0; rewrite Hin; by split; [left|]| | |].
    + intros t' [Ht'| ->]%Hin E; [by apply Hle|by rewrite Heq].
    + intros s. destruct (bool_decide (tm_aka e = tm_aka t)) eqn:Eb; cbn [negb].
      * apply bool_decide_eq_true in Eb. rewrite Ha. split.
        -- intros Hall t' [Ht'| ->]%Hin; [by apply Hall|]. intros _ _. rewrite <- Eb. by apply Ha.
        -- intros Hall t' Ht'. apply Hall, Hin. by left.
      * apply bool_decide_eq_false in Eb. split; [done|]. intros Hall. exfalso. apply Eb.
        rewrite (Hall t) by (rewrite ?Hin; naive_solver). apply Ha. intros t' Ht'. apply Hall, Hin. by left.
    + destruct (bool_decide (tm_aka e = tm_aka t)) eqn:Eb; cbn [negb]; [|done]. apply bool_decide_eq_true in Eb.
      intros Hn. rewrite (Hs Hn), Ht by (by rewrite <- Eb). done.
  - split_conj; [exists t0; rewrite Hin; by split; [left|]| | |done].
    + intros t' [Ht'| ->]%Hin E; [by apply Hle|lia].
    + intros s. rewrite Ha. split.
      * intros Hall t' [Ht'| ->]%Hin; [by apply Hall|]. intros _ E. rewrite E in Hlt. lia.
      * intros Hall t' Ht'. apply Hall, Hin. by left.
  - split_conj; [exists t; rewrite Hin; by split; [right|]| | |done].
    + intros t' [Ht'| ->]%Hin E; [|done]. specialize (Hle t' Ht' ltac:(congruence)). lia.
    + intros s. split.
      * intros E t' [Ht'| ->]%Hin Ei Et; [|done]. specialize (Hle t' Ht' ltac:(congruence)). rewrite Et in Hle. lia.
      * intros Hall. apply Hall; [apply Hin; by right|done..].
Qed.
Lemma add_terminals l : Forall supported l -> forall id,
  match foldl add_terminal ∅ l !! id with
  | Some e => id_of e = id /\ stands_for l e
  | None => forall t, t ∈ l -> id_of t <> id
  end.
Proof.
  induction l as [|t l IH] using rev_ind; intros Hl id.
  { cbn [foldl]. rewrite lookup_empty. by intros t ?%elem_of_nil. }
  apply Forall_app in Hl as [Hl Ht]. inversion Ht as [|? ? Hs _]; subst. specialize (IH Hl). rewrite foldl_app. cbn [foldl].
  set (m := foldl add_terminal ∅ l) in *. unfold add_terminal. pose proof (IH (id_of t)) as Hm.
  destruct (m !! id_of t) as [e|] eqn:E; rewrite lookup_insert.
  - destruct Hm as [He Hst]. case_decide as Hid.
    + subst id. destruct (stands_for_merge l e t Hst Hs ltac:(done)) as [Hst' E']. split; [by rewrite E'|done].
    + specialize (IH id). destruct (m !! id) as [e'|].
      * destruct IH as [He' Hst']. split; [done|]. apply stands_for_other; [done|congruence].
      * intros t' [Ht'| ->%list_elem_of_singleton]%elem_of_app; [by apply IH|congruence].
  - case_decide as Hid.
    + subst id. split; [done|]. by apply stands_for_one.
    + specialize (IH id). destruct (m !! id) as [e'|].
      * destruct IH as [He' Hst']. split; [done|]. apply stands_for_other; [done|congruence].
      * intros t' [Ht'| ->%list_elem_of_singleton]%elem_of_app; [by apply IH|congruence].
Qed.
Lemma deduplicate_spec l : Forall supported l ->
  NoDup ((fun t => id_of t) <$> deduplicate_terminals l) /\
  (forall e, e ∈ deduplicate_terminals l -> stands_for l e) /\
  (forall t, t ∈ l -> exists e, e ∈ deduplicate_terminals l /\ id_of e = id_of t).
Proof.
  intros Hl. pose proof (add_terminals l Hl) as Hm. unfold deduplicate_terminals. set (m := foldl add_terminal ∅ l) in *.
  assert (forall e, e ∈ (map_to_list m).*2 <-> m !! id_of e = Some e) as Hin.
  { intros e. rewrite list_elem_of_fmap. split.
    - intros ([id e'] & -> & Hi%elem_of_map_to_list). simpl. specialize (Hm id). rewrite Hi in Hm. by destruct Hm as [-> _].
    - intros E. exists (id_of e, e). split; [done|]. by apply elem_of_map_to_list. }
  split_conj.
  - rewrite sort_by_perm. rewrite <- list_fmap_compose.
    replace (((fun t => id_of t) ∘ snd) <$> map_to_list m) with ((map_to_list m).*1); [apply NoDup_fst_map_to_list|].
    apply list_fmap_ext. intros i [id e] Hi. simpl. apply list_elem_of_lookup_2, elem_of_map_to_list in Hi.
    specialize (Hm id). rewrite Hi in Hm. by destruct Hm as [-> _].
  - intros e [He _]%elem_of_sort_by%Hin%(fun H => conj H I). specialize (Hm (id_of e)). rewrite He in Hm. by destruct Hm.
  - intros t Ht. specialize (Hm (id_of t)). destruct (m !! id_of t) as [e|] eqn:E; [|by apply Hm in Ht].
    destruct Hm as [Hid _]. exists e. split; [|done]. apply elem_of_sort_by, Hin. by rewrite Hid.
Qed.

Lemma max_tier_spec ts : match max_tier ts with
  | None => ts = []
  | Some t => t ∈ ts /\ forall t', t' ∈ ts -> (rank t' <= rank t)%Z
  end.
Proof.
  unfold max_tier. induction ts as [|t ts IH] using rev_ind; [done|]. rewrite foldl_app. cbn [foldl].
  destruct (foldl _ None ts) as [b|].
  - destruct IH as [Hb Hle]. rewrite tier_cmp_rank. assert (forall t', t' ∈ ts ++ [t] <-> t' ∈ ts \/ t' = t) as Hin by (intros t'; by rewrite elem_of_app, list_elem_of_singleton).
    destruct (Z.compare_spec (rank b) (rank t)); (split; [apply Hin; auto|]); intros t' [Ht'%Hle| ->]%Hin; lia.
  - subst. cbn. split; [by left|]. intros t' ->%list_elem_of_singleton. lia.
Qed.

(** ** The verdict *)

Lemma has_issue_iff kind l : has_issue kind l = true <-> exists i, i ∈ l /\ i.(issue_kind) = kind.
Proof.
  unfold has_issue. rewrite existsb_exists. split; intros (i & Hi & E); exists i.
  - split; [by apply list_elem_of_In|by apply bool_decide_eq_true in E].
  - split; [by apply list_elem_of_In|by apply bool_decide_eq_true].
Qed.
Lemma status_unique_iff coverage winning issues : resolution_status coverage winning issues = UniqueRecord <->
  permits_uniqueness coverage = true /\ (forall kind, has_issue kind issues = false) /\
  exists e s, winning = [e] /\ e.(tm_unsupported_shape) = false /\ e.(tm_aka) = Some s.
Proof.
  unfold resolution_status. split.
  - destruct (permits_uniqueness coverage); [|done]. destruct (has_issue IssueTruncated issues) eqn:E1; [done|].
    destruct (has_issue IssueCycle issues) eqn:E2; [done|]. cbn [negb orb].
    destruct (1 <? length winning)%nat eqn:El; [done|]. destruct (has_issue IssueAmbiguous issues) eqn:E3; [done|]. cbn [orb].
    destruct winning as [|e [|? ?]]; [done| |done]. destruct (has_issue IssueUnresolved issues) eqn:E4; [done|].
    destruct (tm_unsupported_shape e) eqn:Eu, (tm_aka e) as [s|] eqn:Ea; cbn [orb]; try by destruct (tm_inexact_target e).
    intros _. split; [done|]. split; [by intros []|]. by exists e, s.
  - intros (-> & Hi & e & s & -> & Hu & Ha). by rewrite !Hi, Hu, Ha.
Qed.
Lemma stands_for_supported l e : stands_for l e -> supported e.
Proof. by intros (_ & _ & _ & H). Qed.

Section verdict.
Context (aliases : list TypeAliasCandidate) (records : list RecordCandidate) (limits : AliasResolutionLimits)
  (root : TypeAliasCandidate) (coverage : CandidateCoverage).
Local Abbreviation w := (walk_of aliases records limits root coverage).
Local Abbreviation res := (resolve_type_alias_with_limits aliases records limits root coverage).
Local Abbreviation chain := (alias_chain aliases root).
Local Abbreviation reaches := (reaches aliases records root).

(** What a complete walk found, stated without its branches. *)
Record found (ts : list Terminal) (iss : list ResolutionIssue) : Prop := {
  fd_supported : Forall supported ts;
  fd_terminal t : t ∈ ts -> exists tr r tier, reaches tr r tier /\ t.(tm_record) = with_tier r tier /\ t.(tm_aka) = spelled tr (with_tier r tier);
  fd_reaches tr r tier : reaches tr r tier -> exists t, t ∈ ts /\ t.(tm_record) = with_tier r tier /\ t.(tm_aka) = spelled tr (with_tier r tier);
  fd_agreed tier : agreed aliases records root tier <-> forall i, i ∈ iss -> (rank tier <= rank i.(issue_tier))%Z -> False;
}.

Lemma chain_prefix tr c : chain (tr ++ [c]) -> tr <> [] -> chain tr /\ exists cur name,
  last tr = Some cur /\ cur.(ta_target) = TypeName name /\ c ∈ next_aliases aliases name /\ c.(ta_identity) ∉ identities tr.
Proof.
  intros Hc Hn. inversion Hc as [E|tr' cur name c' ? ? ? ? ? E].
  - by destruct tr as [|? [|? ?]].
  - apply app_inj_2 in E as [-> [= ->]]; [|done]. split; [done|]. by exists cur, name.
Qed.
Lemma chain_head tr : chain tr -> exists l, tr = root :: l.
Proof. induction 1 as [|? ? ? ? _ [l ->]]; [by exists []|]. by eexists. Qed.
Lemma trust_prefix tr l : tr <> [] -> (trust (tr ++ l) <= trust tr)%Z.
Proof.
  intros Hn. induction l as [|c l IH] using rev_ind; [by rewrite app_nil_r|].
  rewrite app_assoc, trust_snoc by (by destruct tr). lia.
Qed.
Lemma chain_app tr l : tr <> [] -> chain (tr ++ l) -> chain tr.
Proof.
  intros Hn. induction l as [|c l IH] using rev_ind; [by rewrite app_nil_r|]. rewrite app_assoc.
  intros [H _]%chain_prefix; [by apply IH|by destruct tr].
Qed.
(** Without ambiguity and cycles at a trust, the chains of that trust are one line. *)
Lemma chains_linear t :
  (forall tr cur name, chain tr -> last tr = Some cur -> cur.(ta_target) = TypeName name -> (rank t <= trust tr)%Z ->
     forall c c', c ∈ next_aliases aliases name -> c' ∈ next_aliases aliases name -> (rank t <= rank c.(ta_tier))%Z -> c = c') ->
  forall tr1 tr2, chain tr1 -> chain tr2 -> (rank t <= trust tr1)%Z -> (rank t <= trust tr2)%Z ->
  tr1 `prefix_of` tr2 \/ tr2 `prefix_of` tr1.
Proof.
  intros Huniq tr1 tr2 H1 H2. revert tr2 H2. induction H1 as [|tr1 cur name c H1 IH Hl Ht Hin Hnew]; intros tr2 H2 Hr1 Hr2.
  { left. destruct (chain_head tr2 H2) as [l ->]. by exists l. }
  pose proof (alias_chain_nonempty aliases root tr1 H1) as Hn. rewrite trust_snoc in Hr1 by done.
  destruct (IH tr2 H2 ltac:(lia) Hr2) as [[l ->]|Hp]; [|right; by apply prefix_app_r].
  destruct l as [|d l]; [right; rewrite app_nil_r; by apply prefix_app_r|]. left.
  rewrite (app_assoc _ [d] l : tr1 ++ d :: l = (tr1 ++ [d]) ++ l) in *.
  pose proof (trust_prefix (tr1 ++ [d]) l ltac:(by destruct tr1)) as Hd. rewrite trust_snoc in Hd by done.
  apply chain_app in H2; [|by destruct tr1]. destruct (chain_prefix _ _ H2 Hn) as (_ & cur' & name' & Hl' & Ht' & Hin' & _).
  rewrite Hl in Hl'. injection Hl' as <-. rewrite Ht in Ht'. injection Ht' as <-.
  rewrite (Huniq tr1 cur name H1 Hl Ht ltac:(lia) c d Hin Hin' ltac:(lia)). apply prefix_app_r. done.
Qed.
Lemma walk_found : permits_uniqueness w.(wk_coverage) = true -> found w.(wk_terminals) w.(wk_issues).
Proof.
  intros Hp. destruct (walk_complete aliases records limits root coverage Hp) as (v & Hv & _ & _ & Hcut & Hall).
  destruct Hv as [Ht Hi _ Hg _ _ _ _]. rewrite app_nil_r in Hg. rewrite Ht, Hi.
  split.
  - apply Forall_forall. intros t Ht'. by destruct (elem_of_terminals aliases records root v Hg Hall t Ht') as (? & ? & ? & _ & _ & _ & ?).
  - intros t Ht'. destruct (elem_of_terminals aliases records root v Hg Hall t Ht') as (tr & r & tier & ? & ? & ? & _). by exists tr, r, tier.
  - intros tr r tier Hr. by apply (reaches_terminal aliases records root v Hg Hall).
  - intros t. set (raised := raised aliases records limits v).
    assert ((forall i, i ∈ concat (issues_of aliases records limits <$> v) -> (rank t <= rank i.(issue_tier))%Z -> False) <->
            forall kind, ~ raised t kind) as ->.
    { split; [intros H kind (i & Hi' & Hr & _); by eapply H|]. intros H i Hi' Hr. apply (H i.(issue_kind)). by exists i. }
    split.
    + intros (Hline & Hend & Hcyc) kind Hk. destruct kind.
      * apply (raised_ambiguous aliases records limits root v Hg Hall Hcut) in Hk
          as (tr & cur & name & first & second & rest & Hc & Hl & Hn & En & Hr1 & Hr2).
        assert (first ∈ next_aliases aliases name /\ second ∈ next_aliases aliases name) as [H1 H2] by (rewrite En; split; set_solver).
        pose proof (next_aliases_tier _ _ _ _ H1 H2) as Etier.
        assert (chain (tr ++ [first]) /\ chain (tr ++ [second])) as [Hc1 Hc2].
        { split; eapply chain_step; try done; eapply Hcyc; try done. by rewrite <- Etier. }
        pose proof (alias_chain_nonempty aliases root tr Hc) as Hne.
        assert (first = second) as E.
        { destruct (Hline _ _ Hc1 Hc2) as [[l E]|[l E]]; rewrite ?trust_snoc by done; [rewrite <- ?Etier; lia..| |];
            rewrite <- app_assoc in E; apply app_inv_head in E; by injection E. }
        pose proof (next_aliases_distinct aliases name) as Hd. rewrite En, E in Hd. cbn in Hd.
        apply NoDup_cons in Hd as [Hd _]. apply Hd. by left.
      * apply (raised_unresolved aliases records limits root v Hg Hall Hcut) in Hk as (tr & cur & Hc & Hl & Hr & Hno & Hnext).
        destruct (Hend tr cur Hc Hr Hl) as [[r Hr']|(name & Hn & Hne)]; [by eapply Hno|]. by apply Hne, Hnext.
      * apply (raised_cycle aliases records limits root v Hg Hall Hcut) in Hk as (tr & cur & name & c & Hc & Hl & Hn & Hin & Hs & Hr1 & Hr2).
        by eapply Hcyc.
      * by apply (not_truncated aliases records limits root v Hg Hall Hcut) in Hk.
    + intros Hno. split; [|split].
      * apply chains_linear. intros tr cur name Hc Hl Hn Hr c c' Hin Hin' Hrc.
        destruct (next_aliases aliases name) as [|first [|second rest]] eqn:En; [by apply elem_of_nil in Hin|set_solver|].
        exfalso. apply (Hno IssueAmbiguous), (raised_ambiguous aliases records limits root v Hg Hall Hcut).
        exists tr, cur, name, first, second, rest. split_conj; try done.
        rewrite (next_aliases_tier aliases name first c); [done|rewrite En; by left|by rewrite En].
      * intros tr cur Hc Hr Hl. destruct (ta_target cur) as [| |name] eqn:Et.
        1,2: left; destruct (matches_of records (branch_of tr cur)) as [|r l] eqn:Em;
          [|exists r; apply (elem_of_matches records tr cur); [done|rewrite Em; by left]];
          exfalso; apply (Hno IssueUnresolved), (raised_unresolved aliases records limits root v Hg Hall Hcut);
          exists tr, cur; split_conj; try done; [intros r Hr'; apply (elem_of_matches records tr cur) in Hr'; [|done]; rewrite Em in Hr'; by apply elem_of_nil in Hr'|by rewrite Et].
        right. exists name. split; [done|]. intros En.
        apply (Hno IssueUnresolved), (raised_unresolved aliases records limits root v Hg Hall Hcut). exists tr, cur. split_conj; try done.
        -- intros r (c & Hlc & Hp' & _). rewrite Hl in Hlc. injection Hlc as <-. unfold points_to in Hp'. by rewrite Et in Hp'.
        -- rewrite Et. by intros name' [= <-].
      * intros tr cur name c Hc Hr Hl Hn Hin Hrc Hs. apply (Hno IssueCycle), (raised_cycle aliases records limits root v Hg Hall Hcut).
        by exists tr, cur, name, c.
Qed.

(** The survivor of a record, among what was found. *)
Local Abbreviation kept := (deduplicate_terminals w.(wk_terminals)).
Section known.
Context (Hf : found w.(wk_terminals) w.(wk_issues)).

Lemma kept_reaches e : e ∈ kept -> exists tr r t, reaches tr r t /\ e.(tm_record) = with_tier r t /\
  forall tr' r' t', reaches tr' r' t' -> r'.(rc_identity) = id_of e -> (rank t' <= rank t)%Z.
Proof.
  intros He. destruct (deduplicate_spec _ (fd_supported _ _ Hf)) as (_ & Hst & _).
  destruct (Hst e He) as ((t0 & Ht0 & E0) & Hle & _). destruct (fd_terminal _ _ Hf t0 Ht0) as (tr & r & t & Hr & Er & _).
  exists tr, r, t. rewrite <- E0. split_conj; [done..|]. intros tr' r' t' Hr' Hid.
  destruct (fd_reaches _ _ Hf _ _ _ Hr') as (t1 & Ht1 & E1 & _). specialize (Hle t1 Ht1).
  rewrite E1, <- E0, Er in Hle. cbn in Hle. rewrite Er in Hid. cbn in Hid. by apply Hle.
Qed.
Lemma reaches_kept tr r t : reaches tr r t -> exists e, e ∈ kept /\ id_of e = r.(rc_identity) /\ (rank t <= rank (tier_of e))%Z.
Proof.
  intros Hr. destruct (deduplicate_spec _ (fd_supported _ _ Hf)) as (_ & Hst & Hall).
  destruct (fd_reaches _ _ Hf _ _ _ Hr) as (t1 & Ht1 & E1 & _). destruct (Hall t1 Ht1) as (e & He & Hid). exists e.
  destruct (Hst e He) as (_ & Hle & _). specialize (Hle t1 Ht1 (eq_sym Hid)). rewrite E1 in Hid, Hle. cbn in Hid, Hle. done.
Qed.
(** The record list is every record reached, at the best trust it is reached with. *)
Lemma terminal_records_exact id t :
  (exists r, r ∈ res.(terminal_records) /\ r.(rc_identity) = id /\ r.(rc_tier) = t) <->
  (exists tr r, reaches tr r t /\ r.(rc_identity) = id) /\
  (forall tr r t', reaches tr r t' -> r.(rc_identity) = id -> (rank t' <= rank t)%Z).
Proof.
  cbn [terminal_records conclude resolve_type_alias_with_limits]. split.
  - intros (r & (e & -> & He)%list_elem_of_fmap & <- & <-). destruct (kept_reaches e He) as (tr & r & t & Hr & E & Hle).
    rewrite E. cbn. split; [by exists tr, r|]. intros tr' r' t' Hr' Hid. apply (Hle tr' r' t' Hr'). by rewrite E.
  - intros [(tr & r & Hr & Hid) Hle]. destruct (reaches_kept _ _ _ Hr) as (e & He & Hide & Hte). exists e.(tm_record).
    split; [apply list_elem_of_fmap; by exists e|]. split; [by rewrite Hide|]. apply tier_rank_inj.
    destruct (kept_reaches e He) as (tr' & r' & t' & Hr' & E & _).
    assert (r'.(rc_identity) = id) as Hid' by (rewrite E in Hide; cbn in Hide; congruence).
    specialize (Hle _ _ _ Hr' Hid'). rewrite E in Hte |- *. cbn in Hte |- *. lia.
Qed.
Lemma winning_tier_exact : match res.(winning_tier) with
  | None => forall tr r t, ~ reaches tr r t
  | Some t => (exists tr r, reaches tr r t) /\ forall tr r t', reaches tr r t' -> (rank t' <= rank t)%Z
  end.
Proof.
  cbn [winning_tier conclude resolve_type_alias_with_limits].
  pose proof (max_tier_spec ((fun t => tier_of t) <$> kept)) as Hm. destruct (max_tier _) as [t|].
  - destruct Hm as [(e & -> & He)%list_elem_of_fmap Hle]. split.
    + destruct (kept_reaches e He) as (tr & r & t & Hr & E & _). rewrite E. by exists tr, r.
    + intros tr r t' Hr. destruct (reaches_kept _ _ _ Hr) as (e' & He' & _ & Hte). specialize (Hle (tier_of e')).
      rewrite list_elem_of_fmap in Hle. specialize (Hle ltac:(by exists e')). lia.
  - intros tr r t Hr. destruct (reaches_kept _ _ _ Hr) as (e & He & _). apply fmap_nil_inv in Hm. rewrite Hm in He. by apply elem_of_nil in He.
Qed.

Local Abbreviation winners t := (List.filter (fun e => bool_decide (tier_of e = t)) kept).
(** What the winners of the top tier are. *)
Lemma winners_single t id s : res.(winning_tier) = Some t ->
  (exists e, winners t = [e] /\ id_of e = id /\ e.(tm_unsupported_shape) = false /\ e.(tm_aka) = Some s) <->
  (forall tr r, reaches tr r t -> r.(rc_identity) = id /\ spelled tr (with_tier r t) = Some s).
Proof.
  intros Hw. pose proof winning_tier_exact as Hx. rewrite Hw in Hx. destruct Hx as [(tr0 & r0 & Hr0) Htop].
  destruct (deduplicate_spec _ (fd_supported _ _ Hf)) as (Hnd & Hst & _).
  assert (forall tr r, reaches tr r t -> exists e, e ∈ winners t /\ id_of e = r.(rc_identity)) as Hwin.
  { intros tr r Hr. destruct (reaches_kept _ _ _ Hr) as (e & He & Hid & Hte). exists e. split; [|done]. apply elem_of_filter_bool.
    split; [done|]. apply bool_decide_eq_true, tier_rank_inj. destruct (kept_reaches e He) as (tr' & r' & t' & Hr' & E & _).
    specialize (Htop _ _ _ Hr'). rewrite E in Hte |- *. cbn in Hte |- *. lia. }
  split.
  - intros (e & Ewin & <- & _ & Ha) tr r Hr. destruct (Hwin tr r Hr) as (e' & He' & Hid). rewrite Ewin in He'.
    apply list_elem_of_singleton in He' as ->. split; [done|].
    assert (e ∈ kept /\ tier_of e = t) as [He Ht].
    { assert (e ∈ winners t) as [? E%bool_decide_eq_true]%elem_of_filter_bool by (rewrite Ewin; by left). done. }
    destruct (Hst e He) as (_ & _ & Hspell & _). destruct (fd_reaches _ _ Hf _ _ _ Hr) as (t1 & Ht1 & E1 & Es).
    rewrite <- Es. apply (proj1 (Hspell s) Ha); [done|by rewrite E1|by rewrite E1].
  - intros Hall. destruct (Hwin tr0 r0 Hr0) as (e & He & _).
    assert (forall e', e' ∈ winners t -> id_of e' = id) as Hids.
    { intros e' [He' E%bool_decide_eq_true]%elem_of_filter_bool. destruct (kept_reaches e' He') as (tr & r & t' & Hr & Er & _).
      rewrite Er in E |- *. cbn in E |- *. subst t'. by apply (Hall tr r). }
    assert (winners t = [e]) as Ewin.
    { assert (NoDup ((fun t => id_of t) <$> winners t)) as Hn.
      { eapply NoDup_of_submseteq; [apply sublist_submseteq, fmap_sublist, list_filter_bool_sublist|exact Hnd]. }
      destruct (winners t) as [|a [|b l]] eqn:El; [by apply elem_of_nil in He|by apply list_elem_of_singleton in He as ->|].
      exfalso. rewrite !fmap_cons in Hn. apply NoDup_cons in Hn as [Hn _]. apply Hn.
      rewrite (Hids a), (Hids b) by (set_solver). by left. }
    apply elem_of_filter_bool in He as Hk. destruct Hk as [Hk Et%bool_decide_eq_true].
    exists e. destruct (Hst e Hk) as (_ & _ & Hspell & Hsup).
    assert (e.(tm_aka) = Some s) as Ha.
    { apply Hspell. intros t1 Ht1 Hid1 Htier. destruct (fd_terminal _ _ Hf t1 Ht1) as (tr & r & t' & Hr & Er & ->).
      rewrite Er in Htier. cbn in Htier. rewrite Et in Htier. subst t'. by apply (Hall tr r). }
    split_conj; [done|by apply Hids|apply Hsup; by rewrite Ha|done].
Qed.
Lemma relevant_issues_iff t : res.(winning_tier) = Some t ->
  (forall kind, has_issue kind (List.filter (fun i => match tier_cmp i.(issue_tier) t with Lt => false | _ => true end) w.(wk_issues)) = false) <->
  agreed aliases records root t.
Proof.
  intros Hw. rewrite (fd_agreed _ _ Hf t). split.
  - intros Hno i Hi Hr. specialize (Hno i.(issue_kind)). rewrite <- not_true_iff_false in Hno. apply Hno, has_issue_iff.
    exists i. split; [|done]. apply elem_of_filter_bool. split; [done|]. apply tier_le_cmp in Hr. by destruct (tier_cmp _ _).
  - intros Hno kind. apply not_true_iff_false. intros (i & [Hi E]%elem_of_filter_bool & _)%has_issue_iff.
    apply (Hno i Hi), tier_le_cmp. intros E'. by rewrite E' in E.
Qed.
(** The verdict, for a walk that may claim uniqueness. *)
Lemma verdict_iff t id s : permits_uniqueness w.(wk_coverage) = true -> res.(winning_tier) = Some t ->
  means aliases records root t id s <->
  res.(res_status) = UniqueRecord /\ res.(aka_spelling) = Some s /\
  exists r, r ∈ res.(terminal_records) /\ r.(rc_identity) = id /\ r.(rc_tier) = t.
Proof.
  intros Hp Hw. pose proof winning_tier_exact as Hx. rewrite Hw in Hx. destruct Hx as [Hex Htop].
  assert (res.(res_status) = resolution_status w.(wk_coverage) (winners t)
    (List.filter (fun i => match tier_cmp i.(issue_tier) t with Lt => false | _ => true end) w.(wk_issues))) as Hs.
  { cbn [winning_tier conclude resolve_type_alias_with_limits] in Hw. cbn [res_status conclude resolve_type_alias_with_limits]. by rewrite Hw. }
  assert (res.(aka_spelling) = if bool_decide (res.(res_status) = UniqueRecord) then match winners t with [] => None | e :: _ => e.(tm_aka) end else None) as Ha.
  { cbn [winning_tier conclude resolve_type_alias_with_limits] in Hw. cbn [res_status aka_spelling conclude resolve_type_alias_with_limits]. by rewrite Hw. }
  unfold means. split.
  - intros (Hag & _ & Hall). destruct (proj2 (winners_single t id s Hw)) as (e & Ew & Hid & Hu & Hak); [intros tr r Hr; by apply (Hall tr r t)|].
    assert (res.(res_status) = UniqueRecord) as Hu'.
    { rewrite Hs. apply status_unique_iff. split; [done|]. split; [by apply relevant_issues_iff|]. by exists e, s. }
    rewrite Ha, Hu', Ew. split; [done|]. split; [done|]. exists e.(tm_record).
    assert (e ∈ winners t) as [He Et%bool_decide_eq_true]%elem_of_filter_bool by (rewrite Ew; by left).
    split; [|done]. apply list_elem_of_fmap. by exists e.
  - intros (Hu & Hsp & r & Hr & Hid & Ht). rewrite Ha, Hu in Hsp. rewrite Hs in Hu.
    apply status_unique_iff in Hu as (_ & Hno & e & s' & Ew & Hus & Hak). rewrite Ew, bool_decide_eq_true_2 in Hsp by done.
    assert (s' = s) as -> by congruence. split; [by apply relevant_issues_iff|]. split; [done|].
    assert (forall tr r, reaches tr r t -> r.(rc_identity) = id /\ spelled tr (with_tier r t) = Some s) as Hall.
    { apply winners_single; [done|]. exists e. split_conj; try done.
      cbn [terminal_records conclude resolve_type_alias_with_limits] in Hr. apply list_elem_of_fmap in Hr as (e' & -> & He').
      assert (e' ∈ winners t) as Hin by (apply elem_of_filter_bool; by rewrite bool_decide_eq_true). rewrite Ew in Hin.
      by apply list_elem_of_singleton in Hin as ->. }
    intros tr r' t' Hr'. split; [by eapply Htop|]. intros ->. by apply Hall.
Qed.
End known.
End verdict.

(** ** Properties *)

(** C19 What an alias means is decided exactly. The records listed are those some chain
    of strongest typedefs reaches, each at the best trust it is reached with, the trust
    of a chain being that of its weakest link. The verdict is a unique record, with its
    spelling, if and only if the alias means that record: nothing else is reached at the
    winning trust, and no two chains of that trust diverge, stop short, or return to a
    declarator already passed. *)
Theorem alias_verdict_exact aliases records limits alias coverage :
  let res := resolve_type_alias_with_limits aliases records limits alias coverage in
  permits_uniqueness res.(res_coverage) = true ->
  (forall id t,
     (exists r, r ∈ res.(terminal_records) /\ r.(rc_identity) = id /\ r.(rc_tier) = t) <->
     (exists tr r, reaches aliases records alias tr r t /\ r.(rc_identity) = id) /\
     (forall tr r t', reaches aliases records alias tr r t' -> r.(rc_identity) = id -> (tier_rank t' <= tier_rank t)%Z)) /\
  (forall t id s, means aliases records alias t id s <->
     res.(res_status) = UniqueRecord /\ res.(winning_tier) = Some t /\ res.(aka_spelling) = Some s /\
     exists r, r ∈ res.(terminal_records) /\ r.(rc_identity) = id /\ r.(rc_tier) = t).
Proof.
  intros res Hp. pose proof (walk_found aliases records limits alias coverage Hp) as Hf. split.
  { intros id t. by apply terminal_records_exact. }
  intros t id s. pose proof (winning_tier_exact aliases records limits alias coverage Hf) as Hx. fold res in Hx. split.
  - intros Hm. assert (res.(winning_tier) = Some t) as Hw.
    { destruct Hm as (_ & (tr & r & Hr) & Hall). destruct (res.(winning_tier)) as [t'|]; [|by apply Hx in Hr].
      destruct Hx as [(tr' & r' & Hr') Hle]. f_equal. apply tier_rank_inj. specialize (Hle _ _ _ Hr).
      destruct (Hall _ _ _ Hr') as [? _]. lia. }
    apply (verdict_iff aliases records limits alias coverage Hf t id s Hp Hw) in Hm as (? & ? & ?). done.
  - intros (Hu & Hw & Ha & Hr). by apply (verdict_iff aliases records limits alias coverage Hf t id s Hp Hw).
Qed.

(** C30 Uniqueness may be claimed exactly when the question was complete and the limits
    were enough: the coverage that came in permits it, there are at most [max_visits]
    chains, and no chain that goes on to another name is [max_depth] long. Otherwise the
    verdict is that the resolution was truncated, and no spelling is given. *)
Theorem alias_limits_exact aliases records limits alias coverage :
  let res := resolve_type_alias_with_limits aliases records limits alias coverage in
  (permits_uniqueness res.(res_coverage) = true <->
   permits_uniqueness coverage = true /\
   (exists all, (length all <= limits.(max_visits))%nat /\ forall tr, alias_chain aliases alias tr -> tr ∈ all) /\
   (forall tr cur name, alias_chain aliases alias tr -> last tr = Some cur -> cur.(ta_target) = TypeName name ->
      (length tr < limits.(max_depth))%nat)) /\
  (permits_uniqueness res.(res_coverage) = false -> res.(res_status) = StatusTruncated /\ res.(aka_spelling) = None).
Proof.
  intros res. split; [split|].
  - intros Hp. destruct (walk_complete aliases records limits alias coverage Hp) as (v & Hv & Hl & Hc & Hcut & Hall).
    split; [done|]. split.
    + exists (br_trace <$> v). rewrite length_fmap. split; [done|]. intros tr Htr.
      destruct (alias_chain_last _ _ _ Htr) as [cur Hl']. apply list_elem_of_fmap. exists (branch_of tr cur). split; [done|]. by apply Hall.
    + intros tr cur name Htr Hl' Ht. pose proof (no_cut aliases limits alias v Hall Hcut tr cur Htr Hl') as Hn.
      unfold cut in Hn. cbn [br_current branch_of br_trace] in Hn. rewrite Ht in Hn. by apply Nat.leb_gt in Hn.
  - intros (Hc & (all & Hlen & Hall) & Hdepth).
    assert (forall v q w, walked aliases records limits alias coverage v q w -> existsb (cut limits) v = false /\ (length (v ++ q) <= length all)%nat) as Hw.
    { intros v q w [_ _ _ Hg Hd _ _ _]. split.
      - apply not_true_iff_false. intros (b & Hb%list_elem_of_In & E)%existsb_exists.
        rewrite Forall_forall in Hg. destruct (Hg b) as (tr & cur & Htr & Hl & ->); [apply elem_of_app; by left|].
        unfold cut in E. cbn [br_current branch_of br_trace] in E. destruct (ta_target cur) eqn:Et; [done..|].
        apply Nat.leb_le in E. specialize (Hdepth _ _ _ Htr Hl Et). lia.
      - rewrite <- (length_fmap br_trace). apply submseteq_length, NoDup_submseteq; [done|].
        intros tr (b & -> & Hb)%list_elem_of_fmap. rewrite Forall_forall in Hg. destruct (Hg b Hb) as (tr & cur & Htr & _ & ->). by apply Hall. }
    destruct (loop_walked aliases records limits alias coverage limits.(max_visits) _ _ _ (walked_start aliases records limits alias coverage))
      as [(v & Hv & _)|(v & q & Hq & Hl & (w' & Hv) & _)]; destruct (Hw _ _ _ Hv) as [Hcut Hle].
    + pose proof (wd_coverage _ _ _ _ _ _ _ _ Hv) as E. rewrite Hcut in E.
      change (permits_uniqueness (walk_of aliases records limits alias coverage).(wk_coverage) = true). unfold walk_of. by rewrite E.
    + rewrite length_app in Hle. destruct q; [done|]. simpl in Hl, Hle. lia.
  - intros Hp. assert (res.(res_status) = StatusTruncated) as Hs.
    { change (res.(res_status)) with (resolution_status res.(res_coverage)
        (match res.(winning_tier) with None => [] | Some tier => List.filter (fun t => bool_decide (tier_of t = tier))
           (deduplicate_terminals (walk_of aliases records limits alias coverage).(wk_terminals)) end)
        (List.filter (fun i => match res.(winning_tier) with None => true | Some tier => match tier_cmp i.(issue_tier) tier with Lt => false | _ => true end end)
           (walk_of aliases records limits alias coverage).(wk_issues))).
      unfold resolution_status. by rewrite Hp. }
    split; [done|]. unfold res, resolve_type_alias_with_limits, conclude in Hs |- *. cbn [res_status aka_spelling] in Hs |- *. by rewrite Hs.
Qed.

(** The table of packet references of AliasSpelling.v, with a global twin of the record. *)
Definition demo_resolution : AliasResolution :=
  resolve_type_alias demo_table [demo_ref; demo_table]
    [demo_record 8 "Packet" TierGlobal; demo_record 7 "Packet" TierReachable] (mkCandidateCoverage 4 false false None).
Lemma alias_verdict_exact_witness :
  demo_resolution.(res_status) = UniqueRecord /\
  means [demo_ref; demo_table] [demo_record 8 "Packet" TierGlobal; demo_record 7 "Packet" TierReachable] demo_table
    TierReachable (PersistentRecord 7) "const struct Packet *[4]".
Proof.
  split; [vm_compute; reflexivity|].
  apply (alias_verdict_exact [demo_ref; demo_table] [demo_record 8 "Packet" TierGlobal; demo_record 7 "Packet" TierReachable]
           default_limits demo_table (mkCandidateCoverage 4 false false None)); [vm_compute; reflexivity|].
  split; [vm_compute; reflexivity|]. split; [vm_compute; reflexivity|]. split; [vm_compute; reflexivity|].
  exists (demo_record 7 "Packet" TierReachable). split; [|split; vm_compute; reflexivity].
  apply (list_elem_of_lookup_2 _ 0). vm_compute. reflexivity.
Defined.
