(* ===== verification/CompletionHistory.v ===== *)
(** * Completion history (completion_history.rs, server.rs)

    The accepted completions of a workspace, kept newest first under a cap, the counts a
    ranking reads from them, and the order in which prepared files reach the disk. *)

From S2P Require Import Prelude CallModel CallRows Relations.

Definition MAX_HISTORY_ENTRIES : nat := 4096.
Inductive CompletionHistoryMode : Type := HistoryAuto | HistoryOn | HistoryOff.
Definition is_enabled (m : CompletionHistoryMode) : bool := match m with HistoryOff => false | _ => true end.

Record CompletionAcceptEvent : Type := mkAccept {
  workspace_hash : string;
  candidate_hash_of : string;
  ev_kind : string;
  ev_intent : string;
  ev_prefix_bucket : string;
  accepted_at : Z;
}.
#[export] Instance CompletionAcceptEvent_eq_dec : EqDecision CompletionAcceptEvent.
Proof. solve_decision. Defined.
Definition HistoryKey : Type := (N * string * string * string)%type.
Record CompletionHistorySnapshot : Type := mkSnapshot {
  counts : gmap HistoryKey N;
  total_accepts : N;
}.
Definition empty_snapshot : CompletionHistorySnapshot := mkSnapshot ∅ 0.
(** [usize] counters of the entries of a file; they cannot reach the width. *)
Definition accept_count (s : CompletionHistorySnapshot) (candidate_key : N) (kind intent prefix_bucket : string) : N :=
  default 0%N (s.(counts) !! (candidate_key, kind, intent, prefix_bucket)).
Definition append_from (s other : CompletionHistorySnapshot) : CompletionHistorySnapshot :=
  mkSnapshot (union_with (fun a b => Some (a + b)%N) s.(counts) other.(counts)) (s.(total_accepts) + other.(total_accepts))%N.

(** ** Candidate hashes *)

(** [format!("{key:016x}")] *)
Fixpoint hex_digits (n : nat) (key : N) : string :=
  match n with
  | O => ""
  | S n => hex_digits n (key / 16)%N +:+ String.String (hex_digit (key mod 16)) ""
  end.
Definition candidate_hash_from_key (key : N) : string := hex_digits 16 key.
(** [u64::from_str_radix(hash, 16)] on digits only. *)
Fixpoint hex_value (s : string) (acc : N) : option N :=
  match s with
  | EmptyString => Some acc
  | String.String c rest => v ← hex_digit_value c; hex_value rest (16 * acc + v)%N
  end.
Fixpoint all_hex (s : string) : bool :=
  match s with
  | EmptyString => true
  | String.String c rest => (match hex_digit_value c with Some _ => true | None => false end) && all_hex rest
  end.
Definition candidate_hash_key_from_hex (hash : string) : option N :=
  if negb (Nat.eqb (String.length hash) 16) || negb (all_hex hash) then None else hex_value hash 0.
(** [u64::from_be_bytes] *)
Definition from_be_bytes (bytes : list N) : N := foldl (fun acc b => (256 * acc + b)%N) 0%N bytes.

Section digest.
(** The blake3 digest of a byte string. *)
Context (blake3 : list N -> list N).
Definition candidate_hash_key (label kind : string) : N :=
  from_be_bytes (take 8 (blake3 (bytes_of kind ++ [0%N] ++ bytes_of label))).
Definition candidate_hash (label kind : string) : string := candidate_hash_from_key (candidate_hash_key label kind).
End digest.

Definition is_bucket_char (c : Ascii.ascii) : bool :=
  let n := Ascii.N_of_ascii c in
  (((48 <=? n) && (n <=? 57)) || ((65 <=? n) && (n <=? 90)) || ((97 <=? n) && (n <=? 122)) || (n =? 95))%N.
(** The first characters a prefix is counted under; bytes above 127 are never kept. *)
Fixpoint bucket_chars (n : nat) (s : string) : string :=
  match n, s with
  | O, _ | _, EmptyString => ""
  | S n', String.String c rest =>
      if is_bucket_char c then String.String (lower_ascii c) (bucket_chars n' rest) else bucket_chars n rest
  end.
Definition prefix_bucket (prefix : string) : string :=
  let bucket := bucket_chars 2 prefix in if String.eqb bucket "" then "none" else bucket.

(** ** Snapshots *)

Definition count_entry (s : CompletionHistorySnapshot) (entry : CompletionAcceptEvent) : CompletionHistorySnapshot :=
  match candidate_hash_key_from_hex entry.(candidate_hash_of) with
  | None => s
  | Some candidate_key =>
      let key := (candidate_key, entry.(ev_kind), entry.(ev_intent), entry.(ev_prefix_bucket)) in
      mkSnapshot (<[key := (default 0%N (s.(counts) !! key) + 1)%N]> s.(counts)) (s.(total_accepts) + 1)%N
  end.
Definition from_entries (entries : list CompletionAcceptEvent) : CompletionHistorySnapshot :=
  foldl count_entry empty_snapshot entries.

(** ** The store *)

Record HistoryFile : Type := mkHistoryFile { version : N; entries : list CompletionAcceptEvent }.
Definition default_file : HistoryFile := mkHistoryFile 1 [].
Record CompletionHistoryStore : Type := mkHistoryStore { store_path : string; data : HistoryFile }.
Record CompletionHistoryWrite : Type := mkHistoryWrite { write_path : string; text : string }.

Section store.
(** serde_json, in both directions: external. *)
Context (encode : HistoryFile -> option string) (parse : string -> option HistoryFile).

Definition prepare_persist (s : CompletionHistoryStore) : option CompletionHistoryWrite :=
  text ← encode s.(data); Some (mkHistoryWrite s.(store_path) text).
(** [file] is what is at the path: absent, unreadable, or a text. *)
Definition open_store (path : string) (file : option (option string)) : option CompletionHistoryStore :=
  data ← match file with
         | None => Some default_file
         | Some None => None
         | Some (Some text) => if String.eqb (trimmed text) "" then Some default_file else parse text
         end;
  Some (mkHistoryStore path data).
Definition empty_store (path : string) : CompletionHistoryStore := mkHistoryStore path default_file.
Definition newest_first : CompletionAcceptEvent -> CompletionAcceptEvent -> comparison :=
  cmp_rev (cmp_on accepted_at Z.compare).
Definition with_entries (s : CompletionHistoryStore) (es : list CompletionAcceptEvent) : CompletionHistoryStore :=
  mkHistoryStore s.(store_path) (mkHistoryFile s.(data).(version) es).
Definition record_accept_deferred (s : CompletionHistoryStore) (event : CompletionAcceptEvent) :
    CompletionHistoryStore * option CompletionHistoryWrite :=
  let es := s.(data).(entries) ++ [event] in
  let es := sort_by newest_first es in
  let s := with_entries s (take MAX_HISTORY_ENTRIES es) in
  (s, prepare_persist s).
Definition snapshot (s : CompletionHistoryStore) (workspace : string) : CompletionHistorySnapshot :=
  from_entries (List.filter (fun e => String.eqb e.(workspace_hash) workspace) s.(data).(entries)).
(** The number of entries removed, the store and the file to write. *)
Definition clear_workspace (s : CompletionHistoryStore) (workspace : string) :
    CompletionHistoryStore * option (nat * CompletionHistoryWrite) :=
  let before := length s.(data).(entries) in
  let s := with_entries s (List.filter (fun e => negb (String.eqb e.(workspace_hash) workspace)) s.(data).(entries)) in
  let removed := (before - length s.(data).(entries))%nat in
  (s, write ← prepare_persist s; Some (removed, write)).
Definition clear_all_deferred (s : CompletionHistoryStore) : CompletionHistoryStore * option (nat * CompletionHistoryWrite) :=
  let removed := length s.(data).(entries) in
  let s := with_entries s [] in
  (s, write ← prepare_persist s; Some (removed, write)).
End store.

(** ** From a prepared file to the disk

    The server prepares a write while it holds the lock of the stores, lets go of it, and
    persists under another lock (server.rs). Between the two other requests run. *)

(** The file system: texts by path. [fails] says which of the calls of [persist] fails;
    a process that ends between two calls leaves what a failure of the second leaves. *)
Inductive PersistCall : Type := CreateDir | WriteTemp | StatOld | RemoveOld | RenameTemp.
#[export] Instance PersistCall_eq_dec : EqDecision PersistCall.
Proof. solve_decision. Defined.
(** [fs::write] creates or truncates the file before it writes. When it fails, [torn] is
    what it leaves: [None] when the file could not be opened and is as it was, [Some n]
    when it holds the first [n] bytes of the text. [Path::exists] answers no when it
    fails. *)
Definition persist (tmp_of : string -> string) (fails : PersistCall -> bool) (torn : option nat)
    (w : CompletionHistoryWrite) (fs : gmap string string) : result string unit * gmap string string :=
  if fails CreateDir then (Err "failed to create history dir", fs) else
  let tmp_path := tmp_of w.(write_path) in
  if fails WriteTemp then
    (Err "failed to write history temp",
     match torn with None => fs | Some n => <[tmp_path := String.substring 0 n w.(text)]> fs end) else
  let fs := <[tmp_path := w.(text)]> fs in
  let exists_ := negb (fails StatOld) && bool_decide (is_Some (fs !! w.(write_path))) in
  if exists_ && fails RemoveOld then (Err "failed to replace history", fs) else
  let fs := if exists_ then delete w.(write_path) fs else fs in
  if fails RenameTemp then (Err "failed to move history temp", fs) else
  (Ok tt, <[w.(write_path) := w.(text)]> (delete tmp_path fs)).

Section disk.
(** A failing write may tear the temporary file; [tears] says whether it may also do so
    while there is no history file. *)
Context (encode : HistoryFile -> option string) (tmp_of : string -> string) (tears : bool).

Record HistorySystem : Type := mkHistorySystem {
  hs_store : CompletionHistoryStore;
  hs_prepared : list CompletionHistoryWrite;
  hs_files : gmap string string;
}.
(** One step of one request: [record_accept], [clear_completion_history], or the
    persisting of any prepared write, whichever gets the write gate. *)
Inductive history_step : HistorySystem -> HistorySystem -> Prop :=
  | step_accept s p fs event s' w :
      record_accept_deferred encode s event = (s', Some w) ->
      history_step (mkHistorySystem s p fs) (mkHistorySystem s' (p ++ [w]) fs)
  | step_accept_refused s p fs event s' :
      record_accept_deferred encode s event = (s', None) ->
      history_step (mkHistorySystem s p fs) (mkHistorySystem s' p fs)
  | step_clear s p fs s' n w :
      clear_all_deferred encode s = (s', Some (n, w)) ->
      history_step (mkHistorySystem s p fs) (mkHistorySystem s' (p ++ [w]) fs)
  | step_persist s p1 w p2 fs fails torn r fs' :
      (is_Some torn -> tears = true \/ is_Some (fs !! w.(write_path))) -> persist tmp_of fails torn w fs = (r, fs') ->
      history_step (mkHistorySystem s (p1 ++ w :: p2) fs) (mkHistorySystem s (p1 ++ p2) fs').
End disk.

(** ** Sorting one more element in *)

Section newest.
Context {A : Type} (cmp : A -> A -> comparison) `{!LawfulCmp cmp}.
(** After everything it does not come before. *)
Fixpoint insert_last (x : A) (l : list A) : list A :=
  match l with [] => [x] | y :: l' => match cmp x y with Lt => x :: l | _ => y :: insert_last x l' end end.
Lemma sort_insert_last a x l : sort_insert cmp a (insert_last x l) = insert_last x (sort_insert cmp a l).
Proof.
  induction l as [|y l IH]; simpl.
  - rewrite (cmp_antisym cmp a x). by destruct (cmp a x).
  - assert (cmp x y <> Lt -> cmp a y <> Gt -> cmp x a <> Lt) as Hle.
    { intros Hxy Hay Hxa. apply (cmp_trans cmp a y x Hay); [rewrite (cmp_antisym cmp x y); by destruct (cmp x y)|].
      by rewrite (cmp_antisym cmp x a), Hxa. }
    destruct (cmp x y) eqn:Exy; simpl.
    1,3: destruct (cmp a y) eqn:Eay; simpl; rewrite ?Exy, ?IH; try done;
      (destruct (cmp x a) eqn:Exa; [| |]); try done; by destruct Hle.
    assert (cmp a y = Gt -> cmp a x = Gt) as Hgt.
    { intros Eay. apply (cmp_gt_trans cmp _ y); [done|]. by rewrite (cmp_antisym cmp x y), Exy. }
    destruct (cmp a y) eqn:Eay; simpl; rewrite ?(cmp_antisym cmp a x); [| |rewrite (Hgt eq_refl)];
      try destruct (cmp a x); simpl; by rewrite ?Eay, ?Exy.
Qed.
Lemma sort_by_snoc l x : sort_by cmp (l ++ [x]) = insert_last x (sort_by cmp l).
Proof. induction l as [|a l IH]; [done|]. simpl. by rewrite IH, sort_insert_last. Qed.
(** A full list that drops its last elements keeps the same front. *)
Lemma take_insert_last k x l : take k (insert_last x (take k l)) = take k (insert_last x l).
Proof.
  revert k. induction l as [|y l IH]; intros [|k]; [done..|]. simpl. destruct (cmp x y); simpl; f_equal; try apply IH.
  destruct k as [|k]; [done|]. simpl. by rewrite take_take, Nat.min_l by lia.
Qed.
End newest.

#[export] Instance newest_first_lawful : LawfulCmp newest_first := _.

(** ** Hashes *)

Lemma hex_digit_value_digit v : (v < 16)%N -> hex_digit_value (hex_digit v) = Some v.
Proof.
  intros Hv. assert (forallb (fun v => bool_decide (hex_digit_value (hex_digit v) = Some v)) (N.of_nat <$> seq 0 16) = true) as H by reflexivity.
  rewrite forallb_forall in H. apply (bool_decide_eq_true_1 _), H, list_elem_of_In, list_elem_of_fmap.
  exists (N.to_nat v). rewrite N2Nat.id. split; [done|]. apply elem_of_seq. lia.
Qed.
Lemma length_app_string a b : String.length (a +:+ b) = (String.length a + String.length b)%nat.
Proof. induction a as [|c a IH]; [done|]. exact (f_equal S IH). Qed.
Lemma hex_value_app s t acc : hex_value (s +:+ t) acc = v ← hex_value s acc; hex_value t v.
Proof.
  revert acc. induction s as [|c s IH]; intros acc; [done|]. change (String.String c s +:+ t) with (String.String c (s +:+ t)). cbn [hex_value].
  destruct (hex_digit_value c) as [v|]; [|done]. apply IH.
Qed.
Lemma all_hex_app s t : all_hex (s +:+ t) = all_hex s && all_hex t.
Proof. induction s as [|c s IH]; [done|]. change (String.String c s +:+ t) with (String.String c (s +:+ t)).
  cbn [all_hex]. by rewrite IH, andb_assoc. Qed.
Lemma hex_digits_value n key acc : (key < 16 ^ N.of_nat n)%N ->
  String.length (hex_digits n key) = n /\ all_hex (hex_digits n key) = true /\
  hex_value (hex_digits n key) acc = Some (acc * 16 ^ N.of_nat n + key)%N.
Proof.
  revert key acc. induction n as [|n IH]; intros key acc Hk.
  { simpl in *. split_conj; [done..|]. f_equal. lia. }
  rewrite Nat2N.inj_succ, N.pow_succ_r' in *. destruct (IH (key / 16)%N acc) as (Hl & Ha & Hv).
  { apply N.Div0.div_lt_upper_bound. lia. }
  assert (key mod 16 < 16)%N as Hm by (apply N.mod_lt; lia).
  cbn [hex_digits]. rewrite length_app_string, all_hex_app, hex_value_app, Hl, Ha, Hv. cbn [mbind option_bind hex_value all_hex String.length].
  rewrite hex_digit_value_digit by done. split_conj; [lia|done|]. cbn [mbind option_bind]. f_equal.
  pose proof (N.div_mod key 16 ltac:(lia)). lia.
Qed.
Lemma hex_digits_front n key :
  hex_digits (S n) key = String.String (hex_digit ((key / 16 ^ N.of_nat n) mod 16)) (hex_digits n key).
Proof.
  revert key. induction n as [|n IH]; intros key; [simpl; by rewrite N.div_1_r|].
  change (hex_digits (S (S n)) key) with (hex_digits (S n) (key / 16)%N +:+ String.String (hex_digit (key mod 16)) "").
  rewrite IH. rewrite Nat2N.inj_succ, N.pow_succ_r', N.Div0.div_div. done.
Qed.
Lemma hex_value_digits s : forall acc key, hex_value s acc = Some key ->
  lower s = hex_digits (String.length s) key /\ (key / 16 ^ N.of_nat (String.length s) = acc)%N.
Proof.
  induction s as [|c s IH]; intros acc key H.
  { injection H as ->. split; [done|]. by rewrite N.div_1_r. }
  cbn [hex_value] in H. destruct (hex_digit_value c) as [v|] eqn:Ev; [|done]. cbn [mbind option_bind] in H.
  apply IH in H as [Hl Hk]. pose proof (hex_digit_value_bound _ _ Ev) as Hv. apply hex_digit_lower in Ev.
  cbn [lower String.length]. rewrite hex_digits_front, <- Hl, Hk. split.
  - rewrite <- Ev. do 2 f_equal. rewrite N.add_comm, N.mul_comm, N.Div0.mod_add. by rewrite N.mod_small.
  - rewrite Nat2N.inj_succ, N.pow_succ_r', N.mul_comm, <- N.Div0.div_div, Hk.
    rewrite N.add_comm, N.mul_comm, N.div_add by lia. rewrite N.div_small by done. lia.
Qed.
Lemma hex_digit_value_lower c : hex_digit_value (lower_ascii c) = hex_digit_value c.
Proof. destruct c as [[] [] [] [] [] [] [] []]; reflexivity. Qed.
Lemma hex_value_lower s acc : hex_value (lower s) acc = hex_value s acc.
Proof.
  revert acc. induction s as [|c s IH]; intros acc; [done|]. cbn [lower hex_value]. rewrite hex_digit_value_lower.
  destruct (hex_digit_value c); [|done]. apply IH.
Qed.
(** C40 Hashes of candidates survive the trip through their text: a key is written as
    sixteen digits that read back as that key, and a text reads as a key exactly when it
    is those digits, in either case. *)
Theorem candidate_hash_roundtrip key hash : (key <= u64_max)%N ->
  candidate_hash_key_from_hex (candidate_hash_from_key key) = Some key /\
  (candidate_hash_key_from_hex hash = Some key <-> lower hash = candidate_hash_from_key key /\ String.length hash = 16 /\ all_hex hash = true).
Proof.
  intros Hk. assert (key < 16 ^ N.of_nat 16)%N as Hlt by (unfold u64_max in Hk; simpl; lia).
  destruct (hex_digits_value 16 key 0 Hlt) as (Hl & Ha & Hv). unfold candidate_hash_key_from_hex, candidate_hash_from_key. split.
  - rewrite Hl, Ha, Hv. done.
  - destruct (Nat.eqb_spec (String.length hash) 16) as [E|E]; cbn [negb orb]; [|by split; [|intros (_ & ? & _)]].
    destruct (all_hex hash) eqn:Eh; cbn [negb]; [|by split; [|intros (_ & _ & ?)]]. split.
    + intros H. apply hex_value_digits in H as [H _]. by rewrite E in H.
    + intros (H & _ & _). by rewrite <- hex_value_lower, H.
Qed.

(** ** What the counts count *)

Definition counted (candidate_key : N) (kind intent bucket : string) (e : CompletionAcceptEvent) : bool :=
  bool_decide (candidate_hash_key_from_hex e.(candidate_hash_of) = Some candidate_key) && String.eqb e.(ev_kind) kind
  && String.eqb e.(ev_intent) intent && String.eqb e.(ev_prefix_bucket) bucket.
Lemma accept_count_from_entries l key kind intent bucket :
  accept_count (from_entries l) key kind intent bucket = N.of_nat (length (List.filter (counted key kind intent bucket) l)).
Proof.
  unfold from_entries. induction l as [|e l IH] using rev_ind; [done|].
  rewrite foldl_app, List.filter_app, length_app. cbn [foldl List.filter]. unfold accept_count, count_entry in *.
  set (s := foldl _ empty_snapshot l) in *. unfold counted at 2.
  destruct (candidate_hash_key_from_hex (candidate_hash_of e)) as [k|] eqn:Ek.
  2: { rewrite bool_decide_eq_false_2 by done. cbn [andb length]. by rewrite Nat.add_0_r. }
  cbn [counts]. rewrite lookup_insert. case_decide as Hk.
  - injection Hk as -> -> -> ->. rewrite bool_decide_eq_true_2 by done. rewrite !String.eqb_refl. cbn [andb length from_option id]. rewrite IH. lia.
  - destruct (_ && _) eqn:E.
    + exfalso. apply Hk. rewrite !andb_true_iff, !String.eqb_eq in E. destruct E as [[[E%bool_decide_eq_true <-] <-] <-]. by injection E as ->.
    + cbn [length]. by rewrite Nat.add_0_r.
Qed.

Section recorded.
Context (encode : HistoryFile -> option string).
Definition record_all (s : CompletionHistoryStore) (events : list CompletionAcceptEvent) : CompletionHistoryStore :=
  foldl (fun s e => (record_accept_deferred encode s e).1) s events.
Lemma record_entries s e : (record_accept_deferred encode s e).1.(data).(entries) =
  take MAX_HISTORY_ENTRIES (insert_last newest_first e (sort_by newest_first s.(data).(entries))).
Proof. rewrite <- (sort_by_snoc newest_first). reflexivity. Qed.
Lemma record_all_entries path events :
  (record_all (empty_store path) events).(data).(entries) = take MAX_HISTORY_ENTRIES (sort_by newest_first events).
Proof.
  induction events as [|e events IH] using rev_ind; [change ([] = take MAX_HISTORY_ENTRIES (@nil CompletionAcceptEvent)); by rewrite take_nil|]. unfold record_all in *. rewrite foldl_app. cbn [foldl].
  rewrite record_entries, IH, (sort_by_snoc newest_first events e).
  rewrite (sort_by_id newest_first (take _ _)); [apply take_insert_last|].
  eapply sublist_StronglySorted; [apply sublist_take|apply sort_by_sorted, _].
Qed.
End recorded.

(** A ranking reads exactly the newest accepts: after any sequence of accepts the count
    of a candidate is the number of entries of its workspace with its hash, kind, intent
    and prefix among the first 4096 when all accepts are ordered newest first, older
    accepts before newer ones of the same second. *)
Theorem history_counts_newest encode path events workspace key kind intent bucket :
  let s := record_all encode (empty_store path) events in
  accept_count (snapshot s workspace) key kind intent bucket =
  N.of_nat (length (List.filter (fun e => String.eqb e.(workspace_hash) workspace && counted key kind intent bucket e)
    (take MAX_HISTORY_ENTRIES (sort_by newest_first events)))).
Proof.
  intros s. unfold snapshot. rewrite accept_count_from_entries. unfold s. rewrite record_all_entries.
  generalize (take MAX_HISTORY_ENTRIES (sort_by newest_first events)). intros l. do 2 f_equal.
  induction l as [|e l IH]; [done|]. cbn [List.filter]. destruct (String.eqb _ workspace); cbn [andb List.filter]; by rewrite ?IH.
Qed.

(** ** The disk *)

Section runs.
Context (encode : HistoryFile -> option string) (tmp_of : string -> string) (tears : bool).
Context (path : string) (Htmp : tmp_of path <> path).

(** A run and the files the store has been in. *)
Inductive history_run : HistorySystem -> list HistoryFile -> HistorySystem -> Prop :=
  | run_start s : history_run s [] s
  | run_step s past s' s'' : history_run s past s' -> history_step encode tmp_of tears s' s'' ->
      history_run s (past ++ [s''.(hs_store).(data)]) s''.
(** A text the disk may hold: what was there, or what the store once was. *)
Definition known (start : HistorySystem) (past : list HistoryFile) (t : string) : Prop :=
  start.(hs_files) !! path = Some t \/ exists f, f ∈ past /\ encode f = Some t.
Lemma known_app start past f t : known start past t -> known start (past ++ [f]) t.
Proof. intros [?|(g & ? & ?)]; [by left|right]. exists g. split; [|done]. apply elem_of_app. by left. Qed.
(** There is a file, or the temporary file holds all of a known text. *)
Definition kept (start : HistorySystem) (past : list HistoryFile) (fs : gmap string string) : Prop :=
  is_Some (fs !! path) \/ exists t, fs !! tmp_of path = Some t /\ known start past t.
Record explained (start : HistorySystem) (past : list HistoryFile) (s : HistorySystem) : Prop := {
  ex_path : s.(hs_store).(store_path) = path;
  ex_prepared w : w ∈ s.(hs_prepared) -> w.(write_path) = path /\ known start past w.(text);
  ex_disk t : s.(hs_files) !! path = Some t -> known start past t;
  ex_safe : tears = false -> is_Some (start.(hs_files) !! path) -> kept start past s.(hs_files);
}.
Lemma kept_app start past f fs : kept start past fs -> kept start (past ++ [f]) fs.
Proof. intros [?|(t & ? & ?)]; [by left|right]. exists t. split; [done|by apply known_app]. Qed.
(** The store changes, and [new] is what is prepared. *)
Lemma explained_store start past s p fs s' new : explained start past (mkHistorySystem s p fs) ->
  s'.(store_path) = s.(store_path) ->
  (forall w, w ∈ new -> w.(write_path) = path /\ encode s'.(data) = Some w.(text)) ->
  explained start (past ++ [s'.(data)]) (mkHistorySystem s' (p ++ new) fs).
Proof.
  intros [Hp Hw Hd Hs] E Hnew. cbn in *. split; cbn; [congruence|..].
  - intros w [Hin|Hin]%elem_of_app.
    + destruct (Hw w Hin). split; [done|by apply known_app].
    + destruct (Hnew w Hin). split; [done|]. right. exists s'.(data). split; [set_solver|done].
  - intros t Ht. by apply known_app, Hd.
  - intros Ht H0. by apply kept_app, Hs.
Qed.
Lemma prepare_persist_spec s w : prepare_persist encode s = Some w -> w.(write_path) = s.(store_path) /\ encode s.(data) = Some w.(text).
Proof. unfold prepare_persist. destruct (encode (data s)); [|done]. by intros [= <-]. Qed.

(** What [persist] can do to the disk: an untouched disk, a torn temporary file, or a
    whole one with the file as it was, removed, or replaced. *)
Lemma persist_effect fails torn w fs r fs' : w.(write_path) = path -> persist tmp_of fails torn w fs = (r, fs') ->
  (fs' !! path = fs !! path /\ (fs' !! tmp_of path = fs !! tmp_of path \/ is_Some torn)) \/
  ((fs' !! path = fs !! path \/ fs' !! path = None) /\ fs' !! tmp_of path = Some w.(text)) \/
  (r = Ok tt /\ fs' !! path = Some w.(text) /\ fs' !! tmp_of path = None).
Proof.
  intros Ew. unfold persist. rewrite Ew.
  destruct (fails CreateDir); [intros [= <- <-]; auto|].
  destruct (fails WriteTemp).
  { intros [= <- <-]. left. destruct torn; [rewrite lookup_insert_ne by done|]; eauto. }
  rewrite lookup_insert_ne by done. set (gone := negb _ && _).
  destruct (gone && fails RemoveOld).
  { intros [= <- <-]. right; left. rewrite lookup_insert_ne, lookup_insert_eq by done. auto. }
  destruct (fails RenameTemp); intros [= <- <-]; right.
  - left. destruct gone; [rewrite lookup_delete_eq, lookup_delete_ne by done|rewrite lookup_insert_ne by done];
      rewrite lookup_insert_eq; auto.
  - right. by rewrite lookup_insert_eq, lookup_insert_ne, lookup_delete_eq by done.
Qed.
Lemma explained_persist start past s p1 w p2 fs fails torn r fs' : explained start past (mkHistorySystem s (p1 ++ w :: p2) fs) ->
  (is_Some torn -> tears = true \/ is_Some (fs !! w.(write_path))) -> persist tmp_of fails torn w fs = (r, fs') ->
  explained start past (mkHistorySystem s (p1 ++ p2) fs').
Proof.
  intros [Hp Hw Hd Hs] Ht H. cbn in *.
  destruct (Hw w) as [Ew Hk]; [set_solver|]. apply (persist_effect _ _ _ _ _ _ Ew) in H.
  split; cbn; [done|intros w' Hw'; apply Hw; set_solver|..].
  - intros t E. destruct H as [[E1 _]|[[[E1|E1] _]|(_ & E1 & _)]]; rewrite E1 in E; [by apply Hd|by apply Hd|done|].
    by injection E as <-.
  - intros Hno H0. unfold kept. specialize (Hs Hno H0).
    destruct H as [[-> [->|Htorn]]|[[_ ->]|(_ & -> & _)]]; [exact Hs| |right; by eexists|by left].
    destruct (Ht Htorn) as [?|?]; [congruence|left; congruence].
Qed.
Lemma explained_run start past s : start.(hs_prepared) = [] -> start.(hs_store).(store_path) = path ->
  history_run start past s -> explained start past s.
Proof.
  intros Hnil Hpath Hrun. induction Hrun as [s|s past s' s'' Hrun IH Hstep].
  - split; [done|rewrite Hnil; by intros w ?%elem_of_nil|by left|by left].
  - specialize (IH Hnil Hpath).
    destruct Hstep as [s1 p fs e s2 w H|s1 p fs e s2 H|s1 p fs s2 n w H|s1 p1 w p2 fs fails torn r fs' Ht H]; cbn [hs_store].
    + injection H as <- H. apply (explained_store _ _ s1); [done..|]. pose proof (ex_path _ _ _ IH) as Hp.
      intros w' ->%list_elem_of_singleton. apply prepare_persist_spec in H as [-> ?]. done.
    + injection H as <- _. rewrite <- (app_nil_r p). apply (explained_store _ _ s1); [done..|]. by intros w ?%elem_of_nil.
    + unfold clear_all_deferred in H. injection H as <- H. destruct (prepare_persist _ _) as [w'|] eqn:E; [|done].
      injection H as _ ->. apply (explained_store _ _ s1); [done..|]. pose proof (ex_path _ _ _ IH) as Hp.
      intros w' ->%list_elem_of_singleton. apply prepare_persist_spec in E as [-> ?]. done.
    + eapply explained_persist in H as [Hp Hw Hd Hs]; [|done..]. split; cbn in *; [done|..].
      * intros w' Hw'. destruct (Hw w' Hw'). split; [done|by apply known_app].
      * intros t E. by apply known_app, Hd.
      * intros Hno H0. by apply kept_app, Hs.
Qed.
End runs.

Lemma persist_ok tmp_of w fs : (persist tmp_of (fun _ => false) None w fs).2 !! w.(write_path) = Some w.(text).
Proof. unfold persist. rewrite andb_false_r. apply lookup_insert_eq. Qed.

Section two_accepts.
Context (encode : HistoryFile -> option string) (tmp_of : string -> string) (tears : bool).
Context (Henc : forall f, is_Some (encode f)).
Lemma untorn (P : Prop) : is_Some (@None nat) -> P.
Proof. by intros []. Qed.
(** Two accepts whose writes both wait for the gate, and what the gate lets through. *)
Lemma two_accepts s fs e1 e2 : let s1 := (record_accept_deferred encode s e1).1 in
  let s2 := (record_accept_deferred encode s1 e2).1 in
  exists past w1 w2, history_run encode tmp_of tears (mkHistorySystem s [] fs) past (mkHistorySystem s2 [w1; w2] fs) /\
    w1.(write_path) = s.(store_path) /\ w2.(write_path) = s.(store_path) /\
    encode s1.(data) = Some w1.(text) /\ encode s2.(data) = Some w2.(text).
Proof.
  intros s1 s2. assert (forall s', exists w, prepare_persist encode s' = Some w) as Hw.
  { intros s'. unfold prepare_persist. destruct (Henc (data s')) as [t ->]. by eexists. }
  destruct (Hw s1) as [w1 Hw1], (Hw s2) as [w2 Hw2].
  destruct (prepare_persist_spec _ _ _ Hw1) as [P1 T1], (prepare_persist_spec _ _ _ Hw2) as [P2 T2].
  eexists _, w1, w2. split; [|done]. eapply (run_step _ _ _ _ _ (mkHistorySystem s1 [w1] fs)).
  - eapply (run_step _ _ _ _ _ (mkHistorySystem s [] fs)); [constructor|].
    apply (step_accept encode tmp_of tears s [] fs e1 s1 w1). unfold record_accept_deferred. by rewrite <- Hw1.
  - apply (step_accept encode tmp_of tears s1 [w1] fs e2 s2 w2). unfold record_accept_deferred. by rewrite <- Hw2.
Qed.
(** Their writes reach the disk in the other order. *)
Lemma late_write s fs e1 e2 : tmp_of s.(store_path) <> s.(store_path) ->
  let s1 := (record_accept_deferred encode s e1).1 in
  exists past fs', history_run encode tmp_of tears (mkHistorySystem s [] fs) past
      (mkHistorySystem (record_accept_deferred encode s1 e2).1 [] fs') /\
    fs' !! s.(store_path) = encode s1.(data).
Proof.
  intros Ht s1. destruct (two_accepts s fs e1 e2) as (past & w1 & w2 & Hrun & P1 & P2 & T1 & T2). fold s1 in Hrun, T1 |- *.
  set (ok := fun _ : PersistCall => false).
  eexists _, (persist tmp_of ok None w1 (persist tmp_of ok None w2 fs).2).2. split.
  - eapply run_step; [eapply run_step; [exact Hrun|]|].
    + by apply (step_persist _ _ _ _ [w1] w2 [] fs ok None _ _ (untorn _) (surjective_pairing _)).
    + by apply (step_persist _ _ _ _ [] w1 [] _ ok None _ _ (untorn _) (surjective_pairing _)).
  - rewrite T1, <- P1. apply persist_ok.
Qed.
(** The first rename fails after the removal, and the second write fails at its start. *)
Lemma lost_file s fs e1 e2 : tears = true -> tmp_of s.(store_path) <> s.(store_path) ->
  let s1 := (record_accept_deferred encode s e1).1 in
  exists past fs', history_run encode tmp_of tears (mkHistorySystem s [] fs) past
      (mkHistorySystem (record_accept_deferred encode s1 e2).1 [] fs') /\
    fs' !! s.(store_path) = None /\ fs' !! tmp_of s.(store_path) = Some "".
Proof.
  intros Htears Ht s1. destruct (two_accepts s fs e1 e2) as (past & w1 & w2 & Hrun & P1 & P2 & T1 & T2). fold s1 in Hrun.
  set (no_rename := fun c => match c with RenameTemp => true | _ => false end).
  set (no_write := fun c => match c with WriteTemp => true | _ => false end).
  eexists _, (persist tmp_of no_write (Some 0) w2 (persist tmp_of no_rename None w1 fs).2).2. split.
  - eapply run_step; [eapply run_step; [exact Hrun|]|].
    + by apply (step_persist _ _ _ _ [] w1 [w2] fs no_rename None _ _ (fun _ => or_introl Htears) (surjective_pairing _)).
    + by apply (step_persist _ _ _ _ [] w2 [] _ no_write (Some 0) _ _ (fun _ => or_introl Htears) (surjective_pairing _)).
  - unfold persist, no_write, no_rename. cbn. rewrite P1, P2, andb_false_r. cbn. split.
    + rewrite !lookup_insert_ne by done. destruct (fs !! _) eqn:E; cbn; [apply lookup_delete_eq|].
      by rewrite lookup_insert_ne.
    + rewrite lookup_insert_eq. by destruct (text w2).
Qed.
End two_accepts.

(** C34 However requests and failures interleave, the history file, when it is there, holds
    all of what it held at the start or all of a state its store went through, never part
    of one. It can be absent although there was one, since [persist] removes it before the
    rename; the temporary file then holds all of such a text unless a failing write tears
    it while there is no history file, and such a write loses every copy.
    Nor need the file be the latest state: a write is prepared under one lock and persisted
    under another, so the writes of two accepts can land in the opposite order, and the
    file then lacks the later one with nothing left to write. *)
Theorem history_disk_explained encode tmp_of tears start past s :
  tmp_of start.(hs_store).(store_path) <> start.(hs_store).(store_path) -> start.(hs_prepared) = [] ->
  history_run encode tmp_of tears start past s ->
  let path := start.(hs_store).(store_path) in
  (forall t, s.(hs_files) !! path = Some t -> known encode path start past t) /\
  (tears = false -> is_Some (start.(hs_files) !! path) ->
     is_Some (s.(hs_files) !! path) \/
     exists t, s.(hs_files) !! tmp_of path = Some t /\ known encode path start past t) /\
  ((forall f, is_Some (encode f)) -> forall e1 e2,
     let s1 := (record_accept_deferred encode start.(hs_store) e1).1 in
     let s2 := (record_accept_deferred encode s1 e2).1 in
     (exists past' fs', history_run encode tmp_of tears start past' (mkHistorySystem s2 [] fs') /\
        fs' !! path = encode s1.(data)) /\
     (tears = true -> exists past' fs', history_run encode tmp_of tears start past' (mkHistorySystem s2 [] fs') /\
        fs' !! path = None /\ fs' !! tmp_of path = Some "")).
Proof.
  intros Ht Hn Hr path. pose proof (explained_run encode tmp_of tears path Ht start past s Hn eq_refl Hr) as [_ _ Hd Hs].
  split; [done|]. split; [done|]. intros Henc e1 e2. destruct start as [st p fs]. cbn in Hn. subst p.
  split; [by apply late_write|intros ->; by apply lost_file].
Qed.

Definition demo_accept (hash : string) (at_ : Z) : CompletionAcceptEvent := mkAccept "w" hash "function" "call_target" "op" at_.
Definition demo_encode (f : HistoryFile) : option string := Some (String.concat "," (candidate_hash_of <$> f.(entries))).
Definition demo_start : HistorySystem := mkHistorySystem (empty_store "history.json") [] {["history.json" := "old"]}.
(** Nothing has happened yet; from there "a" overtakes "a,b", and both can be lost. *)
Lemma history_disk_explained_witness :
  let s2 := record_all demo_encode (empty_store "history.json") [demo_accept "a" 1; demo_accept "b" 2] in
  (exists past' fs', history_run demo_encode (fun p => p +:+ ".tmp") true demo_start past' (mkHistorySystem s2 [] fs') /\
    fs' !! "history.json" = Some "a") /\
  (exists past' fs', history_run demo_encode (fun p => p +:+ ".tmp") true demo_start past' (mkHistorySystem s2 [] fs') /\
    fs' !! "history.json" = None /\ fs' !! "history.json.tmp" = Some "").
Proof.
  destruct (history_disk_explained demo_encode (fun p => p +:+ ".tmp") true demo_start [] demo_start) as (_ & _ & H).
  - vm_compute. discriminate.
  - reflexivity.
  - constructor.
  - destruct (H (fun f => ex_intro _ _ eq_refl) (demo_accept "a" 1) (demo_accept "b" 2)) as [H1 H2].
    split; [exact H1|exact (H2 eq_refl)].
Defined.
Lemma candidate_hash_roundtrip_witness :
  candidate_hash_key_from_hex (candidate_hash_from_key 3735928559) = Some 3735928559%N /\ candidate_hash_from_key 3735928559 = "00000000deadbeef".
Proof. split; [apply (candidate_hash_roundtrip 3735928559 ""); unfold u64_max; lia|reflexivity]. Defined.
