(* ===== verification/CompletionPipeline.v ===== *)
(** * The completion pipeline (completion/pipeline.rs, completion/pipeline/metrics.rs,
      completion/prefix_ranking.rs, completion/intent.rs)

    The candidates of all sources are merged by name, scored from their evidence, the
    intent at the cursor and the history, ordered and cut to the limit. [i32] scores wrap
    as they do in the released program. *)

From S2P Require Import Prelude Candidates NameSegments CallModel CallRows CompletionHistory.

(** [as i32], and the result of an overflowing operation. *)
Definition i32_wrap (z : Z) : Z := ((z + 2147483648) mod 4294967296 - 2147483648)%Z.

(** ** Constants *)

Definition SOURCE_LOCAL_BINDING : Z := 12000.
Definition SOURCE_CURRENT_FILE_OVERLAY : Z := 9000.
Definition SOURCE_INDEXED : Z := 5000.
Definition SOURCE_LANGUAGE_BUILTIN : Z := 2000.
Definition SOURCE_LOCAL_WORD : Z := 0.
Definition SOURCE_LEXICAL_FALLBACK : Z := -1000.
Definition SCOPE_CURRENT : Z := 6000.
Definition SCOPE_REACHABLE : Z := 4800.
Definition SCOPE_EXTERNAL : Z := 4200.
Definition SCOPE_UNKNOWN : Z := 3200.
Definition SCOPE_GLOBAL : Z := 2400.
Definition CONFIDENCE_EXACT : Z := 2000.
Definition CONFIDENCE_REACHABLE : Z := 1500.
Definition CONFIDENCE_HEURISTIC : Z := 1000.
Definition CONFIDENCE_AMBIGUOUS : Z := 500.
Definition CONFIDENCE_FALLBACK : Z := 0.
Definition PROXIMITY_SCORE_CAP : Z := 750.
Definition LOW_TRUST_GLOBAL_TEXT_CAP_BELOW_REACHABLE : Z := 8000.
Definition INTENT_STRONG_MATCH : Z := 1600.
Definition INTENT_MEDIUM_MATCH : Z := 900.
Definition INTENT_BOUNDED_DEMOTION : Z := -450.
Definition DECLARATION_GLOBAL_REUSE_DEMOTION : Z := -5000.
Definition HISTORY_MAX_BOOST : Z := 700.
Definition HISTORY_REPEAT_STEP : Z := 120.
Definition PROJECT_CONTEXT_MAX_BOOST : Z := 350.

(** ** Vocabulary *)

Inductive CompletionIntentKind : Type := Neutral | TypeNameIntent | ExpressionValue | CallTarget | MacroPreprocessor | DeclarationName.
#[export] Instance CompletionIntentKind_eq_dec : EqDecision CompletionIntentKind.
Proof. solve_decision. Defined.
Inductive CompletionIntentConfidence : Type := IntentLow | IntentMedium | IntentHigh.
Record CompletionIntent : Type := mkIntent { in_kind : CompletionIntentKind; in_confidence : CompletionIntentConfidence }.
Definition default_intent : CompletionIntent := mkIntent Neutral IntentLow.
Definition as_summary_str (k : CompletionIntentKind) : string :=
  match k with
  | Neutral => "neutral" | TypeNameIntent => "type_name" | ExpressionValue => "expression_value"
  | CallTarget => "call_target" | MacroPreprocessor => "macro_preprocessor" | DeclarationName => "declaration_name"
  end.

Inductive CompletionCandidateKind : Type := CkUnknown | CkKeyword | CkFunction | CkMacro | CkType | CkVariable | CkEnumConstant | CkText.
Definition kind_priority (k : CompletionCandidateKind) : N :=
  match k with
  | CkUnknown => 0 | CkText => 1 | CkKeyword => 2 | CkVariable => 2 | CkEnumConstant => 3 | CkMacro => 4
  | CkFunction => 5 | CkType => 5
  end.
Definition as_history_kind_str (k : CompletionCandidateKind) : string :=
  match k with
  | CkUnknown => "unknown" | CkKeyword => "keyword" | CkFunction => "function" | CkMacro => "macro" | CkType => "type"
  | CkVariable => "variable" | CkEnumConstant => "enum_constant" | CkText => "text"
  end.

Inductive CandidateSource : Type := Indexed | LocalBinding | CurrentFileOverlay | LanguageBuiltin | LocalWord | LexicalFallback.
#[export] Instance CandidateSource_eq_dec : EqDecision CandidateSource.
Proof. solve_decision. Defined.
Definition source_priority (s : CandidateSource) : N :=
  match s with
  | LocalBinding => 5 | CurrentFileOverlay => 4 | Indexed => 3 | LanguageBuiltin => 2 | LocalWord => 1 | LexicalFallback => 0
  end.
(** [EvidenceSources]: one flag per source. *)
Record EvidenceSources : Type := mkSources {
  es_indexed : bool; es_local_binding : bool; es_current_file_overlay : bool;
  es_language_builtin : bool; es_local_word : bool; es_lexical_fallback : bool;
}.
Definition no_sources : EvidenceSources := mkSources false false false false false false.
Definition sources_add (s : EvidenceSources) (source : CandidateSource) : EvidenceSources :=
  match source with
  | Indexed => mkSources true s.(es_local_binding) s.(es_current_file_overlay) s.(es_language_builtin) s.(es_local_word) s.(es_lexical_fallback)
  | LocalBinding => mkSources s.(es_indexed) true s.(es_current_file_overlay) s.(es_language_builtin) s.(es_local_word) s.(es_lexical_fallback)
  | CurrentFileOverlay => mkSources s.(es_indexed) s.(es_local_binding) true s.(es_language_builtin) s.(es_local_word) s.(es_lexical_fallback)
  | LanguageBuiltin => mkSources s.(es_indexed) s.(es_local_binding) s.(es_current_file_overlay) true s.(es_local_word) s.(es_lexical_fallback)
  | LocalWord => mkSources s.(es_indexed) s.(es_local_binding) s.(es_current_file_overlay) s.(es_language_builtin) true s.(es_lexical_fallback)
  | LexicalFallback => mkSources s.(es_indexed) s.(es_local_binding) s.(es_current_file_overlay) s.(es_language_builtin) s.(es_local_word) true
  end.
Definition sources_single (source : CandidateSource) : EvidenceSources := sources_add no_sources source.
Definition sources_merge (a b : EvidenceSources) : EvidenceSources :=
  mkSources (a.(es_indexed) || b.(es_indexed)) (a.(es_local_binding) || b.(es_local_binding))
    (a.(es_current_file_overlay) || b.(es_current_file_overlay)) (a.(es_language_builtin) || b.(es_language_builtin))
    (a.(es_local_word) || b.(es_local_word)) (a.(es_lexical_fallback) || b.(es_lexical_fallback)).
Definition has_strong_current_or_local (s : EvidenceSources) : bool := s.(es_local_binding) || s.(es_current_file_overlay).

Record CandidateEvidence : Type := mkEvidence {
  primary_source : CandidateSource;
  sources : EvidenceSources;
  ev_source : CandidateSource;
  ev_tier : ScopeTier;
  ev_confidence : ResolutionConfidence;
  score : Z;
  match_score : Z;
  locality_score : Z;
  proximity_score : Z;
  project_score : Z;
  ev_candidate_kind : CompletionCandidateKind;
  role : option SymbolRole;
  history_key : option N;
  history_score : Z;
}.
Definition CandidateEvidence_new (source : CandidateSource) (tier : ScopeTier) (confidence : ResolutionConfidence) (score : Z) :
    CandidateEvidence :=
  mkEvidence source (sources_single source) source tier confidence score score 0 0 0 CkUnknown None None 0.

Definition tier_max (a b : ScopeTier) : ScopeTier := match tier_cmp a b with Gt => a | _ => b end.
Definition confidence_max (a b : ResolutionConfidence) : ResolutionConfidence := match confidence_cmp a b with Gt => a | _ => b end.
Definition symbol_role_priority (r : option SymbolRole) : N :=
  match r with
  | Some Declaration => 4 | Some TentativeDefinition => 3 | Some Definition_ => 2
  | Some UnknownDeclarationOrDefinition => 1 | None => 0
  end.
(** The order of the tuples [(tier, confidence)]. *)
Definition trust_cmp : CandidateEvidence -> CandidateEvidence -> comparison :=
  cmp_lex (cmp_on ev_tier tier_cmp) (cmp_on ev_confidence confidence_cmp).
Definition candidate_beats (current previous : CandidateEvidence) : bool :=
  let rank := source_priority current.(primary_source) in
  let prev_rank := source_priority previous.(primary_source) in
  (prev_rank <? rank)%N
  || ((rank =? prev_rank)%N
      && (bool_decide (trust_cmp current previous = Gt)
          || (bool_decide (trust_cmp current previous = Eq)
              && ((previous.(project_score) <? current.(project_score))%Z
                  || ((current.(project_score) =? previous.(project_score))%Z
                      && ((symbol_role_priority previous.(role) <? symbol_role_priority current.(role))%N
                          || ((symbol_role_priority current.(role) =? symbol_role_priority previous.(role))%N
                              && (previous.(score) <? current.(score))%Z))))))).
Definition merge_from (self other : CandidateEvidence) : CandidateEvidence :=
  let same_primary_source := bool_decide (self.(primary_source) = other.(primary_source)) in
  let other_wins := candidate_beats other self in
  {| primary_source := if other_wins then other.(primary_source) else self.(primary_source);
     sources := sources_merge self.(sources) other.(sources);
     ev_source := if other_wins then other.(primary_source) else self.(ev_source);
     ev_tier := tier_max self.(ev_tier) other.(ev_tier);
     ev_confidence := confidence_max self.(ev_confidence) other.(ev_confidence);
     score := Z.max self.(score) other.(score);
     match_score := Z.max self.(match_score) other.(match_score);
     locality_score := Z.max self.(locality_score) other.(locality_score);
     proximity_score := Z.max self.(proximity_score) other.(proximity_score);
     project_score := Z.max self.(project_score) other.(project_score);
     ev_candidate_kind :=
       if negb same_primary_source && (kind_priority self.(ev_candidate_kind) <? kind_priority other.(ev_candidate_kind))%N
       then other.(ev_candidate_kind) else self.(ev_candidate_kind);
     role := if other_wins then other.(role) else self.(role);
     history_key := match self.(history_key) with None => other.(history_key) | Some k => Some k end;
     history_score := Z.max self.(history_score) other.(history_score) |}.

(** ** Names *)

Inductive CompletionPrefixRanking : Type := Strict | ScopeFirst.
Inductive NameMatchClass : Type := ClassFuzzy | ClassPrefix | ClassExact.
Definition class_rank (c : NameMatchClass) : N := match c with ClassFuzzy => 0 | ClassPrefix => 1 | ClassExact => 2 end.
(** A byte that does not start a character. *)
Definition is_continuation (b : N) : bool := ((128 <=? b) && (b <? 192))%N.
(** [candidate.get(..n)]: [None] past the end or inside a character. *)
Definition str_get_to (n : nat) (s : string) : option string :=
  let bytes := bytes_of s in
  if (length bytes <? n)%nat then None
  else match bytes !! n with
       | Some b => if is_continuation b then None else Some (of_bytes (take n bytes))
       | None => Some s
       end.
Definition eq_ignore_ascii_case (a b : string) : bool := String.eqb (lower a) (lower b).
Definition name_match_class (prefix candidate : string) : NameMatchClass :=
  if String.eqb prefix "" then ClassFuzzy
  else if eq_ignore_ascii_case candidate prefix then ClassExact
  else match str_get_to (String.length prefix) candidate with
       | Some head => if eq_ignore_ascii_case head prefix then ClassPrefix else ClassFuzzy
       | None => ClassFuzzy
       end.
Definition compare_name_match (prefix : string) (policy : CompletionPrefixRanking) (a b : string) : comparison :=
  match policy with
  | ScopeFirst => Eq
  | Strict => N.compare (class_rank (name_match_class prefix b)) (class_rank (name_match_class prefix a))
  end.
(** [name.chars().count()] *)
Definition char_count (s : string) : nat := length (List.filter (fun b => negb (is_continuation b)) (bytes_of s)).

(** ** Scores *)

Record CompletionRankContext : Type := mkRankContext {
  intent : CompletionIntent;
  history_enabled : bool;
  history : CompletionHistorySnapshot;
  rank_prefix_bucket : string;
  prefix : string;
  prefix_ranking : CompletionPrefixRanking;
}.
Definition source_prior (s : CandidateSource) : Z :=
  match s with
  | LocalBinding => SOURCE_LOCAL_BINDING | CurrentFileOverlay => SOURCE_CURRENT_FILE_OVERLAY | Indexed => SOURCE_INDEXED
  | LanguageBuiltin => SOURCE_LANGUAGE_BUILTIN | LocalWord => SOURCE_LOCAL_WORD | LexicalFallback => SOURCE_LEXICAL_FALLBACK
  end.
Definition scope_prior (t : ScopeTier) : Z :=
  match t with
  | TierCurrent => SCOPE_CURRENT | TierReachable => SCOPE_REACHABLE | TierExternal => SCOPE_EXTERNAL
  | TierUnknown => SCOPE_UNKNOWN | TierGlobal => SCOPE_GLOBAL
  end.
Definition confidence_prior (c : ResolutionConfidence) : Z :=
  match c with
  | Exact => CONFIDENCE_EXACT | Reachable => CONFIDENCE_REACHABLE | Heuristic => CONFIDENCE_HEURISTIC
  | Ambiguous => CONFIDENCE_AMBIGUOUS | Fallback => CONFIDENCE_FALLBACK
  end.
Definition clamp (z lo hi : Z) : Z := if (z <? lo)%Z then lo else if (hi <? z)%Z then hi else z.
(** [match intent.kind]; the [Neutral] arm is behind the early return. *)
Definition base_adjustment (e : CandidateEvidence) (kind : CompletionIntentKind) : Z :=
  match kind with
  | Neutral => 0
  | TypeNameIntent =>
      match e.(ev_candidate_kind) with
      | CkType | CkEnumConstant => INTENT_STRONG_MATCH + INTENT_MEDIUM_MATCH
      | CkKeyword => INTENT_MEDIUM_MATCH
      | CkVariable | CkFunction | CkMacro => INTENT_BOUNDED_DEMOTION
      | CkUnknown | CkText => 0
      end
  | ExpressionValue =>
      match e.(ev_candidate_kind) with
      | CkVariable | CkFunction | CkMacro | CkEnumConstant => INTENT_STRONG_MATCH
      | CkType | CkKeyword => INTENT_BOUNDED_DEMOTION
      | CkUnknown | CkText => 0
      end
  | CallTarget =>
      match e.(ev_candidate_kind) with
      | CkFunction | CkMacro => INTENT_STRONG_MATCH
      | CkVariable => INTENT_BOUNDED_DEMOTION
      | _ => 0
      end
  | MacroPreprocessor =>
      match e.(ev_candidate_kind) with
      | CkMacro => INTENT_STRONG_MATCH
      | CkKeyword => INTENT_MEDIUM_MATCH
      | CkType | CkVariable => INTENT_BOUNDED_DEMOTION
      | _ => 0
      end
  | DeclarationName =>
      if has_strong_current_or_local e.(sources) || bool_decide (e.(primary_source) = LocalWord)
         || bool_decide (e.(primary_source) = LexicalFallback)
      then INTENT_MEDIUM_MATCH
      else if bool_decide (e.(primary_source) = LanguageBuiltin)
              || (bool_decide (e.(primary_source) = Indexed) && bool_decide (e.(ev_tier) = TierGlobal))
      then DECLARATION_GLOBAL_REUSE_DEMOTION
      else 0
  end%Z.
Definition intent_adjustment (e : CandidateEvidence) (i : CompletionIntent) : Z :=
  if bool_decide (i.(in_kind) = Neutral) then 0%Z
  else
    let adjustment := base_adjustment e i.(in_kind) in
    match i.(in_confidence) with
    | IntentHigh => adjustment
    | IntentMedium => Z.quot adjustment 2
    | IntentLow => Z.quot adjustment 4
    end.
Definition is_guarded_low_trust (e : CandidateEvidence) : bool :=
  bool_decide (e.(ev_tier) = TierGlobal) && negb (has_strong_current_or_local e.(sources))
  && (e.(sources).(es_local_word) || bool_decide (e.(ev_confidence) = Fallback)).

Section digest.
(** The blake3 digest, as in CompletionHistory.v. *)
Context (blake3 : list N -> list N).
Definition history_adjustment (label : string) (e : CandidateEvidence) (ctx : CompletionRankContext) : Z :=
  if negb ctx.(history_enabled) || (match e.(history_key) with None => true | Some _ => false end) then 0%Z
  else
    let history_key := candidate_hash_key blake3 label (as_history_kind_str e.(ev_candidate_kind)) in
    let accepts := accept_count ctx.(history) history_key (as_history_kind_str e.(ev_candidate_kind))
                     (as_summary_str ctx.(intent).(in_kind)) ctx.(rank_prefix_bucket) in
    Z.min (i32_wrap (i32_wrap (Z.of_N accepts) * HISTORY_REPEAT_STEP)) HISTORY_MAX_BOOST.
Definition final_rank_score (e : CandidateEvidence) (ctx : CompletionRankContext) : Z :=
  i32_wrap (source_prior e.(primary_source) + scope_prior e.(ev_tier) + confidence_prior e.(ev_confidence)
    + e.(match_score) + clamp e.(proximity_score) 0 PROXIMITY_SCORE_CAP + clamp e.(project_score) 0 PROJECT_CONTEXT_MAX_BOOST
    + intent_adjustment e ctx.(intent) + e.(history_score))%Z.
Definition with_scores (e : CandidateEvidence) (score history_score : Z) : CandidateEvidence :=
  mkEvidence e.(primary_source) e.(sources) e.(ev_source) e.(ev_tier) e.(ev_confidence) score e.(match_score)
    e.(locality_score) e.(proximity_score) e.(project_score) e.(ev_candidate_kind) e.(role) e.(history_key) history_score.
(** The body of [for candidate in &mut kept]. *)
Definition rescore (label : string) (ctx : CompletionRankContext) (e : CandidateEvidence) : CandidateEvidence :=
  let history_score := history_adjustment label e ctx in
  let e := with_scores e e.(score) history_score in
  let rank := final_rank_score e ctx in
  if is_guarded_low_trust e then
    let project_cap := clamp e.(project_score) 0 PROJECT_CONTEXT_MAX_BOOST in
    let cap := (LOW_TRUST_GLOBAL_TEXT_CAP_BELOW_REACHABLE + project_cap)%Z in
    with_scores e (Z.min rank cap) history_score
  else with_scores e rank history_score.
End digest.

(** ** Merging *)

Section pipeline.
Context {T : Type}.

Record PipelineCandidate : Type := mkPipeline { pc_name : string; evidence : CandidateEvidence; payload : T }.
Definition with_evidence (c : PipelineCandidate) (e : CandidateEvidence) : PipelineCandidate :=
  mkPipeline c.(pc_name) e c.(payload).

(** The body of the loop over the indices, on the map of the best index of each name and
    the survivors. *)
Definition merge_step (st : gmap string nat * list (option PipelineCandidate)) (i : nat) :
    option (gmap string nat * list (option PipelineCandidate)) :=
  let '(best_by_name, survivors) := st in
  here ← survivors !! i;
  match here with
  | None => Some st
  | Some current =>
      match best_by_name !! current.(pc_name) with
      | None => Some (<[current.(pc_name) := i]> best_by_name, survivors)
      | Some prev_i =>
          previous ← mjoin (survivors !! prev_i);
          if candidate_beats current.(evidence) previous.(evidence) then
            Some (<[current.(pc_name) := i]> best_by_name,
                  <[i := Some (with_evidence current (merge_from current.(evidence) previous.(evidence)))]>
                    (<[prev_i := None]> survivors))
          else
            Some (best_by_name,
                  <[prev_i := Some (with_evidence previous (merge_from previous.(evidence) current.(evidence)))]>
                    (<[i := None]> survivors))
      end
  end.
Definition merge_candidates (candidates : list PipelineCandidate) : option (list PipelineCandidate) :=
  st ← foldl (fun st i => st ← st; merge_step st i) (Some (∅, Some <$> candidates)) (seq 0 (length candidates));
  Some (omap id st.2).


(** ** The pipeline *)

Record SourceCounts : Type := mkCounts {
  n_indexed : nat; n_local_binding : nat; n_current_file_overlay : nat;
  n_language_builtin : nat; n_local_word : nat; n_lexical_fallback : nat;
}.
Definition increment (c : SourceCounts) (s : CandidateSource) : SourceCounts :=
  match s with
  | Indexed => mkCounts (S c.(n_indexed)) c.(n_local_binding) c.(n_current_file_overlay) c.(n_language_builtin) c.(n_local_word) c.(n_lexical_fallback)
  | LocalBinding => mkCounts c.(n_indexed) (S c.(n_local_binding)) c.(n_current_file_overlay) c.(n_language_builtin) c.(n_local_word) c.(n_lexical_fallback)
  | CurrentFileOverlay => mkCounts c.(n_indexed) c.(n_local_binding) (S c.(n_current_file_overlay)) c.(n_language_builtin) c.(n_local_word) c.(n_lexical_fallback)
  | LanguageBuiltin => mkCounts c.(n_indexed) c.(n_local_binding) c.(n_current_file_overlay) (S c.(n_language_builtin)) c.(n_local_word) c.(n_lexical_fallback)
  | LocalWord => mkCounts c.(n_indexed) c.(n_local_binding) c.(n_current_file_overlay) c.(n_language_builtin) (S c.(n_local_word)) c.(n_lexical_fallback)
  | LexicalFallback => mkCounts c.(n_indexed) c.(n_local_binding) c.(n_current_file_overlay) c.(n_language_builtin) c.(n_local_word) (S c.(n_lexical_fallback))
  end.
Definition count_sources (cs : list PipelineCandidate) : SourceCounts :=
  foldl (fun n c => increment n c.(evidence).(primary_source)) (mkCounts 0 0 0 0 0 0) cs.
Definition compatibility_order (cs : list PipelineCandidate) : list string :=
  let ranks := (fun c => (c.(pc_name), c.(evidence).(score))) <$> cs in
  fst <$> sort_by (cmp_lex (cmp_rev (cmp_on snd Z.compare)) (cmp_on fst String.compare)) ranks.
Record ShadowRankSummary : Type := mkShadow { moved : nat; max_delta : N }.
(** [enumerate().map(..).collect()]: the last index of a name. *)
Definition shadow_ranks (shadow : list string) : gmap string nat :=
  foldl (fun m p => <[p.2 := p.1]> m) ∅ (imap (fun i n => (i, n)) shadow).
Definition compare_shadow_ranks (display shadow : list string) : ShadowRankSummary :=
  let ranks := shadow_ranks shadow in
  let '(moved_names, max_delta) :=
    foldl (fun (acc : gset string * N) p =>
      match ranks !! p.2 with
      | Some shadow_idx =>
          let delta := abs_diff (N.of_nat p.1) (N.of_nat shadow_idx) in
          if (0 <? delta)%N then ({[p.2]} ∪ acc.1, N.max acc.2 delta) else acc
      | None => acc
      end) (∅, 0%N) (imap (fun i n => (i, n)) display) in
  mkShadow (size moved_names) max_delta.
Record FinalRankSummary : Type := mkFinalRank { guarded_low_trust : nat }.
(** [recall_channels] is left at its default here and filled in by the caller. *)
Record CompletionPipelineMetrics : Type := mkMetrics {
  input_total : nat; after_dedup_total : nat; returned_total : nat;
  input_sources : SourceCounts; returned_sources : SourceCounts;
  final_rank : FinalRankSummary; shadow : option ShadowRankSummary;
  intent_kind : CompletionIntentKind; intent_confidence : CompletionIntentConfidence; metrics_history_enabled : bool;
  history_boosted : nat; history_max_boost : Z; project_boosted : nat; project_max_boost : Z;
}.
Record CompletionPipelineOutput : Type := mkPipelineOutput { items : list PipelineCandidate; metrics : CompletionPipelineMetrics }.

Definition display_cmp (ctx : CompletionRankContext) : PipelineCandidate -> PipelineCandidate -> comparison :=
  cmp_lex (cmp_on pc_name (compare_name_match ctx.(prefix) ctx.(prefix_ranking)))
    (cmp_lex (cmp_rev (cmp_on (fun c => c.(evidence).(score)) Z.compare))
       (cmp_lex (cmp_rev (cmp_on (fun c => source_priority c.(evidence).(primary_source)) N.compare))
          (cmp_lex (cmp_rev (cmp_on (fun c => c.(evidence).(match_score)) Z.compare))
             (cmp_lex (cmp_on (fun c => char_count c.(pc_name)) Nat.compare) (cmp_on pc_name String.compare))))).
Definition max_boost (boosts : list Z) : Z := foldl Z.max 0%Z (List.filter (fun b => (0 <? b)%Z) boosts).
Definition run_evidence_aware_pipeline_with_context (blake3 : list N -> list N) (candidates : list PipelineCandidate) (limit : nat)
    (ctx : CompletionRankContext) : option CompletionPipelineOutput :=
  kept ← merge_candidates candidates;
  let shadow_order := compatibility_order kept in
  let kept := (fun c => with_evidence c (rescore blake3 c.(pc_name) ctx c.(evidence))) <$> kept in
  let guarded := length (List.filter (fun c => is_guarded_low_trust c.(evidence)) kept) in
  let history := (fun c => c.(evidence).(history_score)) <$> kept in
  let project := (fun c => c.(evidence).(project_score)) <$> kept in
  let after_dedup := length kept in
  let kept := sort_by (display_cmp ctx) kept in
  let display_order := pc_name <$> kept in
  let returned := take limit kept in
  Some (mkPipelineOutput returned
    (mkMetrics (length candidates) after_dedup (length returned) (count_sources candidates) (count_sources returned)
       (mkFinalRank guarded) (Some (compare_shadow_ranks display_order shadow_order))
       ctx.(intent).(in_kind) ctx.(intent).(in_confidence) ctx.(history_enabled)
       (length (List.filter (fun b => (0 <? b)%Z) history)) (max_boost history)
       (length (List.filter (fun b => (0 <? b)%Z) project)) (max_boost project))).
Definition default_context : CompletionRankContext := mkRankContext default_intent false empty_snapshot "" "" Strict.
Definition run_evidence_aware_pipeline (blake3 : list N -> list N) (candidates : list PipelineCandidate) (limit : nat) :
    option CompletionPipelineOutput :=
  run_evidence_aware_pipeline_with_context blake3 candidates limit default_context.
End pipeline.
Arguments PipelineCandidate : clear implicits.
Arguments CompletionPipelineOutput : clear implicits.

(** ** Which candidate wins *)

(** The nested comparison is lexicographic: source, tier and confidence, project, role,
    score. *)
Definition beats_cmp : CandidateEvidence -> CandidateEvidence -> comparison :=
  cmp_lex (cmp_on (fun e => source_priority e.(primary_source)) N.compare)
    (cmp_lex trust_cmp
       (cmp_lex (cmp_on project_score Z.compare)
          (cmp_lex (cmp_on (fun e => symbol_role_priority e.(role)) N.compare) (cmp_on score Z.compare)))).
#[export] Instance confidence_cmp_lawful : LawfulCmp confidence_cmp := _.
#[export] Instance beats_cmp_lawful : LawfulCmp beats_cmp := _.
Lemma candidate_beats_iff a b : candidate_beats a b = true <-> beats_cmp a b = Gt.
Proof.
  unfold candidate_beats, beats_cmp, cmp_lex at 1, cmp_on at 1, cmp_then.
  destruct (N.compare_spec (source_priority (primary_source a)) (source_priority (primary_source b))) as [E|E|E].
  - rewrite E, N.ltb_irrefl, N.eqb_refl. cbn [orb andb]. unfold cmp_lex at 1, cmp_then.
    destruct (trust_cmp a b) eqn:Et; [|by rewrite !bool_decide_eq_false_2|by rewrite bool_decide_eq_true_2].
    rewrite bool_decide_eq_false_2, bool_decide_eq_true_2 by done. cbn [orb andb].
    unfold cmp_lex at 1, cmp_on at 1, cmp_then.
    destruct (Z.compare_spec (project_score a) (project_score b)) as [Ep|Ep|Ep].
    + rewrite Ep, Z.ltb_irrefl, Z.eqb_refl. cbn [orb andb]. unfold cmp_lex at 1, cmp_on at 1, cmp_then.
      destruct (N.compare_spec (symbol_role_priority (role a)) (symbol_role_priority (role b))) as [Er|Er|Er].
      * rewrite Er, N.ltb_irrefl, N.eqb_refl. cbn [orb andb]. unfold cmp_on. rewrite Z.ltb_lt. split; [by intros ?%Z.compare_gt_iff|by intros ?%Z.compare_gt_iff].
      * rewrite (proj2 (N.ltb_ge _ _)), (proj2 (N.eqb_neq _ _)) by lia. done.
      * rewrite (proj2 (N.ltb_lt _ _)) by lia. done.
    + rewrite (proj2 (Z.ltb_ge _ _)), (proj2 (Z.eqb_neq _ _)) by lia. done.
    + rewrite (proj2 (Z.ltb_lt _ _)) by lia. done.
  - rewrite (proj2 (N.ltb_ge _ _)), (proj2 (N.eqb_neq _ _)) by lia. done.
  - rewrite (proj2 (N.ltb_lt _ _)) by lia. done.
Qed.
Lemma beats_source a b : candidate_beats a b = true -> (source_priority b.(primary_source) <= source_priority a.(primary_source))%N.
Proof.
  unfold candidate_beats. rewrite orb_true_iff, N.ltb_lt, andb_true_iff, N.eqb_eq. lia.
Qed.
Lemma not_beats_source a b : candidate_beats a b = false -> (source_priority a.(primary_source) <= source_priority b.(primary_source))%N.
Proof. unfold candidate_beats. rewrite orb_false_iff, N.ltb_ge. lia. Qed.
Lemma beats_asym a b : candidate_beats a b = true -> candidate_beats b a = false.
Proof.
  intros H%candidate_beats_iff. apply not_true_iff_false. rewrite candidate_beats_iff, (cmp_antisym beats_cmp a b), H. done.
Qed.

(** ** The reference: fold the candidates of each name *)

Section reference.
Context {T : Type}.
Local Abbreviation cand := (PipelineCandidate T).
(** The later candidate is merged into the earlier one, or takes its place. *)
Definition absorb (kept current : cand) : cand :=
  if candidate_beats current.(evidence) kept.(evidence)
  then with_evidence current (merge_from current.(evidence) kept.(evidence))
  else with_evidence kept (merge_from kept.(evidence) current.(evidence)).
Definition absorb_all (kept : option cand) (current : cand) : option cand :=
  match kept with None => Some current | Some k => Some (absorb k current) end.
Definition named (name : string) (cs : list cand) : list cand := List.filter (fun c => String.eqb c.(pc_name) name) cs.
Definition winner (cs : list cand) (name : string) : option cand := foldl absorb_all None (named name cs).
Definition distinct_names (cs : list cand) : list string := retain_new id ∅ (pc_name <$> cs).
Definition reference_merge (cs : list cand) : list cand := omap (winner cs) (distinct_names cs).

Lemma absorb_name k c : k.(pc_name) = c.(pc_name) -> (absorb k c).(pc_name) = c.(pc_name).
Proof. intros E. unfold absorb. by case_match. Qed.
Lemma winner_snoc cs c name : winner (cs ++ [c]) name =
  if String.eqb c.(pc_name) name then absorb_all (winner cs name) c else winner cs name.
Proof.
  unfold winner, named. rewrite List.filter_app. cbn [List.filter]. destruct (String.eqb _ name); [|by rewrite app_nil_r].
  by rewrite foldl_app.
Qed.
Lemma winner_name cs name w : winner cs name = Some w -> w.(pc_name) = name.
Proof.
  revert w. induction cs as [|c cs IH] using rev_ind; intros w; [done|]. rewrite winner_snoc.
  destruct (String.eqb_spec c.(pc_name) name) as [E|E]; [|apply IH]. unfold absorb_all.
  destruct (winner cs name) as [k|]; intros [= <-]; [|done]. rewrite absorb_name; [done|]. by rewrite (IH k).
Qed.
Lemma winner_None cs name : winner cs name = None <-> forall c, c ∈ cs -> c.(pc_name) <> name.
Proof.
  induction cs as [|c cs IH] using rev_ind; [split; [by intros _ c ?%elem_of_nil|done]|]. rewrite winner_snoc.
  destruct (String.eqb_spec c.(pc_name) name) as [E|E].
  - split; [by destruct (winner cs name)|]. intros H. exfalso. apply (H c); [apply elem_of_app; right; by left|done].
  - rewrite IH. split; [|set_solver]. intros H d [Hd| ->%list_elem_of_singleton]%elem_of_app; [by apply H|done].
Qed.

(** The loop after [n] candidates. *)
Record merged (cs : list cand) (n : nat) (best : gmap string nat) (survivors : list (option cand)) : Prop := {
  mg_length : length survivors = length cs;
  mg_best name : match best !! name with
                 | Some j => (j < n)%nat /\ exists w, winner (take n cs) name = Some w /\ survivors !! j = Some (Some w)
                 | None => winner (take n cs) name = None
                 end;
  mg_index j w : survivors !! j = Some (Some w) -> (j < n)%nat -> best !! w.(pc_name) = Some j;
  mg_rest j : (n <= j)%nat -> survivors !! j = Some <$> cs !! j;
}.
Lemma merge_step_merged cs n best survivors : (n < length cs)%nat -> merged cs n best survivors ->
  exists best' survivors', merge_step (best, survivors) n = Some (best', survivors') /\ merged cs (S n) best' survivors'.
Proof.
  intros Hn [Hl Hb Hi Hr]. destruct (lookup_lt_is_Some_2 cs n Hn) as [c Hc].
  pose proof (Hr n ltac:(lia)) as Hsn. rewrite Hc in Hsn. cbn [fmap option_fmap option_map] in Hsn.
  unfold merge_step. rewrite Hsn. cbn [mbind option_bind].
  assert (forall name, winner (take (S n) cs) name = if String.eqb c.(pc_name) name then absorb_all (winner (take n cs) name) c else winner (take n cs) name) as Hw.
  { intros name. by rewrite (take_S_r _ _ _ Hc), winner_snoc. }
  pose proof (Hb c.(pc_name)) as Hbc. destruct (best !! pc_name c) as [j|] eqn:Ej.
  - destruct Hbc as (Hj & w & Hwin & Hsj). rewrite Hsj. cbn [mjoin option_join mbind option_bind].
    assert (w.(pc_name) = c.(pc_name)) as Hwn by (by eapply winner_name).
    assert (absorb_all (winner (take n cs) c.(pc_name)) c = Some (absorb w c)) as Ha by (by rewrite Hwin).
    unfold absorb in Ha. destruct (candidate_beats c.(evidence) w.(evidence)).
    + eexists _, _. split; [done|]. split.
      * by rewrite !length_insert.
      * intros name. rewrite Hw. destruct (String.eqb_spec c.(pc_name) name) as [<-|E].
        -- rewrite lookup_insert_eq. split; [lia|]. eexists. split; [exact Ha|]. apply list_lookup_insert_eq. rewrite length_insert. lia.
        -- rewrite lookup_insert_ne by done. specialize (Hb name). destruct (best !! name) as [k|] eqn:Ek; [|done].
           destruct Hb as (Hk & v & Hv & Hsk). split; [lia|]. exists v. split; [done|].
           assert (k <> j) as Hkj. { intros ->. rewrite Hsj in Hsk. injection Hsk as <-. apply winner_name in Hv. congruence. }
           by rewrite !list_lookup_insert_ne by lia.
      * intros k v Hk Hkn. destruct (decide (k = n)) as [->|Hkn'].
        -- rewrite list_lookup_insert_eq in Hk by (rewrite length_insert; lia). injection Hk as <-. cbn. by rewrite lookup_insert_eq.
        -- rewrite list_lookup_insert_ne in Hk by done. destruct (decide (k = j)) as [->|Hkj].
           ++ rewrite list_lookup_insert_eq in Hk by lia. done.
           ++ rewrite list_lookup_insert_ne in Hk by done. pose proof (Hi k v Hk ltac:(lia)) as Hv.
              rewrite lookup_insert_ne; [done|]. intros E. rewrite <- E in Hv. congruence.
      * intros k Hk. rewrite !list_lookup_insert_ne by lia. apply Hr. lia.
    + eexists _, _. split; [done|]. split.
      * by rewrite !length_insert.
      * intros name. rewrite Hw. destruct (String.eqb_spec c.(pc_name) name) as [<-|E].
        -- rewrite Ej. split; [lia|]. eexists. split; [exact Ha|]. apply list_lookup_insert_eq. rewrite length_insert. lia.
        -- specialize (Hb name). destruct (best !! name) as [k|] eqn:Ek; [|done].
           destruct Hb as (Hk & v & Hv & Hsk). split; [lia|]. exists v. split; [done|].
           assert (k <> j) as Hkj. { intros ->. rewrite Hsj in Hsk. injection Hsk as <-. apply winner_name in Hv. congruence. }
           by rewrite !list_lookup_insert_ne by lia.
      * intros k v Hk Hkn. destruct (decide (k = j)) as [->|Hkj].
        -- rewrite list_lookup_insert_eq in Hk by (rewrite length_insert; lia). injection Hk as <-. cbn. by rewrite Hwn.
        -- rewrite list_lookup_insert_ne in Hk by done. destruct (decide (k = n)) as [->|Hkn'].
           ++ rewrite list_lookup_insert_eq in Hk by lia. done.
           ++ rewrite list_lookup_insert_ne in Hk by done. apply (Hi k v Hk). lia.
      * intros k Hk. rewrite !list_lookup_insert_ne by lia. apply Hr. lia.
  - eexists _, _. split; [done|]. split; [done|..].
    + intros name. rewrite Hw. destruct (String.eqb_spec c.(pc_name) name) as [<-|E].
      * rewrite lookup_insert_eq, Hbc. split; [lia|]. by exists c.
      * rewrite lookup_insert_ne by done. specialize (Hb name). destruct (best !! name); [|done]. destruct Hb as [? ?]. split; [lia|done].
    + intros k v Hk Hkn. destruct (decide (k = n)) as [->|Hkn'].
      * rewrite Hsn in Hk. injection Hk as <-. by rewrite lookup_insert_eq.
      * pose proof (Hi k v Hk ltac:(lia)) as Hv. rewrite lookup_insert_ne; [done|]. intros E. congruence.
    + intros k Hk. apply Hr. lia.
Qed.
Lemma merged_start cs : merged cs 0 ∅ (Some <$> cs).
Proof.
  split; [apply length_fmap|..].
  - intros name. by rewrite lookup_empty.
  - intros j w _ ?. lia.
  - intros j _. apply list_lookup_fmap.
Qed.
Lemma merge_loop cs n : (n <= length cs)%nat -> exists best survivors,
  foldl (fun st i => st ← st; merge_step st i) (Some (∅, Some <$> cs)) (seq 0 n) = Some (best, survivors) /\ merged cs n best survivors.
Proof.
  induction n as [|n IH]; intros Hn; [exists ∅, (Some <$> cs); split; [done|apply merged_start]|].
  destruct IH as (best & survivors & E & Hm); [lia|]. rewrite seq_S, foldl_app, E. cbn [foldl mbind option_bind].
  apply merge_step_merged; [lia|done].
Qed.
Lemma distinct_names_spec cs : NoDup (distinct_names cs) /\ forall name, name ∈ distinct_names cs <-> exists c, c ∈ cs /\ c.(pc_name) = name.
Proof.
  unfold distinct_names. split.
  - pose proof (retain_new_nodup id ∅ (pc_name <$> cs)) as H. by rewrite list_fmap_id in H.
  - intros name. split.
    + intros [(c & -> & Hc)%list_elem_of_fmap _]%retain_new_unseen. by exists c.
    + intros (c & Hc & <-). destruct (retain_new_covers id ∅ (pc_name <$> cs) c.(pc_name)) as [?%elem_of_empty|(y & Hy & E)]; [|done|].
      * apply list_elem_of_fmap. by exists c.
      * simpl in E. by subst y.
Qed.
Lemma elem_of_reference cs w : w ∈ reference_merge cs <-> winner cs w.(pc_name) = Some w.
Proof.
  unfold reference_merge. rewrite list_elem_of_omap. split.
  - intros (name & _ & Hw). by rewrite (winner_name _ _ _ Hw).
  - intros Hw. exists w.(pc_name). split; [|done]. apply distinct_names_spec.
    destruct (decide (Exists (fun c => c.(pc_name) = w.(pc_name)) cs)) as [Hex|Hno]; [by apply Exists_exists in Hex|]. exfalso.
    assert (winner cs w.(pc_name) = None) as E; [|congruence]. apply winner_None. intros c Hc Hn. apply Hno, Exists_exists. by exists c.
Qed.
Lemma reference_nodup cs : NoDup (pc_name <$> reference_merge cs).
Proof.
  unfold reference_merge. destruct (distinct_names_spec cs) as [Hn _]. induction Hn as [|name l Hname _ IH]; [constructor|].
  cbn [omap list_omap]. destruct (winner cs name) as [w|] eqn:E; [|done]. rewrite fmap_cons. constructor; [|done].
  rewrite (winner_name _ _ _ E). intros (v & Hv & (name' & Hin & Hw)%list_elem_of_omap)%list_elem_of_fmap.
  apply winner_name in Hw. congruence.
Qed.
(** The in-place loop is the reference: it never fails and leaves the same candidates. *)
Lemma merge_candidates_reference cs : exists kept, merge_candidates cs = Some kept /\ kept ≡ₚ reference_merge cs /\ NoDup (pc_name <$> kept).
Proof.
  unfold merge_candidates. destruct (merge_loop cs (length cs) ltac:(done)) as (best & survivors & -> & [Hl Hb Hi _]).
  rewrite firstn_all in Hb. cbn [mbind option_bind snd]. eexists. split; [done|].
  assert (forall w, w ∈ omap id survivors <-> winner cs w.(pc_name) = Some w) as Hin.
  { intros w. rewrite list_elem_of_omap. split.
    - intros (o & Ho & Eo). cbn in Eo. subst o. apply list_elem_of_lookup in Ho as [j Hj].
      pose proof (Hi j w Hj ltac:(apply lookup_lt_Some in Hj; lia)) as E. specialize (Hb w.(pc_name)). rewrite E in Hb.
      destruct Hb as (_ & v & Hv & Hs). congruence.
    - intros Hw. specialize (Hb w.(pc_name)). destruct (best !! pc_name w) as [j|]; [|congruence].
      destruct Hb as (_ & v & Hv & Hs). exists (Some w). split; [|done]. apply list_elem_of_lookup. exists j. congruence. }
  assert (NoDup (pc_name <$> omap id survivors)) as Hnd.
  { apply NoDup_alt. intros a b x Ha Hb'. clear Hin.
    assert (forall (l : list (option cand)) i y, (pc_name <$> omap id l) !! i = Some y ->
      exists j w, l !! j = Some (Some w) /\ w.(pc_name) = y /\ length (omap id (take j l)) = i) as Hpos.
    { induction l as [|[w|] l IHl]; intros i y; [done|..]; cbn [omap list_omap id].
      - destruct i as [|i]; [intros [= <-]; by exists 0, w|]. intros (j & v & ? & ? & <-)%IHl. by exists (S j), v.
      - intros (j & v & ? & ? & <-)%IHl. by exists (S j), v. }
    apply Hpos in Ha as (j & w & Hj & Hw & <-). apply Hpos in Hb' as (k & v & Hk & Hv & <-).
    pose proof (Hi j w Hj ltac:(apply lookup_lt_Some in Hj; lia)) as E1.
    pose proof (Hi k v Hk ltac:(apply lookup_lt_Some in Hk; lia)) as E2. rewrite Hw in E1. rewrite Hv in E2. congruence. }
  split; [|done]. apply NoDup_Permutation.
  - by eapply NoDup_fmap_1.
  - eapply NoDup_fmap_1, reference_nodup.
  - intros w. by rewrite Hin, elem_of_reference.
Qed.

(** ** Ordering *)

#[export] Instance compare_name_match_lawful p policy : LawfulCmp (compare_name_match p policy).
Proof.
  destruct policy; [|split; [done|]; intros x y z _ _; done].
  exact (cmp_rev_lawful (cmp_on (fun n => class_rank (name_match_class p n)) N.compare)).
Qed.
#[export] Instance display_cmp_lawful ctx : LawfulCmp (display_cmp (T := T) ctx) := _.
Lemma display_cmp_name ctx (a b : cand) : display_cmp ctx a b = Eq -> a.(pc_name) = b.(pc_name).
Proof. unfold display_cmp. rewrite !cmp_lex_eq. intros (_ & _ & _ & _ & _ & H). by apply string_compare_eq. Qed.
End reference.

(** ** Properties *)

(** C16 The pipeline never fails and returns what a plain reading of it says: group the
    candidates by name, fold each group in input order with the merge, score every
    result, sort by display order, keep the first [limit]. So every name is offered at
    most once, and neither the map from names to positions nor the holes in the
    survivors can be seen. Under the strict policy exact names come before prefixes and
    those before the rest. *)
Theorem pipeline_exact {T} blake3 (candidates : list (PipelineCandidate T)) limit ctx :
  exists out, run_evidence_aware_pipeline_with_context blake3 candidates limit ctx = Some out /\
    out.(items) = take limit (sort_by (display_cmp ctx)
      ((fun c => with_evidence c (rescore blake3 c.(pc_name) ctx c.(evidence))) <$> reference_merge candidates)) /\
    NoDup (pc_name <$> out.(items)) /\
    out.(metrics).(after_dedup_total) = length (distinct_names candidates) /\
    (ctx.(prefix_ranking) = Strict -> forall i j a b, (i < j)%nat -> out.(items) !! i = Some a -> out.(items) !! j = Some b ->
       (class_rank (name_match_class ctx.(prefix) b.(pc_name)) <= class_rank (name_match_class ctx.(prefix) a.(pc_name)))%N).
Proof.
  unfold run_evidence_aware_pipeline_with_context.
  destruct (merge_candidates_reference candidates) as (kept & -> & Hp & Hn). cbn [mbind option_bind]. eexists. split; [done|].
  cbn [items metrics after_dedup_total]. set (score_of := fun c => with_evidence c _).
  assert (forall l : list (PipelineCandidate T), pc_name <$> (score_of <$> l) = pc_name <$> l) as Hnames.
  { intros l. by rewrite <- list_fmap_compose. }
  assert (NoDup (pc_name <$> (score_of <$> kept))) as Hn' by (by rewrite Hnames).
  assert (sort_by (display_cmp ctx) (score_of <$> kept) = sort_by (display_cmp ctx) (score_of <$> reference_merge candidates)) as Hs.
  { apply sort_by_canonical_on; [apply _| |by f_equiv]. intros x y Hx Hy E%display_cmp_name.
    apply list_elem_of_lookup in Hx as [i Hi], Hy as [j Hj].
    assert (i = j) as ->; [|congruence]. eapply (NoDup_lookup _ _ _ _ Hn'); rewrite list_lookup_fmap.
    - by rewrite Hi.
    - by rewrite Hj, E. }
  split_conj.
  - by rewrite Hs.
  - eapply NoDup_of_submseteq; [apply sublist_submseteq, fmap_sublist, sublist_take|]. by rewrite sort_by_perm.
  - rewrite length_fmap, Hp. unfold reference_merge.
    destruct (distinct_names_spec candidates) as [_ Hd]. revert Hd. generalize (distinct_names candidates). intros l Hd.
    assert (forall name, name ∈ l -> winner candidates name <> None) as Hw.
    { intros name (c & Hc & <-)%Hd. rewrite winner_None. intros H. by apply (H c). }
    clear Hd. induction l as [|name l IH]; [done|]. cbn [omap list_omap]. destruct (winner candidates name) eqn:E.
    + cbn [length]. f_equal. apply IH. intros n Hin. apply Hw. by right.
    + exfalso. apply (Hw name); [left|done].
  - intros Hpol i j a b Hij Ha Hb. apply lookup_take_Some in Ha as [Ha _], Hb as [Hb _].
    pose proof (StronglySorted_lookup _ _ i j a b (sort_by_sorted (display_cmp ctx) _) Ha Hb Hij) as Hle.
    unfold cmp_le, display_cmp, cmp_lex at 1, cmp_on at 1, compare_name_match, cmp_then in Hle. rewrite Hpol in Hle.
    destruct (N.compare_spec (class_rank (name_match_class ctx.(prefix) b.(pc_name))) (class_rank (name_match_class ctx.(prefix) a.(pc_name)))); [lia|lia|done].
Qed.

(** [w] has the largest value of [f] in [l]. *)
Definition largest {A} (f : A -> Z) (l : list A) (w : A) : Prop :=
  (exists c, c ∈ l /\ f c = f w) /\ forall c, c ∈ l -> (f c <= f w)%Z.
Definition tier_value {T} (c : PipelineCandidate T) : Z := tier_rank c.(evidence).(ev_tier).
Definition confidence_value {T} (c : PipelineCandidate T) : Z := Z.of_N (confidence_rank c.(evidence).(ev_confidence)).
Definition priority_value {T} (c : PipelineCandidate T) : Z := Z.of_N (source_priority c.(evidence).(primary_source)).
Definition evidence_values {T} : list (PipelineCandidate T -> Z) :=
  [tier_value; confidence_value; priority_value; fun c => c.(evidence).(score); fun c => c.(evidence).(match_score);
   fun c => c.(evidence).(locality_score); fun c => c.(evidence).(proximity_score); fun c => c.(evidence).(project_score)].
Definition source_flags : list (EvidenceSources -> bool) :=
  [es_indexed; es_local_binding; es_current_file_overlay; es_language_builtin; es_local_word; es_lexical_fallback].

Section winners.
Context {T : Type}.
Local Abbreviation cand := (PipelineCandidate T).
Lemma tier_max_rank a b : tier_rank (tier_max a b) = Z.max (tier_rank a) (tier_rank b).
Proof. by destruct a, b. Qed.
Lemma confidence_max_rank a b : confidence_rank (confidence_max a b) = N.max (confidence_rank a) (confidence_rank b).
Proof. by destruct a, b. Qed.
Lemma absorb_value (k c : cand) f : f ∈ evidence_values (T := T) -> f (absorb k c) = Z.max (f k) (f c).
Proof.
  unfold evidence_values. rewrite !elem_of_cons, elem_of_nil.
  assert (forall e e' : CandidateEvidence, candidate_beats e e' = true -> candidate_beats e' e = false) as Hasym by apply beats_asym.
  unfold absorb. destruct (candidate_beats (evidence c) (evidence k)) eqn:E.
  - pose proof (Hasym _ _ E) as E'. pose proof (beats_source _ _ E) as Hs.
    intros [->|[->|[->|[->|[->|[->|[->|[->|[]]]]]]]]]; unfold tier_value, confidence_value, priority_value; cbn [evidence with_evidence merge_from ev_tier ev_confidence primary_source score match_score locality_score proximity_score project_score]; rewrite ?E', ?tier_max_rank, ?confidence_max_rank; lia.
  - pose proof (not_beats_source _ _ E) as Hs.
    intros [->|[->|[->|[->|[->|[->|[->|[->|[]]]]]]]]]; unfold tier_value, confidence_value, priority_value; cbn [evidence with_evidence merge_from ev_tier ev_confidence primary_source score match_score locality_score proximity_score project_score]; rewrite ?E, ?tier_max_rank, ?confidence_max_rank; lia.
Qed.
Lemma absorb_flag (k c : cand) f : f ∈ source_flags -> f (absorb k c).(evidence).(sources) = f k.(evidence).(sources) || f c.(evidence).(sources).
Proof.
  unfold source_flags, absorb. rewrite !elem_of_cons, elem_of_nil.
  intros [->|[->|[->|[->|[->|[->|[]]]]]]]; destruct (candidate_beats _ _); cbn; try done; apply orb_comm.
Qed.
Lemma absorb_payload (k c : cand) : exists x, (x = k \/ x = c) /\ (absorb k c).(payload) = x.(payload) /\
  priority_value (absorb k c) = priority_value x.
Proof.
  unfold absorb. destruct (candidate_beats (evidence c) (evidence k)) eqn:E.
  - exists c. split; [by right|]. split; [done|]. unfold priority_value. cbn. by rewrite (beats_asym _ _ E).
  - exists k. split; [by left|]. split; [done|]. unfold priority_value. cbn. by rewrite E.
Qed.
Lemma winner_facts (l : list cand) w : foldl absorb_all None l = Some w ->
  (forall f, f ∈ evidence_values (T := T) -> largest f l w) /\
  (forall f, f ∈ source_flags -> f w.(evidence).(sources) = existsb (fun c => f c.(evidence).(sources)) l) /\
  (exists c, c ∈ l /\ c.(payload) = w.(payload) /\ priority_value c = priority_value w).
Proof.
  revert w. induction l as [|c l IH] using rev_ind; intros w; [done|]. rewrite foldl_app. cbn [foldl].
  destruct (foldl absorb_all None l) as [k|] eqn:E; cbn [absorb_all]; intros [= <-].
  - destruct (IH k eq_refl) as (Hv & Hs & x & Hx & Hp & Hpv). split_conj.
    + intros f Hf. unfold largest. rewrite (absorb_value k c f Hf). destruct (Hv f Hf) as [(d & Hd & Ed) Hle]. split.
      * destruct (Z.max_spec (f k) (f c)) as [[_ ->]|[_ ->]]; [exists c|exists d]; set_solver.
      * intros d' [Hd'%Hle| ->%list_elem_of_singleton]%elem_of_app; lia.
    + intros f Hf. rewrite (absorb_flag k c f Hf), (Hs f Hf), existsb_app. cbn. by rewrite orb_false_r.
    + destruct (absorb_payload k c) as (y & [->| ->] & E1 & E2).
      * exists x. split; [set_solver|]. split; congruence.
      * exists c. split; [set_solver|]. split; congruence.
  - assert (l = []) as ->.
    { destruct l as [|d l] using rev_ind; [done|]. rewrite foldl_app in E. cbn in E. by destruct (foldl absorb_all None l). }
    cbn [app]. split_conj.
    + intros f _. split; [exists c; split; [left|done]|]. intros d ->%list_elem_of_singleton. lia.
    + intros f _. cbn. by rewrite orb_false_r.
    + exists c. split; [left|done].
Qed.
End winners.

(** What is offered for a name sums up its evidence: tier, confidence, source priority and
    every score are the largest among the candidates of that name, a source is recorded
    exactly when one of them has it, and the item shown is one whose source has the
    highest priority. *)
Theorem merged_evidence_exact {T} (candidates : list (PipelineCandidate T)) kept w :
  merge_candidates candidates = Some kept -> w ∈ kept ->
  let group := named w.(pc_name) candidates in
  (forall f, f ∈ evidence_values -> largest f group w) /\
  (forall f, f ∈ source_flags -> f w.(evidence).(sources) = existsb (fun c => f c.(evidence).(sources)) group) /\
  (exists c, c ∈ group /\ c.(payload) = w.(payload) /\ priority_value c = priority_value w).
Proof.
  intros E Hw group. destruct (merge_candidates_reference candidates) as (kept' & E' & Hp & _). rewrite E in E'. injection E' as <-.
  rewrite Hp, elem_of_reference in Hw. by apply winner_facts.
Qed.

(** ** The guard *)

Lemma clamp_bounds z lo hi : (lo <= hi)%Z -> (lo <= clamp z lo hi <= hi)%Z.
Proof. intros H. unfold clamp. destruct (Z.ltb_spec z lo); [lia|]. destruct (Z.ltb_spec hi z); lia. Qed.
Lemma i32_wrap_small z : (-2147483648 <= z < 2147483648)%Z -> i32_wrap z = z.
Proof. intros H. unfold i32_wrap. rewrite Z.mod_small by lia. lia. Qed.
Lemma intent_adjustment_bounds e i : (-5000 <= intent_adjustment e i <= 2500)%Z /\
  (e.(ev_tier) <> TierGlobal -> e.(primary_source) <> LanguageBuiltin -> (-450 <= intent_adjustment e i)%Z).
Proof.
  assert (forall a lo hi, (lo <= 0 <= hi)%Z -> (lo <= a <= hi)%Z -> (lo <= Z.quot a 2 <= hi)%Z /\ (lo <= Z.quot a 4 <= hi)%Z) as Hq.
  { intros a lo hi Hz Ha. Z.to_euclidean_division_equations. lia. }
  assert ((-5000 <= base_adjustment e i.(in_kind) <= 2500)%Z /\
    (e.(ev_tier) <> TierGlobal -> e.(primary_source) <> LanguageBuiltin -> (-450 <= base_adjustment e i.(in_kind) <= 2500)%Z)) as [Hb Hs].
  { unfold base_adjustment, INTENT_STRONG_MATCH, INTENT_MEDIUM_MATCH, INTENT_BOUNDED_DEMOTION, DECLARATION_GLOBAL_REUSE_DEMOTION.
    destruct (in_kind i); try (destruct (ev_candidate_kind e); lia).
    destruct (_ || _ || _); [lia|]. destruct (bool_decide (primary_source e = LanguageBuiltin) || _) eqn:E; [|lia]. split; [lia|].
    intros Ht Hp. exfalso. rewrite orb_true_iff, andb_true_iff, !bool_decide_eq_true in E. naive_solver. }
  unfold intent_adjustment. destruct (bool_decide _); [lia|].
  destruct (Hq (base_adjustment e (in_kind i)) (-5000)%Z 2500%Z ltac:(lia) Hb) as [H2 H4].
  destruct (in_confidence i); (split; [lia|]); intros Ht Hp; specialize (Hs Ht Hp);
    destruct (Hq (base_adjustment e (in_kind i)) (-450)%Z 2500%Z ltac:(lia) Hs); lia.
Qed.
Lemma history_adjustment_bounds blake3 label e ctx : (forall k kind i b, (accept_count ctx.(history) k kind i b <= 4096)%N) ->
  (0 <= history_adjustment blake3 label e ctx <= 700)%Z.
Proof.
  intros Hc. unfold history_adjustment. destruct (_ || _); [lia|]. unfold HISTORY_REPEAT_STEP, HISTORY_MAX_BOOST.
  match goal with |- context [accept_count ?h ?k ?a ?i ?b] => specialize (Hc k a i b); set (n := accept_count h k a i b) in * end.
  rewrite (i32_wrap_small (Z.of_N n)) by lia. rewrite i32_wrap_small by lia. lia.
Qed.
Definition score_fits (e : CandidateEvidence) : Prop := (-1000000000 <= e.(match_score) <= 1000000000)%Z.
Lemma rescore_guarded blake3 label ctx e : is_guarded_low_trust e = true -> ((rescore blake3 label ctx e).(score) <= 8350)%Z.
Proof.
  intros Hg. unfold rescore. set (h := history_adjustment blake3 label e ctx).
  change (is_guarded_low_trust (with_scores e (score e) h)) with (is_guarded_low_trust e). rewrite Hg. cbn [with_scores score project_score].
  pose proof (clamp_bounds e.(project_score) 0 PROJECT_CONTEXT_MAX_BOOST ltac:(unfold PROJECT_CONTEXT_MAX_BOOST; lia)).
  unfold LOW_TRUST_GLOBAL_TEXT_CAP_BELOW_REACHABLE, PROJECT_CONTEXT_MAX_BOOST in *. lia.
Qed.
Lemma rescore_unguarded blake3 label ctx e : is_guarded_low_trust e = false ->
  (rescore blake3 label ctx e).(score) = final_rank_score (with_scores e e.(score) (history_adjustment blake3 label e ctx)) ctx.
Proof.
  intros Hg. unfold rescore. set (h := history_adjustment blake3 label e ctx).
  change (is_guarded_low_trust (with_scores e (score e) h)) with (is_guarded_low_trust e). by rewrite Hg.
Qed.
(** Low trust never hides evidence: a global candidate known only from text or as a
    fallback ends below every candidate of the index, the open file or the scope that is
    current, reachable or directly included, whatever the two match scores, the intent
    and a history of at most the kept accepts say, and no score overflows. *)
Theorem guard_below_reachable blake3 ctx low high low_name high_name :
  (forall k kind i b, (accept_count ctx.(history) k kind i b <= 4096)%N) ->
  score_fits high ->
  is_guarded_low_trust low = true ->
  (tier_rank TierExternal <= tier_rank high.(ev_tier))%Z -> (source_priority Indexed <= source_priority high.(primary_source))%N ->
  (0 <= high.(match_score))%Z ->
  ((rescore blake3 low_name ctx low).(score) < (rescore blake3 high_name ctx high).(score))%Z.
Proof.
  intros Hh Hf Hg Ht Hs Hm. unfold score_fits in *.
  pose proof (rescore_guarded blake3 low_name ctx low Hg) as Hlow.
  assert (is_guarded_low_trust high = false) as Hng.
  { unfold is_guarded_low_trust. by destruct (ev_tier high). }
  rewrite (rescore_unguarded blake3 high_name ctx high Hng).
  pose proof (history_adjustment_bounds blake3 high_name high ctx Hh) as Hb.
  set (h := history_adjustment blake3 high_name high ctx) in *.
  assert (high.(ev_tier) <> TierGlobal /\ high.(primary_source) <> LanguageBuiltin) as [Hnt Hns].
  { split; intros E; rewrite E in *; cbn in *; lia. }
  destruct (intent_adjustment_bounds (with_scores high (score high) h) (intent ctx)) as [Hi1 Hi2]. specialize (Hi2 Hnt Hns).
  unfold final_rank_score. cbn [with_scores primary_source ev_tier ev_confidence match_score proximity_score project_score history_score].
  pose proof (clamp_bounds high.(proximity_score) 0 PROXIMITY_SCORE_CAP ltac:(unfold PROXIMITY_SCORE_CAP; lia)) as Hc1.
  pose proof (clamp_bounds high.(project_score) 0 PROJECT_CONTEXT_MAX_BOOST ltac:(unfold PROJECT_CONTEXT_MAX_BOOST; lia)) as Hc2.
  assert (5000 <= source_prior high.(primary_source) <= 12000)%Z as Hsp by (destruct (primary_source high); simpl in Hs |- *; unfold SOURCE_INDEXED, SOURCE_LOCAL_BINDING, SOURCE_CURRENT_FILE_OVERLAY in *; lia).
  assert (4200 <= scope_prior high.(ev_tier) <= 6000)%Z as Htp by (destruct (ev_tier high); simpl in Ht |- *; unfold SCOPE_CURRENT, SCOPE_REACHABLE, SCOPE_EXTERNAL in *; lia).
  assert (0 <= confidence_prior high.(ev_confidence) <= 2000)%Z as Hcp by (destruct (ev_confidence high); simpl; unfold CONFIDENCE_EXACT, CONFIDENCE_REACHABLE, CONFIDENCE_HEURISTIC, CONFIDENCE_AMBIGUOUS, CONFIDENCE_FALLBACK; lia).
  unfold PROXIMITY_SCORE_CAP, PROJECT_CONTEXT_MAX_BOOST in *. rewrite i32_wrap_small by lia. lia.
Qed.

(** ** Examples *)

Definition demo_evidence (source : CandidateSource) (tier : ScopeTier) (project : Z) : CandidateEvidence :=
  mkEvidence source (sources_single source) source tier Heuristic 100 100 0 0 project CkFunction None (Some 0%N) 0.
Definition demo_candidate (name : string) (source : CandidateSource) (tier : ScopeTier) (project : Z) (id : nat) : PipelineCandidate nat :=
  mkPipeline name (demo_evidence source tier project) id.
Definition demo_reachable : PipelineCandidate nat := demo_candidate "open" Indexed TierReachable 0 1.
Definition demo_project : PipelineCandidate nat := demo_candidate "open" Indexed TierGlobal 350 2.
Definition demo_both : PipelineCandidate nat := demo_candidate "open" Indexed TierReachable 350 3.
(** Merged evidence takes the tier of one candidate and the project of another, so a third
    one that has both no longer beats it: which item is shown depends on the input order. *)
Example merge_depends_on_order :
  (option_map (List.map payload) (merge_candidates [demo_reachable; demo_project; demo_both]),
   option_map (List.map payload) (merge_candidates [demo_reachable; demo_both; demo_project])) = (Some [1], Some [3]).
Proof. vm_compute. reflexivity. Qed.

Lemma merged_evidence_exact_witness :
  exists c, c ∈ [demo_reachable; demo_project] /\ c.(payload) = 1 /\ priority_value c = 3%Z.
Proof.
  exact (proj2 (proj2 (merged_evidence_exact [demo_reachable; demo_project]
    [with_evidence demo_reachable (merge_from demo_reachable.(evidence) demo_project.(evidence))]
    (with_evidence demo_reachable (merge_from demo_reachable.(evidence) demo_project.(evidence))) eq_refl ltac:(by left)))).
Defined.
Definition demo_context : CompletionRankContext := mkRankContext (mkIntent CallTarget IntentHigh) true empty_snapshot "op" "op" Strict.
Definition demo_word : CandidateEvidence :=
  mkEvidence LocalWord (sources_single LocalWord) LocalWord TierGlobal Fallback 0 900000 0 0 0 CkText None None 0.
Lemma guard_below_reachable_witness :
  ((rescore (fun _ => []) "opened" demo_context demo_word).(score) < (rescore (fun _ => []) "open" demo_context demo_reachable.(evidence)).(score))%Z.
Proof.
  apply (guard_below_reachable (fun _ => []) demo_context demo_word demo_reachable.(evidence) "opened" "open").
  - intros k kind i b. vm_compute. discriminate.
  - vm_compute. split; discriminate.
  - reflexivity.
  - vm_compute. discriminate.
  - vm_compute. discriminate.
  - vm_compute. discriminate.
Defined.
