(* ===== verification/ProjectContext.v ===== *)
(** * Build-marker projects (project_context.rs, server/project_context_commands.rs)

    The directories that hold build markers are the projects of a root; a file belongs to the
    deepest one above it. The user selects one project, none, or the one of the open file; the
    selection is stored with an epoch and corrected against the projects of the current
    snapshots. *)

From S2P Require Import Prelude Searching Includes NameSegments IncludeTable.

Record ProjectContext : Type := mkProjectContext { key : ProjectKey; workspace_name : string; marker_files : list string }.
Inductive ProjectContextSelection : Type := Auto | Manual (selected : ProjectKey) | Unspecified.
#[export] Instance ProjectContextSelection_eq_dec : EqDecision ProjectContextSelection.
Proof. solve_decision. Defined.
Record ProjectContextIndex : Type := mkProjectIndex { index_root_id : string; index_workspace : string; projects : list ProjectContext }.
Record ProjectContextStatus : Type := mkStatus {
  available : bool; status_projects : list ProjectContext; selection : ProjectContextSelection;
  automatic_project : option ProjectKey; active_project : option ProjectKey;
}.

(** ** Paths of projects *)

Definition normalize_rel_slash (path : string) : string := trim_slashes (slashed path).
Definition path_depth (path : string) : nat := if String.eqb path "" then 0 else S (slash_count path).
Definition starts_with_slash (s : string) : bool := match s with String.String c _ => is_slash c | EmptyString => false end.
(** [path_spelling_eq] is equality on Unix. *)
Definition path_is_at_or_under (path ancestor : string) : bool :=
  if String.eqb ancestor "" then true
  else if String.eqb path ancestor then true
  else match strip_text ancestor path with Some rest => starts_with_slash rest | None => false end.
(** [max_by_key]: the last of the greatest. *)
Fixpoint max_by_key {A} (rank : A -> nat) (l : list A) : option A :=
  match l with
  | [] => None
  | x :: l => match max_by_key rank l with Some y => if (rank y <? rank x)%nat then Some x else Some y | None => Some x end
  end.

(** ** The index *)

Definition project_order : ProjectContext -> ProjectContext -> comparison :=
  cmp_lex (cmp_on (fun p => lower p.(key).(project_path)) String.compare) (cmp_on (fun p => p.(key).(project_path)) String.compare).
Definition new (root_id name : string) (ps : list ProjectContext) : ProjectContextIndex := mkProjectIndex root_id name (sort_by project_order ps).
Definition canonical_key (idx : ProjectContextIndex) (k : ProjectKey) : option ProjectKey :=
  if negb (String.eqb k.(workspace_root_id) idx.(index_root_id)) then None
  else key <$> List.find (fun p => String.eqb p.(key).(project_path) k.(project_path)) idx.(projects).
Definition nearest_for_file (idx : ProjectContextIndex) (rel_file_path : string) : option ProjectKey :=
  let normalized := normalize_rel_slash rel_file_path in
  key <$> max_by_key (fun p => path_depth p.(key).(project_path))
    (List.filter (fun p => path_is_at_or_under normalized p.(key).(project_path)) idx.(projects)).

Definition ends_with (suffix s : string) : bool :=
  (String.length suffix <=? String.length s)%nat && String.eqb (String.substring (String.length s - String.length suffix) (String.length suffix) s) suffix.
Definition is_supported_marker_file_name (file_name : string) : bool :=
  let name := lower file_name in
  bool_decide (name ∈ ["makefile"; "gnumakefile"; "cmakelists.txt"; "build.ninja"; "meson.build"; "build"; "build.bazel"; "workspace"; "workspace.bazel"; "go.mod"; "go.work"])
  || existsb (fun suffix => ends_with suffix name) [".pro"; ".sln"; ".vcxproj"; ".vcproj"].

(** [discover_project_contexts], given what the walk and the configuration let through: the
    directory and the name of each file. [dedup_by] compares with the element kept before. *)
Definition add_marker (m : gmap string (list string)) (file : string * string) : gmap string (list string) :=
  if is_supported_marker_file_name file.2 then push_map m (normalize_rel_slash file.1) file.2 else m.
Definition discover_project_contexts (root_id name : string) (walked : list (string * string)) : ProjectContextIndex :=
  let by_dir := foldl add_marker ∅ walked in
  new root_id name ((fun kv : string * list string =>
      mkProjectContext (mkProject root_id kv.1) name (dedup String.eqb (sort_by (cmp_on lower String.compare) kv.2))) <$> btree_entries by_dir).

(** ** The selection *)

(** What a request context offers here: its root, as components, and its project index. *)
Record RequestContext : Type := mkRequest { root : list string; project_context : option ProjectContextIndex }.
Fixpoint strip_components (root path : list string) : option (list string) :=
  match root, path with
  | [], _ => Some path
  | a :: root, b :: path => if String.eqb a b then strip_components root path else None
  | _ :: _, [] => None
  end.
Definition containing_context_for_uri (path : list string) (contexts : list RequestContext) : option (RequestContext * string) :=
  context ← max_by_key (fun c => length c.(root)) (List.filter (fun c => bool_decide (is_Some (strip_components c.(root) path))) contexts);
  rel ← strip_components context.(root) path;
  Some (context, String.concat "/" rel).
Definition automatic_project_for_uri (path : list string) (contexts : list RequestContext) : option ProjectKey :=
  '(context, rel) ← containing_context_for_uri path contexts;
  idx ← context.(project_context);
  nearest_for_file idx rel.
Definition canonical_project_key (contexts : list RequestContext) (k : ProjectKey) : option ProjectKey :=
  head (omap (fun c => idx ← c.(project_context); canonical_key idx k) contexts).

(** The stored selection with its epoch, which invalidates the completion memos. *)
Record Selected : Type := mkSelected { stored : ProjectContextSelection; selection_epoch : N }.
Definition store_selection (s : Selected) (sel : ProjectContextSelection) : Selected :=
  if bool_decide (s.(stored) = sel) then s else mkSelected sel (wrapping_add s.(selection_epoch) 1).
(** [effective_project_for_uri]: the selection and the epoch are read one after the other. *)
Definition effective_project (sel : ProjectContextSelection) (path : list string) (contexts : list RequestContext) : option ProjectKey :=
  match sel with
  | Auto => automatic_project_for_uri path contexts
  | Manual k => canonical_project_key contexts k
  | Unspecified => None
  end.
(** What [Manual] becomes when its project is gone or spelt otherwise. *)
Definition corrected (contexts : list RequestContext) (sel : ProjectContextSelection) : ProjectContextSelection :=
  match sel with
  | Manual k => match canonical_project_key contexts k with Some k => Manual k | None => Auto end
  | other => other
  end.
Definition status_order : ProjectContext -> ProjectContext -> comparison :=
  cmp_lex (cmp_on (fun p => lower p.(workspace_name)) String.compare) (cmp_on (fun p => lower p.(key).(project_path)) String.compare).
Definition project_context_status (contexts : list RequestContext) (path : option (list string)) (s : Selected) : ProjectContextStatus * Selected :=
  let automatic := path ≫= fun path => automatic_project_for_uri path contexts in
  let sel := corrected contexts s.(stored) in
  let s := store_selection s sel in
  let ps := sort_by status_order (concat ((fun c => match c.(project_context) with Some idx => idx.(projects) | None => [] end) <$> contexts)) in
  let active := match sel with Auto => automatic | Manual k => Some k | Unspecified => None end in
  (mkStatus (existsb (fun c => bool_decide (is_Some c.(project_context))) contexts) ps sel automatic active, s).
Definition set_project_context_selection (contexts : list RequestContext) (requested : ProjectContextSelection) (path : option (list string)) (s : Selected) :
    ProjectContextStatus * Selected :=
  project_context_status contexts path (store_selection s (corrected contexts requested)).

(** ** The deepest project above a file *)

Lemma max_by_key_spec {A} (rank : A -> nat) l : match max_by_key rank l with
  | Some x => x ∈ l /\ forall y, y ∈ l -> (rank y <= rank x)%nat
  | None => l = [] end.
Proof.
  induction l as [|x l IH]; [done|]. cbn [max_by_key]. destruct (max_by_key rank l) as [y|].
  - destruct IH as [Hy Hm]. destruct (Nat.ltb_spec (rank y) (rank x)) as [Hlt|Hge].
    + split; [by left|]. intros z [->|Hz]%elem_of_cons; [lia|]. specialize (Hm z Hz). lia.
    + split; [by right|]. intros z [->|Hz]%elem_of_cons; [lia|]. by apply Hm.
  - subst. split; [by left|]. by intros z ->%list_elem_of_singleton.
Qed.
Lemma slash_count_app a b : slash_count (a +:+ b) = (slash_count a + slash_count b)%nat.
Proof. induction a as [|c a IH]; [done|]. simpl. rewrite IH. lia. Qed.
Lemma strip_text_app p rest : strip_text p (p +:+ rest) = Some rest.
Proof. induction p as [|c p IH]; [done|]. simpl. by rewrite Ascii.eqb_refl. Qed.
Lemma strip_text_iff p s rest : strip_text p s = Some rest <-> s = p +:+ rest.
Proof. split; [apply strip_text_spec|]. intros ->. apply strip_text_app. Qed.
(** An ancestor is the root, or the path up to one of its slashes or its end. *)
Lemma under_iff path a : path_is_at_or_under path a = true <-> a = "" \/ exists rest, path = a +:+ rest /\ (rest = "" \/ starts_with_slash rest = true).
Proof.
  unfold path_is_at_or_under. destruct (String.eqb_spec a "") as [->|Ha]; [tauto|]. destruct (String.eqb_spec path a) as [->|Hp].
  - split; [|done]. intros _. right. exists "". by rewrite string_app_nil; split; [|left].
  - destruct (strip_text a path) as [rest|] eqn:E.
    + apply strip_text_spec in E as ->. split; [intros H; right; by exists rest; split; [|right]|]. intros [?|(r & E & [->|Hr])]; [done|..].
      * exfalso. by rewrite string_app_nil in E.
      * apply (inj (String.append a)) in E as ->. done.
    + split; [done|]. intros [?|(r & -> & _)]; [done|]. by rewrite strip_text_app in E.
Qed.
Lemma slash_tail (t q : string) : t <> "" -> starts_with_slash (t +:+ q) = true -> starts_with_slash t = true.
Proof. by destruct t. Qed.
Lemma starts_slash_count t : starts_with_slash t = true -> (1 <= slash_count t)%nat.
Proof. destruct t as [|c t]; [done|]. cbn. intros ->. lia. Qed.
(** Two ancestors of a path lie above each other; equally deep ones are the same. *)
Lemma ancestors_nested path a b : path_is_at_or_under path a = true -> path_is_at_or_under path b = true -> (path_depth a <= path_depth b)%nat ->
  path_is_at_or_under b a = true /\ (path_depth a = path_depth b -> a = b).
Proof.
  assert (forall (a t : string), a <> "" -> starts_with_slash t = true -> (path_depth a < path_depth (a +:+ t))%nat) as Hdeep.
  { intros a' t' Ha Ht. unfold path_depth. destruct (String.eqb_spec a' ""); [done|]. destruct (String.eqb_spec (a' +:+ t') ""); [by destruct a'|].
    rewrite slash_count_app. apply starts_slash_count in Ht. lia. }
  assert (forall a, path_depth a = 0 -> a = "") as Hzero by (intros a'; unfold path_depth; by destruct (String.eqb_spec a' "")).
  intros Ha Hb Hd. destruct (decide (a = "")) as [->|Hna].
  { split; [done|]. cbn. intros E. symmetry. by apply Hzero. }
  apply under_iff in Ha as [?|(r & -> & Hr)]; [done|]. apply under_iff in Hb as [->|(q & E & Hq)]; [cbn in Hd; assert (path_depth a = 0) by lia; by apply Hzero in H|].
  destruct (app_prefixes _ _ _ _ E) as [(t & -> & ->)|(t & -> & ->)].
  - assert (t = "" \/ starts_with_slash t = true) as [->|Ht].
    { destruct t as [|c t]; [by left|]. right. destruct Hr as [Hr|Hr]; [done|exact Hr]. }
    + split; [|by rewrite string_app_nil]. apply under_iff. right. exists "". by rewrite !string_app_nil; split; [|left].
    + split; [apply under_iff; right; exists t; by split; [|right]|]. specialize (Hdeep a t Hna Ht). lia.
  - destruct (decide (b = "")) as [->|Hb]; [cbn in Hd; by rewrite (Hzero (""+:+ t)) in Hna by lia|].
    assert (t = "" \/ starts_with_slash t = true) as [->|Ht].
    { destruct t as [|c t]; [by left|]. right. destruct Hq as [Hq|Hq]; [done|exact Hq]. }
    + rewrite string_app_nil. split; [|done]. apply under_iff. right. exists "". by rewrite string_app_nil; split; [|left].
    + specialize (Hdeep b t Hb Ht). lia.
Qed.

Definition marked (walked : list (string * string)) (d : string) : Prop :=
  exists w, w ∈ walked /\ is_supported_marker_file_name w.2 = true /\ normalize_rel_slash w.1 = d.
Lemma marked_snoc walked w d : marked (walked ++ [w]) d <-> marked walked d \/ is_supported_marker_file_name w.2 = true /\ normalize_rel_slash w.1 = d.
Proof.
  unfold marked. setoid_rewrite elem_of_app. setoid_rewrite list_elem_of_singleton. split.
  - intros (v & [Hv| ->] & H1 & H2); [left; by exists v|by right].
  - intros [(v & ? & ? & ?)|[H1 H2]]; [exists v; tauto|exists w; tauto].
Qed.
Lemma marked_dir walked d : is_Some (foldl add_marker ∅ walked !! d) <-> marked walked d.
Proof.
  induction walked as [|w walked IH] using rev_ind; [cbn; rewrite lookup_empty; split; [by intros [? ?]|by intros (? & ?%elem_of_nil & _)]|].
  rewrite foldl_app, marked_snoc, <- IH. cbn [foldl]. unfold add_marker at 1. destruct (is_supported_marker_file_name w.2); [|naive_solver].
  unfold push_map. rewrite lookup_insert_is_Some'. naive_solver.
Qed.
Section discovered.
Context (root_id name : string) (walked : list (string * string)).
Let idx := discover_project_contexts root_id name walked.
Lemma elem_of_discovered p : p ∈ idx.(projects) -> p.(key).(workspace_root_id) = root_id /\ marked walked p.(key).(project_path).
Proof.
  cbn. intros ([d files] & -> & H%elem_of_btree_entries)%elem_of_sort_by%list_elem_of_fmap. split; [done|]. cbn. apply marked_dir. by exists files.
Qed.
Lemma marked_discovered d : marked walked d -> exists p, p ∈ idx.(projects) /\ p.(key) = mkProject root_id d.
Proof.
  intros [files H]%marked_dir. eexists. split; [cbn; apply elem_of_sort_by, list_elem_of_fmap; exists (d, files); split; [reflexivity|]; by apply elem_of_btree_entries|done].
Qed.
End discovered.

(** A file belongs to the deepest directory with a build marker above it: the project
    found holds a marker and is above the file, and every marked directory above the file is
    above the project or is it; nothing is found only when no marked directory is above. *)
Theorem nearest_is_deepest root_id name walked rel :
  let file := normalize_rel_slash rel in
  match nearest_for_file (discover_project_contexts root_id name walked) rel with
  | Some k => k.(workspace_root_id) = root_id /\ marked walked k.(project_path) /\ path_is_at_or_under file k.(project_path) = true /\
      forall d, marked walked d -> path_is_at_or_under file d = true ->
        path_is_at_or_under k.(project_path) d = true /\ (path_depth d = path_depth k.(project_path) -> d = k.(project_path))
  | None => forall d, marked walked d -> path_is_at_or_under file d = false
  end.
Proof.
  intros file. unfold nearest_for_file. fold file. set (above := List.filter _ _). pose proof (max_by_key_spec (fun p => path_depth p.(key).(project_path)) above) as Hmax.
  destruct (max_by_key _ above) as [p|]; cbn [fmap option_fmap option_map].
  - destruct Hmax as [[Hp Ha]%elem_of_filter_bool Hm]. apply elem_of_discovered in Hp as [Hr Hmk]. split_and!; [done..|]. intros d Hd Hf.
    apply (ancestors_nested file); [done..|]. destruct (marked_discovered root_id name walked d Hd) as (q & Hq & Hk).
    specialize (Hm q). rewrite Hk in Hm. apply Hm. apply elem_of_filter_bool. by rewrite Hk.
  - intros d Hd. destruct (marked_discovered root_id name walked d Hd) as (q & Hq & Hk). apply not_true_iff_false. intros Hf.
    assert (q ∈ above) as Hin by (apply elem_of_filter_bool; by rewrite Hk). rewrite Hmax in Hin. by apply elem_of_nil in Hin.
Qed.

(** ** The stored selection *)

(** Keys carry the root of the index they come from. *)
Definition own_keys (contexts : list RequestContext) : Prop :=
  forall c idx p, c ∈ contexts -> c.(project_context) = Some idx -> p ∈ idx.(projects) -> p.(key).(workspace_root_id) = idx.(index_root_id).
Lemma head_elem {A} (l : list A) x : head l = Some x -> x ∈ l.
Proof. destruct l; [done|]. intros [= ->]. by left. Qed.
(** On Unix a key that is found is the key asked for. *)
Lemma canonical_same contexts k k' : own_keys contexts -> canonical_project_key contexts k = Some k' -> k' = k.
Proof.
  intros Ho (c & Hc & H)%head_elem%list_elem_of_omap. destruct (project_context c) as [idx|] eqn:E; [|done]. cbn in H. unfold canonical_key in H.
  destruct (String.eqb_spec (workspace_root_id k) (index_root_id idx)) as [Er|]; [|done]. cbn in H. apply fmap_Some in H as (p & Hf & ->). apply List.find_some in Hf as [Hp Hs%String.eqb_eq].
  apply list_elem_of_In in Hp. specialize (Ho c idx p Hc E Hp). destruct (key p), k. cbn in *. congruence.
Qed.
(** Whatever is asked, the selection stored afterwards is one that can take effect, the
    status names the project a request for the file will use, and the epoch has moved exactly
    when the stored selection has. *)
Theorem status_is_effective contexts path s : own_keys contexts -> (s.(selection_epoch) < u64_max)%N ->
  let '(st, s') := project_context_status contexts (Some path) s in
  st.(selection) = s'.(stored) /\ corrected contexts s'.(stored) = s'.(stored) /\
  st.(active_project) = effective_project s'.(stored) path contexts /\
  (s'.(selection_epoch) = s.(selection_epoch) <-> s'.(stored) = s.(stored)).
Proof.
  intros Ho He. unfold project_context_status, store_selection. cbn [fst snd]. case_bool_decide as E.
  - cbn. rewrite <- E. split_and!; [done| |..|done]; [by rewrite E at 1|]. destruct (stored s) as [|k|]; [done| |done].
    cbn in *. destruct (canonical_project_key contexts k) as [k'|] eqn:Ek; [by injection E as <-|done].
  - cbn. assert (corrected contexts (corrected contexts (stored s)) = corrected contexts (stored s)) as Hfix.
    { destruct (stored s) as [|k|]; [done| |done]. cbn. destruct (canonical_project_key contexts k) as [k'|] eqn:Ek; [|done].
      pose proof (canonical_same _ _ _ Ho Ek) as ->. cbn. by rewrite Ek. }
    split_and!; [done..| |].
    + destruct (stored s) as [|k|]; [done| |done]. cbn. destruct (canonical_project_key contexts k) as [k'|] eqn:Ek; [|done].
      pose proof (canonical_same _ _ _ Ho Ek) as ->. cbn. by rewrite Ek.
    + split; [|congruence]. intros H. rewrite wrapping_add_small in H by (unfold u64_max in *; lia). lia.
Qed.

(** ** Examples *)

Definition demo_walk : list (string * string) := [("", "Makefile"); ("lib", "notes.txt"); ("lib\core", "CMakeLists.txt"); ("lib/core", "makefile"); ("app", "demo.vcxproj")].
Definition demo_projects : ProjectContextIndex := discover_project_contexts "id" "demo" demo_walk.
Example demo_nearest :
  ((fun p => (p.(key).(project_path), p.(marker_files))) <$> demo_projects.(projects)) = [("", ["Makefile"]); ("app", ["demo.vcxproj"]); ("lib/core", ["CMakeLists.txt"; "makefile"])] /\
  (project_path <$> nearest_for_file demo_projects "lib/core/io/a.c") = Some "lib/core" /\ (project_path <$> nearest_for_file demo_projects "lib/corelib/a.c") = Some "".
Proof. vm_compute. done. Qed.
Definition demo_contexts : list RequestContext := [mkRequest ["home"; "demo"] (Some demo_projects)].
Example demo_own_keys : own_keys demo_contexts.
Proof. intros c idx p ->%list_elem_of_singleton [= <-] [H _]%elem_of_discovered. exact H. Qed.
(** A selected project that is gone is replaced by the automatic choice. *)
Example demo_status : let '(st, s) := project_context_status demo_contexts (Some ["home"; "demo"; "app"; "x.c"]) (mkSelected (Manual (mkProject "id" "gone")) 4) in
  s = mkSelected Auto 5 /\ st.(active_project) = Some (mkProject "id" "app") /\ st.(available) = true.
Proof. vm_compute. done. Qed.
