(* ===== verification/FallbackTable.v ===== *)
(** * The fallback completion table (completion/ordinary_service/fallback_table.rs)

    Names recovered from files the parser could not analyse, matched by substring. The table
    is built with an index of the names' first letters and triples, and published updates
    shadow paths of the base and keep an overlay. Whatever was published, matching lists
    what a scan of the current rows would list. *)

From S2P Require Import Prelude CallModel NameMatch Searching.

Inductive CompletionKindHint : Type := HintFunction | HintMacro | HintType | HintObject.
#[export] Instance CompletionKindHint_eq_dec : EqDecision CompletionKindHint.
Proof. solve_decision. Defined.
(** The columns of [FallbackCompletionRow] the table reads. *)
Record FallbackCompletionRow : Type := mkFallbackRow {
  row_name : string; row_kind_hint : Z; row_path : string; row_detail : option string; row_family : SemanticFamily;
}.
Record FallbackCompletionName : Type := mkFallbackName {
  name : string; kind_hint : CompletionKindHint; detail : option string; path : string;
}.
#[export] Instance FallbackCompletionName_eq_dec : EqDecision FallbackCompletionName.
Proof. solve_decision. Defined.
Record IndexedFallbackCompletionName : Type := mkIndexed {
  value : FallbackCompletionName; lowered : string; semantic_family : SemanticFamily;
}.
#[export] Instance IndexedFallbackCompletionName_eq_dec : EqDecision IndexedFallbackCompletionName.
Proof. solve_decision. Defined.
Record FallbackCompletionNameTable : Type := mkFallbackTable {
  entries : list IndexedFallbackCompletionName;
  match_index : gmap N (list nat);
  by_path : gmap string (list nat);
  base_bytes : N;
  shadowed_paths : gset string;
  overlay_entries : list IndexedFallbackCompletionName;
}.
Record ScoredFallbackCompletionName : Type := mkScored { score : Z; scored : FallbackCompletionName }.

(** Capacities and sizes of the layout. *)
Record FallbackAllocation : Type := mkFallbackAllocation {
  entry_size : N;
  string_capacity : string -> N;
  match_index_bytes : gmap N (list nat) -> N;
  by_path_bytes : gmap string (list nat) -> N;
  path_set_bytes : gset string -> N;
  table_size : N;
}.

(** ** Order, keys, scores *)

Definition completion_hint_rank (k : CompletionKindHint) : N :=
  match k with HintFunction => 0 | HintMacro => 1 | HintType => 2 | HintObject => 3 end.
Definition fallback_entry_order : FallbackCompletionName -> FallbackCompletionName -> comparison :=
  cmp_lex (cmp_on (fun e => lower e.(name)) String.compare)
    (cmp_lex (cmp_on name String.compare)
      (cmp_lex (cmp_on path String.compare)
        (cmp_lex (cmp_on (fun e => completion_hint_rank e.(kind_hint)) N.compare) (cmp_on detail (option_cmp String.compare))))).
Definition kind_of (hint : Z) : option CompletionKindHint :=
  match hint with 0 => Some HintFunction | 1 => Some HintMacro | 2 => Some HintType | 3 => Some HintObject | _ => None end%Z.
Definition fallback_name_boundary (bytes : Bytes) (index : nat) : bool :=
  match index with
  | 0 => true
  | S p =>
      let previous := nth p bytes 0%N in
      let current := nth index bytes 0%N in
      (N.eqb previous UNDERSCORE && negb (N.eqb current UNDERSCORE))
      || (is_ascii_lowercase previous && is_ascii_uppercase current)
      || (is_ascii_alphabetic previous && is_ascii_digit current)
  end.
Fixpoint pack_bytes (offset : N) (bytes : Bytes) : N :=
  match bytes with [] => 0 | b :: bytes => N.lor (N.shiftl b (offset * 8)) (pack_bytes (offset + 1) bytes) end%N.
Definition fallback_match_key (bytes : Bytes) : option N :=
  let width := Nat.min (length bytes) 3 in
  if (width =? 0)%nat || negb (forallb (fun b => b <? 128)%N (take width bytes)) then None
  else Some (N.lor (N.shiftl (N.of_nat width) 24) (pack_bytes 0 (take width bytes))).
(** [lower.get(start..start + width).unwrap_or_default()] *)
Definition get_range (bytes : Bytes) (start width : nat) : Bytes :=
  if (start + width <=? length bytes)%nat then take width (drop start bytes) else [].
Definition match_keys (e : IndexedFallbackCompletionName) : gset N :=
  let original := text e.(value).(name) in
  let low := text e.(lowered) in
  let boundary := omap id (concat ((fun start =>
      if fallback_name_boundary original start then (fun width => fallback_match_key (get_range low start width)) <$> [1; 2] else []) <$> seq 0 (length low))) in
  list_to_set (boundary ++ omap fallback_match_key (windows3 low)).
Definition fallback_match_index (es : list IndexedFallbackCompletionName) : gmap N (list nat) :=
  foldl (fun m (ie : nat * IndexedFallbackCompletionName) => foldl (fun m key => push_map m key ie.1) m (elements (match_keys ie.2))) ∅ (imap pair es).

(** [query::completion_word_score_lowered], [completion_word_score] (query/text.rs) *)
Definition MIN_PREFIX_LEN : nat := 1.
Definition SHORT_PREFIX_MIN_LEN : nat := 3.
Definition completion_word_score_lowered (needle word hay : Bytes) (locality_bonus : Z) : option Z :=
  if (length needle <? MIN_PREFIX_LEN)%nat || (length hay <? MIN_PREFIX_LEN)%nat then None
  else if bool_decide (hay = needle) then Some (700 + locality_bonus)%Z
  else if starts_with needle hay then Some (550 + locality_bonus)%Z
  else at_ ← find_bytes needle hay;
    if (length needle <? SHORT_PREFIX_MIN_LEN)%nat && negb (is_boundary word at_) then None else Some (250 + locality_bonus)%Z.
Definition completion_word_score (prefix word : string) (locality_bonus : Z) : option Z :=
  completion_word_score_lowered (text (lower prefix)) (text word) (text (lower word)) locality_bonus.
Definition score_indexed_fallback (needle : string) (e : IndexedFallbackCompletionName) : option ScoredFallbackCompletionName :=
  (fun score => mkScored score e.(value)) <$> completion_word_score_lowered (text needle) (text e.(value).(name)) (text e.(lowered)) 0.
Definition scored_order : ScoredFallbackCompletionName -> ScoredFallbackCompletionName -> comparison :=
  cmp_lex (cmp_rev (cmp_on score Z.compare)) (cmp_lex (cmp_on (fun s => s.(scored).(name)) String.compare) (cmp_on (fun s => s.(scored).(path)) String.compare)).
Definition sort_scored_fallbacks : list ScoredFallbackCompletionName -> list ScoredFallbackCompletionName := sort_by scored_order.
(** [fallback_matches], the scan *)
Definition fallback_matches (es : list FallbackCompletionName) (prefix : string) (limit : nat) : list ScoredFallbackCompletionName :=
  take limit (sort_scored_fallbacks (omap (fun e => (fun score => mkScored score e) <$> completion_word_score prefix e.(name) 0) es)).

(** ** The table *)

Section table.
Context (alloc : FallbackAllocation).

Definition fallback_sum (l : list N) : N := foldr N.add 0%N l.
Definition indexed (e : FallbackCompletionName * SemanticFamily) : IndexedFallbackCompletionName := mkIndexed e.1 (lower e.1.(name)) e.2.
Definition entry_bytes (e : IndexedFallbackCompletionName) : N :=
  (alloc.(string_capacity) e.(value).(name) + alloc.(string_capacity) e.(value).(path) + alloc.(string_capacity) e.(lowered)
   + match e.(value).(detail) with Some d => alloc.(string_capacity) d | None => 0 end)%N.
Definition indexed_entries_bytes (es : list IndexedFallbackCompletionName) : N :=
  (saturating_mul (N.of_nat (length es)) alloc.(entry_size) + fallback_sum (entry_bytes <$> es))%N.
Definition pair_order (a b : FallbackCompletionName * SemanticFamily) : comparison := fallback_entry_order a.1 b.1.
Definition sorted_entries (es : list (FallbackCompletionName * SemanticFamily)) : list IndexedFallbackCompletionName :=
  indexed <$> dedup (fun a b => bool_decide (a = b)) (sort_by pair_order es).
Definition from_family_entries (es : list (FallbackCompletionName * SemanticFamily)) : FallbackCompletionNameTable :=
  let es := sorted_entries es in
  let index := fallback_match_index es in
  let paths := foldl (fun m (ie : nat * IndexedFallbackCompletionName) => push_map m ie.2.(value).(path) ie.1) ∅ (imap pair es) in
  mkFallbackTable es index paths (indexed_entries_bytes es + alloc.(match_index_bytes) index + alloc.(by_path_bytes) paths) ∅ [].
Definition row_entry (row : FallbackCompletionRow) : option (FallbackCompletionName * SemanticFamily) :=
  (fun k => (mkFallbackName row.(row_name) k row.(row_detail) row.(row_path), row.(row_family))) <$> kind_of row.(row_kind_hint).
Definition build (rows : list FallbackCompletionRow) : FallbackCompletionNameTable := from_family_entries (omap row_entry rows).

Definition matching_for_family (t : FallbackCompletionNameTable) (prefix : string) (limit : nat) (family : SemanticFamily) :
    list ScoredFallbackCompletionName :=
  if (limit =? 0)%nat then []
  else
    let needle := lower prefix in
    match fallback_match_key (text needle) with
    | None => []
    | Some key =>
        let candidates := omap (fun index => t.(entries) !! index) (default [] (t.(match_index) !! key)) in
        let base := List.filter (fun e => bool_decide (e.(semantic_family) = family) && negb (bool_decide (e.(value).(path) ∈ t.(shadowed_paths)))) candidates in
        let overlay := List.filter (fun e => bool_decide (e.(semantic_family) = family)) t.(overlay_entries) in
        take limit (sort_scored_fallbacks (omap (score_indexed_fallback needle) base ++ omap (score_indexed_fallback needle) overlay))
    end.

Definition with_updated_family_paths (t : FallbackCompletionNameTable) (shadowed : gset string) (overlay : list (FallbackCompletionName * SemanticFamily)) :
    FallbackCompletionNameTable :=
  let kept := (fun e => (e.(value), e.(semantic_family))) <$> List.filter (fun e => negb (bool_decide (e.(value).(path) ∈ shadowed))) t.(overlay_entries) in
  mkFallbackTable t.(entries) t.(match_index) t.(by_path) t.(base_bytes) (t.(shadowed_paths) ∪ shadowed) (sorted_entries (kept ++ overlay)).
Definition MAX_PATHS : nat := 256.
Definition MAX_ROWS : N := 8192.
(** The entries of the base at the changed paths, within the bound. *)
Fixpoint old_entries (t : FallbackCompletionNameTable) (changed : list string) (old : list IndexedFallbackCompletionName) :
    option (list IndexedFallbackCompletionName) :=
  match changed with
  | [] => Some old
  | p :: changed =>
      if bool_decide (p ∈ t.(shadowed_paths)) then old_entries t changed old
      else match t.(by_path) !! p with
        | Some indices =>
            if (MAX_ROWS <? N.of_nat (length old + length indices))%N then None
            else old_entries t changed (old ++ omap (fun index => t.(entries) !! index) indices)
        | None => old_entries t changed old
        end
  end.
Definition update_published_rows (t : FallbackCompletionNameTable) (paths : list string) (rows : list FallbackCompletionRow) : option FallbackCompletionNameTable :=
  let fresh := build rows in
  let changed : gset string := list_to_set paths in
  old ← old_entries t (elements changed) [];
  let old := old ++ List.filter (fun e => bool_decide (e.(value).(path) ∈ changed)) t.(overlay_entries) in
  let old := sort_by (cmp_on value fallback_entry_order) old in
  if bool_decide (old = fresh.(entries)) then Some t
  else
    let shadowed := t.(shadowed_paths) ∪ list_to_set paths in
    if (MAX_PATHS <? size shadowed)%nat then None
    else
      let overlay := List.filter (fun e => negb (bool_decide (e.(value).(path) ∈ changed))) t.(overlay_entries) ++ fresh.(entries) in
      if (MAX_ROWS <? N.of_nat (length overlay))%N then None
      else if (4 * 1024 * 1024 <? fallback_sum ((fun e => alloc.(entry_size) + entry_bytes e)%N <$> overlay))%N then None
      else Some (with_updated_family_paths t shadowed ((fun e => (e.(value), e.(semantic_family))) <$> overlay)).
Definition delta_partitions (t : FallbackCompletionNameTable) : nat := size t.(shadowed_paths).
Definition delta_bytes (t : FallbackCompletionNameTable) : N :=
  (indexed_entries_bytes t.(overlay_entries) + alloc.(path_set_bytes) t.(shadowed_paths) + fallback_sum (alloc.(string_capacity) <$> elements t.(shadowed_paths)))%N.
Definition accounted_bytes (t : FallbackCompletionNameTable) : N := (alloc.(table_size) + t.(base_bytes) + delta_bytes t)%N.
(** [FallbackCompletionStoreView::by_paths_limited] (store/views.rs): one query for each 256
    paths, with a limit that leaves a row over when there are too many. *)
Section view.
Context (select : list string -> nat -> list FallbackCompletionRow).
Fixpoint path_chunks (fuel : nat) (paths : list string) : list (list string) :=
  match fuel, paths with
  | S fuel, _ :: _ => take 256 paths :: path_chunks fuel (drop 256 paths)
  | _, _ => []
  end.
Fixpoint select_chunks (chunks : list (list string)) (limit : nat) (output : list FallbackCompletionRow) : list FallbackCompletionRow * bool :=
  match chunks with
  | [] => (output, false)
  | chunk :: chunks =>
      let probe := (limit - length output) + 1 in
      let output := output ++ select chunk probe in
      if (limit <? length output)%nat then (take limit output, true) else select_chunks chunks limit output
  end.
Definition by_paths_limited (paths : list string) (limit : nat) : list FallbackCompletionRow * bool :=
  select_chunks (path_chunks (length paths) paths) limit [].
(** [update_fallback_completion_table] (server/indexing/cache/declaration_models.rs) *)
Definition update_fallback_completion_table (previous : FallbackCompletionNameTable) (paths : list string) (all_rows : list FallbackCompletionRow) :
    FallbackCompletionNameTable :=
  let (rows, truncated) := by_paths_limited paths (N.to_nat 8192) in
  match (if truncated then None else update_published_rows previous paths rows) with
  | Some updated => updated
  | None => build all_rows
  end.
End view.
End table.

(** ** Sorted lists *)

Section strict.
Context {A : Type} (cmp : A -> A -> comparison) `{!LawfulCmp cmp}.
Definition strict : list A -> Prop := StronglySorted (fun a b => cmp a b = Lt).
Lemma strict_sorted l : strict l -> StronglySorted (cmp_le cmp) l.
Proof. apply StronglySorted_weaken. intros x y E. unfold cmp_le. by rewrite E. Qed.
Lemma strict_nodup l : strict l -> NoDup l.
Proof.
  induction 1 as [|x l Hl IH Hx]; constructor; [|done]. intros Hin. rewrite Forall_forall in Hx. specialize (Hx x Hin). by rewrite (cmp_refl cmp) in Hx.
Qed.
Lemma strict_eq l x y : strict l -> x ∈ l -> y ∈ l -> cmp x y = Eq -> x = y.
Proof.
  induction 1 as [|z l Hl IH Hz]; [by intros ?%elem_of_nil|]. rewrite Forall_forall in Hz. intros [->|Hx]%elem_of_cons [->|Hy]%elem_of_cons E; [done|..].
  - by rewrite (Hz y Hy) in E.
  - rewrite (cmp_antisym cmp z x), (Hz x Hx) in E. done.
  - by apply IH.
Qed.
Lemma strict_unique l k : strict l -> strict k -> (forall x, x ∈ l <-> x ∈ k) -> l = k.
Proof.
  intros Hl Hk H. apply (sorted_perm_unique_on cmp); [intros x y; by apply strict_eq|by apply strict_sorted..|]. apply NoDup_Permutation; [by apply strict_nodup..|done].
Qed.
Lemma strict_filter f l : strict l -> strict (List.filter f l).
Proof. apply sublist_StronglySorted, list_filter_bool_sublist. Qed.
Lemma dedup_strict (same : A -> A -> bool) l : (forall a b, same a b = true <-> a = b) -> StronglySorted (cmp_le cmp) l ->
  (forall x y, x ∈ l -> y ∈ l -> cmp x y = Eq -> x = y) -> strict (dedup same l).
Proof.
  intros Hs. destruct l as [|x l]; [by constructor|]. cbn [dedup]. revert x. induction l as [|y l IH]; intros x H Heq; cbn [dedup_after]; [by repeat constructor|].
  inversion H as [|? ? Hl Hx]; subst. inversion Hx as [|? ? Hxy Hx']; subst. destruct (same y x) eqn:E.
  - apply Hs in E as ->. apply IH; [by inversion Hl; subst; constructor|]. intros a b Ha Hb. apply Heq; set_solver.
  - constructor; [apply IH; [done|intros a b Ha Hb; apply Heq; by right]|]. apply Forall_forall. intros z Hz.
    rewrite elem_of_dedup_after in Hz by (intros; by apply Hs). assert (cmp x y = Lt) as Hlt.
    { unfold cmp_le in Hxy. destruct (cmp x y) eqn:Exy; [|done|done]. apply Heq in Exy; [|by left|by right; left]. subst. by rewrite (proj2 (Hs y y) eq_refl) in E. }
    apply elem_of_cons in Hz as [->|Hz]; [done|]. inversion Hl as [|? ? _ Hy]; subst. rewrite Forall_forall in Hy. by apply (cmp_lt_le cmp x y z Hlt), Hy.
Qed.
(** A stable sort is determined by the lists of elements that compare equal. *)
Lemma stable_sorted_unique l k : StronglySorted (cmp_le cmp) l -> StronglySorted (cmp_le cmp) k ->
  (forall x, List.filter (cmp_equal cmp x) l = List.filter (cmp_equal cmp x) k) -> l = k.
Proof.
  assert (forall x, cmp_equal cmp x x = true) as Hrefl by (intros x; unfold cmp_equal; by rewrite (cmp_refl cmp)).
  intros Hl. revert k. induction Hl as [|x l Hl IH Hx]; intros k Hk H.
  { destruct k as [|y k]; [done|]. specialize (H y). cbn [List.filter] in H. by rewrite Hrefl in H. }
  destruct k as [|y k]; [specialize (H x); cbn [List.filter] in H; by rewrite Hrefl in H|]. inversion Hk as [|? ? Hk' Hy]; subst. rewrite Forall_forall in Hx, Hy.
  assert (x ∈ y :: k) as Hin. { apply (elem_of_filter_bool (cmp_equal cmp x)). rewrite <- H. cbn [List.filter]. rewrite Hrefl. by left. }
  assert (y ∈ x :: l) as Hin'. { apply (elem_of_filter_bool (cmp_equal cmp y)). rewrite H. cbn [List.filter]. rewrite Hrefl. by left. }
  assert (cmp x y = Eq) as E.
  { apply elem_of_cons in Hin as [->|Hin]; [apply (cmp_refl cmp)|]. apply elem_of_cons in Hin' as [->|Hin']; [apply (cmp_refl cmp)|].
    specialize (Hx y Hin'). specialize (Hy x Hin). unfold cmp_le in *. rewrite (cmp_antisym cmp x y) in Hy. by destruct (cmp x y). }
  assert (x = y) as <-. { pose proof (H x) as Hf. cbn [List.filter] in Hf. rewrite Hrefl in Hf. unfold cmp_equal in Hf at 2. rewrite E in Hf. by injection Hf as ->. }
  f_equal. apply IH; [done|]. intros z. specialize (H z). cbn [List.filter] in H. destruct (cmp_equal cmp z x); [by injection H|done].
Qed.
End strict.

(** ** Entries and their index *)

Lemma completion_hint_rank_inj a b : completion_hint_rank a = completion_hint_rank b -> a = b.
Proof. by destruct a, b. Qed.
Lemma option_string_eq (a b : option string) : option_cmp String.compare a b = Eq -> a = b.
Proof. destruct a, b; cbn; try done. intros ->%string_compare_eq. done. Qed.
Lemma fallback_entry_order_eq a b : fallback_entry_order a b = Eq -> a = b.
Proof.
  unfold fallback_entry_order. rewrite !cmp_lex_eq. unfold cmp_on. intros (_ & E1%string_compare_eq & E2%string_compare_eq & E3%N.compare_eq%completion_hint_rank_inj & E4%option_string_eq).
  destruct a, b. cbn in *. by subst.
Qed.
#[export] Instance fallback_entry_order_lawful : LawfulCmp fallback_entry_order.
Proof. unfold fallback_entry_order. apply _. Qed.
Abbreviation entry_order := (cmp_on value fallback_entry_order).
Abbreviation Hints := (list (FallbackCompletionName * SemanticFamily)).
(** A file has one language. *)
Definition one_family (H : Hints) : Prop := forall a b, a ∈ H -> b ∈ H -> a.1.(path) = b.1.(path) -> a.2 = b.2.
Lemma pair_order_eq H a b : one_family H -> a ∈ H -> b ∈ H -> pair_order a b = Eq -> a = b.
Proof. intros Hf Ha Hb E%fallback_entry_order_eq. destruct a as [a f], b as [b g]. cbn in *. subst. f_equal. by apply (Hf (b, f) (b, g)). Qed.
#[export] Instance pair_order_lawful : LawfulCmp pair_order.
Proof. exact (cmp_on_lawful fst fallback_entry_order). Qed.
Lemma sorted_entries_strict H : one_family H -> strict entry_order (sorted_entries H).
Proof.
  intros Hf. unfold sorted_entries, strict. assert (strict pair_order (dedup (fun a b => bool_decide (a = b)) (sort_by pair_order H))) as Hs.
  { apply (dedup_strict pair_order); [intros a b; by rewrite bool_decide_eq_true|apply sort_by_sorted, _|]. intros x y Hx%elem_of_sort_by Hy%elem_of_sort_by. by apply (pair_order_eq H). }
  induction Hs as [|x l Hl IH Hx]; [constructor|]. cbn [fmap list_fmap]. constructor; [done|]. rewrite Forall_fmap. exact Hx.
Qed.
Lemma elem_of_sorted_entries H e : e ∈ sorted_entries H <-> exists h, h ∈ H /\ e = indexed h.
Proof.
  unfold sorted_entries. rewrite list_elem_of_fmap. setoid_rewrite (elem_of_dedup (fun a b => bool_decide (a = b))); [|by intros a b; rewrite bool_decide_eq_true].
  setoid_rewrite elem_of_sort_by. naive_solver.
Qed.

Lemma push_keys_lookup i (keys : list N) : NoDup keys -> forall (m : gmap N (list nat)) k,
  default [] (foldl (fun m key => push_map m key i) m keys !! k) = default [] (m !! k) ++ (if decide (k ∈ keys) then [i] else []).
Proof.
  induction 1 as [|key keys Hn Hnd IH]; intros m k; cbn [foldl]; [by rewrite decide_False, app_nil_r by (by intros ?%elem_of_nil)|].
  rewrite IH, push_map_lookup. repeat case_decide; subst; try set_solver; by rewrite ?app_nil_r.
Qed.
Lemma fallback_match_index_snoc es e k :
  default [] (fallback_match_index (es ++ [e]) !! k) = default [] (fallback_match_index es !! k) ++ (if decide (k ∈ match_keys e) then [length es] else []).
Proof.
  unfold fallback_match_index. rewrite imap_app, foldl_app. cbn [imap foldl fst snd]. rewrite Nat.add_0_r, push_keys_lookup by apply NoDup_elements.
  f_equal. apply decide_ext. by rewrite elem_of_elements.
Qed.
Lemma match_index_bound es k i : i ∈ default [] (fallback_match_index es !! k) -> (i < length es)%nat.
Proof.
  induction es as [|e es IH] using rev_ind; [cbn; rewrite lookup_empty; by intros ?%elem_of_nil|]. rewrite fallback_match_index_snoc, elem_of_app, length_app. cbn [length].
  intros [?%IH|Hi]; [lia|]. destruct (decide _); [apply list_elem_of_singleton in Hi as ->; lia|by apply elem_of_nil in Hi].
Qed.
(** What a key lists: the entries that have it, in order. *)
Lemma match_index_entries es k : omap (fun i => es !! i) (default [] (fallback_match_index es !! k)) = List.filter (fun e => bool_decide (k ∈ match_keys e)) es.
Proof.
  induction es as [|e es IH] using rev_ind; [cbn; by rewrite lookup_empty|]. rewrite fallback_match_index_snoc, List.filter_app, omap_app. f_equal.
  - rewrite <- IH. apply omap_ext_in. intros i Hi%match_index_bound. by rewrite lookup_app_l.
  - cbn [List.filter]. destruct (decide (k ∈ match_keys e)) as [Hk|Hk].
    + rewrite bool_decide_true by done. cbn. by rewrite lookup_app_r, Nat.sub_diag by lia.
    + by rewrite bool_decide_false.
Qed.
Lemma by_path_lookup (es : list IndexedFallbackCompletionName) p i :
  i ∈ default [] (foldl (fun m (ie : nat * IndexedFallbackCompletionName) => push_map m ie.2.(value).(path) ie.1) (∅ : gmap string (list nat)) (imap pair es) !! p) <->
  exists e, es !! i = Some e /\ e.(value).(path) = p.
Proof.
  revert p i. induction es as [|e es IH] using rev_ind; intros p i.
  { cbn. rewrite lookup_empty. split; [by intros ?%elem_of_nil|by intros (? & ? & _)]. }
  rewrite imap_app, foldl_app. cbn [imap foldl fst snd]. rewrite Nat.add_0_r, push_map_lookup. setoid_rewrite lookup_app_Some. setoid_rewrite list_lookup_singleton_Some. case_decide as Hp.
  - rewrite elem_of_app, list_elem_of_singleton, <- Hp, IH. split; [intros [(e' & ? & ?)| ->]; [exists e'; tauto|exists e; split; [right; split_and!; [lia|lia|done]|done]]|].
    intros (e' & [?|(Hl & Hi & <-)] & ?); [left; by exists e'|right; lia].
  - rewrite IH. split; [intros (e' & ? & ?); exists e'; tauto|]. intros (e' & [?|(_ & _ & <-)] & ?); [by exists e'|done].
Qed.

(** ** The index names every entry a scan scores *)

Lemma fallback_match_key_take bytes : fallback_match_key (take 3 bytes) = fallback_match_key bytes.
Proof.
  unfold fallback_match_key. rewrite length_take. replace (Nat.min (Nat.min 3 (length bytes)) 3) with (Nat.min (length bytes) 3) by lia.
  rewrite take_take. by replace (Nat.min (Nat.min (length bytes) 3) 3) with (Nat.min (length bytes) 3) by lia.
Qed.
Lemma boundary_same original i : fallback_name_boundary original i = is_boundary original i.
Proof. by destruct i. Qed.
(** A scored name holds the needle at a boundary, or holds three bytes of it anywhere. *)
Lemma scored_occurrence needle word hay bonus s : completion_word_score_lowered needle word hay bonus = Some s ->
  needle <> [] /\ exists i, needle `prefix_of` drop i hay /\ (i < length hay)%nat /\ (fallback_name_boundary word i = true \/ (3 <= length needle)%nat).
Proof.
  unfold completion_word_score_lowered, MIN_PREFIX_LEN, SHORT_PREFIX_MIN_LEN. destruct (_ <? 1)%nat eqn:E1; [done|]. destruct (length hay <? 1)%nat eqn:E2; [done|]. cbn [orb].
  apply Nat.ltb_ge in E1, E2. intros H. split; [intros ->; cbn in E1; lia|].
  case_bool_decide as E; [subst; exists 0; split_and!; [done|lia|by left]|].
  destruct (starts_with needle hay) eqn:Es; [apply starts_with_spec in Es; exists 0; split_and!; [done|lia|by left]|].
  destruct (find_bytes needle hay) as [i|] eqn:Ef; [|done]. cbn [mbind option_bind] in H. apply find_bytes_Some in Ef as (Hp & _ & _). exists i. split; [done|].
  split. { apply prefix_length in Hp. rewrite length_drop in Hp. lia. }
  rewrite boundary_same. destruct (length needle <? 3)%nat eqn:E3; [|right; by apply Nat.ltb_ge]. left. by destruct (is_boundary word i).
Qed.
Lemma match_keys_boundary e i width key : (i < length (text e.(lowered)))%nat -> fallback_name_boundary (text e.(value).(name)) i = true ->
  (width = 1 \/ width = 2)%nat -> fallback_match_key (get_range (text e.(lowered)) i width) = Some key -> key ∈ match_keys e.
Proof.
  intros Hi Hb Hw Hk. unfold match_keys. rewrite elem_of_list_to_set, elem_of_app. left. apply list_elem_of_omap. exists (Some key). split; [|done].
  apply list_elem_of_In, in_concat. eexists. split; [apply list_elem_of_In, list_elem_of_fmap; exists i; split; [done|apply elem_of_seq; lia]|].
  cbn beta. rewrite Hb, <- Hk. cbn. destruct Hw as [-> | ->]; [by left|right; by left].
Qed.
Lemma match_keys_window e i key : (i + 2 < length (text e.(lowered)))%nat ->
  fallback_match_key (take 3 (drop i (text e.(lowered)))) = Some key -> key ∈ match_keys e.
Proof.
  intros Hi Hk. unfold match_keys. rewrite elem_of_list_to_set, elem_of_app. right. apply list_elem_of_omap. eexists. split; [|exact Hk].
  apply elem_of_windows3. by exists i.
Qed.
(** The index is complete for the needles it has a key for. *)
Lemma key_complete e needle key : is_Some (score_indexed_fallback needle e) -> fallback_match_key (text needle) = Some key -> key ∈ match_keys e.
Proof.
  unfold score_indexed_fallback. intros [s (x & Hs & _)%fmap_Some] Hk. apply scored_occurrence in Hs as (Hne & i & [rest Hp] & Hi & Hb).
  assert (1 <= length (text needle))%nat as H1 by (destruct (text needle); [done|cbn; lia]).
  assert (i + length (text needle) <= length (text (lowered e)))%nat as Hlen.
  { apply (f_equal length) in Hp. rewrite length_drop, length_app in Hp. lia. }
  assert (forall w, (w <= length (text needle))%nat -> take w (drop i (text (lowered e))) = take w (text needle)) as Htake.
  { intros w Hw. rewrite Hp. by rewrite take_app_le. }
  destruct (decide (3 <= length (text needle))%nat) as [H3|H3].
  - apply (match_keys_window e i); [lia|]. rewrite Htake by done. by rewrite fallback_match_key_take.
  - destruct Hb as [Hb|]; [|lia]. apply (match_keys_boundary e i (length (text needle))); [done|done|lia|]. unfold get_range.
    destruct (_ <=? _)%nat eqn:E; [|apply Nat.leb_gt in E; lia]. rewrite Htake by done. by rewrite take_ge.
Qed.
Lemma key_filter needle key es : fallback_match_key (text needle) = Some key ->
  omap (score_indexed_fallback needle) (List.filter (fun e => bool_decide (key ∈ match_keys e)) es) = omap (score_indexed_fallback needle) es.
Proof.
  intros Hk. apply omap_filter. intros e He. destruct (score_indexed_fallback needle e) as [s|] eqn:E; [|done]. exfalso. apply bool_decide_eq_false in He.
  apply He, (key_complete e needle key); [by eexists|done].
Qed.

(** ** Reading the rows of the changed paths *)

(** What SQLite promises of [WHERE f.path IN (..) LIMIT probe]: a beginning of the rows of the
    paths, in an order of its own. *)
Definition selects (select : list string -> nat -> list FallbackCompletionRow) (R : list FallbackCompletionRow) : Prop :=
  forall chunk probe, exists l, (forall r, r ∈ l <-> r ∈ R /\ r.(row_path) ∈ chunk) /\ select chunk probe = take probe l.
Lemma concat_path_chunks fuel paths : (length paths <= fuel)%nat -> concat (path_chunks fuel paths) = paths.
Proof.
  revert paths. induction fuel as [|fuel IH]; intros paths H; [by destruct paths; [|cbn in H; lia]|]. destruct paths as [|p paths]; [done|].
  cbn [path_chunks concat]. rewrite IH; [apply take_drop|]. rewrite length_drop. cbn [length] in *. lia.
Qed.
Lemma select_chunks_ok select R chunks limit output rows : selects select R ->
  select_chunks select chunks limit output = (rows, false) -> forall r, r ∈ rows <-> r ∈ output \/ r ∈ R /\ r.(row_path) ∈ concat chunks.
Proof.
  intros Hs. revert output. induction chunks as [|chunk chunks IH]; intros output; cbn [select_chunks concat].
  { intros [= <-] r. rewrite elem_of_nil. tauto. }
  destruct (Hs chunk (limit - length output + 1)) as (l & Hl & ->). destruct (_ <? _)%nat eqn:E; [done|]. intros H r. rewrite (IH _ H), !elem_of_app.
  apply Nat.ltb_ge in E. rewrite length_app, length_take in E. rewrite take_ge by lia. rewrite Hl. tauto.
Qed.
Lemma by_paths_limited_ok select R paths limit rows : selects select R -> by_paths_limited select paths limit = (rows, false) ->
  forall r, r ∈ rows <-> r ∈ R /\ r.(row_path) ∈ paths.
Proof.
  intros Hs H r. rewrite (select_chunks_ok _ R _ _ _ _ Hs H), concat_path_chunks by lia. rewrite elem_of_nil. tauto.
Qed.

(** ** Published tables *)

Definition hints (R : list FallbackCompletionRow) : Hints := omap row_entry R.
(** A file's rows carry the language of its revision. *)
Definition one_language (R : list FallbackCompletionRow) : Prop := forall a b, a ∈ R -> b ∈ R -> a.(row_path) = b.(row_path) -> a.(row_family) = b.(row_family).
Lemma row_entry_path r h : row_entry r = Some h -> h.1.(path) = r.(row_path) /\ h.2 = r.(row_family).
Proof. unfold row_entry. destruct (kind_of (row_kind_hint r)); [|done]. by intros [= <-]. Qed.
Lemma hints_one_family R : one_language R -> one_family (hints R).
Proof.
  intros H a b (r & Hr & Ea)%list_elem_of_omap (q & Hq & Eb)%list_elem_of_omap E. apply row_entry_path in Ea as [Ea ->], Eb as [Eb ->]. apply H; congruence.
Qed.
Lemma elem_of_hints R h : h ∈ hints R <-> exists r, r ∈ R /\ row_entry r = Some h.
Proof. apply list_elem_of_omap. Qed.

Lemma hints_same rows R : (forall r, r ∈ rows <-> r ∈ R) -> forall h, h ∈ hints rows <-> h ∈ hints R.
Proof. intros Hr h. rewrite !elem_of_hints. by setoid_rewrite Hr. Qed.

Section published.
Context (alloc : FallbackAllocation).
Definition active (t : FallbackCompletionNameTable) : list IndexedFallbackCompletionName :=
  List.filter (fun e => negb (bool_decide (e.(value).(path) ∈ t.(shadowed_paths)))) t.(entries) ++ t.(overlay_entries).
Record serves (t : FallbackCompletionNameTable) (H : Hints) : Prop := {
  serves_base : strict entry_order t.(entries);
  serves_index : t.(match_index) = fallback_match_index t.(entries);
  serves_by_path : t.(by_path) = foldl (fun m (ie : nat * IndexedFallbackCompletionName) => push_map m ie.2.(value).(path) ie.1) ∅ (imap pair t.(entries));
  serves_overlay : strict entry_order t.(overlay_entries);
  serves_shadowed e : e ∈ t.(overlay_entries) -> e.(value).(path) ∈ t.(shadowed_paths);
  serves_active e : e ∈ active t <-> exists h, h ∈ H /\ e = indexed h;
  serves_bound : (size t.(shadowed_paths) <= MAX_PATHS)%nat;
}.
Lemma build_serves rows R : one_language R -> (forall r, r ∈ rows <-> r ∈ R) -> serves (build alloc rows) (hints R).
Proof.
  intros Hl Hr. assert (one_family (hints rows)) as Hf. { apply hints_one_family. intros a b Ha Hb. apply Hl; by apply Hr. }
  split; cbn.
  - by apply sorted_entries_strict.
  - done.
  - done.
  - constructor.
  - by intros e ?%elem_of_nil.
  - intros e. unfold active. cbn. rewrite app_nil_r, List_filter_all by done. rewrite elem_of_sorted_entries.
    by setoid_rewrite (hints_same rows R Hr).
  - rewrite size_empty. lia.
Qed.
(** Once the paths are decided, what is active there is one strict list. *)
Lemma active_at t H p : serves t H -> List.filter (fun e => bool_decide (e.(value).(path) = p)) (active t) =
  List.filter (fun e => bool_decide (e.(value).(path) = p)) (if decide (p ∈ t.(shadowed_paths)) then t.(overlay_entries) else t.(entries)).
Proof.
  intros Hs. unfold active. rewrite List.filter_app, filter_filter. case_decide as Hp.
  - rewrite (List_filter_nil _ (entries t)); [done|].
    intros e _. case_bool_decide as E; [done|]. cbn [negb andb]. apply bool_decide_eq_false. intros <-. done.
  - rewrite (List_filter_nil _ (overlay_entries t)), app_nil_r.
    + apply List.filter_ext. intros e. destruct (decide (e.(value).(path) = p)) as [<-|Hne]; [by rewrite (bool_decide_false (_ ∈ _))|]. by rewrite (bool_decide_false (_ = _)), andb_false_r.
    + intros e He. apply bool_decide_eq_false. intros <-. by apply Hp, (serves_shadowed t H).
Qed.

(** A table lists exactly what a scan of the sorted hints lists. *)
Definition family_entries (family : SemanticFamily) (es : list IndexedFallbackCompletionName) : list IndexedFallbackCompletionName :=
  List.filter (fun e => bool_decide (e.(semantic_family) = family)) es.
#[export] Instance scored_order_lawful : LawfulCmp scored_order.
Proof. unfold scored_order. apply _. Qed.
Lemma strict_fmap_filter H p : one_family H -> strict entry_order (List.filter (fun e => bool_decide (e.(value).(path) = p)) (sorted_entries H)).
Proof. intros Hf. by apply strict_filter, sorted_entries_strict. Qed.
Lemma active_at_sorted t H p : one_family H -> serves t H ->
  List.filter (fun e => bool_decide (e.(value).(path) = p)) (active t) = List.filter (fun e => bool_decide (e.(value).(path) = p)) (sorted_entries H).
Proof.
  intros Hf Hs. apply (strict_unique entry_order).
  - rewrite (active_at t H p Hs). apply strict_filter. case_decide; [by apply (serves_overlay t H)|by apply (serves_base t H)].
  - by apply strict_fmap_filter.
  - intros e. rewrite !elem_of_filter_bool, (serves_active t H Hs), elem_of_sorted_entries. done.
Qed.
Lemma score_value needle e s : score_indexed_fallback needle e = Some s -> s.(scored) = e.(value).
Proof. unfold score_indexed_fallback. intros (x & _ & ->)%fmap_Some. done. Qed.
(** Equal scored names have one path, so sorting by score, name and path decides the order. *)
Lemma scored_class needle x l : List.filter (cmp_equal scored_order x) (omap (score_indexed_fallback needle) l) =
  List.filter (cmp_equal scored_order x) (omap (score_indexed_fallback needle) (List.filter (fun e => bool_decide (e.(value).(path) = x.(scored).(path))) l)).
Proof.
  induction l as [|e l IH]; [done|]. cbn [omap list_omap List.filter]. case_bool_decide as Hp; cbn [omap list_omap].
  - destruct (score_indexed_fallback needle e) as [s|]; [|done]. cbn [List.filter]. destruct (cmp_equal scored_order x s); [by rewrite IH|done].
  - destruct (score_indexed_fallback needle e) as [s|] eqn:E; [|done]. cbn [List.filter]. destruct (cmp_equal scored_order x s) eqn:Ec; [|done].
    exfalso. apply Hp. apply score_value in E as <-. unfold cmp_equal in Ec. destruct (scored_order x s) eqn:Eo; [|done..]. unfold scored_order in Eo. rewrite !cmp_lex_eq in Eo.
    destruct Eo as (_ & _ & Eo). by apply string_compare_eq in Eo.
Qed.
Lemma sorted_scores_unique needle l k : (forall p, List.filter (fun e => bool_decide (e.(value).(path) = p)) l = List.filter (fun e => bool_decide (e.(value).(path) = p)) k) ->
  sort_scored_fallbacks (omap (score_indexed_fallback needle) l) = sort_scored_fallbacks (omap (score_indexed_fallback needle) k).
Proof.
  intros H. apply (stable_sorted_unique scored_order); [apply sort_by_sorted, _..|]. intros x. unfold sort_scored_fallbacks. rewrite !sort_by_stable by apply _.
  by rewrite (scored_class _ _ l), (scored_class _ _ k), H.
Qed.
Lemma filter_comm {A} (f g : A -> bool) l : List.filter f (List.filter g l) = List.filter g (List.filter f l).
Proof. rewrite !filter_filter. apply List.filter_ext. intros; apply andb_comm. Qed.
Lemma active_family t family :
  List.filter (fun e => bool_decide (e.(semantic_family) = family) && negb (bool_decide (e.(value).(path) ∈ t.(shadowed_paths)))) t.(entries) ++
  List.filter (fun e => bool_decide (e.(semantic_family) = family)) t.(overlay_entries) = family_entries family (active t).
Proof. unfold family_entries, active. rewrite List.filter_app, filter_filter. f_equal. apply List.filter_ext. intros e. apply andb_comm. Qed.
Lemma matching_serves t H prefix limit family key : one_family H -> serves t H -> fallback_match_key (text (lower prefix)) = Some key ->
  matching_for_family t prefix limit family =
  take limit (sort_scored_fallbacks (omap (score_indexed_fallback (lower prefix)) (family_entries family (sorted_entries H)))).
Proof.
  intros Hf Hs Hk. unfold matching_for_family. destruct limit as [|limit]; [done|]. cbn [Nat.eqb]. rewrite Hk, (serves_index t H Hs), match_index_entries.
  rewrite filter_comm, (key_filter _ _ _ Hk), <- omap_app, (active_family t family). f_equal. apply sorted_scores_unique. intros p.
  unfold family_entries. by rewrite filter_comm, (active_at_sorted t H p Hf Hs), filter_comm.
Qed.
(** ** An update keeps the table serving the rows *)

Lemma old_entries_spec t changed : t.(by_path) = foldl (fun m (ie : nat * IndexedFallbackCompletionName) => push_map m ie.2.(value).(path) ie.1) ∅ (imap pair t.(entries)) ->
  forall old l, old_entries t changed old = Some l ->
  forall e, e ∈ l <-> e ∈ old \/ e ∈ t.(entries) /\ e.(value).(path) ∈ changed /\ e.(value).(path) ∉ t.(shadowed_paths).
Proof.
  intros Hb. induction changed as [|p changed IH]; intros old l; cbn [old_entries]; [intros [= <-] e; rewrite elem_of_nil; tauto|].
  assert (forall e, e ∈ omap (fun index => t.(entries) !! index) (default [] (t.(by_path) !! p)) <-> e ∈ t.(entries) /\ e.(value).(path) = p) as Hp.
  { intros e. rewrite Hb, list_elem_of_omap. setoid_rewrite by_path_lookup. rewrite list_elem_of_lookup. split.
    - intros (i & (e' & H1 & H2) & H3). rewrite H1 in H3. injection H3 as ->. split; [by exists i|done].
    - intros ([i Hi] & He). exists i. split; [by exists e|done]. }
  case_bool_decide as Hsh; [intros H e; rewrite (IH _ _ H e), elem_of_cons; intuition congruence|].
  destruct (by_path t !! p) as [indices|].
  - destruct (_ <? _)%N; [done|]. intros H e. rewrite (IH _ _ H e), elem_of_app, Hp, elem_of_cons. destruct (decide (e.(value).(path) = p)) as [E|E]; [rewrite E|]; tauto.
  - intros H e. rewrite (IH _ _ H e), elem_of_cons. specialize (Hp e). cbn in Hp. rewrite elem_of_nil in Hp. intuition congruence.
Qed.
(** What the update compares and replaces: the active entries at the changed paths. *)
Lemma elem_of_active t e : e ∈ active t <-> e ∈ t.(entries) /\ e.(value).(path) ∉ t.(shadowed_paths) \/ e ∈ t.(overlay_entries).
Proof. unfold active. rewrite elem_of_app, elem_of_filter_bool, negb_true_iff, bool_decide_eq_false. done. Qed.
Lemma old_active t H (paths : list string) old : serves t H -> old_entries t (elements (list_to_set paths : gset string)) [] = Some old ->
  forall e, e ∈ old ++ List.filter (fun e => bool_decide (e.(value).(path) ∈ (list_to_set paths : gset string))) t.(overlay_entries) <-> e ∈ active t /\ e.(value).(path) ∈ paths.
Proof.
  intros Hs Ho e. rewrite elem_of_app, (old_entries_spec t _ (serves_by_path t H Hs) _ _ Ho e), elem_of_active, elem_of_filter_bool, bool_decide_eq_true.
  rewrite elem_of_elements, elem_of_list_to_set, elem_of_nil. tauto.
Qed.

(** Outside the paths nothing changed. *)
Definition told (R : list FallbackCompletionRow) (paths : list string) (R' : list FallbackCompletionRow) : Prop :=
  forall r, r.(row_path) ∉ paths -> r ∈ R <-> r ∈ R'.
Lemma hints_told R paths R' h : told R paths R' -> h.1.(path) ∉ paths -> h ∈ hints R <-> h ∈ hints R'.
Proof.
  intros Ht Hh. rewrite !elem_of_hints. split; intros (r & Hr & E); exists r; (split; [|done]); apply row_entry_path in E as [E _]; apply Ht; congruence.
Qed.
Lemma hints_at R' (paths : list string) rows h : (forall r, r ∈ rows <-> r ∈ R' /\ r.(row_path) ∈ paths) -> h ∈ hints rows <-> h ∈ hints R' /\ h.1.(path) ∈ paths.
Proof.
  intros Hr. rewrite !elem_of_hints. setoid_rewrite Hr. split.
  - intros (r & [Hr1 Hr2] & E). pose proof (row_entry_path r h E) as [-> _]. split; [by exists r|done].
  - intros [(r & Hr1 & E) Hp]. pose proof (row_entry_path r h E) as [Ep _]. exists r. split; [split; [done|congruence]|done].
Qed.
Lemma pair_of_indexed h : (fun e => (e.(value), e.(semantic_family))) (indexed h) = h.
Proof. by destruct h. Qed.
Lemma active_told t R paths R' e : serves t (hints R) -> told R paths R' -> e.(value).(path) ∉ paths -> e ∈ active t <-> exists h, h ∈ hints R' /\ e = indexed h.
Proof.
  intros Hs Ht Hp. rewrite (serves_active t (hints R) Hs). split; intros (h & Hh & ->); exists h; (split; [|done]); by apply (hints_told R paths R' h Ht Hp).
Qed.
Abbreviation pairs := (fmap (fun e => (e.(value), e.(semantic_family)))).
Lemma pairs_indexed (es : list IndexedFallbackCompletionName) h : (forall e, e ∈ es -> exists h, e = indexed h) -> h ∈ (pairs es : Hints) <-> indexed h ∈ es.
Proof.
  intros Hes. rewrite list_elem_of_fmap. split.
  - intros (e & -> & He). destruct (Hes e He) as [h' ->]. by rewrite pair_of_indexed.
  - intros He. exists (indexed h). by rewrite pair_of_indexed.
Qed.
Lemma overlay_serves t R paths fresh R' : one_language R' -> serves t (hints R) -> told R paths R' ->
  (forall e, e ∈ fresh <-> exists h, (h ∈ hints R' /\ h.1.(path) ∈ paths) /\ e = indexed h) ->
  (size (t.(shadowed_paths) ∪ list_to_set paths) <= MAX_PATHS)%nat ->
  serves (with_updated_family_paths t (t.(shadowed_paths) ∪ list_to_set paths)
    (pairs (List.filter (fun e => negb (bool_decide (e.(value).(path) ∈ (list_to_set paths : gset string)))) t.(overlay_entries) ++ fresh))) (hints R').
Proof.
  intros Hl Hs Ht Hfresh Hb. unfold with_updated_family_paths. set (shadowed := shadowed_paths t ∪ list_to_set paths) in *.
  rewrite List_filter_nil; [|intros e He%(serves_shadowed t (hints R) Hs); rewrite bool_decide_true by set_solver; done]. cbn [fmap list_fmap app].
  set (overlay := List.filter _ _ ++ fresh).
  assert (forall e, e ∈ overlay <-> (e ∈ overlay_entries t /\ e.(value).(path) ∉ paths) \/ e ∈ fresh) as Hov.
  { intros e. unfold overlay. rewrite elem_of_app, elem_of_filter_bool, negb_true_iff, bool_decide_eq_false, elem_of_list_to_set. done. }
  assert (forall e, e ∈ overlay -> exists h, h ∈ hints R' /\ e = indexed h) as Hin.
  { intros e [[He Hp]|(h & [? _] & ->)%Hfresh]%Hov; [|by exists h]. apply (active_told t R paths R' e Hs Ht Hp). apply elem_of_active. by right. }
  assert (forall h, h ∈ (pairs overlay : Hints) -> h ∈ hints R') as Hpairs.
  { intros h0 (e & -> & He)%list_elem_of_fmap. destruct (Hin e He) as (h & Hh & ->). by rewrite pair_of_indexed. }
  assert (forall e, e ∈ sorted_entries (pairs overlay) <-> e ∈ overlay) as Helem.
  { intros e. rewrite elem_of_sorted_entries. setoid_rewrite (pairs_indexed overlay); [|intros e' (g & _ & ->)%Hin; by exists g].
    split; [by intros (h & ? & ->)|]. intros He. destruct (Hin e He) as (h & _ & ->). by exists h. }
  split; cbn -[active]; try apply Hs.
  - apply sorted_entries_strict. intros a b Ha Hb'. apply (hints_one_family R' Hl).
    + by apply Hpairs.
    + by apply Hpairs.
  - intros e [[He _]|(h & [_ Hp] & ->)%Hfresh]%Helem%Hov; [apply (serves_shadowed t (hints R) Hs) in He|]; set_solver.
  - intros e. rewrite elem_of_active. cbn. rewrite Helem, Hov, Hfresh. destruct (decide (e.(value).(path) ∈ paths)) as [Hp|Hp].
    + split; [intros [[_ Hn]|[[_ ?]|(h & [? _] & ->)]]; [set_solver|done|by exists h]|]. intros (h & ? & ->). right. right. by exists h.
    + rewrite <- (active_told t R paths R' e Hs Ht Hp), elem_of_active. split.
      * intros [[? ?]|[[? _]|(h & [_ ?] & ->)]]; [left; set_solver|by right|done].
      * intros [[? ?]|?]; [left; set_solver|by right; left].
  - by replace (shadowed_paths t ∪ shadowed) with shadowed by set_solver.
Qed.
Lemma update_serves t R paths rows R' t' : one_language R' -> serves t (hints R) -> told R paths R' -> (forall r, r ∈ rows <-> r ∈ R' /\ r.(row_path) ∈ paths) ->
  update_published_rows alloc t paths rows = Some t' -> serves t' (hints R').
Proof.
  intros Hl Hs Ht Hrows. unfold update_published_rows. destruct (old_entries _ _ _) as [old|] eqn:Eo; [|done]. cbn [mbind option_bind].
  pose proof (old_active t (hints R) paths old Hs Eo) as Hold. set (changed := list_to_set paths : gset string) in *.
  assert (forall e, e ∈ entries (build alloc rows) <-> exists h, (h ∈ hints R' /\ h.1.(path) ∈ paths) /\ e = indexed h) as Hfresh.
  { intros e. cbn. rewrite elem_of_sorted_entries. fold (hints rows). by setoid_rewrite (hints_at R' paths rows _ Hrows). }
  case_bool_decide as Esame.
  { intros [= <-]. destruct Hs as [H1 H2 H3 H4 H5 H6 H7]. split; [done..| |done]. intros e.
    assert (e ∈ active t /\ e.(value).(path) ∈ paths <-> e ∈ entries (build alloc rows)) as Hsame by (rewrite <- Esame, elem_of_sort_by, Hold; done).
    rewrite Hfresh in Hsame. destruct (decide (e.(value).(path) ∈ paths)) as [Hp|Hp].
    - split; [intros He; destruct (proj1 Hsame) as (h & [? _] & ?); [done|by exists h]|]. intros (h & Hh & ->). apply Hsame. by exists h.
    - by apply (active_told t R paths). }
  destruct (MAX_PATHS <? _)%nat eqn:Em; [done|]. destruct (MAX_ROWS <? _)%N; [done|]. destruct (_ <? _)%N; [done|]. apply Nat.ltb_ge in Em. intros [= <-].
  by apply (overlay_serves t R).
Qed.
(** The scan of the rows, and of names of one family. *)
Definition scan (R : list FallbackCompletionRow) (prefix : string) (limit : nat) (family : SemanticFamily) : list ScoredFallbackCompletionName :=
  fallback_matches (value <$> family_entries family (sorted_entries (hints R))) prefix limit.
Lemma scan_scores H prefix family : omap (score_indexed_fallback (lower prefix)) (family_entries family (sorted_entries H)) =
  omap (fun e => (fun score => mkScored score e) <$> completion_word_score prefix e.(name) 0) (value <$> family_entries family (sorted_entries H)).
Proof.
  assert (forall e, e ∈ family_entries family (sorted_entries H) -> e.(lowered) = lower e.(value).(name)) as Hl.
  { intros e [(h & _ & ->)%elem_of_sorted_entries _]%elem_of_filter_bool. done. }
  induction (family_entries family (sorted_entries H)) as [|e l IH]; [done|]. cbn [omap list_omap fmap list_fmap]. rewrite IH by (intros; apply Hl; by right).
  unfold score_indexed_fallback, completion_word_score. by rewrite (Hl e) by left.
Qed.

(** The tables a root publishes: built from the rows of the store, and updated from the rows
    of the changed paths after each change of the store. *)
Inductive published_fallback : FallbackCompletionNameTable -> list FallbackCompletionRow -> Prop :=
  | fallback_built rows R : one_language R -> (forall r, r ∈ rows <-> r ∈ R) -> published_fallback (build alloc rows) R
  | fallback_updated t R paths R' select all_rows : published_fallback t R -> one_language R' -> told R paths R' ->
      selects select R' -> (forall r, r ∈ all_rows <-> r ∈ R') ->
      published_fallback (update_fallback_completion_table alloc select t paths all_rows) R'.
Lemma published_one_language t R : published_fallback t R -> one_language R.
Proof. by destruct 1. Qed.
Lemma published_serves t R : published_fallback t R -> serves t (hints R).
Proof.
  induction 1 as [rows R Hl Hr|t R paths R' select all_rows _ IH Hl Ht Hsel Hall]; [by apply build_serves|].
  unfold update_fallback_completion_table. destruct (by_paths_limited _ _ _) as [rows truncated] eqn:E. destruct truncated; [by apply build_serves|].
  destruct (update_published_rows alloc t paths rows) as [t'|] eqn:Eu; [|by apply build_serves].
  by apply (update_serves t R paths rows R' t' Hl IH Ht (by_paths_limited_ok _ _ _ _ _ Hsel E)).
Qed.

(** C38 Whatever sequence of builds and updates produced a published fallback table, and
    whatever order the store delivered its rows in, the names it lists for a prefix are those
    a scan of all rows of the store lists, in the same order, when the first three bytes of the
    prefix are ASCII; it lists nothing for other prefixes; and it shadows at most 256 paths. *)
Theorem fallback_lists_scan t R prefix limit family : published_fallback t R ->
  matching_for_family t prefix limit family =
    (match fallback_match_key (text (lower prefix)) with Some _ => scan R prefix limit family | None => [] end) /\
  (delta_partitions t <= MAX_PATHS)%nat.
Proof.
  intros H. pose proof (published_serves t R H) as Hs. split; [|apply (serves_bound t _ Hs)].
  destruct (fallback_match_key _) as [key|] eqn:Hk.
  - rewrite (matching_serves t (hints R) prefix limit family key (hints_one_family R (published_one_language t R H)) Hs Hk), scan_scores. done.
  - unfold matching_for_family. rewrite Hk. by destruct (_ =? _)%nat.
Qed.
End published.

(** ** Examples *)

Definition example_fallback_alloc : FallbackAllocation :=
  mkFallbackAllocation 96 (fun s => N.of_nat (String.length s)) (fun _ => 0%N) (fun _ => 0%N) (fun _ => 0%N) 120.
Definition example_fallback_row (n p : string) : FallbackCompletionRow := mkFallbackRow n 0 p None CFamily.
Definition example_stored : list FallbackCompletionRow := [example_fallback_row "render_map" "src/a.c"; example_fallback_row "mapSize" "src/b.c"].
Definition example_stored' : list FallbackCompletionRow := [example_fallback_row "mapSize" "src/b.c"; example_fallback_row "remap" "src/a.c"; example_fallback_row "mapped" "src/a.c"].
Definition example_select (chunk : list string) (probe : nat) : list FallbackCompletionRow :=
  take probe (List.filter (fun r => bool_decide (r.(row_path) ∈ chunk)) example_stored').
Definition example_fallback : FallbackCompletionNameTable :=
  update_fallback_completion_table example_fallback_alloc example_select (build example_fallback_alloc example_stored) ["src/a.c"] example_stored'.
Example example_fallback_listed :
  ((fun s => (s.(score), s.(scored).(name))) <$> matching_for_family example_fallback "map" 10 CFamily) = [(550, "mapSize"); (550, "mapped"); (250, "remap")]%Z /\
  ((fun s => s.(scored).(name)) <$> matching_for_family example_fallback "ma" 10 CFamily) = ["mapSize"; "mapped"] /\ delta_partitions example_fallback = 1.
Proof. vm_compute. done. Qed.
Example fallback_lists_scan_witness : matching_for_family example_fallback "map" 10 CFamily =
    (match fallback_match_key (text (lower "map")) with Some _ => scan example_stored' "map" 10 CFamily | None => [] end) /\ (delta_partitions example_fallback <= MAX_PATHS)%nat.
Proof.
  apply (fallback_lists_scan example_fallback_alloc).
  assert (forall R, (forall r, r ∈ R -> r.(row_family) = CFamily) -> one_language R) as Hl by (intros R H a b Ha Hb _; by rewrite (H a Ha), (H b Hb)).
  apply (fallback_updated _ _ example_stored).
  - constructor; [|done]. apply Hl. by apply Forall_forall; repeat constructor.
  - apply Hl. by apply Forall_forall; repeat constructor.
  - intros r Hr. unfold example_stored, example_stored'. rewrite !elem_of_cons, !elem_of_nil. split; intros; destruct_or!; subst; try tauto; exfalso; apply Hr; by left.
  - intros chunk probe. exists (List.filter (fun r => bool_decide (r.(row_path) ∈ chunk)) example_stored'). split; [|done].
    intros r. by rewrite elem_of_filter_bool, bool_decide_eq_true.
  - done.
Defined.
(** A name that is not ASCII is scored by the scan and never looked up by the table. *)
Example accented_prefix : let rows := [example_fallback_row "école" "src/a.c"] in
  length (scan rows "éco" 10 CFamily) = 1 /\ matching_for_family (build example_fallback_alloc rows) "éco" 10 CFamily = [] /\
  length (scan rows "co" 10 CFamily) = 0 /\ length (matching_for_family (build example_fallback_alloc rows) "col" 10 CFamily) = 1.
Proof. vm_compute. done. Qed.
