(* ===== verification/ReadModels.v ===== *)
(** * The read models of a root and the store they are read from (store/views.rs,
    store/views/go_package_graph.rs, server/indexing/cache.rs)

    What one generation of the index holds, the views that read it, and for every read model
    how it is rebuilt and how it is updated from the rows of the changed paths. A program that
    reads is a tree of queries, so that other clients of the store may act between two of
    them. [ReadModel] is what a publication relies on: rebuilding over some facts gives a model
    that serves them, and so does updating a model that served the facts before the change. *)

From S2P Require Import Prelude CallModel Searching Reachability Candidates Includes IndexedFiles IncludeTable IncludePaths GoImports FallbackTable.

(** ** What a generation holds *)

Record FileRow : Type := mkFile { file_path : string; file_workspace : bool; unresolved_includes : Z; ambiguous_includes : Z }.
Record Facts : Type := mkFacts {
  fa_files : list FileRow;
  fa_edges : list IncludeEdgeRow;
  fa_package_files : list GoPackageFileRow;
  fa_package_edges : list GoPackageEdgeRow;
  fa_open_packages : list GoOpenPackageRow;
  fa_importable : list GoImportablePackageRow;
  fa_fallback : list FallbackCompletionRow;
}.
(** What an index run reports as changed: the paths, and the sources whose include edges it
    has resolved again. *)
Record Change : Type := mkChange { changed_paths : list string; changed_sources : list string }.

Definition live (F : Facts) (path : string) : Prop := path ∈ file_path <$> F.(fa_files).
Definition in_workspace (F : Facts) (path : string) : Prop := exists f, f ∈ F.(fa_files) /\ f.(file_path) = path /\ f.(file_workspace) = true.
Definition edge_pair (e : IncludeEdgeRow) : string * string := (e.(ie_source_path), e.(ie_target_path)).
Record facts_ok (F : Facts) : Prop := {
  ok_files : NoDup (file_path <$> F.(fa_files));
  ok_importable : NoDup (row_package_key <$> F.(fa_importable));
  ok_directories row dir : row ∈ F.(fa_importable) -> directory_of row.(row_package_key) = Some dir -> ~ exists a b, dir = a +:+ "#" +:+ b;
  ok_packages row : row ∈ F.(fa_importable) -> importable row = true;
  ok_fallback : one_language F.(fa_fallback);
}.

(** ** Reading *)

(** [q facts rows] says which rows a query may deliver over these facts. A query may also
    fail; the program then goes on with [h]. *)
Inductive Read (A : Type) : Type :=
  | Done (a : A)
  | Query {B : Type} (q : Facts -> B -> Prop) (k : B -> Read A) (h : Read A)
  | Panic.
Arguments Done {A} a.
Arguments Query {A B} q k h.
Arguments Panic {A}.
Fixpoint read_bind {A B} (p : Read A) (f : A -> Read B) : Read B :=
  match p with Done a => f a | Query q k h => Query q (fun b => read_bind (k b) f) (read_bind h f) | Panic => Panic end.
Definition query {A} (q : Facts -> A -> Prop) : Read A := Query q Done Panic.
Declare Scope read_scope.
Delimit Scope read_scope with read.
Notation "x <- p ; q" := (read_bind p (fun x => q)) (at level 100, p at next level, q at level 200, right associativity) : read_scope.
(** What the program gives when nothing changes while it reads. *)
Fixpoint gives {A} (F : Facts) (p : Read A) (a : A) : Prop :=
  match p with Done x => x = a | Query q k h => (exists b, q F b /\ gives F (k b) a) \/ gives F h a | Panic => False end.
Lemma gives_bind {A B} F (p : Read A) (f : A -> Read B) b : gives F (read_bind p f) b <-> exists a, gives F p a /\ gives F (f a) b.
Proof.
  induction p as [a|C q k IH h IHh|]; cbn [read_bind gives]; [by split; [intros H; exists a|intros (? & -> & ?)]| |by split; [|intros (? & ? & _)]].
  setoid_rewrite IH. rewrite IHh. naive_solver.
Qed.
Lemma gives_query {A} F (q : Facts -> A -> Prop) a : gives F (query q) a <-> q F a.
Proof. cbn. split; [by intros [(b & ? & ->)|[]]|left; by exists a]. Qed.

(** ** Views

    Rows come in any order where no reader depends on it; [LIMIT] takes the first of them. A
    publication asks for at most 256 paths or sources, so a view that splits its list into
    chunks of 256 or 400 runs one statement. *)

Definition workspace_paths (F : Facts) (out : list string) : Prop :=
  out = sort_by String.compare (file_path <$> List.filter file_workspace F.(fa_files)).
Definition include_resolution_paths (F : Facts) (out : list (string * bool)) : Prop :=
  out = (fun f => (f.(file_path), f.(file_workspace))) <$> sort_by (cmp_on file_path String.compare) F.(fa_files).
Definition among (paths : list string) (path : string) : bool := bool_decide (path ∈ paths).
Definition include_resolution_paths_for_paths (paths : list string) (F : Facts) (out : list (string * bool)) : Prop :=
  out = take 256 ((fun f => (f.(file_path), f.(file_workspace))) <$>
    sort_by (cmp_on file_path String.compare) (List.filter (fun f => among paths f.(file_path)) F.(fa_files))).
Definition indexed_workspace_files_for_paths (paths : list string) (F : Facts) (out : list string) : Prop :=
  out = sort_by String.compare (file_path <$> List.filter (fun f => f.(file_workspace) && among paths f.(file_path)) F.(fa_files)).
Definition include_edges (F : Facts) (out : list IncludeEdgeRow) : Prop := out ≡ₚ F.(fa_edges).
Definition limited {A} (limit : nat) (rows : list A) : list A * bool :=
  let probed := take (limit + 1) rows in
  if (limit <? length probed)%nat then (take limit probed, true) else (probed, false).
Definition include_edges_for_sources_limited (sources : list string) (limit : nat) (F : Facts) (out : list IncludeEdgeRow * bool) : Prop :=
  exists rows, rows ≡ₚ List.filter (fun e => among sources e.(ie_source_path)) F.(fa_edges) /\ out = limited limit rows.
Definition open_rows (reason : OpenReason) (count : FileRow -> Z) (F : Facts) (out : list OpenIncludeRow) : Prop :=
  out ≡ₚ (fun f => mkOpenIncludeRow f.(file_path) reason) <$> List.filter (fun f => (0 <? count f)%Z) F.(fa_files).
Definition unresolved_rows := open_rows UnresolvedInclude unresolved_includes.
Definition ambiguous_rows := open_rows AmbiguousInclude ambiguous_includes.
Definition open_of (f : FileRow) : option OpenReason :=
  if (0 <? f.(unresolved_includes))%Z then Some UnresolvedInclude
  else if (0 <? f.(ambiguous_includes))%Z then Some AmbiguousInclude else None.
Definition include_data_for_sources (sources : list string) (F : Facts) (out : list IncludeEdgeRow * list OpenIncludeRow) : Prop :=
  out.1 ≡ₚ List.filter (fun e => among sources e.(ie_source_path)) F.(fa_edges) /\
  out.2 ≡ₚ omap (fun f => mkOpenIncludeRow f.(file_path) <$> open_of f) (List.filter (fun f => among sources f.(file_path)) F.(fa_files)).
Definition package_files (F : Facts) (out : list GoPackageFileRow) : Prop := out ≡ₚ F.(fa_package_files).
Definition package_edges_view (F : Facts) (out : list GoPackageEdgeRow) : Prop := out ≡ₚ F.(fa_package_edges).
Definition open_packages_view (F : Facts) (out : list GoOpenPackageRow) : Prop := out ≡ₚ F.(fa_open_packages).
Definition importable_packages (F : Facts) (out : list GoImportablePackageRow) : Prop := out ≡ₚ F.(fa_importable).
(** [package_key >= 'dir#' AND package_key < 'dir$' ORDER BY package_key] *)
Definition in_directory (directory key : string) : bool :=
  negb (bool_decide (String.compare key (directory +:+ "#") = Lt)) && bool_decide (String.compare key (directory +:+ "$") = Lt).
Fixpoint importable_loop (directories : list string) (limit : nat) (F : Facts) (output : list GoImportablePackageRow) : list GoImportablePackageRow * bool :=
  match directories with
  | [] => (output, false)
  | directory :: directories =>
      let rows := sort_by (cmp_on row_package_key String.compare) (List.filter (fun row => in_directory directory row.(row_package_key)) F.(fa_importable)) in
      let output := output ++ take ((limit - length output) + 1) rows in
      if (limit <? length output)%nat then (take limit output, true) else importable_loop directories limit F output
  end.
Definition importable_packages_for_directories (directories : list string) (limit : nat) (F : Facts) (out : list GoImportablePackageRow * bool) : Prop :=
  out = importable_loop directories limit F [].
Definition fallback_all (F : Facts) (out : list FallbackCompletionRow) : Prop := out ≡ₚ F.(fa_fallback).
Definition fallback_by_paths (paths : list string) (F : Facts) (out : list FallbackCompletionRow * bool) : Prop :=
  exists select, selects select F.(fa_fallback) /\ out = by_paths_limited select paths (N.to_nat 8192).

(** ** The interface of a read model *)

Record change_ok (c : Change) : Prop := {
  co_paths : (length c.(changed_paths) <= 256)%nat;
  co_sources : (length c.(changed_sources) <= 256)%nat;
  co_distinct : NoDup c.(changed_sources);
}.
(** [path.rsplit_once('/')], the directory or a dot. *)
Definition go_directory (path : string) : string :=
  match rsplit_slash path with Some (dir, _) => if String.eqb dir "" then "." else dir | None => "." end.
Definition go_directories (paths : list string) : list string := dedup String.eqb (sort_by String.compare (go_directory <$> paths)).
(** What an incremental run leaves as it was: the files and fallback names of other
    paths, the include edges of other sources that still exist, the Go packages of other directories. [go] tells
    the paths of Go files. *)
Record changes (go : string -> bool) (F : Facts) (c : Change) (F' : Facts) : Prop := {
  ch_files path flag : path ∉ c.(changed_paths) ->
    (exists f, f ∈ F.(fa_files) /\ f.(file_path) = path /\ f.(file_workspace) = flag) <-> (exists f, f ∈ F'.(fa_files) /\ f.(file_path) = path /\ f.(file_workspace) = flag);
  ch_sources_known s : s ∉ c.(changed_sources) -> live F' s -> live F s;
  ch_edges e : e.(ie_source_path) ∉ c.(changed_sources) -> live F' e.(ie_source_path) -> e ∈ F.(fa_edges) <-> e ∈ F'.(fa_edges);
  ch_open f f' : f ∈ F.(fa_files) -> f' ∈ F'.(fa_files) -> f.(file_path) = f'.(file_path) -> f'.(file_path) ∉ c.(changed_sources) -> open_of f = open_of f';
  ch_packages row : belongs (list_to_set (go_directories c.(changed_paths))) row.(row_package_key) = false -> row ∈ F.(fa_importable) <-> row ∈ F'.(fa_importable);
  ch_no_packages : existsb go c.(changed_paths) = false -> forall row, row ∈ F.(fa_importable) <-> row ∈ F'.(fa_importable);
  ch_fallback : told F.(fa_fallback) c.(changed_paths) F'.(fa_fallback);
}.

Class ReadModel (go : string -> bool) (M : Type) : Type := {
  rebuild : Read M;
  update : M -> Change -> Read M;
  serves : M -> Facts -> Prop;
  rebuild_serves F m : facts_ok F -> gives F rebuild m -> serves m F;
  update_serves F c F' m m' : facts_ok F -> facts_ok F' -> change_ok c -> changes go F c F' -> serves m F -> gives F' (update m c) m' -> serves m' F';
}.
Arguments rebuild {go} M {_}.

Lemma perm_elem {A} (l k : list A) x : l ≡ₚ k -> x ∈ l <-> x ∈ k.
Proof. intros H. by rewrite H. Qed.

(** *** Fallback names *)

Section fallback.
Context (go : string -> bool) (alloc : FallbackAllocation).
Definition rebuild_fallback_completion_table : Read FallbackCompletionNameTable :=
  (rows <- query fallback_all; Done (FallbackTable.build alloc rows))%read.
Definition update_fallback_completion_table (previous : FallbackCompletionNameTable) (paths : list string) : Read FallbackCompletionNameTable :=
  (answer <- query (fallback_by_paths paths);
   match (if answer.2 then None else FallbackTable.update_published_rows alloc previous paths answer.1) with
   | Some updated => Done updated
   | None => rebuild_fallback_completion_table
   end)%read.
#[export] Program Instance fallback_model : ReadModel go FallbackCompletionNameTable := {
  rebuild := rebuild_fallback_completion_table;
  update previous c := update_fallback_completion_table previous c.(changed_paths);
  serves t F := published_fallback alloc t F.(fa_fallback);
}.
Next Obligation.
  intros F m Hok (rows & Hrows & <-)%gives_bind. apply gives_query in Hrows. constructor; [apply Hok|]. intros r. by apply perm_elem.
Qed.
Next Obligation.
  intros F c F' m m' _ Hok _ Hc Hs H. apply gives_bind in H as (answer & (select & Hsel & ->)%gives_query & H). pose proof (ch_fallback _ _ _ _ Hc) as Ht.
  assert (exists all_rows, (forall r, r ∈ all_rows <-> r ∈ fa_fallback F') /\ m' = FallbackTable.update_fallback_completion_table alloc select m c.(changed_paths) all_rows) as (all_rows & Hall & ->).
  { unfold FallbackTable.update_fallback_completion_table. destruct (by_paths_limited _ _ _) as [rows truncated]. cbn [fst snd] in H.
    destruct (if truncated then None else _) as [t|]; [by exists (fa_fallback F'); split; [|symmetry]|].
    apply gives_bind in H as (all_rows & Hall%gives_query & <-). exists all_rows. split; [|done]. intros r. by apply perm_elem. }
  apply (fallback_updated alloc m F.(fa_fallback)); [done|apply Hok|done..].
Qed.
End fallback.

(** *** Include paths *)

Definition file_flag (F : Facts) (path : string) (flag : bool) : Prop := exists f, f ∈ F.(fa_files) /\ f.(file_path) = path /\ f.(file_workspace) = flag.
Lemma file_of_path F f g : facts_ok F -> f ∈ F.(fa_files) -> g ∈ F.(fa_files) -> f.(file_path) = g.(file_path) -> f = g.
Proof.
  intros Hok [i Hf]%list_elem_of_lookup [j Hg]%list_elem_of_lookup E. assert (i = j) as ->; [|congruence].
  apply (NoDup_lookup _ i j f.(file_path) (ok_files _ Hok)); rewrite list_lookup_fmap; [by rewrite Hf|by rewrite Hg, E].
Qed.
Lemma file_flag_unique F path a b : facts_ok F -> file_flag F path a -> file_flag F path b -> a = b.
Proof. intros Hok (f & Hf & E & <-) (g & Hg & E' & <-). by rewrite (file_of_path F f g Hok Hf Hg) by congruence. Qed.
Lemma live_flag F path : live F path <-> exists flag, file_flag F path flag.
Proof.
  unfold live, file_flag. rewrite list_elem_of_fmap. split; [intros (f & -> & Hf); by exists f.(file_workspace), f|intros (flag & f & Hf & <- & _); by exists f].
Qed.
Lemma fresh_rows_lookup rows path flag : NoDup rows.*1 -> fresh_rows rows !! path = Some flag <-> (path, flag) ∈ rows.
Proof.
  unfold fresh_rows. induction rows as [|[p b] rows IH] using rev_ind; intros Hnd; [cbn; rewrite lookup_empty, elem_of_nil; done|].
  rewrite fmap_app in Hnd. apply NoDup_app in Hnd as (Hnd & Hdis & _). rewrite foldl_app, elem_of_app, list_elem_of_singleton. cbn [foldl fst snd].
  destruct (decide (p = path)) as [->|Hne].
  - rewrite lookup_insert_eq. split; [intros [= ->]; by right|]. intros [H|[= ->]]; [|done]. exfalso. apply (Hdis path); [apply list_elem_of_fmap; by exists (path, flag)|by left].
  - rewrite lookup_insert_ne, IH by done. split; [by left|]. intros [?|[= ? ?]]; [done|congruence].
Qed.
Lemma rows_flag_lookup rows path flag : NoDup rows.*1 -> rows_map rows !! path = Some flag <-> (path, flag) ∈ rows.
Proof.
  intros Hnd. rewrite rows_map_flagged. unfold flagged. assert (forall a b, (path, a) ∈ rows -> (path, b) ∈ rows -> a = b) as Hu.
  { intros a b [i Ha]%list_elem_of_lookup [j Hb]%list_elem_of_lookup. assert (i = j) as ->; [|congruence].
    apply (NoDup_lookup _ i j path Hnd); rewrite list_lookup_fmap; [by rewrite Ha|by rewrite Hb]. }
  split.
  - intros [[b Hb] Hf]. destruct flag; [by apply Hf|]. destruct b; [|done]. by apply Hf in Hb.
  - intros H. split; [by exists flag|]. split; [by intros ->|]. intros Ht. by apply (Hu flag true).
Qed.
Lemma path_rows_flag (files : list FileRow) path flag : (path, flag) ∈ ((fun f => (f.(file_path), f.(file_workspace))) <$> files) <-> exists f, f ∈ files /\ f.(file_path) = path /\ f.(file_workspace) = flag.
Proof. rewrite list_elem_of_fmap. split; [intros (f & [= -> ->] & Hf); by exists f|intros (f & Hf & <- & <-); by exists f]. Qed.
Lemma path_rows_nodup (files l : list FileRow) : NoDup (file_path <$> files) -> l ⊆+ files -> NoDup (((fun f => (f.(file_path), f.(file_workspace))) <$> l).*1).
Proof.
  intros Hnd Hs. rewrite <- list_fmap_compose. apply (NoDup_of_submseteq _ (file_path <$> files)); [|done]. by apply fmap_submseteq.
Qed.
Lemma among_count (files : list FileRow) paths : NoDup (file_path <$> files) -> (length (List.filter (fun f => among paths f.(file_path)) files) <= length paths)%nat.
Proof.
  intros Hnd. rewrite <- (length_fmap file_path). apply submseteq_length, NoDup_submseteq.
  - eapply NoDup_of_submseteq; [apply sublist_submseteq, fmap_sublist, list_filter_bool_sublist|done].
  - intros p (f & -> & [_ Hp%bool_decide_eq_true]%elem_of_filter_bool)%list_elem_of_fmap. done.
Qed.

Section include_paths.
Context (go : string -> bool) (alloc : PathAllocation).
Definition rebuild_include_path_index : Read IncludePathIndex :=
  (rows <- query include_resolution_paths; Done (IncludePaths.build alloc rows))%read.
Definition update_include_path_index (previous : IncludePathIndex) (paths : list string) : Read IncludePathIndex :=
  (rows <- query (include_resolution_paths_for_paths paths);
   match IncludePaths.updated_paths alloc previous paths rows with Some updated => Done updated | None => rebuild_include_path_index end)%read.
Definition serves_paths (idx : IncludePathIndex) (F : Facts) : Prop :=
  exists m, IncludePaths.published alloc idx m /\ forall path flag, m !! path = Some flag <-> file_flag F path flag.
Lemma rebuild_paths_serves F m : facts_ok F -> gives F rebuild_include_path_index m -> serves_paths m F.
Proof.
  intros Hok (rows & ->%gives_query & <-)%gives_bind. eexists. split; [apply published_build|]. intros path flag.
  rewrite rows_flag_lookup by (eapply path_rows_nodup; [apply Hok|by rewrite sort_by_perm]).
  rewrite path_rows_flag. unfold file_flag. by setoid_rewrite (elem_of_sort_by (cmp_on file_path String.compare)).
Qed.
Lemma fresh_paths_flag F paths path flag : facts_ok F -> (length paths <= 256)%nat -> path ∈ paths ->
  fresh_rows (take 256 ((fun f => (f.(file_path), f.(file_workspace))) <$> sort_by (cmp_on file_path String.compare) (List.filter (fun f => among paths f.(file_path)) F.(fa_files)))) !! path = Some flag
  <-> file_flag F path flag.
Proof.
  intros Hok Hlen Hp. rewrite take_ge by (rewrite length_fmap, sort_by_length; etrans; [apply among_count, Hok|done]).
  rewrite fresh_rows_lookup by (eapply path_rows_nodup; [apply Hok|rewrite sort_by_perm; apply sublist_submseteq, list_filter_bool_sublist]).
  rewrite path_rows_flag. unfold file_flag. setoid_rewrite (elem_of_sort_by (cmp_on file_path String.compare)). setoid_rewrite elem_of_filter_bool.
  unfold among. setoid_rewrite bool_decide_eq_true. split; [intros (f & [? _] & ? & ?); by exists f|intros (f & ? & <- & ?); by exists f].
Qed.
#[export] Program Instance path_model : ReadModel go IncludePathIndex := {
  rebuild := rebuild_include_path_index;
  update previous c := update_include_path_index previous c.(changed_paths);
  serves := serves_paths;
}.
Next Obligation. exact rebuild_paths_serves. Qed.
Next Obligation.
  intros F c F' idx idx' _ Hok Hco Hc (m & Hp & Hm) H. apply gives_bind in H as (rows & ->%gives_query & H).
  destruct (IncludePaths.updated_paths _ _ _ _) as [u|] eqn:Eu; [|by apply rebuild_paths_serves]. cbn in H. subst u.
  eexists. split; [exact (published_update alloc idx m _ _ idx' Hp Eu)|]. intros path flag. rewrite changed_map_lookup. case_decide as Hin.
  - apply fresh_paths_flag; [done|apply Hco|done].
  - rewrite Hm. by apply (ch_files _ _ _ _ Hc).
Qed.
(** When the changed paths were and are files of the workspace the index may stay. *)
Lemma paths_reused F c F' idx : facts_ok F -> facts_ok F' -> changes go F c F' -> serves_paths idx F ->
  (forall p, p ∈ c.(changed_paths) -> in_workspace F p /\ in_workspace F' p) -> serves_paths idx F'.
Proof.
  intros Hok Hok' Hc (m & Hp & Hm) Hsame. exists m. split; [done|]. intros path flag. rewrite Hm. destruct (decide (path ∈ changed_paths c)) as [Hin|Hin]; [|by apply (ch_files _ _ _ _ Hc)].
  destruct (Hsame path Hin) as [H1 H2]. split; intros H; [rewrite (file_flag_unique F path flag true) by done; exact H2|rewrite (file_flag_unique F' path flag true) by done; exact H1].
Qed.
End include_paths.

(** *** The file catalogue *)

Lemma workspace_paths_elem F out path : workspace_paths F out -> path ∈ out <-> in_workspace F path.
Proof.
  intros ->. rewrite elem_of_sort_by, list_elem_of_fmap. unfold in_workspace. setoid_rewrite elem_of_filter_bool. naive_solver.
Qed.
Lemma indexed_files_elem F paths out path : indexed_workspace_files_for_paths paths F out -> path ∈ out <-> in_workspace F path /\ path ∈ paths.
Proof.
  intros ->. rewrite elem_of_sort_by, list_elem_of_fmap. unfold in_workspace. setoid_rewrite elem_of_filter_bool. setoid_rewrite andb_true_iff.
  unfold among. setoid_rewrite bool_decide_eq_true. naive_solver.
Qed.

Section files.
Context (go : string -> bool) (alloc : IndexedFiles.Allocation) (absolute : string -> string).
Definition with_root (rows : list string) : list (string * string) := (fun path => (path, absolute path)) <$> rows.
Definition rebuild_indexed_file_list : Read IndexedFileList :=
  (rows <- query workspace_paths; Done (IndexedFiles.from_vec alloc (with_root rows)))%read.
(** The flag tells that the previous list itself is returned ([Arc::ptr_eq]). *)
Definition update_indexed_file_list (previous : IndexedFileList) (paths : list string) : Read (IndexedFileList * bool) :=
  (rows <- query (indexed_workspace_files_for_paths paths);
   let fresh := with_root rows in
   match IndexedFiles.update alloc previous paths fresh with
   | None => Panic
   | Some (Some updated) => Done (updated, forallb (fun path => bool_decide (current_entry previous path = IndexedFiles.collect_fresh fresh !! path)) paths)
   | Some None => files <- rebuild_indexed_file_list; Done (files, false)
   end)%read.
Definition serves_files (f : IndexedFileList) (F : Facts) : Prop :=
  well_formed f /\ forall path e, files_of f !! path = Some e <-> in_workspace F path /\ e = (path, absolute path).
Lemma find_with_root path rows e : find_path path (with_root rows) = Some e <-> path ∈ rows /\ e = (path, absolute path).
Proof.
  unfold with_root. split.
  - intros [(p & -> & Hp)%list_elem_of_fmap <-]%find_path_Some. done.
  - intros [H ->]. induction rows as [|p rows IH]; [by apply elem_of_nil in H|]. cbn. destruct (String.eqb_spec p path) as [->|Hne]; [done|].
    apply IH. apply elem_of_cons in H as [->|?]; done.
Qed.
Lemma with_root_rev rows : rev (with_root rows) = with_root (reverse rows).
Proof. unfold with_root. by rewrite fmap_reverse, rev_alt. Qed.
Lemma rebuild_files_serves F f : gives F rebuild_indexed_file_list f -> serves_files f F.
Proof.
  intros (rows & Hrows%gives_query & <-)%gives_bind. destruct (from_vec_first_wins alloc (with_root rows)) as [Hw Hl]. split; [done|].
  intros path e. by rewrite Hl, find_with_root, (workspace_paths_elem F rows path Hrows).
Qed.
Lemma update_files_serves F c F' f r : changes go F c F' -> serves_files f F -> gives F' (update_indexed_file_list f c.(changed_paths)) r ->
  serves_files r.1 F' /\ (r.2 = true -> r.1 = f).
Proof.
  intros Hc [Hw Hl] H. apply gives_bind in H as (rows & Hrows%gives_query & H). destruct (update_replaces alloc f c.(changed_paths) (with_root rows) Hw) as (u & Hu & Hspec).
  cbv zeta in H. rewrite Hu in H. destruct u as [u|].
  - cbn in H. subst r. cbn [fst snd]. destruct Hspec as (Hw' & _ & Hf). split.
    + split; [done|]. intros path e. rewrite Hf. case_decide as Hin.
      * rewrite with_root_rev, find_with_root, elem_of_reverse, (indexed_files_elem F' _ rows path Hrows). tauto.
      * rewrite Hl. pose proof (ch_files _ _ _ _ Hc path true Hin) as E. unfold in_workspace. by rewrite E.
    + intros Hall. unfold IndexedFiles.update in Hu. destruct (256 <? _)%nat; [done|]. cbv zeta in Hu. rewrite Hall in Hu. by injection Hu.
  - apply gives_bind in H as (files & Hfiles & <-). split; [by apply rebuild_files_serves|done].
Qed.
#[export] Program Instance files_model : ReadModel go IndexedFileList := {
  rebuild := rebuild_indexed_file_list;
  update previous c := (r <- update_indexed_file_list previous c.(changed_paths); Done r.1)%read;
  serves := serves_files;
}.
Next Obligation. intros F m _. apply rebuild_files_serves. Qed.
Next Obligation. intros F c F' m m' _ _ _ Hc Hs H. apply gives_bind in H as (r & Hr & <-). by eapply update_files_serves. Qed.
Lemma contains_path_served f F path : serves_files f F -> contains_path f path = true <-> in_workspace F path.
Proof.
  intros [Hw Hl]. assert (contains_path f path = bool_decide (is_Some (files_of f !! path))) as ->.
  { rewrite files_of_lookup by apply Hw. unfold contains_path, current_entry. by destruct (IndexedFiles.changes f !! path). }
  rewrite bool_decide_eq_true. split; [intros [e [? _]%Hl]; done|]. intros H. exists (path, absolute path). by apply Hl.
Qed.
End files.

(** *** The include table

    The table keeps the edges of a deleted source until it is rebuilt, so it is exact for the
    sources that exist. *)

Lemma limited_all {A} limit (rows out : list A) : limited limit rows = (out, false) -> out = rows.
Proof.
  unfold limited. destruct (_ <? _)%nat eqn:E; [done|]. intros [= <-]. apply Nat.ltb_ge in E. rewrite length_take in E. apply take_ge. lia.
Qed.
Lemma edge_pairs s x (es : list IncludeEdgeRow) : (s, x) ∈ edge_pair <$> es <-> exists e, e ∈ es /\ e.(ie_source_path) = s /\ e.(ie_target_path) = x.
Proof. rewrite list_elem_of_fmap. unfold edge_pair. split; [intros (e & [= -> ->] & He); by exists e|intros (e & He & <- & <-); by exists e]. Qed.
Lemma edge_pairs_of_sources s x sources (rows es : list IncludeEdgeRow) : rows ≡ₚ List.filter (fun e => among sources e.(ie_source_path)) es ->
  (s, x) ∈ edge_pair <$> rows <-> s ∈ sources /\ (s, x) ∈ edge_pair <$> es.
Proof.
  intros Hp. rewrite !edge_pairs. setoid_rewrite Hp. setoid_rewrite elem_of_filter_bool. unfold among. setoid_rewrite bool_decide_eq_true. naive_solver.
Qed.

Section include_table.
Context (go : string -> bool) (alloc : TableAllocation).
Definition rebuild_include_table : Read IncludeCompletionTable :=
  (paths <- query workspace_paths; rows <- query include_edges; Done (build_with_edges alloc paths (edge_pair <$> rows)))%read.
Definition update_include_table (previous : IncludeCompletionTable) (paths sources : list string) : Read IncludeCompletionTable :=
  (fresh <- query (indexed_workspace_files_for_paths paths);
   edges <- query (include_edges_for_sources_limited sources (N.to_nat 8192));
   match (if edges.2 then None else IncludeTable.updated alloc previous paths fresh sources (edge_pair <$> edges.1)) with
   | Some updated => Done updated
   | None => rebuild_include_table
   end)%read.
Definition serves_table (t : IncludeCompletionTable) (F : Facts) : Prop :=
  exists ps es, published_table alloc t ps es /\ (forall p, p ∈ ps <-> in_workspace F p) /\
    forall s x, live F s -> (s, x) ∈ es <-> (s, x) ∈ edge_pair <$> F.(fa_edges).
Lemma rebuild_table_serves F t : gives F rebuild_include_table t -> serves_table t F.
Proof.
  intros (ps & Hps%gives_query & (es & Hes%gives_query & <-)%gives_bind)%gives_bind. exists ps, (edge_pair <$> es). split; [constructor|]. split.
  - intros p. by apply workspace_paths_elem.
  - intros s x _. apply perm_elem. by rewrite Hes.
Qed.
Lemma same_edges F c F' s x : changes go F c F' -> s ∉ c.(changed_sources) -> live F' s -> (s, x) ∈ edge_pair <$> F.(fa_edges) <-> (s, x) ∈ edge_pair <$> F'.(fa_edges).
Proof.
  intros Hc Hs Hl. rewrite !edge_pairs. split; intros (e & He & <- & <-); exists e; (split; [|done]); by apply (ch_edges _ _ _ _ Hc e Hs Hl).
Qed.
#[export] Program Instance table_model : ReadModel go IncludeCompletionTable := {
  rebuild := rebuild_include_table;
  update previous c := update_include_table previous c.(changed_paths) c.(changed_sources);
  serves := serves_table;
}.
Next Obligation. intros F m _. apply rebuild_table_serves. Qed.
Next Obligation.
  intros F c F' t t' _ _ _ Hc (ps & es & Ht & Hps & Hes) H. apply gives_bind in H as (fresh & Hfresh%gives_query & H).
  apply gives_bind in H as (edges & (rows & Hrows & Hlim)%gives_query & H).
  destruct (if edges.2 then None else _) as [u|] eqn:Eu; [|by apply rebuild_table_serves]. cbn in H. subst u.
  destruct edges as [edges truncated]. cbn [fst snd] in Eu. destruct truncated; [done|]. symmetry in Hlim. apply limited_all in Hlim as ->.
  set (ps' := file_path <$> List.filter file_workspace F'.(fa_files)).
  assert (forall p, p ∈ ps' <-> in_workspace F' p) as Hps'.
  { intros p. unfold ps'. rewrite <- (workspace_paths_elem F' _ p eq_refl), elem_of_sort_by. done. }
  set (es' := (List.filter (fun e : string * string => negb (among c.(changed_sources) e.1)) es) ++ (edge_pair <$> rows)).
  assert (forall s x, (s, x) ∈ es' <-> (~ (s ∈ c.(changed_sources)) /\ (s, x) ∈ es) \/ (s ∈ c.(changed_sources) /\ (s, x) ∈ (edge_pair <$> F'.(fa_edges)))) as Hes'.
  { intros s x. unfold es'. rewrite elem_of_app, elem_of_filter_bool, (edge_pairs_of_sources s x _ rows _ Hrows). unfold among. cbn [fst].
    rewrite negb_true_iff, bool_decide_eq_false. tauto. }
  exists ps', es'. split; [|split; [done|]].
  - apply (table_updated alloc t ps es c.(changed_paths) fresh c.(changed_sources) (edge_pair <$> rows) ps' es' t' Ht); [|done]. split.
    + intros p Hp. rewrite (indexed_files_elem F' _ fresh p Hfresh), Hps'. tauto.
    + intros p Hp. rewrite Hps', Hps. symmetry. by apply (ch_files _ _ _ _ Hc p true Hp).
    + intros s x Hs. rewrite Hes', (edge_pairs_of_sources s x _ rows _ Hrows). tauto.
    + intros s x Hs. rewrite Hes'. tauto.
  - intros s x Hl. rewrite Hes'. destruct (decide (s ∈ c.(changed_sources))) as [Hs|Hs]; [tauto|].
    rewrite (Hes s x) by by apply (ch_sources_known _ _ _ _ Hc). rewrite (same_edges F c F' s x Hc Hs Hl). tauto.
Qed.
(** Without new edges or files the table may stay. *)
Lemma table_reused F c F' t : facts_ok F -> facts_ok F' -> changes go F c F' -> serves_table t F -> c.(changed_sources) = [] ->
  (forall p, p ∈ c.(changed_paths) -> in_workspace F p /\ in_workspace F' p) -> serves_table t F'.
Proof.
  intros Hok Hok' Hc (ps & es & Ht & Hps & Hes) Hsrc Hsame. assert (forall s, s ∉ c.(changed_sources)) as Hno by (intros s; rewrite Hsrc; apply not_elem_of_nil).
  exists ps, es. split; [done|]. split.
  - intros p. rewrite Hps. destruct (decide (p ∈ c.(changed_paths))) as [Hp|Hp]; [by split; intros _; apply Hsame|]. by apply (ch_files _ _ _ _ Hc p true Hp).
  - intros s x Hl. rewrite (Hes s x) by by apply (ch_sources_known _ _ _ _ Hc). by apply (same_edges F c F' s x).
Qed.
End include_table.

(** *** Go imports *)

Lemma ascii_compare_N a b : Ascii.compare a b = N.compare (Ascii.N_of_ascii a) (Ascii.N_of_ascii b).
Proof. done. Qed.
(** The range from ['dir#'] to ['dir$'] holds the keys that start with ['dir#']. *)
Definition hash_sign : Ascii.ascii := Ascii.ascii_of_N 35.
Lemma hash_range c key : String.compare (String.String c key) "#" <> Lt /\ String.compare (String.String c key) "$" = Lt <-> c = hash_sign.
Proof.
  change (String.compare (String.String c key) "#") with (match N.compare (Ascii.N_of_ascii c) 35 with Eq => String.compare key "" | o => o end).
  change (String.compare (String.String c key) "$") with (match N.compare (Ascii.N_of_ascii c) 36 with Eq => String.compare key "" | o => o end). split.
  - intros [H1 H2]. rewrite <- (Ascii.ascii_N_embedding c). unfold hash_sign. f_equal.
    destruct (N.compare_spec (Ascii.N_of_ascii c) 35) as [E|E|E]; [done..|]. destruct (N.compare_spec (Ascii.N_of_ascii c) 36) as [E'|E'|E']; [by destruct key|lia|done].
  - intros ->. by destruct key.
Qed.
Lemma in_directory_iff d key : in_directory d key = true <-> exists r, key = d +:+ "#" +:+ r.
Proof.
  unfold in_directory. rewrite andb_true_iff, negb_true_iff, bool_decide_eq_false, bool_decide_eq_true. revert key. induction d as [|a d IH]; intros [|c key].
  - split; [by intros [? _]|by intros (r & ?)].
  - change ("" +:+ ?x) with x. rewrite hash_range. split; [intros ->; by exists key|]. by intros (r & [= -> _]).
  - cbn. split; [by intros [? _]|by intros (r & ?)].
  - simpl. destruct (Ascii.compare c a) eqn:E.
    + apply ascii_compare_eq in E as ->. rewrite IH. split; intros (r & Hr); exists r; [by rewrite Hr|by injection Hr].
    + split; [by intros [? _]|]. intros (r & [= -> _]). by rewrite (proj2 (ascii_compare_eq a a)) in E.
    + split; [by intros [_ ?]|]. intros (r & [= -> _]). by rewrite (proj2 (ascii_compare_eq a a)) in E.
Qed.
Lemma is_hash_eq c : is_hash c = true -> c = hash_sign.
Proof. unfold is_hash. intros E%N.eqb_eq. by rewrite <- (Ascii.ascii_N_embedding c), E. Qed.
Definition hash_free (s : string) : Prop := ~ exists a b, s = a +:+ "#" +:+ b.
Lemma directory_of_spec key : match directory_of key with Some dir => exists r, key = dir +:+ "#" +:+ r /\ hash_free r | None => hash_free key end.
Proof.
  induction key as [|c key IH]; cbn [directory_of]; [by intros ([] & r & ?)|]. destruct (directory_of key) as [dir|].
  - destruct IH as (r & -> & Hr). by exists r.
  - destruct (is_hash c) eqn:E; [apply is_hash_eq in E as ->; by exists key|]. intros ([|a d] & r & H); [by injection H as -> _|]. injection H as -> H. apply IH. by exists d, r.
Qed.
(** For directories without the sign both ways of finding a key's directory agree. *)
Lemma in_directory_of d key : (forall dir, directory_of key = Some dir -> hash_free dir) -> in_directory d key = true <-> directory_of key = Some d.
Proof.
  intros Hfree. rewrite in_directory_iff. pose proof (directory_of_spec key) as Hs. split.
  - intros (r & ->). destruct (directory_of _) as [dir|] eqn:E; [|destruct Hs; by exists d, r]. destruct Hs as (q & Hq & Hqf). f_equal.
    destruct (app_prefixes _ _ _ _ Hq) as [(t & -> & Ht)|(t & -> & Ht)].
    + destruct t as [|c t]; [by rewrite string_app_nil|]. exfalso. apply (Hfree _ eq_refl). exists d, t. f_equal. simpl in Ht. by injection Ht as <- _.
    + destruct t as [|c t]; [by rewrite string_app_nil|]. exfalso. simpl in Ht. injection Ht as <- Ht. apply Hqf. by exists t, r.
  - intros Hd. rewrite Hd in Hs. destruct Hs as (r & -> & _). by exists r.
Qed.
Lemma importable_loop_all directories limit F output out : importable_loop directories limit F output = (out, false) ->
  forall row, row ∈ out <-> row ∈ output \/ row ∈ F.(fa_importable) /\ exists d, d ∈ directories /\ in_directory d row.(row_package_key) = true.
Proof.
  revert output. induction directories as [|d directories IH]; intros output; cbn [importable_loop].
  { intros [= <-] row. split; [by left|]. by intros [?|(_ & d & ?%elem_of_nil & _)]. }
  destruct (_ <? _)%nat eqn:E; [done|]. intros H row. rewrite (IH _ H), elem_of_app. apply Nat.ltb_ge in E. rewrite length_app, length_take in E.
  rewrite take_ge by lia. rewrite elem_of_sort_by, elem_of_filter_bool. setoid_rewrite elem_of_cons. naive_solver.
Qed.

Section go_imports.
Context (go : string -> bool) (alloc : GoAllocation).
Definition rebuild_go_import_table : Read GoImportCompletionTable :=
  (rows <- query importable_packages; Done (go_build alloc rows))%read.
Definition update_go_import_table (previous : GoImportCompletionTable) (paths : list string) : Read GoImportCompletionTable :=
  (let directories := go_directories paths in
   answer <- query (importable_packages_for_directories directories 4096);
   match (if answer.2 then None else updated_directories alloc previous directories answer.1) with
   | Some updated => Done updated
   | None => rebuild_go_import_table
   end)%read.
Definition serves_imports (t : GoImportCompletionTable) (F : Facts) : Prop :=
  exists rows, published_imports alloc t rows /\ forall row, row ∈ rows <-> row ∈ F.(fa_importable).
Lemma rebuild_imports_serves F t : facts_ok F -> gives F rebuild_go_import_table t -> serves_imports t F.
Proof.
  intros Hok (rows & Hrows & <-)%gives_bind. apply gives_query in Hrows. exists rows. split; [|intros row; by apply perm_elem].
  constructor. unfold importable_packages in Hrows. rewrite Hrows. apply Hok.
Qed.
#[export] Program Instance imports_model : ReadModel go GoImportCompletionTable := {
  rebuild := rebuild_go_import_table;
  update previous c := update_go_import_table previous c.(changed_paths);
  serves := serves_imports;
}.
Next Obligation. exact rebuild_imports_serves. Qed.
Next Obligation.
  intros F c F' t t' _ Hok _ Hc (rows & Ht & Hrows) H. unfold update_go_import_table in H. cbv zeta in H. apply gives_bind in H as (answer & Ha%gives_query & H).
  destruct (if answer.2 then None else _) as [u|] eqn:Eu; [|by apply rebuild_imports_serves]. cbn in H. subst u.
  destruct answer as [scoped truncated]. cbn [fst snd] in Eu. destruct truncated; [done|]. pose proof (importable_loop_all _ _ _ _ _ (eq_sym Ha)) as Hsc.
  assert (forall key path, mkRow key path ∈ scoped <-> mkRow key path ∈ F'.(fa_importable) /\ belongs (list_to_set (go_directories c.(changed_paths))) key = true) as Hscoped.
  { intros key path. rewrite Hsc, elem_of_nil. cbn [row_package_key]. split.
    - intros [[]|(Hin & d & Hd & Hk)]. split; [done|]. apply (in_directory_of d key) in Hk; [|intros dir Hdir; by apply (ok_directories F' Hok _ dir Hin)].
      unfold belongs. rewrite Hk. apply bool_decide_eq_true. by apply elem_of_list_to_set.
    - intros [Hin Hb]. right. split; [done|]. unfold belongs in Hb. destruct (directory_of key) as [d|] eqn:E; [|done]. apply bool_decide_eq_true in Hb.
      exists d. split; [by apply elem_of_list_to_set in Hb|]. apply in_directory_of; [|done]. intros dir Hdir. by apply (ok_directories F' Hok _ dir Hin). }
  exists F'.(fa_importable). split; [|done]. refine (imports_updated alloc t rows _ scoped _ t' Ht _ Eu). split.
  - apply Hok.
  - exact Hscoped.
  - intros key path Hb. rewrite Hrows. symmetry. by apply (ch_packages _ _ _ _ Hc (mkRow key path)).
  - intros [key path] [Hin _]%Hscoped. by apply (ok_packages F' Hok).
Qed.
Lemma imports_reused F c F' t : changes go F c F' -> serves_imports t F -> existsb go c.(changed_paths) = false -> serves_imports t F'.
Proof. intros Hc (rows & Ht & Hrows) Hgo. exists rows. split; [done|]. intros row. rewrite Hrows. by apply (ch_no_packages _ _ _ _ Hc). Qed.
End go_imports.

(** *** The reach graph

    A refresh replaces the edges and the open mark of the sources it is given; nothing takes
    out those of a source that was deleted, so the graph is exact for the files that exist.
    Go packages are only read by a rebuild. *)

Definition triple (e : IncludeEdgeRow) : string * string * ResolutionKind := (e.(ie_source_path), e.(ie_target_path), e.(ie_resolution)).
Lemma edge_cmp_eq a b : edge_cmp a b = Eq -> a = b.
Proof.
  unfold edge_cmp. rewrite !cmp_lex_eq. unfold cmp_on. intros (_ & E1%string_compare_eq & E2%string_compare_eq). destruct a as [t r], b as [u q]. cbn in *. subst. f_equal. by destruct r, q.
Qed.
Lemma normalize_strict l : strict edge_cmp (normalize_reach_edges l).
Proof.
  apply (dedup_strict edge_cmp); [intros a b; by rewrite bool_decide_eq_true|apply sort_by_sorted, _|]. intros x y _ _. apply edge_cmp_eq.
Qed.
Lemma elem_of_normalize l e : e ∈ normalize_reach_edges l <-> e ∈ l.
Proof. unfold normalize_reach_edges. rewrite (elem_of_dedup (fun a b => bool_decide (a = b))) by (intros a b; by rewrite bool_decide_eq_true). apply elem_of_sort_by. Qed.
Lemma normalize_same l k : (forall e, e ∈ l <-> e ∈ k) -> normalize_reach_edges l = normalize_reach_edges k.
Proof.
  intros H. apply (strict_unique edge_cmp); [apply normalize_strict..|]. intros e. by rewrite !elem_of_normalize.
Qed.
Lemma elem_of_rows E s e : e ∈ rows_of E s <-> (s, e.(target), e.(resolution)) ∈ E.
Proof.
  unfold rows_of. rewrite list_elem_of_fmap. split.
  - intros ([[src dst] k] & -> & [<- H]%list_elem_of_filter). exact H.
  - intros H. exists (s, e.(target), e.(resolution)). split; [by destruct e|]. by apply list_elem_of_filter.
Qed.
Lemma triples_same (l k : list IncludeEdgeRow) s : (forall e, e.(ie_source_path) = s -> e ∈ l <-> e ∈ k) -> forall e, e ∈ rows_of (triple <$> l) s <-> e ∈ rows_of (triple <$> k) s.
Proof.
  intros H e. rewrite !elem_of_rows, !list_elem_of_fmap. split; intros (r & E & Hr); exists r; (split; [done|]); apply H; try done; unfold triple in E; congruence.
Qed.

Definition rebuild_reach_graph : Read ReachGraph :=
  (edges <- query include_edges; unresolved <- query unresolved_rows; ambiguous <- query ambiguous_rows;
   files <- query package_files; packages <- query package_edges_view; opens <- query open_packages_view;
   Done (from_rows_with_packages edges unresolved ambiguous files packages opens))%read.
Definition refresh_reach_graph_incremental (previous : option ReachGraph) (sources : list string) : Read ReachGraph :=
  match sources with
  | [] => match previous with Some graph => Done graph | None => rebuild_reach_graph end
  | _ =>
      if existsb (ends_with ".go") sources then rebuild_reach_graph else
      match previous with
      | None => rebuild_reach_graph
      | Some graph =>
          Query (include_data_for_sources sources)
            (fun loaded => Done (with_refreshed_sources_from_rows sources loaded.1 loaded.2 graph)) rebuild_reach_graph
      end
  end.
Definition edges_at (F : Facts) (s : string) : list ReachEdge := normalize_reach_edges (rows_of (triple <$> F.(fa_edges)) s).
Definition serves_reach (g : ReachGraph) (F : Facts) : Prop :=
  exists t, g = Reachability.published t /\ (forall s, live F s -> default [] (t.(edges) !! s) = edges_at F s) /\
    forall f, f ∈ F.(fa_files) -> t.(open) !! f.(file_path) = open_of f.
Lemma elem_of_open_rows reason count F out path : open_rows reason count F out ->
  path ∈ oi_source_path <$> out <-> exists f, f ∈ F.(fa_files) /\ f.(file_path) = path /\ (0 < count f)%Z.
Proof.
  intros Hp. rewrite Hp, <- list_fmap_compose, list_elem_of_fmap. cbn. setoid_rewrite elem_of_filter_bool. setoid_rewrite Z.ltb_lt. naive_solver.
Qed.
Lemma rebuild_reach_serves F g : facts_ok F -> gives F rebuild_reach_graph g -> serves_reach g F.
Proof.
  intros Hok (es & Hes%gives_query & H)%gives_bind. apply gives_bind in H as (un & Hun%gives_query & H). apply gives_bind in H as (am & Ham%gives_query & H).
  apply gives_bind in H as (pf & _ & H). apply gives_bind in H as (pe & _ & H). apply gives_bind in H as (op & _ & <-).
  eexists. split; [reflexivity|]. unfold from_rows, new_with_kinds. cbn [Reachability.edges Reachability.open tables_of Reachability.published]. split.
  - intros s _. change (fun r => (ie_source_path r, ie_target_path r, ie_resolution r)) with triple. rewrite normalize_default, push_edges_default, lookup_empty. cbn [default app].
    apply normalize_same, triples_same. intros e _. by apply perm_elem.
  - intros f Hf. rewrite !set_all_lookup, lookup_empty. unfold open_of.
    assert (forall reason count out, open_rows reason count F out -> f.(file_path) ∈ oi_source_path <$> out <-> (0 < count f)%Z) as Hin.
    { intros reason count out Ho. rewrite (elem_of_open_rows reason count F out _ Ho). split; [|by exists f]. intros (f' & Hf' & E & ?). by rewrite (file_of_path F f f' Hok Hf Hf') by done. }
    pose proof (Hin _ _ _ Hun) as H1. pose proof (Hin _ _ _ Ham) as H2. repeat case_decide; destruct (Z.ltb_spec 0 (unresolved_includes f)), (Z.ltb_spec 0 (ambiguous_includes f)); try done; naive_solver lia.
Qed.
Lemma push_edges_none E (m : gmap string (list ReachEdge)) s : (forall src dst k, (src, dst, k) ∈ E -> src <> s) -> push_edges E m !! s = m !! s.
Proof. apply push_edges_other. Qed.
Lemma open_of_two f r : open_of f = Some r -> r = UnresolvedInclude \/ r = AmbiguousInclude.
Proof. unfold open_of. repeat case_match; naive_solver. Qed.
Lemma refreshed_open F f sources (opens : list OpenIncludeRow) r : facts_ok F -> f ∈ F.(fa_files) -> f.(file_path) ∈ sources ->
  opens ≡ₚ omap (fun f => mkOpenIncludeRow f.(file_path) <$> open_of f) (List.filter (fun f => among sources f.(file_path)) F.(fa_files)) ->
  f.(file_path) ∈ paths_with r ((fun r => (r.(oi_source_path), r.(oi_reason))) <$> opens) <-> open_of f = Some r.
Proof.
  intros Hok Hf Hin Hp. unfold paths_with. rewrite list_elem_of_fmap. split.
  - intros ([p r'] & E & [Er Hrow]%list_elem_of_filter). cbn in E, Er. subst p r'. apply list_elem_of_fmap in Hrow as ([p r'] & [= E ->] & Hrow). cbn in E. subst p.
    rewrite Hp in Hrow. apply list_elem_of_omap in Hrow as (f' & [Hf' _]%elem_of_filter_bool & (r0 & Ho & [= E ->])%fmap_Some). by rewrite (file_of_path F f f' Hok Hf Hf') by done.
  - intros Ho. exists (f.(file_path), r). split; [done|]. apply list_elem_of_filter. split; [done|]. apply list_elem_of_fmap. exists (mkOpenIncludeRow f.(file_path) r). split; [done|].
    rewrite Hp. apply list_elem_of_omap. exists f. rewrite Ho. split; [|done]. apply elem_of_filter_bool. split; [done|]. by apply bool_decide_eq_true.
Qed.
Section reach.
Context (go : string -> bool).
Lemma refresh_serves F c F' g es opens : facts_ok F -> facts_ok F' -> change_ok c -> changes go F c F' -> serves_reach g F ->
  include_data_for_sources c.(changed_sources) F' (es, opens) -> serves_reach (with_refreshed_sources_from_rows c.(changed_sources) es opens g) F'.
Proof.
  intros Hok Hok' Hco Hc (t & -> & Hedges & Hopen) [Hes Ho]. cbn [fst snd] in Hes, Ho. eexists. split; [reflexivity|]. unfold refresh_tables. cbn [Reachability.edges Reachability.open tables_of Reachability.published].
  change (fun r => (ie_source_path r, ie_target_path r, ie_resolution r)) with triple.
  assert (forall s, s ∉ c.(changed_sources) -> forall src dst k, (src, dst, k) ∈ triple <$> es -> src <> s) as Hother.
  { intros s Hs src dst k Hin ->. apply list_elem_of_fmap in Hin as (e & [= -> _ _] & He). rewrite Hes in He. by apply elem_of_filter_bool in He as [_ He%bool_decide_eq_true]. }
  assert (forall p r, (p, r) ∈ (fun r => (r.(oi_source_path), r.(oi_reason))) <$> opens -> p ∈ c.(changed_sources) /\ (r = UnresolvedInclude \/ r = AmbiguousInclude)) as Htwo.
  { intros p r Hin. apply list_elem_of_fmap in Hin as (row & [= -> ->] & Hrow). rewrite Ho in Hrow.
    apply list_elem_of_omap in Hrow as (f & [_ Hf%bool_decide_eq_true]%elem_of_filter_bool & (r0 & Hr & ->)%fmap_Some). split; [done|]. by apply (open_of_two f). }
  split.
  - intros s Hl. destruct (decide (s ∈ c.(changed_sources))) as [Hs|Hs].
    + rewrite normalize_sources_default by (apply Hco || done). rewrite push_edges_default, remove_sources_lookup, decide_True by done. cbn [default app].
      apply normalize_same, triples_same. intros e <-. rewrite Hes, elem_of_filter_bool. unfold among. rewrite bool_decide_eq_true. tauto.
    + rewrite normalize_sources_other by done. rewrite push_edges_none by by apply Hother. rewrite remove_sources_lookup, (decide_False (P := s ∈ c.(changed_sources))) by done.
      rewrite Hedges by by apply (ch_sources_known _ _ _ _ Hc). apply normalize_same, triples_same. intros e <-. by apply (ch_edges _ _ _ _ Hc).
  - intros f Hf. destruct (decide (f.(file_path) ∈ c.(changed_sources))) as [Hs|Hs].
    + rewrite insert_open_reasons_lookup by (intros p r Hin; by apply (Htwo p r)). rewrite remove_sources_lookup, (decide_True (P := f.(file_path) ∈ c.(changed_sources))) by done.
      pose proof (refreshed_open F' f _ opens UnresolvedInclude Hok' Hf Hs Ho) as Hu. pose proof (refreshed_open F' f _ opens AmbiguousInclude Hok' Hf Hs Ho) as Ha.
      repeat case_decide; destruct (open_of f) as [r|] eqn:E; try (destruct (open_of_two f r E) as [-> | ->]); naive_solver.
    + rewrite insert_open_reasons_other by (intros p r [Hp _]%Htwo; by intros ->). rewrite remove_sources_lookup, (decide_False (P := f.(file_path) ∈ c.(changed_sources))) by done.
      assert (live F f.(file_path)) as (f0 & E & Hf0)%list_elem_of_fmap.
      { apply (ch_sources_known _ _ _ _ Hc _ Hs). apply list_elem_of_fmap. by exists f. }
      rewrite E, (Hopen f0 Hf0). apply (ch_open _ _ _ _ Hc); [done|done|congruence|done].
Qed.
#[export] Program Instance reach_model : ReadModel go ReachGraph := {
  rebuild := rebuild_reach_graph;
  update previous c := refresh_reach_graph_incremental (Some previous) c.(changed_sources);
  serves := serves_reach;
}.
Next Obligation. exact rebuild_reach_serves. Qed.
Next Obligation.
  intros F c F' g g' Hok Hok' Hco Hc Hs H. unfold refresh_reach_graph_incremental in H. destruct c.(changed_sources) as [|s ss] eqn:Esrc.
  - cbn in H. subst g'. assert (Hkeep := refresh_serves F c F' g [] [] Hok Hok' Hco Hc Hs). rewrite Esrc in Hkeep.
    destruct Hs as (t & -> & Hedges & Hopen). assert (forall x, x ∉ changed_sources c) as Hno by (intros x; rewrite Esrc; apply not_elem_of_nil). exists t. split; [done|]. split.
    + intros x Hl. rewrite Hedges by by apply (ch_sources_known _ _ _ _ Hc). apply normalize_same, triples_same. intros e <-. by apply (ch_edges _ _ _ _ Hc).
    + intros f Hf. assert (live F f.(file_path)) as (f0 & E & Hf0)%list_elem_of_fmap.
      { apply (ch_sources_known _ _ _ _ Hc _ (Hno _)). apply list_elem_of_fmap. by exists f. }
      rewrite E, (Hopen f0 Hf0). apply (ch_open _ _ _ _ Hc); [done|done|congruence|done].
  - destruct (existsb _ _); [by apply rebuild_reach_serves|]. cbn [gives] in H. destruct H as [([es opens] & Hd & <-)|H]; [|by apply rebuild_reach_serves].
    cbn [fst snd]. rewrite <- Esrc in *. by apply (refresh_serves F c).
Qed.
End reach.
