(* ===== verification/Publication.v ===== *)
(** * Publishing the read models of a root (server/indexing/cache.rs, server/workspace.rs)

    What a publication reads, as programs over the read models, and the publications as steps
    of a server that shares its store with other processes. *)

From S2P Require Import Prelude Searching Reachability Candidates Includes IndexedFiles IncludeTable IncludePaths GoImports FallbackTable ReadModels.

(** ** What a snapshot holds *)

Record RootModels : Type := mkModels {
  rm_fallback : FallbackCompletionNameTable;
  rm_reach : option ReachGraph;
  rm_table : option IncludeCompletionTable;
  rm_imports : option GoImportCompletionTable;
  rm_files : option IndexedFileList;
  rm_paths : option IncludePathIndex;
}.
(** What the allocator decides for each of the tables, and the absolute path of a file. *)
Record Allocations : Type := mkAllocations {
  al_fallback : FallbackAllocation;
  al_table : TableAllocation;
  al_imports : GoAllocation;
  al_files : IndexedFiles.Allocation;
  al_paths : PathAllocation;
  al_absolute : string -> string;
}.

(** A component that cannot be read is left out of the snapshot. *)
Fixpoint attempt {A} (p : Read A) : Read (option A) :=
  match p with
  | Done a => Done (Some a)
  | Query q k h => Query q (fun b => attempt (k b)) (attempt h)
  | Panic => Done None
  end.
Lemma gives_attempt {A} F (p : Read A) a : gives F (attempt p) (Some a) -> gives F p a.
Proof. induction p as [x|B q k IH h IHh|]; cbn; [by intros [= ->]| |done]. intros [(b & Hq & H)|H]; [left; exists b; eauto|right; eauto]. Qed.

Lemma gives_read {A B} F (p : Read A) (f : A -> Read B) a b : gives F p a -> gives F (f a) b -> gives F (read_bind p f) b.
Proof. intros. apply gives_bind. by exists a. Qed.
Lemma attempt_gives {A} F (p : Read A) a : gives F p a -> gives F (attempt p) (Some a).
Proof. induction p as [x|B q k IH h IHh|]; cbn; [by intros ->| |done]. intros [(b & Hq & H)|H]; [left; exists b; eauto|right; eauto]. Qed.

Section programs.
(** [go path] tells whether the configuration takes the file for Go. *)
Context (go : string -> bool) (al : Allocations).

(** *** publish_full_index: everything is read again *)

Definition read_full : Read RootModels :=
  (fallback <- rebuild_fallback_completion_table al.(al_fallback);
   reach <- attempt rebuild_reach_graph;
   table <- attempt (rebuild_include_table al.(al_table));
   imports <- attempt (rebuild_go_import_table al.(al_imports));
   files <- attempt (rebuild_indexed_file_list al.(al_files) al.(al_absolute));
   paths <- attempt (rebuild_include_path_index al.(al_paths));
   Done (mkModels fallback reach table imports files paths))%read.

(** *** publish_dirty_index: every component from the one before *)

Definition changed_files (base : option IndexedFileList) (paths : list string) : Read (IndexedFileList * bool) :=
  match base with
  | None => (files <- rebuild_indexed_file_list al.(al_files) al.(al_absolute); Done (files, false))%read
  | Some previous => update_indexed_file_list al.(al_files) al.(al_absolute) previous paths
  end.
Definition paths_unchanged (base : option IndexedFileList) (result : option (IndexedFileList * bool)) (paths : list string) : bool :=
  match result, base with
  | Some (_, shared), Some files => shared && forallb (contains_path files) paths
  | _, _ => false
  end.
Definition changed_table (base : option IncludeCompletionTable) (unchanged : bool) (c : Change) : Read IncludeCompletionTable :=
  match base with
  | Some previous =>
      if unchanged && bool_decide (c.(changed_sources) = []) then Done previous
      else update_include_table al.(al_table) previous c.(changed_paths) c.(changed_sources)
  | None => rebuild_include_table al.(al_table)
  end.
Definition changed_imports (base : option GoImportCompletionTable) (paths : list string) : Read GoImportCompletionTable :=
  match base with
  | Some previous => if existsb go paths then update_go_import_table al.(al_imports) previous paths else Done previous
  | None => rebuild_go_import_table al.(al_imports)
  end.
Definition changed_path_index (base : option IncludePathIndex) (unchanged : bool) (paths : list string) : Read IncludePathIndex :=
  match base with
  | Some previous => if unchanged then Done previous else update_include_path_index al.(al_paths) previous paths
  | None => rebuild_include_path_index al.(al_paths)
  end.
(** The deltas of all tables together have a budget of their own. *)
Definition delta_partitions_of (m : RootModels) : N :=
  (N.of_nat (FallbackTable.delta_partitions m.(rm_fallback)) + from_option (fun t => partitions t.(delta)) 0 m.(rm_table)
   + from_option (fun t => N.of_nat (go_delta_partitions t)) 0 m.(rm_imports) + from_option (fun f => N.of_nat (IndexedFiles.delta_paths f)) 0 m.(rm_files)
   + from_option (fun p => N.of_nat (size p.(IncludePaths.updates))) 0 m.(rm_paths))%N.
Definition delta_bytes_of (m : RootModels) : N :=
  (FallbackTable.delta_bytes al.(al_fallback) m.(rm_fallback) + from_option (fun t => IncludeTable.delta_bytes al.(al_table) t.(delta)) 0 m.(rm_table)
   + from_option (go_delta_bytes al.(al_imports)) 0 m.(rm_imports) + from_option (IndexedFiles.delta_bytes al.(al_files)) 0 m.(rm_files)
   + from_option (IncludePaths.delta_bytes al.(al_paths)) 0 m.(rm_paths))%N.
Definition over_delta_budget (m : RootModels) : bool := (256 <? delta_partitions_of m)%N || (32 * 1024 * 1024 <? delta_bytes_of m)%N.
(** [None] sends the publication to a full one. *)
Definition read_dirty (base : RootModels) (c : Change) : Read (option RootModels) :=
  (fallback <- update_fallback_completion_table al.(al_fallback) base.(rm_fallback) c.(changed_paths);
   result <- attempt (changed_files base.(rm_files) c.(changed_paths));
   let unchanged := paths_unchanged base.(rm_files) result c.(changed_paths) in
   reach <- attempt (refresh_reach_graph_incremental base.(rm_reach) c.(changed_sources));
   table <- attempt (changed_table base.(rm_table) unchanged c);
   imports <- attempt (changed_imports base.(rm_imports) c.(changed_paths));
   paths <- attempt (changed_path_index base.(rm_paths) unchanged c.(changed_paths));
   let m := mkModels fallback reach table imports (fst <$> result) paths in
   Done (if over_delta_budget m then None else Some m))%read.
End programs.

(** ** What a snapshot serves *)

Definition served {A} (P : A -> Prop) (o : option A) : Prop := forall a, o = Some a -> P a.
Record serves_all (go : string -> bool) (al : Allocations) (m : RootModels) (F : Facts) : Prop := {
  sa_fallback : serves (go := go) (ReadModel := fallback_model go al.(al_fallback)) m.(rm_fallback) F;
  sa_reach : served (fun g => serves_reach g F) m.(rm_reach);
  sa_table : served (fun t => serves_table al.(al_table) t F) m.(rm_table);
  sa_imports : served (fun t => serves_imports al.(al_imports) t F) m.(rm_imports);
  sa_files : served (fun f => serves_files al.(al_absolute) f F) m.(rm_files);
  sa_paths : served (fun p => serves_paths al.(al_paths) p F) m.(rm_paths);
}.
Lemma served_attempt {A} F (P : A -> Prop) (p : Read A) o : (forall a, gives F p a -> P a) -> gives F (attempt p) o -> served P o.
Proof. intros HP H a ->. by apply HP, gives_attempt. Qed.

Section sequential.
Context (go : string -> bool) (al : Allocations).
Lemma full_serves F m : facts_ok F -> gives F (read_full al) m -> serves_all go al m F.
Proof.
  intros Hok H. unfold read_full in H. repeat match goal with H : gives _ (read_bind _ _) _ |- _ => apply gives_bind in H as (? & ? & H) end. cbn in H. subst m. split; cbn [rm_fallback rm_reach rm_table rm_imports rm_files rm_paths].
  - by eapply rebuild_serves.
  - eapply served_attempt; [|done]. intros g. by apply rebuild_reach_serves.
  - eapply served_attempt; [|done]. intros t. by apply rebuild_table_serves.
  - eapply served_attempt; [|done]. intros t. by apply rebuild_imports_serves.
  - eapply served_attempt; [|done]. intros f. by apply rebuild_files_serves.
  - eapply served_attempt; [|done]. intros p. by apply rebuild_paths_serves.
Qed.

Context (F F' : Facts) (c : Change) (base : RootModels).
Context (Hok : facts_ok F) (Hok' : facts_ok F') (Hco : change_ok c) (Hc : changes go F c F') (Hbase : serves_all go al base F).
Lemma changed_files_serves r : gives F' (changed_files al base.(rm_files) c.(changed_paths)) r ->
  serves_files al.(al_absolute) r.1 F' /\ (r.2 = true -> base.(rm_files) = Some r.1).
Proof.
  unfold changed_files. destruct (rm_files base) as [f|] eqn:E; intros H.
  - destruct (update_files_serves go _ _ _ _ _ _ r Hc (sa_files _ _ _ _ Hbase f E) H) as [Hs Hr]. split; [done|]. intros Ht. by rewrite (Hr Ht).
  - apply gives_bind in H as (files & Hf & <-). split; [by eapply rebuild_files_serves|done].
Qed.
Lemma unchanged_workspace o : gives F' (attempt (changed_files al base.(rm_files) c.(changed_paths))) o -> paths_unchanged base.(rm_files) o c.(changed_paths) = true ->
  forall p, p ∈ c.(changed_paths) -> in_workspace F p /\ in_workspace F' p.
Proof.
  unfold paths_unchanged. destruct o as [[f shared]|]; [|done]. intros [Hs Hr]%gives_attempt%changed_files_serves H p Hp. cbn in Hs, Hr.
  destruct (rm_files base) as [f0|] eqn:E; [|done]. apply andb_true_iff in H as [-> Hall]. injection (Hr eq_refl) as ->.
  rewrite forallb_forall in Hall. specialize (Hall p (proj1 (list_elem_of_In _ _) Hp)).
  split; [by apply (contains_path_served al.(al_absolute) f F p (sa_files _ _ _ _ Hbase f E))|by apply (contains_path_served al.(al_absolute) f F' p)].
Qed.
Lemma changed_table_serves unchanged t : (unchanged = true -> forall p, p ∈ c.(changed_paths) -> in_workspace F p /\ in_workspace F' p) ->
  gives F' (changed_table al base.(rm_table) unchanged c) t -> serves_table al.(al_table) t F'.
Proof.
  intros Hsame. unfold changed_table. destruct (rm_table base) as [t0|] eqn:E; [|by apply rebuild_table_serves]. pose proof (sa_table _ _ _ _ Hbase t0 E) as Ht.
  destruct (unchanged && _) eqn:Eu.
  - apply andb_true_iff in Eu as [Eu Hsrc%bool_decide_eq_true]. intros <-. by apply (table_reused go al.(al_table) F c F' t0 Hok Hok' Hc Ht Hsrc), Hsame.
  - intros H. by apply (update_serves (ReadModel := table_model go al.(al_table)) F c F' t0 t Hok Hok' Hco Hc Ht).
Qed.
Lemma changed_imports_serves t : gives F' (changed_imports go al base.(rm_imports) c.(changed_paths)) t -> serves_imports al.(al_imports) t F'.
Proof.
  unfold changed_imports. destruct (rm_imports base) as [t0|] eqn:E; [|by apply rebuild_imports_serves]. pose proof (sa_imports _ _ _ _ Hbase t0 E) as Ht.
  destruct (existsb go _) eqn:Eg; intros H.
  - by apply (update_serves (ReadModel := imports_model go al.(al_imports)) F c F' t0 t Hok Hok' Hco Hc Ht).
  - cbn in H. subst t. by apply (imports_reused go al.(al_imports) F c F').
Qed.
Lemma changed_path_index_serves unchanged p : (unchanged = true -> forall p, p ∈ c.(changed_paths) -> in_workspace F p /\ in_workspace F' p) ->
  gives F' (changed_path_index al base.(rm_paths) unchanged c.(changed_paths)) p -> serves_paths al.(al_paths) p F'.
Proof.
  intros Hsame. unfold changed_path_index. destruct (rm_paths base) as [p0|] eqn:E; [|by apply rebuild_paths_serves]. pose proof (sa_paths _ _ _ _ Hbase p0 E) as Hp.
  destruct unchanged; intros H.
  - cbn in H. subst p. by apply (paths_reused go al.(al_paths) F c F' p0 Hok Hok' Hc Hp), Hsame.
  - by apply (update_serves (ReadModel := path_model go al.(al_paths)) F c F' p0 p Hok Hok' Hco Hc Hp).
Qed.
Lemma changed_reach_serves g : gives F' (refresh_reach_graph_incremental base.(rm_reach) c.(changed_sources)) g -> serves_reach g F'.
Proof.
  destruct (rm_reach base) as [g0|] eqn:E; intros H.
  - by apply (update_serves (ReadModel := reach_model go) F c F' g0 g Hok Hok' Hco Hc (sa_reach _ _ _ _ Hbase g0 E)).
  - apply rebuild_reach_serves; [done|]. unfold refresh_reach_graph_incremental in H. by destruct (changed_sources c); [|destruct (existsb _ _)].
Qed.
Lemma dirty_serves m : gives F' (read_dirty go al base c) (Some m) -> serves_all go al m F'.
Proof.
  intros H. unfold read_dirty in H. apply gives_bind in H as (fallback & Hf & H). apply gives_bind in H as (result & Hr & H). cbv zeta in H.
  apply gives_bind in H as (reach & Hreach & H). apply gives_bind in H as (table & Ht & H). apply gives_bind in H as (imports & Hi & H). apply gives_bind in H as (index & Hp & H).
  cbn [gives] in H. destruct (over_delta_budget _ _); [done|]. injection H as <-. pose proof (unchanged_workspace result Hr) as Hsame. split; cbn [rm_fallback rm_reach rm_table rm_imports rm_files rm_paths].
  - by eapply (update_serves (ReadModel := fallback_model go al.(al_fallback)) F c F' (rm_fallback base)); [..|apply Hbase|].
  - eapply served_attempt; [|done]. apply changed_reach_serves.
  - eapply served_attempt; [|done]. intros t. by apply changed_table_serves.
  - eapply served_attempt; [|done]. apply changed_imports_serves.
  - intros f E. destruct result as [r|]; [|done]. injection E as <-. by apply gives_attempt, changed_files_serves in Hr as [? _].
  - eapply served_attempt; [|done]. intros p. by apply changed_path_index_serves.
Qed.
End sequential.

(** ** The server and its store *)

Definition MISSING : N := 0.
(** [sn_incarnation] is the database the read handle was captured from, [sn_configuration]
    the identity of the shared configuration. *)
Record Snapshot : Type := mkSnapshot {
  sn_epoch : N; sn_generation : N; sn_incarnation : option string; sn_configuration : N; sn_models : RootModels;
}.
Definition empty_models : RootModels := mkModels (mkFallbackTable [] ∅ ∅ 0 ∅ []) None None None None None.
Definition empty_snapshot (epoch configuration : N) : Snapshot := mkSnapshot epoch MISSING None configuration empty_models.
Definition with_epoch (epoch : N) (s : Snapshot) : Snapshot := mkSnapshot epoch s.(sn_generation) s.(sn_incarnation) s.(sn_configuration) s.(sn_models).

Inductive FullReason : Type := DatabaseInstance | GenerationGap | ChangedPathBudget | Configuration | ModuleBoundary.
(** [Path::file_name] of a path without a final slash *)
Definition file_name (path : string) : string := match rsplit_slash path with Some (_, name) => name | None => path end.
Definition module_file (path : string) : bool := bool_decide (file_name path ∈ ["go.mod"; "go.work"]) || ends_with "vendor/modules.txt" path.
Definition direct_base (previous : option Snapshot) (generation : N) : bool :=
  match previous with
  | Some s => negb (s.(sn_generation) =? MISSING)%N && (s.(sn_generation) + 1 <=? u64_max)%N && (s.(sn_generation) + 1 =? generation)%N
  | None => false
  end.
Definition full_reason (incarnation : string) (previous : option Snapshot) (generation configuration : N) (c : Change) : option FullReason :=
  if negb (bool_decide (previous ≫= sn_incarnation = Some incarnation)) then Some DatabaseInstance
  else if negb (direct_base previous generation) then Some GenerationGap
  else if negb ((length c.(changed_paths) <=? 256)%nat && (length c.(changed_sources) <=? 256)%nat) then Some ChangedPathBudget
  else if negb (bool_decide (sn_configuration <$> previous = Some configuration)) then Some Configuration
  else if existsb module_file c.(changed_paths) then Some ModuleBoundary
  else None.

(** What the holder of the build permit is doing. There is one permit per process, held from
    before an index run until its publication is over. *)
Inductive Build : Type :=
  | NoBuild
  (* a dirty run: before its commit, after it, with the generation loaded, with the snapshot *)
  | DirtyRun (configuration : N)
  | DirtyCommitted (configuration : N) (c : Change)
  | DirtyLoaded (configuration : N) (c : Change) (g : N)
  | DirtyCaptured (configuration : N) (c : Change) (g : N) (previous : option Snapshot)
  (* a full publication: before its lifecycle begins, begun, with the generation loaded *)
  | FullPending (configuration : N)
  | FullBegun (configuration : N) (expected : option N)
  | FullLoaded (configuration : N) (expected : option N) (g : N)
  (* both: reading, read and observed, then under the publish gate *)
  | Reading (configuration : N) (expected : option N) (g : N) (p : Read (option RootModels))
  | Observed (configuration : N) (expected : option N) (g : N) (m : RootModels)
  | Gated (configuration : N) (expected : option N) (g : N) (m : RootModels)
  | EpochChecked (configuration : N) (g : N) (m : RootModels)
  | GenerationChecked (configuration : N) (g : N) (m : RootModels)
  (* compaction and project context: a snapshot of the same generation from the one before *)
  | Derived (s : Snapshot)
  | DerivedGated (s : Snapshot)
  | DerivedChecked (s : Snapshot).
(** A change of configuration publishes an empty snapshot under the gate, without a permit. *)
Inductive Holder : Type := Builder | Configurer (absent : bool).
Record World : Type := mkWorld {
  w_commits : list (N * Facts);     (* the newest first *)
  w_snapshot : option Snapshot;
  w_next_epoch : N;
  w_gate : option Holder;
  w_build : Build;
}.
Definition current (w : World) : option (N * Facts) := head w.(w_commits).
Definition set_build (b : Build) (w : World) : World := mkWorld w.(w_commits) w.(w_snapshot) w.(w_next_epoch) w.(w_gate) b.
Definition set_gate (h : option Holder) (w : World) : World := mkWorld w.(w_commits) w.(w_snapshot) w.(w_next_epoch) h w.(w_build).
Definition set_snapshot (s : option Snapshot) (w : World) : World := mkWorld w.(w_commits) s w.(w_next_epoch) w.(w_gate) w.(w_build).
Definition commit (g : N) (F : Facts) (w : World) : World := mkWorld ((g, F) :: w.(w_commits)) w.(w_snapshot) w.(w_next_epoch) w.(w_gate) w.(w_build).
(** [allocate_engine_epoch], then [publish_engine_snapshot] *)
Definition publish (s : Snapshot) (w : World) : World :=
  mkWorld w.(w_commits) (Some (with_epoch w.(w_next_epoch) s)) (w.(w_next_epoch) + 1) w.(w_gate) w.(w_build).
Definition release (b : Build) (w : World) : World := set_gate None (set_build b w).
Definition current_epoch (w : World) : option N := sn_epoch <$> w.(w_snapshot).
Definition cancel (w : World) : World :=
  set_build NoBuild (set_gate (match w.(w_gate) with Some Builder => None | h => h end) w).

Section server.
Context (go : string -> bool) (al : Allocations) (incarnation : string).

Inductive step (w : World) : World -> Prop :=
  (* any process commits an index run *)
  | Commit g F F' : current w = Some (g, F) -> (g < u64_max)%N -> facts_ok F' -> step w (commit (g + 1) F' w)
  (* a dirty run of this process *)
  | StartDirty conf : w.(w_build) = NoBuild -> step w (set_build (DirtyRun conf) w)
  | CommitDirty conf c g F F' : w.(w_build) = DirtyRun conf -> current w = Some (g, F) -> (g < u64_max)%N -> facts_ok F' ->
      changes go F c F' -> NoDup c.(changed_sources) -> step w (set_build (DirtyCommitted conf c) (commit (g + 1) F' w))
  | LoadDirty conf c g F : w.(w_build) = DirtyCommitted conf c -> current w = Some (g, F) -> step w (set_build (DirtyLoaded conf c g) w)
  | CaptureDirty conf c g : w.(w_build) = DirtyLoaded conf c g -> step w (set_build (DirtyCaptured conf c g w.(w_snapshot)) w)
  | BeginDirty conf c g F base : w.(w_build) = DirtyCaptured conf c g (Some base) -> current w = Some (g, F) ->
      full_reason incarnation (Some base) g conf c = None ->
      step w (set_build (Reading conf (Some base.(sn_epoch)) g (read_dirty go al base.(sn_models) c)) w)
  | FallBack conf c g F previous reason : w.(w_build) = DirtyCaptured conf c g previous -> current w = Some (g, F) ->
      full_reason incarnation previous g conf c = Some reason -> step w (set_build (FullPending conf) w)
  (* a full publication *)
  | StartFull conf : w.(w_build) = NoBuild -> step w (set_build (FullPending conf) w)
  | BeginFull conf : w.(w_build) = FullPending conf -> step w (set_build (FullBegun conf (current_epoch w)) w)
  | LoadFull conf expected g F : w.(w_build) = FullBegun conf expected -> current w = Some (g, F) -> step w (set_build (FullLoaded conf expected g) w)
  | CaptureFull conf expected g F : w.(w_build) = FullLoaded conf expected g -> current w = Some (g, F) ->
      step w (set_build (Reading conf expected g (read_bind (read_full al) (fun m => Done (Some m)))) w)
  (* reading *)
  | Answer conf expected g B (q : Facts -> B -> Prop) k h g' F b : w.(w_build) = Reading conf expected g (Query q k h) ->
      current w = Some (g', F) -> q F b -> step w (set_build (Reading conf expected g (k b)) w)
  | Error conf expected g B (q : Facts -> B -> Prop) k h : w.(w_build) = Reading conf expected g (Query q k h) ->
      step w (set_build (Reading conf expected g h) w)
  | OverBudget conf expected g : w.(w_build) = Reading conf expected g (Done None) -> step w (set_build (FullPending conf) w)
  | Observe conf expected g F m : w.(w_build) = Reading conf expected g (Done (Some m)) -> current w = Some (g, F) ->
      step w (set_build (Observed conf expected g m) w)
  (* the swap *)
  | TakeGate conf expected g m : w.(w_build) = Observed conf expected g m -> w.(w_gate) = None ->
      step w (set_gate (Some Builder) (set_build (Gated conf expected g m) w))
  | CheckEpoch conf g m : w.(w_build) = Gated conf (current_epoch w) g m -> step w (set_build (EpochChecked conf g m) w)
  | CheckGeneration conf g F m : w.(w_build) = EpochChecked conf g m -> current w = Some (g, F) -> step w (set_build (GenerationChecked conf g m) w)
  | Swap conf g m : w.(w_build) = GenerationChecked conf g m ->
      step w (release NoBuild (publish (mkSnapshot 0 g (Some incarnation) conf m) w))
  (* a snapshot derived from the one before *)
  | StartDerived s : w.(w_build) = NoBuild -> w.(w_snapshot) = Some s -> step w (set_build (Derived s) w)
  | TakeGateDerived s : w.(w_build) = Derived s -> w.(w_gate) = None -> step w (set_gate (Some Builder) (set_build (DerivedGated s) w))
  | CheckDerived s : w.(w_build) = DerivedGated s -> current_epoch w = Some s.(sn_epoch) -> step w (set_build (DerivedChecked s) w)
  | SwapDerived s : w.(w_build) = DerivedChecked s -> step w (release NoBuild (publish s w))
  (* publish_workspace_semantics_if_absent *)
  | TakeGateConfigure : w.(w_gate) = None -> step w (set_gate (Some (Configurer false)) w)
  | Present s : w.(w_gate) = Some (Configurer false) -> w.(w_snapshot) = Some s -> step w (set_gate None w)
  | Absent : w.(w_gate) = Some (Configurer false) -> w.(w_snapshot) = None -> step w (set_gate (Some (Configurer true)) w)
  | Configure conf : w.(w_gate) = Some (Configurer true) -> step w (set_gate None (publish (empty_snapshot 0 conf) w))
  (* remove_workspace_roots, which takes neither; a build that fails or is cancelled *)
  | Remove : step w (set_snapshot None w)
  | Cancelled : step w (cancel w).

Inductive reachable : World -> Prop :=
  | Started g F : facts_ok F -> reachable (mkWorld [(g, F)] None 1 None NoBuild)
  | Stepped w w' : reachable w -> step w w' -> reachable w'.

(** ** The invariant *)

Definition older (a b : N * Facts) : Prop := (b.1 < a.1)%N.
(** The snapshot serves the facts of the commit it names. *)
Definition faithful (log : list (N * Facts)) (g : N) (m : RootModels) : Prop := exists F, (g, F) ∈ log /\ serves_all go al m F.
Definition claim (log : list (N * Facts)) (s : Snapshot) : Prop :=
  match s.(sn_incarnation) with Some _ => faithful log s.(sn_generation) s.(sn_models) | None => s.(sn_generation) = MISSING end.
(** The commit of the run follows every published one; [c] tells what it changed. *)
Definition follows (log : list (N * Facts)) (c : Change) (gp : N) (F F' : Facts) : Prop :=
  exists new old, log = new ++ (gp + 1, F')%N :: (gp, F) :: old /\ changes go F c F' /\ NoDup c.(changed_sources).
Definition not_after (o : option Snapshot) (g : N) : Prop := forall s, o = Some s -> (s.(sn_generation) <= g)%N.
Definition only (o : option Snapshot) (s : Snapshot) : Prop := forall s', o = Some s' -> s'.(sn_epoch) = s.(sn_epoch) -> s' = s.
Definition newest (log : list (N * Facts)) (g : N) : Prop := exists F rest, log = (g, F) :: rest.

Definition build_ok (w : World) : Prop :=
  match w.(w_build) with
  | NoBuild | DirtyRun _ | FullPending _ | FullBegun _ _ => True
  | DirtyCommitted _ c => exists gp F F', follows w.(w_commits) c gp F F' /\ not_after w.(w_snapshot) gp
  | DirtyLoaded _ c g => exists gp F F', follows w.(w_commits) c gp F F' /\ not_after w.(w_snapshot) gp /\ (gp < g)%N /\ g ∈ w.(w_commits).*1
  | DirtyCaptured _ c g previous => exists gp F F', follows w.(w_commits) c gp F F' /\ not_after previous gp /\ (gp < g)%N /\ g ∈ w.(w_commits).*1 /\
      forall s, previous = Some s -> claim w.(w_commits) s
  | FullLoaded _ _ g => g ∈ w.(w_commits).*1
  | Reading _ _ g p => g ∈ w.(w_commits).*1 /\ forall F m, current w = Some (g, F) -> gives F p (Some m) -> serves_all go al m F
  | Observed _ _ g m | Gated _ _ g m | EpochChecked _ g m => faithful w.(w_commits) g m
  | GenerationChecked _ g m => faithful w.(w_commits) g m /\ not_after w.(w_snapshot) g
  | Derived s => claim w.(w_commits) s /\ (s.(sn_epoch) < w.(w_next_epoch))%N /\ only w.(w_snapshot) s
  | DerivedGated s => claim w.(w_commits) s /\ (s.(sn_epoch) < w.(w_next_epoch))%N /\ only w.(w_snapshot) s
  | DerivedChecked s => claim w.(w_commits) s /\ forall s', w.(w_snapshot) = Some s' -> s' = s
  end.
Definition holds_gate (b : Build) : bool :=
  match b with Gated _ _ _ _ | EpochChecked _ _ _ | GenerationChecked _ _ _ | DerivedGated _ | DerivedChecked _ => true | _ => false end.
Record world_ok (w : World) : Prop := {
  wo_sorted : StronglySorted older w.(w_commits);
  wo_some : w.(w_commits) <> [];
  wo_facts : Forall (fun gF => facts_ok gF.2) w.(w_commits);
  wo_claim s : w.(w_snapshot) = Some s -> claim w.(w_commits) s;
  wo_epoch s : w.(w_snapshot) = Some s -> (s.(sn_epoch) < w.(w_next_epoch))%N;
  wo_gate : holds_gate w.(w_build) = true <-> w.(w_gate) = Some Builder;
  wo_absent : w.(w_gate) = Some (Configurer true) -> w.(w_snapshot) = None;
  wo_build : build_ok w;
}.

(** *** The log *)

Lemma log_unique log g F F' : StronglySorted older log -> (g, F) ∈ log -> (g, F') ∈ log -> F = F'.
Proof.
  induction log as [|[h G] log IH]; intros Hs; [by intros ?%elem_of_nil|]. apply StronglySorted_inv in Hs as [Hs Ha]. rewrite Forall_forall in Ha.
  intros [[= -> ->]|H1]%elem_of_cons [[= E]|H2]%elem_of_cons; [done| | |by apply IH].
  - specialize (Ha _ H2). unfold older in Ha. cbn in Ha. lia.
  - specialize (Ha _ H1). unfold older in Ha. cbn in Ha. subst. lia.
Qed.
Lemma newest_le g F log h : StronglySorted older ((g, F) :: log) -> h ∈ ((g, F) :: log).*1 -> (h <= g)%N.
Proof.
  intros [_ Ha]%StronglySorted_inv. rewrite Forall_forall in Ha. intros ([h' G] & -> & [[= -> ->]|H]%elem_of_cons)%list_elem_of_fmap; [done|].
  specialize (Ha _ H). unfold older in Ha. cbn in *. lia.
Qed.
Lemma follows_facts log c gp F F' : follows log c gp F F' -> Forall (fun gF => facts_ok gF.2) log -> facts_ok F /\ facts_ok F'.
Proof. intros (new & old & -> & _) [_ [H1 [H2 _]%Forall_cons]%Forall_cons]%Forall_app. done. Qed.
Lemma follows_in log c gp F F' : follows log c gp F F' -> (gp, F) ∈ log /\ ((gp + 1)%N, F') ∈ log.
Proof. intros (new & old & -> & _). set_solver. Qed.
Lemma follows_more log c gp F F' x : follows log c gp F F' -> follows (x :: log) c gp F F'.
Proof. intros (new & old & -> & H). by exists (x :: new), old. Qed.
Lemma claim_more log s x : claim log s -> claim (x :: log) s.
Proof. unfold claim, faithful. destruct (sn_incarnation s); [|done]. intros (F & ? & ?). exists F. split; [by right|done]. Qed.
Lemma faithful_more log g m x : faithful log g m -> faithful (x :: log) g m.
Proof. intros (F & ? & ?). exists F. split; [by right|done]. Qed.
Lemma claim_le log s : claim log s -> log <> [] -> StronglySorted older log -> exists g F, head log = Some (g, F) /\ (s.(sn_generation) <= g)%N.
Proof.
  destruct log as [|[g F] log]; [done|]. intros Hc _ Hs. exists g, F. split; [done|]. unfold claim in Hc. destruct (sn_incarnation s).
  - destruct Hc as (G & Hin & _). eapply newest_le; [done|]. apply list_elem_of_fmap. by exists (sn_generation s, G).
  - rewrite Hc. unfold MISSING. lia.
Qed.

(** *** Every step keeps the invariant *)

Lemma current_log w g F : current w = Some (g, F) -> exists rest, w.(w_commits) = (g, F) :: rest.
Proof. unfold current. destruct (w_commits w) as [|x rest]; [done|]. intros [= ->]. by exists rest. Qed.
Lemma current_in w g F : current w = Some (g, F) -> (g, F) ∈ w.(w_commits) /\ g ∈ w.(w_commits).*1.
Proof. intros (rest & ->)%current_log. split; left. Qed.
Lemma current_max w g F h : world_ok w -> current w = Some (g, F) -> h ∈ w.(w_commits).*1 -> (h <= g)%N.
Proof. intros Hw (rest & E)%current_log. pose proof (wo_sorted _ Hw) as Hs. rewrite E in *. by apply newest_le. Qed.
Lemma current_facts w g F : world_ok w -> current w = Some (g, F) -> facts_ok F.
Proof. intros Hw [Hin _]%current_in. pose proof (wo_facts _ Hw) as Hf. rewrite Forall_forall in Hf. exact (Hf _ Hin). Qed.
Lemma published_le w g F s : world_ok w -> current w = Some (g, F) -> w.(w_snapshot) = Some s -> (s.(sn_generation) <= g)%N.
Proof.
  intros Hw Hc Hs. destruct (claim_le _ s (wo_claim _ Hw s Hs) (wo_some _ Hw) (wo_sorted _ Hw)) as (g' & F' & E & Hle). unfold current in Hc. rewrite Hc in E. by injection E as <- <-.
Qed.

Lemma set_build_ok w b : world_ok w -> holds_gate b = holds_gate w.(w_build) -> build_ok (set_build b w) -> world_ok (set_build b w).
Proof. intros [] Hb Hok. split; cbn [set_build w_commits w_snapshot w_next_epoch w_gate w_build]; try done. by rewrite Hb. Qed.
Lemma commit_build_ok w g F F' : world_ok w -> current w = Some (g, F) -> build_ok (commit (g + 1) F' w).
Proof.
  intros Hw Hc. pose proof (wo_build _ Hw) as Hb. unfold build_ok in *. cbn [commit w_build w_commits w_snapshot w_next_epoch]. destruct (w_build w); try done.
  - destruct Hb as (gp & G & G' & Hf & ?). exists gp, G, G'. split; [by apply follows_more|done].
  - destruct Hb as (gp & G & G' & Hf & ? & ? & Hin). exists gp, G, G'. split_and!; [by apply follows_more|done|done|by right].
  - destruct Hb as (gp & G & G' & Hf & ? & ? & Hin & Hcl). exists gp, G, G'. split_and!; [by apply follows_more|done|done|by right|]. intros s Hs. by apply claim_more, Hcl.
  - by right.
  - destruct Hb as [Hin Hp]. split; [by right|]. intros G m [= <- <-]. pose proof (current_max w g F _ Hw Hc Hin). lia.
  - by apply faithful_more.
  - by apply faithful_more.
  - by apply faithful_more.
  - destruct Hb as [? ?]. split; [by apply faithful_more|done].
  - destruct Hb as (? & ? & ?). split_and!; [by apply claim_more|done..].
  - destruct Hb as (? & ? & ?). split_and!; [by apply claim_more|done..].
  - destruct Hb as [? ?]. split; [by apply claim_more|done].
Qed.
Lemma server_commit_ok w g F F' : world_ok w -> current w = Some (g, F) -> facts_ok F' -> world_ok (commit (g + 1) F' w).
Proof.
  intros Hw Hc HF. pose proof (commit_build_ok w g F F' Hw Hc) as Hb. destruct (current_log w g F Hc) as (rest & E).
  split; cbn [commit w_commits w_snapshot w_next_epoch w_gate w_build]; try apply Hw; try done.
  - constructor; [apply Hw|]. apply Forall_forall. intros [h G] Hin. unfold older. cbn. assert (h ∈ (w_commits w).*1) as Hh by (apply list_elem_of_fmap; by exists (h, G)).
    pose proof (current_max w g F h Hw Hc Hh). lia.
  - constructor; [done|apply Hw].
  - intros s Hs. by apply claim_more, Hw.
Qed.
Lemma remove_ok w : world_ok w -> world_ok (set_snapshot None w).
Proof.
  intros Hw. pose proof (wo_build _ Hw) as Hb. split; cbn [set_snapshot w_commits w_snapshot w_next_epoch w_gate w_build]; try apply Hw; try done.
  unfold build_ok in *. cbn [set_snapshot w_commits w_snapshot w_next_epoch w_build]. destruct (w_build w); try done; unfold not_after, only in *; naive_solver.
Qed.
(** Taking or leaving the gate *)
Lemma gate_ok w h : world_ok w -> w.(w_gate) <> Some Builder -> h <> Some Builder -> (h = Some (Configurer true) -> w.(w_snapshot) = None) -> world_ok (set_gate h w).
Proof.
  intros Hw H1 H2 Ha. split; cbn [set_gate w_commits w_snapshot w_next_epoch w_gate w_build]; try apply Hw; try done.
  split; [|done]. intros H%(wo_gate _ Hw). done.
Qed.
Lemma take_gate_ok w b : world_ok w -> w.(w_gate) = None -> holds_gate b = true -> build_ok (set_build b w) -> world_ok (set_gate (Some Builder) (set_build b w)).
Proof.
  intros Hw Hg Hb Hok. split; cbn [set_gate set_build w_commits w_snapshot w_next_epoch w_gate w_build]; try apply Hw; try done.
Qed.
Lemma cancel_ok w : world_ok w -> world_ok (cancel w).
Proof.
  intros Hw. unfold cancel. split; cbn [set_gate set_build w_commits w_snapshot w_next_epoch w_gate w_build]; try apply Hw; try done.
  - split; [done|]. by repeat case_match.
  - intros H. apply (wo_absent _ Hw). by repeat case_match.
Qed.
(** The builder's swap *)
Lemma swap_ok w s : world_ok w -> claim w.(w_commits) s -> world_ok (release NoBuild (publish s w)).
Proof.
  intros Hw Hc. split; cbn [release publish set_gate set_build w_commits w_snapshot w_next_epoch w_gate w_build]; try apply Hw; try done.
  - intros s' [= <-]. exact Hc.
  - intros s' [= <-]. cbn. lia.
Qed.
Lemma configure_ok w conf : world_ok w -> w.(w_gate) = Some (Configurer true) -> world_ok (set_gate None (publish (empty_snapshot 0 conf) w)).
Proof.
  intros Hw Hg. pose proof (wo_build _ Hw) as Hb. pose proof (wo_gate _ Hw) as Hh. rewrite Hg in Hh. destruct (holds_gate (w_build w)) eqn:E; [by pose proof (proj1 Hh eq_refl)|].
  split; cbn [publish set_gate w_commits w_snapshot w_next_epoch w_gate w_build]; try apply Hw; try done.
  - intros s' [= <-]. done.
  - intros s' [= <-]. cbn. lia.
  - by rewrite E.
  - unfold build_ok in *. cbn [publish set_gate w_commits w_snapshot w_next_epoch w_build]. destruct (w_build w); try done; unfold not_after, only in *.
    + destruct Hb as (gp & F & F' & ? & _). exists gp, F, F'. split; [done|]. intros s [= <-]. cbn. unfold MISSING. lia.
    + destruct Hb as (gp & F & F' & ? & _ & ? & ?). exists gp, F, F'. split_and!; [done| |done..]. intros s [= <-]. cbn. unfold MISSING. lia.
    + destruct Hb as (? & Hlt & _). split_and!; [done|lia|]. intros s' [= <-]. cbn. lia.
Qed.
Lemma full_reason_none base g conf c : full_reason incarnation (Some base) g conf c = None ->
  base.(sn_incarnation) = Some incarnation /\ (base.(sn_generation) + 1 = g)%N /\ (length c.(changed_paths) <= 256)%nat /\ (length c.(changed_sources) <= 256)%nat.
Proof.
  unfold full_reason, direct_base. cbn [mbind option_bind]. destruct (bool_decide _) eqn:E1; [|done]. apply bool_decide_eq_true in E1. cbn [negb].
  destruct (_ && _ && _) eqn:E2; [|done]. apply andb_true_iff in E2 as [_ E2%N.eqb_eq]. cbn [negb].
  destruct (_ && _) eqn:E3; [|done]. apply andb_true_iff in E3 as [E3%Nat.leb_le E4%Nat.leb_le]. done.
Qed.
(** The base of a dirty publication is the commit before the run's own. *)
Lemma dirty_reading_ok w conf c g F base : world_ok w -> w.(w_build) = DirtyCaptured conf c g (Some base) -> current w = Some (g, F) ->
  full_reason incarnation (Some base) g conf c = None -> build_ok (set_build (Reading conf (Some base.(sn_epoch)) g (read_dirty go al base.(sn_models) c)) w).
Proof.
  intros Hw Eb Hc (Hi & Hg & Hp & Hs)%full_reason_none. pose proof (wo_build _ Hw) as Hb. unfold build_ok in *. rewrite Eb in Hb.
  destruct Hb as (gp & G & G' & Hf & Hn & Hlt & Hin & Hcl). specialize (Hn base eq_refl). specialize (Hcl base eq_refl). unfold claim in Hcl. rewrite Hi in Hcl.
  destruct Hcl as (G0 & Hin0 & Hserves). assert (gp = base.(sn_generation)) as -> by lia. destruct (follows_in _ _ _ _ _ Hf) as [H1 H2]. rewrite Hg in H2.
  destruct (follows_facts _ _ _ _ _ Hf (wo_facts _ Hw)) as [HG HG']. rewrite (log_unique _ _ _ _ (wo_sorted _ Hw) Hin0 H1) in Hserves.
  cbn [set_build w_build w_commits]. split; [done|]. intros F0 m Hc0 Hm. unfold current in *. cbn [set_build w_commits] in Hc0. rewrite Hc in Hc0. injection Hc0 as <-.
  destruct (current_in w g F Hc) as [HF _]. pose proof (log_unique _ _ _ _ (wo_sorted _ Hw) HF H2) as ->. destruct Hf as (new & old & _ & Hch & Hnd).
  by apply (dirty_serves go al G G' c base.(sn_models)).
Qed.
Lemma full_reading_ok w conf expected g F : world_ok w -> current w = Some (g, F) ->
  build_ok (set_build (Reading conf expected g (read_bind (read_full al) (fun m => Done (Some m)))) w).
Proof.
  intros Hw Hc. unfold build_ok. cbn [set_build w_build w_commits]. destruct (current_in w g F Hc) as [_ Hin]. split; [done|].
  intros F0 m Hc0 (m' & Hm & E)%gives_bind. injection E as ->. apply full_serves; [|done]. exact (current_facts w g F0 Hw Hc0).
Qed.
Lemma server_step_ok w w' : world_ok w -> step w w' -> world_ok w'.
Proof.
  intros Hw Hs. pose proof (wo_build _ Hw) as Hb. unfold build_ok in Hb.
  destruct Hs; try match goal with E : w_build w = _ |- _ => rewrite E in Hb end;
    try (apply set_build_ok; [done|by match goal with E : w_build w = _ |- _ => rewrite E end|]); try (unfold build_ok; cbn [set_build w_build w_commits w_snapshot w_next_epoch]; done).
  - by eapply server_commit_ok.
  - pose proof (server_commit_ok w g F F' Hw H0 H2) as Hw'. apply set_build_ok; [done|cbn; by rewrite H|]. unfold build_ok. cbn. exists g, F, F'. destruct (current_log w g F H0) as (rest & E). split.
    + exists [], rest. by rewrite E.
    + intros s Es. by apply (published_le w g F).
  - destruct Hb as (gp & G & G' & Hf & Hn). unfold build_ok. cbn. exists gp, G, G'. destruct (current_in w g F H0) as [_ Hin]. split_and!; [done..| |done].
    destruct (follows_in _ _ _ _ _ Hf) as [_ H2]. assert ((gp + 1)%N ∈ (w_commits w).*1) as H3 by (apply list_elem_of_fmap; by exists ((gp + 1)%N, G')).
    pose proof (current_max w g F _ Hw H0 H3). lia.
  - destruct Hb as (gp & G & G' & Hf & Hn & Hlt & Hin). unfold build_ok. cbn. exists gp, G, G'. split_and!; [done..|]. intros s Es. by apply Hw.
  - by eapply dirty_reading_ok.
  - unfold build_ok. cbn. by destruct (current_in w g F H0).
  - by eapply full_reading_ok.
  - destruct Hb as [Hin Hp]. unfold build_ok. cbn. split; [done|]. intros G m Hc Hm. apply (Hp G m Hc). cbn. left. exists b.
    unfold current in *. cbn in Hc. rewrite Hc in H0. by injection H0 as _ <-.
  - destruct Hb as [Hin Hp]. unfold build_ok. cbn. split; [done|]. intros G m Hc Hm. apply (Hp G m Hc). cbn. by right.
  - destruct Hb as [Hin Hp]. unfold build_ok. cbn. exists F. split; [by apply current_in|]. by apply Hp.
  - by apply take_gate_ok.
  - destruct Hb as (G & ? & ?). unfold build_ok. cbn. split; [by exists G|]. intros s Es. by apply (published_le w g F).
  - apply swap_ok; [done|]. apply Hb.
  - unfold build_ok. cbn. split_and!; [by apply Hw|by apply Hw|]. intros s' Es _. congruence.
  - by apply take_gate_ok.
  - destruct Hb as (? & ? & Ho). unfold build_ok. cbn. split; [done|]. intros s' Es. apply Ho; [done|]. unfold current_epoch in H0. rewrite Es in H0. by injection H0.
  - apply swap_ok; [done|]. apply Hb.
  - apply gate_ok; [done|by rewrite H|done|done].
  - apply gate_ok; [done|by rewrite H|done|done].
  - apply gate_ok; [done|by rewrite H|done|done].
  - by apply configure_ok.
  - by apply remove_ok.
  - by apply cancel_ok.
Qed.
Lemma server_start_ok g F : facts_ok F -> world_ok (mkWorld [(g, F)] None 1 None NoBuild).
Proof. intros HF. split; cbn; try done; [repeat constructor|by constructor]. Qed.
Lemma server_reachable_ok w : reachable w -> world_ok w.
Proof. induction 1; [by apply server_start_ok|by eapply server_step_ok]. Qed.

(** C25 Every snapshot a server publishes serves the facts of the commit whose generation it
    names, whatever other processes commit while it reads, whatever is removed or cancelled,
    and whether its tables were read again or updated from the snapshot before. *)
Theorem published_snapshot_serves w s : reachable w -> w.(w_snapshot) = Some s -> s.(sn_incarnation) <> None ->
  exists F, (forall G, (s.(sn_generation), G) ∈ w.(w_commits) <-> G = F) /\ serves_all go al s.(sn_models) F.
Proof.
  intros Hw%server_reachable_ok Hs Hi. pose proof (wo_claim _ Hw s Hs) as Hc. unfold claim in Hc. destruct (sn_incarnation s); [|done].
  destruct Hc as (F & Hin & Hserves). exists F. split; [|done]. intros G. split; [|by intros ->]. intros HG. by apply (log_unique _ _ _ _ (wo_sorted _ Hw) HG Hin).
Qed.

(** C35 A published snapshot is only ever replaced by one of a later epoch and of the same or a
    later generation; nothing else but the removal of the root takes it away. *)
Theorem snapshot_never_older w w' s : reachable w -> step w w' -> w.(w_snapshot) = Some s ->
  match w'.(w_snapshot) with
  | Some s' => s' = s \/ (s.(sn_generation) <= s'.(sn_generation) /\ s.(sn_epoch) < s'.(sn_epoch))%N
  | None => w' = set_snapshot None w
  end.
Proof.
  intros Hw%server_reachable_ok Hs E. pose proof (wo_build _ Hw) as Hb. pose proof (wo_epoch _ Hw s E) as He. unfold build_ok in Hb.
  destruct Hs; cbn [commit set_build set_gate release publish cancel set_snapshot w_snapshot]; try (rewrite E; by left); try done;
    try match goal with E : w_build w = _ |- _ => rewrite E in Hb end.
  - right. cbn. split; [by apply Hb|done].
  - right. cbn. destruct Hb as [_ Hb]. pose proof (Hb s E) as ->. split; [lia|done].
  - by rewrite (wo_absent _ Hw H) in E.
Qed.

(** *** What nothing disturbs goes through *)

Lemma reading_runs w conf expected g F p r : current w = Some (g, F) -> w.(w_build) = Reading conf expected g p -> gives F p r ->
  rtc step w (set_build (Reading conf expected g (Done r)) w).
Proof.
  revert w. induction p as [x|B q k IH h IHh|]; intros w Hc Hb H; cbn in H; [subst x| |done].
  - by destruct w; cbn in Hb |- *; subst; apply rtc_refl.
  - destruct H as [(b & Hq & H)|H].
    + eapply rtc_l; [by eapply Answer|]. exact (IH b (set_build (Reading conf expected g (k b)) w) Hc eq_refl H).
    + eapply rtc_l; [by eapply Error|]. exact (IHh (set_build (Reading conf expected g h) w) Hc eq_refl H).
Qed.
Lemma reading_publishes w conf g F p m : current w = Some (g, F) -> w.(w_build) = Reading conf (current_epoch w) g p -> w.(w_gate) = None -> gives F p (Some m) ->
  rtc step w (release NoBuild (publish (mkSnapshot 0 g (Some incarnation) conf m) w)).
Proof.
  intros Hc Hb Hg Hp. etrans; [by eapply reading_runs|].
  eapply rtc_l; [by eapply Observe|]. eapply rtc_l; [by eapply TakeGate|]. eapply rtc_l; [by eapply CheckEpoch|].
  eapply rtc_l; [by eapply CheckGeneration|]. eapply rtc_l; [by eapply Swap|]. by apply rtc_refl.
Qed.
Lemma full_publishes w conf g F m : current w = Some (g, F) -> w.(w_build) = FullPending conf -> w.(w_gate) = None -> gives F (read_full al) m ->
  rtc step w (release NoBuild (publish (mkSnapshot 0 g (Some incarnation) conf m) w)).
Proof.
  intros Hc Hb Hg Hm. eapply rtc_l; [by eapply BeginFull|]. eapply rtc_l; [by eapply LoadFull|]. eapply rtc_l; [by eapply CaptureFull|].
  refine (reading_publishes (set_build (Reading conf (current_epoch w) g _) w) conf g F _ m Hc eq_refl Hg _). eapply gives_read; [exact Hm|done].
Qed.
Lemma dirty_publishes w conf c g F base m :
  w.(w_build) = DirtyCommitted conf c -> w.(w_gate) = None -> current w = Some (g, F) -> w.(w_snapshot) = Some base ->
  full_reason incarnation (Some base) g conf c = None -> gives F (read_dirty go al base.(sn_models) c) (Some m) ->
  rtc step w (mkWorld w.(w_commits) (Some (mkSnapshot w.(w_next_epoch) g (Some incarnation) conf m)) (w.(w_next_epoch) + 1) None NoBuild).
Proof.
  intros Hb Hg Hc Hs Hr Hm. eapply rtc_l; [by eapply LoadDirty|]. eapply rtc_l; [by eapply CaptureDirty|].
  eapply rtc_l; [eapply (BeginDirty _ conf c g F base); [cbn; by rewrite Hs|exact Hc|exact Hr]|].
  refine (reading_publishes (set_build (Reading conf (Some base.(sn_epoch)) g (read_dirty go al base.(sn_models) c)) w) conf g F _ m Hc _ Hg Hm).
  cbn. unfold current_epoch. cbn. by rewrite Hs.
Qed.
(** C39 A dirty run that nothing disturbs publishes its commit: a server that holds the snapshot
    of the commit before and finds no reason for a full publication swaps in the updated
    tables, under a new epoch, and is done. *)
Theorem undisturbed_run_publishes w conf c g F base m :
  w.(w_build) = DirtyCommitted conf c -> w.(w_gate) = None -> current w = Some (g, F) -> w.(w_snapshot) = Some base ->
  full_reason incarnation (Some base) g conf c = None -> gives F (read_dirty go al base.(sn_models) c) (Some m) ->
  rtc step w (mkWorld w.(w_commits) (Some (mkSnapshot w.(w_next_epoch) g (Some incarnation) conf m)) (w.(w_next_epoch) + 1) None NoBuild).
Proof. apply dirty_publishes. Qed.
Lemma reachable_rtc w w' : reachable w -> rtc step w w' -> reachable w'.
Proof. intros Hw. induction 1; [done|]. by eauto using Stepped. Qed.
End server.

(** ** Examples *)

(** A source is added to a workspace of two files. *)
Definition example_allocations : Allocations :=
  mkAllocations example_fallback_alloc demo_allocation example_go_alloc IndexedFiles.demo_alloc IncludePaths.demo_alloc (fun path => "/w/" +:+ path).
Definition example_before : Facts :=
  mkFacts [mkFile "src/a.c" true 0 0; mkFile "inc/u.h" true 0 0] [mkIncludeEdgeRow "src/a.c" "inc/u.h" RelativeExact] [] [] []
    [mkRow "lib#lib" "example/lib"] [example_fallback_row "mapSize" "src/a.c"].
Definition example_after : Facts :=
  mkFacts [mkFile "src/a.c" true 0 0; mkFile "inc/u.h" true 0 0; mkFile "src/b.c" true 1 0]
    [mkIncludeEdgeRow "src/a.c" "inc/u.h" RelativeExact; mkIncludeEdgeRow "src/b.c" "inc/u.h" RelativeExact] [] [] []
    [mkRow "lib#lib" "example/lib"] [example_fallback_row "mapSize" "src/a.c"; example_fallback_row "remap" "src/b.c"].
Definition example_change : Change := mkChange ["src/b.c"] ["src/b.c"].
Definition example_go (path : string) : bool := ends_with ".go" path.
Lemma example_facts F : F = example_before \/ F = example_after -> facts_ok F.
Proof.
  intros [-> | ->]; (split; cbn [fa_files fa_importable fa_fallback example_before example_after];
    [repeat constructor; set_solver|repeat constructor; set_solver|intros row dir ->%list_elem_of_singleton [= <-] (a & b & E)|by intros row ->%list_elem_of_singleton|
     intros x y Hx Hy _; set_solver]).
  all: destruct a as [|? [|? [|? [|? a]]]]; simpl in E; try discriminate.
Qed.
Lemma example_changes : changes example_go example_before example_change example_after.
Proof.
  split; cbn [changed_paths changed_sources fa_files fa_edges fa_importable fa_fallback example_before example_after example_change].
  - intros path flag Hp. apply not_elem_of_cons in Hp as [Hp _]. split; intros (f & Hf & E & Ef); exists f; (split; [|done]); rewrite !elem_of_cons, elem_of_nil in *; [tauto|].
    destruct Hf as [?|[?|[->|[]]]]; [tauto..|by destruct Hp].
  - intros s Hs. unfold live. cbn. set_solver.
  - intros e Hs _. apply not_elem_of_cons in Hs as [Hs _]. rewrite !elem_of_cons, elem_of_nil. split; [tauto|]. intros [?|[->|[]]]; [tauto|by destruct Hs].
  - intros f f' Hf Hf' E Hs. apply not_elem_of_cons in Hs as [Hs _]. rewrite !elem_of_cons, elem_of_nil in Hf. rewrite !elem_of_cons, elem_of_nil in Hf'.
    destruct Hf as [->|[->|[]]], Hf' as [->|[->|[->|[]]]]; done.
  - done.
  - done.
  - intros r Hr. apply not_elem_of_cons in Hr as [Hr _]. rewrite !elem_of_cons, elem_of_nil. split; [tauto|]. intros [?|[->|[]]]; [tauto|by destruct Hr].
Qed.
Definition example_reach : ReachGraph := from_rows_with_packages example_before.(fa_edges) [] [] [] [] [].
Definition example_table : IncludeCompletionTable := build_with_edges demo_allocation ["inc/u.h"; "src/a.c"] [("src/a.c", "inc/u.h")].
Definition example_files : IndexedFileList := IndexedFiles.from_vec IndexedFiles.demo_alloc (with_root example_allocations.(al_absolute) ["inc/u.h"; "src/a.c"]).
Definition example_index : IncludePathIndex := IncludePaths.build IncludePaths.demo_alloc [("inc/u.h", true); ("src/a.c", true)].
Definition example_models : RootModels :=
  mkModels (FallbackTable.build example_fallback_alloc example_before.(fa_fallback))
    (Some example_reach) (Some example_table) (Some (go_build example_go_alloc example_before.(fa_importable))) (Some example_files) (Some example_index).
(** A query answered with the rows as they are stored *)
Ltac answer := eapply gives_read; [apply gives_query; hnf; reflexivity|cbv beta].
Ltac delivered := cbn [gives]; vm_compute; reflexivity.
Lemma example_full_reads : gives example_before (read_full example_allocations) example_models.
Proof.
  unfold read_full. eapply gives_read; [|eapply gives_read; [|eapply gives_read; [|eapply gives_read; [|eapply gives_read; [|eapply gives_read; [|reflexivity]]]]]].
  - answer. delivered.
  - apply attempt_gives. do 6 answer. delivered.
  - apply attempt_gives. do 2 answer. delivered.
  - apply attempt_gives. answer. delivered.
  - apply attempt_gives. answer. delivered.
  - apply attempt_gives. answer. delivered.
Qed.
Definition example_select_after (chunk : list string) (probe : nat) : list FallbackCompletionRow :=
  take probe (List.filter (fun r => bool_decide (r.(row_path) ∈ chunk)) example_after.(fa_fallback)).
Definition example_edges : list IncludeEdgeRow := [mkIncludeEdgeRow "src/b.c" "inc/u.h" RelativeExact].
Definition example_open : list OpenIncludeRow := [mkOpenIncludeRow "src/b.c" UnresolvedInclude].
Definition example_updated : RootModels :=
  mkModels (FallbackTable.update_fallback_completion_table example_fallback_alloc example_select_after example_models.(rm_fallback) ["src/b.c"] [])
    (Some (with_refreshed_sources_from_rows ["src/b.c"] example_edges example_open example_reach))
    (Some (default example_table (IncludeTable.updated demo_allocation example_table ["src/b.c"] ["src/b.c"] ["src/b.c"] (edge_pair <$> example_edges))))
    example_models.(rm_imports)
    (Some (default example_files (default None (IndexedFiles.update IndexedFiles.demo_alloc example_files ["src/b.c"] (with_root example_allocations.(al_absolute) ["src/b.c"])))))
    (Some (default example_index (IncludePaths.updated_paths IncludePaths.demo_alloc example_index ["src/b.c"] [("src/b.c", true)]))).
Lemma example_dirty_reads : gives example_after (read_dirty example_go example_allocations example_models example_change) (Some example_updated).
Proof.
  unfold read_dirty. eapply (gives_read _ _ _ example_updated.(rm_fallback)); [|eapply (gives_read _ _ _ ((fun f => (f, false)) <$> example_updated.(rm_files))); [|cbv zeta;
    eapply (gives_read _ _ _ example_updated.(rm_reach)); [|eapply (gives_read _ _ _ example_updated.(rm_table)); [|
    eapply (gives_read _ _ _ example_updated.(rm_imports)); [|eapply (gives_read _ _ _ example_updated.(rm_paths))]]]]].
  - eapply gives_read; [apply gives_query; exists example_select_after; split; [|reflexivity]|delivered].
    intros chunk probe. eexists. split; [|reflexivity]. intros r. by rewrite elem_of_filter_bool, bool_decide_eq_true.
  - apply attempt_gives. unfold changed_files, update_indexed_file_list. cbn [rm_files example_models]. answer. delivered.
  - apply attempt_gives. unfold refresh_reach_graph_incremental. cbn [rm_reach example_models example_change changed_sources existsb].
    left. exists (example_edges, example_open). split; [split; vm_compute; reflexivity|reflexivity].
  - apply attempt_gives. unfold changed_table, update_include_table. cbn [rm_table example_models example_change changed_sources changed_paths].
    answer. eapply gives_read; [apply gives_query; exists example_edges; split; [vm_compute; reflexivity|reflexivity]|]. delivered.
  - apply attempt_gives. delivered.
  - apply attempt_gives. unfold changed_path_index, update_include_path_index. cbn [rm_paths example_models]. answer. delivered.
  - delivered.
Qed.
Definition example_snapshot : Snapshot := mkSnapshot 1 6 (Some "db") 7 example_models.
Definition example_started : World := mkWorld [(6%N, example_before)] None 1 None (FullPending 7).
Definition example_published : World := mkWorld [(6%N, example_before)] (Some example_snapshot) 2 None NoBuild.
Definition example_committed : World := mkWorld [(7%N, example_after); (6%N, example_before)] (Some example_snapshot) 2 None (DirtyCommitted 7 example_change).
Definition example_advanced : World := mkWorld [(7%N, example_after); (6%N, example_before)] (Some (mkSnapshot 2 7 (Some "db") 7 example_updated)) 3 None NoBuild.
Local Abbreviation example_reachable := (reachable example_go example_allocations "db").
Local Abbreviation example_step := (step example_go example_allocations "db").
Lemma example_published_reachable : example_reachable example_published.
Proof.
  eapply reachable_rtc; [eapply Stepped; [apply (Started _ _ _ 6 example_before), example_facts; by left|by apply (StartFull _ _ _ _ 7)]|].
  exact (full_publishes example_go example_allocations "db" example_started 7 6 example_before example_models eq_refl eq_refl eq_refl example_full_reads).
Qed.
Lemma example_committed_reachable : example_reachable example_committed.
Proof.
  eapply Stepped; [eapply Stepped; [apply example_published_reachable|by apply (StartDirty _ _ _ _ 7)]|].
  apply (CommitDirty _ _ _ (set_build (DirtyRun 7) example_published) 7 example_change 6 example_before example_after); [done..| |apply example_changes|].
  - apply example_facts. by right.
  - repeat constructor. set_solver.
Qed.
(** The added source is published by updating the tables of the snapshot before. *)
Lemma undisturbed_run_publishes_witness : rtc example_step example_committed example_advanced.
Proof.
  exact (undisturbed_run_publishes example_go example_allocations "db" example_committed 7 example_change 7 example_after example_snapshot example_updated
    eq_refl eq_refl eq_refl eq_refl eq_refl example_dirty_reads).
Defined.
Lemma published_snapshot_serves_witness : exists F, (forall G, (7%N, G) ∈ example_advanced.(w_commits) <-> G = F) /\ serves_all example_go example_allocations example_updated F.
Proof.
  refine (published_snapshot_serves example_go example_allocations "db" example_advanced (mkSnapshot 2 7 (Some "db") 7 example_updated) _ eq_refl _); [|done].
  eapply reachable_rtc; [apply example_committed_reachable|].
  exact (dirty_publishes example_go example_allocations "db" example_committed 7 example_change 7 example_after example_snapshot example_updated
    eq_refl eq_refl eq_refl eq_refl eq_refl example_dirty_reads).
Defined.
(** A compaction republishes the generation under the next epoch. *)
Definition example_compacting : World := mkWorld [(6%N, example_before)] (Some example_snapshot) 2 (Some Builder) (DerivedChecked example_snapshot).
Lemma snapshot_never_older_witness : exists w', example_step example_compacting w' /\
  match w'.(w_snapshot) with
  | Some s' => s' = example_snapshot \/ (6 <= s'.(sn_generation) /\ 1 < s'.(sn_epoch))%N
  | None => w' = set_snapshot None example_compacting
  end.
Proof.
  exists (release NoBuild (publish example_snapshot example_compacting)). split; [by apply SwapDerived|].
  apply (snapshot_never_older example_go example_allocations "db" example_compacting (release NoBuild (publish example_snapshot example_compacting)) example_snapshot); [|by apply SwapDerived|done].
  eapply Stepped; [eapply Stepped; [eapply Stepped; [apply example_published_reachable|by apply (StartDerived _ _ _ _ example_snapshot)]|by apply TakeGateDerived]|].
  by apply CheckDerived.
Defined.
(** A source that is deleted is in no list of rebuilt sources, so its edges stay in the graph
    that the next snapshot publishes. *)
Example deleted_source_stays : let c := mkChange ["src/b.c"] [] in
  changes example_go example_after c example_before /\ ~ live example_before "src/b.c" /\
  exists g g', gives example_after rebuild_reach_graph g /\ gives example_before (refresh_reach_graph_incremental (Some g) c.(changed_sources)) g' /\
    edges_for g' "src/b.c" = Some [mkEdge "inc/u.h" RelativeExact].
Proof.
  split; [|split].
  - pose proof example_changes as []. split; cbn [changed_paths changed_sources fa_files fa_edges fa_importable fa_fallback example_before example_after example_change] in *; try done.
    + intros path flag Hp. symmetry. by apply ch_files.
    + intros s _. unfold live. cbn. set_solver.
    + intros e _ Hl. unfold live in Hl. cbn in Hl. rewrite !elem_of_cons, elem_of_nil. split; [|tauto]. intros [?|[->|[]]]; [tauto|]. cbn in Hl. set_solver.
    + intros f f' Hf Hf' E _. rewrite !elem_of_cons, elem_of_nil in Hf. rewrite !elem_of_cons, elem_of_nil in Hf'. destruct Hf as [->|[->|[->|[]]]], Hf' as [->|[->|[]]]; done.
    + intros r Hr. symmetry. by apply ch_fallback.
  - unfold live. cbn. set_solver.
  - exists (from_rows_with_packages example_after.(fa_edges) [mkOpenIncludeRow "src/b.c" UnresolvedInclude] [] [] [] []). eexists. split; [|split; [reflexivity|vm_compute; reflexivity]].
    unfold rebuild_reach_graph. do 6 answer. delivered.
Qed.
