(* ===== verification/IndexBuilds.v ===== *)
(** * Index builds of the store (store/generations.rs, store/writes.rs, store/schema.rs)

    Several connections, of one process or of many, stage file revisions under builds and
    commit them. Every transaction and every statement outside of one is a step, so builds of
    different connections interleave; SQLite makes each step atomic. Files, revisions and
    builds are their row ids; facts hang off a revision and follow it. *)

From S2P Require Import Prelude.

Inductive BuildState : Type := Staging | Committed.
#[export] Instance BuildState_eq_dec : EqDecision BuildState.
Proof. solve_decision. Defined.
Record IndexBuild : Type := mkBuild { build_id : N; target_generation : N; full_rebuild : bool }.
(** The tables index_builds, pending_file_revisions, active_file_revisions, file_revisions and
    file_entries, the row semantic_generation of meta, and the AUTOINCREMENT counters. A
    pending row without a revision deletes the file. *)
Record Database : Type := mkDatabase {
  generation : N;
  builds : gmap N (N * BuildState);
  pending : gmap (N * N) (option N);
  active : gmap N N;
  revisions : gmap N N;
  entries : gset N;
  last_build : N;
  last_revision : N;
}.
Definition next_generation (g : N) : N := N.max 1 (saturating_add g 1).

(** ** The operations *)

(** [DELETE FROM index_builds WHERE state = 'staging'], and the pending rows with them *)
Definition discard_abandoned_index_builds (db : Database) : Database :=
  let builds := filter (fun kv : N * (N * BuildState) => (kv.2.2 <> Staging)) db.(builds) in
  mkDatabase db.(generation) builds (filter (fun kv : N * N * option N => is_Some (builds !! kv.1.1)) db.(pending))
    db.(active) db.(revisions) db.(entries) db.(last_build) db.(last_revision).
(** The insertion of begin_index_build; target_generation is UNIQUE. *)
Definition insert_build (target : N) (full : bool) (db : Database) : option (IndexBuild * Database) :=
  if bool_decide (target ∈ (map_to_list db.(builds)).*2.*1) then None
  else
    let id := (db.(last_build) + 1)%N in
    Some (mkBuild id target full, mkDatabase db.(generation) (<[id := (target, Staging)]> db.(builds)) db.(pending) db.(active) db.(revisions) db.(entries) id db.(last_revision)).
(** A pending row refers to its build and its file, so the insertion fails once one of
    them is gone. *)
Definition put_pending (build : IndexBuild) (file : N) (revision : option N) (db : Database) : option Database :=
  match db.(builds) !! build.(build_id) with
  | Some _ =>
      if bool_decide (file ∈ db.(entries)) then
        Some (mkDatabase db.(generation) db.(builds) (<[(build.(build_id), file) := revision]> db.(pending)) db.(active) db.(revisions) db.(entries) db.(last_build) db.(last_revision))
      else None
  | None => None
  end.
Definition stage_file_update (build : IndexBuild) (file : N) (db : Database) : option (N * Database) :=
  let revision := (db.(last_revision) + 1)%N in
  let db := mkDatabase db.(generation) db.(builds) db.(pending) db.(active) (<[revision := file]> db.(revisions)) ({[file]} ∪ db.(entries)) db.(last_build) revision in
  pair revision <$> put_pending build file (Some revision) db.
(** Whether a row was staged. The query for the file and the insertion are two statements;
    [between] is what other connections do to the database in between. *)
Definition stage_delete_file (between : Database -> Database) (build : IndexBuild) (file : N) (db : Database) : option (bool * Database) :=
  if bool_decide (file ∈ db.(entries)) then pair true <$> put_pending build file None (between db) else Some (false, db).
Definition activate (active : gmap N N) (row : N * option N) : gmap N N :=
  match row.2 with Some revision => <[row.1 := revision]> active | None => delete row.1 active end.
Definition rows_of_build (id : N) (db : Database) : list (N * option N) :=
  omap (fun kv : N * N * option N => if bool_decide (kv.1.1 = id) then Some (kv.1.2, kv.2) else None) (map_to_list db.(pending)).
Definition commit_index_build (build : IndexBuild) (db : Database) : option Database :=
  match db.(builds) !! build.(build_id) with
  | Some (target, Staging) =>
      if bool_decide (target = build.(target_generation)) then
        Some (mkDatabase target (<[build.(build_id) := (target, Committed)]> db.(builds))
          (filter (fun kv : N * N * option N => kv.1.1 <> build.(build_id)) db.(pending))
          (foldl activate (if build.(full_rebuild) then ∅ else db.(active)) (rows_of_build build.(build_id) db))
          db.(revisions) db.(entries) db.(last_build) db.(last_revision))
      else None
  | _ => None
  end.
(** collect_inactive_revisions, over the files of the scope or over all *)
Definition in_scope (scope : option (gset N)) (file : N) : Prop := match scope with Some files => file ∈ files | None => True end.
#[export] Instance in_scope_dec scope file : Decision (in_scope scope file).
Proof. unfold in_scope. destruct scope; apply _. Defined.
Definition staged_revisions (db : Database) : list N := omap snd (map_to_list db.(pending)).
Definition staged_files (db : Database) : list N := (fun kv => kv.1.2) <$> map_to_list db.(pending).
Definition collect_inactive_revisions (scope : option (gset N)) (db : Database) : Database :=
  let kept := filter (fun rf : N * N => ~ (in_scope scope rf.2 /\ (rf.1 ∉ (map_to_list db.(active)).*2) /\ (rf.1 ∉ staged_revisions db))) db.(revisions) in
  let orphan file := in_scope scope file /\ (file ∉ (map_to_list db.(active)).*1) /\ (file ∉ staged_files db) /\ (file ∉ (map_to_list kept).*2) in
  mkDatabase db.(generation) db.(builds) db.(pending) db.(active) kept (filter (fun file => ~ orphan file) db.(entries)) db.(last_build) db.(last_revision).

(** ** Connections *)

(** A connection that builds keeps the rows it has staged, in their order. *)
Inductive Connection : Type :=
  | Cleared
  | Loaded (g : N)
  | Building (b : IndexBuild) (staged : list (N * option N)).
(** [deleting]: the connections between the two statements of stage_delete_file, with the
    file they have found. Such a connection does nothing else. *)
Record Store : Type := mkStore { database : Database; connections : gmap N Connection; deleting : gmap N N }.
Definition with_connection (c : N) (k : Connection) (db : Database) (s : Store) : Store := mkStore db (<[c := k]> s.(connections)) s.(deleting).
Inductive step (s : Store) : Store -> Prop :=
  (* begin_index_build: discard, possibly collect, read the generation, insert *)
  | Discard c : s.(deleting) !! c = None -> step s (with_connection c Cleared (discard_abandoned_index_builds s.(database)) s)
  | Collect scope : step s (mkStore (collect_inactive_revisions scope s.(database)) s.(connections) s.(deleting))
  | Load c : s.(connections) !! c = Some Cleared -> step s (with_connection c (Loaded s.(database).(generation)) s.(database) s)
  | Insert c g full b db : s.(connections) !! c = Some (Loaded g) -> insert_build (next_generation g) full s.(database) = Some (b, db) ->
      step s (with_connection c (Building b []) db s)
  | StageFile c b staged file revision db : s.(connections) !! c = Some (Building b staged) -> s.(deleting) !! c = None -> stage_file_update b file s.(database) = Some (revision, db) ->
      step s (with_connection c (Building b (staged ++ [(file, Some revision)])) db s)
  | FindDeleted c b staged file : s.(connections) !! c = Some (Building b staged) -> s.(deleting) !! c = None -> file ∈ s.(database).(entries) ->
      step s (mkStore s.(database) s.(connections) (<[c := file]> s.(deleting)))
  | StageDelete c b staged file db : s.(connections) !! c = Some (Building b staged) -> s.(deleting) !! c = Some file -> put_pending b file None s.(database) = Some db ->
      step s (mkStore db (<[c := Building b (staged ++ [(file, None)])]> s.(connections)) (delete c s.(deleting)))
  | Commit c b staged db : s.(connections) !! c = Some (Building b staged) -> s.(deleting) !! c = None -> commit_index_build b s.(database) = Some db ->
      step s (mkStore db (delete c s.(connections)) s.(deleting))
  (* an error, or the end of the process *)
  | Close c : step s (mkStore s.(database) (delete c s.(connections)) (delete c s.(deleting))).
Inductive reachable : Store -> Prop :=
  | Fresh g : (g <= u64_max)%N -> reachable (mkStore (mkDatabase g ∅ ∅ ∅ ∅ ∅ 0 0) ∅ ∅)
  | Next s s' : reachable s -> step s s' -> reachable s'.

(** ** What a list of staged rows does to the manifest *)

Definition staged_row (rows : list (N * option N)) (file : N) : option (option N) :=
  foldl (fun found row => if bool_decide (row.1 = file) then Some row.2 else found) None rows.
Lemma staged_row_snoc rows row file : staged_row (rows ++ [row]) file = if bool_decide (row.1 = file) then Some row.2 else staged_row rows file.
Proof. unfold staged_row. by rewrite foldl_app. Qed.
Lemma activate_lookup rows m file : foldl activate m rows !! file = match staged_row rows file with Some revision => revision | None => m !! file end.
Proof.
  induction rows as [|[f o] rows IH] using rev_ind; [done|]. rewrite foldl_app, staged_row_snoc. cbn [foldl fst snd]. unfold activate. cbn [fst snd].
  case_bool_decide as E; [subst; destruct o; [by rewrite lookup_insert_eq|by rewrite lookup_delete_eq]|].
  destruct o; [by rewrite lookup_insert_ne|by rewrite lookup_delete_ne].
Qed.
Lemma staged_row_of rows file o : NoDup rows.*1 -> (file, o) ∈ rows -> staged_row rows file = Some o.
Proof.
  induction rows as [|[f q] rows IH] using rev_ind; intros Hnd Hin; [by apply elem_of_nil in Hin|]. rewrite fmap_app in Hnd. apply NoDup_app in Hnd as (Hnd & Hdis & _).
  rewrite staged_row_snoc. cbn [fst snd]. apply elem_of_app in Hin as [Hin|[= -> ->]%list_elem_of_singleton]; [|by rewrite bool_decide_true].
  rewrite bool_decide_false; [by apply IH|]. intros ->. apply (Hdis file); [|by left]. apply list_elem_of_fmap. by exists (file, o).
Qed.
Lemma staged_row_none rows file : file ∉ rows.*1 -> staged_row rows file = None.
Proof.
  induction rows as [|[f q] rows IH] using rev_ind; intros Hn; [done|]. rewrite fmap_app, not_elem_of_app in Hn. destruct Hn as [Hn Hf]. rewrite staged_row_snoc. cbn [fst snd].
  rewrite bool_decide_false; [by apply IH|]. intros ->. apply Hf. by left.
Qed.
Lemma elem_of_build_rows id db file o : (file, o) ∈ rows_of_build id db <-> db.(pending) !! (id, file) = Some o.
Proof.
  unfold rows_of_build. rewrite list_elem_of_omap. split.
  - intros ([[i f] q] & Hin%elem_of_map_to_list & E). cbn in E. case_bool_decide; [|done]. injection E as -> ->. by subst.
  - intros H. exists ((id, file), o). split; [by apply elem_of_map_to_list|]. cbn. by rewrite bool_decide_true.
Qed.
Lemma rows_nodup id db : NoDup (rows_of_build id db).*1.
Proof.
  unfold rows_of_build. assert (NoDup (map_to_list (pending db)).*1) as Hnd by apply NoDup_fst_map_to_list. revert Hnd. generalize (map_to_list (pending db)) as l.
  induction l as [|[[i f] q] l IH]; [by constructor|]. intros [Hn Hnd]%NoDup_cons. cbn [omap list_omap]. cbn [fst snd]. case_bool_decide as E; [|by apply IH]. subst i.
  constructor; [|by apply IH]. intros Hx. apply list_elem_of_fmap in Hx as ([f' q'] & Ef & Hin). cbn in Ef. subst f'. apply list_elem_of_omap in Hin as ([[i' f''] q''] & Hin & E'). cbn in E'.
  case_bool_decide as E; [|done]. injection E' as -> ->. subst i'. apply Hn, list_elem_of_fmap. by exists ((id, f), q').
Qed.
Lemma rows_row id db file : staged_row (rows_of_build id db) file = db.(pending) !! (id, file).
Proof.
  destruct (db.(pending) !! (id, file)) as [o|] eqn:E; [by apply staged_row_of; [apply rows_nodup|apply elem_of_build_rows]|].
  apply staged_row_none. intros ([f o] & -> & Hin%elem_of_build_rows)%list_elem_of_fmap. cbn in E. congruence.
Qed.

(** ** The invariant *)

Definition belongs (db : Database) (revision file : N) : Prop := db.(revisions) !! revision = Some file /\ file ∈ db.(entries).
Record tables_ok (g0 : N) (db : Database) : Prop := {
  ok_staging id target : db.(builds) !! id = Some (target, Staging) -> target = next_generation db.(generation);
  ok_targets id id' target st st' : db.(builds) !! id = Some (target, st) -> db.(builds) !! id' = Some (target, st') -> id = id';
  ok_first : (g0 <= db.(generation) <= u64_max)%N;
  ok_committed h : (g0 <= h < db.(generation))%N -> exists id, db.(builds) !! id = Some (next_generation h, Committed);
  ok_ids id : is_Some (db.(builds) !! id) -> (id <= db.(last_build))%N;
  ok_revision_ids r : is_Some (db.(revisions) !! r) -> (r <= db.(last_revision))%N;
  ok_active file r : db.(active) !! file = Some r -> belongs db r file;
  ok_pending id file o : db.(pending) !! (id, file) = Some o -> is_Some (db.(builds) !! id) /\ file ∈ db.(entries) /\ forall r, o = Some r -> belongs db r file;
}.
Definition stages (db : Database) (b : IndexBuild) (staged : list (N * option N)) : Prop :=
  (b.(build_id) <= db.(last_build))%N /\
  forall target, db.(builds) !! b.(build_id) = Some (target, Staging) -> target = b.(target_generation) /\ forall file, db.(pending) !! (b.(build_id), file) = staged_row staged file.
Record store_ok (g0 : N) (s : Store) : Prop := {
  so_tables : tables_ok g0 s.(database);
  so_loaded c g : s.(connections) !! c = Some (Loaded g) -> (g0 <= g <= s.(database).(generation))%N;
  so_building c b staged : s.(connections) !! c = Some (Building b staged) -> stages s.(database) b staged;
  so_distinct c c' b b' staged staged' : s.(connections) !! c = Some (Building b staged) -> s.(connections) !! c' = Some (Building b' staged') ->
    b.(build_id) = b'.(build_id) -> c = c';
}.

(** ** The operations keep it *)

Lemma elem_of_targets db target : target ∈ (map_to_list db.(builds)).*2.*1 <-> exists id st, db.(builds) !! id = Some (target, st).
Proof.
  rewrite list_elem_of_fmap. setoid_rewrite list_elem_of_fmap. split.
  - intros ([t st] & -> & [id p] & E & Hin%elem_of_map_to_list). cbn in E. subst p. by exists id, st.
  - intros (id & st & H). exists (target, st). split; [done|]. exists (id, (target, st)). split; [done|]. by apply elem_of_map_to_list.
Qed.
Lemma elem_of_values {A} (m : gmap N A) x : x ∈ (map_to_list m).*2 <-> exists k, m !! k = Some x.
Proof. rewrite list_elem_of_fmap. split; [intros ([k y] & -> & H%elem_of_map_to_list); by exists k|intros (k & H); exists (k, x); split; [done|by apply elem_of_map_to_list]]. Qed.
Lemma elem_of_keys {A} (m : gmap N A) k : k ∈ (map_to_list m).*1 <-> is_Some (m !! k).
Proof. rewrite list_elem_of_fmap. split; [intros ([k' y] & -> & H%elem_of_map_to_list); by exists y|intros (y & H); exists (k, y); split; [done|by apply elem_of_map_to_list]]. Qed.
Lemma elem_of_staged_revisions db r : r ∈ staged_revisions db <-> exists k, db.(pending) !! k = Some (Some r).
Proof.
  unfold staged_revisions. rewrite list_elem_of_omap. split; [intros ([k y] & H%elem_of_map_to_list & E); cbn in E; subst; by exists k|].
  intros (k & H). exists (k, Some r). split; [by apply elem_of_map_to_list|done].
Qed.
Lemma elem_of_staged_files db f : f ∈ staged_files db <-> exists id o, db.(pending) !! (id, f) = Some o.
Proof.
  unfold staged_files. rewrite list_elem_of_fmap. split; [intros ([[id f'] y] & -> & H%elem_of_map_to_list); by exists id, y|].
  intros (id & o & H). exists ((id, f), o). split; [done|]. by apply elem_of_map_to_list.
Qed.

Lemma discard_builds db id t : (discard_abandoned_index_builds db).(builds) !! id = Some t <-> db.(builds) !! id = Some t /\ t.2 <> Staging.
Proof. cbn. rewrite map_lookup_filter_Some. done. Qed.
Lemma discard_ok g0 db : tables_ok g0 db -> tables_ok g0 (discard_abandoned_index_builds db).
Proof.
  intros []. split; try done.
  - intros id target [_ H]%discard_builds. done.
  - intros id id' target st st' [H _]%discard_builds [H' _]%discard_builds. by apply (ok_targets0 id id' target st st').
  - intros h Hh. destruct (ok_committed0 h Hh) as (id & H). exists id. by apply discard_builds.
  - intros id [t [H _]%discard_builds]. apply ok_ids0. by exists t.
  - intros id file o. cbn [discard_abandoned_index_builds pending]. rewrite map_lookup_filter_Some. cbn [fst snd]. intros [H1 H2]. destruct (ok_pending0 id file o H1) as (_ & ? & ?). done.
Qed.
Lemma discard_stages db b staged : stages db b staged -> stages (discard_abandoned_index_builds db) b staged.
Proof. intros [H _]. split; [done|]. by intros target [_ ?]%discard_builds. Qed.
Lemma collect_ok g0 scope db : tables_ok g0 db -> tables_ok g0 (collect_inactive_revisions scope db).
Proof.
  intros []. split; try done.
  - intros r [f H]. cbn [collect_inactive_revisions revisions] in H. apply map_lookup_filter_Some in H as [H _]. apply ok_revision_ids0. by exists f.
  - intros file r H. cbn [collect_inactive_revisions active] in H. destruct (ok_active0 file r H) as [H1 H2]. split.
    + cbn [collect_inactive_revisions revisions]. apply map_lookup_filter_Some. split; [done|]. intros (_ & Hn & _). apply Hn. apply elem_of_values. by exists file.
    + cbn [collect_inactive_revisions entries]. apply elem_of_filter. split; [|done]. intros (_ & Hn & _). apply Hn. apply elem_of_keys. by exists r.
  - intros id file o H. cbn [collect_inactive_revisions pending] in H. destruct (ok_pending0 id file o H) as (H1 & H2 & H3).
    assert (file ∈ (collect_inactive_revisions scope db).(entries)) as He.
    { cbn [collect_inactive_revisions entries]. apply elem_of_filter. split; [|done]. intros (_ & _ & Hn & _). apply Hn. apply elem_of_staged_files. by exists id, o. }
    split_and!; [done|done|]. intros r ->. destruct (H3 r eq_refl) as [H4 _]. split; [|done].
    cbn [collect_inactive_revisions revisions]. apply map_lookup_filter_Some. split; [done|]. intros (_ & _ & Hn). apply Hn. apply elem_of_staged_revisions. by exists (id, file).
Qed.
Lemma insert_spec g0 db g full b db' : tables_ok g0 db -> (g0 <= g <= db.(generation))%N -> insert_build (next_generation g) full db = Some (b, db') ->
  tables_ok g0 db' /\ db'.(generation) = db.(generation) /\ b.(build_id) = db'.(last_build) /\ (db.(last_build) < db'.(last_build))%N /\ stages db' b [] /\
  (forall b0 staged, stages db b0 staged -> stages db' b0 staged).
Proof.
  intros [] Hg. unfold insert_build. case_bool_decide as Hn; [done|]. intros [= <- <-]. rewrite elem_of_targets in Hn.
  assert (g = db.(generation)) as ->. { destruct (decide (g = db.(generation))); [done|]. destruct Hn. destruct (ok_committed0 g) as (id & H); [lia|]. by exists id, Committed. }
  assert (db.(builds) !! (db.(last_build) + 1)%N = None) as Hfresh.
  { destruct (builds db !! _) as [t|] eqn:E; [|done]. assert (last_build db + 1 <= last_build db)%N; [|lia]. apply ok_ids0. by exists t. }
  split_and!; cbn; [|done|done|lia| |].
  - split; cbn; try done.
    + intros id target. rewrite lookup_insert_Some. intros [[_ [= <-]]|[_ H]]; [done|by apply ok_staging0 in H].
    + intros id id' target st st' [[E1 E2]|[_ H]]%lookup_insert_Some [[E1' E2']|[_ H']]%lookup_insert_Some; simplify_eq; [done|..|by apply (ok_targets0 id id' target st st')];
        destruct Hn; by eauto.
    + intros h Hh. destruct (ok_committed0 h Hh) as (id & H). exists id. rewrite lookup_insert_ne; [done|]. intros <-. congruence.
    + intros id [t H]. apply lookup_insert_Some in H as [[<- _]|[_ H]]; [done|]. assert (id <= last_build db)%N; [|lia]. apply ok_ids0. by exists t.
    + intros id file o H. destruct (ok_pending0 id file o H) as (H1 & H2 & H3). split_and!; [|done|done]. apply lookup_insert_is_Some'. by right.
  - split; [cbn; lia|]. cbn. intros target. rewrite lookup_insert_eq. intros [= <-]. split; [done|]. intros file. destruct (pending db !! _) as [o|] eqn:E; [|done].
    destruct (ok_pending0 _ _ _ E) as ([t Ht] & _). congruence.
  - intros b0 staged [H1 H2]. split; [cbn; lia|]. cbn. intros target. rewrite lookup_insert_ne by lia. apply H2.
Qed.
(** What staging leaves: the generation, the active rows and the builds. *)
Record staged_by (b : IndexBuild) (rows : list (N * option N)) (db db' : Database) : Prop := {
  sb_generation : db'.(generation) = db.(generation);
  sb_own staged : stages db b staged -> stages db' b (staged ++ rows);
  sb_other b0 staged : b0.(build_id) <> b.(build_id) -> stages db b0 staged -> stages db' b0 staged;
}.
Lemma put_pending_ok g0 db b file o db' : tables_ok g0 db -> (forall r, o = Some r -> belongs db r file) -> put_pending b file o db = Some db' ->
  tables_ok g0 db' /\ staged_by b [(file, o)] db db'.
Proof.
  intros Hok Ho. unfold put_pending. destruct (builds db !! _) as [t|] eqn:E; [|done]. case_bool_decide as Hf; [|done]. intros [= <-]. split.
  - destruct Hok. split; cbn; try done. intros id f q. rewrite lookup_insert_Some. intros [[[= <- <-] <-]|[_ H]]; [|by apply ok_pending0]. split_and!; [by exists t|done|done].
  - split; [done| |].
    + intros staged [H1 H2]. split; [done|]. cbn. intros target Ht. destruct (H2 target Ht) as [-> Hp]. split; [done|]. intros f. rewrite staged_row_snoc. cbn [fst snd].
      case_bool_decide as Ef; [subst; by rewrite lookup_insert_eq|]. rewrite lookup_insert_ne by congruence. apply Hp.
    + intros b0 staged Hne [H1 H2]. split; [done|]. cbn. intros target Ht. destruct (H2 target Ht) as [-> Hp]. split; [done|]. intros f. rewrite lookup_insert_ne by congruence. apply Hp.
Qed.
Lemma stage_file_ok g0 db b file r db' : tables_ok g0 db -> stage_file_update b file db = Some (r, db') ->
  tables_ok g0 db' /\ staged_by b [(file, Some r)] db db'.
Proof.
  intros Hok. unfold stage_file_update. cbv zeta. set (db1 := mkDatabase _ _ _ _ _ _ _ _). destruct (put_pending _ _ _ _) as [db2|] eqn:E; [|done]. intros [= <- <-].
  assert (db.(revisions) !! (db.(last_revision) + 1)%N = None) as Hfresh.
  { destruct (revisions db !! _) as [f|] eqn:E'; [|done]. assert (last_revision db + 1 <= last_revision db)%N; [|lia]. apply (ok_revision_ids g0 _ Hok). by exists f. }
  assert (forall r f, belongs db r f -> belongs db1 r f) as Hb.
  { intros r f [H1 H2]. split; cbn; [rewrite lookup_insert_ne; [done|congruence]|set_solver]. }
  assert (tables_ok g0 db1) as Hok1.
  { destruct Hok. split; cbn; try done.
    - intros r [f H]. apply lookup_insert_Some in H as [[<- _]|[_ H]]; [done|]. assert (r <= last_revision db)%N; [|lia]. apply ok_revision_ids0. by exists f.
    - intros f r H. by apply Hb, ok_active0.
    - intros id f o H. destruct (ok_pending0 id f o H) as (? & ? & H3). split_and!; [done|set_solver|]. intros r Hr. by apply Hb, H3. }
  destruct (put_pending_ok g0 db1 b file (Some (db.(last_revision) + 1)%N) db2 Hok1 ltac:(intros r0 [= <-]; split; cbn; [by rewrite lookup_insert_eq|set_solver]) E) as [H1 []].
  split; [done|]. by split.
Qed.
Lemma next_generation_cases g : (g <= u64_max)%N -> next_generation g = (g + 1)%N /\ (g < u64_max)%N \/ next_generation g = g /\ g = u64_max.
Proof. unfold next_generation, saturating_add, usize_max, u64_max. lia. Qed.
Lemma commit_tables_ok g0 db b staged db' : tables_ok g0 db -> stages db b staged -> commit_index_build b db = Some db' ->
  tables_ok g0 db' /\ db'.(generation) = next_generation db.(generation) /\
  db'.(active) = foldl activate (if b.(full_rebuild) then ∅ else db.(active)) staged /\
  (forall b0 staged0, b0.(build_id) <> b.(build_id) -> stages db b0 staged0 -> stages db' b0 staged0).
Proof.
  intros Hok [Hid Hs]. unfold commit_index_build. destruct (builds db !! build_id b) as [[target [|]]|] eqn:E; [|done..]. case_bool_decide as Et; [|done]. intros [= <-].
  pose proof (ok_staging _ _ Hok _ _ E) as Hn. pose proof (next_generation_cases _ (proj2 (ok_first _ _ Hok))) as Hcase.
  destruct (Hs target eq_refl) as [_ Hp].
  assert (foldl activate (if b.(full_rebuild) then ∅ else db.(active)) (rows_of_build b.(build_id) db) = foldl activate (if b.(full_rebuild) then ∅ else db.(active)) staged) as Hact.
  { apply map_eq. intros f. by rewrite !activate_lookup, rows_row, Hp. }
  split; [|split; [exact Hn|split; [exact Hact|]]].
  - split; cbn [generation builds pending active revisions entries last_build last_revision]; try apply Hok.
    + intros id t. rewrite lookup_insert_Some. intros [[_ [=]]|[Hne H]]. pose proof (ok_staging _ _ Hok _ _ H). subst t.
      destruct Hne. rewrite Hn in E. by apply (ok_targets _ _ Hok _ _ _ _ _ E H).
    + intros id id' t st st' [[E1 E2]|[_ H]]%lookup_insert_Some [[E1' E2']|[_ H']]%lookup_insert_Some; simplify_eq; [done|..].
      * by apply (ok_targets _ _ Hok _ _ _ _ _ E H').
      * by apply (ok_targets _ _ Hok _ _ _ _ _ H E).
      * by apply (ok_targets _ _ Hok _ _ _ _ _ H H').
    + pose proof (ok_first _ _ Hok). lia.
    + intros h Hh. rewrite Hn in Hh. destruct (decide (h = db.(generation))) as [->|Hne].
      * exists b.(build_id). by rewrite lookup_insert_eq, Hn.
      * destruct (ok_committed _ _ Hok h) as (id & H); [lia|]. exists id. rewrite lookup_insert_ne; [done|]. intros <-. congruence.
    + intros id [t H]. apply (ok_ids _ _ Hok). apply lookup_insert_Some in H as [[<- _]|[_ H]]; [by eexists|by eexists].
    + intros f r H. rewrite activate_lookup, rows_row in H. destruct (pending db !! _) as [o|] eqn:Ep.
      * subst o. by apply (ok_pending _ _ Hok _ _ _ Ep).
      * destruct (full_rebuild b); [by rewrite lookup_empty in H|by apply (ok_active _ _ Hok)].
    + intros id f o. rewrite map_lookup_filter_Some. cbn [fst snd]. intros [H Hne]. destruct (ok_pending _ _ Hok id f o H) as (H1 & H2 & H3). split_and!; [|done|done].
      apply lookup_insert_is_Some'. by right.
  - intros b0 staged0 Hne [H1 H2]. split; [done|]. cbn. intros t. rewrite lookup_insert_ne by done. intros Ht. destruct (H2 t Ht) as [-> Hq]. split; [done|].
    intros f. rewrite <- Hq. destruct (pending db !! (build_id b0, f)) as [o|] eqn:Ep.
    + apply map_lookup_filter_Some. split; [done|]. cbn. done.
    + apply map_lookup_filter_None. by left.
Qed.

Lemma store_step_ok g0 s s' : store_ok g0 s -> step s s' -> store_ok g0 s'.
Proof.
  intros [Ht Hl Hb Hd] Hs.
  assert (forall c k, (forall b staged, k <> Building b staged) -> forall c1 b staged, <[c := k]> (connections s) !! c1 = Some (Building b staged) -> connections s !! c1 = Some (Building b staged)) as Hkeep.
  { intros c k Hk c1 b staged [[_ ->]|[_ H]]%lookup_insert_Some; [by destruct (Hk b staged)|done]. }
  destruct Hs; cbn [with_connection] in *.
  - split; cbn; [by apply discard_ok| | |].
    + intros c1 g [[_ [=]]|[_ Hc]]%lookup_insert_Some. by apply (Hl c1).
    + intros c1 b staged Hc%Hkeep; [|done]. by apply discard_stages, (Hb c1).
    + intros c1 c2 b b' st st' H1%Hkeep H2%Hkeep; [|done..]. by apply (Hd c1 c2 b b' st st').
  - split; cbn; [by apply collect_ok|done| |done]. exact Hb.
  - split; cbn; [done| | |].
    + intros c1 g [[_ [= <-]]|[_ H1]]%lookup_insert_Some; [|by apply (Hl c1)]. pose proof (ok_first _ _ Ht). lia.
    + intros c1 b staged H1%Hkeep; [|done]. by apply (Hb c1).
    + intros c1 c2 b b' st st' H1%Hkeep H2%Hkeep; [|done..]. by apply (Hd c1 c2 b b' st st').
  - destruct (insert_spec g0 _ g full b db Ht (Hl c g H) H0) as (H1 & H2 & H3 & H4 & H5 & H6). split; cbn; [done| | |].
    + intros c1 g' [[_ [=]]|[_ Hc]]%lookup_insert_Some. rewrite H2. by apply (Hl c1).
    + intros c1 b1 st [[_ [= <- <-]]|[_ Hc]]%lookup_insert_Some; [done|]. by apply H6, (Hb c1).
    + intros c1 c2 b1 b2 st st' [[<- E1]|[_ Hc1]]%lookup_insert_Some [[<- E2]|[_ Hc2]]%lookup_insert_Some E; [done|..|by apply (Hd c1 c2 b1 b2 st st')].
      * injection E1 as <- _. destruct (Hb c2 b2 st' Hc2) as [Hle _]. lia.
      * injection E2 as <- _. destruct (Hb c1 b1 st Hc1) as [Hle _]. lia.
  - destruct (stage_file_ok g0 _ b file revision db Ht H1) as [Ht' []]. split; cbn; [done| | |].
    + intros c1 g [[_ [=]]|[_ Hc]]%lookup_insert_Some. rewrite sb_generation0. by apply (Hl c1).
    + intros c1 b1 st [[_ [= <- <-]]|[Hne Hc]]%lookup_insert_Some; [by apply sb_own0, (Hb c)|]. apply sb_other0; [|by apply (Hb c1)]. intros E. by apply Hne, (Hd c c1 b b1 staged st).
    + intros c1 c2 b1 b2 st st' [[<- E1]|[_ Hc1]]%lookup_insert_Some [[<- E2]|[_ Hc2]]%lookup_insert_Some E; simplify_eq; [done|..]; by eapply Hd.
  - by split.
  - destruct (put_pending_ok g0 _ b file None db Ht ltac:(done) H1) as [Ht' []]. split; cbn; [done| | |].
    + intros c1 g [[_ [=]]|[_ Hc]]%lookup_insert_Some. rewrite sb_generation0. by apply (Hl c1).
    + intros c1 b1 st [[_ [= <- <-]]|[Hne Hc]]%lookup_insert_Some; [by apply sb_own0, (Hb c)|]. apply sb_other0; [|by apply (Hb c1)]. intros E. by apply Hne, (Hd c c1 b b1 staged st).
    + intros c1 c2 b1 b2 st st' [[<- E1]|[_ Hc1]]%lookup_insert_Some [[<- E2]|[_ Hc2]]%lookup_insert_Some E; simplify_eq; [done|..]; by eapply Hd.
  - destruct (commit_tables_ok g0 _ b staged db Ht (Hb c b staged H) H1) as (Ht' & H2 & _ & H3). split; cbn; [done| | |].
    + intros c1 g [_ Hc]%lookup_delete_Some. rewrite H2. pose proof (Hl c1 g Hc). pose proof (next_generation_cases _ (proj2 (ok_first _ _ Ht))). lia.
    + intros c1 b1 st [Hne Hc]%lookup_delete_Some. apply H3; [|by apply (Hb c1)]. intros E. by apply Hne, (Hd c c1 b b1 staged st).
    + intros c1 c2 b1 b2 st st' [_ Hc1]%lookup_delete_Some [_ Hc2]%lookup_delete_Some. by apply (Hd c1 c2 b1 b2 st st').
  - split; cbn; [done| | |].
    + intros c1 g [_ Hc]%lookup_delete_Some. by apply (Hl c1).
    + intros c1 b1 st [_ Hc]%lookup_delete_Some. by apply (Hb c1).
    + intros c1 c2 b1 b2 st st' [_ Hc1]%lookup_delete_Some [_ Hc2]%lookup_delete_Some. by apply (Hd c1 c2 b1 b2 st st').
Qed.
(** stage_delete_file, whatever the other connections do between its statements *)
Lemma stage_delete_steps s s' c b staged file db : s.(connections) !! c = Some (Building b staged) -> s.(deleting) !! c = None ->
  rtc step (mkStore s.(database) s.(connections) (<[c := file]> s.(deleting))) s' -> s'.(connections) !! c = Some (Building b staged) -> s'.(deleting) !! c = Some file ->
  stage_delete_file (fun _ => s'.(database)) b file s.(database) = Some (true, db) ->
  rtc step s (mkStore db (<[c := Building b (staged ++ [(file, None)])]> s'.(connections)) (delete c s'.(deleting))).
Proof.
  intros Hc Hd Hrun Hc' Hd' H. unfold stage_delete_file in H. case_bool_decide as Hf; [|done]. destruct (put_pending _ _ _ _) as [db'|] eqn:E; [|done]. injection H as <-.
  eapply rtc_l; [by apply (FindDeleted s c b staged file)|]. eapply rtc_r; [exact Hrun|by apply StageDelete].
Qed.
Lemma reachable_store_ok s : reachable s -> exists g0, store_ok g0 s.
Proof.
  induction 1 as [g Hg|s s' _ [g0 IH] Hs]; [|exists g0; by eapply store_step_ok]. exists g. split; cbn; try by intros; simplify_map_eq.
  split; cbn; try by intros; simplify_map_eq. intros h Hh. lia.
Qed.
(** Collecting never takes what the manifest or a build still refers to. *)
Theorem manifest_rows_exist s file r : reachable s -> s.(database).(active) !! file = Some r ->
  s.(database).(revisions) !! r = Some file /\ file ∈ s.(database).(entries) /\ (forall file', s.(database).(active) !! file' = Some r -> file' = file).
Proof.
  intros (g0 & [Ht _ _ _])%reachable_store_ok H. destruct (ok_active _ _ Ht file r H) as [H1 H2]. split_and!; [done|done|].
  intros file' H'. destruct (ok_active _ _ Ht file' r H') as [H3 _]. congruence.
Qed.

(** C36 However the builds of several connections interleave, a commit that succeeds advances the
    generation by one and puts into the manifest exactly what its own run has staged, over an
    empty manifest for a full rebuild and over the current one otherwise; every active
    revision is a stored revision of its file. *)
Theorem commit_publishes_own_build s c b staged db : reachable s -> s.(connections) !! c = Some (Building b staged) -> commit_index_build b s.(database) = Some db ->
  ((s.(database).(generation) < u64_max)%N -> db.(generation) = (s.(database).(generation) + 1)%N) /\
  db.(active) = foldl activate (if b.(full_rebuild) then ∅ else s.(database).(active)) staged /\
  forall file r, db.(active) !! file = Some r -> db.(revisions) !! r = Some file.
Proof.
  intros (g0 & [Ht _ Hb _])%reachable_store_ok Hc Hcommit. destruct (commit_tables_ok g0 _ b staged db Ht (Hb c b staged Hc) Hcommit) as (H1 & H2 & H3 & _).
  split_and!; [|exact H3|intros file r [H _]%(ok_active _ _ H1); exact H]. intros Hmax. rewrite H2. destruct (next_generation_cases _ (proj2 (ok_first _ _ Ht))); lia.
Qed.

(** ** Examples *)

(** The first connection stages a file and is overtaken: the second discards its build and
    commits, and the first can neither stage nor commit any more. *)
Definition example_store (n : nat) : option Store :=
  let start := mkDatabase 4 ∅ ∅ ∅ ∅ ∅ 0 0 in
  '(b1, db) ← insert_build (next_generation 4) false (discard_abandoned_index_builds start);
  '(r1, db) ← stage_file_update b1 10 db;
  let db := discard_abandoned_index_builds db in
  '(b2, db) ← insert_build (next_generation 4) false db;
  '(r2, db) ← stage_file_update b2 20 db;
  match n with
  | 0 => Some (mkStore db {[1%N := Building b1 [(10%N, Some r1)]; 2%N := Building b2 [(20%N, Some r2)]]} ∅)
  | _ => db ← commit_index_build b2 db; Some (mkStore db {[1%N := Building b1 [(10%N, Some r1)]]} ∅)
  end.
Example overtaken_build : exists s s' b1 b2,
  example_store 0 = Some s /\ example_store 1 = Some s' /\ s.(connections) !! 1%N = Some (Building b1 [(10%N, Some 1%N)]) /\
  s.(connections) !! 2%N = Some (Building b2 [(20%N, Some 2%N)]) /\ commit_index_build b1 s.(database) = None /\
  s'.(database).(active) = {[20%N := 2%N]} /\ s'.(database).(generation) = 5%N /\ commit_index_build b1 s'.(database) = None /\
  stage_file_update b1 11 s'.(database) = None /\ insert_build (next_generation 4) false s'.(database) = None.
Proof. do 4 eexists. split; [vm_compute; reflexivity|]. split; [vm_compute; reflexivity|]. split_and!; by vm_compute. Qed.
Definition example_committing : Store := default (mkStore (mkDatabase 0 ∅ ∅ ∅ ∅ ∅ 0 0) ∅ ∅) (example_store 0).
Lemma example_committing_reachable : reachable example_committing.
Proof.
  pose proof (Fresh 4 ltac:(by vm_compute)) as H0.
  eassert (reachable _) as H1 by (eapply (Next _ _ H0), (Discard _ 1); vm_compute; reflexivity).
  eassert (reachable _) as H2 by (eapply (Next _ _ H1), (Load _ 1); vm_compute; reflexivity).
  eassert (reachable _) as H3 by (eapply (Next _ _ H2), (Insert _ 1 4 false); vm_compute; reflexivity).
  eassert (reachable _) as H4 by (eapply (Next _ _ H3), (StageFile _ 1 _ _ 10); vm_compute; reflexivity).
  eassert (reachable _) as H5 by (eapply (Next _ _ H4), (Discard _ 2); vm_compute; reflexivity).
  eassert (reachable _) as H6 by (eapply (Next _ _ H5), (Load _ 2); vm_compute; reflexivity).
  eassert (reachable _) as H7 by (eapply (Next _ _ H6), (Insert _ 2 4 false); vm_compute; reflexivity).
  eassert (reachable _) as H8 by (eapply (Next _ _ H7), (StageFile _ 2 _ _ 20); vm_compute; reflexivity).
  match type of H8 with reachable ?s => assert (example_committing = s) as ->; [vm_compute; reflexivity|exact H8] end.
Qed.
Lemma commit_publishes_own_build_witness : exists db, commit_index_build (mkBuild 2 5 false) example_committing.(database) = Some db /\
  db.(generation) = 5%N /\ db.(active) = foldl activate ∅ [(20%N, Some 2%N)].
Proof.
  eassert (commit_index_build (mkBuild 2 5 false) example_committing.(database) = Some _) as H by (vm_compute; reflexivity).
  destruct (commit_publishes_own_build example_committing 2 (mkBuild 2 5 false) [(20%N, Some 2%N)] _ example_committing_reachable ltac:(vm_compute; reflexivity) H) as (Hg & Ha & _).
  eexists. split; [exact H|]. split; [by rewrite (Hg ltac:(by vm_compute))|exact Ha].
Defined.
